(* ===== verification/_CoqProject ===== *)
-Q . S2P
Prelude.v
GoPath.v
Entries.v
Ranges.v
March.v
DirTree.v
Pipe.v
UnionPolicy.v
Union.v
Writeback.v
Rename.v
SyncState.v
Sync.v
Utf8.v
Streams.v
CryptData.v
CryptName.v
Encoder.v
Hash.v
OpenOptions.v
ReOpen.v
FsErrors.v
Backend.v
Equal.v
Partial.v
Copy.v
MoveFile.v
Regexp.v
Glob.v
Filter.v
FsPath.v
Listing.v
Walk.v
PoolRW.v
ChunkedReader.v
ParallelReader.v
Pacer.v
VfsRead.v
