(* ===== verification/Prelude.v ===== *)
(** * A verification library for zClone

    zClone copies, moves and synchronises files between file systems
    ("remotes"), and serves them as a virtual file system.  This library models
    the parts of it that decide what happens to files and proves what makes
    them correct.  Definitions are translated from the Go sources under src/
    and keep their names; machine integers are [Z] with their wrap-around
    ([i64]), Go maps are [gmap], slices are lists with their bounds, errors are
    values of a sum or an [option], panics are values too, and goroutines are
    step relations whose steps interleave in any order.

    ** The program and its model

    A sync ([fs/sync]) walks the source and the destination in lock step
    ([fs/march]): for each directory it sorts and matches the two listings and
    calls the sync back for entries that are only at the source, only at the
    destination, or at both.  The callbacks put pairs of objects into pipes
    ([fs/sync/pipe.go]) from which checkers, renamers and transfers take them;
    files that are only at the destination are deleted, or renamed to serve
    files that are only at the source.  What happens to one file is the business
    of [fs/operations]: whether it is to be transferred, the copy under a
    partial name, its verification and retries, moves, backups and deletions.
    Listings that arrive out of order are
    collected in a tree ([fs/dirtree]).  The union backend ([backend/union])
    merges several remotes into one and chooses by policy which of them an
    operation acts on.  The virtual file system keeps which parts of a file are
    in its cache as a set of ranges ([lib/ranges]) and uploads changed files
    through a queue ([vfs/vfscache/writeback]).  The crypt backend
    ([backend/crypt]) encrypts the contents and the names of files on another
    remote, and every backend encodes the characters in names that its storage
    refuses ([lib/encoder]).  Which files and directories a run looks at is
    decided by globs and rules ([fs/filter]), and which remote a text such as
    sftp,host=h:dir means by a parser ([fs/fspath]).  Directories are listed,
    filtered and sorted by [fs/list] and walked by [fs/walk], one by one or
    from one recursive listing.  The virtual file system reads objects chunk by
    chunk, with one stream or several ([fs/chunkedreader], [lib/pool]), and the
    backends pace and retry their calls ([lib/pacer]).

    - [Prelude]: 64 bit integers, Go's binary search and stable sort, lemmas
      and tactics shared by all files ([breflect], [case_if], [len]).
    - [GoPath]: the functions of Go's packages path, strings and strconv that
      the sources use, and the theory of clean relative paths.
    - [Entries]: objects, directories and their order (fs/direntries.go).
    - [Ranges]: lib/ranges/ranges.go, every function.
    - [March]: fs/march/march.go: keys, [matchListings], [processJob], and
      [Run] as a pool of workers over a queue of jobs.
    - [DirTree]: fs/dirtree/dirtree.go: adding entries, completing parents,
      pruning.
    - [Pipe]: fs/sync/pipe.go: --order-by, the bounded queue and its clients.
    - [UnionPolicy]: backend/union/policy: all the policies.
    - [Union]: backend/union: the operations that use the policies, the merge
      of listings and of errors, the multi reader, the accounting of space.
    - [Writeback]: vfs/vfscache/writeback/writeback.go: the queue, its timer,
      uploads, cancellation.
    - [Rename]: the rename map of fs/sync/sync.go.
    - [SyncState]: errors, options, state and directory bookkeeping of
      fs/sync/sync.go.
    - [Sync]: the callbacks, the workers and [run] of fs/sync/sync.go.
    - [Utf8]: Go's strings as bytes and as sequences of runes and bad bytes.
    - [CryptData]: backend/crypt/cipher.go, contents: keys, nonces, sizes,
      encrypter, decrypter and seeking; lib/readers/readfill.go.
    - [CryptName]: backend/crypt/cipher.go, names: segments, obfuscation, paths;
      backend/crypt/pkcs7; lib/version.
    - [Encoder]: lib/encoder/encoder.go: [Encode], [Decode] and the standard
      encoding of paths.
    - [Streams]: readers, as states with a step, and what they deliver.
    - [Hash]: fs/hash/hash.go: hash types, sets and the multi hasher.
    - [OpenOptions]: fs/open_options.go: ranges, seeks and headers.
    - [ReOpen]: fs/operations/reopen.go: the reader that reopens its source.
    - [FsErrors]: fs/fserrors/error.go and lib/errors: the classes of errors.
    - [Backend]: what the operations ask of a remote, of the user and of the
      stats, as a type of calls; programs over them and the logic of their
      traces; [SkipDestructive], [Retry], [CountError] of fs/operations.
    - [Equal]: fs/operations/operations.go: [equal], [NeedTransfer], hashes.
    - [Partial]: fs/operations/copy.go: the names of partial uploads.
    - [Copy]: fs/operations/copy.go, multithread.go and [rcatSrc].
    - [MoveFile]: fs/operations/operations.go: moves, deletions, backups,
      --compare-dest, --copy-dest, the operation on single files.
    - [Regexp]: the part of Go's package regexp that the sources use: syntax,
      parser, semantics and a matcher that is proved to meet it.
    - [Glob]: fs/filter/glob.go: globs as regular expressions, the globs of the
      directories to list.
    - [Filter]: fs/filter/rules.go and filter.go: rules, files of rules, the
      construction of a filter and its decisions.
    - [FsPath]: fs/fspath/path.go: names, connection strings, splitting and
      joining; the printers of fs/config/configmap.
    - [Listing]: fs/list: filtering and sorting of a directory, pages, the
      sorter that goes over to the disk.
    - [Walk]: fs/walk/walk.go: the workers that walk directories, the tree and
      the completion of a recursive listing.
    - [PoolRW]: lib/pool/reader_writer.go: the buffer of pages.
    - [ChunkedReader]: fs/chunkedreader: [New] and sequential.go, and the file
      with a position that a chunked reader stands for.
    - [ParallelReader]: fs/chunkedreader/parallel.go: several downloads at once.
    - [VfsRead]: vfs/read.go: read only handles, over [ChunkedReader].
    - [Pacer]: lib/pacer and fs/pacer.go: calculators, calls and their tokens.

    ** Interfaces

    [March.Marcher] is the interface of the callbacks; the march is proved for
    every marcher that decides from the entries whether to recurse
    ([March.decides]), and [Sync.sync_marcher_decides] shows that a sync is
    one.  [Pipe.Deheap] states what the double ended heap of another project
    promises; [Pipe.selection] shows that it can be met.
    [SyncState.Operations] is what a sync asks of fs/operations, the file
    systems and the stats: functions with no laws, so the theorems about a sync
    hold whatever these answer.  The policies meet [UnionPolicy.contract], on
    which the theorems about the union operations rest.
    [CryptData.Secretbox] states what the authenticated cipher promises,
    [CryptName.NameTransform] what the wide block cipher of names does and
    [CryptName.fileNameEncoding] is the interface of the source, met by base32;
    [Streams.Reads] is what a reader delivers whatever buffers it is read
    with, proved of the encrypter, of the decrypter and of the reopening reader.
    [Backend.Env] answers the calls of the operations: an answer may depend on
    all the calls before it, so nothing is assumed of a remote, except where a
    theorem asks for [Backend.Honest], that an object returned for a name has
    that name.  [Regexp.GoRegexp] holds case folding and the patterns in richer
    syntax, [Filter.FilterEnv] the files of rules, the clock and the hashes of
    names, [FsPath.Tables] the Unicode letters and numbers.
    [ChunkedReader.Implements] is what a chunked reader promises, that it is a
    file with a position; the sequential and the parallel one are instances.
    [Pacer.Calculator] is the interface of the source; the theorems on calls hold
    for every calculator.  [Listing.Filtering] is what listings ask of a filter, met by
    [Listing.filter_filtering] with the filter of [Filter]; [Listing.Lister] is
    what they ask of a remote and [Listing.ExtSort] the sort on disk.

    ** What the theorems show

    - March: the two listings are matched exactly by key and type, duplicates
      are dropped, the events do not depend on the scheduling of the
      workers, and the run ends.
    - Sync: every source object is accounted for in every interleaving; a run
      without an error and not cut short has no failed transfer; only extra
      files are deleted, never a renamed one, and after errors none; a copy
      removes nothing at the source; renames pair files that agree as the
      strategy asks, each destination file once; the options that are let
      through; which source directories count as empty; directories are removed
      children first.
    - Pipe: no pair is lost or delivered twice, the bound on the backlog, and
      the documented order of --order-by.
    - DirTree: entries are placed with their parents, all parents exist after
      [CheckParents], [Prune] removes exactly what it should in every order of
      map iteration.
    - Ranges: the set of ranges stays sorted and disjoint and every operation
      computes the set it should, without overflow.
    - Union: the contract of every policy, the selections, the merge of
      listings, creation of directories on the chosen remotes, the errors of a
      listing, and that actions touch writable remotes only.
    - Writeback: an item that can be looked up is on the heap or being
      uploaded, uploads are counted and bounded, the timer is set.
    - Crypt: what is encrypted decrypts to itself, on streams and buffers of any
      size and with seeks to any offset; a decrypter delivers nothing that did
      not authenticate and never panics; the sizes are inverse to each other;
      names decrypt to themselves.
    - Encoder: which names come back from [Decode] unchanged, exactly, for every
      mask and all bytes; paths go to a backend and back.
    - ReOpen: a reader that reopens its source after errors delivers the range
      asked for, or an error.
    - Operations: two files are equal exactly when size, hash or time say so
      under the options; a copy writes only its partial name until the copy is
      verified and moved to the real name, a copy that fails removes what it
      wrote, a move removes the source only after such a copy, and a dry run
      changes nothing.
    - Filter: a glob matches the paths that a reference definition matches; a
      directory above an included file is included; --files-from includes the
      listed files and the directories above them; a hash filter partitions.
    - FsPath: which names are legal; connection strings that are printed parse
      back; what is parsed is made up of the text; a joined path stays below
      its root.
    - Walk: every directory is visited once, after its parent, in every
      schedule; the tree of a recursive listing is that of the directories one
      by one; the directories that are made up are those that are missing; a
      listing in pages gives what a listing at once gives.
    - Chunked readers: any sequence of calls gives the bytes at the position,
      whatever the streams below do; both readers give the same bytes; a buffer
      of pages is a flat array; a handle of the virtual file system gives the
      bytes of its file at the offset of each read, whatever fails.
    - Pacer: no more connections than allowed, no timer that waits, every call
      returns; the pauses stay within their limits, double and come back.
    - Theorems of kind "error" exhibit behaviours that a comment or the intent
      of the code rules out: a cancelled sync that reports success, deletions
      after a soft deadline, panics on particular inputs, lost errors, an
      upload of a removed file, names that come back changed, a partial upload
      that is left, a source deleted without a copy, an included file
      in a directory that is not listed, levels counted from the wrong
      directory, a file that ends early after an error.  Not all of them are
      properties of the manifest; its findings list them.

    ** Bounds and fuel

    Loops with no structural measure take fuel and a lemma shows that the fuel
    given is enough: [March.match_loop_fuel] (one round per entry),
    [Ranges.FindAll_total], [sort_search_loop_spec] (the interval halves),
    [SyncState.mark_parents_clean] (a path is longer than its parent).
    [CryptData.ReadFill] takes one round per byte wanted and per empty read,
    [Utf8.items] one per byte; base32 one per group; the parser of regular
    expressions two per character ([Glob.compile_tokens] shows that it reads
    what globs give), [Glob.dir_globs] one per character and
    [Filter.add_parents] and [Walk.dm_add] one per element of the path
    ([Walk.dm_fuel_enough]); [Walk.reach] takes one per level of directories and
    its theorems ask for enough.  The reads of [PoolRW], [ChunkedReader] and
    [ParallelReader] take one turn per byte wanted at most, a stream of the
    latter one per piece that arrives; where it would wait for ever it has no
    result.  [MoveFile.move] calls
    itself once more, for the moves to a temporary name and back; should the
    names of these be equal up to case again, which the transformation of names
    could do, the model runs out of fuel where the code would go on.  The
    number of tries of a copy is structural.  The
    unbounded behaviours (worker pools, pipes, the write back queue, pruning in
    the order of a map) are relations; for [March.run_step] and
    [DirTree.prune_step], [Walk.walk_step] and [Pacer.step] termination is
    proved for every schedule.

    ** What is not modelled

    The file systems and their protocols, the stats, messages and
    loggers, and the commands.  Code of other projects (deheap, Unicode
    normalisation, secretbox, scrypt, AES and EME) is a
    parameter.  Case folding of names is modelled on ASCII.  [MoveDir] and the
    entry points of fs/sync, the reports of the write back queue, and the parts
    of the union backend that only forward a call are left out; the component
    list of the manifest has the details.  In a step of [Sync.step] a worker
    handles its pair as a whole.

    Next: fs/operations as an instance of [SyncState.Operations];
    the items of vfs/vfscache; bisync's deltas. *)
From Stdlib Require Export ZArith Lia Ascii.
From stdpp Require Export base tactics list strings numbers sorting sets gmap.

#[export] Set Default Goal Selector "!".
Open Scope string_scope.
Open Scope list_scope.
Open Scope Z_scope.

(** ** Machine integers

    Go's [int64] as a [Z] with its two's complement wrap-around. *)
Definition i64_min : Z := - 2 ^ 63.
Definition i64_max : Z := 2 ^ 63 - 1.

(** Reduction of an exact result to 64 bits, two's complement. *)
Definition i64 (z : Z) : Z := (z + 2 ^ 63) mod 2 ^ 64 - 2 ^ 63.

Definition in_i64 (z : Z) : Prop := i64_min <= z <= i64_max.

#[export] Instance in_i64_dec z : Decision (in_i64 z).
Proof. unfold in_i64. apply _. Defined.

Lemma i64_id z : in_i64 z -> i64 z = z.
Proof.
  unfold in_i64, i64, i64_min, i64_max. intros H.
  rewrite Z.mod_small; lia.
Qed.

Lemma i64_in z : in_i64 (i64 z).
Proof.
  unfold in_i64, i64, i64_min, i64_max.
  pose proof (Z.mod_pos_bound (z + 2 ^ 63) (2 ^ 64)). lia.
Qed.

Lemma i64_idem z : i64 (i64 z) = i64 z.
Proof. apply i64_id, i64_in. Qed.

(** ** Automation

    [breflect] turns the boolean tests of the code into the propositions they
    decide, in the hypotheses and in the goal. *)
Ltac breflect :=
  repeat match goal with
  | H : (_ && _) = true |- _ => apply andb_true_iff in H; destruct H
  | H : (_ || _) = false |- _ => apply orb_false_iff in H; destruct H
  | H : negb _ = true |- _ => apply negb_true_iff in H
  | H : negb _ = false |- _ => apply negb_false_iff in H
  | H : (_ <? _)%Z = true |- _ => apply Z.ltb_lt in H
  | H : (_ <? _)%Z = false |- _ => apply Z.ltb_ge in H
  | H : (_ <=? _)%Z = true |- _ => apply Z.leb_le in H
  | H : (_ <=? _)%Z = false |- _ => apply Z.leb_gt in H
  | H : (_ >=? _)%Z = _ |- _ => rewrite Z.geb_leb in H
  | H : (_ >? _)%Z = _ |- _ => rewrite Z.gtb_ltb in H
  | H : (_ =? _)%Z = true |- _ => apply Z.eqb_eq in H
  | H : (_ =? _)%Z = false |- _ => apply Z.eqb_neq in H
  | H : (_ <? _)%nat = true |- _ => apply Nat.ltb_lt in H
  | H : (_ <? _)%nat = false |- _ => apply Nat.ltb_ge in H
  | H : (_ <=? _)%nat = true |- _ => apply Nat.leb_le in H
  | H : (_ <=? _)%nat = false |- _ => apply Nat.leb_gt in H
  | H : (_ =? _)%nat = true |- _ => apply Nat.eqb_eq in H
  | H : (_ =? _)%nat = false |- _ => apply Nat.eqb_neq in H
  end.

(** Case analysis on the first [if] of the goal, with its test reflected. *)
Ltac case_if :=
  match goal with
  | |- context [if ?b then _ else _] =>
      let E := fresh "E" in destruct b eqn:E; breflect
  end.

Ltac case_if_in H :=
  match type of H with
  | context [if ?b then _ else _] =>
      let E := fresh "E" in destruct b eqn:E; breflect
  end.

Create Rewrite HintDb len.
#[export] Hint Rewrite @length_app @length_cons @length_nil @length_take
  @length_drop @length_insert @length_replicate @length_fmap @length_reverse : len.

Ltac len := autorewrite with len in *; simpl in *; lia.

(** ** Binary search: Go's [sort.Search] *)
Section search.
Variable f : nat -> bool.

(** [i, j := 0, n; for i < j { h := (i+j)/2; if !f(h) { i = h+1 } else { j = h } }];
    the distance [j - i] at least halves, so [n] rounds are enough. *)
Fixpoint sort_search_loop (fuel i j : nat) : nat :=
  match fuel with
  | O => i
  | S fuel' =>
      if (i <? j)%nat then
        let h := ((i + j) / 2)%nat in
        if negb (f h) then sort_search_loop fuel' (S h) j
        else sort_search_loop fuel' i h
      else i
  end.

Definition sort_Search (n : nat) : nat := sort_search_loop n 0 n.

Lemma sort_search_loop_spec fuel i j :
  (i <= j)%nat -> (j - i <= fuel)%nat ->
  (forall a b, (a <= b)%nat -> (b < j)%nat -> f a = true -> f b = true) ->
  (forall k, (k < i)%nat -> f k = false) ->
  let r := sort_search_loop fuel i j in
  (i <= r <= j)%nat /\ (forall k, (k < r)%nat -> f k = false) /\
  (forall k, (r <= k < j)%nat -> f k = true).
Proof.
  revert i j. induction fuel as [|fuel IH]; intros i j Hij Hfuel Hmono Hlow;
    cbn [sort_search_loop]; cbv zeta.
  { split_and!; [lia|lia|auto|intros; lia]. }
  destruct (i <? j)%nat eqn:E; breflect.
  2:{ split_and!; [lia|lia|auto|intros; lia]. }
  pose proof (Nat.div_mod_eq (i + j) 2) as Hd.
  pose proof (Nat.mod_upper_bound (i + j) 2 ltac:(lia)) as Hm.
  remember ((i + j) / 2)%nat as h eqn:Heqh. clear Heqh.
  assert (i <= h < j)%nat as Hh by lia.
  destruct (f h) eqn:Eh; cbn [negb].
  - destruct (IH i h) as (H1 & H2 & H3);
      [lia|lia|intros a b ???; apply (Hmono a); auto; lia|done|].
    split_and!; [lia|lia|done|].
    intros k Hk. destruct (decide (k < h)%nat); [apply H3; lia|].
    apply (Hmono h); auto; lia.
  - destruct (IH (S h) j) as (H1 & H2 & H3); [lia|lia|done| |].
    + intros k Hk. destruct (f k) eqn:Ek; [|done].
      rewrite <- Eh. symmetry. apply (Hmono k); auto; lia.
    + split_and!; [lia|lia|done|done].
Qed.

(** [sort.Search] returns the least index whose test is true, [n] if none. *)
Lemma sort_Search_spec n :
  (forall a b, (a <= b)%nat -> (b < n)%nat -> f a = true -> f b = true) ->
  (sort_Search n <= n)%nat /\ (forall k, (k < sort_Search n)%nat -> f k = false) /\
  (forall k, (sort_Search n <= k < n)%nat -> f k = true).
Proof.
  intros Hmono. unfold sort_Search.
  destruct (sort_search_loop_spec n 0 n) as (H1 & H2 & H3);
    [lia|lia|done|intros; lia|].
  split_and!; [lia|done|done].
Qed.
End search.

(** ** Lists *)

Lemma bind_ext_in {A B} (f g : A -> list B) (l : list A) :
  (forall x, x ∈ l -> f x = g x) -> l ≫= f = l ≫= g.
Proof.
  induction l as [|x l IH]; intros H; [done|]. rewrite !bind_cons.
  f_equal; [apply H; set_solver|apply IH; set_solver].
Qed.

Lemma fmap_ext_in {A B} (f g : A -> B) (l : list A) :
  (forall x, x ∈ l -> f x = g x) -> f <$> l = g <$> l.
Proof.
  induction l as [|x l IH]; intros H; [done|]. rewrite !fmap_cons.
  f_equal; [apply H; set_solver|apply IH; set_solver].
Qed.

Lemma sum_list_with_ext {A} (f g : A -> nat) (l : list A) :
  (forall x, x ∈ l -> f x = g x) -> sum_list_with f l = sum_list_with g l.
Proof.
  induction l as [|x l IH]; intros H; [done|]. simpl.
  rewrite H by set_solver. f_equal. apply IH. set_solver.
Qed.

Lemma filter_id {A} (P : A -> Prop) `{!forall x, Decision (P x)} (l : list A) :
  Forall P l -> filter P l = l.
Proof.
  induction 1 as [|x l Hx _ IH]; [done|]. rewrite filter_cons_True by done. by rewrite IH.
Qed.

Lemma StronglySorted_lookup {A} (R : A -> A -> Prop) l i j x y :
  StronglySorted R l -> l !! i = Some x -> l !! j = Some y -> (i < j)%nat -> R x y.
Proof.
  intros Hs. revert i j. induction Hs as [|z l Hs IH Hall]; intros i j Hi Hj Hij; [done|].
  destruct j as [|j]; [lia|]. destruct i as [|i]; cbn in Hi, Hj; [|apply (IH i j); auto; lia].
  simplify_eq. rewrite Forall_lookup in Hall. by eapply Hall.
Qed.

(** ** Stable sorting: Go's [sort.Stable] and [slices.SortStableFunc]

    Their result is determined by the order: the permutation of the input that
    is sorted and keeps equivalent elements in their order.  Insertion from the
    right computes it. *)
Section stable_sort.
Context {A : Type} (less : A -> A -> bool).

Fixpoint stable_insert (x : A) (l : list A) : list A :=
  match l with
  | [] => [x]
  | y :: l' => if less y x then y :: stable_insert x l' else x :: l
  end.

Definition sort_Stable (l : list A) : list A := foldr stable_insert [] l.

Lemma stable_insert_perm x l : stable_insert x l ≡ₚ x :: l.
Proof.
  induction l as [|y l IH]; simpl; [done|]. destruct (less y x); [|done].
  rewrite IH. apply Permutation_swap.
Qed.

Lemma sort_Stable_perm l : sort_Stable l ≡ₚ l.
Proof.
  induction l as [|x l IH]; simpl; [done|]. by rewrite stable_insert_perm, IH.
Qed.

(** The order laws of a [less] function: a strict weak order. *)
Class WeakOrder := {
  less_irrefl x : less x x = false;
  less_trans x y z : less x y = true -> less y z = true -> less x z = true;
  less_incomp_trans x y z :
    less x y = false -> less y z = false -> less x z = false }.

Context `{!WeakOrder}.

Lemma stable_insert_sorted x l :
  StronglySorted (fun a b => less b a = false) l ->
  StronglySorted (fun a b => less b a = false) (stable_insert x l).
Proof.
  induction 1 as [|y l Hs IH Hall]; simpl; [by repeat constructor|].
  destruct (less y x) eqn:E.
  - constructor; [done|]. rewrite stable_insert_perm. constructor; [|done].
    destruct (less x y) eqn:E2; [|done].
    pose proof (less_trans y x y E E2) as Hyy. by rewrite less_irrefl in Hyy.
  - constructor; [by constructor|]. constructor; [done|].
    eapply Forall_impl; [exact Hall|]. intros z Hz. simpl in Hz.
    by apply (less_incomp_trans z y x).
Qed.

Lemma sort_Stable_sorted l :
  StronglySorted (fun a b => less b a = false) (sort_Stable l).
Proof. induction l as [|x l IH]; simpl; [constructor|]. by apply stable_insert_sorted. Qed.

(** Elements that are equivalent to each other keep their order. *)
Lemma sort_Stable_filter (P : A -> Prop) `{!forall x, Decision (P x)} l :
  (forall x y, P x -> P y -> less x y = false) ->
  filter P (sort_Stable l) = filter P l.
Proof.
  intros HP. induction l as [|x l IH]; simpl; [done|]. rewrite filter_cons, <- IH. clear IH.
  induction (sort_Stable l) as [|y l' IH]; simpl.
  - by rewrite filter_cons.
  - destruct (less y x) eqn:E; rewrite !filter_cons; [|done]. rewrite IH.
    destruct (decide (P y)) as [Hy|], (decide (P x)) as [Hx|]; try done.
    rewrite (HP y x Hy Hx) in E. done.
Qed.
End stable_sort.
Arguments WeakOrder {A} less.

(** Sorting by a key with a strict total order on the keys. *)
Lemma WeakOrder_key {A K} (key : A -> K) (ltb : K -> K -> bool) :
  WeakOrder ltb -> WeakOrder (fun a b => ltb (key a) (key b)).
Proof.
  intros H. split.
  - intros x. by apply less_irrefl.
  - intros x y z. by apply less_trans.
  - intros x y z. by apply less_incomp_trans.
Qed.
