(* ===== verification/GoPath.v ===== *)
(** * Go strings and slash-separated paths

    What the modelled code uses of Go's packages [strings] and [path]: the
    byte order of strings, [strings.Split] on one byte, [strings.Join],
    [path.Clean], [path.Split], [path.Dir], [path.Base] and [path.Join], and
    [parentDir], which the packages dirtree and walk define on top of
    [path.Dir].  Go strings are byte strings, here [string]. *)
From S2P Require Import Prelude.

Module GoPath.

(** ** Order of strings

    Go's [<] on strings is the lexicographic order of their bytes. *)
Definition str_ltb (a b : string) : bool := String.ltb a b.

Definition str_lt (a b : string) : Prop := str_ltb a b = true.

Definition str_eqb (a b : string) : bool := String.eqb a b.

Lemma str_eqb_eq a b : str_eqb a b = true <-> a = b.
Proof. apply String.eqb_eq. Qed.

Lemma str_eqb_neq a b : str_eqb a b = false <-> a <> b.
Proof. apply String.eqb_neq. Qed.

Lemma str_lt_le a b : str_lt a b <-> String.le a b /\ a <> b.
Proof.
  unfold str_lt, str_ltb, String.ltb, String.le, String.leb.
  pose proof (String.compare_eq_iff a b) as Heq.
  destruct (String.compare a b) eqn:E; simpl.
  - split; [done|]. intros [_ Hne]. destruct (Hne (Heq eq_refl)).
  - split; [|done]. intros _. split; [done|]. intros ->.
    pose proof (String.compare_antisym b b) as Hanti. by rewrite E in Hanti.
  - split; [done|]. by intros [? _].
Qed.

#[export] Instance str_lt_strict : StrictOrder str_lt.
Proof.
  split.
  - intros a H. apply str_lt_le in H as [_ H]. done.
  - intros a b c [H1 H1']%str_lt_le [H2 H2']%str_lt_le. apply str_lt_le. split.
    + by etrans.
    + intros ->. apply H1'. by apply (anti_symm String.le).
Qed.

#[export] Instance str_lt_dec a b : Decision (str_lt a b).
Proof. unfold str_lt. apply _. Defined.

Lemma str_lt_trich a b : str_lt a b \/ a = b \/ str_lt b a.
Proof.
  destruct (decide (a = b)); [auto|].
  destruct (total String.le a b) as [H|H]; [left|right; right];
    apply str_lt_le; split; auto.
Qed.

Lemma str_ltb_false a b : str_ltb a b = false <-> a = b \/ str_lt b a.
Proof.
  destruct (str_lt_trich a b) as [H|[->|H]].
  - split; [unfold str_lt in H; congruence|]. intros [->|H2].
    + by destruct (irreflexivity str_lt b).
    + destruct (irreflexivity str_lt a). by trans b.
  - split; [auto|]. intros _. destruct (str_ltb b b) eqn:E; [|done].
    by destruct (irreflexivity str_lt b).
  - split; [auto|]. intros _. destruct (str_ltb a b) eqn:E; [|done].
    destruct (irreflexivity str_lt a). by trans b.
Qed.

(** ** [strings.Split] and [strings.Join] *)

Definition slash : ascii := "/"%char.

(** [strings.Split(s, c)] for a separator of one byte: at least one part. *)
Fixpoint split_on (c : ascii) (s : string) : list string :=
  match s with
  | EmptyString => [""]
  | String a s' =>
      if Ascii.eqb a c then "" :: split_on c s'
      else match split_on c s' with
           | [] => [String a ""]
           | p :: ps => String a p :: ps
           end
  end.

Fixpoint join_with (sep : string) (parts : list string) : string :=
  match parts with
  | [] => ""
  | [p] => p
  | p :: ps => p +:+ sep +:+ join_with sep ps
  end.

Fixpoint has_char (c : ascii) (s : string) : bool :=
  match s with
  | EmptyString => false
  | String a s' => Ascii.eqb a c || has_char c s'
  end.

(** [strings.ToLower] on ASCII strings. *)
Definition lower_char (c : ascii) : ascii :=
  let n := nat_of_ascii c in
  if (65 <=? n)%nat && (n <=? 90)%nat then ascii_of_nat (n + 32) else c.

Fixpoint to_lower (s : string) : string :=
  match s with
  | EmptyString => ""
  | String c s' => String (lower_char c) (to_lower s')
  end.

Definition digit_of (c : ascii) : option Z :=
  let n := nat_of_ascii c in
  if (48 <=? n)%nat && (n <=? 57)%nat then Some (Z.of_nat n - 48) else None.

Fixpoint digits_of (acc : Z) (s : string) : option Z :=
  match s with
  | EmptyString => Some acc
  | String c s' =>
      match digit_of c with
      | Some d => digits_of (10 * acc + d) s'
      | None => None
      end
  end.

(** [strconv.Atoi]: an optional sign, decimal digits, within 64 bits. *)
Definition Atoi (s : string) : option Z :=
  let parse (neg : bool) (digits : string) :=
    if str_eqb digits "" then None
    else match digits_of 0 digits with
         | Some z =>
             let z := if neg then - z else z in
             if (i64_min <=? z) && (z <=? i64_max) then Some z else None
         | None => None
         end in
  match s with
  | String c s' =>
      if Ascii.eqb c "-"%char then parse true s'
      else if Ascii.eqb c "+"%char then parse false s'
      else parse false s
  | EmptyString => None
  end.

Example Atoi_1 : map Atoi ["25"; "-7"; "+3"; ""; "x"; "-"; "9223372036854775808"]
  = [Some 25; Some (-7); Some 3; None; None; None; None].
Proof. reflexivity. Qed.

Lemma str_app_assoc (a b c : string) : (a +:+ b) +:+ c = a +:+ (b +:+ c).
Proof. induction a as [|x a IH]; [done|]. apply (f_equal (String x)), IH. Qed.

Lemma str_app_nil_r (a : string) : a +:+ "" = a.
Proof. induction a as [|x a IH]; [done|]. apply (f_equal (String x)), IH. Qed.

Lemma str_length_app (a b : string) : String.length (a +:+ b) = (String.length a + String.length b)%nat.
Proof. induction a as [|x a IH]; [done|]. apply (f_equal S), IH. Qed.

Fixpoint trim_front (s : list ascii) : list ascii :=
  match s with c :: s' => if Ascii.eqb c slash then trim_front s' else s | [] => [] end.

(** [strings.Trim(s, "/")] *)
Definition trim_slashes (s : string) : string :=
  String.string_of_list_ascii (reverse (trim_front (reverse (trim_front (String.list_ascii_of_string s))))).

(** ** Package path *)

(** The elements that [path.Clean] keeps; [stack] holds the kept elements,
    last first. *)
Fixpoint clean_parts (rooted : bool) (stack parts : list string) : list string :=
  match parts with
  | [] => reverse stack
  | p :: ps =>
      if str_eqb p "" || str_eqb p "." then clean_parts rooted stack ps
      else if str_eqb p ".." then
        match stack with
        | top :: stack' =>
            if str_eqb top ".." then clean_parts rooted (".." :: stack) ps
            else clean_parts rooted stack' ps
        | [] => if rooted then clean_parts rooted [] ps else clean_parts rooted [".."] ps
        end
      else clean_parts rooted (p :: stack) ps
  end.

Definition is_rooted (s : string) : bool :=
  match s with String a _ => Ascii.eqb a slash | EmptyString => false end.

Definition path_Clean (s : string) : string :=
  let body := join_with "/" (clean_parts (is_rooted s) [] (split_on slash s)) in
  if is_rooted s then "/" +:+ body
  else if str_eqb body "" then "." else body.

(** [path.Split]: everything up to and including the last slash, and the rest. *)
Definition path_Split (s : string) : string * string :=
  let parts := split_on slash s in
  match last parts with
  | Some f => (join_with "/" (take (length parts - 1) parts ++ [""]), f)
  | None => ("", s)
  end.

Definition path_Dir (s : string) : string := path_Clean (fst (path_Split s)).

(** [path.Base] strips trailing slashes and returns the last element. *)
Definition path_Base (s : string) : string :=
  if str_eqb s "" then "."
  else match last (filter (fun p => p <> "") (split_on slash s)) with
       | Some f => f
       | None => "/"
       end.

Definition path_Join (elems : list string) : string :=
  match filter (fun p => p <> "") elems with
  | [] => ""
  | es => path_Clean (join_with "/" es)
  end.

(** [parentDir] of fs/dirtree/dirtree.go and of fs/walk/walk.go. *)
Definition parentDir (entryPath : string) : string :=
  let dirPath := path_Dir entryPath in
  if str_eqb dirPath "." then "" else dirPath.

Example path_Clean_1 : path_Clean "a//b/./c/../d/" = "a/b/d".
Proof. reflexivity. Qed.
Example path_Clean_2 : path_Clean "../../a/.." = "../..".
Proof. reflexivity. Qed.
Example path_Clean_3 : path_Clean "/../a" = "/a".
Proof. reflexivity. Qed.
Example path_Dir_1 : map path_Dir ["a/b/c"; "a"; ""; "/a"; "/"] = ["a/b"; "."; "."; "/"; "/"].
Proof. reflexivity. Qed.
Example path_Base_1 : map path_Base ["a/b/c"; "a/b//"; ""; "/"] = ["c"; "b"; "."; "/"].
Proof. reflexivity. Qed.

(** ** Properties of clean relative paths

    A clean relative path is the join of [good] elements. *)
Definition good (p : string) : Prop :=
  p <> "" /\ p <> "." /\ p <> ".." /\ has_char slash p = false.

Lemma split_on_nonempty c s : split_on c s <> [].
Proof.
  destruct s as [|a s]; simpl; [done|].
  destruct (Ascii.eqb a c); [done|]. by destruct (split_on c s).
Qed.

Lemma split_on_none c s : has_char c s = false -> split_on c s = [s].
Proof.
  induction s as [|a s IH]; simpl; [done|]. intros H.
  destruct (Ascii.eqb a c); [done|]. simpl in H. by rewrite IH.
Qed.

Lemma split_on_app c p s :
  has_char c p = false -> split_on c (p +:+ String c s) = p :: split_on c s.
Proof.
  induction p as [|a p IH]; simpl; intros H.
  - by rewrite Ascii.eqb_refl.
  - destruct (Ascii.eqb a c); [done|]. simpl in H. by rewrite IH.
Qed.

Lemma split_join c parts :
  parts <> [] -> Forall (fun p => has_char c p = false) parts ->
  split_on c (join_with (String c "") parts) = parts.
Proof.
  intros Hne Hall. induction Hall as [|p parts Hp Hall IH]; [done|].
  destruct parts as [|q parts]; [by apply split_on_none|].
  change (join_with (String c "") (p :: q :: parts))
    with (p +:+ String c (join_with (String c "") (q :: parts))).
  rewrite split_on_app by done. by rewrite IH.
Qed.

Lemma join_split c s : join_with (String c "") (split_on c s) = s.
Proof.
  induction s as [|a s IH]; [done|]. simpl.
  pose proof (split_on_nonempty c s).
  destruct (Ascii.eqb a c) eqn:E.
  - apply Ascii.eqb_eq in E as ->. destruct (split_on c s) as [|q qs]; [done|].
    rewrite <- IH. done.
  - destruct (split_on c s) as [|q qs]; [done|]. rewrite <- IH. by destruct qs.
Qed.

Lemma clean_parts_good rooted stack parts :
  Forall good parts -> clean_parts rooted stack parts = reverse stack ++ parts.
Proof.
  revert stack. induction parts as [|p parts IH]; intros stack Hall; simpl.
  { by rewrite app_nil_r. }
  apply Forall_cons in Hall as [(H1 & H2 & H3 & H4) Hall].
  apply str_eqb_neq in H1, H2, H3. rewrite H1, H2, H3. simpl.
  rewrite IH by done. rewrite reverse_cons, <- app_assoc. done.
Qed.

Lemma clean_parts_snoc_empty rooted stack parts :
  clean_parts rooted stack (parts ++ [""]) = clean_parts rooted stack parts.
Proof.
  revert stack. induction parts as [|p parts IH]; intros stack; [done|]. simpl.
  destruct (_ || _); [apply IH|]. destruct (str_eqb p ".."); [|apply IH].
  destruct stack as [|top stack]; [destruct rooted; apply IH|].
  destruct (str_eqb top ".."); apply IH.
Qed.

Lemma join_good_not_rooted parts : Forall good parts -> is_rooted (join_with "/" parts) = false.
Proof.
  intros Hall. destruct parts as [|p parts]; [done|].
  apply Forall_cons in Hall as [(Hne & _ & _ & Hs) _].
  destruct p as [|a p]; [done|]. simpl in Hs. apply orb_false_iff in Hs as [Hs _].
  by destruct parts.
Qed.

Lemma join_good_nonempty parts : Forall good parts -> parts <> [] -> join_with "/" parts <> "".
Proof.
  intros Hall Hne. destruct parts as [|p parts]; [done|].
  apply Forall_cons in Hall as [(Hp & _) _].
  destruct p; [done|]. by destruct parts.
Qed.

Lemma good_no_slash parts :
  Forall good parts -> Forall (fun p => has_char slash p = false) parts.
Proof. intros H. eapply Forall_impl; [exact H|]. by intros p (_ & _ & _ & ?). Qed.

(** The parent of [a/b/.../z] is the path without its last element. *)
Lemma parentDir_join parts p :
  Forall good parts -> good p ->
  parentDir (join_with "/" (parts ++ [p])) = join_with "/" parts.
Proof.
  intros Hall Hp. unfold parentDir, path_Dir, path_Split.
  assert (Hsplit : split_on slash (join_with "/" (parts ++ [p])) = parts ++ [p]).
  { apply (split_join slash); [by destruct parts|].
    apply Forall_app. split; [by apply good_no_slash|]. constructor; [apply Hp|done]. }
  rewrite Hsplit, last_snoc, length_app, Nat.add_sub, take_app_length. simpl.
  destruct parts as [|q parts]; [done|].
  set (qs := q :: parts) in *.
  assert (Hr : is_rooted (join_with "/" (qs ++ [""])) = false).
  { pose proof (join_good_not_rooted qs Hall) as H. unfold qs in *.
    destruct q as [|a q]; [|by destruct parts].
    apply Forall_cons in Hall as [(Hne & _) _]. done. }
  unfold path_Clean. rewrite Hr.
  assert (Hs2 : split_on slash (join_with "/" (qs ++ [""])) = qs ++ [""]).
  { apply (split_join slash); [done|].
    apply Forall_app. split; [by apply good_no_slash|by repeat constructor]. }
  rewrite Hs2, clean_parts_snoc_empty, clean_parts_good by done.
  change (reverse [] ++ qs) with qs.
  assert (Hne : join_with "/" qs <> "") by (by apply join_good_nonempty).
  apply str_eqb_neq in Hne. rewrite Hne.
  assert (str_eqb (join_with "/" qs) "." = false) as ->; [|done].
  apply str_eqb_neq. intros Heq.
  assert (Hj : split_on slash (join_with "/" qs) = qs).
  { apply (split_join slash); [done|by apply good_no_slash]. }
  rewrite Heq in Hj. simpl in Hj. unfold qs in Hj. simplify_eq.
  apply Forall_cons in Hall as [(_ & Hdot & _) _]. done.
Qed.

Lemma path_Base_join parts p :
  Forall good parts -> good p -> path_Base (join_with "/" (parts ++ [p])) = p.
Proof.
  intros Hall Hp. unfold path_Base.
  assert (Hg : Forall good (parts ++ [p])) by (apply Forall_app; split; [done|by constructor]).
  assert (str_eqb (join_with "/" (parts ++ [p])) "" = false) as ->.
  { apply str_eqb_neq, join_good_nonempty; [done|by destruct parts]. }
  rewrite (split_join slash); [|by destruct parts|by apply good_no_slash].
  rewrite filter_app, filter_cons_True, filter_nil by apply Hp. by rewrite last_snoc.
Qed.

(** [p] is [root] or a clean path below it. *)
Definition below (root p : string) : Prop :=
  exists rp ps, Forall good rp /\ Forall good ps /\
    root = join_with "/" rp /\ p = join_with "/" (rp ++ ps).

Lemma below_split root p :
  below root p -> p = root \/ (below root (parentDir p) /\
    (length (split_on slash (parentDir p)) < length (split_on slash p) \/ parentDir p = root)%nat).
Proof.
  intros (rp & ps & Hrp & Hps & -> & ->). destruct ps as [|x ps' _] using rev_ind.
  { left. by rewrite app_nil_r. }
  apply Forall_app in Hps as [Hps Hx]. apply Forall_cons in Hx as [Hx _].
  assert (Hg : Forall good (rp ++ ps')) by (by apply Forall_app).
  right. rewrite app_assoc, parentDir_join by done. split.
  { exists rp, ps'. by split_and!. }
  destruct (decide (rp ++ ps' = [])) as [E|Hne].
  { right. rewrite E. apply app_eq_nil in E as [-> ->]. done. }
  left. rewrite !(split_join slash).
  - rewrite !length_app. simpl. lia.
  - by destruct (rp ++ ps').
  - apply good_no_slash, Forall_app. split; [done|by constructor].
  - done.
  - by apply good_no_slash.
Qed.

(** Clean paths are determined by their elements. *)
Lemma join_inj a b :
  Forall good a -> Forall good b -> join_with "/" a = join_with "/" b -> a = b.
Proof.
  intros Ha Hb E. destruct (decide (a = [])) as [->|Hna].
  { destruct (decide (b = [])) as [->|Hnb]; [done|]. by destruct (join_good_nonempty b). }
  destruct (decide (b = [])) as [->|Hnb]; [by destruct (join_good_nonempty a)|].
  apply (f_equal (split_on slash)) in E.
  by rewrite !(split_join slash) in E by (done || by apply good_no_slash).
Qed.

Lemma join_length parts : Forall good parts -> (length parts <= String.length (join_with "/" parts))%nat.
Proof.
  induction 1 as [|p parts [Hp _] _ IH]; [done|].
  destruct p as [|c p]; [done|]. destruct parts as [|q parts]; [cbn; lia|].
  change (join_with "/" (String c p :: q :: parts))
    with (String c p +:+ "/" +:+ join_with "/" (q :: parts)).
  rewrite !str_length_app. cbn [length String.length]. cbn [length] in IH. lia.
Qed.

(** [r] is a clean path strictly inside the directory [k]. *)
Definition inside (k r : string) : Prop :=
  exists ps qs, Forall good ps /\ Forall good qs /\ qs <> [] /\
    k = join_with "/" ps /\ r = join_with "/" (ps ++ qs).

Lemma inside_snoc k parts p :
  Forall good parts -> good p ->
  inside k (join_with "/" (parts ++ [p])) <->
  k = join_with "/" parts \/ inside k (join_with "/" parts).
Proof.
  intros Hall Hp. split.
  - intros (ps & qs & Hps & Hqs & Hne & -> & E).
    apply join_inj in E; [|apply Forall_app; by split; [|constructor]|by apply Forall_app].
    destruct qs as [|q qs _] using rev_ind; [done|]. rewrite app_assoc in E.
    apply app_inj_tail in E as [-> _]. apply Forall_app in Hqs as [Hqs _].
    destruct (decide (qs = [])) as [->|Hn]; [left; by rewrite app_nil_r|right].
    by exists ps, qs.
  - intros [->|(ps & qs & Hps & Hqs & Hne & -> & E)].
    + exists parts, [p]. split_and!; try done. by constructor.
    + apply join_inj in E; [|done|by apply Forall_app]. subst parts.
      exists ps, (qs ++ [p]). rewrite app_assoc. split_and!; try done; [|by destruct qs].
      apply Forall_app. by split; [|constructor].
Qed.

Lemma inside_root k : ~ inside k "".
Proof.
  intros (ps & qs & Hps & Hqs & Hne & _ & E). symmetry in E.
  apply (join_good_nonempty (ps ++ qs)); [by apply Forall_app|by destruct ps|done].
Qed.

Lemma inside_irrefl k : ~ inside k k.
Proof.
  intros (ps & qs & Hps & Hqs & Hne & -> & E). apply join_inj in E; [|done|by apply Forall_app].
  apply (f_equal length) in E. rewrite length_app in E. destruct qs; [done|cbn in E; lia].
Qed.

Lemma inside_parent parts p :
  Forall good parts -> good p -> inside (join_with "/" parts) (join_with "/" (parts ++ [p])).
Proof. intros. apply inside_snoc; [done..|]. by left. Qed.

Lemma join_app ps qs :
  ps <> [] -> qs <> [] -> join_with "/" (ps ++ qs) = join_with "/" ps +:+ "/" +:+ join_with "/" qs.
Proof.
  intros Hp Hq. induction ps as [|p ps IH]; [done|]. destruct ps as [|p' ps].
  { cbn [app]. by destruct qs. }
  change (join_with "/" ((p :: p' :: ps) ++ qs))
    with (p +:+ "/" +:+ join_with "/" ((p' :: ps) ++ qs)).
  rewrite IH by done.
  change (join_with "/" (p :: p' :: ps)) with (p +:+ "/" +:+ join_with "/" (p' :: ps)).
  by rewrite !str_app_assoc.
Qed.

Lemma str_lt_app a s : s <> "" -> str_lt a (a +:+ s).
Proof.
  intros Hs. induction a as [|c a IH]; [by destruct s|].
  unfold str_lt, str_ltb, String.ltb in *.
  change (String c a +:+ s) with (String c (a +:+ s)). cbn [String.compare].
  assert (Ascii.compare c c = Eq) as E by (unfold Ascii.compare; apply N.compare_refl).
  by rewrite E.
Qed.

(** A path sorts after the directories it is in. *)
Lemma inside_lt k r : inside k r -> str_lt k r.
Proof.
  intros (ps & qs & Hps & Hqs & Hne & -> & ->).
  destruct (decide (ps = [])) as [->|Hn].
  - pose proof (join_good_nonempty qs Hqs Hne). cbn [app]. by destruct (join_with "/" qs).
  - rewrite join_app by done. by apply str_lt_app.
Qed.

Lemma join_snoc parts x : join_with "/" (parts ++ [x]) = join_with "/" (parts ++ [""]) +:+ x.
Proof.
  induction parts as [|p parts IH]; [done|]. destruct parts as [|q parts].
  - cbn [app join_with]. by rewrite !str_app_assoc.
  - change (join_with "/" ((p :: q :: parts) ++ [x])) with (p +:+ "/" +:+ join_with "/" ((q :: parts) ++ [x])).
    rewrite IH. change (join_with "/" ((p :: q :: parts) ++ [""])) with (p +:+ "/" +:+ join_with "/" ((q :: parts) ++ [""])).
    by rewrite !str_app_assoc.
Qed.

End GoPath.
