(* ===== verification/Entries.v ===== *)
(** * Directory entries: fs/direntries.go and the entry types of fs/types.go

    A [DirEntry] of the program is an interface value that holds an [Object]
    or a [Directory]; here a sum of the two, so the "unknown type" branches of
    the code have no counterpart.  An object carries what the modelled code
    reads of it: its remote path, size, modification time (nanoseconds), its
    hash of the common type ([None] when the backend returns an error, the
    empty string when it has none), whether it is storable, and the file system
    it is on: two objects are the same interface value when all of these
    agree. *)
From S2P Require Import Prelude GoPath.

Module Entries.
Import GoPath.

Record Object := mkObject {
  oRemote : string;
  oSize : Z;
  oModTime : Z;
  oHash : option string;
  oStorable : bool;
  oFs : nat;
}.

Record Directory := mkDirectory { dRemote : string; dModTime : Z }.

Inductive DirEntry :=
| EObject (o : Object)
| EDir (d : Directory).

#[export] Instance Object_eq_dec : EqDecision Object.
Proof. solve_decision. Defined.
#[export] Instance Directory_eq_dec : EqDecision Directory.
Proof. solve_decision. Defined.
#[export] Instance DirEntry_eq_dec : EqDecision DirEntry.
Proof. solve_decision. Defined.

Definition Remote (e : DirEntry) : string :=
  match e with EObject o => oRemote o | EDir d => dRemote d end.

Definition is_dir (e : DirEntry) : bool :=
  match e with EObject _ => false | EDir _ => true end.

Definition DirEntryType (e : DirEntry) : string :=
  match e with EObject _ => "object" | EDir _ => "directory" end.

(** [1] if [a > b], [0] if equal, [-1] if [a < b]. *)
Definition CompareDirEntries (a b : DirEntry) : Z :=
  if str_ltb (Remote b) (Remote a) then 1
  else if str_ltb (Remote a) (Remote b) then -1
  else if str_ltb (DirEntryType b) (DirEntryType a) then 1
  else if str_ltb (DirEntryType a) (DirEntryType b) then -1
  else 0.

(** [DirEntries.Less] *)
Definition Less (a b : DirEntry) : bool := CompareDirEntries a b <? 0.

(** [ForObject], [ForObjectError], [ForDir] and [ForDirError]: the callback
    acts on a state [S] and, in the variants with errors, stops the walk. *)
Section for_each.
Context {S E : Type}.

Fixpoint ForObject (ds : list DirEntry) (fn : Object -> S -> S) (s : S) : S :=
  match ds with
  | [] => s
  | EObject o :: ds' => ForObject ds' fn (fn o s)
  | _ :: ds' => ForObject ds' fn s
  end.

Fixpoint ForObjectError (ds : list DirEntry) (fn : Object -> S -> S * option E) (s : S)
  : S * option E :=
  match ds with
  | [] => (s, None)
  | EObject o :: ds' =>
      match fn o s with
      | (s', Some err) => (s', Some err)
      | (s', None) => ForObjectError ds' fn s'
      end
  | _ :: ds' => ForObjectError ds' fn s
  end.

Fixpoint ForDir (ds : list DirEntry) (fn : Directory -> S -> S) (s : S) : S :=
  match ds with
  | [] => s
  | EDir d :: ds' => ForDir ds' fn (fn d s)
  | _ :: ds' => ForDir ds' fn s
  end.

Fixpoint ForDirError (ds : list DirEntry) (fn : Directory -> S -> S * option E) (s : S)
  : S * option E :=
  match ds with
  | [] => (s, None)
  | EDir d :: ds' =>
      match fn d s with
      | (s', Some err) => (s', Some err)
      | (s', None) => ForDirError ds' fn s'
      end
  | _ :: ds' => ForDirError ds' fn s
  end.
End for_each.

(** [sort.Stable(entries)] *)
Definition sort_entries (ds : list DirEntry) : list DirEntry := sort_Stable Less ds.

(** ** The order of entries *)

#[export] Instance str_ltb_weak : WeakOrder str_ltb.
Proof.
  split.
  - intros x. apply str_ltb_false. by left.
  - intros x y z Hxy Hyz. change (str_lt x z). by trans y.
  - intros x y z Hxy Hyz. apply str_ltb_false in Hxy as [->|Hxy]; [done|].
    apply str_ltb_false in Hyz as [->|Hyz]; [by apply str_ltb_false; right|].
    apply str_ltb_false. right. by trans y.
Qed.

(** The pair of name and type that [Less] orders lexicographically. *)
Definition entry_lt (a b : DirEntry) : Prop :=
  str_lt (Remote a) (Remote b) \/
  (Remote a = Remote b /\ is_dir a = true /\ is_dir b = false).

Lemma Less_spec a b : Less a b = true <-> entry_lt a b.
Proof.
  unfold Less, CompareDirEntries, entry_lt.
  destruct (str_ltb (Remote b) (Remote a)) eqn:E1.
  { split; [done|]. intros [H|(H & _)].
    - destruct (irreflexivity str_lt (Remote b)). by trans (Remote a).
    - rewrite H in E1. by destruct (irreflexivity str_lt (Remote b)). }
  destruct (str_ltb (Remote a) (Remote b)) eqn:E2; [split; auto|].
  apply str_ltb_false in E2 as [E2|E2]; [|by rewrite E2 in E1].
  split.
  - destruct a, b; simpl; try done; intros; right; done.
  - intros [H|(H & Ha & Hb)].
    + rewrite E2 in H. by destruct (irreflexivity str_lt (Remote b)).
    + destruct a, b; simpl in *; done.
Qed.

Lemma Less_false a b : Less a b = false <-> entry_lt b a \/ (Remote a = Remote b /\ is_dir a = is_dir b).
Proof.
  rewrite <- not_true_iff_false, Less_spec. unfold entry_lt.
  pose proof (irreflexivity str_lt) as Hirr. unfold complement in Hirr.
  pose proof (@transitivity _ str_lt _) as Htr.
  split.
  - intros H. destruct (str_lt_trich (Remote a) (Remote b)) as [|[Heq|]]; [tauto| |tauto].
    destruct (is_dir a), (is_dir b); naive_solver.
  - intros [[H|(H1 & H2 & H3)]|(H1 & H2)] [H'|(H1' & H2' & H3')].
    + exact (Hirr _ (Htr _ _ _ H H')).
    + rewrite H1' in H. exact (Hirr _ H).
    + rewrite H1 in H'. exact (Hirr _ H').
    + congruence.
    + rewrite H1 in H'. exact (Hirr _ H').
    + congruence.
Qed.

#[export] Instance Less_weak : WeakOrder Less.
Proof.
  split.
  - intros x. apply Less_false. by right.
  - intros x y z. rewrite !Less_spec. unfold entry_lt.
    intros [H1|(H1 & H2 & H3)] [H4|(H4 & H5 & H6)].
    + left. by trans (Remote y).
    + left. by rewrite <- H4.
    + left. by rewrite H1.
    + congruence.
  - intros x y z Hxy Hyz. apply Less_false in Hxy, Hyz. apply Less_false.
    unfold entry_lt in *.
    destruct Hxy as [[H1|(H1 & H2 & H3)]|(H1 & H2)], Hyz as [[H4|(H4 & H5 & H6)]|(H4 & H5)].
    + left. left. by trans (Remote y).
    + left. left. by rewrite H4.
    + left. left. by rewrite <- H4.
    + left. left. by rewrite <- H1.
    + congruence.
    + left. right. split_and!; congruence.
    + left. left. by rewrite H1.
    + left. right. split_and!; congruence.
    + right. split; congruence.
Qed.

Lemma sort_entries_perm ds : sort_entries ds ≡ₚ ds.
Proof. apply sort_Stable_perm. Qed.

End Entries.
