(* ===== verification/Ranges.v ===== *)
(** * Byte ranges: lib/ranges/ranges.go

    The list of byte ranges that the VFS cache keeps for the parts of an
    object that are present on disk.  [Range] and [Ranges] are the Go types;
    a [Ranges] is a slice, here a [list Range], and a method with a pointer
    receiver returns the new list.  An index out of the slice's bounds, which
    panics in Go, is [None].

    The abstract meaning of a list is the set of offsets it covers
    ([covers]).  The invariant is [wf]: every range is non-empty and fits in
    an [int64], and consecutive ranges are separated by a gap, so that the
    list is the unique minimal representation of its set. *)
From S2P Require Import Prelude.

Module Ranges.

Record Range := mkRange { Pos : Z; Size : Z }.

#[export] Instance Range_eq_dec : EqDecision Range.
Proof. solve_decision. Defined.

(** ** The operations on one range *)

Definition End (r : Range) : Z := i64 (Pos r + Size r).

Definition IsEmpty (r : Range) : bool := Size r <=? 0.

Definition Clip (r : Range) (offset : Z) : Range :=
  if End r <=? offset then r
  else
    let size := i64 (Size r - i64 (End r - offset)) in
    if size <? 0 then mkRange 0 0 else mkRange (Pos r) size.

Definition Intersection (r b : Range) : Range :=
  if ((Pos r >=? Pos b) && (Pos r <? End b)) || ((Pos b >=? Pos r) && (Pos b <? End r))
  then
    let pos := Z.max (Pos r) (Pos b) in
    mkRange pos (i64 (Z.min (End r) (End b) - pos))
  else mkRange 0 0.

(** [merge(new, dst)]: the updated [dst] when they were merged ([true] in the
    code), [None] when [dst] is left alone ([false]). *)
Definition merge (new dst : Range) : option Range :=
  if End new <? Pos dst then None
  else Some (mkRange (Pos new)
               (if End dst <? End new then Size new
                else i64 (Size dst + i64 (Pos dst - Pos new)))).

(** ** The operations on a slice of ranges *)

(** The loop [for j = i; j < len(ranges)-1; j++] of [coalesce]: it merges
    each element into its successor while it can, and returns the slice and
    [endChop].  Every round moves [j] forward, so [len(ranges)] rounds are
    enough. *)
Fixpoint coalesce_loop (fuel : nat) (ranges : list Range) (j endChop : nat)
  : list Range * nat :=
  match fuel with
  | O => (ranges, endChop)
  | S fuel' =>
      match ranges !! j, ranges !! (S j) with
      | Some a, Some b =>
          match merge a b with
          | Some b' => coalesce_loop fuel' (<[S j := b']> ranges) (S j) (S j)
          | None => (ranges, endChop)
          end
      | _, _ => (ranges, endChop)
      end
  end.

Definition coalesce (rs : list Range) (i : nat) : option (list Range) :=
  let looked_back :=
    match i with
    | O => Some (rs, O)
    | S i' =>
        match rs !! i', rs !! i with
        | Some p, Some c =>
            Some (match merge p c with
                  | Some c' => (<[i := c']> rs, i')
                  | None => (rs, i)
                  end)
        | _, _ => None
        end
    end in
  match looked_back with
  | None => None
  | Some (ranges, startChop) =>
      let '(ranges, endChop) := coalesce_loop (length ranges) ranges i i in
      Some (if (startChop <? endChop)%nat
            then take startChop ranges ++ drop endChop ranges
            else ranges)
  end.

Definition search (rs : list Range) (r : Range) : nat :=
  sort_Search (fun i => match rs !! i with
                        | Some x => Pos x >=? Pos r
                        | None => true
                        end) (length rs).

Definition Insert (rs : list Range) (r : Range) : option (list Range) :=
  if IsEmpty r then Some rs
  else if (length rs =? 0)%nat then Some (rs ++ [r])
  else
    let i := search rs r in
    match rs !! i with
    | None => coalesce (take i rs ++ r :: drop i rs) i
    | Some x =>
        match merge r x with
        | None => coalesce (take i rs ++ r :: drop i rs) i
        | Some x' => coalesce (<[i := x']> rs) i
        end
    end.

(** [Find] returns [(curr, next, present)].  Its second half is the part of
    the Go function after the test of the previous range. *)
Definition Find_from (rs : list Range) (i : nat) (r : Range) : Range * Range * bool :=
  match rs !! i with
  | None => (r, mkRange 0 0, false)
  | Some found =>
      let intersection := Intersection found r in
      if IsEmpty intersection then (r, mkRange 0 0, false)
      else if Pos r <? Pos intersection then
        let curr := mkRange (Pos r) (i64 (Pos intersection - Pos r)) in
        (curr, mkRange (End curr) (i64 (Size r - Size curr)), false)
      else
        (intersection, mkRange (End intersection) (i64 (Size r - Size intersection)), true)
  end.

Definition Find (rs : list Range) (r : Range) : Range * Range * bool :=
  if IsEmpty r then (r, mkRange 0 0, false)
  else
    let i := search rs r in
    match (match i with O => None | S i' => rs !! i' end) with
    | Some prev =>
        let intersection := Intersection prev r in
        if negb (IsEmpty intersection) then
          (intersection, mkRange (End intersection) (i64 (Size r - Size intersection)), true)
        else Find_from rs i r
    | None => Find_from rs i r
    end.

Record FoundRange := mkFound { R : Range; Present_ : bool }.

(** The loop of [FindAll]; [None] when the fuel runs out.  [FindAll_total]
    shows that the fuel below is enough. *)
Fixpoint FindAll_loop (fuel : nat) (rs : list Range) (r : Range)
  : option (list FoundRange) :=
  match fuel with
  | O => None
  | S fuel' =>
      if IsEmpty r then Some []
      else
        let '(curr, next, present) := Find rs r in
        frs ← FindAll_loop fuel' rs next;
        Some (mkFound curr present :: frs)
  end.

Definition find_fuel (rs : list Range) : nat := (2 * length rs + 3)%nat.

Definition FindAll (rs : list Range) (r : Range) : option (list FoundRange) :=
  FindAll_loop (find_fuel rs) rs r.

Definition Present (rs : list Range) (r : Range) : bool :=
  if IsEmpty r then true
  else
    let '(_, next, present) := Find rs r in
    if negb present then false
    else if IsEmpty next then true else false.

Fixpoint Intersection_loop (fuel : nat) (rs : list Range) (r : Range) (newRs : list Range)
  : option (list Range) :=
  match fuel with
  | O => None
  | S fuel' =>
      if IsEmpty r then Some newRs
      else
        let '(curr, next, found) := Find rs r in
        if found then
          newRs' ← Insert newRs curr;
          Intersection_loop fuel' rs next newRs'
        else Intersection_loop fuel' rs next newRs
  end.

Definition Intersections (rs : list Range) (r : Range) : option (list Range) :=
  if (length rs =? 0)%nat then Some rs
  else Intersection_loop (find_fuel rs) rs r [].

Fixpoint Equal_loop (rs bs : list Range) : bool :=
  match rs, bs with
  | r :: rs', b :: bs' => if decide (r = b) then Equal_loop rs' bs' else false
  | _, _ => true
  end.

Definition Equal (rs bs : list Range) : bool :=
  if negb (length rs =? length bs)%nat then false else Equal_loop rs bs.

Definition RSize (rs : list Range) : Z :=
  fold_left (fun size r => i64 (size + Size r)) rs 0.

Definition FindMissing (rs : list Range) (r : Range) : Range :=
  if IsEmpty r then r
  else
    let '(curr, _, present) := Find rs r in
    if negb present then r
    else mkRange (End curr) (i64 (Size r - i64 (End curr - Pos r))).

(** ** Meaning and invariant *)

(** The offsets of one range, and of a list of ranges. *)
Definition inside (r : Range) (x : Z) : Prop := Pos r <= x < Pos r + Size r.

Definition covers (rs : list Range) (x : Z) : Prop := exists r, r ∈ rs /\ inside r x.

(** A non-empty range of byte offsets whose end is an [int64]. *)
Definition range_ok (r : Range) : Prop :=
  0 <= Pos r /\ 0 < Size r /\ Pos r + Size r <= i64_max.

Definition gap (a b : Range) : Prop := Pos a + Size a < Pos b.

Definition wf (rs : list Range) : Prop := Forall range_ok rs /\ StronglySorted gap rs.

#[export] Instance inside_dec r x : Decision (inside r x).
Proof. unfold inside. apply _. Defined.

#[export] Instance range_ok_dec r : Decision (range_ok r).
Proof. unfold range_ok. apply _. Defined.

(** The reference for what [absorb]ing successors does: what the loop of
    [coalesce] leaves of [x] and of the elements after it. *)
Fixpoint absorb (x : Range) (post : list Range) : list Range :=
  match post with
  | [] => [x]
  | y :: post' =>
      match merge x y with
      | Some y' => absorb y' post'
      | None => x :: post
      end
  end.

(** Reduces the [int64] arithmetic of [range_ok] ranges to arithmetic on [Z]. *)
Ltac range_arith :=
  unfold range_ok, inside, gap, End, IsEmpty, i64_max in *; simpl in *;
  repeat match goal with
  | H : context [i64 ?e] |- _ => rewrite (i64_id e) in H by (unfold in_i64, i64_min, i64_max; lia)
  | |- context [i64 ?e] => rewrite (i64_id e) by (unfold in_i64, i64_min, i64_max; lia)
  end.

Lemma End_ok r : range_ok r -> End r = Pos r + Size r.
Proof. intros H. by range_arith. Qed.

Lemma covers_nil x : covers [] x <-> False.
Proof. unfold covers. set_solver. Qed.

Lemma covers_cons r rs x : covers (r :: rs) x <-> inside r x \/ covers rs x.
Proof. unfold covers. set_solver. Qed.

Lemma covers_app rs1 rs2 x : covers (rs1 ++ rs2) x <-> covers rs1 x \/ covers rs2 x.
Proof. unfold covers. set_solver. Qed.

Create Rewrite HintDb covers.
#[local] Hint Rewrite covers_nil covers_cons covers_app : covers.

Lemma wf_nil : wf [].
Proof. by split; constructor. Qed.

Lemma wf_cons r rs :
  wf (r :: rs) <-> range_ok r /\ Forall (gap r) rs /\ wf rs.
Proof.
  unfold wf. rewrite Forall_cons. split.
  - intros [[Hr Hall] Hs]. apply StronglySorted_inv in Hs as [Hs Hgap]. done.
  - intros (Hr & Hgap & Hall & Hs). split; [done|]. by constructor.
Qed.

Lemma wf_app rs1 rs2 :
  wf (rs1 ++ rs2) <->
  wf rs1 /\ wf rs2 /\ (forall a b, a ∈ rs1 -> b ∈ rs2 -> gap a b).
Proof.
  induction rs1 as [|r rs1 IH]; cbn [app].
  { split; [intros H; split_and!; [apply wf_nil|done|set_solver]|naive_solver]. }
  rewrite !wf_cons, IH, Forall_app, !Forall_forall. set_solver.
Qed.

Lemma wf_singleton r : range_ok r -> wf [r].
Proof. intros H. apply wf_cons. split_and!; [done|constructor|apply wf_nil]. Qed.

(** ** [merge] *)

Lemma merge_spec new dst :
  range_ok new -> range_ok dst -> Pos new <= Pos dst ->
  match merge new dst with
  | None => gap new dst
  | Some d => range_ok d /\ Pos d = Pos new /\
              Pos d + Size d = Z.max (Pos new + Size new) (Pos dst + Size dst) /\
              (forall x, inside d x <-> inside new x \/ inside dst x)
  end.
Proof.
  intros Hn Hd Hle. unfold merge. rewrite !End_ok by done.
  destruct (Pos new + Size new <? Pos dst) eqn:E; breflect; [done|].
  destruct (Pos dst + Size dst <? Pos new + Size new) eqn:E2; breflect; range_arith;
    (split_and!; [lia|lia|lia|lia|lia|intros x; lia]).
Qed.

(** ** [coalesce] *)

Lemma absorb_spec x post :
  range_ok x -> wf post -> Forall (fun y => Pos x <= Pos y) post ->
  wf (absorb x post) /\ Forall (fun y => Pos x <= Pos y) (absorb x post) /\
  (forall o, covers (absorb x post) o <-> inside x o \/ covers post o).
Proof.
  revert x. induction post as [|y post IH]; intros x Hx Hpost Hle; cbn [absorb].
  { split_and!; [by apply wf_singleton|by repeat constructor|].
    intros o. autorewrite with covers. tauto. }
  apply wf_cons in Hpost as (Hy & Hgap & Hpost).
  apply Forall_cons in Hle as [Hxy Hle].
  pose proof (merge_spec x y Hx Hy Hxy) as Hm.
  destruct (merge x y) as [y'|].
  - destruct Hm as (Hy' & Hpos & _ & Hin).
    destruct (IH y' Hy' Hpost) as (Hwf & Hall & Hcov); [by rewrite Hpos|].
    split_and!; [done|by rewrite <- Hpos|].
    intros o. rewrite Hcov, Hin. autorewrite with covers. tauto.
  - split_and!.
    + apply wf_cons. split_and!; [done| |by apply wf_cons].
      apply Forall_cons. split; [done|].
      eapply Forall_impl; [exact Hgap|]. intros z. range_arith. lia.
    + constructor; [done|]. by constructor.
    + intros o. by autorewrite with covers.
Qed.

Lemma coalesce_loop_spec fuel pre x post :
  (length post < fuel)%nat ->
  exists mid e',
    coalesce_loop fuel (pre ++ x :: post) (length pre) (length pre) = (pre ++ mid, e') /\
    (length pre <= e')%nat /\ drop (e' - length pre) mid = absorb x post.
Proof.
  revert pre x post. induction fuel as [|fuel IH]; intros pre x post Hf; [lia|].
  cbn [coalesce_loop]. rewrite list_lookup_middle by done.
  destruct post as [|y post].
  { rewrite lookup_ge_None_2 by len. exists [x], (length pre).
    split_and!; [done|done|by rewrite Nat.sub_diag]. }
  rewrite lookup_app_r by lia.
  replace (S (length pre) - length pre)%nat with 1%nat by lia. simpl.
  destruct (merge x y) as [y'|] eqn:Em.
  2:{ exists (x :: y :: post), (length pre).
      split_and!; [done|done|by rewrite Nat.sub_diag]. }
  rewrite insert_app_r_alt by lia.
  replace (S (length pre) - length pre)%nat with 1%nat by lia. cbn [insert list_insert].
  rewrite cons_middle, app_assoc.
  replace (S (length pre)) with (length (pre ++ [x])) by len.
  destruct (IH (pre ++ [x]) y' post) as (mid & e' & Heq & Hle & Hdrop); [len|].
  exists (x :: mid), e'. rewrite Heq. split; [by rewrite <- app_assoc|].
  rewrite length_app in *. simpl in *. split; [lia|].
  by replace (e' - length pre)%nat with (S (e' - (length pre + 1))) by lia.
Qed.

(** What [coalesce] computes when the inserted element [x] stands after
    [pre]: the previous element is merged into [x] when they touch, and the
    result absorbs its successors. *)
Lemma coalesce_eq pre x post :
  coalesce (pre ++ x :: post) (length pre) =
  Some (match last pre with
        | None => absorb x post
        | Some p =>
            match merge p x with
            | Some x' => take (length pre - 1) pre ++ absorb x' post
            | None => pre ++ absorb x post
            end
        end).
Proof.
  assert (Hchop : forall (start : nat) pre' x',
    (start <= length pre')%nat ->
    (let '(ranges, endChop) := coalesce_loop (length (pre' ++ x' :: post)) (pre' ++ x' :: post)
                                 (length pre') (length pre') in
     Some (if (start <? endChop)%nat then take start ranges ++ drop endChop ranges
           else ranges)) = Some (take start pre' ++ absorb x' post)).
  { intros start pre' x' Hs.
    destruct (coalesce_loop_spec (length (pre' ++ x' :: post)) pre' x' post)
      as (mid & e' & -> & Hle & Hdrop); [len|].
    f_equal. case_if.
    - by rewrite take_app_le, drop_app_ge, Hdrop by lia.
    - assert (e' = length pre' /\ start = length pre') as [-> ->] by lia.
      by rewrite Nat.sub_diag, drop_0 in Hdrop; rewrite firstn_all, Hdrop. }
  unfold coalesce. destruct pre as [|p pre _] using rev_ind.
  { exact (Hchop 0%nat [] x (Nat.le_refl _)). }
  rewrite last_snoc, length_app. cbn [length].
  replace (length pre + 1)%nat with (S (length pre)) by lia.
  rewrite <- app_assoc. cbn [app].
  rewrite list_lookup_middle by done.
  rewrite lookup_app_r by lia.
  replace (S (length pre) - length pre)%nat with 1%nat by lia. cbn [lookup list_lookup].
  destruct (merge p x) as [x'|].
  - rewrite insert_app_r_alt by lia.
    replace (S (length pre) - length pre)%nat with 1%nat by lia. cbn [insert list_insert].
    rewrite cons_middle, app_assoc.
    pose proof (Hchop (length pre) (pre ++ [p]) x') as Hc. rewrite length_app in Hc.
    cbn [length] in Hc. replace (length pre + 1)%nat with (S (length pre)) in Hc by lia.
    rewrite Hc by lia. by replace (S (length pre) - 1)%nat with (length pre) by lia.
  - rewrite cons_middle, app_assoc.
    pose proof (Hchop (S (length pre)) (pre ++ [p]) x) as Hc. rewrite length_app in Hc.
    cbn [length] in Hc. replace (length pre + 1)%nat with (S (length pre)) in Hc by lia.
    rewrite Hc by lia. by rewrite take_ge by len.
Qed.

Lemma coalesce_spec pre x post :
  wf (pre ++ post) -> range_ok x ->
  Forall (fun p => Pos p <= Pos x) pre -> Forall (fun y => Pos x <= Pos y) post ->
  exists rs, coalesce (pre ++ x :: post) (length pre) = Some rs /\ wf rs /\
    (forall o, covers rs o <-> covers pre o \/ inside x o \/ covers post o).
Proof.
  intros Hwf Hx Hpre Hpost. rewrite coalesce_eq.
  apply wf_app in Hwf as (Hwpre & Hwpost & Hgap).
  destruct pre as [|p pre _] using rev_ind; [|rewrite last_snoc].
  { destruct (absorb_spec x post Hx Hwpost Hpost) as (Hw & _ & Hcov).
    eexists. split_and!; [done|done|]. intros o. rewrite Hcov, covers_nil. tauto. }
  apply wf_app in Hwpre as (Hwpre & Hp & Hpp).
  apply wf_cons in Hp as (Hp & _ & _).
  apply Forall_app in Hpre as [Hpre Hpx]. apply Forall_cons in Hpx as [Hpx _].
  pose proof (merge_spec p x Hp Hx Hpx) as Hm. destruct (merge p x) as [x'|].
  - destruct Hm as (Hx' & Hpos & _ & Hin).
    destruct (absorb_spec x' post Hx' Hwpost) as (Hw & Hle & Hcov).
    { eapply Forall_impl; [exact Hpost|]. intros y. simpl. lia. }
    rewrite length_app, Nat.add_sub, take_app_length.
    eexists. split_and!; [done| |].
    + apply wf_app. split_and!; [done|done|]. intros a b Ha Hb.
      rewrite Forall_forall in Hle. specialize (Hle b Hb).
      specialize (Hpp a p Ha ltac:(set_solver)). range_arith. lia.
    + intros o. autorewrite with covers. rewrite Hcov, Hin. tauto.
  - destruct (absorb_spec x post Hx Hwpost Hpost) as (Hw & Hle & Hcov).
    eexists. split_and!; [done| |].
    + rewrite wf_app. split_and!; [|done|].
      * apply wf_app. split_and!; [done|by apply wf_singleton|done].
      * intros a b Ha Hb. rewrite Forall_forall in Hle. specialize (Hle b Hb).
        apply elem_of_app in Ha as [Ha|Ha%list_elem_of_singleton].
        -- specialize (Hpp a p Ha ltac:(set_solver)). range_arith. lia.
        -- subst a. range_arith. lia.
    + intros o. rewrite covers_app, Hcov. tauto.
Qed.

(** ** [search] and [Insert] *)

Lemma wf_lookup_lt rs i j a b :
  wf rs -> rs !! i = Some a -> rs !! j = Some b -> (i < j)%nat -> gap a b.
Proof.
  revert i j. induction rs as [|r rs IH]; intros i j Hwf Ha Hb Hij; [done|].
  apply wf_cons in Hwf as (Hr & Hg & Hwf).
  destruct i as [|i], j as [|j]; try lia; simpl in *.
  - simplify_eq. rewrite Forall_lookup in Hg. eauto.
  - apply (IH i j); auto; lia.
Qed.

Lemma wf_lookup_ok rs i a : wf rs -> rs !! i = Some a -> range_ok a.
Proof. intros [H _] Ha. rewrite Forall_lookup in H. eauto. Qed.

(** [search] splits the list at the first range that starts at or after [r]. *)
Lemma search_spec rs r :
  wf rs ->
  (search rs r <= length rs)%nat /\
  Forall (fun p => Pos p < Pos r) (take (search rs r) rs) /\
  Forall (fun y => Pos r <= Pos y) (drop (search rs r) rs).
Proof.
  intros Hwf. unfold search.
  match goal with |- context [sort_Search ?g ?n] =>
    destruct (sort_Search_spec g n) as (Hle & Hlo & Hhi) end.
  { intros a b Hab Hb Ha.
    destruct (rs !! b) as [y|] eqn:Eb; [|done].
    destruct (rs !! a) as [x|] eqn:Ea; [|apply lookup_ge_None_1 in Ea; lia].
    rewrite Z.geb_leb in *. apply Z.leb_le. apply Z.leb_le in Ha.
    destruct (decide (a = b)) as [->|Hne]; [by simplify_eq|].
    pose proof (wf_lookup_lt rs a b x y Hwf Ea Eb ltac:(lia)) as Hg.
    pose proof (wf_lookup_ok rs a x Hwf Ea). range_arith. lia. }
  split_and!; [done| |]; rewrite Forall_lookup; intros k x Hk.
  - apply lookup_take_Some in Hk as [Hk Hlt]. specialize (Hlo k Hlt).
    rewrite Hk in Hlo. breflect. lia.
  - rewrite lookup_drop in Hk. pose proof (lookup_lt_Some _ _ _ Hk).
    specialize (Hhi _ ltac:(split; [|eassumption]; lia)). rewrite Hk in Hhi. breflect. lia.
Qed.

Lemma Insert_spec rs r :
  wf rs -> range_ok r ->
  exists rs', Insert rs r = Some rs' /\ wf rs' /\
    (forall o, covers rs' o <-> covers rs o \/ inside r o).
Proof.
  intros Hwf Hr. unfold Insert.
  assert (IsEmpty r = false) as -> by (range_arith; lia).
  destruct rs as [|r0 rs0] eqn:Ers; [|rewrite <- Ers in *].
  { eexists. split_and!; [done|by apply wf_singleton|].
    intros o. autorewrite with covers. tauto. }
  assert ((length rs =? 0)%nat = false) as -> by (subst rs; done). clear Ers r0 rs0.
  destruct (search_spec rs r Hwf) as (Hi & Hpre & Hpost).
  remember (search rs r) as i eqn:Heqi. clear Heqi.
  assert (Hcov : forall o, covers rs o <-> covers (take i rs) o \/ covers (drop i rs) o).
  { intros o. by rewrite <- covers_app, take_drop. }
  assert (Hpre' : Forall (fun p => Pos p <= Pos r) (take i rs)).
  { eapply Forall_impl; [exact Hpre|]. simpl. lia. }
  assert (Hlen : length (take i rs) = i) by len.
  assert (Hins : exists rs', coalesce (take i rs ++ r :: drop i rs) i = Some rs' /\ wf rs' /\
    (forall o, covers rs' o <-> covers rs o \/ inside r o)).
  { destruct (coalesce_spec (take i rs) r (drop i rs)) as (rs' & Heq & Hw & Hc);
      [by rewrite take_drop|done|done|done|].
    rewrite Hlen in Heq. exists rs'. split_and!; [done|done|].
    intros o. rewrite Hc, Hcov. tauto. }
  destruct (rs !! i) as [x|] eqn:Ex; [|exact Hins].
  destruct (merge r x) as [x'|] eqn:Em; [clear Hins|exact Hins].
  rewrite <- (take_drop_middle rs i x Ex) in Hwf.
  rewrite (drop_S rs x i Ex) in Hpost, Hcov. apply Forall_cons in Hpost as [Hrx Hpost].
  pose proof Hwf as Hwf'. rewrite cons_middle, app_assoc in Hwf'.
  apply wf_app in Hwf' as (Hwx & Hwpost & Hgx).
  apply wf_app in Hwx as (Hwpre & Hx & Hgp). apply wf_cons in Hx as (Hx & _ & _).
  pose proof (merge_spec r x Hr Hx Hrx) as Hm. rewrite Em in Hm.
  destruct Hm as (Hx' & Hpos & _ & Hin).
  rewrite insert_take_drop by (by eapply lookup_lt_Some).
  destruct (coalesce_spec (take i rs) x' (drop (S i) rs)) as (rs' & Heq & Hw & Hc).
  - apply wf_app. split_and!; [done|done|]. intros a b Ha Hb. apply Hgx; set_solver.
  - done.
  - by rewrite Hpos.
  - by rewrite Hpos.
  - rewrite Hlen in Heq. exists rs'. split_and!; [done|done|].
    intros o. rewrite Hc, Hcov, Hin, covers_cons. tauto.
Qed.

(** ** [Find] *)

(** What one call of [Find] promises for a non-empty [r]: [curr] is an
    initial part of [r] that is entirely present or entirely absent, and it
    is maximal: either nothing is left or [next] is the rest of [r] and starts
    with the opposite presence. *)
Definition find_ok (rs : list Range) (r : Range) (res : Range * Range * bool) : Prop :=
  let '(curr, next, present) := res in
  range_ok curr /\ Pos curr = Pos r /\
  (forall o, inside curr o -> if present : bool then covers rs o else ~ covers rs o) /\
  ((IsEmpty next = true /\ Pos curr + Size curr = Pos r + Size r) \/
   (range_ok next /\ Pos next = Pos curr + Size curr /\
    Pos next + Size next = Pos r + Size r /\
    if present then ~ covers rs (Pos next) else covers rs (Pos next))).

Lemma covers_lookup rs o :
  covers rs o <-> exists k x, rs !! k = Some x /\ inside x o.
Proof.
  unfold covers. split.
  - intros (x & Hx & Ho). apply list_elem_of_lookup in Hx as [k Hk]. eauto.
  - intros (k & x & Hk & Ho). exists x. split; [|done].
    apply list_elem_of_lookup. eauto.
Qed.

(** An offset between the end of the ranges before [i] and the start of the
    ones from [i] on is not covered. *)
Lemma uncovered_between rs i o :
  (forall k x, rs !! k = Some x -> (k < i)%nat -> Pos x + Size x <= o) ->
  (forall k x, rs !! k = Some x -> (i <= k)%nat -> o < Pos x) ->
  ~ covers rs o.
Proof.
  intros Hlo Hhi (k & x & Hk & Ho)%covers_lookup. unfold inside in Ho.
  destruct (decide (k < i)%nat) as [Hki|Hki].
  - specialize (Hlo k x Hk Hki). lia.
  - specialize (Hhi k x Hk). lia.
Qed.

Lemma search_lookup rs r k x :
  wf rs -> rs !! k = Some x ->
  ((k < search rs r)%nat -> Pos x < Pos r) /\ ((search rs r <= k)%nat -> Pos r <= Pos x).
Proof.
  intros Hwf Hk. destruct (search_spec rs r Hwf) as (_ & Hpre & Hpost).
  rewrite Forall_lookup in Hpre, Hpost. split; intros Hki.
  - apply (Hpre k). by rewrite lookup_take_lt.
  - apply (Hpost (k - search rs r)%nat). rewrite lookup_drop.
    by replace (search rs r + (k - search rs r))%nat with k by lia.
Qed.

Lemma wf_end_le rs i j a b :
  wf rs -> rs !! i = Some a -> rs !! j = Some b -> (i <= j)%nat ->
  Pos a <= Pos b /\ Pos a + Size a <= Pos b + Size b.
Proof.
  intros Hwf Ha Hb Hij. pose proof (wf_lookup_ok _ _ _ Hwf Ha).
  pose proof (wf_lookup_ok _ _ _ Hwf Hb).
  destruct (decide (i = j)) as [->|Hne]; [simplify_eq; lia|].
  pose proof (wf_lookup_lt rs i j a b Hwf Ha Hb ltac:(lia)). range_arith. lia.
Qed.

(** The answer when the range [q] of the list holds the start of [r]. *)
Lemma find_present rs r k q :
  wf rs -> range_ok r -> rs !! k = Some q -> Pos q <= Pos r < Pos q + Size q ->
  let inter := Intersection q r in
  Pos inter = Pos r /\ IsEmpty inter = false /\
  find_ok rs r (inter, mkRange (End inter) (i64 (Size r - Size inter)), true).
Proof.
  intros Hwf Hr Hq Hin inter. pose proof (wf_lookup_ok _ _ _ Hwf Hq) as Hqok.
  assert (inter = mkRange (Pos r) (Z.min (Pos q + Size q) (Pos r + Size r) - Pos r)) as ->.
  { subst inter. unfold Intersection. rewrite !End_ok by done.
    rewrite (Z.max_r (Pos q) (Pos r)) by lia.
    case_if; [f_equal; by range_arith|].
    apply andb_false_iff in H0 as [H0|H0]; breflect; lia. }
  split; [done|]. unfold find_ok. split; [range_arith; lia|].
  set (e := Z.min (Pos q + Size q) (Pos r + Size r)).
  assert (Pos r < e) by (subst e; range_arith; lia).
  rewrite End_ok by (subst e; range_arith; lia). simpl.
  split_and!; [subst e; range_arith; lia..|done| |].
  - intros o Ho. apply covers_lookup. exists k, q. split; [done|].
    subst e. range_arith. lia.
  - destruct (decide (Pos r + Size r <= Pos q + Size q)) as [Hle|Hgt].
    + left. subst e. range_arith. lia.
    + right. rewrite i64_id by (subst e; range_arith; unfold in_i64, i64_min, i64_max; lia).
      split_and!; [subst e; range_arith; lia..|].
      apply (uncovered_between rs (S k)); intros k' x Hk' Hle.
      * destruct (wf_end_le rs k' k x q Hwf Hk' Hq); [lia|]. subst e. lia.
      * pose proof (wf_lookup_lt rs k k' q x Hwf Hq Hk' Hle) as Hg.
        unfold gap in Hg. subst e. lia.
Qed.

Lemma Find_from_spec rs r :
  wf rs -> range_ok r ->
  (forall k x, rs !! k = Some x -> (k < search rs r)%nat -> Pos x + Size x <= Pos r) ->
  find_ok rs r (Find_from rs (search rs r) r).
Proof.
  intros Hwf Hr Hpast. unfold Find_from.
  assert (Habsent : forall o, inside r o ->
    (forall k x, rs !! k = Some x -> (search rs r <= k)%nat -> o < Pos x) -> ~ covers rs o).
  { intros o Ho Hhi. apply (uncovered_between rs (search rs r)); [|done].
    intros k x Hk Hlt. specialize (Hpast k x Hk Hlt). unfold inside in Ho. lia. }
  assert (Hnone : (forall k x, rs !! k = Some x -> (search rs r <= k)%nat ->
                    Pos r + Size r <= Pos x) -> find_ok rs r (r, mkRange 0 0, false)).
  { intros Hhi. unfold find_ok. split_and!; [done|done| |by left].
    intros o Ho. apply Habsent; [done|]. intros k x Hk Hle.
    specialize (Hhi k x Hk Hle). unfold inside in Ho. lia. }
  destruct (rs !! search rs r) as [found|] eqn:Ef.
  2:{ apply Hnone. intros k x Hk Hle. apply lookup_lt_Some in Hk.
      apply lookup_ge_None_1 in Ef. lia. }
  pose proof (wf_lookup_ok _ _ _ Hwf Ef) as Hf.
  destruct (search_lookup rs r _ _ Hwf Ef) as [_ Hrf]. specialize (Hrf (Nat.le_refl _)).
  destruct (decide (Pos r + Size r <= Pos found)) as [Hbeyond|Hmeet].
  { replace (Intersection found r) with (mkRange 0 0); [apply Hnone|].
    - intros k x Hk Hle. destruct (wf_end_le rs _ k found x Hwf Ef Hk); lia.
    - unfold Intersection. rewrite !End_ok by done.
      case_if; [|done]. apply orb_true_iff in E as [E|E]; breflect; range_arith; lia. }
  destruct (decide (Pos r = Pos found)) as [Heq|Hne].
  { destruct (find_present rs r _ found Hwf Hr Ef) as (Hpos & -> & Hok).
    { range_arith. lia. }
    rewrite Hpos, Z.ltb_irrefl. exact Hok. }
  assert (Pos (Intersection found r) = Pos found /\ IsEmpty (Intersection found r) = false)
    as [-> ->].
  { unfold Intersection. rewrite !End_ok by done. rewrite Z.max_l by lia.
    case_if; [|apply andb_false_iff in H as [H|H]; breflect; lia].
    split; [done|]. range_arith. lia. }
  assert ((Pos r <? Pos found) = true) as -> by lia.
  set (curr := mkRange (Pos r) (i64 (Pos found - Pos r))).
  assert (curr = mkRange (Pos r) (Pos found - Pos r)) as -> by (subst curr; by range_arith).
  unfold find_ok. rewrite End_ok by (range_arith; lia). simpl.
  split_and!; [range_arith; lia..|done| |].
  - intros o Ho. apply Habsent; [range_arith; lia|]. intros k x Hk Hle.
    destruct (wf_end_le rs _ k found x Hwf Ef Hk Hle). range_arith. lia.
  - right. split_and!; [range_arith; lia..|]. apply covers_lookup.
    exists (search rs r), found. split; [done|]. range_arith. lia.
Qed.

Lemma Find_spec rs r : wf rs -> range_ok r -> find_ok rs r (Find rs r).
Proof.
  intros Hwf Hr. unfold Find.
  assert (IsEmpty r = false) as -> by (range_arith; lia).
  destruct (search rs r) as [|i] eqn:Ei.
  { rewrite <- Ei. apply Find_from_spec; [done|done|]. lia. }
  destruct (rs !! i) as [prev|] eqn:Ep.
  2:{ destruct (search_spec rs r Hwf) as (Hle & _ & _). apply lookup_ge_None_1 in Ep. lia. }
  pose proof (wf_lookup_ok _ _ _ Hwf Ep) as Hp.
  destruct (search_lookup rs r i prev Hwf Ep) as [Hlt _]. specialize (Hlt ltac:(lia)).
  destruct (decide (Pos r < Pos prev + Size prev)) as [Hin|Hout].
  { destruct (find_present rs r i prev Hwf Hr Ep) as (_ & -> & Hok); [lia|done]. }
  assert (IsEmpty (Intersection prev r) = true) as ->.
  { unfold Intersection. rewrite !End_ok by done. case_if; [|done].
    apply orb_true_iff in E as [E|E]; breflect; range_arith; lia. }
  rewrite <- Ei. apply Find_from_spec; [done|done|]. intros k x Hk Hki.
  destruct (wf_end_le rs k i x prev Hwf Hk Ep); lia.
Qed.

(** ** [FindAll] *)

(** The answer of [FindAll] for the offsets from [s] to [e]: contiguous
    pieces, each entirely present or entirely absent, with alternating
    presence. *)
Inductive tiles (rs : list Range) : Z -> Z -> list FoundRange -> Prop :=
| tiles_nil e : tiles rs e e []
| tiles_cons e fr frs :
    range_ok (R fr) ->
    (forall o, inside (R fr) o -> if Present_ fr then covers rs o else ~ covers rs o) ->
    (forall fr' frs', frs = fr' :: frs' -> Present_ fr' = negb (Present_ fr)) ->
    tiles rs (Pos (R fr) + Size (R fr)) e frs ->
    tiles rs (Pos (R fr)) e (fr :: frs).

(** The number of ranges that end after [p]: the measure of the search. *)
Definition remaining (rs : list Range) (p : Z) : nat :=
  length (filter (fun x => p < Pos x + Size x) rs).

Lemma remaining_le rs p q : p <= q -> (remaining rs q <= remaining rs p)%nat.
Proof.
  intros Hpq. unfold remaining. induction rs as [|x rs IH]; [done|].
  rewrite !filter_cons. repeat case_decide; simpl; lia.
Qed.

Lemma remaining_lt rs x p q :
  x ∈ rs -> p < Pos x + Size x <= q -> (remaining rs q < remaining rs p)%nat.
Proof.
  intros Hx Hpq. induction rs as [|y rs IH]; [set_solver|].
  pose proof (remaining_le rs p q ltac:(lia)) as Hle. unfold remaining in *.
  rewrite !filter_cons. apply elem_of_cons in Hx as [->|Hx].
  - repeat case_decide; simpl; lia.
  - specialize (IH Hx). repeat case_decide; simpl; lia.
Qed.

Lemma remaining_length rs p : (remaining rs p <= length rs)%nat.
Proof. apply length_filter. Qed.

Lemma FindAll_loop_spec rs :
  wf rs -> forall fuel r (b : bool),
  range_ok r -> (if b then covers rs (Pos r) else ~ covers rs (Pos r)) ->
  (2 * remaining rs (Pos r) + (if b then 0 else 1) + 2 <= fuel)%nat ->
  exists fr frs, FindAll_loop fuel rs r = Some (fr :: frs) /\ Present_ fr = b /\
    tiles rs (Pos r) (Pos r + Size r) (fr :: frs).
Proof.
  intros Hwf. induction fuel as [|fuel IH]; intros r b Hr Hb Hfuel; [lia|].
  cbn [FindAll_loop]. assert (IsEmpty r = false) as -> by (range_arith; lia).
  pose proof (Find_spec rs r Hwf Hr) as Hf.
  destruct (Find rs r) as [[curr next] present].
  destruct Hf as (Hc & Hpos & Hcov & Hnext).
  assert (Hhere : inside curr (Pos r)) by (range_arith; lia).
  assert (present = b) as ->.
  { specialize (Hcov _ Hhere). destruct present, b; done. }
  destruct Hnext as [[He Hend]|(Hnok & Hnpos & Hnend & Hncov)].
  - destruct fuel as [|fuel]; [lia|]. cbn [FindAll_loop]. rewrite He. simpl.
    eexists _, _. split_and!; [done|done|]. rewrite <- Hend, <- Hpos.
    apply (tiles_cons rs _ (mkFound curr b)); [done|done|done|constructor].
  - destruct (IH next (negb b) Hnok) as (fr & frs & -> & Hp & Ht).
    { by destruct b. }
    { destruct b; simpl in *.
      - destruct (Hcov _ Hhere) as (q & Hq & Hqin).
        assert (remaining rs (Pos next) < remaining rs (Pos r))%nat; [|lia].
        apply (remaining_lt rs q); [done|].
        destruct (decide (Pos next < Pos q + Size q)) as [Hlt|Hge]; [|range_arith; lia].
        exfalso. apply Hncov. exists q. split; [done|]. range_arith. lia.
      - pose proof (remaining_le rs (Pos r) (Pos next)). range_arith. lia. }
    eexists _, _. split_and!; [done|done|]. rewrite <- Hnend, <- Hpos.
    apply (tiles_cons rs _ (mkFound curr b)); [done|done| |].
    + intros fr' frs' [= <- <-]. done.
    + simpl. by rewrite <- Hnpos.
Qed.

#[local] Instance covers_dec rs o : Decision (covers rs o).
Proof.
  refine (cast_if (decide (Exists (fun r => inside r o) rs)));
    by rewrite Exists_exists in *.
Defined.

(** [FindAll] returns (the fuel is enough), with nothing for an empty range. *)
Lemma FindAll_total rs r :
  wf rs -> range_ok r ->
  exists frs, FindAll rs r = Some frs /\ tiles rs (Pos r) (Pos r + Size r) frs.
Proof.
  intros Hwf Hr. unfold FindAll, find_fuel.
  pose proof (remaining_length rs (Pos r)).
  destruct (FindAll_loop_spec rs Hwf (2 * length rs + 3) r (bool_decide (covers rs (Pos r))) Hr)
    as (fr & frs & -> & _ & Ht); [by case_bool_decide|case_bool_decide; lia|eauto].
Qed.

Lemma tiles_present rs s e frs o :
  tiles rs s e frs ->
  (exists fr, fr ∈ frs /\ Present_ fr = true /\ inside (R fr) o) <-> s <= o < e /\ covers rs o.
Proof.
  intros Ht. induction Ht as [e|e fr frs Hok Hcov _ Ht IH].
  { split; [set_solver|lia]. }
  assert (Hle : Pos (R fr) + Size (R fr) <= e).
  { clear -Ht Hok. induction Ht; unfold range_ok in *; lia. }
  split.
  - intros (fr' & [->|Hin]%elem_of_cons & Hp & Ho).
    + specialize (Hcov o Ho). rewrite Hp in Hcov. range_arith. split; [lia|done].
    + destruct IH as [IH _]. destruct IH; [by exists fr'|]. range_arith. split; [lia|done].
  - intros [Ho Hc]. destruct (decide (inside (R fr) o)) as [Hi|Hni].
    + exists fr. split_and!; [by left| |done]. specialize (Hcov o Hi).
      by destruct (Present_ fr).
    + destruct IH as [_ IH]. destruct IH as (fr' & Hin & Hp & Hio).
      * range_arith. split; [lia|done].
      * exists fr'. split_and!; [by right|done|done].
Qed.

Lemma tiles_ok rs s e frs : tiles rs s e frs -> Forall (fun fr => range_ok (R fr)) frs.
Proof. by induction 1; constructor. Qed.

Lemma Intersection_loop_spec rs fuel r newRs frs :
  FindAll_loop fuel rs r = Some frs -> Forall (fun fr => range_ok (R fr)) frs -> wf newRs ->
  exists out, Intersection_loop fuel rs r newRs = Some out /\ wf out /\
    (forall o, covers out o <->
       covers newRs o \/ exists fr, fr ∈ frs /\ Present_ fr = true /\ inside (R fr) o).
Proof.
  revert r newRs frs. induction fuel as [|fuel IH]; intros r newRs frs Hf Hok Hwf; [done|].
  cbn [FindAll_loop Intersection_loop] in *. destruct (IsEmpty r).
  { simplify_eq. exists newRs. split_and!; [done|done|]. set_solver. }
  destruct (Find rs r) as [[curr next] present].
  destruct (FindAll_loop fuel rs next) as [frs'|] eqn:E; [|done]. simpl in Hf. simplify_eq.
  apply Forall_cons in Hok as [Hc Hok]. destruct present.
  - destruct (Insert_spec newRs curr Hwf Hc) as (newRs' & -> & Hwf' & Hcov). simpl.
    destruct (IH next newRs' frs' E Hok Hwf') as (out & -> & Hwo & Ho).
    exists out. split_and!; [done|done|]. intros o. rewrite Ho, Hcov. clear. set_solver.
  - destruct (IH next newRs frs' E Hok Hwf) as (out & -> & Hwo & Ho).
    exists out. split_and!; [done|done|]. intros o. rewrite Ho. clear. set_solver.
Qed.

(** ** Canonicity: a set of offsets has one well-formed list *)

Lemma wf_covers_ge r rs o :
  wf (r :: rs) -> covers (r :: rs) o -> Pos r <= o /\ (covers rs o -> Pos r + Size r < o).
Proof.
  intros (Hr & Hg & Hwf)%wf_cons Ho. rewrite Forall_forall in Hg.
  assert (covers rs o -> Pos r + Size r < o) as Hrest.
  { intros (x & Hx & Hox). specialize (Hg x Hx). range_arith. lia. }
  split; [|done]. apply covers_cons in Ho as [Ho|Ho].
  - range_arith. lia.
  - specialize (Hrest Ho). range_arith. lia.
Qed.

Lemma wf_uncovered_end r rs : wf (r :: rs) -> ~ covers (r :: rs) (Pos r + Size r).
Proof.
  intros Hwf Hc. destruct (wf_covers_ge r rs _ Hwf Hc) as [_ Hrest].
  apply covers_cons in Hc as [Hc|Hc]; [range_arith; lia|]. specialize (Hrest Hc). lia.
Qed.

Lemma wf_head r rs r' rs' :
  wf (r :: rs) -> wf (r' :: rs') ->
  (forall o, covers (r :: rs) o <-> covers (r' :: rs') o) -> r = r'.
Proof.
  intros Hwf Hwf' Heq.
  pose proof Hwf as (Hr & _ & _)%wf_cons. pose proof Hwf' as (Hr' & _ & _)%wf_cons.
  assert (Hin : forall q qs o, inside q o -> covers (q :: qs) o).
  { intros q qs o Ho. rewrite covers_cons. by left. }
  assert (Pos r = Pos r').
  { destruct (wf_covers_ge r' rs' (Pos r) Hwf') as [H1 _].
    { apply Heq, Hin. range_arith. lia. }
    destruct (wf_covers_ge r rs (Pos r') Hwf) as [H2 _].
    { apply Heq, Hin. range_arith. lia. }
    lia. }
  assert (~ Pos r + Size r < Pos r' + Size r').
  { intros Hlt. apply (wf_uncovered_end r rs Hwf). apply Heq, Hin. range_arith. lia. }
  assert (~ Pos r' + Size r' < Pos r + Size r).
  { intros Hlt. apply (wf_uncovered_end r' rs' Hwf'). apply Heq, Hin. range_arith. lia. }
  destruct r, r'. simpl in *. f_equal; lia.
Qed.

Lemma wf_unique rs rs' :
  wf rs -> wf rs' -> (forall o, covers rs o <-> covers rs' o) -> rs = rs'.
Proof.
  revert rs'. induction rs as [|r rs IH]; intros [|r' rs'] Hwf Hwf' Heq; [done| | |].
  - exfalso. pose proof Hwf' as (Hr' & _ & _)%wf_cons. apply (covers_nil (Pos r')), Heq.
    apply covers_cons. left. range_arith. lia.
  - exfalso. pose proof Hwf as (Hr & _ & _)%wf_cons. apply (covers_nil (Pos r)), Heq.
    apply covers_cons. left. range_arith. lia.
  - pose proof (wf_head r rs r' rs' Hwf Hwf' Heq) as ->. f_equal.
    pose proof Hwf as (_ & _ & Hw)%wf_cons. pose proof Hwf' as (_ & _ & Hw')%wf_cons.
    apply IH; [done|done|]. intros o. specialize (Heq o). rewrite !covers_cons in Heq.
    assert (forall qs, wf (r' :: qs) -> covers qs o -> ~ inside r' o) as Hdisj.
    { intros qs Hq Ho. destruct (wf_covers_ge r' qs o Hq) as [_ Hlt].
      - rewrite covers_cons. by right.
      - specialize (Hlt Ho). range_arith. lia. }
    split; intros Ho.
    + pose proof (Hdisj rs Hwf Ho). tauto.
    + pose proof (Hdisj rs' Hwf' Ho). tauto.
Qed.

(** ** Theorems *)

(** C15: on a sorted and coalesced slice, [Insert] of a non-empty range does
    not panic and yields a sorted and coalesced slice which covers exactly the
    old offsets and those of the new range; it is the only such slice, so the
    result is coalesced to the minimum size and the order of insertions does
    not matter. *)
Theorem Insert_correct rs r :
  wf rs -> range_ok r ->
  exists rs', Insert rs r = Some rs' /\ wf rs' /\
    (forall o, covers rs' o <-> covers rs o \/ inside r o) /\
    (forall rs2, wf rs2 -> (forall o, covers rs2 o <-> covers rs o \/ inside r o) -> rs2 = rs').
Proof.
  intros Hwf Hr. destruct (Insert_spec rs r Hwf Hr) as (rs' & Heq & Hwf' & Hcov).
  exists rs'. split_and!; [done|done|done|].
  intros rs2 Hwf2 Hcov2. apply wf_unique; [done|done|]. intros o. by rewrite Hcov, Hcov2.
Qed.

(** A list of three separated ranges, used by the examples. *)
Definition sample : list Range := [mkRange 0 10; mkRange 20 10; mkRange 40 5].

Lemma sample_wf : wf sample.
Proof.
  repeat (apply wf_cons; split_and!;
    [unfold range_ok, i64_max; simpl; lia|repeat constructor; unfold gap; simpl; lia|]).
  apply wf_nil.
Defined.

Lemma Insert_correct_witness :
  exists rs', Insert sample (mkRange 5 16) = Some rs' /\ wf rs' /\
    rs' = [mkRange 0 30; mkRange 40 5].
Proof.
  destruct (Insert_correct sample (mkRange 5 16) sample_wf) as (rs' & H1 & H2 & _).
  - unfold range_ok, i64_max; simpl; lia.
  - exists rs'. split; [exact H1|]. split; [exact H2|].
    vm_compute in H1. congruence.
Defined.

(** The loop of [FindAll] terminates within [2*len(rs)+3] rounds, and it
    cuts a non-empty range into contiguous non-empty pieces, each entirely
    present or entirely absent, whose presence alternates. *)
Theorem FindAll_partition rs r :
  wf rs -> range_ok r ->
  exists frs, FindAll rs r = Some frs /\ tiles rs (Pos r) (Pos r + Size r) frs.
Proof. apply FindAll_total. Qed.

Lemma FindAll_partition_witness :
  exists frs, FindAll sample (mkRange 5 20) = Some frs /\ length frs = 3%nat /\
    tiles sample 5 25 frs.
Proof.
  destruct (FindAll_partition sample (mkRange 5 20) sample_wf) as (frs & H1 & H2).
  - unfold range_ok, i64_max; simpl; lia.
  - exists frs. split; [exact H1|]. split; [|exact H2].
    vm_compute in H1. injection H1 as <-. reflexivity.
Defined.

(** [Ranges.Intersection] returns a sorted and coalesced slice that
    covers exactly the offsets of [r] that are present. *)
Theorem Intersections_correct rs r :
  wf rs -> range_ok r ->
  exists out, Intersections rs r = Some out /\ wf out /\
    (forall o, covers out o <-> covers rs o /\ inside r o).
Proof.
  intros Hwf Hr. unfold Intersections. destruct rs as [|r0 rs0] eqn:Ers.
  { exists []. split_and!; [done|done|]. intros o. rewrite covers_nil. tauto. }
  rewrite <- Ers in *. assert ((length rs =? 0)%nat = false) as -> by (subst; done).
  destruct (FindAll_total rs r Hwf Hr) as (frs & Hf & Ht).
  destruct (Intersection_loop_spec rs (find_fuel rs) r [] frs Hf (tiles_ok _ _ _ _ Ht) wf_nil)
    as (out & -> & Hwo & Ho).
  exists out. split_and!; [done|done|]. intros o.
  rewrite Ho, (tiles_present rs _ _ frs o Ht), covers_nil. unfold inside. tauto.
Qed.

Lemma Intersections_correct_witness :
  exists out, Intersections sample (mkRange 5 20) = Some out /\
    out = [mkRange 5 5; mkRange 20 5].
Proof.
  destruct (Intersections_correct sample (mkRange 5 20) sample_wf) as (out & H1 & _ & _).
  - unfold range_ok, i64_max; simpl; lia.
  - exists out. split; [exact H1|]. vm_compute in H1. congruence.
Defined.

(** [Present] holds exactly when every offset of the range is present;
    [FindMissing] drops from the front of the range exactly the present
    offsets before the first absent one and keeps the end, so the result is
    empty exactly when [Present] holds. *)
Theorem Present_FindMissing_correct rs r :
  wf rs -> range_ok r ->
  (Present rs r = true <-> forall o, inside r o -> covers rs o) /\
  let rout := FindMissing rs r in
  Pos r <= Pos rout /\ Pos rout + Size rout = Pos r + Size r /\
  (forall o, Pos r <= o < Pos rout -> covers rs o) /\
  (IsEmpty rout = Present rs r) /\ (IsEmpty rout = false -> ~ covers rs (Pos rout)).
Proof.
  intros Hwf Hr. unfold Present, FindMissing.
  assert (IsEmpty r = false) as -> by (range_arith; lia).
  pose proof (Find_spec rs r Hwf Hr) as Hf.
  destruct (Find rs r) as [[curr next] present]. destruct Hf as (Hc & Hpos & Hcov & Hnext).
  assert (Hhere : inside curr (Pos r)) by (range_arith; lia).
  assert (Hsub : Pos curr + Size curr <= Pos r + Size r).
  { destruct Hnext as [?|?]; range_arith; lia. }
  destruct present; cbn [negb].
  2:{ specialize (Hcov _ Hhere). split_and!; [|lia|lia|lia| |done].
      - split; [done|]. intros Hall. exfalso. apply Hcov, Hall. range_arith. lia.
      - range_arith. lia. }
  rewrite End_ok by done. simpl.
  rewrite !i64_id by (range_arith; unfold in_i64, i64_min, i64_max;
    rewrite ?i64_id by (unfold in_i64, i64_min, i64_max; lia); lia).
  assert (Hfront : forall o, Pos r <= o < Pos curr + Size curr -> covers rs o).
  { intros o Ho. apply Hcov. range_arith. lia. }
  destruct Hnext as [[He Hend]|(Hnok & Hnpos & Hnend & Hncov)].
  - rewrite He. split_and!; [|range_arith; lia|lia|done| |].
    + split; [|done]. intros _ o Ho. apply Hfront. range_arith. lia.
    + unfold IsEmpty. simpl. lia.
    + unfold IsEmpty. simpl. lia.
  - assert (IsEmpty next = false) as -> by (range_arith; lia).
    split_and!; [|range_arith; lia|lia|done| |].
    + split; [done|]. intros Hall. exfalso. apply Hncov, Hall. range_arith. lia.
    + unfold IsEmpty. range_arith. lia.
    + intros _. by rewrite <- Hnpos.
Qed.

Lemma Present_FindMissing_correct_witness :
  Present sample (mkRange 22 8) = true /\
  (forall o, inside (mkRange 22 8) o -> covers sample o) /\
  FindMissing sample (mkRange 5 20) = mkRange 10 15.
Proof.
  destruct (Present_FindMissing_correct sample (mkRange 22 8) sample_wf) as [[H1 _] _].
  - unfold range_ok, i64_max; simpl; lia.
  - split; [reflexivity|]. split; [exact (H1 eq_refl)|reflexivity].
Defined.

(** The sizes add up without overflow: the ranges are disjoint and end below
    [2^63]. *)
Lemma RSize_from rs acc :
  wf rs -> 0 <= acc -> Forall (fun r => acc <= Pos r) rs -> acc <= i64_max ->
  fold_left (fun size r => i64 (size + Size r)) rs acc =
    foldr (fun r n => Size r + n) acc rs /\
  acc <= foldr (fun r n => Size r + n) acc rs <= i64_max.
Proof.
  revert acc. induction rs as [|r rs IH]; intros acc Hwf Hacc Hle Hmax; simpl; [lia|].
  apply wf_cons in Hwf as (Hr & Hg & Hwf). apply Forall_cons in Hle as [Hle _].
  destruct (IH (acc + Size r) Hwf) as (Heq & Hb); [range_arith; lia| |range_arith; lia|].
  { eapply Forall_impl; [exact Hg|]. intros x. range_arith. lia. }
  assert (Hshift : forall n, foldr (fun r n => Size r + n) (n + Size r) rs =
                             Size r + foldr (fun r n => Size r + n) n rs).
  { intros n. clear. induction rs as [|x rs IH]; simpl; lia. }
  rewrite Hshift in Heq, Hb.
  rewrite i64_id by (range_arith; unfold in_i64, i64_min, i64_max; lia).
  split; [done|]. range_arith. lia.
Qed.

Lemma RSize_exact rs :
  wf rs -> RSize rs = foldr (fun r n => Size r + n) 0 rs /\ 0 <= RSize rs <= i64_max.
Proof.
  intros Hwf. unfold RSize. destruct (RSize_from rs 0) as [Heq Hb]; [done|lia| |done|].
  - destruct Hwf as [Hok _]. eapply Forall_impl; [exact Hok|]. intros r. range_arith. lia.
  - by rewrite Heq.
Qed.

(** [Clip] keeps exactly the offsets of the range below the limit. *)
Lemma Clip_spec r offset o :
  range_ok r -> in_i64 offset -> 0 <= offset ->
  inside (Clip r offset) o <-> inside r o /\ o < offset.
Proof.
  intros Hr Ho Hpos. unfold Clip. rewrite End_ok by done. case_if; [range_arith; lia|].
  unfold in_i64 in Ho. assert (0 < Size r <= i64_max) by (range_arith; lia).
  rewrite (i64_id (Pos r + Size r - offset)) by (range_arith; unfold in_i64, i64_min, i64_max; lia).
  rewrite i64_id by (range_arith; unfold in_i64, i64_min, i64_max in *; lia).
  case_if; range_arith; lia.
Qed.

Lemma Equal_spec rs bs : Equal rs bs = true <-> rs = bs.
Proof.
  unfold Equal. split.
  - destruct (length rs =? length bs)%nat eqn:E; [|done]. breflect. simpl. revert bs E.
    induction rs as [|r rs IH]; intros [|b bs] E; simpl in *; try lia; [done|].
    case_decide; [|done]. intros H1. f_equal; [done|]. apply IH; [lia|done].
  - intros <-. rewrite Nat.eqb_refl. simpl. induction rs as [|r rs IH]; [done|].
    simpl. by rewrite decide_True.
Qed.

End Ranges.
