(* ===== verification/March.v ===== *)
(** * March: traversing source and destination in lock step (fs/march/march.go)

    The march lists a directory on both sides, sorts each listing by a key
    made from the entry's name, and walks the two listings together
    ([matchListings]); every key that occurs gives one callback: [SrcOnly],
    [DstOnly] or [Match].  [processJob] does this for one pair of directories
    and returns the jobs for the subdirectories the callbacks want to visit;
    [Run] lets several workers take jobs from a queue until none is left.

    The channels of a job are the lists of what is sent on them; a [nil] that
    the destination channel carries with --no-traverse is [None].  The calls
    that leave the package are parameters: the name transform (lib/transform),
    Unicode normalisation and lower case, the two listing functions,
    [NewObject] of the destination, and the [Marcher] that receives the
    callbacks and acts on a state of its own.  The moment at which the context
    is cancelled is an argument too ([aborted]). *)
From S2P Require Import Prelude GoPath Entries.

Module March.
Import GoPath Entries.

(** ** Data *)

(** The parameters of [type March struct] that the algorithm reads. *)
Record March := mkMarch {
  Dir : string;
  NoTraverse : bool;
  NoCheckDest : bool;
  NoUnicodeNormalization : bool;
  NoProcessDstOnly : bool;
}.

Record listDirJob := mkJob {
  srcRemote : string;
  dstRemote : string;
  srcDepth : Z;
  dstDepth : Z;
  noSrc : bool;
  noDst : bool;
}.

(** The errors a listing can return; [CtxErr] is [m.Ctx.Err()]. *)
Inductive error :=
| ErrorDirNotFound
| ListError (msg : string)
| CtxErr.

#[export] Instance error_eq_dec : EqDecision error.
Proof. solve_decision. Defined.

(** What [matchListings] calls back, in the order of the calls. *)
Inductive event :=
| ESrcOnly (src : DirEntry)
| EDstOnly (dst : option DirEntry)
| EMatch (dst src : DirEntry).

(** How [matchListings] ends: a return of [nil], of the context's error, one
    of its two panics; [OutOfFuel] is for the model only. *)
Inductive outcome :=
| Returned
| Aborted
| PanicSrc
| PanicDst
| OutOfFuel.

#[export] Instance outcome_eq_dec : EqDecision outcome.
Proof. solve_decision. Defined.

Section keys.
(** [transform.Path], [norm.NFC.String] and [strings.ToLower]. *)
Variable transform_Path : string -> bool -> string.
Variable nfc to_lower : string -> string.

(** [March.init]: the list of name transforms used for the comparison. *)
Definition init (m : March) (dstCaseInsensitive ignoreCaseSync : bool)
  : list (string -> string) :=
  (if negb (NoUnicodeNormalization m) then [nfc] else []) ++
  (if dstCaseInsensitive || ignoreCaseSync then [to_lower] else []).

Variable transforms : list (string -> string).

Definition srcOrDstKey (entry : option DirEntry) (isSrc : bool) : string :=
  match entry with
  | None => ""
  | Some e =>
      let name := path_Base (Remote e) in
      let name := if isSrc then transform_Path name (is_dir e) else name in
      let name := fold_left (fun n t => t n) transforms name in
      name +:+ (if is_dir e then "D" else "F")
  end.

Definition srcKey (entry : option DirEntry) : string := srcOrDstKey entry true.
Definition dstKey (entry : option DirEntry) : string := srcOrDstKey entry false.
End keys.

(** ** [matchListings] *)

(** The local variables of [matchListings]. *)
Record mstate := mkState {
  srcChan : list DirEntry;
  dstChan : list (option DirEntry);
  srcPrev : option DirEntry;
  dstPrev : option DirEntry;
  srcPrevName : string;
  dstPrevName : string;
  src : option DirEntry;
  dst : option DirEntry;
  srcHasMore : bool;
  dstHasMore : bool;
  srcName : string;
  dstName : string;
}.

Definition initial_state (ss : list DirEntry) (ds : list (option DirEntry)) : mstate :=
  mkState ss ds None None "" "" None None true true "" "".

Definition srcDone (st : mstate) : mstate :=
  mkState (srcChan st) (dstChan st) (src st) (dstPrev st) (srcName st) (dstPrevName st)
    None (dst st) (srcHasMore st) (dstHasMore st) "" (dstName st).

Definition dstDone (st : mstate) : mstate :=
  mkState (srcChan st) (dstChan st) (srcPrev st) (dst st) (srcPrevName st) (dstName st)
    (src st) None (srcHasMore st) (dstHasMore st) (srcName st) "".

Section match_listings.
(** The two sort keys, [m.srcKey] and [m.dstKey], on a non-nil entry. *)
Variable skey dkey : DirEntry -> string.

(** [if src == nil { src, srcHasMore = <-srcChan; srcName = m.srcKey(src) }];
    a closed channel yields [nil, false] and the key of [nil] is [""]. *)
Definition reload_src (st : mstate) : mstate :=
  match src st with
  | Some _ => st
  | None =>
      match srcChan st with
      | [] => mkState [] (dstChan st) (srcPrev st) (dstPrev st) (srcPrevName st)
                (dstPrevName st) None (dst st) false (dstHasMore st) "" (dstName st)
      | e :: c => mkState c (dstChan st) (srcPrev st) (dstPrev st) (srcPrevName st)
                (dstPrevName st) (Some e) (dst st) true (dstHasMore st) (skey e) (dstName st)
      end
  end.

Definition reload_dst (st : mstate) : mstate :=
  match dst st with
  | Some _ => st
  | None =>
      match dstChan st with
      | [] => mkState (srcChan st) [] (srcPrev st) (dstPrev st) (srcPrevName st)
                (dstPrevName st) (src st) None (srcHasMore st) false (srcName st) ""
      | e :: c => mkState (srcChan st) c (srcPrev st) (dstPrev st) (srcPrevName st)
                (dstPrevName st) (src st) e (srcHasMore st) true (srcName st)
                (match e with Some d => dkey d | None => "" end)
      end
  end.

(** [src != nil && srcPrev != nil && srcName == srcPrevName &&
    DirEntryType(srcPrev) == DirEntryType(src)] *)
Definition is_dup (cur prev : option DirEntry) (name prevName : string) : bool :=
  match cur, prev with
  | Some c, Some p => str_eqb name prevName && str_eqb (DirEntryType p) (DirEntryType c)
  | _, _ => false
  end.

(** The same guard with [srcName < srcPrevName]: the listing is not sorted. *)
Definition out_of_order (cur prev : option DirEntry) (name prevName : string) : bool :=
  match cur, prev with
  | Some _, Some _ => str_ltb name prevName
  | _, _ => false
  end.

Inductive verdict :=
| Next (st : mstate) (evs : list event)
| Stop (o : outcome) (dstCancelled : bool).

(** One round of the [for] loop after the test for cancellation. *)
Definition match_step (noProcessDstOnly : bool) (st : mstate) : verdict :=
  let st := reload_src st in
  if negb (srcHasMore st) && noProcessDstOnly then Stop Returned true
  else
    let st := reload_dst st in
    if negb (srcHasMore st) && negb (dstHasMore st) then Stop Returned false
    else if is_dup (src st) (srcPrev st) (srcName st) (srcPrevName st) then Next (srcDone st) []
    else if out_of_order (src st) (srcPrev st) (srcName st) (srcPrevName st) then Stop PanicSrc false
    else if is_dup (dst st) (dstPrev st) (dstName st) (dstPrevName st) then Next (dstDone st) []
    else if out_of_order (dst st) (dstPrev st) (dstName st) (dstPrevName st) then Stop PanicDst false
    else
      match src st, dst st with
      | Some s, Some d =>
          if str_ltb (dstName st) (srcName st) ||
             (str_eqb (srcName st) (dstName st) && str_ltb (DirEntryType d) (DirEntryType s))
          then Next (dstDone st) [EDstOnly (Some d)]
          else if str_ltb (srcName st) (dstName st) ||
             (str_eqb (srcName st) (dstName st) && str_ltb (DirEntryType s) (DirEntryType d))
          then Next (srcDone st) [ESrcOnly s]
          else Next (srcDone (dstDone st)) [EMatch d s]
      | None, d => Next (dstDone st) [EDstOnly d]
      | Some s, None => Next (srcDone st) [ESrcOnly s]
      end.

(** The [for] loop; [aborted n] tells whether the context is cancelled at
    round [n]. *)
Fixpoint match_loop (fuel : nat) (aborted : nat -> bool) (noProcessDstOnly : bool)
    (n : nat) (st : mstate) : list event * outcome * bool :=
  match fuel with
  | O => ([], OutOfFuel, false)
  | S fuel' =>
      if aborted n then ([], Aborted, false)
      else
        match match_step noProcessDstOnly st with
        | Stop o cancelled => ([], o, cancelled)
        | Next st' evs =>
            let '(evs', o, cancelled) := match_loop fuel' aborted noProcessDstOnly (S n) st' in
            (evs ++ evs', o, cancelled)
        end
  end.

(** Each round takes at least one entry out of the channels or drops one that
    was read before, so this fuel is enough ([match_loop_fuel]). *)
Definition matchListings (aborted : nat -> bool) (noProcessDstOnly : bool)
    (ss : list DirEntry) (ds : list (option DirEntry)) : list event * outcome * bool :=
  match_loop (length ss + length ds + 1) aborted noProcessDstOnly 0 (initial_state ss ds).

End match_listings.

(** ** [processJob] *)

(** [interface Marcher]: each callback acts on the marcher's state and says
    whether to recurse into the entry. *)
Record Marcher (S : Type) := mkMarcher {
  SrcOnly : DirEntry -> S -> S * bool;
  DstOnly : option DirEntry -> S -> S * bool;
  Match : DirEntry -> DirEntry -> S -> S * bool;
}.
Arguments SrcOnly {S}.
Arguments DstOnly {S}.
Arguments Match {S}.

Section process_job.
Context {S : Type} (cb : Marcher S) (m : March).
Variable skey dkey : DirEntry -> string.
(** [m.srcListDir], [m.dstListDir]: what was passed to the callback, and the
    error returned.  [m.Fdst.NewObject]: the object found. *)
Variable srcListDir dstListDir : string -> list DirEntry * option error.
Variable NewObject : string -> option Object.

(** The lookups in place of a destination listing with --no-traverse. *)
Definition no_traverse_dst (job : listDirJob) (s : DirEntry) : option DirEntry :=
  match s with
  | EObject o =>
      match NewObject (path_Join [dstRemote job; path_Base (oRemote o)]) with
      | Some d => Some (EObject d)
      | None => None
      end
  | EDir _ => None
  end.

(** The callbacks that [processJob] passes to [matchListings], run in order
    on the events; they collect the jobs for the directories to visit. *)
Definition run_event (job : listDirJob) (ev : event) (acc : S * list listDirJob)
  : S * list listDirJob :=
  let '(s, jobs) := acc in
  match ev with
  | ESrcOnly src =>
      let '(s, recurse) := SrcOnly cb src s in
      (s, if recurse && (0 <? srcDepth job)
          then jobs ++ [mkJob (Remote src) (Remote src) (srcDepth job - 1) 0 false true]
          else jobs)
  | EDstOnly dst =>
      let '(s, recurse) := DstOnly cb dst s in
      (s, match dst with
          | Some d =>
              if recurse && (0 <? dstDepth job)
              then jobs ++ [mkJob (Remote d) (Remote d) 0 (dstDepth job - 1) true false]
              else jobs
          | None => jobs
          end)
  | EMatch dst src =>
      let '(s, recurse) := Match cb dst src s in
      (s, if recurse && (0 <? srcDepth job) && (0 <? dstDepth job)
          then jobs ++ [mkJob (Remote src) (Remote dst) (srcDepth job - 1) (dstDepth job - 1)
                          false false]
          else jobs)
  end.

Definition run_events (job : listDirJob) (evs : list event) (s : S) : S * list listDirJob :=
  fold_left (fun acc ev => run_event job ev acc) evs (s, []).

(** The two listings of a job: what is sent on the channels, and the errors. *)
Definition job_listings (job : listDirJob)
  : (list DirEntry * option error) * (list (option DirEntry) * option error) :=
  let '(ss, srcListErr) := if noSrc job then ([], None) else srcListDir (srcRemote job) in
  let '(ds, dstListErr) :=
    if negb (NoTraverse m) && negb (noDst job) then
      let '(es, err) := dstListDir (dstRemote job) in (Some <$> es, err)
    else if NoTraverse m && negb (NoCheckDest m) then (no_traverse_dst job <$> ss, None)
    else ([], None) in
  ((ss, srcListErr), (ds, dstListErr)).

(** [processJob].  [cancelSeen] tells whether the destination listing was
    still running when [matchListings] cancelled it ([dstListCancelled]).  The
    panics of [matchListings] are its own outcomes. *)
Definition processJob (aborted : nat -> bool) (cancelSeen : bool) (job : listDirJob) (s : S)
  : S * outcome * (list listDirJob * option error) :=
  let '((ss, srcListErr), (ds, dstListErr)) := job_listings job in
  let '(evs, o, cancelled) := matchListings skey dkey aborted (NoProcessDstOnly m) ss ds in
  let '(s, jobs) := run_events job evs s in
  match o with
  | Returned =>
      match srcListErr with
      | Some err => (s, o, ([], Some err))
      | None =>
          if cancelled && cancelSeen then (s, o, (jobs, None))
          else match dstListErr with
               | None | Some ErrorDirNotFound => (s, o, (jobs, None))
               | Some err => (s, o, ([], Some err))
               end
      end
  | _ => (s, o, ([], Some CtxErr))
  end.

End process_job.

(** ** Termination of [matchListings] *)

Definition measure (st : mstate) : nat :=
  length (srcChan st) + length (dstChan st) +
  length (option_list (src st)) + length (option_list (dst st)).

Lemma match_step_decreases skey dkey np st st' evs :
  match_step skey dkey np st = Next st' evs -> (measure st' < measure st)%nat.
Proof.
  destruct st as [sc dc sp dp spn dpn s d sm dm sn dn]. unfold match_step, measure.
  destruct s as [s|], d as [d|]; [| |destruct sc as [|s sc]|destruct sc as [|s sc]];
    unfold reload_src; simpl.
  all: repeat match goal with
  | |- context [reload_dst _ (mkState _ ?c _ _ _ _ _ None _ _ _ _)] =>
      destruct c as [|[d'|] c]; unfold reload_dst; simpl
  end.
  all: repeat case_if; intros; simplify_eq; simpl; lia.
Qed.

Lemma match_loop_fuel skey dkey aborted np n st fuel :
  (measure st < fuel)%nat ->
  snd (fst (match_loop skey dkey fuel aborted np n st)) <> OutOfFuel.
Proof.
  revert n st. induction fuel as [|fuel IH]; intros n st Hm; [lia|]. cbn [match_loop].
  destruct (aborted n); [done|].
  destruct (match_step skey dkey np st) as [st' evs|o c] eqn:E.
  - pose proof (match_step_decreases _ _ _ _ _ _ E).
    specialize (IH (Datatypes.S n) st' ltac:(lia)).
    by destruct (match_loop skey dkey fuel aborted np (Datatypes.S n) st') as [[evs' o'] c'].
  - simpl. unfold match_step in E. repeat case_if_in E; try congruence.
    by destruct (src _), (dst _); repeat case_if_in E; simplify_eq.
Qed.

(** ** What [matchListings] reports *)

Section match_spec.
Variable skey dkey : DirEntry -> string.
(** The key of an entry ends with its type, so it determines the type. *)
Hypothesis key_ss : forall a b, skey a = skey b -> is_dir a = is_dir b.
Hypothesis key_sd : forall a b, skey a = dkey b -> is_dir a = is_dir b.
Hypothesis key_dd : forall a b, dkey a = dkey b -> is_dir a = is_dir b.

Definition ekey (ev : event) : string :=
  match ev with
  | ESrcOnly s => skey s
  | EDstOnly (Some d) => dkey d
  | EDstOnly None => ""
  | EMatch _ s => skey s
  end.

(** The callback due for a key that has [s] as its first entry in the source
    listing and [d] as its first entry in the destination listing. *)
Definition classify (s d : option DirEntry) : option event :=
  match s, d with
  | Some s, Some d => Some (EMatch d s)
  | Some s, None => Some (ESrcOnly s)
  | None, Some d => Some (EDstOnly (Some d))
  | None, None => None
  end.

Definition first_with (key : DirEntry -> string) (k : string) (l : list DirEntry) : option DirEntry :=
  List.find (fun e => str_eqb (key e) k) l.

Definition event_for (k : string) (evs : list event) : option event :=
  List.find (fun ev => str_eqb (ekey ev) k) evs.

Definition sorted_by (key : DirEntry -> string) (l : list DirEntry) : Prop :=
  StronglySorted (fun a b => str_ltb (key b) (key a) = false) l.

(** Keys not yet reported, when [sp] and [dp] are the last entries used. *)
Definition key_after (key : DirEntry -> string) (p : option DirEntry) (k : string) : Prop :=
  match p with Some e => str_lt (key e) k | None => True end.

Definition unreported (sp dp : option DirEntry) (k : string) : Prop :=
  key_after skey sp k /\ key_after dkey dp k.

(** The entries left on one side: repeats of the last one used, then keys
    that are not reported. *)
Definition pending (key : DirEntry -> string) (p sp dp : option DirEntry) (l : list DirEntry) : Prop :=
  sorted_by key l /\
  Forall (fun e => (exists q, p = Some q /\ key q = key e) \/ unreported sp dp (key e)) l.

(** The state of the loop when [ss] and [ds] are the entries not yet used. *)
Definition loaded (st : mstate) (sp dp : option DirEntry) (ss ds : list DirEntry) : Prop :=
  srcPrev st = sp /\ dstPrev st = dp /\
  (forall p, sp = Some p -> srcPrevName st = skey p) /\
  (forall p, dp = Some p -> dstPrevName st = dkey p) /\
  ((src st = None /\ srcChan st = ss) \/
   (exists s ss', ss = s :: ss' /\ src st = Some s /\ srcChan st = ss' /\
                  srcName st = skey s /\ srcHasMore st = true)) /\
  ((dst st = None /\ dstChan st = Some <$> ds) \/
   (exists d ds', ds = d :: ds' /\ dst st = Some d /\ dstChan st = Some <$> ds' /\
                  dstName st = dkey d /\ dstHasMore st = true)).

Lemma reload_loaded st sp dp ss ds :
  loaded st sp dp ss ds ->
  exists spn dpn,
    reload_dst dkey (reload_src skey st) =
      mkState (tail ss) (Some <$> tail ds) sp dp spn dpn (head ss) (head ds)
        (negb (bool_decide (ss = []))) (negb (bool_decide (ds = [])))
        (match ss with [] => "" | s :: _ => skey s end)
        (match ds with [] => "" | d :: _ => dkey d end) /\
    srcHasMore (reload_src skey st) = negb (bool_decide (ss = [])) /\
    (forall p, sp = Some p -> spn = skey p) /\ (forall p, dp = Some p -> dpn = dkey p).
Proof.
  destruct st as [sc dc sp' dp' spn dpn s d sm dm sn dn]. unfold loaded. simpl.
  intros (-> & -> & Hspn & Hdpn & Hs & Hd). exists spn, dpn.
  destruct Hs as [[-> ->]|(s0 & ss' & -> & -> & -> & -> & ->)];
    destruct Hd as [[-> ->]|(d0 & ds' & -> & -> & -> & -> & ->)];
    try destruct ss; try destruct ds; done.
Qed.

Lemma loaded_initial ss ds : loaded (initial_state ss (Some <$> ds)) None None ss ds.
Proof. unfold loaded. simpl. split_and!; [done..|by left|by left]. Qed.

Lemma find_none {A} (f : A -> bool) l : Forall (fun x => f x = false) l -> List.find f l = None.
Proof. induction 1 as [|x l Hx _ IH]; simpl; [done|]. by rewrite Hx. Qed.

Lemma first_with_none key k l :
  Forall (fun e => str_lt k (key e)) l -> first_with key k l = None.
Proof.
  intros H. apply find_none. eapply Forall_impl; [exact H|]. intros e He.
  apply str_eqb_neq. intros Heq. simpl in He. rewrite Heq in He.
  by destruct (irreflexivity str_lt k).
Qed.

Lemma first_with_head key e l : first_with key (key e) (e :: l) = Some e.
Proof. unfold first_with. simpl. by rewrite (proj2 (str_eqb_eq _ _)). Qed.

Lemma first_with_skip key k e l : key e <> k -> first_with key k (e :: l) = first_with key k l.
Proof. intros H. unfold first_with. simpl. by rewrite (proj2 (str_eqb_neq _ _)). Qed.

Lemma event_for_none k evs :
  Forall (fun ev => str_lt k (ekey ev)) evs -> event_for k evs = None.
Proof.
  intros H. apply find_none. eapply Forall_impl; [exact H|]. intros e He.
  apply str_eqb_neq. intros Heq. simpl in He. rewrite Heq in He.
  by destruct (irreflexivity str_lt k).
Qed.

Lemma sorted_by_head key e l k :
  sorted_by key (e :: l) -> str_lt k (key e) -> Forall (fun x => str_lt k (key x)) (e :: l).
Proof.
  intros Hs Hk. apply StronglySorted_inv in Hs as [_ Hall]. constructor; [done|].
  eapply Forall_impl; [exact Hall|]. intros x Hx. simpl in Hx.
  apply str_ltb_false in Hx as [->|Hx]; [done|]. by trans (key e).
Qed.

Lemma key_after_up key p k k' : key_after key p k -> str_lt k k' -> key_after key p k'.
Proof. destruct p as [e|]; simpl; [|done]. intros H1 H2. by trans k. Qed.

Lemma unreported_up sp dp k k' : unreported sp dp k -> str_lt k k' -> unreported sp dp k'.
Proof. intros [H1 H2] H. split; by eapply key_after_up. Qed.

(** Once the head of a side is used, what is left repeats its key or comes
    after it. *)
Lemma sorted_after key e l :
  sorted_by key (e :: l) -> Forall (fun x => key e = key x \/ str_lt (key e) (key x)) l.
Proof.
  intros Hs. apply StronglySorted_inv in Hs as [_ Hall].
  eapply Forall_impl; [exact Hall|]. intros x Hx. simpl in Hx.
  apply str_ltb_false in Hx as [Hx|Hx]; auto.
Qed.

Lemma pending_tail key p sp dp e l :
  pending key p sp dp (e :: l) -> pending key p sp dp l.
Proof.
  intros [Hs Hall]. apply Forall_cons in Hall as [_ Hall].
  split; [by apply StronglySorted_inv in Hs as [? _]|done].
Qed.

(** The head of a side was used: the sides for the new last entries. *)
Lemma pending_used key p sp dp sp' dp' e l :
  pending key p sp dp (e :: l) ->
  (forall k, str_lt (key e) k -> unreported sp' dp' k) ->
  pending key (Some e) sp' dp' l.
Proof.
  intros [Hs _] Hup. split; [by apply StronglySorted_inv in Hs as [? _]|].
  eapply Forall_impl; [exact (sorted_after _ _ _ Hs)|]. intros x [Heq|Hlt]; eauto.
Qed.

(** The other side was used at a key before all the keys of this side. *)
Lemma pending_other key p sp dp sp' dp' k0 l :
  pending key p sp dp l -> Forall (fun x => str_lt k0 (key x)) l ->
  (forall k, str_lt k0 k -> unreported sp' dp' k) -> pending key p sp' dp' l.
Proof.
  intros [Hs _] Hlt Hup. split; [done|]. eapply Forall_impl; [exact Hlt|]. eauto.
Qed.

(** Adding one callback in front of the callbacks for the later keys. *)
Lemma report sp dp sp' dp' ss ds ss' ds' ev evs :
  unreported sp dp (ekey ev) ->
  (forall k, unreported sp' dp' k <-> unreported sp dp k /\ str_lt (ekey ev) k) ->
  classify (first_with skey (ekey ev) ss) (first_with dkey (ekey ev) ds) = Some ev ->
  (forall k, str_lt k (ekey ev) -> first_with skey k ss = None /\ first_with dkey k ds = None) ->
  (forall k, str_lt (ekey ev) k ->
     first_with skey k ss = first_with skey k ss' /\
     first_with dkey k ds = first_with dkey k ds') ->
  StronglySorted str_lt (ekey <$> evs) -> Forall (unreported sp' dp') (ekey <$> evs) ->
  (forall k, unreported sp' dp' k ->
     event_for k evs = classify (first_with skey k ss') (first_with dkey k ds')) ->
  StronglySorted str_lt (ekey <$> ev :: evs) /\ Forall (unreported sp dp) (ekey <$> ev :: evs) /\
  (forall k, unreported sp dp k ->
     event_for k (ev :: evs) = classify (first_with skey k ss) (first_with dkey k ds)).
Proof.
  intros Hev Hiff Hk0 Hlow Hhigh Hsort Hall Hfor.
  assert (Hgt : Forall (str_lt (ekey ev)) (ekey <$> evs)).
  { eapply Forall_impl; [exact Hall|]. intros k Hk. by apply Hiff in Hk as [_ ?]. }
  split_and!.
  - rewrite fmap_cons. by constructor.
  - rewrite fmap_cons. constructor; [done|]. eapply Forall_impl; [exact Hall|].
    intros k Hk. by apply Hiff in Hk as [? _].
  - intros k Hk. destruct (str_lt_trich k (ekey ev)) as [Hlt|[->|Hgtk]].
    + destruct (Hlow k Hlt) as [-> ->]. cbn [classify]. apply event_for_none.
      constructor; [done|]. rewrite Forall_fmap in Hgt. eapply Forall_impl; [exact Hgt|].
      intros x Hx. simpl in Hx. by trans (ekey ev).
    + unfold event_for. simpl. by rewrite (proj2 (str_eqb_eq _ _)).
    + destruct (Hhigh k Hgtk) as [-> ->]. unfold event_for. simpl.
      rewrite (proj2 (str_eqb_neq _ _)); [apply Hfor, Hiff; done|].
      intros Heq. rewrite Heq in Hgtk. by destruct (irreflexivity str_lt k).
Qed.

(** The head of a side repeats the last entry used, or its key is new. *)
Lemma pending_head key p sp dp e l :
  pending key p sp dp (e :: l) ->
  (exists q, p = Some q /\ key q = key e) \/ unreported sp dp (key e).
Proof. intros [_ Hall]. by apply Forall_cons in Hall as [? _]. Qed.

Lemma is_dup_iff (key : DirEntry -> string) e p name prevName :
  (forall a b, key a = key b -> is_dir a = is_dir b) ->
  (forall q, p = Some q -> prevName = key q) -> name = key e ->
  is_dup (Some e) p name prevName = true <-> exists q, p = Some q /\ key q = key e.
Proof.
  intros Hkey Hp ->. unfold is_dup. destruct p as [q|]; [|naive_solver].
  rewrite (Hp q eq_refl), andb_true_iff, str_eqb_eq. split.
  - intros [Heq _]. eauto.
  - intros (q' & [= <-] & Heq). split; [done|].
    specialize (Hkey _ _ Heq). apply str_eqb_eq. by destruct q, e.
Qed.

Lemma not_out_of_order (key : DirEntry -> string) e p name prevName :
  (forall q, p = Some q -> prevName = key q) -> name = key e ->
  key_after key p (key e) -> out_of_order (Some e) p name prevName = false.
Proof.
  intros Hp ->. unfold out_of_order. destruct p as [q|]; [|done]. simpl.
  rewrite (Hp q eq_refl). intros Hlt. apply str_ltb_false. by right.
Qed.

(** The rounds of the loop on what is left of the two listings. *)
Inductive round (sp dp : option DirEntry) :
  list DirEntry -> list DirEntry ->
  option DirEntry -> option DirEntry -> list DirEntry -> list DirEntry -> list event -> Prop :=
| round_dup_src q s ss ds :
    sp = Some q -> skey q = skey s -> round sp dp (s :: ss) ds (Some s) dp ss ds []
| round_dup_dst q d ss ds :
    dp = Some q -> dkey q = dkey d -> round sp dp ss (d :: ds) sp (Some d) ss ds []
| round_dst d ss ds :
    unreported sp dp (dkey d) -> Forall (fun s => str_lt (dkey d) (skey s)) ss ->
    round sp dp ss (d :: ds) sp (Some d) ss ds [EDstOnly (Some d)]
| round_src s ss ds :
    unreported sp dp (skey s) -> Forall (fun d => str_lt (skey s) (dkey d)) ds ->
    round sp dp (s :: ss) ds (Some s) dp ss ds [ESrcOnly s]
| round_match s d ss ds :
    unreported sp dp (skey s) -> skey s = dkey d ->
    round sp dp (s :: ss) (d :: ds) (Some s) (Some d) ss ds [EMatch d s].

Lemma loaded_next sp dp spn dpn ss ds st' :
  srcPrev st' = sp -> dstPrev st' = dp ->
  srcPrevName st' = spn -> dstPrevName st' = dpn ->
  (forall p, sp = Some p -> spn = skey p) -> (forall p, dp = Some p -> dpn = dkey p) ->
  ((src st' = None /\ srcChan st' = ss) \/
   (src st' = head ss /\ srcChan st' = tail ss /\ ss <> [] /\
    srcName st' = (match ss with [] => "" | s :: _ => skey s end) /\ srcHasMore st' = true)) ->
  ((dst st' = None /\ dstChan st' = Some <$> ds) \/
   (dst st' = head ds /\ dstChan st' = Some <$> tail ds /\ ds <> [] /\
    dstName st' = (match ds with [] => "" | d :: _ => dkey d end) /\ dstHasMore st' = true)) ->
  loaded st' sp dp ss ds.
Proof.
  intros <- <- <- <- Hs Hd Hss Hds. unfold loaded. split_and!; [done..| |].
  - destruct Hss as [?|(H1 & H2 & H3 & H4 & H5)]; [by left|right].
    destruct ss as [|s ss]; [done|]. by exists s, ss.
  - destruct Hds as [?|(H1 & H2 & H3 & H4 & H5)]; [by left|right].
    destruct ds as [|d ds]; [done|]. by exists d, ds.
Qed.

Ltac next_state :=
  eapply loaded_next; [reflexivity..| | | |]; simpl;
  first [assumption | by intros ? [= <-] | by left | by right].

Lemma round_of_heads sp dp spn dpn ss ds :
  (forall p, sp = Some p -> spn = skey p) -> (forall p, dp = Some p -> dpn = dkey p) ->
  pending skey sp sp dp ss -> pending dkey dp sp dp ds -> (ss <> [] \/ ds <> []) ->
  (forall s ss', ss = s :: ss' -> unreported sp dp (skey s)) ->
  (forall d ds', ds = d :: ds' -> unreported sp dp (dkey d)) ->
  let st := mkState (tail ss) (Some <$> tail ds) sp dp spn dpn (head ss) (head ds)
        (negb (bool_decide (ss = []))) (negb (bool_decide (ds = [])))
        (match ss with [] => "" | s :: _ => skey s end)
        (match ds with [] => "" | d :: _ => dkey d end) in
  forall v, v = match src st, dst st with
      | Some s, Some d =>
          if str_ltb (dstName st) (srcName st) ||
             (str_eqb (srcName st) (dstName st) && str_ltb (DirEntryType d) (DirEntryType s))
          then Next (dstDone st) [EDstOnly (Some d)]
          else if str_ltb (srcName st) (dstName st) ||
             (str_eqb (srcName st) (dstName st) && str_ltb (DirEntryType s) (DirEntryType d))
          then Next (srcDone st) [ESrcOnly s]
          else Next (srcDone (dstDone st)) [EMatch d s]
      | None, d => Next (dstDone st) [EDstOnly d]
      | Some s, None => Next (srcDone st) [ESrcOnly s]
      end ->
  exists st' evs sp' dp' ss' ds', v = Next st' evs /\
    round sp dp ss ds sp' dp' ss' ds' evs /\ loaded st' sp' dp' ss' ds'.
Proof.
  intros Hsp Hdp Hps Hpd Hne Hus Hud st v ->. subst st. simpl.
  destruct ss as [|s ss], ds as [|d ds]; simpl; [by destruct Hne| | |].
  - do 6 eexists. split; [done|]. split; [apply round_dst; [by eapply Hud|constructor]|next_state].
  - do 6 eexists. split; [done|]. split; [apply round_src; [by eapply Hus|constructor]|next_state].
  - assert (Htype : skey s = dkey d -> DirEntryType s = DirEntryType d).
    { intros Heq. apply key_sd in Heq. by destruct s, d. }
    assert (Hno : forall a b : string, a = b -> str_ltb a b = false).
    { intros a b ->. apply str_ltb_false. by left. }
    destruct (str_lt_trich (skey s) (dkey d)) as [Hlt|[Heq|Hgt]].
    + rewrite (proj2 (str_ltb_false (dkey d) (skey s))) by auto.
      rewrite (proj2 (str_eqb_neq (skey s) (dkey d))), Hlt by
        (intros Heq; rewrite Heq in Hlt; by destruct (irreflexivity str_lt (dkey d))).
      simpl. do 6 eexists. split; [done|].
      split; [apply round_src; [by eapply Hus|]|next_state].
      by apply sorted_by_head; [apply Hpd|].
    + rewrite (Hno (dkey d) (skey s)), (Hno (skey s) (dkey d)) by done.
      rewrite (Hno (DirEntryType d) (DirEntryType s)), (Hno (DirEntryType s) (DirEntryType d))
        by (first [by apply Htype | by symmetry; apply Htype]). rewrite andb_false_r. simpl.
      do 6 eexists. split; [done|].
      split; [apply round_match; [by eapply Hus|done]|next_state].
    + rewrite Hgt. simpl. do 6 eexists. split; [done|].
      split; [apply round_dst; [by eapply Hud|]|next_state].
      by apply sorted_by_head; [apply Hps|].
Qed.

(** A side whose head is new passes the tests for repeats and for order. *)
Lemma side_clear key l p pn :
  (forall a b, key a = key b -> is_dir a = is_dir b) ->
  (forall q, p = Some q -> pn = key q) ->
  (forall e l', l = e :: l' -> key_after key p (key e)) ->
  is_dup (head l) p (match l with [] => "" | e :: _ => key e end) pn = false /\
  out_of_order (head l) p (match l with [] => "" | e :: _ => key e end) pn = false.
Proof.
  intros Hkey Hp Hnew. destruct l as [|e l]; [done|].
  specialize (Hnew e l eq_refl). simpl. split.
  - apply not_true_iff_false. rewrite (is_dup_iff key e p _ pn Hkey Hp eq_refl).
    intros (q & -> & Hq). simpl in Hnew. rewrite Hq in Hnew.
    by destruct (irreflexivity str_lt (key e)).
  - by apply (not_out_of_order key e).
Qed.

(** Either the head of a side repeats the last entry used, or it is new. *)
Lemma side_cases key l p sp dp :
  pending key p sp dp l ->
  (exists e l' q, l = e :: l' /\ p = Some q /\ key q = key e) \/
  (forall e l', l = e :: l' -> unreported sp dp (key e)).
Proof.
  intros Hpen. destruct l as [|e l]; [by right|].
  destruct (pending_head _ _ _ _ _ _ Hpen) as [(q & Hq & Hkq)|Hu]; [left|right].
  - by exists e, l, q.
  - by intros ?? [= <- <-].
Qed.

Lemma match_step_round st sp dp ss ds :
  loaded st sp dp ss ds -> pending skey sp sp dp ss -> pending dkey dp sp dp ds ->
  (match_step skey dkey false st = Stop Returned false /\ ss = [] /\ ds = []) \/
  (exists st' evs sp' dp' ss' ds', match_step skey dkey false st = Next st' evs /\
     round sp dp ss ds sp' dp' ss' ds' evs /\ loaded st' sp' dp' ss' ds').
Proof.
  intros Hl Hps Hpd.
  destruct (reload_loaded st sp dp ss ds Hl) as (spn & dpn & Hre & Hmore & Hsp & Hdp).
  unfold match_step. rewrite Hmore, Hre, andb_false_r.
  cbn [srcHasMore dstHasMore src dst srcPrev dstPrev srcName dstName srcPrevName dstPrevName].
  rewrite !negb_involutive.
  destruct (decide (ss = [] /\ ds = [])) as [[-> ->]|Hne]; [by left|right].
  assert ((bool_decide (ss = []) && bool_decide (ds = [])) = false) as ->.
  { apply not_true_iff_false. rewrite andb_true_iff, !bool_decide_eq_true. done. }
  destruct (side_cases _ _ _ _ _ Hps) as [(s & ss' & q & -> & Hq & Hk)|Hus].
  { cbn [head]. rewrite (proj2 (is_dup_iff skey s sp _ spn key_ss Hsp eq_refl)) by eauto.
    do 6 eexists. split; [done|]. split; [by eapply round_dup_src|destruct ds; next_state]. }
  destruct (side_clear skey ss sp spn key_ss Hsp) as [-> ->].
  { intros e l' He. by apply (Hus e l'). }
  destruct (side_cases _ _ _ _ _ Hpd) as [(d & ds' & q & -> & Hq & Hk)|Hud].
  { cbn [head]. rewrite (proj2 (is_dup_iff dkey d dp _ dpn key_dd Hdp eq_refl)) by eauto.
    do 6 eexists. split; [done|].
    split; [by eapply round_dup_dst|destruct ss; next_state]. }
  destruct (side_clear dkey ds dp dpn key_dd Hdp) as [-> ->].
  { intros e l' He. by apply (Hud e l'). }
  eapply (round_of_heads sp dp spn dpn ss ds Hsp Hdp Hps Hpd); [|done|done|reflexivity].
  destruct (decide (ss = [])); [right|by left]. intros ->. by apply Hne.
Qed.

Lemma round_pending sp dp ss ds sp' dp' ss' ds' evs :
  round sp dp ss ds sp' dp' ss' ds' evs ->
  pending skey sp sp dp ss -> pending dkey dp sp dp ds ->
  pending skey sp' sp' dp' ss' /\ pending dkey dp' sp' dp' ds'.
Proof.
  intros Hr Hps Hpd. destruct Hr as [q s ss ds -> Hq|q d ss ds -> Hq|d ss ds Hu Hlt
    |s ss ds Hu Hlt|s d ss ds Hu Heq].
  - apply pending_tail in Hps. split; (split; [by apply Hps || by apply Hpd|]).
    + destruct Hps as [_ Hall]. eapply Forall_impl; [exact Hall|].
      intros e [(q' & [= <-] & Hk)|[H1 H2]]; [left; exists s; split; congruence|right].
      split; [|done]. simpl in *. by rewrite <- Hq.
    + destruct Hpd as [_ Hall]. eapply Forall_impl; [exact Hall|].
      intros e [?|[H1 H2]]; [by left|right]. split; [|done]. simpl in *. by rewrite <- Hq.
  - apply pending_tail in Hpd. split; (split; [by apply Hps || by apply Hpd|]).
    + destruct Hps as [_ Hall]. eapply Forall_impl; [exact Hall|].
      intros e [?|[H1 H2]]; [by left|right]. split; [done|]. simpl in *. by rewrite <- Hq.
    + destruct Hpd as [_ Hall]. eapply Forall_impl; [exact Hall|].
      intros e [(q' & [= <-] & Hk)|[H1 H2]]; [left; exists d; split; congruence|right].
      split; [done|]. simpl in *. by rewrite <- Hq.
  - assert (Hup : forall k, str_lt (dkey d) k -> unreported sp (Some d) k).
    { intros k Hk. split; [|done]. by apply (key_after_up _ _ (dkey d)); [apply Hu|]. }
    split; [by eapply pending_other|by eapply pending_used].
  - assert (Hup : forall k, str_lt (skey s) k -> unreported (Some s) dp k).
    { intros k Hk. split; [done|]. by apply (key_after_up _ _ (skey s)); [apply Hu|]. }
    split; [by eapply pending_used|by eapply pending_other].
  - assert (Hup : forall k, str_lt (skey s) k -> unreported (Some s) (Some d) k).
    { intros k Hk. split; simpl; [done|by rewrite <- Heq]. }
    split; eapply pending_used; [exact Hps|done|exact Hpd|by rewrite <- Heq].
Qed.

(** The callbacks of one round, put before the callbacks of the later ones. *)
Lemma round_report sp dp ss ds sp' dp' ss' ds' evs evs' :
  round sp dp ss ds sp' dp' ss' ds' evs ->
  pending skey sp sp dp ss -> pending dkey dp sp dp ds ->
  StronglySorted str_lt (ekey <$> evs') -> Forall (unreported sp' dp') (ekey <$> evs') ->
  (forall k, unreported sp' dp' k ->
     event_for k evs' = classify (first_with skey k ss') (first_with dkey k ds')) ->
  StronglySorted str_lt (ekey <$> evs ++ evs') /\
  Forall (unreported sp dp) (ekey <$> evs ++ evs') /\
  (forall k, unreported sp dp k ->
     event_for k (evs ++ evs') = classify (first_with skey k ss) (first_with dkey k ds)).
Proof.
  intros Hr Hps Hpd Hsort Hall Hfor.
  assert (Hne : forall a b, str_lt a b -> a <> b).
  { intros a b Hab ->. by destruct (irreflexivity str_lt b). }
  destruct Hr as [q s ss ds -> Hq|q d ss ds -> Hq|d ss ds Hu Hlt|s ss ds Hu Hlt|s d ss ds Hu Heq];
    cbn [app].
  - assert (Hiff : forall k, unreported (Some s) dp k <-> unreported (Some q) dp k).
    { intros k. unfold unreported. simpl. by rewrite Hq. }
    split_and!; [done|eapply Forall_impl; [exact Hall|]; intros k; apply Hiff|].
    intros k Hk. rewrite first_with_skip by (rewrite <- Hq; apply Hne, Hk).
    by apply Hfor, Hiff.
  - assert (Hiff : forall k, unreported sp (Some d) k <-> unreported sp (Some q) k).
    { intros k. unfold unreported. simpl. by rewrite Hq. }
    split_and!; [done|eapply Forall_impl; [exact Hall|]; intros k; apply Hiff|].
    intros k Hk. rewrite (first_with_skip dkey) by (rewrite <- Hq; apply Hne, Hk).
    by apply Hfor, Hiff.
  - apply (report sp dp sp (Some d) ss (d :: ds) ss ds); cbn [ekey]; try done.
    + intros k. split; [intros [H1 H2]; split; [by eapply unreported_up|done]|].
      intros [[H1 H2] H3]. by split.
    + rewrite (first_with_none skey _ ss) by done. by rewrite first_with_head.
    + intros k Hk. split; apply first_with_none.
      * eapply Forall_impl; [exact Hlt|]. intros x Hx. by trans (dkey d).
      * by apply sorted_by_head; [apply Hpd|].
    + intros k Hk. by rewrite (first_with_skip dkey) by (by apply Hne).
  - apply (report sp dp (Some s) dp (s :: ss) ds ss ds); cbn [ekey]; try done.
    + intros k. split; [intros [H1 H2]; split; [by eapply unreported_up|done]|].
      intros [[H1 H2] H3]. by split.
    + rewrite (first_with_none dkey _ ds) by done. by rewrite first_with_head.
    + intros k Hk. split; apply first_with_none.
      * by apply sorted_by_head; [apply Hps|].
      * eapply Forall_impl; [exact Hlt|]. intros x Hx. by trans (skey s).
    + intros k Hk. by rewrite (first_with_skip skey) by (by apply Hne).
  - apply (report sp dp (Some s) (Some d) (s :: ss) (d :: ds) ss ds); cbn [ekey]; try done.
    + intros k. unfold unreported at 1. simpl. rewrite <- Heq.
      split; [intros [H1 H2]; split; [by eapply unreported_up|done]|]. by intros [_ H3].
    + rewrite first_with_head, Heq, first_with_head. done.
    + intros k Hk. split; apply first_with_none; apply sorted_by_head;
        [apply Hps|done|apply Hpd|by rewrite <- Heq].
    + intros k Hk. by rewrite (first_with_skip skey), (first_with_skip dkey)
        by (rewrite <- ?Heq; by apply Hne).
Qed.

Lemma match_loop_spec fuel n st sp dp ss ds :
  loaded st sp dp ss ds -> pending skey sp sp dp ss -> pending dkey dp sp dp ds ->
  (measure st < fuel)%nat ->
  exists evs, match_loop skey dkey fuel (fun _ => false) false n st = (evs, Returned, false) /\
    StronglySorted str_lt (ekey <$> evs) /\ Forall (unreported sp dp) (ekey <$> evs) /\
    (forall k, unreported sp dp k ->
       event_for k evs = classify (first_with skey k ss) (first_with dkey k ds)).
Proof.
  revert n st sp dp ss ds. induction fuel as [|fuel IH]; intros n st sp dp ss ds Hl Hps Hpd Hf;
    [lia|]. cbn [match_loop].
  destruct (match_step_round st sp dp ss ds Hl Hps Hpd)
    as [(-> & -> & ->)|(st' & evs & sp' & dp' & ss' & ds' & Hstep & Hr & Hl')].
  { exists []. split_and!; [done|constructor|constructor|done]. }
  rewrite Hstep. apply match_step_decreases in Hstep.
  destruct (round_pending _ _ _ _ _ _ _ _ _ Hr Hps Hpd) as [Hps' Hpd'].
  destruct (IH (Datatypes.S n) st' sp' dp' ss' ds' Hl' Hps' Hpd') as (evs' & -> & H1 & H2 & H3);
    [lia|].
  exists (evs ++ evs'). split; [done|].
  exact (round_report _ _ _ _ _ _ _ _ _ _ Hr Hps Hpd H1 H2 H3).
Qed.

Lemma pending_initial key l : sorted_by key l -> pending key None None None l.
Proof.
  intros Hs. split; [done|]. apply Forall_forall. intros x _. right. by split.
Qed.

End match_spec.

(** ** The keys of the march *)

Lemma append_last_inj a b c d :
  a +:+ String c "" = b +:+ String d "" -> c = d.
Proof.
  revert b. induction a as [|x a IH]; intros [|y b] H; cbn [String.append] in H.
  - by injection H.
  - injection H as _ H. by destruct b.
  - injection H as _ H. by destruct a.
  - injection H as _ H. by apply (IH b).
Qed.

Lemma key_type tp ts e1 e2 b1 b2 :
  srcOrDstKey tp ts (Some e1) b1 = srcOrDstKey tp ts (Some e2) b2 -> is_dir e1 = is_dir e2.
Proof.
  unfold srcOrDstKey. destruct (is_dir e1), (is_dir e2); try done;
    intros H; by apply append_last_inj in H.
Qed.

(** The listing that the march receives: the entries in the order of the
    backend, sorted by key with a stable sort. *)
Definition sort_listing (key : DirEntry -> string) (l : list DirEntry) : list DirEntry :=
  sort_Stable (fun a b => str_ltb (key a) (key b)) l.

Lemma sort_listing_sorted key l : sorted_by key (sort_listing key l).
Proof. apply sort_Stable_sorted, WeakOrder_key. apply _. Qed.

Lemma first_with_filter key k l : first_with key k l = head (filter (fun e => key e = k) l).
Proof.
  unfold first_with. induction l as [|e l IH]; simpl; [done|]. rewrite filter_cons.
  destruct (str_eqb (key e) k) eqn:E.
  - apply str_eqb_eq in E. by rewrite decide_True.
  - apply str_eqb_neq in E. by rewrite decide_False.
Qed.

Lemma first_with_sort key k l : first_with key k (sort_listing key l) = first_with key k l.
Proof.
  rewrite !first_with_filter. f_equal. apply sort_Stable_filter.
  intros x y <- <-. apply (less_irrefl str_ltb).
Qed.

Section match_listings_theorem.
Variable transform_Path : string -> bool -> string.
Variable transforms : list (string -> string).

Definition m_skey (e : DirEntry) : string := srcKey transform_Path transforms (Some e).
Definition m_dkey (e : DirEntry) : string := dstKey transform_Path transforms (Some e).

Lemma matchListings_spec ss ds :
  exists evs,
    matchListings m_skey m_dkey (fun _ => false) false
      (sort_listing m_skey ss) (Some <$> sort_listing m_dkey ds) = (evs, Returned, false) /\
    StronglySorted str_lt (ekey m_skey m_dkey <$> evs) /\
    (forall k, event_for m_skey m_dkey k evs =
               classify (first_with m_skey k ss) (first_with m_dkey k ds)).
Proof.
  unfold matchListings.
  destruct (match_loop_spec m_skey m_dkey) with
    (fuel := (length (sort_listing m_skey ss) +
              length (Some <$> sort_listing m_dkey ds) + 1)%nat) (n := 0%nat)
    (sp := @None DirEntry) (dp := @None DirEntry)
    (st := initial_state (sort_listing m_skey ss) (Some <$> sort_listing m_dkey ds))
    (ss := sort_listing m_skey ss) (ds := sort_listing m_dkey ds)
    as (evs & -> & Hs & _ & Hfor).
  - intros a b. apply key_type.
  - intros a b. apply key_type.
  - intros a b. apply key_type.
  - apply loaded_initial.
  - apply pending_initial, sort_listing_sorted.
  - apply pending_initial, sort_listing_sorted.
  - unfold measure. simpl. lia.
  - exists evs. split_and!; [done|done|]. intros k.
    rewrite Hfor, !first_with_sort by done. done.
Qed.
End match_listings_theorem.

(** ** Stopping early: [NoProcessDstOnly] *)

Definition is_dst_only (ev : event) : Prop :=
  match ev with EDstOnly _ => True | _ => False end.

Lemma exhausted_step skey dkey st st' evs :
  src st = None -> srcChan st = [] -> match_step skey dkey false st = Next st' evs ->
  src st' = None /\ srcChan st' = [] /\ Forall is_dst_only evs.
Proof.
  destruct st as [sc dc sp dp spn dpn s d sm dm sn dn]. simpl. intros -> -> H.
  unfold match_step, reload_src in H. simpl in H.
  destruct d as [d|]; [|destruct dc as [|d dc]]; unfold reload_dst in H; simpl in H;
    repeat case_if_in H; simplify_eq; simpl; split_and!; try done; by repeat constructor.
Qed.

Lemma exhausted_loop skey dkey fuel n st evs o c :
  src st = None -> srcChan st = [] ->
  match_loop skey dkey fuel (fun _ => false) false n st = (evs, o, c) -> Forall is_dst_only evs.
Proof.
  revert n st evs o c. induction fuel as [|fuel IH]; intros n st evs o c Hs Hc H;
    cbn [match_loop] in H; [simplify_eq; constructor|].
  destruct (match_step skey dkey false st) as [st' evs1|] eqn:E; [|simplify_eq; constructor].
  destruct (exhausted_step _ _ _ _ _ Hs Hc E) as (Hs' & Hc' & Hd).
  destruct (match_loop _ _ _ _ _ _ st') as [[evs2 o2] c2] eqn:E2. simplify_eq.
  apply Forall_app. split; [done|]. by eapply IH.
Qed.

(** A source entry that was read came from an open channel. *)
Definition src_open (st : mstate) : Prop := src st <> None -> srcHasMore st = true.

Lemma src_open_step skey dkey np st st' evs :
  src_open st -> match_step skey dkey np st = Next st' evs -> src_open st'.
Proof.
  destruct st as [sc dc sp dp spn dpn s d sm dm sn dn]. unfold src_open. simpl.
  intros Ho H. unfold match_step in H.
  destruct s as [s|]; [specialize (Ho ltac:(done)); subst sm|destruct sc as [|s sc]];
    unfold reload_src in H; simpl in H;
    destruct d as [d|]; try (destruct dc as [|[d|] dc]); unfold reload_dst in H; simpl in H;
    repeat case_if_in H; simplify_eq; simpl; done.
Qed.

Lemma src_open_initial ss ds : src_open (initial_state ss ds).
Proof. intros H. by destruct H. Qed.

(** When the destination-only entries are not wanted, the march reports a
    prefix of what it reports otherwise, and what it leaves out are callbacks
    for destination-only entries. *)
Lemma no_process_dst_only skey dkey fuel n st evs c :
  src_open st ->
  match_loop skey dkey fuel (fun _ => false) false n st = (evs, Returned, c) ->
  exists evs1 rest c1,
    match_loop skey dkey fuel (fun _ => false) true n st = (evs1, Returned, c1) /\
    evs = evs1 ++ rest /\ Forall is_dst_only rest.
Proof.
  revert n st evs c. induction fuel as [|fuel IH]; intros n st evs c Ho H; [done|].
  pose proof H as H0. cbn [match_loop] in H |- *.
  destruct (srcHasMore (reload_src skey st)) eqn:Emore.
  - assert (match_step skey dkey true st = match_step skey dkey false st) as ->.
    { unfold match_step. by rewrite Emore. }
    destruct (match_step skey dkey false st) as [st' evs1|o c1] eqn:Estep.
    + pose proof (src_open_step _ _ _ _ _ _ Ho Estep) as Ho'.
      destruct (match_loop _ _ _ _ false _ st') as [[evs2 o2] c2] eqn:E2. simplify_eq.
      destruct (IH _ _ _ _ Ho' E2) as (e1 & rest & c1 & -> & -> & Hd).
      exists (evs1 ++ e1), rest, c1. split_and!; [done|by rewrite app_assoc|done].
    + simplify_eq. by exists [], [], c.
  - exists [], evs, true. split_and!; [|done|].
    + unfold match_step. by rewrite Emore.
    + unfold reload_src in Emore. destruct st as [sc dc sp dp spn dpn s d sm dm sn dn].
      simpl in Emore. destruct s as [s|]; [|destruct sc; [|done]].
      * specialize (Ho ltac:(done)). simpl in *. congruence.
      * by eapply exhausted_loop in H0.
Qed.

(** ** [Run]: workers, jobs and interleaving *)

Section run.
Context {S : Type} (cb : Marcher S) (m : March).
Variable skey dkey : DirEntry -> string.
Variable srcListDir dstListDir : string -> list DirEntry * option error.
Variable NewObject : string -> option Object.
(** [ci.Checkers], [ci.MaxDepth], [fi.Opt.DeleteExcluded], [fs.MaxLevel]. *)
Variable checkers : nat.
Variable MaxDepth : Z.
Variable DeleteExcluded : bool.

Definition MaxLevel : Z := 2 ^ 31 - 1.

(** The job that starts the march. *)
Definition first_job : listDirJob :=
  let srcDepth := if MaxDepth <? 0 then MaxLevel else MaxDepth in
  let dstDepth := if DeleteExcluded then MaxLevel else srcDepth in
  mkJob (Dir m) (Dir m) (srcDepth - 1) (dstDepth - 1) false (NoCheckDest m).

Definition listings (job : listDirJob) :=
  job_listings m srcListDir dstListDir NewObject job.

(** What [matchListings] reports for a job whose context is not cancelled. *)
Definition job_match (job : listDirJob) : list event * outcome * bool :=
  let '((ss, _), (ds, _)) := listings job in
  matchListings skey dkey (fun _ => false) (NoProcessDstOnly m) ss ds.

(** The error that [processJob] returns for the job, given whether the
    cancellation of the destination listing was seen in time. *)
Definition job_error (cancelSeen : bool) (job : listDirJob) : option error :=
  let '((_, srcListErr), (_, dstListErr)) := listings job in
  match srcListErr with
  | Some err => Some err
  | None =>
      if snd (job_match job) && cancelSeen then None
      else match dstListErr with
           | None | Some ErrorDirNotFound => None
           | Some err => Some err
           end
  end.

(** A job that a worker is running: the callbacks still to make and the jobs
    collected so far. *)
Record active := mkActive {
  a_job : listDirJob;
  a_todo : list event;
  a_jobs : list listDirJob;
}.

(** The state shared by the workers: the queue of jobs, the running ones, the
    marcher's state, the error bookkeeping, and the callbacks made so far. *)
Record rstate := mkRun {
  queue : list listDirJob;
  running : list active;
  marcher : S;
  jobError : option error;
  errCount : nat;
  trace : list event;
}.

Definition run_initial (s : S) : rstate := mkRun [first_job] [] s None 0 [].

(** One step of one worker; workers take jobs in any order and their
    callbacks interleave. *)
Inductive run_step : rstate -> rstate -> Prop :=
| step_take q1 job q2 act s je ec tr evs c :
    (length act < checkers)%nat ->
    job_match job = (evs, Returned, c) ->
    run_step (mkRun (q1 ++ job :: q2) act s je ec tr)
             (mkRun (q1 ++ q2) (mkActive job evs [] :: act) s je ec tr)
| step_event q a1 job ev todo jobs a2 s je ec tr s' jobs' :
    run_event cb job ev (s, jobs) = (s', jobs') ->
    run_step (mkRun q (a1 ++ mkActive job (ev :: todo) jobs :: a2) s je ec tr)
             (mkRun q (a1 ++ mkActive job todo jobs' :: a2) s' je ec (tr ++ [ev]))
| step_done q a1 job jobs a2 s je ec tr cancelSeen :
    job_error cancelSeen job = None ->
    run_step (mkRun q (a1 ++ mkActive job [] jobs :: a2) s je ec tr)
             (mkRun (q ++ jobs) (a1 ++ a2) s je ec tr)
| step_fail q a1 job jobs a2 s je ec tr cancelSeen err :
    job_error cancelSeen job = Some err ->
    run_step (mkRun q (a1 ++ mkActive job [] jobs :: a2) s je ec tr)
             (mkRun q (a1 ++ a2) s (match je with None => Some err | _ => je end)
                (Datatypes.S ec) tr).

(** The result of [Run] in a final state: the error and whether it is wrapped
    as "march failed with n errors". *)
Definition run_result (r : rstate) : option error * bool :=
  (jobError r, (1 <? errCount r)%nat).

Definition final (r : rstate) : Prop := queue r = [] /\ running r = [].

(** *** The tree of jobs

    The marcher decides from the entries alone whether to recurse. *)
Variable recurses : event -> bool.

Definition decides : Prop :=
  (forall e s, snd (SrcOnly cb e s) = recurses (ESrcOnly e)) /\
  (forall e s, snd (DstOnly cb e s) = recurses (EDstOnly e)) /\
  (forall d e s, snd (Match cb d e s) = recurses (EMatch d e)).

(** The job that [processJob] adds for one event. *)
Definition child (job : listDirJob) (ev : event) : list listDirJob :=
  if recurses ev then
    match ev with
    | ESrcOnly src =>
        if 0 <? srcDepth job
        then [mkJob (Remote src) (Remote src) (srcDepth job - 1) 0 false true] else []
    | EDstOnly (Some d) =>
        if 0 <? dstDepth job
        then [mkJob (Remote d) (Remote d) 0 (dstDepth job - 1) true false] else []
    | EDstOnly None => []
    | EMatch dst src =>
        if (0 <? srcDepth job) && (0 <? dstDepth job)
        then [mkJob (Remote src) (Remote dst) (srcDepth job - 1) (dstDepth job - 1) false false]
        else []
    end
  else [].

Definition job_events (job : listDirJob) : list event := fst (fst (job_match job)).

(** A job whose listing fails adds no jobs. *)
Definition kept (job : listDirJob) (jobs : list listDirJob) : list listDirJob :=
  match job_error false job with None => jobs | Some _ => [] end.

Definition children (job : listDirJob) : list listDirJob :=
  kept job (job_events job ≫= child job).

(** Depth that a job may still descend. *)
Definition depth (job : listDirJob) : nat :=
  (Z.to_nat (srcDepth job) + Z.to_nat (dstDepth job))%nat.

(** The callbacks for a job and all the jobs it leads to. *)
Fixpoint tree (fuel : nat) (job : listDirJob) : list event :=
  match fuel with
  | O => []
  | Datatypes.S fuel' => job_events job ++ (children job ≫= tree fuel')
  end.

(** The number of steps the workers need for them. *)
Fixpoint tree_steps (fuel : nat) (job : listDirJob) : nat :=
  match fuel with
  | O => 0
  | Datatypes.S fuel' =>
      (length (job_events job) + 2 + sum_list_with (tree_steps fuel') (children job))%nat
  end.

Definition job_tree (job : listDirJob) : list event := tree (Datatypes.S (depth job)) job.
Definition job_steps (job : listDirJob) : nat := tree_steps (Datatypes.S (depth job)) job.

Lemma run_event_child job ev s jobs :
  decides -> snd (run_event cb job ev (s, jobs)) = jobs ++ child job ev.
Proof.
  intros (H1 & H2 & H3). unfold run_event, child. destruct ev as [e|d|d e].
  - specialize (H1 e s). destruct (SrcOnly cb e s) as [s' r]. simpl in *. subst r.
    destruct (recurses _); simpl; [|by rewrite app_nil_r].
    case_if; [done|by rewrite app_nil_r].
  - specialize (H2 d s). destruct (DstOnly cb d s) as [s' r]. simpl in *. subst r.
    destruct d as [d|]; destruct (recurses _); simpl; try by rewrite app_nil_r.
    case_if; [done|by rewrite app_nil_r].
  - specialize (H3 d e s). destruct (Match cb d e s) as [s' r]. simpl in *. subst r.
    destruct (recurses _); simpl; [|by rewrite app_nil_r].
    case_if; [done|by rewrite app_nil_r].
Qed.

Lemma child_depth job ev job' : job' ∈ child job ev -> (depth job' < depth job)%nat.
Proof.
  unfold child, depth. destruct (recurses ev); [|set_solver].
  destruct ev as [e|[d|]|d e]; [| |set_solver|].
  - case_if; [|set_solver]. intros ->%list_elem_of_singleton. simpl. lia.
  - case_if; [|set_solver]. intros ->%list_elem_of_singleton. simpl. lia.
  - destruct (0 <? srcDepth job) eqn:E1, (0 <? dstDepth job) eqn:E2; simpl; try set_solver.
    breflect. intros ->%list_elem_of_singleton. simpl. lia.
Qed.

Lemma children_depth job job' : job' ∈ children job -> (depth job' < depth job)%nat.
Proof.
  unfold children, kept. destruct (job_error false job); [set_solver|].
  intros (ev & Hj & _)%list_elem_of_bind. by eapply child_depth.
Qed.

Lemma tree_fuel f1 f2 job :
  (depth job < f1)%nat -> (depth job < f2)%nat ->
  tree f1 job = tree f2 job /\ tree_steps f1 job = tree_steps f2 job.
Proof.
  revert f2 job. induction f1 as [|f1 IH]; intros [|f2] job H1 H2; try lia. simpl.
  assert (Hc : forall j, j ∈ children job ->
    tree f1 j = tree f2 j /\ tree_steps f1 j = tree_steps f2 j).
  { intros j Hj. pose proof (children_depth job j Hj). apply IH; lia. }
  split; f_equal.
  - apply bind_ext_in. intros j Hj. by apply Hc.
  - apply sum_list_with_ext. intros j Hj. by apply Hc.
Qed.

Lemma job_tree_eq job : job_tree job = job_events job ++ (children job ≫= job_tree).
Proof.
  unfold job_tree at 1. cbn [tree]. f_equal. apply bind_ext_in. intros j Hj.
  pose proof (children_depth job j Hj). apply tree_fuel; lia.
Qed.

Lemma job_steps_eq job :
  job_steps job = (length (job_events job) + 2 + sum_list_with job_steps (children job))%nat.
Proof.
  unfold job_steps at 1. cbn [tree_steps]. f_equal. apply sum_list_with_ext. intros j Hj.
  pose proof (children_depth job j Hj). apply tree_fuel; lia.
Qed.

(** *** The invariant of the workers *)

(** The jobs that a running job will have added when it is done. *)
Definition due (a : active) : list listDirJob :=
  kept (a_job a) (a_jobs a ++ (a_todo a ≫= child (a_job a))).

(** The callbacks still to come, and the steps they take. *)
Definition to_come (r : rstate) : list event :=
  (queue r ≫= job_tree) ++ (running r ≫= fun a => a_todo a ++ (due a ≫= job_tree)).

Definition steps_left (r : rstate) : nat :=
  (sum_list_with job_steps (queue r) +
   sum_list_with (fun a => length (a_todo a) + 1 + sum_list_with job_steps (due a))
     (running r))%nat.

(** Whether a listing fails does not depend on the race between the
    cancellation and the end of the destination listing. *)
Definition stable_errors : Prop :=
  forall job cancelSeen, job_error cancelSeen job = job_error false job.

Lemma run_step_weighs r r' :
  decides -> stable_errors -> run_step r r' ->
  trace r' ++ to_come r' ≡ₚ trace r ++ to_come r /\ steps_left r = Datatypes.S (steps_left r').
Proof.
  intros Hdec Hst Hstep. destruct Hstep as [q1 job q2 act s je ec tr evs c Hlen Hm
    |q a1 job ev todo jobs a2 s je ec tr s' jobs' Hev
    |q a1 job jobs a2 s je ec tr cs Herr|q a1 job jobs a2 s je ec tr cs err Herr];
    unfold to_come, steps_left, due; cbn [queue running trace];
    rewrite ?bind_app, ?bind_cons, ?sum_list_with_app; cbn [sum_list_with a_job a_todo a_jobs].
  - assert (Hevs : job_events job = evs) by (unfold job_events; by rewrite Hm).
    rewrite (job_tree_eq job), (job_steps_eq job). unfold children. rewrite Hevs.
    split; [solve_Permutation|simpl; lia].
  - pose proof (run_event_child job ev s jobs Hdec) as Hc. rewrite Hev in Hc. simpl in Hc.
    subst jobs'.
    replace ((jobs ++ child job ev) ++ (todo ≫= child job))
      with (jobs ++ ((ev :: todo) ≫= child job)) by (by rewrite bind_cons, app_assoc).
    generalize (kept job (jobs ++ ((ev :: todo) ≫= child job))); intros l.
    split; [solve_Permutation|simpl; lia].
  - unfold kept. rewrite <- (Hst job cs), Herr. cbn [mbind list_bind]. rewrite app_nil_r.
    split; [solve_Permutation|simpl; lia].
  - unfold kept. rewrite <- (Hst job cs), Herr. split; [simpl; solve_Permutation|simpl; lia].
Qed.

Lemma run_progress r :
  (0 < checkers)%nat -> (forall job, snd (fst (job_match job)) = Returned) ->
  ~ final r -> exists r', run_step r r'.
Proof.
  intros Hch Hret Hnf. destruct r as [q act s je ec tr].
  destruct act as [|[job todo jobs] act].
  - destruct q as [|job q]; [by destruct Hnf|].
    specialize (Hret job). destruct (job_match job) as [[evs o] c] eqn:E. simpl in Hret. subst o.
    eexists. by apply (step_take [] job q []) with (c := c).
  - destruct todo as [|ev todo].
    + destruct (job_error false job) as [err|] eqn:E.
      * eexists. by apply (step_fail q [] job jobs act) with (cancelSeen := false).
      * eexists. by apply (step_done q [] job jobs act) with (cancelSeen := false).
    + destruct (run_event cb job ev (s, jobs)) as [s' jobs'] eqn:E.
      eexists. by apply (step_event q [] job ev todo jobs act).
Qed.

Lemma run_steps_weigh n r r' :
  decides -> stable_errors -> nsteps run_step n r r' ->
  trace r' ++ to_come r' ≡ₚ trace r ++ to_come r /\ steps_left r = (n + steps_left r')%nat.
Proof.
  intros Hdec Hst Hn. induction Hn as [r|n r1 r2 r3 Hs Hn IH]; [done|].
  destruct (run_step_weighs _ _ Hdec Hst Hs) as [Hp1 Hl1]. destruct IH as [Hp2 Hl2].
  split; [by rewrite Hp2|]. lia.
Qed.

Lemma run_reaches_final r :
  (0 < checkers)%nat -> (forall job, snd (fst (job_match job)) = Returned) ->
  decides -> stable_errors -> exists r', rtc run_step r r' /\ final r'.
Proof.
  intros Hch Hret Hdec Hst. remember (steps_left r) as n eqn:Hn. revert r Hn.
  induction n as [|n IH]; intros r Hn.
  - exists r. split; [done|].
    destruct (decide (queue r = [] /\ running r = [])) as [|Hnf]; [done|].
    destruct (run_progress r Hch Hret Hnf) as [r' Hs].
    destruct (run_step_weighs _ _ Hdec Hst Hs). lia.
  - destruct (decide (queue r = [] /\ running r = [])) as [|Hnf]; [by exists r|].
    destruct (run_progress r Hch Hret Hnf) as [r' Hs].
    destruct (run_step_weighs _ _ Hdec Hst Hs) as [_ Hl].
    destruct (IH r') as (r2 & Hr & Hf); [lia|].
    exists r2. split; [by eapply rtc_l|done].
Qed.

Lemma run_initial_weight s :
  to_come (run_initial s) ≡ₚ job_tree first_job /\ steps_left (run_initial s) = job_steps first_job.
Proof.
  unfold to_come, steps_left, run_initial. simpl. rewrite !app_nil_r. split; [done|lia].
Qed.

Lemma final_weight r : final r -> to_come r = [] /\ steps_left r = 0%nat.
Proof. intros [Hq Ha]. unfold to_come, steps_left. by rewrite Hq, Ha. Qed.

(** [processJob] is what one worker does when the others are idle. *)
Lemma run_events_steps q job evs jobs s je ec tr :
  rtc run_step (mkRun q [mkActive job evs jobs] s je ec tr)
    (let acc := fold_left (fun acc ev => run_event cb job ev acc) evs (s, jobs) in
     mkRun q [mkActive job [] (snd acc)] (fst acc) je ec (tr ++ evs)).
Proof.
  revert jobs s tr. induction evs as [|ev evs IH]; intros jobs s tr; cbn [fold_left].
  { simpl. by rewrite app_nil_r. }
  destruct (run_event cb job ev (s, jobs)) as [s' jobs'] eqn:E.
  eapply rtc_l; [by apply (step_event q [] job ev evs jobs [])|].
  specialize (IH jobs' s' (tr ++ [ev])). rewrite <- app_assoc in IH. exact IH.
Qed.

Lemma processJob_steps cancelSeen job s s' jobs err je ec tr q :
  (0 < checkers)%nat ->
  processJob cb m skey dkey srcListDir dstListDir NewObject (fun _ => false) cancelSeen job s =
    (s', Returned, (jobs, err)) ->
  exists tr', rtc run_step (mkRun (job :: q) [] s je ec tr)
    (mkRun (q ++ jobs) [] s' (match je with None => err | _ => je end)
       (match err with None => ec | Some _ => Datatypes.S ec end) tr').
Proof.
  intros Hch H. unfold processJob in H.
  assert (Hjm : job_match job = job_match job) by done. unfold job_match at 1, listings in Hjm.
  assert (Hje : job_error cancelSeen job = job_error cancelSeen job) by done.
  unfold job_error at 1, listings in Hje.
  destruct (job_listings m srcListDir dstListDir NewObject job) as [[ss se] [ds de]].
  destruct (matchListings _ _ _ _ ss ds) as [[evs o] c].
  pose proof (run_events_steps q job evs [] s je ec tr) as Hev. simpl in Hev.
  unfold run_events in H. destruct (fold_left _ evs (s, [])) as [s1 jobs1]. simpl in Hev.
  assert (Ht : rtc run_step (mkRun (job :: q) [] s je ec tr)
                 (mkRun q [mkActive job [] jobs1] s1 je ec (tr ++ evs))).
  { destruct o; simplify_eq. eapply rtc_l; [|exact Hev].
    by apply (step_take [] job q []) with (c := c). }
  assert (Hend : s1 = s' /\ jobs = (match job_error cancelSeen job with None => jobs1 | _ => [] end)
    /\ err = job_error cancelSeen job).
  { rewrite <- Hje, <- Hjm. simpl. destruct o; try done. destruct se as [e|]; [by simplify_eq|].
    destruct (c && cancelSeen); [by simplify_eq|]. destruct de as [[]|]; by simplify_eq. }
  destruct Hend as (-> & -> & ->). exists (tr ++ evs). eapply rtc_r; [exact Ht|].
  destruct (job_error cancelSeen job) as [e|] eqn:E.
  - rewrite app_nil_r. by apply (step_fail q [] job jobs1 []) with (cancelSeen := cancelSeen).
  - replace (match je with Some _ => je | None => None end) with je by (by destruct je).
    by apply (step_done q [] job jobs1 []) with (cancelSeen := cancelSeen).
Qed.

End run.

(** ** Theorems *)

(** C1: for listings in any order, with any repeats, sorted by key as the
    march sorts them, [matchListings] neither panics nor runs on, and its
    callbacks come in strictly increasing order of key, exactly one for every
    key of either side: a match of the first source entry and the first
    destination entry with that key when both sides have it, otherwise the
    side's only entry. *)
Theorem matchListings_correct transform_Path transforms ss ds :
  let skey := m_skey transform_Path transforms in
  let dkey := m_dkey transform_Path transforms in
  exists evs,
    matchListings skey dkey (fun _ => false) false
      (sort_listing skey ss) (Some <$> sort_listing dkey ds) = (evs, Returned, false) /\
    StronglySorted str_lt (ekey skey dkey <$> evs) /\
    (forall k, event_for skey dkey k evs =
               classify (first_with skey k ss) (first_with dkey k ds)).
Proof. apply matchListings_spec. Qed.

(** With [NoProcessDstOnly] (copy and move) the loop stops as soon as the
    source listing is used up, and it makes the same callbacks for matches and
    for source-only entries, in the same order, as the full march. *)
Theorem matchListings_early_stop transform_Path transforms ss ds :
  let skey := m_skey transform_Path transforms in
  let dkey := m_dkey transform_Path transforms in
  exists evs evs1 rest c,
    matchListings skey dkey (fun _ => false) false
      (sort_listing skey ss) (Some <$> sort_listing dkey ds) = (evs, Returned, false) /\
    matchListings skey dkey (fun _ => false) true
      (sort_listing skey ss) (Some <$> sort_listing dkey ds) = (evs1, Returned, c) /\
    evs = evs1 ++ rest /\ Forall is_dst_only rest.
Proof.
  intros skey dkey.
  destruct (matchListings_spec transform_Path transforms ss ds) as (evs & H & _).
  unfold matchListings in *.
  destruct (no_process_dst_only skey dkey _ _ _ _ _ (src_open_initial _ _) H)
    as (evs1 & rest & c & H1 & H2 & H3).
  by exists evs, evs1, rest, c.
Qed.

(** The listing functions of a march that does not use --no-traverse. *)
Definition sorted_list_dir (key : DirEntry -> string)
    (list : string -> list DirEntry * option error) (dir : string)
  : Datatypes.list DirEntry * option error :=
  let '(es, err) := list dir in (sort_listing key es, err).

Lemma job_match_returns tp ts m rawSrc rawDst newObj job :
  NoTraverse m = false ->
  snd (fst (job_match m (m_skey tp ts) (m_dkey tp ts)
    (sorted_list_dir (m_skey tp ts) rawSrc) (sorted_list_dir (m_dkey tp ts) rawDst) newObj job))
  = Returned.
Proof.
  intros Hnt. unfold job_match, listings, job_listings. rewrite Hnt. simpl.
  assert (Hall : forall ss ds, snd (fst (matchListings (m_skey tp ts) (m_dkey tp ts)
    (fun _ => false) (NoProcessDstOnly m) (sort_listing (m_skey tp ts) ss)
    (Some <$> sort_listing (m_dkey tp ts) ds))) = Returned).
  { intros ss ds. destruct (matchListings_spec tp ts ss ds) as (evs & H & _).
    destruct (NoProcessDstOnly m); [|by rewrite H]. unfold matchListings in *.
    by destruct (no_process_dst_only _ _ _ _ _ _ _ (src_open_initial _ _) H) as (? & ? & ? & -> & _). }
  unfold sorted_list_dir.
  destruct (noSrc job), (noDst job); simpl;
    destruct (rawSrc (srcRemote job)) as [es1 e1], (rawDst (dstRemote job)) as [es2 e2]; simpl.
  - apply (Hall [] []).
  - apply (Hall [] es2).
  - apply (Hall es1 []).
  - apply (Hall es1 es2).
Qed.

Lemma match_loop_not_cancelled skey dkey fuel aborted n st :
  snd (match_loop skey dkey fuel aborted false n st) = false.
Proof.
  revert n st. induction fuel as [|fuel IH]; intros n st; [done|]. cbn [match_loop].
  destruct (aborted n); [done|].
  destruct (match_step skey dkey false st) as [st' evs|o c] eqn:E.
  - specialize (IH (S n) st'). by destruct (match_loop _ _ _ _ _ _ st') as [[? ?] ?].
  - simpl. unfold match_step in E. rewrite andb_false_r in E. repeat case_if_in E; try congruence.
    by destruct (src _), (dst _); repeat case_if_in E; simplify_eq.
Qed.

(** Without [NoProcessDstOnly] the destination listing is never cancelled. *)
Lemma stable_errors_full m skey dkey srcL dstL newObj :
  NoProcessDstOnly m = false -> stable_errors m skey dkey srcL dstL newObj.
Proof.
  intros Hnp job cs. unfold job_error.
  assert (snd (job_match m skey dkey srcL dstL newObj job) = false) as ->; [|done].
  unfold job_match. rewrite Hnp. destruct (listings _ _ _ _ job) as [[ss e] [ds e']].
  apply match_loop_not_cancelled.
Qed.

(** C27: the traversal is independent of the scheduling of its workers.  When
    the marcher decides from the entries whether to recurse, every
    interleaving of the workers ends after exactly [job_steps] steps, none
    gets stuck before the end, and the callbacks made are, up to order, those
    of the tree of jobs below the first one. *)
Theorem Run_any_schedule {S} (cb : Marcher S) m tp ts rawSrc rawDst newObj
    checkers MaxDepth DeleteExcluded recurses s :
  let skey := m_skey tp ts in
  let dkey := m_dkey tp ts in
  let srcL := sorted_list_dir skey rawSrc in
  let dstL := sorted_list_dir dkey rawDst in
  let step := run_step cb m skey dkey srcL dstL newObj checkers in
  let job0 := first_job m MaxDepth DeleteExcluded in
  NoTraverse m = false -> (0 < checkers)%nat ->
  decides cb recurses -> stable_errors m skey dkey srcL dstL newObj ->
  (exists r, rtc step (run_initial m MaxDepth DeleteExcluded s) r /\ final r) /\
  (forall n r, nsteps step n (run_initial m MaxDepth DeleteExcluded s) r ->
     (n <= job_steps m skey dkey srcL dstL newObj recurses job0)%nat /\
     (~ final r -> exists r', step r r') /\
     (final r -> n = job_steps m skey dkey srcL dstL newObj recurses job0 /\
        trace r ≡ₚ job_tree m skey dkey srcL dstL newObj recurses job0)).
Proof.
  intros skey dkey srcL dstL step job0 Hnt Hch Hdec Hst.
  assert (Hret : forall job, snd (fst (job_match m skey dkey srcL dstL newObj job)) = Returned).
  { intros job. by apply job_match_returns. }
  split; [by eapply run_reaches_final|]. intros n r Hn.
  destruct (run_steps_weigh _ _ _ _ _ _ _ _ recurses _ _ _ Hdec Hst Hn) as [Hp Hl].
  destruct (run_initial_weight m skey dkey srcL dstL newObj MaxDepth DeleteExcluded recurses s)
    as [Hw Hs]. rewrite Hs in Hl. rewrite Hw in Hp. cbn [trace run_initial app] in Hp.
  split_and!; [subst job0; lia|by apply run_progress|]. intros Hf.
  destruct (final_weight m skey dkey srcL dstL newObj recurses r Hf) as [Htc Hsl].
  rewrite Htc, app_nil_r in Hp. split; [subst job0; lia|done].
Qed.

(** A source with a file and a directory that holds a file; the destination
    has the directory only.  The marcher recurses into directories and keeps a
    count of its callbacks. *)
Definition ex_file (remote : string) : DirEntry := EObject (mkObject remote 1 0 None true 0).
Definition ex_dir (remote : string) : DirEntry := EDir (mkDirectory remote 0).

Definition ex_src (dir : string) : list DirEntry * option error :=
  if str_eqb dir "" then ([ex_file "a"; ex_dir "d"], None)
  else if str_eqb dir "d" then ([ex_file "d/x"], None) else ([], Some ErrorDirNotFound).

Definition ex_dst (dir : string) : list DirEntry * option error :=
  if str_eqb dir "" then ([ex_dir "d"], None)
  else if str_eqb dir "d" then ([], None) else ([], Some ErrorDirNotFound).

Definition ex_recurses (ev : event) : bool :=
  match ev with
  | ESrcOnly e => is_dir e
  | EDstOnly (Some e) => is_dir e
  | EDstOnly None => false
  | EMatch _ e => is_dir e
  end.

Definition ex_marcher : Marcher nat :=
  mkMarcher nat (fun e n => (S n, ex_recurses (ESrcOnly e)))
    (fun e n => (S n, ex_recurses (EDstOnly e)))
    (fun d e n => (S n, ex_recurses (EMatch d e))).

Definition ex_march : March := mkMarch "" false false true false.

Lemma Run_any_schedule_witness :
  exists r, final r /\
    rtc (run_step ex_marcher ex_march (m_skey (fun s _ => s) []) (m_dkey (fun s _ => s) [])
           (sorted_list_dir (m_skey (fun s _ => s) []) ex_src)
           (sorted_list_dir (m_dkey (fun s _ => s) []) ex_dst) (fun _ => None) 2)
        (run_initial ex_march 5 false 0%nat) r.
Proof.
  destruct (Run_any_schedule ex_marcher ex_march (fun s _ => s) [] ex_src ex_dst (fun _ => None)
              2 5 false ex_recurses 0%nat) as [(r & Hr & Hf) _].
  - reflexivity.
  - lia.
  - split; [reflexivity|]. split; reflexivity.
  - apply stable_errors_full. reflexivity.
  - exists r. split; [exact Hf|exact Hr].
Defined.

(** With --no-traverse the destination of an object is looked up under
    its untransformed name, while the source listing is sorted by the
    transformed names; when both names of a directory exist at the destination
    the lookups need not be in the order of their keys, and [matchListings]
    ends in its panic for a destination listing that is out of order. *)
Theorem no_traverse_transform_panics :
  let tp := fun (name : string) (_ : bool) =>
    if str_eqb name "a" then "z" else if str_eqb name "b" then "y" else name in
  let newObj := fun remote => if str_eqb remote "a" || str_eqb remote "b"
                              then Some (mkObject remote 1 0 None true 0) else None in
  let job := mkJob "" "" 0 0 false false in
  let ss := sort_listing (m_skey tp []) [ex_file "a"; ex_file "b"] in
  snd (fst (matchListings (m_skey tp []) (m_dkey tp []) (fun _ => false) true
              ss (no_traverse_dst newObj job <$> ss))) = PanicDst.
Proof. reflexivity. Qed.

End March.
