(* ===== verification/DirTree.v ===== *)
(** * DirTree: a file system hierarchy in memory (fs/dirtree/dirtree.go)

    A [DirTree] maps each directory to its entries.  Go's iteration over a map
    visits the keys in an unspecified order, and may or may not visit keys
    that are added on the way: the order of the visits is an argument of
    [CheckParents] and of the first loop of [Prune], and the second loop of
    [Prune], which changes the map it ranges over, is a step relation.  The
    theorems hold for every order.  [None] is a panic (an index out of range)
    or, in [checkParent], fuel that runs out. *)
From S2P Require Import Prelude GoPath Entries.

Module DirTree.
Import GoPath Entries.

Abbreviation DirTree := (gmap string (list DirEntry)).

(** [dt[k]], which is [nil] for a key that is absent. *)
Definition listing (dt : DirTree) (k : string) : list DirEntry := default [] (dt !! k).

(** [dt[k] = append(dt[k], e)] *)
Definition append_entry (dt : DirTree) (k : string) (e : DirEntry) : DirTree :=
  <[k := listing dt k ++ [e]]> dt.

Definition Add (dt : DirTree) (entry : DirEntry) : DirTree :=
  append_entry dt (parentDir (Remote entry)) entry.

Definition AddDir (dt : DirTree) (entry : DirEntry) : DirTree :=
  let dirPath := Remote entry in
  if str_eqb dirPath "" then dt
  else
    let dt := Add dt entry in
    match dt !! dirPath with
    | Some _ => dt
    | None => <[dirPath := []]> dt
    end.

Definition Find (dt : DirTree) (filePath : string) : string * option DirEntry :=
  let parentPath := parentDir filePath in
  (parentPath, List.find (fun e => str_eqb (Remote e) filePath) (listing dt parentPath)).

Section check.
(** [time.Now()] when the directory is made up. *)
Variable now : string -> Z.

Fixpoint checkParent (fuel : nat) (root dirPath : string) (dirs : option (gset string))
    (dt : DirTree) : option (DirTree * option (gset string)) :=
  match fuel with
  | O => None
  | S fuel' =>
      if str_eqb dirPath root then Some (dt, dirs)
      else
        let parentPath := parentDir dirPath in
        let found :=
          match dirs with
          | Some ds => bool_decide (dirPath ∈ ds)
          | None => match snd (Find dt dirPath) with Some _ => true | None => false end
          end in
        if found then Some (dt, dirs)
        else
          let dt := append_entry dt parentPath (EDir (mkDirectory dirPath (now dirPath))) in
          let dirs := match dirs with Some ds => Some ({[dirPath]} ∪ ds) | None => None end in
          checkParent fuel' root parentPath dirs dt
  end.

(** Every round goes one element up the path; above the root the last round finds the empty path that the round before has added. *)
Definition check_fuel (dirPath : string) : nat := S (S (length (split_on slash dirPath))).

Definition AddEntry (dt : DirTree) (entry : DirEntry) : option DirTree :=
  let dt := match entry with EDir _ => AddDir dt entry | EObject _ => Add dt entry end in
  let remoteParent := parentDir (Remote entry) in
  match checkParent (check_fuel remoteParent) "" remoteParent None dt with
  | Some (dt, _) => Some dt
  | None => None
  end.

(** The directories of a listing. *)
Definition dir_names (es : list DirEntry) : list string :=
  omap (fun e => match e with EDir d => Some (dRemote d) | EObject _ => None end) es.

Definition all_dirs (dt : DirTree) : gset string :=
  list_to_set (map_to_list dt ≫= fun p => dir_names (snd p)).

(** [for dirPath := range dt { dt.checkParent(root, dirPath, dirs) }] over the
    keys in the order of their visits. *)
Fixpoint check_all (root : string) (order : list string) (dirs : option (gset string))
    (dt : DirTree) : option DirTree :=
  match order with
  | [] => Some dt
  | dirPath :: order' =>
      match checkParent (check_fuel dirPath) root dirPath dirs dt with
      | Some (dt, dirs) => check_all root order' dirs dt
      | None => None
      end
  end.

Definition CheckParents (root : string) (order : list string) (dt : DirTree) : option DirTree :=
  check_all root order (Some (all_dirs dt)) dt.
End check.

Definition Sort (dt : DirTree) : DirTree := sort_entries <$> dt.

Definition Dirs (dt : DirTree) : list string :=
  sort_Stable str_ltb (fst <$> map_to_list dt).

Definition to_String (dt : DirTree) : string :=
  join_with "" (Dirs dt ≫= fun dir =>
    (dir +:+ "/" +:+ String "010" "") ::
    ((fun e => "  " +:+ path_Base (Remote e) +:+ (if is_dir e then "/" else "")
               +:+ String "010" "") <$> listing dt dir)).

(** ** [Prune] *)

(** [for i, entry := range dt[parent]]: the range is over the slice as it was
    at the start, of length [i + todo], but the assignments go to the array
    that it shares with [dt[parent]], whose length is [len].  The [break] after
    a removal leaves the [switch] only, so the loop goes on. *)
Fixpoint prune_scan (dName : string) (todo i : nat) (arr : list DirEntry) (len : nat)
  : option (list DirEntry * nat) :=
  match todo with
  | O => Some (arr, len)
  | S todo' =>
      match arr !! i with
      | None => None
      | Some (EDir d) =>
          if str_eqb (dRemote d) dName then
            match arr !! (len - 1)%nat with
            | Some x =>
                if (i <? len)%nat then prune_scan dName todo' (S i) (<[i := x]> arr) (len - 1)
                else None
            | None => None
            end
          else prune_scan dName todo' (S i) arr len
      | Some (EObject _) => prune_scan dName todo' (S i) arr len
      end
  end.

(** One round of the first loop of [Prune]. *)
Definition prune_parent (dName : string) (remove : bool) (dt : DirTree) : option DirTree :=
  if negb remove then Some dt
  else if str_eqb dName "" then Some dt
  else
    let parent := parentDir dName in
    match dt !! parent with
    | None => Some dt
    | Some es =>
        match prune_scan dName (length es) 0 es (length es) with
        | Some (arr, len) => Some (<[parent := take len arr]> dt)
        | None => None
        end
    end.

Fixpoint prune_parents (order : list (string * bool)) (dt : DirTree) : option DirTree :=
  match order with
  | [] => Some dt
  | (dName, remove) :: order' =>
      match prune_parent dName remove dt with
      | Some dt => prune_parents order' dt
      | None => None
      end
  end.

(** One round of the inner loop of the second part, for any key of the map. *)
Inductive prune_step : gmap string bool * DirTree -> gmap string bool * DirTree -> Prop :=
| prune_skip D dt dName :
    D !! dName = Some false ->
    prune_step (D, dt) (D, dt)
| prune_dir D dt dName :
    D !! dName = Some true ->
    prune_step (D, dt)
      (delete dName (foldl (fun D sub => <[sub := true]> D) D (dir_names (listing dt dName))),
       delete dName dt).

(** [Prune] for one choice of orders: [for len(dirNames) > 0] ends in [dt']. *)
Definition Prune (dirNames : gmap string bool) (order : list (string * bool)) (dt dt' : DirTree)
  : Prop :=
  exists dt1, prune_parents order dt = Some dt1 /\ rtc prune_step (dirNames, dt1) (∅, dt').

(** ** Invariants *)

(** Every entry is in the listing of its parent directory. *)
Definition placed (dt : DirTree) : Prop :=
  forall k e, e ∈ listing dt k -> parentDir (Remote e) = k.

(** No directory occurs twice in a listing. *)
Definition dirs_unique (dt : DirTree) : Prop := forall k, NoDup (dir_names (listing dt k)).

Definition has_dir (dt : DirTree) (r : string) : Prop :=
  r ∈ dir_names (listing dt (parentDir r)).

Definition has_entry (dt : DirTree) (r : string) : Prop :=
  r ∈ Remote <$> listing dt (parentDir r).

(** [dt'] has the entries of [dt] in their places, then some more. *)
Definition extends (dt dt' : DirTree) : Prop :=
  forall k, (is_Some (dt !! k) -> is_Some (dt' !! k)) /\ listing dt k `prefix_of` listing dt' k.

#[export] Instance extends_preorder : PreOrder extends.
Proof.
  split.
  - intros dt k. by split.
  - intros a b c H1 H2 k. destruct (H1 k), (H2 k). split; [auto|]. by etrans.
Qed.

Lemma listing_append dt k e k' :
  listing (append_entry dt k e) k' =
  if decide (k = k') then listing dt k ++ [e] else listing dt k'.
Proof.
  unfold append_entry, listing.
  destruct (decide (k = k')) as [->|]; [by rewrite lookup_insert_eq|by rewrite lookup_insert_ne].
Qed.

Lemma elem_of_listing_append dt k e k' x :
  x ∈ listing (append_entry dt k e) k' <-> x ∈ listing dt k' \/ (k = k' /\ x = e).
Proof. rewrite listing_append. case_decide; subst; set_solver. Qed.

Lemma append_extends dt k e : extends dt (append_entry dt k e).
Proof.
  intros k'. split.
  - unfold append_entry. intros H. destruct (decide (k = k')) as [->|].
    + rewrite lookup_insert_eq. eauto.
    + by rewrite lookup_insert_ne.
  - rewrite listing_append. case_decide; subst; [by apply prefix_app_r|done].
Qed.

Lemma dir_names_app l1 l2 : dir_names (l1 ++ l2) = dir_names l1 ++ dir_names l2.
Proof. apply omap_app. Qed.

Lemma elem_of_dir_names r es : r ∈ dir_names es <-> exists d, EDir d ∈ es /\ dRemote d = r.
Proof.
  unfold dir_names. rewrite list_elem_of_omap. split.
  - intros ([o|d] & Hin & Heq); [done|]. simplify_eq. eauto.
  - intros (d & Hin & <-). eauto.
Qed.

Lemma elem_of_all_dirs dt r :
  r ∈ all_dirs dt <-> exists k, r ∈ dir_names (listing dt k).
Proof.
  unfold all_dirs. rewrite elem_of_list_to_set, list_elem_of_bind. split.
  - intros ([k es] & Hr & Hin). apply elem_of_map_to_list in Hin. exists k.
    unfold listing. by rewrite Hin.
  - intros [k Hr]. unfold listing in Hr. destruct (dt !! k) as [es|] eqn:E.
    + exists (k, es). split; [done|]. by apply elem_of_map_to_list.
    + by apply not_elem_of_nil in Hr.
Qed.

Lemma all_dirs_placed dt r : placed dt -> r ∈ all_dirs dt <-> has_dir dt r.
Proof.
  intros Hp. rewrite elem_of_all_dirs. split; [|by exists (parentDir r)].
  intros [k Hr]. unfold has_dir. replace (parentDir r) with k; [done|].
  apply elem_of_dir_names in Hr as (d & Hin & <-). by apply Hp in Hin.
Qed.

Lemma has_dir_extends dt dt' r : extends dt dt' -> has_dir dt r -> has_dir dt' r.
Proof.
  intros He. unfold has_dir. destruct (He (parentDir r)) as [_ [l ->]].
  rewrite dir_names_app. set_solver.
Qed.

Lemma has_entry_extends dt dt' r : extends dt dt' -> has_entry dt r -> has_entry dt' r.
Proof.
  intros He. unfold has_entry. destruct (He (parentDir r)) as [_ [l ->]].
  rewrite fmap_app. set_solver.
Qed.

Lemma Find_has_entry dt r : is_Some (snd (Find dt r)) <-> has_entry dt r.
Proof.
  unfold Find, has_entry. cbn [snd]. induction (listing dt (parentDir r)) as [|e es IH]; cbn [List.find].
  - split; [by intros [? ?]|]. intros H. by apply not_elem_of_nil in H.
  - rewrite fmap_cons, elem_of_cons, <- IH. destruct (str_eqb (Remote e) r) eqn:E.
    + apply str_eqb_eq in E. split; eauto.
    + apply str_eqb_neq in E. split; [auto|]. intros [|]; [congruence|done].
Qed.

Lemma placed_append dt k e : placed dt -> parentDir (Remote e) = k -> placed (append_entry dt k e).
Proof.
  intros Hp He k' x Hx. apply elem_of_listing_append in Hx as [Hx|[-> ->]]; auto.
Qed.

Lemma dirs_unique_append dt k d :
  dirs_unique dt -> dRemote d ∉ dir_names (listing dt k) ->
  dirs_unique (append_entry dt k (EDir d)).
Proof.
  intros Hu Hn k'. rewrite listing_append. case_decide as Hk; [subst|apply Hu].
  rewrite dir_names_app. apply NoDup_app. split_and!.
  - apply Hu.
  - intros x Hx Hx'. apply list_elem_of_singleton in Hx'. simpl in Hx'. by subst.
  - apply NoDup_singleton.
Qed.

Lemma has_dir_append dt d r :
  has_dir (append_entry dt (parentDir (dRemote d)) (EDir d)) r <-> has_dir dt r \/ r = dRemote d.
Proof.
  unfold has_dir. rewrite listing_append. case_decide as Hk.
  - rewrite Hk, dir_names_app. set_solver.
  - split; [auto|]. intros [?| ->]; done.
Qed.

(** ** [checkParent] *)

(** What [dirs] promises: with a set, that it holds exactly the directories of
    the tree. *)
Definition dirs_ok (dirs : option (gset string)) (dt : DirTree) : Prop :=
  match dirs with Some ds => forall r, r ∈ ds <-> has_dir dt r | None => True end.

(** The test of [checkParent] is true for directories of the tree, and when it
    is true the path has at least an entry; with a set, a directory. *)
Definition found (dirs : option (gset string)) (dt : DirTree) (r : string) : Prop :=
  match dirs with Some _ => has_dir dt r | None => has_entry dt r end.

Lemma has_dir_entry dt r : has_dir dt r -> has_entry dt r.
Proof.
  unfold has_dir, has_entry. rewrite elem_of_dir_names, list_elem_of_fmap.
  intros (d & Hin & <-). by exists (EDir d).
Qed.

Lemma found_extends dirs dt dt' r : extends dt dt' -> found dirs dt r -> found dirs dt' r.
Proof. destruct dirs; [apply has_dir_extends|apply has_entry_extends]. Qed.

(** What a call of [checkParent], and a sequence of them, does to the tree. *)
Record checked (root : string) (dirs : option (gset string)) (dt : DirTree)
    (dirs' : option (gset string)) (dt' : DirTree) : Prop := {
  ck_kind : forall t r, found dirs' t r <-> found dirs t r;
  ck_placed : placed dt';
  ck_dirs : dirs_ok dirs' dt';
  ck_extends : extends dt dt';
  ck_unique : dirs_unique dt -> dirs_unique dt';
  ck_keys : forall k, is_Some (dt' !! k) -> is_Some (dt !! k) \/ k = root \/ found dirs dt' k;
  ck_added : forall k e, e ∈ listing dt' k ->
    e ∈ listing dt k \/ (is_dir e = true /\ below root (Remote e));
}.

Lemma checked_refl root dirs dt :
  placed dt -> dirs_ok dirs dt -> checked root dirs dt dirs dt.
Proof. intros. split; auto. reflexivity. Qed.

Lemma checked_trans root dirs dt dirs1 dt1 dirs2 dt2 :
  checked root dirs dt dirs1 dt1 -> checked root dirs1 dt1 dirs2 dt2 ->
  checked root dirs dt dirs2 dt2.
Proof.
  intros [K1 P1 D1 E1 U1 Y1 A1] [K2 P2 D2 E2 U2 Y2 A2]. split; auto.
  - intros t r. by rewrite K2.
  - by etrans.
  - intros k Hk. destruct (Y2 k Hk) as [H|[H|H]]; [|auto|].
    + destruct (Y1 k H) as [|[|Hf]]; auto. right; right. by apply (found_extends _ dt1).
    + right; right. by apply K1.
  - intros k e He. destruct (A2 k e He); auto.
Qed.

Lemma found_test dirs dt r :
  dirs_ok dirs dt ->
  (match dirs with
   | Some ds => bool_decide (r ∈ ds)
   | None => match snd (Find dt r) with Some _ => true | None => false end
   end) = true <-> found dirs dt r.
Proof.
  destruct dirs as [ds|]; intros Hok; cbn [found].
  - by rewrite bool_decide_eq_true.
  - rewrite <- Find_has_entry. destruct (snd (Find dt r)); split; done.
Qed.

(** One directory made up by [checkParent]. *)
Lemma checked_append now root dirs dt p :
  below root p -> placed dt -> dirs_ok dirs dt -> ~ found dirs dt p ->
  let d := mkDirectory p (now p) in
  let dt' := append_entry dt (parentDir p) (EDir d) in
  let dirs' := match dirs with Some ds => Some ({[p]} ∪ ds) | None => None end in
  placed dt' /\ dirs_ok dirs' dt' /\ extends dt dt' /\ (dirs_unique dt -> dirs_unique dt') /\
  has_dir dt' p /\ (forall t r, found dirs' t r <-> found dirs t r).
Proof.
  intros Hb Hp Hd Hf d dt' dirs'. split_and!.
  - by apply placed_append.
  - subst dirs'. destruct dirs as [ds|]; [|done]. intros r.
    pose proof (has_dir_append dt d r) as H. simpl in H. fold dt' in H. rewrite H.
    simpl in Hd. rewrite elem_of_union, elem_of_singleton, Hd. tauto.
  - apply append_extends.
  - intros Hu. apply dirs_unique_append; [done|]. intros Hin. apply Hf. simpl in Hin.
    destruct dirs; [done|]. by apply has_dir_entry.
  - apply (has_dir_append dt d p). by right.
  - subst dirs'. by destruct dirs.
Qed.

Lemma checkParent_spec now fuel root dirs dt p :
  below root p -> placed dt -> dirs_ok dirs dt ->
  (length (split_on slash p) < fuel \/ (p = root /\ 0 < fuel))%nat ->
  exists dt' dirs', checkParent now fuel root p dirs dt = Some (dt', dirs') /\
    checked root dirs dt dirs' dt' /\ (p = root \/ found dirs dt' p).
Proof.
  revert dirs dt p. induction fuel as [|fuel IH]; intros dirs dt p Hb Hp Hd Hfuel; [lia|].
  cbn [checkParent]. destruct (str_eqb p root) eqn:Er.
  { apply str_eqb_eq in Er as ->. exists dt, dirs. split_and!; auto. by apply checked_refl. }
  apply str_eqb_neq in Er. cbv zeta.
  pose proof (found_test dirs dt p Hd) as Ht.
  destruct (match dirs with Some _ => _ | None => _ end) eqn:Ef.
  { exists dt, dirs. split_and!; auto; [by apply checked_refl|]. right. by apply Ht. }
  assert (Hnf : ~ found dirs dt p) by (intros H%Ht; done).
  destruct (below_split root p Hb) as [|[Hbp Hlen]]; [done|].
  destruct (checked_append now root dirs dt p Hb Hp Hd Hnf) as (P & D & E & U & H & K).
  cbv zeta in P, D, E, U, H, K.
  destruct (IH _ _ (parentDir p) Hbp P D) as (dt' & dirs' & -> & C & F).
  { destruct Hfuel as [Hfuel|[? _]]; [|done].
    pose proof (split_on_nonempty slash p). destruct (split_on slash p); simpl in *; [done|].
    destruct Hlen as [|Hlen]; [left; lia|right; split; [done|lia]]. }
  exists dt', dirs'. split; [done|]. destruct C as [CK CP CD CE CU CY CA].
  assert (Hfp : found dirs dt' p).
  { pose proof (has_dir_extends _ _ _ CE H). destruct dirs; [done|by apply has_dir_entry]. }
  split; [|by right]. split; auto.
  - intros t r. rewrite CK. apply K.
  - by etrans.
  - intros k Hk. destruct (CY k Hk) as [Ha|[|Ha]]; [|auto|right; right; by apply K].
    unfold append_entry in Ha. destruct (decide (parentDir p = k)) as [<-|Hne].
    + destruct F as [F|F]; [auto|]. right; right. by apply K.
    + left. by rewrite lookup_insert_ne in Ha.
  - intros k e He. destruct (CA k e He) as [Ha|]; [|auto].
    apply elem_of_listing_append in Ha as [|[_ ->]]; auto.
Qed.

Lemma check_all_spec now root order dirs dt :
  Forall (below root) order -> placed dt -> dirs_ok dirs dt ->
  exists dt' dirs', check_all now root order dirs dt = Some dt' /\
    checked root dirs dt dirs' dt' /\
    (forall p, p ∈ order -> p = root \/ found dirs dt' p).
Proof.
  intros Hall. revert dirs dt. induction Hall as [|p order Hb Hall IH]; intros dirs dt Hp Hd.
  { exists dt, dirs. split_and!; [done|by apply checked_refl|].
    intros p Hin. by apply not_elem_of_nil in Hin. }
  cbn [check_all].
  destruct (checkParent_spec now (check_fuel p) root dirs dt p) as (dt1 & dirs1 & -> & C1 & F1);
    [done|done|done|left; unfold check_fuel; lia|].
  destruct (IH dirs1 dt1) as (dt2 & dirs2 & -> & C2 & F2); [apply C1|apply C1|].
  exists dt2, dirs2. split_and!; [done|by eapply checked_trans|].
  intros q [->|Hq]%elem_of_cons.
  - destruct F1 as [|F1]; [auto|]. right. eapply found_extends; [apply C2|done].
  - destruct (F2 q Hq) as [|F]; [auto|]. right. by apply C1.
Qed.

(** ** [AddEntry] *)

(** Every directory of the tree but the root has an entry in its parent. *)
Definition complete (dt : DirTree) : Prop :=
  forall k, is_Some (dt !! k) -> k = "" \/ has_entry dt k.

Lemma has_entry_add dt e : has_entry (Add dt e) (Remote e).
Proof.
  unfold has_entry, Add. apply list_elem_of_fmap. exists e. split; [done|].
  apply elem_of_listing_append. auto.
Qed.

(** The tree after the entry itself is added, before its parents are. *)
Lemma add_entry_step dt e :
  placed dt -> Remote e <> "" ->
  let dt1 := match e with EDir _ => AddDir dt e | EObject _ => Add dt e end in
  placed dt1 /\ extends dt dt1 /\ e ∈ listing dt1 (parentDir (Remote e)) /\
  (forall k, is_Some (dt1 !! k) ->
     is_Some (dt !! k) \/ k = parentDir (Remote e) \/ has_entry dt1 k).
Proof.
  intros Hp Hne.
  assert (Hadd : placed (Add dt e) /\ extends dt (Add dt e) /\
    e ∈ listing (Add dt e) (parentDir (Remote e)) /\
    (forall k, is_Some (Add dt e !! k) -> is_Some (dt !! k) \/ k = parentDir (Remote e))).
  { split_and!.
    - by apply placed_append.
    - apply append_extends.
    - apply elem_of_listing_append. auto.
    - intros k. unfold Add, append_entry. destruct (decide (parentDir (Remote e) = k)); [auto|].
      rewrite lookup_insert_ne by done. auto. }
  destruct Hadd as (Ap & Ae & Ai & Ak). destruct e as [o|d].
  { cbv zeta. split_and!; auto. intros k Hk. destruct (Ak k Hk); auto. }
  set (e := EDir d) in *. cbv zeta. unfold AddDir. apply str_eqb_neq in Hne. rewrite Hne.
  destruct (Add dt e !! Remote e) as [es|] eqn:El.
  { split_and!; auto. intros k Hk. destruct (Ak k Hk); auto. }
  assert (Hl : forall k, listing (<[Remote e:=[]]> (Add dt e)) k = listing (Add dt e) k).
  { intros k. unfold listing. destruct (decide (Remote e = k)) as [<-|];
      [by rewrite lookup_insert_eq, El|by rewrite lookup_insert_ne]. }
  split_and!.
  - intros k x. rewrite Hl. apply Ap.
  - intros k. destruct (Ae k) as [H1 H2]. rewrite Hl. split; [|done]. intros Hk.
    destruct (decide (Remote e = k)) as [<-|]; [by rewrite lookup_insert_eq|].
    rewrite lookup_insert_ne by done. auto.
  - by rewrite Hl.
  - intros k Hk. destruct (decide (Remote e = k)) as [<-|].
    + right; right. unfold has_entry. rewrite Hl. apply has_entry_add.
    + rewrite lookup_insert_ne in Hk by done. destruct (Ak k Hk); auto.
Qed.

(** Adding an entry to a tree in which every directory has an entry in
    its parent keeps it so: the missing parents are made up, all the way to
    the root, nothing that was there is moved, and the entry is in the listing
    of its parent. *)
Theorem AddEntry_correct now dt e :
  placed dt -> complete dt -> below "" (Remote e) -> Remote e <> "" ->
  exists dt', AddEntry now dt e = Some dt' /\
    placed dt' /\ complete dt' /\ extends dt dt' /\
    e ∈ listing dt' (parentDir (Remote e)).
Proof.
  intros Hp Hc Hb Hne. unfold AddEntry.
  destruct (add_entry_step dt e Hp Hne) as (P & E & I & Y). cbv zeta in P, E, I, Y.
  set (dt1 := match e with EDir _ => AddDir dt e | EObject _ => Add dt e end) in *. cbv zeta.
  destruct (below_split "" _ Hb) as [|[Hbp _]]; [done|].
  destruct (checkParent_spec now (check_fuel (parentDir (Remote e))) "" None dt1
              (parentDir (Remote e))) as (dt' & dirs' & -> & C & F);
    [done|done|done|left; unfold check_fuel; lia|].
  destruct C as [CK CP CD CE CU CY CA]. exists dt'. split_and!; [done|done| |by etrans|].
  - intros k Hk. destruct (CY k Hk) as [H|[|]]; [|auto|auto].
    destruct (Y k H) as [H1|[->|H1]]; [|exact F|right; by apply (has_entry_extends dt1)].
    destruct (Hc k H1) as [|H2]; [auto|right]. apply (has_entry_extends dt1); [done|].
    by apply (has_entry_extends dt).
  - destruct (CE (parentDir (Remote e))) as [_ [l ->]]. set_solver.
Qed.

(** [CheckParents] ends, whatever the order in which the range visits the
    keys of the map (and whether or not it visits keys added on the way), with
    a tree in which every directory but the root is listed as a directory in
    its parent; the listings only grow, by directories below the root, and no
    directory becomes listed twice. *)
Theorem CheckParents_correct now root order dt :
  placed dt -> Forall (below root) order -> (forall k, is_Some (dt !! k) -> k ∈ order) ->
  exists dt', CheckParents now root order dt = Some dt' /\
    placed dt' /\ extends dt dt' /\ (dirs_unique dt -> dirs_unique dt') /\
    (forall k, is_Some (dt' !! k) -> k = root \/ has_dir dt' k) /\
    (forall k e, e ∈ listing dt' k ->
       e ∈ listing dt k \/ (is_dir e = true /\ below root (Remote e))).
Proof.
  intros Hp Hb Hall. unfold CheckParents.
  destruct (check_all_spec now root order (Some (all_dirs dt)) dt) as (dt' & dirs' & -> & C & F);
    [done|done|intros r; by apply all_dirs_placed|].
  exists dt'. split_and!; [done|apply C|apply C|apply C| |apply C].
  intros k Hk. destruct (ck_keys _ _ _ _ _ C k Hk) as [H|H]; [|done].
  apply (F k), Hall, H.
Qed.

Definition ex_obj (r : string) : DirEntry := EObject (mkObject r 1 0 None true 0).

Lemma AddEntry_correct_witness :
  exists dt', AddEntry (fun _ => 7) ∅ (ex_obj "a/b/c") = Some dt' /\ complete dt' /\
    Dirs dt' = [""; "a"; "a/b"].
Proof.
  destruct (AddEntry_correct (fun _ => 7) ∅ (ex_obj "a/b/c")) as (dt' & H1 & H2 & H3 & H4).
  - intros k e He. by apply not_elem_of_nil in He.
  - intros k [es Hes]. done.
  - exists [], ["a"; "b"; "c"]. split; [constructor|]. split; [|done].
    repeat constructor; done.
  - done.
  - exists dt'. split; [exact H1|]. split; [exact H3|].
    vm_compute in H1. injection H1 as <-. vm_compute. reflexivity.
Defined.

Definition ex_tree : DirTree := {[ "x/y" := [ex_obj "x/y/f"] ]}.

Lemma CheckParents_correct_witness :
  exists dt', CheckParents (fun _ => 7) "" ["x/y"] ex_tree = Some dt' /\
    has_dir dt' "x/y" /\ Dirs dt' = [""; "x"; "x/y"].
Proof.
  destruct (CheckParents_correct (fun _ => 7) "" ["x/y"] ex_tree) as (dt' & H1 & H2 & H3 & _ & H5 & _).
  - intros k e He. unfold listing, ex_tree in He.
    destruct (decide (k = "x/y")) as [->|Hk].
    + rewrite lookup_singleton_eq in He. apply list_elem_of_singleton in He as ->. reflexivity.
    + rewrite lookup_singleton_ne in He by done. by apply not_elem_of_nil in He.
  - constructor; [|constructor]. exists [], ["x"; "y"]. split; [constructor|].
    split; [repeat constructor; done|]. split; reflexivity.
  - intros k Hk. unfold ex_tree in Hk. rewrite lookup_singleton_is_Some in Hk. subst k. set_solver.
  - exists dt'. split; [exact H1|]. split.
    + destruct (H5 "x/y") as [|H]; [|done|exact H].
      apply (H3 "x/y"). unfold ex_tree. rewrite lookup_singleton_eq. by eexists.
    + clear -H1. vm_compute in H1. injection H1 as <-. vm_compute. reflexivity.
Defined.

(** ** [Prune] *)

Definition not_dir (n : string) (e : DirEntry) : Prop :=
  match e with EDir d => dRemote d <> n | EObject _ => True end.

#[export] Instance not_dir_dec n e : Decision (not_dir n e).
Proof. destruct e; apply _. Defined.

Lemma not_dir_names n es : n ∉ dir_names es <-> Forall (not_dir n) es.
Proof.
  rewrite Forall_forall, elem_of_dir_names. split.
  - intros H [o|d] Hin; simpl; [done|]. intros <-. apply H. eauto.
  - intros H (d & Hin & Hd). by apply (H _ Hin).
Qed.

(** Past the directory the scan changes nothing. *)
Lemma prune_scan_rest n todo i arr len :
  (i + todo = length arr)%nat -> Forall (not_dir n) (drop i arr) ->
  prune_scan n todo i arr len = Some (arr, len).
Proof.
  revert i. induction todo as [|todo IH]; intros i Hlen Hall; [done|]. cbn [prune_scan].
  destruct (arr !! i) as [e|] eqn:Ei.
  2:{ apply lookup_ge_None in Ei. lia. }
  rewrite (drop_S _ _ _ Ei) in Hall. apply Forall_cons in Hall as [He Hall].
  destruct e as [o|d]; [apply IH; [lia|done]|].
  simpl in He. apply str_eqb_neq in He. rewrite He. apply IH; [lia|done].
Qed.

(** Removing the directory at position [length pre] moves the last entry there. *)
Lemma prune_hit (pre rest : list DirEntry) e x :
  last (pre ++ e :: rest) = Some x ->
  take (length (pre ++ e :: rest) - 1) (<[length pre := x]> (pre ++ e :: rest)) ≡ₚ pre ++ rest.
Proof.
  intros Hx. rewrite insert_app_r_alt, Nat.sub_diag by lia. simpl.
  destruct rest as [|y r _] using rev_ind.
  { rewrite length_app. simpl. rewrite Nat.add_sub, take_app_length, app_nil_r. done. }
  replace (pre ++ e :: r ++ [y]) with ((pre ++ e :: r) ++ [y]) in Hx by (by rewrite <- app_assoc).
  rewrite last_snoc in Hx. simplify_eq.
  replace (pre ++ x :: r ++ [x]) with ((pre ++ x :: r) ++ [x]) by (by rewrite <- app_assoc).
  rewrite take_app_length'; [|rewrite !length_app; simpl; rewrite length_app; simpl; lia].
  solve_Permutation.
Qed.

Lemma prune_scan_spec n pre rest :
  NoDup (dir_names (pre ++ rest)) -> Forall (not_dir n) pre ->
  exists arr len,
    prune_scan n (length rest) (length pre) (pre ++ rest) (length (pre ++ rest)) = Some (arr, len) /\
    take len arr ≡ₚ filter (not_dir n) (pre ++ rest).
Proof.
  revert pre. induction rest as [|e rest IH]; intros pre Hnd Hpre.
  { exists (pre ++ []), (length (pre ++ [])). split; [done|].
    rewrite app_nil_r in *. by rewrite take_ge, filter_id. }
  cbn [length prune_scan]. rewrite list_lookup_middle by done.
  destruct (decide (not_dir n e)) as [He|He].
  - assert (Hgoal : exists arr len, prune_scan n (length rest) (S (length pre)) (pre ++ e :: rest)
      (length (pre ++ e :: rest)) = Some (arr, len) /\
      take len arr ≡ₚ filter (not_dir n) (pre ++ e :: rest)).
    { destruct (IH (pre ++ [e])) as (arr & len & H1 & H2).
      + by rewrite <- app_assoc.
      + apply Forall_app. split; [done|by constructor].
      + exists arr, len. rewrite <- app_assoc in H1, H2. rewrite length_app in H1. simpl in H1.
        rewrite Nat.add_1_r in H1. split; done. }
    destruct e as [o|d]; [done|]. simpl in He. apply str_eqb_neq in He. by rewrite He.
  - destruct e as [o|d]; [destruct He; exact I|].
    assert (dRemote d = n) as Hd by (simpl in He; by apply dec_stable).
    rewrite Hd, (proj2 (str_eqb_eq n n) eq_refl).
    assert (Hrest : Forall (not_dir n) rest).
    { apply not_dir_names. rewrite dir_names_app in Hnd. apply NoDup_app in Hnd as (_ & _ & Hnd).
      cbn in Hnd. apply NoDup_cons in Hnd as [Hnd _]. by rewrite Hd in Hnd. }
    replace (length (pre ++ EDir d :: rest) - 1)%nat with (pred (length (pre ++ EDir d :: rest))) by lia.
    rewrite <- last_lookup.
    destruct (last (pre ++ EDir d :: rest)) as [x|] eqn:Ex.
    2:{ apply last_None in Ex. by destruct pre. }
    assert (Hlt : (length pre <? length (pre ++ EDir d :: rest))%nat = true).
    { apply Nat.ltb_lt. rewrite length_app. simpl. lia. }
    rewrite Hlt, prune_scan_rest.
    + eexists _, _. split; [done|]. rewrite <- Nat.sub_1_r, prune_hit by done.
      rewrite filter_app, filter_cons_False by done.
      by rewrite !filter_id.
    + rewrite length_insert, length_app. simpl. lia.
    + rewrite drop_insert_lt by lia. rewrite <- (Nat.add_1_r (length pre)), <- drop_drop, drop_app_length.
      done.
Qed.

(** The entries that the first loop keeps. *)
Definition keep (order : list (string * bool)) (e : DirEntry) : Prop :=
  match e with
  | EDir d => ~ ((dRemote d, true) ∈ order /\ dRemote d <> "")
  | EObject _ => True
  end.

#[export] Instance keep_dec order e : Decision (keep order e).
Proof. destruct e; apply _. Defined.

(** [dt1] has the listings of [dt] in some order, less the entries not kept. *)
Definition kept_in (order : list (string * bool)) (dt dt1 : DirTree) : Prop :=
  forall k, option_Forall2 (fun es es1 => es1 ≡ₚ filter (keep order) es) (dt !! k) (dt1 !! k).

Lemma kept_listing order dt dt1 k :
  kept_in order dt dt1 -> listing dt1 k ≡ₚ filter (keep order) (listing dt k).
Proof.
  intros H. specialize (H k). unfold listing. inversion H; simpl; [done|]. by rewrite filter_nil.
Qed.

Lemma filter_keep_nil (es : list DirEntry) : filter (keep []) es = es.
Proof.
  apply filter_id, Forall_forall. intros [o|d] _; simpl; [done|]. intros [H _].
  by apply not_elem_of_nil in H.
Qed.

Lemma kept_in_refl dt : kept_in [] dt dt.
Proof. intros k. destruct (dt !! k); constructor. by rewrite filter_keep_nil. Qed.

Lemma filter_keep_cons p order (es : list DirEntry) :
  filter (keep (p :: order)) es = filter (keep order) (filter (keep [p]) es).
Proof.
  rewrite list_filter_filter. apply list_filter_iff. intros [o|d]; simpl; [done|].
  rewrite elem_of_cons, list_elem_of_singleton. tauto.
Qed.

Lemma dir_names_filter (P : DirEntry -> Prop) `{!forall x, Decision (P x)} (es : list DirEntry) :
  dir_names (filter P es) `sublist_of` dir_names es.
Proof.
  induction es as [|e es IH]; [done|]. rewrite filter_cons. case_decide.
  - destruct e; simpl; [done|]. by apply sublist_skip.
  - destruct e; simpl; [done|]. by apply sublist_cons.
Qed.

Lemma dir_names_perm es es' : es ≡ₚ es' -> dir_names es ≡ₚ dir_names es'.
Proof. intros H. unfold dir_names. by rewrite H. Qed.

Lemma kept_in_wf order dt dt1 :
  kept_in order dt dt1 -> placed dt -> dirs_unique dt -> placed dt1 /\ dirs_unique dt1.
Proof.
  intros H Hp Hu. split.
  - intros k e He. rewrite (kept_listing _ _ _ k H) in He.
    apply list_elem_of_filter in He as [_ He]. by apply Hp.
  - intros k. pose proof (kept_listing _ _ _ k H) as Hk.
    rewrite (dir_names_perm _ _ Hk). eapply sublist_NoDup; [apply Hu|apply dir_names_filter].
Qed.

Lemma keep_one_other n dt k :
  placed dt -> parentDir n <> k -> filter (keep [(n, true)]) (listing dt k) = listing dt k.
Proof.
  intros Hp Hk. apply filter_id, Forall_forall. intros [o|d] He; simpl; [done|].
  intros [Hn _]. apply list_elem_of_singleton in Hn. simplify_eq. by apply Hp in He.
Qed.

Lemma prune_parent_spec n remove dt :
  placed dt -> dirs_unique dt ->
  exists dt1, prune_parent n remove dt = Some dt1 /\ kept_in [(n, remove)] dt dt1.
Proof.
  intros Hp Hu. unfold prune_parent.
  assert (Hsame : (remove = false \/ n = "") -> kept_in [(n, remove)] dt dt).
  { intros Hor k. destruct (dt !! k) as [es|]; constructor. symmetry.
    rewrite filter_id; [done|]. apply Forall_forall. intros [o|d] _; simpl; [done|].
    intros [Hn ?]. apply list_elem_of_singleton in Hn. naive_solver. }
  destruct remove; simpl; [|eauto].
  destruct (str_eqb n "") eqn:En; [apply str_eqb_eq in En; eauto|]. apply str_eqb_neq in En.
  assert (Hother : forall k, parentDir n <> k ->
    option_Forall2 (fun es es1 => es1 ≡ₚ filter (keep [(n, true)]) es) (dt !! k) (dt !! k)).
  { intros k Hk. pose proof (keep_one_other n dt k Hp Hk) as H. unfold listing in H.
    destruct (dt !! k); constructor. simpl in H. by rewrite H. }
  destruct (dt !! parentDir n) as [es|] eqn:Ee.
  - destruct (prune_scan_spec n [] es) as (arr & len & H1 & H2).
    + specialize (Hu (parentDir n)). unfold listing in Hu. by rewrite Ee in Hu.
    + constructor.
    + cbn [length app] in H1, H2. rewrite H1. eexists. split; [done|]. intros k.
      destruct (decide (parentDir n = k)) as [<-|Hk].
      * rewrite Ee, lookup_insert_eq. constructor. rewrite H2.
        rewrite (list_filter_iff (not_dir n) (keep [(n, true)])); [done|]. intros [o|d]; simpl; [done|].
        rewrite list_elem_of_singleton. naive_solver.
      * rewrite lookup_insert_ne by done. auto.
  - eexists. split; [done|]. intros k. destruct (decide (parentDir n = k)) as [<-|Hk]; [|auto].
    rewrite Ee. constructor.
Qed.

Lemma prune_parents_spec order dt :
  placed dt -> dirs_unique dt ->
  exists dt1, prune_parents order dt = Some dt1 /\ kept_in order dt dt1.
Proof.
  revert dt. induction order as [|[n remove] order IH]; intros dt Hp Hu.
  { exists dt. split; [done|]. apply kept_in_refl. }
  cbn [prune_parents]. destruct (prune_parent_spec n remove dt Hp Hu) as (dt1 & -> & K1).
  destruct (kept_in_wf _ _ _ K1 Hp Hu) as [Hp1 Hu1].
  destruct (IH dt1 Hp1 Hu1) as (dt2 & -> & K2). exists dt2. split; [done|].
  intros k. specialize (K1 k). specialize (K2 k).
  destruct (dt !! k), (dt1 !! k); inversion K1; subst; inversion K2; subst; constructor.
  rewrite filter_keep_cons. rewrite H2. by rewrite <- H1.
Qed.

(** The directories that [Prune] has to take out of the tree: those named and
    everything below them. *)
Definition edge (dt : DirTree) (p c : string) : Prop := c ∈ dir_names (listing dt p).

Definition pruned (dt : DirTree) (D : gmap string bool) (k : string) : Prop :=
  exists d, is_Some (D !! d) /\ rtc (edge dt) d k.

Definition all_true (D : gmap string bool) : Prop := forall k b, D !! k = Some b -> b = true.

(** The subdirectories join the map of the directories to remove. *)
Definition add_names (D : gmap string bool) (subs : list string) : gmap string bool :=
  foldl (fun D sub => <[sub := true]> D) D subs.

Lemma lookup_add_names D subs k :
  is_Some (add_names D subs !! k) <-> is_Some (D !! k) \/ k ∈ subs.
Proof.
  unfold add_names. revert D. induction subs as [|s subs IH]; intros D; simpl; [set_solver|].
  rewrite IH, elem_of_cons. destruct (decide (s = k)) as [->|].
  - rewrite lookup_insert_eq. naive_solver.
  - rewrite lookup_insert_ne by done. naive_solver.
Qed.

Lemma all_true_add D subs : all_true D -> all_true (add_names D subs).
Proof.
  unfold add_names. revert D. induction subs as [|s subs IH]; intros D H; simpl; [done|].
  apply IH. intros k b. destruct (decide (s = k)) as [->|].
  - rewrite lookup_insert_eq. naive_solver.
  - rewrite lookup_insert_ne by done. apply H.
Qed.

Lemma size_add_names D subs : (size (add_names D subs) <= size D + length subs)%nat.
Proof.
  unfold add_names. revert D. induction subs as [|s subs IH]; intros D; simpl; [lia|].
  specialize (IH (<[s:=true]> D)). rewrite map_size_insert in IH.
  destruct (D !! s); simpl in IH; lia.
Qed.

(** The number of entries in the tree. *)
Definition entries_in (dt : DirTree) : nat :=
  sum_list_with (fun p => length (snd p)) (map_to_list dt).

Lemma sum_list_with_perm {A} (f : A -> nat) l l' :
  l ≡ₚ l' -> sum_list_with f l = sum_list_with f l'.
Proof. induction 1; simpl; lia. Qed.

Lemma entries_in_delete dt k :
  entries_in dt = (length (listing dt k) + entries_in (delete k dt))%nat.
Proof.
  unfold entries_in, listing. destruct (dt !! k) as [es|] eqn:E; simpl.
  - by rewrite <- (sum_list_with_perm _ _ _ (map_to_list_delete dt k es E)).
  - by rewrite delete_id.
Qed.

Lemma length_dir_names es : (length (dir_names es) <= length es)%nat.
Proof. induction es as [|[o|d] es IH]; simpl in *; lia. Qed.

(** Each round that removes a directory makes this smaller. *)
Definition prune_measure (s : gmap string bool * DirTree) : nat := (size (fst s) + entries_in (snd s))%nat.

Lemma prune_step_decreases s s' :
  all_true (fst s) -> prune_step s s' ->
  all_true (fst s') /\ (prune_measure s' < prune_measure s)%nat.
Proof.
  intros Ht Hs. inversion Hs as [D dt n Hn|D dt n Hn]; subst; simpl in *.
  { by apply Ht in Hn. }
  fold (add_names D (dir_names (listing dt n))). set (subs := dir_names (listing dt n)). split.
  - intros k b Hk. apply lookup_delete_Some in Hk as [_ Hk].
    by apply (all_true_add D subs Ht k).
  - unfold prune_measure. simpl. rewrite (entries_in_delete dt n).
    pose proof (size_add_names D subs). pose proof (length_dir_names (listing dt n)).
    assert (Hin : is_Some (add_names D subs !! n)) by (apply lookup_add_names; left; by eexists).
    rewrite map_size_delete. destruct Hin as [b Hb]. rewrite Hb.
    assert (size (add_names D subs) <> 0)%nat.
    { rewrite map_size_empty_iff. intros He. by rewrite He in Hb. }
    fold subs in H0. lia.
Qed.

(** The state of the second loop: [R] is removed from the tree so far; what is
    below a removed directory is removed or still to be removed. *)
Record pruning (dt0 dt1 : DirTree) (D0 : gmap string bool) (D : gmap string bool) (dt : DirTree)
    (R : gset string) : Prop := {
  pr_tree : forall k, dt !! k = if decide (k ∈ R) then None else dt1 !! k;
  pr_names : forall k, is_Some (D !! k) -> pruned dt0 D0 k;
  pr_removed : forall k, k ∈ R -> pruned dt0 D0 k;
  pr_start : forall k, is_Some (D0 !! k) -> k ∈ R \/ is_Some (D !! k);
  pr_closed : forall p c, p ∈ R -> edge dt0 p c -> c ∈ R \/ is_Some (D !! c);
}.

Lemma pruning_step dt0 dt1 D0 D dt R s' :
  (forall p c, edge dt1 p c -> edge dt0 p c) ->
  (forall p c, edge dt0 p c -> edge dt1 p c \/ is_Some (D0 !! c)) ->
  all_true D -> pruning dt0 dt1 D0 D dt R -> prune_step (D, dt) s' ->
  exists R', pruning dt0 dt1 D0 (fst s') (snd s') R'.
Proof.
  intros H10 H01 Ht [Pt Pn Pr Ps Pc] Hs. inversion Hs as [? ? n Hn|? ? n Hn]; subst; simpl.
  { by apply Ht in Hn. }
  fold (add_names D (dir_names (listing dt n))). set (subs := dir_names (listing dt n)).
  assert (HD : forall k, is_Some (D !! k) \/ k ∈ subs ->
    k ∈ R ∪ {[n]} \/ is_Some (delete n (add_names D subs) !! k)).
  { intros k Hk. destruct (decide (n = k)) as [->|]; [set_solver|]. right.
    rewrite lookup_delete_ne by done. by apply lookup_add_names. }
  assert (Hnp : pruned dt0 D0 n) by (apply Pn; by eexists).
  assert (Hsub : forall c, c ∈ subs -> edge dt1 n c /\ n ∉ R).
  { intros c Hc. unfold subs, listing in Hc. rewrite Pt in Hc.
    case_decide as Hd; [by apply not_elem_of_nil in Hc|]. unfold edge, listing. done. }
  exists (R ∪ {[n]}). split.
  - intros k. destruct (decide (n = k)) as [->|].
    + rewrite lookup_delete_eq, decide_True by set_solver. done.
    + rewrite lookup_delete_ne, Pt by done. repeat case_decide; set_solver.
  - intros k [b Hk]. apply lookup_delete_Some in Hk as [_ Hk].
    destruct (proj1 (lookup_add_names D subs k)) as [|Hk']; [by eexists|auto|].
    destruct Hnp as (d & Hd & Hr). exists d. split; [done|].
    eapply rtc_r; [done|]. apply H10. by apply Hsub.
  - intros k [Hk| ->%elem_of_singleton]%elem_of_union; auto.
  - intros k Hk. destruct (Ps k Hk); [set_solver|auto].
  - intros p c [Hp| ->%elem_of_singleton]%elem_of_union Hpc.
    + destruct (Pc p c Hp Hpc); [set_solver|auto].
    + destruct (decide (n ∈ R)) as [HnR|HnR].
      { destruct (Pc n c HnR Hpc); [set_solver|auto]. }
      destruct (H01 n c Hpc) as [He|He].
      * apply HD. right. unfold subs, listing. rewrite Pt, decide_False by done. exact He.
      * destruct (Ps c He); [set_solver|auto].
Qed.

Lemma pruning_done dt0 dt1 D0 dt R :
  pruning dt0 dt1 D0 ∅ dt R ->
  forall k, (pruned dt0 D0 k -> dt !! k = None) /\ (~ pruned dt0 D0 k -> dt !! k = dt1 !! k).
Proof.
  intros [Pt Pn Pr Ps Pc] k.
  assert (Hall : forall d, rtc (edge dt0) d k -> d ∈ R -> k ∈ R).
  { intros d Hr. induction Hr as [|x y z Hxy _ IH]; [done|]. intros Hx. apply IH.
    destruct (Pc x y Hx Hxy) as [|[? Hl]]; done. }
  split.
  - intros (d & Hd & Hr). rewrite Pt, decide_True; [done|]. apply (Hall d Hr).
    destruct (Ps d Hd) as [|[? Hl]]; done.
  - intros Hn. rewrite Pt, decide_False; [done|]. auto.
Qed.

Lemma pruning_init dt0 dt1 D0 : pruning dt0 dt1 D0 D0 dt1 ∅.
Proof.
  split; try set_solver.
  intros k Hk. exists k. by split.
Qed.

Lemma prune_run dt0 dt1 D0 n s s' :
  (forall p c, edge dt1 p c -> edge dt0 p c) ->
  (forall p c, edge dt0 p c -> edge dt1 p c \/ is_Some (D0 !! c)) ->
  all_true (fst s) -> (exists R, pruning dt0 dt1 D0 (fst s) (snd s) R) -> nsteps prune_step n s s' ->
  (n + prune_measure s' <= prune_measure s)%nat /\ all_true (fst s') /\
  exists R, pruning dt0 dt1 D0 (fst s') (snd s') R.
Proof.
  intros H10 H01. intros Ht HR Hn. induction Hn as [s|n s s1 s' Hs _ IH]; [split_and!; [lia|done|done]|].
  destruct (prune_step_decreases s s1 Ht Hs) as [Ht1 Hlt].
  destruct HR as [R HR]. destruct s as [D dt].
  destruct (pruning_step dt0 dt1 D0 D dt R s1 H10 H01 Ht HR Hs) as [R1 HR1].
  destruct IH as (Hm & Ht' & HR'); [done|by exists R1|]. split_and!; [lia|done|done].
Qed.

Lemma prune_progress s : all_true (fst s) -> fst s <> ∅ -> exists s', prune_step s s'.
Proof.
  destruct s as [D dt]. simpl. intros Ht Hne. apply map_choose in Hne as (k & b & Hk).
  pose proof (Ht k b Hk). subst b. eexists. by apply (prune_dir D dt k).
Qed.

Lemma prune_ends s :
  all_true (fst s) -> exists dt', rtc prune_step s (∅, dt').
Proof.
  remember (prune_measure s) as m eqn:Hm. revert s Hm.
  induction m as [m IH] using lt_wf_ind. intros s -> Ht.
  destruct (decide (fst s = ∅)) as [He|Hne].
  { exists (snd s). destruct s as [D dt]. simpl in *. by subst. }
  destruct (prune_progress s Ht Hne) as [s1 Hs].
  destruct (prune_step_decreases s s1 Ht Hs) as [Ht1 Hlt].
  destruct (IH _ Hlt s1 eq_refl Ht1) as [dt' Hr]. exists dt'. by eapply rtc_l.
Qed.

Lemma kept_edges D dt dt1 order :
  order ≡ₚ map_to_list D -> all_true D -> kept_in order dt dt1 ->
  (forall p c, edge dt1 p c -> edge dt p c) /\
  (forall p c, edge dt p c -> edge dt1 p c \/ is_Some (D !! c)).
Proof.
  intros Hord Ht K. unfold edge. split; intros p c; rewrite !elem_of_dir_names.
  - intros (d & Hin & Hd). exists d. split; [|done]. rewrite (kept_listing _ _ _ p K) in Hin.
    by apply list_elem_of_filter in Hin as [_ ?].
  - intros (d & Hin & <-). destruct (decide (keep order (EDir d))) as [Hk|Hk].
    + left. exists d. split; [|done]. rewrite (kept_listing _ _ _ p K).
      by apply list_elem_of_filter.
    + right. simpl in Hk. apply dec_stable in Hk as [Hk _]. rewrite Hord in Hk.
      apply elem_of_map_to_list in Hk. by eexists.
Qed.

(** A directory left in the tree does not refer to one that was taken out. *)
Lemma no_dangling dt D dt1 order k d :
  placed dt -> order ≡ₚ map_to_list D -> all_true D -> kept_in order dt dt1 ->
  ~ pruned dt D k -> EDir d ∈ listing dt1 k -> ~ pruned dt D (dRemote d).
Proof.
  intros Hp Hord Ht K Hk Hin (d0 & Hd0 & Hr). rewrite (kept_listing _ _ _ k K) in Hin.
  apply list_elem_of_filter in Hin as [Hkeep Hin].
  assert (Hpar : parentDir (dRemote d) = k) by (by apply (Hp k (EDir d))).
  apply rtc_inv_r in Hr as [->|(p & Hr & He)].
  - destruct Hd0 as [b Hb]. pose proof (Ht _ _ Hb). subst b. simpl in Hkeep.
    apply elem_of_map_to_list in Hb as Hb'. rewrite <- Hord in Hb'.
    destruct (decide (dRemote d = "")) as [He|]; [|by apply Hkeep].
    rewrite He in Hpar. change (parentDir "") with "" in Hpar. subst k. apply Hk.
    exists "". rewrite He in Hb. split; [by eexists|done].
  - apply elem_of_dir_names in He as (d' & Hin' & He').
    apply Hp in Hin'. simpl in Hin'. apply Hk. exists d0. split; [done|].
    rewrite <- Hpar, <- He', Hin'. done.
Qed.

(** C16: on a tree with every entry in its place and no directory listed twice,
    and for every order in which the maps are traversed, [Prune] does not
    panic, ends after at most as many rounds as there are names and entries,
    and leaves exactly the directories that are neither named nor below a
    named one; their listings lose the named directories only, and nothing
    that is left refers to a directory that was taken out. *)
Theorem Prune_correct D order dt :
  placed dt -> dirs_unique dt -> all_true D -> order ≡ₚ map_to_list D ->
  exists dt1, prune_parents order dt = Some dt1 /\
    (exists dt', Prune D order dt dt') /\
    (forall n s, nsteps prune_step n (D, dt1) s ->
       (n <= size D + entries_in dt1)%nat /\ (fst s <> ∅ -> exists s', prune_step s s')) /\
    (forall dt', Prune D order dt dt' -> forall k,
       (pruned dt D k -> dt' !! k = None) /\
       (~ pruned dt D k ->
          option_Forall2 (fun es es' => es' ≡ₚ filter (keep order) es) (dt !! k) (dt' !! k) /\
          (forall d, EDir d ∈ listing dt' k -> ~ pruned dt D (dRemote d)))).
Proof.
  intros Hp Hu Ht Hord. destruct (prune_parents_spec order dt Hp Hu) as (dt1 & H1 & K).
  destruct (kept_edges D dt dt1 order Hord Ht K) as [H10 H01].
  assert (Hinit : exists R, pruning dt dt1 D D dt1 R) by (exists ∅; apply pruning_init).
  exists dt1. split_and!; [done| | |].
  - destruct (prune_ends (D, dt1) Ht) as [dt' Hr]. by exists dt', dt1.
  - intros n s Hn. destruct (prune_run dt dt1 D n (D, dt1) s H10 H01 Ht Hinit Hn) as (Hm & Hts & _).
    split; [unfold prune_measure in Hm; simpl in Hm; lia|]. by apply prune_progress.
  - intros dt' (dt1' & H1' & Hr) k. rewrite H1 in H1'. simplify_eq.
    apply rtc_nsteps in Hr as [n Hn].
    destruct (prune_run dt dt1' D n (D, dt1') (∅, dt') H10 H01 Ht Hinit Hn) as (_ & _ & R & HR).
    destruct (pruning_done dt dt1' D dt' R HR k) as [Ha Hb]. split; [exact Ha|]. intros Hk.
    rewrite (Hb Hk). split; [apply K|]. intros d Hd.
    eapply (no_dangling dt D dt1' order k); try done. unfold listing in *. by rewrite Hb in Hd.
Qed.

Definition ex_d (r : string) : DirEntry := EDir (mkDirectory r 0).
Definition ex_prune : DirTree := {[ "" := [ex_d "a"; ex_obj "f"] ]}.

Lemma Prune_correct_witness :
  exists dt', Prune {[ "a" := true ]} [("a", true)] ex_prune dt' /\
    (forall d, EDir d ∈ listing dt' "b" -> ~ pruned ex_prune {[ "a" := true ]} (dRemote d)).
Proof.
  destruct (Prune_correct {[ "a" := true ]} [("a", true)] ex_prune)
    as (dt1 & H1 & (dt' & H2) & H3 & H4).
  - intros k e He. unfold listing, ex_prune in He. destruct (decide (k = "")) as [->|Hk].
    + rewrite lookup_singleton_eq in He. simpl in He.
      apply elem_of_cons in He as [->|He]; [reflexivity|].
      apply list_elem_of_singleton in He as ->. reflexivity.
    + rewrite lookup_singleton_ne in He by done. by apply not_elem_of_nil in He.
  - intros k. unfold listing, ex_prune. destruct (decide (k = "")) as [->|Hk].
    + rewrite lookup_singleton_eq. apply NoDup_singleton.
    + rewrite lookup_singleton_ne by done. constructor.
  - intros k b Hk. apply lookup_singleton_Some in Hk as [_ <-]. reflexivity.
  - rewrite map_to_list_singleton. reflexivity.
  - exists dt'. split; [exact H2|]. apply (H4 dt' H2 "b"). intros (d & Hd & Hr).
    apply lookup_singleton_is_Some in Hd as <-.
    apply rtc_inv in Hr as [Hr|(y & Hy & _)]; [discriminate Hr|].
    unfold edge, listing, ex_prune in Hy. rewrite lookup_singleton_ne in Hy by done.
    by apply not_elem_of_nil in Hy.
Defined.

(** When a directory is listed twice and the last entry of the listing is
    that directory, the first loop of [Prune] indexes past the end of the
    slice it has just shortened: the [break] meant to end the iteration leaves
    only the [switch]. *)
Theorem Prune_duplicate_panics dName (mid : list DirEntry) d1 d2 :
  dRemote d1 = dName -> dRemote d2 = dName -> dName <> "" -> Forall (not_dir dName) mid ->
  prune_parent dName true {[ parentDir dName := EDir d1 :: mid ++ [EDir d2] ]} = None.
Proof.
  intros H1 H2 Hne Hmid. unfold prune_parent. apply str_eqb_neq in Hne. rewrite Hne.
  rewrite lookup_singleton_eq. cbn [negb]. rewrite length_cons. cbn [prune_scan lookup list_lookup].
  rewrite (proj2 (str_eqb_eq _ _) H1).
  change (EDir d1 :: mid ++ [EDir d2]) with ((EDir d1 :: mid) ++ [EDir d2]).
  rewrite list_lookup_middle by (rewrite length_app; simpl; lia).
  rewrite length_app. cbn [length]. rewrite (proj2 (Nat.ltb_lt _ _)) by lia.
  change (<[0%nat:=EDir d2]> ((EDir d1 :: mid) ++ [EDir d2])) with ([EDir d2] ++ mid ++ [EDir d2]).
  enough (Hloop : forall pre, prune_scan dName (length mid + 1) (length pre) (pre ++ mid ++ [EDir d2])
            (length pre + length mid) = None).
  { specialize (Hloop [EDir d2]). cbn [length] in Hloop.
    replace (S (length mid + 1) - 1)%nat with (1 + length mid)%nat by lia. by rewrite Hloop. }
  induction Hmid as [|e mid He Hmid IH]; intros pre.
  - cbn [length Nat.add prune_scan app]. rewrite list_lookup_middle by done.
    rewrite (proj2 (str_eqb_eq _ _) H2). rewrite Nat.add_0_r.
    rewrite (proj2 (Nat.ltb_ge _ _)) by lia. by destruct (_ !! _).
  - cbn [length Nat.add prune_scan app]. rewrite list_lookup_middle by done.
    specialize (IH (pre ++ [e])). rewrite <- app_assoc, length_app in IH.
    replace (length pre + length [e])%nat with (S (length pre)) in IH by (simpl; lia).
    replace (length pre + S (length mid))%nat with (S (length pre) + length mid)%nat by lia.
    destruct e as [o|d]; [exact IH|]. simpl in He. apply str_eqb_neq in He. rewrite He. exact IH.
Qed.

Lemma Prune_duplicate_panics_witness :
  prune_parent "x" true {[ "" := [ex_d "x"; ex_d "x"] ]} = None.
Proof.
  apply (Prune_duplicate_panics "x" [] (mkDirectory "x" 0) (mkDirectory "x" 0)).
  - reflexivity.
  - reflexivity.
  - discriminate.
  - constructor.
Defined.

End DirTree.
