(* ===== verification/Pipe.v ===== *)
(** * Pipe: the backlog between the stages of a sync (fs/sync/pipe.go)

    A pipe is an unbounded queue of object pairs guarded by a mutex, and a
    channel [c] that carries one token per queued pair.  [Put] pushes the pair
    under the lock and then sends the token, which blocks when [maxBacklog]
    tokens are waiting; [GetMax] receives a token and then pops a pair under
    the lock.  Between the two halves of an operation other goroutines run:
    [pipe_step] interleaves the halves in every way.

    With --order-by the queue is a double-ended heap of the package
    github.com/aalpar/deheap, which is a parameter here: the class [Deheap]
    states what the package documents of [Push], [Pop] and [PopMax].  The
    instance [selection] at the end is a plain implementation on top of the
    pipe's own [Len], [Less], [Swap], [Push] and [Pop]. *)
From S2P Require Import Prelude GoPath Entries.

Module Pipe.
Import GoPath Entries.

Record ObjectPair := mkPair { Src : Object; Dst : option Object }.

#[export] Instance ObjectPair_eq_dec : EqDecision ObjectPair.
Proof. solve_decision. Defined.

Definition lessFn := ObjectPair -> ObjectPair -> bool.

(** ** [newLess] *)

Inductive order_error :=
| PatternNoGlob
| EmptyGlob
| BadGlob (glob : string)
| UnknownComparison (what : string)
| BadFraction (what : string)
| UnknownDirection (what : string)
| BadOrderBy (what : string).

Definition less_name : lessFn := fun a b => str_ltb (oRemote (Src a)) (oRemote (Src b)).
Definition less_size : lessFn := fun a b => oSize (Src a) <? oSize (Src b).
Definition less_modtime : lessFn := fun a b => oModTime (Src a) <? oModTime (Src b).

Section new_less.
(** [filter.GlobPathToRegexp(glob, false)] and [re.MatchString]. *)
Variable GlobPathToRegexp : string -> option (string -> bool).

Fixpoint rank_from (i : Z) (matches : list (string -> bool)) (remote : string) : Z :=
  match matches with
  | [] => i
  | m :: ms => if m remote then i else rank_from (i + 1) ms remote
  end.

Definition rank (matches : list (string -> bool)) (remote : string) : Z := rank_from 0 matches remote.

Definition less_pattern (matches : list (string -> bool)) : lessFn := fun a b =>
  let aRank := rank matches (oRemote (Src a)) in
  let bRank := rank matches (oRemote (Src b)) in
  if negb (aRank =? bRank) then aRank <? bRank
  else str_ltb (oRemote (Src a)) (oRemote (Src b)).

Fixpoint compile_globs (globs : list string) : sum order_error (list (string -> bool)) :=
  match globs with
  | [] => inr []
  | glob :: globs' =>
      if str_eqb glob "" then inl EmptyGlob
      else match GlobPathToRegexp glob with
           | None => inl (BadGlob glob)
           | Some re =>
               match compile_globs globs' with
               | inl err => inl err
               | inr ms => inr (re :: ms)
               end
           end
  end.

(** The switch on the direction: whether it is descending, and the fraction. *)
Definition order_direction (rest : list string) : sum order_error (bool * Z) :=
  match rest with
  | [] => inr (false, -1)
  | dir :: more =>
      let dir' := to_lower dir in
      if str_eqb dir' "ascending" || str_eqb dir' "asc" then inr (false, -1)
      else if str_eqb dir' "descending" || str_eqb dir' "desc" then inr (true, -1)
      else if str_eqb dir' "mixed" then
        match more with
        | [] => inr (false, 50)
        | f :: _ => match Atoi f with Some n => inr (false, n) | None => inl (BadFraction f) end
        end
      else inl (UnknownDirection dir)
  end.

(** [newLess]: an error, no comparison, or a comparison and the fraction. *)
Definition newLess (orderBy : string) : sum order_error (option lessFn * Z) :=
  if str_eqb orderBy "" then inr (None, -1)
  else
    let parts := split_on ","%char orderBy in
    let first := default "" (head parts) in
    let finish (less : lessFn) :=
      match order_direction (tail parts) with
      | inl err => inl err
      | inr (descending, fraction) =>
          if ((0 <=? fraction) && (3 <? length parts)%nat)
             || ((fraction <? 0) && (2 <? length parts)%nat)
          then inl (BadOrderBy orderBy)
          else inr (Some (if descending then fun a b => negb (less a b) else less), fraction)
      end in
    let first' := to_lower first in
    if str_eqb first' "name" then finish less_name
    else if str_eqb first' "size" then finish less_size
    else if str_eqb first' "modtime" then finish less_modtime
    else if str_eqb first' "pattern" then
      if (length parts <? 2)%nat then inl PatternNoGlob
      else match compile_globs (tail parts) with
           | inl err => inl err
           | inr matches => inr (Some (less_pattern matches), -1)
           end
    else inl (UnknownComparison first).
End new_less.

(** ** The pipe's heap interface *)

(** [p.queue[i], p.queue[j]] are read with a panic when out of range. *)
Definition Less (less : lessFn) (queue : list ObjectPair) (i j : nat) : option bool :=
  match queue !! i, queue !! j with
  | Some a, Some b => Some (less a b)
  | _, _ => None
  end.

Definition Swap (queue : list ObjectPair) (i j : nat) : option (list ObjectPair) :=
  match queue !! i, queue !! j with
  | Some a, Some b => Some (<[j := a]> (<[i := b]> queue))
  | _, _ => None
  end.

Definition Push (queue : list ObjectPair) (item : ObjectPair) : list ObjectPair := queue ++ [item].

Definition Pop (queue : list ObjectPair) : option (ObjectPair * list ObjectPair) :=
  match last queue with
  | Some item => Some (item, take (length queue - 1) queue)
  | None => None
  end.

(** A comparison that a heap can use: a strict weak order, or the complement
    of one the other way round (which compares equal elements as [true]). *)
Definition ordering (less : lessFn) : Prop :=
  WeakOrder less \/ WeakOrder (fun a b => negb (less b a)).

(** [a] must come before [b]. *)
Definition before (less : lessFn) (a b : ObjectPair) : Prop := less a b = true /\ less b a = false.

(** The package deheap: [dh_inv] is the heap property of the slice. *)
Class Deheap := {
  dh_inv : lessFn -> list ObjectPair -> Prop;
  dh_Push : lessFn -> list ObjectPair -> ObjectPair -> list ObjectPair;
  dh_Pop : lessFn -> list ObjectPair -> option (ObjectPair * list ObjectPair);
  dh_PopMax : lessFn -> list ObjectPair -> option (ObjectPair * list ObjectPair);
  dh_inv_nil less : dh_inv less [];
  dh_Push_spec less q x :
    ordering less -> dh_inv less q ->
    dh_Push less q x ≡ₚ x :: q /\ dh_inv less (dh_Push less q x);
  dh_Pop_spec less q :
    ordering less -> dh_inv less q -> q <> [] ->
    exists x q', dh_Pop less q = Some (x, q') /\ q ≡ₚ x :: q' /\ dh_inv less q' /\
      (forall y, y ∈ q' -> ~ before less y x);
  dh_PopMax_spec less q :
    ordering less -> dh_inv less q -> q <> [] ->
    exists x q', dh_PopMax less q = Some (x, q') /\ q ≡ₚ x :: q' /\ dh_inv less q' /\
      (forall y, y ∈ q' -> ~ before less x y);
}.

(** ** The pipe *)

Record pipe := mkPipe {
  c : nat;                       (* tokens in the channel *)
  c_cap : Z;                     (* its capacity *)
  queue : list ObjectPair;
  closed : bool;
  totalSize : Z;
  stats : list (Z * Z);          (* calls of [p.stats], last first *)
  less : option lessFn;
  fraction : Z;
}.

Section pipe_ops.
Context `{!Deheap}.

Definition newPipe (glob : string -> option (string -> bool)) (orderBy : string) (maxBacklog : Z)
  : sum order_error pipe :=
  let maxBacklog := if maxBacklog <? 0 then i64_max else maxBacklog in
  match newLess glob orderBy with
  | inl err => inl err
  | inr (less, fraction) => inr (mkPipe 0 maxBacklog [] false 0 [] less fraction)
  end.

(** What a pair counts for in [totalSize]: nothing when its size is not
    positive or when [Src == Dst]. *)
Definition pair_size (pair : ObjectPair) : Z :=
  let size := oSize (Src pair) in
  if (0 <? size) && bool_decide (Some (Src pair) <> Dst pair) then size else 0.

Definition set_queue (p : pipe) (q : list ObjectPair) (total : Z) : pipe :=
  mkPipe (c p) (c_cap p) q (closed p) total
    ((Z.of_nat (length q), total) :: stats p) (less p) (fraction p).

(** The part of [Put] under the lock. *)
Definition put_locked (p : pipe) (pair : ObjectPair) : pipe :=
  let q := match less p with
           | None => queue p ++ [pair]
           | Some l => dh_Push l (queue p) pair
           end in
  set_queue p q (i64 (totalSize p + pair_size pair)).

(** The part of [GetMax] under the lock, [None] when the queue is empty. *)
Definition get_locked (p : pipe) (frac : Z) : option (ObjectPair * pipe) :=
  let popped :=
    match less p with
    | None => match queue p with [] => None | x :: q => Some (x, q) end
    | Some l =>
        if (fraction p <? 0) || (frac <? fraction p) then dh_Pop l (queue p)
        else dh_PopMax l (queue p)
    end in
  match popped with
  | None => None
  | Some (item, q) =>
      let total := i64 (totalSize p - pair_size item) in
      let total := if total <? 0 then 0 else total in
      Some (item, set_queue p q total)
  end.

Definition set_tokens (p : pipe) (n : nat) : pipe :=
  mkPipe n (c_cap p) (queue p) (closed p) (totalSize p) (stats p) (less p) (fraction p).

Definition Stats (p : pipe) : Z * Z := (Z.of_nat (length (queue p)), totalSize p).

Definition set_closed (p : pipe) : pipe :=
  mkPipe (c p) (c_cap p) (queue p) true (totalSize p) (stats p) (less p) (fraction p).

(** *** Interleavings

    [putting]: pairs pushed whose token is not sent yet.  [stranded]: pairs
    whose [Put] returned false because the context was cancelled while it
    waited to send.  [getting]: the [fraction] arguments of the calls of
    [GetMax] that hold a token.  [put_log] and [got_log] record the pairs. *)
Record pstate := mkPState {
  pp : pipe;
  putting : nat;
  stranded : nat;
  getting : list Z;
  put_log : list ObjectPair;
  got_log : list ObjectPair;
}.

Inductive panic := SendOnClosed | CloseOfClosed | IndexOutOfRange.

Inductive pipe_step : pstate -> pstate + panic -> Prop :=
| step_put p n st g pl gl pair :
    pipe_step (mkPState p n st g pl gl)
      (inl (mkPState (put_locked p pair) (S n) st g (pair :: pl) gl))
| step_send p n st g pl gl :
    closed p = false -> Z.of_nat (c p) < c_cap p ->
    pipe_step (mkPState p (S n) st g pl gl)
      (inl (mkPState (set_tokens p (S (c p))) n st g pl gl))
| step_send_closed p n st g pl gl :
    closed p = true ->
    pipe_step (mkPState p (S n) st g pl gl) (inr SendOnClosed)
| step_send_cancelled p n st g pl gl :
    pipe_step (mkPState p (S n) st g pl gl) (inl (mkPState p n (S st) g pl gl))
| step_receive p n st g pl gl k frac :
    c p = S k ->
    pipe_step (mkPState p n st g pl gl) (inl (mkPState (set_tokens p k) n st (frac :: g) pl gl))
| step_rendezvous p n st g pl gl frac :
    closed p = false -> c p = O ->
    pipe_step (mkPState p (S n) st g pl gl) (inl (mkPState p n st (frac :: g) pl gl))
| step_pop p n st g1 frac g2 pl gl pair p' :
    get_locked p frac = Some (pair, p') ->
    pipe_step (mkPState p n st (g1 ++ frac :: g2) pl gl)
      (inl (mkPState p' n st (g1 ++ g2) pl (pair :: gl)))
| step_pop_panic p n st g1 frac g2 pl gl :
    get_locked p frac = None ->
    pipe_step (mkPState p n st (g1 ++ frac :: g2) pl gl) (inr IndexOutOfRange)
| step_close p n st g pl gl :
    closed p = false ->
    pipe_step (mkPState p n st g pl gl) (inl (mkPState (set_closed p) n st g pl gl))
| step_close_closed p n st g pl gl :
    closed p = true ->
    pipe_step (mkPState p n st g pl gl) (inr CloseOfClosed).

Definition initial (p : pipe) : pstate := mkPState p 0 0 [] [] [].

Inductive reachable (s0 : pstate) : pstate -> Prop :=
| reach_refl : reachable s0 s0
| reach_step s s' : reachable s0 s -> pipe_step s (inl s') -> reachable s0 s'.

End pipe_ops.

(** ** The comparisons *)

Lemma ltb_weak : WeakOrder Z.ltb.
Proof.
  split.
  - apply Z.ltb_irrefl.
  - intros x y z. rewrite !Z.ltb_lt. lia.
  - intros x y z. rewrite !Z.ltb_ge. lia.
Qed.

Lemma flip_weak (l : lessFn) : WeakOrder l -> WeakOrder (fun a b => negb (negb (l b a))).
Proof.
  intros H. split; intros *; rewrite !negb_involutive.
  - apply less_irrefl, H.
  - intros H1 H2. by apply (less_trans l z y x).
  - intros H1 H2. by apply (less_incomp_trans l z y x).
Qed.

Lemma less_pattern_weak ms : WeakOrder (less_pattern ms).
Proof.
  pose proof str_ltb_weak as Hs. unfold less_pattern. split; intros *; cbv zeta.
  - rewrite Z.eqb_refl. simpl. apply less_irrefl, Hs.
  - intros H1 H2. repeat case_if_in H1; repeat case_if_in H2; case_if; breflect; try lia.
    by eapply less_trans.
  - intros H1 H2. repeat case_if_in H1; repeat case_if_in H2; case_if; breflect; try lia;
      try (apply Z.ltb_ge; lia).
    by eapply less_incomp_trans.
Qed.

Lemma less_name_weak : WeakOrder less_name.
Proof. apply (WeakOrder_key (fun p => oRemote (Src p)) str_ltb), str_ltb_weak. Qed.

Lemma less_size_weak : WeakOrder less_size.
Proof. apply (WeakOrder_key (fun p => oSize (Src p)) Z.ltb), ltb_weak. Qed.

Lemma less_modtime_weak : WeakOrder less_modtime.
Proof. apply (WeakOrder_key (fun p => oModTime (Src p)) Z.ltb), ltb_weak. Qed.

(** What [newLess] returns when it accepts its argument. *)
Inductive accepted : lessFn -> Z -> Prop :=
| acc_weak l f : WeakOrder l -> -1 <= f -> accepted l f
| acc_desc l : WeakOrder l -> accepted (fun a b => negb (l a b)) (-1).

Lemma order_direction_fraction rest desc f :
  order_direction rest = inr (desc, f) -> (desc = true -> f = -1) /\ (f < -1 -> (1 < length rest)%nat).
Proof.
  destruct rest as [|dir rest]; simpl; [intros; simplify_eq; split; [done|lia]|].
  case_if; [intros; simplify_eq; split; [done|lia]|].
  case_if; [intros; simplify_eq; split; [done|lia]|].
  case_if; [|done]. destruct rest as [|x rest]; [intros; simplify_eq; split; [done|lia]|].
  destruct (Atoi x); intros; simplify_eq. split; [done|]. simpl. lia.
Qed.

Lemma newLess_accepted glob orderBy l f :
  newLess glob orderBy = inr (Some l, f) -> accepted l f.
Proof.
  unfold newLess. case_if; [done|].
  set (parts := split_on _ _).
  assert (Hfin : forall less0, WeakOrder less0 ->
    match order_direction (tail parts) with
    | inl err => inl err
    | inr (descending, fraction) =>
        if ((0 <=? fraction) && (3 <? length parts)%nat) || ((fraction <? 0) && (2 <? length parts)%nat)
        then inl (BadOrderBy orderBy)
        else inr (Some (if descending then fun a b => negb (less0 a b) else less0), fraction)
    end = inr (Some l, f) -> accepted l f).
  { intros less0 Hw. destruct (order_direction (tail parts)) as [err|[desc fr]] eqn:Ed; [done|].
    apply order_direction_fraction in Ed as [Hd Hf].
    case_if; [done|]. intros [= <- <-]. destruct desc.
    - rewrite Hd by done. by constructor.
    - constructor; [done|]. destruct (decide (fr < -1)) as [Hlt|]; [|lia]. exfalso.
      specialize (Hf Hlt). assert ((fr <? 0) = true) as Hz by (apply Z.ltb_lt; lia).
      rewrite Hz in *. destruct parts; simpl in *; [lia|]. breflect. lia. }
  cbv zeta. case_if; [apply Hfin, less_name_weak|].
  case_if; [apply Hfin, less_size_weak|]. case_if; [apply Hfin, less_modtime_weak|].
  case_if; [|done]. case_if; [done|]. destruct (compile_globs _ _); [done|].
  intros [= <- <-]. constructor; [apply less_pattern_weak|lia].
Qed.

Lemma accepted_ordering l f : accepted l f -> ordering l.
Proof.
  intros [l' f' H _|l' H]; [by left|]. right. by apply flip_weak.
Qed.

(** ** The invariant of the pipe *)

Definition sum_sizes (l : list ObjectPair) : Z := foldr (fun p acc => pair_size p + acc) 0 l.

Lemma sum_sizes_app l1 l2 : sum_sizes (l1 ++ l2) = sum_sizes l1 + sum_sizes l2.
Proof. induction l1; simpl; [done|]. lia. Qed.

Lemma sum_sizes_perm l1 l2 : l1 ≡ₚ l2 -> sum_sizes l1 = sum_sizes l2.
Proof. induction 1; simpl; lia. Qed.

Lemma pair_size_nonneg p : 0 <= pair_size p.
Proof. unfold pair_size. case_if; lia. Qed.

Lemma sum_sizes_nonneg l : 0 <= sum_sizes l.
Proof. induction l as [|p l IH]; simpl; [lia|]. pose proof (pair_size_nonneg p). lia. Qed.

Section invariant.
Context `{!Deheap}.

(** The queue is a heap for the comparison in use. *)
Definition queue_ok (p : pipe) : Prop :=
  match less p with Some l => ordering l /\ dh_inv l (queue p) | None => True end.

Record pinv (s : pstate) : Prop := {
  inv_tokens : length (queue (pp s)) =
    (c (pp s) + putting s + stranded s + length (getting s))%nat;
  inv_log : put_log s ≡ₚ queue (pp s) ++ got_log s;
  inv_queue : queue_ok (pp s);
  inv_cap : Z.of_nat (c (pp s)) <= c_cap (pp s);
  inv_total : sum_sizes (put_log s) <= i64_max -> totalSize (pp s) = sum_sizes (queue (pp s));
}.

Lemma put_queue p x :
  queue_ok p -> queue (put_locked p x) ≡ₚ x :: queue p /\ queue_ok (put_locked p x).
Proof.
  unfold queue_ok, put_locked. simpl. destruct (less p) as [l|].
  - intros [Ho Hi]. destruct (dh_Push_spec l (queue p) x Ho Hi). done.
  - intros _. split; [|done]. by rewrite Permutation_app_comm.
Qed.

(** What the locked part of [GetMax] does on a non-empty queue. *)
Lemma get_queue p frac :
  queue_ok p -> queue p <> [] ->
  exists x p', get_locked p frac = Some (x, p') /\ queue p ≡ₚ x :: queue p' /\ queue_ok p' /\
    less p' = less p /\ c p' = c p /\ c_cap p' = c_cap p /\
    (let total := i64 (totalSize p - pair_size x) in
     totalSize p' = if total <? 0 then 0 else total) /\
    match less p with
    | None => queue p = x :: queue p'
    | Some l =>
        if (fraction p <? 0) || (frac <? fraction p)
        then forall y, y ∈ queue p' -> ~ before l y x
        else forall y, y ∈ queue p' -> ~ before l x y
    end.
Proof.
  unfold queue_ok, get_locked. destruct (less p) as [l|] eqn:El.
  - intros [Ho Hi] Hne. case_if.
    + destruct (dh_Pop_spec l (queue p) Ho Hi Hne) as (x & q & -> & Hp & Hi' & Hmin).
      eexists x, _. split; [reflexivity|]. simpl. rewrite El. split_and!; done.
    + destruct (dh_PopMax_spec l (queue p) Ho Hi Hne) as (x & q & -> & Hp & Hi' & Hmax).
      eexists x, _. split; [reflexivity|]. simpl. rewrite El. split_and!; done.
  - intros _ Hne. destruct (queue p) as [|x q]; [done|].
    eexists x, _. split; [reflexivity|]. simpl. rewrite El. split_and!; done.
Qed.

Lemma pinv_put p n st g pl gl x :
  pinv (mkPState p n st g pl gl) ->
  pinv (mkPState (put_locked p x) (S n) st g (x :: pl) gl).
Proof.
  intros [H1 H2 H3 H4 H5]. simpl in *. destruct (put_queue p x H3) as [Hq Hok].
  split; cbn [pp putting stranded getting put_log got_log]; try done.
  - rewrite Hq. simpl. lia.
  - by rewrite Hq, H2.
  - intros Hb. rewrite (sum_sizes_perm _ _ Hq). simpl in Hb |- *.
    pose proof (pair_size_nonneg x). rewrite H5 by lia.
    rewrite i64_id; [lia|]. unfold in_i64, i64_min.
    pose proof (sum_sizes_nonneg (queue p)). rewrite (sum_sizes_perm _ _ H2), sum_sizes_app in Hb.
    pose proof (sum_sizes_nonneg gl). lia.
Qed.

Lemma pinv_pop p n st g1 frac g2 pl gl x p' :
  pinv (mkPState p n st (g1 ++ frac :: g2) pl gl) ->
  get_locked p frac = Some (x, p') ->
  pinv (mkPState p' n st (g1 ++ g2) pl (x :: gl)).
Proof.
  intros [H1 H2 H3 H4 H5] Hg. simpl in *.
  destruct (get_queue p frac H3) as (x' & p'' & Hg' & Hq & Hok & Hl & Hc & Hcap & Ht & _).
  { intros He. rewrite He in H1. rewrite length_app in H1. simpl in H1. lia. }
  rewrite Hg in Hg'. simplify_eq.
  split; cbn [pp putting stranded getting put_log got_log]; try done.
  - rewrite Hq in H1. rewrite !length_app in *. simpl in H1. rewrite Hc. lia.
  - rewrite H2, Hq. solve_Permutation.
  - by rewrite Hc, Hcap.
  - intros Hb. rewrite H5 in Ht by done. rewrite (sum_sizes_perm _ _ Hq) in Ht. simpl in Ht.
    replace (pair_size x' + sum_sizes (queue p'') - pair_size x') with (sum_sizes (queue p''))
      in Ht by lia.
    pose proof (sum_sizes_nonneg (queue p'')) as Hn.
    rewrite i64_id in Ht.
    + rewrite Ht. case_if; lia.
    + rewrite (sum_sizes_perm _ _ H2), sum_sizes_app, (sum_sizes_perm _ _ Hq) in Hb. simpl in Hb.
      pose proof (sum_sizes_nonneg gl). pose proof (pair_size_nonneg x').
      unfold in_i64, i64_min. lia.
Qed.

Lemma pinv_step s s' : pinv s -> pipe_step s (inl s') -> pinv s'.
Proof.
  intros Hi Hs. inversion Hs; subst; try (by apply pinv_put); try (by eapply pinv_pop);
    destruct Hi as [I1 I2 I3 I4 I5]; simpl in *; split; simpl; try done; lia.
Qed.

Lemma pinv_initial glob orderBy maxBacklog p :
  newPipe glob orderBy maxBacklog = inr p -> pinv (initial p).
Proof.
  unfold newPipe. destruct (newLess glob orderBy) as [err|[l f]] eqn:El; [done|].
  intros [= <-]. split; simpl; try done.
  - unfold queue_ok. simpl. destruct l as [l|]; [|done]. split; [|apply dh_inv_nil].
    eapply accepted_ordering. by eapply newLess_accepted.
  - case_if; unfold i64_max; lia.
Qed.

Lemma pinv_reachable s0 s : pinv s0 -> reachable s0 s -> pinv s.
Proof. induction 2; [done|]. by eapply pinv_step. Qed.

Lemma pinv_no_panic s : pinv s -> ~ pipe_step s (inr IndexOutOfRange).
Proof.
  intros [H1 _ H3 _ _] Hs. inversion Hs; subst; simpl in *.
  destruct (get_queue p frac H3) as (x & p' & Hg & _); [|by rewrite Hg in *].
  intros He. rewrite He in H1. rewrite length_app in H1. simpl in H1. lia.
Qed.

Lemma less_step s s' :
  pinv s -> pipe_step s (inl s') ->
  less (pp s') = less (pp s) /\ fraction (pp s') = fraction (pp s).
Proof.
  intros Hi Hs. inversion Hs; subst; try done. simpl in *.
  unfold get_locked in *. repeat case_match; by simplify_eq.
Qed.

Lemma less_reachable s0 s :
  pinv s0 -> reachable s0 s ->
  less (pp s) = less (pp s0) /\ fraction (pp s) = fraction (pp s0).
Proof.
  intros H0. induction 1 as [|s s' Hr IH Hs]; [done|]. destruct IH as [<- <-].
  apply less_step; [|done]. by eapply pinv_reachable.
Qed.
End invariant.

(** ** An implementation of the heap

    Selection on top of the pipe's own interface: find the index of an extremal
    element with [Less], [Swap] it with the last one, [Pop] that. *)
Section selection.

(** The index of an element that none comes before, or of one that comes
    before none ([up]); [best] is the index found so far. *)
Fixpoint select (up : bool) (l : lessFn) (q : list ObjectPair) (todo best i : nat) : nat :=
  match todo with
  | O => best
  | S todo' =>
      let better := match (if up then Less l q best i else Less l q i best),
                          (if up then Less l q i best else Less l q best i) with
                    | Some a, Some b => a && negb b
                    | _, _ => false
                    end in
      select up l q todo' (if better then i else best) (S i)
  end.

Definition select_pop (up : bool) (l : lessFn) (q : list ObjectPair)
  : option (ObjectPair * list ObjectPair) :=
  match Swap q (select up l q (length q) 0 0) (length q - 1) with
  | Some q' => Pop q'
  | None => None
  end.

(** [a] comes before [b] going up the order, or down. *)
Definition ahead (up : bool) (l : lessFn) (a b : ObjectPair) : Prop :=
  if up then before l b a else before l a b.

Lemma not_before_weak l a b : WeakOrder l -> ~ before l a b <-> l a b = false.
Proof.
  intros H. unfold before. destruct (l a b) eqn:E1; [|naive_solver].
  split; [|done]. intros Hn. destruct (l b a) eqn:E2; [|naive_solver].
  rewrite <- (less_irrefl l a). symmetry. by apply (less_trans l a b a).
Qed.

Lemma not_before_rev l a b :
  WeakOrder (fun a b => negb (l b a)) -> ~ before l a b <-> l b a = true.
Proof.
  intros H. unfold before. destruct (l b a) eqn:E2; [naive_solver|].
  split; [|done]. intros Hn. destruct (l a b) eqn:E1; [naive_solver|].
  pose proof (less_trans _ a b a) as Hc. simpl in Hc. rewrite E1, E2 in Hc.
  specialize (Hc eq_refl eq_refl). pose proof (less_irrefl _ a) as Hi. simpl in Hi. congruence.
Qed.

Lemma before_trans l a b x : ordering l -> ~ before l a b -> ~ before l b x -> ~ before l a x.
Proof.
  intros [H|H].
  - rewrite !not_before_weak by done. apply less_incomp_trans, H.
  - rewrite !not_before_rev by done. intros H1 H2.
    pose proof (less_incomp_trans _ a b x) as Hc. simpl in Hc. rewrite H1, H2 in Hc.
    by apply negb_false_iff, Hc.
Qed.

Lemma ahead_trans up l a b x :
  ordering l -> ~ ahead up l a b -> ~ ahead up l b x -> ~ ahead up l a x.
Proof. destruct up; simpl; intros; by eapply before_trans. Qed.

Lemma ahead_irrefl up l a : ~ ahead up l a a.
Proof. destruct up; simpl; unfold before; intros [? ?]; congruence. Qed.

Lemma Less_Some l q i j x y : q !! i = Some x -> q !! j = Some y -> Less l q i j = Some (l x y).
Proof. intros H1 H2. unfold Less. by rewrite H1, H2. Qed.

Lemma better_iff (up : bool) l q i j x y :
  q !! i = Some x -> q !! j = Some y ->
  match (if up then Less l q j i else Less l q i j),
        (if up then Less l q i j else Less l q j i) with
  | Some a, Some b => a && negb b
  | _, _ => false
  end = true <-> ahead up l x y.
Proof.
  intros Hx Hy. rewrite !(Less_Some l q i j x y), !(Less_Some l q j i y x) by done.
  unfold ahead, before. destruct up, (l x y), (l y x); simpl; naive_solver.
Qed.

Lemma select_spec up l q todo best i x :
  ordering l -> (i + todo = length q)%nat -> q !! best = Some x ->
  (forall k y, (k < i)%nat -> q !! k = Some y -> ~ ahead up l y x) ->
  exists x', q !! select up l q todo best i = Some x' /\
    forall k y, q !! k = Some y -> ~ ahead up l y x'.
Proof.
  intros Ho. revert best i x. induction todo as [|todo IH]; intros best i x Hlen Hb Hlow; simpl.
  { exists x. split; [done|]. intros k y Hy. apply (Hlow k); [|done].
    apply lookup_lt_Some in Hy. lia. }
  destruct (lookup_lt_is_Some_2 q i ltac:(lia)) as [z Hz].
  pose proof (better_iff up l q i best z x Hz Hb) as Hbet.
  destruct (match _ with Some _ => _ | None => _ end) eqn:E.
  - apply (IH i (S i) z); [lia|done|]. intros k y Hk Hy.
    destruct (decide (k = i)) as [->|]; [rewrite Hz in Hy; simplify_eq; apply ahead_irrefl|].
    apply (ahead_trans up l y x z); [done|apply (Hlow k); [lia|done]|].
    destruct Hbet as [Hbet _]. specialize (Hbet eq_refl).
    destruct up; simpl in *; unfold before in *; intros [? ?]; destruct Hbet; congruence.
  - apply (IH best (S i) x); [lia|done|]. intros k y Hk Hy.
    destruct (decide (k = i)) as [->|]; [|apply (Hlow k); [lia|done]].
    rewrite Hz in Hy. simplify_eq. by intros Ha%Hbet.
Qed.

Lemma swap_last_perm (q : list ObjectPair) i x z :
  q !! i = Some x -> last q = Some z ->
  <[(length q - 1)%nat := x]> (<[i := z]> q) = take (length q - 1) (<[i := z]> q) ++ [x] /\
  q ≡ₚ x :: take (length q - 1) (<[i := z]> q).
Proof.
  intros Hx Hz. apply last_Some in Hz as [r ->].
  rewrite length_app. simpl. replace (length r + 1 - 1)%nat with (length r) by lia.
  destruct (decide (i < length r)%nat) as [Hi|Hi].
  - rewrite lookup_app_l in Hx by done.
    rewrite !insert_app_l by (rewrite ?length_insert; lia).
    rewrite insert_app_r_alt by (rewrite ?length_insert; lia).
    rewrite length_insert, Nat.sub_diag. simpl. rewrite take_app_length' by (by rewrite length_insert).
    split; [done|]. rewrite <- (take_drop_middle r i x Hx) at 1.
    rewrite (insert_take_drop r i z Hi). solve_Permutation.
  - pose proof (lookup_lt_Some _ _ _ Hx) as Hlt. rewrite length_app in Hlt. simpl in Hlt.
    assert (i = length r) as -> by lia. rewrite list_lookup_middle in Hx by done. simplify_eq.
    rewrite !insert_app_r_alt, Nat.sub_diag by (rewrite ?length_app; lia). simpl.
    rewrite take_app_length. split; [done|solve_Permutation].
Qed.

Lemma select_pop_spec up l q :
  ordering l -> q <> [] ->
  exists x q', select_pop up l q = Some (x, q') /\ q ≡ₚ x :: q' /\
    (forall y, y ∈ q' -> ~ ahead up l y x).
Proof.
  intros Ho Hne. destruct q as [|x0 q0]; [done|]. set (q := x0 :: q0) in *.
  destruct (select_spec up l q (length q) 0 0 x0) as (x & Hx & Hmin);
    [done|lia|done|intros; lia|].
  destruct (last q) as [z|] eqn:Ez; [|by apply last_None in Ez].
  set (i := select up l q (length q) 0 0) in *.
  destruct (swap_last_perm q i x z Hx Ez) as [Heq Hp].
  assert (Hl : q !! (length q - 1)%nat = Some z).
  { rewrite <- Ez, last_lookup. f_equal. lia. }
  unfold select_pop. fold i. unfold Swap. rewrite Hx, Hl. unfold Pop. rewrite Heq, last_snoc.
  eexists x, _. split; [reflexivity|].
  rewrite take_app_length'; [|rewrite length_app; cbn [length]; lia]. split; [done|].
  intros y Hy. assert (Hin : y ∈ q) by (rewrite Hp; set_solver).
  apply list_elem_of_lookup in Hin as [k Hk]. by apply (Hmin k).
Qed.

Definition selection : Deheap.
Proof.
  refine (Build_Deheap (fun _ _ => True) (fun _ q x => Push q x)
            (fun l q => select_pop false l q) (fun l q => select_pop true l q) _ _ _ _).
  - done.
  - intros l q x _ _. split; [|done]. unfold Push. by rewrite Permutation_app_comm.
  - intros l q Ho _ Hne. destruct (select_pop_spec false l q Ho Hne) as (x & q' & H1 & H2 & H3).
    exists x, q'. split_and!; done.
  - intros l q Ho _ Hne. destruct (select_pop_spec true l q Ho Hne) as (x & q' & H1 & H2 & H3).
    exists x, q'. split_and!; done.
Defined.
End selection.

(** ** Theorems *)

(** C25: however [Put], [Get], cancellation and [Close] of any number of
    goroutines interleave, the queue holds one pair per token and per call
    under way (a [Get] that holds a token always finds a pair, so the pop never
    runs off the end), no pair is lost or made twice, at most [maxBacklog]
    tokens wait, and [totalSize] is the total of the queued pairs as long as
    the sizes put in do not overflow.  A drained pipe has delivered all it was
    given. *)
Theorem pipe_safe `{!Deheap} glob orderBy maxBacklog p s :
  newPipe glob orderBy maxBacklog = inr p -> reachable (initial p) s ->
  ~ pipe_step s (inr IndexOutOfRange) /\
  length (queue (pp s)) = (c (pp s) + putting s + stranded s + length (getting s))%nat /\
  put_log s ≡ₚ queue (pp s) ++ got_log s /\
  Z.of_nat (c (pp s)) <= c_cap (pp s) /\
  (sum_sizes (put_log s) <= i64_max ->
     Stats (pp s) = (Z.of_nat (length (queue (pp s))), sum_sizes (queue (pp s)))) /\
  (c (pp s) = O -> putting s = O -> stranded s = O -> getting s = [] -> put_log s ≡ₚ got_log s).
Proof.
  intros Hp Hr. pose proof (pinv_reachable _ _ (pinv_initial _ _ _ _ Hp) Hr) as Hi.
  pose proof Hi as [H1 H2 _ H4 H5]. split_and!; auto.
  - by apply pinv_no_panic.
  - intros Hs. unfold Stats. by rewrite H5.
  - intros E1 E2 E3 E4. rewrite E1, E2, E3, E4 in H1. simpl in H1.
    apply nil_length_inv in H1. by rewrite H1 in H2.
Qed.

(** What the documentation of --order-by says comes first: the smaller (or
    older) pair, or the larger with [desc]. *)
Inductive aspect := AName | ASize | AModTime.

Definition aspect_name (a : aspect) : string :=
  match a with AName => "name" | ASize => "size" | AModTime => "modtime" end.

Definition doc_less (a : aspect) (x y : ObjectPair) : Prop :=
  match a with
  | AName => str_lt (oRemote (Src x)) (oRemote (Src y))
  | ASize => oSize (Src x) < oSize (Src y)
  | AModTime => oModTime (Src x) < oModTime (Src y)
  end.

Inductive modifier := MNone | MAsc | MAscending | MDesc | MDescending | MMixed.

Definition modifier_name (m : modifier) : string :=
  match m with
  | MNone => "" | MAsc => ",asc" | MAscending => ",ascending"
  | MDesc => ",desc" | MDescending => ",descending" | MMixed => ",mixed"
  end.

(** Whether a getter with this [fraction] takes the largest first. *)
Definition largest_first (m : modifier) (frac : Z) : bool :=
  match m with
  | MNone | MAsc | MAscending => false
  | MDesc | MDescending => true
  | MMixed => negb (frac <? 50)
  end.

Definition aspect_less (a : aspect) : lessFn :=
  match a with AName => less_name | ASize => less_size | AModTime => less_modtime end.

Lemma aspect_less_spec a x y : aspect_less a x y = true <-> doc_less a x y.
Proof. destruct a; simpl; [done|apply Z.ltb_lt|apply Z.ltb_lt]. Qed.

Lemma aspect_less_weak a : WeakOrder (aspect_less a).
Proof. destruct a; [apply less_name_weak|apply less_size_weak|apply less_modtime_weak]. Qed.

Lemma newLess_table glob a m :
  newLess glob (aspect_name a +:+ modifier_name m) =
  inr (Some (match m with
             | MDesc | MDescending => fun x y => negb (aspect_less a x y)
             | _ => aspect_less a end),
       match m with MMixed => 50 | _ => -1 end).
Proof. by destruct a, m. Qed.

Lemma not_before_aspect a x y : ~ before (aspect_less a) x y -> ~ doc_less a x y.
Proof.
  rewrite not_before_weak by apply aspect_less_weak. intros H Hd.
  apply aspect_less_spec in Hd. congruence.
Qed.

Lemma not_before_desc a x y :
  ~ before (fun u v => negb (aspect_less a u v)) x y -> ~ doc_less a y x.
Proof.
  rewrite not_before_rev by (apply flip_weak, aspect_less_weak).
  intros H Hd. apply aspect_less_spec in Hd. by rewrite Hd in H.
Qed.

(** --order-by keeps its promise on the backlog.  For [name], [size] and
    [modtime] with any of the documented modifiers the pipe is made, and at
    every reachable state a [Get] takes from the queue a pair such that no
    queued pair comes strictly before it in the documented order: the smallest
    first, the largest first with [desc], and with [mixed] the smallest for
    the threads below the fraction and the largest for the others. *)
Theorem order_by_documented `{!Deheap} glob maxBacklog a m :
  exists p, newPipe glob (aspect_name a +:+ modifier_name m) maxBacklog = inr p /\
  forall s frac, reachable (initial p) s -> frac ∈ getting s ->
    exists x p', get_locked (pp s) frac = Some (x, p') /\ queue (pp s) ≡ₚ x :: queue p' /\
      forall y, y ∈ queue p' ->
        if largest_first m frac then ~ doc_less a x y else ~ doc_less a y x.
Proof.
  pose proof (newLess_table glob a m) as Ht.
  assert (Hn : exists p, newPipe glob (aspect_name a +:+ modifier_name m) maxBacklog = inr p).
  { unfold newPipe. rewrite Ht. by eexists. }
  destruct Hn as [p Hp]. exists p. split; [done|]. intros s frac Hr Hf.
  pose proof (pinv_initial _ _ _ _ Hp) as Hi0.
  pose proof (pinv_reachable _ _ Hi0 Hr) as [H1 _ H3 _ _].
  destruct (less_reachable _ _ Hi0 Hr) as [Hl Hfr].
  unfold newPipe in Hp. rewrite Ht in Hp. simplify_eq. simpl in Hl, Hfr.
  destruct (get_queue (pp s) frac H3) as (x & p' & Hg & Hq & _ & _ & _ & _ & _ & Hord).
  { intros He. rewrite He in H1. simpl in H1. destruct (getting s); simpl in *; [|lia].
    by apply not_elem_of_nil in Hf. }
  exists x, p'. split_and!; [done|done|]. intros y Hy. rewrite Hl, Hfr in Hord.
  destruct m; simpl in *; try (by apply not_before_aspect, Hord);
    try (by apply not_before_desc, Hord).
  destruct (frac <? 50); simpl; by apply not_before_aspect, Hord.
Qed.

Definition ex_pair (remote : string) (size : Z) : ObjectPair :=
  mkPair (mkObject remote size 0 None true 0) None.

Definition ex_pipe : pipe := mkPipe 0 10 [] false 0 [] None (-1).

#[local] Existing Instance selection.

Lemma pipe_safe_witness :
  exists s, reachable (initial ex_pipe) s /\ got_log s = [ex_pair "a" 5] /\
    put_log s ≡ₚ got_log s.
Proof.
  set (x := ex_pair "a" 5).
  set (s1 := mkPState (put_locked ex_pipe x) 1 0 [] [x] []).
  set (s2 := mkPState (set_tokens (put_locked ex_pipe x) 1) 0 0 [] [x] []).
  set (s3 := mkPState (set_tokens (put_locked ex_pipe x) 0) 0 0 [-1] [x] []).
  set (p4 := mkPipe 0 10 [] false 0 [(0, 0); (1, 5)] None (-1)).
  set (s4 := mkPState p4 0 0 [] [x] [x]).
  assert (Hr : reachable (initial ex_pipe) s4).
  { apply (reach_step _ s3); [|apply (step_pop _ _ _ [] (-1) []); reflexivity].
    apply (reach_step _ s2); [|apply (step_receive (set_tokens (put_locked ex_pipe x) 1) 0 0 [] [x] [] 0 (-1)); reflexivity].
    apply (reach_step _ s1); [|apply step_send; [reflexivity|reflexivity]].
    apply (reach_step _ (initial ex_pipe)); [apply reach_refl|apply step_put]. }
  exists s4. split; [exact Hr|]. split; [reflexivity|].
  destruct (pipe_safe (fun _ => None) "" 10 ex_pipe s4 eq_refl Hr) as (_ & _ & _ & _ & _ & H).
  apply H; reflexivity.
Defined.

(** [newLess] accepts an argument only when it yields a comparison that a
    heap can use, and a fraction that is not negative only for a comparison
    that is a strict weak order; the comparison for [desc] is not one (it
    answers [true] on equal elements). *)
Theorem newLess_sound glob orderBy l f :
  newLess glob orderBy = inr (Some l, f) ->
  ordering l /\ -1 <= f /\ (0 <= f -> WeakOrder l) /\
  (WeakOrder l \/ (f = -1 /\ forall x, l x x = true)).
Proof.
  intros H. apply newLess_accepted in H as Ha. split; [by eapply accepted_ordering|].
  destruct Ha as [l f Hw Hf|l Hw].
  - split_and!; auto.
  - split_and!; [lia|lia|]. right. split; [done|]. intros x. by rewrite (less_irrefl l x).
Qed.

Lemma newLess_sound_witness :
  exists l f, newLess (fun _ => None) "size,desc" = inr (Some l, f) /\ ordering l.
Proof.
  eexists _, _. split; [reflexivity|].
  apply (newLess_sound (fun _ => None) "size,desc" _ (-1)). reflexivity.
Defined.

End Pipe.
