(* ===== verification/UnionPolicy.v ===== *)
(** * Union policies (backend/union/policy)

    A union remote merges several upstreams; a policy chooses the upstreams
    that an operation works on.  The policies of the package are values of the
    record [Policy], whose fields are the methods of the Go interface; a policy
    that embeds another one in Go is here the embedded record with some fields
    replaced.

    What the policies read of an upstream is its root path, its two permission
    flags, [MinFreeSpace], and the numbers that [GetFreeSpace], [GetUsedSpace]
    and [GetNumObjects] return (the policies use the number also when there is
    an error).  The listing of an upstream's root file system, the random
    numbers and the order in which concurrent lookups reply are parameters. *)
From S2P Require Import Prelude GoPath Entries.

Module UnionPolicy.
Import GoPath Entries.

(** [type Fs struct] of the package upstream. *)
Record Fs := mkFs {
  Name : string;
  RootPath : string;
  writable : bool;
  creatable : bool;
  MinFreeSpace : Z;
  CaseInsensitive : bool;
}.

#[export] Instance Fs_eq_dec : EqDecision Fs.
Proof. solve_decision. Defined.

(** [upstream.Entry]: an entry and the upstream that holds it. *)
Record Entry := mkEntry { entry : DirEntry; UpstreamFs : Fs }.

#[export] Instance Entry_eq_dec : EqDecision Entry.
Proof. solve_decision. Defined.

Inductive perror :=
| ErrorObjectNotFound
| ErrorPermissionDenied
| errNoUpstreamsFound
| NoPolicy (name : string).

#[export] Instance perror_eq_dec : EqDecision perror.
Proof. solve_decision. Defined.

Abbreviation result A := (sum perror A).

(** [interface Policy].  An entry of a result can be [nil] with no error. *)
Record Policy := mkPolicy {
  Action : list Fs -> string -> result (list Fs);
  Create : list Fs -> string -> result (list Fs);
  Search : list Fs -> string -> result Fs;
  ActionEntries : list Entry -> result (list (option Entry));
  CreateEntries : list Entry -> result (list (option Entry));
  SearchEntries : list Entry -> result (option Entry);
}.

Definition filterRO (ufs : list Fs) : list Fs := filter (fun u => writable u = true) ufs.
Definition filterNC (ufs : list Fs) : list Fs := filter (fun u => creatable u = true) ufs.
Definition filterROEntries (ue : list Entry) : list Entry :=
  filter (fun e => writable (UpstreamFs e) = true) ue.
Definition filterNCEntries (ue : list Entry) : list Entry :=
  filter (fun e => creatable (UpstreamFs e) = true) ue.

(** [strings.TrimRight(s, "/")] *)
Fixpoint trim_right_slash (s : string) : string :=
  match s with
  | EmptyString => ""
  | String c s' =>
      let t := trim_right_slash s' in
      if Ascii.eqb c slash && str_eqb t "" then "" else String c t
  end.

Definition parentDir (absPath : string) : string :=
  let parent := path_Dir (trim_right_slash absPath) in
  if str_eqb parent "." then "" else parent.

Definition clean (absPath : string) : string :=
  let cleanPath := path_Clean absPath in
  if str_eqb cleanPath "." then "" else cleanPath.

Section policies.
(** [f.List] of the root file system of an upstream: the entries and whether
    there was an error.  [strings.EqualFold].  [ci.DefaultTime], the
    modification time of a [fs.NewDir] that has none. *)
Variable List : Fs -> string -> list DirEntry * bool.
Variable EqualFold : string -> string -> bool.
Variable DefaultTime : Z.
(** The numbers that the upstreams report. *)
Variable GetFreeSpace GetUsedSpace GetNumObjects : Fs -> Z.
(** [rand.Intn], and the order in which concurrent lookups reply. *)
Variable Intn : nat -> nat.
Variable replies : list Fs -> list Fs.

Definition findEntry (f : Fs) (remote : string) : option DirEntry :=
  let remote := clean remote in
  let dir := parentDir remote in
  let '(entries, err) := List f dir in
  if str_eqb remote dir then
    if err then None else Some (EDir (mkDirectory "" DefaultTime))
  else
    List.find (fun e => if CaseInsensitive f then EqualFold remote (Remote e)
                        else str_eqb remote (Remote e)) entries.

Definition findIn (u : Fs) (filePath : string) : option DirEntry :=
  findEntry u (path_Join [RootPath u; filePath]).

Definition exists_in (filePath : string) (u : Fs) : bool :=
  match findIn u filePath with Some _ => true | None => false end.

(** *** Existing path, first found: the first lookup to reply with an entry *)

Definition epff (upstreams : list Fs) (filePath : string) : result Fs :=
  match List.find (exists_in filePath) (replies upstreams) with
  | Some u => inr u
  | None => inl ErrorObjectNotFound
  end.

(** The guard that the methods of the policies begin with. *)
Definition guarded {A B} (perm : list A -> list A) (l : list A) (k : list A -> result B)
  : result B :=
  match l with
  | [] => inl ErrorObjectNotFound
  | _ => match perm l with
         | [] => inl ErrorPermissionDenied
         | l' => k l'
         end
  end.

Definition searched {A B} (l : list A) (k : list A -> result B) : result B :=
  match l with [] => inl ErrorObjectNotFound | _ => k l end.

Definition one {A} (r : result A) : result (list A) :=
  match r with inl err => inl err | inr u => inr [u] end.

Definition bind_result {A B} (r : result A) (k : A -> result B) : result B :=
  match r with inl err => inl err | inr x => k x end.

Definition up_one (path : string) : string := path +:+ "/..".

Definition EpFF : Policy := {|
  Action upstreams path := guarded filterRO upstreams (fun us => one (epff us path));
  ActionEntries entries := guarded filterROEntries entries (fun es => inr (Some <$> take 1 es));
  Create upstreams path := guarded filterNC upstreams (fun us => one (epff us (up_one path)));
  CreateEntries entries := guarded filterNCEntries entries (fun es => inr (Some <$> take 1 es));
  Search upstreams path := searched upstreams (fun us => epff us path);
  SearchEntries entries := searched entries (fun es => inr (head es));
|}.

Definition FF : Policy := {|
  Action := Action EpFF;
  ActionEntries := ActionEntries EpFF;
  Create upstreams path := guarded filterNC upstreams (fun us => inr (take 1 us));
  CreateEntries := CreateEntries EpFF;
  Search := Search EpFF;
  SearchEntries := SearchEntries EpFF;
|}.

(** *** Existing path, all *)

Definition epall (upstreams : list Fs) (filePath : string) : result (list Fs) :=
  match filter (fun u => exists_in filePath u = true) upstreams with
  | [] => inl ErrorObjectNotFound
  | results => inr results
  end.

Definition EpAll : Policy := {|
  Action upstreams path := guarded filterRO upstreams (fun us => epall us path);
  ActionEntries entries := guarded filterROEntries entries (fun es => inr (Some <$> es));
  Create upstreams path := guarded filterNC upstreams (fun us => epall us (up_one path));
  CreateEntries entries := guarded filterNCEntries entries (fun es => inr (Some <$> es));
  Search := Search EpFF;
  SearchEntries := SearchEntries EpFF;
|}.

Definition All : Policy := {|
  Action := Action EpAll;
  ActionEntries := ActionEntries EpAll;
  Create upstreams path := guarded filterNC upstreams (fun us => inr us);
  CreateEntries entries := guarded filterNCEntries entries (fun es => inr (Some <$> es));
  Search := Search EpAll;
  SearchEntries := SearchEntries EpAll;
|}.

(** *** Least and most of a number

    Each selection is a loop that keeps the best number and upstream so far;
    [better space u best] is its test. *)
Fixpoint pick_loop {A} (number : A -> Z) (better : Z -> A -> Z -> bool)
    (best : Z) (found : option A) (l : list A) : option A :=
  match l with
  | [] => found
  | u :: l' =>
      let space := number u in
      if better space u best then pick_loop number better space (Some u) l'
      else pick_loop number better best found l'
  end.

Definition lfs (upstreams : list Fs) : result Fs :=
  match pick_loop GetFreeSpace (fun space u best => (space <? best) && (MinFreeSpace u <? space))
          i64_max None upstreams with
  | None => inl errNoUpstreamsFound
  | Some u => inr u
  end.

Definition lfsEntries (entries : list Entry) : result (option Entry) :=
  match pick_loop (fun e => GetFreeSpace (UpstreamFs e))
          (fun space e best => (space <? best) && (MinFreeSpace (UpstreamFs e) <? space))
          i64_max None entries with
  | None => inl errNoUpstreamsFound
  | Some e => inr (Some e)
  end.

Definition lno (upstreams : list Fs) : result Fs :=
  match pick_loop GetNumObjects (fun numObj _ best => numObj <? best) i64_max None upstreams with
  | None => inl ErrorObjectNotFound
  | Some u => inr u
  end.

Definition lnoEntries (entries : list Entry) : result (option Entry) :=
  inr (pick_loop (fun e => GetNumObjects (UpstreamFs e)) (fun numObj _ best => numObj <? best)
         i64_max None entries).

Definition lus (upstreams : list Fs) : result Fs :=
  match pick_loop GetUsedSpace (fun space _ best => space <? best) i64_max None upstreams with
  | None => inl ErrorObjectNotFound
  | Some u => inr u
  end.

Definition lusEntries (entries : list Entry) : result (option Entry) :=
  inr (pick_loop (fun e => GetUsedSpace (UpstreamFs e)) (fun space _ best => space <? best)
         i64_max None entries).

Definition mfs (upstreams : list Fs) : result Fs :=
  match pick_loop GetFreeSpace (fun space _ best => best <? space) 0 None upstreams with
  | None => inl ErrorObjectNotFound
  | Some u => inr u
  end.

Definition mfsEntries (entries : list Entry) : result (option Entry) :=
  inr (pick_loop (fun e => GetFreeSpace (UpstreamFs e)) (fun space _ best => best <? space)
         0 None entries).

(** A policy that selects one of the candidates of [EpAll]. *)
Definition entries_of (l : list (option Entry)) : list Entry := omap id l.

Definition select_one (pick : list Fs -> result Fs) (pickEntries : list Entry -> result (option Entry))
  : Policy := {|
  Action upstreams path := bind_result (Action EpAll upstreams path) (fun us => one (pick us));
  ActionEntries entries := bind_result (ActionEntries EpAll entries)
    (fun es => one (pickEntries (entries_of es)));
  Create upstreams path := bind_result (Create EpAll upstreams path) (fun us => one (pick us));
  CreateEntries entries := bind_result (CreateEntries EpAll entries)
    (fun es => one (pickEntries (entries_of es)));
  Search upstreams path := searched upstreams (fun us => bind_result (epall us path) pick);
  SearchEntries entries := searched entries pickEntries;
|}.

Definition EpLfs : Policy := select_one lfs lfsEntries.
Definition EpLno : Policy := select_one lno lnoEntries.
Definition EpLus : Policy := select_one lus lusEntries.
Definition EpMfs : Policy := select_one mfs mfsEntries.

(** [upstreams[rand.Intn(len(upstreams))]] *)
Definition rand_pick {A} (l : list A) : result A :=
  match l !! Intn (length l) with Some u => inr u | None => inl ErrorObjectNotFound end.

Definition EpRand : Policy :=
  select_one rand_pick (fun es => bind_result (rand_pick es) (fun e => inr (Some e))).

(** The variants that choose for creation from all creatable upstreams. *)
Definition with_create (p : Policy) (pick : list Fs -> result Fs) : Policy := {|
  Action := Action p;
  ActionEntries := ActionEntries p;
  Create upstreams path := guarded filterNC upstreams (fun us => one (pick us));
  CreateEntries := CreateEntries p;
  Search := Search p;
  SearchEntries := SearchEntries p;
|}.

Definition Lfs : Policy := with_create EpLfs lfs.
Definition Lno : Policy := with_create EpLno lno.
Definition Lus : Policy := with_create EpLus lus.
Definition Mfs : Policy := with_create EpMfs mfs.

Definition Rand : Policy := {|
  Action upstreams path := bind_result (Action All upstreams path) (fun us => one (rand_pick us));
  ActionEntries entries := bind_result (ActionEntries All entries)
    (fun es => one (bind_result (rand_pick (entries_of es)) (fun e => inr (Some e))));
  Create upstreams path := bind_result (Create All upstreams path) (fun us => one (rand_pick us));
  CreateEntries entries := bind_result (CreateEntries All entries)
    (fun es => one (bind_result (rand_pick (entries_of es)) (fun e => inr (Some e))));
  Search upstreams path := searched upstreams (fun us => bind_result (epall us path) rand_pick);
  SearchEntries entries :=
    searched entries (fun es => bind_result (rand_pick es) (fun e => inr (Some e)));
|}.

(** *** Newest: the largest modification time after the zero time *)

Definition ModTime (e : DirEntry) : Z :=
  match e with EObject o => oModTime o | EDir d => dModTime d end.

(** Go's zero time, January 1 of year 1, in nanoseconds since 1970. *)
Definition zero_time : Z := -62135596800 * 1000000000.

Definition newest (upstreams : list Fs) (filePath : string) : result Fs :=
  let found := omap (fun u => match findIn u filePath with
                              | Some e => Some (u, ModTime e)
                              | None => None
                              end) upstreams in
  match pick_loop snd (fun mtime _ best => best <? mtime) zero_time None found with
  | None => inl ErrorObjectNotFound
  | Some (u, _) => inr u
  end.

Definition newestEntries (entries : list Entry) : result (option Entry) :=
  match pick_loop (fun e => ModTime (entry e)) (fun mtime _ best => best <? mtime)
          zero_time None entries with
  | None => inl ErrorObjectNotFound
  | Some e => inr (Some e)
  end.

Definition Newest : Policy := {|
  Action upstreams path := guarded filterRO upstreams (fun us => one (newest us path));
  ActionEntries entries := guarded filterROEntries entries (fun es => one (newestEntries es));
  Create upstreams path := guarded filterNC upstreams (fun us => one (newest us (up_one path)));
  CreateEntries entries := guarded filterNCEntries entries (fun es => one (newestEntries es));
  Search upstreams path := searched upstreams (fun us => newest us path);
  SearchEntries entries := searched entries newestEntries;
|}.

(** *** The registry *)

Definition policies : list (string * Policy) :=
  [("all", All); ("epall", EpAll); ("epff", EpFF); ("eplfs", EpLfs); ("eplno", EpLno);
   ("eplus", EpLus); ("epmfs", EpMfs); ("eprand", EpRand); ("ff", FF); ("lfs", Lfs);
   ("lno", Lno); ("lus", Lus); ("mfs", Mfs); ("newest", Newest); ("rand", Rand)].

Definition Get (name : string) : result Policy :=
  match List.find (fun p => str_eqb (fst p) (to_lower name)) policies with
  | Some (_, p) => inr p
  | None => inl (NoPolicy name)
  end.
End policies.

(** ** What every policy promises *)

(** The result of choosing from [l]: the chosen are of [l] and have the
    permission [P]; permission is denied exactly when candidates exist and none
    has it; without candidates nothing is found.  [sel] reads a chosen value. *)
Record fair {A C} (sel : C -> option A) (P : A -> Prop) (l : list A) (r : result (list C)) : Prop := {
  fair_chosen v : r = inr v -> v <> [] /\ forall x a, x ∈ v -> sel x = Some a -> a ∈ l /\ P a;
  fair_denied : r = inl ErrorPermissionDenied <-> l <> [] /\ Forall (fun a => ~ P a) l;
  fair_empty : l = [] -> r = inl ErrorObjectNotFound;
}.

Record contract (p : Policy) : Prop := {
  ct_action ups path : fair Some (fun u => writable u = true) ups (Action p ups path);
  ct_create ups path : fair Some (fun u => creatable u = true) ups (Create p ups path);
  ct_search ups path :
    (ups = [] -> Search p ups path = inl ErrorObjectNotFound) /\
    forall u, Search p ups path = inr u -> u ∈ ups;
  ct_action_entries es :
    fair id (fun e => writable (UpstreamFs e) = true) es (ActionEntries p es);
  ct_create_entries es :
    fair id (fun e => creatable (UpstreamFs e) = true) es (CreateEntries p es);
  ct_search_entries es :
    (es = [] -> SearchEntries p es = inl ErrorObjectNotFound) /\
    forall e, SearchEntries p es = inr (Some e) -> e ∈ es;
}.

(** What the choice among the permitted candidates has to do. *)
Definition picks {A C} (sel : C -> option A) (l : list A) (r : result (list C)) : Prop :=
  match r with
  | inl err => err <> ErrorPermissionDenied
  | inr v => v <> [] /\ forall x a, x ∈ v -> sel x = Some a -> a ∈ l
  end.

Definition picks1 {A C} (sel : C -> option A) (l : list A) (r : result C) : Prop :=
  match r with
  | inl err => err <> ErrorPermissionDenied
  | inr x => forall a, sel x = Some a -> a ∈ l
  end.

Lemma picks_one {A C} (sel : C -> option A) l r : picks1 sel l r -> picks sel l (one r).
Proof.
  destruct r as [err|x]; simpl; [done|]. intros H. split; [done|].
  intros y a Hy. apply list_elem_of_singleton in Hy as ->. apply H.
Qed.

Lemma filter_nil_iff {A} (P : A -> Prop) `{!forall x, Decision (P x)} (l : list A) :
  filter P l = [] <-> Forall (fun a => ~ P a) l.
Proof.
  induction l as [|x l IH]; [done|]. rewrite filter_cons, Forall_cons.
  case_decide; [split; [done|naive_solver]|]. rewrite IH. tauto.
Qed.

Lemma guarded_fair {A C} (sel : C -> option A) (P : A -> Prop) `{!forall x, Decision (P x)} l k :
  (forall l', l' <> [] -> picks sel l' (k l')) -> fair sel P l (guarded (filter P) l k).
Proof.
  intros Hk. unfold guarded. destruct l as [|x l0]; [by split; [done| |]; naive_solver|].
  set (l := x :: l0) in *. pose proof (filter_nil_iff P l) as Hf.
  assert (Hin : forall a, a ∈ filter P l -> a ∈ l /\ P a).
  { intros a [? ?]%list_elem_of_filter. done. }
  destruct (filter P l) as [|y l1] eqn:E; [split; [done| |done]; naive_solver|].
  specialize (Hk (y :: l1) ltac:(done)). unfold picks in Hk.
  split; [| |done].
  - intros v Hv. rewrite Hv in Hk. destruct Hk as [Hne Hall]. split; [done|].
    intros z a Hz Ha. apply Hin. by apply (Hall z).
  - split.
    + intros Hd. by rewrite Hd in Hk.
    + intros [_ Hn]. apply Hf in Hn. done.
Qed.

Lemma bind_guarded {A B C} (perm : list A -> list A) l (k : list A -> result B)
    (h : B -> result C) :
  bind_result (guarded perm l k) h = guarded perm l (fun x => bind_result (k x) h).
Proof. unfold guarded. destruct l; [done|]. by destruct (perm _). Qed.

Lemma searched_spec {A B} (sel : B -> option A) (l : list A) (k : list A -> result B) :
  picks1 sel l (k l) ->
  (l = [] -> searched l k = inl ErrorObjectNotFound) /\
  forall v a, searched l k = inr v -> sel v = Some a -> a ∈ l.
Proof.
  unfold searched. intros Hk. destruct l as [|x l]; [done|]. split; [done|].
  intros v a Hv. rewrite Hv in Hk. apply Hk.
Qed.

(** *** The selection loop *)

(** A loop that looks for the least [sgn * number] among the eligible. *)
Definition seeks {A} (sgn : Z) (elig : A -> Z -> bool) (better : Z -> A -> Z -> bool) : Prop :=
  forall s u b, better s u b = (sgn * s <? sgn * b) && elig u s.

Lemma pick_loop_spec {A} sgn (elig : A -> Z -> bool) number better (l : list A) best found :
  seeks sgn elig better ->
  match pick_loop number better best found l with
  | Some u =>
      (found = Some u /\ (forall v, v ∈ l -> elig v (number v) = true -> sgn * best <= sgn * number v)) \/
      (u ∈ l /\ elig u (number u) = true /\ sgn * number u < sgn * best /\
       forall v, v ∈ l -> elig v (number v) = true -> sgn * number u <= sgn * number v)
  | None => found = None /\ forall v, v ∈ l -> elig v (number v) = true -> sgn * best <= sgn * number v
  end.
Proof.
  intros Hs. revert best found. induction l as [|x l IH]; intros best found; cbn [pick_loop].
  { destruct found; [left|]; split; try done; intros v Hv; by apply not_elem_of_nil in Hv. }
  cbv zeta. rewrite Hs. destruct ((sgn * number x <? sgn * best) && elig x (number x)) eqn:E.
  - breflect. specialize (IH (number x) (Some x)).
    destruct (pick_loop _ _ _ _ l) as [u|]; [|by destruct IH].
    right. destruct IH as [[Hu Hall]|(Hin & He & Hlt & Hall)].
    + simplify_eq. split_and!; [set_solver|done|lia|].
      intros v [->|Hv]%elem_of_cons; [lia|auto].
    + split_and!; [set_solver|done|lia|]. intros v [->|Hv]%elem_of_cons; [lia|auto].
  - assert (Hx : elig x (number x) = true -> sgn * best <= sgn * number x).
    { intros He. rewrite He, andb_true_r in E. breflect. lia. }
    specialize (IH best found). destruct (pick_loop _ _ _ _ l) as [u|].
    + destruct IH as [[Hu Hall]|(Hin & He & Hlt & Hall)]; [left|right].
      * split; [done|]. intros v [->|Hv]%elem_of_cons; auto.
      * split_and!; [set_solver|done|done|].
        intros v [->|Hv]%elem_of_cons Hev; [specialize (Hx Hev); lia|auto].
    + destruct IH as [? Hall]. split; [done|]. intros v [->|Hv]%elem_of_cons; auto.
Qed.

Lemma seeks_lfs {A} (mn : A -> Z) :
  seeks 1 (fun u s => mn u <? s) (fun space u best => (space <? best) && (mn u <? space)).
Proof. intros s u b. by rewrite !Z.mul_1_l. Qed.

Lemma seeks_least {A} : seeks 1 (fun (_ : A) _ => true) (fun space _ best => space <? best).
Proof. intros s u b. by rewrite !Z.mul_1_l, andb_true_r. Qed.

Lemma seeks_most {A} : seeks (-1) (fun (_ : A) _ => true) (fun space _ best => best <? space).
Proof.
  intros s u b. rewrite andb_true_r. destruct (b <? s) eqn:E; symmetry; breflect.
  - apply Z.ltb_lt. lia.
  - apply Z.ltb_ge. lia.
Qed.

Lemma pick_loop_in {A} sgn (elig : A -> Z -> bool) number better (l : list A) best u :
  seeks sgn elig better -> pick_loop number better best None l = Some u -> u ∈ l.
Proof.
  intros Hs H. pose proof (pick_loop_spec sgn elig number better l best None Hs) as Hp.
  rewrite H in Hp. naive_solver.
Qed.

(** The same loop over a list and over what it is mapped to. *)
Lemma pick_loop_fmap {A B} (f : A -> B) number better best found (l : list A) :
  pick_loop number better best (f <$> found) (f <$> l) =
  f <$> pick_loop (fun a => number (f a)) (fun s a b => better s (f a) b) best found l.
Proof.
  revert best found. induction l as [|x l IH]; intros best found; cbn; [done|].
  destruct (better (number (f x)) (f x) best); [apply (IH (number (f x)) (Some x))|apply IH].
Qed.

Lemma entries_of_some es : entries_of (Some <$> es) = es.
Proof. unfold entries_of. induction es as [|e es IH]; cbn; [done|]. f_equal. exact IH. Qed.

Section contracts.
Variable List : Fs -> string -> list DirEntry * bool.
Variable EqualFold : string -> string -> bool.
Variable DefaultTime : Z.
Variable GetFreeSpace GetUsedSpace GetNumObjects : Fs -> Z.
Variable Intn : nat -> nat.
Variable replies : list Fs -> list Fs.
(** Every lookup replies once. *)
Hypothesis replies_perm : forall l, replies l ≡ₚ l.

Lemma epff_picks ups path : picks1 Some ups (epff List EqualFold DefaultTime replies ups path).
Proof.
  unfold epff. destruct (List.find _ _) as [u|] eqn:E; [|done].
  intros a [= <-]. apply find_some in E as [Hin _].
  apply list_elem_of_In in Hin. by rewrite replies_perm in Hin.
Qed.

Lemma epall_picks ups path : picks Some ups (epall List EqualFold DefaultTime ups path).
Proof.
  unfold epall. destruct (filter _ ups) as [|u us] eqn:E; [done|].
  split; [done|]. intros x a Hx [= <-]. rewrite <- E in Hx.
  by apply list_elem_of_filter in Hx as [_ ?].
Qed.

Lemma picks_bind_one {A B C} (sel : B -> option A) (sel' : C -> option A) l (conv : list B -> list A)
    (r : result (list B)) (pick : list A -> result C) :
  (forall v, r = inr v -> forall a, a ∈ conv v -> exists x, x ∈ v /\ sel x = Some a) ->
  picks sel l r -> (forall l', picks1 sel' l' (pick l')) ->
  picks sel' l (bind_result r (fun v => one (pick (conv v)))).
Proof.
  intros Hc Hr Hp. destruct r as [err|v]; [done|]. simpl. destruct Hr as [_ Hr].
  apply picks_one. specialize (Hp (conv v)). unfold picks1 in *. destruct (pick (conv v)); [done|].
  intros a Ha. apply Hp in Ha. destruct (Hc v eq_refl a Ha) as (x & Hx & Hs). by apply (Hr x).
Qed.

Lemma picks_all_entries (es : list Entry) : es <> [] -> picks id es (inr (Some <$> es)).
Proof.
  intros Hne. split; [by destruct es|]. intros x a Hx Ha.
  apply list_elem_of_fmap in Hx as (e & -> & He). simpl in Ha. by simplify_eq.
Qed.

Lemma picks_first_entry (es : list Entry) : es <> [] -> picks id es (inr (Some <$> take 1 es)).
Proof.
  destruct es as [|e es]; [done|]. intros _. split; [done|]. intros x a Hx Ha. simpl in Hx.
  apply list_elem_of_singleton in Hx as ->. simpl in Ha. simplify_eq. set_solver.
Qed.

Lemma head_picks (es : list Entry) : picks1 id es (inr (head es)).
Proof. destruct es; simpl; [done|]. intros a [= <-]. set_solver. Qed.

Lemma contract_EpFF : contract (EpFF List EqualFold DefaultTime replies).
Proof.
  split; intros; simpl.
  - apply guarded_fair. intros l' _. apply picks_one, epff_picks.
  - apply guarded_fair. intros l' _. apply picks_one, epff_picks.
  - destruct (searched_spec Some ups (fun us => epff List EqualFold DefaultTime replies us path))
      as [H1 H2]; [apply epff_picks|]. split; [done|]. intros u Hu. by apply (H2 u).
  - apply guarded_fair. apply picks_first_entry.
  - apply guarded_fair. apply picks_first_entry.
  - destruct (searched_spec id es (fun es => inr (head es))) as [H1 H2]; [apply head_picks|].
    split; [done|]. intros e He. by apply (H2 (Some e)).
Qed.

Lemma contract_EpAll : contract (EpAll List EqualFold DefaultTime replies).
Proof.
  destruct contract_EpFF as [_ _ Hs _ _ Hse]. split; intros.
  - apply guarded_fair. intros l' _. apply epall_picks.
  - apply guarded_fair. intros l' _. apply epall_picks.
  - apply Hs.
  - apply guarded_fair. apply picks_all_entries.
  - apply guarded_fair. apply picks_all_entries.
  - apply Hse.
Qed.

(** The choices among the candidates never make up an upstream. *)
Lemma pick_result_fs {sgn number best} elig better (l : list Fs) err :
  seeks sgn elig better -> err <> ErrorPermissionDenied ->
  picks1 Some l (match pick_loop number better best None l with
                 | None => inl err | Some u => inr u end).
Proof.
  intros Hs He. destruct (pick_loop _ _ _ _ l) as [u|] eqn:E; [|done].
  intros a [= <-]. by eapply pick_loop_in.
Qed.

Lemma pick_result_entries {sgn number best} elig better (l : list Entry) :
  seeks sgn elig better -> picks1 id l (inr (pick_loop number better best None l)).
Proof. intros Hs a Ha. simpl in Ha. by eapply pick_loop_in. Qed.

Lemma pick_result_entries_err {sgn number best} elig better (l : list Entry) err :
  seeks sgn elig better -> err <> ErrorPermissionDenied ->
  picks1 id l (match pick_loop number better best None l with
               | None => inl err | Some u => inr (Some u) end).
Proof.
  intros Hs He. destruct (pick_loop _ _ _ _ l) as [u|] eqn:E; [|done].
  intros a [= <-]. by eapply pick_loop_in.
Qed.

Lemma rand_pick_fs (l : list Fs) : picks1 Some l (rand_pick Intn l).
Proof.
  unfold rand_pick. destruct (l !! _) as [u|] eqn:E; [|done].
  intros a [= <-]. by eapply list_elem_of_lookup_2.
Qed.

Lemma rand_pick_entries (l : list Entry) :
  picks1 id l (bind_result (rand_pick Intn l) (fun e => inr (Some e))).
Proof.
  unfold rand_pick. destruct (l !! _) as [u|] eqn:E; [|done].
  intros a [= <-]. by eapply list_elem_of_lookup_2.
Qed.

Lemma bind_epall_picks1 pick ups path :
  (forall l', picks1 Some l' (pick l')) ->
  picks1 Some ups (bind_result (epall List EqualFold DefaultTime ups path) pick).
Proof.
  intros Hp. pose proof (epall_picks ups path) as He.
  destruct (epall _ _ _ ups path) as [err|us]; [done|]. simpl. destruct He as [_ He].
  specialize (Hp us). unfold picks1 in *. destruct (pick us) as [|u]; [done|].
  intros a [= <-]. apply (He u); [|done]. by apply Hp.
Qed.

Lemma contract_select_one pick pickEntries :
  (forall l, picks1 Some l (pick l)) -> (forall l, picks1 id l (pickEntries l)) ->
  contract (select_one List EqualFold DefaultTime replies pick pickEntries).
Proof.
  intros H1 H2. split; intros; simpl.
  - rewrite bind_guarded. apply guarded_fair. intros l' _.
    apply (picks_bind_one Some Some l' (fun us => us)); [eauto|apply epall_picks|done].
  - rewrite bind_guarded. apply guarded_fair. intros l' _.
    apply (picks_bind_one Some Some l' (fun us => us)); [eauto|apply epall_picks|done].
  - destruct (searched_spec Some ups (fun us => bind_result (epall List EqualFold DefaultTime us path) pick))
      as [Ha Hb]; [by apply bind_epall_picks1|]. split; [done|]. intros u Hu. by apply (Hb u).
  - rewrite bind_guarded. apply guarded_fair. intros l' _. cbn [bind_result].
    rewrite entries_of_some. by apply picks_one.
  - rewrite bind_guarded. apply guarded_fair. intros l' _. cbn [bind_result].
    rewrite entries_of_some. by apply picks_one.
  - destruct (searched_spec id es pickEntries) as [Ha Hb]; [done|].
    split; [done|]. intros e He. by apply (Hb (Some e)).
Qed.

Lemma contract_with_create p pick :
  contract p -> (forall l, picks1 Some l (pick l)) -> contract (with_create p pick).
Proof.
  intros [] H1. split; intros; simpl; auto.
  apply guarded_fair. intros l' _. by apply picks_one.
Qed.

Lemma newest_picks ups path : picks1 Some ups (newest List EqualFold DefaultTime ups path).
Proof.
  unfold newest. destruct (pick_loop _ _ _ _ _) as [[u t]|] eqn:E; [|done].
  intros a [= <-]. eapply pick_loop_in in E; [|apply seeks_most].
  apply list_elem_of_omap in E as (v & Hv & He). by destruct (findIn _ _ _ v path); simplify_eq.
Qed.

Lemma newestEntries_picks es : picks1 id es (newestEntries es).
Proof. apply (pick_result_entries_err _ _ _ _ seeks_most). done. Qed.

Lemma contract_Newest : contract (Newest List EqualFold DefaultTime).
Proof.
  split; intros; simpl.
  - apply guarded_fair. intros l' _. apply picks_one, newest_picks.
  - apply guarded_fair. intros l' _. apply picks_one, newest_picks.
  - destruct (searched_spec Some ups (fun us => newest List EqualFold DefaultTime us path))
      as [H1 H2]; [apply newest_picks|]. split; [done|]. intros u Hu. by apply (H2 u).
  - apply guarded_fair. intros l' _. apply picks_one, newestEntries_picks.
  - apply guarded_fair. intros l' _. apply picks_one, newestEntries_picks.
  - destruct (searched_spec id es newestEntries) as [Ha Hb]; [apply newestEntries_picks|].
    split; [done|]. intros e He. by apply (Hb (Some e)).
Qed.

Lemma contract_FF : contract (FF List EqualFold DefaultTime replies).
Proof.
  destruct contract_EpFF. split; intros; [apply ct_action0| |apply ct_search0
    |apply ct_action_entries0|apply ct_create_entries0|apply ct_search_entries0].
  apply guarded_fair. intros [|u us] Hne; [done|]. split; [done|].
  intros x a Hx [= <-]. apply list_elem_of_singleton in Hx as ->. set_solver.
Qed.

Lemma contract_All : contract (All List EqualFold DefaultTime replies).
Proof.
  destruct contract_EpAll. split; intros; [apply ct_action0| |apply ct_search0
    |apply ct_action_entries0| |apply ct_search_entries0].
  - apply guarded_fair. intros us Hne. split; [done|]. intros x a Hx [= <-]. done.
  - apply guarded_fair. apply picks_all_entries.
Qed.

Lemma contract_Rand : contract (Rand List EqualFold DefaultTime Intn replies).
Proof.
  split; intros; simpl.
  - rewrite bind_guarded. apply guarded_fair. intros l' _.
    apply (picks_bind_one Some Some l' (fun us => us)); [eauto|apply epall_picks|apply rand_pick_fs].
  - rewrite bind_guarded. apply guarded_fair. intros l' _. apply picks_one, rand_pick_fs.
  - destruct (searched_spec Some ups
      (fun us => bind_result (epall List EqualFold DefaultTime us path) (rand_pick Intn))) as [Ha Hb];
      [apply bind_epall_picks1, rand_pick_fs|]. split; [done|]. intros u Hu. by apply (Hb u).
  - rewrite bind_guarded. apply guarded_fair. intros l' _. cbn [bind_result].
    rewrite entries_of_some. apply picks_one, rand_pick_entries.
  - rewrite bind_guarded. apply guarded_fair. intros l' _. cbn [bind_result].
    rewrite entries_of_some. apply picks_one, rand_pick_entries.
  - destruct (searched_spec id es (fun es => bind_result (rand_pick Intn es) (fun e => inr (Some e))))
      as [Ha Hb]; [apply rand_pick_entries|]. split; [done|]. intros e He. by apply (Hb (Some e)).
Qed.

Lemma contract_EpLfs : contract (EpLfs List EqualFold DefaultTime GetFreeSpace replies).
Proof.
  apply contract_select_one; intros l.
  - by apply (pick_result_fs _ _ _ _ (seeks_lfs MinFreeSpace)).
  - by apply (pick_result_entries_err _ _ _ _ (seeks_lfs (fun e => MinFreeSpace (UpstreamFs e)))).
Qed.

Lemma contract_EpLno : contract (EpLno List EqualFold DefaultTime GetNumObjects replies).
Proof.
  apply contract_select_one; intros l.
  - by apply (pick_result_fs _ _ _ _ seeks_least).
  - apply (pick_result_entries _ _ _ seeks_least).
Qed.

Lemma contract_EpLus : contract (EpLus List EqualFold DefaultTime GetUsedSpace replies).
Proof.
  apply contract_select_one; intros l.
  - by apply (pick_result_fs _ _ _ _ seeks_least).
  - apply (pick_result_entries _ _ _ seeks_least).
Qed.

Lemma contract_EpMfs : contract (EpMfs List EqualFold DefaultTime GetFreeSpace replies).
Proof.
  apply contract_select_one; intros l.
  - by apply (pick_result_fs _ _ _ _ seeks_most).
  - apply (pick_result_entries _ _ _ seeks_most).
Qed.

Lemma contract_EpRand : contract (EpRand List EqualFold DefaultTime Intn replies).
Proof. apply contract_select_one; [apply rand_pick_fs|apply rand_pick_entries]. Qed.

Lemma policies_contract :
  Forall (fun p => contract (snd p))
    (policies List EqualFold DefaultTime GetFreeSpace GetUsedSpace GetNumObjects Intn replies).
Proof.
  unfold policies. repeat (apply Forall_cons_2; cbn [snd]).
  - apply contract_All.
  - apply contract_EpAll.
  - apply contract_EpFF.
  - apply contract_EpLfs.
  - apply contract_EpLno.
  - apply contract_EpLus.
  - apply contract_EpMfs.
  - apply contract_EpRand.
  - apply contract_FF.
  - apply contract_with_create; [apply contract_EpLfs|]. intros l.
    by apply (pick_result_fs _ _ _ _ (seeks_lfs MinFreeSpace)).
  - apply contract_with_create; [apply contract_EpLno|]. intros l.
    by apply (pick_result_fs _ _ _ _ seeks_least).
  - apply contract_with_create; [apply contract_EpLus|]. intros l.
    by apply (pick_result_fs _ _ _ _ seeks_least).
  - apply contract_with_create; [apply contract_EpMfs|]. intros l.
    by apply (pick_result_fs _ _ _ _ seeks_most).
  - apply contract_Newest.
  - apply contract_Rand.
  - apply Forall_nil_2.
Qed.
End contracts.

(** ** Theorems *)

(** C33: every policy that [Get] finds keeps the contract of its interface:
    actions choose only writable upstreams among the candidates, creation only
    creatable ones, searches only candidates; permission is denied exactly when
    there are candidates but none has the permission, and without candidates
    the answer is that nothing is found; whatever the listings, the numbers,
    the random choices and the order of the replies are. *)
Theorem Get_contract List EqualFold DefaultTime free used objs Intn replies name p :
  (forall l, replies l ≡ₚ l) ->
  Get List EqualFold DefaultTime free used objs Intn replies name = inr p -> contract p.
Proof.
  intros HR. unfold Get. destruct (List.find _ _) as [[n q]|] eqn:E; [|done]. intros [= <-].
  pose proof (policies_contract List EqualFold DefaultTime free used objs Intn replies HR) as Hall.
  rewrite Forall_forall in Hall. apply (Hall (n, q)).
  apply find_some in E as [Hin _]. by apply list_elem_of_In in Hin.
Qed.

Definition ex_fs (name : string) (w : bool) : Fs := mkFs name "" w w 0 false.

Lemma Get_contract_witness :
  exists p, Get (fun _ _ => ([], false)) str_eqb 0 (fun _ => 10) (fun _ => 0) (fun _ => 0)
    pred (fun l => l) "MFS" = inr p /\ contract p /\
    Create p [ex_fs "a" false; ex_fs "b" true] "x" = inr [ex_fs "b" true].
Proof.
  eexists. split; [reflexivity|]. split; [|reflexivity].
  apply (Get_contract (fun _ _ => ([], false)) str_eqb 0 (fun _ => 10) (fun _ => 0) (fun _ => 0)
           pred (fun l => l) "MFS").
  - intros l. reflexivity.
  - reflexivity.
Defined.

(** The upstream that the selecting policies choose is the one their name
    says.  [lfs] takes one with the least free space among those with more than
    [MinFreeSpace], and fails only if there is none (a number equal to the
    sentinel counts as none); [mfs] one with the most, and fails only if no
    number is positive; [lus] and [lno] one with the least; [rand] one of the
    candidates, always. *)
Theorem selections_correct free used objs Intn (ups : list Fs) :
  (forall n, (0 < n)%nat -> (Intn n < n)%nat) ->
  (forall u, u ∈ ups -> free u <= i64_max /\ used u <= i64_max /\ objs u <= i64_max) ->
  match lfs free ups with
  | inr u => u ∈ ups /\ MinFreeSpace u < free u /\
      forall v, v ∈ ups -> MinFreeSpace v < free v -> free u <= free v
  | inl err => err = errNoUpstreamsFound /\
      forall v, v ∈ ups -> free v <= MinFreeSpace v \/ free v = i64_max
  end /\
  match mfs free ups with
  | inr u => u ∈ ups /\ 0 < free u /\ forall v, v ∈ ups -> free v <= free u
  | inl err => err = ErrorObjectNotFound /\ forall v, v ∈ ups -> free v <= 0
  end /\
  match lus used ups with
  | inr u => u ∈ ups /\ forall v, v ∈ ups -> used u <= used v
  | inl err => err = ErrorObjectNotFound /\ forall v, v ∈ ups -> used v = i64_max
  end /\
  match lno objs ups with
  | inr u => u ∈ ups /\ forall v, v ∈ ups -> objs u <= objs v
  | inl err => err = ErrorObjectNotFound /\ forall v, v ∈ ups -> objs v = i64_max
  end /\
  (ups <> [] -> exists u, rand_pick Intn ups = inr u /\ u ∈ ups).
Proof.
  intros HI Hb. unfold lfs, mfs, lus, lno. split_and!.
  - pose proof (pick_loop_spec 1 _ free _ ups i64_max None (seeks_lfs MinFreeSpace)) as H.
    destruct (pick_loop _ _ _ _ _) as [u|].
    + destruct H as [[? _]|(Hin & He & Hlt & Hall)]; [done|]. breflect.
      split_and!; [done|done|]. intros v Hv Hm. apply Z.ltb_lt in Hm. specialize (Hall v Hv Hm). lia.
    + split; [done|]. intros v Hv. destruct H as [_ H]. destruct (Hb v Hv).
      destruct (MinFreeSpace v <? free v) eqn:E; breflect; [right|lia].
      apply Z.ltb_lt in E. specialize (H v Hv E). lia.
  - pose proof (pick_loop_spec (-1) _ free _ ups 0 None seeks_most) as H.
    destruct (pick_loop _ _ _ _ _) as [u|].
    + destruct H as [[? _]|(Hin & He & Hlt & Hall)]; [done|]. split_and!; [done|lia|].
      intros v Hv. specialize (Hall v Hv eq_refl). lia.
    + split; [done|]. intros v Hv. destruct H as [_ H]. specialize (H v Hv eq_refl). lia.
  - pose proof (pick_loop_spec 1 _ used _ ups i64_max None seeks_least) as H.
    destruct (pick_loop _ _ _ _ _) as [u|].
    + destruct H as [[? _]|(Hin & He & Hlt & Hall)]; [done|]. split; [done|].
      intros v Hv. specialize (Hall v Hv eq_refl). lia.
    + split; [done|]. intros v Hv. destruct H as [_ H]. specialize (H v Hv eq_refl).
      destruct (Hb v Hv) as (_ & ? & _). lia.
  - pose proof (pick_loop_spec 1 _ objs _ ups i64_max None seeks_least) as H.
    destruct (pick_loop _ _ _ _ _) as [u|].
    + destruct H as [[? _]|(Hin & He & Hlt & Hall)]; [done|]. split; [done|].
      intros v Hv. specialize (Hall v Hv eq_refl). lia.
    + split; [done|]. intros v Hv. destruct H as [_ H]. specialize (H v Hv eq_refl).
      destruct (Hb v Hv) as (_ & _ & ?). lia.
  - intros Hne. unfold rand_pick.
    destruct (lookup_lt_is_Some_2 ups (Intn (length ups))) as [u Hu].
    { apply HI. destruct ups; [done|]. simpl. lia. }
    rewrite Hu. exists u. split; [done|]. by eapply list_elem_of_lookup_2.
Qed.

Definition ex_free (u : Fs) : Z := if str_eqb (Name u) "a" then 5 else 7.

Lemma selections_correct_witness :
  lfs ex_free [ex_fs "b" true; ex_fs "a" true] = inr (ex_fs "a" true) /\
  forall v, v ∈ [ex_fs "b" true; ex_fs "a" true] -> ex_free v <= 7.
Proof.
  split; [reflexivity|].
  destruct (selections_correct ex_free ex_free ex_free pred [ex_fs "b" true; ex_fs "a" true])
    as (_ & H & _).
  - intros n Hn. lia.
  - intros u _. unfold ex_free, i64_max. destruct (str_eqb _ _); lia.
  - apply H.
Defined.

(** The variant of a selection for entries chooses the entry whose
    upstream the variant for upstreams chooses; where that variant reports an
    error, [lfs] reports the same one, but [mfs], [lus] and [lno] answer with a
    [nil] entry and no error. *)
Theorem entries_agree free used objs (es : list Entry) :
  let fs_of := fun r : result (option Entry) =>
    match r with inl err => inl err | inr (Some e) => inr (UpstreamFs e)
               | inr None => inl ErrorObjectNotFound end in
  let ups := UpstreamFs <$> es in
  lfs free ups = fs_of (lfsEntries free es) /\
  mfs free ups = fs_of (mfsEntries free es) /\
  lus used ups = fs_of (lusEntries used es) /\
  lno objs ups = fs_of (lnoEntries objs es).
Proof.
  intros fs_of ups. unfold lfs, mfs, lus, lno, lfsEntries, mfsEntries, lusEntries, lnoEntries, ups.
  change (@None Fs) with (UpstreamFs <$> @None Entry).
  rewrite !pick_loop_fmap. split_and!; by destruct (pick_loop _ _ _ _ es).
Qed.

(** When every writable candidate has no free space left, the action of
    the [mfs] and [epmfs] policies on entries succeeds with a [nil] entry. *)
Theorem mfs_nil_entry List EqualFold DefaultTime free replies (es : list Entry) :
  filterROEntries es <> [] ->
  (forall e, e ∈ filterROEntries es -> free (UpstreamFs e) <= 0) ->
  ActionEntries (EpMfs List EqualFold DefaultTime free replies) es = inr [None].
Proof.
  intros Hne Hfree. simpl. rewrite bind_guarded. unfold guarded.
  destruct es as [|e0 es0]; [done|]. set (es := e0 :: es0) in *.
  destruct (filterROEntries es) as [|e1 es1] eqn:E; [done|]. cbn [bind_result].
  rewrite entries_of_some. unfold mfsEntries.
  pose proof (pick_loop_spec (-1) _ (fun e => free (UpstreamFs e)) _ (e1 :: es1) 0 None seeks_most) as H.
  destruct (pick_loop _ _ _ _ _) as [u|]; [|done].
  destruct H as [[? _]|(Hin & _ & Hlt & _)]; [done|]. specialize (Hfree u Hin). lia.
Qed.

Definition ex_entry : Entry :=
  mkEntry (EObject (mkObject "f" 1 0 None true 0)) (ex_fs "a" true).

Lemma mfs_nil_entry_witness :
  ActionEntries (EpMfs (fun _ _ => ([], false)) str_eqb 0 (fun _ => 0) (fun l => l)) [ex_entry]
  = inr [None].
Proof.
  apply (mfs_nil_entry (fun _ _ => ([], false)) str_eqb 0 (fun _ => 0) (fun l => l) [ex_entry]).
  - discriminate.
  - intros e _. lia.
Defined.

End UnionPolicy.
