(* ===== verification/Union.v ===== *)
(** * The union backend (backend/union)

    [Errors] of errors.go, the usage cache of upstream/upstream.go, and the
    operations of union.go and entry.go on top of the policies of
    [UnionPolicy].

    The upstreams are remotes outside this development: a call of one of them
    acts on a state [W] ([call]) and answers with an error or not, and what the
    listings of a state say is an argument of the policies.  [multithread] runs
    its calls concurrently, each on an upstream of its own, and waits for all
    of them; here they run in the order of the upstreams. *)
From S2P Require Import Prelude GoPath Entries UnionPolicy.

Module Union.
Import GoPath Entries UnionPolicy.

(** ** Errors: errors.go *)

(** The errors of the package: those of the policies (which include
    [fs.ErrorObjectNotFound]), those of the backends, an error with the name of
    its upstream in front ([fmt.Errorf] with [%w]), and a list of errors. *)
Inductive err :=
| EPolicy (e : perror)
| EDirNotFound
| EDirExists
| ECantPurge
| ENotAFile
| EIsFile
| EUnknownType
| EUsage                            (* ErrUsageFieldNotSupported *)
| EWriteback (n : Z)                (* more than one :writeback upstream *)
| EOther (msg : string)
| EAt (name : string) (e : err)
| EErrors (es : list (option err)).

(** [errors.Is(e, target)] for the sentinel errors. *)
Fixpoint errors_Is (target : err -> bool) (e : err) : bool :=
  target e ||
  match e with
  | EAt _ e' => errors_Is target e'
  | EErrors es => existsb (fun o => match o with Some e' => errors_Is target e' | None => false end) es
  | _ => false
  end.

Definition is_dir_not_found (e : err) : bool := match e with EDirNotFound => true | _ => false end.
Definition is_dir_exists (e : err) : bool := match e with EDirExists => true | _ => false end.

(** [type Errors []error]; [None] is a nil error. *)
Abbreviation Errors := (list (option err)).

Definition Map (e : Errors) (mapping : option err -> option err) : Errors :=
  filter (fun o => o <> None) (mapping <$> e).

Definition FilterNil (e : Errors) : Errors := Map e (fun o => o).

Definition Err (e : Errors) : option err :=
  match FilterNil e with [] => None | ne => Some (EErrors ne) end.

(** [Error()], with the text of an error and of a number given. *)
Definition Error_string (text : err -> string) (itoa : nat -> string) (e : Errors) : string :=
  (match e with
   | [] => "no error"
   | [_] => "1 error: "
   | _ => itoa (length e) +:+ " errors: "
   end) +:+
  join_with "; " ((fun o => match o with Some x => text x | None => "nil error" end) <$> e).

(** ** The usage cache of an upstream: upstream/upstream.go *)

Record Usage := mkUsage {
  Total : option Z; Used : option Z; Trashed : option Z;
  Other : option Z; Free : option Z; Objects : option Z }.

Record cache := mkCache {
  usage : Usage;
  cacheTime : Z;
  cacheExpiry : Z;
  onceDone : bool;
  cacheUpdate : bool;
}.

Section usage_cache.
(** [f.RootFs.Features().About]: not there, or what it returns. *)
Variable about : option (err + Usage).
Variable now : Z.

Definition updateUsageCore (c : cache) : cache * option err :=
  match about with
  | Some (inr u) => (mkCache u (cacheTime c) (now + cacheTime c) (onceDone c) (cacheUpdate c), None)
  | Some (inl e) =>
      (mkCache (usage c) (cacheTime c) (cacheExpiry c) (onceDone c) false,
       if errors_Is is_dir_not_found e then None else Some e)
  | None => (c, Some EUsage)
  end.

(** The first update is done in the call, the later ones in the background:
    [cacheUpdate] is set and [background] runs some time later. *)
Definition updateUsage (c : cache) : cache * option err :=
  match about with
  | None => (c, Some EUsage)
  | Some _ =>
      if negb (onceDone c) then
        let '(c, e) := updateUsageCore c in
        (mkCache (usage c) (cacheTime c) (cacheExpiry c) true (cacheUpdate c), e)
      else if negb (cacheUpdate c) then
        (mkCache (usage c) (cacheTime c) (cacheExpiry c) (onceDone c) true, None)
      else (c, None)
  end.

Definition background (c : cache) : cache :=
  let '(c, _) := updateUsageCore c in
  mkCache (usage c) (cacheTime c) (cacheExpiry c) (onceDone c) false.

(** The refresh at the start of [About] and of the three getters. *)
Definition refreshed (c : cache) : cache * option err :=
  if cacheExpiry c <=? now then updateUsage c else (c, None).

Definition About (c : cache) : cache * (err + Usage) :=
  match refreshed c with
  | (c, Some _) => (c, inl EUsage)
  | (c, None) => (c, inr (usage c))
  end.

(** A getter: its field and the number to return when it is not known. *)
Definition getter (field : Usage -> option Z) (unknown : Z) (c : cache) : cache * (Z * option err) :=
  match refreshed c with
  | (c, Some _) => (c, (unknown, Some EUsage))
  | (c, None) =>
      match field (usage c) with
      | None => (c, (unknown, Some EUsage))
      | Some n => (c, (n, None))
      end
  end.

Definition GetFreeSpace : cache -> cache * (Z * option err) := getter Free (i64_max - 1).
Definition GetUsedSpace : cache -> cache * (Z * option err) := getter Used 0.
Definition GetNumObjects : cache -> cache * (Z * option err) := getter Objects 0.
End usage_cache.

Definition set_usage (c : cache) (u : Usage) : cache :=
  mkCache u (cacheTime c) (cacheExpiry c) (onceDone c) (cacheUpdate c).

Definition add_opt (n : Z) (o : option Z) : option Z :=
  match o with Some x => Some (i64 (x + n)) | None => None end.

(** [Fs.Put] and [Fs.PutStream] of an upstream: the accounting after an upload
    of [size] bytes that did not fail. *)
Definition usage_put (c : cache) (size : Z) : cache :=
  let u := usage c in
  set_usage c (mkUsage (Total u) (add_opt size (Used u)) (Trashed u) (Other u)
                 (add_opt (- size) (Free u)) (add_opt 1 (Objects u))).

(** [Object.Update] of an upstream: the object had [size] bytes and has
    [newSize] after an update that did not fail. *)
Definition usage_update (c : cache) (size newSize : Z) : cache :=
  let delta := i64 (newSize - size) in
  if delta <=? 0 then c
  else
    let u := usage c in
    set_usage c (mkUsage (Total u) (add_opt size (Used u)) (Trashed u) (Other u)
                   (add_opt (- size) (Free u)) (Objects u)).

(** [Prepare]: which upstream, if any, the others write back to. *)
Definition Prepare (writeback : list bool) : err + list (option nat) :=
  match filter (fun p => snd p = true) (imap (fun i b => (i, b)) writeback) with
  | [] => inr ((fun _ => None) <$> writeback)
  | [(w, _)] => inr ((fun b : bool => if b then None else Some w) <$> writeback)
  | l => inl (EWriteback (Z.of_nat (length l)))
  end.

(** ** Operations of the union: union.go *)

(** The calls of an upstream that change it. *)
Inductive call :=
| CMkdir (dir : string)
| CRmdir (dir : string)
| CPurge (dir : string)
| CRemove (remote : string)
| CSetModTime (remote : string) (t : Z)
| CSetDirModTime (remote : string) (t : Z)
| CUpdate (remote : string).

(** An entry of the union: the upstream entry that the search policy chose and
    the candidates it was chosen from. *)
Record merged := mkMerged { chosen : Entry; candidates : list Entry }.

(** Go code that can panic (a type assertion on a [nil] interface). *)
Inductive outcome (A : Type) := Ret (a : A) | Panic.
Arguments Ret {A}.
Arguments Panic {A}.

Definition at_name (u : Fs) (o : option err) : option err :=
  match o with Some e => Some (EAt (Name u) e) | None => None end.

Section union_ops.
Context {W : Type}.
Variable exec : Fs -> call -> W -> W * option err.
Variable upload : Fs -> string -> W -> W * (err + Object).
Variable NewObject_u : W -> Fs -> string -> err + Object.
Variable List_u : W -> Fs -> string -> err + list DirEntry.
Variable About_u : W -> Fs -> err + Usage.
Variable ToLower : string -> string.
(** The policies, which read the listings and the usage of the state. *)
Variable actionPolicy createPolicy searchPolicy : W -> Policy.
(** The fields of [type Fs struct]. *)
Variable upstreams : list Fs.
Variable CanHaveEmptyDirectories CaseInsensitive_f : bool.

Definition action (w : W) (path : string) := Action (actionPolicy w) upstreams path.
Definition actionEntries (w : W) (es : list Entry) := ActionEntries (actionPolicy w) es.
Definition create (w : W) (path : string) := Create (createPolicy w) upstreams path.
Definition searchEntries (w : W) (es : list Entry) := SearchEntries (searchPolicy w) es.

Fixpoint multithread {A B} (fn : A -> W -> W * B) (l : list A) (w : W) : W * list B :=
  match l with
  | [] => (w, [])
  | a :: l' =>
      let '(w, b) := fn a w in
      let '(w, bs) := multithread fn l' w in
      (w, b :: bs)
  end.

(** One call per upstream, each error with the name of its upstream. *)
Definition call_all (c : call) (us : list Fs) (w : W) : W * Errors :=
  multithread (fun u w => let '(w, e) := exec u c w in (w, at_name u e)) us w.

Definition wrapEntries (w : W) (entries : list Entry) : err + merged :=
  match searchEntries w entries with
  | inl e => inl (EPolicy e)
  | inr None => inl EUnknownType
  | inr (Some e) => inr (mkMerged e entries)
  end.

Definition Rmdir (dir : string) (w : W) : W * option err :=
  match action w dir with
  | inl e =>
      if negb CanHaveEmptyDirectories && bool_decide (e = ErrorObjectNotFound) then (w, None)
      else (w, Some (EPolicy e))
  | inr us => let '(w, errs) := call_all (CRmdir dir) us w in (w, Err errs)
  end.

(** [mkdir]; [None] is fuel that ran out.  Every round goes one directory up. *)
Fixpoint mkdir (fuel : nat) (dir : string) (w : W) : option (W * (err + list Fs)) :=
  match fuel with
  | O => None
  | S fuel' =>
      let found : option (W * (err + list Fs)) :=
        match create w dir with
        | inr us => Some (w, inr us)
        | inl e =>
            if bool_decide (e = ErrorObjectNotFound) then
              if negb (str_eqb dir (parentDir dir)) then mkdir fuel' (parentDir dir) w
              else if str_eqb dir "" then Some (w, inr upstreams)
              else Some (w, inl (EPolicy e))
            else Some (w, inl (EPolicy e))
        end in
      match found with
      | None => None
      | Some (w, inl e) => Some (w, inl e)
      | Some (w, inr us) =>
          let '(w, errs) := call_all (CMkdir dir) us w in
          match Err errs with
          | Some e => Some (w, inl e)
          | None =>
              if str_eqb dir "" then
                Some (w, match create w dir with inl e => inl (EPolicy e) | inr us => inr us end)
              else Some (w, inr us)
          end
      end
  end.

Definition mkdir_fuel (dir : string) : nat := S (S (length (split_on slash dir))).

Definition Mkdir (dir : string) (w : W) : option (W * option err) :=
  match mkdir (mkdir_fuel dir) dir w with
  | None => None
  | Some (w, inl e) => Some (w, Some e)
  | Some (w, inr _) => Some (w, None)
  end.

(** [canPurge]: every upstream has the feature Purge. *)
Definition Purge (canPurge : bool) (dir : string) (w : W) : W * option err :=
  if negb canPurge then (w, Some ECantPurge)
  else match action w "" with
       | inl e => (w, Some (EPolicy e))
       | inr us =>
           let '(w, errs) := multithread (fun u w =>
             let '(w, e) := exec u (CPurge dir) w in
             (w, at_name u (match e with
                            | Some x => if errors_Is is_dir_not_found x then None else e
                            | None => None end))) us w in
           (w, Err errs)
       end.

(** [put]: upload to the upstreams that the create policy chooses.  [readErr]
    is what [multiReader] reports. *)
Definition put (readErr : option err) (srcPath : string) (w : W)
  : option (W * outcome (err + merged)) :=
  let target : option (W * (err + list Fs)) :=
    match create w srcPath with
    | inr us => Some (w, inr us)
    | inl e =>
        if bool_decide (e = ErrorObjectNotFound)
        then mkdir (mkdir_fuel (parentDir srcPath)) (parentDir srcPath) w
        else Some (w, inl (EPolicy e))
    end in
  match target with
  | None => None
  | Some (w, inl e) => Some (w, Ret (inl e))
  | Some (w, inr [u]) =>
      match upload u srcPath w with
      | (w, inl e) => Some (w, Ret (inl e))
      | (w, inr o) =>
          Some (w, match wrapEntries w [mkEntry (EObject o) u] with
                   | inl _ => Panic
                   | inr m => Ret (inr m)
                   end)
      end
  | Some (w, inr us) =>
      let '(w, rs) := multithread (fun u w => let '(w, r) := upload u srcPath w in (w, (u, r))) us w in
      let errs := ((fun p : Fs * (err + Object) =>
                      match snd p with inl e => at_name (fst p) (Some e) | inr _ => None end) <$> rs)
                  ++ [readErr] in
      match Err errs with
      | Some e => Some (w, Ret (inl e))
      | None =>
          let objs := omap (fun p : Fs * (err + Object) =>
                        match snd p with inl _ => None
                                       | inr o => Some (mkEntry (EObject o) (fst p)) end) rs in
          Some (w, match wrapEntries w objs with inl _ => Panic | inr m => Ret (inr m) end)
      end
  end.

(** [NewObject]: an object can come with an error. *)
Definition NewObject (remote : string) (w : W) : err + (merged * option err) :=
  let rs := (fun u => (u, NewObject_u w u remote)) <$> upstreams in
  let errs := (fun p : Fs * (err + Object) =>
                 match snd p with
                 | inl (EPolicy ErrorObjectNotFound) => None
                 | inl e => at_name (fst p) (Some e)
                 | inr _ => None
                 end) <$> rs in
  let entries := omap (fun p : Fs * (err + Object) =>
                   match snd p with inl _ => None
                                  | inr o => Some (mkEntry (EObject o) (fst p)) end) rs in
  match entries with
  | [] => inl (EPolicy ErrorObjectNotFound)
  | _ => match wrapEntries w entries with
         | inl e => inl e
         | inr m => inr (m, Err errs)
         end
  end.

(** ** Listing *)

Definition merge_key (e : Entry) : string :=
  if CaseInsensitive_f then ToLower (Remote (entry e)) else Remote (entry e).

Definition entryMap (entriesList : list (list Entry)) : gmap string (list Entry) :=
  foldl (fun m e => <[merge_key e := default [] (m !! merge_key e) ++ [e]]> m) ∅ (concat entriesList).

(** The range over [entryMap], in the order of its visits. *)
Fixpoint merge_all (w : W) (m : gmap string (list Entry)) (order : list string) : err + list merged :=
  match order with
  | [] => inr []
  | path :: order' =>
      match wrapEntries w (default [] (m !! path)) with
      | inl e => inl e
      | inr x => match merge_all w m order' with inl e => inl e | inr xs => inr (x :: xs) end
      end
  end.

Definition mergeDirEntries (w : W) (order : list string) (entriesList : list (list Entry))
  : err + list merged :=
  merge_all w (entryMap entriesList) order.

(** The listings of the upstreams, and the errors. *)
Definition upstream_lists (dir : string) (w : W) : list (list Entry) * Errors :=
  let rs := (fun u => (u, List_u w u dir)) <$> upstreams in
  ((fun p : Fs * (err + list DirEntry) =>
      match snd p with inl _ => [] | inr es => (fun e => mkEntry e (fst p)) <$> es end) <$> rs,
   (fun p : Fs * (err + list DirEntry) =>
      match snd p with inl e => at_name (fst p) (Some e) | inr _ => None end) <$> rs).

Definition List_union (order : list string) (dir : string) (w : W) : err + list merged :=
  let '(entriesList, errs) := upstream_lists dir w in
  if (length errs =? length (FilterNil errs))%nat then
    let errs := Map errs (fun o => match o with
                                   | Some e => if errors_Is is_dir_not_found e then None else o
                                   | None => None end) in
    match errs with
    | [] => inl EDirNotFound
    | _ => match Err errs with Some e => inl e | None => inr [] end
    end
  else mergeDirEntries w order entriesList.

(** [About]: a field is the sum of the upstreams' fields if they all have it. *)
Definition sum_field (a b : option Z) : option Z :=
  match b, a with Some y, Some x => Some (i64 (x + y)) | _, _ => None end.

Fixpoint about_loop (w : W) (acc : Usage) (us : list Fs) : err + Usage :=
  match us with
  | [] => inr acc
  | u :: us' =>
      match About_u w u with
      | inl e => if errors_Is is_dir_not_found e then about_loop w acc us' else inl e
      | inr x =>
          about_loop w (mkUsage (sum_field (Total acc) (Total x)) (sum_field (Used acc) (Used x))
            (sum_field (Trashed acc) (Trashed x)) (sum_field (Other acc) (Other x))
            (sum_field (Free acc) (Free x)) (sum_field (Objects acc) (Objects x))) us'
      end
  end.

Definition About_union (w : W) : err + Usage :=
  about_loop w (mkUsage (Some 0) (Some 0) (Some 0) (Some 0) (Some 0) (Some 0)) upstreams.

(** ** Operations on entries: entry.go *)

(** The action on the chosen candidates; an entry of the other kind, or a
    [nil] one, gives [wrong] instead. *)
Definition each_entry (dirs : bool) (wrong : err) (c : string -> call) (es : list (option Entry)) (w : W)
  : W * Errors :=
  multithread (fun o w =>
    match o with
    | Some e =>
        if Bool.eqb (is_dir (entry e)) dirs then
          let '(w, r) := exec (UpstreamFs e) (c (Remote (entry e))) w in
          (w, at_name (UpstreamFs e) r)
        else (w, Some wrong)
    | None => (w, Some wrong)
    end) es w.

Definition act_entries (dirs : bool) (wrong : err) (c : string -> call) (co : list Entry) (w : W)
  : W * option err :=
  match actionEntries w co with
  | inl e => (w, Some (EPolicy e))
  | inr es => let '(w, errs) := each_entry dirs wrong c es w in (w, Err errs)
  end.

Definition Object_Remove (co : list Entry) (w : W) : W * option err :=
  act_entries false ENotAFile CRemove co w.

Definition Object_SetModTime (t : Z) (co : list Entry) (w : W) : W * option err :=
  act_entries false ENotAFile (fun r => CSetModTime r t) co w.

Definition Directory_SetModTime (t : Z) (cd : list Entry) (w : W) : W * option err :=
  act_entries true EIsFile (fun r => CSetDirModTime r t) cd w.

(** [Object.Update]: without a writable candidate a new object is made, and
    the union object becomes that one. *)
Definition Object_Update (readErr : option err) (srcPath : string) (o : merged) (w : W)
  : option (W * outcome (merged * option err)) :=
  match actionEntries w (candidates o) with
  | inl ErrorPermissionDenied =>
      match put readErr srcPath w with
      | None => None
      | Some (w, Panic) => Some (w, Panic)
      | Some (w, Ret (inl e)) => Some (w, Ret (o, Some e))
      | Some (w, Ret (inr newO)) => Some (w, Ret (newO, None))
      end
  | inl e => Some (w, Ret (o, Some (EPolicy e)))
  | inr [oe] =>
      match oe with
      | Some e =>
          if is_dir (entry e) then Some (w, Panic)
          else let '(w, r) := exec (UpstreamFs e) (CUpdate (Remote (entry e))) w in
               Some (w, Ret (o, r))
      | None => Some (w, Panic)
      end
  | inr es =>
      let '(w, errs) := each_entry false ENotAFile CUpdate es w in
      Some (w, Ret (o, Err (errs ++ [readErr])))
  end.
End union_ops.

(** [Directory.ModTime]: the latest of the candidates; [Directory.Size]. *)
Definition Directory_ModTime (times : list Z) : Z :=
  fold_left (fun t ti => if t <? ti then ti else t) times zero_time.

Definition Directory_Size (sizes : list Z) : Z := fold_left (fun s n => i64 (s + n)) sizes 0.

(** [multiReader]: the array of [2n+1] errors that the copying goroutine
    fills, and what it sends. *)
Definition multiReader_errs (n : nat) (copyErr : option err) (flush close : nat -> option err)
  : Errors :=
  let es := <[(2 * n)%nat := copyErr]> (replicate (2 * n + 1) None) in
  let es := foldl (fun es i => <[i := flush i]> es) es (seq 0 n) in
  foldl (fun es i => <[(2 * i)%nat := close i]> es) es (seq 0 n).

Definition multiReader_err (n : nat) (copyErr : option err) (flush close : nat -> option err)
  : option err :=
  Err (multiReader_errs n copyErr flush close).

(** ** Lemmas on errors *)

Lemma Err_none es : Err es = None <-> Forall (fun o => o = None) es.
Proof.
  unfold Err, FilterNil, Map. rewrite list_fmap_id.
  induction es as [|[e|] es IH]; [done| |].
  - rewrite filter_cons_True by done. split; [done|]. intros H. by inversion H.
  - rewrite filter_cons_False by naive_solver. rewrite IH, Forall_cons. tauto.
Qed.

Lemma FilterNil_length es : length es = length (FilterNil es) <-> Forall (fun o => o <> None) es.
Proof.
  unfold FilterNil, Map. rewrite list_fmap_id.
  induction es as [|o es IH]; [done|]. rewrite filter_cons, Forall_cons. case_decide as Ho.
  - simpl. rewrite <- IH. split; [intros; split; [done|lia]|lia].
  - split; [|tauto]. intros Hl.
    pose proof (length_filter (fun o : option err => o <> None) es). simpl in Hl. lia.
Qed.

(** Filling positions [f 0], [f 1], ... of an array; [inv] is the inverse of [f]. *)
Lemma foldl_fill {A} (f : nat -> nat) (inv : nat -> option nat) (g : nat -> A) (es : list A) m j :
  (forall i j, f i = j <-> inv j = Some i) -> (j < length es)%nat ->
  foldl (fun es i => <[f i := g i]> es) es (seq 0 m) !! j =
  match inv j with
  | Some i => if (i <? m)%nat then Some (g i) else es !! j
  | None => es !! j
  end.
Proof.
  intros Hinv Hj.
  assert (Hlen : forall m, length (foldl (fun es i => <[f i:=g i]> es) es (seq 0 m)) = length es).
  { intros k. induction k as [|k IH]; [done|]. rewrite seq_S, foldl_app. cbn [foldl].
    by rewrite length_insert. }
  induction m as [|m IH]; [by destruct (inv j)|].
  rewrite seq_S, foldl_app. cbn [foldl]. rewrite Nat.add_0_l.
  destruct (decide (f m = j)) as [Hf|Hf].
  - rewrite Hf, list_lookup_insert_eq by (by rewrite Hlen). apply Hinv in Hf. rewrite Hf.
    by rewrite (proj2 (Nat.ltb_lt _ _)) by lia.
  - rewrite list_lookup_insert_ne, IH by done. destruct (inv j) as [i|] eqn:Ei; [|done].
    assert (i <> m) by (intros ->; apply Hinv in Ei; done).
    destruct (i <? m)%nat eqn:E1, (i <? S m)%nat eqn:E2; breflect; done || lia.
Qed.

Definition half (j : nat) : option nat := if Nat.even j then Some (Nat.div2 j) else None.

Lemma half_spec i j : (2 * i)%nat = j <-> half j = Some i.
Proof.
  unfold half. split.
  - intros <-. by rewrite Nat.even_even, Nat.div2_double.
  - destruct (Nat.even j) eqn:E; [|done]. intros [= <-].
    apply Nat.even_spec in E as [k ->]. by rewrite Nat.div2_double.
Qed.

(** What the array holds in the end, when the closes return [nil]. *)
Lemma multiReader_lookup n copyErr flush j :
  (j <= 2 * n)%nat ->
  multiReader_errs n copyErr flush (fun _ => None) !! j =
  Some (if (j =? 2 * n)%nat then copyErr
        else if Nat.even j then None else if (j <? n)%nat then flush j else None).
Proof.
  intros Hj. unfold multiReader_errs. set (es0 := <[(2 * n)%nat := copyErr]> _).
  assert (Hl0 : length es0 = (2 * n + 1)%nat) by (unfold es0; by rewrite length_insert, length_replicate).
  set (es1 := foldl (fun es i => <[i := flush i]> es) es0 (seq 0 n)).
  assert (H1 : forall j, (j <= 2 * n)%nat -> es1 !! j = if (j <? n)%nat then Some (flush j) else es0 !! j).
  { intros k Hk. unfold es1. rewrite (foldl_fill (fun i => i) Some); [done|naive_solver|lia]. }
  assert (Hl1 : length es1 = (2 * n + 1)%nat).
  { rewrite <- Hl0. unfold es1. generalize (seq 0 n), es0. intros l.
    induction l as [|i l IH]; intros es; [done|]. simpl. by rewrite IH, length_insert. }
  rewrite (foldl_fill (fun i => 2 * i)%nat half) by (apply half_spec || lia).
  assert (H0 : es0 !! j = Some (if (j =? 2 * n)%nat then copyErr else None)).
  { unfold es0. destruct (j =? 2 * n)%nat eqn:E; breflect.
    - subst. apply list_lookup_insert_eq. rewrite length_replicate. lia.
    - rewrite list_lookup_insert_ne by done. apply lookup_replicate_2. lia. }
  unfold half. destruct (Nat.even j) eqn:Ee.
  - apply Nat.even_spec in Ee as [k ->]. rewrite Nat.div2_double, H1 by lia. rewrite H0.
    repeat case_if; breflect; try lia; done.
  - rewrite H1, H0 by lia. assert (j <> 2 * n)%nat.
    { intros ->. by rewrite Nat.even_even in Ee. }
    repeat case_if; breflect; try lia; done.
Qed.

(** [multiReader] reports an error when the copy failed or when flushing
    to a reader with an odd index failed; the pipes' close results, always
    [nil], are stored over the flush errors of the even ones, so a failure
    there is lost. *)
Theorem multiReader_loses_errors n copyErr flush :
  multiReader_err n copyErr flush (fun _ => None) = None <->
  copyErr = None /\ forall i, (i < n)%nat -> Nat.even i = false -> flush i = None.
Proof.
  unfold multiReader_err. rewrite Err_none, Forall_lookup.
  pose proof (multiReader_lookup n copyErr flush) as Hl. split.
  - intros H. split.
    + specialize (Hl (2 * n)%nat ltac:(lia)). rewrite Nat.eqb_refl in Hl.
      by apply H in Hl.
    + intros i Hi Ho. specialize (Hl i ltac:(lia)). rewrite Ho in Hl.
      rewrite (proj2 (Nat.eqb_neq _ _)), (proj2 (Nat.ltb_lt _ _)) in Hl by lia. by apply H in Hl.
  - intros [Hc Hf] j o Hj.
    assert (j <= 2 * n)%nat as Hjn.
    { apply lookup_lt_Some in Hj. unfold multiReader_errs in Hj.
      assert (Hlen : forall (f : nat -> nat) (g : nat -> option err) l (es : Errors),
        length (foldl (fun es i => <[f i := g i]> es) es l) = length es).
      { intros f g l. induction l as [|i l IH]; intros es; [done|]. simpl.
        by rewrite IH, length_insert. }
      rewrite !Hlen, length_insert, length_replicate in Hj. lia. }
    rewrite Hl in Hj by done. simplify_eq. repeat case_if; breflect; try done. by apply Hf.
Qed.

(** ** Accounting of the usage *)

(** After an update that makes an object grow, the cached used space grows
    by the size the object had before, not by the difference; it is right only
    when the size doubled. *)
Theorem update_adds_old_size c size newSize used :
  Used (usage c) = Some used -> 0 <= size < newSize -> 0 <= used -> used + newSize <= i64_max ->
  Used (usage (usage_update c size newSize)) = Some (used + size) /\
  (Used (usage (usage_update c size newSize)) = Some (used + (newSize - size)) <-> newSize = 2 * size).
Proof.
  intros Hu Hs H0 Hb. unfold usage_update. rewrite i64_id by (unfold in_i64, i64_min; lia).
  case_if; [lia|]. simpl. rewrite Hu. simpl. rewrite i64_id by (unfold in_i64, i64_min; lia).
  split; [done|]. split; [intros [= H]; lia|]. intros ->. do 2 f_equal. lia.
Qed.

Definition ex_usage : Usage := mkUsage None (Some 1000) None None (Some 50) (Some 3).
Definition ex_cache : cache := mkCache ex_usage 120 0 true false.

Lemma update_adds_old_size_witness :
  Used (usage (usage_update ex_cache 10 500)) = Some 1010.
Proof.
  destruct (update_adds_old_size ex_cache 10 500 1000) as [H _].
  - reflexivity.
  - lia.
  - lia.
  - unfold i64_max. lia.
  - exact H.
Defined.

(** The free space that the cache reports is not kept within
    [0..MaxInt64-1], as its comment says: an upload larger than the free space
    known makes it negative, until the next refresh. *)
Theorem free_space_negative c size free about now :
  Free (usage c) = Some free -> 0 <= free < size -> size <= i64_max -> now < cacheExpiry c ->
  fst (snd (GetFreeSpace about now (usage_put c size))) = free - size /\ free - size < 0.
Proof.
  intros Hf Hs Hb Hn. unfold GetFreeSpace, getter, refreshed. simpl.
  rewrite (proj2 (Z.leb_gt _ _)) by done. simpl. rewrite Hf. simpl.
  unfold i64_max in Hb. rewrite i64_id by (unfold in_i64, i64_min, i64_max; lia). lia.
Qed.

Lemma free_space_negative_witness :
  fst (snd (GetFreeSpace None (-1) (usage_put ex_cache 60))) = -10.
Proof.
  destruct (free_space_negative ex_cache 60 50 None (-1)) as [H _].
  - reflexivity.
  - lia.
  - unfold i64_max. lia.
  - reflexivity.
  - exact H.
Defined.

(** ** Which upstreams the operations touch *)

Section logged.
Context {W : Type}.
Variable exec : Fs -> call -> W -> W * option err.

(** The state with a log of the calls and their errors. *)
Definition logged : Type := W * list (Fs * call * option err).

Definition exec_log (u : Fs) (c : call) (s : logged) : logged * option err :=
  let '(w, log) := s in
  let '(w, e) := exec u c w in ((w, log ++ [(u, c, e)]), e).

Lemma exec_log_eq u c w log w' e :
  exec u c w = (w', e) -> exec_log u c (w, log) = ((w', log ++ [(u, c, e)]), e).
Proof. intros H. unfold exec_log. by rewrite H. Qed.

Lemma call_all_log c us w log :
  exists w' es, length es = length us /\
    call_all exec_log c us (w, log) =
    ((w', log ++ zip_with (fun u e => (u, c, e)) us es), zip_with at_name us es).
Proof.
  revert w log. induction us as [|u us IH]; intros w log.
  { exists w, []. split; [done|]. cbn. by rewrite app_nil_r. }
  unfold call_all in *. cbn [multithread]. destruct (exec u c w) as [w1 e] eqn:E.
  rewrite (exec_log_eq u c w log w1 e E).
  destruct (IH w1 (log ++ [(u, c, e)])) as (w' & es & Hl & Hc).
  rewrite Hc. exists w', (e :: es). simpl. split; [by f_equal|].
  by rewrite <- app_assoc.
Qed.
End logged.

(** ** [mkdir] *)

Lemma trim_no_slash s : has_char slash s = false -> trim_right_slash s = s.
Proof.
  induction s as [|c s IH]; [done|]. simpl. intros [Hc Hs]%orb_false_iff. by rewrite Hc, IH.
Qed.

Lemma trim_app a b :
  b <> "" -> has_char slash b = false -> trim_right_slash (a +:+ b) = a +:+ b.
Proof.
  intros Hb Hs. induction a as [|c a IH]; [by apply trim_no_slash|].
  change (trim_right_slash (String c (a +:+ b)) = String c (a +:+ b)).
  cbn [trim_right_slash]. rewrite IH.
  assert (str_eqb (a +:+ b) "" = false) as ->; [|by rewrite andb_false_r].
  apply str_eqb_neq. by destruct a.
Qed.

(** On a clean path the [parentDir] of the union is that of [GoPath]. *)
Lemma parentDir_clean p : below "" p -> parentDir p = GoPath.parentDir p.
Proof.
  intros (rp & ps & Hrp & Hps & Hr & ->). unfold parentDir, GoPath.parentDir.
  assert (trim_right_slash (join_with "/" (rp ++ ps)) = join_with "/" (rp ++ ps)) as ->; [|done].
  destruct (rp ++ ps) as [|x l _] eqn:E using rev_ind; [done|].
  assert (Hx : good x).
  { assert (Hall : Forall good (rp ++ ps)) by (by apply Forall_app). rewrite E in Hall.
    apply Forall_app in Hall as [_ Hx]. by apply Forall_cons in Hx as [? _]. }
  rewrite join_snoc. apply trim_app; apply Hx.
Qed.

Section mkdir_proof.
Context {W : Type}.
Variable exec : Fs -> call -> W -> W * option err.
Variable createPolicy : @logged W -> Policy.
Variable upstreams : list Fs.

Definition made (dir : string) (u : Fs) : Fs * call * option err := (u, CMkdir dir, None).

Lemma zip_none c (us : list Fs) (es : list (option err)) :
  length es = length us -> Err (zip_with at_name us es) = None ->
  zip_with (fun u e => (u, c, e)) us es = (fun u => (u, c, None) : Fs * call * option err) <$> us.
Proof.
  rewrite Err_none. revert es. induction us as [|u us IH]; intros [|e es] Hl Hn; try done.
  simpl in *. apply Forall_cons in Hn as [He Hn]. destruct e; [done|]. f_equal. apply IH; [lia|done].
Qed.

(** The part of [mkdir] after the upstreams are found. *)
Lemma mkdir_calls dir us w log :
  exists w' new,
    (forall u c e, (u, c, e) ∈ new -> c = CMkdir dir) /\
    (exists errs, call_all (exec_log exec) (CMkdir dir) us (w, log) = ((w', log ++ new), errs) /\
      (Err errs = None -> new = made dir <$> us)).
Proof.
  destruct (call_all_log exec (CMkdir dir) us w log) as (w' & es & Hl & Hc).
  eexists w', _. split; [|eexists; split; [exact Hc|by apply zip_none]].
  intros u c e Hin. apply elem_of_lookup_zip_with in Hin as (i & u' & e' & Hin & _). congruence.
Qed.

Lemma mkdir_spec fuel dir w log :
  below "" dir ->
  (length (split_on slash dir) < fuel \/ (dir = "" /\ 0 < fuel))%nat ->
  exists w' new r,
    mkdir (exec_log exec) createPolicy upstreams fuel dir (w, log) = Some ((w', log ++ new), r) /\
    (forall u c e, (u, c, e) ∈ new -> exists d, c = CMkdir d /\ rtc (fun a b => b = parentDir a) dir d) /\
    (forall us, r = inr us -> dir <> "" -> exists pre, new = pre ++ (made dir <$> us)).
Proof.
  revert dir w log. induction fuel as [|fuel IH]; intros dir w log Hb Hfuel; [lia|].
  cbn [mkdir].
  set (found := match create createPolicy upstreams (w, log) dir with inl _ => _ | inr _ => _ end).
  assert (Hfound : exists w1 new1 r1, found = Some ((w1, log ++ new1), r1) /\
    (forall u c e, (u, c, e) ∈ new1 -> exists d, c = CMkdir d /\
       rtc (fun a b => b = parentDir a) dir d)).
  { subst found.
    assert (Hnil : forall u c e, (u, c, e) ∈ @nil (Fs * call * option err) ->
      exists d, c = CMkdir d /\ rtc (fun a b => b = parentDir a) dir d)
      by (intros u c e H; by apply not_elem_of_nil in H).
    destruct (create createPolicy upstreams (w, log) dir) as [e|us].
    2:{ eexists w, [], _. rewrite app_nil_r. split; [done|exact Hnil]. }
    destruct (bool_decide (e = ErrorObjectNotFound)).
    2:{ eexists w, [], _. rewrite app_nil_r. split; [done|exact Hnil]. }
    destruct (str_eqb dir (parentDir dir)) eqn:Ep; cbn [negb].
    { destruct (str_eqb dir ""); eexists w, [], _; rewrite app_nil_r; split; done || exact Hnil. }
    apply str_eqb_neq in Ep.
    destruct (below_split "" dir Hb) as [->|[Hbp Hlen]]; [done|].
    rewrite <- (parentDir_clean dir Hb) in *.
    destruct (IH (parentDir dir) w log Hbp) as (w1 & new1 & r1 & -> & Hall & _).
    { destruct Hfuel as [Hfuel|[-> _]]; [|done].
      destruct Hlen as [Hlen|Hlen]; [left; lia|right; split; [done|]].
      pose proof (split_on_nonempty slash dir). destruct (split_on slash dir); simpl in *; [done|lia]. }
    eexists w1, new1, r1. split; [done|]. intros u c e' Hin.
    destruct (Hall u c e' Hin) as (d & -> & Hd). exists d. split; [done|]. by eapply rtc_l. }
  destruct Hfound as (w1 & new1 & r1 & -> & Hall1).
  destruct r1 as [e|us].
  { eexists w1, new1, _. split_and!; [done|done|]. done. }
  destruct (mkdir_calls dir us w1 (log ++ new1)) as (w2 & new2 & Hall2 & errs & -> & Hok).
  rewrite <- app_assoc.
  assert (Hall : forall u c e, (u, c, e) ∈ new1 ++ new2 ->
    exists d, c = CMkdir d /\ rtc (fun a b => b = parentDir a) dir d).
  { intros u c e [Hin|Hin]%elem_of_app; [by apply (Hall1 u c e)|].
    exists dir. split; [by apply (Hall2 u c e)|done]. }
  destruct (Err errs) as [e|].
  { eexists w2, (new1 ++ new2), _. split_and!; [done|done|]. done. }
  destruct (str_eqb dir "") eqn:Ed.
  { apply str_eqb_eq in Ed. eexists w2, (new1 ++ new2), _. split_and!; [done|done|]. done. }
  eexists w2, (new1 ++ new2), _. split_and!; [done|done|].
  intros us' [= <-] _. exists new1. by rewrite Hok.
Qed.
End mkdir_proof.

(** ** Merging of listings *)

Section merge_proof.
Context {W : Type}.
Variable searchPolicy : W -> Policy.
Variable ToLower : string -> string.
Variable ci : bool.

Abbreviation key := (merge_key ToLower ci).

Lemma entryMap_lookup es (m0 : gmap string (list Entry)) k :
  foldl (fun m e => <[key e := default [] (m !! key e) ++ [e]]> m) m0 es !! k =
  match filter (fun e => key e = k) es with
  | [] => m0 !! k
  | l => Some (default [] (m0 !! k) ++ l)
  end.
Proof.
  revert m0. induction es as [|e es IH]; intros m0; [done|]. cbn [foldl]. rewrite IH, filter_cons.
  case_decide as Hk.
  - subst k. rewrite !lookup_insert_eq. simpl.
    destruct (filter _ es); [done|]. by rewrite <- app_assoc.
  - rewrite !lookup_insert_ne by done. done.
Qed.

Definition with_key (k : string) (lists : list (list Entry)) : list Entry :=
  filter (fun e => key e = k) (concat lists).

Lemma entryMap_spec lists k :
  entryMap ToLower ci lists !! k =
  match with_key k lists with [] => None | l => Some l end.
Proof.
  unfold entryMap. rewrite entryMap_lookup, lookup_empty. unfold with_key.
  by destruct (filter _ _).
Qed.

Lemma merge_all_spec w lists order :
  (forall k, k ∈ order -> with_key k lists <> []) ->
  match merge_all searchPolicy w (entryMap ToLower ci lists) order with
  | inr ms => candidates <$> ms = (fun k => with_key k lists) <$> order /\
      Forall (fun m => searchEntries searchPolicy w (candidates m) = inr (Some (chosen m))) ms
  | inl e => exists k, k ∈ order /\ wrapEntries searchPolicy w (with_key k lists) = inl e
  end.
Proof.
  induction order as [|k order IH]; intros Hne; [done|]. cbn [merge_all].
  assert (default [] (entryMap ToLower ci lists !! k) = with_key k lists) as ->.
  { rewrite entryMap_spec. by destruct (with_key k lists). }
  destruct (wrapEntries searchPolicy w (with_key k lists)) as [e|m] eqn:Em.
  { exists k. split; [set_solver|done]. }
  specialize (IH ltac:(set_solver)).
  destruct (merge_all _ _ _ order) as [e|ms]; [destruct IH as (k' & ? & ?); exists k'; set_solver|].
  destruct IH as [H1 H2]. unfold wrapEntries in Em.
  destruct (searchEntries searchPolicy w (with_key k lists)) as [?|[x|]] eqn:Es; simplify_eq.
  split; [by rewrite !fmap_cons, H1|]. by constructor.
Qed.
End merge_proof.

(** Merging the listings of the upstreams gives, whatever the order in
    which the map is ranged over, one entry for every name that occurs; its
    candidates are all the entries with that name in the order of the
    upstreams, and the entry it stands for is the one of them that the search
    policy chooses.  It fails only if the search policy fails on some name. *)
Theorem mergeDirEntries_correct {W} (searchPolicy : W -> Policy) ToLower ci w order lists :
  contract (searchPolicy w) ->
  NoDup order -> (forall k, k ∈ order <-> is_Some (entryMap ToLower ci lists !! k)) ->
  match mergeDirEntries ToLower searchPolicy ci w order lists with
  | inr ms =>
      candidates <$> ms = (fun k => with_key ToLower ci k lists) <$> order /\
      (forall e, e ∈ concat lists ->
         exists m, m ∈ ms /\ e ∈ candidates m /\
         forall m', m' ∈ ms -> e ∈ candidates m' -> candidates m' = candidates m) /\
      (forall m, m ∈ ms -> chosen m ∈ candidates m)
  | inl e => exists k, k ∈ order /\ wrapEntries searchPolicy w (with_key ToLower ci k lists) = inl e
  end.
Proof.
  intros Hct Hnd Hord. unfold mergeDirEntries.
  pose proof (merge_all_spec searchPolicy ToLower ci w lists order) as H.
  destruct (merge_all _ _ _ order) as [e|ms].
  { apply H. intros k Hk. apply Hord in Hk as [l Hl]. rewrite entryMap_spec in Hl.
    by destruct (with_key _ _ k lists). }
  destruct H as [H1 H2].
  { intros k Hk. apply Hord in Hk as [l Hl]. rewrite entryMap_spec in Hl.
    by destruct (with_key _ _ k lists). }
  assert (Hcand : forall m, m ∈ ms -> exists k, candidates m = with_key ToLower ci k lists).
  { intros m Hm. apply (list_elem_of_fmap_2 candidates) in Hm. rewrite H1 in Hm.
    apply list_elem_of_fmap in Hm as (k & ? & _). eauto. }
  assert (Hkey : forall k e, e ∈ with_key ToLower ci k lists -> merge_key ToLower ci e = k).
  { intros k e He. by apply list_elem_of_filter in He as [? _]. }
  split_and!; [done| |].
  - intros e He. set (k := merge_key ToLower ci e).
    assert (Hek : e ∈ with_key ToLower ci k lists) by (by apply list_elem_of_filter).
    assert (Hko : k ∈ order).
    { apply Hord. rewrite entryMap_spec. destruct (with_key _ _ k lists); [set_solver|by eexists]. }
    assert (Hin : with_key ToLower ci k lists ∈ candidates <$> ms)
      by (rewrite H1; apply list_elem_of_fmap; by exists k).
    apply list_elem_of_fmap in Hin as (m & Hm & Hms). exists m. rewrite <- Hm. split_and!; [done|done|].
    intros m' Hm' He'. destruct (Hcand m' Hm') as [k' Hk']. rewrite Hk' in He'.
    rewrite Hk'. f_equal. by rewrite <- (Hkey _ _ He').
  - intros m Hm. rewrite Forall_forall in H2. specialize (H2 m Hm).
    by apply (ct_search_entries _ Hct (candidates m)) in H2.
Qed.

Definition ex_obj (name : string) : DirEntry := EObject (mkObject name 1 0 None true 0).
Definition ex_lists : list (list Entry) :=
  [[mkEntry (ex_obj "x") (ex_fs "a" true)];
   [mkEntry (ex_obj "x") (ex_fs "b" true); mkEntry (ex_obj "y") (ex_fs "b" true)]].
Definition ex_policy : unit -> Policy := fun _ => EpFF (fun _ _ => ([], false)) str_eqb 0 (fun l => l).

Lemma mergeDirEntries_correct_witness :
  exists ms, mergeDirEntries (fun s => s) ex_policy false tt ["y"; "x"] ex_lists = inr ms /\
    (forall m, m ∈ ms -> chosen m ∈ candidates m).
Proof.
  pose proof (mergeDirEntries_correct ex_policy (fun s => s) false tt ["y"; "x"] ex_lists) as H.
  destruct (mergeDirEntries (fun s => s) ex_policy false tt ["y"; "x"] ex_lists) as [e|ms] eqn:E.
  { discriminate E. }
  exists ms. split; [reflexivity|]. apply H.
  - apply contract_EpFF. reflexivity.
  - repeat constructor; set_solver.
  - intros k. rewrite entryMap_spec. unfold with_key, ex_lists. cbn [concat app].
    destruct (decide (k = "x")) as [->|Hx]; [|destruct (decide (k = "y")) as [->|Hy]].
    + split; [by eexists|set_solver].
    + split; [by eexists|set_solver].
    + rewrite !filter_cons_False by (intros Hk; cbn in Hk; congruence). rewrite filter_nil.
      split; [set_solver|by intros [? ?]].
Defined.

Lemma errors_Is_at f name e : f (EAt name e) = false -> errors_Is f (EAt name e) = errors_Is f e.
Proof. intros H. simpl. by rewrite H. Qed.

(** The errors of a listing that are not "directory not found". *)
Lemma map_failures (errs_of : Fs -> option err) us :
  Map ((fun u => at_name u (errs_of u)) <$> us)
    (fun o => match o with
              | Some e => if errors_Is is_dir_not_found e then None else o
              | None => None end) =
  omap (fun u => match errs_of u with
        | Some e => if errors_Is is_dir_not_found e then None else Some (Some (EAt (Name u) e))
        | None => None end) us.
Proof.
  unfold Map. induction us as [|u us IH]; [done|]. rewrite !fmap_cons, filter_cons.
  cbn [omap list_omap]. rewrite <- IH. destruct (errs_of u) as [e|]; cbn [at_name].
  - rewrite errors_Is_at by done. destruct (errors_Is is_dir_not_found e); by case_decide.
  - by case_decide.
Qed.

(** A listing of the union fails only if every upstream fails.  Then it is
    [ErrorDirNotFound] when all of them say so, and otherwise the errors that
    do not, each with the name of its upstream; if at least one upstream
    succeeds, the listings that succeeded are merged and errors are dropped. *)
Theorem List_errors {W} List_u ToLower (searchPolicy : W -> Policy) upstreams ci order dir w :
  let errs_of := fun u => match List_u w u dir with inl e => Some e | inr _ => None end in
  let failures := omap (fun u => match errs_of u with
                    | Some e => if errors_Is is_dir_not_found e then None else Some (Some (EAt (Name u) e))
                    | None => None end) upstreams in
  ((forall u, u ∈ upstreams -> is_Some (errs_of u)) ->
     List_union List_u ToLower searchPolicy upstreams ci order dir w =
     inl (match failures with [] => EDirNotFound | _ => EErrors failures end)) /\
  ((exists u, u ∈ upstreams /\ errs_of u = None) ->
     List_union List_u ToLower searchPolicy upstreams ci order dir w =
     mergeDirEntries ToLower searchPolicy ci w order
       ((fun u => match List_u w u dir with
                  | inl _ => []
                  | inr es => (fun e => mkEntry e u) <$> es end) <$> upstreams)).
Proof.
  intros errs_of failures. unfold List_union, upstream_lists.
  rewrite <- !list_fmap_compose. unfold compose. simpl.
  set (errs := (fun u => match List_u w u dir with inl e => _ | inr _ => _ end) <$> upstreams).
  assert (Herrs : errs = (fun u => at_name u (errs_of u)) <$> upstreams).
  { apply fmap_ext_in. intros u _. unfold errs_of. by destruct (List_u w u dir). }
  assert (Hall : (length errs =? length (FilterNil errs))%nat = true <->
    forall u, u ∈ upstreams -> is_Some (errs_of u)).
  { rewrite Nat.eqb_eq, FilterNil_length, Herrs, Forall_fmap, Forall_forall. unfold compose.
    split; intros H u Hu; specialize (H u Hu); destruct (errs_of u); simpl in *; try done; by eexists. }
  split.
  - intros H. rewrite (proj2 Hall H).
    assert (Map errs (fun o => match o with
      | Some e => if errors_Is is_dir_not_found e then None else o | None => None end) = failures) as ->.
    { rewrite Herrs. apply map_failures. }
    assert (Hf : Forall (fun o => o <> None) failures).
    { apply Forall_forall. intros o Ho. unfold failures in Ho.
      apply list_elem_of_omap in Ho as (u & _ & Hu). repeat case_match; simplify_eq. done. }
    destruct failures as [|f fs]; [done|]. unfold Err, FilterNil, Map. rewrite list_fmap_id.
    by rewrite filter_id.
  - intros (u & Hu & Hnone). destruct (length errs =? length (FilterNil errs))%nat eqn:E.
    + destruct (proj1 Hall eq_refl u Hu) as [? Hs]. congruence.
    + done.
Qed.

(** ** Actions *)

Lemma each_entry_calls {W} (exec : Fs -> call -> W -> W * option err) dirs wrong c es w log :
  exists w' new errs,
    each_entry (exec_log exec) dirs wrong c es (w, log) = ((w', log ++ new), errs) /\
    forall u k e, (u, k, e) ∈ new ->
      exists x, Some x ∈ es /\ UpstreamFs x = u /\ k = c (Remote (entry x)).
Proof.
  unfold each_entry. revert w log. induction es as [|o es IH]; intros w log.
  { exists w, [], []. cbn. rewrite app_nil_r. split; [done|].
    intros u k e H. by apply not_elem_of_nil in H. }
  assert (Hskip : forall w log, exists w' new errs,
    multithread (fun o w => match o with
      | Some e => if Bool.eqb (is_dir (entry e)) dirs
                  then let '(w, r) := exec_log exec (UpstreamFs e) (c (Remote (entry e))) w in
                       (w, at_name (UpstreamFs e) r)
                  else (w, Some wrong)
      | None => (w, Some wrong) end) es (w, log) = ((w', log ++ new), errs) /\
    forall u k e, (u, k, e) ∈ new ->
      exists x, Some x ∈ o :: es /\ UpstreamFs x = u /\ k = c (Remote (entry x))).
  { intros w0 log0. destruct (IH w0 log0) as (w' & new & errs & H1 & H2).
    exists w', new, errs. split; [done|]. intros u k e Hin.
    destruct (H2 u k e Hin) as (x & ? & ?). exists x. set_solver. }
  cbn [multithread]. destruct o as [e|].
  2:{ destruct (Hskip w log) as (w' & new & errs & -> & H). by eexists _, _, _. }
  destruct (Bool.eqb _ _).
  2:{ destruct (Hskip w log) as (w' & new & errs & -> & H). by eexists _, _, _. }
  destruct (exec (UpstreamFs e) (c (Remote (entry e))) w) as [w1 r] eqn:E.
  rewrite (exec_log_eq exec _ _ _ log _ _ E).
  destruct (Hskip w1 (log ++ [(UpstreamFs e, c (Remote (entry e)), r)])) as (w' & new & errs & -> & H).
  eexists _, (_ :: new), _. rewrite <- app_assoc. split; [done|].
  intros u k e' [Heq|Hin]%elem_of_cons; [|by apply (H u k e')].
  simplify_eq. exists e. set_solver.
Qed.

(** Removing a directory, and removing or changing an object or directory
    of the union, calls only upstreams that are writable: every call goes to
    an upstream that the action policy chose, by its contract a writable one
    of the union or of the candidates. *)
Theorem actions_writable {W} exec (actionPolicy : @logged W -> Policy) upstreams chd dir
    dirs wrong c co w log :
  (forall s, contract (actionPolicy s)) ->
  (exists w' new r,
     Rmdir (exec_log exec) actionPolicy upstreams chd dir (w, log) = ((w', log ++ new), r) /\
     forall u k e, (u, k, e) ∈ new -> k = CRmdir dir /\ u ∈ upstreams /\ writable u = true) /\
  (exists w' new r,
     act_entries (exec_log exec) actionPolicy dirs wrong c co (w, log) = ((w', log ++ new), r) /\
     forall u k e, (u, k, e) ∈ new ->
       exists x, x ∈ co /\ UpstreamFs x = u /\ k = c (Remote (entry x)) /\ writable u = true).
Proof.
  intros Hct. split.
  - unfold Rmdir. destruct (action actionPolicy upstreams (w, log) dir) as [e|us] eqn:Ea.
    { exists w, []. case_if; eexists; rewrite app_nil_r; (split; [done|]);
        intros u k e' Hn; by apply not_elem_of_nil in Hn. }
    destruct (call_all_log exec (CRmdir dir) us w log) as (w' & es & Hl & ->).
    eexists w', _, _. split; [done|]. intros u k e Hin.
    apply elem_of_lookup_zip_with in Hin as (i & u' & e' & Heq & Hu & _). simplify_eq.
    destruct (fair_chosen _ _ _ _ (ct_action _ (Hct (w, log)) upstreams dir) us Ea) as [_ Hf].
    split; [done|]. apply (Hf u'); [|done]. by eapply list_elem_of_lookup_2.
  - unfold act_entries. destruct (actionEntries actionPolicy (w, log) co) as [e|es] eqn:Ea.
    { exists w, []. eexists. rewrite app_nil_r. split; [done|].
      intros u k e' Hn. by apply not_elem_of_nil in Hn. }
    destruct (each_entry_calls exec dirs wrong c es w log) as (w' & new & errs & -> & H).
    eexists w', new, _. split; [done|]. intros u k e Hin.
    destruct (H u k e Hin) as (x & Hx & <- & ->). exists x.
    destruct (fair_chosen _ _ _ _ (ct_action_entries _ (Hct (w, log)) co) es Ea) as [_ Hf].
    destruct (Hf (Some x) x Hx eq_refl). split_and!; done.
Qed.

Definition ex_exec (u : Fs) (c : call) (w : unit) : unit * option err := (w, None).
Definition ex_log_policy : @logged unit -> Policy := fun _ => ex_policy tt.

Lemma actions_writable_witness :
  exists w' new r,
    act_entries (exec_log ex_exec) ex_log_policy false ENotAFile CRemove
      [mkEntry (ex_obj "x") (ex_fs "a" true)] (tt, []) = ((w', [] ++ new), r) /\
    forall u k e, (u, k, e) ∈ new -> writable u = true.
Proof.
  destruct (actions_writable ex_exec ex_log_policy [] false "" false ENotAFile CRemove
              [mkEntry (ex_obj "x") (ex_fs "a" true)] tt []) as [_ (w' & new & r & H1 & H2)].
  - intros s. apply contract_EpFF. reflexivity.
  - exists w', new, r. split; [exact H1|]. intros u k e Hin.
    destruct (H2 u k e Hin) as (x & _ & _ & _ & Hw). exact Hw.
Defined.

(** ** Creation *)

(** Making a directory ends for every clean path: it creates only the
    directory and directories above it, and when it succeeds on a path that is
    not the root, its last calls made the directory, without error, on exactly
    the upstreams it returns. *)
Theorem mkdir_correct {W} exec (createPolicy : @logged W -> Policy) upstreams dir w :
  below "" dir ->
  exists w' log r,
    mkdir (exec_log exec) createPolicy upstreams (mkdir_fuel dir) dir (w, []) = Some ((w', log), r) /\
    (forall u c e, (u, c, e) ∈ log ->
       exists d, c = CMkdir d /\ rtc (fun a b => b = parentDir a) dir d) /\
    (forall us, r = inr us -> dir <> "" -> exists pre, log = pre ++ (made dir <$> us)).
Proof.
  intros Hb. destruct (mkdir_spec exec createPolicy upstreams (mkdir_fuel dir) dir w [] Hb)
    as (w' & new & r & H1 & H2 & H3); [left; unfold mkdir_fuel; lia|].
  by exists w', new, r.
Qed.

(** A policy that finds no path until something has been created. *)
Definition ex_create : @logged unit -> Policy := fun s =>
  EpAll (fun _ _ => ([], bool_decide (snd s = []))) str_eqb 0 (fun l => l).

Definition ex_all : @logged unit -> Policy := fun _ =>
  All (fun _ _ => ([], false)) str_eqb 0 (fun l => l).

Lemma mkdir_correct_witness :
  exists w' log r,
    mkdir (exec_log ex_exec) ex_all [ex_fs "a" true] (mkdir_fuel "x") "x" (tt, [])
      = Some ((w', log), r) /\ r = inr [ex_fs "a" true] /\
    exists pre, log = pre ++ [made "x" (ex_fs "a" true)].
Proof.
  destruct (mkdir_correct ex_exec ex_all [ex_fs "a" true] "x" tt) as (w' & log & r & H1 & _ & H3).
  - exists [], ["x"]. split; [constructor|]. split; [by repeat constructor|]. split; reflexivity.
  - exists w', log, r. split; [exact H1|].
    assert (Hr : r = inr [ex_fs "a" true]).
    { clear H3. vm_compute in H1. injection H1 as _ _ <-. reflexivity. }
    split; [exact Hr|]. apply (H3 [ex_fs "a" true] Hr). discriminate.
Defined.

(** When the create policy finds the root on no upstream, [mkdir] makes
    the root directory on every upstream, the read-only ones included. *)
Theorem mkdir_root_ignores_permissions {W} exec (createPolicy : @logged W -> Policy) upstreams w u :
  create createPolicy upstreams (w, []) "" = inl ErrorObjectNotFound -> u ∈ upstreams ->
  exists w' log r e,
    mkdir (exec_log exec) createPolicy upstreams (mkdir_fuel "") "" (w, []) = Some ((w', log), r) /\
    (u, CMkdir "", e) ∈ log.
Proof.
  intros Hc Hu. unfold mkdir_fuel. cbn [mkdir]. rewrite Hc. rewrite bool_decide_eq_true_2 by done.
  cbn [str_eqb parentDir negb].
  change (str_eqb "" (parentDir "")) with true. change (str_eqb "" "") with true. cbn [negb].
  destruct (call_all_log exec (CMkdir "") upstreams w []) as (w' & es & Hl & ->).
  apply list_elem_of_lookup in Hu as [i Hi].
  destruct (lookup_lt_is_Some_2 es i) as [e He]; [rewrite Hl; by eapply lookup_lt_Some|].
  assert (Hin : (u, CMkdir "", e) ∈ [] ++ zip_with (fun u e => (u, CMkdir "", e)) upstreams es).
  { apply elem_of_lookup_zip_with. by exists i, u, e. }
  destruct (Err _); eexists _, _, _, e; split; done.
Qed.

Lemma mkdir_root_ignores_permissions_witness :
  let ro := mkFs "ro" "" false false 0 false in
  exists w' log r e,
    mkdir (exec_log ex_exec) ex_create [ro; ex_fs "a" true] (mkdir_fuel "") "" (tt, [])
      = Some ((w', log), r) /\ (ro, CMkdir "", e) ∈ log.
Proof.
  intros ro.
  apply (mkdir_root_ignores_permissions ex_exec ex_create [ro; ex_fs "a" true] tt ro).
  - reflexivity.
  - set_solver.
Defined.

(** With a policy that looks for an existing path and a union whose root is
    the root of its upstreams, making the root directory always fails with
    "object not found", even when every upstream made it: the path "/.." that
    the policy looks for is cleaned to "/", which no listing contains. *)
Theorem mkdir_root_fails {W} exec (List : @logged W -> Fs -> string -> list DirEntry * bool)
    EqualFold DefaultTime replies upstreams w :
  (forall u, u ∈ upstreams -> RootPath u = "" /\ CaseInsensitive u = false) ->
  (forall s u e, u ∈ upstreams -> e ∈ fst (List s u "") -> Remote e <> "/") ->
  (exists u, u ∈ upstreams /\ creatable u = true) ->
  (forall u c w, snd (exec u c w) = None) ->
  exists w',
    mkdir (exec_log exec) (fun s => EpAll (List s) EqualFold DefaultTime replies) upstreams
      (mkdir_fuel "") "" (w, []) = Some (w', inl (EPolicy ErrorObjectNotFound)).
Proof.
  intros Hroot Hlist (u0 & Hu0 & Hc0) Hexec.
  assert (Hno : forall s us, (forall u, u ∈ us -> u ∈ upstreams) ->
    epall (List s) EqualFold DefaultTime us (up_one "") = inl ErrorObjectNotFound).
  { intros s us Hus. unfold epall.
    rewrite (proj2 (filter_nil_iff (fun u => exists_in (List s) EqualFold DefaultTime (up_one "") u = true) us));
      [done|]. apply Forall_forall. intros u Hu. unfold exists_in, findIn.
    destruct (Hroot u (Hus u Hu)) as [-> Hci].
    change (path_Join [""; up_one ""]) with "/". unfold findEntry. rewrite Hci.
    change (clean "/") with "/". change (parentDir "/") with "".
    destruct (List s u "") as [es er] eqn:El. change (str_eqb "/" "") with false.
    assert (Hf : List.find (fun e => str_eqb "/" (Remote e)) es = None).
    { destruct (List.find _ es) as [e|] eqn:E; [|done]. apply find_some in E as [Hin He].
      apply str_eqb_eq in He. destruct (Hlist s u e (Hus u Hu)); [|done].
      rewrite El. by apply list_elem_of_In. }
    by rewrite Hf. }
  assert (Hcr : forall s, create (fun s => EpAll (List s) EqualFold DefaultTime replies) upstreams s ""
    = inl ErrorObjectNotFound).
  { intros s. unfold create. cbn [Create EpAll]. unfold guarded.
    destruct upstreams as [|u1 us1] eqn:Eu; [set_solver|]. rewrite <- Eu in *. clear Eu.
    destruct (filterNC upstreams) as [|u2 us2] eqn:Ef.
    - assert (Hin : u0 ∈ filterNC upstreams) by (by apply list_elem_of_filter). rewrite Ef in Hin. set_solver.
    - rewrite <- Ef. apply Hno. intros u Hu. by apply list_elem_of_filter in Hu as [_ ?]. }
  unfold mkdir_fuel. cbn [mkdir]. rewrite Hcr, bool_decide_eq_true_2 by done.
  change (str_eqb "" (parentDir "")) with true. change (str_eqb "" "") with true. cbn [negb].
  assert (Hall : forall us s, snd (call_all (exec_log exec) (CMkdir "") us s) = (fun _ => None) <$> us).
  { unfold call_all. induction us as [|u us IH]; intros [w1 l1]; [done|]. cbn [multithread].
    destruct (exec u (CMkdir "") w1) as [w2 e] eqn:E. rewrite (exec_log_eq exec _ _ _ _ _ _ E).
    specialize (Hexec u (CMkdir "") w1). rewrite E in Hexec. simpl in Hexec. subst e.
    specialize (IH (w2, l1 ++ [(u, CMkdir "", None)])). destruct (multithread _ us _) as [w3 es].
    simpl in *. by rewrite IH. }
  specialize (Hall upstreams (w, [])). destruct (call_all _ _ _ _) as [s errs]. simpl in Hall. subst errs.
  rewrite (proj2 (Err_none _)); [|apply Forall_forall; intros o Ho;
    apply list_elem_of_fmap in Ho as (? & -> & _); done].
  rewrite Hcr. by eexists.
Qed.

Lemma mkdir_root_fails_witness :
  exists w', mkdir (exec_log ex_exec) (fun s : @logged unit =>
      EpAll ((fun _ _ _ => ([], false)) s) str_eqb 0 (fun l => l)) [ex_fs "a" true]
      (mkdir_fuel "") "" (tt, []) = Some (w', inl (EPolicy ErrorObjectNotFound)).
Proof.
  apply (mkdir_root_fails ex_exec (fun _ _ _ => ([], false)) str_eqb 0 (fun l => l) [ex_fs "a" true] tt).
  - intros u Hu. apply list_elem_of_singleton in Hu as ->. split; reflexivity.
  - intros s u e _ He. simpl in He. set_solver.
  - exists (ex_fs "a" true). split; [set_solver|reflexivity].
  - reflexivity.
Defined.

(** An upload to one upstream that succeeds ends in a panic when the
    search policy cannot choose the new object: the type assertion on the
    result of [wrapEntries] is made before its error is looked at. *)
Theorem put_panics {W} exec upload (createPolicy searchPolicy : W -> Policy) upstreams readErr
    path w w' u o e :
  create createPolicy upstreams w path = inr [u] ->
  upload u path w = (w', inr o) ->
  searchEntries searchPolicy w' [mkEntry (EObject o) u] = inl e ->
  put exec upload createPolicy searchPolicy upstreams readErr path w = Some (w', Panic).
Proof.
  intros Hc Hu Hs. unfold put. rewrite Hc, Hu. unfold wrapEntries. by rewrite Hs.
Qed.

(** The upstream has 7 bytes free and the [lfs] policy wants more than 10. *)
Definition ex_small : Fs := mkFs "s" "" true true 10 false.

Lemma put_panics_witness :
  put ex_exec (fun _ p w => (w, inr (mkObject p 1 0 None true 0)))
    (fun _ => All (fun _ _ => ([], false)) str_eqb 0 (fun l => l))
    (fun _ => EpLfs (fun _ _ => ([], false)) str_eqb 0 (fun _ => 7) (fun l => l))
    [ex_small] None "f" tt = Some (tt, Panic).
Proof.
  eapply put_panics.
  - reflexivity.
  - reflexivity.
  - reflexivity.
Defined.

End Union.
