(* ===== verification/Writeback.v ===== *)
(** * Writeback: files waiting to be written back to storage
      (vfs/vfscache/writeback/writeback.go)

    An item stays in the map [lookup] from the moment it is added until it is
    uploaded or removed; while it waits it is on the heap [items], ordered by
    expiry, and while it is uploaded a goroutine runs [upload] for it.  All
    state is changed under one mutex, but [upload] releases it around the
    upload itself and [_cancelUpload] releases it while it waits for the
    upload to finish.  The model is therefore a machine whose events are the
    critical sections: the calls of the methods, the timer, the two halves of
    [upload], and the resumption of a call that waited in [_cancelUpload].
    Every interleaving of the goroutines is a list of events.

    Items are kept in a store and referred to by pointer, as two items can have
    the same handle.  The heap (container/heap) is the list of its items, and
    the item at its top one that is least in the order of [Less].  Times are
    nanoseconds; each event happens at a time of its own.  The context of the
    write back is not cancelled; [cancelUpload], which only the tests call, is
    left out. *)
From S2P Require Import Prelude.

Module Writeback.

(** ** Data *)

Record writeBackItem := mkItem {
  name : string;
  size : Z;
  id : Z;
  expiry : Z;
  uploading : bool;
  onHeap : bool;
  done : nat;          (* the channel that the end of the upload closes *)
  tries : Z;
  delay : Z;
}.

Record WriteBack := mkWB {
  wid : Z;                           (* id of the last item created *)
  store : gmap nat writeBackItem;    (* the items by pointer *)
  next_ptr : nat;
  items : list nat;                  (* the heap *)
  lookup_map : gmap Z nat;
  wexpiry : option Z;                (* wb.expiry, None when zero *)
  timer : option Z;                  (* when processItems is scheduled to run *)
  uploads : Z;
  next_ch : nat;
  closed : gset nat;                 (* the channels that are closed *)
}.

Definition New : WriteBack := mkWB 0 ∅ 0 [] ∅ None None 0 0 ∅.

Section writeback.
(** [opt.WriteBack] and [--transfers]. *)
Variable opt_WriteBack : Z.
Variable Transfers : Z.

Definition maxUploadDelay : Z := 5 * 60 * 1000000000.

(** ** The heap *)

Definition Less (a b : writeBackItem) : bool :=
  if expiry a =? expiry b then id a <? id b else expiry a <? expiry b.

(** The least of the items of the heap. *)
Fixpoint least (st : gmap nat writeBackItem) (l : list nat) : option (nat * writeBackItem) :=
  match l with
  | [] => None
  | p :: l' =>
      match st !! p, least st l' with
      | Some it, Some (q, it') => if Less it' it then Some (q, it') else Some (p, it)
      | Some it, None => Some (p, it)
      | None, r => r
      end
  end.

Definition _peekItem (wb : WriteBack) : option (nat * writeBackItem) := least (store wb) (items wb).

Definition set_item (p : nat) (it : writeBackItem) (wb : WriteBack) : WriteBack :=
  mkWB (wid wb) (<[p := it]> (store wb)) (next_ptr wb) (items wb) (lookup_map wb) (wexpiry wb)
    (timer wb) (uploads wb) (next_ch wb) (closed wb).

Definition set_items (l : list nat) (wb : WriteBack) : WriteBack :=
  mkWB (wid wb) (store wb) (next_ptr wb) l (lookup_map wb) (wexpiry wb) (timer wb) (uploads wb)
    (next_ch wb) (closed wb).

Definition set_lookup (m : gmap Z nat) (wb : WriteBack) : WriteBack :=
  mkWB (wid wb) (store wb) (next_ptr wb) (items wb) m (wexpiry wb) (timer wb) (uploads wb)
    (next_ch wb) (closed wb).

Definition set_timer (e t : option Z) (wb : WriteBack) : WriteBack :=
  mkWB (wid wb) (store wb) (next_ptr wb) (items wb) (lookup_map wb) e t (uploads wb) (next_ch wb)
    (closed wb).

Definition with_expiry (e : Z) (it : writeBackItem) : writeBackItem :=
  mkItem (name it) (size it) (id it) e (uploading it) (onHeap it) (done it) (tries it) (delay it).

Definition with_onHeap (b : bool) (it : writeBackItem) : writeBackItem :=
  mkItem (name it) (size it) (id it) (expiry it) (uploading it) b (done it) (tries it) (delay it).

Definition with_size (s : Z) (it : writeBackItem) : writeBackItem :=
  mkItem (name it) s (id it) (expiry it) (uploading it) (onHeap it) (done it) (tries it) (delay it).

Definition with_name (n : string) (it : writeBackItem) : writeBackItem :=
  mkItem n (size it) (id it) (expiry it) (uploading it) (onHeap it) (done it) (tries it) (delay it).

(** Changes one item; the methods only get pointers of the store. *)
Definition modify (p : nat) (f : writeBackItem -> writeBackItem) (wb : WriteBack) : WriteBack :=
  match store wb !! p with Some it => set_item p (f it) wb | None => wb end.

(** [heap.Fix] at the index of the item; the index of an item that is not on
    the heap is -1, where [heap.Fix] does nothing. *)
Definition _update (p : nat) (e : Z) (wb : WriteBack) : WriteBack := modify p (with_expiry e) wb.

Definition _newExpiry (now : Z) : Z := if 0 <? opt_WriteBack then now + opt_WriteBack else now.

Definition _pushItem (p : nat) (wb : WriteBack) : WriteBack :=
  match store wb !! p with
  | Some it => if negb (onHeap it) then set_items (items wb ++ [p]) (modify p (with_onHeap true) wb) else wb
  | None => wb
  end.

Definition _removeItem (p : nat) (wb : WriteBack) : WriteBack :=
  match store wb !! p with
  | Some it => if onHeap it
               then set_items (filter (fun q => q <> p) (items wb)) (modify p (with_onHeap false) wb)
               else wb
  | None => wb
  end.

Definition _delItem (p : nat) (wb : WriteBack) : WriteBack :=
  match store wb !! p with
  | Some it => set_lookup (delete (id it) (lookup_map wb)) wb
  | None => wb
  end.

Definition _addItem (p : nat) (wb : WriteBack) : WriteBack :=
  match store wb !! p with
  | Some it => set_lookup (<[id it := p]> (lookup_map wb)) wb
  | None => wb
  end.

(** ** The timer *)

Definition _stopTimer (wb : WriteBack) : WriteBack :=
  match wexpiry wb with None => wb | Some _ => set_timer None None wb end.

Definition _resetTimer (wb : WriteBack) : WriteBack :=
  match _peekItem wb with
  | None => _stopTimer wb
  | Some (_, it) =>
      if bool_decide (wexpiry wb = Some (expiry it)) then wb
      else set_timer (Some (expiry it)) (Some (expiry it)) wb
  end.

(** ** The methods

    A method that cancels an upload gives up the lock: it returns the state and
    what it waits for, a [waiter]: the item, the channel, and the rest of the
    method. *)
Inductive cont :=
| KAdd (sz : Z)
| KRemove (wbid : Z)
| KRename (wbid : Z) (nm : string) (order : list Z)
| KRenameRemove (q : nat) (wbid : Z) (nm : string) (order : list Z).

Record waiter := mkWaiter { w_item : nat; w_ch : nat; w_cont : cont }.

Definition SetID (pid : Z) (wb : WriteBack) : WriteBack * Z :=
  if pid =? 0 then
    (mkWB (wid wb + 1) (store wb) (next_ptr wb) (items wb) (lookup_map wb) (wexpiry wb) (timer wb)
       (uploads wb) (next_ch wb) (closed wb), wid wb + 1)
  else (wb, pid).

Definition _newItem (pid : Z) (nm : string) (sz now : Z) (wb : WriteBack) : WriteBack * nat :=
  let '(wb, pid) := SetID pid wb in
  let p := next_ptr wb in
  let it := mkItem nm sz pid (_newExpiry now) false false 0 0 opt_WriteBack in
  let wb := mkWB (wid wb) (<[p := it]> (store wb)) (S p) (items wb) (lookup_map wb) (wexpiry wb)
              (timer wb) (uploads wb) (next_ch wb) (closed wb) in
  (_pushItem p (_addItem p wb), p).

(** The end of [Add], after a possible cancellation. *)
Definition add_finish (p : nat) (sz now : Z) (wb : WriteBack) : WriteBack :=
  _resetTimer (modify p (with_size sz) (_update p (_newExpiry now) wb)).

Definition Add (pid : Z) (nm : string) (sz : Z) (modified : bool) (now : Z) (wb : WriteBack)
  : WriteBack * option waiter :=
  match lookup_map wb !! pid with
  | None => let '(wb, p) := _newItem pid nm sz now wb in (_resetTimer wb, None)
  | Some p =>
      match store wb !! p with
      | None => (wb, None)
      | Some it =>
          if uploading it && modified then (wb, Some (mkWaiter p (done it) (KAdd sz)))
          else (add_finish p sz now wb, None)
      end
  end.

Definition remove_finish (p : nat) (wb : WriteBack) : WriteBack :=
  _resetTimer (_delItem p (_removeItem p wb)).

Definition _remove (pid : Z) (k : cont) (wb : WriteBack) : WriteBack * option waiter :=
  match lookup_map wb !! pid with
  | None => (_resetTimer wb, None)
  | Some p =>
      match store wb !! p with
      | None => (wb, None)
      | Some it =>
          if uploading it then (wb, Some (mkWaiter p (done it) k))
          else (remove_finish p wb, None)
      end
  end.

Definition Remove (pid : Z) (wb : WriteBack) : WriteBack * option waiter :=
  _remove pid (KRemove pid) wb.

(** The rest of [Rename] after its own upload is cancelled: the range over the
    lookup map in the given order, then the new name. *)
Fixpoint rename_loop (q : nat) (pid : Z) (nm : string) (order : list Z) (now : Z) (wb : WriteBack)
  : WriteBack * option waiter :=
  match order with
  | [] => (_resetTimer (_update q (_newExpiry now) (modify q (with_name nm) wb)), None)
  | e :: order' =>
      let same := match lookup_map wb !! e with
                  | Some p => match store wb !! p with
                              | Some it => negb (e =? pid) && String.eqb (name it) nm
                              | None => false
                              end
                  | None => false
                  end in
      if same then
        match _remove e (KRenameRemove q pid nm order') wb with
        | (wb, None) => rename_loop q pid nm order' now wb
        | r => r
        end
      else rename_loop q pid nm order' now wb
  end.

Definition Rename (pid : Z) (nm : string) (order : list Z) (now : Z) (wb : WriteBack)
  : WriteBack * option waiter :=
  match lookup_map wb !! pid with
  | None => (wb, None)
  | Some p =>
      match store wb !! p with
      | None => (wb, None)
      | Some it =>
          if uploading it then (wb, Some (mkWaiter p (done it) (KRename pid nm order)))
          else rename_loop p pid nm order now wb
      end
  end.

(** The rest of a method after [_cancelUpload] has the lock back. *)
Definition resume (w : waiter) (now : Z) (wb : WriteBack) : WriteBack * option waiter :=
  let wb := _pushItem (w_item w) wb in
  match w_cont w with
  | KAdd sz => (add_finish (w_item w) sz now wb, None)
  | KRemove _ => (remove_finish (w_item w) wb, None)
  | KRename pid nm order => rename_loop (w_item w) pid nm order now wb
  | KRenameRemove q pid nm order => rename_loop q pid nm order now (remove_finish (w_item w) wb)
  end.

Definition SetExpiry (pid : Z) (e : option Z) (relative : Z) (wb : WriteBack) : WriteBack * bool :=
  match lookup_map wb !! pid with
  | None => (wb, false)
  | Some p =>
      match store wb !! p with
      | None => (wb, false)
      | Some it => (_resetTimer (_update p (default (expiry it) e + relative) wb), true)
      end
  end.

Definition Stats (wb : WriteBack) : Z * Z := (uploads wb, Z.of_nat (length (items wb))).

(** ** Uploads *)

(** Pops the item, marks it and makes its channel; the goroutine is started by
    the caller. *)
Definition start_upload (p : nat) (it : writeBackItem) (wb : WriteBack) : WriteBack :=
  let it := mkItem (name it) (size it) (id it) (expiry it) true false (next_ch wb) (tries it) (delay it) in
  mkWB (wid wb) (<[p := it]> (store wb)) (next_ptr wb) (filter (fun q => q <> p) (items wb))
    (lookup_map wb) (wexpiry wb) (timer wb) (uploads wb + 1) (S (next_ch wb)) (closed wb).

(** The loop of [processItems]: the state, the uploads started, and whether to
    reset the timer. *)
Fixpoint process_loop (fuel : nat) (now : Z) (wb : WriteBack) : WriteBack * list nat * bool :=
  match fuel with
  | O => (wb, [], true)
  | S fuel' =>
      match _peekItem wb with
      | None => (wb, [], true)
      | Some (p, it) =>
          if Transfers <=? uploads wb then (wb, [], false)
          else if 0 <? expiry it - now then (wb, [], true)
          else
            let '(wb, started, reset) := process_loop fuel' now (start_upload p it wb) in
            (wb, p :: started, reset)
      end
  end.

(** Each round takes an item off the heap. *)
Definition processItems (now : Z) (wb : WriteBack) : WriteBack * list nat :=
  let '(wb, started, reset) := process_loop (S (length (items wb))) now wb in
  (if reset then _resetTimer wb else _stopTimer wb, started).

(** [upload] up to the call of [putFn]. *)
Definition upload_begin (p : nat) (wb : WriteBack) : WriteBack :=
  modify p (fun it => mkItem (name it) (size it) (id it) (expiry it) (uploading it) (onHeap it)
                        (done it) (tries it + 1) (delay it)) wb.

Inductive put_result := PutOK | PutCanceled | PutError.

(** [upload] after [putFn] has returned; [None] is the panic of closing a
    closed channel. *)
Definition upload_end (p : nat) (res : put_result) (now : Z) (wb : WriteBack) : option WriteBack :=
  match store wb !! p with
  | None => Some wb
  | Some it =>
      let it1 := mkItem (name it) (size it) (id it) (expiry it) false (onHeap it) (done it) (tries it)
                   (delay it) in
      let wb := set_item p it1 wb in
      let wb := mkWB (wid wb) (store wb) (next_ptr wb) (items wb) (lookup_map wb) (wexpiry wb)
                  (timer wb) (uploads wb - 1) (next_ch wb) (closed wb) in
      let wb :=
        match res with
        | PutOK => _delItem p wb
        | _ =>
            let d := i64 (delay it * 2) in
            let d := if maxUploadDelay <? d then maxUploadDelay else d in
            let d := match res with PutCanceled => opt_WriteBack | _ => d end in
            let wb := modify p (fun it => mkItem (name it) (size it) (id it) (expiry it) (uploading it)
                                            (onHeap it) (done it) (tries it) d) wb in
            _update p (now + d) (_pushItem p wb)
        end in
      let wb := _resetTimer wb in
      if bool_decide (done it ∈ closed wb) then None
      else Some (mkWB (wid wb) (store wb) (next_ptr wb) (items wb) (lookup_map wb) (wexpiry wb)
                   (timer wb) (uploads wb) (next_ch wb) ({[done it]} ∪ closed wb))
  end.

(** ** The machine *)

(** [running]: the upload goroutines, and whether they have called [putFn]. *)
Record sys := mkSys {
  wb : WriteBack;
  running : list (nat * bool);
  waiting : list waiter;
  clock : Z;
}.

Inductive event :=
| EvAdd (pid : Z) (nm : string) (sz : Z) (modified : bool)
| EvRemove (pid : Z)
| EvRename (pid : Z) (nm : string) (order : list Z)
| EvSetExpiry (pid : Z) (e : option Z) (relative : Z)
| EvTimer                       (* the timer fires and its call gets the lock *)
| EvProcess                     (* the call of a timer stopped too late *)
| EvBegin (i : nat)             (* goroutine [i] starts its upload *)
| EvEnd (i : nat) (res : put_result)
| EvResume (i : nat)            (* waiter [i] gets the lock back *)
| EvTick (t : Z).               (* time passes *)

Definition after (s : sys) (r : WriteBack * option waiter) : sys :=
  mkSys (fst r) (running s) (waiting s ++ match snd r with Some w => [w] | None => [] end) (clock s).

Definition started (s : sys) (r : WriteBack * list nat) : sys :=
  mkSys (fst r) (running s ++ ((fun p => (p, false)) <$> snd r)) (waiting s) (clock s).

(** One event; [inr tt] is a panic, [None] an event that cannot happen. *)
Definition step (ev : event) (s : sys) : option (sys + unit) :=
  match ev with
  | EvAdd pid nm sz modified => Some (inl (after s (Add pid nm sz modified (clock s) (wb s))))
  | EvRemove pid => Some (inl (after s (Remove pid (wb s))))
  | EvRename pid nm order => Some (inl (after s (Rename pid nm order (clock s) (wb s))))
  | EvSetExpiry pid e relative =>
      Some (inl (mkSys (fst (SetExpiry pid e relative (wb s))) (running s) (waiting s) (clock s)))
  | EvTimer =>
      match timer (wb s) with
      | Some e => if e <=? clock s
                  then Some (inl (started s (processItems (clock s) (set_timer (wexpiry (wb s)) None (wb s)))))
                  else None
      | None => None
      end
  | EvProcess => Some (inl (started s (processItems (clock s) (wb s))))
  | EvBegin i =>
      match running s !! i with
      | Some (p, false) =>
          Some (inl (mkSys (upload_begin p (wb s)) (<[i := (p, true)]> (running s)) (waiting s) (clock s)))
      | _ => None
      end
  | EvEnd i res =>
      match running s !! i with
      | Some (p, true) =>
          match upload_end p res (clock s) (wb s) with
          | Some w => Some (inl (mkSys w (take i (running s) ++ drop (S i) (running s)) (waiting s) (clock s)))
          | None => Some (inr tt)
          end
      | _ => None
      end
  | EvResume i =>
      match waiting s !! i with
      | Some w =>
          if bool_decide (w_ch w ∈ closed (wb s)) then
            let s' := mkSys (wb s) (running s) (take i (waiting s) ++ drop (S i) (waiting s)) (clock s) in
            Some (inl (after s' (resume w (clock s) (wb s))))
          else None
      | None => None
      end
  | EvTick t => if clock s <=? t then Some (inl (mkSys (wb s) (running s) (waiting s) t)) else None
  end.

Definition initial (t : Z) : sys := mkSys New [] [] t.

Fixpoint run (evs : list event) (s : sys) : option (sys + unit) :=
  match evs with
  | [] => Some (inl s)
  | ev :: evs' =>
      match step ev s with
      | Some (inl s') => run evs' s'
      | r => r
      end
  end.
End writeback.

(** ** The invariant *)

Section invariant.
Variable opt_WriteBack : Z.
Variable Transfers : Z.

(** [rn] are the items of the upload goroutines. *)
Record winv (w : WriteBack) (rn : list nat) : Prop := {
  w_nodup : NoDup (items w);
  w_heap : forall p, p ∈ items w <-> exists it, store w !! p = Some it /\ onHeap it = true;
  w_count : uploads w = Z.of_nat (length rn);
  w_cap : uploads w <= Z.max 0 Transfers;
  w_run : forall p, p ∈ rn -> is_Some (store w !! p);
  w_lookup : forall i p, lookup_map w !! i = Some p ->
    exists it, store w !! p = Some it /\ id it = i /\ (onHeap it = true \/ p ∈ rn);
  w_fresh : forall p it, store w !! p = Some it -> (p < next_ptr w)%nat;
}.

Lemma lookup_modify p f w q :
  store (modify p f w) !! q =
  if decide (p = q) then f <$> store w !! q else store w !! q.
Proof.
  unfold modify. destruct (store w !! p) as [it|] eqn:E.
  - simpl. case_decide as Hd; [subst; by rewrite lookup_insert_eq, E|by rewrite lookup_insert_ne].
  - case_decide as Hd; [subst; by rewrite E|done].
Qed.

(** A change of an item that keeps its handle and its place. *)
Lemma winv_modify p f w rn :
  (forall it, id (f it) = id it /\ onHeap (f it) = onHeap it) ->
  winv w rn -> winv (modify p f w) rn.
Proof.
  intros Hf [H1 H2 H3 H4 H5 H6 H7].
  assert (Hrest : items (modify p f w) = items w /\ uploads (modify p f w) = uploads w /\
    lookup_map (modify p f w) = lookup_map w /\ next_ptr (modify p f w) = next_ptr w).
  { unfold modify. by destruct (store w !! p). }
  destruct Hrest as (Ei & Eu & El & En).
  split; rewrite ?Ei, ?Eu, ?El, ?En; auto.
  - intros q. rewrite H2, lookup_modify. case_decide as Hd; [subst|done].
    destruct (store w !! q) as [it|]; simpl; [|naive_solver].
    destruct (Hf it) as [_ Ho]. naive_solver.
  - intros q Hq. rewrite lookup_modify. case_decide; [subst; apply fmap_is_Some|]; auto.
  - intros i q Hq. destruct (H6 i q Hq) as (it & Hs & Hi & Ho). rewrite lookup_modify.
    destruct (Hf it) as [Hid Hon]. case_decide; [|eauto].
    rewrite Hs. exists (f it). split; [done|]. rewrite Hid, Hon. done.
  - intros q it. rewrite lookup_modify. case_decide; [|eauto].
    destruct (store w !! q) as [it'|] eqn:E; [|done]. intros _. eauto.
Qed.

Lemma winv_timer e t w rn : winv w rn -> winv (set_timer e t w) rn.
Proof. intros [H1 H2 H3 H4 H5 H6 H7]. by split. Qed.

Lemma winv_reset w rn : winv w rn -> winv (_resetTimer w) rn.
Proof.
  intros H. unfold _resetTimer, _stopTimer.
  destruct (_peekItem w) as [[p it]|].
  - case_if; [done|]. by apply winv_timer.
  - destruct (wexpiry w); [by apply winv_timer|done].
Qed.

Lemma winv_stop w rn : winv w rn -> winv (_stopTimer w) rn.
Proof. intros H. unfold _stopTimer. destruct (wexpiry w); [by apply winv_timer|done]. Qed.

Lemma winv_push p w rn : winv w rn -> winv (_pushItem p w) rn.
Proof.
  intros Hw. unfold _pushItem. destruct (store w !! p) as [it|] eqn:Ep; [|done].
  destruct (onHeap it) eqn:Eo; [done|]. simpl. destruct Hw as [H1 H2 H3 H4 H5 H6 H7].
  assert (Hs : forall q, <[p := with_onHeap true it]> (store w) !! q =
    if decide (p = q) then Some (with_onHeap true it) else store w !! q).
  { intros q. case_decide; [subst; by rewrite lookup_insert_eq|by rewrite lookup_insert_ne]. }
  assert (Hm : modify p (with_onHeap true) w = set_item p (with_onHeap true it) w)
    by (unfold modify; by rewrite Ep).
  assert (Hnp : p ∉ items w).
  { intros Hin. apply H2 in Hin as (it' & ? & ?). congruence. }
  rewrite Hm. split; simpl; auto.
  - apply NoDup_app. split_and!; [done|set_solver|apply NoDup_singleton].
  - intros q. rewrite Hs, elem_of_app, list_elem_of_singleton, H2.
    case_decide as Hd; [subst; split; [by eexists|by right]|naive_solver].
  - intros q Hq. rewrite Hs. case_decide; [by eexists|auto].
  - intros i q Hq. rewrite Hs. destruct (H6 i q Hq) as (it' & Ht & Hi & Ho).
    case_decide; [|eauto]. subst q. rewrite Ep in Ht. simplify_eq.
    eexists. split; [done|]. simpl. auto.
  - intros q it'. rewrite Hs. case_decide; [subst; eauto|eauto].
Qed.

Lemma winv_del p w rn :
  winv w rn -> winv (_delItem p w) rn.
Proof.
  intros [H1 H2 H3 H4 H5 H6 H7]. unfold _delItem. destruct (store w !! p) as [it|]; [|by split].
  split; simpl; auto. intros i q Hq. apply lookup_delete_Some in Hq as [_ Hq]. auto.
Qed.

Lemma del_not_in p w rn i :
  winv w rn -> lookup_map (_delItem p w) !! i <> Some p.
Proof.
  intros Hw Hl. unfold _delItem in Hl. destruct (store w !! p) as [it|] eqn:E.
  - simpl in Hl. apply lookup_delete_Some in Hl as [Hne Hl].
    destruct (w_lookup _ _ Hw _ _ Hl) as (it' & Hs & Hi & _). congruence.
  - destruct (w_lookup _ _ Hw _ _ Hl) as (it' & Hs & _). congruence.
Qed.

(** Taking an item off the heap and out of the map. *)
Lemma winv_remove p w rn :
  winv w rn -> winv (_delItem p (_removeItem p w)) rn.
Proof.
  intros Hw. unfold _removeItem. destruct (store w !! p) as [it|] eqn:Ep; [|by apply winv_del].
  destruct (onHeap it) eqn:Eo; [|by apply winv_del].
  assert (Hm : modify p (with_onHeap false) w = set_item p (with_onHeap false it) w)
    by (unfold modify; by rewrite Ep).
  rewrite Hm. unfold _delItem. simpl. rewrite lookup_insert_eq. simpl.
  destruct Hw as [H1 H2 H3 H4 H5 H6 H7]. split; simpl; auto.
  - by apply NoDup_filter.
  - intros q. rewrite list_elem_of_filter, H2. destruct (decide (p = q)) as [<-|Hne].
    + rewrite lookup_insert_eq. split; [naive_solver|]. intros (? & ? & ?). simplify_eq.
    + rewrite lookup_insert_ne by done. naive_solver.
  - intros q Hq. destruct (decide (p = q)) as [<-|Hne];
      [by rewrite lookup_insert_eq|rewrite lookup_insert_ne by done; auto].
  - intros i q Hq. apply lookup_delete_Some in Hq as [Hne Hq].
    destruct (H6 i q Hq) as (it' & Hs & Hi & Ho).
    assert (q <> p) by congruence. rewrite lookup_insert_ne by done. eauto.
  - intros q it' Hs. destruct (decide (p = q)) as [<-|Hne]; [eauto|].
    rewrite lookup_insert_ne in Hs by done. eauto.
Qed.

Lemma winv_SetID pid w rn : winv w rn -> winv (fst (SetID pid w)) rn.
Proof. intros [H1 H2 H3 H4 H5 H6 H7]. unfold SetID. case_if; by split. Qed.

Lemma winv_newItem pid nm sz now w rn :
  winv w rn -> winv (fst (_newItem opt_WriteBack pid nm sz now w)) rn.
Proof.
  intros Hw. apply (winv_SetID pid) in Hw. unfold _newItem. destruct (SetID pid w) as [w1 pid1].
  simpl in *. destruct Hw as [H1 H2 H3 H4 H5 H6 H7].
  set (p := next_ptr w1). set (it := mkItem nm sz pid1 _ _ _ _ _ _).
  assert (Hnew : store w1 !! p = None).
  { destruct (store w1 !! p) as [it'|] eqn:E; [|done]. apply H7 in E. subst p. lia. }
  assert (Hs : forall q, <[p := it]> (store w1) !! q = if decide (p = q) then Some it else store w1 !! q).
  { intros q. case_decide; [subst; by rewrite lookup_insert_eq|by rewrite lookup_insert_ne]. }
  unfold _addItem, _pushItem. simpl. rewrite lookup_insert_eq. simpl. rewrite lookup_insert_eq. simpl.
  unfold modify. simpl. rewrite lookup_insert_eq. unfold set_item. simpl. rewrite insert_insert_eq.
  assert (Hs2 : forall q, <[p := with_onHeap true it]> (store w1) !! q =
    if decide (p = q) then Some (with_onHeap true it) else store w1 !! q).
  { intros q. case_decide; [subst; by rewrite lookup_insert_eq|by rewrite lookup_insert_ne]. }
  assert (Hnp : p ∉ items w1).
  { intros Hin. apply H2 in Hin as (it' & ? & ?). congruence. }
  split; simpl; auto.
  - apply NoDup_app. split_and!; [done|set_solver|apply NoDup_singleton].
  - intros q. rewrite Hs2, elem_of_app, list_elem_of_singleton, H2.
    case_decide as Hd; [subst q; split; [by eexists|by right]|naive_solver].
  - intros q Hq. rewrite Hs2. case_decide; [by eexists|auto].
  - intros i q Hq. rewrite Hs2. destruct (decide (pid1 = i)) as [<-|Hi].
    + rewrite lookup_insert_eq in Hq. simplify_eq. rewrite decide_True by done.
      eexists. split; [done|]. simpl. auto.
    + rewrite lookup_insert_ne in Hq by done. destruct (H6 i q Hq) as (it' & Ht & Hi' & Ho).
      rewrite decide_False by congruence. eauto.
  - intros q it'. rewrite Hs2. case_decide; [subst q; intros _; subst p; lia|].
    intros Hq. apply H7 in Hq. lia.
Qed.

(** Starting an upload moves the item from the heap to the goroutines. *)
Lemma winv_start p it w rn :
  winv w rn -> store w !! p = Some it -> p ∈ items w -> uploads w < Transfers ->
  winv (start_upload p it w) (p :: rn) /\
  (length (items (start_upload p it w)) < length (items w))%nat.
Proof.
  intros [H1 H2 H3 H4 H5 H6 H7] Hp Hin Ht. split.
  - unfold start_upload. set (it1 := mkItem _ _ _ _ true false _ _ _).
    assert (Hs : forall q, <[p := it1]> (store w) !! q = if decide (p = q) then Some it1 else store w !! q).
    { intros q. case_decide; [subst; by rewrite lookup_insert_eq|by rewrite lookup_insert_ne]. }
    split; simpl.
    + by apply NoDup_filter.
    + intros q. rewrite list_elem_of_filter, Hs, H2. case_decide; [|naive_solver].
      subst q. split; [naive_solver|]. intros (? & ? & ?). by simplify_eq.
    + lia.
    + lia.
    + intros q [->|Hq]%elem_of_cons; rewrite Hs; [rewrite decide_True by done; by eexists|].
      case_decide; [by eexists|auto].
    + intros i q Hq. rewrite Hs. destruct (H6 i q Hq) as (it' & Hq' & Hi & Ho).
      case_decide; [subst q; rewrite Hp in Hq'; simplify_eq; eexists; split; [done|]; simpl; set_solver|].
      exists it'. set_solver.
    + intros q it'. rewrite Hs. case_decide; [subst; eauto|eauto].
  - simpl. apply (length_filter_lt _ _ p); [done|]. naive_solver.
Qed.

Lemma least_in st l p it : least st l = Some (p, it) -> p ∈ l /\ st !! p = Some it.
Proof.
  revert p it. induction l as [|q l IH]; intros p it; simpl; [done|].
  destruct (st !! q) as [it1|] eqn:Eq.
  - destruct (least st l) as [[q' it']|].
    + case_if; intros [= -> ->]; [|set_solver]. destruct (IH p it eq_refl). set_solver.
    + intros [= -> ->]. set_solver.
  - intros H. destruct (IH p it H). set_solver.
Qed.

Lemma least_none st l : least st l = None -> forall p, p ∈ l -> st !! p = None.
Proof.
  induction l as [|q l IH]; simpl; [set_solver|].
  destruct (st !! q) as [it1|] eqn:Eq; [destruct (least st l) as [[? ?]|]; [by case_if|done]|].
  intros H p [->|Hp]%elem_of_cons; auto.
Qed.

Lemma peek_none w rn : winv w rn -> _peekItem w = None -> items w = [].
Proof.
  intros Hw Hp. unfold _peekItem in Hp. destruct (items w) as [|p l] eqn:E; [done|].
  assert (Hin : p ∈ items w) by (rewrite E; set_solver).
  apply (w_heap _ _ Hw) in Hin as (it & Hs & _).
  pose proof (least_none _ _ Hp p ltac:(set_solver)). congruence.
Qed.

(** The loop of [processItems]. *)
Lemma process_loop_spec fuel now w rn :
  winv w rn -> (length (items w) < fuel)%nat ->
  let '(w', started, reset) := process_loop Transfers fuel now w in
  winv w' (reverse started ++ rn) /\ wexpiry w' = wexpiry w /\ timer w' = timer w /\
  (if reset then forall p it, _peekItem w' = Some (p, it) -> now < expiry it
   else Transfers <= uploads w').
Proof.
  revert w rn. induction fuel as [|fuel IH]; intros w rn Hw Hf; [lia|]. cbn [process_loop].
  destruct (_peekItem w) as [[p it]|] eqn:Ep.
  2:{ rewrite reverse_nil. split_and!; [done|done|done|]. intros p it. by rewrite Ep. }
  case_if; [rewrite reverse_nil; by split_and!|].
  case_if.
  { rewrite reverse_nil. split_and!; [done|done|done|]. intros p' it'. rewrite Ep. intros [= <- <-]. lia. }
  apply least_in in Ep as [Hin Hs].
  destruct (winv_start p it w rn Hw Hs Hin ltac:(lia)) as [Hw1 Hl].
  specialize (IH (start_upload p it w) (p :: rn) Hw1 ltac:(lia)).
  destruct (process_loop Transfers fuel now (start_upload p it w)) as [[w' started] reset].
  destruct IH as (I1 & I2 & I3 & I4). rewrite reverse_cons, <- app_assoc. by split_and!.
Qed.

Lemma winv_perm w rn rn' : rn ≡ₚ rn' -> winv w rn -> winv w rn'.
Proof.
  intros Hp [H1 H2 H3 H4 H5 H6 H7]. split; auto.
  - by rewrite <- Hp.
  - intros q. rewrite <- Hp. auto.
  - intros i q Hq. destruct (H6 i q Hq) as (it & ? & ? & Ho). exists it. by rewrite <- Hp.
Qed.

(** *** The timer *)

(** When an item waits and uploads may start, the timer is set for it. *)
Definition armed (w : WriteBack) : Prop :=
  items w <> [] -> uploads w < Transfers ->
  exists p it, _peekItem w = Some (p, it) /\ timer w = Some (expiry it).

Definition synced (w : WriteBack) : Prop := timer w = wexpiry w.

Lemma reset_ok w rn : winv w rn -> synced w -> synced (_resetTimer w) /\ armed (_resetTimer w).
Proof.
  intros Hw Hs. unfold _resetTimer. destruct (_peekItem w) as [[p it]|] eqn:Ep.
  - case_if.
    + apply bool_decide_eq_true in E. split; [done|]. intros _ _. exists p, it.
      split; [done|]. by rewrite Hs.
    + split; [done|]. intros _ _. by exists p, it.
  - unfold _stopTimer. assert (Hi : items w = []) by (by eapply peek_none).
    destruct (wexpiry w) eqn:Ew; [|split; [done|]; intros H; congruence].
    split; [done|]. intros H. simpl in H. congruence.
Qed.

Lemma synced_modify p f w : synced w -> synced (modify p f w).
Proof. unfold modify. by destruct (store w !! p). Qed.

Lemma synced_push p w : synced w -> synced (_pushItem p w).
Proof.
  unfold _pushItem. intros H. destruct (store w !! p) as [it|]; [|done]. case_if; [|done].
  unfold set_items. by apply (synced_modify p (with_onHeap true)) in H.
Qed.

Lemma synced_del p w : synced w -> synced (_delItem p w).
Proof. unfold _delItem. by destruct (store w !! p). Qed.

Lemma synced_remove p w : synced w -> synced (_removeItem p w).
Proof.
  unfold _removeItem. intros H. destruct (store w !! p) as [it|]; [|done]. case_if; [|done].
  unfold set_items. by apply (synced_modify p (with_onHeap false)) in H.
Qed.

Lemma synced_newItem pid nm sz now w :
  synced w -> synced (fst (_newItem opt_WriteBack pid nm sz now w)).
Proof.
  intros H. unfold _newItem, SetID.
  destruct (pid =? 0); simpl; apply synced_push; unfold _addItem; simpl;
    rewrite lookup_insert_eq; done.
Qed.

Definition wok (w : WriteBack) (rn : list nat) : Prop := winv w rn /\ synced w.
Definition wdone (w : WriteBack) (rn : list nat) : Prop := wok w rn /\ armed w.

Lemma wok_reset w rn : wok w rn -> wdone (_resetTimer w) rn.
Proof.
  intros [H1 H2]. destruct (reset_ok w rn H1 H2). split; [|done]. split; [by apply winv_reset|done].
Qed.

Lemma wok_modify p f w rn :
  (forall it, id (f it) = id it /\ onHeap (f it) = onHeap it) -> wok w rn -> wok (modify p f w) rn.
Proof. intros Hf [H1 H2]. split; [by apply winv_modify|by apply synced_modify]. Qed.

Lemma add_finish_ok p sz now w rn : wok w rn -> wdone (add_finish opt_WriteBack p sz now w) rn.
Proof. intros H. apply wok_reset, wok_modify; [done|]. by apply wok_modify. Qed.

Lemma remove_finish_ok p w rn : wok w rn -> wdone (remove_finish p w) rn.
Proof.
  intros [H1 H2]. apply wok_reset. split; [by apply winv_remove|].
  by apply synced_del, synced_remove.
Qed.

(** A call that returns, or that waits in the middle of [Rename]. *)
Definition in_rename (w : waiter) : Prop :=
  match w_cont w with KRenameRemove _ _ _ _ => True | _ => False end.

Definition rename_waits (o : option waiter) : Prop :=
  match o with Some w => in_rename w | None => False end.

Lemma rename_loop_ok q pid nm order now w rn :
  wok w rn ->
  let '(w', o) := rename_loop opt_WriteBack q pid nm order now w in
  wok w' rn /\ (armed w' \/ rename_waits o).
Proof.
  revert w. induction order as [|e order IH]; intros w Hw; cbn [rename_loop].
  { destruct (wok_reset (_update q (_newExpiry opt_WriteBack now) (modify q (with_name nm) w)) rn)
      as [Ha Hb]; [|by auto].
    apply wok_modify; [done|]. by apply wok_modify. }
  cbv zeta. destruct (match lookup_map w !! e with Some _ => _ | None => _ end) eqn:Es; [|by apply IH].
  unfold _remove. destruct (lookup_map w !! e) as [p|]; [|done].
  destruct (store w !! p) as [it|]; [|done].
  destruct (uploading it); [split; [done|]; by right|].
  apply IH. by apply remove_finish_ok.
Qed.

Lemma Add_wok pid nm sz modified now w rn :
  wok w rn ->
  wok (fst (Add opt_WriteBack pid nm sz modified now w)) rn /\
  (armed (fst (Add opt_WriteBack pid nm sz modified now w)) \/
   fst (Add opt_WriteBack pid nm sz modified now w) = w).
Proof.
  intros Hw. unfold Add. destruct (lookup_map w !! pid) as [p|].
  - destruct (store w !! p) as [it|]; [|by auto]. case_if; [by auto|].
    destruct (add_finish_ok p sz now w rn Hw). auto.
  - pose proof (winv_newItem pid nm sz now w rn) as H1.
    pose proof (synced_newItem pid nm sz now w) as H2.
    destruct (_newItem opt_WriteBack pid nm sz now w) as [w' p]. simpl in *.
    destruct (wok_reset w' rn) as [? ?]; [destruct Hw; split; auto|auto].
Qed.

Lemma remove_wok pid k w rn :
  wok w rn ->
  wok (fst (_remove pid k w)) rn /\ (armed (fst (_remove pid k w)) \/ fst (_remove pid k w) = w).
Proof.
  intros Hw. unfold _remove. destruct (lookup_map w !! pid) as [p|].
  - destruct (store w !! p) as [it|]; [|by auto]. case_if; [by auto|].
    destruct (remove_finish_ok p w rn Hw). auto.
  - destruct (wok_reset w rn Hw). auto.
Qed.

Lemma resume_ok wt now w rn :
  wok w rn ->
  let '(w', o) := resume opt_WriteBack wt now w in
  wok w' rn /\ (armed w' \/ rename_waits o).
Proof.
  intros [H1 H2]. unfold resume.
  assert (Hp : wok (_pushItem (w_item wt) w) rn) by (split; [by apply winv_push|by apply synced_push]).
  destruct (w_cont wt) as [sz|pid|pid nm order|q pid nm order].
  - destruct (add_finish_ok (w_item wt) sz now _ rn Hp). auto.
  - destruct (remove_finish_ok (w_item wt) _ rn Hp). auto.
  - by apply rename_loop_ok.
  - apply rename_loop_ok. by apply remove_finish_ok.
Qed.

(** A change that keeps expiry and handle does not move the top of the heap. *)
Lemma least_modify p f w l :
  (forall it, expiry (f it) = expiry it /\ id (f it) = id it) ->
  (fun r : nat * writeBackItem => (fst r, expiry (snd r), id (snd r))) <$> least (store (modify p f w)) l =
  (fun r => (fst r, expiry (snd r), id (snd r))) <$> least (store w) l.
Proof.
  intros Hf. induction l as [|q l IH]; [done|]. cbn [least]. rewrite lookup_modify.
  destruct (least (store (modify p f w)) l) as [[q1 i1]|], (least (store w) l) as [[q2 i2]|];
    simpl in IH; simplify_eq; destruct (decide (p = q)); destruct (store w !! q) as [it|]; simpl; try done.
  all: try (destruct (Hf it) as [He Hi]).
  all: unfold Less; rewrite ?He, ?Hi; try rewrite H0; try rewrite H1; try done.
  all: repeat case_if; simpl; congruence.
Qed.

Lemma armed_modify p f w :
  (forall it, expiry (f it) = expiry it /\ id (f it) = id it) -> armed w -> armed (modify p f w).
Proof.
  intros Hf Ha Hne Hlt.
  assert (Hsame : items (modify p f w) = items w /\ uploads (modify p f w) = uploads w /\
    timer (modify p f w) = timer w) by (unfold modify; by destruct (store w !! p)).
  destruct Hsame as (Ei & Eu & Et). rewrite Ei in Hne. rewrite Eu in Hlt.
  destruct (Ha Hne Hlt) as (q & it & Hpk & Ht).
  pose proof (least_modify p f w (items w) Hf) as Hl. unfold _peekItem in *. rewrite Ei, Et, Ht.
  rewrite Hpk in Hl. destruct (least (store (modify p f w)) (items w)) as [[q' it']|]; [|done].
  simpl in Hl. injection Hl as Hq He Hi. exists q', it'. split; [done|]. by rewrite He.
Qed.

Lemma stop_ok w rn : wok w rn -> Transfers <= uploads w -> wdone (_stopTimer w) rn.
Proof.
  intros [H1 H2] Ht. unfold _stopTimer. destruct (wexpiry w) eqn:E.
  - split; [split; [by apply winv_timer|done]|]. intros _ Hlt. simpl in Hlt. lia.
  - split; [done|]. intros _ Hlt. lia.
Qed.

(** [processItems], with its timer still set or just fired. *)
Lemma processItems_ok now w rn :
  winv w rn -> (synced w \/ (timer w = None /\ exists e, wexpiry w = Some e /\ e <= now)) ->
  let '(w', started) := processItems Transfers now w in wdone w' (rn ++ started).
Proof.
  intros Hw Ht. unfold processItems.
  pose proof (process_loop_spec (S (length (items w))) now w rn Hw ltac:(lia)) as H.
  destruct (process_loop _ _ now w) as [[w' started] reset]. destruct H as (H1 & H2 & H3 & H4).
  assert (Hw' : winv w' (rn ++ started)).
  { eapply winv_perm; [|exact H1]. rewrite reverse_Permutation. solve_Permutation. }
  destruct Ht as [Ht|(Ht & e & He & Hle)].
  - assert (Hs : synced w') by (unfold synced; congruence).
    destruct reset; [by apply wok_reset|by apply stop_ok].
  - destruct reset.
    + unfold _resetTimer. destruct (_peekItem w') as [[p it]|] eqn:Ep.
      * specialize (H4 p it eq_refl). rewrite bool_decide_eq_false_2; [|rewrite H2, He; intros [= ?]; lia].
        split; [split; [by apply winv_timer|done]|]. intros _ _. by exists p, it.
      * unfold _stopTimer. rewrite H2, He. split; [split; [by apply winv_timer|done]|].
        intros Hne. simpl in Hne. by rewrite (peek_none w' _ Hw' Ep) in Hne.
    + unfold _stopTimer. rewrite H2, He. split; [split; [by apply winv_timer|done]|].
      intros _ Hlt. simpl in Hlt. lia.
Qed.

(** The end of an upload: one goroutine less. *)
Definition dec (w : WriteBack) : WriteBack :=
  mkWB (wid w) (store w) (next_ptr w) (items w) (lookup_map w) (wexpiry w) (timer w) (uploads w - 1)
    (next_ch w) (closed w).

Lemma winv_dec p w rn :
  winv w (p :: rn) ->
  (forall i, lookup_map w !! i = Some p -> exists it, store w !! p = Some it /\ onHeap it = true) ->
  winv (dec w) rn.
Proof.
  intros [H1 H2 H3 H4 H5 H6 H7] Hp. split; simpl; auto.
  - rewrite H3. simpl. lia.
  - lia.
  - intros q Hq. apply H5. set_solver.
  - intros i q Hq. destruct (H6 i q Hq) as (it & Hs & Hi & [Ho|Hr]); [by exists it; auto|].
    apply elem_of_cons in Hr as [->|Hr]; [|by exists it; auto].
    destruct (Hp i Hq) as (it' & Hs' & Ho). rewrite Hs in Hs'. simplify_eq. by exists it'; auto.
Qed.

Lemma push_onHeap p w it :
  store w !! p = Some it ->
  exists it', store (_pushItem p w) !! p = Some it' /\ onHeap it' = true /\ id it' = id it.
Proof.
  intros Hs. unfold _pushItem. rewrite Hs. destruct (onHeap it) eqn:E; simpl; [by exists it|].
  rewrite lookup_modify, decide_True, Hs by done. by eexists.
Qed.

Lemma upload_end_ok p res now w rn :
  winv w (p :: rn) -> synced w ->
  match upload_end opt_WriteBack p res now w with Some w' => wdone w' rn | None => True end.
Proof.
  intros Hw Hs. unfold upload_end. destruct (store w !! p) as [it|] eqn:Ep.
  2:{ destruct (w_run _ _ Hw p ltac:(set_solver)). congruence. }
  set (f := fun it => mkItem (name it) (size it) (id it) (expiry it) false (onHeap it) (done it) (tries it) (delay it)).
  assert (Hset : forall it1, it1 = f it -> set_item p it1 w = modify p f w).
  { intros it1 ->. unfold modify. by rewrite Ep. }
  erewrite Hset by reflexivity. clear Hset. set (w1 := modify p f w).
  assert (Hw1 : winv w1 (p :: rn)) by (by apply winv_modify).
  assert (Hs1 : synced w1) by (by apply synced_modify).
  assert (Ep1 : store w1 !! p = Some (f it)) by (unfold w1; by rewrite lookup_modify, decide_True, Ep by done).
  change (mkWB (wid w1) _ _ _ _ _ _ _ _ _) with (dec w1). cbv zeta.
  set (w2 := match res with PutOK => _ | _ => _ end).
  assert (Hw2 : wok w2 rn).
  { assert (Hretry : forall d, wok (_update p (now + d) (_pushItem p (modify p (fun it => mkItem (name it)
      (size it) (id it) (expiry it) (uploading it) (onHeap it) (done it) (tries it) d) (dec w1)))) rn).
    { intros d. apply wok_modify; [done|].
      set (g := fun it => mkItem (name it) (size it) (id it) (expiry it) (uploading it) (onHeap it) (done it) (tries it) d).
      assert (Heq : _pushItem p (modify p g (dec w1)) = dec (_pushItem p (modify p g w1))).
      { unfold modify. simpl. rewrite Ep1. unfold _pushItem. simpl. rewrite !lookup_insert_eq. simpl.
        destruct (onHeap it); [done|]. simpl. unfold modify. simpl. by rewrite !lookup_insert_eq. }
      rewrite Heq. split; [|by apply synced_push, synced_modify].
      apply (winv_dec p); [by apply winv_push, winv_modify|].
      intros i _. destruct (push_onHeap p (modify p g w1) (g (f it))) as (it' & ? & ? & _); [|by exists it'].
      by rewrite lookup_modify, decide_True, Ep1 by done. }
    subst w2. destruct res; try apply Hretry.
    assert (Heq : _delItem p (dec w1) = dec (_delItem p w1)) by (unfold _delItem; simpl; by rewrite Ep1).
    rewrite Heq. split; [|by apply synced_del].
    apply (winv_dec p); [by apply winv_del|]. intros i Hi. by destruct (del_not_in p w1 (p :: rn) i Hw1). }
  apply wok_reset in Hw2 as [[Hv Hy] Ha]. case_if; [done|]. clearbody w2.
  split; [|exact Ha]. split; [|exact Hy]. destruct Hv as [V1 V2 V3 V4 V5 V6 V7]. by split.
Qed.
End invariant.

(** ** The machine *)

Section machine.
Variable opt_WriteBack : Z.
Variable Transfers : Z.

Abbreviation ptrs s := (fst <$> running s).

Record sinv (s : sys) : Prop := {
  s_ok : wok Transfers (wb s) (ptrs s);
  s_armed : armed Transfers (wb s) \/ exists w, w ∈ waiting s /\ in_rename w;
}.

Lemma sinv_after s s0 r :
  sinv s0 -> running s = running s0 -> (forall w, w ∈ waiting s0 -> in_rename w -> w ∈ waiting s) ->
  wok Transfers (fst r) (ptrs s0) ->
  (armed Transfers (fst r) \/ rename_waits (snd r) \/ fst r = wb s0) ->
  sinv (after s r).
Proof.
  intros [H1 H2] Hr Hwt Hok Hor. split; [simpl; by rewrite Hr|]. simpl.
  destruct Hor as [Ha|[Hw|He]]; [by left| |].
  - right. destruct (snd r) as [w|]; [|done]. exists w. set_solver.
  - destruct H2 as [H2|(w & Hw & Hi)]; [left; by rewrite He|right].
    exists w. split; [|done]. apply elem_of_app. left. auto.
Qed.

Lemma sinv_started s r :
  sinv s -> wdone Transfers (fst r) (ptrs s ++ snd r) -> sinv (started s r).
Proof.
  intros [H1 H2] [Hok Ha]. split; [|by left]. simpl. rewrite fmap_app, <- list_fmap_compose.
  by rewrite list_fmap_id.
Qed.

Lemma fmap_delete_middle (l : list (nat * bool)) i p b :
  l !! i = Some (p, b) -> fst <$> l ≡ₚ p :: (fst <$> (take i l ++ drop (S i) l)).
Proof.
  intros Hi. rewrite <- (take_drop_middle l i _ Hi) at 1.
  rewrite !fmap_app, fmap_cons. simpl. solve_Permutation.
Qed.

Lemma fst_insert_same (l : list (nat * bool)) i p b b' :
  l !! i = Some (p, b) -> fst <$> <[i := (p, b')]> l = fst <$> l.
Proof.
  intros Hi. rewrite list_fmap_insert. apply list_insert_id. by rewrite list_lookup_fmap, Hi.
Qed.

Lemma sinv_step ev s s' :
  sinv s -> step opt_WriteBack Transfers ev s = Some (inl s') -> sinv s'.
Proof.
  intros Hs. pose proof Hs as [Hok Har]. pose proof Hok as [Hw Hsy].
  destruct ev as [pid nm sz md|pid|pid nm order|pid e rel| | |i|i res|i|t]; cbn [step].
  - intros [= <-]. apply (sinv_after s s); auto.
    + by apply Add_wok.
    + destruct (Add_wok opt_WriteBack Transfers pid nm sz md (clock s) (wb s) _ Hok); naive_solver.
  - intros [= <-]. apply (sinv_after s s); auto.
    + by apply remove_wok.
    + destruct (remove_wok Transfers pid (KRemove pid) (wb s) _ Hok); naive_solver.
  - intros [= <-]. unfold Rename.
    destruct (lookup_map (wb s) !! pid) as [p|]; [|apply (sinv_after s s); auto].
    destruct (store (wb s) !! p) as [it|]; [|apply (sinv_after s s); auto].
    destruct (uploading it); [apply (sinv_after s s); auto|].
    pose proof (rename_loop_ok opt_WriteBack Transfers p pid nm order (clock s) (wb s) _ Hok) as H.
    destruct (rename_loop _ _ _ _ _ _ _) as [w' o]. destruct H. apply (sinv_after s s); simpl; tauto.
  - intros [= <-]. unfold SetExpiry.
    destruct (lookup_map (wb s) !! pid) as [p|]; [|by split].
    destruct (store (wb s) !! p) as [it|]; [|by split].
    destruct (wok_reset Transfers (_update p (default (expiry it) e + rel) (wb s)) (ptrs s)) as [? ?];
      [by apply wok_modify|]. split; [done|by left].
  - destruct (timer (wb s)) as [e|] eqn:Et; [|done]. case_if; [|done]. intros [= <-].
    apply sinv_started; [done|].
    pose proof (processItems_ok Transfers (clock s) (set_timer (wexpiry (wb s)) None (wb s)) (ptrs s)) as H.
    destruct (processItems _ _ _) as [w' st]. apply H; [by apply winv_timer|].
    right. split; [done|]. exists e. split; [|done]. simpl. by rewrite <- Hsy.
  - intros [= <-]. apply sinv_started; [done|].
    pose proof (processItems_ok Transfers (clock s) (wb s) (ptrs s) Hw) as H.
    destruct (processItems _ _ _) as [w' st]. apply H. by left.
  - destruct (running s !! i) as [[p [|]]|] eqn:Ei; [done| |done]. intros [= <-]. split; simpl.
    + rewrite (fst_insert_same _ _ _ _ _ Ei). by apply wok_modify.
    + destruct Har as [Ha|?]; [left|by right]. by apply armed_modify.
  - destruct (running s !! i) as [[p [|]]|] eqn:Ei; [|done|done].
    pose proof (upload_end_ok opt_WriteBack Transfers p res (clock s) (wb s)
      (fst <$> (take i (running s) ++ drop (S i) (running s)))) as H.
    destruct (upload_end _ _ _ _ _) as [w'|]; [|done]. intros [= <-].
    destruct H as [H1 H2]; [|done|split; [done|by left]].
    eapply winv_perm; [|exact Hw]. by apply fmap_delete_middle with (b := true).
  - destruct (waiting s !! i) as [w|] eqn:Ei; [|done]. case_if; [|done]. intros [= <-].
    pose proof (resume_ok opt_WriteBack Transfers w (clock s) (wb s) _ Hok) as H.
    destruct (resume _ _ _ _) as [w' o]. destruct H as [H1 H2]. split; simpl; [done|].
    destruct H2 as [|H2]; [by left|]. right. destruct o as [x|]; [|done]. exists x. set_solver.
  - case_if; [|done]. intros [= <-]. by split.
Qed.

Lemma sinv_initial t : sinv (initial t).
Proof.
  split; [|left; intros H; done]. split; [|done]. split; simpl; try done; try lia.
  - constructor.
  - intros p. split; [set_solver|]. intros (it & ? & ?). set_solver.
  - set_solver.
Qed.

Lemma sinv_run evs s s' : sinv s -> run opt_WriteBack Transfers evs s = Some (inl s') -> sinv s'.
Proof.
  revert s. induction evs as [|ev evs IH]; intros s Hs; cbn [run]; [by intros [= <-]|].
  destruct (step opt_WriteBack Transfers ev s) as [[s1|]|] eqn:E; [|done|done].
  apply IH. by eapply sinv_step.
Qed.
End machine.

(** C38: in every interleaving no file is forgotten: an item that can be looked
    up is on the heap, where it waits, or a goroutine is uploading it.  The
    heap holds no item twice, the number of uploads is that of the goroutines
    and never exceeds [--transfers], and whenever an item waits and uploads may
    start, the timer is set for the item that expires first (unless a [Rename]
    is half way). *)
Theorem writeback_safe opt_WriteBack Transfers t evs s :
  0 <= Transfers -> run opt_WriteBack Transfers evs (initial t) = Some (inl s) ->
  (forall i p, lookup_map (wb s) !! i = Some p ->
     p ∈ items (wb s) \/ p ∈ (fst <$> running s)) /\
  NoDup (items (wb s)) /\
  uploads (wb s) = Z.of_nat (length (running s)) /\ uploads (wb s) <= Transfers /\
  (items (wb s) <> [] -> uploads (wb s) < Transfers ->
     (exists p it, _peekItem (wb s) = Some (p, it) /\ timer (wb s) = Some (expiry it)) \/
     exists w, w ∈ waiting s /\ in_rename w).
Proof.
  intros Ht Hr. destruct (sinv_run _ _ _ _ _ (sinv_initial Transfers t) Hr) as [[Hw Hsy] Har].
  destruct Hw as [H1 H2 H3 H4 H5 H6 H7]. split_and!; [|done| |lia|].
  - intros i p Hp. destruct (H6 i p Hp) as (it & Hs & _ & [Ho|Ho]); [left|by right].
    apply H2. eauto.
  - by rewrite H3, length_fmap.
  - intros Hne Hlt. destruct Har as [Ha|]; [left; by apply Ha|by right].
Qed.

(** An item is added, its upload starts and fails, and it waits again. *)
Definition ex_events : list event :=
  [EvAdd 0 "f" 1 true; EvTick 5; EvTimer; EvBegin 0; EvEnd 0 PutError].

Lemma writeback_safe_witness :
  exists s, run 5 4 ex_events (initial 0) = Some (inl s) /\ items (wb s) = [0%nat] /\
    NoDup (items (wb s)).
Proof.
  destruct (run 5 4 ex_events (initial 0)) as [[s|]|] eqn:E; [|discriminate E|discriminate E].
  exists s. split; [reflexivity|]. split.
  - vm_compute in E. injection E as <-. reflexivity.
  - apply (writeback_safe 5 4 0 ex_events s); [lia|exact E].
Defined.

(** A file can be written back after it was removed.  If a file is
    modified while its upload is ending with success, the item is taken out of
    the lookup map by the upload and put back on the heap, but not into the
    map, by the call of [Add] that waited; a [Remove] after that finds nothing,
    and the item is uploaded when it expires. *)
Theorem removed_file_is_uploaded :
  let evs := [EvAdd 0 "f" 1 true; EvTick 5; EvTimer; EvBegin 0; EvAdd 1 "f" 2 true;
              EvEnd 0 PutOK; EvResume 0; EvRemove 1] in
  exists s s', run 5 4 evs (initial 0) = Some (inl s) /\
    lookup_map (wb s) = ∅ /\ items (wb s) = [0%nat] /\
    run 5 4 [EvTick 10; EvTimer] s = Some (inl s') /\ running s' = [(0%nat, false)].
Proof.
  intros evs. destruct (run 5 4 evs (initial 0)) as [[s|]|] eqn:E; [|discriminate E|discriminate E].
  vm_compute in E. injection E as <-. eexists _, _. split; [reflexivity|].
  split; [reflexivity|]. split; [reflexivity|]. split; reflexivity.
Qed.

(** With no write back delay a cancelled upload can be retried before the
    call that cancelled it has the lock back; that call then puts the item on
    the heap while it is being uploaded, a second upload of the same item
    starts, and the end of the later of the two closes a closed channel, which
    panics. *)
Theorem concurrent_uploads_panic :
  run 0 4 [EvAdd 0 "f" 1 true; EvTimer; EvBegin 0; EvAdd 1 "f" 2 true; EvEnd 0 PutCanceled;
           EvTimer; EvResume 0; EvTimer; EvBegin 0; EvBegin 1; EvEnd 0 PutOK; EvEnd 0 PutOK]
    (initial 0) = Some (inr tt).
Proof. vm_compute. reflexivity. Qed.

End Writeback.
