(* ===== verification/Rename.v ===== *)
(** * Rename tracking: the rename map of fs/sync/sync.go

    With --track-renames a file that is only at the source is compared with
    the files that are only at the destination: [renameID] makes a key from the
    size and, by strategy, the hash and the leaf name; [makeRenameMap] files
    the candidates under their keys and [popRenameMap] takes one out, checking
    the modification time when the strategy asks for it.

    The workers that push and pop run concurrently, each push and pop under a
    mutex, so the map is a sequential object whose operations come in any
    order.  Times are nanoseconds, [time.Time.Sub] saturates at the ends of
    [int64]. *)
From stdpp Require Import pretty.
From S2P Require Import Prelude GoPath Entries.

Module Rename.
Import GoPath Entries.

(** ** Strategies: a byte of flags *)

Definition trackRenamesStrategyHash : Z := Z.shiftl 1 0.
Definition trackRenamesStrategyModtime : Z := Z.shiftl 1 1.
Definition trackRenamesStrategyLeaf : Z := Z.shiftl 1 2.

Definition hash (strategy : Z) : bool := negb (Z.land strategy trackRenamesStrategyHash =? 0).
Definition modTime (strategy : Z) : bool := negb (Z.land strategy trackRenamesStrategyModtime =? 0).
Definition leaf (strategy : Z) : bool := negb (Z.land strategy trackRenamesStrategyLeaf =? 0).

(** The loop over the comma separated names; the second component is the name
    of the error "unknown track renames strategy". *)
Fixpoint parse_strategies (names : list string) (strategy : Z) : Z * option string :=
  match names with
  | [] => (strategy, None)
  | s :: names' =>
      if str_eqb s "hash" then parse_strategies names' (Z.lor strategy trackRenamesStrategyHash)
      else if str_eqb s "modtime" then
        parse_strategies names' (Z.lor strategy trackRenamesStrategyModtime)
      else if str_eqb s "leaf" then
        parse_strategies names' (Z.lor strategy trackRenamesStrategyLeaf)
      else if str_eqb s "size" then parse_strategies names' strategy
      else (strategy, Some s)
  end.

Definition parseTrackRenamesStrategy (strategies : string) : Z * option string :=
  if str_eqb strategies "" then (0, None)
  else parse_strategies (split_on ","%char strategies) 0.

(** ** [renameID] *)

(** [fmt.Sprintf("%d", n)] *)
Definition format_d (n : Z) : string := pretty n.

Definition renameID (obj : Object) (renamesStrategy : Z) : string :=
  let builder := format_d (oSize obj) in
  let with_leaf builder :=
    if leaf renamesStrategy then builder +:+ "," +:+ path_Base (oRemote obj) else builder in
  if Rename.hash renamesStrategy then
    match oHash obj with
    | None => ""
    | Some h => if str_eqb h "" then "" else with_leaf (builder +:+ "," +:+ h)
    end
  else with_leaf builder.

(** ** The map *)

Abbreviation RenameMap := (gmap string (list Object)).

Definition pushRenameMap (h : string) (obj : Object) (m : RenameMap) : RenameMap :=
  <[h := default [] (m !! h) ++ [obj]]> m.

(** [t.Sub(u)] saturates. *)
Definition time_Sub (t u : Z) : Z := Z.max i64_min (Z.min i64_max (t - u)).

Section pop.
(** [s.trackRenamesStrategy], [s.modifyWindow] *)
Variable strategy modifyWindow : Z.

Definition in_window (src dst : Object) : bool :=
  let dt := time_Sub (oModTime dst) (oModTime src) in
  (dt <? modifyWindow) && (dt >? i64 (- modifyWindow)).

(** The loop [for j, dst := range dsts]: the first index in the window. *)
Fixpoint window_index (j : nat) (src : Object) (dsts : list Object) : option nat :=
  match dsts with
  | [] => None
  | dst :: dsts' => if in_window src dst then Some j else window_index (S j) src dsts'
  end.

(** [slices.Delete(dsts, i, i+1)] *)
Definition slices_Delete (dsts : list Object) (i : nat) : list Object :=
  take i dsts ++ drop (S i) dsts.

Definition popRenameMap (h : string) (src : Object) (m : RenameMap) : option Object * RenameMap :=
  match m !! h with
  | Some (d :: ds) =>
      let dsts := d :: ds in
      match (if modTime strategy then window_index 0 src dsts else Some 0%nat) with
      | None => (None, m)
      | Some i =>
          let rest := slices_Delete dsts i in
          (dsts !! i, if bool_decide (rest = []) then delete h m else <[h := rest]> m)
      end
  | _ => (None, m)
  end.

(** [makeRenameMap]; [order] is the order in which the workers get to file
    the values of [dstFiles]. *)
Definition makeRenameMap (renameCheck order : list Object) : RenameMap :=
  let possibleSizes : gset Z := list_to_set (oSize <$> renameCheck) in
  foldl (fun m obj =>
    if bool_decide (oSize obj ∈ possibleSizes) then
      let h := renameID obj strategy in
      if str_eqb h "" then m else pushRenameMap h obj m
    else m) ∅ order.

(** ** The abstract object: a log of filed candidates

    A push appends to the log, a pop takes the first entry of the log that has
    the key and, by strategy, a time in the window. *)
Definition candidate (h : string) (src : Object) (e : string * Object) : bool :=
  bool_decide (e.1 = h) && (negb (modTime strategy) || in_window src e.2).

Fixpoint log_pop (h : string) (src : Object) (log : list (string * Object))
  : option Object * list (string * Object) :=
  match log with
  | [] => (None, [])
  | e :: log' =>
      if candidate h src e then (Some e.2, log')
      else let '(r, log'') := log_pop h src log' in (r, e :: log'')
  end.

Inductive rop := Push (h : string) (o : Object) | PopFor (h : string) (src : Object).

Definition map_step (op : rop) (m : RenameMap) : option Object * RenameMap :=
  match op with
  | Push h o => (None, pushRenameMap h o m)
  | PopFor h src => popRenameMap h src m
  end.

Definition log_step (op : rop) (log : list (string * Object))
  : option Object * list (string * Object) :=
  match op with
  | Push h o => (None, log ++ [(h, o)])
  | PopFor h src => log_pop h src log
  end.

Fixpoint map_run (ops : list rop) (m : RenameMap) : list (option Object) * RenameMap :=
  match ops with
  | [] => ([], m)
  | op :: ops' => let '(r, m') := map_step op m in
                  let '(rs, m'') := map_run ops' m' in (r :: rs, m'')
  end.

Fixpoint log_run (ops : list rop) (log : list (string * Object))
  : list (option Object) * list (string * Object) :=
  match ops with
  | [] => ([], log)
  | op :: ops' => let '(r, log') := log_step op log in
                  let '(rs, log'') := log_run ops' log' in (r :: rs, log'')
  end.

(** The candidates of a key, in the order they were filed. *)
Definition filed (h : string) (log : list (string * Object)) : list Object :=
  snd <$> filter (fun e => e.1 = h) log.

(** The map represents the log: the list under each key, no empty lists. *)
Definition represents (m : RenameMap) (log : list (string * Object)) : Prop :=
  forall h, m !! h = match filed h log with [] => None | l => Some l end.

End pop.

(** ** The keys *)

Definition comma : ascii := ","%char.

Lemma has_char_app c a b : has_char c (a +:+ b) = has_char c a || has_char c b.
Proof. induction a as [|x a IH]; [done|]. cbn. by rewrite <- orb_assoc, <- IH. Qed.

Lemma pretty_no_comma_N x s : has_char comma s = false -> has_char comma (pretty_N_go x s) = false.
Proof.
  revert s. induction (N.lt_wf_0 x) as [x _ IH]; intros s Hs.
  destruct (decide (0 < x)%N) as [Hx|Hx].
  - rewrite pretty_N_go_step by done. apply IH; [by apply N.div_lt|].
    unfold pretty_N_char. by repeat case_match.
  - assert (x = 0%N) as -> by lia. by rewrite pretty_N_go_0.
Qed.

Lemma pretty_N_no_comma (x : N) : has_char comma (pretty x) = false.
Proof. unfold pretty, pretty_N. case_decide; [done|]. by apply pretty_no_comma_N. Qed.

Lemma format_d_no_comma n : has_char comma (format_d n) = false.
Proof.
  unfold format_d, pretty, pretty_Z. destruct n as [|p|p]; [done|apply pretty_N_no_comma|].
  exact (pretty_N_no_comma (N.pos p)).
Qed.

Lemma pretty_N_go_nonempty x s : s <> "" -> pretty_N_go x s <> "".
Proof.
  revert s. induction (N.lt_wf_0 x) as [x _ IH]; intros s Hs.
  destruct (decide (0 < x)%N) as [Hx|Hx].
  - rewrite pretty_N_go_step by done. apply IH; [by apply N.div_lt|done].
  - assert (x = 0%N) as -> by lia. by rewrite pretty_N_go_0.
Qed.

Lemma format_d_nonempty n : format_d n <> "".
Proof.
  unfold format_d, pretty, pretty_Z. destruct n as [|p|p]; [done| |done].
  unfold pretty, pretty_positive, pretty, pretty_N. case_decide; [done|].
  rewrite pretty_N_go_step by lia. by apply pretty_N_go_nonempty.
Qed.

(** Two strings of the form "prefix,rest" whose prefixes have no comma. *)
Lemma comma_split a b x y :
  has_char comma a = false -> has_char comma b = false ->
  a +:+ "," +:+ x = b +:+ "," +:+ y -> a = b /\ x = y.
Proof.
  revert b. induction a as [|c a IH]; intros [|d b] Ha Hb H.
  - split; [done|]. by injection H.
  - injection H as <- _. done.
  - injection H as -> _. done.
  - injection H as <- H. cbn in Ha, Hb. breflect.
    destruct (IH b) as [-> ->]; done.
Qed.

(** What a strategy makes two objects agree on. *)
Definition same_file (strategy : Z) (a b : Object) : Prop :=
  oSize a = oSize b /\
  (hash strategy = true -> oHash a = oHash b) /\
  (leaf strategy = true -> path_Base (oRemote a) = path_Base (oRemote b)).

(** Hashes as the backends return them: digits, no comma. *)
Definition plain_hash (o : Object) : Prop :=
  forall h, oHash o = Some h -> has_char comma h = false.

Definition hashable (strategy : Z) (o : Object) : Prop :=
  hash strategy = true -> exists h, oHash o = Some h /\ h <> "".

Lemma format_d_inj a b : format_d a = format_d b -> a = b.
Proof. apply (inj pretty). Qed.

Lemma renameID_empty strategy o : renameID o strategy = "" <-> ~ hashable strategy o.
Proof.
  assert (forall n s, format_d n +:+ s <> "") as Hn.
  { intros n s. pose proof (format_d_nonempty n). by destruct (format_d n). }
  unfold renameID, hashable. destruct (hash strategy).
  - destruct (oHash o) as [h|]; [|naive_solver].
    destruct (str_eqb h "") eqn:E; [apply str_eqb_eq in E as ->|apply str_eqb_neq in E].
    + naive_solver.
    + split; [|naive_solver]. intros H. exfalso. revert H. destruct (leaf strategy);
        rewrite ?str_app_assoc; apply Hn.
  - split; [|naive_solver]. intros H. exfalso. revert H. destruct (leaf strategy); [apply Hn|].
    apply format_d_nonempty.
Qed.

Lemma renameID_eq strategy a b :
  plain_hash a -> plain_hash b -> hashable strategy a -> hashable strategy b ->
  renameID a strategy = renameID b strategy <-> same_file strategy a b.
Proof.
  pose proof (format_d_no_comma (oSize a)) as Ca. pose proof (format_d_no_comma (oSize b)) as Cb.
  unfold plain_hash, hashable, same_file, renameID. intros Pa Pb Ha Hb. destruct (hash strategy).
  - destruct (Ha eq_refl) as (ha & Ea & Na), (Hb eq_refl) as (hb & Eb & Nb).
    specialize (Pa _ Ea). specialize (Pb _ Eb). rewrite Ea, Eb.
    apply str_eqb_neq in Na as ->, Nb as ->. destruct (leaf strategy).
    + rewrite !str_app_assoc. split.
      * intros (E1 & E2)%comma_split; [|done..].
        apply comma_split in E2 as [-> ->]; [|done..]. apply format_d_inj in E1. done.
      * intros (-> & E1 & E2). rewrite E2 by done. specialize (E1 eq_refl). by simplify_eq.
    + split.
      * intros (E1 & ->)%comma_split; [|done..]. apply format_d_inj in E1. done.
      * intros (-> & E1 & E2). specialize (E1 eq_refl). by simplify_eq.
  - destruct (leaf strategy).
    + split.
      * intros (E1 & ->)%comma_split; [|done..]. apply format_d_inj in E1. done.
      * intros (-> & _ & E2). by rewrite E2.
    + split; [|by intros (-> & _)]. intros E1%format_d_inj. done.
Qed.

(** ** The map refines the log *)
Section refinement.
Variable strategy modifyWindow : Z.

Lemma filed_app h l1 l2 : filed h (l1 ++ l2) = filed h l1 ++ filed h l2.
Proof. unfold filed. by rewrite filter_app, fmap_app. Qed.

Lemma filed_cons_eq h o l : filed h ((h, o) :: l) = o :: filed h l.
Proof. unfold filed. by rewrite filter_cons_True. Qed.

Lemma filed_cons_ne h e l : e.1 <> h -> filed h (e :: l) = filed h l.
Proof. intros H. unfold filed. by rewrite filter_cons_False. Qed.

Lemma represents_push h o m log :
  represents m log -> represents (pushRenameMap h o m) (log ++ [(h, o)]).
Proof.
  intros Hr h'. unfold pushRenameMap. rewrite filed_app. destruct (decide (h = h')) as [->|Hne].
  - rewrite lookup_insert_eq, filed_cons_eq, Hr. by destruct (filed h' log).
  - rewrite lookup_insert_ne, filed_cons_ne, app_nil_r by done. apply Hr.
Qed.

Lemma window_index_shift j src l :
  window_index modifyWindow j src l = (fun i => (j + i)%nat) <$> window_index modifyWindow 0 src l.
Proof.
  revert j. induction l as [|d l IH]; intros j; [done|]. cbn [window_index].
  destruct (in_window _ _ _); [cbn; f_equal; lia|].
  rewrite (IH (S j)), (IH 1%nat). destruct (window_index _ 0 src l); [|done].
  cbn. f_equal. lia.
Qed.

(** The index that [popRenameMap] chooses among the candidates of a key. *)
Definition pop_index (src : Object) (l : list Object) : option nat :=
  match l with
  | [] => None
  | _ => if modTime strategy then window_index modifyWindow 0 src l else Some 0%nat
  end.

Lemma pop_index_cons src d l :
  pop_index src (d :: l) =
    if negb (modTime strategy) || in_window modifyWindow src d then Some 0%nat
    else S <$> pop_index src l.
Proof.
  unfold pop_index. destruct (modTime strategy); [|done]. cbn [window_index negb orb].
  destruct (in_window _ src d); [done|]. rewrite window_index_shift. by destruct l.
Qed.

(** Taking the first candidate out of the log is taking the chosen index out
    of the list of the key and leaves the other keys alone. *)
Lemma log_pop_spec h src log :
  let '(r, log') := log_pop strategy modifyWindow h src log in
  match pop_index src (filed h log) with
  | Some i => r = filed h log !! i /\ filed h log' = slices_Delete (filed h log) i
  | None => r = None /\ filed h log' = filed h log
  end /\ (forall h', h' <> h -> filed h' log' = filed h' log).
Proof.
  induction log as [|e log IH]; [done|]. cbn [log_pop]. unfold candidate.
  destruct (decide (e.1 = h)) as [He|He].
  - rewrite bool_decide_eq_true_2 by done. destruct e as [k o]. cbn in He. subst k.
    rewrite filed_cons_eq, pop_index_cons. cbn [andb snd].
    destruct (_ || _).
    + split; [done|]. intros h' Hne. by rewrite filed_cons_ne.
    + destruct (log_pop _ _ h src log) as [r log'] eqn:El. destruct IH as [IH1 IH2].
      destruct (pop_index src (filed h log)) as [i|]; cbn [fmap option_fmap option_map].
      * rewrite filed_cons_eq. destruct IH1 as [-> ->]. split; [done|].
        intros h' Hne. rewrite !filed_cons_ne by done. by apply IH2.
      * rewrite filed_cons_eq. destruct IH1 as [-> ->]. split; [done|].
        intros h' Hne. rewrite !filed_cons_ne by done. by apply IH2.
  - rewrite bool_decide_eq_false_2 by done. cbn [andb].
    destruct (log_pop _ _ h src log) as [r log'] eqn:El. destruct IH as [IH1 IH2].
    rewrite !(filed_cons_ne h) by done. split; [done|]. intros h' Hne. unfold filed in *.
    rewrite !filter_cons. case_decide; [|by apply IH2]. rewrite !fmap_cons. f_equal. by apply IH2.
Qed.

Lemma represents_pop h src m log r log' :
  represents m log -> log_pop strategy modifyWindow h src log = (r, log') ->
  exists m', popRenameMap strategy modifyWindow h src m = (r, m') /\ represents m' log'.
Proof.
  intros Hr El. pose proof (log_pop_spec h src log) as H. rewrite El in H. destruct H as [H1 H2].
  assert (forall m', m' !! h = match filed h log' with [] => None | l => Some l end ->
            (forall h', h' <> h -> m' !! h' = m !! h') -> represents m' log') as Hrep.
  { intros m' Hh Hne h'. destruct (decide (h' = h)) as [->|Hd]; [done|].
    rewrite Hne, H2 by done. apply Hr. }
  unfold popRenameMap. rewrite (Hr h). destruct (filed h log) as [|d l] eqn:Ef.
  { destruct H1 as [-> Hf]. exists m. split; [done|]. apply Hrep; [|done]. by rewrite Hf, Hr, Ef. }
  change (if modTime strategy then _ else _) with (pop_index src (d :: l)).
  destruct (pop_index src (d :: l)) as [i|]; destruct H1 as [-> Hf].
  - eexists. split; [reflexivity|]. rewrite <- Hf. apply Hrep.
    + case_bool_decide as Hb; [by rewrite lookup_delete_eq, Hb|]. rewrite lookup_insert_eq.
      by destruct (filed h log').
    + intros h' Hne. case_bool_decide; [by rewrite lookup_delete_ne|by rewrite lookup_insert_ne].
  - exists m. split; [done|]. apply Hrep; [|done]. by rewrite Hf, Hr, Ef.
Qed.

Lemma map_run_refines ops m log :
  represents m log ->
  exists m', map_run strategy modifyWindow ops m = ((log_run strategy modifyWindow ops log).1, m')
    /\ represents m' (log_run strategy modifyWindow ops log).2.
Proof.
  revert m log. induction ops as [|op ops IH]; intros m log Hr; [by exists m|].
  cbn [map_run log_run].
  destruct (log_step _ _ op log) as [r log'] eqn:El.
  assert (exists m', map_step strategy modifyWindow op m = (r, m') /\ represents m' log')
    as (m' & -> & Hr').
  { destruct op as [h o|h src]; cbn in El |- *.
    - injection El as <- <-. eexists. split; [done|]. by apply represents_push.
    - by eapply represents_pop. }
  destruct (IH m' log' Hr') as (m'' & -> & Hr'').
  destruct (log_run _ _ ops log') as [rs log'']. by exists m''.
Qed.

(** A pop takes one entry out of the log or leaves it alone. *)
Lemma log_pop_cases h src log :
  (exists l1 e l2, log = l1 ++ e :: l2 /\ candidate strategy modifyWindow h src e = true /\
     log_pop strategy modifyWindow h src log = (Some e.2, l1 ++ l2)) \/
  (Forall (fun e => candidate strategy modifyWindow h src e = false) log /\
     log_pop strategy modifyWindow h src log = (None, log)).
Proof.
  induction log as [|e log IH]; [by right|]. cbn [log_pop].
  destruct (candidate strategy modifyWindow h src e) eqn:Ec; [left; by exists [], e, log|].
  destruct IH as [(l1 & e' & l2 & -> & Hc & ->)|(Hall & ->)].
  - left. by exists (e :: l1), e', l2.
  - right. split; [by constructor|done].
Qed.

Definition pushed (op : rop) : option Object :=
  match op with Push _ o => Some o | PopFor _ _ => None end.

Lemma log_run_linear ops log :
  let '(rs, log') := log_run strategy modifyWindow ops log in
  (snd <$> log) ++ omap pushed ops ≡ₚ omap id rs ++ (snd <$> log').
Proof.
  revert log. induction ops as [|op ops IH]; intros log; cbn [log_run omap list_omap].
  { by rewrite app_nil_r. }
  destruct (log_step _ _ op log) as [r log'] eqn:El. specialize (IH log').
  destruct (log_run _ _ ops log') as [rs log''].
  destruct op as [h o|h src]; cbn in El.
  - injection El as <- <-. cbn. rewrite fmap_app in IH. rewrite <- IH. cbn.
    by rewrite <- app_assoc.
  - destruct (log_pop_cases h src log) as [(l1 & e & l2 & -> & _ & E)|(_ & E)];
      rewrite E in El; injection El as <- <-; cbn.
    + rewrite fmap_app in *. cbn. rewrite <- IH. rewrite <- app_assoc. cbn.
      by rewrite <- Permutation_middle, app_assoc.
    + exact IH.
Qed.

(** What [makeRenameMap] files. *)
Definition filed_log (renameCheck order : list Object) : list (string * Object) :=
  (fun o => (renameID o strategy, o)) <$>
  filter (fun o => oSize o ∈ oSize <$> renameCheck /\ renameID o strategy <> "") order.

Lemma makeRenameMap_filed renameCheck order :
  represents (makeRenameMap strategy renameCheck order) (filed_log renameCheck order).
Proof.
  unfold makeRenameMap. induction order as [|o order IH] using rev_ind; [done|].
  rewrite foldl_app. cbn [foldl]. unfold filed_log. rewrite filter_app, fmap_app.
  case_bool_decide as Hs; rewrite elem_of_list_to_set in Hs.
  - destruct (str_eqb _ "") eqn:E; [apply str_eqb_eq in E|apply str_eqb_neq in E].
    + rewrite filter_cons_False by naive_solver. by rewrite app_nil_r.
    + rewrite filter_cons_True by done. by apply represents_push.
  - rewrite filter_cons_False by naive_solver. by rewrite app_nil_r.
Qed.

Lemma no_pushes (key : Object -> string) srcs :
  omap pushed ((fun src => PopFor (key src) src) <$> srcs) = [].
Proof. by induction srcs. Qed.

(** A destination object that may be renamed to serve a source object. *)
Definition matches (src dst : Object) : Prop :=
  same_file strategy src dst /\
  (modTime strategy = true -> in_window modifyWindow src dst = true).

(** The pops that the renamers make for these source objects: none for an
    object without an identifier. *)
Definition tried (srcs : list Object) : list Object :=
  filter (fun src => renameID src strategy <> "") srcs.

Definition rename_ops (srcs : list Object) : list rop :=
  (fun src => PopFor (renameID src strategy) src) <$> tried srcs.

Definition keyed (log : list (string * Object)) : Prop :=
  Forall (fun e => e.1 = renameID e.2 strategy /\ e.1 <> "" /\ plain_hash e.2) log.

Lemma candidate_matches src e :
  plain_hash src -> renameID src strategy <> "" ->
  e.1 = renameID e.2 strategy /\ e.1 <> "" /\ plain_hash e.2 ->
  candidate strategy modifyWindow (renameID src strategy) src e = true <-> matches src e.2.
Proof.
  intros Hp Hs (He & Hne & Hp'). rewrite He in Hne. unfold candidate, matches. rewrite He.
  rewrite renameID_empty in Hs, Hne.
  assert (forall o, ~ ~ hashable strategy o -> hashable strategy o) as Hdn.
  { intros o Ho. unfold hashable in *. destruct (hash strategy); [|done]. intros _.
    destruct (oHash o) as [h|]; [|naive_solver]. exists h.
    destruct (decide (h = "")); [naive_solver|done]. }
  rewrite andb_true_iff, bool_decide_eq_true.
  split.
  - intros [E W]. split; [apply renameID_eq; eauto|]. intros Hm. by rewrite Hm in W.
  - intros [E W]. split; [symmetry; apply renameID_eq; eauto|].
    destruct (modTime strategy); [by apply W|done].
Qed.

Definition served (left : list Object) (src : Object) (r : option Object) : Prop :=
  match r with
  | Some dst => matches src dst
  | None => Forall (fun d => ~ matches src d) left
  end.

Lemma renames_run srcs log :
  Forall plain_hash srcs -> Forall (fun src => renameID src strategy <> "") srcs -> keyed log ->
  let '(rs, log') :=
    log_run strategy modifyWindow ((fun src => PopFor (renameID src strategy) src) <$> srcs) log in
  sublist log' log /\ Forall2 (served (snd <$> log')) srcs rs.
Proof.
  intros Hp Hne. revert log. induction Hp as [|src srcs Hp Hps IH]; intros log Hk.
  { cbn. done. }
  inversion Hne as [|? ? Hs Hss]; subst. cbn [fmap list_fmap log_run log_step].
  destruct (log_pop_cases (renameID src strategy) src log)
    as [(l1 & e & l2 & -> & Hc & ->)|(Hall & ->)].
  - assert (keyed (l1 ++ l2)) as Hk'.
    { apply Forall_app in Hk as [? Hk]. inversion Hk; subst. by apply Forall_app. }
    specialize (IH Hss (l1 ++ l2) Hk').
    destruct (log_run _ _ _ (l1 ++ l2)) as [rs log'] eqn:El. destruct IH as [Hsub H2].
    split.
    + etrans; [exact Hsub|]. apply sublist_app; [done|]. by apply sublist_cons.
    + constructor; [|done]. cbn. apply candidate_matches; [done|done| |done].
      apply Forall_app in Hk as [_ Hk]. by inversion Hk.
  - specialize (IH Hss log Hk).
    destruct (log_run _ _ _ log) as [rs log'] eqn:El. destruct IH as [Hsub H2].
    split; [done|]. constructor; [|done]. cbn. apply Forall_fmap, Forall_forall.
    intros e He. assert (e ∈ log) as He' by (by eapply elem_of_submseteq, sublist_submseteq).
    unfold keyed in Hk. rewrite Forall_forall in Hk, Hall. cbn. intros Hm.
    apply candidate_matches in Hm; [|by auto..]. by rewrite Hall in Hm.
Qed.

Lemma filed_log_keyed renameCheck order :
  Forall plain_hash order -> keyed (filed_log renameCheck order).
Proof.
  intros Hp. unfold keyed, filed_log. apply Forall_fmap, Forall_forall. intros o Ho.
  apply list_elem_of_filter in Ho as [[_ Hne] Ho]. rewrite Forall_forall in Hp. cbn. auto.
Qed.
End refinement.

(** ** Properties *)

(** The rename map behaves as a queue of candidates.  Whatever the order
    in which the concurrent workers push and pop, every pop returns the
    candidate that was filed first among those with the key (and, with the
    modtime strategy, with a time in the window), nothing when there is none;
    and every object pushed is either still in the map or was returned by
    exactly one pop. *)
Theorem rename_map_refines strategy modifyWindow ops :
  let '(rs, m) := map_run strategy modifyWindow ops ∅ in
  let '(rs', log) := log_run strategy modifyWindow ops [] in
  rs = rs' /\ represents m log /\
  omap pushed ops ≡ₚ omap id rs ++ (snd <$> log).
Proof.
  destruct (map_run_refines strategy modifyWindow ops ∅ []) as (m & -> & Hr); [done|].
  pose proof (log_run_linear strategy modifyWindow ops []) as Hl.
  destruct (log_run strategy modifyWindow ops []) as [rs log]. done.
Qed.

(** C34: renames are sound and nothing that could be renamed is missed.  Take
    the map that the workers make of the destination files, in any order, and
    the pops for the source files, in any order.  Every pair found agrees on
    the size, on the hash and the leaf name if the strategy has them, and has
    times in the window if it has modtime; the files found and the files left
    over are together the destination files of a possible size that have an
    identifier; and no file left over matches a source file that got none. *)
Theorem renames_sound strategy modifyWindow renameCheck order srcs :
  Forall plain_hash order -> Forall plain_hash srcs ->
  exists rs m left,
    map_run strategy modifyWindow (rename_ops strategy srcs)
      (makeRenameMap strategy renameCheck order) = (rs, m) /\
    omap id rs ++ left ≡ₚ
      filter (fun o => oSize o ∈ oSize <$> renameCheck /\ renameID o strategy <> "") order /\
    Forall2 (served strategy modifyWindow left) (tried strategy srcs) rs.
Proof.
  intros Ho Hs.
  destruct (map_run_refines strategy modifyWindow (rename_ops strategy srcs) _ _
              (makeRenameMap_filed strategy renameCheck order)) as (m & -> & _).
  pose proof (log_run_linear strategy modifyWindow (rename_ops strategy srcs)
                (filed_log strategy renameCheck order)) as Hl.
  pose proof (renames_run strategy modifyWindow (tried strategy srcs)
                (filed_log strategy renameCheck order)) as Hr.
  fold (rename_ops strategy srcs) in Hr.
  destruct (log_run _ _ _ _) as [rs log']. exists rs, m, (snd <$> log').
  split; [done|]. destruct Hr as [_ Hr].
  - apply Forall_forall. intros o Hin. apply list_elem_of_filter in Hin as [_ Hin].
    rewrite Forall_forall in Hs. by apply Hs.
  - apply Forall_forall. intros o Hin. by apply list_elem_of_filter in Hin as [? _].
  - by apply filed_log_keyed.
  - split; [|done]. rewrite <- Hl. unfold rename_ops, filed_log.
    rewrite <- list_fmap_compose, list_fmap_id, no_pushes, app_nil_r. done.
Qed.

(** A file that was moved to another directory and a changed one. *)
Definition ex_obj (remote : string) (size mtime : Z) (h : string) : Object :=
  mkObject remote size mtime (Some h) true 0.

Lemma renames_sound_witness :
  exists rs m left,
    map_run 5 10 (rename_ops 5 [ex_obj "new/a" 3 0 "ff"; ex_obj "b" 4 0 "ee"])
      (makeRenameMap 5 [ex_obj "new/a" 3 0 "ff"; ex_obj "b" 4 0 "ee"]
         [ex_obj "x/b" 4 0 "dd"; ex_obj "old/a" 3 99 "ff"; ex_obj "c" 9 0 "cc"]) = (rs, m) /\
    rs = [Some (ex_obj "old/a" 3 99 "ff"); None] /\
    omap id rs ++ left ≡ₚ [ex_obj "x/b" 4 0 "dd"; ex_obj "old/a" 3 99 "ff"].
Proof.
  destruct (renames_sound 5 10 [ex_obj "new/a" 3 0 "ff"; ex_obj "b" 4 0 "ee"]
         [ex_obj "x/b" 4 0 "dd"; ex_obj "old/a" 3 99 "ff"; ex_obj "c" 9 0 "cc"]
         [ex_obj "new/a" 3 0 "ff"; ex_obj "b" 4 0 "ee"]) as (rs & m & left & E & Hp & _).
  - repeat constructor; intros h [= <-]; reflexivity.
  - repeat constructor; intros h [= <-]; reflexivity.
  - exists rs, m, left. split; [exact E|]. split.
    + vm_compute in E. injection E as <- _. reflexivity.
    + exact Hp.
Defined.

End Rename.
