(* ===== verification/SyncState.v ===== *)
(** * The state of a sync: fs/sync/sync.go, first part

    The errors that a sync records and their precedence ([processError],
    [currentError]); the options that [newSyncCopyMove] derives from the
    configuration; the fields of [syncCopyMove] that change while it runs, as
    records; and the bookkeeping of directories ([markParentNotEmpty],
    [markDirModified], [setDelayedDirModTimes], [deleteEmptyDirectories]).

    What a sync asks of fs/operations, of fs/accounting and of the two file
    systems is the class [Operations]: functions on a type of worlds, with no
    laws, so the theorems hold whatever these calls answer.  The calls that
    matter for safety are recorded in a log. *)
From S2P Require Import Prelude GoPath Entries Pipe Rename.

Module SyncState.
Import GoPath Entries.
Import Pipe(ObjectPair, mkPair, Src, Dst, pipe, Deheap, put_locked, get_locked, newPipe).

(** ** Errors *)

Inductive error :=
| DeadlineExceeded
| Canceled
| EText (msg : string)
| EFatal (e : error)              (* fserrors.FatalError *)
| ENoRetry (e : error)            (* fserrors.NoRetryError *)
| EWrap (msg : string) (e : error).

#[export] Instance error_eq_dec : EqDecision error.
Proof. solve_decision. Defined.

Definition ErrorMaxTransferLimitReached : error :=
  EText "max transfer limit reached as set by --max-transfer".
Definition ErrorMaxTransferLimitReachedGraceful : error := ENoRetry ErrorMaxTransferLimitReached.
Definition ErrorMaxDurationReachedFatal : error :=
  EFatal (EText "max transfer duration reached as set by --max-duration").
Definition ErrorNotDeleting : error := EText "not deleting files as there were IO errors".
Definition ErrorNotDeletingDirs : error :=
  EText "not deleting directories as there were IO errors".
Definition ErrorImmutableModified : error := EText "immutable file modified".

(** [IsFatalError] and [IsNoRetryError] walk the chain of wrapped errors and
    stop at the first that implements the interface. *)
Fixpoint IsFatalError (e : error) : bool :=
  match e with
  | EFatal _ => true
  | ENoRetry e' | EWrap _ e' => IsFatalError e'
  | _ => false
  end.

Fixpoint IsNoRetryError (e : error) : bool :=
  match e with
  | ENoRetry _ => true
  | EFatal e' | EWrap _ e' => IsNoRetryError e'
  | _ => false
  end.

(** The contexts and the error fields: [s.ctx.Err()], [s.inCtx.Err()],
    [s.err], [s.noRetryErr], [s.fatalErr]. *)
Record errs := mkErrs {
  ctxErr : option error;
  inCtxErr : option error;
  err : option error;
  noRetryErr : option error;
  fatalErr : option error;
}.

Definition end_with (cause : error) (o : option error) : option error :=
  match o with None => Some cause | _ => o end.

(** Ending [s.inCtx], and ending [s.ctx] from which it is derived; the first
    cause stays. *)
Definition end_inCtx (cause : error) (x : errs) : errs :=
  mkErrs (ctxErr x) (end_with cause (inCtxErr x)) (err x) (noRetryErr x) (fatalErr x).

Definition end_ctx (cause : error) (x : errs) : errs :=
  mkErrs (end_with cause (ctxErr x)) (end_with cause (inCtxErr x)) (err x) (noRetryErr x)
    (fatalErr x).

Definition inCancel : errs -> errs := end_inCtx Canceled.
Definition cancel : errs -> errs := end_ctx Canceled.

Definition aborting (x : errs) : bool := bool_decide (ctxErr x <> None).
Definition stopping (x : errs) : bool := bool_decide (inCtxErr x <> None).

(** The switch of [processError], under the mutex. *)
Definition record_error (e : error) (x : errs) : errs :=
  if IsFatalError e then
    let x := if aborting x then x else cancel x in
    mkErrs (ctxErr x) (inCtxErr x) (err x) (noRetryErr x) (Some e)
  else if IsNoRetryError e then
    mkErrs (ctxErr x) (inCtxErr x) (err x) (Some e) (fatalErr x)
  else mkErrs (ctxErr x) (inCtxErr x) (Some e) (noRetryErr x) (fatalErr x).

Definition processError (o : option error) (x : errs) : errs :=
  match o with
  | None => x
  | Some e =>
      if bool_decide (e = DeadlineExceeded) then record_error (ENoRetry e) x
      else if bool_decide (e = ErrorMaxTransferLimitReachedGraceful) then
        record_error e (if stopping x then x else inCancel x)
      else if bool_decide (e = Canceled) && stopping x then x
      else record_error e x
  end.

Definition currentError (x : errs) : option error :=
  match fatalErr x with
  | Some e => Some e
  | None => match err x with Some e => Some e | None => noRetryErr x end
  end.

(** ** Options *)

Inductive DeleteMode :=
| DeleteModeOff | DeleteModeBefore | DeleteModeDuring | DeleteModeAfter | DeleteModeOnly.

#[export] Instance DeleteMode_eq_dec : EqDecision DeleteMode.
Proof. solve_decision. Defined.

(** What is read of [fs.ConfigInfo] and of the filter. *)
Record Config := mkConfig {
  NoTraverse : bool;
  NoCheckDest : bool;
  TrackRenames : bool;
  TrackRenamesStrategy : string;
  CheckFirst : bool;
  Metadata : bool;
  NoUpdateDirModTime : bool;
  Immutable : bool;
  FixCase : bool;
  IgnoreExisting : bool;
  IgnoreErrors : bool;
  OrderBy : string;
  MaxBacklog : Z;
  MaxDuration : Z;
  CutoffModeHard : bool;
  BackupDir : string;
  Suffix : string;
  CompareDest : list string;
  CopyDest : list string;
}.

(** What is read of a file system's [Features]. *)
Record Features := mkFeatures {
  ReadDirMetadata : bool;
  WriteDirMetadata : bool;
  CanHaveEmptyDirectories : bool;
  WriteDirSetModTime : bool;
  MkdirMetadata : bool;
  DirSetModTime : bool;
  DirModTimeUpdatesOnWrite : bool;
  ServerSideMove : bool;            (* operations.CanServerSideMove *)
}.

(** The fields of [syncCopyMove] that [newSyncCopyMove] fixes. *)
Record Options := mkOptions {
  ci : Config;
  deleteMode : DeleteMode;
  DoMove : bool;
  copyEmptySrcDirs : bool;
  deleteEmptySrcDirs : bool;
  noTraverse : bool;
  noCheckDest : bool;
  trackRenames : bool;
  trackRenamesStrategy : Z;
  modifyWindow : Z;
  checkFirst : bool;
  setDirMetadata : bool;
  setDirModTime : bool;
  setDirModTimeAfter : bool;
  usingLogger : bool;
  backupDir : bool;                 (* s.backupDir != nil *)
  dstEmptyDirsOK : bool;            (* s.fdst.Features().CanHaveEmptyDirectories *)
  hasDeadline : bool;               (* !s.maxDurationEndTime.IsZero() *)
}.

(** [fs.ModTimeNotSupported] *)
Definition ModTimeNotSupported : Z := 100 * 365 * 24 * 3600 * 10 ^ 9.

Section new_sync.
Context `{!Deheap}.
Variable glob : string -> option (string -> bool).
(** [operations.OverlappingFilterCheck], whether the remotes have a common
    hash, [fs.GetModifyWindow], whether a logger is in use, and the results of
    [operations.BackupDir], [GetCompareDest] and [GetCopyDest]. *)
Variable overlapping commonHash : bool.
Variable window : Z.
Variable logger : bool.
Variable BackupDirErr GetCompareDestErr GetCopyDestErr : option error.

Definition order_error_text : error := EText "bad --order-by".

(** --track-renames is dropped with a message when it cannot work. *)
Definition track_renames_ok (c : Config) (fdst : Features) (strategy : Z) (mode : DeleteMode)
  : bool :=
  TrackRenames c && ServerSideMove fdst &&
  negb (Rename.hash strategy && negb commonHash) &&
  negb (Rename.modTime strategy && (window =? ModTimeNotSupported)) &&
  negb (bool_decide (mode = DeleteModeOff)).

Definition newSyncCopyMove (c : Config) (fdst fsrc : Features) (mode : DeleteMode)
    (doMove deleteEmpty copyEmpty allowOverlap : bool) : error + (Options * pipe) :=
  if (negb (bool_decide (mode = DeleteModeOff)) || doMove) && overlapping && negb allowOverlap
  then inl (EFatal (EText "can't sync or move files on overlapping remotes"))
  else
    match newPipe glob (OrderBy c) (if CheckFirst c then -1 else MaxBacklog c) with
    | inl _ => inl order_error_text
    | inr p =>
        let noTraverse := NoTraverse c && bool_decide (mode = DeleteModeOff) in
        match Rename.parseTrackRenamesStrategy (TrackRenamesStrategy c) with
        | (_, Some name) => inl (EText ("unknown track renames strategy " +:+ name))
        | (strategy, None) =>
            if NoCheckDest c && negb (bool_decide (mode = DeleteModeOff)) then
              inl (EText "can't use --no-check-dest with sync: use copy instead")
            else if NoCheckDest c && Immutable c then
              inl (EText "can't use --no-check-dest with --immutable")
            else if NoCheckDest c && false then
              (* s.backupDir is set further down and is nil here *)
              inl (EText "can't use --no-check-dest with --backup-dir")
            else
              let track := track_renames_ok c fdst strategy mode in
              let mode' := if track && negb (bool_decide (mode = DeleteModeOff))
                           then DeleteModeAfter else mode in
              let noTraverse := noTraverse && negb track in
              let wantBackup := negb (str_eqb (BackupDir c) "") || negb (str_eqb (Suffix c) "") in
              match (if wantBackup then BackupDirErr else None) with
              | Some e => inl e
              | None =>
                  match (match CompareDest c, CopyDest c with
                         | _ :: _, _ => GetCompareDestErr
                         | [], _ :: _ => GetCopyDestErr
                         | [], [] => None
                         end) with
                  | Some e => inl e
                  | None =>
                      inr (mkOptions c mode' doMove copyEmpty deleteEmpty noTraverse
                        (NoCheckDest c) track strategy window (CheckFirst c)
                        (Metadata c && ReadDirMetadata fsrc && WriteDirMetadata fdst)
                        ((negb (NoUpdateDirModTime c) && CanHaveEmptyDirectories fsrc) &&
                         (WriteDirSetModTime fdst || MkdirMetadata fdst || DirSetModTime fdst))
                        (negb (NoUpdateDirModTime c) &&
                         (negb copyEmpty ||
                          CanHaveEmptyDirectories fsrc && DirModTimeUpdatesOnWrite fdst))
                        logger wantBackup (CanHaveEmptyDirectories fdst) (0 <? MaxDuration c), p)
                  end
              end
        end
    end.
End new_sync.

(** [runSyncCopyMove]; [pass mode doMove] makes a sync with [newSyncCopyMove]
    and runs it.  --delete-before is a pass that only deletes, then a copy. *)
Definition runSyncCopyMove (pass : DeleteMode -> bool -> option error) (c : Config)
    (mode : DeleteMode) (doMove : bool) : option error :=
  if negb (bool_decide (mode = DeleteModeOff)) && doMove then
    Some (EFatal (EText "can't delete and move at the same time"))
  else if bool_decide (mode = DeleteModeBefore) then
    if TrackRenames c then
      Some (EFatal (EText "can't use --delete-before with --track-renames"))
    else match pass DeleteModeOnly false with
         | Some e => Some e
         | None => pass DeleteModeOff doMove
         end
  else pass mode doMove.

(** No pass sees [DeleteModeBefore], for which [DstOnly] panics, and no pass
    both deletes and moves. *)
Lemma runSyncCopyMove_passes pass pass' c mode doMove :
  (forall m mv, m <> DeleteModeBefore -> (m = DeleteModeOff \/ mv = false) ->
     pass m mv = pass' m mv) ->
  runSyncCopyMove pass c mode doMove = runSyncCopyMove pass' c mode doMove.
Proof.
  intros H. unfold runSyncCopyMove. destruct mode, doMove; cbn; try done; try (by apply H; auto).
  destruct (TrackRenames c); [done|]. rewrite (H DeleteModeOnly false) by auto.
  destruct (pass' _ _); [done|]. by apply H; auto.
Qed.

(** ** What a sync asks of the rest of the program *)

(** The file system a directory operation acts on. *)
Inductive side := FSrc | FDst.

#[export] Instance side_eq_dec : EqDecision side.
Proof. solve_decision. Defined.

(** Functions of fs/operations, of the file systems and of the stats, on a
    type of worlds.  [None] as a destination is Go's [nil]. *)
Class Operations (W : Type) := {
  op_NeedTransfer : option Object -> Object -> W -> W * bool;
  op_CompareOrCopyDest : option Object -> Object -> W -> W * (bool * option error);
  op_NotFound : string -> W -> W * bool;  (* NewObject returns ErrorObjectNotFound *)
  op_NewObject : string -> W -> W * option Object;
  op_Move : option Object -> string -> Object -> W -> W * (error + option Object);
  op_MoveTransfer : option Object -> string -> Object -> W -> W * option error;
  op_Copy : option Object -> string -> Object -> W -> W * option error;
  op_DeleteFile : Object -> W -> W * option error;
  op_DeleteFileWithBackupDir : Object -> W -> W * option error;
  op_MoveBackupDir : Object -> W -> W * option error;
  op_SameObject : Object -> option Object -> bool;
  op_CountError : error -> W -> W * error;
  op_Errored : W -> bool;
  op_TryRmdir : side -> string -> W -> W * option error;
  op_DirsEqual : Directory -> option Directory -> W -> bool;
  op_CopyDirMetadata : option Directory -> string -> Directory -> W ->
    W * (option Directory * option error);
  op_MkdirModTime : string -> Z -> W -> W * (option Directory * option error);
  op_Mkdir : string -> W -> W * option error;
  op_SetDirModTime : option Directory -> string -> Z -> W ->
    W * (option Directory * option error);
  op_DirMoveCaseInsensitive : string -> string -> W -> W * option error;
  op_Overlapping : bool;                  (* OverlappingFilterCheck *)
  op_Transforming : bool;                 (* transform.Transforming *)
  op_TransformPath : string -> bool -> string;
}.

(** ** The state *)

(** For keeping track of delayed modtime sets. *)
Record setDirModTime_item := mkDelayed {
  i_src : Directory;
  i_dst : option Directory;
  i_dir : string;
  i_modTime : Z;
  i_level : Z;
}.

Record pipes := mkPipes { toBeChecked : pipe; toBeUploaded : pipe; toBeRenamed : pipe }.

(** [renameCheck] also stands for the channel it is filled from;
    [deleteFilesCh] is the list of objects waiting in that channel. *)
Record files := mkFiles {
  renameCheck : list Object;
  renameMap : gmap string (list Object);
  dstFiles : gmap string Object;
  deleteFilesCh : list Object;
  deleteErrors : list error;       (* errors of the background deleters *)
}.

Record dirs := mkDirs {
  dstEmptyDirs : gmap string DirEntry;
  srcEmptyDirs : gmap string DirEntry;
  srcMoveEmptyDirs : gmap string DirEntry;
  modifiedDirs : gset string;
  setDirModTimes : list setDirModTime_item;
  setDirModTimesMaxLevel : Z;
}.

(** What became of a source object that the sync was given. *)
Inductive fate :=
| NotStorable        (* skipped: the object cannot be stored *)
| Unchanged          (* the destination has it, or --compare-dest / --copy-dest *)
| Transferred        (* copied or moved, no error *)
| Renamed            (* a destination object was renamed *)
| SourceDeleted      (* moving: the source was deleted, the destination has it *)
| TransferFailed     (* the copy, move or delete returned an error *)
| ImmutableModified
| BackupFailed
| TypeClash          (* the destination is a directory *)
| Dropped.           (* the pipe refused it: the context is done *)

Definition failed (f : fate) : bool :=
  match f with
  | TransferFailed | ImmutableModified | BackupFailed | TypeClash | Dropped => true
  | _ => false
  end.

(** Calls that change files or directories. *)
Inductive call :=
| CCopy (src : Object) (dst : option Object)
| CMoveTransfer (src : Object) (dst : option Object)
| CDeleteSrc (src : Object)
| CDeleteDst (dst : Object)
| CBackup (dst : Object)
| CRename (src dst : Object)
| CFixCase (src dst : Object)
| CRmdir (f : side) (dir : string).

#[export] Instance fate_eq_dec : EqDecision fate.
Proof. solve_decision. Defined.
#[export] Instance call_eq_dec : EqDecision call.
Proof. solve_decision. Defined.

(** History, kept for the theorems: the source objects taken on, their fates,
    the destination objects reported as extra, the calls made, and the panics
    of the code. *)
Record history := mkHistory {
  taken : list Object;
  fates : list (Object * fate);
  extra : list Object;
  calls : list call;
  panics : list string;
}.

Record sync (W : Type) := mkSync {
  world : W;
  s_errs : errs;
  s_pipes : pipes;
  s_files : files;
  s_dirs : dirs;
  s_hist : history;
}.
Arguments mkSync {W}.
Arguments world {W}.
Arguments s_errs {W}.
Arguments s_pipes {W}.
Arguments s_files {W}.
Arguments s_dirs {W}.
Arguments s_hist {W}.

(** ** A state monad *)

Definition M (W A : Type) : Type := sync W -> A * sync W.

#[export] Instance M_ret W : MRet (M W) := fun A x s => (x, s).
#[export] Instance M_bind W : MBind (M W) := fun A B f m s => let '(x, s') := m s in f x s'.

Section state.
Context {W : Type} `{!Operations W}.
Implicit Types s : sync W.

Definition skip : M W unit := mret tt.

(** Calls on the world. *)
Definition on_world {A} (f : W -> W * A) : M W A := fun s =>
  let '(w, a) := f (world s) in
  (a, mkSync w (s_errs s) (s_pipes s) (s_files s) (s_dirs s) (s_hist s)).

Definition on_errs (f : errs -> errs) : M W unit := fun s =>
  (tt, mkSync (world s) (f (s_errs s)) (s_pipes s) (s_files s) (s_dirs s) (s_hist s)).

Definition on_pipes (f : pipes -> pipes) : M W unit := fun s =>
  (tt, mkSync (world s) (s_errs s) (f (s_pipes s)) (s_files s) (s_dirs s) (s_hist s)).

Definition on_files (f : files -> files) : M W unit := fun s =>
  (tt, mkSync (world s) (s_errs s) (s_pipes s) (f (s_files s)) (s_dirs s) (s_hist s)).

Definition on_dirs (f : dirs -> dirs) : M W unit := fun s =>
  (tt, mkSync (world s) (s_errs s) (s_pipes s) (s_files s) (f (s_dirs s)) (s_hist s)).

Definition on_hist (f : history -> history) : M W unit := fun s =>
  (tt, mkSync (world s) (s_errs s) (s_pipes s) (s_files s) (s_dirs s) (f (s_hist s))).

Definition gets {A} (f : sync W -> A) : M W A := fun s => (f s, s).

(** A history entry. *)
Definition note_taken (o : Object) : M W unit :=
  on_hist (fun h => mkHistory (taken h ++ [o]) (fates h) (extra h) (calls h) (panics h)).
Definition note_fate (o : Object) (f : fate) : M W unit :=
  on_hist (fun h => mkHistory (taken h) (fates h ++ [(o, f)]) (extra h) (calls h) (panics h)).
Definition note_extra (o : Object) : M W unit :=
  on_hist (fun h => mkHistory (taken h) (fates h) (extra h ++ [o]) (calls h) (panics h)).
Definition note_call (c : call) : M W unit :=
  on_hist (fun h => mkHistory (taken h) (fates h) (extra h) (calls h ++ [c]) (panics h)).
Definition note_panic (msg : string) : M W unit :=
  on_hist (fun h => mkHistory (taken h) (fates h) (extra h) (calls h) (panics h ++ [msg])).

(** A recorded call. *)
Definition do_call {A} (c : call) (f : W -> W * A) : M W A := note_call c ;; on_world f.

Definition process (e : option error) : M W unit := on_errs (processError e).
End state.

(** ** Bookkeeping of directories *)

Definition set_srcEmptyDirs (m : gmap string DirEntry) (d : dirs) : dirs :=
  mkDirs (dstEmptyDirs d) m (srcMoveEmptyDirs d) (modifiedDirs d) (setDirModTimes d)
    (setDirModTimesMaxLevel d).

(** [if parentDir == "." { parentDir = "" }] *)
Definition no_dot (dir : string) : string := if str_eqb dir "." then "" else dir.

(** The loop that marks ALL the parents as not empty. *)
Fixpoint mark_parents (fuel : nat) (parentDir : string) (m : gmap string DirEntry)
  : gmap string DirEntry :=
  match fuel with
  | O => m
  | S fuel' =>
      let parentDir := no_dot parentDir in
      let m := delete parentDir m in
      if str_eqb parentDir "" || str_eqb parentDir "/" then m
      else mark_parents fuel' (path_Dir parentDir) m
  end.

(** [path.Dir] of a path that is not "." or "/" is shorter, so the length of
    the path is enough fuel ([mark_parents_clean]). *)
Definition markParentNotEmpty (o : Options) (entry : DirEntry) (d : dirs) : dirs :=
  let remote := Remote entry in
  let isDir := is_dir entry in
  let m := srcEmptyDirs d in
  let m := if isDir then <[remote := entry]> m else m in
  let moved := if isDir && DoMove o && deleteEmptySrcDirs o
               then <[remote := entry]> (srcMoveEmptyDirs d) else srcMoveEmptyDirs d in
  let parentDir := path_Dir remote in
  let m := if isDir && copyEmptySrcDirs o then delete (no_dot parentDir) m else m in
  let m := if negb isDir then mark_parents (S (String.length remote)) parentDir m else m in
  mkDirs (dstEmptyDirs d) m moved (modifiedDirs d) (setDirModTimes d) (setDirModTimesMaxLevel d).

Definition markDirModified (o : Options) (dir : string) (d : dirs) : dirs :=
  if negb (setDirModTimeAfter o) then d
  else mkDirs (dstEmptyDirs d) (srcEmptyDirs d) (srcMoveEmptyDirs d) ({[dir]} ∪ modifiedDirs d)
         (setDirModTimes d) (setDirModTimesMaxLevel d).

Definition markDirModifiedObject (o : Options) (obj : Object) (d : dirs) : dirs :=
  markDirModified o (no_dot (path_Dir (oRemote obj))) d.

(** [strings.Count(dir, "/") + 1], [0] for the root. *)
Fixpoint count_char (c : ascii) (s : string) : Z :=
  match s with
  | EmptyString => 0
  | String a s' => (if Ascii.eqb a c then 1 else 0) + count_char c s'
  end.

Definition dir_level (dir : string) : Z :=
  if str_eqb dir "" then 0 else count_char slash dir + 1.

(** The end of [copyDirMetadata]: save the directory for later. *)
Definition add_delayed (src : Directory) (newDst : option Directory) (dir : string) (d : dirs)
  : dirs :=
  let dir := match newDst with Some x => dRemote x | None => dir end in
  let level := dir_level dir in
  mkDirs (dstEmptyDirs d) (srcEmptyDirs d) (srcMoveEmptyDirs d) (modifiedDirs d)
    (setDirModTimes d ++ [mkDelayed src newDst dir (dModTime src) level])
    (Z.max level (setDirModTimesMaxLevel d)).

Section dir_ops.
Context {W : Type} `{!Operations W}.
Variable o : Options.

(** [copyDirMetadata]: the call that is made, if any. *)
Definition make_dir (dst : option Directory) (dir : string) (src : Directory)
  : M W (option Directory * option error) :=
  if setDirMetadata o && copyEmptySrcDirs o then on_world (op_CopyDirMetadata dst dir src)
  else match dst with
       | None =>
           if setDirModTime o && copyEmptySrcDirs o then
             on_world (op_MkdirModTime dir (dModTime src))
           else if copyEmptySrcDirs o then
             e ← on_world (op_Mkdir dir); mret (None, e)
           else mret (None, None)
       | Some _ =>
           if setDirModTime o then on_world (op_SetDirModTime dst dir (dModTime src))
           else mret (dst, None)
       end.

Definition copyDirMetadata (dst : option Directory) (dir : string) (src : Directory) : M W unit :=
  if match dst with
     | Some x => str_eqb (dRemote src) (dRemote x) && op_Overlapping
     | None => false
     end then skip
  else
    equal ← gets (fun s => op_DirsEqual src dst (world s));
    if negb (setDirModTimeAfter o) && equal then skip
    else
      '(newDst, e) ← (if equal then mret (dst, None) else make_dir dst dir src);
      (if op_Transforming && match newDst with
                             | Some x => negb (str_eqb (dRemote src) (dRemote x))
                             | None => false
                             end
       then on_dirs (markParentNotEmpty o (EDir src)) else skip) ;;
      (if setDirModTime o && setDirModTimeAfter o && bool_decide (e = None)
       then on_dirs (add_delayed src newDst dir) else skip) ;;
      process e.

(** One directory of [setDelayedDirModTimes]; the second component counts the
    errors and keeps the last. *)
Definition delayed_item (item : setDirModTime_item) (errors : list error) : M W (list error) :=
  modified ← gets (fun s => bool_decide (i_dir item ∈ modifiedDirs (s_dirs s)));
  isEmpty ← gets (fun s => bool_decide (i_dir item ∈ dom (srcEmptyDirs (s_dirs s))));
  if negb modified then mret errors
  else if negb (copyEmptySrcDirs o) && isEmpty then mret errors
  else
    on_dirs (fun d => markDirModified o (no_dot (path_Dir (i_dir item))) d) ;;
    '(_, e) ← (if setDirMetadata o
               then on_world (op_CopyDirMetadata (i_dst item) (i_dir item) (i_src item))
               else on_world (op_SetDirModTime (i_dst item) (i_dir item) (i_modTime item)));
    match e with
    | None => mret errors
    | Some e => e ← on_world (op_CountError e); mret (errors ++ [e])
    end.

(** The items of one level, until the context is done. *)
Fixpoint delayed_level (level : Z) (items : list setDirModTime_item) (errors : list error)
  : M W (list error) :=
  match items with
  | [] => mret errors
  | item :: items' =>
      if negb (i_level item =? level) then delayed_level level items' errors
      else
        done ← gets (fun s => aborting (s_errs s));
        if (done : bool) then mret errors
        else errors ← delayed_item item errors; delayed_level level items' errors
  end.

(** [for level := maxLevel; level >= 0; level--] *)
Fixpoint delayed_levels (n : nat) (errors : list error) : M W (list error) :=
  items ← gets (fun s => setDirModTimes (s_dirs s));
  errors ← delayed_level (Z.of_nat n) items errors;
  match n with
  | O => mret errors
  | S n' => delayed_levels n' errors
  end.

Definition setDelayedDirModTimes : M W (option error) :=
  top ← gets (fun s => setDirModTimesMaxLevel (s_dirs s));
  errors ← delayed_levels (Z.to_nat top) [];
  mret (EWrap "failed to set directory modtime" <$> last errors).

(** [deleteEmptyDirectories]: the entries from the last to the first in the
    order of paths; errors are counted for a message only. *)
Fixpoint rmdir_all (f : side) (entries : list DirEntry) : M W unit :=
  match entries with
  | [] => skip
  | EDir dir :: entries' =>
      do_call (CRmdir f (dRemote dir)) (op_TryRmdir f (dRemote dir)) ;;
      rmdir_all f entries'
  | EObject _ :: entries' => rmdir_all f entries'
  end.

Definition rmdir_order (m : gmap string DirEntry) : list DirEntry :=
  reverse (sort_entries (snd <$> map_to_list m)).

Definition deleteEmptyDirectories (f : side) (m : gmap string DirEntry) : M W (option error) :=
  if bool_decide (m = ∅) then mret None
  else
    errored ← gets (fun s => op_Errored (world s));
    if errored && negb (IgnoreErrors (ci o)) then mret (Some ErrorNotDeletingDirs)
    else rmdir_all f (rmdir_order m) ;; mret None.
End dir_ops.

(** ** Empty source directories *)

(** [mark_parents] removes the directories that the path is inside of; its
    fuel is enough. *)
Lemma mark_parents_clean fuel parts p m k :
  Forall good parts -> good p -> (length parts < fuel)%nat ->
  let m' := mark_parents fuel (path_Dir (join_with "/" (parts ++ [p]))) m in
  (inside k (join_with "/" (parts ++ [p])) -> m' !! k = None) /\
  (~ inside k (join_with "/" (parts ++ [p])) -> m' !! k = m !! k).
Proof.
  revert fuel p m. induction parts as [|q parts IH] using rev_ind; intros fuel p m Hall Hp Hf;
    cbv zeta; rewrite inside_snoc by done; destruct fuel as [|fuel]; try lia; cbn [mark_parents];
    change (no_dot (path_Dir ?x)) with (parentDir x); rewrite parentDir_join by done.
  - cbn. split; [|intros H; apply lookup_delete_ne; intros <-; apply H; by left].
    intros [->|H]; [by rewrite lookup_delete_eq|by apply inside_root in H].
  - assert (join_with "/" (parts ++ [q]) <> "") as Hne
      by (apply join_good_nonempty; [done|by destruct parts]).
    assert (join_with "/" (parts ++ [q]) <> "/") as Hns.
    { intros E. pose proof (join_good_not_rooted _ Hall) as Hr. by rewrite E in Hr. }
    rewrite (proj2 (str_eqb_neq _ _) Hne), (proj2 (str_eqb_neq _ _) Hns). cbn [orb].
    apply Forall_app in Hall as [Hall Hq]. apply Forall_cons in Hq as [Hq _].
    destruct (IH fuel q (delete (join_with "/" (parts ++ [q])) m)) as [I1 I2];
      [done|done|rewrite length_app in Hf; cbn in Hf; lia|]. split.
    + intros [->|H]; [|by apply I1]. rewrite I2 by apply inside_irrefl.
      by rewrite lookup_delete_eq.
    + intros H. rewrite I2 by (intros ?; apply H; by right). apply lookup_delete_ne.
      intros <-. apply H. by left.
Qed.

(** An entry that shows that the directory [k] is not empty. *)
Definition shows (copyEmpty : bool) (e : DirEntry) (k : string) : Prop :=
  inside k (Remote e) /\ (is_dir e = false \/ (copyEmpty = true /\ parentDir (Remote e) = k)).

Definition clean_path (r : string) : Prop :=
  exists parts p, Forall good parts /\ good p /\ r = join_with "/" (parts ++ [p]).

(** The order of a walk: a directory comes before what is inside it. *)
Definition walk_order (es : list DirEntry) : Prop :=
  forall l1 e l2, es = l1 ++ e :: l2 -> is_dir e = true ->
  forall e', e' ∈ l1 -> ~ inside (Remote e) (Remote e').

(** One entry. *)
Lemma mark_one o e d k :
  clean_path (Remote e) ->
  srcEmptyDirs (markParentNotEmpty o e d) !! k <> None <->
  (is_dir e = true /\ k = Remote e) \/
  (srcEmptyDirs d !! k <> None /\ ~ shows (copyEmptySrcDirs o) e k).
Proof.
  intros (parts & p & Hall & Hp & Hr). unfold markParentNotEmpty, shows. cbn [srcEmptyDirs].
  rewrite Hr. destruct (is_dir e) eqn:Ed; cbn [negb andb].
  - change (no_dot (path_Dir ?x)) with (parentDir x). rewrite parentDir_join by done.
    set (r := join_with "/" (parts ++ [p])). set (q := join_with "/" parts).
    assert (inside q r) as Hin by (by apply inside_parent).
    assert (q <> r) as Hqr by (intros E; rewrite E in Hin; by apply inside_irrefl in Hin).
    destruct (copyEmptySrcDirs o).
    + destruct (decide (k = q)) as [->|Hk].
      { rewrite lookup_delete_eq. naive_solver. }
      rewrite lookup_delete_ne by done. destruct (decide (k = r)) as [->|Hkr];
        [rewrite lookup_insert_eq|rewrite lookup_insert_ne by done]; naive_solver.
    + destruct (decide (k = r)) as [->|Hkr];
        [rewrite lookup_insert_eq|rewrite lookup_insert_ne by done]; naive_solver.
  - destruct (mark_parents_clean (S (String.length (join_with "/" (parts ++ [p])))) parts p
                (srcEmptyDirs d) k Hall Hp) as [H1 H2].
    { assert (Forall good (parts ++ [p])) as Hg by (apply Forall_app; by split; [|constructor]).
      pose proof (join_length _ Hg) as Hl. rewrite length_app in Hl. cbn in Hl. lia. }
    split.
    + intros Hm. right. split; [|intros [Hi _]; by rewrite H1 in Hm].
      rewrite <- H2; [done|]. intros Hi. by rewrite H1 in Hm.
    + intros [[? _]|[Hm Hn]]; [done|]. rewrite H2; [done|]. intros Hi. apply Hn. auto.
Qed.

(** After a walk of the source in which each directory comes before its
    contents, the directories kept as empty are exactly those that were seen
    and hold no file at any depth and, if empty directories are copied, no
    directory either. *)
Theorem srcEmptyDirs_correct o es d k :
  srcEmptyDirs d = ∅ -> Forall (fun e => clean_path (Remote e)) es -> walk_order es ->
  k ∈ dom (srcEmptyDirs (foldl (fun d e => markParentNotEmpty o e d) d es)) <->
  (exists e, e ∈ es /\ is_dir e = true /\ Remote e = k) /\
  (forall e, e ∈ es -> ~ shows (copyEmptySrcDirs o) e k).
Proof.
  intros Hd Hc Hw. rewrite elem_of_dom. unfold is_Some.
  assert (forall m : gmap string DirEntry, (exists x, m !! k = Some x) <-> m !! k <> None) as Hs.
  { intros m. destruct (m !! k); naive_solver. }
  rewrite Hs. clear Hs. induction es as [|e es IH] using rev_ind.
  { cbn. rewrite Hd, lookup_empty. set_solver. }
  apply Forall_app in Hc as [Hc He]. apply Forall_cons in He as [He _].
  rewrite foldl_app. cbn [foldl]. rewrite mark_one by done. rewrite IH; [|done|].
  2:{ intros l1 e' l2 ->. apply (Hw l1 e' (l2 ++ [e])). by rewrite <- app_assoc. }
  assert (is_dir e = true -> forall e', e' ∈ es -> ~ inside (Remote e) (Remote e')) as Hlast.
  { intros Hdir. by apply (Hw es e []). }
  setoid_rewrite elem_of_app. setoid_rewrite list_elem_of_singleton. split.
  - intros [[Hdir ->]|[[(e' & H1 & H2 & H3) H4] H5]].
    + split; [by exists e; auto|]. intros e' [Hin| ->] [Hi _]; [by eapply Hlast|].
      by apply inside_irrefl in Hi.
    + split; [by exists e'; auto|]. intros e'' [Hin| ->]; auto.
  - intros [(e' & [Hin| ->] & H2 & H3) H4]; [|by left].
    right. split; [split; [by exists e'|]|]; auto.
Qed.

(** A walk of a source with an empty directory. *)
Definition ex_walk : list DirEntry :=
  [EDir (mkDirectory "a" 0); EDir (mkDirectory "b" 0); EObject (mkObject "a/f" 1 0 None true 0)].

Definition ex_opts (copyEmpty ignoreErrors : bool) : Options :=
  mkOptions (mkConfig false false false "" false false false false false false ignoreErrors "" 0 0
               true "" "" [] []) DeleteModeAfter false copyEmpty false false false false 0 0
    false false false false false false true false.

Definition no_dirs : dirs := mkDirs ∅ ∅ ∅ ∅ [] 0.

Lemma srcEmptyDirs_correct_witness :
  "b" ∈ dom (srcEmptyDirs (foldl (fun d e => markParentNotEmpty (ex_opts true false) e d)
                             no_dirs ex_walk)) /\
  (forall e, e ∈ ex_walk -> ~ shows true e "b").
Proof.
  assert (H : "b" ∈ dom (srcEmptyDirs (foldl (fun d e => markParentNotEmpty (ex_opts true false) e d)
                             no_dirs ex_walk))).
  { apply elem_of_dom. vm_compute. eauto. }
  split; [exact H|].
  apply (srcEmptyDirs_correct (ex_opts true false) ex_walk no_dirs "b"); [reflexivity| | |exact H].
  - repeat constructor; [exists [], "a"|exists [], "b"|exists ["a"], "f"]; repeat constructor;
      discriminate.
  - intros l1 e l2 E Hd e' Hin Hi.
    destruct l1 as [|e1 [|e2 [|e3 l1]]]; injection E as <-; subst; try discriminate.
    + by apply elem_of_nil in Hin.
    + apply list_elem_of_singleton in Hin as ->. apply inside_lt in Hi. discriminate Hi.
    + by destruct l1.
Defined.

(** ** Removing empty directories *)

Lemma rmdir_order_perm m : rmdir_order m ≡ₚ (map_to_list m).*2.
Proof.
  unfold rmdir_order. rewrite reverse_Permutation. apply sort_entries_perm.
Qed.

(** A directory is removed after the directories inside it. *)
Lemma rmdir_order_inside m i j a b :
  rmdir_order m !! i = Some a -> rmdir_order m !! j = Some b ->
  inside (Remote a) (Remote b) -> (j < i)%nat.
Proof.
  unfold rmdir_order. set (l := sort_entries (map_to_list m).*2). intros Hi Hj Hab.
  pose proof (lookup_lt_Some _ _ _ Hi) as Li. pose proof (lookup_lt_Some _ _ _ Hj) as Lj.
  rewrite length_reverse in Li, Lj. rewrite reverse_lookup in Hi, Hj by done.
  destruct (decide (j < i)%nat) as [|Hn]; [done|]. exfalso.
  assert (Less a b = true) as Hlt by (apply Less_spec; left; by apply inside_lt).
  destruct (decide (i = j)) as [->|Hne].
  { simplify_eq. by apply inside_irrefl in Hab. }
  pose proof (sort_Stable_sorted Less (map_to_list m).*2) as Hs.
  change (sort_Stable Less _) with l in Hs.
  eapply StronglySorted_lookup in Hs; [|exact Hj|exact Hi|lia]. cbn in Hs. congruence.
Qed.

Lemma rmdir_all_calls {W} `{!Operations W} f es (s : sync W) :
  Forall (fun e => is_dir e = true) es ->
  calls (s_hist (rmdir_all f es s).2) = calls (s_hist s) ++ (CRmdir f <$> (Remote <$> es)).
Proof.
  intros Hd. revert s. induction Hd as [|e es He Hd IH]; intros s; [by rewrite app_nil_r|].
  destruct e as [x|x]; [done|]. cbn [rmdir_all]. unfold mbind, M_bind, do_call.
  unfold mbind, M_bind, note_call, on_hist, on_world.
  destruct (op_TryRmdir f (dRemote x) _) as [w e]. rewrite IH. cbn. by rewrite <- app_assoc.
Qed.

(** Removing empty directories.  When there were errors and they are not
    ignored nothing is removed and the run gets the error; otherwise every
    directory of the map is tried exactly once, each one after all those
    inside it, so that directories that become empty on the way go too, and
    failures to remove are not errors. *)
Theorem deleteEmptyDirectories_correct {W} `{!Operations W} o f m (s : sync W) :
  map_Forall (fun k e => is_dir e = true /\ Remote e = k) m ->
  let '(r, s') := deleteEmptyDirectories o f m s in
  if op_Errored (world s) && negb (IgnoreErrors (ci o)) && bool_decide (m <> ∅) then
    r = Some ErrorNotDeletingDirs /\ s' = s
  else
    r = None /\ exists order,
      calls (s_hist s') = calls (s_hist s) ++ (CRmdir f <$> order) /\
      order ≡ₚ (map_to_list m).*1 /\
      forall i j a b, order !! i = Some a -> order !! j = Some b -> inside a b -> (j < i)%nat.
Proof.
  intros Hm. unfold deleteEmptyDirectories. destruct (bool_decide (m = ∅)) eqn:Em.
  { apply bool_decide_eq_true in Em as ->. rewrite bool_decide_eq_false_2 by tauto.
    rewrite andb_false_r. cbn. split; [done|]. exists []. by rewrite app_nil_r. }
  apply bool_decide_eq_false in Em. rewrite bool_decide_eq_true_2 by done. rewrite andb_true_r.
  unfold mbind, M_bind, gets. destruct (op_Errored (world s) && _); [done|].
  assert (Forall (fun e => is_dir e = true) (rmdir_order m)) as Hd.
  { apply Forall_forall. intros e He. rewrite rmdir_order_perm in He.
    apply list_elem_of_fmap in He as ([k e'] & -> & He). apply elem_of_map_to_list in He.
    by apply (Hm k e'). }
  pose proof (rmdir_all_calls f (rmdir_order m) s Hd) as Hc.
  destruct (rmdir_all f (rmdir_order m) s) as [u s']. split; [done|].
  exists (Remote <$> rmdir_order m). split; [exact Hc|]. split.
  - rewrite rmdir_order_perm, <- list_fmap_compose.
    erewrite fmap_ext_in; [reflexivity|]. intros [k e] Hin. apply elem_of_map_to_list in Hin.
    by apply (Hm k e).
  - intros i j a b Hi Hj Hab.
    apply list_lookup_fmap_Some in Hi as (x & -> & Hi), Hj as (y & -> & Hj).
    by eapply rmdir_order_inside.
Qed.

Definition ex_dirs : gmap string DirEntry :=
  {["a" := EDir (mkDirectory "a" 0); "a/b" := EDir (mkDirectory "a/b" 0)]}.

(** A world in which every call succeeds; [need] is the answer of [NeedTransfer] and [moved]
    the object that [Move] returns. *)
Definition ex_ops (need : bool) (moved : option Object) : Operations unit := {|
  op_NeedTransfer _ _ w := (w, need);
  op_CompareOrCopyDest _ _ w := (w, (false, None));
  op_NotFound _ w := (w, false);
  op_NewObject _ w := (w, None);
  op_Move _ _ _ w := (w, inr moved);
  op_MoveTransfer _ _ _ w := (w, None);
  op_Copy _ _ _ w := (w, None);
  op_DeleteFile _ w := (w, None);
  op_DeleteFileWithBackupDir _ w := (w, None);
  op_MoveBackupDir _ w := (w, None);
  op_SameObject _ _ := false;
  op_CountError e w := (w, e);
  op_Errored _ := false;
  op_TryRmdir _ _ w := (w, None);
  op_DirsEqual _ _ _ := false;
  op_CopyDirMetadata _ _ _ w := (w, (None, None));
  op_MkdirModTime _ _ w := (w, (None, None));
  op_Mkdir _ w := (w, None);
  op_SetDirModTime _ _ _ w := (w, (None, None));
  op_DirMoveCaseInsensitive _ _ w := (w, None);
  op_Overlapping := false;
  op_Transforming := false;
  op_TransformPath p _ := p;
|}.

Definition ex_state : sync unit :=
  let p := Pipe.ex_pipe in
  mkSync tt (mkErrs None None None None None) (mkPipes p p p) (mkFiles [] ∅ ∅ [] []) no_dirs
    (mkHistory [] [] [] [] []).

Lemma deleteEmptyDirectories_correct_witness :
  exists order,
    calls (s_hist (@deleteEmptyDirectories unit (ex_ops true None) (ex_opts true false) FDst ex_dirs
                     ex_state).2) = CRmdir FDst <$> order /\
    order = ["a/b"; "a"].
Proof.
  pose proof (@deleteEmptyDirectories_correct unit (ex_ops true None) (ex_opts true false) FDst
                ex_dirs ex_state) as H.
  destruct (@deleteEmptyDirectories unit (ex_ops true None) (ex_opts true false) FDst ex_dirs
              ex_state) as [r s'] eqn:E.
  assert (Hm : map_Forall (fun k e => is_dir e = true /\ Remote e = k) ex_dirs).
  { apply map_Forall_insert_2; [split; reflexivity|]. apply map_Forall_insert_2; [split; reflexivity|].
    apply map_Forall_empty. }
  destruct (H Hm) as (_ & order & Hc & _). exists order. split; [exact Hc|].
  vm_compute in E. injection E as _ <-. cbn in Hc. destruct order as [|x [|y [|z order]]];
    try discriminate Hc. injection Hc as <- <-. reflexivity.
Defined.

(** ** Options *)

(** What [newSyncCopyMove] lets through.  --no-traverse survives only when
    nothing is deleted; rename tracking survives only with a destination that
    can move files, with what its strategy needs (a common hash, modification
    times), and always with deletions after the transfers and a full listing
    of the destination; --no-check-dest is refused with deletions and with
    --immutable; a sync or a move of overlapping remotes is refused unless
    allowed; and the delete mode changes only for rename tracking. *)
Theorem newSyncCopyMove_sound glob overlapping commonHash window logger bErr cErr dErr
    c fdst fsrc mode doMove delEmpty copyEmpty allowOverlap o p :
  newSyncCopyMove glob overlapping commonHash window logger bErr cErr dErr
    c fdst fsrc mode doMove delEmpty copyEmpty allowOverlap = inr (o, p) ->
  (noTraverse o = true -> deleteMode o = DeleteModeOff) /\
  (trackRenames o = true ->
     deleteMode o = DeleteModeAfter /\ noTraverse o = false /\ ServerSideMove fdst = true /\
     (Rename.hash (trackRenamesStrategy o) = true -> commonHash = true) /\
     (Rename.modTime (trackRenamesStrategy o) = true -> modifyWindow o <> ModTimeNotSupported)) /\
  (noCheckDest o = true -> deleteMode o = DeleteModeOff /\ Immutable (ci o) = false) /\
  (deleteMode o <> DeleteModeOff \/ DoMove o = true -> overlapping = false \/ allowOverlap = true) /\
  (deleteMode o <> mode -> trackRenames o = true).
Proof.
  unfold newSyncCopyMove. intros H.
  destruct ((negb (bool_decide (mode = DeleteModeOff)) || doMove) && overlapping &&
            negb allowOverlap) eqn:Eov; [done|].
  destruct (newPipe _ _ _) as [|p']; [done|].
  destruct (Rename.parseTrackRenamesStrategy _) as [strategy [name|]]; [done|].
  destruct (NoCheckDest c && negb (bool_decide (mode = DeleteModeOff))) eqn:E1; [done|].
  destruct (NoCheckDest c && Immutable c) eqn:E2; [done|]. rewrite andb_false_r in H.
  do 2 match type of H with
  | context [match ?x with Some e => inl e | None => _ end] => destruct x; [done|]
  end.
  injection H as <- _. cbn.
  assert (track_renames_ok commonHash window c fdst strategy mode = true ->
    ServerSideMove fdst = true /\ (Rename.hash strategy = true -> commonHash = true) /\
    (Rename.modTime strategy = true -> window <> ModTimeNotSupported) /\
    mode <> DeleteModeOff) as Ht.
  { unfold track_renames_ok. intros Ht. breflect. rewrite bool_decide_eq_false in *.
    split_and!; [done| | |done].
    - intros Hh. rewrite Hh in *. by destruct commonHash.
    - intros Hm -> . by rewrite Hm in *. }
  destruct (track_renames_ok commonHash window c fdst strategy mode).
  - destruct (Ht eq_refl) as (H1 & H2 & H3 & H4). rewrite bool_decide_eq_false_2 in * by done.
    cbn [negb orb andb] in *. rewrite !andb_false_r. rewrite andb_true_r in E1. rewrite E1.
    split_and!; try done. intros _. destruct overlapping, allowOverlap; auto.
  - clear Ht. cbn [andb]. rewrite andb_true_r. split_and!; try done.
    + intros Hn. breflect. by eapply bool_decide_eq_true_1.
    + intros Hn. rewrite Hn in *. cbn in E1, E2. breflect. split; [by eapply bool_decide_eq_true_1|done].
    + intros Hor. destruct overlapping, allowOverlap; auto. rewrite !andb_true_r in Eov. breflect.
      rewrite bool_decide_eq_true in *. destruct Hor; congruence.
Qed.

Definition ex_track : Config :=
  mkConfig true false true "hash,leaf" false false false false false false false "" 10 0 true "" ""
    [] [].
Definition ex_feat : Features := mkFeatures false false true false false false false true.

(** --track-renames with --delete-during and --no-traverse: the deletions are
    put off and the destination is listed. *)
Lemma newSyncCopyMove_sound_witness :
  exists o p,
    newSyncCopyMove (fun _ => None) false true 1 false None None None ex_track ex_feat ex_feat
      DeleteModeDuring false false false false = inr (o, p) /\
    trackRenames o = true /\ deleteMode o = DeleteModeAfter /\ noTraverse o = false.
Proof.
  eexists _, _. split; [reflexivity|]. split; [reflexivity|].
  edestruct (newSyncCopyMove_sound (fun _ => None) false true 1 false None None None ex_track
    ex_feat ex_feat DeleteModeDuring false false false false) as (_ & H & _); [reflexivity|].
  destruct (H eq_refl) as (H1 & H2 & _). split; [exact H1|exact H2].
Defined.

(** The test for --no-check-dest with --backup-dir comes before the backup
    directory is set, so the combination is accepted. *)
Lemma no_check_dest_backup_dir_accepted :
  exists o p,
    newSyncCopyMove (fun _ => None) false true 1 false None None None
      (mkConfig false true false "" false false false false false false false "" 10 0 true
         "backup:" "" [] []) ex_feat ex_feat DeleteModeOff false false false false = inr (o, p) /\
    noCheckDest o = true /\ backupDir o = true.
Proof. eexists _, _. split; [reflexivity|]. split; reflexivity. Qed.

End SyncState.
