(* ===== verification/Sync.v ===== *)
(** * A running sync: fs/sync/sync.go, second part

    The callbacks that the march makes ([SrcOnly], [DstOnly], [Match]), the
    bodies of the background workers (checkers, renamers, transfers,
    deleters), and [run] as a machine: its phases are those of the source, and
    a step is a callback, one turn of a worker, a move to the next phase, or
    the end of a context.  The march and the workers interleave in any order.

    A worker's turn, from the pair it takes to the pair it puts, is one step;
    turns of different workers interleave.  The scheduler's choice in a
    [select] with two ready cases is the function [sel].  A worker may take a
    pair when the context is already done (its test came before), which the
    source allows as well; the token it holds means that the queue is not
    empty ([Pipe.pipe_safe]).  The pipes are those of [Pipe]; their backlog does
    not matter here, and the logger callbacks and messages are left out. *)
From S2P Require Import Prelude GoPath Entries March Pipe Rename SyncState.

Module Sync.
Import GoPath Entries SyncState.
Import Pipe(ObjectPair, mkPair, Src, Dst, pipe, Deheap, put_locked, get_locked, newPipe).

Section sync.
Context {W : Type} {OW : Operations W} {DH : Deheap}.
Variable o : Options.
Variable sel : sync W -> bool.

(** ** Pipes *)

(** [s.toBeUploaded.Put(s.inCtx, pair)] and the like: refused once the
    context is done.  A pair that is refused goes nowhere. *)
Definition put (on : (pipe -> pipe) -> pipes -> pipes) (pair : ObjectPair) : M W unit :=
  stop ← gets (fun s => stopping (s_errs s));
  if (stop : bool) then note_fate (Src pair) Dropped
  else on_pipes (on (fun p => put_locked p pair)).

Definition at_checked (f : pipe -> pipe) (p : pipes) : pipes :=
  mkPipes (f (toBeChecked p)) (toBeUploaded p) (toBeRenamed p).
Definition at_uploaded (f : pipe -> pipe) (p : pipes) : pipes :=
  mkPipes (toBeChecked p) (f (toBeUploaded p)) (toBeRenamed p).
Definition at_renamed (f : pipe -> pipe) (p : pipes) : pipes :=
  mkPipes (toBeChecked p) (toBeUploaded p) (f (toBeRenamed p)).

(** ** The callbacks of the march *)

Definition add_renameCheck (x : Object) (f : files) : files :=
  mkFiles (renameCheck f ++ [x]) (renameMap f) (dstFiles f) (deleteFilesCh f) (deleteErrors f).
Definition add_dstFile (x : Object) (f : files) : files :=
  mkFiles (renameCheck f) (renameMap f) (<[oRemote x := x]> (dstFiles f)) (deleteFilesCh f)
    (deleteErrors f).
Definition send_delete (x : Object) (f : files) : files :=
  mkFiles (renameCheck f) (renameMap f) (dstFiles f) (deleteFilesCh f ++ [x]) (deleteErrors f).
Definition add_dstEmptyDir (e : DirEntry) (d : dirs) : dirs :=
  mkDirs (<[Remote e := e]> (dstEmptyDirs d)) (srcEmptyDirs d) (srcMoveEmptyDirs d)
    (modifiedDirs d) (setDirModTimes d) (setDirModTimesMaxLevel d).

(** [select { case <-s.ctx.Done(): return; case ch <- x: }]: does it return? *)
Definition select_done : M W bool := gets (fun s => aborting (s_errs s) && sel s).

Definition DstOnly (dst : option DirEntry) : M W bool :=
  if bool_decide (deleteMode o = DeleteModeOff) then
    mret (match dst with Some (EDir _) => usingLogger o | _ => false end)
  else
    match dst with
    | Some (EObject x) =>
        note_extra x ;;
        match deleteMode o with
        | DeleteModeAfter => on_files (add_dstFile x)
        | DeleteModeDuring | DeleteModeOnly =>
            done ← select_done;
            if (done : bool) then skip else on_files (send_delete x)
        | _ => note_panic "unexpected delete mode"
        end ;;
        mret false
    | Some (EDir x) =>
        (if dstEmptyDirsOK o then on_dirs (add_dstEmptyDir (EDir x)) else skip) ;;
        mret true
    | None => note_panic "Bad object in DirEntries" ;; mret false
    end.

Definition SrcOnly (src : DirEntry) : M W bool :=
  if bool_decide (deleteMode o = DeleteModeOnly) then mret false
  else
    match src with
    | EObject x =>
        note_taken x ;;
        on_dirs (markParentNotEmpty o src) ;;
        (if trackRenames o then
           done ← select_done;
           if (done : bool) then note_fate x Dropped else on_files (add_renameCheck x)
         else
           '(noNeedTransfer, e) ← on_world (op_CompareOrCopyDest None x);
           process e ;;
           if (noNeedTransfer : bool) then note_fate x Unchanged
           else on_dirs (markDirModifiedObject o x) ;; put at_uploaded (mkPair x None)) ;;
        mret false
    | EDir x =>
        on_dirs (markParentNotEmpty o src) ;;
        copyDirMetadata o None (op_TransformPath (dRemote x) true) x ;;
        on_dirs (markDirModified o (op_TransformPath (dRemote x) true)) ;;
        mret true
    end.

Definition Match (dst src : DirEntry) : M W bool :=
  match src with
  | EObject srcX =>
      on_dirs (markParentNotEmpty o src) ;;
      (if bool_decide (deleteMode o = DeleteModeOnly) then skip
       else
         note_taken srcX ;;
         match dst with
         | EObject dstX => put at_checked (mkPair srcX (Some dstX))
         | EDir _ =>
             process (Some (EText "can't overwrite directory with file")) ;;
             note_fate srcX TypeClash
         end) ;;
      mret false
  | EDir x =>
      let srcX := mkDirectory (op_TransformPath (dRemote x) true) (dModTime x) in
      (if negb op_Transforming || negb (str_eqb (dRemote srcX) (Remote dst))
       then on_dirs (markParentNotEmpty o (EDir srcX)) else skip) ;;
      match dst with
      | EDir dstX =>
          copyDirMetadata o (Some dstX) "" srcX ;;
          (if FixCase (ci o) && negb (Immutable (ci o)) &&
              negb (str_eqb (dRemote srcX) (dRemote dstX))
           then e ← on_world (op_DirMoveCaseInsensitive (dRemote dstX) (dRemote srcX)); process e
           else skip) ;;
          mret true
      | EObject _ =>
          (* the logger call asserts that a directory is an ObjectInfo *)
          process (Some (EText "can't overwrite file with directory")) ;;
          note_panic "interface conversion: directory is not fs.ObjectInfo" ;;
          mret false
      end
  end.

(** The interface [march.Marcher]. *)
Definition marcher : March.Marcher (sync W) :=
  March.mkMarcher (sync W)
    (fun e s => let '(r, s') := SrcOnly e s in (s', r))
    (fun e s => let '(r, s') := DstOnly e s in (s', r))
    (fun d e s => let '(r, s') := Match d e s in (s', r)).

(** ** The workers *)

(** The first part of [pairChecker]: does the object need a transfer? *)
Definition need_transfer (dst : option Object) (src : Object) : M W bool :=
  needTransfer ← on_world (op_NeedTransfer dst src);
  if (needTransfer : bool) then
    '(noNeedTransfer, e) ← on_world (op_CompareOrCopyDest dst src);
    process e ;; mret (negb noNeedTransfer)
  else mret false.

(** --fix-case: rename the destination; its object afterwards. *)
Definition fix_case (needTransfer : bool) (src : Object) (dst : option Object)
  : M W (option Object) :=
  match dst with
  | Some d =>
      if FixCase (ci o) && negb (Immutable (ci o)) && negb (str_eqb (oRemote src) (oRemote d)) then
        gone ← (if needTransfer then on_world (op_NotFound (oRemote d)) else mret false);
        if (gone : bool) then mret None
        else
          r ← do_call (CFixCase src d) (op_Move None (oRemote src) d);
          match r with
          | inl e => process (Some e) ;; mret (Some d)
          | inr newDst => mret newDst
          end
      else mret (Some d)
  | None => mret None
  end.

(** The part of [pairChecker] for an object that needs transferring. *)
Definition send_transfer (src : Object) (dst : option Object) : M W unit :=
  match dst with
  | Some d =>
      if Immutable (ci o) then
        e ← on_world (op_CountError (ENoRetry ErrorImmutableModified));
        process (Some e) ;; note_fate src ImmutableModified
      else
        on_dirs (markDirModifiedObject o d) ;;
        if backupDir o then
          e ← do_call (CBackup d) (op_MoveBackupDir d);
          match e with
          | Some _ => process e ;; note_fate src BackupFailed
          | None => put at_uploaded (mkPair src None)
          end
        else put at_uploaded (mkPair src (Some d))
  | None => on_dirs (markDirModifiedObject o src) ;; put at_uploaded (mkPair src None)
  end.

(** The part of [pairChecker] for an object that need not be transferred. *)
Definition keep_or_delete (src : Object) (dst : option Object) : M W unit :=
  if negb (DoMove o) then note_fate src Unchanged
  else
    match dst with
    | None => note_panic "nil pointer dereference in SameObject" ;; note_fate src Unchanged
    | Some _ =>
        if op_SameObject src dst then note_fate src Unchanged
        else if IgnoreExisting (ci o) then note_fate src Unchanged
        else if checkFirst o && negb (str_eqb (OrderBy (ci o)) "") then
          put at_uploaded (mkPair src (Some src))
        else
          e ← do_call (CDeleteSrc src) (op_DeleteFile src);
          process e ;;
          note_fate src (if bool_decide (e = None) then SourceDeleted else TransferFailed)
    end.

(** [pairChecker], from the pair it got to the end of the round. *)
Definition pairChecker (pair : ObjectPair) : M W unit :=
  let src := Src pair in
  if negb (oStorable src) then note_fate src NotStorable
  else
    needTransfer ← need_transfer (Dst pair) src;
    dst ← fix_case needTransfer src (Dst pair);
    if (needTransfer : bool) then send_transfer src dst else keep_or_delete src dst.

Definition set_renameMap (m : gmap string (list Object)) (f : files) : files :=
  mkFiles (renameCheck f) m (dstFiles f) (deleteFilesCh f) (deleteErrors f).
Definition del_dstFile (remote : string) (f : files) : files :=
  mkFiles (renameCheck f) (renameMap f) (delete remote (dstFiles f)) (deleteFilesCh f)
    (deleteErrors f).

(** [popRenameMap] on the state. *)
Definition pop_rename (h : string) (src : Object) : M W (option Object) :=
  m ← gets (fun s => renameMap (s_files s));
  let '(dst, m') := Rename.popRenameMap (trackRenamesStrategy o) (modifyWindow o) h src m in
  on_files (set_renameMap m') ;; mret dst.

Definition tryRename (src : Object) : M W bool :=
  let h := Rename.renameID src (trackRenamesStrategy o) in
  if str_eqb h "" then mret false
  else
    dst ← pop_rename h src;
    match dst with
    | None => mret false
    | Some dst =>
        dstOverwritten ← on_world (op_NewObject (oRemote src));
        r ← on_world (op_Move dstOverwritten (oRemote src) dst);
        match r with
        | inl _ => mret false
        | inr _ =>
            on_files (del_dstFile (oRemote dst)) ;;
            note_call (CRename src dst) ;;
            mret true
        end
    end.

Definition pairRenamer (pair : ObjectPair) : M W unit :=
  renamed ← tryRename (Src pair);
  if (renamed : bool) then note_fate (Src pair) Renamed else put at_uploaded pair.

(** [pairCopyOrMove]; [src == dst] asks to delete the source. *)
Definition pairCopyOrMove (pair : ObjectPair) : M W unit :=
  let src := Src pair in
  let dst := Dst pair in
  '(e, ok) ←
    (if DoMove o then
       if bool_decide (Some src <> dst) then
         e ← do_call (CMoveTransfer src dst) (op_MoveTransfer dst (oRemote src) src);
         mret (e, Transferred)
       else
         e ← do_call (CDeleteSrc src) (op_DeleteFile src); mret (e, SourceDeleted)
     else
       e ← do_call (CCopy src dst) (op_Copy dst (oRemote src) src); mret (e, Transferred));
  process e ;;
  note_fate src (if bool_decide (e = None) then ok else TransferFailed).

Definition take_delete (rest : list Object) (f : files) : files :=
  mkFiles (renameCheck f) (renameMap f) (dstFiles f) rest (deleteErrors f).
Definition add_deleteError (e : option error) (f : files) : files :=
  mkFiles (renameCheck f) (renameMap f) (dstFiles f) (deleteFilesCh f)
    (deleteErrors f ++ option_list e).

(** One object of [DeleteFilesWithBackupDir]. *)
Definition delete_one (x : Object) : M W (option error) :=
  do_call (CDeleteDst x) (op_DeleteFileWithBackupDir x).

(** The result of [DeleteFilesWithBackupDir]. *)
Definition delete_result (errors : list error) : option error :=
  match errors with
  | [] => None
  | _ => let e := EText "failed to delete files" in
         Some (if existsb IsFatalError errors then EFatal e else e)
  end.

(** ** [run] *)

(** The phases of [run]: the march; sending the candidates for a rename;
    [stopCheckers]; [stopRenamers]; [stopTransfers]; [stopDeleters]; the
    deletions of --delete-after; the end.  From [PAfter] on the phase keeps
    whether the pipeline was cut short: whether its context was done when the
    transfers ended. *)
Inductive phase :=
| PMarch
| PPutRenames (todo : list Object)
| PChecks
| PRenames
| PTransfers
| PDeleters
| PAfter (cut : bool) (todo : list Object) (errors : list error)
| PDirs (cut : bool)
| PDone (cut : bool) (result : option error).

Definition run_event (ev : March.event) : M W bool :=
  match ev with
  | March.ESrcOnly src => SrcOnly src
  | March.EDstOnly dst => DstOnly dst
  | March.EMatch dst src => Match dst src
  end.

(** After the march: its error, and the rename map. *)
Definition march_done (e : option error) (order : list Object) : M W unit :=
  process e ;;
  if trackRenames o then
    on_files (fun f => set_renameMap
      (Rename.makeRenameMap (trackRenamesStrategy o) (renameCheck f) order) f)
  else skip.

Definition deletes_during : bool :=
  bool_decide (deleteMode o = DeleteModeDuring \/ deleteMode o = DeleteModeOnly).

(** The start of the deletions of --delete-after, [deleteFiles(false)]: what
    to delete, nothing when there were errors. *)
Definition begin_after (order : list Object) : M W (list Object) :=
  if bool_decide (deleteMode o = DeleteModeAfter) then
    e ← gets (fun s => currentError (s_errs s));
    if bool_decide (e <> None) && negb (IgnoreErrors (ci o)) then mret []
    else
      errored ← gets (fun s => op_Errored (world s));
      if errored && negb (IgnoreErrors (ci o)) then
        process (Some ErrorNotDeleting) ;; mret []
      else mret order
  else mret [].

(** From the delayed times of directories to the result; [late] tells whether
    the deadline has passed. *)
Definition finish (late : bool) : M W (option error) :=
  (if setDirModTime o && setDirModTimeAfter o then
     e ← setDelayedDirModTimes o; process e else skip) ;;
  (if bool_decide (deleteMode o <> DeleteModeOff) then
     e ← gets (fun s => currentError (s_errs s));
     if bool_decide (e <> None) && negb (IgnoreErrors (ci o)) then skip
     else
       m ← gets (fun s => dstEmptyDirs (s_dirs s));
       e ← deleteEmptyDirectories o FDst m; process e
   else skip) ;;
  (if DoMove o && deleteEmptySrcDirs o then
     m ← gets (fun s => srcMoveEmptyDirs (s_dirs s));
     e ← deleteEmptyDirectories o FSrc m; process e
   else skip) ;;
  e ← gets (fun s => ctxErr (s_errs s)); process e ;;
  e ← gets (fun s => inCtxErr (s_errs s)); process e ;;
  (if hasDeadline o && late then process (Some ErrorMaxDurationReachedFatal) else skip) ;;
  on_errs inCancel ;; on_errs cancel ;;
  gets (fun s => currentError (s_errs s)).

(** The phases in which each kind of worker runs. *)
Definition checking (ph : phase) : bool :=
  match ph with PMarch | PPutRenames _ | PChecks => true | _ => false end.
Definition renaming (ph : phase) : bool :=
  trackRenames o &&
  match ph with PMarch | PPutRenames _ | PChecks | PRenames => true | _ => false end.
Definition transferring (ph : phase) : bool :=
  match ph with
  | PMarch | PPutRenames _ | PChecks => negb (checkFirst o)
  | PRenames | PTransfers => true
  | _ => false
  end.
Definition deleting (ph : phase) : bool :=
  deletes_during &&
  match ph with PAfter _ _ _ | PDirs _ | PDone _ _ => false | _ => true end.

(** A pipe is finished when it is empty, or when its context is done. *)
Definition drained (p : pipe) (s : sync W) : Prop :=
  Pipe.queue p = [] \/ stopping (s_errs s) = true.

Inductive step : phase * sync W -> phase * sync W -> Prop :=
| step_callback ev s :
    step (PMarch, s) (PMarch, (run_event ev s).2)
| step_march_done e order s :
    order ⊆+ (map_to_list (dstFiles (s_files s))).*2 ->
    (aborting (s_errs s) = false -> order ≡ₚ (map_to_list (dstFiles (s_files s))).*2) ->
    step (PMarch, s)
      (if trackRenames o then PPutRenames (renameCheck (s_files s)) else PChecks,
       (march_done e order s).2)
| step_put_rename x todo s :
    step (PPutRenames (x :: todo), s) (PPutRenames todo, (put at_renamed (mkPair x None) s).2)
| step_put_renames_done s :
    step (PPutRenames [], s) (PChecks, s)
| step_checker ph frac pair p s :
    checking ph = true ->
    Pipe.queue (toBeChecked (s_pipes s)) <> [] ->
    get_locked (toBeChecked (s_pipes s)) frac = Some (pair, p) ->
    step (ph, s) (ph, ((on_pipes (at_checked (fun _ => p)) ;; pairChecker pair) s).2)
| step_renamer ph frac pair p s :
    renaming ph = true ->
    Pipe.queue (toBeRenamed (s_pipes s)) <> [] ->
    get_locked (toBeRenamed (s_pipes s)) frac = Some (pair, p) ->
    step (ph, s) (ph, ((on_pipes (at_renamed (fun _ => p)) ;; pairRenamer pair) s).2)
| step_transfer ph frac pair p s :
    transferring ph = true ->
    Pipe.queue (toBeUploaded (s_pipes s)) <> [] ->
    get_locked (toBeUploaded (s_pipes s)) frac = Some (pair, p) ->
    step (ph, s) (ph, ((on_pipes (at_uploaded (fun _ => p)) ;; pairCopyOrMove pair) s).2)
| step_deleter ph l1 x l2 s :
    deleting ph = true ->
    deleteFilesCh (s_files s) = l1 ++ x :: l2 ->
    step (ph, s)
      (ph, ((on_files (take_delete (l1 ++ l2)) ;;
             e ← delete_one x; on_files (add_deleteError e)) s).2)
| step_checks_done s :
    drained (toBeChecked (s_pipes s)) s -> step (PChecks, s) (PRenames, s)
| step_renames_done s :
    trackRenames o = false \/ drained (toBeRenamed (s_pipes s)) s ->
    step (PRenames, s) (PTransfers, s)
| step_transfers_done s :
    drained (toBeUploaded (s_pipes s)) s -> step (PTransfers, s) (PDeleters, s)
| step_deleters_done order s todo s1 s2 :
    order ≡ₚ (map_to_list (dstFiles (s_files s))).*2 ->
    deleteFilesCh (s_files s) = [] \/
      existsb IsFatalError (deleteErrors (s_files s)) = true ->
    s1 = (process (delete_result (deleteErrors (s_files s))) s).2 ->
    begin_after order s1 = (todo, s2) ->
    step (PDeleters, s) (PAfter (stopping (s_errs s)) todo [], s2)
| step_after_delete cut x todo errors s e s' :
    aborting (s_errs s) = false ->
    delete_one x s = (e, s') ->
    step (PAfter cut (x :: todo) errors, s) (PAfter cut todo (errors ++ option_list e), s')
| step_after_done cut todo errors s :
    todo = [] \/ aborting (s_errs s) = true \/ existsb IsFatalError errors = true ->
    step (PAfter cut todo errors, s) (PDirs cut, (process (delete_result errors) s).2)
| step_finish cut late s r s' :
    finish late s = (r, s') -> step (PDirs cut, s) (PDone cut r, s')
| step_ctx ph cause s :
    cause = Canceled \/ cause = DeadlineExceeded ->
    step (ph, s) (ph, (on_errs (end_ctx cause) s).2)
| step_soft_deadline ph s :
    hasDeadline o = true -> CutoffModeHard (ci o) = false ->
    step (ph, s) (ph, (on_errs (end_inCtx DeadlineExceeded) s).2).

(** The state in which [run] starts; [p] is the empty pipe of
    [newSyncCopyMove]. *)
Definition start (w : W) (p : pipe) : sync W :=
  mkSync w (mkErrs None None None None None) (mkPipes p p p) (mkFiles [] ∅ ∅ [] [])
    (mkDirs ∅ ∅ ∅ ∅ [] 0) (mkHistory [] [] [] [] []).

Definition reachable (w : W) (p : pipe) (c : phase * sync W) : Prop :=
  rtc step (PMarch, start w p) c.
End sync.

(** ** Reasoning about the monad *)
Section hoare.
Context {W : Type} {OW : Operations W} {DH : Deheap}.
Variable o : Options.
Implicit Types P : sync W -> Prop.

Definition triple {A} (P : sync W -> Prop) (m : M W A) (Q : A -> sync W -> Prop) : Prop :=
  forall s, P s -> Q (m s).1 (m s).2.

Lemma triple_bind {A B} P (m : M W A) R (k : A -> M W B) Q :
  triple P m R -> (forall a, triple (R a) (k a) Q) -> triple P (m ≫= k) Q.
Proof.
  intros Hm Hk s Hs. specialize (Hm s Hs). unfold mbind, M_bind.
  destruct (m s) as [a s']. exact (Hk a s' Hm).
Qed.

Lemma triple_ret {A} P (x : A) : triple P (mret x) (fun a s => a = x /\ P s).
Proof. by intros s Hs. Qed.

Lemma triple_gets {A} P (f : sync W -> A) : triple P (gets f) (fun a s => a = f s /\ P s).
Proof. by intros s Hs. Qed.

Lemma triple_conseq {A} P P' (m : M W A) Q Q' :
  triple P' m Q' -> (forall s, P s -> P' s) -> (forall a s, Q' a s -> Q a s) -> triple P m Q.
Proof. intros H H1 H2 s Hs. by apply H2, H, H1. Qed.

(** A predicate kept by a computation. *)
Definition keeps {A} (P : sync W -> Prop) (m : M W A) : Prop := triple P m (fun _ => P).

Lemma keeps_ret {A} P (x : A) : keeps P (mret x).
Proof. by intros s Hs. Qed.
Lemma keeps_skip P : keeps P skip.
Proof. by intros s Hs. Qed.
Lemma keeps_gets {A} P (f : sync W -> A) : keeps P (gets f).
Proof. by intros s Hs. Qed.
Lemma keeps_bind {A B} P (m : M W A) (k : A -> M W B) :
  keeps P m -> (forall a, keeps P (k a)) -> keeps P (m ≫= k).
Proof. intros Hm Hk. eapply triple_bind; [exact Hm|exact Hk]. Qed.

(** Predicates that depend neither on the world nor on the directories, and
    are not upset by an error. *)
Class Framed (P : sync W -> Prop) : Prop :=
  framed w x p f d h w' d' e :
    P (mkSync w x p f d h) -> P (mkSync w' (processError e x) p f d' h).

Lemma processError_None x : processError None x = x.
Proof. done. Qed.

Lemma framed_world P `{!Framed P} w x p f d h w' d' :
  P (mkSync w x p f d h) -> P (mkSync w' x p f d' h).
Proof. intros H. rewrite <- (processError_None x). by eapply framed. Qed.

Lemma keeps_world {A} P `{!Framed P} (f : W -> W * A) : keeps P (on_world f).
Proof.
  intros [w x p fl d h] Hs. unfold on_world. cbn. destruct (f w). cbn. by eapply framed_world.
Qed.
Lemma keeps_dirs P `{!Framed P} f : keeps P (on_dirs f).
Proof. intros [w x p fl d h] Hs. cbn. by eapply framed_world. Qed.
Lemma keeps_process P `{!Framed P} e : keeps P (process e).
Proof. intros [w x p fl d h] Hs. cbn. by eapply framed. Qed.
End hoare.

Create HintDb sync.
#[export] Hint Resolve keeps_ret keeps_skip keeps_gets keeps_world keeps_dirs keeps_process : sync.

(** Splits a computation into its parts and closes those that are known. *)
Ltac keep1 :=
  first
    [ solve [auto with sync typeclass_instances]
    | match goal with
      | |- keeps _ (_ ≫= _) => apply keeps_bind; [|intros ?]
      | |- keeps _ (do_call _ _) => unfold do_call
      | |- keeps _ (match ?x with _ => _ end) => destruct x
      | |- keeps _ ((match ?x with _ => _ end) _) => destruct x
      end ].
Ltac keep := repeat keep1.

Ltac as_keeps := match goal with |- triple ?P ?m _ => change (keeps P m) end.

Section framed_ops.
Context {W : Type} {OW : Operations W} {DH : Deheap}.
Variable o : Options.
Variable P : sync W -> Prop.
Context `{!Framed P}.

Lemma keeps_make_dir dst dir src : keeps P (make_dir o dst dir src).
Proof. unfold make_dir. keep. Qed.

Lemma keeps_copyDirMetadata dst dir src : keeps P (copyDirMetadata o dst dir src).
Proof. pose proof keeps_make_dir. unfold copyDirMetadata. keep. Qed.

Lemma keeps_delayed_item item errors : keeps P (delayed_item o item errors).
Proof. unfold delayed_item. keep. Qed.

Lemma keeps_delayed_level level items errors : keeps P (delayed_level o level items errors).
Proof.
  pose proof keeps_delayed_item. revert errors. induction items as [|i items IH]; intros errors;
    cbn [delayed_level]; keep.
Qed.

Lemma keeps_setDelayed : keeps P (setDelayedDirModTimes o).
Proof.
  assert (forall n errors, keeps P (delayed_levels o n errors)).
  { pose proof keeps_delayed_level. induction n as [|n IH]; intros errors;
      cbn [delayed_levels]; keep. }
  unfold setDelayedDirModTimes. keep.
Qed.
End framed_ops.
#[export] Hint Resolve keeps_make_dir keeps_copyDirMetadata keeps_setDelayed : sync.

(** ** Errors *)

(** The error is not forgotten: a sync that has recorded one, or whose
    pipeline was stopped, stays so. *)
Definition recorded (x : errs) : Prop := currentError x <> None \/ stopping x = true.

Definition nested (x : errs) : Prop := aborting x = true -> stopping x = true.

Lemma currentError_record e x : currentError (record_error e x) <> None.
Proof.
  unfold record_error, currentError. destruct (IsFatalError e); [done|].
  destruct (IsNoRetryError e); cbn; destruct (fatalErr x); try done; destruct (err x); done.
Qed.

Lemma record_stopping e x : stopping x = true -> stopping (record_error e x) = true.
Proof.
  unfold stopping, record_error. intros Hs%bool_decide_eq_true. apply bool_decide_eq_true.
  destruct (IsFatalError e); [|by destruct (IsNoRetryError e)].
  destruct (aborting x); cbn; [done|]. by destruct (inCtxErr x).
Qed.

Lemma record_nested e x : nested x -> nested (record_error e x).
Proof.
  unfold nested, record_error. intros Hn.
  destruct (IsFatalError e); [|by destruct (IsNoRetryError e)].
  destruct (aborting x) eqn:E; cbn; [unfold aborting, stopping in *; cbn; intros; by apply Hn|].
  intros _. unfold stopping. cbn. by destruct (inCtxErr x).
Qed.

Lemma process_currentError e x : currentError x <> None -> currentError (processError e x) <> None.
Proof.
  intros Hx. destruct e as [e|]; [|done]. unfold processError.
  repeat case_match; try done; apply currentError_record.
Qed.

Lemma inCancel_stopping x : stopping (inCancel x) = true.
Proof. unfold stopping. cbn. by destruct (inCtxErr x). Qed.

Lemma process_stopping e x : stopping x = true -> stopping (processError e x) = true.
Proof.
  intros Hx. destruct e as [e|]; [|done]. unfold processError. rewrite Hx.
  repeat case_match; try done; by apply record_stopping.
Qed.

Lemma process_nested e x : nested x -> nested (processError e x).
Proof.
  intros Hx. destruct e as [e|]; [|done]. unfold processError.
  repeat case_match; try done; apply record_nested; try done.
  intros _. apply inCancel_stopping.
Qed.

Lemma process_recorded e x : recorded x -> recorded (processError e x).
Proof.
  intros [Hx|Hx]; [left; by apply process_currentError|right; by apply process_stopping].
Qed.

(** Every error leaves a trace: it is recorded, or it is a cancellation after
    the pipeline was stopped. *)
Lemma process_records e x : recorded (processError (Some e) x).
Proof.
  unfold processError, recorded.
  destruct (bool_decide (e = DeadlineExceeded)); [left; apply currentError_record|].
  destruct (bool_decide (e = ErrorMaxTransferLimitReachedGraceful));
    [left; apply currentError_record|].
  destruct (bool_decide (e = Canceled) && stopping x) eqn:E; breflect; [by right|].
  left. apply currentError_record.
Qed.

(** ** Accounting for the source objects *)
Section accounting.
Context {W : Type} {OW : Operations W} {DH : Deheap}.
Variable o : Options.
Variable sel : sync W -> bool.

Definition queued (p : pipes) : list Object :=
  Src <$> (Pipe.queue (toBeChecked p) ++ Pipe.queue (toBeUploaded p) ++
           Pipe.queue (toBeRenamed p)).

Definition pipes_ok (p : pipes) : Prop :=
  Pipe.queue_ok (toBeChecked p) /\ Pipe.queue_ok (toBeUploaded p) /\
  Pipe.queue_ok (toBeRenamed p).

(** Every source object taken on is in a pipe, in hand, or has met its fate;
    [rc] are the candidates for a rename. *)
Record acct (rc hold : list Object) (s : sync W) : Prop := {
  a_check : renameCheck (s_files s) = rc;
  a_owed : taken (s_hist s) ≡ₚ queued (s_pipes s) ++ hold ++ (fates (s_hist s)).*1;
  a_fail : Exists (fun x => failed x.2 = true) (fates (s_hist s)) -> recorded (s_errs s);
  a_pipes : pipes_ok (s_pipes s);
  a_ctx : nested (s_errs s);
}.

Definition acct_err rc hold s : Prop := acct rc hold s /\ recorded (s_errs s).

#[export] Instance acct_framed rc hold : Framed (acct rc hold).
Proof.
  intros w x p f d h w' d' e [H1 H2 H3 H4 H5]. split; cbn in *; try done.
  - intros Hf. by apply process_recorded, H3.
  - by apply process_nested.
Qed.

#[export] Instance acct_err_framed rc hold : Framed (acct_err rc hold).
Proof.
  intros w x p f d h w' d' e [Ha Hr]. split; [by eapply framed|]. by apply process_recorded.
Qed.

Lemma acct_process rc hold e : triple (acct rc hold) (process (Some e)) (fun _ => acct_err rc hold).
Proof.
  intros s Hs. split; [by apply (keeps_process (acct rc hold))|]. apply process_records.
Qed.

Lemma acct_taken rc hold x : triple (acct rc hold) (note_taken x) (fun _ => acct rc (x :: hold)).
Proof.
  intros [w er p f d h] [H1 H2 H3 H4 H5]. split; cbn in *; try done.
  rewrite <- Permutation_cons_append, H2. cbn. apply Permutation_middle.
Qed.

Lemma acct_fate rc hold x ft :
  triple (fun s => acct rc (x :: hold) s /\ (failed ft = true -> recorded (s_errs s)))
    (note_fate x ft) (fun _ => acct rc hold).
Proof.
  intros [w er p f d h] [[H1 H2 H3 H4 H5] Hf]. split; cbn in *; try done.
  - rewrite H2, fmap_app. cbn. rewrite (app_assoc hold), (Permutation_app_comm (hold ++ _) [x]).
    done.
  - intros He. apply Exists_app in He as [He|He]; [by apply H3|].
    inversion He as [? ? Hh|? ? Hh]; subst; [by apply Hf|inversion Hh].
Qed.

Lemma acct_good rc hold x ft :
  failed ft = false -> triple (acct rc (x :: hold)) (note_fate x ft) (fun _ => acct rc hold).
Proof.
  intros Hf s Hs. apply (acct_fate rc hold x ft). split; [done|congruence].
Qed.

Lemma acct_bad rc hold x ft :
  triple (acct_err rc (x :: hold)) (note_fate x ft) (fun _ => acct rc hold).
Proof. intros s [Ha Hr]. by apply (acct_fate rc hold x ft). Qed.

(** A place in the pipeline: one of [at_checked], [at_uploaded], [at_renamed]. *)
Inductive place : ((pipe -> pipe) -> pipes -> pipes) -> (pipes -> pipe) -> Prop :=
| place_checked : place at_checked toBeChecked
| place_uploaded : place at_uploaded toBeUploaded
| place_renamed : place at_renamed toBeRenamed.
Hint Constructors place : sync.

Lemma place_queue on proj f p x :
  place on proj -> pipes_ok p ->
  (Pipe.queue_ok (proj p) -> Pipe.queue_ok (f (proj p))) ->
  (Pipe.queue (f (proj p)) ≡ₚ x :: Pipe.queue (proj p) ->
     queued (on f p) ≡ₚ Src x :: queued p) /\
  (Pipe.queue (proj p) ≡ₚ x :: Pipe.queue (f (proj p)) ->
     queued p ≡ₚ Src x :: queued (on f p)) /\
  pipes_ok (on f p).
Proof.
  unfold pipes_ok, queued. intros Hpl (H1 & H2 & H3) Hf.
  assert (forall q1 q2 q3 : list ObjectPair, q1 ++ x :: q2 ++ q3 ≡ₚ x :: q1 ++ q2 ++ q3) as Hm.
  { intros. symmetry. apply Permutation_middle. }
  destruct Hpl; cbn in *; split_and!; auto; intros Hq; rewrite Hq; cbn; rewrite ?Hm; try done.
  - by rewrite (app_assoc _ _ (x :: _)), <- Permutation_middle, <- app_assoc.
  - by rewrite (app_assoc _ _ (x :: _)), <- Permutation_middle, <- app_assoc.
Qed.

Lemma acct_put rc hold on proj pair :
  place on proj ->
  triple (acct rc (Src pair :: hold)) (put on pair) (fun _ => acct rc hold).
Proof.
  intros Hpl. unfold put. eapply triple_bind; [apply triple_gets|]. intros stop.
  intros s [-> Ha]. destruct (stopping (s_errs s)) eqn:Es.
  { apply (acct_bad rc hold (Src pair) Dropped). split; [done|]. by right. }
  destruct s as [w er p f d h], Ha as [H1 H2 H3 H4 H5]. cbn in *.
  destruct (place_queue on proj (fun q => put_locked q pair) p pair Hpl H4) as (Hq & _ & Hok).
  { intros Hq. by apply Pipe.put_queue. }
  split; cbn; try done. rewrite H2, Hq; [cbn; by rewrite <- Permutation_middle|].
  apply Pipe.put_queue. destruct Hpl, H4 as (? & ? & ?); done.
Qed.

Lemma acct_get rc hold on proj frac pair p' s :
  place on proj -> Pipe.queue (proj (s_pipes s)) <> [] ->
  get_locked (proj (s_pipes s)) frac = Some (pair, p') ->
  acct rc hold s ->
  acct rc (Src pair :: hold) (on_pipes (on (fun _ => p')) s).2.
Proof.
  intros Hpl Hne Hg Ha. destruct s as [w er p f d h], Ha as [H1 H2 H3 H4 H5]. cbn in *.
  assert (Pipe.queue_ok (proj p)) as Hok by (destruct Hpl, H4 as (? & ? & ?); done).
  destruct (Pipe.get_queue (proj p) frac Hok Hne) as (x & q & Hx & Hp & Hq & _).
  rewrite Hg in Hx. injection Hx as <- <-.
  destruct (place_queue on proj (fun _ => p') p pair Hpl H4) as (_ & Hr & Hok'); [done|].
  split; cbn; try done. rewrite H2, Hr by done. cbn. by rewrite <- Permutation_middle.
Qed.

(** Entries of the history that are not fates, and files that are not
    candidates for a rename. *)
Lemma acct_hist rc hold f :
  (forall h, taken (f h) = taken h /\ fates (f h) = fates h) -> keeps (acct rc hold) (on_hist f).
Proof.
  intros Hf [w er p fl d h] [H1 H2 H3 H4 H5]. destruct (Hf h) as [E1 E2].
  split; cbn in *; rewrite ?E1, ?E2; done.
Qed.

Lemma acct_files rc hold f :
  (forall x, renameCheck (f x) = renameCheck x) -> keeps (acct rc hold) (on_files f).
Proof. intros Hf [w er p fl d h] [H1 H2 H3 H4 H5]. split; cbn in *; rewrite ?Hf; done. Qed.

Lemma acct_note_call rc hold c : keeps (acct rc hold) (note_call c).
Proof. by apply acct_hist. Qed.
Lemma acct_note_extra rc hold x : keeps (acct rc hold) (note_extra x).
Proof. by apply acct_hist. Qed.
Lemma acct_note_panic rc hold m : keeps (acct rc hold) (note_panic m).
Proof. by apply acct_hist. Qed.
Hint Resolve acct_note_call acct_note_extra acct_note_panic acct_files : sync.
Hint Extern 2 (keeps (acct _ _) (on_files _)) => by apply acct_files : sync.

Lemma keeps_do_call {A} rc hold c (f : W -> W * A) : keeps (acct rc hold) (do_call c f).
Proof. unfold do_call. keep. Qed.
Hint Resolve keeps_do_call : sync.

Lemma bind_keeps {A B} P (m : M W A) (k : A -> M W B) Q :
  keeps P m -> (forall a, triple P (k a) Q) -> triple P (m ≫= k) Q.
Proof. apply triple_bind. Qed.

Lemma triple_skip P (Q : unit -> sync W -> Prop) : (forall s, P s -> Q tt s) -> triple P skip Q.
Proof. intros HPQ s Hs. by apply HPQ. Qed.

Lemma acct_put_uploaded rc hold pair :
  triple (acct rc (Src pair :: hold)) (put at_uploaded pair) (fun _ => acct rc hold).
Proof. eapply acct_put. constructor. Qed.

Lemma acct_result rc hold x e ok :
  failed ok = false ->
  triple (acct rc (x :: hold))
    (process e ;; note_fate x (if bool_decide (e = None) then ok else TransferFailed))
    (fun _ => acct rc hold).
Proof.
  intros Hok. destruct e as [e|].
  - eapply triple_bind; [apply acct_process|]. intros ?. apply acct_bad.
  - rewrite bool_decide_eq_true_2 by done. apply bind_keeps; [keep|]. intros ?. by apply acct_good.
Qed.

Ltac walk :=
  repeat first
    [ apply acct_put_uploaded
    | apply (acct_put_uploaded _ _ (mkPair _ _))
    | apply acct_good; reflexivity
    | apply acct_result; reflexivity
    | match goal with
      | |- triple _ (match ?x with _ => _ end) _ => destruct x
      | |- triple _ (_ ≫= _) _ => apply bind_keeps; [solve [keep]|intros ?]
      end ].

Lemma acct_pairCopyOrMove rc hold pair :
  triple (acct rc (Src pair :: hold)) (pairCopyOrMove o pair) (fun _ => acct rc hold).
Proof.
  unfold pairCopyOrMove.
  apply (triple_bind _ _ (fun r s => failed r.2 = false /\ acct rc (Src pair :: hold) s)).
  - destruct (DoMove o); [case_bool_decide|];
      (eapply triple_bind; [apply keeps_do_call|]; intros e s Hs; done).
  - intros [e ok] s [Hok Hs]. by apply (acct_result rc hold (Src pair) e ok Hok s Hs).
Qed.

Lemma acct_keep_or_delete rc hold src dst :
  triple (acct rc (src :: hold)) (keep_or_delete o src dst) (fun _ => acct rc hold).
Proof. unfold keep_or_delete. walk. Qed.

Lemma acct_failed rc hold x e ft :
  triple (acct rc (x :: hold)) (process (Some e) ;; note_fate x ft) (fun _ => acct rc hold).
Proof. eapply triple_bind; [apply acct_process|]. intros ?. apply acct_bad. Qed.

Lemma acct_send_transfer rc hold src dst :
  triple (acct rc (src :: hold)) (send_transfer o src dst) (fun _ => acct rc hold).
Proof.
  unfold send_transfer. destruct dst as [d|]; [|walk]. destruct (Immutable _).
  - apply bind_keeps; [keep|]. intros e. apply acct_failed.
  - apply bind_keeps; [keep|]. intros ?. destruct (backupDir o); [|walk].
    apply bind_keeps; [keep|]. intros [e|]; [apply acct_failed|walk].
Qed.

Lemma acct_pairChecker rc hold pair :
  triple (acct rc (Src pair :: hold)) (pairChecker o pair) (fun _ => acct rc hold).
Proof.
  unfold pairChecker. destruct (negb _); [walk|].
  apply bind_keeps; [unfold need_transfer; keep|]. intros need.
  apply bind_keeps; [unfold fix_case; keep|]. intros dst.
  destruct need; [apply acct_send_transfer|apply acct_keep_or_delete].
Qed.

Lemma acct_tryRename rc hold src : keeps (acct rc hold) (tryRename o src).
Proof. unfold tryRename, pop_rename. keep. Qed.

Lemma acct_pairRenamer rc hold pair :
  triple (acct rc (Src pair :: hold)) (pairRenamer o pair) (fun _ => acct rc hold).
Proof.
  unfold pairRenamer. apply bind_keeps; [apply acct_tryRename|]. intros renamed. walk.
Qed.

Lemma acct_DstOnly rc hold dst : keeps (acct rc hold) (DstOnly o sel dst).
Proof. unfold DstOnly, select_done. keep. Qed.

Lemma acct_Match rc hold dst src : keeps (acct rc hold) (Match o dst src).
Proof.
  unfold Match. destruct src as [x|x]; [|keep].
  apply keeps_bind; [keep|]. intros ?. apply keeps_bind; [|intros ?; keep].
  destruct (bool_decide _); [keep|]. eapply triple_bind; [apply acct_taken|]. intros ?.
  destruct dst as [d|d]; [|apply acct_failed].
  apply (acct_put rc hold at_checked toBeChecked (mkPair x (Some d))). constructor.
Qed.

Lemma acct_SrcOnly rc src :
  triple (acct rc rc) (SrcOnly o sel src)
    (fun _ s => exists rc', acct rc' rc' s /\ (trackRenames o = false -> rc' = rc)).
Proof.
  unfold SrcOnly.
  assert (forall {A} P (m : M W A), triple P m (fun _ => acct rc rc) ->
    triple P m (fun _ s => exists rc', acct rc' rc' s /\ (trackRenames o = false -> rc' = rc)))
    as Hk.
  { intros A P m Hm s Hs. exists rc. split; [by apply (Hm s Hs)|done]. }
  destruct (bool_decide _); [apply Hk, keeps_ret|].
  destruct src as [x|x]; [|apply Hk; as_keeps; keep].
  eapply triple_bind; [apply acct_taken|]. intros ?. apply bind_keeps; [keep|]. intros ?.
  eapply triple_bind; [|intros ? s Hs; exact Hs].
  destruct (trackRenames o).
  - eapply triple_bind; [apply triple_gets|]. intros done s [-> Hs].
    destruct (aborting (s_errs s) && sel s) eqn:E; breflect.
    + exists rc. split; [|done]. apply (acct_bad rc rc x Dropped). split; [done|].
      right. by apply Hs.
    + destruct s as [w er p f d h], Hs as [H1 H2 H3 H4 H5]. cbn in *. exists (rc ++ [x]).
      split; [|done]. split; cbn; try done; [by rewrite H1|]. by rewrite <- Permutation_cons_append.
  - apply Hk. walk.
Qed.
End accounting.
#[export] Hint Extern 2 (keeps (acct _ _) (on_files _)) => by apply acct_files : sync.
#[export] Hint Resolve acct_note_call acct_note_extra acct_note_panic : sync.

(** ** Finished pipes *)
Section finished.
Context {W : Type} {OW : Operations W} {DH : Deheap}.
Variable o : Options.
Variable sel : sync W -> bool.

(** The pipe is empty or, if [b], its context is done. *)
Definition finished (b : bool) (proj : pipes -> pipe) (s : sync W) : Prop :=
  Pipe.queue (proj (s_pipes s)) = [] \/ (b = true /\ stopping (s_errs s) = true).

#[export] Instance finished_framed b proj : Framed (finished b proj).
Proof.
  intros w x p f d h w' d' e [Hf|[Hb Hs]]; [by left|right]. split; [done|].
  by apply process_stopping.
Qed.

Lemma finished_hist b proj f : keeps (finished b proj) (on_hist f).
Proof. by intros [w er p fl d h] Hs. Qed.
Lemma finished_files b proj f : keeps (finished b proj) (on_files f).
Proof. by intros [w er p fl d h] Hs. Qed.

Lemma finished_put b on proj proj' pair :
  place on proj' -> (forall f p, proj (on f p) = proj p) ->
  keeps (finished b proj) (put on pair).
Proof.
  intros _ Hne. unfold put. apply keeps_bind; [keep|]. intros stop. destruct stop.
  - apply finished_hist.
  - intros [w er p fl d h] [Hs|Hs]; [left|by right]. cbn in *. by rewrite Hne.
Qed.

Lemma finished_put_uploaded_c b pair : keeps (finished b toBeChecked) (put at_uploaded pair).
Proof. by eapply finished_put; [constructor|]. Qed.
Lemma finished_put_uploaded_r b pair : keeps (finished b toBeRenamed) (put at_uploaded pair).
Proof. by eapply finished_put; [constructor|]. Qed.
Lemma finished_put_checked_r b pair : keeps (finished b toBeRenamed) (put at_checked pair).
Proof. by eapply finished_put; [constructor|]. Qed.
Hint Resolve finished_hist finished_files finished_put_uploaded_c finished_put_uploaded_r
  finished_put_checked_r : sync.
Hint Extern 1 (keeps (finished _ _) (_ _)) => apply finished_hist : sync.
Hint Extern 1 (keeps (finished _ _) (_ _ _)) => apply finished_hist : sync.

Lemma finished_copy b proj pair : keeps (finished b proj) (pairCopyOrMove o pair).
Proof. unfold pairCopyOrMove. keep. Qed.

Lemma finished_renamer b pair : keeps (finished b toBeChecked) (pairRenamer o pair).
Proof. unfold pairRenamer, tryRename, pop_rename. keep. Qed.

Lemma finished_checker b pair : keeps (finished b toBeRenamed) (pairChecker o pair).
Proof.
  unfold pairChecker, need_transfer, fix_case, send_transfer, keep_or_delete. keep.
Qed.

Lemma finished_event b ev : keeps (finished b toBeRenamed) (run_event o sel ev).
Proof.
  unfold run_event, SrcOnly, DstOnly, Match, select_done. keep.
Qed.
End finished.

(** ** The machine accounts for every source object *)
Section machine.
Context {W : Type} {OW : Operations W} {DH : Deheap}.
Variable o : Options.
Variable sel : sync W -> bool.

(** Objects held outside the pipes. *)
Definition holds (ph : phase) (rc : list Object) : list Object :=
  match ph with PMarch => rc | PPutRenames todo => todo | _ => [] end.

Definition some_failed (h : history) : Prop := Exists (fun x => failed x.2 = true) (fates h).

Definition late_ok (cut : bool) (s : sync W) : Prop :=
  cut = false -> queued (s_pipes s) = [] /\ (some_failed (s_hist s) -> currentError (s_errs s) <> None).

Definition stage (ph : phase) (s : sync W) : Prop :=
  match ph with
  | PMarch | PChecks => True
  | PPutRenames _ => trackRenames o = true
  | PRenames => finished true toBeChecked s
  | PTransfers => finished true toBeChecked s /\ finished true toBeRenamed s
  | PDeleters =>
      finished true toBeChecked s /\ finished true toBeRenamed s /\ finished true toBeUploaded s
  | PAfter cut _ _ | PDirs cut => late_ok cut s
  | PDone cut r =>
      cut = false -> queued (s_pipes s) = [] /\ (some_failed (s_hist s) -> r <> None)
  end.

Definition ainv (c : phase * sync W) : Prop :=
  (exists rc, acct rc (holds c.1 rc) c.2 /\ (trackRenames o = false -> rc = [])) /\
  (trackRenames o = false -> finished false toBeRenamed c.2) /\
  stage c.1 c.2.

#[export] Instance late_ok_framed cut : Framed (late_ok cut).
Proof.
  intros w x p f d h w' d' e Hl Hc. destruct (Hl Hc) as [Hq Hf]. cbn in *.
  split; [done|]. intros He. by apply process_currentError, Hf.
Qed.

Lemma late_ok_call cut c : keeps (late_ok cut) (note_call c).
Proof. by intros [w er p f d h] Hs. Qed.
Lemma late_ok_files cut f : keeps (late_ok cut) (on_files f).
Proof. by intros [w er p fl d h] Hs. Qed.
Hint Resolve late_ok_call late_ok_files finished_files : sync.

(** Contexts ending. *)
Definition ends (f : errs -> errs) : Prop :=
  (exists cause, f = end_ctx cause) \/ (exists cause, f = end_inCtx cause).

Lemma ends_facts f x : ends f ->
  currentError (f x) = currentError x /\ (stopping x = true -> stopping (f x) = true) /\
  (nested x -> nested (f x)).
Proof.
  unfold nested, stopping, aborting. rewrite !bool_decide_eq_true.
  intros [[c ->]|[c ->]]; cbn; split_and!; try done; destruct (inCtxErr x); done.
Qed.

Lemma acct_ends rc hold f : ends f -> keeps (W := W) (acct rc hold) (on_errs f).
Proof.
  intros He [w x p fl d h] [H1 H2 H3 H4 H5]. destruct (ends_facts f x He) as (E1 & E2 & E3).
  split; cbn in *; auto. intros Hf. destruct (H3 Hf) as [Hr|Hr]; [left; by rewrite E1|right; auto].
Qed.

Lemma finished_ends b proj f : ends f -> keeps (W := W) (finished b proj) (on_errs f).
Proof.
  intros He [w x p fl d h] [Hs|[Hb Hs]]; [by left|right]. split; [done|].
  destruct (ends_facts f x He) as (_ & E & _). by apply E.
Qed.

Lemma late_ends cut f : ends f -> keeps (late_ok cut) (on_errs f).
Proof.
  intros He [w x p fl d h] Hl Hc. destruct (Hl Hc) as [Hq Hf]. split; [done|]. cbn in *.
  destruct (ends_facts f x He) as (-> & _). done.
Qed.

Lemma ends_cancel : ends cancel.
Proof. left. by exists Canceled. Qed.
Lemma ends_inCancel : ends inCancel.
Proof. right. by exists Canceled. Qed.
Hint Resolve acct_ends finished_ends late_ends ends_cancel ends_inCancel : sync.

Lemma stage_ends ph f s : ends f -> stage ph s -> stage ph (on_errs f s).2.
Proof.
  intros He. destruct ph; cbn [stage]; try done; intros Hs; destruct_and?; split_and?;
    try (by apply finished_ends); by apply late_ends.
Qed.

(** A predicate that the end of [run] keeps. *)
Lemma finish_keeps (P : sync W -> Prop) late `{!Framed P} :
  (forall f dir, keeps P (note_call (CRmdir f dir))) ->
  (forall f, ends f -> keeps P (on_errs f)) ->
  keeps P (finish o late).
Proof.
  intros Hc He.
  assert (forall f es, keeps P (rmdir_all f es)) as Hr.
  { intros f es. induction es as [|[x|x] es IH]; cbn [rmdir_all]; keep. }
  assert (forall f m, keeps P (deleteEmptyDirectories o f m)) as Hd.
  { intros f m. unfold deleteEmptyDirectories. keep. }
  unfold finish. keep.
Qed.

Lemma finish_result cut late :
  triple (late_ok cut) (finish o late)
    (fun r s => cut = false -> queued (s_pipes s) = [] /\ (some_failed (s_hist s) -> r <> None)).
Proof.
  intros s Hs. pose proof (finish_keeps (late_ok cut) late) as Hk.
  specialize (Hk (fun f dir => late_ok_call cut _) (late_ends cut) s Hs).
  assert ((finish o late s).1 = currentError (s_errs (finish o late s).2)) as ->; [|exact Hk].
  unfold finish. repeat (unfold mbind, M_bind; match goal with
    |- context [let '(_, _) := ?m in _] => destruct m end). reflexivity.
Qed.

Lemma seq_snd {A B} (m : M W A) (k : M W B) s : ((m ;; k) s).2 = (k (m s).2).2.
Proof. unfold mbind, M_bind. by destruct (m s). Qed.

Lemma finished_get b (on : (pipe -> pipe) -> pipes -> pipes) proj f :
  (forall p, proj (on f p) = proj p) -> keeps (W := W) (finished b proj) (on_pipes (on f)).
Proof. intros Hp [w x p fl d h] [Hs|Hs]; [left|by right]. cbn in *. by rewrite Hp. Qed.

Lemma keeps_seq {A B} (P : sync W -> Prop) (m : M W A) (k : M W B) s :
  keeps P m -> keeps P k -> P s -> P ((m ;; k) s).2.
Proof. intros Hm Hk Hs. rewrite seq_snd. by apply Hk, Hm. Qed.

Lemma keeps_then {A B} (P : sync W -> Prop) (m : M W A) (k : M W B) :
  keeps P m -> keeps P k -> keeps P (m ;; k).
Proof. intros Hm Hk. by apply keeps_bind. Qed.

Lemma ainv_event ev s : ainv (PMarch, s) -> ainv (PMarch, (run_event o sel ev s).2).
Proof.
  intros ((rc & Ha & Hrc) & Hr & _). cbn in *. split_and!; [|intros Ht|done].
  - destruct ev as [e|e|d e]; cbn [run_event].
    + destruct (acct_SrcOnly o sel rc e s Ha) as (rc' & Ha' & E).
      exists rc'. split; [done|]. intros Ht. rewrite E by done. auto.
    + exists rc. split; [by apply acct_DstOnly|done].
    + exists rc. split; [by apply acct_Match|done].
  - by apply finished_event, Hr.
Qed.

Lemma ainv_march_done e order s :
  ainv (PMarch, s) ->
  ainv (if trackRenames o then PPutRenames (renameCheck (s_files s)) else PChecks,
        (march_done o e order s).2).
Proof.
  intros ((rc & Ha & Hrc) & Hr & _). cbn in *.
  assert (keeps (W := W) (acct rc rc) (march_done o e order)) as Hk by (unfold march_done; keep).
  assert (keeps (W := W) (finished false toBeRenamed) (march_done o e order)) as Hf
    by (unfold march_done; keep).
  specialize (Hk s Ha). pose proof (a_check _ _ _ Ha) as Hc.
  unfold ainv. destruct (trackRenames o) eqn:Et; cbn [holds fst snd stage].
  - split_and!; [exists rc; by rewrite Hc|done|done].
  - specialize (Hrc eq_refl). subst rc. split_and!; [by exists []|by intros; apply Hf, Hr|done].
Qed.

Lemma ainv_checker ph frac pair p s :
  ainv (ph, s) -> checking ph = true -> Pipe.queue (toBeChecked (s_pipes s)) <> [] ->
  get_locked (toBeChecked (s_pipes s)) frac = Some (pair, p) ->
  ainv (ph, ((on_pipes (at_checked (fun _ => p)) ;; pairChecker o pair) s).2).
Proof.
  intros ((rc & Ha & Hrc) & Hr & Hst) Hph Hne Hg. split_and!.
  - exists rc. split; [|done]. cbn [fst snd] in *. rewrite seq_snd. apply acct_pairChecker.
    by eapply (acct_get _ _ at_checked toBeChecked); [constructor|..].
  - intros Ht. apply keeps_seq; [by apply finished_get|apply finished_checker|by apply Hr].
  - by destruct ph.
Qed.

Lemma ainv_renamer ph frac pair p s :
  ainv (ph, s) -> renaming o ph = true -> Pipe.queue (toBeRenamed (s_pipes s)) <> [] ->
  get_locked (toBeRenamed (s_pipes s)) frac = Some (pair, p) ->
  ainv (ph, ((on_pipes (at_renamed (fun _ => p)) ;; pairRenamer o pair) s).2).
Proof.
  intros ((rc & Ha & Hrc) & Hr & Hst) Hph Hne Hg. unfold renaming in Hph. breflect. split_and!.
  - exists rc. split; [|done]. cbn [fst snd] in *. rewrite seq_snd. apply acct_pairRenamer.
    by eapply (acct_get _ _ at_renamed toBeRenamed); [constructor|..].
  - congruence.
  - destruct ph; try done. cbn [fst snd stage] in *.
    by apply keeps_seq; [apply finished_get|apply finished_renamer|].
Qed.

Lemma ainv_transfer ph frac pair p s :
  ainv (ph, s) -> transferring o ph = true -> Pipe.queue (toBeUploaded (s_pipes s)) <> [] ->
  get_locked (toBeUploaded (s_pipes s)) frac = Some (pair, p) ->
  ainv (ph, ((on_pipes (at_uploaded (fun _ => p)) ;; pairCopyOrMove o pair) s).2).
Proof.
  intros ((rc & Ha & Hrc) & Hr & Hst) Hph Hne Hg.
  assert (forall b proj, (forall f q, proj (at_uploaded f q) = proj q) -> finished b proj s ->
    finished b proj ((on_pipes (at_uploaded (fun _ => p)) ;; pairCopyOrMove o pair) s).2) as Hf.
  { intros b proj Hp Hs. by apply keeps_seq; [apply finished_get|apply finished_copy|]. }
  split_and!.
  - exists rc. split; [|done]. cbn [fst snd] in *. rewrite seq_snd. apply acct_pairCopyOrMove.
    by eapply (acct_get _ _ at_uploaded toBeUploaded); [constructor|..].
  - intros Ht. by apply Hf, Hr.
  - destruct ph; try done; cbn [fst snd stage] in *; [by apply Hf|].
    destruct Hst. split; by apply Hf.
Qed.

(** Steps that touch neither the pipes nor the fates. *)
Lemma ainv_quiet {A} ph (m : M W A) s :
  (forall rc hold, keeps (acct rc hold) m) -> (forall b proj, keeps (finished b proj) m) ->
  (forall cut, keeps (late_ok cut) m) -> match ph with PDone _ _ => False | _ => True end ->
  ainv (ph, s) -> ainv (ph, (m s).2).
Proof.
  intros H1 H2 H3 Hph ((rc & Ha & Hrc) & Hr & Hst). split_and!.
  - exists rc. split; [|done]. by apply H1.
  - intros Ht. by apply H2, Hr.
  - destruct ph; cbn [fst snd stage] in *; try done; destruct_and?; split_and?;
      try (by apply H2); by apply H3.
Qed.

Lemma ainv_delete_one ph x s :
  match ph with PDone _ _ => False | _ => True end -> ainv (ph, s) -> ainv (ph, (delete_one x s).2).
Proof.
  intros Hph. apply ainv_quiet; [..|done]; intros; unfold delete_one; keep.
  by intros [w er p f d h] Hs.
Qed.

Lemma ainv_process ph e s :
  match ph with PDone _ _ => False | _ => True end -> ainv (ph, s) -> ainv (ph, (process e s).2).
Proof. intros Hph. apply ainv_quiet; [..|done]; intros; keep. Qed.

Lemma ainv_files ph f s :
  (forall x, renameCheck (f x) = renameCheck x) ->
  match ph with PDone _ _ => False | _ => True end -> ainv (ph, s) -> ainv (ph, (on_files f s).2).
Proof. intros Hf Hph. apply ainv_quiet; [..|done]; intros; keep. Qed.

(** When the transfers have ended and were not cut short nothing is left. *)
Lemma ainv_late s : ainv (PDeleters, s) -> late_ok (stopping (s_errs s)) s.
Proof.
  intros ((rc & Ha & _) & _ & H1 & H2 & H3) Hc. unfold finished in *. cbn [fst snd] in *.
  destruct H1 as [H1|[_ H1]]; [|congruence]. destruct H2 as [H2|[_ H2]]; [|congruence].
  destruct H3 as [H3|[_ H3]]; [|congruence]. unfold queued. rewrite H1, H2, H3. split; [done|].
  intros Hf. destruct (a_fail _ _ _ Ha Hf) as [|Hs]; [done|congruence].
Qed.

Lemma ainv_move ph ph' s :
  holds ph = (fun _ => []) -> holds ph' = (fun _ => []) -> ainv (ph, s) -> stage ph' s ->
  ainv (ph', s).
Proof.
  intros H1 H2 ((rc & Ha & Hrc) & Hr & _) Hst. split_and!; [|done..].
  exists rc. cbn [fst snd] in *. by rewrite H1 in Ha; rewrite H2.
Qed.

Lemma begin_after_keeps order (P : sync W -> Prop) : Framed P -> keeps P (begin_after o order).
Proof. intros HP. unfold begin_after. keep. Qed.

Lemma ainv_after order s todo s2 :
  ainv (PDeleters, s) ->
  begin_after o order (process (delete_result (deleteErrors (s_files s))) s).2 = (todo, s2) ->
  ainv (PAfter (stopping (s_errs s)) todo [], s2).
Proof.
  intros Hi Hb. pose proof (ainv_late s Hi) as Hl. destruct Hi as ((rc & Ha & Hrc) & Hr & _).
  assert (forall P : sync W -> Prop, Framed P -> P s -> P s2) as Hk.
  { intros P HP Hs. apply (keeps_process P (delete_result (deleteErrors (s_files s)))) in Hs.
    apply (begin_after_keeps order P HP) in Hs. by rewrite Hb in Hs. }
  split_and!; cbn [fst snd holds stage] in *.
  - exists rc. split; [|done]. by apply (Hk (acct rc []) _).
  - intros Ht. by apply (Hk (finished false toBeRenamed) _), Hr.
  - by apply (Hk (late_ok (stopping (s_errs s))) _).
Qed.

Lemma ainv_finish cut late s r s' :
  ainv (PDirs cut, s) -> finish o late s = (r, s') -> ainv (PDone cut r, s').
Proof.
  intros ((rc & Ha & Hrc) & Hr & Hl) Hf. cbn [fst snd holds stage] in *.
  assert (forall P : sync W -> Prop, Framed P ->
            (forall f dir, keeps P (note_call (CRmdir f dir))) ->
            (forall f, ends f -> keeps P (on_errs f)) -> P s -> P s') as Hk.
  { intros P HP H1 H2 Hs. apply (finish_keeps P late H1 H2) in Hs. by rewrite Hf in Hs. }
  split_and!; cbn [fst snd holds stage].
  - exists rc. split; [|done]. apply (Hk (acct rc []) _); auto with sync.
  - intros Ht. apply (Hk (finished false toBeRenamed) _); auto with sync.
    intros f dir. apply finished_hist.
  - pose proof (finish_result cut late s Hl) as H. by rewrite Hf in H.
Qed.

Lemma ainv_step c c' : ainv c -> step o sel c c' -> ainv c'.
Proof.
  intros Hi Hs. destruct Hs.
  - by apply ainv_event.
  - by apply ainv_march_done.
  - destruct Hi as ((rc & Ha & Hrc) & Hr & Hst). cbn [fst snd stage holds] in *.
    split_and!; cbn [fst snd stage holds]; [|congruence|done]. exists rc. split; [|done].
    apply (acct_put rc todo at_renamed toBeRenamed (mkPair x None)); [constructor|exact Ha].
  - destruct Hi as ((rc & Ha & Hrc) & Hr & _). split_and!; [|done..]. by exists rc.
  - by eapply ainv_checker.
  - by eapply ainv_renamer.
  - by eapply ainv_transfer.
  - assert (match ph with PDone _ _ => False | _ => True end) as Hph.
    { unfold deleting in *. breflect. by destruct ph. }
    revert Hi. apply ainv_quiet; [..|done]; intros; unfold delete_one; keep.
    by intros [w er p f d h] Hs.
  - destruct Hi as (? & ? & _). split; [done|]. split; [done|].
    destruct H; [by left|by right].
  - destruct Hi as (? & Hr & Hst). split; [done|]. split; [done|]. cbn [fst snd stage] in *.
    split; [done|]. destruct H as [Ht|Hd]; [|destruct Hd; [by left|by right]].
    destruct (Hr Ht) as [|[? _]]; [by left|done].
  - destruct Hi as (? & ? & Hst & ?). split; [done|]. split; [done|]. cbn [fst snd stage] in *.
    split_and!; try done. destruct H; [by left|by right].
  - subst s1. by eapply ainv_after.
  - assert (ainv (PAfter cut (x :: todo) errors, s')) as Hi'.
    { replace s' with (delete_one x s).2 by (by rewrite H0). by apply ainv_delete_one. }
    revert Hi'. intros Hi'. apply (ainv_move (PAfter cut (x :: todo) errors)); [done..|apply Hi'].
  - apply (ainv_process _ (delete_result errors)) in Hi; [|done].
    apply (ainv_move (PAfter cut todo errors)); [done..|apply Hi].
  - by eapply ainv_finish.
  - destruct Hi as ((rc & Ha & Hrc) & Hr & Hst).
    assert (ends (end_ctx cause)) as He by (left; by exists cause).
    split_and!; [|intros Ht; by apply finished_ends; auto|by apply stage_ends].
    exists rc. split; [|done]. by apply acct_ends.
  - destruct Hi as ((rc & Ha & Hrc) & Hr & Hst).
    assert (ends (end_inCtx DeadlineExceeded)) as He by (right; by exists DeadlineExceeded).
    split_and!; [|intros Ht; by apply finished_ends; auto|by apply stage_ends].
    exists rc. split; [|done]. by apply acct_ends.
Qed.

Lemma ainv_start glob orderBy maxBacklog w p :
  newPipe glob orderBy maxBacklog = inr p -> ainv (PMarch, start w p).
Proof.
  intros Hp. pose proof (Pipe.pinv_initial _ _ _ _ Hp) as [_ _ Hq _ _]. cbn in Hq.
  assert (Pipe.queue p = []) as Hn.
  { unfold newPipe in Hp. destruct (Pipe.newLess _ _) as [|[l f]]; [done|]. by injection Hp as <-. }
  split_and!; [|by left|done]. exists []. split; [|done].
  split; cbn; unfold queued, pipes_ok; cbn; rewrite ?Hn; try done.
  intros He. inversion He.
Qed.

Lemma ainv_reachable glob orderBy maxBacklog w p c :
  newPipe glob orderBy maxBacklog = inr p -> reachable o sel w p c -> ainv c.
Proof.
  intros Hp Hr. apply (ainv_start _ _ _ w) in Hp. unfold reachable in Hr.
  induction Hr as [|x y z Hs Hr IH]; [done|]. apply IH. by eapply ainv_step.
Qed.
End machine.

(** ** Deletions *)
Section deletions.
Context {W : Type} {OW : Operations W} {DH : Deheap}.
Variable o : Options.
Variable sel : sync W -> bool.

(** What makes a call legitimate: only extra objects of the destination are
    deleted or renamed, and only a move removes anything at the source. *)
Definition call_ok (ex : list Object) (c : call) : Prop :=
  match c with
  | CDeleteDst x | CRename _ x => x ∈ ex
  | CRmdir FDst _ => deleteMode o <> DeleteModeOff
  | CRmdir FSrc _ | CDeleteSrc _ | CMoveTransfer _ _ => DoMove o = true
  | _ => True
  end.

Record files_ok (ex : list Object) (f : files) : Prop := {
  f_dst : map_Forall (fun k x => k = oRemote x /\ x ∈ ex) (dstFiles f);
  f_chan : Forall (fun x => x ∈ ex) (deleteFilesCh f);
  f_map : map_Forall (fun _ l => Forall (fun x => x ∈ ex) l) (renameMap f);
}.

Record legit (s : sync W) : Prop := {
  l_calls : Forall (call_ok (extra (s_hist s))) (calls (s_hist s));
  l_files : files_ok (extra (s_hist s)) (s_files s);
  l_mode : extra (s_hist s) <> [] -> deleteMode o <> DeleteModeOff;
}.

#[export] Instance legit_framed : Framed legit.
Proof. intros w x p f d h w' d' e [H1 H2 H3]. by split. Qed.

Lemma legit_call c :
  triple (fun s => legit s /\ call_ok (extra (s_hist s)) c) (note_call c) (fun _ => legit).
Proof.
  intros [w er p f d h] [[H1 H2 H3] Hc]. split; cbn in *; try done. apply Forall_app. auto.
Qed.

Lemma legit_do_call {A} c (f : W -> W * A) :
  (forall ex, call_ok ex c) -> keeps legit (do_call c f).
Proof.
  intros Hc. unfold do_call. apply keeps_bind; [|intros; keep].
  intros s Hs. apply (legit_call c s). by split.
Qed.

Lemma legit_hist f :
  (forall h, calls (f h) = calls h /\ extra (f h) = extra h) -> keeps legit (on_hist f).
Proof.
  intros Hf [w er p fl d h] [H1 H2 H3]. destruct (Hf h) as [E1 E2].
  split; cbn in *; rewrite ?E1, ?E2; done.
Qed.

Lemma legit_files f :
  (forall ex x, files_ok ex x -> files_ok ex (f x)) -> keeps legit (on_files f).
Proof. intros Hf [w er p fl d h] [H1 H2 H3]. split; cbn in *; auto. Qed.

Lemma legit_pipes f : keeps legit (on_pipes f).
Proof. intros [w er p fl d h] [H1 H2 H3]. by split. Qed.

Lemma legit_fate x ft : keeps legit (note_fate x ft).
Proof. by apply legit_hist. Qed.
Lemma legit_taken x : keeps legit (note_taken x).
Proof. by apply legit_hist. Qed.
Lemma legit_panic m : keeps legit (note_panic m).
Proof. by apply legit_hist. Qed.
Hint Resolve legit_pipes legit_fate legit_taken legit_panic : sync.

Lemma legit_put on pair : keeps legit (put on pair).
Proof. unfold put. keep. Qed.
Hint Resolve legit_put : sync.

Lemma legit_renameCheck x : keeps legit (on_files (add_renameCheck x)).
Proof. apply legit_files. intros ex f [H1 H2 H3]. by split. Qed.
Lemma legit_deleteError e : keeps legit (on_files (add_deleteError e)).
Proof. apply legit_files. intros ex f [H1 H2 H3]. by split. Qed.
Lemma legit_del_dstFile r : keeps legit (on_files (del_dstFile r)).
Proof.
  apply legit_files. intros ex f [H1 H2 H3]. split; cbn; try done. by apply map_Forall_delete.
Qed.
Lemma legit_take l1 x l2 s :
  deleteFilesCh (s_files s) = l1 ++ x :: l2 -> legit s ->
  legit (on_files (take_delete (l1 ++ l2)) s).2 /\
  x ∈ extra (s_hist (on_files (take_delete (l1 ++ l2)) s).2).
Proof.
  intros E [H1 [Ha Hb Hc] H3]. rewrite E, Forall_app, Forall_cons in Hb.
  destruct Hb as (Hb1 & Hb2 & Hb3). split; [|done]. split; cbn; try done.
  split; cbn; try done. by apply Forall_app.
Qed.
Hint Resolve legit_renameCheck legit_deleteError legit_del_dstFile : sync.

Lemma files_ok_extra ex x f : files_ok ex f -> files_ok (ex ++ [x]) f.
Proof.
  assert (forall y, y ∈ ex -> y ∈ ex ++ [x]) as Hin by (intros; apply elem_of_app; by left).
  intros [H1 H2 H3]. split.
  - eapply map_Forall_impl; [exact H1|]. naive_solver.
  - eapply Forall_impl; [exact H2|]. auto.
  - eapply map_Forall_impl; [exact H3|]. intros k l Hl. eapply Forall_impl; [exact Hl|]. auto.
Qed.

Lemma legit_extra x :
  deleteMode o <> DeleteModeOff ->
  triple legit (note_extra x) (fun _ s => legit s /\ x ∈ extra (s_hist s)).
Proof.
  intros Hm [w er p f d h] [H1 H2 H3]. split; [|cbn; set_solver].
  split; cbn in *; [|by apply files_ok_extra|done].
  eapply Forall_impl; [exact H1|]. intros [| | |y| |s' y| |[|]] Hc; cbn in *; set_solver.
Qed.

Lemma legit_send x :
  triple (fun s => legit s /\ x ∈ extra (s_hist s))
    (done ← select_done sel; if (done : bool) then skip else on_files (send_delete x))
    (fun _ => legit).
Proof.
  intros s [Hs Hx]. unfold mbind, M_bind, select_done, gets. destruct (_ && _); [done|].
  destruct Hs as [H1 [Ha Hb Hc] H3]. split; cbn; try done. split; cbn; try done.
  apply Forall_app. split; [done|]. by constructor.
Qed.

Lemma legit_DstOnly dst : keeps legit (DstOnly o sel dst).
Proof.
  unfold DstOnly. case_bool_decide as Hm; [keep|]. destruct dst as [[x|x]|]; [|keep|keep].
  eapply triple_bind; [by apply legit_extra|]. intros ?.
  eapply triple_bind; [|intros ?; apply (keeps_ret legit)].
  destruct (deleteMode o) eqn:Em; try apply legit_send;
    try (intros s [Hs _]; by apply legit_panic).
  intros s [[H1 [Ha Hb Hc] H3] Hx]. split; cbn; try done. split; cbn; try done.
  by apply map_Forall_insert_2.
Qed.

Lemma legit_event ev : keeps legit (run_event o sel ev).
Proof.
  destruct ev as [e|d|d e]; cbn [run_event]; [unfold SrcOnly, select_done; keep| |unfold Match; keep].
  apply legit_DstOnly.
Qed.

Hint Extern 2 (keeps legit (do_call _ _)) => apply legit_do_call; intros ?; cbn; done : sync.

Lemma legit_checker pair : keeps legit (pairChecker o pair).
Proof.
  unfold pairChecker, need_transfer. destruct (negb _); [keep|].
  apply keeps_bind; [keep|]. intros need. apply keeps_bind; [unfold fix_case; keep|]. intros dst.
  destruct need; [unfold send_transfer; keep|]. unfold keep_or_delete.
  destruct (DoMove o) eqn:Em; cbn [negb]; [|keep]. destruct dst; [|keep].
  destruct (op_SameObject _ _); [keep|]. destruct (IgnoreExisting _); [keep|].
  destruct (_ && _); [keep|].
  apply keeps_bind; [apply legit_do_call; intros; exact Em|]. intros e. keep.
Qed.

Lemma legit_copy pair : keeps legit (pairCopyOrMove o pair).
Proof.
  unfold pairCopyOrMove. apply keeps_bind; [|intros [? ?]; keep].
  destruct (DoMove o) eqn:Em; [|keep].
  case_bool_decide; (apply keeps_bind; [apply legit_do_call; intros; exact Em|keep]).
Qed.

Lemma popRenameMap_in (ex : list Object) strategy window h src m :
  map_Forall (fun _ l => Forall (fun x => x ∈ ex) l) m ->
  let '(r, m') := Rename.popRenameMap strategy window h src m in
  map_Forall (fun _ l => Forall (fun x => x ∈ ex) l) m' /\
  (forall d, r = Some d -> d ∈ ex).
Proof.
  intros Hm. unfold Rename.popRenameMap. destruct (m !! h) as [[|d ds]|] eqn:Eh; [done| |done].
  pose proof (Hm _ _ Eh) as Hl. cbn beta in Hl.
  destruct (if Rename.modTime strategy then _ else _) as [i|]; [|done]. split.
  - case_bool_decide; [by apply map_Forall_delete|]. apply map_Forall_insert_2; [|done].
    unfold Rename.slices_Delete. apply Forall_app. split; [by apply Forall_take|by apply Forall_drop].
  - intros x Hx. rewrite Forall_lookup in Hl. by apply (Hl i).
Qed.

Lemma legit_pop h src :
  triple legit (pop_rename o h src)
    (fun r s => legit s /\ forall d, r = Some d -> d ∈ extra (s_hist s)).
Proof.
  intros s Hs. destruct s as [w er p f d hi], Hs as [H1 [Ha Hb Hc] H3]. unfold pop_rename. cbn.
  pose proof (popRenameMap_in (extra hi) (trackRenamesStrategy o) (modifyWindow o) h src
                (renameMap f) Hc) as Hp.
  unfold mbind, M_bind, gets. cbn. destruct (Rename.popRenameMap _ _ h src _) as [r m'].
  destruct Hp as [Hp1 Hp2]. cbn. by split.
Qed.

Lemma legit_tryRename src : keeps legit (tryRename o src).
Proof.
  unfold tryRename. destruct (str_eqb _ _); [keep|].
  eapply triple_bind; [apply legit_pop|]. intros [dst|]; [|intros s Hs; apply Hs].
  assert (Framed (fun s : sync W => legit s /\
            forall d, Some dst = Some d -> d ∈ extra (s_hist s))) as HF.
  { intros w x p f d h w' d' e [Hl Hd]. split; [by eapply framed|done]. }
  eapply triple_bind; [by apply keeps_world|]. intros ow.
  eapply triple_bind; [by apply keeps_world|]. intros [e|nd]; [intros s Hs; apply Hs|].
  eapply (triple_bind _ _ (fun _ s => legit s /\ dst ∈ extra (s_hist s))).
  - intros s [Hs Hd]. split; [by apply legit_del_dstFile|]. by apply Hd.
  - intros ?. eapply triple_bind; [|intros ?; apply (keeps_ret legit)].
    apply (legit_call (CRename src dst)).
Qed.

Lemma legit_renamer pair : keeps legit (pairRenamer o pair).
Proof. pose proof legit_tryRename. unfold pairRenamer. keep. Qed.

Lemma legit_march_done e order s :
  order ⊆+ (map_to_list (dstFiles (s_files s))).*2 ->
  legit s -> legit (march_done o e order s).2.
Proof.
  intros Hsub Hs. unfold march_done. rewrite seq_snd.
  apply (keeps_process legit e) in Hs. destruct (trackRenames o); [|done].
  assert (dstFiles (s_files (process e s).2) = dstFiles (s_files s)) as E by done.
  destruct Hs as [H1 [Ha Hb Hc] H3]. split; try done. split; try done. cbn.
  intros k l Hl. apply Forall_forall. intros x Hx.
  assert (x ∈ order) as Hin.
  { pose proof (Rename.makeRenameMap_filed (trackRenamesStrategy o) (renameCheck (s_files s)) order k)
      as Hr. rewrite Hl in Hr. unfold Rename.filed in Hr.
    destruct (snd <$> filter _ _) as [|y l'] eqn:Ef; [done|]. injection Hr as ->.
    rewrite <- Ef in Hx. apply list_elem_of_fmap in Hx as ([k' x'] & -> & Hx).
    apply list_elem_of_filter in Hx as [_ Hx]. unfold Rename.filed_log in Hx.
    apply list_elem_of_fmap in Hx as (x'' & [= -> ->] & Hx).
    by apply list_elem_of_filter in Hx as [_ Hx]. }
  eapply elem_of_submseteq in Hin; [|exact Hsub].
  apply list_elem_of_fmap in Hin as ([k' x'] & -> & Hin). apply elem_of_map_to_list in Hin.
  by apply (Ha k' x').
Qed.

Lemma legit_rmdir_all f es :
  (forall ex dir, call_ok ex (CRmdir f dir)) -> keeps legit (rmdir_all f es).
Proof.
  intros Hf. induction es as [|[x|x] es IH]; cbn [rmdir_all]; [keep|done|].
  apply keeps_bind; [by apply legit_do_call|done].
Qed.

Lemma legit_finish late : keeps legit (finish o late).
Proof.
  assert (forall f, ends f -> keeps legit (on_errs f)) as He.
  { intros f _ [w x p fl d h] [H1 H2 H3]. by split. }
  assert (forall f m, (forall ex dir, call_ok ex (CRmdir f dir)) ->
            keeps legit (deleteEmptyDirectories o f m)) as Hd.
  { intros f m Hf. unfold deleteEmptyDirectories. pose proof (legit_rmdir_all f). keep. }
  pose proof ends_cancel. pose proof ends_inCancel. unfold finish.
  apply keeps_bind; [keep|]. intros ?. apply keeps_bind; [|intros ?].
  { case_bool_decide as Hm; [|keep]. apply keeps_bind; [keep|]. intros e. destruct (_ && _); [keep|].
    apply keeps_bind; [keep|]. intros m. apply keeps_bind; [by apply Hd|intros ?; keep]. }
  apply keeps_bind; [|intros ?; keep].
  destruct (DoMove o) eqn:Em; [|keep]. destruct (deleteEmptySrcDirs o); [|keep].
  apply keeps_bind; [keep|]. intros m. apply keeps_bind; [by apply Hd|intros ?; keep].
Qed.

(** *** Facts about the log that depend on the phase *)

Definition benign (c : call) : Prop :=
  match c with CRename _ _ | CDeleteDst _ => False | _ => True end.

Definition log_closed (R : files -> list call -> Prop) : Prop :=
  forall f cs c, benign c -> R f cs -> R f (cs ++ [c]).

Definition on_log (R : files -> list call -> Prop) (s : sync W) : Prop :=
  R (s_files s) (calls (s_hist s)).

#[export] Instance on_log_framed R : Framed (on_log R).
Proof. by intros w x p f d h w' d' e H. Qed.

Lemma log_do_call {A} R c (f : W -> W * A) :
  log_closed R -> benign c -> keeps (on_log R) (do_call c f).
Proof.
  intros HR Hc. unfold do_call. apply keeps_bind; [|intros ?; keep]. intros [w er p fl d h] Hs. by apply HR.
Qed.

Lemma log_hist R f : (forall h, calls (f h) = calls h) -> keeps (on_log R) (on_hist f).
Proof. intros Hf [w er p fl d h] Hs. unfold on_log in *. cbn in *. by rewrite Hf. Qed.
Lemma log_fate R x ft : keeps (on_log R) (note_fate x ft).
Proof. by apply log_hist. Qed.
Lemma log_taken R x : keeps (on_log R) (note_taken x).
Proof. by apply log_hist. Qed.
Lemma log_extra R x : keeps (on_log R) (note_extra x).
Proof. by apply log_hist. Qed.
Lemma log_panic R m : keeps (on_log R) (note_panic m).
Proof. by apply log_hist. Qed.
Lemma log_pipes R f : keeps (on_log R) (on_pipes f).
Proof. by intros [w er p fl d h] Hs. Qed.
Lemma log_errs R f : keeps (on_log R) (on_errs f).
Proof. by intros [w er p fl d h] Hs. Qed.
Lemma log_files R f : (forall x cs, R x cs -> R (f x) cs) -> keeps (on_log R) (on_files f).
Proof. intros Hf [w er p fl d h] Hs. by apply Hf. Qed.
Hint Resolve log_fate log_taken log_extra log_panic log_pipes log_errs : sync.
Hint Extern 2 (keeps (on_log _) (do_call _ _)) => by apply log_do_call : sync.

Lemma log_put R on pair : keeps (on_log R) (put on pair).
Proof. unfold put. keep. Qed.
Hint Resolve log_put : sync.

Lemma log_checker R pair : log_closed R -> keeps (on_log R) (pairChecker o pair).
Proof.
  intros HR. unfold pairChecker, need_transfer, fix_case, send_transfer, keep_or_delete. keep.
Qed.

Lemma log_copy R pair : log_closed R -> keeps (on_log R) (pairCopyOrMove o pair).
Proof. intros HR. unfold pairCopyOrMove. keep. Qed.

Lemma log_finish R late : log_closed R -> keeps (on_log R) (finish o late).
Proof.
  intros HR. apply finish_keeps; [apply _| |intros; apply log_errs].
  intros f dir [w er p fl d h] Hs. by apply HR.
Qed.

Lemma log_event R ev :
  (forall x f cs, R f cs -> R (add_dstFile x f) cs /\ R (send_delete x f) cs /\
     R (add_renameCheck x f) cs) ->
  keeps (on_log R) (run_event o sel ev).
Proof.
  intros HR.
  assert (forall x, keeps (on_log R) (on_files (add_dstFile x))) by (intros; apply log_files; apply HR).
  assert (forall x, keeps (on_log R) (on_files (send_delete x))) by (intros; apply log_files; apply HR).
  assert (forall x, keeps (on_log R) (on_files (add_renameCheck x)))
    by (intros; apply log_files; apply HR).
  unfold run_event, SrcOnly, DstOnly, Match, select_done. keep.
Qed.

(** No renames yet; renamed objects are out of the map; no deletions yet;
    deletions are of objects in the map. *)
Definition no_renames (f : files) (cs : list call) : Prop :=
  renameMap f = ∅ /\ forall src d, CRename src d ∉ cs.
Definition renamed_out (f : files) (cs : list call) : Prop :=
  forall src d, CRename src d ∈ cs -> dstFiles f !! oRemote d = None.
Definition no_deletes (f : files) (cs : list call) : Prop := forall x, CDeleteDst x ∉ cs.
Definition from_map (f : files) (cs : list call) : Prop :=
  forall x, CDeleteDst x ∈ cs -> dstFiles f !! oRemote x = Some x.

Lemma elem_snoc (cs : list call) c c' : c' ∈ cs ++ [c] <-> c' ∈ cs \/ c' = c.
Proof. set_solver. Qed.

Lemma closed_no_renames : log_closed no_renames.
Proof.
  intros f cs c Hc [H1 H2]. split; [done|]. intros src d [?|<-]%elem_snoc; [by eapply H2|done].
Qed.
Lemma closed_renamed_out : log_closed renamed_out.
Proof. intros f cs c Hc HR src d [?|<-]%elem_snoc; [by eapply HR|done]. Qed.
Lemma closed_no_deletes : log_closed no_deletes.
Proof. intros f cs c Hc HR x [?|<-]%elem_snoc; [by eapply HR|done]. Qed.
Lemma closed_from_map : log_closed from_map.
Proof. intros f cs c Hc HR x [?|<-]%elem_snoc; [by eapply HR|done]. Qed.

Lemma log_renamer R pair :
  log_closed R -> (forall m f cs, R f cs -> R (set_renameMap m f) cs) ->
  (forall src d f cs, R f cs -> R (del_dstFile (oRemote d) f) (cs ++ [CRename src d])) ->
  keeps (on_log R) (pairRenamer o pair).
Proof.
  intros HR Hm Hr. unfold pairRenamer. apply keeps_bind; [|intros ?; keep].
  unfold tryRename, pop_rename. destruct (str_eqb _ _); [keep|].
  assert (forall m, keeps (on_log R) (on_files (set_renameMap m))) by (intros; apply log_files; auto).
  apply keeps_bind; [keep|]. intros [dst|]; [|keep]. apply keeps_bind; [keep|]. intros ow.
  apply keeps_bind; [keep|]. intros [e|nd]; [keep|]. intros [w er p fl d h] Hs. by apply Hr.
Qed.

Lemma renamer_no_renames pair : keeps (on_log no_renames) (pairRenamer o pair).
Proof.
  unfold pairRenamer. apply keeps_bind; [|intros ?; keep]. unfold tryRename.
  destruct (str_eqb _ _); [keep|]. intros [w er p fl d h] [Hm Hs]. cbn in Hm, Hs.
  unfold pop_rename, mbind, M_bind, gets. cbn. rewrite Hm. unfold Rename.popRenameMap.
  rewrite lookup_empty. done.
Qed.

Lemma renamer_renamed_out pair : keeps (on_log renamed_out) (pairRenamer o pair).
Proof.
  apply log_renamer; [exact closed_renamed_out|done|].
  intros src d f cs HR src' d' [Hin|[= -> ->]]%elem_snoc; cbn.
  - destruct (decide (oRemote d = oRemote d')) as [->|Hne]; [by rewrite lookup_delete_eq|].
    rewrite lookup_delete_ne by done. by eapply HR.
  - by rewrite lookup_delete_eq.
Qed.

Lemma renamer_no_deletes pair : keeps (on_log no_deletes) (pairRenamer o pair).
Proof.
  apply log_renamer; [exact closed_no_deletes|done|].
  intros src d f cs HR x [Hin|?]%elem_snoc; [by eapply HR|done].
Qed.

(** Deletions after the transfers come only after a pipeline that ended by
    itself without failures. *)
Definition gate (cut : bool) (todo : list Object) (s : sync W) : Prop :=
  deleteMode o = DeleteModeAfter -> IgnoreErrors (ci o) = false -> cut = false ->
  todo <> [] \/ (exists x, CDeleteDst x ∈ calls (s_hist s)) -> ~ some_failed (s_hist s).

#[export] Instance gate_framed cut todo : Framed (gate cut todo).
Proof. by intros w x p f d h w' d' e H. Qed.

Definition after_only (P : Prop) : Prop := deleteMode o = DeleteModeAfter -> P.

Definition dphase (ph : phase) (s : sync W) : Prop :=
  match ph with
  | PMarch => on_log no_renames s /\ after_only (on_log no_deletes s)
  | PPutRenames _ | PChecks | PRenames | PTransfers | PDeleters =>
      on_log renamed_out s /\ after_only (on_log no_deletes s)
  | PAfter cut todo _ =>
      on_log renamed_out s /\ after_only (on_log from_map s) /\ gate cut todo s /\
      Forall (fun x => x ∈ extra (s_hist s) /\ dstFiles (s_files s) !! oRemote x = Some x) todo
  | PDirs cut | PDone cut _ =>
      on_log renamed_out s /\ after_only (on_log from_map s) /\ gate cut [] s
  end.

Definition dinv (c : phase * sync W) : Prop := legit c.2 /\ dphase c.1 c.2.

Lemma dinv_event ev s : dinv (PMarch, s) -> dinv (PMarch, (run_event o sel ev s).2).
Proof.
  intros (Hl & Hr & Hd). split; [by apply legit_event|]. split.
  - apply log_event; [|done]. intros x f cs HR. done.
  - intros Hm. apply log_event; [|by apply Hd]. intros x f cs HR. done.
Qed.

Definition early (ph : phase) : bool :=
  match ph with PAfter _ _ _ | PDirs _ | PDone _ _ => false | _ => true end.

Lemma dinv_early {A} ph (m : M W A) s :
  early ph = true -> keeps legit m ->
  keeps (on_log no_renames) m -> keeps (on_log renamed_out) m ->
  (deleteMode o = DeleteModeAfter -> keeps (on_log no_deletes) m) ->
  dinv (ph, s) -> dinv (ph, (m s).2).
Proof.
  intros Hph H1 H2 H3 H4 [Hl Hd]. split; [by apply H1|]. cbn [fst snd] in *.
  destruct ph; try done; destruct Hd as [Hr Hn]; (split; [auto|]); intros Hm; by apply H4, Hn.
Qed.

Lemma dinv_march_done e order s :
  order ⊆+ (map_to_list (dstFiles (s_files s))).*2 -> dinv (PMarch, s) ->
  dinv (if trackRenames o then PPutRenames (renameCheck (s_files s)) else PChecks,
        (march_done o e order s).2).
Proof.
  intros Ho (Hl & [Hm Hr] & Hd). split; [by apply legit_march_done|].
  assert (forall R, (forall m f cs, R f cs -> R (set_renameMap m f) cs) ->
            keeps (on_log R) (march_done o e order)) as Hk.
  { intros R HR. unfold march_done. apply keeps_bind; [keep|]. intros ?.
    destruct (trackRenames o); [apply log_files; auto|keep]. }
  assert (on_log renamed_out (march_done o e order s).2) as H1.
  { apply Hk; [done|]. intros src d Hin. by destruct (Hr src d). }
  assert (after_only (on_log no_deletes (march_done o e order s).2)) as H2.
  { intros Ha. by apply Hk, Hd. }
  by destruct (trackRenames o).
Qed.

Lemma legit_delete_one x s : legit s -> x ∈ extra (s_hist s) -> legit (delete_one x s).2.
Proof.
  intros Hl Hx. unfold delete_one, do_call. rewrite seq_snd. apply (keeps_world legit).
  by apply (legit_call (CDeleteDst x)).
Qed.

Lemma log_delete_one R x :
  (forall f cs, R f cs -> R f (cs ++ [CDeleteDst x])) -> keeps (on_log R) (delete_one x).
Proof.
  intros HR. unfold delete_one, do_call. apply keeps_bind; [|intros ?; keep].
  intros [w er p fl d h] Hs. by apply HR.
Qed.

Lemma dinv_deleter ph l1 x l2 s :
  deleting o ph = true -> deleteFilesCh (s_files s) = l1 ++ x :: l2 -> dinv (ph, s) ->
  dinv (ph, ((on_files (take_delete (l1 ++ l2)) ;;
              e ← delete_one x; on_files (add_deleteError e)) s).2).
Proof.
  intros Hdel E [Hl Hd]. unfold deleting, deletes_during in Hdel. breflect.
  rewrite bool_decide_eq_true in *. cbn [fst snd] in *. split; cbn [fst snd].
  { rewrite seq_snd. destruct (legit_take l1 x l2 s E Hl) as [Hl' Hx].
    pose proof (legit_delete_one x _ Hl' Hx) as K. unfold mbind, M_bind.
    destruct (delete_one x _) as [e s']. by apply legit_deleteError. }
  assert (forall R, (forall f cs, R f cs -> R f (cs ++ [CDeleteDst x])) ->
    (forall l f cs, R f cs -> R (take_delete l f) cs) ->
    (forall e f cs, R f cs -> R (add_deleteError e f) cs) ->
    keeps (on_log R) (on_files (take_delete (l1 ++ l2)) ;;
              e ← delete_one x; on_files (add_deleteError e))) as Hk.
  { intros R K1 K2 K3. apply keeps_bind; [apply log_files; auto|]. intros ?.
    apply keeps_bind; [by apply log_delete_one|]. intros ?. apply log_files; auto. }
  assert (forall P, after_only P) as Hn by (intros P ?; naive_solver congruence).
  assert (forall f cs, no_renames f cs -> no_renames f (cs ++ [CDeleteDst x])).
  { intros f cs [K1 K2]. split; [done|]. intros src d [?|?]%elem_snoc; [by eapply K2|done]. }
  assert (forall f cs, renamed_out f cs -> renamed_out f (cs ++ [CDeleteDst x])).
  { intros f cs K1 src d [?|?]%elem_snoc; [by eapply K1|done]. }
  destruct ph; try done; destruct Hd as [Hr _]; (split; [|apply Hn]); by apply Hk.
Qed.

Lemma begin_after_todo order s todo s2 :
  begin_after o order s = (todo, s2) -> todo <> [] ->
  todo = order /\ deleteMode o = DeleteModeAfter /\
  (IgnoreErrors (ci o) = false -> currentError (s_errs s) = None).
Proof.
  unfold begin_after. case_bool_decide as Hm; [|by intros [= <- _]].
  unfold mbind, M_bind, gets. case_bool_decide as He; cbn.
  - destruct (IgnoreErrors (ci o)) eqn:Ei; cbn; [|by intros [= <- _]].
    rewrite andb_false_r. by intros [= <- _] _.
  - destruct (op_Errored _ && _); [by intros [= <- _]|].
    by intros [= <- _].
Qed.

Lemma dstFiles_values ex s order x :
  files_ok ex (s_files s) -> order ≡ₚ (map_to_list (dstFiles (s_files (W := W) s))).*2 ->
  x ∈ order -> x ∈ ex /\ dstFiles (s_files s) !! oRemote x = Some x.
Proof.
  intros Hf -> Hx. apply list_elem_of_fmap in Hx as ([k x'] & -> & Hx).
  apply elem_of_map_to_list in Hx. destruct (f_dst _ _ Hf k x' Hx) as [-> Hin]. done.
Qed.

Lemma dinv_after order s todo s2 :
  ainv o (PDeleters, s) -> dinv (PDeleters, s) ->
  order ≡ₚ (map_to_list (dstFiles (s_files s))).*2 ->
  begin_after o order (process (delete_result (deleteErrors (s_files s))) s).2 = (todo, s2) ->
  dinv (PAfter (stopping (s_errs s)) todo [], s2).
Proof.
  intros Ha [Hl [Hr Hd]] Ho Hb.
  assert (forall P : sync W -> Prop, Framed P -> P s -> P s2) as Hk.
  { intros P HP Hs. apply (keeps_process P (delete_result (deleteErrors (s_files s)))) in Hs.
    apply (begin_after_keeps o order P HP) in Hs. by rewrite Hb in Hs. }
  cbn [fst snd dphase] in *. split; cbn [fst snd dphase]; [by apply (Hk legit _)|].
  split; [by apply (Hk (on_log renamed_out) _)|]. split_and!.
  - intros Hm. apply (Hk (on_log from_map) _). intros x Hx. by destruct (Hd Hm x).
  - intros Hm Hi Hc Hex Hf.
    assert (on_log no_deletes s2) as Hn by (apply (Hk (on_log no_deletes) _); auto).
    destruct Hex as [Hne|[x Hx]]; [|by destruct (Hn x)].
    destruct (begin_after_todo _ _ _ _ Hb Hne) as (_ & _ & Hce). specialize (Hce Hi).
    pose proof (ainv_late o s Ha Hc) as [_ Hl'].
    assert (some_failed (s_hist s2) -> some_failed (s_hist s)) as Hback.
    { apply (Hk (fun s2 => some_failed (s_hist s2) -> some_failed (s_hist s))); [|done].
      by intros w x p f d h w' d' e HH. }
    apply Hback, Hl' in Hf. by apply (process_currentError (delete_result (deleteErrors (s_files s)))) in Hf.
  - destruct (decide (todo = [])) as [->|Hne]; [done|].
    destruct (begin_after_todo _ _ _ _ Hb Hne) as (-> & _ & _). apply Forall_forall. intros x Hx.
    apply (Hk (fun s2 => x ∈ extra (s_hist s2) /\ dstFiles (s_files s2) !! oRemote x = Some x)).
    + by intros w y p f d h w' d' e HH.
    + eapply dstFiles_values; [apply Hl|done|done].
Qed.

Lemma dinv_after_delete cut x todo errors s :
  dinv (PAfter cut (x :: todo) errors, s) ->
  dinv (PAfter cut todo errors, (delete_one x s).2).
Proof.
  intros [Hl (Hr & Hm & Hg & Hall)]. cbn [fst snd] in *. apply Forall_cons in Hall as [[Hx Hdx] Hall].
  split; cbn [fst snd dphase]; [by apply legit_delete_one|].
  assert (s_hist (delete_one x s).2 = mkHistory (taken (s_hist s)) (fates (s_hist s))
            (extra (s_hist s)) (calls (s_hist s) ++ [CDeleteDst x]) (panics (s_hist s)) /\
          s_files (delete_one x s).2 = s_files s) as [Eh Ef].
  { unfold delete_one, do_call. rewrite seq_snd. unfold on_world. by destruct (op_DeleteFileWithBackupDir _ _). }
  unfold on_log, gate. rewrite Eh, Ef. split_and!.
  - intros src d [?|?]%elem_snoc; [by eapply Hr|done].
  - intros Ha y [Hy|[= ->]]%elem_snoc; [by apply (Hm Ha)|done].
  - intros Ha Hi Hc _. apply (Hg Ha Hi Hc). by left.
  - done.
Qed.

Lemma gate_finish cut late : keeps (gate cut []) (finish o late).
Proof.
  apply finish_keeps; [apply _| |by intros f _ [w er p fl d h] Hs].
  intros f dir [w er p fl d h] Hs Ha Hi Hc [?|[x Hx]]; [done|]. cbn in *.
  apply elem_snoc in Hx as [Hx|?]; [|done]. apply (Hs Ha Hi Hc). right. by exists x.
Qed.

Lemma dinv_errs ph f s : dinv (ph, s) -> dinv (ph, (on_errs f s).2).
Proof. intros [[H1 H2 H3] Hd]. split; [by split|]. destruct s. by destruct ph. Qed.

Lemma dinv_finish cut late s r s' :
  dinv (PDirs cut, s) -> finish o late s = (r, s') -> dinv (PDone cut r, s').
Proof.
  intros [Hl (Hr & Hm & Hg)] E. cbn [fst snd] in *.
  replace s' with (finish o late s).2 by (by rewrite E). split; [by apply legit_finish|].
  split_and!; cbn [fst snd].
  - by apply log_finish; [exact closed_renamed_out|].
  - intros Ha. apply log_finish; [exact closed_from_map|by apply Hm].
  - by apply gate_finish.
Qed.

Lemma dinv_step c c' : ainv o c -> dinv c -> step o sel c c' -> dinv c'.
Proof.
  intros Ha Hi Hs. destruct Hs.
  - by apply dinv_event.
  - by apply dinv_march_done.
  - assert (dinv (PPutRenames (x :: todo), (put at_renamed (mkPair x None) s).2)) as Hi'.
    { revert Hi. apply dinv_early; [done|..]; intros; auto using legit_put, log_put. }
    exact Hi'.
  - exact Hi.
  - revert Hi. apply dinv_early; [by destruct ph|..]; intros; apply keeps_then;
      auto using legit_pipes, legit_checker, log_pipes, log_checker,
        closed_no_renames, closed_renamed_out, closed_no_deletes.
  - unfold renaming in *. breflect.
    revert Hi. apply dinv_early; [by destruct ph|..]; intros; apply keeps_then;
      auto using legit_pipes, legit_renamer, log_pipes, renamer_no_renames,
        renamer_renamed_out, renamer_no_deletes.
  - revert Hi. apply dinv_early; [by destruct ph|..]; intros; apply keeps_then;
      auto using legit_pipes, legit_copy, log_pipes, log_copy,
        closed_no_renames, closed_renamed_out, closed_no_deletes.
  - by apply dinv_deleter.
  - exact Hi.
  - exact Hi.
  - exact Hi.
  - subst s1. by eapply dinv_after.
  - replace s' with (delete_one x s).2 by (by rewrite H0). by apply dinv_after_delete in Hi.
  - destruct Hi as [Hl (Hr & Hm & Hg & Hall)]. cbn [fst snd] in *.
    split; [by apply (keeps_process legit)|]. destruct s. cbn in *. split_and!; try done.
    intros Hd Hi Hc [?|Hx]; [done|]. apply (Hg Hd Hi Hc). by right.
  - by eapply dinv_finish.
  - by apply dinv_errs.
  - by apply dinv_errs.
Qed.

Lemma dinv_start w p : dinv (PMarch, start w p).
Proof.
  split; [split|split].
  - constructor.
  - split; cbn; try done; apply map_Forall_empty.
  - done.
  - split; [done|]. intros src d Hin. by apply elem_of_nil in Hin.
  - intros _ x Hin. by apply elem_of_nil in Hin.
Qed.

Lemma dinv_reachable glob orderBy maxBacklog w p c :
  newPipe glob orderBy maxBacklog = inr p -> reachable o sel w p c -> dinv c.
Proof.
  intros Hp Hr. pose proof (ainv_start o _ _ _ w _ Hp) as Ha. pose proof (dinv_start w p) as Hd.
  unfold reachable in Hr. revert Ha Hd.
  induction Hr as [|x y z Hs Hr IH]; [done|]. intros Ha Hd.
  apply IH; [by eapply ainv_step|by eapply dinv_step].
Qed.
End deletions.

(** ** Theorems *)

(** C2: no source file is lost in the pipeline.  In every state that a sync
    can reach, whatever the interleaving of the march, the checkers, the
    renamers, the transfers and the deleters, whatever the other components
    answer and whenever a context ends, each source object the march handed
    over is in exactly one place: waiting in a pipe, held for the rename
    phase, or done with one recorded outcome.  When the run ends and its
    pipeline was not cut short, every object has its outcome, and if the run
    returns no error then none of the outcomes is a failure. *)
Theorem sync_accounts {W} `{!Operations W} `{!Deheap} o sel glob orderBy maxBacklog w p ph s :
  newPipe glob orderBy maxBacklog = inr p -> reachable (W := W) o sel w p (ph, s) ->
  taken (s_hist s) ≡ₚ queued (s_pipes s) ++ holds ph (renameCheck (s_files s)) ++
                      (fates (s_hist s)).*1 /\
  (forall r, ph = PDone false r ->
     taken (s_hist s) ≡ₚ (fates (s_hist s)).*1 /\
     (r = None -> forall x f, (x, f) ∈ fates (s_hist s) -> failed f = false)).
Proof.
  intros Hp Hr. destruct (ainv_reachable o sel glob orderBy maxBacklog w p _ Hp Hr)
    as ((rc & Ha & _) & _ & Hst). cbn [fst snd] in *. pose proof (a_owed _ _ _ Ha) as Ho.
  rewrite <- (a_check _ _ _ Ha) in Ho. split; [exact Ho|].
  intros r ->. cbn [stage holds] in *. destruct (Hst eq_refl) as [Hq Hf].
  rewrite Hq in Ho. split; [done|]. intros -> x f Hin.
  destruct (failed f) eqn:E; [|done]. exfalso. apply Hf; [|done]. apply Exists_exists.
  by exists (x, f).
Qed.


(** *** Concrete syncs *)

Definition ex_config (fixCase deadline : bool) : Config :=
  mkConfig false false false "hash" false false false false fixCase false false "" 10
    (if deadline then 1 else 0) (negb deadline) "" "" [] [].

Definition ex_features : Features := mkFeatures false false true false false false false true.

(** The options that [newSyncCopyMove] makes of this configuration. *)
Definition ex_new (fixCase deadline : bool) (mode : DeleteMode) (move : bool) : Options * pipe :=
  match newSyncCopyMove (fun _ => None) false true 1 false None None None
          (ex_config fixCase deadline) ex_features ex_features mode move false false false with
  | inr r => r
  | inl _ => (mkOptions (ex_config fixCase deadline) mode move false false false false false 0 1
                false false false false false false true deadline, Pipe.ex_pipe)
  end.

Definition ex_file (remote : string) (size : Z) (fs : nat) : Object :=
  mkObject remote size 0 (Some "ff") true fs.

Example ex_new_ok : Pipe.queue (ex_new false false DeleteModeAfter false).2 = [].
Proof. reflexivity. Qed.

Abbreviation ex_reachable o := (@reachable unit (ex_ops true None) Pipe.selection o (fun _ => true) tt).

Lemma step_to {W} `{!Operations W} `{!Deheap} o sel c c' c'' d :
  step (W := W) o sel c c' -> c' = c'' -> rtc (step o sel) c'' d -> rtc (step o sel) c d.
Proof. intros Hs <- Hr. by eapply rtc_l. Qed.

(** One step of a concrete run, the state evaluated. *)
Ltac run_step tac := eapply step_to; [tac|vm_compute; reflexivity|].
Ltac evaluate := vm_compute; first [reflexivity|discriminate].

(** A new file is copied and an extra one deleted afterwards. *)
Lemma ex_sync_run :
  let '(o, p) := ex_new false false DeleteModeAfter false in
  exists s, ex_reachable o p (PDone false None, s) /\
    fates (s_hist s) = [(ex_file "a" 1 0, Transferred)] /\
    calls (s_hist s) = [CCopy (ex_file "a" 1 0) None; CDeleteDst (ex_file "b" 2 1)].
Proof.
  let x := eval vm_compute in (ex_new false false DeleteModeAfter false) in
  change (ex_new false false DeleteModeAfter false) with x. cbv beta iota.
  eexists. split.
  - unfold reachable.
    run_step ltac:(apply (step_callback _ _ (March.ESrcOnly (EObject (ex_file "a" 1 0))))).
    run_step ltac:(apply (step_callback _ _ (March.EDstOnly (Some (EObject (ex_file "b" 2 1)))))).
    run_step ltac:(apply (step_march_done _ _ None [ex_file "b" 2 1]); [evaluate|intros; evaluate]).
    run_step ltac:(apply step_checks_done; left; evaluate).
    run_step ltac:(apply step_renames_done; left; evaluate).
    run_step ltac:(eapply (step_transfer _ _ _ 0); evaluate).
    run_step ltac:(apply step_transfers_done; left; evaluate).
    run_step ltac:(eapply (step_deleters_done _ _ [ex_file "b" 2 1]);
      [evaluate|left; evaluate|evaluate|evaluate]).
    run_step ltac:(eapply step_after_delete; evaluate).
    run_step ltac:(apply step_after_done; left; evaluate).
    run_step ltac:(apply (step_finish _ _ _ false); evaluate).
    apply rtc_refl.
  - split; reflexivity.
Qed.

Lemma sync_accounts_witness :
  let '(o, p) := ex_new false false DeleteModeAfter false in
  exists s, ex_reachable o p (PDone false None, s) /\
    taken (s_hist s) ≡ₚ [ex_file "a" 1 0].
Proof.
  pose proof ex_sync_run as Hrun.
  destruct (ex_new false false DeleteModeAfter false) as [o p] eqn:E.
  destruct Hrun as (s & Hr & Hf & _). exists s. split; [exact Hr|].
  destruct (@sync_accounts unit (ex_ops true None) Pipe.selection o (fun _ => true)
              (fun _ => None) "" 10 tt p (PDone false None) s) as [_ H].
  - vm_compute in E. injection E as _ <-. reflexivity.
  - exact Hr.
  - destruct (H None eq_refl) as [Ht _]. rewrite Hf in Ht. exact Ht.
Defined.


(** A sync whose context is cancelled from outside returns no error
    although it transferred nothing: [processError] drops [context.Canceled]
    once [inCtx] is done, which is meant for a stop that the sync called
    itself. *)
Theorem cancelled_sync_succeeds :
  let '(o, p) := ex_new false false DeleteModeOff false in
  exists s, ex_reachable o p (PDone true None, s) /\
    taken (s_hist s) = [ex_file "a" 1 0] /\ fates (s_hist s) = [] /\ calls (s_hist s) = [].
Proof.
  let x := eval vm_compute in (ex_new false false DeleteModeOff false) in
  change (ex_new false false DeleteModeOff false) with x. cbv beta iota.
  eexists. split.
  - unfold reachable.
    run_step ltac:(apply (step_callback _ _ (March.ESrcOnly (EObject (ex_file "a" 1 0))))).
    run_step ltac:(apply (step_ctx _ _ _ Canceled); left; reflexivity).
    run_step ltac:(apply (step_march_done _ _ (Some Canceled) []); [evaluate|intros; evaluate]).
    run_step ltac:(apply step_checks_done; left; evaluate).
    run_step ltac:(apply step_renames_done; left; evaluate).
    run_step ltac:(apply step_transfers_done; right; evaluate).
    run_step ltac:(eapply (step_deleters_done _ _ []); [evaluate|left; evaluate|evaluate|evaluate]).
    run_step ltac:(apply step_after_done; left; evaluate).
    run_step ltac:(apply (step_finish _ _ _ false); evaluate).
    apply rtc_refl.
  - split; [reflexivity|]. split; reflexivity.
Qed.

(** When --max-duration ends a sync softly after the march, the transfers
    that are left are abandoned but --delete-after still deletes: the error of
    the deadline is recorded only after the deletions, so the test for errors
    before them finds none. *)
Theorem soft_deadline_deletes :
  let '(o, p) := ex_new false true DeleteModeAfter false in
  exists s e, ex_reachable o p (PDone true (Some e), s) /\
    IgnoreErrors (ci o) = false /\
    taken (s_hist s) = [ex_file "a" 1 0] /\ fates (s_hist s) = [] /\
    calls (s_hist s) = [CDeleteDst (ex_file "b" 2 1)].
Proof.
  let x := eval vm_compute in (ex_new false true DeleteModeAfter false) in
  change (ex_new false true DeleteModeAfter false) with x. cbv beta iota.
  eexists _, (ENoRetry DeadlineExceeded). split.
  - unfold reachable.
    run_step ltac:(apply (step_callback _ _ (March.ESrcOnly (EObject (ex_file "a" 1 0))))).
    run_step ltac:(apply (step_callback _ _ (March.EDstOnly (Some (EObject (ex_file "b" 2 1)))))).
    run_step ltac:(apply (step_march_done _ _ None [ex_file "b" 2 1]); [evaluate|intros; evaluate]).
    run_step ltac:(apply step_checks_done; left; evaluate).
    run_step ltac:(apply step_renames_done; left; evaluate).
    run_step ltac:(apply step_soft_deadline; evaluate).
    run_step ltac:(apply step_transfers_done; right; evaluate).
    run_step ltac:(eapply (step_deleters_done _ _ [ex_file "b" 2 1]);
      [evaluate|left; evaluate|evaluate|evaluate]).
    run_step ltac:(eapply step_after_delete; evaluate).
    run_step ltac:(apply step_after_done; left; evaluate).
    run_step ltac:(apply (step_finish _ _ _ false); evaluate).
    apply rtc_refl.
  - split; [reflexivity|]. split; [reflexivity|]. split; reflexivity.
Qed.

(** Moving with --fix-case can panic.  [operations.Move] returns no object
    when the rename is skipped (--dry-run, or declined with --interactive);
    the checker then has no destination, and when the file need not be
    transferred it passes the nil object to [SameObject]. *)
Theorem fix_case_skipped_panics :
  let '(o, p) := ex_new true false DeleteModeOff true in
  exists s, @reachable unit (ex_ops false None) Pipe.selection o (fun _ => true) tt p (PMarch, s) /\
    panics (s_hist s) = ["nil pointer dereference in SameObject"].
Proof.
  let x := eval vm_compute in (ex_new true false DeleteModeOff true) in
  change (ex_new true false DeleteModeOff true) with x. cbv beta iota.
  eexists. split.
  - unfold reachable.
    run_step ltac:(apply (step_callback _ _
      (March.EMatch (EObject (ex_file "A" 1 1)) (EObject (ex_file "a" 1 0))))).
    run_step ltac:(eapply (step_checker _ _ _ 0); evaluate).
    apply rtc_refl.
  - reflexivity.
Qed.

(** *** The march that drives a sync *)

(** Which entries the callbacks recurse into. *)
Definition recurses (o : Options) (ev : March.event) : bool :=
  match ev with
  | March.ESrcOnly e => negb (bool_decide (deleteMode o = DeleteModeOnly)) && is_dir e
  | March.EDstOnly (Some e) =>
      is_dir e && (negb (bool_decide (deleteMode o = DeleteModeOff)) || usingLogger o)
  | March.EDstOnly None => false
  | March.EMatch d s => is_dir s && is_dir d
  end.

(** A computation with a fixed result. *)
Definition returns {W A} (b : A) (m : M W A) : Prop := forall s, (m s).1 = b.

Lemma returns_ret {W A} (b : A) : returns (W := W) b (mret b).
Proof. done. Qed.
Lemma returns_bind {W A B} (b : B) (m : M W A) (k : A -> M W B) :
  (forall a, returns b (k a)) -> returns b (m ≫= k).
Proof. intros Hk s. unfold mbind, M_bind. destruct (m s). apply Hk. Qed.

Ltac result :=
  repeat first
    [ apply returns_ret
    | match goal with
      | |- returns _ (_ ≫= _) => apply returns_bind; intros ?
      | |- returns _ (match ?x with _ => _ end) => destruct x
      end ].

Lemma snd_swap {A B} (p : A * B) : (let '(a, b) := p in (b, a)).2 = p.1.
Proof. by destruct p. Qed.

Lemma SrcOnly_returns {W} `{!Operations W} `{!Deheap} o (sel : sync W -> bool) e :
  returns (recurses o (March.ESrcOnly e)) (SrcOnly o sel e).
Proof. unfold SrcOnly. cbn [recurses]. destruct (bool_decide _), e; cbn; result. Qed.

Lemma DstOnly_returns {W} o (sel : sync W -> bool) e :
  returns (recurses o (March.EDstOnly e)) (DstOnly o sel e).
Proof.
  unfold DstOnly. cbn [recurses]. destruct (bool_decide _), e as [[x|x]|]; cbn; result.
Qed.

Lemma Match_returns {W} `{!Operations W} `{!Deheap} o d e :
  returns (W := W) (recurses o (March.EMatch d e)) (Match o d e).
Proof. unfold Match. cbn [recurses]. destruct d, e; cbn; result. Qed.

(** The callbacks of a sync meet the contract of the march: whether they
    recurse depends on the entries and the options only, not on the state, the
    errors, or what the backends answer.  So the traversal of a sync does not
    depend on the scheduling of its workers ([March.Run_any_schedule]). *)
Theorem sync_marcher_decides {W} `{!Operations W} `{!Deheap} o (sel : sync W -> bool) :
  March.decides (marcher o sel) (recurses o).
Proof.
  split_and!; intros; cbn [March.SrcOnly March.DstOnly March.Match marcher]; rewrite snd_swap.
  - apply SrcOnly_returns.
  - apply DstOnly_returns.
  - apply Match_returns.
Qed.

(** *** Rename tracking and the times of directories *)

(** With --track-renames a new file that is copied does not mark its
    directory as modified: neither [SrcOnly], which puts the file aside, nor
    the renamer, which passes it on, calls [markDirModifiedObject], so
    [setDelayedDirModTimes] skips the directory. *)
Lemma track_renames_not_marked {W} `{!Operations W} `{!Deheap} o sel x pair :
  trackRenames o = true ->
  forall d (s : sync W), modifiedDirs (s_dirs s) = d ->
  modifiedDirs (s_dirs (SrcOnly o sel (EObject x) s).2) = d /\
  modifiedDirs (s_dirs (pairRenamer o pair s).2) = d.
Proof.
  intros Ht d s Hs.
  assert (forall A (f : W -> W * A), keeps (fun s => modifiedDirs (s_dirs s) = d) (on_world f)).
  { intros A f [w er p fl di h] E. unfold on_world. cbn in *. by destruct (f w). }
  assert (forall f, keeps (W := W) (fun s => modifiedDirs (s_dirs s) = d) (on_files f)) by (by intros f []).
  assert (forall f, keeps (W := W) (fun s => modifiedDirs (s_dirs s) = d) (on_hist f)) by (by intros f []).
  assert (forall on p, keeps (W := W) (fun s => modifiedDirs (s_dirs s) = d) (put on p)).
  { intros on p. unfold put, note_fate. keep. by intros []. }
  split; revert s Hs.
  - change (keeps (fun s => modifiedDirs (s_dirs s) = d) (SrcOnly o sel (EObject x))).
    unfold SrcOnly, select_done, note_fate, note_taken. rewrite Ht. keep. by intros [].
  - change (keeps (fun s => modifiedDirs (s_dirs s) = d) (pairRenamer o pair)).
    unfold pairRenamer, tryRename, pop_rename, note_fate, note_call. keep.
Qed.

End Sync.
