(* ===== verification/Utf8.v ===== *)
(** * UTF-8 as Go reads and writes it

    What the modelled code uses of package unicode/utf8 and of [range] over a
    string: [DecodeRuneInString], [ValidRune], [ValidString], the encoding of a
    rune as [WriteRune] does it, and the decomposition of any byte string into
    valid runes and single bytes that are part of no valid encoding.  The
    decomposition is unique: [items] and [flat] are inverse to each other on
    the decompositions that are [canonical]. *)
From S2P Require Import Prelude GoPath.

Module Utf8.

Abbreviation bytes := (list Z).

Definition is_byte (b : Z) : Prop := 0 <= b < 256.

(** ** Strings and bytes *)

Definition to_bytes (s : string) : bytes :=
  map (fun c => Z.of_nat (nat_of_ascii c)) (String.list_ascii_of_string s).

Definition of_bytes (b : bytes) : string :=
  String.string_of_list_ascii (map (fun z => ascii_of_nat (Z.to_nat z)) b).

Lemma to_bytes_is_byte s : Forall is_byte (to_bytes s).
Proof.
  unfold to_bytes. induction (String.list_ascii_of_string s) as [|c l IH]; [constructor|].
  constructor; [|done]. pose proof (nat_ascii_bounded c). unfold is_byte. lia.
Qed.

Lemma of_bytes_to_bytes s : of_bytes (to_bytes s) = s.
Proof.
  unfold of_bytes, to_bytes. rewrite <- (String.string_of_list_ascii_of_string s) at 2. f_equal.
  induction (String.list_ascii_of_string s) as [|c l IH]; [done|]. cbn [map]. rewrite IH.
  by rewrite Nat2Z.id, ascii_nat_embedding.
Qed.

Lemma to_bytes_of_bytes b : Forall is_byte b -> to_bytes (of_bytes b) = b.
Proof.
  intros Hb. unfold of_bytes, to_bytes. rewrite String.list_ascii_of_string_of_list_ascii.
  induction Hb as [|z b Hz _ IH]; [done|]. cbn [map]. rewrite IH. unfold is_byte in Hz.
  rewrite nat_ascii_embedding by lia. by rewrite Z2Nat.id by lia.
Qed.

(** ** Runes *)

Definition RuneError : Z := 65533.

Definition ValidRune (r : Z) : bool :=
  ((0 <=? r) && (r <? 55296)) || ((57343 <? r) && (r <=? 1114111)).

(** The bytes of a rune, as [utf8.AppendRune] and [WriteRune] give them; what is
    not a valid rune is written as [RuneError]. *)
Definition encode_rune (r : Z) : bytes :=
  let r := if ValidRune r then r else RuneError in
  if r <=? 127 then [r]
  else if r <=? 2047 then [192 + r / 64; 128 + r mod 64]
  else if r <=? 65535 then [224 + r / 4096; 128 + r / 64 mod 64; 128 + r mod 64]
  else [240 + r / 262144; 128 + r / 4096 mod 64; 128 + r / 64 mod 64; 128 + r mod 64].

(** A continuation byte within the bounds of its position. *)
Definition cont (lo hi b : Z) : bool := (lo <=? b) && (b <=? hi).

(** [utf8.DecodeRuneInString]: the rune and its width; a byte that starts no
    valid encoding is [RuneError] of width 1, the empty string of width 0. *)
Definition DecodeRune (s : bytes) : Z * nat :=
  let bad := (RuneError, 1%nat) in
  match s with
  | [] => (RuneError, 0%nat)
  | b0 :: s1 =>
      if b0 <=? 127 then (b0, 1%nat)
      else if (194 <=? b0) && (b0 <=? 223) then
        match s1 with
        | b1 :: _ => if cont 128 191 b1 then ((b0 - 192) * 64 + (b1 - 128), 2%nat) else bad
        | _ => bad
        end
      else if (224 <=? b0) && (b0 <=? 239) then
        let lo := if b0 =? 224 then 160 else 128 in
        let hi := if b0 =? 237 then 159 else 191 in
        match s1 with
        | b1 :: b2 :: _ =>
            if cont lo hi b1 && cont 128 191 b2
            then ((b0 - 224) * 4096 + (b1 - 128) * 64 + (b2 - 128), 3%nat) else bad
        | _ => bad
        end
      else if (240 <=? b0) && (b0 <=? 244) then
        let lo := if b0 =? 240 then 144 else 128 in
        let hi := if b0 =? 244 then 143 else 191 in
        match s1 with
        | b1 :: b2 :: b3 :: _ =>
            if cont lo hi b1 && cont 128 191 b2 && cont 128 191 b3
            then ((b0 - 240) * 262144 + (b1 - 128) * 4096 + (b2 - 128) * 64 + (b3 - 128), 4%nat)
            else bad
        | _ => bad
        end
      else bad
  end.

(** ** Strings as sequences of runes and bad bytes *)

Inductive item : Type :=
  | Rune (r : Z)
  | Bad (b : Z).

#[export] Instance item_eq_dec : EqDecision item.
Proof. solve_decision. Defined.

(** The rune that [range] yields. *)
Definition item_rune (it : item) : Z :=
  match it with Rune r => r | Bad _ => RuneError end.

Definition item_bytes (it : item) : bytes :=
  match it with Rune r => encode_rune r | Bad b => [b] end.

Definition flat (its : list item) : bytes := its ≫= item_bytes.

(** One step of [range] over a string that is not empty.  A width of 1 with
    [RuneError] is a bad byte: the encoding of [RuneError] is 3 bytes wide. *)
Definition first_item (b0 : Z) (s : bytes) : item * nat :=
  match DecodeRune (b0 :: s) with
  | (r, w) => if (r =? RuneError) && (w =? 1)%nat then (Bad b0, 1%nat) else (Rune r, w)
  end.

Fixpoint items_fuel (fuel : nat) (s : bytes) : list item :=
  match fuel, s with
  | S fuel', b0 :: s1 =>
      let '(it, w) := first_item b0 s1 in it :: items_fuel fuel' (drop w s)
  | _, _ => []
  end.

Definition items (s : bytes) : list item := items_fuel (length s) s.

Definition ValidString (s : bytes) : bool :=
  forallb (fun it => match it with Rune _ => true | Bad _ => false end) (items s).

(** ** Encoding and decoding are inverse *)

Lemma ValidRune_spec r : ValidRune r = true <-> 0 <= r < 55296 \/ 57343 < r <= 1114111.
Proof. unfold ValidRune. rewrite orb_true_iff, !andb_true_iff. lia. Qed.

Ltac dm z k :=
  let H1 := fresh in let H2 := fresh in
  pose proof (Z.div_mod z k ltac:(lia)) as H1; pose proof (Z.mod_pos_bound z k ltac:(lia)) as H2.

Ltac tests :=
  repeat match goal with
  | |- context [?a <=? ?b] =>
      first [ rewrite (proj2 (Z.leb_le a b)) by lia | rewrite (proj2 (Z.leb_gt a b)) by lia ]
  end; cbn [andb orb].

Lemma decode_encode r s : ValidRune r = true ->
  DecodeRune (encode_rune r ++ s) = (r, length (encode_rune r)).
Proof.
  intros Hv. unfold encode_rune. rewrite Hv. apply ValidRune_spec in Hv.
  dm r 64. dm (r / 64) 64. dm (r / 4096) 64. dm r 4096. dm r 262144.
  assert (r / 64 / 64 = r / 4096) as E1 by (rewrite Z.div_div by lia; done).
  assert (r / 4096 / 64 = r / 262144) as E2 by (rewrite Z.div_div by lia; done).
  repeat case_if; cbn [app DecodeRune length]; unfold cont.
  - tests. done.
  - tests. f_equal. lia.
  - tests. destruct (224 + r / 4096 =? 224) eqn:Ea, (224 + r / 4096 =? 237) eqn:Eb; breflect; try lia;
      tests; f_equal; lia.
  - tests. destruct (240 + r / 262144 =? 240) eqn:Ea, (240 + r / 262144 =? 244) eqn:Eb; breflect; try lia;
      tests; f_equal; lia.
Qed.

Lemma encode_rune_length r : (1 <= length (encode_rune r) <= 4)%nat.
Proof. unfold encode_rune. repeat case_if; cbn; lia. Qed.

Lemma encode_rune_bytes r : Forall is_byte (encode_rune r).
Proof.
  assert (forall q, ValidRune q = true ->
    Forall is_byte (if q <=? 127 then [q]
      else if q <=? 2047 then [192 + q / 64; 128 + q mod 64]
      else if q <=? 65535 then [224 + q / 4096; 128 + q / 64 mod 64; 128 + q mod 64]
      else [240 + q / 262144; 128 + q / 4096 mod 64; 128 + q / 64 mod 64; 128 + q mod 64])) as H.
  { intros q Hq%ValidRune_spec. dm q 64. dm (q / 64) 64. dm (q / 4096) 64. dm q 4096. dm q 262144.
    repeat case_if; repeat constructor; lia. }
  unfold encode_rune. destruct (ValidRune r) eqn:E; [by apply H|by apply (H RuneError)].
Qed.

(** ASCII bytes stand for themselves only. *)
Lemma encode_rune_low r ch : ValidRune r = true -> ch ∈ encode_rune r -> ch < 128 -> r = ch.
Proof.
  intros Hv Hin Hch. unfold encode_rune in Hin. rewrite Hv in Hin. apply ValidRune_spec in Hv.
  dm r 64. dm (r / 64) 64. dm (r / 4096) 64. dm r 4096. dm r 262144.
  repeat case_if_in Hin; rewrite ?elem_of_cons, elem_of_nil in Hin; lia.
Qed.

(** The value of a decoded encoding, from its digits. *)
Lemma encode_rune_2 a b : 194 <= a <= 223 -> 128 <= b <= 191 ->
  let r := (a - 192) * 64 + (b - 128) in ValidRune r = true /\ encode_rune r = [a; b].
Proof.
  intros Ha Hb r. assert (ValidRune r = true) as Hv by (apply ValidRune_spec; lia).
  split; [done|]. unfold encode_rune. rewrite Hv.
  assert (r / 64 = a - 192 /\ r mod 64 = b - 128) as [-> ->] by (dm r 64; lia).
  tests. f_equal; [lia|]. f_equal. lia.
Qed.

Lemma encode_rune_3 a b c : 224 <= a <= 239 -> 128 <= b <= 191 -> 128 <= c <= 191 ->
  (a = 224 -> 160 <= b) -> (a = 237 -> b <= 159) ->
  let r := (a - 224) * 4096 + (b - 128) * 64 + (c - 128) in
  ValidRune r = true /\ encode_rune r = [a; b; c].
Proof.
  intros Ha Hb Hc H1 H2 r. assert (ValidRune r = true) as Hv by (apply ValidRune_spec; lia).
  split; [done|]. unfold encode_rune. rewrite Hv.
  assert (r / 4096 = a - 224) as -> by (dm r 4096; lia).
  assert (r / 64 = (a - 224) * 64 + (b - 128)) as -> by (dm r 64; lia).
  assert (r mod 64 = c - 128) as -> by (dm r 64; lia).
  assert (((a - 224) * 64 + (b - 128)) mod 64 = b - 128) as -> by
    (dm ((a - 224) * 64 + (b - 128)) 64; lia).
  tests. repeat (f_equal; [lia|]). f_equal. lia.
Qed.

Lemma encode_rune_4 a b c d : 240 <= a <= 244 -> 128 <= b <= 191 -> 128 <= c <= 191 ->
  128 <= d <= 191 -> (a = 240 -> 144 <= b) -> (a = 244 -> b <= 143) ->
  let r := (a - 240) * 262144 + (b - 128) * 4096 + (c - 128) * 64 + (d - 128) in
  ValidRune r = true /\ encode_rune r = [a; b; c; d].
Proof.
  intros Ha Hb Hc Hd H1 H2 r. assert (ValidRune r = true) as Hv by (apply ValidRune_spec; lia).
  split; [done|]. unfold encode_rune. rewrite Hv.
  assert (r / 262144 = a - 240) as -> by (dm r 262144; lia).
  assert (r / 4096 = (a - 240) * 64 + (b - 128)) as -> by (dm r 4096; lia).
  assert (r / 64 = (a - 240) * 4096 + (b - 128) * 64 + (c - 128)) as -> by (dm r 64; lia).
  assert (r mod 64 = d - 128) as -> by (dm r 64; lia).
  assert (((a - 240) * 64 + (b - 128)) mod 64 = b - 128) as -> by
    (dm ((a - 240) * 64 + (b - 128)) 64; lia).
  assert (((a - 240) * 4096 + (b - 128) * 64 + (c - 128)) mod 64 = c - 128) as -> by
    (dm ((a - 240) * 4096 + (b - 128) * 64 + (c - 128)) 64; lia).
  tests. repeat (f_equal; [lia|]). f_equal. lia.
Qed.

Lemma cont_spec lo hi b : cont lo hi b = true <-> lo <= b <= hi.
Proof. unfold cont. rewrite andb_true_iff, !Z.leb_le. done. Qed.

(** What a decoding step takes is the encoding of its rune, or one bad byte. *)
Lemma decode_sound b0 s r w : 0 <= b0 -> DecodeRune (b0 :: s) = (r, w) ->
  (r = RuneError /\ w = 1%nat) \/
  (ValidRune r = true /\ exists s', b0 :: s = encode_rune r ++ s' /\ w = length (encode_rune r)).
Proof.
  intros H0 Hd. unfold DecodeRune in Hd.
  case_if_in Hd.
  { injection Hd as <- <-. right. assert (ValidRune b0 = true) as Hv by (apply ValidRune_spec; lia).
    split; [done|]. exists s. unfold encode_rune. rewrite Hv. tests. done. }
  case_if_in Hd.
  { destruct s as [|b1 s]; [left; by simplify_eq|].
    destruct (cont 128 191 b1) eqn:Ec; [|left; by simplify_eq].
    apply cont_spec in Ec. injection Hd as <- <-. right.
    destruct (encode_rune_2 b0 b1) as [Hv He]; [lia|lia|]. split; [done|]. exists s. by rewrite He. }
  case_if_in Hd.
  { destruct s as [|b1 [|b2 s]]; [left; by simplify_eq..|].
    destruct (cont _ _ b1 && _) eqn:Ec; [|left; by simplify_eq].
    apply andb_true_iff in Ec as [Hb Hc]. apply cont_spec in Hb, Hc. injection Hd as <- <-. right.
    destruct (encode_rune_3 b0 b1 b2) as [Hv He]; [lia|..].
    - destruct (b0 =? 224), (b0 =? 237); lia.
    - lia.
    - intros ->. cbn in Hb. lia.
    - intros ->. cbn in Hb. lia.
    - split; [done|]. exists s. by rewrite He. }
  case_if_in Hd; [|left; by simplify_eq].
  destruct s as [|b1 [|b2 [|b3 s]]]; [left; by simplify_eq..|].
  destruct (cont _ _ b1 && _ && _) eqn:Ec; [|left; by simplify_eq].
  apply andb_true_iff in Ec as [Ec Hd']. apply andb_true_iff in Ec as [Hb Hc].
  apply cont_spec in Hb, Hc, Hd'. injection Hd as <- <-. right.
  destruct (encode_rune_4 b0 b1 b2 b3) as [Hv He]; [lia|..].
  - destruct (b0 =? 240), (b0 =? 244); lia.
  - lia.
  - lia.
  - intros ->. cbn in Hb. lia.
  - intros ->. cbn in Hb. lia.
  - split; [done|]. exists s. by rewrite He.
Qed.

(** ** The decomposition *)

Definition valid_item (it : item) : Prop :=
  match it with Rune r => ValidRune r = true | Bad b => is_byte b end.

(** The first byte of a valid rune is not a continuation byte. *)
Definition is_cont (b : Z) : Prop := 128 <= b <= 191.

Lemma encode_rune_head r : exists b0 s, encode_rune r = b0 :: s /\ ~ is_cont b0 /\ 0 <= b0.
Proof.
  assert (forall q, ValidRune q = true -> exists b0 s, (if q <=? 127 then [q]
      else if q <=? 2047 then [192 + q / 64; 128 + q mod 64]
      else if q <=? 65535 then [224 + q / 4096; 128 + q / 64 mod 64; 128 + q mod 64]
      else [240 + q / 262144; 128 + q / 4096 mod 64; 128 + q / 64 mod 64; 128 + q mod 64]) = b0 :: s /\
      ~ is_cont b0 /\ 0 <= b0) as H.
  { intros q Hq%ValidRune_spec. unfold is_cont. dm q 64. dm q 4096. dm q 262144.
    repeat case_if; (eexists _, _; split; [done|lia]). }
  unfold encode_rune. destruct (ValidRune r) eqn:E; [by apply H|by apply (H RuneError)].
Qed.

Fixpoint canonical (its : list item) : Prop :=
  match its with
  | [] => True
  | Rune r :: its' => ValidRune r = true /\ canonical its'
  | Bad b :: its' => is_byte b /\ DecodeRune (b :: flat its') = (RuneError, 1%nat) /\ canonical its'
  end.

Lemma flat_cons it its : flat (it :: its) = item_bytes it ++ flat its.
Proof. done. Qed.

Lemma flat_app a b : flat (a ++ b) = flat a ++ flat b.
Proof. apply bind_app. Qed.

Lemma canonical_bytes its : canonical its -> Forall is_byte (flat its).
Proof.
  induction its as [|[r|b] its IH]; cbn [canonical]; intros H; [constructor|..].
  - rewrite flat_cons. apply Forall_app. split; [apply encode_rune_bytes|naive_solver].
  - rewrite flat_cons. constructor; naive_solver.
Qed.

Lemma first_item_Rune r s b0 s' : ValidRune r = true -> encode_rune r ++ s = b0 :: s' ->
  first_item b0 s' = (Rune r, length (encode_rune r)).
Proof.
  intros Hv He. unfold first_item. rewrite <- He, decode_encode by done.
  destruct (r =? RuneError) eqn:E; breflect; [|done]. subst r. done.
Qed.

Lemma items_fuel_flat fuel its : canonical its -> (length (flat its) <= fuel)%nat ->
  items_fuel fuel (flat its) = its.
Proof.
  revert fuel. induction its as [|it its IH]; intros fuel Hc Hf; [by destruct fuel|].
  rewrite flat_cons in *. destruct it as [r|b]; cbn [canonical] in Hc.
  - destruct Hc as [Hv Hc]. pose proof (encode_rune_length r) as Hl. cbn [item_bytes] in *.
    rewrite length_app in Hf. destruct fuel as [|fuel]; [lia|].
    destruct (encode_rune r ++ flat its) as [|b0 s'] eqn:He.
    { apply (f_equal length) in He. rewrite length_app in He. cbn in He. lia. }
    cbn [items_fuel]. rewrite (first_item_Rune r (flat its) b0 s') by done. f_equal.
    rewrite <- He, drop_app_length. apply IH; [done|lia].
  - destruct Hc as (Hb & Hd & Hc). cbn [item_bytes app length] in *. destruct fuel as [|fuel]; [lia|].
    cbn [items_fuel]. unfold first_item. rewrite Hd, Z.eqb_refl. cbn [andb Nat.eqb drop]. f_equal.
    apply IH; [done|lia].
Qed.

Lemma items_flat its : canonical its -> items (flat its) = its.
Proof. intros Hc. by apply items_fuel_flat. Qed.

Lemma items_fuel_spec fuel s : Forall is_byte s -> (length s <= fuel)%nat ->
  canonical (items_fuel fuel s) /\ flat (items_fuel fuel s) = s.
Proof.
  revert s. induction fuel as [|fuel IH]; intros s Hs Hf.
  { destruct s; [done|cbn in Hf; lia]. }
  destruct s as [|b0 s]; [done|]. cbn [items_fuel]. unfold first_item.
  inversion Hs as [|?? Hb Hs']; subst.
  destruct (DecodeRune (b0 :: s)) as [r w] eqn:Hd.
  destruct (decode_sound b0 s r w) as [[-> ->]|(Hv & s' & He & ->)]; [unfold is_byte in Hb; lia|done|..].
  - rewrite Z.eqb_refl. cbn [andb Nat.eqb]. change (drop 1 (b0 :: s)) with s. destruct (IH s Hs') as [Hc Hfl]; [cbn in Hf; lia|].
    cbn [canonical]. rewrite flat_cons, Hfl. done.
  - assert ((r =? RuneError) && (length (encode_rune r) =? 1)%nat = false) as ->.
    { destruct (r =? RuneError) eqn:E; breflect; [|done]. by subst r. }
    rewrite He, drop_app_length. pose proof (encode_rune_length r).
    destruct (IH s') as [Hc Hfl].
    + rewrite He in Hs. apply Forall_app in Hs. naive_solver.
    + apply (f_equal length) in He. rewrite length_app in He. lia.
    + cbn [canonical]. rewrite flat_cons, Hfl. done.
Qed.

(** Every byte string has one decomposition. *)
Lemma canonical_items s : Forall is_byte s -> canonical (items s).
Proof. intros Hs. by apply items_fuel_spec. Qed.

Lemma flat_items s : Forall is_byte s -> flat (items s) = s.
Proof. intros Hs. by apply items_fuel_spec. Qed.

(** *** Bad bytes depend on the continuation bytes after them only *)

Fixpoint conts (s : bytes) : bytes :=
  match s with
  | b :: s' => if cont 128 191 b then b :: conts s' else []
  | [] => []
  end.

Lemma cont_weaken lo hi b : 128 <= lo -> hi <= 191 -> cont lo hi b = true -> cont 128 191 b = true.
Proof. rewrite !cont_spec. lia. Qed.

Lemma bad_conts b s :
  DecodeRune (b :: s) = (RuneError, 1%nat) <-> DecodeRune (b :: conts s) = (RuneError, 1%nat).
Proof.
  unfold DecodeRune. case_if; [done|].
  destruct (_ && _) eqn:E2.
  { destruct s as [|b1 s]; [done|]. cbn [conts]. destruct (cont 128 191 b1) eqn:C1; [by rewrite C1|done]. }
  clear E2. destruct (_ && _) eqn:E3.
  { set (lo := if b =? 224 then _ else _). set (hi := if b =? 237 then _ else _).
    assert (128 <= lo /\ hi <= 191) as [Hlo Hhi] by (unfold lo, hi; repeat case_if; lia).
    destruct s as [|b1 s]; [done|]. cbn [conts].
    destruct (cont lo hi b1) eqn:C1.
    - rewrite (cont_weaken _ _ _ Hlo Hhi C1). destruct s as [|b2 s]; [done|]. cbn [conts].
      destruct (cont 128 191 b2) eqn:C2; [by rewrite C1, C2|]. by rewrite andb_false_r.
    - destruct s as [|b2 s]; destruct (cont 128 191 b1); cbn [conts];
        try destruct (cont 128 191 b2); rewrite ?C1; done. }
  clear E3. destruct (_ && _) eqn:E4; [|done].
  set (lo := if b =? 240 then _ else _). set (hi := if b =? 244 then _ else _).
  assert (128 <= lo /\ hi <= 191) as [Hlo Hhi] by (unfold lo, hi; repeat case_if; lia).
  destruct s as [|b1 s]; [done|]. cbn [conts].
  destruct (cont lo hi b1) eqn:C1.
  - rewrite (cont_weaken _ _ _ Hlo Hhi C1). destruct s as [|b2 s]; [done|]. cbn [conts].
    destruct (cont 128 191 b2) eqn:C2.
    + destruct s as [|b3 s]; [done|]. cbn [conts].
      destruct (cont 128 191 b3) eqn:C3; [by rewrite C1, C2, C3|]. by rewrite andb_false_r.
    + destruct s; by rewrite ?andb_false_r.
  - destruct s as [|b2 [|b3 s]]; destruct (cont 128 191 b1); cbn [conts]; try done;
      destruct (cont 128 191 b2); cbn [conts]; try done; try destruct (cont 128 191 b3);
      by rewrite ?C1.
Qed.

(** The bad bytes at the start of a decomposition. *)
Fixpoint lead (its : list item) : bytes :=
  match its with Bad b :: its' => b :: lead its' | _ => [] end.

Lemma conts_flat its : conts (flat its) = conts (lead its).
Proof.
  induction its as [|[r|b] its IH]; [done|..]; rewrite flat_cons; cbn [item_bytes lead].
  - destruct (encode_rune_head r) as (b0 & s & -> & Hc & _). cbn [app conts].
    destruct (cont 128 191 b0) eqn:E; [|done]. by apply cont_spec in E.
  - cbn [app conts]. by rewrite IH.
Qed.

Lemma bad_lead b its :
  DecodeRune (b :: flat its) = (RuneError, 1%nat) <-> DecodeRune (b :: lead its) = (RuneError, 1%nat).
Proof. rewrite bad_conts, conts_flat, <- bad_conts. done. Qed.

(** Valid runes alone are always canonical. *)
Lemma canonical_runes rs : Forall (fun r => ValidRune r = true) rs -> canonical (map Rune rs).
Proof. induction 1; cbn [canonical map]; done. Qed.

Lemma ValidString_items s : ValidString s = true -> exists rs, items s = map Rune rs.
Proof.
  unfold ValidString. induction (items s) as [|[r|b] its IH]; cbn [forallb]; [by exists []|..]; [|done].
  intros H. destruct (IH H) as [rs ->]. by exists (r :: rs).
Qed.

Lemma canonical_Forall its : canonical its -> Forall valid_item its.
Proof. induction its as [|[r|b] its IH]; cbn [canonical]; intros H; constructor; naive_solver. Qed.

(** ** Strings and their bytes *)

Lemma list_ascii_app a b :
  String.list_ascii_of_string (a +:+ b) = String.list_ascii_of_string a ++ String.list_ascii_of_string b.
Proof. induction a as [|c a IH]; [done|]. exact (f_equal (cons c) IH). Qed.

Lemma to_bytes_app a b : to_bytes (a +:+ b) = to_bytes a ++ to_bytes b.
Proof. unfold to_bytes. by rewrite list_ascii_app, map_app. Qed.

Lemma to_bytes_length s : length (to_bytes s) = String.length s.
Proof. unfold to_bytes. rewrite length_map. induction s as [|c s IH]; [done|]. cbn. by rewrite IH. Qed.

Lemma to_bytes_inj a b : to_bytes a = to_bytes b -> a = b.
Proof. intros H. by rewrite <- (of_bytes_to_bytes a), H, of_bytes_to_bytes. Qed.

Lemma has_slash s : GoPath.has_char GoPath.slash s = false <-> 47 ∉ to_bytes s.
Proof.
  unfold to_bytes. induction s as [|c s IH]; [split; [intros _; apply not_elem_of_nil|done]|].
  cbn [GoPath.has_char String.list_ascii_of_string map]. rewrite orb_false_iff, IH, not_elem_of_cons. split; intros [Hc Hs]; (split; [|done]).
  - intros E. apply Ascii.eqb_neq in Hc. apply Hc. rewrite <- (ascii_nat_embedding c). change GoPath.slash with (ascii_of_nat 47). f_equal. lia.
  - apply Ascii.eqb_neq. intros ->. done.
Qed.

(** ** The runes of a string *)

Definition runes (s : string) : list Z := map item_rune (items (to_bytes s)).

Lemma lead_app_rune its r its' : lead (its ++ Rune r :: its') = lead its.
Proof. induction its as [|[q|b] its IH]; cbn [app lead]; [done..|]. by rewrite IH. Qed.

Lemma canonical_app_rune its r its' : canonical its -> canonical (Rune r :: its') -> canonical (its ++ Rune r :: its').
Proof.
  intros Ha Hb. induction its as [|[q|b] its IH]; cbn [app canonical] in *; [done|naive_solver|].
  destruct Ha as (Hbyte & Hd & Ha). split_and!; [done| |by apply IH]. by rewrite bad_lead, lead_app_rune, <- bad_lead.
Qed.

(** An ASCII character splits a string into parts that do not depend on each other. *)
Lemma items_ascii a c b : Forall is_byte a -> Forall is_byte b -> 0 <= c < 128 -> items (a ++ c :: b) = items a ++ Rune c :: items b.
Proof.
  intros Ha Hb Hc.
  assert (flat (items a ++ Rune c :: items b) = a ++ c :: b) as Hf.
  { rewrite flat_app, flat_cons, !flat_items by done. f_equal. cbn [item_bytes]. unfold encode_rune.
    assert (ValidRune c = true) as -> by (apply ValidRune_spec; lia). by destruct (c <=? 127) eqn:E; breflect; [|lia]. }
  rewrite <- Hf. apply items_flat. apply canonical_app_rune; [by apply canonical_items|]. cbn [canonical].
  split; [apply ValidRune_spec; lia|by apply canonical_items].
Qed.

Lemma runes_ascii a c b : (nat_of_ascii c < 128)%nat ->
  runes (a +:+ String c b) = runes a ++ Z.of_nat (nat_of_ascii c) :: runes b.
Proof.
  intros Hc. unfold runes. rewrite to_bytes_app. change (to_bytes (String c b)) with (Z.of_nat (nat_of_ascii c) :: to_bytes b).
  rewrite items_ascii by (apply to_bytes_is_byte || lia). by rewrite map_app.
Qed.


Lemma canonical_before_rune its r its' : canonical (its ++ Rune r :: its') -> canonical its /\ canonical its'.
Proof.
  induction its as [|[q|b] its IH]; cbn [app canonical]; [naive_solver|naive_solver|]. intros (Hb & Hd & Hc).
  destruct (IH Hc) as [H1 H2]. split_and!; [done| |done|done]. by rewrite bad_lead, lead_app_rune, <- bad_lead in Hd.
Qed.

(** The runes before and after an ASCII character are those of the strings before and after it. *)
Lemma runes_split s A c B : runes s = A ++ c :: B -> 0 <= c < 128 ->
  exists a b, s = a +:+ String (ascii_of_nat (Z.to_nat c)) b /\ runes a = A /\ runes b = B.
Proof.
  unfold runes. intros H Hc. apply map_eq_app in H as (its1 & its2 & Hi & <- & H). apply map_eq_cons in H as (it & its3 & -> & Hr & <-).
  assert (it = Rune c) as ->. { destruct it as [r|b]; cbn in Hr; [by subst|unfold RuneError in Hr; lia]. }
  pose proof (to_bytes_is_byte s) as Hb. pose proof (canonical_items _ Hb) as Hcan. rewrite Hi in Hcan.
  destruct (canonical_before_rune _ _ _ Hcan) as [H1 H3]. pose proof (flat_items _ Hb) as Hf. rewrite Hi, flat_app, flat_cons in Hf.
  assert (item_bytes (Rune c) = [c]) as Hc'.
  { cbn [item_bytes]. unfold encode_rune. assert (ValidRune c = true) as -> by (apply ValidRune_spec; lia). by destruct (c <=? 127) eqn:E; breflect; [|lia]. }
  rewrite Hc' in Hf. pose proof (canonical_bytes _ H1) as B1. pose proof (canonical_bytes _ H3) as B3.
  exists (of_bytes (flat its1)), (of_bytes (flat its3)). split_and!.
  - apply to_bytes_inj. rewrite to_bytes_app, to_bytes_of_bytes by done. rewrite <- Hf. f_equal.
    change (to_bytes (String ?a ?b)) with (Z.of_nat (nat_of_ascii a) :: to_bytes b). rewrite to_bytes_of_bytes by done.
    rewrite nat_ascii_embedding, Z2Nat.id by lia. done.
  - by rewrite to_bytes_of_bytes, items_flat.
  - by rewrite to_bytes_of_bytes, items_flat.
Qed.

Lemma runes_cons c b : (nat_of_ascii c < 128)%nat -> runes (String c b) = Z.of_nat (nat_of_ascii c) :: runes b.
Proof. intros Hc. exact (runes_ascii "" c b Hc). Qed.

Lemma runes_nil s : runes s = [] -> s = "".
Proof.
  unfold runes. intros H%map_eq_nil. apply to_bytes_inj. rewrite <- (flat_items (to_bytes s)) by apply to_bytes_is_byte. by rewrite H.
Qed.

End Utf8.
