(* ===== verification/Streams.v ===== *)
(** * Streams of bytes: Go's slices and readers, lib/readers/readfill.go

    Slices with their bounds, calls that may panic, an [io.Reader] with its
    short reads, [ReadFill], and what it means that a handle is a reader of
    given bytes.  The encrypter, the decrypter and the reader that reopens
    itself are all shown to be [Reads]. *)
From S2P Require Import Prelude Utf8.

Module Streams.
Import Utf8.

(** ** Slices *)

(** [len(b)], [b[:k]] and [b[k:]] for a [k] within the slice. *)
Definition zlen (b : bytes) : Z := Z.of_nat (length b).

Definition ztake (k : Z) (b : bytes) : bytes := take (Z.to_nat k) b.

Definition zdrop (k : Z) (b : bytes) : bytes := drop (Z.to_nat k) b.

(** [copy(dst, src)]: as many bytes as both hold. *)
Definition copy (dst src : bytes) : bytes :=
  take (length dst) src ++ drop (length src) dst.

(** A call returns or panics. *)
Inductive outcome (A : Type) : Type :=
  | Ret (a : A)
  | Panic.
Arguments Ret {A} a.
Arguments Panic {A}.

(** ** Slices that may panic *)

Definition obind {A B} (m : outcome A) (f : A -> outcome B) : outcome B :=
  match m with Ret a => f a | Panic => Panic end.

Notation "'let!' x := m 'in' k" := (obind m (fun x => k))
  (at level 10, x pattern, m at level 100, k at level 200, only parsing).

(** Dereferencing a pointer that may be nil. *)
Definition deref {A} (p : option A) : outcome A :=
  match p with Some a => Ret a | None => Panic end.

(** [b[lo:hi]] *)
Definition slice (b : bytes) (lo hi : Z) : outcome bytes :=
  if (0 <=? lo) && (lo <=? hi) && (hi <=? zlen b) then Ret (ztake (hi - lo) (zdrop lo b))
  else Panic.

(** A buffer whose first bytes are replaced. *)
Definition overwrite (buf b : bytes) : bytes := b ++ drop (length b) buf.

(** ** The streams below *)

(** An [io.Reader]: the bytes it still gives and the error that follows them.
    [sched] says how each call behaves, if it says anything: at most so many
    bytes, and whether the error comes with the last bytes or alone. *)
Record stream (E : Type) : Type := mkStream {
  s_data : bytes;
  s_err : E;
  s_sched : list (nat * bool) }.
Arguments mkStream {E} s_data s_err s_sched.
Arguments s_data {E} s.
Arguments s_err {E} s.
Arguments s_sched {E} s.

Definition s_Read {E} (s : stream E) (k : nat) : stream E * bytes * option E :=
  let '(ev, sched) := match s_sched s with
                      | [] => ((k, false), [])
                      | ev :: sched => (ev, sched)
                      end in
  let out := take (Nat.min (fst ev) k) (s_data s) in
  let rest := drop (Nat.min (fst ev) k) (s_data s) in
  let e := match rest with
           | [] => if snd ev || (length out =? 0)%nat then Some (s_err s) else None
           | _ :: _ => None
           end in
  (mkStream rest (s_err s) sched, out, e).

(** [readers.ReadFill]: read until the buffer of [k] bytes is full or there is
    an error.  [s_sched] bounds the number of short reads; a buffer is filled
    by two more calls at most. *)
Fixpoint ReadFill_loop {E} (fuel : nat) (s : stream E) (k : nat) (acc : bytes)
    : stream E * bytes * option E :=
  match fuel with
  | O => (s, acc, None)
  | S fuel' =>
      if (length acc <? k)%nat then
        let '(s', out, e) := s_Read s (k - length acc) in
        match e with
        | None => ReadFill_loop fuel' s' k (acc ++ out)
        | Some e => (s', acc ++ out, Some e)
        end
      else (s, acc, None)
  end.

Definition ReadFill {E} (s : stream E) (k : Z) : stream E * bytes * option E :=
  ReadFill_loop (3 + length (s_sched s)) s (Z.to_nat k) [].

(** ** Reading to the end *)

(** A caller that reads with buffers of the given sizes until there is an
    error: the bytes it got and the error. *)
Fixpoint drain {H E} (read : H -> Z -> outcome (H * bytes * option E)) (sizes : list Z)
    (fh : H) : outcome (H * bytes * option E) :=
  match sizes with
  | [] => Ret (fh, [], None)
  | k :: ks =>
      let! (fh, out, e) := read fh k in
      match e with
      | Some e => Ret (fh, out, Some e)
      | None => let! (fh, out', e) := drain read ks fh in Ret (fh, out ++ out', e)
      end
  end.

(** ** Lengths *)

Lemma zlen_nonneg b : 0 <= zlen b.
Proof. unfold zlen. lia. Qed.

Lemma zlen_app a b : zlen (a ++ b) = zlen a + zlen b.
Proof. unfold zlen. rewrite length_app. lia. Qed.

Lemma zlen_ztake k b : zlen (ztake k b) = Z.min (Z.max 0 k) (zlen b).
Proof. unfold zlen, ztake. rewrite length_take. lia. Qed.

Lemma zlen_zdrop k b : zlen (zdrop k b) = zlen b - Z.min (Z.max 0 k) (zlen b).
Proof. unfold zlen, zdrop. rewrite length_drop. lia. Qed.

Lemma zlen_0 b : zlen b = 0 <-> b = [].
Proof. unfold zlen. split; [|by intros ->]. destruct b; [done|]. simpl. lia. Qed.

Lemma zlen_pos b : b <> [] <-> 0 < zlen b.
Proof. unfold zlen. destruct b; cbn [length]; split; [done|lia|lia|done]. Qed.

Lemma ztake_zdrop k b : ztake k b ++ zdrop k b = b.
Proof. apply take_drop. Qed.

Lemma ztake_nil k : ztake k [] = [].
Proof. apply take_nil. Qed.

Lemma zdrop_0 b : zdrop 0 b = b.
Proof. done. Qed.

Lemma ztake_all k b : zlen b <= k -> ztake k b = b.
Proof. intros ?. apply take_ge. unfold zlen in *. lia. Qed.

Lemma zdrop_all k b : zlen b <= k -> zdrop k b = [].
Proof. intros ?. apply drop_ge. unfold zlen in *. lia. Qed.

Lemma ztake_app_le k a b : k <= zlen a -> ztake k (a ++ b) = ztake k a.
Proof. intros ?. apply take_app_le. unfold zlen in *. lia. Qed.

Lemma ztake_app_eq a b : ztake (zlen a) (a ++ b) = a.
Proof. apply take_app_length'. unfold zlen. lia. Qed.

Lemma zdrop_app_eq a b : zdrop (zlen a) (a ++ b) = b.
Proof. apply drop_app_length'. unfold zlen. lia. Qed.

Lemma ztake_ge_app k a b : zlen a <= k -> ztake k (a ++ b) = a ++ ztake (k - zlen a) b.
Proof.
  intros H. unfold ztake. rewrite take_app_ge by (unfold zlen in *; lia).
  do 2 f_equal. unfold zlen. lia.
Qed.

Lemma zdrop_ge_app k a b : zlen a <= k -> zdrop k (a ++ b) = zdrop (k - zlen a) b.
Proof.
  intros H. unfold zdrop. rewrite drop_app_ge by (unfold zlen in *; lia).
  f_equal. unfold zlen. lia.
Qed.

Lemma zdrop_le_app k a b : k <= zlen a -> zdrop k (a ++ b) = zdrop k a ++ b.
Proof. intros ?. apply drop_app_le. unfold zlen in *. lia. Qed.

Lemma zdrop_zdrop j k b : 0 <= j -> 0 <= k -> zdrop j (zdrop k b) = zdrop (k + j) b.
Proof. intros ??. unfold zdrop. rewrite drop_drop. f_equal. lia. Qed.

Lemma ztake_ztake j k b : ztake j (ztake k b) = ztake (Z.min j k) b.
Proof. unfold ztake. rewrite take_take. f_equal. lia. Qed.

Lemma zlen_overwrite buf b : zlen b <= zlen buf -> zlen (overwrite buf b) = zlen buf.
Proof. unfold zlen, overwrite. intros ?. rewrite length_app, length_drop. lia. Qed.

Lemma zlen_replicate n x : zlen (replicate n x) = Z.of_nat n.
Proof. unfold zlen. by rewrite length_replicate. Qed.

(** Taking the first bytes of a window of a buffer leaves a smaller window. *)
Lemma window_split b lo hi k : 0 <= lo -> 0 <= k ->
  ztake (hi - lo) (zdrop lo b) =
  ztake k (ztake (hi - lo) (zdrop lo b)) ++
  ztake (hi - (lo + zlen (ztake k (ztake (hi - lo) (zdrop lo b)))))
    (zdrop (lo + zlen (ztake k (ztake (hi - lo) (zdrop lo b)))) b).
Proof.
  intros Hlo Hk. set (w := ztake (hi - lo) (zdrop lo b)).
  rewrite <- (ztake_zdrop k w) at 1. f_equal.
  assert (zdrop k w = zdrop (zlen (ztake k w)) w) as ->.
  { unfold zdrop, ztake, zlen. rewrite length_take.
    destruct (decide (Z.to_nat k <= length w)%nat); [by rewrite Nat.min_l, Nat2Z.id by lia|].
    rewrite !drop_ge by lia. done. }
  assert (0 <= zlen (ztake k w)) as Hj by apply zlen_nonneg.
  revert Hj. generalize (zlen (ztake k w)) as j. intros j Hj. unfold w.
  rewrite <- zdrop_zdrop by lia. unfold ztake. unfold zdrop at 1 3.
  rewrite skipn_firstn_comm. f_equal. lia.
Qed.

Lemma slice_ok b lo hi : 0 <= lo -> lo <= hi -> hi <= zlen b ->
  slice b lo hi = Ret (ztake (hi - lo) (zdrop lo b)).
Proof.
  intros ???. unfold slice.
  by rewrite (proj2 (Z.leb_le 0 lo)), (proj2 (Z.leb_le lo hi)), (proj2 (Z.leb_le hi _)) by lia.
Qed.

Create Rewrite HintDb zlen.
#[export] Hint Rewrite zlen_app zlen_ztake zlen_zdrop : zlen.

(** What is known of the lengths in sight, and [lia]. *)
Ltac zlen_facts := autorewrite with zlen in *;
  repeat match goal with
  | |- context [zlen ?b] => lazymatch goal with
      | _ : 0 <= zlen b |- _ => fail
      | _ => pose proof (zlen_nonneg b) end
  | _ : context [zlen ?b] |- _ => lazymatch goal with
      | _ : 0 <= zlen b |- _ => fail
      | _ => pose proof (zlen_nonneg b) end
  end.

Ltac zlen := zlen_facts; lia.

(** ** [ReadFill] does not depend on how the stream cuts the data up *)

(** What a call that fills a buffer of [k] bytes may answer. *)
Definition filled {E} (s : stream E) (k : nat) (s' : stream E) (e : option E) : Prop :=
  s_data s' = drop k (s_data s) /\ s_err s' = s_err s /\
  (e = None \/ e = Some (s_err s)) /\
  (length (s_data s) < k -> e = Some (s_err s))%nat /\
  (k < length (s_data s) -> e = None)%nat.

(** The calls that are still needed: one for each planned read, one to take
    the rest, one to meet the error, one to see that the buffer is full. *)
Definition calls {E} (s : stream E) (k : nat) : nat :=
  (length (s_sched s) + (if decide (k = 0) then 0 else if decide (s_data s = []) then 1 else 2))%nat.

(** One call gives the next bytes, or the error behind the last of them, and
    is one of the calls that were needed. *)
Lemma s_Read_spec {E} (s : stream E) k : (0 < k)%nat ->
  let '(s', out, e) := s_Read s k in
  s_data s = out ++ s_data s' /\ s_err s' = s_err s /\ (length out <= k)%nat /\
  match e with
  | None => (calls s' (k - length out) < calls s k)%nat
  | Some e => e = s_err s /\ s_data s' = []
  end.
Proof.
  intros Hk. unfold s_Read, calls. destruct s as [data err sched]. cbn [s_data s_err s_sched].
  destruct (match sched with [] => _ | _ => _ end) as [ev sched'] eqn:Hev. set (j := Nat.min ev.1 k).
  assert (length (take j data) <= k)%nat as Hl by (rewrite length_take; lia).
  cbn [s_data s_err s_sched]. split; [by rewrite take_drop|]. split; [done|]. split; [done|].
  destruct (drop j data) as [|y rest] eqn:Hrest; cbn [s_data s_sched].
  - assert (length data <= j)%nat as Hj.
    { pose proof (length_drop data j) as H. rewrite Hrest in H. cbn in H. lia. }
    rewrite (take_ge data j) in * by done. case_if; [done|].
    destruct data as [|x data]; [by destruct ev.2|].
    destruct sched; simplify_eq/=; repeat case_decide; lia.
  - assert (length (take j data) = j) as Hj.
    { apply length_take_le. pose proof (length_drop data j) as H. rewrite Hrest in H. cbn in H. lia. }
    assert (data <> []) as Hd by (intros ->; by rewrite drop_nil in Hrest).
    rewrite Hj. destruct sched; simplify_eq/=; rewrite ?Nat.min_id in *; repeat case_decide; (done || lia).
Qed.

Lemma ReadFill_loop_spec {E} fuel (s : stream E) k acc :
  (length acc <= k)%nat -> (calls s (k - length acc) < fuel)%nat ->
  exists s' e, ReadFill_loop fuel s k acc = (s', acc ++ take (k - length acc) (s_data s), e) /\
    filled s (k - length acc) s' e.
Proof.
  revert s acc. induction fuel as [|fuel IH]; intros s acc Hacc Hfuel; [lia|].
  cbn [ReadFill_loop]. case_if.
  2:{ replace (k - length acc)%nat with 0%nat by lia. rewrite take_0, app_nil_r.
      exists s, None. split; [done|]. split_and!; auto; lia. }
  unfold s_Read. destruct s as [data err sched]. unfold filled, calls in *. cbn [s_sched s_data s_err] in *.
  remember (k - length acc)%nat as k' eqn:Hk'.
  destruct (match sched with [] => _ | _ => _ end) as [ev sched'] eqn:Hev.
  set (j := Nat.min ev.1 k').
  assert (length (take j data) <= k')%nat by (rewrite length_take; lia).
  destruct (drop j data) as [|y rest] eqn:Hrest.
  - (* all the data was taken *)
    assert (length data <= j)%nat.
    { pose proof (length_drop data j) as Hl. rewrite Hrest in Hl. cbn in Hl. lia. }
    rewrite (take_ge data j), (take_ge data k'), (drop_ge data k') by lia.
    case_if.
    { do 2 eexists. split; [done|]. cbn. split_and!; auto; lia. }
    destruct (IH (mkStream [] err sched') (acc ++ data)) as (s' & e & -> & Hf).
    { rewrite length_app. lia. }
    { cbn. rewrite length_app. destruct (decide (data = [])) as [->|]; [by cbn in *|].
      destruct sched; simplify_eq/=; repeat case_decide; lia. }
    exists s', e. unfold filled in Hf. cbn [s_data s_err] in *.
    rewrite drop_nil in Hf. rewrite take_nil, app_nil_r.
    split; [done|]. destruct Hf as (?&?&?&Hlt&?). split_and!; auto; [|lia].
    intros ?. apply Hlt. rewrite length_app. cbn. lia.
  - (* there is more *)
    assert (j < length data)%nat.
    { pose proof (length_drop data j) as Hl. rewrite Hrest in Hl. cbn in Hl. lia. }
    destruct (IH (mkStream (y :: rest) err sched') (acc ++ take j data)) as (s' & e & -> & Hf).
    { rewrite length_app. lia. }
    { cbn. rewrite length_app, length_take. destruct sched; simplify_eq/=; repeat case_decide;
        try lia. all: destruct data; simplify_eq/=; lia. }
    exists s', e. unfold filled in Hf. cbn [s_data s_err] in *.
    rewrite <- Hrest, length_app, length_take, length_drop in Hf.
    rewrite <- Hrest, length_app, length_take.
    rewrite Nat.min_l in * by lia.
    replace (k - (length acc + j))%nat with (k' - j)%nat in * by lia.
    rewrite drop_drop in Hf. replace (j + (k' - j))%nat with k' in Hf by lia.
    split.
    { rewrite <- app_assoc. do 3 f_equal.
      rewrite take_drop_commute. replace (j + (k' - j))%nat with k' by lia.
      transitivity (take j (take k' data) ++ drop j (take k' data)); [|apply take_drop].
      by rewrite take_take, Nat.min_l by lia. }
    destruct Hf as (?&?&?&Hlt&Hgt). split_and!; auto; intros ?; [apply Hlt|apply Hgt]; lia.
Qed.

Lemma ReadFill_spec {E} (s : stream E) k : 0 <= k -> exists s' e,
  ReadFill s k = (s', ztake k (s_data s), e) /\ filled s (Z.to_nat k) s' e.
Proof.
  intros Hk. unfold ReadFill.
  destruct (ReadFill_loop_spec (3 + length (s_sched s)) s (Z.to_nat k) []) as (s' & e & -> & Hf).
  - cbn. lia.
  - unfold calls. repeat case_decide; lia.
  - cbn [length app] in *. rewrite Nat.sub_0_r in *. by exists s', e.
Qed.

(** ** Readers and what is left to read

    [Reads read inv rest]: a reader whose state satisfies [inv] still has the
    bytes and the final error of [rest] to give, and every call makes progress
    towards that. *)
Class Reads {H E} (read : H -> Z -> outcome (H * bytes * option E)) (inv : H -> Prop)
    (rest : H -> bytes * E) : Prop :=
  Reads_step fh k : inv fh -> 0 < k -> exists fh' out e,
    read fh k = Ret (fh', out, e) /\ inv fh' /\
    match e with
    | None => out <> [] /\ rest fh = (out ++ fst (rest fh'), snd (rest fh'))
    | Some e => rest fh = (out, e)
    end.

(** A caller with enough buffers gets exactly what is left. *)
Lemma drain_spec {H E} (read : H -> Z -> outcome (H * bytes * option E)) inv rest `{HR : !Reads read inv rest} sizes fh :
  inv fh -> Forall (fun k => 0 < k) sizes -> zlen (fst (rest fh)) < Z.of_nat (length sizes) ->
  exists fh', drain read sizes fh = Ret (fh', fst (rest fh), Some (snd (rest fh))) /\ inv fh'.
Proof.
  revert fh. induction sizes as [|k ks IH]; intros fh Hinv Hks Hlen; [cbn in Hlen; zlen|].
  inversion Hks as [|?? Hk Hks']; subst. cbn [drain].
  destruct (Reads_step fh k Hinv Hk) as (fh1 & out & e & -> & Hinv1 & Hstep). cbn [obind].
  destruct e as [e|].
  { rewrite Hstep. by exists fh1. }
  destruct Hstep as [Hout Hrest]. rewrite Hrest in *. cbn [fst snd] in *.
  apply zlen_pos in Hout.
  destruct (IH fh1) as (fh' & -> & Hinv'); [done|done|cbn [length] in Hlen; zlen|].
  by exists fh'.
Qed.

End Streams.
