(* ===== verification/CryptData.v ===== *)
(** * Encryption of file contents: backend/crypt/cipher.go, the data half

    An encrypted file is a header (the magic and a nonce of 24 bytes) followed
    by blocks of at most 64 KiB of data, each sealed under the nonce plus its
    number.  The encrypter and the decrypter are readers that work a block at a
    time; the decrypter can also seek, which moves the nonce by the number of
    blocks and throws away the start of the first one.

    Here are the keys, the nonce with its carries, the two readers with their
    buffers, errors and limit, the seek and the arithmetic of sizes.  The two
    readers are shown to compute [encrypt_file] and [decrypt_file], which say
    in a line what the format is, for every way the streams below cut the data
    up and every size of buffer the caller reads with. *)
From S2P Require Import Prelude Utf8 Streams.

Module CryptData.
Import Utf8 Streams.

(** ** Constants *)

Definition fileMagicBytes : bytes := [82; 67; 76; 79; 78; 69; 0; 0].

Definition fileMagicSize : Z := 8.
Definition fileNonceSize : Z := 24.
Definition fileHeaderSize : Z := fileMagicSize + fileNonceSize.
Definition blockHeaderSize : Z := 16.
Definition blockDataSize : Z := 64 * 1024.
Definition blockSize : Z := blockHeaderSize + blockDataSize.

Definition defaultSalt : bytes :=
  [168; 13; 244; 58; 143; 189; 3; 8; 167; 202; 184; 62; 88; 31; 134; 177].

Inductive error : Type :=
  | EOF
  | ErrorEncryptedFileTooShort
  | ErrorEncryptedFileBadHeader
  | ErrorEncryptedBadMagic
  | ErrorEncryptedBadBlock
  | ErrorFileClosed
  | ErrorBadSeek
  | ErrorNotInitialised          (* can't seek - not initialised with newDecrypterSeek *)
  | ErrorWhence                  (* can only seek from the start *)
  | ErrorReopen (e : error)      (* couldn't reopen file with offset and limit: %w *)
  | ErrorShortNonce (e : error)  (* short read of nonce: %w *)
  | ErrorShortNonceNil           (* the same around a nil error *)
  | ErrorOther (code : Z).

#[export] Instance error_eq_dec : EqDecision error.
Proof.
  unfold EqDecision, Decision. decide equality; apply Z.eq_dec.
Defined.

Definition is_EOF (e : error) : bool := bool_decide (e = EOF).

Inductive NameEncryptionMode : Type :=
  | NameEncryptionOff
  | NameEncryptionStandard
  | NameEncryptionObfuscated.

#[export] Instance NameEncryptionMode_eq_dec : EqDecision NameEncryptionMode.
Proof. solve_decision. Defined.

(** The fields of a cipher that hold data; the pool of buffers, the source of
    random numbers and the encoding of names are arguments below. *)
Record Cipher : Type := mkCipher {
  dataKey : bytes;
  nameKey : bytes;
  nameTweak : bytes;
  mode : NameEncryptionMode;
  dirNameEncrypt : bool;
  passBadBlocks : bool;
  encryptedSuffix : string }.

(** ** Keys *)

(** The key material as [scrypt.Key] derives it, or zeros for the empty
    password, cut into the three keys. *)
Definition Key (scrypt_Key : string -> bytes -> Z -> error + bytes) (c : Cipher)
    (password : string) (salt : bytes) : error + Cipher :=
  let keySize := zlen (dataKey c) + zlen (nameKey c) + zlen (nameTweak c) in
  let saltBytes := if decide (salt = []) then defaultSalt else salt in
  let set (key : bytes) :=
    inr (mkCipher (copy (dataKey c) key)
           (copy (nameKey c) (zdrop (zlen (dataKey c)) key))
           (copy (nameTweak c) (zdrop (zlen (dataKey c) + zlen (nameKey c)) key))
           (mode c) (dirNameEncrypt c) (passBadBlocks c) (encryptedSuffix c)) in
  if decide (password = "") then set (replicate (Z.to_nat keySize) 0)
  else match scrypt_Key password saltBytes keySize with
       | inl e => inl e
       | inr key => set key
       end.

Definition newCipher (scrypt_Key : string -> bytes -> Z -> error + bytes)
    (m : NameEncryptionMode) (password : string) (salt : bytes) (dirEnc : bool)
    : error + Cipher :=
  Key scrypt_Key
    (mkCipher (replicate 32 0) (replicate 32 0) (replicate 16 0) m dirEnc false ".bin")
    password salt.

Definition setPassBadBlocks (c : Cipher) (pass : bool) : Cipher :=
  mkCipher (dataKey c) (nameKey c) (nameTweak c) (mode c) (dirNameEncrypt c) pass
    (encryptedSuffix c).

(** ** The nonce: 24 bytes, least significant first *)

Abbreviation nonce := (list Z).

(** [carry] from position [i], as recursion on the bytes from there on: stop
    when the incremented byte did not wrap. *)
Fixpoint carry_from (n : nonce) : nonce :=
  match n with
  | [] => []
  | digit :: rest =>
      let newDigit := (digit + 1) mod 256 in
      if digit <=? newDigit then newDigit :: rest else newDigit :: carry_from rest
  end.

Definition carry (n : nonce) (i : nat) : nonce := take i n ++ carry_from (drop i n).

Definition increment (n : nonce) : nonce := carry n 0.

(** The loop of [add] over [k] digits, with [carry] a uint16; its result is
    the new digits and the carry. *)
Fixpoint add_loop (k : nat) (n : nonce) (x c : Z) : nonce * Z :=
  match k, n with
  | S k', digit :: rest =>
      let xDigit := x mod 256 in
      let c := (c + (digit + xDigit)) mod 2 ^ 16 in
      let '(rest', c') := add_loop k' rest (Z.shiftr x 8) (Z.shiftr c 8) in
      (c mod 256 :: rest', c')
  | _, _ => (n, c)
  end.

Definition add (n : nonce) (x : Z) : nonce :=
  let '(n', c) := add_loop 8 n x 0 in
  if negb (c =? 0) then carry n' 8 else n'.

(** ** The streams below *)

Abbreviation stream := (Streams.stream error).

(** An [io.ReadCloser]: its stream, how it seeks if it is an [fs.RangeSeeker],
    and whether it was closed. *)
Record ReadCloser : Type := mkRC {
  rc_stream : stream;
  rc_RangeSeek : option (Z -> Z -> error + stream);
  rc_closeErr : option error;
  rc_closed : bool }.

Definition rc_set_stream (r : ReadCloser) (s : stream) : ReadCloser :=
  mkRC s (rc_RangeSeek r) (rc_closeErr r) (rc_closed r).

Definition rc_Close (r : ReadCloser) : ReadCloser * option error :=
  (mkRC (rc_stream r) (rc_RangeSeek r) (rc_closeErr r) true, rc_closeErr r).

Abbreviation OpenRangeSeek := (Z -> Z -> error + ReadCloser).

(** [nonce.fromReader]: 24 bytes or an error. *)
Definition fromReader (rand : stream) : stream * (error + nonce) :=
  let '(rand', out, e) := ReadFill rand fileNonceSize in
  if negb (zlen out =? fileNonceSize) then (rand', inl (from_option ErrorShortNonce ErrorShortNonceNil e))
  else (rand', inr out).

(** [nonce.fromBuf] panics on a short buffer. *)
Definition fromBuf (buf : bytes) : outcome nonce :=
  if zlen (ztake fileNonceSize buf) =? fileNonceSize then Ret (ztake fileNonceSize buf)
  else Panic.

(** ** secretbox

    [golang.org/x/crypto/nacl/secretbox] is another project's code; what the
    cipher relies on is its documented interface: sealing adds [Overhead]
    bytes, opening what was sealed under the same nonce and key gives it back,
    and what opens was [Overhead] bytes longer than what it held. *)
Class Secretbox : Type := {
  Seal : bytes -> nonce -> bytes -> bytes;
  Open : bytes -> nonce -> bytes -> option bytes;
  Seal_length m n k : zlen (Seal m n k) = zlen m + blockHeaderSize;
  Open_Seal m n k : Open (Seal m n k) n k = Some m;
  Open_length b n k m : Open b n k = Some m -> zlen b = zlen m + blockHeaderSize }.

(** ** Sizes *)

Definition EncryptedSize (size : Z) : Z :=
  let blocks := Z.quot size blockDataSize in
  let residue := Z.rem size blockDataSize in
  let encryptedSize := i64 (fileHeaderSize + i64 (blocks * (blockHeaderSize + blockDataSize))) in
  if negb (residue =? 0) then i64 (encryptedSize + (blockHeaderSize + residue))
  else encryptedSize.

Definition DecryptedSize (size : Z) : error + Z :=
  let size := i64 (size - fileHeaderSize) in
  if size <? 0 then inl ErrorEncryptedFileTooShort
  else
    let blocks := Z.quot size blockSize in
    let residue := Z.rem size blockSize in
    let decryptedSize := i64 (blocks * blockDataSize) in
    if negb (residue =? 0) then
      let residue := residue - blockHeaderSize in
      if residue <=? 0 then inl ErrorEncryptedFileBadHeader
      else inr (i64 (decryptedSize + residue))
    else inr (i64 (decryptedSize + residue)).

(** [calculateUnderlying]: underlyingOffset, underlyingLimit, discard, blocks. *)
Definition calculateUnderlying (offset limit : Z) : Z * Z * Z * Z :=
  let blocks := Z.quot offset blockDataSize in
  let discard := Z.rem offset blockDataSize in
  let underlyingOffset :=
    i64 (fileHeaderSize + i64 (blocks * (blockHeaderSize + blockDataSize))) in
  let underlyingLimit :=
    if limit >=? 0 then
      let bytesToRead := i64 (limit - (blockDataSize - discard)) in
      let blocksToRead :=
        if bytesToRead >? 0 then
          let extraBlocksToRead := Z.quot bytesToRead blockDataSize in
          let endBytes := Z.rem bytesToRead blockDataSize in
          1 + (if negb (endBytes =? 0) then extraBlocksToRead + 1 else extraBlocksToRead)
        else 1 in
      i64 (blocksToRead * (blockHeaderSize + blockDataSize))
    else -1 in
  (underlyingOffset, underlyingLimit, discard, blocks).

Section cipher.
Context {SB : Secretbox}.
Variable c : Cipher.

(** What [getBlock] hands out: a buffer of [blockSize] bytes that holds
    whatever its last user left in it. *)
Variable getBlock : bytes.

(** ** The encrypter *)

Record encrypter : Type := mkEncrypter {
  e_in : stream;
  e_nonce : nonce;
  e_buf : option bytes;
  e_readBuf : option bytes;
  e_bufIndex : Z;
  e_bufSize : Z;
  e_err : option error }.

Definition newEncrypter (input : stream) (n : option nonce) (cryptoRand : stream)
    : error + encrypter :=
  let mk (n : nonce) :=
    let buf := copy getBlock fileMagicBytes in
    let buf := ztake fileMagicSize buf ++ copy (zdrop fileMagicSize buf) n in
    inr (mkEncrypter input n (Some buf) (Some getBlock) 0 fileHeaderSize None) in
  match n with
  | Some n => mk n
  | None =>
      match fromReader cryptoRand with
      | (_, inl e) => inl e
      | (_, inr n) => mk n
      end
  end.

(** [finish] returns the error that the call of [Read] returns. *)
Definition e_finish (fh : encrypter) (err : option error) : encrypter * option error :=
  match e_err fh with
  | Some e => (fh, Some e)
  | None =>
      (mkEncrypter (e_in fh) (e_nonce fh) None None (e_bufIndex fh) (e_bufSize fh) err, err)
  end.

(** The copy at the end of [Read] into a slice of [k] bytes. *)
Definition e_copy_out (fh : encrypter) (k : Z) : outcome (encrypter * bytes * option error) :=
  let! buf := deref (e_buf fh) in
  let! src := slice buf (e_bufIndex fh) (e_bufSize fh) in
  let out := ztake k src in
  Ret (mkEncrypter (e_in fh) (e_nonce fh) (e_buf fh) (e_readBuf fh)
         (e_bufIndex fh + zlen out) (e_bufSize fh) (e_err fh), out, None).

Definition e_Read (fh : encrypter) (k : Z) : outcome (encrypter * bytes * option error) :=
  match e_err fh with
  | Some e => Ret (fh, [], Some e)
  | None =>
      if e_bufIndex fh >=? e_bufSize fh then
        let! readBuf := deref (e_readBuf fh) in
        let '(input, data, err) := ReadFill (e_in fh) blockDataSize in
        let fh := mkEncrypter input (e_nonce fh) (e_buf fh) (Some (overwrite readBuf data))
                    (e_bufIndex fh) (e_bufSize fh) (e_err fh) in
        if zlen data =? 0 then let '(fh, err) := e_finish fh err in Ret (fh, [], err)
        else
          let! buf := deref (e_buf fh) in
          let box := Seal data (e_nonce fh) (dataKey c) in
          e_copy_out (mkEncrypter (e_in fh) (increment (e_nonce fh))
                        (Some (overwrite buf box)) (e_readBuf fh)
                        0 (blockHeaderSize + zlen data) (e_err fh)) k
      else e_copy_out fh k
  end.

(** ** The decrypter *)

Record decrypter : Type := mkDecrypter {
  d_rc : option ReadCloser;
  d_nonce : nonce;
  d_initialNonce : nonce;
  d_buf : option bytes;
  d_readBuf : option bytes;
  d_bufIndex : Z;
  d_bufSize : Z;
  d_err : option error;
  d_limit : Z;
  d_open : option OpenRangeSeek }.

Definition d_finish (fh : decrypter) (err : error) : decrypter * error :=
  match d_err fh with
  | Some e => (fh, e)
  | None =>
      (mkDecrypter (d_rc fh) (d_nonce fh) (d_initialNonce fh) None None (d_bufIndex fh)
         (d_bufSize fh) (Some err) (d_limit fh) (d_open fh), err)
  end.

Definition unFinish (fh : decrypter) : decrypter :=
  mkDecrypter (d_rc fh) (d_nonce fh) (d_initialNonce fh) (Some getBlock) (Some getBlock)
    0 0 None (d_limit fh) (d_open fh).

Definition d_Close (fh : decrypter) : decrypter * option error :=
  if decide (d_err fh = Some ErrorFileClosed) then (fh, d_err fh)
  else
    let fh := match d_err fh with None => fst (d_finish fh EOF) | Some _ => fh end in
    let set (rc : option ReadCloser) :=
      mkDecrypter rc (d_nonce fh) (d_initialNonce fh) (d_buf fh) (d_readBuf fh)
        (d_bufIndex fh) (d_bufSize fh) (Some ErrorFileClosed) (d_limit fh) (d_open fh) in
    match d_rc fh with
    | None => (set None, None)
    | Some rc => let '(rc, e) := rc_Close rc in (set (Some rc), e)
    end.

Definition finishAndClose (fh : decrypter) (err : error) : decrypter * error :=
  (fst (d_Close (fst (d_finish fh err))), err).

(** [newDecrypter]: the error comes with the handle that is dropped, which
    shows what became of the stream. *)
Definition newDecrypter (rc : ReadCloser) : outcome ((decrypter * error) + decrypter) :=
  let '(s, data, err) := ReadFill (rc_stream rc) fileHeaderSize in
  let readBuf := overwrite getBlock data in
  let fh := mkDecrypter (Some (rc_set_stream rc s)) (replicate 24 0) (replicate 24 0)
              (Some getBlock) (Some readBuf) 0 0 None (-1) None in
  if (zlen data <? fileHeaderSize) && bool_decide (err = Some EOF) then
    Ret (inl (finishAndClose fh ErrorEncryptedFileTooShort))
  else if bool_decide (err <> Some EOF /\ err <> None) then
    Ret (inl (finishAndClose fh (default EOF err)))
  else if negb (bool_decide (ztake fileMagicSize readBuf = fileMagicBytes)) then
    Ret (inl (finishAndClose fh ErrorEncryptedBadMagic))
  else
    let! n := fromBuf (zdrop fileMagicSize (ztake fileHeaderSize readBuf)) in
    Ret (inr (mkDecrypter (d_rc fh) n n (d_buf fh) (d_readBuf fh) 0 0 None (-1) None)).

(** The stream and the read buffer after [ReadFill]. *)
Definition d_set_read (fh : decrypter) (rc : ReadCloser) (readBuf : bytes) : decrypter :=
  mkDecrypter (Some rc) (d_nonce fh) (d_initialNonce fh) (d_buf fh) (Some readBuf)
    (d_bufIndex fh) (d_bufSize fh) (d_err fh) (d_limit fh) (d_open fh).

(** The end of [fillBuffer]: a block of [n] bytes was opened into the buffer. *)
Definition d_keep (fh : decrypter) (buf : bytes) (n : Z) : decrypter :=
  mkDecrypter (d_rc fh) (increment (d_nonce fh)) (d_initialNonce fh) (Some buf)
    (d_readBuf fh) 0 (n - blockHeaderSize) (d_err fh) (d_limit fh) (d_open fh).

(** [fillBuffer]: read and open the next block. *)
Definition fillBuffer (fh : decrypter) : outcome (decrypter * option error) :=
  let! readBuf := deref (d_readBuf fh) in
  let! rc := deref (d_rc fh) in
  let '(s, data, err) := ReadFill (rc_stream rc) (zlen readBuf) in
  let fh := d_set_read fh (rc_set_stream rc s) (overwrite readBuf data) in
  let n := zlen data in
  if n =? 0 then Ret (fh, err)
  else
    (* a pending error is likely more accurate *)
    let fail (e' : error) :=
      Ret (fh, Some (if bool_decide (err <> None /\ err <> Some EOF) then default e' err
                     else e')) in
    if n <=? blockHeaderSize then fail ErrorEncryptedFileBadHeader
    else
      let! buf := deref (d_buf fh) in
      match Open data (d_nonce fh) (dataKey c) with
      | Some m => Ret (d_keep fh (overwrite buf m) n, None)
      | None =>
          if bool_decide (err <> None /\ err <> Some EOF) || negb (passBadBlocks c)
          then fail ErrorEncryptedBadBlock
          else
            let! zeroed := slice buf 0 n in
            Ret (d_keep fh (overwrite buf (replicate (length zeroed) 0)) n, None)
      end.

(** The copy at the end of [Read] into a slice of [k] bytes. *)
Definition d_copy_out (fh : decrypter) (k : Z) : outcome (decrypter * bytes * option error) :=
  let toCopy := d_bufSize fh - d_bufIndex fh in
  let toCopy := if (d_limit fh >=? 0) && (d_limit fh <? toCopy) then d_limit fh else toCopy in
  let! buf := deref (d_buf fh) in
  let! src := slice buf (d_bufIndex fh) (d_bufIndex fh + toCopy) in
  let out := ztake k src in
  let n := zlen out in
  let set (limit : Z) :=
    mkDecrypter (d_rc fh) (d_nonce fh) (d_initialNonce fh) (d_buf fh) (d_readBuf fh)
      (d_bufIndex fh + n) (d_bufSize fh) (d_err fh) limit (d_open fh) in
  if d_limit fh >=? 0 then
    let fh := set (d_limit fh - n) in
    if d_limit fh =? 0 then let '(fh, e) := d_finish fh EOF in Ret (fh, out, Some e)
    else Ret (fh, out, None)
  else Ret (set (d_limit fh), out, None).

Definition d_Read (fh : decrypter) (k : Z) : outcome (decrypter * bytes * option error) :=
  match d_err fh with
  | Some e => Ret (fh, [], Some e)
  | None =>
      let! (fh, err) := if d_bufIndex fh >=? d_bufSize fh then fillBuffer fh
                        else Ret (fh, None) in
      match err with
      | Some e => let '(fh, e) := d_finish fh e in Ret (fh, [], Some e)
      | None => d_copy_out fh k
      end
  end.

(** [RangeSeek]; [whence] is 0 for [io.SeekStart]. *)
Definition d_RangeSeek (fh : decrypter) (offset whence limit : Z)
    : outcome (decrypter * (error + Z)) :=
  let stop (r : decrypter * error) := Ret (fst r, inl (snd r)) in
  match d_open fh with
  | None => stop (d_finish fh ErrorNotInitialised)
  | Some open =>
      if negb (whence =? 0) then stop (d_finish fh ErrorWhence)
      else if bool_decide (d_err fh <> None /\ d_err fh <> Some EOF) then
        Ret (fh, inl (default EOF (d_err fh)))
      else
        let fh := match d_err fh with Some _ => unFinish fh | None => fh end in
        let '(underlyingOffset, underlyingLimit, discard, blocks) :=
          calculateUnderlying offset limit in
        let set (rc : option ReadCloser) :=
          mkDecrypter rc (add (d_initialNonce fh) (blocks mod 2 ^ 64)) (d_initialNonce fh)
            (d_buf fh) (d_readBuf fh) (d_bufIndex fh) (d_bufSize fh) (d_err fh) (d_limit fh)
            (d_open fh) in
        let! rc := deref (d_rc fh) in
        let moved :=
          match rc_RangeSeek rc with
          | Some seek =>
              match seek underlyingOffset underlyingLimit with
              | inl e => inl (set (Some rc), e)
              | inr s => inr (set (Some (rc_set_stream rc s)))
              end
          | None =>
              match open underlyingOffset underlyingLimit with
              | inl e => inl (set None, ErrorReopen e)
              | inr rc => inr (set (Some rc))
              end
          end in
        match moved with
        | inl (fh, e) => stop (d_finish fh e)
        | inr fh =>
            let! (fh, err) := fillBuffer fh in
            match err with
            | Some e => stop (d_finish fh e)
            | None =>
                if d_bufSize fh <? discard then stop (d_finish fh ErrorBadSeek)
                else Ret (mkDecrypter (d_rc fh) (d_nonce fh) (d_initialNonce fh) (d_buf fh)
                            (d_readBuf fh) discard (d_bufSize fh) (d_err fh) limit (d_open fh),
                          inr offset)
            end
        end
  end.

Definition d_Seek (fh : decrypter) (offset whence : Z) : outcome (decrypter * (error + Z)) :=
  d_RangeSeek fh offset whence (-1).

Definition d_set_open (fh : decrypter) (open : OpenRangeSeek) : decrypter :=
  mkDecrypter (d_rc fh) (d_nonce fh) (d_initialNonce fh) (d_buf fh) (d_readBuf fh)
    (d_bufIndex fh) (d_bufSize fh) (d_err fh) (d_limit fh) (Some open).

Definition d_set_limit (fh : decrypter) (limit : Z) : decrypter :=
  mkDecrypter (d_rc fh) (d_nonce fh) (d_initialNonce fh) (d_buf fh) (d_readBuf fh)
    (d_bufIndex fh) (d_bufSize fh) (d_err fh) limit (d_open fh).

(** [newDecrypterSeek]: open the whole file, the header and as much as the
    limit needs, or only the header when it is to seek. *)
Definition newDecrypterSeek (open : OpenRangeSeek) (offset limit : Z)
    : outcome (error + decrypter) :=
  let '(opened, doRangeSeek, setLimit) :=
    if (offset =? 0) && (limit <? 0) then (open 0 (-1), false, false)
    else if offset =? 0 then
      let '(_, underlyingLimit, _, _) := calculateUnderlying offset limit in
      (open 0 (i64 (fileHeaderSize + underlyingLimit)), false, true)
    else (open 0 fileHeaderSize, true, false) in
  match opened with
  | inl e => Ret (inl e)
  | inr rc =>
      let! r := newDecrypter rc in
      match r with
      | inl (_, e) => Ret (inl e)
      | inr fh =>
          let fh := d_set_open fh open in
          let! (fh, err) :=
            if doRangeSeek then
              let! (fh, r) := d_RangeSeek fh offset 0 limit in
              match r with
              | inl e => Ret (fst (d_Close fh), Some e)
              | inr _ => Ret (fh, None)
              end
            else Ret (fh, None) in
          match err with
          | Some e => Ret (inl e)
          | None => Ret (inr (if setLimit then d_set_limit fh limit else fh))
          end
      end
  end.

End cipher.

(** ** What the format is *)

Section format.
Context {SB : Secretbox}.
Variable c : Cipher.

(** The sealed blocks of [data], the first under the nonce [n]. *)
Fixpoint encrypt_blocks (fuel : nat) (n : nonce) (data : bytes) : bytes :=
  match fuel, data with
  | S fuel', _ :: _ =>
      Seal (ztake blockDataSize data) n (dataKey c) ++
      encrypt_blocks fuel' (increment n) (zdrop blockDataSize data)
  | _, _ => []
  end.

Definition encrypt_file (n : nonce) (data : bytes) : bytes :=
  fileMagicBytes ++ n ++ encrypt_blocks (length data) n data.

(** The data of a sequence of blocks and the error at its end. *)
Fixpoint decrypt_blocks (fuel : nat) (n : nonce) (content : bytes) : bytes * error :=
  match fuel, content with
  | S fuel', _ :: _ =>
      let box := ztake blockSize content in
      let rest := decrypt_blocks fuel' (increment n) (zdrop blockSize content) in
      if zlen box <=? blockHeaderSize then ([], ErrorEncryptedFileBadHeader)
      else match Open box n (dataKey c) with
           | Some m => (m ++ fst rest, snd rest)
           | None =>
               if passBadBlocks c
               then (replicate (Z.to_nat (zlen box - blockHeaderSize)) 0 ++ fst rest, snd rest)
               else ([], ErrorEncryptedBadBlock)
           end
  | _, _ => ([], EOF)
  end.

Definition decrypt_file (content : bytes) : bytes * error :=
  if zlen content <? fileHeaderSize then ([], ErrorEncryptedFileTooShort)
  else if negb (bool_decide (ztake fileMagicSize content = fileMagicBytes))
  then ([], ErrorEncryptedBadMagic)
  else decrypt_blocks (length content)
         (zdrop fileMagicSize (ztake fileHeaderSize content)) (zdrop fileHeaderSize content).

End format.

(** Arithmetic over lengths, with the sizes of the format. *)
Ltac zlen := zlen_facts;
  unfold fileHeaderSize, fileMagicSize, fileNonceSize, blockSize, blockHeaderSize,
    blockDataSize in *; lia.

Section specs.
Context {SB : Secretbox}.
Variable c : Cipher.

(** *** The blocks, without fuel *)

Lemma encrypt_blocks_fuel f1 f2 n data : (length data <= f1)%nat -> (length data <= f2)%nat ->
  encrypt_blocks c f1 n data = encrypt_blocks c f2 n data.
Proof.
  revert f2 n data. induction f1 as [|f1 IH]; intros f2 n data H1 H2.
  { destruct data; [by destruct f2|cbn in H1; lia]. }
  destruct data as [|x data]; [by destruct f2|]. destruct f2 as [|f2]; [cbn in H2; lia|].
  cbn [encrypt_blocks]. f_equal.
  assert (length (zdrop blockDataSize (x :: data)) <= length data)%nat.
  { unfold zdrop. rewrite length_drop. cbn [length]. unfold blockDataSize. lia. }
  cbn [length] in *. apply IH; lia.
Qed.

Definition enc (n : nonce) (data : bytes) : bytes := encrypt_blocks c (length data) n data.

Lemma enc_cons n data : data <> [] ->
  enc n data = Seal (ztake blockDataSize data) n (dataKey c) ++
               enc (increment n) (zdrop blockDataSize data).
Proof.
  intros Hd. unfold enc at 1. destruct data as [|x data]; [done|]. cbn [length encrypt_blocks].
  f_equal. apply encrypt_blocks_fuel; [|done].
  unfold zdrop. rewrite length_drop. cbn [length]. unfold blockDataSize. lia.
Qed.

Lemma decrypt_blocks_fuel f1 f2 n content :
  (length content <= f1)%nat -> (length content <= f2)%nat ->
  decrypt_blocks c f1 n content = decrypt_blocks c f2 n content.
Proof.
  revert f2 n content. induction f1 as [|f1 IH]; intros f2 n data H1 H2.
  { destruct data; [by destruct f2|cbn in H1; lia]. }
  destruct data as [|x data]; [by destruct f2|]. destruct f2 as [|f2]; [cbn in H2; lia|].
  cbn [decrypt_blocks].
  assert (length (zdrop blockSize (x :: data)) <= length data)%nat.
  { unfold zdrop. rewrite length_drop. cbn [length]. unfold blockSize, blockDataSize, blockHeaderSize. lia. }
  cbn [length] in *. by rewrite (IH f2) by lia.
Qed.

Definition dec (n : nonce) (content : bytes) : bytes * error :=
  decrypt_blocks c (length content) n content.

(** The contents of one block as the decrypter delivers them. *)
Definition open_block (n : nonce) (box : bytes) : error + bytes :=
  if zlen box <=? blockHeaderSize then inl ErrorEncryptedFileBadHeader
  else match Open box n (dataKey c) with
       | Some m => inr m
       | None => if passBadBlocks c
                 then inr (replicate (Z.to_nat (zlen box - blockHeaderSize)) 0)
                 else inl ErrorEncryptedBadBlock
       end.

Lemma dec_cons n content : content <> [] ->
  dec n content =
  match open_block n (ztake blockSize content) with
  | inl e => ([], e)
  | inr m => (m ++ fst (dec (increment n) (zdrop blockSize content)),
              snd (dec (increment n) (zdrop blockSize content)))
  end.
Proof.
  intros Hd. unfold dec at 1. destruct content as [|x data]; [done|].
  cbn [length decrypt_blocks]. unfold open_block, dec.
  rewrite (decrypt_blocks_fuel (length data) (length (zdrop blockSize (x :: data)))); [|clear..].
  - case_if; [done|]. destruct (Open _ _ _); [done|]. by destruct (passBadBlocks c).
  - unfold zdrop. rewrite length_drop. cbn [length].
    unfold blockSize, blockHeaderSize, blockDataSize. lia.
  - done.
Qed.

(** A block that opens is not empty and fits a buffer. *)
Lemma open_block_length n box m :
  open_block n box = inr m -> zlen m = zlen box - blockHeaderSize /\ 0 < zlen m.
Proof.
  unfold open_block. case_if; [done|]. destruct (Open _ _ _) as [m'|] eqn:EO.
  - intros [= ->]. apply Open_length in EO. zlen.
  - case_if; [|done]. intros [= <-]. rewrite zlen_replicate. zlen.
Qed.

(** *** The encrypter *)

Definition e_inv (fh : encrypter) : Prop :=
  match e_err fh with
  | Some _ => True
  | None => exists buf rbuf, e_buf fh = Some buf /\ e_readBuf fh = Some rbuf /\
      zlen buf = blockSize /\ zlen rbuf = blockSize /\
      0 <= e_bufIndex fh <= e_bufSize fh /\ e_bufSize fh <= blockSize
  end.

(** What an encrypter still has to give. *)
Definition e_rest (fh : encrypter) : bytes * error :=
  match e_err fh with
  | Some e => ([], e)
  | None =>
      (ztake (e_bufSize fh - e_bufIndex fh) (zdrop (e_bufIndex fh) (default [] (e_buf fh))) ++
         enc (e_nonce fh) (s_data (e_in fh)),
       s_err (e_in fh))
  end.

Lemma e_copy_out_spec fh k : e_inv fh -> e_err fh = None -> e_bufIndex fh < e_bufSize fh ->
  0 < k -> exists fh' out, e_copy_out fh k = Ret (fh', out, None) /\ e_inv fh' /\
    out <> [] /\ e_rest fh = (out ++ fst (e_rest fh'), snd (e_rest fh')).
Proof.
  unfold e_inv, e_rest, e_copy_out. intros Hinv Herr Hlt Hk. rewrite Herr in *.
  destruct Hinv as (buf & rbuf & -> & -> & Hb & Hr & Hi & Hs). cbn [deref obind].
  rewrite slice_ok by lia. cbn [obind].
  do 2 eexists. split; [done|]. cbn [e_err e_buf e_readBuf e_bufIndex e_bufSize e_nonce e_in].
  split_and!.
  - exists buf, rbuf. split_and!; try done; zlen.
  - apply zlen_pos. zlen.
  - cbn [fst snd default from_option id]. f_equal. rewrite app_assoc. f_equal.
    apply window_split; lia.
Qed.

#[global] Instance e_Reads : Reads (e_Read c) e_inv e_rest.
Proof.
  intros fh k Hinv Hk. unfold e_Read. destruct (e_err fh) as [e|] eqn:Herr.
  { exists fh, [], (Some e). split_and!; [done|done|]. unfold e_rest. by rewrite Herr. }
  case_if.
  2:{ destruct (e_copy_out_spec fh k Hinv Herr) as (fh' & out & -> & ?); [lia|done|].
      by exists fh', out, None. }
  unfold e_inv in Hinv. rewrite Herr in Hinv.
  destruct Hinv as (buf & rbuf & Hbuf & -> & Hb & Hr & Hi & Hs). cbn [deref obind].
  destruct (ReadFill_spec (e_in fh) blockDataSize) as (s & e & -> & Hf); [done|].
  destruct Hf as (Hdata & Hserr & He & Hlt & _).
  assert (e_rest fh = (enc (e_nonce fh) (s_data (e_in fh)), s_err (e_in fh))) as ->.
  { unfold e_rest. rewrite Herr, Hbuf. cbn [default from_option id].
    by replace (e_bufSize fh - e_bufIndex fh) with 0 by lia. }
  case_if.
  - (* the end of the input *)
    assert (s_data (e_in fh) = []) as Hnil by (apply zlen_0; zlen).
    unfold e_finish. cbn [e_err].
    rewrite Hlt by (rewrite Hnil; cbn; unfold blockDataSize; lia).
    do 3 eexists. split; [done|]. split; [done|]. by rewrite Hnil.
  - (* one more block *)
    assert (s_data (e_in fh) <> []) as Hne.
    { intros Hnil. rewrite Hnil in *. by cbn in *. }
    cbn [e_buf e_in e_nonce e_readBuf e_err]. rewrite Hbuf. cbn [deref obind].
    set (data := ztake blockDataSize (s_data (e_in fh))) in *.
    set (fh1 := mkEncrypter _ _ _ _ _ _ _).
    assert (zlen data <= blockDataSize) as Hdl by (unfold data; zlen).
    pose proof (Seal_length data (e_nonce fh) (dataKey c)) as Hsl.
    assert (e_inv fh1) as Hinv1.
    { unfold e_inv, fh1. cbn [e_err e_buf e_readBuf e_bufIndex e_bufSize].
      do 2 eexists. split_and!; [done|done| | | | |]; rewrite ?zlen_overwrite by zlen; zlen. }
    destruct (e_copy_out_spec fh1 k) as (fh' & out & -> & Hinv' & Hout & Hrest);
      [done|done|cbn; zlen|done|].
    exists fh', out, None. split_and!; [done|done|done|]. rewrite <- Hrest. clear Hrest.
    unfold e_rest, fh1. cbn [e_err e_buf e_readBuf e_bufIndex e_bufSize e_in e_nonce].
    rewrite Hserr, Hdata, enc_cons by done. cbn [default from_option id].
    f_equal. f_equal. rewrite zdrop_0. unfold overwrite.
    replace (_ + zlen data - 0) with (zlen (Seal data (e_nonce fh) (dataKey c))) by zlen.
    by rewrite ztake_app_eq.
Qed.

(** *** The decrypter *)

Definition d_inv (fh : decrypter) : Prop :=
  match d_err fh with
  | Some e => d_rc fh = None -> e <> EOF
  | None => exists rc buf rbuf, d_rc fh = Some rc /\ d_buf fh = Some buf /\
      d_readBuf fh = Some rbuf /\ zlen buf = blockSize /\ zlen rbuf = blockSize /\
      0 <= d_bufIndex fh <= d_bufSize fh /\ d_bufSize fh <= blockDataSize
  end.

(** The stream below the handle. *)
Definition d_stream (fh : decrypter) : stream :=
  match d_rc fh with Some rc => rc_stream rc | None => mkStream [] EOF [] end.

(** The bytes in the buffer that were not delivered yet. *)
Definition d_window (fh : decrypter) : bytes :=
  ztake (d_bufSize fh - d_bufIndex fh) (zdrop (d_bufIndex fh) (default [] (d_buf fh))).

(** What a call of [fillBuffer] on an open handle leaves: an error, or a block
    in the buffer; [dec] of the stream says which. *)
Definition block_filled (fh fh' : decrypter) (e : option error) : Prop :=
  d_inv fh' /\ d_err fh' = None /\ d_limit fh' = d_limit fh /\
  d_initialNonce fh' = d_initialNonce fh /\ d_open fh' = d_open fh /\
  rc_RangeSeek <$> d_rc fh' = rc_RangeSeek <$> d_rc fh /\
  s_err (d_stream fh') = s_err (d_stream fh) /\
  (e = None -> d_bufIndex fh' = 0 /\ 0 < d_bufSize fh' /\ d_rc fh' <> None /\
     open_block (d_nonce fh) (ztake blockSize (s_data (d_stream fh))) = inr (d_window fh')) /\
  (s_err (d_stream fh) = EOF ->
   let before := dec (d_nonce fh) (s_data (d_stream fh)) in
   let after := dec (d_nonce fh') (s_data (d_stream fh')) in
   match e with
   | Some e => before = ([], e)
   | None => before = (d_window fh' ++ fst after, snd after)
   end).

Lemma d_keep_spec fh rc s rbuf buf m :
  let data := s_data (d_stream fh) in
  let box := ztake blockSize data in
  d_inv fh -> d_err fh = None -> d_rc fh = Some rc -> zlen rbuf = blockSize ->
  zlen buf = blockSize -> s_data s = zdrop blockSize data -> s_err s = s_err (d_stream fh) ->
  data <> [] -> open_block (d_nonce fh) box = inr m -> ztake (zlen m) buf = m ->
  block_filled fh (d_keep (d_set_read fh (rc_set_stream rc s) rbuf) buf (zlen box)) None.
Proof.
  intros data box Hinv Herr Hrc Hr Hb Hdata Hserr Hne Hopen Htake.
  destruct (open_block_length _ _ _ Hopen) as [Hlen Hpos].
  assert (zlen box <= blockSize) by (unfold box; zlen).
  unfold block_filled, d_keep, d_set_read, d_inv, d_window, d_stream. cbn.
  split_and!; try done.
  - rewrite Herr. do 3 eexists. split_and!; try done; zlen.
  - by rewrite Hrc.
  - intros _. split_and!; [done|zlen|done|]. fold (d_stream fh). fold data. fold box.
    by rewrite Hopen, Z.sub_0_r, <- Hlen, zdrop_0, Htake.
  - intros _. fold (d_stream fh). fold data. rewrite dec_cons by done. fold box.
    rewrite Hopen, Hdata, Z.sub_0_r, <- Hlen, zdrop_0, Htake. done.
Qed.

(** [fillBuffer] on an open handle does not panic. *)
Lemma fillBuffer_spec fh : d_inv fh -> d_err fh = None ->
  exists fh' e, fillBuffer c fh = Ret (fh', e) /\ block_filled fh fh' e.
Proof.
  intros Hinv Herr. pose proof Hinv as Hinv0. unfold d_inv in Hinv. rewrite Herr in Hinv.
  destruct Hinv as (rc & buf & rbuf & Hrc & Hbuf & Hrbuf & Hb & Hr & Hi & Hs).
  assert (d_stream fh = rc_stream rc) as Hst by (unfold d_stream; by rewrite Hrc).
  unfold fillBuffer. rewrite Hrbuf, Hrc. cbn [deref obind].
  destruct (ReadFill_spec (rc_stream rc) (zlen rbuf)) as (s & e & -> & Hf); [zlen|].
  destruct Hf as (Hdata & Hserr & He & Hlt & Hgt). rewrite Hr, <- Hst in *.
  set (box := ztake blockSize (s_data (d_stream fh))) in *.
  assert (zlen box <= blockSize) as Hbox by (unfold box; zlen).
  assert (zlen (overwrite rbuf box) = blockSize) as Hrb by (rewrite zlen_overwrite; lia).
  set (fh1 := d_set_read _ _ _).
  (* a call that ends with an error *)
  assert (forall e', (s_err (d_stream fh) = EOF ->
            dec (d_nonce fh) (s_data (d_stream fh)) = ([], e')) ->
            block_filled fh fh1 (Some e')) as Hfail.
  { intros e' He'. unfold block_filled. split_and!; try done.
    - unfold d_inv, fh1. cbn. rewrite Herr. exists (rc_set_stream rc s), buf, (overwrite rbuf box).
      split_and!; done || lia.
    - cbn. by rewrite Hrc. }
  case_if.
  { assert (s_data (d_stream fh) = []) as Hnil by (apply zlen_0; unfold box in *; zlen).
    rewrite Hlt by (rewrite Hnil; cbn; unfold blockSize, blockHeaderSize, blockDataSize; lia).
    do 2 eexists. split; [done|]. apply Hfail. by rewrite Hnil; intros ->. }
  assert (s_data (d_stream fh) <> []) as Hne.
  { intros Hnil. unfold box in *. rewrite Hnil in *. by cbn in *. }
  assert (s_err (d_stream fh) = EOF -> bool_decide (e <> None /\ e <> Some EOF) = false) as Hpend.
  { intros HE. apply bool_decide_eq_false_2. rewrite HE in He. destruct He; intros []; congruence. }
  pose proof (dec_cons (d_nonce fh) _ Hne) as Hdec. fold box in Hdec. unfold open_block in Hdec.
  revert Hdec. case_if; intros Hdec.
  { do 2 eexists. split; [done|]. apply Hfail. intros HE. by rewrite Hdec, Hpend. }
  cbn [d_buf fh1 d_set_read]. rewrite Hbuf. cbn [deref obind].
  cbn [d_nonce fh1 d_set_read].
  destruct (Open box (d_nonce fh) (dataKey c)) as [m|] eqn:EO.
  { do 2 eexists. split; [done|]. apply Open_length in EO as Hm.
    apply d_keep_spec with (m := m); try done.
    - rewrite zlen_overwrite; zlen.
    - unfold open_block. fold box. rewrite EO. case_if; breflect; [lia|done].
    - unfold overwrite. by rewrite ztake_app_eq. }
  destruct (bool_decide _ || negb _) eqn:Ebad.
  { do 2 eexists. split; [done|]. apply Hfail. intros HE. rewrite Hdec, Hpend by done.
    rewrite Hpend in Ebad by done. by apply negb_true_iff in Ebad as ->. }
  apply orb_false_iff in Ebad as [_ Epass%negb_false_iff]. rewrite slice_ok by zlen. cbn [obind]. rewrite zdrop_0, Z.sub_0_r.
  set (zs := replicate _ 0).
  assert (zlen zs = zlen box) as Hzs.
  { unfold zs. rewrite zlen_replicate. fold (zlen (ztake (zlen box) buf)). zlen. }
  do 2 eexists. split; [done|].
  apply d_keep_spec with (m := replicate (Z.to_nat (zlen box - blockHeaderSize)) 0); try done.
  - rewrite zlen_overwrite; lia.
  - unfold open_block. fold box. rewrite EO, Epass. case_if; breflect; [lia|done].
  - rewrite zlen_replicate. unfold overwrite. rewrite ztake_app_le by (unfold blockHeaderSize in *; lia).
    unfold ztake, zs. rewrite take_replicate. f_equal.
    unfold zs in Hzs. rewrite zlen_replicate in Hzs. unfold blockHeaderSize in *. lia.
Qed.

(** What a limit leaves of the data: at the limit the handle reports EOF. *)
Definition cut (limit : Z) (r : bytes * error) : bytes * error :=
  if (0 <=? limit) && (limit <=? zlen (fst r)) && negb (zlen (fst r) =? 0)
  then (ztake limit (fst r), EOF) else r.

Definition d_all (fh : decrypter) : bytes * error :=
  let r := dec (d_nonce fh) (s_data (d_stream fh)) in (d_window fh ++ fst r, snd r).

(** What a decrypter still has to give. *)
Definition d_rest (fh : decrypter) : bytes * error :=
  match d_err fh with
  | Some e => ([], e)
  | None => cut (d_limit fh) (d_all fh)
  end.

(** The handle is sound and its stream ends with EOF, not with an error. *)
Definition d_live (fh : decrypter) : Prop :=
  d_inv fh /\ (d_err fh = None -> s_err (d_stream fh) = EOF).

Lemma cut_app limit out d e :
  (limit < 0 \/ zlen out < limit) ->
  cut limit (out ++ d, e) =
    (out ++ fst (cut (if 0 <=? limit then limit - zlen out else limit) (d, e)),
     snd (cut (if 0 <=? limit then limit - zlen out else limit) (d, e))).
Proof.
  intros H. unfold cut. cbn [fst snd]. rewrite zlen_app.
  pose proof (zlen_nonneg out). pose proof (zlen_nonneg d).
  destruct (0 <=? limit) eqn:E0; breflect.
  2:{ by rewrite (proj2 (Z.leb_gt 0 limit)) by lia. }
  rewrite (proj2 (Z.leb_le 0 (limit - zlen out))) by lia. cbn [andb].
  destruct (limit <=? zlen out + zlen d) eqn:E1; breflect.
  - rewrite (proj2 (Z.leb_le (limit - zlen out) (zlen d))) by lia.
    rewrite (proj2 (Z.eqb_neq (zlen out + zlen d) 0)), (proj2 (Z.eqb_neq (zlen d) 0)) by lia.
    cbn. by rewrite ztake_ge_app by lia.
  - by rewrite (proj2 (Z.leb_gt (limit - zlen out) (zlen d))) by lia.
Qed.

Lemma d_copy_out_spec fh k : d_inv fh -> d_err fh = None -> d_bufIndex fh < d_bufSize fh ->
  0 < k -> exists fh' out e, d_copy_out fh k = Ret (fh', out, e) /\ d_inv fh' /\
    d_stream fh' = d_stream fh /\
    match e with
    | None => out <> [] /\ d_rest fh = (out ++ fst (d_rest fh'), snd (d_rest fh'))
    | Some e => d_rest fh = (out, e)
    end.
Proof.
  intros Hinv Herr Hlt Hk. unfold d_inv in Hinv. rewrite Herr in Hinv.
  destruct Hinv as (rc & buf & rbuf & Hrc & Hbuf & Hrbuf & Hb & Hr & Hi & Hs).
  unfold d_copy_out. rewrite Hbuf. cbn [deref obind].
  set (toCopy := if _ : bool then _ else _).
  assert (toCopy = if 0 <=? d_limit fh then Z.min (d_limit fh) (d_bufSize fh - d_bufIndex fh)
                   else d_bufSize fh - d_bufIndex fh) as HtoCopy.
  { unfold toCopy. rewrite Z.geb_leb. destruct (0 <=? d_limit fh) eqn:E; breflect; [|done].
    cbn [andb]. case_if; lia. }
  assert (0 <= toCopy <= d_bufSize fh - d_bufIndex fh) as Htc.
  { rewrite HtoCopy. case_if; lia. }
  rewrite slice_ok by zlen. cbn [obind].
  replace (d_bufIndex fh + toCopy - d_bufIndex fh) with toCopy by lia.
  set (w := ztake (d_bufSize fh - d_bufIndex fh) (zdrop (d_bufIndex fh) buf)).
  assert (ztake toCopy (zdrop (d_bufIndex fh) buf) = ztake toCopy w) as ->.
  { unfold w. rewrite ztake_ztake. f_equal. lia. }
  rewrite ztake_ztake. set (out := ztake (Z.min k toCopy) w).
  assert (zlen w = d_bufSize fh - d_bufIndex fh) as Hw by (unfold w; zlen).
  assert (zlen out = Z.min k toCopy) as Hout by (unfold out; zlen).
  pose proof (window_split buf (d_bufIndex fh) (d_bufSize fh) (Z.min k toCopy)) as Hsplit.
  fold w in Hsplit. fold out in Hsplit. specialize (Hsplit ltac:(lia) ltac:(lia)).
  set (r := dec (d_nonce fh) (s_data (d_stream fh))).
  assert (d_rest fh = cut (d_limit fh) (w ++ fst r, snd r)) as ->.
  { unfold d_rest, d_all, d_window. by rewrite Herr, Hbuf. }
  (* the handle after the copy, not at its limit *)
  assert (forall limit, d_limit fh < 0 \/ zlen out < d_limit fh ->
    limit = (if 0 <=? d_limit fh then d_limit fh - zlen out else d_limit fh) ->
    let fh' := mkDecrypter (d_rc fh) (d_nonce fh) (d_initialNonce fh) (Some buf) (d_readBuf fh)
      (d_bufIndex fh + zlen out) (d_bufSize fh) (d_err fh) limit (d_open fh) in
    d_inv fh' /\ d_stream fh' = d_stream fh /\ out <> [] /\
    cut (d_limit fh) (w ++ fst r, snd r) = (out ++ fst (d_rest fh'), snd (d_rest fh'))) as Hgo.
  { intros limit Hl -> fh'. split_and!.
    - unfold d_inv, fh'. cbn. rewrite Herr. exists rc, buf, rbuf. split_and!; done || lia.
    - done.
    - apply zlen_pos. destruct (0 <=? d_limit fh); lia.
    - rewrite Hsplit, <- app_assoc, cut_app by done. unfold d_rest, fh'. cbn. by rewrite Herr. }
  rewrite Z.geb_leb. destruct (0 <=? d_limit fh) eqn:El; breflect.
  2:{ do 3 eexists. split; [done|]. by apply Hgo; [left|]. }
  cbn [d_limit]. case_if.
  - unfold d_finish. cbn [d_err]. rewrite Herr. do 3 eexists. split; [done|]. split_and!.
    + unfold d_inv. cbn. by rewrite Hrc.
    + done.
    + unfold cut. cbn [fst snd]. rewrite zlen_app. pose proof (zlen_nonneg (fst r)).
      rewrite (proj2 (Z.leb_le 0 _)), (proj2 (Z.leb_le (d_limit fh) _)),
        (proj2 (Z.eqb_neq _ 0)) by lia. cbn. f_equal.
      rewrite ztake_app_le by lia. unfold out. f_equal. lia.
  - do 3 eexists. split; [done|]. apply Hgo; [right; lia|done].
Qed.

#[global] Instance d_Reads : Reads (d_Read c) d_live d_rest.
Proof.
  intros fh k [Hinv HEOF] Hk. unfold d_Read. destruct (d_err fh) as [e|] eqn:Herr.
  { exists fh, [], (Some e). split_and!; [done| |]; unfold d_live, d_rest; by rewrite Herr. }
  specialize (HEOF eq_refl).
  (* the handle with a block in its buffer *)
  assert (forall fh1, d_inv fh1 -> d_err fh1 = None -> s_err (d_stream fh1) = EOF ->
    d_bufIndex fh1 < d_bufSize fh1 -> d_limit fh1 = d_limit fh -> d_all fh1 = d_all fh ->
    exists fh' out e, d_copy_out fh1 k = Ret (fh', out, e) /\ d_live fh' /\
    match e with
    | None => out <> [] /\ d_rest fh = (out ++ fst (d_rest fh'), snd (d_rest fh'))
    | Some e => d_rest fh = (out, e)
    end) as Hgo.
  { intros fh1 Hinv1 Herr1 HEOF1 Hlt Hlim Hall.
    destruct (d_copy_out_spec fh1 k) as (fh' & out & e & -> & Hinv' & Hst & Hrest); [done..|].
    exists fh', out, e. split; [done|]. split.
    { split; [done|]. by rewrite Hst. }
    assert (d_rest fh = d_rest fh1) as ->; [|done].
    unfold d_rest. by rewrite Herr, Herr1, Hlim, Hall. }
  destruct (d_bufIndex fh >=? d_bufSize fh) eqn:Efull; breflect; cbn [obind].
  2:{ by apply Hgo. }
  destruct (fillBuffer_spec fh Hinv Herr) as (fh1 & e & -> & Hf). cbn [obind].
  destruct Hf as (Hinv1 & Herr1 & Hlim & _ & _ & _ & Hserr & Hnone & Hdec).
  specialize (Hdec HEOF). rewrite HEOF in Hserr.
  assert (d_window fh = []) as Hwin.
  { unfold d_inv in Hinv. rewrite Herr in Hinv. destruct Hinv as (?&?&?&_&_&_&_&_&Hi&_).
    unfold d_window. by replace (d_bufSize fh - d_bufIndex fh) with 0 by lia. }
  destruct e as [e|].
  - unfold d_finish. rewrite Herr1. do 3 eexists. split; [done|]. split.
    + split; [|done]. unfold d_inv in *. cbn. rewrite Herr1 in Hinv1.
      destruct Hinv1 as (?&?&?&->&_). done.
    + unfold d_rest, d_all. rewrite Herr, Hwin. cbv zeta in Hdec. rewrite Hdec.
      unfold cut. cbn. by rewrite !andb_false_r.
  - destruct (Hnone eq_refl) as (Hi & Hs & _). apply Hgo; try done; [lia|].
    unfold d_all. rewrite Hwin, Hdec. done.
Qed.
End specs.

(** ** The nonce as a number *)

Fixpoint nval (n : nonce) : Z :=
  match n with [] => 0 | d :: n' => d + 256 * nval n' end.

Definition wf_nonce (n : nonce) : Prop := Forall is_byte n /\ zlen n = fileNonceSize.

Lemma nval_bound n : Forall is_byte n -> 0 <= nval n < 256 ^ zlen n.
Proof.
  unfold zlen. induction 1 as [|d n Hd _ IH]; [cbn; lia|]. unfold is_byte in Hd.
  cbn [nval length]. rewrite Nat2Z.inj_succ, Z.pow_succ_r by lia. lia.
Qed.

Lemma nval_inj n1 n2 : Forall is_byte n1 -> Forall is_byte n2 ->
  length n1 = length n2 -> nval n1 = nval n2 -> n1 = n2.
Proof.
  intros H1. revert n2. induction H1 as [|d1 n1 Hd1 _ IH]; intros [|d2 n2] H2 Hl Hv; try done.
  inversion H2 as [|?? Hd2 Hn2]; subst. cbn [nval length] in *. unfold is_byte in *.
  assert (d1 = d2) as -> by lia. f_equal. apply IH; [done|lia|lia].
Qed.

Lemma nval_app a b : nval (a ++ b) = nval a + 256 ^ zlen a * nval b.
Proof.
  unfold zlen. induction a as [|d a IH]; [cbn; lia|]. cbn [app nval length]. rewrite IH.
  rewrite Nat2Z.inj_succ, Z.pow_succ_r by lia. ring.
Qed.

Lemma carry_from_spec n : Forall is_byte n ->
  Forall is_byte (carry_from n) /\ length (carry_from n) = length n /\
  nval (carry_from n) = (nval n + 1) mod 256 ^ zlen n.
Proof.
  unfold zlen. induction 1 as [|d n Hd Hn (IH1 & IH2 & IH3)]; [done|].
  cbn [carry_from]. unfold is_byte in Hd. pose proof (nval_bound n Hn) as Hb. unfold zlen in Hb.
  rewrite length_cons, Nat2Z.inj_succ, Z.pow_succ_r by lia.
  assert (0 < 256 ^ Z.of_nat (length n)) by (apply Z.pow_pos_nonneg; lia).
  destruct (decide (d = 255)) as [->|Hne].
  - change ((255 + 1) mod 256) with 0. change (255 <=? 0) with false. cbn iota. split_and!.
    + constructor; [unfold is_byte; lia|done].
    + cbn. by rewrite IH2.
    + cbn [nval]. rewrite IH3.
      replace (255 + 256 * nval n + 1) with (256 * (nval n + 1)) by ring.
      rewrite Z.mul_mod_distr_l by lia. lia.
  - rewrite Z.mod_small by lia. rewrite (proj2 (Z.leb_le d (d + 1))) by lia. split_and!.
    + constructor; [unfold is_byte; lia|done].
    + done.
    + cbn [nval]. rewrite Z.mod_small; lia.
Qed.

Lemma increment_eq n : increment n = carry_from n.
Proof. done. Qed.

Lemma mod_split a b m p : 0 <= a < m -> 0 < p ->
  (a + m * b) mod (m * p) = a + m * (b mod p).
Proof.
  intros Ha Hp. rewrite Z.rem_mul_r by lia.
  replace (a + m * b) with (a + b * m) by ring.
  rewrite Z.mod_add, Z.div_add by lia. rewrite Z.mod_small, Z.div_small by lia. done.
Qed.

(** [add] of a 64 bit number, digit by digit. *)
Lemma add_loop_spec k n x c : Forall is_byte n -> (k <= length n)%nat -> 0 <= x -> 0 <= c <= 1 ->
  let '(n', c') := add_loop k n x c in
  Forall is_byte n' /\ length n' = length n /\ 0 <= c' <= 1 /\
  drop k n' = drop k n /\
  nval (take k n') + 256 ^ Z.of_nat k * c' =
    nval (take k n) + x mod 256 ^ Z.of_nat k + c.
Proof.
  revert n x c. induction k as [|k IH]; intros n x c Hn Hk Hx Hc.
  { cbn. split_and!; try done; try lia. rewrite Z.mod_1_r, take_0. cbn. lia. }
  destruct n as [|d n]; [cbn in Hk; lia|]. inversion Hn as [|?? Hd Hn']; subst.
  cbn [add_loop]. unfold is_byte in Hd.
  pose proof (Z.mod_pos_bound x 256 ltac:(lia)) as Hxm.
  set (t := c + (d + x mod 256)). rewrite (Z.mod_small t) by (unfold t; lia).
  rewrite !Z.shiftr_div_pow2 by lia. change (2 ^ 8) with 256.
  pose proof (Z.div_mod t 256 ltac:(lia)) as Hdm.
  pose proof (Z.mod_pos_bound t 256 ltac:(lia)) as Htm.
  specialize (IH n (x / 256) (t / 256) Hn' ltac:(cbn in Hk; lia)
                ltac:(apply Z.div_pos; lia) ltac:(unfold t in *; lia)).
  destruct (add_loop k n (x / 256) (t / 256)) as [n' c'].
  destruct IH as (IH1 & IH2 & IH3 & IH4 & IH5). split_and!.
  - constructor; [unfold is_byte; lia|done].
  - cbn. by rewrite IH2.
  - lia.
  - lia.
  - done.
  - cbn [take nval]. rewrite Nat2Z.inj_succ, Z.pow_succ_r by lia.
    assert (0 < 256 ^ Z.of_nat k) by (apply Z.pow_pos_nonneg; lia).
    rewrite Z.rem_mul_r by lia. unfold t in *. lia.
Qed.

Lemma wf_increment n : wf_nonce n -> wf_nonce (increment n).
Proof.
  intros [H1 H2]. rewrite increment_eq. destruct (carry_from_spec n H1) as (H3 & H4 & _).
  split; [done|]. unfold zlen in *. by rewrite H4.
Qed.

Lemma nval_increment n : wf_nonce n -> nval (increment n) = (nval n + 1) mod 2 ^ 192.
Proof.
  intros [H1 H2]. rewrite increment_eq. destruct (carry_from_spec n H1) as (_ & _ & ->).
  by rewrite H2.
Qed.

Lemma add_spec n x : wf_nonce n -> 0 <= x < 2 ^ 64 ->
  wf_nonce (add n x) /\ nval (add n x) = (nval n + x) mod 2 ^ 192.
Proof.
  intros [Hb Hl] Hx. assert (length n = 24%nat) as Hl' by (unfold zlen, fileNonceSize in Hl; lia).
  unfold add. pose proof (add_loop_spec 8 n x 0 Hb ltac:(lia) ltac:(lia) ltac:(lia)) as Hloop.
  destruct (add_loop 8 n x 0) as [n' c']. destruct Hloop as (Hb' & Hl2 & Hc & Hdrop & Hval).
  rewrite Z.mod_small in Hval by (change (256 ^ Z.of_nat 8) with (2 ^ 64); lia).
  change (256 ^ Z.of_nat 8) with (2 ^ 64) in Hval.
  assert (forall m, length m = 24%nat -> nval m = nval (take 8 m) + 2 ^ 64 * nval (drop 8 m)) as Hsplit.
  { intros m Hm. rewrite <- (take_drop 8 m) at 1. rewrite nval_app. do 2 f_equal.
    unfold zlen. rewrite length_take, Hm. done. }
  pose proof (nval_bound n Hb) as Hn. rewrite Hl in Hn. change (256 ^ fileNonceSize) with (2 ^ 192) in Hn.
  assert (0 <= nval (drop 8 n) < 2 ^ 128) as Hdb.
  { pose proof (nval_bound (drop 8 n) (Forall_drop _ _ _ Hb)) as H.
    unfold zlen in H. rewrite length_drop, Hl' in H. exact H. }
  assert (0 <= nval (take 8 n') < 2 ^ 64) as Htb.
  { pose proof (nval_bound (take 8 n') (Forall_take _ _ _ Hb')) as H.
    unfold zlen in H. rewrite length_take, Hl2, Hl' in H. exact H. }
  rewrite (Hsplit n) by done.
  case_if; breflect.
  - assert (c' = 1) as -> by lia.
    destruct (carry_from_spec (drop 8 n')) as (Hcb & Hcl & Hcv); [by apply Forall_drop|].
    unfold carry. assert (length (take 8 n' ++ carry_from (drop 8 n')) = 24%nat) as Hlen.
    { rewrite length_app, length_take, Hcl, length_drop. lia. }
    split.
    + split; [apply Forall_app; split; [by apply Forall_take|done]|]. unfold zlen. by rewrite Hlen.
    + rewrite nval_app. unfold zlen at 1. rewrite length_take, Hl2, Hl'.
      change (256 ^ Z.of_nat (8 `min` 24)) with (2 ^ 64). rewrite Hcv, Hdrop.
      unfold zlen. rewrite length_drop, Hl'. change (256 ^ Z.of_nat (24 - 8)) with (2 ^ 128).
      replace (nval (take 8 n) + 2 ^ 64 * nval (drop 8 n) + x)
        with (nval (take 8 n') + 2 ^ 64 * (nval (drop 8 n) + 1)) by lia.
      change (2 ^ 192) with (2 ^ 64 * 2 ^ 128). by rewrite mod_split by lia.
  - assert (c' = 0) as -> by lia. split.
    + split; [done|]. unfold zlen. by rewrite Hl2, Hl'.
    + rewrite (Hsplit n') by lia. rewrite Hdrop.
      replace (nval (take 8 n) + 2 ^ 64 * nval (drop 8 n) + x)
        with (nval (take 8 n') + 2 ^ 64 * nval (drop 8 n)) by lia.
      change (2 ^ 192) with (2 ^ 64 * 2 ^ 128). by rewrite mod_split, (Z.mod_small (nval _)) by lia.
Qed.

(** A nonce is determined by its value. *)
Lemma wf_nonce_inj n1 n2 : wf_nonce n1 -> wf_nonce n2 -> nval n1 = nval n2 -> n1 = n2.
Proof. intros [H1 L1] [H2 L2] Hv. apply nval_inj; auto. unfold zlen in *. lia. Qed.

Lemma iter_increment k n : wf_nonce n ->
  wf_nonce (Nat.iter k increment n) /\
  nval (Nat.iter k increment n) = (nval n + Z.of_nat k) mod 2 ^ 192.
Proof.
  intros Hn. induction k as [|k [IH1 IH2]].
  - split; [done|]. change (Nat.iter 0 increment n) with n. destruct Hn as [Hb Hl]. pose proof (nval_bound n Hb) as H.
    rewrite Hl in H. change (256 ^ fileNonceSize) with (2 ^ 192) in H.
    rewrite Z.add_0_r. symmetry. by apply Z.mod_small.
  - rewrite Nat.iter_succ. split; [by apply wf_increment|]. rewrite nval_increment, IH2 by done.
    rewrite Zplus_mod_idemp_l. f_equal. lia.
Qed.

Lemma add_iter n k : wf_nonce n -> Z.of_nat k < 2 ^ 64 ->
  add n (Z.of_nat k) = Nat.iter k increment n.
Proof.
  intros Hn Hk. destruct (add_spec n (Z.of_nat k)) as [H1 H2]; [done|lia|].
  destruct (iter_increment k n Hn) as [H3 H4]. apply wf_nonce_inj; [done|done|congruence].
Qed.

(** ** Theorems of the format *)

Section format_theory.
Context {SB : Secretbox}.
Variable c : Cipher.

Lemma open_block_Seal n m : m <> [] ->
  open_block c n (Seal m n (dataKey c)) = inr m.
Proof.
  intros Hm%zlen_pos. unfold open_block. rewrite Seal_length, Open_Seal.
  case_if; [zlen|done].
Qed.

(** The first sealed block, and the blocks after it. *)
Lemma enc_first n data : data <> [] ->
  ztake blockSize (enc c n data) = Seal (ztake blockDataSize data) n (dataKey c) /\
  zdrop blockSize (enc c n data) = enc c (increment n) (zdrop blockDataSize data).
Proof.
  intros Hne. rewrite enc_cons by done. set (box := Seal _ _ _).
  assert (zlen box = zlen (ztake blockDataSize data) + blockHeaderSize) as Hbox by apply Seal_length.
  destruct (decide (zlen data <= blockDataSize)) as [Hle|Hgt].
  - rewrite (zdrop_all blockDataSize data) by done. change (enc c (increment n) []) with (@nil Z).
    rewrite app_nil_r. split; [apply ztake_all|apply zdrop_all]; zlen.
  - replace blockSize with (zlen box) by zlen. by rewrite ztake_app_eq, zdrop_app_eq.
Qed.

(** Cutting the sealed blocks after [k] of them cuts the data after [k] blocks. *)
Lemma enc_take k n data :
  ztake (Z.of_nat k * blockSize) (enc c n data) = enc c n (ztake (Z.of_nat k * blockDataSize) data).
Proof.
  revert n data. induction k as [|k IH]; intros n data; [done|].
  destruct (decide (data = [])) as [->|Hne].
  { change (enc c n []) with (@nil Z). rewrite !ztake_nil. done. }
  assert (ztake (Z.of_nat (S k) * blockDataSize) data <> []) as Hne2.
  { apply zlen_pos in Hne. apply zlen_pos. zlen. }
  rewrite <- (ztake_zdrop blockSize (enc c n data)).
  destruct (enc_first n data Hne) as [-> ->]. rewrite (enc_cons c n (ztake _ _)) by done.
  rewrite ztake_ztake. replace (Z.min _ _) with blockDataSize by zlen.
  destruct (decide (zlen data <= blockDataSize)) as [Hle|Hgt].
  - rewrite (zdrop_all blockDataSize data), (zdrop_all blockDataSize (ztake _ _)) by zlen.
    change (enc c (increment n) []) with (@nil Z). rewrite app_nil_r.
    apply ztake_all. rewrite Seal_length. zlen.
  - rewrite ztake_ge_app by (rewrite Seal_length; zlen). f_equal.
    replace (_ - zlen _) with (Z.of_nat k * blockSize) by (rewrite Seal_length; zlen).
    rewrite IH. f_equal. unfold ztake, zdrop. rewrite skipn_firstn_comm. f_equal.
    unfold blockDataSize. lia.
Qed.

(** The blocks after the first [k] are the blocks of the rest of the data. *)
Lemma enc_drop k n data : Z.of_nat k * blockDataSize <= zlen data ->
  zdrop (Z.of_nat k * blockSize) (enc c n data) =
  enc c (Nat.iter k increment n) (zdrop (Z.of_nat k * blockDataSize) data).
Proof.
  revert n data. induction k as [|k IH]; intros n data Hk; [done|].
  assert (data <> []) as Hne by (apply zlen_pos; zlen).
  replace (Z.of_nat (S k) * blockSize) with (blockSize + Z.of_nat k * blockSize) by lia.
  rewrite <- zdrop_zdrop by zlen. rewrite (proj2 (enc_first n data Hne)).
  rewrite IH by zlen. rewrite zdrop_zdrop by zlen. rewrite Nat.iter_succ_r. do 2 f_equal. zlen.
Qed.

Lemma length_zdrop_lt data : data <> [] -> (length (zdrop blockDataSize data) < length data)%nat.
Proof.
  intros Hne%zlen_pos. unfold zdrop. rewrite length_drop. unfold zlen, blockDataSize in *. lia.
Qed.

Lemma dec_enc n data : dec c n (enc c n data) = (data, EOF).
Proof.
  remember (length data) as len eqn:Hlen. revert n data Hlen.
  induction len as [len IH] using lt_wf_ind; intros n data ->.
  destruct (decide (data = [])) as [->|Hne]; [done|].
  destruct (enc_first n data Hne) as [Htake Hdrop].
  assert (ztake blockDataSize data <> []).
  { apply zlen_pos in Hne. apply zlen_pos. zlen. }
  rewrite dec_cons, Htake, Hdrop, open_block_Seal by
    (rewrite ?enc_cons by done; first [done | apply zlen_pos; rewrite zlen_app, Seal_length; zlen]).
  erewrite IH; [|by apply length_zdrop_lt|done]. cbn [fst snd]. by rewrite ztake_zdrop.
Qed.

(** The length of the sealed blocks. *)
Definition enc_size (size : Z) : Z :=
  size / blockDataSize * blockSize +
  (if size mod blockDataSize =? 0 then 0 else blockHeaderSize + size mod blockDataSize).

Lemma enc_size_step size : blockDataSize <= size ->
  enc_size size = blockSize + enc_size (size - blockDataSize).
Proof.
  intros H. remember (size - blockDataSize) as s eqn:Hs.
  assert (size = s + 1 * blockDataSize) as -> by lia. unfold enc_size.
  rewrite Z.div_add, Z.mod_add by done. lia.
Qed.

Lemma zlen_enc n data : zlen (enc c n data) = enc_size (zlen data).
Proof.
  remember (length data) as len eqn:Hlen. revert n data Hlen.
  induction len as [len IH] using lt_wf_ind; intros n data ->.
  destruct (decide (data = [])) as [->|Hne]; [done|].
  rewrite enc_cons, zlen_app, Seal_length by done.
  destruct (decide (blockDataSize <= zlen data)) as [Hge|Hlt].
  - rewrite enc_size_step by done. erewrite IH; [|..|reflexivity].
    + replace (zlen (zdrop blockDataSize data)) with (zlen data - blockDataSize) by zlen. zlen.
    + by apply length_zdrop_lt.
  - rewrite zdrop_all by lia. apply zlen_pos in Hne. unfold enc_size.
    rewrite Z.div_small, Z.mod_small by zlen. case_if; [lia|].
    change (zlen (enc c (increment n) [])) with 0. zlen.
Qed.
End format_theory.

(** ** The handle never panics

    The invariant [d_inv] (the buffers are there and the window lies in them
    exactly while there is no error) holds for a new handle and every operation
    keeps it, whatever the streams below answer. *)

Inductive op : Type :=
  | OpRead (k : Z)
  | OpRangeSeek (offset whence limit : Z)
  | OpClose.

(** Slices have a length, and files are not read from before their start. *)
Definition op_ok (o : op) : Prop :=
  match o with
  | OpRead k => 0 <= k
  | OpRangeSeek offset _ _ => 0 <= offset
  | OpClose => True
  end.

Section safety.
Context {SB : Secretbox}.
Variable c : Cipher.
Variable getBlock : bytes.
Hypothesis getBlock_size : zlen getBlock = blockSize.

Definition run_op (fh : decrypter) (o : op) : outcome decrypter :=
  match o with
  | OpRead k => let! (fh, _, _) := d_Read c fh k in Ret fh
  | OpRangeSeek offset whence limit =>
      let! (fh, _) := d_RangeSeek c getBlock fh offset whence limit in Ret fh
  | OpClose => Ret (fst (d_Close fh))
  end.

Fixpoint run_ops (fh : decrypter) (ops : list op) : outcome decrypter :=
  match ops with
  | [] => Ret fh
  | o :: ops => let! fh := run_op fh o in run_ops fh ops
  end.

Lemma d_finish_inv fh e : d_inv fh -> (d_rc fh = None -> e <> EOF) -> d_inv (fst (d_finish fh e)).
Proof.
  unfold d_finish. intros Hinv He. destruct (d_err fh) eqn:Herr; [done|]. exact He.
Qed.

Lemma d_inv_rc fh : d_inv fh -> d_err fh = None -> d_rc fh <> None.
Proof. unfold d_inv. intros H Herr. rewrite Herr in H. destruct H as (?&?&?&->&_). done. Qed.

Lemma d_Close_inv fh : d_inv (fst (d_Close fh)).
Proof.
  unfold d_Close. case_decide as Hd; [unfold d_inv; cbn; by rewrite Hd|].
  destruct (d_err fh); destruct (d_rc _); done.
Qed.

Lemma d_copy_out_inv fh k : d_inv fh -> d_err fh = None -> 0 <= k ->
  exists r, d_copy_out fh k = Ret r /\ d_inv (r.1.1).
Proof.
  intros Hinv Herr Hk. pose proof (d_inv_rc fh Hinv Herr) as Hnn.
  unfold d_inv in Hinv. rewrite Herr in Hinv.
  destruct Hinv as (rc & buf & rbuf & Hrc & Hbuf & Hrbuf & Hb & Hr & Hi & Hs).
  unfold d_copy_out. rewrite Hbuf. cbn [deref obind].
  set (toCopy := if _ : bool then _ else _).
  assert (0 <= toCopy <= d_bufSize fh - d_bufIndex fh) as Htc.
  { unfold toCopy. case_if; rewrite ?Z.geb_leb in *; breflect; lia. }
  rewrite slice_ok by zlen. cbn [obind].
  set (out := ztake k _). assert (0 <= zlen out <= toCopy) as Hout by (unfold out; zlen).
  assert (forall limit, d_inv (mkDecrypter (d_rc fh) (d_nonce fh) (d_initialNonce fh) (Some buf)
      (d_readBuf fh) (d_bufIndex fh + zlen out) (d_bufSize fh) (d_err fh) limit (d_open fh))) as Hgo.
  { intros limit. unfold d_inv. cbn. rewrite Herr. exists rc, buf, rbuf. split_and!; done || lia. }
  case_if; [|eexists; split; [done|apply Hgo]]. cbn [d_limit].
  case_if; [|eexists; split; [done|apply Hgo]].
  unfold d_finish. cbn [d_err]. rewrite Herr. eexists. split; [done|]. unfold d_inv. by cbn.
Qed.

Lemma d_Read_inv fh k : d_inv fh -> 0 <= k -> exists r, d_Read c fh k = Ret r /\ d_inv (r.1.1).
Proof.
  intros Hinv Hk. unfold d_Read. destruct (d_err fh) eqn:Herr; [by eexists|].
  destruct (d_bufIndex fh >=? d_bufSize fh); cbn [obind]; [|by apply d_copy_out_inv].
  destruct (fillBuffer_spec c fh Hinv Herr) as (fh1 & e & -> & Hinv1 & Herr1 & _). cbn [obind].
  destruct e as [e|]; [|by apply d_copy_out_inv].
  pose proof (d_finish_inv fh1 e Hinv1) as Hf. destruct (d_finish fh1 e). eexists. split; [done|].
  apply Hf. intros Hn. by destruct (d_inv_rc fh1 Hinv1 Herr1).
Qed.

Lemma unFinish_inv fh : d_rc fh <> None -> d_inv (unFinish getBlock fh).
Proof.
  intros Hrc. unfold d_inv, unFinish. cbn. destruct (d_rc fh) as [rc|]; [|done].
  exists rc, getBlock, getBlock. split_and!; done || zlen.
Qed.

Lemma calculateUnderlying_discard offset limit :
  0 <= offset -> let '(_, _, discard, blocks) := calculateUnderlying offset limit in
  discard = offset mod blockDataSize /\ blocks = offset / blockDataSize.
Proof.
  intros H. cbn. split; [by rewrite Z.rem_mod_nonneg by done|by rewrite Z.quot_div_nonneg by done].
Qed.

Lemma d_RangeSeek_inv fh offset whence limit : d_inv fh -> 0 <= offset ->
  exists r, d_RangeSeek c getBlock fh offset whence limit = Ret r /\ d_inv (fst r).
Proof.
  intros Hinv Hoff. unfold d_RangeSeek.
  assert (forall e, e <> EOF -> d_inv (fst (d_finish fh e))) as Hfin.
  { intros e He. by apply d_finish_inv. }
  destruct (d_open fh) as [open|]; [|eexists; split; [done|by apply Hfin]].
  case_if; [eexists; split; [done|by apply Hfin]|].
  case_bool_decide as Herr; [by eexists|].
  set (fh1 := match d_err fh with Some _ => _ | None => _ end).
  assert (d_inv fh1 /\ d_err fh1 = None) as [Hinv1 Herr1].
  { unfold fh1. destruct (d_err fh) as [e|] eqn:He; [|done]. split; [|done].
    apply unFinish_inv. unfold d_inv in Hinv. rewrite He in Hinv. intros Hn.
    specialize (Hinv Hn). apply Herr. split; congruence. }
  pose proof (calculateUnderlying_discard offset limit Hoff) as Hd.
  destruct (calculateUnderlying offset limit) as [[[uo ul] discard] blocks].
  destruct Hd as [-> ->]. pose proof (Z.mod_pos_bound offset blockDataSize ltac:(done)) as Hdb.
  pose proof Hinv1 as Hinv1'. unfold d_inv in Hinv1'. rewrite Herr1 in Hinv1'.
  destruct Hinv1' as (rc & buf & rbuf & Hrc & Hbuf & Hrbuf & Hb & Hr & Hi & Hs).
  rewrite Hrc. cbn [deref obind].
  assert (forall rc' n, d_inv (mkDecrypter (Some rc') n (d_initialNonce fh1) (d_buf fh1)
     (d_readBuf fh1) (d_bufIndex fh1) (d_bufSize fh1) (d_err fh1) (d_limit fh1) (d_open fh1))) as Hset.
  { intros rc' n. unfold d_inv. cbn. rewrite Herr1. exists rc', buf, rbuf.
    split_and!; done || lia. }
  set (moved := match rc_RangeSeek rc with Some _ => _ | None => _ end).
  assert (match moved with
          | inl (fh2, e) => d_inv (fst (d_finish fh2 e))
          | inr fh2 => d_inv fh2 /\ d_err fh2 = None
          end) as Hmoved.
  { unfold moved. destruct (rc_RangeSeek rc) as [seek|]; [destruct (seek _ _)|destruct (open _ _)].
    - apply d_finish_inv; [apply Hset|done].
    - split; [apply Hset|done].
    - unfold d_finish. cbn. rewrite Herr1. done.
    - split; [apply Hset|done]. }
  destruct moved as [[fh2 e]|fh2]; [by eexists|]. destruct Hmoved as [Hinv2 Herr2].
  destruct (fillBuffer_spec c fh2 Hinv2 Herr2) as (fh3 & e & -> & Hinv3 & Herr3 & _). cbn [obind].
  pose proof (d_inv_rc fh3 Hinv3 Herr3) as Hnn3.
  destruct e as [e|]; [eexists; split; [done|by apply d_finish_inv]|].
  case_if; [eexists; split; [done|by apply d_finish_inv]|].
  eexists. split; [done|]. unfold d_inv in *. cbn. rewrite Herr3 in *.
  destruct Hinv3 as (rc3 & buf3 & rbuf3 & ->&->&->&?&?&?&?). exists rc3, buf3, rbuf3.
  split_and!; done || lia.
Qed.

(** A new handle is sound; a stream that is refused is closed; with the whole
    header there the nonce is the one of the header. *)
Definition opened (rc : ReadCloser) (r : (decrypter * error) + decrypter) : Prop :=
  let s := rc_stream rc in
  match r with
  | inl (fh, e) =>
      (s_err s <> ErrorFileClosed -> exists rc', d_rc fh = Some rc' /\ rc_closed rc' = true) /\
      (s_err s = EOF -> decrypt_file c (s_data s) = ([], e) /\
         (zlen (s_data s) < fileHeaderSize \/ ztake fileMagicSize (s_data s) <> fileMagicBytes))
  | inr fh =>
      d_inv fh /\ d_err fh = None /\ d_limit fh = -1 /\ d_open fh = None /\
      d_bufIndex fh = d_bufSize fh /\ d_initialNonce fh = d_nonce fh /\
      s_err (d_stream fh) = s_err s /\
      s_data (d_stream fh) = zdrop fileHeaderSize (s_data s) /\
      d_nonce fh = zdrop fileMagicSize (ztake fileHeaderSize (s_data s)) /\
      fileHeaderSize <= zlen (s_data s) /\
      (exists rc', d_rc fh = Some rc' /\ rc_RangeSeek rc' = rc_RangeSeek rc) /\
      decrypt_file c (s_data s) = dec c (d_nonce fh) (s_data (d_stream fh))
  end.

Lemma finishAndClose_closed fh e rc : d_rc fh = Some rc -> d_err fh = None ->
  e <> ErrorFileClosed \/ rc_closed rc = true ->
  exists rc', d_rc (fst (finishAndClose fh e)) = Some rc' /\ rc_closed rc' = true.
Proof.
  intros Hrc Herr He. unfold finishAndClose, d_Close, d_finish. rewrite Herr. cbn [fst snd d_err].
  case_decide as Hd; [destruct He as [He|He]; [congruence|by exists rc]|].
  cbn [fst d_rc]. rewrite Hrc. by eexists.
Qed.

Lemma newDecrypter_spec rc : exists r, newDecrypter getBlock rc = Ret r /\ opened rc r.
Proof.
  unfold newDecrypter.
  destruct (ReadFill_spec (rc_stream rc) fileHeaderSize) as (s & e & -> & Hf); [done|].
  destruct Hf as (Hdata & Hserr & He & Hlt & Hgt). set (content := s_data (rc_stream rc)) in *.
  set (head := ztake fileHeaderSize content). set (readBuf := overwrite getBlock head).
  set (fh := mkDecrypter _ _ _ _ _ _ _ _ _ _).
  assert (zlen head = Z.min fileHeaderSize (zlen content)) as Hhead by (unfold head; zlen).
  assert (forall e', e' <> ErrorFileClosed -> exists rc',
    d_rc (fst (finishAndClose fh e')) = Some rc' /\ rc_closed rc' = true) as Hclose.
  { intros e' He'. eapply finishAndClose_closed; [done|done|by left]. }
  case_if.
  { eexists. split; [done|]. split; [intros ?; by apply Hclose|]. intros _. unfold decrypt_file. fold content.
    rewrite (proj2 (Z.ltb_lt (zlen content) fileHeaderSize)) by zlen.
    split; [done|left; zlen]. }
  apply andb_false_iff in E.
  destruct (bool_decide (e <> Some EOF /\ e <> None)) eqn:He2.
  { apply bool_decide_eq_true_1 in He2. eexists. split; [done|]. destruct He as [->| ->]; [by destruct He2|]. split; [intros ?; by apply Hclose|].
    intros HE. rewrite HE in He2. by destruct He2. }
  apply bool_decide_eq_false_1 in He2.
  (* the header is complete *)
  assert (fileHeaderSize <= zlen content) as Hfull.
  { destruct (decide (fileHeaderSize <= zlen content)) as [|Hn]; [done|]. exfalso.
    rewrite Hlt in * by (unfold zlen in *; unfold fileHeaderSize, fileMagicSize, fileNonceSize in *; lia).
    destruct E as [E|E]; breflect; [zlen|]. apply bool_decide_eq_false_1 in E. naive_solver. }
  assert (ztake fileMagicSize readBuf = ztake fileMagicSize content) as ->.
  { unfold readBuf, overwrite. rewrite ztake_app_le by zlen. unfold head. by rewrite ztake_ztake. }
  assert (ztake fileHeaderSize readBuf = head) as ->.
  { unfold readBuf, overwrite. replace fileHeaderSize with (zlen head) by zlen. apply ztake_app_eq. }
  case_if.
  { eexists. split; [done|]. split; [intros ?; by apply Hclose|]. intros _. unfold decrypt_file. fold content.
    rewrite (proj2 (Z.ltb_ge (zlen content) fileHeaderSize)) by done. rewrite E0.
    split; [done|right]. by apply bool_decide_eq_false_1 in E0. }
  unfold fromBuf. rewrite (ztake_all fileNonceSize) by zlen.
  rewrite (proj2 (Z.eqb_eq _ _)) by zlen. cbn [obind]. eexists. split; [done|].
  split_and!; try done.
  - unfold d_inv. cbn. exists (rc_set_stream rc s), getBlock, readBuf. split_and!; try done.
    unfold readBuf. rewrite zlen_overwrite; zlen.
  - by eexists.
  - unfold decrypt_file. fold content. rewrite (proj2 (Z.ltb_ge (zlen content) fileHeaderSize)) by done. rewrite E0.
    unfold d_stream. cbn -[decrypt_blocks]. rewrite Hdata. apply decrypt_blocks_fuel; [|done].
    rewrite length_drop. lia.
Qed.

Lemma run_ops_inv fh ops : d_inv fh -> Forall op_ok ops ->
  exists fh', run_ops fh ops = Ret fh' /\ d_inv fh'.
Proof.
  intros Hinv Hops. revert fh Hinv. induction Hops as [|o ops Ho _ IH]; intros fh Hinv; [by eexists|].
  cbn [run_ops]. assert (exists fh', run_op fh o = Ret fh' /\ d_inv fh') as (fh' & -> & Hinv').
  { destruct o as [k|offset whence limit|]; cbn [run_op op_ok] in *.
    - destruct (d_Read_inv fh k Hinv Ho) as ([[fh' ?] ?] & -> & ?). by eexists.
    - destruct (d_RangeSeek_inv fh offset whence limit Hinv Ho) as ([fh' ?] & -> & ?). by eexists.
    - eexists. split; [done|]. apply d_Close_inv. }
  cbn [obind]. by apply IH.
Qed.
End safety.

(** ** Seeking *)

(** The bytes of a file from an offset, as many as a limit lets through; a
    negative limit is none. *)
Definition range (file : bytes) (off lim : Z) : bytes :=
  if lim <? 0 then zdrop off file else ztake lim (zdrop off file).

Definition streams (file : bytes) (off lim : Z) (s : stream) : Prop :=
  s_data s = range file off lim /\ s_err s = EOF.

Definition seeks (file : bytes) (rc : ReadCloser) : Prop :=
  forall seek, rc_RangeSeek rc = Some seek -> forall off lim, 0 <= off ->
    exists s, seek off lim = inr s /\ streams file off lim s.

(** "The open function must return a ReadCloser opened to the offset supplied." *)
Definition serves (open : OpenRangeSeek) (file : bytes) : Prop :=
  forall off lim, 0 <= off -> exists rc,
    open off lim = inr rc /\ streams file off lim (rc_stream rc) /\ seeks file rc.

Lemma i64_wrap x : 0 <= x < 2 ^ 63 + 2 ^ 62 ->
  (i64 x = x /\ x <= i64_max) \/ (- 2 ^ 63 <= i64 x < - 2 ^ 61).
Proof.
  intros Hx. destruct (decide (x <= i64_max)) as [Hle|Hgt].
  - left. split; [|done]. apply i64_id. unfold in_i64, i64_min. lia.
  - right. unfold i64, i64_max in *. replace (x + 2 ^ 63) with (x - 2 ^ 63 + 1 * 2 ^ 64) by lia.
    rewrite Z.mod_add, Z.mod_small by lia. lia.
Qed.

(** The numbers of a seek: where the block of the offset starts, and either no
    limit below or enough whole blocks. *)
Lemma calculateUnderlying_spec offset limit :
  0 <= offset -> in_i64 limit -> fileHeaderSize + offset / blockDataSize * blockSize <= i64_max ->
  let '(uo, ul, discard, blocks) := calculateUnderlying offset limit in
  uo = fileHeaderSize + offset / blockDataSize * blockSize /\
  discard = offset mod blockDataSize /\ blocks = offset / blockDataSize /\
  ((limit < 0 /\ ul = -1) \/ (0 <= limit /\ - 2 ^ 63 <= ul < - 2 ^ 61) \/
   (0 <= limit /\ exists B, ul = Z.of_nat B * blockSize /\ ul <= i64_max /\ (1 <= B)%nat /\
      offset mod blockDataSize + limit <= Z.of_nat B * blockDataSize)).
Proof.
  intros Hoff Hlim Hmax. unfold calculateUnderlying.
  rewrite Z.rem_mod_nonneg, Z.quot_div_nonneg by done.
  set (blocks := offset / blockDataSize) in *. set (discard := offset mod blockDataSize).
  assert (0 <= blocks) by (apply Z.div_pos; done).
  pose proof (Z.mod_pos_bound offset blockDataSize ltac:(done)) as Hd. fold discard in Hd.
  fold blockSize. unfold in_i64 in Hlim. split_and!; try done.
  { rewrite !i64_id; [done|..]; rewrite ?i64_id; unfold in_i64, i64_min in *; zlen. }
  rewrite Z.geb_leb. destruct (0 <=? limit) eqn:El; breflect; [|by left].
  right. rewrite (i64_id (limit - _)) by (unfold in_i64, i64_min in *; zlen).
  set (bytesToRead := limit - (blockDataSize - discard)).
  assert (exists B, (if bytesToRead >? 0 then 1 + (if negb (Z.rem bytesToRead blockDataSize =? 0)
      then Z.quot bytesToRead blockDataSize + 1 else Z.quot bytesToRead blockDataSize) else 1)
    = Z.of_nat B /\ discard + limit <= Z.of_nat B * blockDataSize /\
    Z.of_nat B * blockDataSize <= limit + 3 * blockDataSize /\ (1 <= B)%nat) as (B & -> & HB1 & HB2 & HB).
  { rewrite Z.gtb_ltb. destruct (0 <? bytesToRead) eqn:Eb; breflect.
    - rewrite Z.rem_mod_nonneg, Z.quot_div_nonneg by (done || lia).
      pose proof (Z.div_mod bytesToRead blockDataSize ltac:(done)).
      pose proof (Z.mod_pos_bound bytesToRead blockDataSize ltac:(done)).
      assert (0 <= bytesToRead / blockDataSize) by (apply Z.div_pos; done || lia).
      case_if; breflect; eexists (Z.to_nat _); (split; [rewrite Z2Nat.id; [reflexivity|lia]|]);
        rewrite Z2Nat.id by lia; unfold bytesToRead in *; zlen.
    - exists 1%nat. unfold bytesToRead in *. zlen. }
  destruct (i64_wrap (Z.of_nat B * blockSize)) as [[-> Hle]|Hneg].
  - unfold i64_max in *. zlen.
  - right. split; [done|]. by exists B.
  - left. done.
Qed.

Section seeking.
Context {SB : Secretbox}.
Variable c : Cipher.
Variable getBlock : bytes.
Hypothesis getBlock_size : zlen getBlock = blockSize.
Variables (n : nonce) (data : bytes).
Hypothesis Hn : wf_nonce n.

Let file : bytes := encrypt_file c n data.

Lemma file_header : ztake fileHeaderSize file = fileMagicBytes ++ n /\
  zdrop fileHeaderSize file = enc c n data.
Proof.
  destruct Hn as [_ Hl]. unfold file, encrypt_file. rewrite app_assoc.
  replace fileHeaderSize with (zlen (fileMagicBytes ++ n)).
  - by rewrite ztake_app_eq, zdrop_app_eq.
  - rewrite zlen_app, Hl. done.
Qed.

(** A stream that starts with the header of the file is accepted. *)
Lemma decrypt_file_header content : ztake fileHeaderSize content = fileMagicBytes ++ n ->
  decrypt_file c content = dec c n (zdrop fileHeaderSize content).
Proof.
  intros Hh. destruct Hn as [_ Hl].
  assert (zlen (ztake fileHeaderSize content) = fileHeaderSize) as Hlen.
  { rewrite Hh, zlen_app, Hl. done. }
  unfold decrypt_file. rewrite (proj2 (Z.ltb_ge (zlen content) fileHeaderSize)) by zlen.
  assert (ztake fileMagicSize content = fileMagicBytes) as ->.
  { transitivity (ztake fileMagicSize (ztake fileHeaderSize content)); [by rewrite ztake_ztake|].
    rewrite Hh. apply (ztake_app_eq fileMagicBytes). }
  rewrite bool_decide_eq_true_2 by done. cbn [negb]. rewrite Hh.
  rewrite (zdrop_app_eq fileMagicBytes n : zdrop fileMagicSize _ = n).
  apply decrypt_blocks_fuel; [|done]. unfold zdrop. rewrite length_drop. lia.
Qed.

Lemma zdrop_ztake_header content : ztake fileHeaderSize content = fileMagicBytes ++ n ->
  zdrop fileMagicSize (ztake fileHeaderSize content) = n.
Proof. intros ->. apply (zdrop_app_eq fileMagicBytes n). Qed.

(** What is below the block of an offset are the sealed blocks of the data
    from the start of that block. *)
Lemma range_blocks k ul :
  Z.of_nat k * blockDataSize <= zlen data ->
  (ul < 0 \/ exists B, ul = Z.of_nat B * blockSize) ->
  exists X, range file (fileHeaderSize + Z.of_nat k * blockSize) ul =
      enc c (Nat.iter k increment n) X /\
    X = (if ul <? 0 then zdrop (Z.of_nat k * blockDataSize) data
         else ztake (ul / blockSize * blockDataSize) (zdrop (Z.of_nat k * blockDataSize) data)).
Proof.
  intros Hk Hul. eexists. split; [|done]. unfold range.
  rewrite <- zdrop_zdrop by zlen. rewrite (proj2 file_header), enc_drop by done.
  destruct Hul as [Hneg|[B ->]]; [by rewrite (proj2 (Z.ltb_lt ul 0))|].
  rewrite (proj2 (Z.ltb_ge (Z.of_nat B * blockSize) 0)), enc_take, Z.div_mul by (done || zlen). done.
Qed.

(** A handle on which seeking works. *)
Definition seekable (open : OpenRangeSeek) (fh : decrypter) : Prop :=
  d_inv fh /\ (d_err fh = None \/ d_err fh = Some EOF) /\ d_open fh = Some open /\
  d_initialNonce fh = n /\ exists rc, d_rc fh = Some rc /\ seeks file rc.

Lemma range_range offset limit (B : Z) :
  0 <= offset -> offset mod blockDataSize + limit <= B * blockDataSize -> 0 <= limit ->
  ztake limit (zdrop (offset mod blockDataSize)
    (ztake (B * blockDataSize) (zdrop (offset / blockDataSize * blockDataSize) data))) =
  ztake limit (zdrop offset data).
Proof.
  intros Ho HB Hl. pose proof (Z.div_mod offset blockDataSize ltac:(done)) as Hdm.
  pose proof (Z.mod_pos_bound offset blockDataSize ltac:(done)) as Hmb.
  assert (0 <= offset / blockDataSize) by (apply Z.div_pos; done).
  replace (zdrop offset data) with
    (zdrop (offset mod blockDataSize) (zdrop (offset / blockDataSize * blockDataSize) data))
    by (rewrite zdrop_zdrop by zlen; f_equal; lia).
  set (d := zdrop (_ / _ * _) data). unfold ztake at 2. unfold zdrop at 1. rewrite skipn_firstn_comm.
  unfold ztake. rewrite take_take. fold (zdrop (offset mod blockDataSize) d). f_equal. lia.
Qed.

Lemma cut_EOF limit d : cut limit (d, EOF) = (if limit <? 0 then d else ztake limit d, EOF).
Proof.
  unfold cut. cbn [fst snd]. destruct (limit <? 0) eqn:E; breflect.
  { by rewrite (proj2 (Z.leb_gt 0 limit)). }
  rewrite (proj2 (Z.leb_le 0 limit)) by done. cbn [andb].
  destruct (limit <=? zlen d) eqn:E2; breflect; [|by rewrite ztake_all by lia]. cbn [andb].
  case_if; [done|]. breflect. apply zlen_0 in E0. subst. by rewrite ztake_nil.
Qed.

Lemma enc_size_le size k : 0 <= size -> size <= k * blockDataSize -> enc_size size <= k * blockSize.
Proof.
  intros Hs Hk. unfold enc_size. pose proof (Z.div_mod size blockDataSize ltac:(done)) as Hdm.
  pose proof (Z.mod_pos_bound size blockDataSize ltac:(done)) as Hmb. case_if; zlen.
Qed.

Lemma enc_size_ge size k : 0 <= size -> 0 <= k -> k * blockDataSize <= size ->
  k * blockSize <= enc_size size.
Proof.
  intros Hs Hk Hle. unfold enc_size. pose proof (Z.div_mod size blockDataSize ltac:(done)) as Hdm.
  pose proof (Z.mod_pos_bound size blockDataSize ltac:(done)) as Hmb. case_if; zlen.
Qed.

(** The handle after the stream below was moved and before the first block
    is read. *)
Lemma d_fill_after_seek fh X k : d_inv fh -> d_err fh = None ->
  d_nonce fh = Nat.iter k increment n -> s_err (d_stream fh) = EOF ->
  s_data (d_stream fh) = enc c (Nat.iter k increment n) X ->
  exists fh' e, fillBuffer c fh = Ret (fh', e) /\ block_filled c fh fh' e /\
    match e with
    | Some e => X = [] /\ e = EOF
    | None => X <> [] /\ d_window fh' = ztake blockDataSize X /\
        dec c (d_nonce fh') (s_data (d_stream fh')) = (zdrop blockDataSize X, EOF)
    end.
Proof.
  intros Hinv Herr Hnonce HE Hdata.
  destruct (fillBuffer_spec c fh Hinv Herr) as (fh' & e & Hfill & Hf).
  exists fh', e. split_and!; [done|done|]. destruct Hf as (_&_&_&_&_&_&_&Hnone&Hdec).
  specialize (Hdec HE). rewrite Hdata, Hnonce, dec_enc in Hdec. cbv zeta in Hdec.
  destruct e as [e|]; [by simplify_eq|].
  destruct (Hnone eq_refl) as (_ & _ & _ & Hopen). injection Hdec as HX HEOF.
  assert (X <> []) as Hne.
  { intros ->. apply open_block_length in Hopen as [_ Hpos%zlen_pos].
    by destruct (d_window fh'). }
  rewrite Hdata, (proj1 (enc_first c (Nat.iter k increment n) X Hne)), Hnonce, open_block_Seal in Hopen.
  2:{ apply zlen_pos in Hne. apply zlen_pos. zlen. }
  injection Hopen as Hwin. split_and!; [done|done|].
  destruct (dec c (d_nonce fh') (s_data (d_stream fh'))) as [d e]. cbn [fst snd] in *. subst e.
  f_equal. rewrite <- (ztake_zdrop blockDataSize X), Hwin in HX.
  by apply app_inv_head in HX.
Qed.

Lemma zlen_window fh : d_inv fh -> d_err fh = None -> d_bufIndex fh = 0 ->
  zlen (d_window fh) = d_bufSize fh.
Proof.
  unfold d_inv, d_window. intros Hinv Herr Hi. rewrite Herr in Hinv.
  destruct Hinv as (?&buf&?&_&->&_&Hb&_&?&?). rewrite Hi in *. cbn [default from_option id]. zlen.
Qed.

(** What remains after the discarded bytes, up to the limit. *)
Lemma seek_rest offset limit ul X :
  0 <= offset -> ((limit < 0 /\ ul = -1) \/ (0 <= limit /\ - 2 ^ 63 <= ul < - 2 ^ 61) \/
   (0 <= limit /\ exists B, ul = Z.of_nat B * blockSize /\ ul <= i64_max /\ (1 <= B)%nat /\
      offset mod blockDataSize + limit <= Z.of_nat B * blockDataSize)) ->
  X = (if ul <? 0 then zdrop (offset / blockDataSize * blockDataSize) data
       else ztake (ul / blockSize * blockDataSize) (zdrop (offset / blockDataSize * blockDataSize) data)) ->
  cut limit (zdrop (offset mod blockDataSize) X, EOF) = (range data offset limit, EOF).
Proof.
  intros Hoff Hul ->. rewrite cut_EOF. unfold range. f_equal.
  pose proof (Z.div_mod offset blockDataSize ltac:(done)) as Hdm.
  pose proof (Z.mod_pos_bound offset blockDataSize ltac:(done)) as Hmb.
  assert (0 <= offset / blockDataSize) by (apply Z.div_pos; done).
  assert (zdrop (offset mod blockDataSize) (zdrop (offset / blockDataSize * blockDataSize) data) =
          zdrop offset data) as Hdd.
  { rewrite zdrop_zdrop by zlen. f_equal. lia. }
  destruct Hul as [[Hl ->]|[[Hl Hul]|(Hl & B & -> & _ & HB1 & HB)]].
  - cbn [Z.ltb Z.compare]. by rewrite Hdd.
  - rewrite (proj2 (Z.ltb_lt ul 0)) by lia. by rewrite Hdd.
  - rewrite (proj2 (Z.ltb_ge limit 0)), (proj2 (Z.ltb_ge (_ * _) 0)), Z.div_mul by (done || zlen).
    by apply range_range.
Qed.

(** A seek: to the block of the offset, and past the end of the data. *)
Lemma d_RangeSeek_spec open fh offset limit :
  serves open file -> seekable open fh -> 0 <= offset -> in_i64 limit ->
  fileHeaderSize + offset / blockDataSize * blockSize <= i64_max ->
  let start := offset / blockDataSize * blockDataSize in
  exists fh' r, d_RangeSeek c getBlock fh offset 0 limit = Ret (fh', r) /\
    if zlen data <=? start then r = inl EOF
    else if zlen data <? offset then r = inl ErrorBadSeek
    else r = inr offset /\ d_live fh' /\ seekable open fh' /\
         d_rest c fh' = (range data offset limit, EOF).
Proof.
  intros Hserves Hseek Hoff Hlim Hmax start.
  destruct Hseek as (Hinv & Herr & Hopen & Hin & rc & Hrc & Hrcs).
  unfold d_RangeSeek. rewrite Hopen. cbn [Z.eqb negb].
  rewrite bool_decide_eq_false_2 by (destruct Herr; intros []; congruence).
  set (fh1 := match d_err fh with Some _ => _ | None => _ end).
  assert (d_inv fh1 /\ d_err fh1 = None /\ d_initialNonce fh1 = n /\ d_rc fh1 = Some rc /\
          d_open fh1 = Some open) as (Hinv1 & Herr1 & Hin1 & Hrc1 & Hopen1).
  { unfold fh1. destruct (d_err fh) eqn:Ee; [|done]. split_and!; try done.
    apply unFinish_inv; [done|congruence]. }
  pose proof (calculateUnderlying_spec offset limit Hoff Hlim Hmax) as Hcalc.
  destruct (calculateUnderlying offset limit) as [[[uo ul] discard] blocks].
  destruct Hcalc as (-> & -> & -> & Hul).
  assert (0 <= offset / blockDataSize) as Hb0 by (apply Z.div_pos; done).
  set (k := Z.to_nat (offset / blockDataSize)).
  assert (offset / blockDataSize = Z.of_nat k) as Hk by (unfold k; lia).
  rewrite Hrc1. cbn [deref obind]. rewrite Z.mod_small by (unfold i64_max in *; zlen).
  rewrite Hin1, Hk, add_iter by first [exact Hn | unfold i64_max in *; zlen].
  (* the stream is at the block *)
  set (moved := match rc_RangeSeek rc with Some _ => _ | None => _ end).
  assert (exists fh2, moved = inr fh2 /\ d_inv fh2 /\ d_err fh2 = None /\
    d_nonce fh2 = Nat.iter k increment n /\ d_initialNonce fh2 = n /\ d_open fh2 = Some open /\
    streams file (fileHeaderSize + Z.of_nat k * blockSize) ul (d_stream fh2) /\
    exists rc2, d_rc fh2 = Some rc2 /\ seeks file rc2)
    as (fh2 & -> & Hinv2 & Herr2 & Hnonce2 & Hin2 & Hopen2 & Hst2 & rc2 & Hrc2 & Hrcs2).
  { assert (0 <= fileHeaderSize + Z.of_nat k * blockSize) as Hpos by zlen. unfold moved.
    unfold d_inv in Hinv1. rewrite Herr1 in Hinv1. destruct Hinv1 as (?&buf&rbuf&?&?&?&?&?&?&?).
    destruct (rc_RangeSeek rc) as [seek|] eqn:Eseek.
    - destruct (Hrcs seek Eseek _ ul Hpos) as (s & -> & Hs). eexists. split; [done|]. split_and!; try done.
      + unfold d_inv. cbn. rewrite Herr1. exists (rc_set_stream rc s), buf, rbuf. split_and!; done || lia.
      + by eexists.
    - destruct (Hserves _ ul Hpos) as (rc' & -> & Hs & Hrcs'). eexists. split; [done|]. split_and!; try done.
      + unfold d_inv. cbn. rewrite Herr1. exists rc', buf, rbuf. split_and!; done || lia.
      + by eexists. }
  destruct Hst2 as [Hdata2 HEOF2]. unfold start. rewrite Hk. clear start.
  destruct (zlen data <=? Z.of_nat k * blockDataSize) eqn:Epast; breflect.
  { (* there is no such block *)
    assert (s_data (d_stream fh2) = enc c (Nat.iter k increment n) []) as Hd.
    { rewrite Hdata2. change (enc c _ []) with (@nil Z). unfold range.
      rewrite <- zdrop_zdrop by zlen. rewrite (proj2 file_header), (zdrop_all _ (enc c n data)).
      - case_if; [done|apply ztake_nil].
      - rewrite zlen_enc. apply enc_size_le; zlen. }
    destruct (d_fill_after_seek fh2 [] k Hinv2 Herr2 Hnonce2 HEOF2 Hd) as (fh3 & e & -> & Hf & He).
    cbn [obind]. destruct e as [e|]; [|by destruct He]. destruct He as [_ ->].
    unfold d_finish. rewrite (proj1 (proj2 Hf)). do 2 eexists. by split. }
  destruct (range_blocks k ul) as (X & Hrange & HX); [lia|naive_solver lia|].
  rewrite <- Hk in HX. pose proof (seek_rest offset limit ul X Hoff Hul HX) as Hrest.
  assert (zlen (ztake blockDataSize X) =
          Z.min blockDataSize (zlen data - Z.of_nat k * blockDataSize)) as HXlen.
  { rewrite HX, Hk. destruct Hul as [[Hl ->]|[[Hl Hul]|(Hl & B & -> & _ & HB1 & HB)]].
    - cbn [Z.ltb Z.compare]. zlen.
    - rewrite (proj2 (Z.ltb_lt ul 0)) by lia. zlen.
    - rewrite (proj2 (Z.ltb_ge (_ * _) 0)), Z.div_mul by (done || zlen). zlen. }
  rewrite Hrange in Hdata2.
  destruct (d_fill_after_seek fh2 X k Hinv2 Herr2 Hnonce2 HEOF2 Hdata2) as (fh3 & e & -> & Hf & He).
  cbn [obind]. destruct e as [e|].
  { destruct He as [-> _]. rewrite ztake_nil in HXlen. change (zlen []) with 0 in HXlen. zlen. }
  destruct He as (Hne & Hwin & Hdec).
  destruct Hf as (Hinv3 & Herr3 & Hlim3 & Hin3 & Hopen3 & Hseek3 & HEOF3 & Hnone & _).
  destruct (Hnone eq_refl) as (Hi3 & Hs3 & Hrc3 & _).
  pose proof (zlen_window fh3 Hinv3 Herr3 Hi3) as Hws. rewrite Hwin, HXlen in Hws.
  pose proof (Z.div_mod offset blockDataSize ltac:(done)) as Hdm.
  pose proof (Z.mod_pos_bound offset blockDataSize ltac:(done)) as Hmb. rewrite Hk in Hdm.
  destruct (zlen data <? offset) eqn:Eend; breflect.
  { rewrite (proj2 (Z.ltb_lt _ _)) by lia. unfold d_finish. rewrite Herr3. do 2 eexists. by split. }
  rewrite (proj2 (Z.ltb_ge _ _)) by lia. do 2 eexists. split; [done|]. split; [done|].
  set (fh4 := mkDecrypter _ _ _ _ _ _ _ _ _ _).
  assert (d_inv fh4) as Hinv4.
  { unfold d_inv in *. cbn. rewrite Herr3 in *.
    destruct Hinv3 as (rc3 & buf3 & rbuf3 & ?&?&?&?&?&?&?). exists rc3, buf3, rbuf3.
    split_and!; done || lia. }
  split_and!.
  - split; [done|]. intros _. by rewrite <- HEOF2, <- HEOF3.
  - destruct (d_rc fh3) as [rc3|] eqn:Er3; [|done]. split_and!; try done.
    + by left.
    + unfold fh4. cbn. congruence.
    + unfold fh4. cbn. congruence.
    + exists rc3. split; [done|]. intros seek Es. apply Hrcs2. rewrite Hrc2 in Hseek3.
      cbn in Hseek3. congruence.
  - unfold d_rest, d_all, fh4. cbn [d_err d_limit d_nonce]. rewrite Herr3, <- Hrest.
    unfold d_stream. cbn [d_rc]. fold (d_stream fh3). rewrite Hdec. cbn [fst snd]. do 2 f_equal.
    rewrite <- (ztake_zdrop blockDataSize X) at 2. rewrite zdrop_le_app by lia. f_equal.
    rewrite <- Hwin. unfold d_window. cbn [d_bufIndex d_bufSize d_buf]. rewrite Hi3, Z.sub_0_r, zdrop_0.
    unfold ztake, zdrop. rewrite skipn_firstn_comm. f_equal. lia.
Qed.

(** A handle on a stream of the file, from its start. *)
Lemma newDecrypter_file rc lim :
  streams file 0 lim (rc_stream rc) -> lim < 0 \/ fileHeaderSize <= lim -> seeks file rc ->
  exists fh, newDecrypter getBlock rc = Ret (inr fh) /\
    d_inv fh /\ d_err fh = None /\ d_limit fh = -1 /\ d_bufIndex fh = d_bufSize fh /\
    d_nonce fh = n /\ d_initialNonce fh = n /\ s_err (d_stream fh) = EOF /\
    s_data (d_stream fh) = range (enc c n data) 0 (if lim <? 0 then -1 else lim - fileHeaderSize) /\
    exists rc', d_rc fh = Some rc' /\ seeks file rc'.
Proof.
  intros [Hdata HEOF] Hlim Hseeks.
  assert (ztake fileHeaderSize (s_data (rc_stream rc)) = fileMagicBytes ++ n /\
    zdrop fileHeaderSize (s_data (rc_stream rc)) =
    range (enc c n data) 0 (if lim <? 0 then -1 else lim - fileHeaderSize)) as [Hh Hd].
  { rewrite Hdata. unfold range. rewrite !zdrop_0. destruct (lim <? 0) eqn:El; breflect; [apply file_header|].
    rewrite (proj2 (Z.ltb_ge (lim - fileHeaderSize) 0)) by lia. split.
    - rewrite ztake_ztake, Z.min_l by lia. apply file_header.
    - rewrite <- (proj2 file_header). unfold ztake, zdrop. rewrite skipn_firstn_comm. f_equal. zlen. }
  destruct (newDecrypter_spec c getBlock getBlock_size rc) as (r & -> & Hr).
  destruct r as [[fh e]|fh].
  { exfalso. destruct Hr as [_ Hr]. destruct (Hr HEOF) as [_ [Hshort|Hmagic]].
    - apply (f_equal zlen) in Hh. rewrite zlen_app, (proj2 Hn) in Hh.
      change (zlen fileMagicBytes) with fileMagicSize in Hh. zlen.
    - apply Hmagic. transitivity (ztake fileMagicSize (ztake fileHeaderSize (s_data (rc_stream rc)))).
      + by rewrite ztake_ztake.
      + rewrite Hh. apply (ztake_app_eq fileMagicBytes). }
  destruct Hr as (H1 & H2 & H3 & _ & H5 & H6 & H7 & H8 & H9 & _ & (rc' & Hrc' & Hs') & _).
  exists fh. rewrite (zdrop_ztake_header _ Hh) in H9. split_and!; try congruence.
  exists rc'. split; [done|]. intros seek Es. apply Hseeks. congruence.
Qed.

Lemma d_rest_fresh fh X limit open : d_inv fh -> d_err fh = None -> d_bufIndex fh = d_bufSize fh ->
  dec c (d_nonce fh) (s_data (d_stream fh)) = (X, EOF) ->
  d_rest c (d_set_limit (d_set_open fh open) limit) = cut limit (X, EOF).
Proof.
  intros Hinv Herr Hidx Hdec. unfold d_rest, d_all, d_stream, d_window, d_set_limit, d_set_open.
  cbn [d_err d_limit d_rc d_nonce d_bufIndex d_bufSize d_buf]. rewrite Herr. fold (d_stream fh).
  rewrite Hdec, Hidx, Z.sub_diag. done.
Qed.

(** A new handle at an offset; [DecryptDataSeek]. *)
Lemma newDecrypterSeek_spec open offset limit :
  serves open file -> 0 <= offset -> in_i64 limit ->
  fileHeaderSize + offset / blockDataSize * blockSize <= i64_max ->
  let start := offset / blockDataSize * blockDataSize in
  exists r, newDecrypterSeek c getBlock open offset limit = Ret r /\
    if negb (offset =? 0) && (zlen data <=? start) then r = inl EOF
    else if zlen data <? offset then r = inl ErrorBadSeek
    else exists fh, r = inr fh /\ d_live fh /\ d_rest c fh = (range data offset limit, EOF).
Proof.
  intros Hserves Hoff Hlim Hmax start. unfold newDecrypterSeek.
  destruct (decide (offset = 0)) as [->|Hnz].
  - (* from the start *)
    cbn [Z.eqb negb andb]. rewrite (proj2 (Z.ltb_ge (zlen data) 0)) by zlen.
    pose proof (calculateUnderlying_spec 0 limit Hoff Hlim Hmax) as Hcalc.
    destruct (calculateUnderlying 0 limit) as [[[uo ul] discard] blocks].
    destruct Hcalc as (_ & _ & _ & Hul).
    set (lim := if limit <? 0 then -1 else i64 (fileHeaderSize + ul)).
    assert (exists X, range (enc c n data) 0 (if lim <? 0 then -1 else lim - fileHeaderSize) = enc c n X /\
      cut limit (X, EOF) = (range data 0 limit, EOF) /\ (lim < 0 \/ fileHeaderSize <= lim))
      as (X & HX & Hcut & Hl).
    { destruct (decide (lim < 0)) as [Hneg|Hpos].
      - exists data. rewrite (proj2 (Z.ltb_lt lim 0) Hneg), cut_EOF. split_and!; [reflexivity|reflexivity|by left].
      - unfold lim in Hpos |- *. destruct (limit <? 0) eqn:El; breflect; [lia|].
        destruct Hul as [[Hl _]|[[Hl Hul]|(Hl & B & Hul & Hmx & HB1 & HB)]]; [lia| |].
        { rewrite i64_id in Hpos; [zlen|]. unfold in_i64, i64_min, i64_max. zlen. }
        destruct (i64_wrap (fileHeaderSize + ul)) as [[Heq _]|?]; [unfold i64_max in *; zlen| |lia].
        rewrite Heq in *. rewrite (proj2 (Z.ltb_ge (fileHeaderSize + ul) 0)) by lia.
        exists (ztake (Z.of_nat B * blockDataSize) data). split_and!.
        + unfold range. replace (fileHeaderSize + ul - fileHeaderSize) with ul by lia.
          rewrite (proj2 (Z.ltb_ge ul 0)), zdrop_0, Hul by zlen. apply enc_take.
        + rewrite cut_EOF. unfold range. rewrite (proj2 (Z.ltb_ge limit 0)), ztake_ztake, zdrop_0 by done.
          do 2 f_equal. change (0 mod blockDataSize) with 0 in HB. lia.
        + right. zlen. }
    destruct (Hserves 0 lim) as (rc & Hopen & Hst & Hseeks); [done|].
    destruct (newDecrypter_file rc lim Hst Hl Hseeks)
      as (fh & Hnew & Hinv & Herr & Hlm & Hidx & Hnn & _ & HE & Hdata & _).
    rewrite HX in Hdata.
    pose proof (fun l => d_rest_fresh fh X l open Hinv Herr Hidx ltac:(by rewrite Hnn, Hdata, dec_enc)) as Hrest.
    destruct (limit <? 0) eqn:El; breflect; unfold lim in Hopen; rewrite Hopen; cbn [obind];
      rewrite Hnew; cbn [obind]; eexists; (split; [done|]); eexists; (split; [done|]);
      (split; [split; [exact Hinv|intros _; exact HE]|]).
    + rewrite <- Hcut, cut_EOF, (proj2 (Z.ltb_lt limit 0)) by done.
      specialize (Hrest (d_limit fh)). rewrite cut_EOF in Hrest.
      replace (d_limit fh <? 0) with true in Hrest by (by rewrite Hlm). exact Hrest.
    + by rewrite Hrest.
  - (* with a seek *)
    rewrite (proj2 (Z.eqb_neq offset 0)) by done. cbn [negb andb].
    destruct (Hserves 0 fileHeaderSize) as (rc & -> & Hst & Hseeks); [done|].
    destruct (newDecrypter_file rc fileHeaderSize Hst ltac:(by right) Hseeks)
      as (fh & -> & Hinv & Herr & Hlm & Hidx & Hnn & Hin & HE & Hdata & Hrc). cbn [obind].
    destruct (d_RangeSeek_spec open (d_set_open fh open) offset limit) as (fh' & r & -> & Hr);
      [done| |done|done|done|].
    { split_and!; try done. by left. }
    cbn [obind]. fold start in Hr. destruct (zlen data <=? start); [subst r; by eexists|].
    destruct (zlen data <? offset); [subst r; by eexists|].
    destruct Hr as (-> & Hlive & _ & Hrest). cbn [obind]. eexists. split; [done|]. by eexists.
Qed.
End seeking.

(** ** The main theorems *)

(** A new encrypter has the header and the sealed blocks to give. *)
Lemma newEncrypter_spec {SB : Secretbox} c getBlock input n rand :
  zlen getBlock = blockSize -> zlen n = fileNonceSize ->
  exists fh, newEncrypter getBlock input (Some n) rand = inr fh /\ e_inv fh /\
    e_rest c fh = (encrypt_file c n (s_data input), s_err input).
Proof.
  intros Hg Hn. eexists. split; [done|].
  set (buf := ztake fileMagicSize (copy getBlock fileMagicBytes) ++ _).
  assert (exists rest, buf = (fileMagicBytes ++ n) ++ rest /\ zlen rest = blockSize - fileHeaderSize)
    as (rest & Hbuf & Hrest).
  { assert (copy getBlock fileMagicBytes = fileMagicBytes ++ zdrop fileMagicSize getBlock) as Hc.
    { unfold copy. rewrite take_ge; [done|]. unfold zlen in Hg. cbn [length fileMagicBytes].
      unfold blockSize, blockHeaderSize, blockDataSize in Hg. lia. }
    exists (zdrop fileNonceSize (zdrop fileMagicSize getBlock)). split; [|zlen].
    unfold buf. rewrite Hc.
    rewrite (ztake_app_eq fileMagicBytes _ : ztake fileMagicSize _ = _).
    rewrite (zdrop_app_eq fileMagicBytes _ : zdrop fileMagicSize _ = _). rewrite <- app_assoc. f_equal.
    unfold copy. rewrite take_ge.
    - f_equal. unfold zdrop at 2. f_equal. unfold zlen in Hn. lia.
    - assert (zlen n <= zlen (zdrop fileMagicSize getBlock)) as H by zlen. unfold zlen in H. lia. }
  assert (zlen (fileMagicBytes ++ n) = fileHeaderSize) as Hh.
  { rewrite zlen_app, Hn. done. }
  split.
  - unfold e_inv. cbn [e_err e_buf e_readBuf e_bufIndex e_bufSize]. exists buf, getBlock. split_and!; try done.
    rewrite Hbuf, zlen_app, Hh. lia.
  - unfold e_rest. cbn [e_err e_buf e_bufIndex e_bufSize e_nonce e_in default from_option id].
    rewrite Hbuf, Z.sub_0_r, zdrop_0, <- Hh, ztake_app_eq. unfold encrypt_file, enc.
    by rewrite app_assoc.
Qed.

Lemma exact_EncryptedSize size : 0 <= size -> fileHeaderSize + enc_size size <= i64_max ->
  EncryptedSize size = fileHeaderSize + enc_size size.
Proof.
  intros Hs Hmax. unfold EncryptedSize. rewrite Z.rem_mod_nonneg, Z.quot_div_nonneg by done.
  assert (0 <= size / blockDataSize) by (apply Z.div_pos; done).
  pose proof (Z.mod_pos_bound size blockDataSize ltac:(done)).
  unfold enc_size in *. change (blockHeaderSize + blockDataSize) with blockSize.
  set (b := size / blockDataSize * blockSize) in *. set (r := size mod blockDataSize) in *.
  assert (0 <= b) by (unfold b; zlen).
  rewrite (i64_id b) by (unfold in_i64, i64_min, i64_max in *; destruct (r =? 0); zlen).
  rewrite (i64_id (fileHeaderSize + b)) by (unfold in_i64, i64_min, i64_max in *; destruct (r =? 0); zlen).
  destruct (r =? 0) eqn:Er; cbn [negb]; [lia|].
  rewrite i64_id; [lia|]. unfold in_i64, i64_min, i64_max in *. zlen.
Qed.

(** A handle on any stream that ends with EOF: refused, or read to the end. *)
Lemma decrypter_drains {SB : Secretbox} c getBlock rc sizes :
  let content := s_data (rc_stream rc) in
  zlen getBlock = blockSize -> s_err (rc_stream rc) = EOF -> Forall (fun k => 0 < k) sizes ->
  zlen (fst (decrypt_file c content)) < Z.of_nat (length sizes) ->
  (exists fh e, newDecrypter getBlock rc = Ret (inl (fh, e)) /\ decrypt_file c content = ([], e) /\
     (exists rc', d_rc fh = Some rc' /\ rc_closed rc' = true) /\
     (zlen content < fileHeaderSize \/ ztake fileMagicSize content <> fileMagicBytes)) \/
  (exists fh fh', newDecrypter getBlock rc = Ret (inr fh) /\
     drain (d_Read c) sizes fh =
       Ret (fh', fst (decrypt_file c content), Some (snd (decrypt_file c content))) /\ d_inv fh').
Proof.
  intros content Hg HE Hs Hl.
  destruct (newDecrypter_spec c getBlock Hg rc) as (r & -> & Hr).
  destruct r as [[fh e]|fh].
  - left. destruct Hr as [Hc Hr]. destruct (Hr HE) as [? ?]. exists fh, e.
    split_and!; try done. apply Hc. congruence.
  - right. destruct Hr as (Hinv & Herr & Hlim & _ & Hidx & _ & HE' & _ & _ & _ & _ & Hdec).
    assert (d_rest c fh = decrypt_file c content) as Hrest.
    { unfold content. rewrite Hdec. unfold d_rest, d_all, cut, d_window. rewrite Herr, Hlim, Hidx, Z.sub_diag.
      cbn. by destruct (dec _ _ _). }
    destruct (drain_spec (d_Read c) d_live (d_rest c) sizes fh) as (fh' & Hd & [Hinv' _]).
    + split; [done|]. intros _. congruence.
    + done.
    + by rewrite Hrest.
    + rewrite Hrest in Hd. by exists fh, fh'.
Qed.

Lemma decrypt_encrypt_file {SB : Secretbox} c n data : wf_nonce n ->
  decrypt_file c (encrypt_file c n data) = (data, EOF).
Proof.
  intros Hn. destruct (file_header c n data Hn) as [Hh Ht].
  erewrite decrypt_file_header; [by rewrite Ht, dec_enc|done..].
Qed.

(** C17: reading an encrypter to its end and decrypting what it gave returns the
    data: whatever sizes of buffer the two readers are read with, however the
    streams below cut their data up, and whatever was left in the buffers of
    the pool.  The encrypted file is as long as [EncryptedSize] says. *)
Theorem crypt_roundtrip {SB : Secretbox} c getBlock input n rand sizes :
  zlen getBlock = blockSize -> wf_nonce n -> Forall (fun k => 0 < k) sizes ->
  s_err input = EOF -> fileHeaderSize + enc_size (zlen (s_data input)) < Z.of_nat (length sizes) ->
  exists fh fh' out, newEncrypter getBlock input (Some n) rand = inr fh /\
    drain (e_Read c) sizes fh = Ret (fh', out, Some EOF) /\
    (zlen out <= i64_max -> EncryptedSize (zlen (s_data input)) = zlen out) /\
    forall rc sizes', s_data (rc_stream rc) = out -> s_err (rc_stream rc) = EOF ->
      Forall (fun k => 0 < k) sizes' -> zlen (s_data input) < Z.of_nat (length sizes') ->
      exists dh dh', newDecrypter getBlock rc = Ret (inr dh) /\
        drain (d_Read c) sizes' dh = Ret (dh', s_data input, Some EOF).
Proof.
  intros Hg Hn Hsizes HEOF Hlen.
  assert (zlen (encrypt_file c n (s_data input)) = fileHeaderSize + enc_size (zlen (s_data input))) as Hz.
  { unfold encrypt_file. rewrite !zlen_app, (proj2 Hn). fold (enc c n (s_data input)).
    rewrite zlen_enc. change (zlen fileMagicBytes) with fileMagicSize. unfold fileHeaderSize. lia. }
  destruct (newEncrypter_spec c getBlock input n rand Hg (proj2 Hn)) as (fh & Hnew & Hinv & Hrest).
  destruct (drain_spec (e_Read c) e_inv (e_rest c) sizes fh) as (fh' & Hd & _);
    [done|done|by rewrite Hrest; cbn [fst]; rewrite Hz|].
  exists fh, fh', (encrypt_file c n (s_data input)). rewrite Hrest in Hd. cbn [fst snd] in Hd.
  rewrite HEOF in Hd. split_and!; [done|done| |].
  { rewrite Hz. apply exact_EncryptedSize. zlen. }
  intros rc sizes' Hdata HE Hs' Hl'.
  assert (decrypt_file c (s_data (rc_stream rc)) = (s_data input, EOF)) as Hdec.
  { rewrite Hdata. by apply decrypt_encrypt_file. }
  destruct (decrypter_drains c getBlock rc sizes') as [(dh & e & _ & _ & _ & Hbad)|(dh & dh' & H1 & H2 & _)];
    [done|done|done|by rewrite Hdec| |].
  - rewrite Hdata, Hz in Hbad. pose proof (zlen_nonneg (enc c n (s_data input))) as Hnn.
    rewrite zlen_enc in Hnn. destruct Hbad as [Hbad|Hbad]; [lia|]. destruct Hbad.
    apply (ztake_app_eq fileMagicBytes).
  - exists dh, dh'. rewrite Hdec in H2. by split.
Qed.

(** A box for the examples: the tag is the start of the nonce. *)
Definition ex_tag (n : nonce) : bytes := take 16 (n ++ replicate 16 0).

Definition ex_Seal (m : bytes) (n : nonce) (k : bytes) : bytes := ex_tag n ++ m.

Definition ex_Open (b : bytes) (n : nonce) (k : bytes) : option bytes :=
  if bool_decide (take 16 b = ex_tag n) then Some (drop 16 b) else None.

Lemma ex_tag_length n : length (ex_tag n) = 16%nat.
Proof. unfold ex_tag. rewrite length_take, length_app, length_replicate. lia. Qed.

Lemma ex_Seal_length m n k : zlen (ex_Seal m n k) = zlen m + blockHeaderSize.
Proof.
  unfold zlen, ex_Seal, blockHeaderSize. rewrite length_app, ex_tag_length. lia.
Qed.

Lemma ex_Open_Seal m n k : ex_Open (ex_Seal m n k) n k = Some m.
Proof.
  unfold ex_Open, ex_Seal. rewrite take_app_length', drop_app_length' by (by rewrite ex_tag_length).
  by rewrite bool_decide_eq_true_2.
Qed.

Lemma ex_Open_length b n k m : ex_Open b n k = Some m -> zlen b = zlen m + blockHeaderSize.
Proof.
  unfold ex_Open. case_bool_decide as Ht; [|done]. intros [= <-].
  apply (f_equal length) in Ht. rewrite ex_tag_length, length_take in Ht.
  unfold zlen, blockHeaderSize. rewrite length_drop. lia.
Qed.

Definition ex_box : Secretbox :=
  {| Seal := ex_Seal; Open := ex_Open; Seal_length := ex_Seal_length;
     Open_Seal := ex_Open_Seal; Open_length := ex_Open_length |}.

Definition ex_cipher : Cipher :=
  mkCipher (replicate 32 0) (replicate 32 0) (replicate 16 0) NameEncryptionStandard true false ".bin".

Definition ex_nonce : nonce := replicate 24 255.

Definition ex_block : bytes := replicate (Z.to_nat blockSize) 170.

Definition ex_input : stream := mkStream [104; 105] EOF [(1%nat, true); (0%nat, false)].

Lemma ex_block_size : zlen ex_block = blockSize.
Proof. vm_compute. reflexivity. Qed.

Lemma ex_nonce_wf : wf_nonce ex_nonce.
Proof. split; [|done]. unfold ex_nonce, is_byte. repeat constructor; lia. Qed.

Lemma crypt_roundtrip_witness :
  exists fh fh' out, newEncrypter ex_block ex_input (Some ex_nonce) ex_input = inr fh /\
    drain (@e_Read ex_box ex_cipher) (replicate 60 7) fh = Ret (fh', out, Some EOF) /\ (zlen out <= i64_max -> 50 = zlen out).
Proof.
  destruct (@crypt_roundtrip ex_box ex_cipher ex_block ex_input ex_nonce ex_input (replicate 60 7))
    as (fh & fh' & out & H1 & H2 & H3 & _).
  - exact ex_block_size.
  - exact ex_nonce_wf.
  - repeat constructor; lia.
  - reflexivity.
  - vm_compute. reflexivity.
  - exists fh, fh', out. split; [exact H1|]. split; [exact H2|]. exact H3.
Defined.


(** A file whose block does not authenticate. *)
Definition ex_corrupt : ReadCloser :=
  mkRC (mkStream (fileMagicBytes ++ ex_nonce ++ replicate 16 0 ++ [1; 2; 3]) EOF [(5%nat, false)])
    None None false.


(** C18: opening an encrypted file at an offset with a limit and reading it to
    the end gives exactly that range of the data and EOF, although only whole
    blocks are fetched from below and the nonce is moved without reading what
    comes before.  An offset past the end is refused, with ErrorBadSeek inside
    the last block and with EOF behind it; so is the very end of a file whose
    size is a multiple of the block size, while the end of other files can be
    opened. *)
Theorem seek_reads_range {SB : Secretbox} c getBlock n data open offset limit sizes :
  zlen getBlock = blockSize -> wf_nonce n -> serves open (encrypt_file c n data) ->
  0 <= offset -> in_i64 limit -> fileHeaderSize + offset / blockDataSize * blockSize <= i64_max ->
  Forall (fun k => 0 < k) sizes -> zlen data < Z.of_nat (length sizes) ->
  let opened := newDecrypterSeek c getBlock open offset limit in
  if negb (offset =? 0) && (zlen data <=? offset / blockDataSize * blockDataSize)
  then opened = Ret (inl EOF)
  else if zlen data <? offset then opened = Ret (inl ErrorBadSeek)
  else exists fh fh', opened = Ret (inr fh) /\
         drain (d_Read c) sizes fh = Ret (fh', range data offset limit, Some EOF).
Proof.
  intros Hg Hn Hserves Hoff Hlim Hmax Hs Hl opened.
  destruct (newDecrypterSeek_spec c getBlock Hg n data Hn open offset limit) as (r & Hr & Hcase);
    [done..|]. unfold opened. rewrite Hr.
  destruct (_ && _); [by rewrite Hcase|]. destruct (zlen data <? offset); [by rewrite Hcase|].
  destruct Hcase as (fh & -> & Hlive & Hrest).
  destruct (drain_spec (d_Read c) d_live (d_rest c) sizes fh) as (fh' & Hd & _); [done|done| |].
  { rewrite Hrest. cbn [fst]. unfold range. case_if; zlen. }
  rewrite Hrest in Hd. by exists fh, fh'.
Qed.

(** An object below that can be opened anywhere. *)
Definition ex_open (file : bytes) : OpenRangeSeek := fun off lim =>
  inr (mkRC (mkStream (range file off lim) EOF [(3%nat, false)]) None None false).

Lemma ex_open_serves file : serves (ex_open file) file.
Proof. intros off lim _. eexists. split; [done|]. split; [done|]. intros seek [=]. Qed.

Lemma seek_reads_range_witness :
  exists fh fh', @newDecrypterSeek ex_box ex_cipher ex_block
      (ex_open (@encrypt_file ex_box ex_cipher ex_nonce [10; 20; 30; 40; 50])) 2 2 = Ret (inr fh) /\
    drain (@d_Read ex_box ex_cipher) (replicate 6 1) fh = Ret (fh', [30; 40], Some EOF).
Proof.
  apply (@seek_reads_range ex_box ex_cipher ex_block ex_nonce [10; 20; 30; 40; 50]
    (ex_open (@encrypt_file ex_box ex_cipher ex_nonce [10; 20; 30; 40; 50])) 2 2 (replicate 6 1)).
  - exact ex_block_size.
  - exact ex_nonce_wf.
  - apply ex_open_serves.
  - lia.
  - vm_compute. split; discriminate.
  - vm_compute. discriminate.
  - repeat constructor; lia.
  - vm_compute. reflexivity.
Defined.

(** C37: a handle never panics, whatever is done with it in whatever order
    (reads, seeks to offsets that are not negative, closing, and going on after
    errors or after closing) and whatever the streams and the object below
    answer; between the operations its buffers are there exactly while it has
    no error, and the bytes to deliver lie within them. *)
Theorem decrypter_never_panics {SB : Secretbox} c getBlock rc open ops :
  zlen getBlock = blockSize -> Forall op_ok ops ->
  exists r, newDecrypter getBlock rc = Ret r /\
    forall fh, r = inr fh ->
      exists fh', run_ops c getBlock (d_set_open fh open) ops = Ret fh' /\ d_inv fh'.
Proof.
  intros Hg Hops. destruct (newDecrypter_spec c getBlock Hg rc) as (r & Hr & Hopened).
  exists r. split; [done|]. intros fh ->. destruct Hopened as [Hinv _].
  by apply run_ops_inv.
Qed.

Lemma decrypter_never_panics_witness :
  exists r, newDecrypter ex_block ex_corrupt = Ret r /\ forall fh, r = inr fh ->
    exists fh', @run_ops ex_box ex_cipher ex_block
      (d_set_open fh (fun _ _ => inl (ErrorOther 1)))
      [OpRead 3; OpRangeSeek 7 0 (-1); OpClose; OpRead 1; OpClose] = Ret fh' /\ d_inv fh'.
Proof.
  apply (@decrypter_never_panics ex_box ex_cipher ex_block ex_corrupt).
  - exact ex_block_size.
  - repeat constructor; cbn; lia.
Defined.

Lemma divmod_eq a b q r : 0 <= r < b -> a = b * q + r -> a / b = q /\ a mod b = r.
Proof.
  intros Hr ->. split; [symmetry; by apply Z.div_unique with (r := r); [left|]|].
  symmetry. by apply Z.mod_unique with (q := q); [left|].
Qed.

(** [enc_size] of [q] full blocks and [r] bytes. *)
Lemma enc_size_eq q r : 0 <= r < blockDataSize ->
  enc_size (q * blockDataSize + r) = q * blockSize + (if r =? 0 then 0 else blockHeaderSize + r).
Proof.
  intros Hr. unfold enc_size.
  destruct (divmod_eq (q * blockDataSize + r) blockDataSize q r) as [-> ->]; [done|lia|done].
Qed.

(** [DecryptedSize] of a header, [q] full blocks and [t] bytes more. *)
Lemma DecryptedSize_eq q t : 0 <= q -> 0 <= t < blockSize ->
  fileHeaderSize + (q * blockSize + t) <= i64_max ->
  DecryptedSize (fileHeaderSize + (q * blockSize + t)) =
  if t =? 0 then inr (q * blockDataSize)
  else if t <=? blockHeaderSize then inl ErrorEncryptedFileBadHeader
  else inr (q * blockDataSize + (t - blockHeaderSize)).
Proof.
  intros Hq Ht Hmax. unfold DecryptedSize.
  replace (fileHeaderSize + (q * blockSize + t) - fileHeaderSize) with (q * blockSize + t) by lia.
  assert (0 <= q * blockDataSize /\ q * blockDataSize + t <= q * blockSize + t) by zlen.
  assert (0 <= q * blockSize + t) as Hpos by zlen.
  rewrite i64_id by (unfold in_i64, i64_min, i64_max in *; zlen).
  rewrite (proj2 (Z.ltb_ge _ 0)), Z.rem_mod_nonneg, Z.quot_div_nonneg by done.
  destruct (divmod_eq (q * blockSize + t) blockSize q t) as [-> ->]; [done|lia|].
  rewrite (i64_id (q * blockDataSize)) by (unfold in_i64, i64_min, i64_max in *; zlen).
  destruct (t =? 0) eqn:Et; breflect; cbn [negb].
  - subst t. by rewrite Z.add_0_r, i64_id by (unfold in_i64, i64_min, i64_max in *; zlen).
  - replace (t - blockHeaderSize <=? 0) with (t <=? blockHeaderSize)
      by (apply eq_true_iff_eq; rewrite !Z.leb_le; lia).
    case_if; [done|]. by rewrite i64_id by (unfold in_i64, i64_min, i64_max in *; zlen).
Qed.

(** The size of an encrypted file determines the size of the data and the
    other way around: [DecryptedSize] undoes [EncryptedSize] for every size
    whose encrypted size fits 64 bits, and whenever it accepts the size of a
    file, that is the [EncryptedSize] of what it answers, which is smaller and
    not negative. *)
Theorem sizes_inverse size :
  (0 <= size -> fileHeaderSize + enc_size size <= i64_max ->
     DecryptedSize (EncryptedSize size) = inr size) /\
  (in_i64 size -> fileHeaderSize + i64_min <= size -> forall d, DecryptedSize size = inr d ->
     0 <= d < size /\ EncryptedSize d = size).
Proof.
  split.
  - intros Hs Hmax. rewrite exact_EncryptedSize by done.
    pose proof (Z.div_mod size blockDataSize ltac:(done)) as Hdm.
    pose proof (Z.mod_pos_bound size blockDataSize ltac:(done)) as Hmb.
    assert (0 <= size / blockDataSize) as Hq by (apply Z.div_pos; done).
    unfold enc_size in *. rewrite DecryptedSize_eq; [|done|case_if; zlen|done].
    destruct (size mod blockDataSize =? 0) eqn:Er; breflect; [f_equal; lia|].
    rewrite (proj2 (Z.eqb_neq _ 0)), (proj2 (Z.leb_gt _ _)) by zlen. f_equal. lia.
  - intros [_ Hmax] Hmin d Hd.
    destruct (decide (size < fileHeaderSize)) as [Hlt|Hge].
    { unfold DecryptedSize in Hd. rewrite i64_id, (proj2 (Z.ltb_lt _ 0)) in Hd;
        [done|lia|unfold in_i64, i64_max in *; zlen]. }
    pose proof (Z.div_mod (size - fileHeaderSize) blockSize ltac:(done)) as Hdm.
    pose proof (Z.mod_pos_bound (size - fileHeaderSize) blockSize ltac:(done)) as Hmb.
    assert (0 <= (size - fileHeaderSize) / blockSize) as Hq by (apply Z.div_pos; done || lia).
    revert Hdm Hmb Hq. generalize ((size - fileHeaderSize) / blockSize) as q.
    generalize ((size - fileHeaderSize) mod blockSize) as t. intros t q Hdm Ht Hq.
    assert (size = fileHeaderSize + (q * blockSize + t)) as -> by lia.
    rewrite DecryptedSize_eq in Hd by done. clear Hdm.
    destruct (t =? 0) eqn:Et; breflect; [|case_if_in Hd; [done|]]; injection Hd as <-.
    + subst t. rewrite exact_EncryptedSize; replace (q * blockDataSize) with (q * blockDataSize + 0) by lia;
        rewrite ?enc_size_eq by done; cbn [Z.eqb]; zlen.
    + rewrite exact_EncryptedSize; rewrite ?enc_size_eq by zlen;
        rewrite ?(proj2 (Z.eqb_neq (t - blockHeaderSize) 0)) by zlen; zlen.
Qed.

Lemma sizes_inverse_witness :
  DecryptedSize (EncryptedSize 70000) = inr 70000 /\ EncryptedSize 70000 = 70064.
Proof.
  split; [|reflexivity]. apply (proj1 (sizes_inverse 70000)); [lia|]. vm_compute. discriminate.
Defined.

(** Moving the nonce by a number of blocks in one addition, as a seek does,
    is the same as incrementing it once per block, as reading does, with the
    carries across all 24 bytes; and different blocks of a file have different
    nonces. *)
Theorem add_is_increments n : wf_nonce n ->
  (forall x, 0 <= x < 2 ^ 64 -> add n x = Nat.iter (Z.to_nat x) increment n) /\
  (forall x y, 0 <= x < 2 ^ 64 -> 0 <= y < 2 ^ 64 -> add n x = add n y -> x = y).
Proof.
  intros Hn. split.
  - intros x Hx. rewrite <- (Z2Nat.id x) at 1 by lia. apply add_iter; [done|lia].
  - intros x y Hx Hy Heq. apply (f_equal nval) in Heq.
    rewrite (proj2 (add_spec n x Hn Hx)), (proj2 (add_spec n y Hn Hy)) in Heq.
    pose proof (Z.mod_eq (nval n + x) (2 ^ 192) ltac:(lia)).
    pose proof (Z.mod_eq (nval n + y) (2 ^ 192) ltac:(lia)).
    assert (x - y = 2 ^ 192 * ((nval n + x) / 2 ^ 192 - (nval n + y) / 2 ^ 192)) as Hxy by lia.
    revert Hxy. generalize ((nval n + x) / 2 ^ 192 - (nval n + y) / 2 ^ 192). intros z Hz. lia.
Qed.

Lemma add_is_increments_witness :
  add ex_nonce 3 = 2 :: replicate 23 0 /\ add ex_nonce 3 = Nat.iter (Z.to_nat 3) increment ex_nonce.
Proof.
  split; [reflexivity|]. apply (proj1 (add_is_increments ex_nonce ex_nonce_wf)). lia.
Defined.

(** A handle that was sent before the start of the file does panic: nothing
    checks the sign of the offset. *)
Example negative_seek_panics :
  match @newDecrypterSeek ex_box ex_cipher ex_block
          (ex_open (@encrypt_file ex_box ex_cipher ex_nonce [10; 20])) (-5) (-1) with
  | Ret (inr fh) => @d_Read ex_box ex_cipher fh 1
  | _ => Ret (mkDecrypter None [] [] None None 0 0 None 0 None, [], None)
  end = Panic.
Proof. vm_compute. reflexivity. Qed.

End CryptData.
