(* ===== verification/CryptName.v ===== *)
(** * Encryption of file names: backend/crypt/cipher.go, the name half

    File names are encrypted path segment by path segment.  The standard mode
    pads a segment (backend/crypt/pkcs7), enciphers it with EME over AES and
    encodes the result with one of three text encodings; obfuscation rotates
    each character within its range; and a version string as --b2-versions
    makes them (lib/version) is kept in plain text.  Here are all of these
    except EME, AES and the encodings of other projects, which are parameters,
    with the round trip of each part and of whole paths.

    Strings are byte lists, converted where a path is split and joined. *)
From stdpp Require Import pretty.
From S2P Require Import Prelude GoPath Utf8 Streams CryptData.

Module CryptName.
Import GoPath Utf8 Streams CryptData.

(** ** backend/crypt/pkcs7 *)

Inductive padError : Type :=
  | ErrorPaddingNotFound
  | ErrorPaddingNotAMultiple
  | ErrorPaddingTooLong
  | ErrorPaddingTooShort
  | ErrorPaddingNotAllTheSame.

(** [Pad] panics on a bad multiple. *)
Definition Pad (n : Z) (buf : bytes) : outcome bytes :=
  if (n <=? 1) || (n >=? 256) then Panic
  else
    let padding := n - zlen buf mod n in
    let buf := buf ++ replicate (Z.to_nat padding) (padding mod 256) in
    if negb (zlen buf mod n =? 0) then Panic else Ret buf.

(** The loop of [Unpad] from the end of the buffer. *)
Fixpoint all_padding (k : nat) (padding : Z) (rev : bytes) : bool :=
  match k, rev with
  | S k', b :: rev' => (b =? padding) && all_padding k' padding rev'
  | S _, [] => false
  | O, _ => true
  end.

Definition Unpad (n : Z) (buf : bytes) : outcome (padError + bytes) :=
  if (n <=? 1) || (n >=? 256) then Panic
  else
    let length := zlen buf in
    if length =? 0 then Ret (inl ErrorPaddingNotFound)
    else if negb (length mod n =? 0) then Ret (inl ErrorPaddingNotAMultiple)
    else
      let! padding := deref (last buf) in
      if padding >? n then Ret (inl ErrorPaddingTooLong)
      else if padding =? 0 then Ret (inl ErrorPaddingTooShort)
      else if negb (all_padding (Z.to_nat padding) padding (reverse buf))
      then Ret (inl ErrorPaddingNotAllTheSame)
      else Ret (inr (ztake (length - padding) buf)).

(** ** lib/version *)

(** What the code uses of a [time.Time]. *)
Record time : Type := mkTime {
  t_year : Z; t_month : Z; t_day : Z; t_hour : Z; t_minute : Z; t_second : Z; t_milli : Z }.

(** The zero value of [time.Time]. *)
Definition zero_time : time := mkTime 1 1 1 0 0 0 0.

Definition is_digit (b : Z) : bool := (48 <=? b) && (b <=? 57).

(** The first [k] bytes as a decimal number, and the rest. *)
Fixpoint num (k : nat) (acc : Z) (s : bytes) : option (Z * bytes) :=
  match k, s with
  | O, _ => Some (acc, s)
  | S k', b :: s' => if is_digit b then num k' (10 * acc + (b - 48)) s' else None
  | S _, [] => None
  end.

Definition lit (c : Z) (s : bytes) : option bytes :=
  match s with b :: s' => if b =? c then Some s' else None | [] => None end.

Definition daysIn (month year : Z) : Z :=
  if month =? 2 then
    if (year mod 4 =? 0) && (negb (year mod 100 =? 0) || (year mod 400 =? 0)) then 29 else 28
  else if (month =? 4) || (month =? 6) || (month =? 9) || (month =? 11) then 30 else 31.

(** [time.Parse(versionFormat, s)] for -v2006-01-02-150405.000 *)
Definition time_Parse (s : bytes) : option time :=
  s ← lit 45 s; s ← lit 118 s;
  '(year, s) ← num 4 0 s; s ← lit 45 s;
  '(month, s) ← num 2 0 s; s ← lit 45 s;
  '(day, s) ← num 2 0 s; s ← lit 45 s;
  '(hour, s) ← num 2 0 s; '(minute, s) ← num 2 0 s; '(second, s) ← num 2 0 s; s ← lit 46 s;
  '(milli, s) ← num 3 0 s;
  if bool_decide (s = []) && (1 <=? month) && (month <=? 12) && (1 <=? day) &&
     (day <=? daysIn month year) && (hour <? 24) && (minute <? 60) && (second <? 60)
  then Some (mkTime year month day hour minute second milli) else None.

(** A number in [k] decimal digits. *)
Fixpoint digits (k : nat) (n : Z) : bytes :=
  match k with
  | O => []
  | S k' => digits k' (n / 10) ++ [48 + n mod 10]
  end.

(** [t.Format(versionFormat)] *)
Definition time_Format (t : time) : bytes :=
  [45; 118] ++ digits 4 (t_year t) ++ [45] ++ digits 2 (t_month t) ++ [45] ++
  digits 2 (t_day t) ++ [45] ++ digits 2 (t_hour t) ++ digits 2 (t_minute t) ++
  digits 2 (t_second t) ++ [46] ++ digits 3 (t_milli t).

(** [path.Ext]: from the last dot of the last element. *)
Fixpoint Ext_rev (rev acc : bytes) : bytes :=
  match rev with
  | [] => []
  | b :: rev' => if b =? 47 then [] else if b =? 46 then 46 :: acc else Ext_rev rev' (b :: acc)
  end.

Definition path_Ext (s : bytes) : bytes := Ext_rev (reverse s) [].

Definition splitExt (fileName : bytes) : bytes * bytes :=
  let ext := path_Ext fileName in
  let base := ztake (zlen fileName - zlen ext) fileName in
  if bool_decide (ext <> []) && bool_decide (base = []) then (ext, base) else (base, ext).

(** [strings.ReplaceAll(s, ".", "-")] *)
Definition dots_to_dashes (s : bytes) : bytes := map (fun b => if b =? 46 then 45 else b) s.

Definition version_Add (fileName : bytes) (t : time) : bytes :=
  let '(base, ext) := splitExt fileName in
  base ++ dots_to_dashes (time_Format t) ++ ext.

Definition versionFormat_len : Z := 23.

Definition version_Remove (fileName : bytes) : time * bytes :=
  let '(base, ext) := splitExt fileName in
  if zlen base <? versionFormat_len then (zero_time, fileName)
  else
    let versionStart := zlen base - versionFormat_len in
    if negb (bool_decide (base !! Z.to_nat (zlen base - 4) = Some 45)) then (zero_time, fileName)
    else
      let base := ztake (zlen base - 4) base ++ [46] ++ zdrop (zlen base - 3) base in
      match time_Parse (zdrop versionStart base) with
      | None => (zero_time, fileName)
      | Some newT => (newT, ztake versionStart base ++ ext)
      end.

(** The regular expression -v\d{4}-\d{2}-\d{2}-\d{6}-\d{3} at the start. *)
Definition match_here (s : bytes) : bool :=
  match (s ← lit 45 s; s ← lit 118 s;
         '(_, s) ← num 4 0 s; s ← lit 45 s; '(_, s) ← num 2 0 s; s ← lit 45 s;
         '(_, s) ← num 2 0 s; s ← lit 45 s; '(_, s) ← num 6 0 s; s ← lit 45 s; num 3 0 s) with
  | Some _ => true
  | None => false
  end.

Fixpoint version_Match (s : bytes) : bool :=
  match_here s || match s with [] => false | _ :: s' => version_Match s' end.

(** "a-v2001-02-03-040506-123.txt", and its name and version. *)
Definition ex_versioned : bytes := to_bytes "a-v2001-02-03-040506-123.txt".

Example version_1 : version_Match ex_versioned = true /\
  version_Remove ex_versioned = (mkTime 2001 2 3 4 5 6 123, to_bytes "a.txt") /\
  version_Add (to_bytes "a.txt") (mkTime 2001 2 3 4 5 6 123) = ex_versioned /\
  version_Remove (to_bytes "a-v2001-02-30-040506-123.txt") =
    (zero_time, to_bytes "a-v2001-02-30-040506-123.txt").
Proof. vm_compute. done. Qed.

(** ** Name modes and encodings *)

Inductive nameError : Type :=
  | ErrorNotAMultipleOfBlocksize
  | ErrorTooShortAfterDecode
  | ErrorTooLongAfterDecode
  | ErrorBadBase32Encoding
  | ErrorNotAnEncryptedFile
  | ErrorPadding (e : padError)
  | ErrorUnknownMode (s : string)
  | ErrorCorruptInput.           (* base32.CorruptInputError *)

Definition NewNameEncryptionMode (s : string) : nameError + NameEncryptionMode :=
  let s := to_lower s in
  if str_eqb s "off" then inr NameEncryptionOff
  else if str_eqb s "standard" then inr NameEncryptionStandard
  else if str_eqb s "obfuscate" then inr NameEncryptionObfuscated
  else inl (ErrorUnknownMode s).

Definition mode_String (m : NameEncryptionMode) : string :=
  match m with
  | NameEncryptionOff => "off"
  | NameEncryptionStandard => "standard"
  | NameEncryptionObfuscated => "obfuscate"
  end.

(** [setEncryptedSuffix]; [strings.EqualFold] on ASCII strings. *)
Definition setEncryptedSuffix (c : Cipher) (suffix : string) : Cipher :=
  let set (suffix : string) :=
    mkCipher (dataKey c) (nameKey c) (nameTweak c) (mode c) (dirNameEncrypt c)
      (passBadBlocks c) suffix in
  if str_eqb (to_lower suffix) "none" then set ""
  else set (match suffix with
            | String a _ => if Ascii.eqb a "."%char then suffix else "." +:+ suffix
            | EmptyString => "."
            end).

(** *** base32: [base32.HexEncoding] of the standard library *)

(** The alphabet 0-9A-V. *)
Definition b32_char (v : Z) : Z := if v <? 10 then 48 + v else 55 + v.

Definition b32_value (ch : Z) : option Z :=
  if (48 <=? ch) && (ch <=? 57) then Some (ch - 48)
  else if (65 <=? ch) && (ch <=? 86) then Some (ch - 55) else None.

(** A group of at most five bytes as a number of 40 bits, its eight digits, and
    how many of them are written; the rest is padding. *)
Definition b32_group (g : bytes) : Z :=
  nth 0 g 0 * 2 ^ 32 + nth 1 g 0 * 2 ^ 24 + nth 2 g 0 * 2 ^ 16 + nth 3 g 0 * 2 ^ 8 + nth 4 g 0.

Definition b32_digits (v : Z) : list Z :=
  map (fun i => v / 2 ^ (35 - 5 * Z.of_nat i) mod 32) (seq 0 8).

Definition b32_chars (bytes_in_group : nat) : nat :=
  match bytes_in_group with 0 => 0 | 1 => 2 | 2 => 4 | 3 => 5 | 4 => 7 | _ => 8 end%nat.

Fixpoint b32_encode (fuel : nat) (src : bytes) : bytes :=
  match fuel, src with
  | S fuel', _ :: _ =>
      let g := take 5 src in
      let n := b32_chars (length g) in
      map b32_char (take n (b32_digits (b32_group g))) ++ replicate (8 - n) 61 ++
      b32_encode fuel' (drop 5 src)
  | _, _ => []
  end.

Definition HexEncoding_EncodeToString (src : bytes) : bytes := b32_encode (length src) src.

(** One quantum of the decoder from position [j], with the digits read so far;
    the result is the digits, whether the input ended, and the rest. *)
Fixpoint b32_quantum (fuel : nat) (j : nat) (dbuf src : bytes) : option (bytes * bool * bytes) :=
  match fuel with
  | O => Some (dbuf, false, src)
  | S fuel' =>
      match src with
      | [] => None
      | ch :: src' =>
          if (ch =? 61) && (2 <=? j)%nat && (length src' <? 8)%nat then
            if (length src' + j <? 7)%nat then None
            else if negb (forallb (fun p => p =? 61) (take (7 - j) src')) then None
            else if (j =? 1)%nat || (j =? 3)%nat || (j =? 6)%nat then None
            else Some (dbuf, true, src')
          else match b32_value ch with
               | None => None
               | Some v => b32_quantum fuel' (S j) (dbuf ++ [v]) src'
               end
      end
  end.

(** The bytes of a quantum of digits. *)
Definition b32_bytes (dbuf : bytes) : bytes :=
  let v := foldl (fun acc d => acc * 32 + d) 0 (take 8 (dbuf ++ replicate 8 0)) in
  let all := [v / 2 ^ 32; v / 2 ^ 24 mod 256; v / 2 ^ 16 mod 256; v / 2 ^ 8 mod 256; v mod 256] in
  take (length dbuf * 5 / 8) all.

Fixpoint b32_decode (fuel : nat) (src : bytes) : option bytes :=
  match fuel, src with
  | S fuel', _ :: _ =>
      '(dbuf, ended, rest) ← b32_quantum 8 0 [] src;
      if (ended : bool) then Some (b32_bytes dbuf)
      else more ← b32_decode fuel' rest; Some (b32_bytes dbuf ++ more)
  | _, _ => Some []
  end.

(** [DecodeString] drops the newlines first. *)
Definition HexEncoding_DecodeString (s : bytes) : option bytes :=
  let s := filter (fun ch => ch <> 10 /\ ch <> 13) s in b32_decode (length s) s.

Fixpoint TrimRight_eq (rev : bytes) : bytes :=
  match rev with b :: rev' => if b =? 61 then TrimRight_eq rev' else rev | [] => [] end.

Definition lower_byte (b : Z) : Z := if (65 <=? b) && (b <=? 90) then b + 32 else b.
Definition upper_byte (b : Z) : Z := if (97 <=? b) && (b <=? 122) then b - 32 else b.

(** [caseInsensitiveBase32Encoding] *)
Definition base32_EncodeToString (src : bytes) : bytes :=
  let encoded := HexEncoding_EncodeToString src in
  map lower_byte (reverse (TrimRight_eq (reverse encoded))).

Definition base32_DecodeString (s : bytes) : nameError + bytes :=
  if bool_decide (last s = Some 61) then inl ErrorBadBase32Encoding
  else
    let roundUpToMultipleOf8 := Z.land (zlen s + 7) (Z.lnot 7) in
    let equals := roundUpToMultipleOf8 - zlen s in
    match HexEncoding_DecodeString (map upper_byte s ++ replicate (Z.to_nat equals) 61) with
    | None => inl ErrorCorruptInput
    | Some b => inr b
    end.

Example base32_1 : map (fun s => of_bytes (base32_EncodeToString (to_bytes s))) [""; "1"; "12"; "123"; "1234"; "12345"; "123456"]
  = [""; "64"; "64p0"; "64p36"; "64p36d0"; "64p36d1l"; "64p36d1l6o"].
Proof. vm_compute. reflexivity. Qed.

(** ** Segments *)

(** The interface [fileNameEncoding] of the source with what the cipher relies
    on: what was encoded decodes, bytes become bytes, and what is encoded has no
    slashes and is not empty. *)
Class fileNameEncoding : Type := {
  EncodeToString : bytes -> bytes;
  DecodeString : bytes -> nameError + bytes;
  Decode_Encode b : Forall is_byte b -> DecodeString (EncodeToString b) = inr b;
  Encode_bytes b : Forall is_byte b -> Forall is_byte (EncodeToString b);
  Encode_no_slash b : Forall is_byte b -> 47 ∉ EncodeToString b;
  Encode_nonempty b : Forall is_byte b -> b <> [] -> EncodeToString b <> [] }.

(** What a call of [eme.Transform] accepts: 1 to 128 blocks of 16 bytes. *)
Definition eme_fits (data : bytes) : bool :=
  (zlen data mod 16 =? 0) && (0 <? zlen data) && (zlen data <=? 2048).

(** [eme.Transform] over a block cipher keyed with the name key, both of other
    projects: a permutation of the byte strings of each length that it accepts,
    for every tweak. *)
Class NameTransform : Type := {
  eme_Encrypt : bytes -> bytes -> bytes -> bytes;  (* key, tweak, data *)
  eme_Decrypt : bytes -> bytes -> bytes -> bytes;
  eme_inverse k t b : Forall is_byte b -> eme_fits b = true -> eme_Decrypt k t (eme_Encrypt k t b) = b;
  eme_bytes k t b : Forall is_byte b -> eme_fits b = true -> Forall is_byte (eme_Encrypt k t b);
  eme_length k t b : eme_fits b = true -> zlen (eme_Encrypt k t b) = zlen b }.

(** It panics on data of other lengths. *)
Definition Transform (f : bytes -> bytes -> bytes -> bytes) (k t data : bytes) : outcome bytes :=
  if eme_fits data then Ret (f k t data) else Panic.

Definition nameCipherBlockSize : Z := 16.

Section names.
Context {FE : fileNameEncoding} {NT : NameTransform}.
Variable c : Cipher.

Definition encryptSegment (plaintext : bytes) : outcome bytes :=
  if decide (plaintext = []) then Ret []
  else
    let! paddedPlaintext := Pad nameCipherBlockSize plaintext in
    let! ciphertext := Transform eme_Encrypt (nameKey c) (nameTweak c) paddedPlaintext in
    Ret (EncodeToString ciphertext).

Definition decryptSegment (ciphertext : bytes) : outcome (nameError + bytes) :=
  if decide (ciphertext = []) then Ret (inr [])
  else
    match DecodeString ciphertext with
    | inl e => Ret (inl e)
    | inr rawCiphertext =>
        if negb (zlen rawCiphertext mod nameCipherBlockSize =? 0)
        then Ret (inl ErrorNotAMultipleOfBlocksize)
        else if zlen rawCiphertext =? 0 then Ret (inl ErrorTooShortAfterDecode)
        else if zlen rawCiphertext >? 2048 then Ret (inl ErrorTooLongAfterDecode)
        else
          let! paddedPlaintext := Transform eme_Decrypt (nameKey c) (nameTweak c) rawCiphertext in
          let! r := Unpad nameCipherBlockSize paddedPlaintext in
          match r with
          | inl e => Ret (inl (ErrorPadding e))
          | inr plaintext => Ret (inr plaintext)
          end
    end.

(** *** Obfuscation *)

Definition sum (l : list Z) : Z := foldr Z.add 0 l.

(** The rotation of one rune; [WriteRune] writes each rune of the result. *)
Definition obfuscate_rune (dir r : Z) : list Z :=
  if r =? 33 then [33; 33]
  else if (48 <=? r) && (r <=? 57) then
    let thisdir := Z.rem dir 9 + 1 in
    [48 + Z.rem (r - 48 + thisdir) 10]
  else if ((65 <=? r) && (r <=? 90)) || ((97 <=? r) && (r <=? 122)) then
    let thisdir := Z.rem dir 25 + 1 in
    let pos := r - 65 in
    let pos := if 26 <=? pos then pos - 6 else pos in
    let pos := Z.rem (pos + thisdir) 52 in
    let pos := if 26 <=? pos then pos + 6 else pos in
    [65 + pos]
  else if (160 <=? r) && (r <=? 255) then
    let thisdir := Z.rem dir 95 + 1 in
    [160 + Z.rem (r - 160 + thisdir) 96]
  else if 256 <=? r then
    let thisdir := Z.rem dir 127 + 1 in
    let base := r - Z.rem r 256 in
    let newRune := base + Z.rem (r - base + thisdir) 256 in
    if negb (ValidRune newRune) then [33; r] else [newRune]
  else [r].

(** [obfuscateSegment]; the sums do not overflow on strings that fit a memory. *)
Definition obfuscateSegment (plaintext : bytes) : bytes :=
  if decide (plaintext = []) then []
  else if negb (ValidString plaintext) then to_bytes "!." ++ plaintext
  else
    let runes := map item_rune (items plaintext) in
    let dir := Z.rem (sum runes) 256 in
    let result := to_bytes (pretty dir +:+ ".") in
    let dir := dir + sum (nameKey c) in
    result ++ ((runes ≫= obfuscate_rune dir) ≫= encode_rune).

Definition deobfuscate_rune (dir r : Z) : Z :=
  if (48 <=? r) && (r <=? 57) then
    let thisdir := Z.rem dir 9 + 1 in
    let newRune := 48 + r - 48 - thisdir in
    if newRune <? 48 then newRune + 10 else newRune
  else if ((65 <=? r) && (r <=? 90)) || ((97 <=? r) && (r <=? 122)) then
    let thisdir := Z.rem dir 25 + 1 in
    let pos := r - 65 in
    let pos := if 26 <=? pos then pos - 6 else pos in
    let pos := pos - thisdir in
    let pos := if pos <? 0 then pos + 52 else pos in
    let pos := if 26 <=? pos then pos + 6 else pos in
    65 + pos
  else if (160 <=? r) && (r <=? 255) then
    let thisdir := Z.rem dir 95 + 1 in
    let newRune := 160 + r - 160 - thisdir in
    if newRune <? 160 then newRune + 96 else newRune
  else if 256 <=? r then
    let thisdir := Z.rem dir 127 + 1 in
    let base := r - Z.rem r 256 in
    let newRune := base + (r - base - thisdir) in
    if newRune <? base then newRune + 256 else newRune
  else r.

(** The loop over the runes with its flag for a quoted rune. *)
Fixpoint deobfuscate_loop (dir : Z) (runes : list Z) (inQuote : bool) : bytes :=
  match runes with
  | [] => []
  | r :: runes' =>
      if inQuote then encode_rune r ++ deobfuscate_loop dir runes' false
      else if r =? 33 then deobfuscate_loop dir runes' true
      else encode_rune (deobfuscate_rune dir r) ++ deobfuscate_loop dir runes' false
  end.

(** [strings.Cut(s, ".")] *)
Fixpoint Cut_dot (s : bytes) : option (bytes * bytes) :=
  match s with
  | [] => None
  | b :: s' =>
      if b =? 46 then Some ([], s')
      else match Cut_dot s' with
           | Some (before, after) => Some (b :: before, after)
           | None => None
           end
  end.

Definition deobfuscateSegment (ciphertext : bytes) : nameError + bytes :=
  if decide (ciphertext = []) then inr []
  else
    match Cut_dot ciphertext with
    | None => inl ErrorNotAnEncryptedFile
    | Some (before, after) =>
        if decide (before = to_bytes "!") then inr after
        else match Atoi (of_bytes before) with
             | None => inl ErrorNotAnEncryptedFile
             | Some dir =>
                 let dir := i64 (dir + sum (nameKey c)) in
                 inr (deobfuscate_loop dir (map item_rune (items after)) false)
             end
    end.

(** ** Paths *)

(** The handling of the version string around a function on segments, as both
    loops have it; [conv] may fail or panic. *)
Definition with_version (strip : bool) (conv : bytes -> outcome (nameError + bytes)) (seg : bytes)
    : outcome (nameError + bytes) :=
  let '(hasVersion, t, seg) :=
    if strip && version_Match seg then
      let '(t, s) := version_Remove seg in
      if bool_decide (s <> seg) then (true, t, s) else (false, zero_time, seg)
    else (false, zero_time, seg) in
  let! r := conv seg in
  match r with
  | inl e => Ret (inl e)
  | inr out => Ret (inr (if (hasVersion : bool) then version_Add out t else out))
  end.

Definition encrypt_one (seg : bytes) : outcome (nameError + bytes) :=
  if decide (mode c = NameEncryptionStandard) then let! s := encryptSegment seg in Ret (inr s)
  else Ret (inr (obfuscateSegment seg)).

Definition decrypt_one (seg : bytes) : outcome (nameError + bytes) :=
  if decide (mode c = NameEncryptionStandard) then decryptSegment seg
  else Ret (deobfuscateSegment seg).

(** The loops of [encryptFileName] and [decryptFileName] over the segments. *)
Fixpoint segments_loop (conv : bytes -> outcome (nameError + bytes)) (stripVersion : bool)
    (segments : list bytes) : outcome (nameError + list bytes) :=
  match segments with
  | [] => Ret (inr [])
  | seg :: rest =>
      let is_last := bool_decide (rest = []) in
      let! r := if negb (dirNameEncrypt c) && negb is_last then Ret (inr seg)
                else with_version (stripVersion && is_last) conv seg in
      match r with
      | inl e => Ret (inl e)
      | inr seg' =>
          let! rs := segments_loop conv stripVersion rest in
          match rs with inl e => Ret (inl e) | inr segs => Ret (inr (seg' :: segs)) end
      end
  end.

Definition convert_path (conv : bytes -> outcome (nameError + bytes)) (stripVersion : bool)
    (path : string) : outcome (nameError + string) :=
  let! r := segments_loop conv stripVersion (map to_bytes (split_on slash path)) in
  match r with
  | inl e => Ret (inl e)
  | inr segs => Ret (inr (join_with "/" (map of_bytes segs)))
  end.

Definition encryptFileName := convert_path encrypt_one.

Definition decryptFileName := convert_path decrypt_one.

Definition EncryptFileName (path : string) : outcome (nameError + string) :=
  if decide (mode c = NameEncryptionOff) then Ret (inr (path +:+ encryptedSuffix c))
  else encryptFileName true path.

Definition EncryptDirName (path : string) : outcome (nameError + string) :=
  if bool_decide (mode c = NameEncryptionOff) || negb (dirNameEncrypt c) then Ret (inr path)
  else encryptFileName false path.

(** [strings.HasSuffix] and the string before the suffix. *)
Definition cut_suffix (s suffix : bytes) : option bytes :=
  let remainingLength := zlen s - zlen suffix in
  if (0 <=? remainingLength) && bool_decide (zdrop remainingLength s = suffix)
  then Some (ztake remainingLength s) else None.

Definition DecryptFileName (path : string) : outcome (nameError + string) :=
  if decide (mode c = NameEncryptionOff) then
    let s := to_bytes path in
    let suffix := to_bytes (encryptedSuffix c) in
    if zlen s - zlen suffix =? 0 then Ret (inl ErrorNotAnEncryptedFile)
    else match cut_suffix s suffix with
         | None => Ret (inl ErrorNotAnEncryptedFile)
         | Some decrypted =>
             if version_Match decrypted && bool_decide (snd (version_Remove decrypted) = [])
             then Ret (inl ErrorNotAnEncryptedFile)
             else Ret (inr (of_bytes decrypted))
         end
  else decryptFileName true path.

Definition DecryptDirName (path : string) : outcome (nameError + string) :=
  if bool_decide (mode c = NameEncryptionOff) || negb (dirNameEncrypt c) then Ret (inr path)
  else
    let! out := decryptFileName false path in
    match out with
    | inr _ => Ret out
    | inl _ =>
        if version_Match (to_bytes (path_Base path)) then
          let! legacy := decryptFileName true path in
          match legacy with inr p => Ret (inr p) | inl _ => Ret out end
        else Ret out
    end.

End names.

(** ** PKCS#7 padding is a bijection onto the buffers that [Unpad] accepts *)

Definition good_multiple (n : Z) : Prop := 1 < n < 256.

Lemma Pad_eq n buf : good_multiple n ->
  let p := n - zlen buf mod n in
  1 <= p <= n /\ Pad n buf = Ret (buf ++ replicate (Z.to_nat p) p) /\
  zlen (buf ++ replicate (Z.to_nat p) p) mod n = 0.
Proof.
  intros [H1 H2] p. pose proof (Z.mod_pos_bound (zlen buf) n ltac:(lia)) as Hm.
  assert (1 <= p <= n) as Hp by (unfold p; lia). split; [done|].
  assert (zlen (buf ++ replicate (Z.to_nat p) p) mod n = 0) as Hz.
  { rewrite zlen_app, zlen_replicate, Z2Nat.id by lia. unfold p.
    pose proof (Z.div_mod (zlen buf) n ltac:(lia)) as Hdm.
    replace (zlen buf + (n - zlen buf mod n)) with ((zlen buf / n + 1) * n) by lia.
    apply Z.mod_mul. lia. }
  split; [|done]. unfold Pad. fold p.
  rewrite (proj2 (Z.leb_gt n 1)), Z.geb_leb, (proj2 (Z.leb_gt 256 n)) by lia. cbn [orb].
  rewrite (Z.mod_small p 256) by lia. by rewrite Hz.
Qed.

Lemma all_padding_spec k p rev :
  all_padding k p rev = true <-> exists rest, rev = replicate k p ++ rest.
Proof.
  revert rev. induction k as [|k IH]; intros rev; cbn [all_padding].
  { split; [|done]. intros _. by exists rev. }
  destruct rev as [|b rev].
  { split; [done|]. intros [rest [=]]. }
  rewrite andb_true_iff, Z.eqb_eq, IH. split.
  - intros [-> [rest ->]]. by exists rest.
  - intros [rest [= -> ->]]. split; [done|]. by exists rest.
Qed.

(** The buffers that are accepted are those with a padding at their end. *)
Lemma Unpad_padded n buf p : good_multiple n -> 1 <= p <= n ->
  zlen (buf ++ replicate (Z.to_nat p) p) mod n = 0 ->
  Unpad n (buf ++ replicate (Z.to_nat p) p) = Ret (inr buf).
Proof.
  intros [H1 H2] Hp Hz. unfold Unpad.
  rewrite (proj2 (Z.leb_gt n 1)), Z.geb_leb, (proj2 (Z.leb_gt 256 n)) by lia. cbn [orb].
  rewrite (proj2 (Z.eqb_neq (zlen _) 0)) by (rewrite zlen_app, zlen_replicate; zlen).
  rewrite Hz. cbn [Z.eqb negb].
  assert (last (buf ++ replicate (Z.to_nat p) p) = Some p) as ->.
  { replace (Z.to_nat p) with (S (Z.to_nat (p - 1))) by lia.
    rewrite replicate_S_end, app_assoc. apply last_snoc. }
  cbn [deref obind]. rewrite Z.gtb_ltb, (proj2 (Z.ltb_ge n p)), (proj2 (Z.eqb_neq p 0)) by lia.
  assert (all_padding (Z.to_nat p) p (reverse (buf ++ replicate (Z.to_nat p) p)) = true) as ->.
  { apply all_padding_spec. exists (reverse buf). by rewrite reverse_app, reverse_replicate. }
  cbn [negb]. do 2 f_equal. rewrite zlen_app, zlen_replicate, Z2Nat.id by lia.
  replace (zlen buf + p - p) with (zlen buf) by lia. apply ztake_app_eq.
Qed.

Lemma Unpad_sound n buf out : good_multiple n -> Forall is_byte buf ->
  Unpad n buf = Ret (inr out) ->
  exists p, 1 <= p <= n /\ buf = out ++ replicate (Z.to_nat p) p /\ zlen buf mod n = 0.
Proof.
  intros [H1 H2] Hb. unfold Unpad. case_if; [done|]. case_if; [done|].
  destruct (negb (zlen buf mod n =? 0)) eqn:Em; [done|].
  apply negb_false_iff, Z.eqb_eq in Em.
  destruct (last buf) as [p|] eqn:Hlast; cbn [deref obind]; [|done].
  assert (0 <= p) as Hp0.
  { apply last_Some_elem_of in Hlast. rewrite Forall_forall in Hb. by apply Hb in Hlast as [? _]. }
  destruct (p >? n) eqn:E1; [done|]. destruct (p =? 0) eqn:E2; [done|].
  destruct (all_padding _ _ _) eqn:E3; cbn [negb]; [|done]. rewrite Z.gtb_ltb in E1. breflect.
  intros [= <-]. exists p. split; [lia|]. split; [|done].
  apply all_padding_spec in E3 as [rest Hr]. apply (f_equal reverse) in Hr.
  rewrite reverse_involutive, reverse_app, reverse_replicate in Hr. rewrite Hr at 2.
  f_equal. rewrite Hr. rewrite zlen_app, zlen_replicate, Z2Nat.id by lia.
  replace (zlen (reverse rest) + p - p) with (zlen (reverse rest)) by lia.
  by rewrite ztake_app_eq.
Qed.

(** PKCS#7 padding is a bijection between the buffers and those that
    [Unpad] accepts: what was padded unpads to itself, and whatever unpads is
    the padding of the result, so no two buffers are taken for the same name. *)
Theorem pkcs7_bijection n buf : good_multiple n -> Forall is_byte buf ->
  (exists padded, Pad n buf = Ret padded /\ Unpad n padded = Ret (inr buf)) /\
  (forall out, Unpad n buf = Ret (inr out) -> Pad n out = Ret buf).
Proof.
  intros Hn Hb. split.
  - destruct (Pad_eq n buf Hn) as (Hp & Hpad & Hz). eexists. split; [exact Hpad|].
    by apply Unpad_padded.
  - intros out Hu. destruct (Unpad_sound n buf out Hn Hb Hu) as (p & Hp & -> & Hz).
    destruct (Pad_eq n out Hn) as (Hp' & -> & _).
    assert (n - zlen out mod n = p) as ->; [|done].
    rewrite zlen_app, zlen_replicate, Z2Nat.id in Hz by lia. unfold good_multiple in Hn.
    pose proof (Z.div_mod (zlen out) n ltac:(lia)). pose proof (Z.mod_pos_bound (zlen out) n ltac:(lia)).
    pose proof (Z.div_mod (zlen out + p) n ltac:(lia)).
    assert ((zlen out + p) / n - zlen out / n = 1) as Hq by nia. nia.
Qed.

Lemma pkcs7_bijection_witness :
  exists padded, Pad 4 [1; 2; 3; 4; 5] = Ret padded /\ Unpad 4 padded = Ret (inr [1; 2; 3; 4; 5]).
Proof.
  apply (proj1 (pkcs7_bijection 4 [1; 2; 3; 4; 5] ltac:(split; lia) ltac:(repeat constructor; lia))).
Defined.

(** ** base32 *)

Lemma digits_value v : 0 <= v < 2 ^ 40 ->
  foldl (fun acc d => acc * 32 + d) 0 (b32_digits v) = v.
Proof.
  intros Hv. unfold b32_digits. cbn [map seq foldl].
  change (35 - 5 * Z.of_nat 0) with 35. change (35 - 5 * Z.of_nat 1) with 30.
  change (35 - 5 * Z.of_nat 2) with 25. change (35 - 5 * Z.of_nat 3) with 20.
  change (35 - 5 * Z.of_nat 4) with 15. change (35 - 5 * Z.of_nat 5) with 10.
  change (35 - 5 * Z.of_nat 6) with 5. change (35 - 5 * Z.of_nat 7) with 0.
  assert (forall k, 0 <= k -> v / 2 ^ k / 32 = v / 2 ^ (k + 5)) as Hdd.
  { intros k Hk. rewrite Z.div_div, Z.pow_add_r by lia. done. }
  pose proof (Hdd 0 ltac:(lia)) as D0. pose proof (Hdd 5 ltac:(lia)) as D1.
  pose proof (Hdd 10 ltac:(lia)) as D2. pose proof (Hdd 15 ltac:(lia)) as D3.
  pose proof (Hdd 20 ltac:(lia)) as D4. pose proof (Hdd 25 ltac:(lia)) as D5.
  pose proof (Hdd 30 ltac:(lia)) as D6. clear Hdd.
  change (0 + 5) with 5 in *. change (5 + 5) with 10 in *. change (10 + 5) with 15 in *.
  change (15 + 5) with 20 in *. change (20 + 5) with 25 in *. change (25 + 5) with 30 in *.
  change (30 + 5) with 35 in *.
  change (2 ^ 0) with 1 in *. rewrite Z.div_1_r in *.
  pose proof (Z.div_mod v 32 ltac:(lia)). pose proof (Z.div_mod (v / 2 ^ 5) 32 ltac:(lia)).
  pose proof (Z.div_mod (v / 2 ^ 10) 32 ltac:(lia)). pose proof (Z.div_mod (v / 2 ^ 15) 32 ltac:(lia)).
  pose proof (Z.div_mod (v / 2 ^ 20) 32 ltac:(lia)). pose proof (Z.div_mod (v / 2 ^ 25) 32 ltac:(lia)).
  pose proof (Z.div_mod (v / 2 ^ 30) 32 ltac:(lia)).
  assert (v / 2 ^ 35 mod 32 = v / 2 ^ 35) as ->.
  { apply Z.mod_small. split; [apply Z.div_pos; lia|apply Z.div_lt_upper_bound; lia]. }
  lia.
Qed.

Lemma digit_zero a m k : 0 <= k -> k + 5 <= m -> a * 2 ^ m / 2 ^ k mod 32 = 0.
Proof.
  intros Hk Hm. replace m with (m - k - 5 + 5 + k) by lia.
  rewrite !Z.pow_add_r, !Z.mul_assoc by lia. rewrite Z.div_mul by (apply Z.pow_nonzero; lia).
  apply Z.mod_mul. lia.
Qed.

(** The bytes of the number of a group. *)
Lemma group_value b0 b1 b2 b3 b4 :
  is_byte b0 -> is_byte b1 -> is_byte b2 -> is_byte b3 -> is_byte b4 ->
  let v := b0 * 2 ^ 32 + b1 * 2 ^ 24 + b2 * 2 ^ 16 + b3 * 2 ^ 8 + b4 in
  0 <= v < 2 ^ 40 /\
  [v / 2 ^ 32; v / 2 ^ 24 mod 256; v / 2 ^ 16 mod 256; v / 2 ^ 8 mod 256; v mod 256] =
  [b0; b1; b2; b3; b4].
Proof.
  intros H0 H1 H2 H3 H4 v. unfold is_byte in *. split; [unfold v; lia|].
  assert (forall a r k q, 0 <= r < 2 ^ k -> 0 <= k -> a = q * 2 ^ k + r -> a / 2 ^ k = q) as Hq.
  { intros a r k q Hr Hk ->. rewrite Z.div_add_l by lia. rewrite Z.div_small by lia. lia. }
  assert (forall a r q, 0 <= r < 256 -> a = q * 256 + r -> a mod 256 = r) as Hm.
  { intros a r q Hr ->. rewrite Z.add_comm, Z.mod_add by lia. by apply Z.mod_small. }
  f_equal; [|f_equal; [|f_equal; [|f_equal; [|f_equal]]]].
  - apply (Hq v (b1 * 2 ^ 24 + b2 * 2 ^ 16 + b3 * 2 ^ 8 + b4)); unfold v; lia.
  - rewrite (Hq v (b2 * 2 ^ 16 + b3 * 2 ^ 8 + b4) 24 (b0 * 256 + b1)) by (unfold v; lia).
    apply (Hm _ b1 b0); lia.
  - rewrite (Hq v (b3 * 2 ^ 8 + b4) 16 (b0 * 65536 + b1 * 256 + b2)) by (unfold v; lia).
    apply (Hm _ b2 (b0 * 256 + b1)); lia.
  - rewrite (Hq v b4 8 (b0 * 16777216 + b1 * 65536 + b2 * 256 + b3)) by (unfold v; lia).
    apply (Hm _ b3 (b0 * 65536 + b1 * 256 + b2)); lia.
  - apply (Hm _ b4 (b0 * 16777216 + b1 * 65536 + b2 * 256 + b3)); unfold v; lia.
Qed.

(** The digits of a group give the group back. *)
Lemma group_roundtrip g : (1 <= length g <= 5)%nat -> Forall is_byte g ->
  let n := b32_chars (length g) in
  b32_bytes (take n (b32_digits (b32_group g))) = g.
Proof.
  intros Hl Hg n. unfold b32_bytes.
  assert (forall k, is_byte (nth k g 0)) as Hnth.
  { intros k. destruct (nth_in_or_default k g 0) as [Hin| ->]; [|unfold is_byte; lia].
    rewrite Forall_forall in Hg. apply Hg. by apply list_elem_of_In. }
  destruct (group_value (nth 0 g 0) (nth 1 g 0) (nth 2 g 0) (nth 3 g 0) (nth 4 g 0))
    as [Hv Hbytes]; [apply Hnth..|]. fold (b32_group g) in *.
  assert (take 8 (take n (b32_digits (b32_group g)) ++ replicate 8 0) = b32_digits (b32_group g)) as ->.
  { unfold n, b32_group, b32_digits.
    destruct g as [|b0 [|b1 [|b2 [|b3 [|b4 [|]]]]]]; cbn [length] in Hl; try lia;
      cbn [length b32_chars map seq take app replicate nth];
      rewrite ?Z.mul_0_l, ?Z.add_0_r.
    - repeat f_equal; symmetry; by apply digit_zero.
    - replace (b0 * 2 ^ 32 + b1 * 2 ^ 24) with ((b0 * 256 + b1) * 2 ^ 24) by lia.
      repeat f_equal; symmetry; by apply digit_zero.
    - replace (b0 * 2 ^ 32 + b1 * 2 ^ 24 + b2 * 2 ^ 16) with ((b0 * 65536 + b1 * 256 + b2) * 2 ^ 16) by lia.
      repeat f_equal; symmetry; by apply digit_zero.
    - replace (b0 * 2 ^ 32 + b1 * 2 ^ 24 + b2 * 2 ^ 16 + b3 * 2 ^ 8)
        with ((b0 * 16777216 + b1 * 65536 + b2 * 256 + b3) * 2 ^ 8) by lia.
      repeat f_equal; symmetry; by apply digit_zero.
    - done. }
  rewrite digits_value by done. rewrite Hbytes, length_take.
  replace (length (b32_digits (b32_group g))) with 8%nat by done. unfold n.
  destruct g as [|b0 [|b1 [|b2 [|b3 [|b4 [|]]]]]]; cbn [length] in Hl; try lia; done.
Qed.

Lemma b32_char_spec v : 0 <= v < 32 ->
  b32_value (b32_char v) = Some v /\ b32_char v <> 61 /\
  b32_char v <> 10 /\ b32_char v <> 13 /\
  upper_byte (lower_byte (b32_char v)) = b32_char v /\
  (48 <= lower_byte (b32_char v) <= 57 \/ 97 <= lower_byte (b32_char v) <= 118).
Proof.
  intros Hv. unfold b32_char, b32_value, lower_byte, upper_byte.
  destruct (v <? 10) eqn:E; breflect; split_and!; try lia; repeat case_if; try lia; f_equal; lia.
Qed.

Lemma digits_range v : Forall (fun d => 0 <= d < 32) (b32_digits v).
Proof.
  unfold b32_digits. cbn [map seq].
  repeat (constructor; [by apply Z.mod_pos_bound|]). constructor.
Qed.

(** A quantum of digits, all eight or followed by padding. *)
Lemma quantum_chars ds fuel j dbuf rest : Forall (fun d => 0 <= d < 32) ds ->
  b32_quantum (length ds + fuel) j dbuf (map b32_char ds ++ rest) =
  b32_quantum fuel (j + length ds) (dbuf ++ ds) rest.
Proof.
  intros Hds. revert j dbuf. induction Hds as [|d ds Hd _ IH]; intros j dbuf.
  { cbn. by rewrite app_nil_r, Nat.add_0_r. }
  cbn [length map app Nat.add b32_quantum].
  destruct (b32_char_spec d Hd) as (Hval & Hne & _).
  rewrite (proj2 (Z.eqb_neq _ 61)) by done. cbn [andb]. rewrite Hval, IH.
  rewrite <- app_assoc. cbn [app]. f_equal. lia.
Qed.

Lemma quantum_pad j p : (j = 2 \/ j = 4 \/ j = 5 \/ j = 7)%nat -> (j + p = 8)%nat ->
  forall dbuf, exists rest, b32_quantum p j dbuf (replicate p 61) = Some (dbuf, true, rest).
Proof. intros Hj Hp dbuf. destruct Hj as [->|[->|[->| ->]]];
  [assert (p = 6)%nat as -> by lia|assert (p = 4)%nat as -> by lia
  |assert (p = 3)%nat as -> by lia|assert (p = 1)%nat as -> by lia]; by eexists. Qed.

(** The encoding without its padding, and how much padding there was. *)
Lemma encode_split fuel src : (length src <= fuel)%nat -> Forall is_byte src ->
  exists ds p, b32_encode fuel src = map b32_char ds ++ replicate p 61 /\
    Forall (fun d => 0 <= d < 32) ds /\ (p < 8)%nat /\ (exists q, length ds + p = 8 * q)%nat /\
    forall fuel', (length ds + p <= fuel')%nat ->
      b32_decode fuel' (map b32_char ds ++ replicate p 61) = Some src.
Proof.
  revert src. induction fuel as [|fuel IH]; intros src Hf Hb.
  { destruct src; [|cbn in Hf; lia]. exists [], 0%nat. split_and!; try done; [lia|by exists 0%nat|].
    intros [|fuel'] _; done. }
  destruct src as [|b src].
  { exists [], 0%nat. split_and!; try done; [lia|by exists 0%nat|]. intros [|fuel'] _; done. }
  cbn [b32_encode]. set (g := take 5 (b :: src)). set (n := b32_chars (length g)).
  assert (1 <= length g <= 5)%nat as Hg by (unfold g; rewrite length_take; cbn [length]; lia).
  assert (Forall is_byte g) as Hgb by (by apply Forall_take).
  pose proof (group_roundtrip g Hg Hgb) as Hround. cbv zeta in Hround. fold n in Hround.
  set (ds := take n (b32_digits (b32_group g))) in *.
  assert (length ds = n) as Hdl.
  { unfold ds. rewrite length_take. replace (length (b32_digits (b32_group g))) with 8%nat by done.
    unfold n, b32_chars. repeat case_match; lia. }
  assert (Forall (fun d => 0 <= d < 32) ds) as Hdr by (apply Forall_take, digits_range).
  destruct (decide (5 <= length (b :: src))%nat) as [Hfull|Hpart].
  - (* a full group *)
    assert (length g = 5)%nat as Hg5 by (unfold g; rewrite length_take; lia).
    assert (n = 8)%nat as Hn8 by (unfold n; by rewrite Hg5). rewrite Hn8. cbn [Nat.sub replicate app].
    destruct (IH (drop 5 (b :: src))) as (ds' & p & -> & Hds' & Hp & [q Hq] & Hdec).
    { rewrite length_drop. cbn [length] in *. lia. }
    { by apply Forall_drop. }
    exists (ds ++ ds'), p. rewrite map_app, <- app_assoc. split_and!; try done.
    + by apply Forall_app.
    + exists (S q). rewrite length_app. lia.
    + intros fuel' Hfuel'. rewrite length_app in Hfuel'. destruct fuel' as [|fuel']; [lia|].
      destruct (map b32_char ds ++ map b32_char ds' ++ replicate p 61) as [|ch chs] eqn:Hch.
      { apply (f_equal length) in Hch. rewrite length_app, length_map, Hdl in Hch.
      cbn [length] in Hch. lia. }
      cbn [b32_decode]. rewrite <- Hch.
      pose proof (quantum_chars ds 0 0 [] (map b32_char ds' ++ replicate p 61) Hdr) as Hqc.
      rewrite Hdl, Hn8 in Hqc. cbn [Nat.add] in Hqc. rewrite Hqc. cbn [b32_quantum mbind option_bind].
      rewrite Hdec by lia. cbn [mbind option_bind app]. rewrite Hround. f_equal.
      unfold g. apply take_drop.
  - (* the last group *)
    assert (drop 5 (b :: src) = []) as -> by (apply drop_ge; lia).
    assert (g = b :: src) as Hgs by (unfold g; apply take_ge; lia).
    assert (b32_encode fuel [] = []) as -> by (by destruct fuel). rewrite app_nil_r.
    exists ds, (8 - n)%nat.
    assert (n = 2 \/ n = 4 \/ n = 5 \/ n = 7)%nat as Hn.
    { assert (length g < 5)%nat as Hg4 by (rewrite Hgs; lia). clear -Hg Hg4. unfold n.
      destruct (length g) as [|[|[|[|[|]]]]]; cbn; lia. }
    split_and!; try done; [lia|exists 1%nat; lia|].
    intros fuel' Hfuel'. destruct fuel' as [|fuel']; [lia|].
    destruct (map b32_char ds ++ replicate (8 - n) 61) as [|ch chs] eqn:Hch.
    { apply (f_equal length) in Hch. rewrite length_app, length_map, Hdl in Hch.
      cbn [length] in Hch. lia. }
    cbn [b32_decode]. rewrite <- Hch.
    pose proof (quantum_chars ds (8 - n) 0 [] (replicate (8 - n) 61) Hdr) as Hqc.
    replace (length ds + (8 - n))%nat with 8%nat in Hqc by lia. rewrite Hqc, Hdl. cbn [Nat.add app].
    destruct (quantum_pad n (8 - n) Hn ltac:(lia) ds) as [rest ->]. cbn [mbind option_bind].
    by rewrite Hround, Hgs.
Qed.

Lemma TrimRight_eq_spec ds p : Forall (fun d => 0 <= d < 32) ds ->
  reverse (TrimRight_eq (reverse (map b32_char ds ++ replicate p 61))) = map b32_char ds.
Proof.
  intros Hds. rewrite reverse_app, reverse_replicate.
  assert (TrimRight_eq (reverse (map b32_char ds)) = reverse (map b32_char ds)) as Hbody.
  { destruct (reverse (map b32_char ds)) as [|ch rev] eqn:Hr; [done|]. cbn [TrimRight_eq].
    assert (ch ∈ map b32_char ds) as Hin.
    { rewrite <- (reverse_involutive (map b32_char ds)), Hr, reverse_cons. set_solver. }
    apply list_elem_of_fmap in Hin as (d & -> & Hd). rewrite Forall_forall in Hds.
    destruct (b32_char_spec d (Hds d Hd)) as (_ & Hne & _).
    by rewrite (proj2 (Z.eqb_neq _ 61)). }
  induction p as [|p IH]; cbn [replicate app TrimRight_eq]; [by rewrite Hbody, reverse_involutive|done].
Qed.

(** The padding that is added back is the padding that was there. *)
Lemma padding_restored len p q : (len + p = 8 * q)%nat -> (p < 8)%nat ->
  Z.land (Z.of_nat len + 7) (Z.lnot 7) - Z.of_nat len = Z.of_nat p.
Proof.
  intros Hq Hp. change 7 with (Z.ones 3) at 2. rewrite <- Z.ldiff_land, Z.ldiff_ones_r by lia.
  rewrite Z.shiftl_mul_pow2, Z.shiftr_div_pow2 by lia. change (2 ^ 3) with 8.
  pose proof (Z.div_mod (Z.of_nat len + 7) 8 ltac:(lia)).
  pose proof (Z.mod_pos_bound (Z.of_nat len + 7) 8 ltac:(lia)). lia.
Qed.

Lemma base32_roundtrip b : Forall is_byte b ->
  base32_DecodeString (base32_EncodeToString b) = inr b.
Proof.
  intros Hb. unfold base32_EncodeToString, HexEncoding_EncodeToString.
  destruct (encode_split (length b) b) as (ds & p & -> & Hds & Hp & [q Hq] & Hdec); [done|done|].
  rewrite TrimRight_eq_spec by done. unfold base32_DecodeString.
  assert (forall ch, ch ∈ map lower_byte (map b32_char ds) ->
    48 <= ch <= 57 \/ 97 <= ch <= 118) as Hrange.
  { intros ch (x & -> & (d & -> & Hd)%list_elem_of_fmap)%list_elem_of_fmap.
    rewrite Forall_forall in Hds. by destruct (b32_char_spec d (Hds d Hd)) as (_&_&_&_&_&?). }
  rewrite bool_decide_eq_false_2.
  2:{ intros Hlast%last_Some_elem_of. apply Hrange in Hlast. lia. }
  assert (map upper_byte (map lower_byte (map b32_char ds)) = map b32_char ds) as ->.
  { rewrite !map_map. apply map_ext_in. intros d Hd%list_elem_of_In. rewrite Forall_forall in Hds.
    by destruct (b32_char_spec d (Hds d Hd)) as (_&_&_&_&?&_). }
  unfold zlen. rewrite !length_map, (padding_restored (length ds) p q), Nat2Z.id by done.
  unfold HexEncoding_DecodeString. rewrite filter_id.
  - rewrite Hdec; [done|]. rewrite length_app, length_map, length_replicate. lia.
  - apply Forall_app. split.
    + apply Forall_forall. intros ch (d & -> & Hd)%list_elem_of_fmap. rewrite Forall_forall in Hds.
      by destruct (b32_char_spec d (Hds d Hd)) as (_&_&?&?&_).
    + apply Forall_replicate. lia.
Qed.

(** The characters of an encoded name: digits and the letters a to v. *)
Lemma base32_chars b : Forall is_byte b ->
  Forall (fun ch => 48 <= ch <= 57 \/ 97 <= ch <= 118) (base32_EncodeToString b).
Proof.
  intros Hb. unfold base32_EncodeToString, HexEncoding_EncodeToString.
  destruct (encode_split (length b) b) as (ds & p & -> & Hds & _); [done|done|].
  rewrite TrimRight_eq_spec by done. apply Forall_forall.
  intros ch (x & -> & (d & -> & Hd)%list_elem_of_fmap)%list_elem_of_fmap.
  rewrite Forall_forall in Hds. by destruct (b32_char_spec d (Hds d Hd)) as (_&_&_&_&_&?).
Qed.

Definition caseInsensitiveBase32Encoding : fileNameEncoding.
Proof.
  refine {| EncodeToString := base32_EncodeToString; DecodeString := base32_DecodeString;
            Decode_Encode := base32_roundtrip |}.
  - intros b Hb. eapply Forall_impl; [by apply base32_chars|]. unfold is_byte. cbn. lia.
  - intros b Hb Hin. pose proof (base32_chars b Hb) as Hc. rewrite Forall_forall in Hc.
    apply Hc in Hin. lia.
  - intros b Hb Hne Hnil. pose proof (base32_roundtrip b Hb) as Hr. rewrite Hnil in Hr.
    vm_compute in Hr. congruence.
Defined.

(** ** Version strings *)

Definition valid_time (t : time) : Prop :=
  0 <= t_year t < 10000 /\ 1 <= t_month t <= 12 /\ 1 <= t_day t <= daysIn (t_month t) (t_year t) /\
  0 <= t_hour t < 24 /\ 0 <= t_minute t < 60 /\ 0 <= t_second t < 60 /\ 0 <= t_milli t < 1000.

Lemma length_digits k n : length (digits k n) = k.
Proof.
  revert n. induction k as [|k IH]; intros n; [done|]. cbn [digits].
  rewrite length_app, IH. cbn. lia.
Qed.

Lemma num_app k1 k2 acc s : num (k1 + k2) acc s = '(a, s') ← num k1 acc s; num k2 a s'.
Proof.
  revert acc s. induction k1 as [|k1 IH]; intros acc s; [done|].
  destruct s as [|b s]; [done|]. cbn [Nat.add num]. case_if; [apply IH|done].
Qed.

Lemma num_digits k n acc s : 0 <= n < 10 ^ Z.of_nat k ->
  num k acc (digits k n ++ s) = Some (acc * 10 ^ Z.of_nat k + n, s).
Proof.
  revert n acc s. induction k as [|k IH]; intros n acc s Hn.
  { cbn in *. do 2 f_equal. lia. }
  rewrite Nat2Z.inj_succ, Z.pow_succ_r in * by lia.
  replace (S k) with (k + 1)%nat at 1 by lia. rewrite num_app. cbn [digits].
  rewrite <- app_assoc.
  pose proof (Z.div_mod n 10 ltac:(lia)). pose proof (Z.mod_pos_bound n 10 ltac:(lia)).
  rewrite IH by (split; [apply Z.div_pos; lia|apply Z.div_lt_upper_bound; lia]).
  cbn [mbind option_bind app num]. unfold is_digit.
  rewrite (proj2 (Z.leb_le 48 _)), (proj2 (Z.leb_le _ 57)) by lia. cbn [andb]. do 2 f_equal. lia.
Qed.

(** What was parsed as a number is the digits of the number. *)
Lemma num_sound k acc s r s' : 0 <= acc -> num k acc s = Some (r, s') ->
  exists n, 0 <= n < 10 ^ Z.of_nat k /\ r = acc * 10 ^ Z.of_nat k + n /\ s = digits k n ++ s'.
Proof.
  revert acc s r s'. induction k as [|k IH]; intros acc s r s' Hacc Hnum.
  { injection Hnum as <- <-. exists 0. cbn. split_and!; [lia|lia|lia|done]. }
  replace (S k) with (k + 1)%nat in Hnum by lia. rewrite num_app in Hnum.
  destruct (num k acc s) as [[a s1]|] eqn:Hk; [|done]. cbn [mbind option_bind num] in Hnum.
  apply IH in Hk as (n & Hn & -> & ->); [|done].
  destruct s1 as [|b s1]; [done|]. destruct (is_digit b) eqn:Hd; [|done].
  injection Hnum as <- <-. unfold is_digit in Hd. breflect.
  exists (10 * n + (b - 48)). rewrite Nat2Z.inj_succ, Z.pow_succ_r by lia. split_and!; [lia|lia|lia|].
  cbn [digits].
  assert ((10 * n + (b - 48)) / 10 = n /\ (10 * n + (b - 48)) mod 10 = b - 48) as [-> ->].
  { apply divmod_eq; lia. }
  rewrite <- app_assoc. cbn [app]. do 3 f_equal. lia.
Qed.

Lemma lit_sound ch s s' : lit ch s = Some s' -> s = ch :: s'.
Proof. destruct s as [|b s]; cbn [lit]; [done|]. case_if; [|done]. intros [= ->]. by subst. Qed.

Lemma lit_cons ch s : lit ch (ch :: s) = Some s.
Proof. cbn [lit]. by rewrite Z.eqb_refl. Qed.

(** Parsing and formatting are inverse on valid times. *)
Lemma Parse_Format t : valid_time t -> time_Parse (time_Format t) = Some t.
Proof.
  intros (Hy & Hm & Hd & Hh & Hmi & Hs & Hms). unfold time_Parse, time_Format.
  assert (daysIn (t_month t) (t_year t) <= 31) by (unfold daysIn; repeat case_if; lia).
  cbn [app]. rewrite !lit_cons. cbn [mbind option_bind]. rewrite lit_cons. cbn [mbind option_bind].
  rewrite num_digits by lia. cbn [mbind option_bind]. rewrite lit_cons. cbn [mbind option_bind].
  rewrite num_digits by (cbn; lia). cbn [mbind option_bind]. rewrite lit_cons. cbn [mbind option_bind].
  rewrite num_digits by (cbn; lia). cbn [mbind option_bind]. rewrite lit_cons. cbn [mbind option_bind].
  rewrite num_digits by (cbn; lia). cbn [mbind option_bind].
  rewrite num_digits by (cbn; lia). cbn [mbind option_bind].
  rewrite num_digits by (cbn; lia). cbn [mbind option_bind]. rewrite lit_cons. cbn [mbind option_bind].
  rewrite <- (app_nil_r (digits 3 (t_milli t))), num_digits by (cbn; lia). cbn [mbind option_bind].
  rewrite !Z.mul_0_l, !Z.add_0_l. rewrite bool_decide_eq_true_2 by done.
  repeat match goal with |- context [?a <=? ?b] => rewrite (proj2 (Z.leb_le a b)) by lia end.
  repeat match goal with |- context [?a <? ?b] => rewrite (proj2 (Z.ltb_lt a b)) by lia end.
  cbn [andb]. by destruct t.
Qed.

Lemma Format_Parse s t : time_Parse s = Some t -> valid_time t /\ time_Format t = s.
Proof.
  unfold time_Parse. intros H.
  repeat match goal with
  | H : (lit ?ch ?s ≫= _) = Some _ |- _ =>
      let s' := fresh "s" in let E := fresh "E" in
      destruct (lit ch s) as [s'|] eqn:E; [cbn [mbind option_bind] in H; apply lit_sound in E; subst s|done]
  | H : (num ?k 0 ?s ≫= _) = Some _ |- _ =>
      let n := fresh "n" in let s' := fresh "s" in let E := fresh "E" in
      let q := fresh "q" in
      destruct (num k 0 s) as [[n s']|] eqn:E; [|done]; cbn [mbind option_bind] in H;
      apply num_sound in E as (q & ? & ? & ?); [|done]; subst s; rewrite Z.mul_0_l, Z.add_0_l in *; subst n
  end.
  case_bool_decide as Hnil; [|done]. cbn [andb] in H. subst.
  case_if_in H; [|done]. injection H as <-.
  unfold valid_time, time_Format. cbn [t_year t_month t_day t_hour t_minute t_second t_milli].
  change (10 ^ Z.of_nat 4) with 10000 in *. change (10 ^ Z.of_nat 3) with 1000 in *.
  change (10 ^ Z.of_nat 2) with 100 in *. split; [split_and!; lia|].
  by rewrite app_nil_r.
Qed.

(** *** Names and extensions *)

(** How a name without slashes splits: no extension, a dot file, or a base and
    an extension from the last dot. *)
Definition splits (base ext : bytes) : Prop :=
  (ext = [] /\ (46 ∉ base \/ exists b, base = 46 :: b /\ 46 ∉ b)) \/
  (exists b, ext = 46 :: b /\ (46 ∉ b) /\ base <> []).

Lemma Ext_rev_none rev acc : 46 ∉ rev -> Ext_rev rev acc = [].
Proof.
  revert acc. induction rev as [|b rev IH]; intros acc H; [done|]. cbn [Ext_rev].
  case_if; [done|]. rewrite (proj2 (Z.eqb_neq b 46)) by set_solver. apply IH. set_solver.
Qed.

Lemma Ext_rev_app rev rest acc : 46 ∉ rev -> 47 ∉ rev ->
  Ext_rev (rev ++ 46 :: rest) acc = 46 :: reverse rev ++ acc.
Proof.
  revert acc. induction rev as [|b rev IH]; intros acc H1 H2; [done|]. cbn [app Ext_rev].
  rewrite (proj2 (Z.eqb_neq b 47)), (proj2 (Z.eqb_neq b 46)) by set_solver.
  rewrite IH by set_solver. rewrite reverse_cons, <- app_assoc. done.
Qed.

Lemma Ext_none s : 46 ∉ s -> path_Ext s = [].
Proof. intros H. apply Ext_rev_none. by rewrite elem_of_reverse. Qed.

Lemma Ext_app a b : 46 ∉ b -> 47 ∉ b -> path_Ext (a ++ 46 :: b) = 46 :: b.
Proof.
  intros H1 H2. unfold path_Ext. rewrite reverse_app, reverse_cons, <- app_assoc. cbn [app].
  rewrite Ext_rev_app by (by rewrite elem_of_reverse). by rewrite reverse_involutive, app_nil_r.
Qed.

Lemma splitExt_eq base ext : splits base ext -> 47 ∉ base ++ ext ->
  splitExt (base ++ ext) = (base, ext).
Proof.
  intros Hs Hslash. unfold splitExt. destruct Hs as [[-> [Hn|(b & -> & Hb)]]|(b & -> & Hb & Hne)].
  - rewrite app_nil_r in *. rewrite Ext_none by done. cbn [andb].
    change (zlen []) with 0. rewrite Z.sub_0_r, ztake_all by done.
    by rewrite bool_decide_eq_false_2 by naive_solver.
  - rewrite app_nil_r in *. rewrite (Ext_app [] b : _ -> _ -> path_Ext (46 :: b) = _) by set_solver.
    rewrite Z.sub_diag. by cbn.
  - rewrite Ext_app by set_solver. rewrite zlen_app.
    replace (zlen base + zlen (46 :: b) - zlen (46 :: b)) with (zlen base) by lia.
    rewrite ztake_app_eq. by rewrite (bool_decide_eq_false_2 (base = [])), andb_false_r by done.
Qed.

Lemma last_dot s : 46 ∈ s -> exists a b, s = a ++ 46 :: b /\ 46 ∉ b.
Proof.
  induction s as [|x s IH]; intros Hin; [set_solver|].
  destruct (decide (46 ∈ s)) as [Hs|Hs].
  - destruct (IH Hs) as (a & b & -> & Hb). by exists (x :: a), b.
  - assert (x = 46) as -> by set_solver. by exists [], s.
Qed.

Lemma splitExt_spec s : 47 ∉ s -> exists base ext,
  splitExt s = (base, ext) /\ s = base ++ ext /\ splits base ext.
Proof.
  intros Hslash. assert (exists base ext, s = base ++ ext /\ splits base ext) as (base & ext & -> & Hsp).
  { destruct (decide (46 ∈ s)) as [Hin|Hn].
    - destruct (last_dot s Hin) as (a & b & -> & Hb). destruct (decide (a = [])) as [->|Ha].
      + exists (46 :: b), []. rewrite app_nil_r. split; [done|]. left. split; [done|]. right. by exists b.
      + exists a, (46 :: b). split; [done|]. right. by exists b.
    - exists s, []. rewrite app_nil_r. split; [done|]. left. split; [done|]. by left. }
  exists base, ext. split_and!; [by apply splitExt_eq|done|done].
Qed.

(** *** The version string: 23 bytes, a dash where the format has a dot *)

Definition vstring (t : time) : bytes := dots_to_dashes (time_Format t).

Lemma digits_range_k k n ch : ch ∈ digits k n -> 48 <= ch <= 57.
Proof.
  revert n. induction k as [|k IH]; intros n; cbn [digits]; [set_solver|].
  intros [H|H]%elem_of_app; [by eapply IH|]. apply list_elem_of_singleton in H as ->.
  pose proof (Z.mod_pos_bound n 10 ltac:(lia)). lia.
Qed.

Lemma format_split t : exists P, time_Format t = P ++ 46 :: digits 3 (t_milli t) /\
  length P = 19%nat /\ (46 ∉ P) /\ (47 ∉ P).
Proof.
  eexists ([45; 118] ++ digits 4 (t_year t) ++ [45] ++ digits 2 (t_month t) ++ [45] ++
    digits 2 (t_day t) ++ [45] ++ digits 2 (t_hour t) ++ digits 2 (t_minute t) ++ digits 2 (t_second t)).
  assert (forall P ch, Forall (fun x => x = 45 \/ x = 118 \/ 48 <= x <= 57) P -> ch = 46 \/ ch = 47 ->
    ch ∉ P) as Hnot.
  { intros P ch HP Hch Hin. rewrite Forall_forall in HP. apply HP in Hin. lia. }
  assert (forall k n, Forall (fun x => x = 45 \/ x = 118 \/ 48 <= x <= 57) (digits k n)) as Hdig.
  { intros k n. apply Forall_forall. intros x Hx%digits_range_k. lia. }
  split_and!.
  - unfold time_Format. by rewrite <- !app_assoc.
  - rewrite !length_app, !length_digits. done.
  - apply Hnot; [|by left]. rewrite !Forall_app. split_and!; try apply Hdig; repeat constructor; lia.
  - apply Hnot; [|by right]. rewrite !Forall_app. split_and!; try apply Hdig; repeat constructor; lia.
Qed.

Lemma dots_to_dashes_id s : 46 ∉ s -> dots_to_dashes s = s.
Proof.
  intros H. unfold dots_to_dashes. rewrite <- (map_id s) at 2. apply map_ext_in.
  intros b Hb%list_elem_of_In. case_if; [|done]. breflect. set_solver.
Qed.

Lemma vstring_split t : exists P, time_Format t = P ++ 46 :: digits 3 (t_milli t) /\
  vstring t = P ++ 45 :: digits 3 (t_milli t) /\ length P = 19%nat /\ (46 ∉ vstring t) /\ (47 ∉ vstring t).
Proof.
  destruct (format_split t) as (P & HF & HP & H1 & H2). exists P.
  assert (vstring t = P ++ 45 :: digits 3 (t_milli t)) as HV.
  { unfold vstring. rewrite HF. unfold dots_to_dashes. rewrite map_app, map_cons.
    fold (dots_to_dashes P). rewrite dots_to_dashes_id by done. f_equal.
    change (if 46 =? 46 then 45 else 46) with 45. f_equal.
    apply dots_to_dashes_id. intros H%digits_range_k. lia. }
  split_and!; try done.
  - rewrite HV. intros [H|[H|H]%elem_of_cons]%elem_of_app; [done|lia|apply digits_range_k in H; lia].
  - rewrite HV. intros [H|[H|H]%elem_of_cons]%elem_of_app; [done|lia|apply digits_range_k in H; lia].
Qed.

Lemma zlen_vstring t : zlen (vstring t) = 23.
Proof.
  destruct (vstring_split t) as (P & _ & -> & HP & _). unfold zlen. rewrite length_app. cbn [length].
  rewrite HP, length_digits. done.
Qed.

Lemma splits_vstring base ext t : splits base ext -> splits (base ++ vstring t) ext.
Proof.
  destruct (vstring_split t) as (_ & _ & _ & _ & Hd & _).
  intros [[-> [Hn|(b & -> & Hb)]]|(b & -> & Hb & Hne)].
  - left. split; [done|]. left. set_solver.
  - left. split; [done|]. right. exists (b ++ vstring t). split; [done|]. set_solver.
  - right. exists b. split_and!; [done|done|]. by destruct base.
Qed.

(** [Remove] undoes [Add]. *)
Lemma Remove_Add s t : 47 ∉ s -> valid_time t -> version_Remove (version_Add s t) = (t, s).
Proof.
  intros Hs Ht. destruct (splitExt_spec s Hs) as (base & ext & Hsplit & -> & Hsp).
  unfold version_Add. rewrite Hsplit. fold (vstring t). unfold version_Remove.
  destruct (vstring_split t) as (P & HF & HV & HP & Hd & Hsl).
  rewrite app_assoc, splitExt_eq.
  2:{ by apply splits_vstring. }
  2:{ set_solver. }
  pose proof (zlen_vstring t) as Hl. pose proof (zlen_nonneg base) as Hbn.
  rewrite zlen_app, Hl. unfold versionFormat_len.
  rewrite (proj2 (Z.ltb_ge _ 23)) by lia.
  assert (zlen base + 23 - 4 = zlen (base ++ P)) as ->.
  { rewrite zlen_app. unfold zlen at 3. rewrite HP. lia. }
  assert (zlen base + 23 - 3 = zlen (base ++ P ++ [45])) as ->.
  { rewrite !zlen_app. unfold zlen at 3 4. rewrite HP. cbn. lia. }
  assert (zdrop (zlen (base ++ P ++ [45])) (base ++ vstring t) = digits 3 (t_milli t)) as ->.
  { replace (base ++ vstring t) with ((base ++ P ++ [45]) ++ digits 3 (t_milli t))
      by (by rewrite HV, <- !app_assoc). apply zdrop_app_eq. }
  replace (base ++ vstring t) with ((base ++ P) ++ 45 :: digits 3 (t_milli t))
    by (by rewrite HV, app_assoc).
  rewrite ztake_app_eq.
  assert (((base ++ P) ++ 45 :: digits 3 (t_milli t)) !! Z.to_nat (zlen (base ++ P)) = Some 45) as ->.
  { unfold zlen. rewrite Nat2Z.id. apply list_lookup_middle. done. }
  rewrite bool_decide_eq_true_2 by done. cbn [negb].
  replace ((base ++ P) ++ [46] ++ digits 3 (t_milli t)) with (base ++ time_Format t)
    by (by rewrite HF, <- app_assoc).
  replace (zlen base + 23 - 23) with (zlen base) by lia.
  rewrite zdrop_app_eq, ztake_app_eq, Parse_Format by done. done.
Qed.

Lemma match_here_vstring t rest : valid_time t -> match_here (vstring t ++ rest) = true.
Proof.
  intros (Hy & Hm & Hd & Hh & Hmi & Hs & Hms).
  assert (daysIn (t_month t) (t_year t) <= 31) by (unfold daysIn; repeat case_if; lia).
  assert (vstring t = [45; 118] ++ digits 4 (t_year t) ++ [45] ++ digits 2 (t_month t) ++ [45] ++
    digits 2 (t_day t) ++ [45] ++ digits 2 (t_hour t) ++ digits 2 (t_minute t) ++
    digits 2 (t_second t) ++ [45] ++ digits 3 (t_milli t)) as ->.
  { assert (forall k n, map (fun b => if b =? 46 then 45 else b) (digits k n) = digits k n) as Hdig.
    { intros k n. apply dots_to_dashes_id. intros Hr%digits_range_k. lia. }
    unfold vstring, dots_to_dashes, time_Format. rewrite !map_app, !Hdig. done. }
  rewrite <- !app_assoc. unfold match_here. cbn [app].
  rewrite lit_cons. cbn [mbind option_bind]. rewrite lit_cons. cbn [mbind option_bind].
  rewrite num_digits by lia. cbn [mbind option_bind]. rewrite lit_cons. cbn [mbind option_bind].
  rewrite num_digits by (cbn; lia). cbn [mbind option_bind]. rewrite lit_cons. cbn [mbind option_bind].
  rewrite num_digits by (cbn; lia). cbn [mbind option_bind]. rewrite lit_cons. cbn [mbind option_bind].
  rewrite (num_app 2 4), num_digits by (cbn; lia). cbn [mbind option_bind].
  rewrite (num_app 2 2), num_digits by (cbn; lia). cbn [mbind option_bind].
  rewrite num_digits by (cbn; lia). cbn [mbind option_bind]. rewrite lit_cons. cbn [mbind option_bind].
  rewrite num_digits by (cbn; lia). done.
Qed.

Lemma version_Match_app a b : match_here b = true -> version_Match (a ++ b) = true.
Proof.
  intros H. induction a as [|x a IH]; cbn [app version_Match]; [|by rewrite IH, orb_true_r].
  destruct b; cbn [version_Match]; by rewrite H.
Qed.

Lemma Match_Add s t : valid_time t -> version_Match (version_Add s t) = true.
Proof.
  intros Ht. unfold version_Add. destruct (splitExt s) as [base ext].
  apply version_Match_app. by apply match_here_vstring.
Qed.

(** What [Remove] removed. *)
Lemma Remove_sound p t s : 47 ∉ p -> version_Remove p = (t, s) -> s <> p ->
  valid_time t /\ exists base ext, s = base ++ ext /\ p = base ++ vstring t ++ ext /\
    splits (base ++ vstring t) ext.
Proof.
  intros Hsl Hrem Hne. destruct (splitExt_spec p Hsl) as (base' & ext & Hsplit & Hp & Hsp).
  unfold version_Remove in Hrem. rewrite Hsplit in Hrem. unfold versionFormat_len in Hrem.
  case_if_in Hrem; [congruence|].
  destruct (bool_decide _) eqn:Hdash in Hrem; cbn [negb] in Hrem; [|congruence].
  apply bool_decide_eq_true_1 in Hdash.
  destruct (time_Parse _) as [t'|] eqn:Hparse in Hrem; [|congruence].
  injection Hrem as -> <-. apply Format_Parse in Hparse as [Ht HF]. split; [done|].
  set (vs := zlen base' - 23) in *.
  set (B := ztake vs base'). set (W := zdrop vs base').
  assert (base' = B ++ W) as HBW by (symmetry; apply ztake_zdrop).
  assert (zlen B = vs) as HBl by (unfold B; rewrite zlen_ztake; zlen).
  assert (zlen W = 23) as HWl by (unfold W; rewrite zlen_zdrop; zlen).
  assert (base' !! Z.to_nat (zlen base' - 4) = Some 45) as Hd by exact Hdash.
  assert (exists W1 W2, W = W1 ++ 45 :: W2 /\ zlen W1 = 19 /\ zlen W2 = 3) as (W1 & W2 & HW & HW1 & HW2).
  { rewrite HBW, lookup_app_r in Hd by (rewrite zlen_app; unfold zlen in *; lia).
    replace (Z.to_nat (zlen (B ++ W) - 4) - length B)%nat with 19%nat in Hd
      by (rewrite zlen_app; unfold zlen in *; lia).
    apply list_elem_of_split_length in Hd as (W1 & W2 & HW & Hlen).
    exists W1, W2. split; [done|]. assert (zlen W1 = 19) by (unfold zlen; lia). split; [done|].
    rewrite HW, zlen_app in HWl. change (zlen (45 :: W2)) with (Z.of_nat (S (length W2))) in HWl.
    unfold zlen in *. lia. }
  assert (ztake (zlen base' - 4) base' = B ++ W1 /\ zdrop (zlen base' - 3) base' = W2) as [E1 E2].
  { split.
    - replace (zlen base' - 4) with (zlen (B ++ W1)) by (rewrite zlen_app; lia).
      rewrite HBW, HW, app_assoc. apply ztake_app_eq.
    - replace (zlen base' - 3) with (zlen (B ++ W1 ++ [45])) by (rewrite !zlen_app; change (zlen [45]) with 1; lia).
      rewrite HBW, HW. replace (B ++ W1 ++ 45 :: W2) with ((B ++ W1 ++ [45]) ++ W2)
        by (by rewrite <- !app_assoc). apply zdrop_app_eq. }
  rewrite E1, E2 in *. rewrite <- app_assoc in *. rewrite <- HBl in HF |- *.
  rewrite zdrop_app_eq in HF. rewrite ztake_app_eq in *.
  assert (vstring t = W) as HVW.
  { destruct (vstring_split t) as (P & HF' & -> & HP & _). rewrite HF' in HF. rewrite HW.
    apply app_inj_1 in HF as [-> [= <-]]; [done|]. unfold zlen in HW1. lia. }
  exists B, ext. split; [done|]. rewrite HVW, app_assoc, <- HBW. done.
Qed.

(** ** Obfuscation *)

Lemma obfuscate_rune_spec dir r : 0 <= dir -> ValidRune r = true ->
  Forall (fun r' => ValidRune r' = true /\ (r' = 47 -> r = 47)) (obfuscate_rune dir r) /\
  forall rest, deobfuscate_loop dir (obfuscate_rune dir r ++ rest) false =
               encode_rune r ++ deobfuscate_loop dir rest false.
Proof.
  intros Hdir Hv. pose proof Hv as Hr%ValidRune_spec.
  (* a rune that is rotated to [q] and back *)
  assert (forall q, q <> 33 -> deobfuscate_rune dir q = r ->
    ValidRune q = true -> (q = 47 -> r = 47) ->
    Forall (fun r' => ValidRune r' = true /\ (r' = 47 -> r = 47)) [q] /\
    forall rest, deobfuscate_loop dir ([q] ++ rest) false =
                 encode_rune r ++ deobfuscate_loop dir rest false) as Hone.
  { intros q Hq Hback Hvq Hsl. split; [by repeat constructor|]. intros rest.
    cbn [app deobfuscate_loop]. rewrite (proj2 (Z.eqb_neq q 33)) by done. by rewrite Hback. }
  unfold obfuscate_rune.
  pose proof (Z.rem_bound_pos dir 9 Hdir ltac:(lia)). pose proof (Z.rem_bound_pos dir 25 Hdir ltac:(lia)).
  pose proof (Z.rem_bound_pos dir 95 Hdir ltac:(lia)). pose proof (Z.rem_bound_pos dir 127 Hdir ltac:(lia)).
  destruct (r =? 33) eqn:E1; breflect.
  { subst r. split; [repeat constructor; lia|]. intros rest. reflexivity. }
  destruct ((48 <=? r) && (r <=? 57)) eqn:E2.
  { breflect. rewrite (Z.rem_mod_nonneg (r - 48 + _)) by lia. dm (r - 48 + (Z.rem dir 9 + 1)) 10.
    apply Hone; [lia| |apply ValidRune_spec; lia|lia].
    unfold deobfuscate_rune. tests. case_if; lia. }
  apply andb_false_iff in E2. rewrite !Z.leb_gt in E2.
  destruct (((65 <=? r) && (r <=? 90)) || ((97 <=? r) && (r <=? 122))) eqn:E3.
  { apply orb_true_iff in E3. rewrite !andb_true_iff, !Z.leb_le in E3. cbv zeta.
    set (pos := if 26 <=? r - 65 then r - 65 - 6 else r - 65).
    assert (0 <= pos < 52 /\ r = 65 + (if 26 <=? pos then pos + 6 else pos)) as [Hpos Hrp].
    { unfold pos. destruct (26 <=? r - 65) eqn:Ep; breflect; case_if; lia. }
    clearbody pos. rewrite (Z.rem_mod_nonneg (pos + _)) by lia. dm (pos + (Z.rem dir 25 + 1)) 52.
    set (pos' := (pos + (Z.rem dir 25 + 1)) mod 52) in *.
    assert (pos' = pos + (Z.rem dir 25 + 1) \/ pos' = pos + (Z.rem dir 25 + 1) - 52) as Hpos' by lia.
    clearbody pos'. clear E3.
    apply Hone; [| |apply ValidRune_spec|]; [case_if; lia| |case_if; lia|case_if; lia].
    unfold deobfuscate_rune. destruct (26 <=? pos') eqn:Ep'; breflect; tests; rewrite Hrp.
    - repeat case_if; lia.
    - repeat case_if; lia. }
  apply orb_false_iff in E3. rewrite !andb_false_iff, !Z.leb_gt in E3.
  destruct ((160 <=? r) && (r <=? 255)) eqn:E4.
  { breflect. rewrite (Z.rem_mod_nonneg (r - 160 + _)) by lia. dm (r - 160 + (Z.rem dir 95 + 1)) 96.
    apply Hone; [lia| |apply ValidRune_spec; lia|lia].
    unfold deobfuscate_rune. tests. case_if; lia. }
  apply andb_false_iff in E4. rewrite !Z.leb_gt in E4.
  destruct (256 <=? r) eqn:E5; breflect.
  { rewrite (Z.rem_mod_nonneg r 256) by lia. dm r 256.
    rewrite (Z.rem_mod_nonneg (r - (r - _) + _)) by lia.
    dm (r - (r - r mod 256) + (Z.rem dir 127 + 1)) 256.
    set (q := (r - (r - r mod 256) + (Z.rem dir 127 + 1)) mod 256) in *.
    assert (ValidRune (r - r mod 256 + q) = true) as Hvq.
    { apply ValidRune_spec. lia. }
    rewrite Hvq. cbn [negb]. apply Hone; [lia| |done|lia].
    unfold deobfuscate_rune. tests.
    assert (Z.rem (r - r mod 256 + q) 256 = q) as ->.
    { rewrite Z.rem_mod_nonneg by lia. symmetry. apply Z.mod_unique with (q := r / 256); lia. }
    case_if; lia. }
  apply Hone; [done| |done|done].
  unfold deobfuscate_rune.
  destruct ((48 <=? r) && (r <=? 57)) eqn:F2; [breflect; lia|].
  destruct (_ || _) eqn:F3; [apply orb_true_iff in F3; rewrite !andb_true_iff, !Z.leb_le in F3; lia|].
  destruct ((160 <=? r) && (r <=? 255)) eqn:F4; [breflect; lia|].
  by rewrite (proj2 (Z.leb_gt 256 r)) by lia.
Qed.

Lemma obfuscate_runes_spec dir rs : 0 <= dir -> Forall (fun r => ValidRune r = true) rs ->
  Forall (fun r => ValidRune r = true) (rs ≫= obfuscate_rune dir) /\
  deobfuscate_loop dir (rs ≫= obfuscate_rune dir) false = rs ≫= encode_rune.
Proof.
  intros Hd Hrs. induction Hrs as [|r rs Hr _ [IH1 IH2]]; [done|].
  destruct (obfuscate_rune_spec dir r Hd Hr) as [H1 H2]. rewrite !bind_cons. split.
  - apply Forall_app. split; [|done]. eapply Forall_impl; [exact H1|]. by intros x [? _].
  - by rewrite H2, IH2.
Qed.

(** The numbers of the prefix parse back and have no dot in them. *)
Lemma prefix_number d : 0 <= d < 256 ->
  Atoi (pretty d) = Some d /\ (46 ∉ to_bytes (pretty d)) /\ (47 ∉ to_bytes (pretty d)) /\
  to_bytes (pretty d) <> to_bytes "!".
Proof.
  assert (forallb (fun k => let d := Z.of_nat k in
    bool_decide (Atoi (pretty d) = Some d) && negb (bool_decide (46 ∈ to_bytes (pretty d))) &&
    negb (bool_decide (47 ∈ to_bytes (pretty d))) &&
    negb (bool_decide (to_bytes (pretty d) = to_bytes "!"))) (seq 0 256) = true) as H
    by (vm_compute; reflexivity).
  intros Hd. rewrite forallb_forall in H. specialize (H (Z.to_nat d)). cbv zeta in H.
  rewrite Z2Nat.id in H by lia. rewrite in_seq in H. specialize (H ltac:(lia)).
  rewrite !andb_true_iff, !negb_true_iff, !bool_decide_eq_false, bool_decide_eq_true in H.
  destruct H as [[[? ?] ?] ?]. done.
Qed.

Lemma Cut_dot_app a b : 46 ∉ a -> Cut_dot (a ++ 46 :: b) = Some (a, b).
Proof.
  induction a as [|x a IH]; intros H; [done|]. cbn [app Cut_dot].
  rewrite (proj2 (Z.eqb_neq x 46)) by set_solver. by rewrite IH by set_solver.
Qed.

Lemma sum_bytes l : Forall is_byte l -> 0 <= sum l <= 255 * zlen l.
Proof.
  unfold zlen, is_byte, sum. induction 1 as [|b l Hb _ IH]; [cbn; lia|]. cbn [foldr length]. lia.
Qed.

(** What a valid segment becomes: its number, a dot, and the rotated runes. *)
Lemma obfuscate_eq c seg : Forall is_byte seg -> Forall is_byte (nameKey c) -> zlen (nameKey c) = 32 ->
  seg <> [] -> ValidString seg = true -> exists d rs, 0 <= d < 256 /\
    Forall (fun r => ValidRune r = true) rs /\ seg = rs ≫= encode_rune /\
    obfuscateSegment c seg = to_bytes (pretty d) ++ 46 ::
      ((rs ≫= obfuscate_rune (d + sum (nameKey c))) ≫= encode_rune).
Proof.
  intros Hseg Hk Hkl Hne Hv. destruct (ValidString_items seg Hv) as [rs Hrs].
  pose proof (canonical_items seg Hseg) as Hc. rewrite Hrs in Hc.
  assert (Forall (fun r => ValidRune r = true) rs) as Hvr.
  { clear -Hc. induction rs as [|r rs IH]; cbn [map canonical] in Hc; constructor; naive_solver. }
  assert (map item_rune (map Rune rs) = rs) as Hmap by (rewrite map_map; apply map_id).
  exists (Z.rem (sum rs) 256), rs. split_and!.
  - apply Z.rem_bound_pos; [|lia]. clear -Hvr.
    unfold sum. induction Hvr as [|r rs Hr%ValidRune_spec _ IH]; cbn [foldr]; lia.
  - apply Z.rem_bound_pos; [|lia]. clear -Hvr.
    unfold sum. induction Hvr as [|r rs Hr%ValidRune_spec _ IH]; cbn [foldr]; lia.
  - done.
  - rewrite <- (flat_items seg) by done. rewrite Hrs. unfold flat. clear.
    induction rs as [|r rs IH]; [done|]. cbn [map]. rewrite !bind_cons. by rewrite IH.
  - unfold obfuscateSegment. rewrite decide_False by done. rewrite Hv, Hrs, Hmap. cbn [negb].
    rewrite to_bytes_app, <- app_assoc. done.
Qed.

(** An obfuscated segment deobfuscates to itself, for every byte string: the
    runes of valid UTF-8 are rotated within their ranges and back, and what
    is not valid UTF-8 is kept behind its mark. *)
Lemma obfuscate_roundtrip c seg :
  Forall is_byte seg -> Forall is_byte (nameKey c) -> zlen (nameKey c) = 32 ->
  deobfuscateSegment c (obfuscateSegment c seg) = inr seg.
Proof.
  intros Hseg Hk Hkl. destruct (decide (seg = [])) as [->|Hne]; [done|].
  destruct (ValidString seg) eqn:Hv.
  - destruct (obfuscate_eq c seg Hseg Hk Hkl Hne Hv) as (d & rs & Hd & Hvr & Hflat & ->).
    destruct (prefix_number d Hd) as (Hat & Hdot & _ & Hbang).
    unfold deobfuscateSegment. rewrite decide_False by (by destruct (to_bytes (pretty d))).
    rewrite Cut_dot_app by done. rewrite decide_False by done. rewrite of_bytes_to_bytes, Hat.
    pose proof (sum_bytes _ Hk) as Hs. rewrite Hkl in Hs.
    rewrite i64_id by (unfold in_i64, i64_min, i64_max; lia).
    destruct (obfuscate_runes_spec (d + sum (nameKey c)) rs) as [Hvo Hdeo]; [lia|done|].
    set (os := rs ≫= obfuscate_rune _) in *.
    assert (os ≫= encode_rune = flat (map Rune os)) as ->.
    { unfold flat. clear. induction os as [|r os IH]; [done|]. cbn [map]. rewrite !bind_cons. by rewrite IH. }
    rewrite items_flat by (by apply canonical_runes).
    assert (map item_rune (map Rune os) = os) as -> by (rewrite map_map; apply map_id).
    by rewrite Hdeo, <- Hflat.
  - unfold obfuscateSegment. rewrite decide_False by done. rewrite Hv. cbn [negb].
    unfold deobfuscateSegment. rewrite decide_False by done. done.
Qed.

(** ** Round trips of segments *)

Section roundtrip.
Context {FE : fileNameEncoding} {NT : NameTransform}.
Variable c : Cipher.
Hypothesis nameKey_bytes : Forall is_byte (nameKey c).
Hypothesis nameKey_size : zlen (nameKey c) = 32.

(** A segment of a path, not too long for EME in the standard mode. *)
Definition seg_fits (seg : bytes) : Prop :=
  Forall is_byte seg /\ (47 ∉ seg) /\ (mode c = NameEncryptionStandard -> zlen seg < 2048).

Definition is_seg (seg : bytes) : Prop := Forall is_byte seg /\ 47 ∉ seg.

Lemma encryptSegment_spec seg : Forall is_byte seg -> zlen seg < 2048 ->
  exists e, encryptSegment c seg = Ret e /\ decryptSegment c e = Ret (inr seg) /\ is_seg e.
Proof.
  intros Hb Hl. unfold encryptSegment. destruct (decide (seg = [])) as [->|Hne].
  { exists []. split_and!; [done|done|]. split; [constructor|set_solver]. }
  destruct (Pad_eq nameCipherBlockSize seg) as (Hp & -> & Hz); [done|].
  set (p := nameCipherBlockSize - zlen seg mod nameCipherBlockSize) in *.
  set (padded := seg ++ replicate (Z.to_nat p) p) in *. cbn [obind].
  assert (Forall is_byte padded) as Hpb.
  { apply Forall_app. split; [done|]. apply Forall_replicate. unfold is_byte, nameCipherBlockSize in *. lia. }
  pose proof (zlen_nonneg seg) as Hnn.
  assert (0 < zlen padded <= 2048) as Hpl.
  { unfold padded. rewrite zlen_app, zlen_replicate, Z2Nat.id by lia. unfold p, nameCipherBlockSize in *.
    dm (zlen seg) 16. apply zlen_pos in Hne. lia. }
  assert (forall y, zlen y = zlen padded -> eme_fits y = true) as Hfit.
  { intros y Hy. unfold eme_fits. change 16 with nameCipherBlockSize. rewrite Hy, Hz, !andb_true_iff, Z.eqb_eq, Z.ltb_lt, Z.leb_le. lia. }
  unfold Transform at 1. rewrite (Hfit padded eq_refl). cbn [obind].
  set (x := eme_Encrypt (nameKey c) (nameTweak c) padded).
  assert (Forall is_byte x) as Hxb by (apply eme_bytes; auto).
  assert (zlen x = zlen padded) as Hxl by (apply eme_length; auto).
  exists (EncodeToString x). split; [done|]. split.
  - unfold decryptSegment. rewrite decide_False.
    2:{ apply Encode_nonempty; [done|]. apply zlen_pos. lia. }
    rewrite Decode_Encode by done. rewrite Hxl, Hz. cbn [Z.eqb negb].
    rewrite (proj2 (Z.eqb_neq (zlen padded) 0)), Z.gtb_ltb, (proj2 (Z.ltb_ge 2048 _)) by lia.
    unfold Transform. rewrite (Hfit x Hxl). cbn [obind]. unfold x. rewrite eme_inverse by auto. unfold padded.
    rewrite Unpad_padded by done. done.
  - split; [by apply Encode_bytes|by apply Encode_no_slash].
Qed.

Lemma obfuscate_is_seg seg : is_seg seg -> is_seg (obfuscateSegment c seg).
Proof.
  intros [Hb Hsl]. destruct (decide (seg = [])) as [->|Hne]; [done|].
  destruct (ValidString seg) eqn:Hv.
  - destruct (obfuscate_eq c seg Hb nameKey_bytes nameKey_size Hne Hv) as (d & rs & Hd & Hvr & Hflat & ->).
    pose proof (sum_bytes _ nameKey_bytes) as Hs.
    split.
    + apply Forall_app. split; [apply to_bytes_is_byte|]. constructor; [unfold is_byte; lia|].
      apply Forall_bind, Forall_forall. intros r _. apply encode_rune_bytes.
    + destruct (prefix_number d Hd) as (_ & _ & Hn & _).
      intros [H|[H|H]%elem_of_cons]%elem_of_app; [done|lia|].
      apply list_elem_of_bind in H as (r & Hin & Hr). apply list_elem_of_bind in Hr as (q & Hrq & Hq).
      rewrite Forall_forall in Hvr. pose proof (Hvr q Hq) as Hvq.
      destruct (obfuscate_rune_spec (d + sum (nameKey c)) q) as [Ho _]; [lia|done|].
      rewrite Forall_forall in Ho. destruct (Ho r Hrq) as [Hvr' Hsl'].
      assert (r = 47) as Hr47 by (apply (encode_rune_low r 47); [done|done|lia]).
      apply Hsl. rewrite Hflat. apply list_elem_of_bind. exists q. split; [|done].
      rewrite (Hsl' Hr47). vm_compute. constructor.
  - unfold obfuscateSegment. rewrite decide_False by done. rewrite Hv. cbn [negb]. split.
    + apply Forall_app. split; [apply to_bytes_is_byte|done].
    + intros [H|H]%elem_of_app; [|done]. change (to_bytes "!.") with [33; 46] in H.
      rewrite !elem_of_cons, elem_of_nil in H. lia.
Qed.

Lemma convert_one seg : seg_fits seg -> exists e,
  encrypt_one c seg = Ret (inr e) /\ decrypt_one c e = Ret (inr seg) /\ is_seg e.
Proof.
  intros (Hb & Hsl & Hlen). unfold encrypt_one, decrypt_one. case_decide as Hm.
  - destruct (encryptSegment_spec seg Hb (Hlen Hm)) as (e & -> & He & Hs). by exists e.
  - exists (obfuscateSegment c seg). split_and!; [done| |by apply obfuscate_is_seg].
    by rewrite obfuscate_roundtrip.
Qed.

(** *** With a version string *)

Definition versioned (seg : bytes) : bool :=
  version_Match seg && bool_decide (snd (version_Remove seg) <> seg).

Lemma with_version_eq strip conv seg :
  with_version strip conv seg =
  if strip && versioned seg then
    let! r := conv (snd (version_Remove seg)) in
    match r with
    | inl e => Ret (inl e)
    | inr out => Ret (inr (version_Add out (fst (version_Remove seg))))
    end
  else conv seg.
Proof.
  unfold with_version, versioned. destruct strip; cbn [andb].
  2:{ destruct (conv seg) as [[|]|]; done. }
  destruct (version_Match seg); cbn [andb].
  2:{ destruct (conv seg) as [[|]|]; done. }
  destruct (version_Remove seg) as [t s]. cbn [fst snd].
  destruct (bool_decide (s <> seg)); [done|]. destruct (conv seg) as [[|]|]; done.
Qed.

(** The last segment of a file name: if it has a version, the version is not
    all there is before the extension; if it has none, its encrypted form does
    not look as if it had one. *)
Definition last_ok (seg : bytes) : Prop :=
  (versioned seg = true -> head seg <> Some 45) /\
  (versioned seg = false -> forall e, encrypt_one c seg = Ret (inr e) -> versioned e = false).

Lemma version_Add_is_seg e t : is_seg e -> valid_time t -> is_seg (version_Add e t).
Proof.
  intros [Hb Hsl] Ht. destruct (splitExt_spec e Hsl) as (base & ext & Hs & -> & _).
  unfold version_Add. rewrite Hs. fold (vstring t).
  destruct (vstring_split t) as (P & HF & HV & HP & _ & Hv). apply Forall_app in Hb as [Hb1 Hb2].
  split; [|set_solver]. apply Forall_app. split; [done|]. apply Forall_app. split; [|done].
  destruct Ht as (Hy & Hm & Hd & Hh & Hmi & Hse & Hms).
  assert (forall k n, Forall is_byte (map (fun b => if b =? 46 then 45 else b) (digits k n))) as Hdig.
  { intros k n. apply Forall_forall. intros ch (b & -> & Hb%digits_range_k)%list_elem_of_fmap.
    unfold is_byte. case_if; lia. }
  unfold vstring, dots_to_dashes, time_Format. rewrite !map_app, !Forall_app.
  split_and!; try apply Hdig; repeat constructor; cbn; lia.
Qed.

Lemma version_roundtrip strip seg : seg_fits seg -> (strip = true -> last_ok seg) -> exists e,
  with_version strip (encrypt_one c) seg = Ret (inr e) /\
  with_version strip (decrypt_one c) e = Ret (inr seg) /\ is_seg e.
Proof.
  intros Hfits Hlast. setoid_rewrite with_version_eq.
  destruct (strip && versioned seg) eqn:Hv.
  - apply andb_true_iff in Hv as [-> Hv]. destruct (Hlast eq_refl) as [Hhead _]. specialize (Hhead Hv).
    unfold versioned in Hv. apply andb_true_iff in Hv as [Hmatch Hne%bool_decide_eq_true_1].
    destruct Hfits as (Hb & Hsl & Hlen). destruct (version_Remove seg) as [t s] eqn:Hrem. cbn [fst snd] in *.
    destruct (Remove_sound seg t s Hsl Hrem Hne) as (Ht & base & ext & -> & -> & Hsp).
    assert (seg_fits (base ++ ext)) as Hfits'.
    { split_and!.
      - apply Forall_app in Hb as [? Hb]. apply Forall_app in Hb as [_ ?]. by apply Forall_app.
      - set_solver.
      - intros Hm. specialize (Hlen Hm). rewrite !zlen_app in Hlen. rewrite zlen_app.
        pose proof (zlen_nonneg (vstring t)). lia. }
    destruct (convert_one _ Hfits') as (e & -> & He & Hse). cbn [obind].
    exists (version_Add e t). split; [done|]. split; [|by apply version_Add_is_seg].
    assert (version_Remove (version_Add e t) = (t, e)) as Hra by (apply Remove_Add; [apply Hse|done]).
    assert (versioned (version_Add e t) = true) as ->.
    { unfold versioned. rewrite Match_Add, Hra by done. cbn [andb fst snd]. apply bool_decide_eq_true_2.
      unfold version_Add. destruct (splitExt_spec e) as (b' & x' & Hs & -> & _); [apply Hse|].
      rewrite Hs. intros E%(f_equal zlen). rewrite !zlen_app in E. fold (vstring t) in E.
      rewrite zlen_vstring in E. lia. }
    cbn [andb]. rewrite Hra. cbn [fst snd]. rewrite He. cbn [obind]. do 2 f_equal.
    unfold version_Add. rewrite splitExt_eq; [done| |set_solver].
    destruct Hsp as [[-> [Hn|(b & Hb' & Hn)]]|(b & -> & Hn & Hne')].
    + left. split; [done|]. left. set_solver.
    + left. split; [done|]. destruct base as [|x base].
      * left. set_solver.
      * right. injection Hb' as -> <-. exists base. split; [done|]. set_solver.
    + right. exists b. split_and!; [done|done|]. intros ->. apply Hhead.
      destruct (vstring_split t) as (P & HF & HV & HP & _). rewrite HV.
      assert (head P = Some 45) as HhP.
      { unfold time_Format in HF. destruct P as [|x P]; [done|]. cbn [app] in HF. by injection HF as ->. }
      destruct P; [done|]. done.
  - destruct (convert_one seg Hfits) as (e & Hee & He & Hse). exists e. split_and!; [done| |done].
    assert (strip && versioned e = false) as ->; [|done].
    destruct strip; [|done]. cbn [andb] in *. by apply (proj2 (Hlast eq_refl)).
Qed.
End roundtrip.

Section paths.
Context {FE : fileNameEncoding} {NT : NameTransform}.
Variable c : Cipher.
Hypothesis nameKey_bytes : Forall is_byte (nameKey c).
Hypothesis nameKey_size : zlen (nameKey c) = 32.

Lemma segments_roundtrip strip segs : Forall (seg_fits c) segs ->
  (strip = true -> forall seg, last segs = Some seg -> last_ok c seg) -> exists es,
  segments_loop c (encrypt_one c) strip segs = Ret (inr es) /\
  segments_loop c (decrypt_one c) strip es = Ret (inr segs) /\
  length es = length segs /\ Forall is_seg es.
Proof.
  intros Hall Hlast. induction Hall as [|seg segs Hseg Hall IH]; [by exists []|].
  destruct IH as (es & He & Hd & Hlen & Hes).
  { intros Hs x Hx. apply Hlast; [done|]. by destruct segs. }
  assert (bool_decide (es = []) = bool_decide (segs = [])) as Hb.
  { apply bool_decide_ext. destruct es, segs; done. }
  cbn [segments_loop].
  assert (exists e, (if negb (dirNameEncrypt c) && negb (bool_decide (segs = [])) then Ret (inr seg)
      else with_version (strip && bool_decide (segs = [])) (encrypt_one c) seg) = Ret (inr e) /\
    (if negb (dirNameEncrypt c) && negb (bool_decide (segs = [])) then Ret (inr e)
      else with_version (strip && bool_decide (segs = [])) (decrypt_one c) e) = Ret (inr seg) /\
    is_seg e) as (e & Hee & Hde & Hse).
  { case_if.
    - exists seg. split_and!; [done|done|]. by destruct Hseg as (? & ? & _).
    - apply version_roundtrip; [done|done|done|]. intros [Hs Hnil%bool_decide_eq_true_1]%andb_true_iff.
      apply Hlast; [done|]. by rewrite Hnil. }
  exists (e :: es). rewrite Hee. cbn [obind]. rewrite He. cbn [obind segments_loop]. rewrite Hb, Hde.
  cbn [obind]. rewrite Hd. cbn [obind length]. split_and!; [done|done|lia|by constructor].
Qed.

Lemma has_char_of_bytes e : is_seg e -> has_char slash (of_bytes e) = false.
Proof.
  intros [Hb Hsl]. induction Hb as [|b e Hb _ IH]; [done|].
  cbn [of_bytes map String.string_of_list_ascii has_char].
  apply orb_false_iff. split; [|apply IH; set_solver].
  apply Ascii.eqb_neq. intros E%(f_equal nat_of_ascii). unfold is_byte in Hb.
  rewrite nat_ascii_embedding in E by lia. change (nat_of_ascii slash) with 47%nat in E.
  apply Hsl. assert (b = 47) as -> by lia. set_solver.
Qed.

(** The segments of a path. *)
Definition path_segments (path : string) : list bytes := map to_bytes (split_on slash path).

Lemma path_fits path :
  (forall seg, seg ∈ path_segments path -> mode c = NameEncryptionStandard -> zlen seg < 2048) ->
  Forall (seg_fits c) (path_segments path).
Proof.
  intros Hlen. apply Forall_forall. intros seg Hseg. split_and!; [| |by apply Hlen].
  - apply list_elem_of_fmap in Hseg as (p & -> & _). apply to_bytes_is_byte.
  - apply list_elem_of_fmap in Hseg as (p & -> & Hp). clear -Hp.
    assert (has_char slash p = false) as Hs.
    { revert p Hp. induction path as [|a path IH]; intros p; cbn [split_on].
      - intros ->%list_elem_of_singleton. done.
      - destruct (Ascii.eqb a slash) eqn:Ea.
        + intros [->|Hp]%elem_of_cons; [done|by apply IH].
        + destruct (split_on slash path) as [|q qs] eqn:Eq; [by apply split_on_nonempty in Eq|].
          intros [->|Hp]%elem_of_cons; [|apply IH; set_solver].
          cbn [has_char]. rewrite Ea. apply IH. set_solver. }
    clear -Hs. unfold to_bytes. induction p as [|a p IH]; cbn [String.list_ascii_of_string map]; [set_solver|].
    cbn [has_char] in Hs. apply orb_false_iff in Hs as [Ha Hs].
    intros [E|H]%elem_of_cons; [|by apply IH].
    apply Ascii.eqb_neq in Ha. apply Ha. rewrite <- (ascii_nat_embedding a).
    assert (nat_of_ascii a = 47%nat) as -> by lia. done.
Qed.

Lemma path_roundtrip strip path : Forall (seg_fits c) (path_segments path) ->
  (strip = true -> forall seg, last (path_segments path) = Some seg -> last_ok c seg) -> exists e,
  encryptFileName c strip path = Ret (inr e) /\ decryptFileName c strip e = Ret (inr path).
Proof.
  intros Hfits Hlast. unfold encryptFileName, decryptFileName, convert_path.
  destruct (segments_roundtrip strip _ Hfits Hlast) as (es & He & Hd & Hlen & Hes).
  fold (path_segments path). rewrite He. cbn [obind]. eexists. split; [done|].
  assert (es <> []) as Hne.
  { intros ->. unfold path_segments in Hlen. rewrite length_map in Hlen.
    destruct (split_on slash path) eqn:E; [by apply split_on_nonempty in E|done]. }
  rewrite (split_join slash).
  2:{ by destruct es. }
  2:{ apply Forall_forall. intros x (e & -> & Hin)%list_elem_of_fmap. rewrite Forall_forall in Hes.
      apply has_char_of_bytes. by apply Hes. }
  rewrite map_map.
  assert (map (fun x => to_bytes (of_bytes x)) es = es) as ->.
  { rewrite <- (map_id es) at 2. apply map_ext_in. intros e Hin%list_elem_of_In.
    rewrite Forall_forall in Hes. apply to_bytes_of_bytes. by apply Hes. }
  rewrite Hd. cbn [obind]. do 2 f_equal. unfold path_segments. rewrite map_map.
  assert (map (fun x => of_bytes (to_bytes x)) (split_on slash path) = split_on slash path) as ->.
  { rewrite <- (map_id (split_on slash path)) at 2. apply map_ext. intros x. apply of_bytes_to_bytes. }
  apply (join_split slash).
Qed.
End paths.

(** ** The main theorems *)

Lemma match_here_dash s : match_here s = true -> exists s', s = 45 :: s'.
Proof.
  unfold match_here. destruct (lit 45 s) as [s'|] eqn:E; [|done]. intros _.
  apply lit_sound in E. by exists s'.
Qed.

Lemma Match_dash s : version_Match s = true -> 45 ∈ s.
Proof.
  induction s as [|b s IH]; cbn [version_Match].
  - intros [H|?]%orb_true_iff; [|done]. apply match_here_dash in H as [? ?]. done.
  - intros [H|H]%orb_true_iff.
    + apply match_here_dash in H as [? [= -> _]]. set_solver.
    + set_solver.
Qed.

(** Names in base32 never look versioned. *)
Lemma base32_last_ok {NT : NameTransform} c seg : mode c = NameEncryptionStandard ->
  Forall is_byte seg -> (versioned seg = true -> head seg <> Some 45) ->
  @last_ok caseInsensitiveBase32Encoding NT c seg.
Proof.
  intros Hm Hb Hhead. split; [done|]. intros _ e He. unfold versioned. apply andb_false_iff. left.
  destruct (version_Match e) eqn:E; [|done]. apply Match_dash in E. exfalso.
  unfold encrypt_one in He. rewrite decide_True in He by done. unfold encryptSegment in He.
  destruct (decide (seg = [])) as [->|Hne]; [injection He as <-; set_solver|].
  destruct (Pad_eq nameCipherBlockSize seg) as (Hp & Hpad & _); [done|]. rewrite Hpad in He.
  cbn [obind] in He. unfold Transform in He. destruct (eme_fits _) eqn:Hfit; [|done].
  cbn [obind] in He. injection He as <-.
  assert (Forall is_byte (eme_Encrypt (nameKey c) (nameTweak c)
    (seg ++ replicate (Z.to_nat (nameCipherBlockSize - zlen seg mod nameCipherBlockSize))
      (nameCipherBlockSize - zlen seg mod nameCipherBlockSize)))) as Hx.
  { apply eme_bytes; [|done]. apply Forall_app. split; [done|]. apply Forall_replicate.
    unfold is_byte, nameCipherBlockSize in *. lia. }
  pose proof (base32_chars _ Hx) as Hc. rewrite Forall_forall in Hc. apply Hc in E. lia.
Qed.

(** C36: names encrypted in the standard mode with base32 decrypt to themselves:
    every directory name, and every file name whose last element is not a
    version string with nothing before it.  The elements must be shorter than
    the 2048 bytes that the cipher takes; with plain directory names only the
    last element is touched. *)
Theorem names_roundtrip {NT : NameTransform} c path :
  let FE := caseInsensitiveBase32Encoding in
  mode c = NameEncryptionStandard -> Forall is_byte (nameKey c) -> zlen (nameKey c) = 32 ->
  (forall seg, seg ∈ path_segments path -> zlen seg < 2048) ->
  (exists e, EncryptDirName c path = Ret (inr e) /\ DecryptDirName c e = Ret (inr path)) /\
  ((forall seg, last (path_segments path) = Some seg -> versioned seg = true -> head seg <> Some 45) ->
   exists e, EncryptFileName c path = Ret (inr e) /\ DecryptFileName c e = Ret (inr path)).
Proof.
  intros FE Hm Hkb Hkl Hlen.
  assert (Forall (seg_fits c) (path_segments path)) as Hfits by (apply path_fits; auto).
  split.
  - unfold EncryptDirName, DecryptDirName. rewrite Hm, bool_decide_eq_false_2 by done. cbn [orb].
    destruct (dirNameEncrypt c); cbn [negb]; [|by exists path].
    destruct (path_roundtrip c Hkb Hkl false path Hfits) as (e & He & Hd); [done|].
    exists e. split; [done|]. by rewrite Hd.
  - intros Hlast. unfold EncryptFileName, DecryptFileName. rewrite decide_False by congruence.
    destruct (path_roundtrip c Hkb Hkl true path Hfits) as (e & He & Hd).
    { intros _ seg Hseg. apply base32_last_ok; [done| |by apply Hlast].
      rewrite Forall_forall in Hfits. apply last_Some_elem_of in Hseg. by destruct (Hfits seg Hseg). }
    exists e. split; [done|]. by rewrite decide_False by congruence.
Qed.

(** For the examples, a cipher that changes nothing. *)
Definition ex_transform : NameTransform.
Proof.
  refine {| eme_Encrypt := fun _ _ b => b; eme_Decrypt := fun _ _ b => b |}; done.
Defined.

Lemma names_roundtrip_witness :
  exists e, @EncryptFileName caseInsensitiveBase32Encoding ex_transform ex_cipher
      "dir/a-v2001-02-03-040506-123.txt" = Ret (inr e) /\
    @DecryptFileName caseInsensitiveBase32Encoding ex_transform ex_cipher e =
      Ret (inr "dir/a-v2001-02-03-040506-123.txt").
Proof.
  apply (proj2 (@names_roundtrip ex_transform ex_cipher "dir/a-v2001-02-03-040506-123.txt" eq_refl
    ltac:(repeat constructor; lia) eq_refl
    ltac:(intros seg Hin; unfold path_segments in Hin; cbn in Hin;
          repeat (apply elem_of_cons in Hin as [->|Hin]; [vm_compute; reflexivity|]);
          apply elem_of_nil in Hin; destruct Hin))).
  intros seg [= <-] _. vm_compute. discriminate.
Defined.

Definition ex_obfuscator : Cipher :=
  mkCipher (replicate 32 0) (replicate 32 0) (replicate 16 0) NameEncryptionObfuscated true false ".bin".

(** File names that come back changed.  Obfuscation can rotate a name into
    one that looks as if it had a version, which is then left alone when the
    name is deobfuscated; and a name that is a version string and an extension
    gets the version behind the extension. *)
Theorem names_that_change :
  @EncryptFileName caseInsensitiveBase32Encoding ex_transform ex_obfuscator "Ea-o5334-35-36-373839-456.b"
    = Ret (inr "6.Lh-v2001-02-03-040506-123.i") /\
  @DecryptFileName caseInsensitiveBase32Encoding ex_transform ex_obfuscator "6.Lh-v2001-02-03-040506-123.i"
    = Ret (inr "Ea-v2001-02-03-040506-123.b") /\
  @DecryptFileName caseInsensitiveBase32Encoding ex_transform ex_obfuscator
    (match @EncryptFileName caseInsensitiveBase32Encoding ex_transform ex_obfuscator
             "-v2001-02-03-040506-123.txt" with Ret (inr e) => e | _ => "" end)
    = Ret (inr ".txt-v2001-02-03-040506-123").
Proof. vm_compute. done. Qed.

End CryptName.
