(* ===== verification/Encoder.v ===== *)
(** * Names on restrictive storage systems: lib/encoder/encoder.go

    Backends that cannot store some characters replace them by look-alikes
    (mostly the FULLWIDTH variants) and quote the look-alikes that were in the
    name already.  What is replaced is chosen by the bits of a mask: characters
    anywhere, at the start, at the end, the names "." and "..", and bytes that
    are not valid UTF-8.

    A string is taken as its sequence of runes and bad bytes ([Utf8.items]),
    which is what the loops over it see.  The twenty cases of the two loops
    differ in their characters and offsets only and are rows of a table here,
    in the order of the source. *)
From S2P Require Import Prelude GoPath Utf8.

Module Encoder.
Import GoPath Utf8.

Definition fullOffset : Z := 65248.     (* 0xFEE0 *)
Definition symbolOffset : Z := 9216.    (* SYMBOL FOR NULL *)
Definition QuoteRune : Z := 8219.       (* SINGLE HIGH-REVERSED-9 QUOTATION MARK *)

(** ** Flags *)

Abbreviation MultiEncoder := Z.

Definition EncodeZero : MultiEncoder := 0.
Definition flag (i : Z) : MultiEncoder := Z.shiftl 1 i.
Definition EncodeRaw := flag 0.
Definition EncodeSlash := flag 1.
Definition EncodeLtGt := flag 2.
Definition EncodeDoubleQuote := flag 3.
Definition EncodeSingleQuote := flag 4.
Definition EncodeBackQuote := flag 5.
Definition EncodeDollar := flag 6.
Definition EncodeColon := flag 7.
Definition EncodeQuestion := flag 8.
Definition EncodeAsterisk := flag 9.
Definition EncodePipe := flag 10.
Definition EncodeHash := flag 11.
Definition EncodePercent := flag 12.
Definition EncodeBackSlash := flag 13.
Definition EncodeCrLf := flag 14.
Definition EncodeDel := flag 15.
Definition EncodeCtl := flag 16.
Definition EncodeLeftSpace := flag 17.
Definition EncodeLeftPeriod := flag 18.
Definition EncodeLeftTilde := flag 19.
Definition EncodeLeftCrLfHtVt := flag 20.
Definition EncodeRightSpace := flag 21.
Definition EncodeRightPeriod := flag 22.
Definition EncodeRightCrLfHtVt := flag 23.
Definition EncodeInvalidUtf8 := flag 24.
Definition EncodeDot := flag 25.
Definition EncodeSquareBracket := flag 26.
Definition EncodeSemicolon := flag 27.
Definition EncodeExclamation := flag 28.

Definition Has (mask f : MultiEncoder) : bool := negb (Z.land mask f =? 0).

Definition Standard : MultiEncoder :=
  Z.lor EncodeZero (Z.lor EncodeSlash (Z.lor EncodeCtl (Z.lor EncodeDel EncodeDot))).

(** ** The table *)

(** A flag, the runes it replaces, and the offset to their replacements. *)
Record rule : Type := mkRule { rl_flag : MultiEncoder; rl_plain : list Z; rl_offset : Z }.

Definition is_plain (rl : rule) (r : Z) : bool := bool_decide (r ∈ rl_plain rl).
Definition is_target (rl : rule) (r : Z) : bool := bool_decide (r - rl_offset rl ∈ rl_plain rl).

Definition CrLfHtVt : list Z := [9; 10; 11; 13].

(** Anywhere in the name. *)
Definition rules : list rule :=
  [ mkRule EncodeAsterisk [42] fullOffset;
    mkRule EncodeLtGt [60; 62] fullOffset;
    mkRule EncodeSquareBracket [91; 93] fullOffset;
    mkRule EncodeSemicolon [59] fullOffset;
    mkRule EncodeExclamation [33] fullOffset;
    mkRule EncodeQuestion [63] fullOffset;
    mkRule EncodeColon [58] fullOffset;
    mkRule EncodePipe [124] fullOffset;
    mkRule EncodeDoubleQuote [34] fullOffset;
    mkRule EncodeSingleQuote [39] fullOffset;
    mkRule EncodeBackQuote [96] fullOffset;
    mkRule EncodeDollar [36] fullOffset;
    mkRule EncodeSlash [47] fullOffset;
    mkRule EncodeBackSlash [92] fullOffset;
    mkRule EncodeCrLf [13; 10] symbolOffset;
    mkRule EncodeHash [35] fullOffset;
    mkRule EncodePercent [37] fullOffset;
    mkRule EncodeDel [127] (9249 - 127);
    mkRule EncodeCtl (map Z.of_nat (seq 1 31)) symbolOffset ].

(** At the start of the name. *)
Definition left_rules : list rule :=
  [ mkRule EncodeLeftSpace [32] symbolOffset;
    mkRule EncodeLeftPeriod [46] fullOffset;
    mkRule EncodeLeftTilde [126] fullOffset;
    mkRule EncodeLeftCrLfHtVt CrLfHtVt symbolOffset ].

(** At the end of the name. *)
Definition right_rules : list rule :=
  [ mkRule EncodeRightSpace [32] symbolOffset;
    mkRule EncodeRightPeriod [46] fullOffset;
    mkRule EncodeRightCrLfHtVt CrLfHtVt symbolOffset ].

(** The first row that is enabled and concerns [r]: the replacement of a plain
    rune, or the quoted rune if it is a replacement itself. *)
Fixpoint enc_rule (rls : list rule) (mask : MultiEncoder) (r : Z) : option (list Z) :=
  match rls with
  | [] => None
  | rl :: rls' =>
      if Has mask (rl_flag rl) then
        if is_plain rl r then Some [r + rl_offset rl]
        else if is_target rl r then Some [QuoteRune; r]
        else enc_rule rls' mask r
      else enc_rule rls' mask r
  end.

(** The first row that is enabled and has [r] as a replacement: the original. *)
Fixpoint dec_rule (rls : list rule) (mask : MultiEncoder) (r : Z) : option Z :=
  match rls with
  | [] => None
  | rl :: rls' =>
      if Has mask (rl_flag rl) && is_target rl r then Some (r - rl_offset rl)
      else dec_rule rls' mask r
  end.

(** ** [Encode] *)

Definition hex_digit (v : Z) : Z := if v <? 10 then 48 + v else 55 + v.

(** [appendQuotedBytes] of one byte: the quote and "%02X". *)
Definition quoted_byte (b : Z) : list item :=
  [Rune QuoteRune; Rune (hex_digit (b / 16)); Rune (hex_digit (b mod 16))].

(** The body of the loop for one rune or bad byte. *)
Definition enc_item (mask : MultiEncoder) (it : item) : list item :=
  match it with
  | Bad b => if Has mask EncodeInvalidUtf8 then quoted_byte b else [Bad b]
  | Rune r =>
      if r =? 0 then [Rune symbolOffset]
      else if (r =? symbolOffset) || (r =? QuoteRune) then [Rune QuoteRune; Rune r]
      else match enc_rule rules mask r with
           | Some out => map Rune out
           | None => [Rune r]
           end
  end.

(** The test that looks for the first rune that needs replacing. *)
Definition enc_needed (mask : MultiEncoder) (it : item) : bool :=
  let r := item_rune it in
  (r =? 0) || (r =? symbolOffset) || (r =? QuoteRune) || (r =? RuneError) ||
  existsb (fun rl => Has mask (rl_flag rl) && (is_plain rl r || is_target rl r)) rules.

(** [strings.IndexFunc]: the clean part, and the rest from the first hit on. *)
Fixpoint span (f : item -> bool) (its : list item) : list item * list item :=
  match its with
  | [] => ([], [])
  | it :: its' =>
      if f it then ([], its) else let '(clean, rest) := span f its' in (it :: clean, rest)
  end.

(** The replacement at the start: the prefix and the rest of the name. *)
Definition enc_left (mask : MultiEncoder) (its : list item) : list item * list item :=
  match its with
  | Rune r :: its' =>
      match enc_rule left_rules mask r with
      | Some out => (map Rune out, its')
      | None => ([], its)
      end
  | _ => ([], its)
  end.

(** The replacement at the end: the rest of the name and the suffix. *)
Definition enc_right (mask : MultiEncoder) (its : list item) : list item * list item :=
  match last its with
  | Some (Rune r) =>
      match enc_rule right_rules mask r with
      | Some out => (take (length its - 1) its, map Rune out)
      | None => (its, [])
      end
  | _ => (its, [])
  end.

Definition fullStop : Z := 65294.       (* FULLWIDTH FULL STOP *)

(** The names "." and ".." and their replacements. *)
Definition enc_dots (its : list item) : option (list item) :=
  if decide (its = [Rune 46]) then Some [Rune fullStop]
  else if decide (its = [Rune 46; Rune 46]) then Some [Rune fullStop; Rune fullStop]
  else if decide (its = [Rune fullStop]) then Some [Rune QuoteRune; Rune fullStop]
  else if decide (its = [Rune fullStop; Rune fullStop])
  then Some [Rune QuoteRune; Rune fullStop; Rune QuoteRune; Rune fullStop]
  else None.

(** Everything after the tests for special names. *)
Definition enc_rest (mask : MultiEncoder) (its : list item) : list item :=
  let '(prefix, its) := enc_left mask its in
  let '(its, suffix) := enc_right mask its in
  if bool_decide (prefix = [] /\ suffix = []) && forallb (fun it => negb (enc_needed mask it)) its
  then its
  else
    let '(clean, its) := if bool_decide (prefix = [] /\ suffix = [])
                         then span (enc_needed mask) its else ([], its) in
    prefix ++ clean ++ (its ≫= enc_item mask) ++ suffix.

Definition Encode_items (mask : MultiEncoder) (its : list item) : list item :=
  if mask =? EncodeRaw then its
  else if decide (its = []) then []
  else match (if Has mask EncodeDot then enc_dots its else None) with
       | Some out => out
       | None => enc_rest mask its
       end.

Definition Encode (mask : MultiEncoder) (s : bytes) : bytes := flat (Encode_items mask (items s)).

(** ** [Decode] *)

Definition hex_value (ch : Z) : option Z :=
  if (48 <=? ch) && (ch <=? 57) then Some (ch - 48)
  else if (65 <=? ch) && (ch <=? 70) then Some (ch - 55)
  else if (97 <=? ch) && (ch <=? 102) then Some (ch - 87) else None.

(** [appendUnquotedByte] *)
Definition unquoted_byte (s : bytes) : option Z :=
  match s with
  | a :: b :: _ => h ← hex_value a; l ← hex_value b; Some (16 * h + l)
  | _ => None
  end.

(** The loop with its flags; the quote that is still pending at the end is
    written. *)
Fixpoint dec_loop (mask : MultiEncoder) (its : list item) (unquoteNext skipNext : bool) : bytes :=
  match its with
  | [] => if unquoteNext then encode_rune QuoteRune else []
  | it :: its' =>
      if skipNext then dec_loop mask its' unquoteNext false
      else
        let unquote := unquoteNext in
        let r := item_rune it in
        if r =? symbolOffset then
          encode_rune (if unquote then r else 0) ++ dec_loop mask its' false false
        else if r =? QuoteRune then
          if unquote then encode_rune r ++ dec_loop mask its' false false
          else dec_loop mask its' true false
        else match dec_rule rules mask r with
             | Some orig => encode_rune (if unquote then r else orig) ++ dec_loop mask its' false false
             | None =>
                 let keep := item_bytes it ++ dec_loop mask its' false false in
                 if unquote then
                   match (if Has mask EncodeInvalidUtf8 then unquoted_byte (flat its) else None) with
                   | Some u => u :: dec_loop mask its' false true
                   | None => encode_rune QuoteRune ++ keep
                   end
                 else keep
             end
  end.

Definition dec_needed (mask : MultiEncoder) (it : item) : bool :=
  let r := item_rune it in
  (r =? symbolOffset) || (r =? QuoteRune) ||
  existsb (fun rl => Has mask (rl_flag rl) && is_target rl r) rules.

Definition dec_left (mask : MultiEncoder) (its : list item) : list item * list item :=
  match its with
  | Rune r :: its' =>
      match dec_rule left_rules mask r with
      | Some orig => ([Rune orig], its')
      | None =>
          if r =? QuoteRune then
            match its' with
            | Rune r2 :: its'' =>
                match dec_rule left_rules mask r2 with
                | Some _ => ([Rune r2], its'')
                | None => ([], its)
                end
            | _ => ([], its)
            end
          else ([], its)
      end
  | _ => ([], its)
  end.

Definition dec_right (mask : MultiEncoder) (its : list item) : list item * list item :=
  match last its with
  | Some (Rune r) =>
      match dec_rule right_rules mask r with
      | Some orig =>
          let its := take (length its - 1) its in
          if decide (last its = Some (Rune QuoteRune)) then (take (length its - 1) its, [Rune r])
          else (its, [Rune orig])
      | None => (its, [])
      end
  | _ => (its, [])
  end.

Definition dec_dots (its : list item) : option (list item) :=
  if decide (its = [Rune fullStop]) then Some [Rune 46]
  else if decide (its = [Rune fullStop; Rune fullStop]) then Some [Rune 46; Rune 46]
  else if decide (its = [Rune QuoteRune; Rune fullStop]) then Some [Rune fullStop]
  else if decide (its = [Rune QuoteRune; Rune fullStop; Rune QuoteRune; Rune fullStop])
  then Some [Rune fullStop; Rune fullStop]
  else None.

Definition dec_rest (mask : MultiEncoder) (its : list item) : bytes :=
  let '(prefix, its) := dec_left mask its in
  let '(its, suffix) := dec_right mask its in
  if bool_decide (prefix = [] /\ suffix = []) && forallb (fun it => negb (dec_needed mask it)) its
  then flat its
  else
    let '(clean, its) := if bool_decide (prefix = [] /\ suffix = [])
                         then span (dec_needed mask) its else ([], its) in
    flat prefix ++ flat clean ++ dec_loop mask its false false ++ flat suffix.

Definition Decode (mask : MultiEncoder) (s : bytes) : bytes :=
  let its := items s in
  if mask =? EncodeRaw then s
  else match (if Has mask EncodeDot then dec_dots its else None) with
       | Some out => flat out
       | None => dec_rest mask its
       end.

(** ** Paths in the standard encoding *)

Definition FromStandardName (mask : MultiEncoder) (s : bytes) : bytes :=
  if mask =? Standard then s else Encode mask (Decode Standard s).

Definition ToStandardName (mask : MultiEncoder) (s : bytes) : bytes :=
  if mask =? Standard then s else Encode Standard (Decode mask s).

Definition convert_path (f : bytes -> bytes) (s : string) : string :=
  let parts := split_on slash s in
  let encoded := map (fun p => of_bytes (f (to_bytes p))) parts in
  if bool_decide (encoded = parts) then s else join_with "/" encoded.

Definition FromStandardPath (mask : MultiEncoder) (s : string) : string :=
  if mask =? Standard then s else convert_path (FromStandardName mask) s.

Definition ToStandardPath (mask : MultiEncoder) (s : string) : string :=
  if mask =? Standard then s else convert_path (ToStandardName mask) s.

(** "a*b" and "．" with the full width stop. *)
Example Encode_1 : Encode EncodeAsterisk (to_bytes "a*b") = flat [Rune 97; Rune 65290; Rune 98].
Proof. vm_compute. reflexivity. Qed.

(** ** The table is consistent *)

(** The original of a replacement, whatever row it comes from. *)
Definition original (t : Z) : Z :=
  if t =? 9249 then 127 else if 65281 <=? t then t - fullOffset else t - symbolOffset.

Definition all_rules : list rule := rules ++ left_rules ++ right_rules.

(** Plain runes are ASCII, replacements are not, nor are they the quote or the
    symbol for NUL, and each row agrees with [original]. *)
Definition row_ok (rl : rule) : bool :=
  forallb (fun x => (1 <=? x) && (x <=? 127) && (original (x + rl_offset rl) =? x) &&
             (9216 <? x + rl_offset rl) && (x + rl_offset rl <=? 65374) ) (rl_plain rl).

Lemma all_rows_ok : forallb row_ok all_rules = true.
Proof. vm_compute. reflexivity. Qed.

Lemma row_spec rl x : rl ∈ all_rules -> x ∈ rl_plain rl ->
  1 <= x <= 127 /\ original (x + rl_offset rl) = x /\ 9216 < x + rl_offset rl <= 65374.
Proof.
  intros Hrl Hx. pose proof all_rows_ok as H. rewrite forallb_forall in H.
  specialize (H rl (proj1 (list_elem_of_In _ _) Hrl)). unfold row_ok in H. rewrite forallb_forall in H.
  specialize (H x (proj1 (list_elem_of_In _ _) Hx)). breflect. lia.
Qed.

Lemma is_plain_spec rl r : rl ∈ all_rules -> is_plain rl r = true -> 1 <= r <= 127.
Proof. unfold is_plain. intros Hrl Hp%bool_decide_eq_true_1. by apply (row_spec rl r). Qed.

Lemma is_target_spec rl r : rl ∈ all_rules -> is_target rl r = true ->
  9216 < r <= 65374 /\ r - rl_offset rl = original r.
Proof.
  unfold is_target. intros Hrl Ht%bool_decide_eq_true_1. apply row_spec in Ht as (? & Ho & ?); [|done].
  replace (r - rl_offset rl + rl_offset rl) with r in * by lia. split; [lia|done].
Qed.

(** A replacement is not plain, and the other way around. *)
Lemma plain_target rl rl' r : rl ∈ all_rules -> rl' ∈ all_rules ->
  is_plain rl r = true -> is_target rl' r = false.
Proof.
  intros H1 H2 Hp. destruct (is_target rl' r) eqn:Ht; [|done].
  apply is_plain_spec in Hp; [|done]. apply is_target_spec in Ht; [|done]. lia.
Qed.

(** *** Matching rows *)

Definition rows (rls : list rule) : Prop := rls ⊆ all_rules.

Lemma rows_cons rl rls : rows (rl :: rls) -> rl ∈ all_rules /\ rows rls.
Proof. unfold rows. set_solver. Qed.

Lemma rows_rules : rows rules.
Proof. unfold rows, all_rules. set_solver. Qed.

Lemma rows_left : rows left_rules.
Proof. unfold rows, all_rules. set_solver. Qed.

Lemma rows_right : rows right_rules.
Proof. unfold rows, all_rules. set_solver. Qed.

#[local] Hint Resolve rows_rules rows_left rows_right : core.

(** Some enabled row replaces [r], or has it as a replacement. *)
Definition plain_in (rls : list rule) (mask : MultiEncoder) (r : Z) : Prop :=
  exists rl, rl ∈ rls /\ Has mask (rl_flag rl) = true /\ is_plain rl r = true.

Definition target_in (rls : list rule) (mask : MultiEncoder) (r : Z) : Prop :=
  exists rl, rl ∈ rls /\ Has mask (rl_flag rl) = true /\ is_target rl r = true.

Lemma enc_rule_spec rls mask r : rows rls ->
  match enc_rule rls mask r with
  | None => ~ plain_in rls mask r /\ ~ target_in rls mask r
  | Some out =>
      (plain_in rls mask r /\ exists t, out = [t] /\ original t = r /\ target_in rls mask t) \/
      (target_in rls mask r /\ out = [QuoteRune; r])
  end.
Proof.
  induction rls as [|rl rls IH]; intros Hrows; cbn [enc_rule].
  { split; intros (rl & Hin & _); set_solver. }
  apply rows_cons in Hrows as [Hrl Hrows]. specialize (IH Hrows).
  assert (forall P : rule -> Prop, (exists x, x ∈ rls /\ P x) -> exists x, x ∈ rl :: rls /\ P x) as Hw.
  { intros P (x & Hx & HP). exists x. split; [set_solver|done]. }
  assert (match enc_rule rls mask r with
    | None => ~ plain_in rls mask r /\ ~ target_in rls mask r
    | Some out =>
      (plain_in rls mask r /\ exists t, out = [t] /\ original t = r /\ target_in rls mask t) \/
      (target_in rls mask r /\ out = [QuoteRune; r]) end ->
    (Has mask (rl_flag rl) = true -> is_plain rl r = false /\ is_target rl r = false) ->
    match enc_rule rls mask r with
    | None => ~ plain_in (rl :: rls) mask r /\ ~ target_in (rl :: rls) mask r
    | Some out =>
      (plain_in (rl :: rls) mask r /\ exists t, out = [t] /\ original t = r /\ target_in (rl :: rls) mask t) \/
      (target_in (rl :: rls) mask r /\ out = [QuoteRune; r]) end) as Hskip.
  { intros H1 Hno. destruct (enc_rule rls mask r) as [out|].
    - destruct H1 as [(Hp & t & -> & Ho & Ht)|(Ht & ->)]; [left|right].
      + split; [by apply Hw|]. exists t. split_and!; [done|done|by apply Hw].
      + split; [by apply Hw|done].
    - destruct H1 as [Hp Ht]. split; intros (x & [->|Hx]%elem_of_cons & Hh & Hr).
      + destruct (Hno Hh). congruence.
      + apply Hp. by exists x.
      + destruct (Hno Hh). congruence.
      + apply Ht. by exists x. }
  destruct (Has mask (rl_flag rl)) eqn:Hh; [|by apply Hskip].
  destruct (is_plain rl r) eqn:Hp.
  - left. split; [exists rl; set_solver|]. exists (r + rl_offset rl). split; [done|].
    apply bool_decide_eq_true_1 in Hp as Hin. destruct (row_spec rl r Hrl Hin) as (_ & Ho & _).
    split; [done|]. exists rl. split_and!; [set_solver|done|].
    apply bool_decide_eq_true_2. by replace (r + rl_offset rl - rl_offset rl) with r by lia.
  - destruct (is_target rl r) eqn:Ht; [right|by apply Hskip]. split; [exists rl; set_solver|done].
Qed.

Lemma dec_rule_spec rls mask r : rows rls ->
  match dec_rule rls mask r with
  | None => ~ target_in rls mask r
  | Some o => o = original r /\ target_in rls mask r
  end.
Proof.
  induction rls as [|rl rls IH]; intros Hrows; cbn [dec_rule].
  { intros (rl & Hin & _). set_solver. }
  apply rows_cons in Hrows as [Hrl Hrows]. specialize (IH Hrows).
  destruct (Has mask (rl_flag rl) && is_target rl r) eqn:E.
  - apply andb_true_iff in E as [Hh Ht]. split; [by apply is_target_spec|]. exists rl. set_solver.
  - destruct (dec_rule rls mask r) as [o|].
    + destruct IH as [-> (x & Hx & HP)]. split; [done|]. exists x. split; [set_solver|done].
    + intros (x & [->|Hx]%elem_of_cons & Hh & Ht); [by rewrite Hh, Ht in E|]. apply IH. by exists x.
Qed.

Lemma target_range rls mask r : rows rls -> target_in rls mask r -> 9216 < r <= 65374.
Proof. intros Hr (rl & Hin & _ & Ht). apply is_target_spec in Ht; [lia|by apply Hr]. Qed.

Lemma plain_range rls mask r : rows rls -> plain_in rls mask r -> 1 <= r <= 127.
Proof. intros Hr (rl & Hin & _ & Hp). eapply is_plain_spec; [|exact Hp]. by apply Hr. Qed.

(** A row that has [t] as a replacement replaces its original. *)
Lemma target_plain rls mask t : rows rls -> target_in rls mask t -> plain_in rls mask (original t).
Proof.
  intros Hr (rl & Hin & Hh & Ht). exists rl. split_and!; [done|done|].
  destruct (is_target_spec rl t) as [_ <-]; [by apply Hr|done|]. exact Ht.
Qed.

(** The quote is no replacement. *)
Lemma quote_not_target rls mask : rows rls -> ~ target_in rls mask QuoteRune.
Proof. intros Hr H. apply target_range in H; [|done]. unfold QuoteRune in H. lia. Qed.

(** ** The fast paths change nothing *)

Lemma existsb_rows (f : rule -> bool) rls : existsb f rls = false <-> forall rl, rl ∈ rls -> f rl = false.
Proof.
  induction rls as [|rl rls IH]; cbn [existsb]; [split; [set_solver|done]|].
  rewrite orb_false_iff, IH. split.
  - intros [H1 H2] x [->|Hx]%elem_of_cons; auto.
  - intros H. split; [apply H; set_solver|]. intros x Hx. apply H. set_solver.
Qed.

Lemma enc_item_clean mask it : enc_needed mask it = false -> enc_item mask it = [it].
Proof.
  unfold enc_needed. rewrite !orb_false_iff. intros [[[[H0 Hs] Hq] He] Hr].
  destruct it as [r|b]; cbn [item_rune] in *; [|done]. cbn [enc_item]. rewrite H0, Hs, Hq. cbn [orb].
  pose proof (enc_rule_spec rules mask r rows_rules) as Hspec. rewrite existsb_rows in Hr.
  destruct (enc_rule rules mask r) as [out|]; [exfalso|done].
  destruct Hspec as [[(rl & Hin & Hh & Hp) _]|[(rl & Hin & Hh & Ht) _]];
    specialize (Hr rl Hin); rewrite Hh, ?Hp, ?Ht, ?orb_true_r in Hr; done.
Qed.

Lemma bind_clean mask its : forallb (fun it => negb (enc_needed mask it)) its = true ->
  its ≫= enc_item mask = its.
Proof.
  induction its as [|it its IH]; cbn [forallb]; [done|]. intros H. breflect. rewrite bind_cons.
  rewrite enc_item_clean by done. by rewrite IH.
Qed.

Lemma span_app f its clean rest : span f its = (clean, rest) ->
  its = clean ++ rest /\ forallb (fun it => negb (f it)) clean = true.
Proof.
  revert clean rest. induction its as [|it its IH]; intros clean rest; cbn [span].
  { by intros [= <- <-]. }
  destruct (f it) eqn:E; [by intros [= <- <-]|].
  destruct (span f its) as [c' r'] eqn:Es. intros [= <- <-].
  destruct (IH c' r' eq_refl) as [-> Hc]. split; [done|]. cbn [forallb]. by rewrite E.
Qed.

(** What [enc_rest] computes, without the fast path. *)
Lemma enc_rest_eq mask its :
  enc_rest mask its =
  fst (enc_left mask its) ++
  (fst (enc_right mask (snd (enc_left mask its))) ≫= enc_item mask) ++
  snd (enc_right mask (snd (enc_left mask its))).
Proof.
  unfold enc_rest. destruct (enc_left mask its) as [p its1]. cbn [fst snd].
  destruct (enc_right mask its1) as [its2 q]. cbn [fst snd].
  case_bool_decide as Hpq; cbn [andb]; [|done]. destruct Hpq as [-> ->]. cbn [app].
  case_if; [by rewrite bind_clean, app_nil_r by done|].
  destruct (span (enc_needed mask) its2) as [clean rest] eqn:Es.
  apply span_app in Es as [-> Hc]. rewrite bind_app, (bind_clean mask clean) by done.
  by rewrite app_assoc.
Qed.

Lemma dec_loop_clean mask it its : dec_needed mask it = false ->
  dec_loop mask (it :: its) false false = item_bytes it ++ dec_loop mask its false false.
Proof.
  unfold dec_needed. rewrite !orb_false_iff. intros [[Hs Hq] Hr]. cbn [dec_loop]. rewrite Hs, Hq.
  pose proof (dec_rule_spec rules mask (item_rune it) rows_rules) as Hspec. rewrite existsb_rows in Hr.
  destruct (dec_rule rules mask (item_rune it)) as [o|]; [exfalso|done].
  destruct Hspec as [_ (rl & Hin & Hh & Ht)]. specialize (Hr rl Hin). by rewrite Hh, Ht in Hr.
Qed.

Lemma dec_loop_clean_app mask clean its : forallb (fun it => negb (dec_needed mask it)) clean = true ->
  dec_loop mask (clean ++ its) false false = flat clean ++ dec_loop mask its false false.
Proof.
  induction clean as [|it clean IH]; cbn [forallb app]; [done|]. intros H. breflect.
  rewrite dec_loop_clean, IH by done. by rewrite flat_cons, app_assoc.
Qed.

Lemma dec_rest_eq mask its :
  dec_rest mask its =
  flat (fst (dec_left mask its)) ++
  dec_loop mask (fst (dec_right mask (snd (dec_left mask its)))) false false ++
  flat (snd (dec_right mask (snd (dec_left mask its)))).
Proof.
  unfold dec_rest. destruct (dec_left mask its) as [p its1]. cbn [fst snd].
  destruct (dec_right mask its1) as [its2 q]. cbn [fst snd].
  case_bool_decide as Hpq; cbn [andb]; [|done]. destruct Hpq as [-> ->]. cbn [flat].
  change (flat []) with (@nil Z). rewrite app_nil_r. cbn [app].
  case_if.
  { rewrite <- (app_nil_r its2) at 2. rewrite dec_loop_clean_app by done. cbn. by rewrite app_nil_r. }
  destruct (span (dec_needed mask) its2) as [clean rest] eqn:Es.
  apply span_app in Es as [-> Hc]. rewrite dec_loop_clean_app by done. by rewrite app_nil_r.
Qed.

(** ** The loops *)

Lemma hex_roundtrip b : is_byte b ->
  hex_value (hex_digit (b / 16)) = Some (b / 16) /\ hex_value (hex_digit (b mod 16)) = Some (b mod 16) /\
  48 <= hex_digit (b / 16) <= 70 /\ 48 <= hex_digit (b mod 16) <= 70.
Proof.
  unfold is_byte. intros Hb. dm b 16.
  assert (forall v, 0 <= v < 16 -> hex_value (hex_digit v) = Some v /\ 48 <= hex_digit v <= 70) as Hhex.
  { intros v Hv. unfold hex_value, hex_digit. destruct (v <? 10) eqn:E; breflect.
    - rewrite (proj2 (Z.leb_le 48 _)), (proj2 (Z.leb_le _ 57)) by lia. cbn [andb]. split; [f_equal; lia|lia].
    - rewrite (proj2 (Z.leb_gt _ 57)), andb_false_r by lia.
      rewrite (proj2 (Z.leb_le 65 _)), (proj2 (Z.leb_le _ 70)) by lia. cbn [andb]. split; [f_equal; lia|lia]. }
  destruct (Hhex (b / 16)), (Hhex (b mod 16)); try lia. done.
Qed.

Lemma encode_rune_ascii r : 0 <= r <= 127 -> encode_rune r = [r].
Proof.
  intros Hr. unfold encode_rune. rewrite (proj2 (ValidRune_spec r)) by lia.
  by rewrite (proj2 (Z.leb_le r 127)) by lia.
Qed.

(** An encoded rune decodes to itself, wherever it stands. *)
Lemma dec_enc_item mask it rest : valid_item it ->
  dec_loop mask (enc_item mask it ++ rest) false false = item_bytes it ++ dec_loop mask rest false false.
Proof.
  intros Hv. destruct it as [r|b]; cbn [enc_item].
  - destruct (r =? 0) eqn:E0; breflect; [by subst r|].
    destruct ((r =? symbolOffset) || (r =? QuoteRune)) eqn:Eq.
    { cbn [app dec_loop item_rune]. change (QuoteRune =? symbolOffset) with false.
      rewrite Z.eqb_refl. cbn iota. apply orb_true_iff in Eq as [Eq|Eq]; rewrite Eq; [done|].
      breflect. subst r. done. }
    apply orb_false_iff in Eq as [Es Eq].
    pose proof (enc_rule_spec rules mask r rows_rules) as Hspec.
    destruct (enc_rule rules mask r) as [out|].
    + destruct Hspec as [(Hp & t & -> & Ho & Ht)|(Ht & ->)].
      * cbn [map app dec_loop item_rune]. pose proof (target_range _ _ _ rows_rules Ht).
        rewrite (proj2 (Z.eqb_neq t symbolOffset)), (proj2 (Z.eqb_neq t QuoteRune))
          by (unfold symbolOffset, QuoteRune; lia).
        pose proof (dec_rule_spec rules mask t rows_rules) as Hd.
        destruct (dec_rule rules mask t) as [o|]; [|done]. destruct Hd as [-> _]. by rewrite Ho.
      * cbn [map app dec_loop item_rune]. change (QuoteRune =? symbolOffset) with false.
        rewrite Z.eqb_refl, Es, Eq.
        pose proof (dec_rule_spec rules mask r rows_rules) as Hd.
        destruct (dec_rule rules mask r) as [o|]; done.
    + cbn [app dec_loop item_rune]. rewrite Es, Eq.
      pose proof (dec_rule_spec rules mask r rows_rules) as Hd.
      destruct (dec_rule rules mask r) as [o|]; [|done]. by destruct Hspec, Hd.
  - cbn [valid_item] in Hv. destruct (Has mask EncodeInvalidUtf8) eqn:Hi.
    + destruct (hex_roundtrip b Hv) as (H1 & H2 & H3 & H4). unfold quoted_byte.
      set (h := hex_digit (b / 16)) in *. set (l := hex_digit (b mod 16)) in *.
      cbn [app dec_loop item_rune]. change (QuoteRune =? symbolOffset) with false. rewrite Z.eqb_refl.
      rewrite (proj2 (Z.eqb_neq h symbolOffset)), (proj2 (Z.eqb_neq h QuoteRune))
        by (unfold symbolOffset, QuoteRune; lia).
      pose proof (dec_rule_spec rules mask h rows_rules) as Hd.
      destruct (dec_rule rules mask h) as [o|].
      { destruct Hd as [_ Hd%(target_range _ _ _ rows_rules)]. lia. }
      rewrite Hi, !flat_cons. cbn [item_bytes]. rewrite !encode_rune_ascii by lia.
      cbn [app unquoted_byte]. rewrite H1, H2. cbn [mbind option_bind]. f_equal.
      unfold is_byte in Hv. dm b 16. lia.
    + cbn [app dec_loop item_rune]. change (RuneError =? symbolOffset) with false.
      change (RuneError =? QuoteRune) with false. cbn iota.
      pose proof (dec_rule_spec rules mask RuneError rows_rules) as Hd.
      destruct (dec_rule rules mask RuneError) as [o|]; [|done].
      destruct Hd as [_ Hd%(target_range _ _ _ rows_rules)]. unfold RuneError in Hd. lia.
Qed.

Lemma dec_enc_body mask its : Forall valid_item its ->
  dec_loop mask (its ≫= enc_item mask) false false = flat its.
Proof.
  induction 1 as [|it its Hit _ IH]; [done|]. rewrite bind_cons, dec_enc_item, IH by done. done.
Qed.

(** ** The start of the name *)

(** A rune that no enabled row of [rls] concerns. *)
Definition untouched (rls : list rule) (mask : MultiEncoder) (it : item) : Prop :=
  match it with
  | Rune r => ~ plain_in rls mask r /\ ~ target_in rls mask r
  | Bad _ => True
  end.

Lemma dec_rule_None rls mask r : rows rls -> ~ target_in rls mask r -> dec_rule rls mask r = None.
Proof.
  intros Hr Hn. pose proof (dec_rule_spec rls mask r Hr) as H.
  destruct (dec_rule rls mask r) as [o|]; [|done]. by destruct H.
Qed.

Lemma dec_rule_Some rls mask r : rows rls -> target_in rls mask r ->
  dec_rule rls mask r = Some (original r).
Proof.
  intros Hr Ht. pose proof (dec_rule_spec rls mask r Hr) as H.
  destruct (dec_rule rls mask r) as [o|]; [|done]. by destruct H as [-> _].
Qed.

(** A head that is not the quote and not a replacement stops [dec_left]. *)
Lemma dec_left_stop mask h rest : h <> QuoteRune -> ~ target_in left_rules mask h ->
  dec_left mask (Rune h :: rest) = ([], Rune h :: rest).
Proof.
  intros Hq Ht. cbn [dec_left]. rewrite dec_rule_None by done. by rewrite (proj2 (Z.eqb_neq h QuoteRune)).
Qed.

Lemma dec_left_quote mask h rest : ~ target_in left_rules mask h ->
  dec_left mask (Rune QuoteRune :: Rune h :: rest) = ([], Rune QuoteRune :: Rune h :: rest).
Proof.
  intros Ht. cbn [dec_left]. rewrite (dec_rule_None left_rules mask QuoteRune) by (auto using quote_not_target).
  rewrite Z.eqb_refl. by rewrite dec_rule_None by done.
Qed.

(** The replacement that a row of another list makes of an untouched rune. *)
Lemma dec_left_replaced rls mask r out rest : rows rls -> enc_rule rls mask r = Some out ->
  untouched left_rules mask (Rune r) ->
  dec_left mask (map Rune out ++ rest) = ([], map Rune out ++ rest).
Proof.
  intros Hrows Hout [Hp Ht]. pose proof (enc_rule_spec rls mask r Hrows) as Hspec. rewrite Hout in Hspec.
  destruct Hspec as [(Hpl & t & -> & Ho & Htt)|(Htt & ->)]; cbn [map app].
  - apply dec_left_stop.
    + pose proof (target_range _ _ _ Hrows Htt). unfold QuoteRune. lia.
    + intros H. apply Hp. rewrite <- Ho. by apply target_plain.
  - by apply dec_left_quote.
Qed.

Lemma ascii_not_target rls mask r : rows rls -> r <= 9216 -> ~ target_in rls mask r.
Proof. intros Hr Hle H%(target_range _ _ _ Hr). lia. Qed.

Lemma dec_left_item mask it rest : valid_item it -> untouched left_rules mask it ->
  dec_left mask (enc_item mask it ++ rest) = ([], enc_item mask it ++ rest).
Proof.
  intros Hv Hu. destruct it as [r|b]; cbn [enc_item].
  - destruct (r =? 0) eqn:E0.
    { apply dec_left_stop; [done|]. by apply ascii_not_target. }
    destruct ((r =? symbolOffset) || (r =? QuoteRune)) eqn:Eq.
    { apply dec_left_quote. apply orb_true_iff in Eq as [Eq|Eq]; breflect; subst r;
        by apply ascii_not_target. }
    apply orb_false_iff in Eq as [Es Eq]. breflect.
    destruct (enc_rule rules mask r) as [out|] eqn:Eo.
    + by apply (dec_left_replaced rules mask r).
    + apply dec_left_stop; [done|]. by destruct Hu.
  - destruct (Has mask EncodeInvalidUtf8); [|done].
    apply (dec_left_quote mask _ (Rune (hex_digit (b mod 16)) :: rest)).
    destruct (hex_roundtrip b Hv) as (_ & _ & H & _). apply ascii_not_target; [done|lia].
Qed.

(** ** The end of the name *)

Lemma last_app_r {A} (a b : list A) : b <> [] -> last (a ++ b) = last b.
Proof.
  intros Hb. destruct b as [|x b _] using rev_ind; [done|]. by rewrite app_assoc, !last_snoc.
Qed.

Lemma enc_item_last mask it : valid_item it -> exists x,
  last (enc_item mask it) = Some x /\ (x = Rune QuoteRune -> it = Rune QuoteRune) /\
  (untouched right_rules mask it -> forall h, x = Rune h -> ~ target_in right_rules mask h).
Proof.
  intros Hv. destruct it as [r|b]; cbn [enc_item].
  - destruct (r =? 0) eqn:E0.
    { eexists. split; [done|]. split; [done|]. intros _ h [= <-]. by apply ascii_not_target. }
    destruct ((r =? symbolOffset) || (r =? QuoteRune)) eqn:Eq.
    { eexists. split; [done|]. split; [by intros [= ->]|]. intros [_ Ht] h [= <-]. done. }
    apply orb_false_iff in Eq as [Es Eq]. breflect.
    pose proof (enc_rule_spec rules mask r rows_rules) as Hspec.
    destruct (enc_rule rules mask r) as [out|].
    + destruct Hspec as [(Hpl & t & -> & Ho & Htt)|(Htt & ->)]; (eexists; split; [done|]).
      * pose proof (target_range _ _ _ rows_rules Htt). split.
        { intros [= ->]. unfold QuoteRune in *. lia. }
        intros [Hp _] h [= <-] Ht. apply Hp. rewrite <- Ho. by apply target_plain.
      * split; [intros [= ->]; done|]. intros [_ Ht] h [= <-]. done.
    + eexists. split; [done|]. split; [intros [= ->]; done|]. intros [_ Ht] h [= <-]. done.
  - destruct (hex_roundtrip b Hv) as (_ & _ & _ & H).
    destruct (Has mask EncodeInvalidUtf8); (eexists; split; [done|]).
    + split; [intros [= E]; unfold QuoteRune in E; lia|]. intros _ h [= <-].
      apply ascii_not_target; [done|lia].
    + split; [done|]. intros _ h [=].
Qed.

Lemma body_snoc_last mask its it : valid_item it ->
  last ((its ++ [it]) ≫= enc_item mask) = last (enc_item mask it).
Proof.
  intros Hv. rewrite bind_app, bind_cons. change ([] ≫= enc_item mask) with (@nil item).
  rewrite app_nil_r. apply last_app_r.
  destruct (enc_item_last mask it Hv) as (x & H & _). by destruct (enc_item mask it).
Qed.

Lemma take_snoc {A} (l : list A) x : take (length (l ++ [x]) - 1) (l ++ [x]) = l.
Proof. rewrite length_app. cbn [length]. rewrite Nat.add_sub. apply take_app_length. Qed.

(** What is before a trailing character that is replaced does not end with the
    quote. *)
Definition clean_end (mask : MultiEncoder) (its : list item) : Prop :=
  forall x r, its = x ++ [Rune QuoteRune; Rune r] -> ~ plain_in right_rules mask r.

Lemma dec_enc_right mask its its2 q : Forall valid_item its -> clean_end mask its ->
  enc_right mask its = (its2, q) ->
  dec_right mask ((its2 ≫= enc_item mask) ++ q) = (its2 ≫= enc_item mask, drop (length its2) its) /\
  its = its2 ++ drop (length its2) its.
Proof.
  intros Hv Hend Hr. unfold enc_right in Hr.
  (* nothing was replaced *)
  assert (its2 = its -> q = [] ->
    (forall it, last its = Some it -> untouched right_rules mask it) ->
    dec_right mask ((its2 ≫= enc_item mask) ++ q) = (its2 ≫= enc_item mask, drop (length its2) its) /\
    its = its2 ++ drop (length its2) its) as Hnone.
  { intros -> -> Hu. rewrite drop_ge, !app_nil_r by done. split; [|done].
    destruct its as [|it its _] using rev_ind; [done|]. apply Forall_app in Hv as [_ Hv].
    inversion Hv as [|?? Hit _]; subst. destruct (enc_item_last mask it Hit) as (x & Hx & _ & Hnt).
    unfold dec_right. rewrite body_snoc_last, Hx by done. rewrite last_snoc in Hu.
    destruct x as [h|]; [|done]. rewrite dec_rule_None; [done|done|]. by apply (Hnt (Hu it eq_refl)). }
  destruct its as [|it its _] using rev_ind.
  { injection Hr as <- <-. by apply Hnone. }
  rewrite last_snoc in *. destruct it as [r|b].
  2:{ injection Hr as <- <-. apply Hnone; [done|done|]. by intros it [= <-]. }
  pose proof (enc_rule_spec right_rules mask r rows_right) as Hspec.
  destruct (enc_rule right_rules mask r) as [out|].
  2:{ injection Hr as <- <-. apply Hnone; [done|done|]. by intros it [= <-]. }
  injection Hr as <- <-. rewrite take_snoc, drop_app_length. split; [|done].
  apply Forall_app in Hv as [Hv _]. unfold dec_right.
  destruct Hspec as [(Hpl & t & -> & Ho & Htt)|(Htt & ->)]; cbn [map].
  - rewrite last_snoc, take_snoc, dec_rule_Some, Ho by done. rewrite decide_False; [done|].
    destruct its as [|it its _] using rev_ind; [done|]. apply Forall_app in Hv as [_ Hv].
    inversion Hv as [|?? Hit _]; subst. destruct (enc_item_last mask it Hit) as (x & Hx & Hq & _).
    rewrite body_snoc_last, Hx by done. intros [= ->]. apply (Hend its (original t)); [|done].
    by rewrite (Hq eq_refl), <- app_assoc.
  - change [Rune QuoteRune; Rune r] with ([Rune QuoteRune] ++ [Rune r]).
    rewrite app_assoc, last_snoc, take_snoc, dec_rule_Some by done.
    by rewrite last_snoc, decide_True, take_snoc by done.
Qed.

(** ** The round trip *)

Lemma enc_right_split mask its : its = fst (enc_right mask its) ++ drop (length (fst (enc_right mask its))) its.
Proof.
  assert (its = its ++ drop (length its) its) as Hall by (by rewrite drop_ge, app_nil_r).
  unfold enc_right. destruct its as [|it its _] using rev_ind; [done|].
  rewrite last_snoc, take_snoc. destruct it as [r|b]; [|done].
  destruct (enc_rule right_rules mask r); [|done]. cbn [fst]. by rewrite drop_app_length.
Qed.

(** The name after its start, encoded. *)
Definition enc_tail (mask : MultiEncoder) (its : list item) : list item :=
  (fst (enc_right mask its) ≫= enc_item mask) ++ snd (enc_right mask its).

(** A first rune that is not touched at the start is left alone by [dec_left]. *)
Lemma dec_left_tail mask its : Forall valid_item its ->
  (forall it, head its = Some it -> untouched left_rules mask it) ->
  dec_left mask (enc_tail mask its) = ([], enc_tail mask its).
Proof.
  intros Hv Hu. unfold enc_tail. pose proof (enc_right_split mask its) as Hits.
  destruct (enc_right mask its) as [its2 q] eqn:Er. cbn [fst snd] in *.
  destruct its2 as [|it its2].
  - cbn [mbind list_bind app]. unfold enc_right in Er.
    destruct its as [|it its _] using rev_ind; [by injection Er as <-|].
    rewrite last_snoc, take_snoc in Er. destruct it as [r|b]; [|by injection Er as ? <-].
    destruct (enc_rule right_rules mask r) as [out|] eqn:Eo; [|by injection Er as ? <-].
    injection Er as -> <-. rewrite <- (app_nil_r (map Rune out)).
    apply (dec_left_replaced right_rules mask r); [done|done|]. by apply Hu.
  - rewrite bind_cons, <- app_assoc. rewrite Hits in Hv, Hu.
    inversion Hv as [|?? Hit _]; subst. apply dec_left_item; [done|]. by apply Hu.
Qed.

(** [dec_left] undoes [enc_left]. *)
Lemma dec_enc_left mask its : Forall valid_item its -> exists start,
  its = start ++ snd (enc_left mask its) /\
  dec_left mask (enc_rest mask its) = (start, enc_tail mask (snd (enc_left mask its))).
Proof.
  intros Hv. rewrite enc_rest_eq.
  assert (fst (enc_left mask its) = [] -> snd (enc_left mask its) = its ->
    (forall it, head its = Some it -> untouched left_rules mask it) -> exists start,
    its = start ++ snd (enc_left mask its) /\
    dec_left mask (fst (enc_left mask its) ++ enc_tail mask (snd (enc_left mask its))) =
      (start, enc_tail mask (snd (enc_left mask its)))) as Hnone.
  { intros -> -> Hu. exists []. split; [done|]. by apply dec_left_tail. }
  destruct its as [|[r|b] its].
  - by apply Hnone.
  - pose proof (enc_rule_spec left_rules mask r rows_left) as Hspec. cbn [enc_left] in *.
    destruct (enc_rule left_rules mask r) as [out|]; cbn [fst snd].
    2:{ cbn [fst snd] in Hnone. apply Hnone; [done|done|]. by intros it [= <-]. }
    exists [Rune r]. split; [done|].
    destruct Hspec as [(Hpl & t & -> & Ho & Htt)|(Htt & ->)]; cbn [map app dec_left].
    + by rewrite dec_rule_Some, Ho by done.
    + rewrite (dec_rule_None left_rules mask QuoteRune) by (auto using quote_not_target).
      rewrite Z.eqb_refl. by rewrite dec_rule_Some by done.
  - apply Hnone; [done|done|]. by intros it [= <-].
Qed.

Lemma clean_end_app mask a b : clean_end mask (a ++ b) -> clean_end mask b.
Proof. intros H x r ->. apply (H (a ++ x) r). by rewrite app_assoc. Qed.

Lemma dec_enc_rest mask its : Forall valid_item its -> clean_end mask its ->
  dec_rest mask (enc_rest mask its) = flat its.
Proof.
  intros Hv Hend. destruct (dec_enc_left mask its Hv) as (start & Hits & Hd).
  rewrite dec_rest_eq, Hd. cbn [fst snd]. generalize dependent (snd (enc_left mask its)).
  intros its1 -> _. apply Forall_app in Hv as [_ Hv]. apply clean_end_app in Hend.
  unfold enc_tail. destruct (enc_right mask its1) as [its2 q] eqn:Er. cbn [fst snd].
  destruct (dec_enc_right mask its1 its2 q Hv Hend Er) as [-> Hits]. cbn [fst snd].
  rewrite dec_enc_body by (rewrite Hits in Hv; by apply Forall_app in Hv as [? _]).
  rewrite <- !flat_app. by rewrite <- Hits.
Qed.

(** *** What is encoded is a canonical decomposition *)

Lemma lead_runes rs its : lead (map Rune rs ++ its) = match rs with [] => lead its | _ => [] end.
Proof. by destruct rs. Qed.

Lemma enc_rule_valid rls mask r out : rows rls -> ValidRune r = true -> enc_rule rls mask r = Some out ->
  Forall (fun x => ValidRune x = true) out /\ out <> [].
Proof.
  intros Hrows Hv Hout. pose proof (enc_rule_spec rls mask r Hrows) as Hspec. rewrite Hout in Hspec.
  destruct Hspec as [(Hpl & t & -> & Ho & Htt)|(Htt & ->)]; (split; [|done]); repeat constructor; try done.
  destruct Htt as (rl & Hin & _ & Ht). apply Hrows in Hin.
  unfold is_target in Ht. rename Ht into Htp.
  assert (forall x, x ∈ all_rules -> forallb (fun p => ValidRune (p + rl_offset x)) (rl_plain x) = true) as Hall.
  { assert (forallb (fun x => forallb (fun p => ValidRune (p + rl_offset x)) (rl_plain x)) all_rules = true) as H
      by (vm_compute; reflexivity).
    intros x Hx. rewrite forallb_forall in H. apply H. by apply list_elem_of_In. }
  specialize (Hall rl Hin). rewrite forallb_forall in Hall.
  apply bool_decide_eq_true_1, list_elem_of_In in Htp. specialize (Hall _ Htp).
  by replace (t - rl_offset rl + rl_offset rl) with t in Hall by lia.
Qed.

Lemma lead_app_runes its rs : lead (its ++ map Rune rs) = lead its.
Proof. induction its as [|[r|b] its IH]; cbn [app lead]; [by destruct rs|done|by rewrite IH]. Qed.

(** Valid runes can be added at, and removed from, the end. *)
Lemma canonical_app_runes its rs : Forall (fun r => ValidRune r = true) rs ->
  canonical (its ++ map Rune rs) <-> canonical its.
Proof.
  intros Hrs. induction its as [|[r|b] its IH]; cbn [app canonical].
  - split; [done|]. intros _. by apply canonical_runes.
  - by rewrite IH.
  - by rewrite IH, bad_lead, lead_app_runes, <- bad_lead.
Qed.

Lemma canonical_runes_app rs its : Forall (fun r => ValidRune r = true) rs -> canonical its ->
  canonical (map Rune rs ++ its).
Proof. induction 1; cbn [map app canonical]; auto. Qed.

Lemma enc_item_rune mask r : ValidRune r = true ->
  exists out, enc_item mask (Rune r) = map Rune out /\ Forall (fun x => ValidRune x = true) out /\ out <> [].
Proof.
  intros Hv. cbn [enc_item]. destruct (r =? 0); [by exists [symbolOffset]; split_and!; repeat constructor|].
  destruct ((r =? symbolOffset) || (r =? QuoteRune)).
  { exists [QuoteRune; r]. split_and!; [done|by repeat constructor|done]. }
  destruct (enc_rule rules mask r) as [out|] eqn:E.
  - exists out. split; [done|]. by apply (enc_rule_valid rules mask r).
  - exists [r]. split_and!; [done|by repeat constructor|done].
Qed.

Lemma hex_digit_valid v : 48 <= hex_digit v <= 70 -> ValidRune (hex_digit v) = true.
Proof. intros H. apply ValidRune_spec. lia. Qed.

Lemma enc_body_canonical mask its : canonical its ->
  canonical (its ≫= enc_item mask) /\
  (Has mask EncodeInvalidUtf8 = false -> lead (its ≫= enc_item mask) = lead its).
Proof.
  induction its as [|[r|b] its IH]; cbn [canonical]; [done|..].
  - intros [Hr Hits]. destruct (IH Hits) as [Hc _]. rewrite bind_cons.
    destruct (enc_item_rune mask r Hr) as (out & -> & Hv & Hne).
    split; [by apply canonical_runes_app|]. intros _. by destruct out.
  - intros (Hb & Hd & Hits). destruct (IH Hits) as [Hc Hl]. rewrite bind_cons. cbn [enc_item].
    destruct (Has mask EncodeInvalidUtf8).
    + destruct (hex_roundtrip b Hb) as (_ & _ & H1 & H2). split; [|done].
      apply (canonical_runes_app [QuoteRune; hex_digit (b / 16); hex_digit (b mod 16)]); [|done].
      repeat constructor; auto using hex_digit_valid.
    + cbn [app canonical lead]. split; [|intros _; by rewrite Hl].
      split_and!; [done| |done]. by rewrite bad_lead, Hl, <- bad_lead.
Qed.

Lemma enc_rest_canonical mask its : canonical its -> canonical (enc_rest mask its).
Proof.
  intros Hc. rewrite enc_rest_eq.
  assert (exists rs, fst (enc_left mask its) = map Rune rs /\ Forall (fun r => ValidRune r = true) rs /\
    canonical (snd (enc_left mask its))) as (rs & -> & Hrs & Hc1).
  { unfold enc_left. destruct its as [|[r|b] its]; [by exists []|..|by exists []].
    destruct Hc as [Hr Hc]. destruct (enc_rule left_rules mask r) as [out|] eqn:E; [|by exists []].
    exists out. cbn [fst snd]. by destruct (enc_rule_valid left_rules mask r out). }
  apply canonical_runes_app; [done|]. generalize dependent (snd (enc_left mask its)). clear its Hc. intros its Hc.
  assert (exists rs, snd (enc_right mask its) = map Rune rs /\ Forall (fun r => ValidRune r = true) rs /\
    canonical (fst (enc_right mask its))) as (qs & -> & Hqs & Hc1).
  { unfold enc_right. destruct its as [|it its _] using rev_ind; [by exists []|].
    rewrite last_snoc, take_snoc. destruct it as [r|b]; [|by exists []].
    destruct (enc_rule right_rules mask r) as [out|] eqn:E; [|by exists []].
    assert (ValidRune r = true) as Hr.
    { apply canonical_Forall, Forall_app in Hc as [_ Hc]. by inversion Hc. }
    exists out. cbn [fst snd]. destruct (enc_rule_valid right_rules mask r out); [done..|].
    split_and!; [done|done|]. apply (canonical_app_runes its [r]); [by constructor|done]. }
  apply canonical_app_runes; [done|]. by apply enc_body_canonical.
Qed.

(** *** The special names *)

Lemma flat_inj a b : canonical a -> canonical b -> flat a = flat b -> a = b.
Proof. intros Ha Hb E. by rewrite <- (items_flat a), <- (items_flat b), E. Qed.

Lemma rules_fullStop mask : dec_rule rules mask fullStop = None /\ enc_rule rules mask fullStop = None.
Proof.
  assert (forallb (fun rl => negb (is_target rl fullStop || is_plain rl fullStop)) rules = true) as H
    by (vm_compute; reflexivity).
  revert H. generalize rules. induction l as [|rl l IH]; [done|]. cbn [forallb enc_rule dec_rule]. intros H.
  apply andb_true_iff in H as [H H3]. apply negb_true_iff, orb_false_iff in H as [H1 H2]. rewrite H1, H2, andb_false_r.
  destruct (IH H3). by destruct (Has mask (rl_flag rl)).
Qed.

Lemma left_fullStop mask :
  dec_rule left_rules mask fullStop = (if Has mask EncodeLeftPeriod then Some 46 else None) /\
  enc_rule left_rules mask fullStop = (if Has mask EncodeLeftPeriod then Some [QuoteRune; fullStop] else None) /\
  dec_rule left_rules mask QuoteRune = None /\ enc_rule left_rules mask QuoteRune = None /\
  enc_rule left_rules mask 46 = (if Has mask EncodeLeftPeriod then Some [fullStop] else None).
Proof.
  unfold left_rules. cbn [dec_rule enc_rule rl_flag].
  repeat match goal with |- context [Has ?m ?f] => destruct (Has m f) end; by vm_compute.
Qed.

Lemma right_fullStop mask :
  dec_rule right_rules mask fullStop = (if Has mask EncodeRightPeriod then Some 46 else None) /\
  enc_rule right_rules mask fullStop = (if Has mask EncodeRightPeriod then Some [QuoteRune; fullStop] else None) /\
  dec_rule right_rules mask QuoteRune = None /\ enc_rule right_rules mask QuoteRune = None /\
  enc_rule right_rules mask 46 = (if Has mask EncodeRightPeriod then Some [fullStop] else None).
Proof.
  unfold right_rules. cbn [dec_rule enc_rule rl_flag].
  repeat match goal with |- context [Has ?m ?f] => destruct (Has m f) end; by vm_compute.
Qed.

(** How the two pieces of a special name decode and encode. *)
Lemma dec_loop_fullStop mask rest :
  dec_loop mask (Rune fullStop :: rest) false false = encode_rune fullStop ++ dec_loop mask rest false false /\
  dec_loop mask (Rune QuoteRune :: Rune fullStop :: rest) false false =
    encode_rune QuoteRune ++ encode_rune fullStop ++ dec_loop mask rest false false.
Proof.
  destruct (rules_fullStop mask) as [Hr _]. cbn [dec_loop item_rune].
  change (QuoteRune =? symbolOffset) with false. rewrite Z.eqb_refl.
  change (fullStop =? symbolOffset) with false. change (fullStop =? QuoteRune) with false.
  cbn iota. rewrite Hr. split; [done|]. rewrite flat_cons. by destruct (Has mask EncodeInvalidUtf8).
Qed.

Lemma enc_item_fullStop mask :
  enc_item mask (Rune fullStop) = [Rune fullStop] /\
  enc_item mask (Rune QuoteRune) = [Rune QuoteRune; Rune QuoteRune].
Proof.
  destruct (rules_fullStop mask) as [_ Hr]. split; [|done]. cbn [enc_item].
  change (fullStop =? 0) with false. change (fullStop =? symbolOffset) with false.
  change (fullStop =? QuoteRune) with false. cbn [orb]. by rewrite Hr.
Qed.

(** What the special names decode to when they are not treated as such. *)
Definition dec_special_items (mask : MultiEncoder) (special : list item) : list item :=
  let L := Has mask EncodeLeftPeriod in
  let R := Has mask EncodeRightPeriod in
  if decide (special = [Rune fullStop]) then (if L || R then [Rune 46] else [Rune fullStop])
  else if decide (special = [Rune fullStop; Rune fullStop])
  then [Rune (if L then 46 else fullStop); Rune (if R then 46 else fullStop)]
  else if decide (special = [Rune QuoteRune; Rune fullStop])
  then (if L || R then [Rune fullStop] else [Rune QuoteRune; Rune fullStop])
  else (if L then [Rune fullStop] else [Rune QuoteRune; Rune fullStop]) ++
       (if R then [Rune fullStop] else [Rune QuoteRune; Rune fullStop]).

Lemma dec_special mask special out : dec_dots special = Some out ->
  dec_rest mask special = flat (dec_special_items mask special).
Proof.
  intros Hs. destruct (left_fullStop mask) as (Hld & _ & Hlq & _).
  destruct (right_fullStop mask) as (Hrd & _ & Hrq & _).
  pose proof (fun rest => proj1 (dec_loop_fullStop mask rest)) as Hf.
  pose proof (fun rest => proj2 (dec_loop_fullStop mask rest)) as Hq.
  rewrite dec_rest_eq. unfold dec_dots in Hs.
  repeat match type of Hs with context [decide ?P] => destruct (decide P) as [->|] end; [..|done];
    clear Hs; unfold dec_special_items; cbn [dec_left]; rewrite ?Hld, ?Hlq, ?Z.eqb_refl;
    destruct (Has mask EncodeLeftPeriod), (Has mask EncodeRightPeriod);
    change (fullStop =? QuoteRune) with false; cbn [fst snd orb]; unfold dec_right;
    cbn [last length take Nat.sub]; rewrite ?Hrd; cbn [last length take Nat.sub];
    repeat first [rewrite decide_True by reflexivity | rewrite decide_False by (vm_compute; discriminate)];
    cbn [fst snd]; rewrite ?Hf, ?Hq; cbn [dec_loop]; rewrite ?app_nil_r; vm_compute; reflexivity.
Qed.

(** The names that are mistaken for "..". *)
Definition dot_collision (mask : MultiEncoder) (its : list item) : bool :=
  let L := Has mask EncodeLeftPeriod in
  let R := Has mask EncodeRightPeriod in
  Has mask EncodeDot &&
  (bool_decide (its = [Rune 46; Rune fullStop]) && L && negb R ||
   bool_decide (its = [Rune fullStop; Rune 46]) && R && negb L).

(** An encoded name that looks special is not a special name only if it is one
    of those. *)
Lemma special_encoded mask its out : canonical its -> clean_end mask its -> Has mask EncodeDot = true ->
  enc_dots its = None -> dec_dots (enc_rest mask its) = Some out -> dot_collision mask its = true.
Proof.
  intros Hc Hend HD He Hs. unfold dot_collision. rewrite HD.
  destruct (left_fullStop mask) as (_ & Hle & _ & Hlq & _).
  destruct (right_fullStop mask) as (_ & Hre & _ & Hrq & _).
  destruct (enc_item_fullStop mask) as [Hif Hiq].
  assert (its = dec_special_items mask (enc_rest mask its)) as Hits.
  { apply flat_inj; [done| |].
    - unfold dec_special_items. repeat case_decide; destruct (Has mask EncodeLeftPeriod), (Has mask EncodeRightPeriod);
        cbn [canonical orb app]; by repeat split.
    - rewrite <- (dec_special mask _ out) by done. rewrite dec_enc_rest; [done|by apply canonical_Forall|done]. }
  assert (forall special, enc_rest mask its = special -> special = enc_rest mask (dec_special_items mask special))
    as Hself by (by intros special <-; rewrite <- Hits).
  unfold enc_dots in He. unfold dec_dots in Hs.
  repeat match type of He with context [decide (its = ?P)] => destruct (decide (its = P)); [done|] end.
  repeat match type of Hs with context [decide (_ = ?P)] =>
    destruct (decide (enc_rest mask its = P)) as [E|]; [apply Hself in E as Hs'; rewrite E in Hits; clear Hs E|] end;
    [..|done]; unfold dec_special_items in Hits, Hs';
    repeat first [rewrite decide_True in Hits, Hs' by reflexivity |
                  rewrite decide_False in Hits, Hs' by (vm_compute; discriminate)];
    rewrite enc_rest_eq in Hs';
    destruct (Has mask EncodeLeftPeriod), (Has mask EncodeRightPeriod); cbn [orb app] in Hits, Hs';
    try congruence.
  1,2: by rewrite Hits.
  all: exfalso; cbn [enc_left] in Hs'; rewrite ?Hle, ?Hlq in Hs'; cbn [fst snd] in Hs';
    unfold enc_right in Hs'; cbn [last length take Nat.sub] in Hs'; rewrite ?Hre, ?Hrq in Hs';
    cbn [fst snd] in Hs'; rewrite ?bind_cons, ?Hif, ?Hiq in Hs'; cbn in Hs'; congruence.
Qed.

(** *** Names that end with the quote and a character that is replaced *)

Definition quote_collision (mask : MultiEncoder) (its : list item) : bool :=
  match reverse its with
  | Rune r :: Rune q :: _ =>
      (q =? QuoteRune) && existsb (fun rl => Has mask (rl_flag rl) && is_plain rl r) right_rules
  | _ => false
  end.

Lemma plain_in_existsb rls mask r :
  existsb (fun rl => Has mask (rl_flag rl) && is_plain rl r) rls = true <-> plain_in rls mask r.
Proof.
  unfold plain_in. rewrite existsb_exists. setoid_rewrite list_elem_of_In.
  setoid_rewrite andb_true_iff. done.
Qed.

Lemma quote_collision_true mask its : quote_collision mask its = true ->
  exists x r, its = x ++ [Rune QuoteRune; Rune r] /\ plain_in right_rules mask r.
Proof.
  unfold quote_collision. intros H. destruct (reverse its) as [|[r|] [|[q|] y]] eqn:E; try done.
  apply andb_true_iff in H as [Hq%Z.eqb_eq Hp%plain_in_existsb]. subst q. exists (reverse y), r. split; [|done].
  rewrite <- (reverse_involutive its), E. by rewrite !reverse_cons, <- app_assoc.
Qed.

Lemma quote_collision_false mask its : quote_collision mask its = false -> clean_end mask its.
Proof.
  intros H x r -> Hp. unfold quote_collision in H. rewrite reverse_app in H. cbn [reverse rev_append app] in H.
  change (reverse [Rune QuoteRune; Rune r]) with [Rune r; Rune QuoteRune] in H. cbn [app] in H.
  rewrite Z.eqb_refl in H. apply plain_in_existsb in Hp. by rewrite Hp in H.
Qed.

Lemma dec_enc_body_app mask its rest : Forall valid_item its ->
  dec_loop mask ((its ≫= enc_item mask) ++ rest) false false = flat its ++ dec_loop mask rest false false.
Proof.
  induction 1 as [|it its Hit _ IH]; [done|]. rewrite bind_cons, <- app_assoc, dec_enc_item, IH by done.
  by rewrite flat_cons, app_assoc.
Qed.

Lemma snd_enc_left mask x r : exists y,
  snd (enc_left mask (x ++ [Rune QuoteRune; Rune r])) = y ++ [Rune QuoteRune; Rune r].
Proof.
  destruct (left_fullStop mask) as (_ & _ & _ & Hq & _).
  destruct x as [|[c|b] x]; cbn [app enc_left].
  - rewrite Hq. by exists [].
  - destruct (enc_rule left_rules mask c); [by exists x|by exists (Rune c :: x)].
  - by exists (Bad b :: x).
Qed.

Lemma quote_collision_encoded mask x r : Forall valid_item (x ++ [Rune QuoteRune; Rune r]) ->
  plain_in right_rules mask r -> exists y t, r <> t /\ ValidRune t = true /\
  enc_rest mask (x ++ [Rune QuoteRune; Rune r]) = y ++ [Rune QuoteRune; Rune QuoteRune; Rune t] /\
  dec_rest mask (enc_rest mask (x ++ [Rune QuoteRune; Rune r])) = flat (x ++ [Rune QuoteRune; Rune t]).
Proof.
  intros Hv Hp. destruct (dec_enc_left mask _ Hv) as (start & Hits & Hd). rewrite dec_rest_eq, Hd, enc_rest_eq.
  cbn [fst snd]. destruct (snd_enc_left mask x r) as [z Hz]. rewrite Hz in *. fold (enc_tail mask (z ++ [Rune QuoteRune; Rune r])).
  assert (x = start ++ z) as -> by (rewrite app_assoc in Hits; by apply app_inj_2 in Hits as [? _]).
  pose proof (enc_rule_spec right_rules mask r rows_right) as Hspec.
  pose proof (plain_range _ _ _ rows_right Hp) as Hpr.
  assert (ValidRune r = true) as Hvr by (apply ValidRune_spec; lia).
  pose proof (fun out => enc_rule_valid right_rules mask r out rows_right Hvr) as Hval.
  destruct (enc_rule right_rules mask r) as [out|] eqn:Eo; [|by destruct Hspec].
  destruct Hspec as [(_ & t & -> & Ho & Ht)|(Ht & _)]; pose proof (target_range _ _ _ rows_right Ht) as Htr; [|lia].
  destruct (Hval _ eq_refl) as [Hvt _]. inversion Hvt as [|?? Hvt' _]; subst x l.
  assert (enc_tail mask (z ++ [Rune QuoteRune; Rune r]) =
    (z ≫= enc_item mask) ++ [Rune QuoteRune; Rune QuoteRune; Rune t]) as ->.
  { unfold enc_tail, enc_right. change [Rune QuoteRune; Rune r] with ([Rune QuoteRune] ++ [Rune r]).
    rewrite app_assoc, last_snoc, take_snoc, Eo. cbn [fst snd]. by rewrite bind_app, <- app_assoc. }
  exists (fst (enc_left mask ((start ++ z) ++ [Rune QuoteRune; Rune r])) ++ (z ≫= enc_item mask)), t.
  split_and!; [lia|done|by rewrite app_assoc|].
  assert (dec_right mask ((z ≫= enc_item mask) ++ [Rune QuoteRune; Rune QuoteRune; Rune t]) =
    ((z ≫= enc_item mask) ++ [Rune QuoteRune], [Rune t])) as ->.
  { unfold dec_right.
    change [Rune QuoteRune; Rune QuoteRune; Rune t] with (([Rune QuoteRune] ++ [Rune QuoteRune]) ++ [Rune t]).
    rewrite app_assoc, last_snoc, take_snoc, dec_rule_Some by done.
    by rewrite app_assoc, last_snoc, decide_True, take_snoc by done. }
  cbn [fst snd]. rewrite dec_enc_body_app; [|rewrite !Forall_app in Hv; naive_solver].
  rewrite !flat_app, <- !app_assoc. done.
Qed.

(** *** The theorem *)

(** The names that [Decode] does not give back. *)
Definition ambiguous (mask : MultiEncoder) (its : list item) : bool :=
  negb (mask =? EncodeRaw) && (dot_collision mask its || quote_collision mask its).

Lemma enc_dots_Some its out : enc_dots its = Some out ->
  canonical out /\ dec_dots out = Some its /\ forall mask, ambiguous mask its = false.
Proof.
  unfold enc_dots. repeat case_decide; intros [= <-]; subst its;
    (split; [by vm_compute|]; split; [by vm_compute|]); intros mask; unfold ambiguous;
    change (quote_collision mask _) with false; rewrite orb_false_r;
    unfold dot_collision; rewrite !bool_decide_false by done; cbn [andb orb]; by rewrite !andb_false_r.
Qed.

Lemma Encode_canonical mask its : canonical its -> canonical (Encode_items mask its).
Proof.
  intros Hc. unfold Encode_items. destruct (mask =? EncodeRaw); [done|].
  destruct (decide (its = [])); [done|]. destruct (Has mask EncodeDot); [|by apply enc_rest_canonical].
  destruct (enc_dots its) as [out|] eqn:E; [|by apply enc_rest_canonical]. by apply (enc_dots_Some its).
Qed.

Lemma dec_dots_end y it : dec_dots (y ++ [Rune QuoteRune; Rune QuoteRune; it]) = None.
Proof.
  unfold dec_dots.
  rewrite !decide_False; [done|..]; intros E%(f_equal reverse); rewrite reverse_app in E; by vm_compute in E.
Qed.

Lemma enc_dots_end y it : enc_dots (y ++ [Rune QuoteRune; it]) = None.
Proof.
  unfold enc_dots.
  rewrite !decide_False; [done|..]; intros E%(f_equal reverse); rewrite reverse_app in E; by vm_compute in E.
Qed.

(** [Decode] of an encoded name, on decompositions. *)
Lemma Decode_Encode_items mask its : canonical its -> mask <> EncodeRaw ->
  Decode mask (flat (Encode_items mask its)) =
  match (if Has mask EncodeDot then dec_dots (Encode_items mask its) else None) with
  | Some out => flat out
  | None => dec_rest mask (Encode_items mask its)
  end.
Proof.
  intros Hc Hm. unfold Decode. rewrite items_flat by (by apply Encode_canonical).
  by rewrite (proj2 (Z.eqb_neq mask EncodeRaw)).
Qed.

Lemma unambiguous_roundtrip mask its : canonical its -> ambiguous mask its = false ->
  Decode mask (flat (Encode_items mask its)) = flat its.
Proof.
  intros Hc Ha. destruct (decide (mask = EncodeRaw)) as [->|Hm]; [done|].
  rewrite Decode_Encode_items by done. unfold ambiguous in Ha.
  unfold Encode_items. rewrite (proj2 (Z.eqb_neq mask EncodeRaw)) in * by done. cbn [negb andb] in Ha.
  apply orb_false_iff in Ha as [Hdot Hend%quote_collision_false].
  destruct (decide (its = [])) as [->|Hne]; [by destruct (Has mask EncodeDot)|].
  pose proof (dec_enc_rest mask its (canonical_Forall _ Hc) Hend) as Hrest.
  destruct (Has mask EncodeDot) eqn:HD; [|done].
  destruct (enc_dots its) as [out|] eqn:He; [by destruct (enc_dots_Some _ _ He) as (_ & -> & _)|].
  destruct (dec_dots (enc_rest mask its)) as [out|] eqn:Hs; [|done].
  by rewrite (special_encoded mask its out) in Hdot.
Qed.

Lemma enc_two mask a b : 
  enc_rest mask [Rune a; Rune b] =
  match enc_rule left_rules mask a, enc_rule right_rules mask b with
  | Some p, Some q => map Rune p ++ map Rune q
  | Some p, None => map Rune p ++ enc_item mask (Rune b)
  | None, Some q => enc_item mask (Rune a) ++ map Rune q
  | None, None => enc_item mask (Rune a) ++ enc_item mask (Rune b)
  end.
Proof.
  rewrite enc_rest_eq. cbn [enc_left]. destruct (enc_rule left_rules mask a); cbn [fst snd]; unfold enc_right;
    cbn [last]; destruct (enc_rule right_rules mask b); cbn [fst snd length take Nat.sub];
    rewrite ?bind_cons; cbn [mbind list_bind app]; by rewrite ?app_nil_r.
Qed.

Lemma dot_collision_encoded mask its : dot_collision mask its = true ->
  Has mask EncodeDot = true /\ (its = [Rune 46; Rune fullStop] \/ its = [Rune fullStop; Rune 46]) /\
  Encode_items mask its = (if mask =? EncodeRaw then its else [Rune fullStop; Rune fullStop]).
Proof.
  destruct (left_fullStop mask) as (_ & Hle & _ & _ & Hld). destruct (right_fullStop mask) as (_ & Hre & _ & _ & Hrd).
  destruct (enc_item_fullStop mask) as [Hi _].
  unfold dot_collision. intros [HD H]%andb_true_iff. split; [done|]. unfold Encode_items. rewrite HD.
  apply orb_true_iff in H as [[[E%bool_decide_eq_true_1 HL]%andb_true_iff HR%negb_true_iff]%andb_true_iff|
    [[E%bool_decide_eq_true_1 HR]%andb_true_iff HL%negb_true_iff]%andb_true_iff]; subst its;
    rewrite HL, HR in *; (split; [auto|]); destruct (mask =? EncodeRaw); try done;
    rewrite decide_False by done; cbv [enc_dots]; repeat (rewrite decide_False by done).
  - by rewrite enc_two, Hld, Hre, Hi.
  - by rewrite enc_two, Hle, Hrd, Hi.
Qed.

Lemma ambiguous_changes mask its : canonical its -> ambiguous mask its = true ->
  Decode mask (flat (Encode_items mask its)) <> flat its.
Proof.
  intros Hc [Hm%negb_true_iff Ha]%andb_true_iff. apply Z.eqb_neq in Hm as Hm'. rewrite Decode_Encode_items by done.
  apply orb_true_iff in Ha as [(HD & Hits & ->)%dot_collision_encoded|(x & r & -> & Hp)%quote_collision_true].
  { rewrite Hm, HD. intros E. by destruct Hits as [-> | ->]; vm_compute in E. }
  pose proof (canonical_Forall _ Hc) as Hv.
  destruct (quote_collision_encoded mask x r Hv Hp) as (y & t & Hne & Ht & He & Hd).
  assert (Encode_items mask (x ++ [Rune QuoteRune; Rune r]) = enc_rest mask (x ++ [Rune QuoteRune; Rune r])) as ->.
  { unfold Encode_items. rewrite Hm, decide_False by (by destruct x). rewrite enc_dots_end.
    by destruct (Has mask EncodeDot). }
  rewrite Hd, He, dec_dots_end. assert ((if Has mask EncodeDot then @None (list item) else None) = None) as ->
    by (by destruct (Has mask EncodeDot)).
  assert (ValidRune r = true) as Hr by (rewrite Forall_app in Hv; destruct Hv as [_ Hv]; by inversion Hv as [|?? _ Hv']; inversion Hv').
  apply (canonical_app_runes x [QuoteRune; r]) in Hc; [|by repeat constructor].
  intros E%flat_inj.
  - by apply app_inv_head in E as [= ->].
  - apply (canonical_app_runes x [QuoteRune; t]); [by repeat constructor|done].
  - apply (canonical_app_runes x [QuoteRune; r]); [by repeat constructor|done].
Qed.

(** *** Paths *)

Lemma flat_slash its : canonical its -> (Rune 47 ∉ its) -> 47 ∉ flat its.
Proof.
  induction its as [|[r|b] its IH]; [set_solver|..]; cbn [canonical]; rewrite flat_cons, elem_of_app, elem_of_cons.
  - intros [Hv Hc] Hn [Hin|Hin]; [|by apply IH; auto].
    apply encode_rune_low in Hin; [|done|lia]. subst r. auto.
  - intros (Hb & Hd & Hc) Hn [Hin|Hin]; [|by apply IH; auto].
    cbn [item_bytes] in Hin. apply list_elem_of_singleton in Hin. subst b. vm_compute in Hd. done.
Qed.

(** No replacement is a slash. *)
Lemma enc_rule_slash rls mask r out : rows rls -> enc_rule rls mask r = Some out -> 47 ∉ out.
Proof.
  intros Hr E. pose proof (enc_rule_spec rls mask r Hr) as H. rewrite E in H.
  destruct H as [(_ & t & -> & _ & Ht)|(Ht & ->)]; apply target_range in Ht; try done;
    rewrite ?elem_of_cons, elem_of_nil; unfold QuoteRune; lia.
Qed.

Lemma map_Rune_slash out : (47 ∉ out) -> Rune 47 ∉ map Rune out.
Proof. intros H (r & [= <-] & Hr)%list_elem_of_fmap. done. Qed.

Lemma enc_item_slash mask it : valid_item it -> Has mask EncodeSlash = true -> Rune 47 ∉ enc_item mask it.
Proof.
  intros Hv HS. destruct it as [r|b]; cbn [enc_item].
  - destruct (r =? 0); [by vm_compute; set_solver|].
    destruct ((r =? symbolOffset) || (r =? QuoteRune)) eqn:Eq.
    { apply orb_true_iff in Eq as [Eq%Z.eqb_eq|Eq%Z.eqb_eq]; subst r; unfold symbolOffset, QuoteRune; set_solver. }
    destruct (enc_rule rules mask r) as [out|] eqn:E.
    + apply map_Rune_slash. by apply (enc_rule_slash rules mask r).
    + intros [= <-]%list_elem_of_singleton. pose proof (enc_rule_spec rules mask 47 rows_rules) as H. rewrite E in H.
      apply (proj1 H). exists (mkRule EncodeSlash [47] fullOffset). split_and!; [by apply (list_elem_of_lookup_2 _ 12)|done|done].
  - destruct (Has mask EncodeInvalidUtf8); [|set_solver]. unfold quoted_byte.
    destruct (hex_roundtrip b Hv) as (_ & _ & H1 & H2). rewrite !elem_of_cons, elem_of_nil. unfold QuoteRune.
    intros [E|[E|[E|[]]]]; injection E; lia.
Qed.

Lemma Encode_slash mask its : canonical its -> mask <> EncodeRaw -> Has mask EncodeSlash = true ->
  Rune 47 ∉ Encode_items mask its.
Proof.
  intros Hc Hm HS. unfold Encode_items. rewrite (proj2 (Z.eqb_neq _ _) Hm).
  destruct (decide (its = [])); [set_solver|].
  assert (Rune 47 ∉ enc_rest mask its) as Hrest.
  { rewrite enc_rest_eq. apply canonical_Forall in Hc.
    assert (Forall valid_item (snd (enc_left mask its)) /\ Rune 47 ∉ fst (enc_left mask its)) as [Hv1 Hp].
    { destruct its as [|[r|b] its]; [done|..|set_solver]. cbn [enc_left].
      destruct (enc_rule left_rules mask r) as [out|] eqn:E; [|set_solver].
      split; [by inversion Hc|]. apply map_Rune_slash. by apply (enc_rule_slash left_rules mask r). }
    generalize dependent (snd (enc_left mask its)). intros its1 Hv1.
    assert (Rune 47 ∉ snd (enc_right mask its1)) as Hs.
    { unfold enc_right. destruct (last its1) as [[r|b]|]; [|set_solver..].
      destruct (enc_rule right_rules mask r) as [out|] eqn:E; [|set_solver].
      apply map_Rune_slash. by apply (enc_rule_slash right_rules mask r). }
    rewrite (enc_right_split mask its1) in Hv1. apply Forall_app in Hv1 as [Hv1 _].
    rewrite !not_elem_of_app. split_and!; [done| |done].
    intros (it & Hin & Hit)%list_elem_of_bind. rewrite Forall_forall in Hv1.
    by apply (enc_item_slash mask it (Hv1 it Hit) HS). }
  destruct (Has mask EncodeDot); [|done]. destruct (enc_dots its) as [out|] eqn:E; [|done].
  unfold enc_dots in E. repeat case_decide; simplify_eq; unfold fullStop, QuoteRune; set_solver.
Qed.

Lemma Standard_unambiguous its : ambiguous Standard its = false.
Proof.
  unfold ambiguous. change (negb (Standard =? EncodeRaw)) with true. cbn [andb]. apply orb_false_iff. split.
  - unfold dot_collision. change (Has Standard EncodeLeftPeriod) with false.
    change (Has Standard EncodeRightPeriod) with false. by rewrite !andb_false_r.
  - unfold quote_collision. destruct (reverse its) as [|[r|] [|[q|] y]]; try done. apply andb_false_r.
Qed.

Lemma Encode_bytes mask s : Forall is_byte s -> Forall is_byte (Encode mask s).
Proof. intros Hs. by apply canonical_bytes, Encode_canonical, canonical_items. Qed.

(** A name with the meaning [n], in the standard encoding. *)
Definition standard_name (n : bytes) : string := of_bytes (Encode Standard n).

Lemma FromStandardName_name mask n : Forall is_byte n ->
  of_bytes (FromStandardName mask (to_bytes (standard_name n))) = of_bytes (Encode mask n).
Proof.
  intros Hn. unfold FromStandardName, standard_name. rewrite to_bytes_of_bytes by (by apply Encode_bytes).
  destruct (mask =? Standard) eqn:E; [by apply Z.eqb_eq in E as ->|].
  unfold Encode at 2. rewrite unambiguous_roundtrip, flat_items; [done|done|by apply canonical_items|apply Standard_unambiguous].
Qed.

Lemma ToStandardName_name mask n : Forall is_byte n -> ambiguous mask (items n) = false ->
  of_bytes (ToStandardName mask (to_bytes (of_bytes (Encode mask n)))) = standard_name n.
Proof.
  intros Hn Ha. unfold ToStandardName, standard_name. rewrite to_bytes_of_bytes by (by apply Encode_bytes).
  destruct (mask =? Standard) eqn:E; [by apply Z.eqb_eq in E as ->|].
  unfold Encode at 2. by rewrite unambiguous_roundtrip, flat_items by (done || by apply canonical_items).
Qed.

(** A path of names with these meanings, in the standard encoding. *)
Definition standard_path (ns : list bytes) : string := join_with "/" (map standard_name ns).

Lemma Encode_has_slash mask n : Forall is_byte n -> mask <> EncodeRaw -> Has mask EncodeSlash = true ->
  has_char slash (of_bytes (Encode mask n)) = false.
Proof.
  intros Hn Hm HS. apply has_slash. rewrite to_bytes_of_bytes by (by apply Encode_bytes).
  apply flat_slash; [by apply Encode_canonical, canonical_items|]. apply Encode_slash; auto using canonical_items.
Qed.

Lemma convert_path_parts f parts : parts <> [] -> Forall (fun p => has_char slash p = false) parts ->
  convert_path f (join_with "/" parts) = join_with "/" (map (fun p => of_bytes (f (to_bytes p))) parts).
Proof.
  intros Hne Hp. unfold convert_path. rewrite (split_join slash) by done.
  case_bool_decide as E; [by rewrite E|done].
Qed.

Lemma FromStandardPath_names mask ns : ns <> [] -> Forall (Forall is_byte) ns ->
  FromStandardPath mask (standard_path ns) = join_with "/" (map (fun n => of_bytes (Encode mask n)) ns).
Proof.
  intros Hne Hns. unfold FromStandardPath.
  assert (map (fun p => of_bytes (FromStandardName mask (to_bytes p))) (map standard_name ns) =
    map (fun n => of_bytes (Encode mask n)) ns) as Hmap.
  { rewrite map_map. apply map_ext_in. intros n Hn%list_elem_of_In. rewrite Forall_forall in Hns.
    by apply FromStandardName_name, Hns. }
  destruct (mask =? Standard) eqn:E.
  { apply Z.eqb_eq in E as ->. done. }
  unfold standard_path. rewrite convert_path_parts, Hmap; [done|by destruct ns|].
  apply Forall_map. apply (Forall_impl _ _ _ Hns). intros n Hn. by apply Encode_has_slash.
Qed.

(** ** Properties *)

(** C19: Encoding a name and decoding it again gives the name back exactly
    unless the name is one of two kinds: it ends with the quote rune and a
    character that the mask replaces at the end, or it is "." and the full
    width stop in the order in which the mask replaces one of the two only.
    The name may hold any bytes, valid UTF-8 or not. *)
Theorem encoder_roundtrip mask s : Forall is_byte s ->
  Decode mask (Encode mask s) = s <-> ambiguous mask (items s) = false.
Proof.
  intros Hs. pose proof (canonical_items s Hs) as Hc.
  pose proof (unambiguous_roundtrip mask (items s) Hc) as H1.
  pose proof (ambiguous_changes mask (items s) Hc) as H2.
  rewrite flat_items in * by done. unfold Encode. destruct (ambiguous mask (items s)); naive_solver.
Qed.

(** The mask of a Windows file system. *)
Definition EncodeWin : MultiEncoder :=
  fold_right Z.lor EncodeZero
    [EncodeColon; EncodeQuestion; EncodeDoubleQuote; EncodeAsterisk; EncodeLtGt; EncodePipe].

Lemma encoder_roundtrip_witness :
  let mask := Z.lor EncodeWin (Z.lor EncodeRightSpace EncodeInvalidUtf8) in
  let s := to_bytes "a*b " ++ [255; 32] in
  Decode mask (Encode mask s) = s /\ Encode mask s <> s.
Proof.
  split; [|by vm_compute].
  apply encoder_roundtrip; [|vm_compute; reflexivity]. by repeat constructor.
Defined.

(** A path of standard names goes to a backend and comes back unchanged: if
    the mask of the backend encodes the slash and none of the names is
    ambiguous under it, [ToStandardPath] undoes [FromStandardPath], whatever
    slashes, special names and bytes the names mean. *)
Theorem standard_path_roundtrip mask ns : ns <> [] -> Forall (Forall is_byte) ns ->
  mask <> EncodeRaw -> Has mask EncodeSlash = true ->
  Forall (fun n => ambiguous mask (items n) = false) ns ->
  ToStandardPath mask (FromStandardPath mask (standard_path ns)) = standard_path ns.
Proof.
  intros Hne Hns Hm HS Ha. rewrite FromStandardPath_names by done. unfold ToStandardPath, standard_path.
  destruct (mask =? Standard) eqn:E; [by apply Z.eqb_eq in E as ->|].
  rewrite <- (map_map (Encode mask) of_bytes), map_map.
  rewrite convert_path_parts; [|by destruct ns|].
  - f_equal. rewrite map_map. apply map_ext_in. intros n Hn%list_elem_of_In. rewrite Forall_forall in Hns, Ha.
    apply ToStandardName_name; auto.
  - apply Forall_map. apply (Forall_impl _ _ _ Hns). intros n Hn. by apply Encode_has_slash.
Qed.

Lemma standard_path_roundtrip_witness :
  let mask := Z.lor EncodeWin (Z.lor EncodeSlash EncodeRightPeriod) in
  let ns := [to_bytes "a/b"; to_bytes ".."; to_bytes "what?."] in
  FromStandardPath mask (standard_path ns) <> standard_path ns /\
  ToStandardPath mask (FromStandardPath mask (standard_path ns)) = standard_path ns.
Proof.
  split; [by vm_compute|]. apply standard_path_roundtrip; try done.
  - by repeat constructor.
  - repeat constructor; vm_compute; reflexivity.
Defined.

(** The two kinds of names that do not come back, as the backends meet
    them.  With a mask that replaces a trailing space, the name made of the quote
    and a space is read back with the SYMBOL FOR SPACE instead of the space; with
    a mask that has [EncodeDot] and [EncodeRightPeriod] (but not
    [EncodeLeftPeriod]), the names ".." and full stop plus "." are stored under
    one and the same name, so the second overwrites the first. *)
Theorem encoder_collisions :
  Decode EncodeRightSpace (Encode EncodeRightSpace (flat [Rune QuoteRune; Rune 32])) =
    flat [Rune QuoteRune; Rune 9248] /\
  let mask := Z.lor EncodeDot EncodeRightPeriod in
  Encode mask (to_bytes "..") = Encode mask (flat [Rune fullStop; Rune 46]) /\
  Decode mask (Encode mask (flat [Rune fullStop; Rune 46])) = to_bytes "..".
Proof. by vm_compute. Qed.

End Encoder.
