(* ===== verification/Hash.v ===== *)
(** * Sets of hash types: fs/hash/hash.go

    A hash type is a power of two, a set of them the sum.  Here are the
    registry of hash types with their names and the operations on sets, with
    the counting of members by parallel sums that the code takes from a
    library of tricks. *)
From S2P Require Import Prelude GoPath Utf8 Streams.

Module Hash.
Import GoPath Utf8 Streams.

(** [Type] and [Set] of the source, on 64 bits. *)
Abbreviation Type_ := Z.
Abbreviation Set_ := Z.

Definition None_ : Type_ := 0.

(** ** The registry *)

Record hashDefinition : Type := mkDef {
  width : Z;
  name : string;
  alias : string;
  hashType : Type_ }.

Record registry : Type := mkRegistry {
  type2hash : gmap Z hashDefinition;
  name2hash : gmap string hashDefinition;
  alias2hash : gmap string hashDefinition;
  supported : list Type_ }.

Definition RegisterHash (nm al : string) (w : Z) (r : registry) : registry :=
  let t := Z.shiftl 1 (Z.of_nat (length (supported r))) in
  let d := mkDef w nm al t in
  mkRegistry (<[t := d]> (type2hash r)) (<[nm := d]> (name2hash r)) (<[al := d]> (alias2hash r))
    (supported r ++ [t]).

(** The functions that compute the hashes are left out. *)
Definition init : registry :=
  foldl (fun r d => let '(nm, al, w) := d in RegisterHash nm al w r) (mkRegistry ∅ ∅ ∅ [])
    [ ("md5", "MD5", 32); ("sha1", "SHA-1", 40); ("whirlpool", "Whirlpool", 128); ("crc32", "CRC-32", 8);
      ("sha256", "SHA-256", 64); ("sha512", "SHA-512", 128); ("blake3", "BLAKE3", 64); ("xxh3", "XXH3", 16);
      ("xxh128", "XXH128", 32) ].

(** [Type.String] panics on an unknown type. *)
Definition Type_String (r : registry) (h : Type_) : outcome string :=
  if h =? None_ then Ret "none"
  else match type2hash r !! h with
       | Some d => Ret (name d)
       | None => Panic
       end.

(** [Type.Set]: by name in any case, or by alias. *)
Definition Type_Set (r : registry) (s : string) : option Type_ :=
  if str_eqb s "none" || str_eqb s "None" then Some None_
  else match name2hash r !! to_lower s with
       | Some d => Some (hashType d)
       | None => match alias2hash r !! s with
                 | Some d => Some (hashType d)
                 | None => None
                 end
       end.

(** [Width]; [base64.URLEncoding.EncodedLen(n)] is 4 for each 3 bytes begun. *)
Definition Width (r : registry) (h : Type_) (base64Encoded : bool) : Z :=
  match type2hash r !! h with
  | Some d => if base64Encoded then (width d / 2 + 2) / 3 * 4 else width d
  | None => 0
  end.

(** ** Sets *)

Definition Add (h : Set_) (ts : list Type_) : Set_ := foldl Z.lor h ts.
Definition NewHashSet (ts : list Type_) : Set_ := Add None_ ts.
Definition Supported (r : registry) : Set_ := NewHashSet (supported r).
Definition Contains (h : Set_) (t : Type_) : bool := negb (Z.land h t =? 0).
Definition Overlap (h t : Set_) : Set_ := Z.land h t.
Definition SubsetOf (h c : Set_) : bool := Z.lor h c =? c.

(** The loop of [GetOne]: [v] has 64 bits. *)
Fixpoint GetOne_loop (fuel : nat) (v i : Z) : Type_ :=
  match fuel with
  | O => None_
  | S fuel' =>
      if v =? 0 then None_
      else if negb (Z.land v 1 =? 0) then Z.shiftl 1 i
      else GetOne_loop fuel' (Z.shiftr v 1) (i + 1)
  end.

Definition GetOne (h : Set_) : Type_ := GetOne_loop 64 h 0.

Fixpoint Array_loop (fuel : nat) (v i : Z) : list Type_ :=
  match fuel with
  | O => []
  | S fuel' =>
      if v =? 0 then []
      else (if negb (Z.land v 1 =? 0) then [Z.shiftl 1 i] else []) ++ Array_loop fuel' (Z.shiftr v 1) (i + 1)
  end.

Definition Array (h : Set_) : list Type_ := Array_loop 64 h 0.

Definition u64 (z : Z) : Z := z mod 2 ^ 64.

(** [Count], on [uint64]. *)
Definition Count (h : Set_) : Z :=
  if h =? 0 then 0
  else
    let x := u64 h in
    let x := u64 (x - Z.land (Z.shiftr x 1) 6148914691236517205) in          (* 0x5555555555555555 *)
    let x := u64 (Z.land (Z.shiftr x 2) 3689348814741910323 + Z.land x 3689348814741910323) in (* 0x3333... *)
    let x := u64 (x + Z.shiftr x 4) in
    let x := Z.land x 1085102592571150095 in                                  (* 0x0f0f... *)
    let x := u64 (x * 72340172838076673) in                                   (* 0x0101... *)
    Z.shiftr x 56.

(** [Set.String] panics if one of its types is unknown. *)
Fixpoint Strings (r : registry) (ts : list Type_) : outcome (list string) :=
  match ts with
  | [] => Ret []
  | t :: ts => let! s := Type_String r t in let! ss := Strings r ts in Ret (s :: ss)
  end.

Definition Set_String (r : registry) (h : Set_) : outcome string :=
  let! ss := Strings r (Array h) in Ret ("[" +:+ join_with ", " ss +:+ "]").

(** [Equals]: equal, or one of them is not known. *)
Definition Equals (src dst : string) : bool :=
  if str_eqb src "" || str_eqb dst "" then true else str_eqb src dst.

(** ** Many hashes at once *)

(** [hex.EncodeToString] and [base64.URLEncoding.EncodeToString]. *)
Definition hexDigit (v : Z) : Z := if v <? 10 then 48 + v else 87 + v.

Fixpoint hexEncode (b : bytes) : bytes :=
  match b with
  | [] => []
  | x :: b => hexDigit (x / 16) :: hexDigit (x mod 16) :: hexEncode b
  end.

Definition base64Digit (v : Z) : Z :=
  if v <? 26 then 65 + v else if v <? 52 then 71 + v else if v <? 62 then v - 4 else if v =? 62 then 45 else 95.

Fixpoint base64Encode (b : bytes) : bytes :=
  match b with
  | [] => []
  | [x] => [base64Digit (x / 4); base64Digit (x mod 4 * 16); 61; 61]
  | [x; y] => [base64Digit (x / 4); base64Digit (x mod 4 * 16 + y / 16); base64Digit (y mod 16 * 4); 61]
  | x :: y :: z :: b =>
      base64Digit (x / 4) :: base64Digit (x mod 4 * 16 + y / 16) :: base64Digit (y mod 16 * 4 + z / 64) ::
      base64Digit (z mod 64) :: base64Encode b
  end.

(** The hash functions themselves are given: [digest t b] is what the hash of type [t]
    sums up to after the bytes [b].  A [hash.Hash] holds what was written to it. *)
Section hashers.
Context (digest : Type_ -> bytes -> bytes).

(** [fromTypes]: [None] is its error. *)
Fixpoint new_hashers (r : registry) (ts : list Type_) (hashers : gmap Z bytes) : outcome (gmap Z bytes) :=
  match ts with
  | [] => Ret hashers
  | t :: ts => let! _ := deref (type2hash r !! t) in new_hashers r ts (<[t := []]> hashers)
  end.

Definition fromTypes (r : registry) (set : Set_) : outcome (option (gmap Z bytes)) :=
  if negb (SubsetOf set (Supported r)) then Ret None
  else let! hashers := new_hashers r (Array set) ∅ in Ret (Some hashers).

Record MultiHasher : Type := mkMulti { mh_size : Z; mh_h : gmap Z bytes }.

Definition NewMultiHasherTypes (r : registry) (set : Set_) : outcome (option MultiHasher) :=
  let! hashers := fromTypes r set in
  Ret (match hashers with None => None | Some h => Some (mkMulti 0 h) end).

(** [NewMultiHasher] *)
Definition NewMultiHasher (r : registry) : outcome MultiHasher :=
  let! m := NewMultiHasherTypes r (Supported r) in deref m.

(** [Write]: to every hasher through the [io.MultiWriter]. *)
Definition Write (m : MultiHasher) (p : bytes) : MultiHasher :=
  mkMulti (i64 (mh_size m + zlen p)) ((fun b => b ++ p) <$> mh_h m).

Definition Sums (m : MultiHasher) : gmap Z bytes := map_imap (fun t b => Some (hexEncode (digest t b))) (mh_h m).

(** [Sum]: [None] is [ErrUnsupported]. *)
Definition Sum (m : MultiHasher) (t : Type_) : option bytes := digest t <$> (mh_h m !! t).

Definition SumString (m : MultiHasher) (t : Type_) (base64Encoded : bool) : option bytes :=
  (fun sum => if base64Encoded then base64Encode sum else hexEncode sum) <$> Sum m t.

(** [StreamTypes]: the pieces that [io.Copy] reads, then nothing or an error. *)
Definition StreamTypes (r : registry) (pieces : list bytes) (failed : bool) (set : Set_)
  : outcome (option (gmap Z bytes)) :=
  let! hashers := fromTypes r set in
  match hashers with
  | None => Ret None
  | Some h =>
      if failed then Ret None
      else Ret (Some (map_imap (fun t b => Some (hexEncode (digest t b)))
                        (foldl (fun h p => (fun b => b ++ p) <$> h) h pieces)))
  end.
End hashers.

Example Hash_1 : GetOne 12 = 4 /\ Array 12 = [4; 8] /\ Count 255 = 8 /\ Set_String init 3 = Ret "[md5, sha1]".
Proof. vm_compute. done. Qed.

(** ** The members of a set *)

(** The positions of the bits of a set, from [i] on. *)
Definition members (n : nat) (v i : Z) : list Z :=
  map (fun k => 2 ^ (i + Z.of_nat k)) (filter (fun k => Z.testbit v (Z.of_nat k) = true) (seq 0 n)).

Lemma odd_land v : negb (Z.land v 1 =? 0) = Z.testbit v 0.
Proof.
  change 1 with (Z.ones 1). rewrite Z.land_ones by lia. change (2 ^ 1) with 2. rewrite Z.bit0_odd, Zmod_odd.
  by destruct (Z.odd v).
Qed.

Lemma members_shift v i l :
  map (fun k => 2 ^ (i + Z.of_nat k)) (filter (fun k => Z.testbit v (Z.of_nat k) = true) (S <$> l)) =
  map (fun k => 2 ^ (i + 1 + Z.of_nat k)) (filter (fun k => Z.testbit (Z.shiftr v 1) (Z.of_nat k) = true) l).
Proof.
  induction l as [|k l IH]; [done|]. rewrite fmap_cons, !filter_cons, Z.shiftr_spec by lia.
  replace (Z.of_nat (S k)) with (Z.of_nat k + 1) by lia.
  destruct (Z.testbit v (Z.of_nat k + 1)).
  - rewrite !decide_True by done. cbn [map]. rewrite IH. f_equal. f_equal. lia.
  - by rewrite !decide_False.
Qed.

Lemma members_S n v i : members (S n) v i =
  (if Z.testbit v 0 then [2 ^ i] else []) ++ members n (Z.shiftr v 1) (i + 1).
Proof.
  unfold members. cbn [seq]. rewrite filter_cons, <- members_shift, fmap_S_seq.
  change (Z.of_nat 0) with 0. destruct (Z.testbit v 0) eqn:E.
  - rewrite decide_True by done. cbn [map app]. by rewrite Z.add_0_r.
  - by rewrite decide_False by done.
Qed.

Lemma Array_loop_spec fuel v i : 0 <= v < 2 ^ Z.of_nat fuel -> 0 <= i -> Array_loop fuel v i = members fuel v i.
Proof.
  revert v i. induction fuel as [|fuel IH]; intros v i Hv Hi; [done|]. cbn [Array_loop]. rewrite odd_land.
  destruct (v =? 0) eqn:E; breflect.
  - subst v. unfold members. generalize (seq 0 (S fuel)). intros l. induction l as [|k l IHl]; [done|].
    rewrite filter_cons, Z.testbit_0_l. by rewrite decide_False.
  - rewrite members_S, IH; [|rewrite Z.shiftr_div_pow2 by lia; change (2 ^ 1) with 2|lia].
    + destruct (Z.testbit v 0); [|done]. by rewrite Z.shiftl_1_l.
    + rewrite Nat2Z.inj_succ, Z.pow_succ_r in Hv by lia. split; [apply Z.div_pos; lia|apply Z.div_lt_upper_bound; lia].
Qed.

Lemma GetOne_loop_spec fuel v i : 0 <= v < 2 ^ Z.of_nat fuel -> 0 <= i ->
  GetOne_loop fuel v i = default None_ (head (members fuel v i)).
Proof.
  revert v i. induction fuel as [|fuel IH]; intros v i Hv Hi; [done|]. cbn [GetOne_loop]. rewrite odd_land.
  destruct (v =? 0) eqn:E; breflect.
  - subst v. rewrite <- Array_loop_spec by (done || cbn; lia). done.
  - rewrite members_S. destruct (Z.testbit v 0); [by rewrite Z.shiftl_1_l|]. cbn [app]. apply IH; [|lia].
    rewrite Z.shiftr_div_pow2 by lia. change (2 ^ 1) with 2. rewrite Nat2Z.inj_succ, Z.pow_succ_r in Hv by lia.
    split; [apply Z.div_pos; lia|apply Z.div_lt_upper_bound; lia].
Qed.

(** ** Counting by parallel sums *)

(** The three steps of [Count] that add up bits, pairs of bits and nibbles, with the
    repeated constant of the source as [m]. *)
Definition sum1 (m x : Z) : Z := x - Z.land (Z.shiftr x 1) m.
Definition sum2 (m x : Z) : Z := Z.land (Z.shiftr x 2) m + Z.land x m.
Definition sum4 (m x : Z) : Z := Z.land (x + Z.shiftr x 4) m.

(** A byte at a time: [b] is the lowest byte, [y] the others. *)
Lemma land_byte b y c m : 0 <= b < 256 -> 0 <= c < 256 ->
  Z.land (b + 256 * y) (c + 256 * m) = Z.land b c + 256 * Z.land y m.
Proof.
  intros Hb Hc.
  assert (forall p q, 0 <= p < 256 -> p + 256 * q = Z.lor p (Z.shiftl q 8)) as Hor.
  { intros p q Hp. rewrite Z.shiftl_mul_pow2 by lia. rewrite <- Z.lxor_lor, <- Z.add_nocarry_lxor; [lia| |];
    apply Z.bits_inj'; intros n Hn; rewrite Z.land_spec, Z.bits_0, <- Z.shiftl_mul_pow2, Z.shiftl_spec by lia;
    (destruct (decide (n < 8)); [by rewrite (Z.testbit_neg_r q) by lia; rewrite andb_false_r|]);
    rewrite <- (Z.mod_small p (2 ^ 8)) by lia; by rewrite Z.mod_pow2_bits_high by lia. }
  assert (0 <= Z.land b c < 256) as Hbc.
  { split; [apply Z.land_nonneg; lia|]. change 256 with (2 ^ 8). destruct (decide (Z.land b c = 0)) as [->|E]; [done|].
    apply Z.log2_lt_pow2; [pose proof (proj2 (Z.land_nonneg b c) (or_introl (proj1 Hb))); lia|].
    eapply Z.le_lt_trans; [apply Z.log2_land; lia|]. eapply Z.le_lt_trans; [apply Z.le_min_l|].
    destruct (decide (b = 0)) as [->|]; [done|]. apply Z.log2_lt_pow2; lia. }
  rewrite !Hor by done. apply Z.bits_inj'. intros n Hn. rewrite !Z.land_spec, !Z.lor_spec, !Z.land_spec, !Z.shiftl_spec by lia.
  rewrite Z.land_spec. destruct (decide (n < 8)).
  - rewrite !(Z.testbit_neg_r _ (n - 8)) by lia. by rewrite !orb_false_r.
  - assert (forall p, 0 <= p < 256 -> Z.testbit p n = false) as Hhi.
    { intros p Hp. rewrite <- (Z.mod_small p (2 ^ 8)) by lia. by rewrite Z.mod_pow2_bits_high by lia. }
    by rewrite !Hhi.
Qed.

Definition bytes_ok (P : Z -> bool) : bool := forallb (fun n => P (Z.of_nat n)) (seq 0 256).

Lemma bytes_all P : bytes_ok P = true -> forall b, 0 <= b < 256 -> P b = true.
Proof.
  intros H b Hb. unfold bytes_ok in H. rewrite forallb_forall in H. rewrite <- (Z2Nat.id b) by lia. apply H, in_seq. lia.
Qed.

Lemma shiftr_byte k b y : 0 <= k <= 8 ->
  Z.shiftr (b + 256 * y) k = b / 2 ^ k + 2 ^ (8 - k) * (y mod 2 ^ k) + 256 * (Z.shiftr y k).
Proof.
  intros Hk. rewrite !Z.shiftr_div_pow2 by lia. assert (0 < 2 ^ k) by (apply Z.pow_pos_nonneg; lia).
  replace 256 with (2 ^ k * 2 ^ (8 - k)) by (rewrite <- Z.pow_add_r by lia; by replace (k + (8 - k)) with 8 by lia).
  replace (b + 2 ^ k * 2 ^ (8 - k) * y) with (b + 2 ^ (8 - k) * y * 2 ^ k) by lia.
  rewrite Z.div_add by lia. pose proof (Z.div_mod y (2 ^ k)). nia.
Qed.

Lemma sum1_byte b y m : 0 <= b < 256 -> sum1 (85 + 256 * m) (b + 256 * y) = sum1 85 b + 256 * sum1 m y.
Proof.
  intros Hb. unfold sum1. rewrite shiftr_byte, (Z.shiftr_div_pow2 b) by lia. change (2 ^ 1) with 2. change (2 ^ (8 - 1)) with 128.
  pose proof (Z.mod_pos_bound y 2). pose proof (Z.div_le_mono b 255 2). pose proof (Z.div_pos b 2).
  change (255 / 2) with 127 in *. rewrite land_byte by lia.
  assert (Z.land (b / 2 + 128 * (y mod 2)) 85 = Z.land (b / 2) 85) as ->; [|lia].
  assert (y mod 2 = 0 \/ y mod 2 = 1) as [-> | ->] by lia.
  - by rewrite Z.mul_0_r, Z.add_0_r.
  - apply Z.eqb_eq. by apply (bytes_all (fun b => Z.land (b / 2 + 128 * 1) 85 =? Z.land (b / 2) 85)); [vm_compute|].
Qed.

Lemma sum2_byte b y m : 0 <= b < 256 -> sum2 (51 + 256 * m) (b + 256 * y) = sum2 51 b + 256 * sum2 m y.
Proof.
  intros Hb. unfold sum2. rewrite shiftr_byte, (Z.shiftr_div_pow2 b) by lia. change (2 ^ 2) with 4. change (2 ^ (8 - 2)) with 64.
  pose proof (Z.mod_pos_bound y 4). pose proof (Z.div_le_mono b 255 4). pose proof (Z.div_pos b 4).
  change (255 / 4) with 63 in *. rewrite !land_byte by lia.
  assert (Z.land (b / 4 + 64 * (y mod 4)) 51 = Z.land (b / 4) 51) as ->; [|lia].
  assert (y mod 4 = 0 \/ y mod 4 = 1 \/ y mod 4 = 2 \/ y mod 4 = 3) as [-> |[-> |[-> | ->]]] by lia.
  all: apply Z.eqb_eq.
  - by rewrite Z.mul_0_r, Z.add_0_r, Z.eqb_refl.
  - by apply (bytes_all (fun b => Z.land (b / 4 + 64 * 1) 51 =? Z.land (b / 4) 51)); [vm_compute|].
  - by apply (bytes_all (fun b => Z.land (b / 4 + 64 * 2) 51 =? Z.land (b / 4) 51)); [vm_compute|].
  - by apply (bytes_all (fun b => Z.land (b / 4 + 64 * 3) 51 =? Z.land (b / 4) 51)); [vm_compute|].
Qed.

(** After the second step a nibble is at most four. *)
Definition small (b : Z) : Prop := 0 <= b < 256 /\ b / 16 <= 4 /\ b mod 16 <= 4.

Lemma sum4_byte b y m : small b -> 0 <= y mod 16 <= 4 ->
  sum4 (15 + 256 * m) (b + 256 * y) = sum4 15 b + 256 * sum4 m y.
Proof.
  intros (Hb & Hh & Hl) Hy. unfold sum4. rewrite shiftr_byte, (Z.shiftr_div_pow2 b) by lia.
  change (2 ^ 4) with 16. change (2 ^ (8 - 4)) with 16. pose proof (Z.div_pos b 16). pose proof (Z.div_mod b 16).
  replace (b + 256 * y + (b / 16 + 16 * (y mod 16) + 256 * Z.shiftr y 4)) with
    (b + b / 16 + 16 * (y mod 16) + 256 * (y + Z.shiftr y 4)) by lia.
  rewrite land_byte by lia. f_equal. change 15 with (Z.ones 4). rewrite !Z.land_ones by lia. change (2 ^ 4) with 16.
  rewrite (Z.mul_comm 16 (y mod 16)). by rewrite Z.mod_add by lia.
Qed.

(** The number of bits of a byte, as the three steps count it. *)
Definition count_byte (b : Z) : Z := sum4 15 (sum2 51 (sum1 85 b)).

Definition byte_fine (b : Z) : bool :=
  let b1 := sum1 85 b in let b2 := sum2 51 b1 in
  (0 <=? b1) && (b1 <? 256) && (0 <=? b2) && (b2 <? 256) && (b2 / 16 <=? 4) && (b2 mod 16 <=? 4) &&
  (count_byte b =? Z.of_nat (length (members 8 b 0))) && (count_byte b <=? 8).

Lemma byte_fine_all b : 0 <= b < 256 ->
  0 <= sum1 85 b < 256 /\ small (sum2 51 (sum1 85 b)) /\ count_byte b = Z.of_nat (length (members 8 b 0)) /\
  0 <= count_byte b <= 8.
Proof.
  intros Hb. assert (byte_fine b = true) as H by (apply (bytes_all byte_fine); [by vm_compute|done]).
  unfold byte_fine in H. breflect. unfold small. lia.
Qed.

(** Eight digits to base 256, the lowest first. *)
Definition word (b0 b1 b2 b3 b4 b5 b6 b7 : Z) : Z :=
  b0 + 256 * (b1 + 256 * (b2 + 256 * (b3 + 256 * (b4 + 256 * (b5 + 256 * (b6 + 256 * b7)))))).

Definition word_of (f : Z -> Z) (c : Z -> Z) : Z :=
  word (f (c 0)) (f (c 1)) (f (c 2)) (f (c 3)) (f (c 4)) (f (c 5)) (f (c 6)) (f (c 7)).

Lemma word_bytes x : 0 <= x < 2 ^ 64 -> exists c : Z -> Z, (forall i, 0 <= c i < 256) /\ x = word_of (fun b => b) c.
Proof.
  intros Hx. exists (fun i => x / 256 ^ i mod 256). split; [intros i; apply Z.mod_pos_bound; lia|].
  unfold word_of, word. cbn beta.
  assert (forall i, 0 <= i -> x / 256 ^ i = x / 256 ^ i mod 256 + 256 * (x / 256 ^ (i + 1))) as H.
  { intros i Hi. rewrite Z.pow_add_r, <- Z.div_div by lia. change (256 ^ 1) with 256.
    pose proof (Z.div_mod (x / 256 ^ i) 256). lia. }
  pose proof (H 0). pose proof (H 1). pose proof (H 2). pose proof (H 3). pose proof (H 4). pose proof (H 5).
  pose proof (H 6). pose proof (H 7). cbn [Z.add] in *. change (256 ^ 0) with 1 in *. rewrite Z.div_1_r in *.
  assert (x / 256 ^ 8 = 0) by (apply Z.div_small; lia).
  change (0 + 1) with 1 in *. change (1 + 1) with 2 in *. change (2 + 1) with 3 in *. change (3 + 1) with 4 in *.
  change (4 + 1) with 5 in *. change (5 + 1) with 6 in *. change (6 + 1) with 7 in *. change (7 + 1) with 8 in *. lia.
Qed.

Section word.
Context (c : Z -> Z) (Hc : forall i, 0 <= c i < 256).

Lemma sum1_word : sum1 6148914691236517205 (word_of (fun b => b) c) = word_of (sum1 85) c.
Proof.
  replace 6148914691236517205 with (word 85 85 85 85 85 85 85 85) by reflexivity. unfold word_of, word.
  rewrite !sum1_byte by apply Hc. done.
Qed.

Lemma sum2_word : sum2 3689348814741910323 (word_of (sum1 85) c) = word_of (fun b => sum2 51 (sum1 85 b)) c.
Proof.
  replace 3689348814741910323 with (word 51 51 51 51 51 51 51 51) by reflexivity. unfold word_of, word.
  rewrite !sum2_byte by apply byte_fine_all, Hc. done.
Qed.

Lemma small_low b y : small b -> 0 <= (b + 256 * y) mod 16 <= 4.
Proof.
  intros (Hb & _ & Hl). replace (b + 256 * y) with (b + (16 * y) * 16) by lia. rewrite Z.mod_add by lia.
  pose proof (Z.mod_pos_bound b 16). lia.
Qed.

Lemma sum4_word : sum4 1085102592571150095 (word_of (fun b => sum2 51 (sum1 85 b)) c) = word_of count_byte c.
Proof.
  assert (forall i, small (sum2 51 (sum1 85 (c i)))) as H by (intros i; apply byte_fine_all, Hc).
  replace 1085102592571150095 with (word 15 15 15 15 15 15 15 15) by reflexivity. unfold word_of, word, count_byte.
  rewrite !sum4_byte; try apply H; try (apply small_low, H); [done|].
  destruct (H 7) as (Hb & _ & Hl). pose proof (Z.mod_pos_bound (sum2 51 (sum1 85 (c 7))) 16). lia.
Qed.

Lemma word_small f : (forall i, 0 <= f (c i) < 256) -> 0 <= word_of f c < 2 ^ 64.
Proof.
  intros H. unfold word_of, word. pose proof (H 0). pose proof (H 1). pose proof (H 2). pose proof (H 3).
  pose proof (H 4). pose proof (H 5). pose proof (H 6). pose proof (H 7). lia.
Qed.

(** The product collects the sum of all digits in the highest one. *)
Lemma word_total f : (forall i, 0 <= f (c i) <= 8) ->
  Z.shiftr (u64 (word_of f c * 72340172838076673)) 56 =
  f (c 0) + f (c 1) + f (c 2) + f (c 3) + f (c 4) + f (c 5) + f (c 6) + f (c 7).
Proof.
  intros H. rewrite Z.shiftr_div_pow2 by lia. unfold u64, word_of, word.
  pose proof (H 0) as H0. pose proof (H 1) as H1. pose proof (H 2) as H2. pose proof (H 3) as H3.
  pose proof (H 4) as H4. pose proof (H 5) as H5. pose proof (H 6) as H6. pose proof (H 7) as H7. clear H.
  revert H0 H1 H2 H3 H4 H5 H6 H7. generalize (f (c 0)) (f (c 1)) (f (c 2)) (f (c 3)) (f (c 4)) (f (c 5)) (f (c 6)) (f (c 7)).
  clear. intros p0 p1 p2 p3 p4 p5 p6 p7 H0 H1 H2 H3 H4 H5 H6 H7.
  set (low := word p0 (p0 + p1) (p0 + p1 + p2) (p0 + p1 + p2 + p3) (p0 + p1 + p2 + p3 + p4) (p0 + p1 + p2 + p3 + p4 + p5)
    (p0 + p1 + p2 + p3 + p4 + p5 + p6) 0).
  set (high := (p1 + p2 + p3 + p4 + p5 + p6 + p7) + 256 * ((p2 + p3 + p4 + p5 + p6 + p7) + 256 * ((p3 + p4 + p5 + p6 + p7) +
    256 * ((p4 + p5 + p6 + p7) + 256 * ((p5 + p6 + p7) + 256 * ((p6 + p7) + 256 * p7)))))).
  assert (0 <= low < 2 ^ 56) as Hlow by (unfold low, word; lia).
  match goal with |- _ / _ = ?t => set (total := t) end.
  match goal with |- (?x mod _) / _ = _ => replace x with (low + 2 ^ 56 * total + high * 2 ^ 64) by (unfold low, high, word, total; lia) end.
  rewrite Z.mod_add by lia. rewrite Z.mod_small by (unfold total; lia).
  symmetry. apply (Z.div_unique _ _ _ low); lia.
Qed.
End word.

Lemma members_app n k v i : members (n + k) v i = members n v i ++ members k (Z.shiftr v (Z.of_nat n)) (i + Z.of_nat n).
Proof.
  revert v i. induction n as [|n IH]; intros v i.
  - cbn [plus]. change (Z.of_nat 0) with 0. by rewrite Z.shiftr_0_r, Z.add_0_r.
  - cbn [plus]. rewrite !members_S, IH, <- app_assoc, Z.shiftr_shiftr by lia.
    replace (1 + Z.of_nat n) with (Z.of_nat (S n)) by lia. by replace (i + 1 + Z.of_nat n) with (i + Z.of_nat (S n)) by lia.
Qed.

Lemma members_length n v w i j : (forall k, 0 <= k < Z.of_nat n -> Z.testbit v k = Z.testbit w k) ->
  length (members n v i) = length (members n w j).
Proof.
  revert v w i j. induction n as [|n IH]; intros v w i j H; [done|]. rewrite !members_S, !length_app, (H 0) by lia. f_equal.
  - by destruct (Z.testbit w 0).
  - apply IH. intros k Hk. rewrite !Z.shiftr_spec by lia. apply H. lia.
Qed.

Lemma members_byte n b y i : 0 <= b < 256 ->
  Z.of_nat (length (members (8 + n) (b + 256 * y) i)) = count_byte b + Z.of_nat (length (members n y 0)).
Proof.
  intros Hb. destruct (byte_fine_all b Hb) as (_ & _ & -> & _). rewrite members_app, length_app, Nat2Z.inj_add.
  replace (Z.shiftr (b + 256 * y) (Z.of_nat 8)) with y.
  2:{ rewrite Z.shiftr_div_pow2 by lia. change (2 ^ Z.of_nat 8) with 256. apply (Z.div_unique _ _ _ b); lia. }
  f_equal; [|f_equal; by apply members_length].
  f_equal. apply members_length. intros k Hk.
  rewrite <- (Z.mod_pow2_bits_low (b + 256 * y) 8) by lia. change (2 ^ 8) with 256.
  replace (b + 256 * y) with (b + y * 256) by lia. by rewrite Z.mod_add, Z.mod_small by lia.
Qed.

Lemma members_word c : (forall i, 0 <= c i < 256) ->
  Z.of_nat (length (members 64 (word_of (fun b => b) c) 0)) =
  count_byte (c 0) + count_byte (c 1) + count_byte (c 2) + count_byte (c 3) + count_byte (c 4) + count_byte (c 5) +
  count_byte (c 6) + count_byte (c 7).
Proof.
  intros Hc. unfold word_of, word.
  change 64%nat with (8 + (8 + (8 + (8 + (8 + (8 + (8 + (8 + 0))))))))%nat.
  replace (c 7) with (c 7 + 256 * 0) at 1 by lia. rewrite !members_byte by apply Hc. cbn [members seq filter map length]. 
  change (Z.of_nat (length (members 0 0 0))) with 0. lia.
Qed.

Lemma Count_members h : 0 <= h < 2 ^ 64 -> Count h = Z.of_nat (length (members 64 h 0)).
Proof.
  intros Hh. destruct (word_bytes h Hh) as (c & Hc & ->). rewrite (members_word c Hc). unfold Count.
  destruct (word_of (fun b => b) c =? 0) eqn:E; breflect.
  { rewrite <- (members_word c Hc), E. by vm_compute. }
  assert (u64 (word_of (fun b => b) c) = word_of (fun b => b) c) as -> by (by apply Z.mod_small).
  fold (sum1 6148914691236517205 (word_of (fun b => b) c)). rewrite (sum1_word c Hc).
  assert (u64 (word_of (sum1 85) c) = word_of (sum1 85) c) as ->.
  { apply Z.mod_small, word_small. intros i. by apply byte_fine_all. }
  fold (sum2 3689348814741910323 (word_of (sum1 85) c)). rewrite (sum2_word c Hc).
  assert (u64 (word_of (fun b => sum2 51 (sum1 85 b)) c) = word_of (fun b => sum2 51 (sum1 85 b)) c) as ->.
  { apply Z.mod_small, word_small. intros i. destruct (byte_fine_all (c i)) as (_ & Hs & _); [done|]. apply Hs. }
  rewrite <- (word_total c count_byte) by (intros i; by apply byte_fine_all).
  rewrite <- (sum4_word c Hc). unfold sum4. do 4 f_equal. apply Z.mod_small.
  assert (0 <= word_of (fun b => sum2 51 (sum1 85 b)) c < 2 ^ 63) as Hb.
  { assert (forall i, 0 <= sum2 51 (sum1 85 (c i)) < 128) as H.
    { intros i. destruct (byte_fine_all (c i)) as (_ & (H1 & H2 & H3) & _); [done|].
      pose proof (Z.div_mod (sum2 51 (sum1 85 (c i))) 16). lia. }
    unfold word_of, word. pose proof (H 0). pose proof (H 1). pose proof (H 2). pose proof (H 3). pose proof (H 4).
    pose proof (H 5). pose proof (H 6). pose proof (H 7). lia. }
  rewrite Z.shiftr_div_pow2 by lia. change (2 ^ 4) with 16.
  pose proof (Z.div_pos (word_of (fun b => sum2 51 (sum1 85 b)) c) 16).
  pose proof (Z.div_le_upper_bound (word_of (fun b => sum2 51 (sum1 85 b)) c) 16 (2 ^ 63)). lia.
Qed.

(** ** What a set contains *)

(** The Go [int] that a set is, when no type is the sign bit. *)
Definition is_set (h : Set_) : Prop := 0 <= h < 2 ^ 63.

Lemma pow2_sb t k : 0 <= t -> Z.testbit (2 ^ t) k = (t =? k).
Proof.
  intros Ht. destruct (t =? k) eqn:E; breflect; [subst; by apply Z.pow2_bits_true|].
  destruct (decide (k < 0)); [by apply Z.testbit_neg_r|]. by apply Z.pow2_bits_false.
Qed.

Lemma Contains_bit h k : 0 <= k -> Contains h (2 ^ k) = Z.testbit h k.
Proof.
  intros Hk. unfold Contains. destruct (Z.testbit h k) eqn:E.
  - apply negb_true_iff, Z.eqb_neq. intros H. assert (Z.testbit (Z.land h (2 ^ k)) k = false) as H' by (by rewrite H, Z.testbit_0_l).
    rewrite Z.land_spec, E, pow2_sb, Z.eqb_refl in H' by lia. done.
  - apply negb_false_iff, Z.eqb_eq, Z.bits_inj'. intros n Hn. rewrite Z.land_spec, pow2_sb, Z.testbit_0_l by lia.
    destruct (k =? n) eqn:E'; breflect; [subst; by rewrite E|]. by rewrite andb_false_r.
Qed.

Lemma Array_members h : is_set h -> Array h = members 64 h 0.
Proof. intros Hh. unfold Array. apply Array_loop_spec; [unfold is_set in Hh; change (Z.of_nat 64) with 64; lia|lia]. Qed.

Lemma elem_of_members n v i t : t ∈ members n v i <-> exists k, (k < n)%nat /\ t = 2 ^ (i + Z.of_nat k) /\ Z.testbit v (Z.of_nat k) = true.
Proof.
  unfold members. rewrite list_elem_of_fmap. split.
  - intros (k & -> & Hk). apply list_elem_of_filter in Hk as [Hk1 Hk2]. apply elem_of_seq in Hk2. exists k. split_and!; [lia|done|done].
  - intros (k & Hk & -> & Hb). exists k. split; [done|]. apply list_elem_of_filter. split; [done|]. apply elem_of_seq. lia.
Qed.

Lemma set_bits h k : is_set h -> 63 <= k -> Z.testbit h k = false.
Proof. intros Hh Hk. rewrite <- (Z.mod_small h (2 ^ 63)) by apply Hh. by apply Z.mod_pow2_bits_high. Qed.

Lemma elem_of_Array h t : is_set h -> t ∈ Array h <-> exists k, 0 <= k < 63 /\ t = 2 ^ k /\ Contains h t = true.
Proof.
  intros Hh. rewrite Array_members, elem_of_members by done. split.
  - intros (k & Hk & -> & Hb). exists (Z.of_nat k). rewrite Z.add_0_l, Contains_bit by lia. split_and!; [lia| |done|done].
    destruct (decide (Z.of_nat k < 63)); [done|]. rewrite set_bits in Hb by (done || lia). done.
  - intros (k & Hk & -> & Hb). rewrite Contains_bit in Hb by lia. exists (Z.to_nat k). rewrite Z2Nat.id by lia.
    split_and!; [lia|done|done].
Qed.

Lemma Add_bit h ts k : 0 <= k -> Z.testbit (Add h ts) k = Z.testbit h k || existsb (fun t => Z.testbit t k) ts.
Proof.
  intros Hk. revert h. induction ts as [|t ts IH]; intros h; cbn [Add foldl existsb]; [by rewrite orb_false_r|].
  fold (Add (Z.lor h t) ts). by rewrite IH, Z.lor_spec, orb_assoc.
Qed.

Lemma NewHashSet_Array_eq h : is_set h -> NewHashSet (Array h) = h.
Proof.
  intros Hh. apply Z.bits_inj'. intros k Hk. unfold NewHashSet. rewrite Add_bit by done.
  change (Z.testbit None_ k) with (Z.testbit 0 k). rewrite Z.testbit_0_l. cbn [orb].
  destruct (Z.testbit h k) eqn:E.
  - apply existsb_exists. exists (2 ^ k). split; [|by rewrite pow2_sb, Z.eqb_refl by lia].
    apply list_elem_of_In, elem_of_Array; [done|]. exists k. rewrite Contains_bit by done. split_and!; [lia| |done|done].
    destruct (decide (k < 63)); [done|]. rewrite set_bits in E by (done || lia). done.
  - apply not_true_is_false. intros H. apply existsb_exists in H as (t & Ht & Hb). apply list_elem_of_In, elem_of_Array in Ht; [|done].
    destruct Ht as (j & Hj & -> & Hc). rewrite Contains_bit in Hc by lia. rewrite pow2_sb in Hb by lia. breflect. subst j. congruence.
Qed.

Lemma members_sorted n v i : 0 <= i -> StronglySorted Z.lt (members n v i).
Proof.
  revert v i. induction n as [|n IH]; intros v i Hi; [constructor|]. rewrite members_S.
  destruct (Z.testbit v 0); [|apply IH; lia]. cbn [app]. constructor; [apply IH; lia|].
  apply Forall_forall. intros t Ht. apply elem_of_members in Ht as (k & Hk & -> & _). apply Z.pow_lt_mono_r; lia.
Qed.

(** A set of hash types is what its array says: [Array] lists exactly the types the set contains, each once
    and from the lowest bit up, adding them to an empty set gives the set back, and the sum in parallel that
    [Count] does is the number of them. *)
Theorem Array_correct (h : Set_) : is_set h ->
  (forall t, t ∈ Array h <-> exists k, 0 <= k < 63 /\ t = 2 ^ k /\ Contains h t = true) /\
  StronglySorted Z.lt (Array h) /\ NewHashSet (Array h) = h /\ Count h = Z.of_nat (length (Array h)).
Proof.
  intros Hh. split_and!.
  - intros t. by apply elem_of_Array.
  - rewrite Array_members by done. by apply members_sorted.
  - by apply NewHashSet_Array_eq.
  - rewrite Array_members by done. apply Count_members. unfold is_set in Hh. lia.
Qed.

Lemma Array_correct_witness : is_set 361 /\ Array 361 = [1; 8; 32; 64; 256] /\ Count 361 = 5 /\ NewHashSet (Array 361) = 361.
Proof.
  assert (is_set 361) as H by (split; [lia|by vm_compute]). destruct (Array_correct 361 H) as (_ & _ & HN & HC).
  split; [exact H|]. split; [done|]. split; [by rewrite HC|exact HN].
Defined.

Lemma Overlap_bit a b k : Z.testbit (Overlap a b) k = Z.testbit a k && Z.testbit b k.
Proof. apply Z.land_spec. Qed.

Lemma Overlap_set a b : is_set a -> is_set b -> is_set (Overlap a b).
Proof.
  intros Ha Hb. unfold is_set in *. split; [apply Z.land_nonneg; lia|].
  destruct (decide (Overlap a b = 0)) as [-> | E]; [done|]. assert (0 <= Overlap a b) by (apply Z.land_nonneg; lia).
  apply Z.log2_lt_pow2; [lia|]. eapply Z.le_lt_trans; [apply Z.log2_land; lia|].
  eapply Z.le_lt_trans; [apply Z.le_min_l|]. destruct (decide (a = 0)) as [-> | ]; [done|]. apply Z.log2_lt_pow2; lia.
Qed.

Lemma GetOne_head h : is_set h -> GetOne h = default None_ (head (Array h)).
Proof.
  intros Hh. rewrite Array_members by done. apply GetOne_loop_spec; [|lia]. unfold is_set in Hh. change (Z.of_nat 64) with 64. lia.
Qed.

Lemma Contains_Overlap a b k : 0 <= k -> Contains (Overlap a b) (2 ^ k) = Contains a (2 ^ k) && Contains b (2 ^ k).
Proof. intros Hk. by rewrite !Contains_bit, Overlap_bit by done. Qed.

(** The hash two remotes are compared by: [GetOne] of the overlap of their sets is the first type that both
    support, and [None] only if they have no type in common. *)
Theorem common_hash (a b : Set_) : is_set a -> is_set b ->
  let t := GetOne (Overlap a b) in
  (t = None_ /\ forall k, 0 <= k < 63 -> Contains a (2 ^ k) && Contains b (2 ^ k) = false) \/
  (t ∈ Array a /\ t ∈ Array b /\ forall t', t' ∈ Array a -> t' ∈ Array b -> t <= t').
Proof.
  intros Ha Hb t. pose proof (Overlap_set a b Ha Hb) as Ho. subst t. rewrite GetOne_head by done.
  pose proof (fun t => elem_of_Array (Overlap a b) t Ho) as Hel.
  pose proof (members_sorted 64 (Overlap a b) 0 ltac:(lia)) as Hs. rewrite <- Array_members in Hs by done.
  destruct (Array (Overlap a b)) as [|t ts]; cbn [head default].
  - left. split; [done|]. intros k Hk. rewrite <- Contains_Overlap by lia.
    apply not_true_is_false. intros H. assert (2 ^ k ∈ []) as Hk'; [apply Hel; eauto|by apply list_elem_of_In in Hk'].
  - right. destruct (proj1 (Hel t)) as (k & Hk & -> & HC); [left|]. rewrite Contains_Overlap in HC by lia. breflect.
    split_and!; [apply elem_of_Array; [done|eauto]..|]. intros t' Ha' Hb'.
    apply elem_of_Array in Ha' as (j & Hj & -> & HCa); [|done]. apply elem_of_Array in Hb' as (j' & Hj' & Hjj & HCb); [|done].
    assert (2 ^ j ∈ 2 ^ k :: ts) as Hin.
    { apply Hel. exists j. split_and!; [lia|lia|done|]. rewrite Contains_Overlap by lia. by rewrite HCa, HCb. }
    apply elem_of_cons in Hin as [-> | Hin]; [done|]. apply StronglySorted_inv in Hs as [_ Hs].
    rewrite Forall_forall in Hs. specialize (Hs _ Hin). unfold id. lia.
Qed.

Lemma common_hash_witness : is_set 35 /\ is_set 50 /\ GetOne (Overlap 35 50) = 2 /\ 2 ∈ Array 35 /\ 2 ∈ Array 50.
Proof.
  assert (is_set 35 /\ is_set 50) as [Ha Hb] by (unfold is_set; lia).
  destruct (common_hash 35 50 Ha Hb) as [[H _]|(H1 & H2 & _)]; [by vm_compute in H|].
  split; [exact Ha|]. split; [exact Hb|]. split; [by vm_compute|]. split; [exact H1|exact H2].
Defined.

(** ** The registry and the hashers *)

Definition register (r : registry) (d : string * string * Z) : registry :=
  let '(nm, al, w) := d in RegisterHash nm al w r.

(** What holds of the registry after any number of registrations. *)
Definition registered (n : nat) (r : registry) : Prop :=
  supported r = map (fun k => 2 ^ Z.of_nat k) (seq 0 n) /\
  forall t, is_Some (type2hash r !! t) <-> exists k, (k < n)%nat /\ t = 2 ^ Z.of_nat k.

Lemma registered_all ds : registered (length ds) (foldl register (mkRegistry ∅ ∅ ∅ []) ds).
Proof.
  induction ds as [|[[nm al] w] ds IH] using rev_ind.
  - split; [done|]. intros t. cbn. rewrite lookup_empty. split; [intros [? ?]; done|intros (k & Hk & _); lia].
  - destruct IH as [Hs Ht]. rewrite foldl_app. cbn [foldl register]. unfold RegisterHash.
    assert (length (supported (foldl register (mkRegistry ∅ ∅ ∅ []) ds)) = length ds) as Hl by (by rewrite Hs, length_map, length_seq).
    rewrite Hl, Z.shiftl_1_l, length_app, Nat.add_1_r. split; cbn [supported type2hash].
    + rewrite Hs, seq_S, map_app. done.
    + intros t. destruct (decide (t = 2 ^ Z.of_nat (length ds))) as [-> | Hne].
      * rewrite lookup_insert_eq. split; [intros _; exists (length ds); split; [lia|done]|by eauto].
      * rewrite lookup_insert_ne by done. rewrite Ht. split; intros (k & Hk & ->).
        -- exists k. split; [lia|done].
        -- exists k. split; [|done]. destruct (decide (k = length ds)) as [-> | ]; [done|lia].
Qed.

Lemma Supported_bit n r k : registered n r -> 0 <= k -> Z.testbit (Supported r) k = (k <? Z.of_nat n).
Proof.
  intros [Hs _] Hk. unfold Supported, NewHashSet. rewrite Add_bit, Hs by done.
  change (Z.testbit None_ k) with (Z.testbit 0 k). rewrite Z.testbit_0_l. cbn [orb]. apply eq_true_iff_eq.
  rewrite existsb_exists, Z.ltb_lt. split.
  - intros (t & Ht & Hb). apply in_map_iff in Ht as (j & <- & Hj). apply in_seq in Hj. rewrite pow2_sb in Hb by lia. breflect. lia.
  - intros Hn. exists (2 ^ k). rewrite pow2_sb, Z.eqb_refl by lia. split; [|done]. apply in_map_iff. exists (Z.to_nat k).
    rewrite Z2Nat.id by lia. split; [done|]. apply in_seq. lia.
Qed.

Lemma SubsetOf_bits h c : SubsetOf h c = true <-> forall k, 0 <= k -> Z.testbit h k = true -> Z.testbit c k = true.
Proof.
  unfold SubsetOf. rewrite Z.eqb_eq. split.
  - intros H k Hk Hb. rewrite <- H, Z.lor_spec, Hb. done.
  - intros H. apply Z.bits_inj'. intros k Hk. rewrite Z.lor_spec. destruct (Z.testbit h k) eqn:E; [by rewrite (H k)|done].
Qed.

Lemma new_hashers_spec r ts h0 : (forall t, t ∈ ts -> is_Some (type2hash r !! t)) ->
  exists h, new_hashers r ts h0 = Ret h /\ forall t, h !! t = if decide (t ∈ ts) then Some [] else h0 !! t.
Proof.
  revert h0. induction ts as [|t ts IH]; intros h0 H; cbn [new_hashers].
  - exists h0. split; [done|]. intros t. by rewrite decide_False by apply not_elem_of_nil.
  - destruct (H t) as [d Hd]; [left|]. rewrite Hd. cbn [deref obind].
    destruct (IH (<[t:=[]]> h0)) as (h & Hh & Hl); [intros t' Ht'; apply H; by right|].
    exists h. split; [done|]. intros t'. rewrite Hl. destruct (decide (t' ∈ ts)) as [Hin|Hin].
    + by rewrite decide_True by (by right).
    + destruct (decide (t' = t)) as [-> | Hne]; [rewrite decide_True by left; by rewrite lookup_insert_eq|].
      rewrite lookup_insert_ne by done. rewrite decide_False; [done|]. intros [?|?]%elem_of_cons; done.
Qed.

Lemma fromTypes_spec n r set : registered n r -> is_set set ->
  (SubsetOf set (Supported r) = false /\ fromTypes r set = Ret None) \/
  (SubsetOf set (Supported r) = true /\ exists h, fromTypes r set = Ret (Some h) /\
     forall t, h !! t = if decide (t ∈ Array set) then Some [] else None).
Proof.
  intros Hr Hset. unfold fromTypes. destruct (SubsetOf set (Supported r)) eqn:E; cbn [negb]; [right|left; done].
  split; [done|]. destruct (new_hashers_spec r (Array set) ∅) as (h & Hh & Hl).
  { intros t Ht. apply elem_of_Array in Ht as (k & Hk & -> & HC); [|done]. rewrite Contains_bit in HC by lia.
    assert (Z.testbit (Supported r) k = true) as HS by (eapply SubsetOf_bits; [exact E|lia|done]).
    rewrite (Supported_bit n) in HS by (done || lia). breflect. apply Hr. exists (Z.to_nat k). rewrite Z2Nat.id by lia. split; [lia|done]. }
  rewrite Hh. cbn [obind]. exists h. split; [done|]. intros t. rewrite Hl. by rewrite lookup_empty.
Qed.

Lemma i64_add_l a b : i64 (i64 a + b) = i64 (a + b).
Proof.
  unfold i64. f_equal. replace ((a + 2 ^ 63) mod 2 ^ 64 - 2 ^ 63 + b + 2 ^ 63) with ((a + 2 ^ 63) mod 2 ^ 64 + b) by lia.
  rewrite Zplus_mod_idemp_l. f_equal. lia.
Qed.

Section multi.
Context (digest : Type_ -> bytes -> bytes).

Lemma Write_all ps m t : mh_h (foldl Write m ps) !! t = (fun b => b ++ concat ps) <$> (mh_h m !! t).
Proof.
  revert m. induction ps as [|p ps IH]; intros m; cbn [foldl concat].
  - destruct (mh_h m !! t); cbn; [by rewrite app_nil_r|done].
  - rewrite IH. unfold Write. cbn [mh_h]. rewrite lookup_fmap. destruct (mh_h m !! t); cbn; [by rewrite <- app_assoc|done].
Qed.

Lemma Write_size ps m : in_i64 (mh_size m) -> mh_size (foldl Write m ps) = i64 (mh_size m + zlen (concat ps)).
Proof.
  revert m. induction ps as [|p ps IH]; intros m Hm; cbn [foldl concat].
  - change (zlen []) with 0. by rewrite Z.add_0_r, i64_id.
  - assert (in_i64 (mh_size (Write m p))) as Hw by (cbn; apply i64_in). rewrite IH by done.
    cbn [Write mh_size]. unfold zlen. rewrite length_app. rewrite i64_add_l. f_equal. lia.
Qed.

(** Hashes computed side by side: for a set of registered types [NewMultiHasherTypes] gives a hasher that after
    any writes sums up to exactly one value for each type of the set, the hash of all that was written, and that
    counts the bytes; for a set with any other type it fails, and it never panics. *)
Theorem MultiHasher_correct (ds : list (string * string * Z)) (set : Set_) :
  is_set set ->
  let r := foldl register (mkRegistry ∅ ∅ ∅ []) ds in
  (SubsetOf set (Supported r) = false /\ NewMultiHasherTypes r set = Ret None) \/
  (SubsetOf set (Supported r) = true /\ exists m, NewMultiHasherTypes r set = Ret (Some m) /\
     forall ps, let m' := foldl Write m ps in
       (forall t, Sums digest m' !! t =
          if decide (t ∈ Array set) then Some (hexEncode (digest t (concat ps))) else None) /\
       (forall t, Sum digest m' t = if decide (t ∈ Array set) then Some (digest t (concat ps)) else None) /\
       mh_size m' = i64 (zlen (concat ps))).
Proof.
  intros Hset r. unfold NewMultiHasherTypes.
  destruct (fromTypes_spec (length ds) r set (registered_all ds) Hset) as [[HS ->]|(HS & h & -> & Hh)]; [left; done|right].
  split; [done|]. cbn [obind]. eexists. split; [done|]. intros ps. set (m' := foldl Write _ ps). cbn zeta.
  assert (forall t, mh_h m' !! t = if decide (t ∈ Array set) then Some (concat ps) else None) as Hm.
  { intros t. unfold m'. rewrite Write_all. cbn [mh_h]. rewrite Hh. by destruct (decide (t ∈ Array set)). }
  split_and!.
  - intros t. unfold Sums. rewrite map_lookup_imap, Hm. by destruct (decide (t ∈ Array set)).
  - intros t. unfold Sum. rewrite Hm. by destruct (decide (t ∈ Array set)).
  - unfold m'. by rewrite Write_size.
Qed.

Lemma hexEncode_length b : length (hexEncode b) = (2 * length b)%nat.
Proof. induction b as [|x b IH]; cbn [hexEncode length]; lia. Qed.

Lemma base64Encode_length_aux n b : (length b <= n)%nat -> zlen (base64Encode b) = (zlen b + 2) / 3 * 4.
Proof.
  revert b. induction n as [|n IH]; intros b Hb; [by destruct b; [|cbn in Hb; lia]|].
  destruct b as [|x [|y [|z b]]]; [done..|]. cbn [length] in Hb. specialize (IH b ltac:(lia)).
  assert (zlen (x :: y :: z :: b) + 2 = zlen b + 2 + 1 * 3) as -> by (unfold zlen; cbn [length]; lia).
  rewrite Z.div_add by lia. unfold zlen in *. cbn [base64Encode length]. lia.
Qed.

(** [Width] is right: if the hash functions give as many bytes as they were registered with, [SumString] of a
    registered type has the width that [Width] tells, in hexadecimal and in base64. *)
Theorem Width_correct (r : registry) (m : MultiHasher) (t : Type_) (base64Encoded : bool) (d : hashDefinition) :
  type2hash r !! t = Some d -> (forall b, 2 * zlen (digest t b) = width d) -> t ∈ dom (mh_h m) ->
  exists s, SumString digest m t base64Encoded = Some s /\ zlen s = Width r t base64Encoded.
Proof.
  intros Hd Hw [b Hb]%elem_of_dom. unfold SumString, Sum, Width. rewrite Hb, Hd. cbn. eexists. split; [done|].
  specialize (Hw b). destruct base64Encoded.
  - rewrite (base64Encode_length_aux _ _ (Nat.le_refl _)). rewrite <- Hw. rewrite (Z.mul_comm 2), Z.div_mul by lia. done.
  - unfold zlen in *. rewrite hexEncode_length. lia.
Qed.
End multi.

(** A toy digest of the registered width. *)
Definition toy_digest (t : Type_) (b : bytes) : bytes := repeat (zlen b mod 256) (Z.to_nat (Width init t false / 2)).

Lemma MultiHasher_correct_witness : is_set 9 /\
  (let r := foldl register (mkRegistry ∅ ∅ ∅ []) [("md5", "MD5", 32); ("sha1", "SHA-1", 40)] in
   NewMultiHasherTypes r 9 = Ret None) /\
  (exists m, NewMultiHasherTypes init 9 = Ret (Some m) /\
     Sum toy_digest (foldl Write m [[104; 105]; [33]]) 8 = Some [3; 3; 3; 3]).
Proof.
  assert (is_set 9) as H by (unfold is_set; lia). split; [exact H|]. split.
  - destruct (MultiHasher_correct toy_digest [("md5", "MD5", 32); ("sha1", "SHA-1", 40)] 9 H) as [[_ HN]|[HS _]]; [exact HN|].
    exfalso. by vm_compute in HS.
  - destruct (MultiHasher_correct toy_digest [ ("md5", "MD5", 32); ("sha1", "SHA-1", 40); ("whirlpool", "Whirlpool", 128);
      ("crc32", "CRC-32", 8); ("sha256", "SHA-256", 64); ("sha512", "SHA-512", 128); ("blake3", "BLAKE3", 64);
      ("xxh3", "XXH3", 16); ("xxh128", "XXH128", 32) ] 9 H) as [[HS _]|(_ & m & Hm & Hall)].
    + exfalso. by vm_compute in HS.
    + exists m. split; [exact Hm|]. destruct (Hall [[104; 105]; [33]]) as (_ & HS & _). rewrite HS. by vm_compute.
Defined.

Lemma Width_correct_witness : exists s,
  SumString toy_digest (mkMulti 2 {[ 8 := [104; 105] ]}) 8 true = Some s /\ zlen s = 8.
Proof.
  apply (Width_correct toy_digest init (mkMulti 2 {[ 8 := [104; 105] ]}) 8 true (mkDef 8 "crc32" "CRC-32" 8)).
  - by vm_compute.
  - intros b. unfold toy_digest. change (Z.to_nat (Width init 8 false / 2)) with 4%nat. done.
  - cbn. apply elem_of_dom. rewrite lookup_singleton_eq. by eauto.
Defined.

Lemma GetOne_nonzero h : is_set h -> Count h <> 0 -> GetOne h <> None_.
Proof.
  intros Hh HC. rewrite GetOne_head by done. rewrite Count_members in HC by (unfold is_set in Hh; lia).
  rewrite <- Array_members in HC by done. pose proof (fun t => elem_of_Array h t Hh) as Hel.
  destruct (Array h) as [|t ts]; [done|]. cbn [head]. destruct (proj1 (Hel t)) as (k & Hk & -> & _); [left|].
  cbn. unfold id, None_. pose proof (Z.pow_pos_nonneg 2 k). lia.
Qed.

End Hash.
