(* ===== verification/OpenOptions.v ===== *)
(** * Options for opening objects: fs/open_options.go

    The range, seek and other options that are passed when an object is
    opened, their HTTP headers, the parser of the Range header, and
    [FixRangeOption], which makes ranges absolute for remotes that do not know
    ranges from the end.  [selected] says which bytes an option asks for; it
    is what the functions here are measured against. *)
From stdpp Require Import pretty.
From S2P Require Import Prelude GoPath Utf8 Streams.

Module OpenOptions.
Import GoPath Utf8 Streams.

(** ** Decimal numbers and spaces of the standard library *)

(** [strconv.FormatInt(n, 10)] *)
Definition FormatInt (n : Z) : string := pretty n.

(** [strconv.ParseInt(s, 10, 64)] *)
Definition ParseInt (s : string) : option Z := Atoi s.

(** [unicode.IsSpace] *)
Definition IsSpace (r : Z) : bool :=
  ((9 <=? r) && (r <=? 13)) || (r =? 32) || (r =? 133) || (r =? 160) || (r =? 5760) ||
  ((8192 <=? r) && (r <=? 8202)) || (r =? 8232) || (r =? 8233) || (r =? 8239) || (r =? 8287) ||
  (r =? 12288).

Definition is_space (it : item) : bool :=
  match it with Rune r => IsSpace r | Bad _ => false end.

Fixpoint trim_left (its : list item) : list item :=
  match its with
  | it :: its' => if is_space it then trim_left its' else its
  | [] => []
  end.

(** [strings.TrimSpace] *)
Definition TrimSpace (s : string) : string :=
  of_bytes (flat (reverse (trim_left (reverse (trim_left (items (to_bytes s))))))).

(** [strings.CutPrefix] *)
Fixpoint cut_prefix (pre s : string) : option string :=
  match pre, s with
  | EmptyString, _ => Some s
  | String a pre', String b s' => if Ascii.eqb a b then cut_prefix pre' s' else None
  | String _ _, EmptyString => None
  end.

(** The strings before and after the first [c]. *)
Fixpoint cut_at (c : ascii) (s : string) : option (string * string) :=
  match s with
  | EmptyString => None
  | String a s' =>
      if Ascii.eqb a c then Some ("", s')
      else match cut_at c s' with
           | Some (x, y) => Some (String a x, y)
           | None => None
           end
  end.

(** ** Options *)

Inductive OpenOption : Type :=
  | RangeOption (Start End : Z)
  | SeekOption (Offset : Z)
  | HTTPOption (Key Value : string)
  | HashesOption (Hashes : Z)
  | NullOption
  | MetadataOption (m : list (string * string))
  | ChunkOption (ChunkSize : Z).

#[export] Instance OpenOption_eq_dec : EqDecision OpenOption.
Proof. solve_decision. Defined.

(** The key and the value of the header; empty strings for none. *)
Definition Header (o : OpenOption) : string * string :=
  match o with
  | RangeOption s e =>
      ("Range", "bytes=" +:+ (if s >=? 0 then FormatInt s else "") +:+ "-" +:+
                (if e >=? 0 then FormatInt e else ""))
  | SeekOption off => ("Range", "bytes=" +:+ FormatInt off +:+ "-")
  | HTTPOption k v => (k, v)
  | _ => ("", "")
  end.

Definition Mandatory (o : OpenOption) : bool :=
  match o with RangeOption _ _ | SeekOption _ => true | _ => false end.

(** [OpenOptionAddHeaders], [OpenOptionHeaders] *)
Definition OpenOptionAddHeaders (options : list OpenOption) (headers : gmap string string)
    : gmap string string :=
  foldl (fun hs o =>
           let '(key, value) := Header o in
           if negb (str_eqb key "") && negb (str_eqb value "") then <[key := value]> hs else hs)
    headers options.

Definition OpenOptionHeaders (options : list OpenOption) : gmap string string :=
  OpenOptionAddHeaders options ∅.

Inductive rangeError : Type :=
  | NoPreamble
  | MultipleRanges
  | NoDash
  | BadStart
  | BadEnd.

(** One end of the range: absent, or a number that is not negative. *)
Definition parse_end (s : string) : option Z :=
  if str_eqb s "" then Some (-1)
  else match ParseInt s with
       | Some n => if n <? 0 then None else Some n
       | None => None
       end.

Definition ParseRangeOption (s : string) : rangeError + OpenOption :=
  match cut_prefix "bytes=" s with
  | None => inl NoPreamble
  | Some s =>
      if has_char ","%char s then inl MultipleRanges
      else match cut_at "-"%char s with
           | None => inl NoDash
           | Some (x, y) =>
               match parse_end (TrimSpace x) with
               | None => inl BadStart
               | Some start =>
                   match parse_end (TrimSpace y) with
                   | None => inl BadEnd
                   | Some end_ => inr (RangeOption start end_)
                   end
               end
           end
  end.

(** [RangeOption.Decode]: offset and limit. *)
Definition Decode (Start End size : Z) : Z * Z :=
  if Start >=? 0 then
    (Start, if End >=? 0 then i64 (i64 (End - Start) + 1) else -1)
  else (if End >=? 0 then Z.max (i64 (size - End)) 0 else 0, -1).

(** The body of the loop of [FixRangeOption] for a size that is not 0. *)
Definition fix_one (size : Z) (o : OpenOption) : OpenOption :=
  match o with
  | RangeOption s e =>
      let '(s, e) := if s <? 0 then (Z.max (i64 (size - e)) 0, -1) else (s, e) in
      if (e >? size) || (e <? 0) then RangeOption s (size - 1) else RangeOption s e
  | SeekOption off => RangeOption off (size - 1)
  | _ => o
  end.

Definition FixRangeOption (options : list OpenOption) (size : Z) : list OpenOption :=
  if size <? 0 then options
  else if size =? 0
  then map (fun o => match o with RangeOption _ _ => NullOption | _ => o end) options
  else map (fix_one size) options.

Inductive headerError : Type := BadHeader (header : string).

(** [ParseHeaders] *)
Fixpoint ParseHeaders (headers : list string) : headerError + list OpenOption :=
  match headers with
  | [] => inr []
  | header :: headers' =>
      match cut_at ":"%char header with
      | None => inl (BadHeader header)
      | Some (k, v) =>
          match ParseHeaders headers' with
          | inl e => inl e
          | inr opts => inr (HTTPOption (TrimSpace k) (TrimSpace v) :: opts)
          end
      end
  end.

(** ** What the options ask for *)

(** The bytes of a range as the comment of [RangeOption] and RFC 7233 describe
    it: both ends inclusive, the end capped, the last bytes if there is no
    start. *)
Definition range_bytes (Start End : Z) (data : bytes) : bytes :=
  if Start >=? 0 then
    if End >=? 0 then ztake (End + 1 - Start) (zdrop Start data) else zdrop Start data
  else if End >=? 0 then zdrop (zlen data - End) data else data.

(** Later options override earlier ones, as headers do. *)
Definition select_step (data out : bytes) (o : OpenOption) : bytes :=
  match o with
  | RangeOption s e => range_bytes s e data
  | SeekOption off => zdrop off data
  | _ => out
  end.

Definition selected (options : list OpenOption) (data : bytes) : bytes :=
  foldl (select_step data) data options.

(** The bytes from an offset on, at most [limit] if that is not negative. *)
Definition window (offset limit : Z) (data : bytes) : bytes :=
  if limit >=? 0 then ztake limit (zdrop offset data) else zdrop offset data.

Example Parse_1 : map ParseRangeOption ["bytes=1-2"; "bytes= 7 - "; "bytes=-5"; "bytes=-"; "bytes=1"; "byte=1-2"; "bytes=1-2,4-5"; "bytes=x-"; "bytes=3--4"]
  = [inr (RangeOption 1 2); inr (RangeOption 7 (-1)); inr (RangeOption (-1) 5); inr (RangeOption (-1) (-1));
     inl NoDash; inl NoPreamble; inl MultipleRanges; inl BadStart; inl BadEnd].
Proof. vm_compute. reflexivity. Qed.

(** ** Numbers *)

Fixpoint all_digits (s : string) : bool :=
  match s with
  | EmptyString => true
  | String c s' => bool_decide (digit_of c <> None) && all_digits s'
  end.

Lemma digit_of_char x : (x < 10)%N -> digit_of (pretty_N_char x) = Some (Z.of_N x).
Proof.
  intros Hx. assert (x = 0 \/ x = 1 \/ x = 2 \/ x = 3 \/ x = 4 \/ x = 5 \/ x = 6 \/ x = 7 \/ x = 8 \/ x = 9)%N as H by lia.
  by repeat (destruct H as [->|H]; [done|]); subst x.
Qed.

Lemma pretty_go_digits x s : digits_of 0 (pretty_N_go x s) = digits_of (Z.of_N x) s /\
  (all_digits s = true -> all_digits (pretty_N_go x s) = true).
Proof.
  revert s. induction (N.lt_wf_0 x) as [x _ IH]; intros s. destruct (decide (0 < x)%N) as [Hx|Hx].
  - rewrite pretty_N_go_step by done. destruct (IH (x / 10)%N) with (s := String (pretty_N_char (x `mod` 10)%N) s) as [-> H];
      [by apply N.div_lt|].
    split.
    + cbn [digits_of]. rewrite digit_of_char by (apply N.mod_lt; lia). f_equal.
      rewrite (N.div_mod' x 10) at 3. lia.
    + intros Hs. apply H. cbn [all_digits]. rewrite digit_of_char by (apply N.mod_lt; lia). by rewrite Hs.
  - assert (x = 0%N) as -> by lia. by rewrite pretty_N_go_0.
Qed.

Lemma pretty_digits n : 0 <= n -> digits_of 0 (pretty n) = Some n /\ all_digits (pretty n) = true /\ pretty n <> "".
Proof.
  intros Hn. destruct n as [|p|p]; [done| |lia].
  change (pretty (Z.pos p)) with (pretty (N.pos p)). unfold pretty, pretty_N.
  case_decide as H; [done|]. destruct (pretty_go_digits (N.pos p) "") as [H1 H2]. rewrite H1.
  split_and!; [done|by apply H2|]. intros E. rewrite E in H1. done.
Qed.

Lemma digit_char c : digit_of c <> None -> (48 <= nat_of_ascii c <= 57)%nat.
Proof. unfold digit_of. case_if; [|done]. intros _. lia. Qed.

Lemma digit_not c d : digit_of c <> None -> digit_of d = None -> Ascii.eqb c d = false.
Proof. intros Hc Hd. destruct (Ascii.eqb c d) eqn:E; [|done]. apply Ascii.eqb_eq in E as ->. done. Qed.

(** What is printed is parsed. *)
Lemma ParseInt_FormatInt n : 0 <= n <= i64_max -> ParseInt (FormatInt n) = Some n.
Proof.
  intros Hn. unfold ParseInt, FormatInt, Atoi. destruct (pretty_digits n) as (Hd & Ha & Hne); [lia|].
  destruct (pretty n) as [|c s]; [done|]. cbn [all_digits] in Ha. apply andb_true_iff in Ha as [Hc%bool_decide_eq_true_1 _].
  rewrite !(digit_not c) by done. rewrite Hd. change (str_eqb (String c s) "") with false. cbn iota.
  by rewrite (proj2 (Z.leb_le i64_min n)), (proj2 (Z.leb_le n i64_max)) by (unfold i64_min, i64_max in *; lia).
Qed.

(** *** Strings of digits *)

Lemma digits_no_char c s : digit_of c = None -> all_digits s = true -> has_char c s = false.
Proof.
  intros Hc. induction s as [|a s IH]; [done|]. cbn [all_digits has_char].
  intros [Ha%bool_decide_eq_true_1 Hs]%andb_true_iff. rewrite (digit_not a c) by done. by apply IH.
Qed.

Lemma cut_at_app c a b : has_char c a = false -> cut_at c (a +:+ String c b) = Some (a, b).
Proof.
  induction a as [|x a IH]; cbn [has_char].
  - intros _. change ("" +:+ String c b) with (String c b). cbn [cut_at]. by rewrite Ascii.eqb_refl.
  - intros [Hx Ha]%orb_false_iff. change (String x a +:+ String c b) with (String x (a +:+ String c b)).
    cbn [cut_at]. by rewrite Hx, IH.
Qed.

Lemma digits_items s : all_digits s = true ->
  items (to_bytes s) = map Rune (to_bytes s) /\ Forall (fun b => 48 <= b <= 57) (to_bytes s).
Proof.
  intros Hs. assert (Forall (fun b => 48 <= b <= 57) (to_bytes s)) as Hb.
  { induction s as [|c s IH]; [constructor|]. cbn [all_digits] in Hs.
    apply andb_true_iff in Hs as [Hc%bool_decide_eq_true_1%digit_char Hs].
    constructor; [lia|by apply IH]. }
  split; [|done]. generalize dependent (to_bytes s). intros l Hl.
  assert (canonical (map Rune l)) as Hc.
  { apply canonical_runes. apply (Forall_impl _ _ _ Hl). intros b Hr. apply ValidRune_spec. lia. }
  rewrite <- (items_flat (map Rune l)) by done. f_equal. clear Hc. induction Hl as [|b l Hr _ IH]; [done|].
  cbn [map]. rewrite flat_cons, <- IH. cbn [item_bytes]. unfold encode_rune.
  rewrite (proj2 (ValidRune_spec b)) by lia. by rewrite (proj2 (Z.leb_le b 127)) by lia.
Qed.

Lemma trim_left_none its : Forall (fun it => is_space it = false) its -> trim_left its = its.
Proof. destruct its as [|it its]; [done|]. inversion 1 as [|?? Hit _]; subst. cbn [trim_left]. by rewrite Hit. Qed.

Lemma TrimSpace_digits s : all_digits s = true -> TrimSpace s = s.
Proof.
  intros Hs. unfold TrimSpace. destruct (digits_items s Hs) as [Hi Hb].
  assert (Forall (fun it => is_space it = false) (items (to_bytes s))) as Hn.
  { rewrite Hi. apply Forall_map. apply (Forall_impl _ _ _ Hb). intros b Hr. unfold compose, is_space, IsSpace.
    repeat (apply orb_false_iff; split); try (apply Z.eqb_neq; lia); apply andb_false_iff; rewrite !Z.leb_gt; lia. }
  rewrite (trim_left_none _ Hn), trim_left_none by (by apply Forall_reverse).
  rewrite reverse_involutive, flat_items by apply to_bytes_is_byte. apply of_bytes_to_bytes.
Qed.

Lemma parse_end_number n : n <= i64_max ->
  parse_end (TrimSpace (if n >=? 0 then FormatInt n else "")) = Some (Z.max n (-1)).
Proof.
  intros Hn. destruct (n >=? 0) eqn:E; breflect.
  - destruct (pretty_digits n) as (_ & Ha & Hne); [done|]. rewrite TrimSpace_digits by done.
    unfold parse_end. rewrite (proj2 (str_eqb_neq _ _)) by done. rewrite ParseInt_FormatInt by lia.
    rewrite (proj2 (Z.ltb_ge n 0)) by lia. f_equal. lia.
  - replace (Z.max n (-1)) with (-1) by lia. reflexivity.
Qed.

Lemma number_digits n : all_digits (if n >=? 0 then FormatInt n else "") = true.
Proof. destruct (n >=? 0) eqn:E; breflect; [by apply pretty_digits|done]. Qed.

Lemma has_char_string_app c a b : has_char c (a +:+ b) = has_char c a || has_char c b.
Proof. induction a as [|x a IH]; [done|]. cbn. by rewrite <- orb_assoc, <- IH. Qed.

Lemma cut_prefix_app pre s : cut_prefix pre (pre +:+ s) = Some s.
Proof.
  induction pre as [|c pre IH]; [by destruct s|].
  change (String c pre +:+ s) with (String c (pre +:+ s)). cbn [cut_prefix]. by rewrite Ascii.eqb_refl.
Qed.

(** ** Ranges *)

(** Well formed ranges: one end at least, and not backwards. *)
Definition good_range (s e : Z) : Prop :=
  in_i64 s /\ in_i64 e /\ (0 <= s \/ 0 <= e) /\ (0 <= s -> 0 <= e -> s <= e + 1).

Definition good_option (o : OpenOption) : Prop :=
  match o with
  | RangeOption s e => good_range s e
  | SeekOption off => in_i64 off /\ 0 <= off
  | _ => True
  end.

Lemma zdrop_neg k b : k <= 0 -> zdrop k b = b.
Proof. intros Hk. unfold zdrop. by replace (Z.to_nat k) with 0%nat by lia. Qed.

Lemma zdrop_max k b : zdrop (Z.max k 0) b = zdrop k b.
Proof. unfold zdrop. f_equal. lia. Qed.

Lemma Decode_window s e data : good_range s e -> zlen data <= i64_max ->
  window (fst (Decode s e (zlen data))) (snd (Decode s e (zlen data))) data = range_bytes s e data.
Proof.
  intros (Hs & He & Hone & Hback) Hlen. pose proof (zlen_nonneg data). unfold Decode, range_bytes, window.
  unfold in_i64 in *. destruct (s >=? 0) eqn:E1; destruct (e >=? 0) eqn:E2; breflect; cbn [fst snd].
  - rewrite (i64_id (e - s)) by (unfold in_i64, i64_min, i64_max in *; lia).
    destruct (decide (e - s = i64_max)) as [Emax|Emax].
    + change i64_max with (2 ^ 63 - 1) in *. rewrite Emax. change (i64 (2 ^ 63 - 1 + 1) >=? 0) with false. cbn iota.
      symmetry. apply ztake_all. zlen.
    + rewrite i64_id by (unfold in_i64, i64_min, i64_max in *; lia).
      rewrite Z.geb_leb, (proj2 (Z.leb_le 0 _)) by lia. f_equal. lia.
  - done.
  - change (-1 >=? 0) with false. cbn iota. rewrite i64_id by (unfold in_i64, i64_min, i64_max in *; lia).
    apply zdrop_max.
  - lia.
Qed.

(** Taking at least what is left. *)
Lemma ztake_rest k s b : 0 <= s -> zlen b <= s + k -> ztake k (zdrop s b) = zdrop s b.
Proof.
  intros Hs Hk. destruct (decide (zlen b <= s)).
  - rewrite zdrop_all by done. apply ztake_nil.
  - apply ztake_all. zlen.
Qed.

Lemma fix_one_range s e data : good_range s e -> 0 < zlen data <= i64_max ->
  exists s' e', fix_one (zlen data) (RangeOption s e) = RangeOption s' e' /\
    0 <= s' /\ 0 <= e' <= zlen data /\ range_bytes s' e' data = range_bytes s e data.
Proof.
  intros (Hs & He & Hone & Hback) Hlen. unfold fix_one, in_i64 in *.
  assert (forall s', 0 <= s' -> range_bytes s' (zlen data - 1) data = zdrop s' data) as Hto_end.
  { intros s' Hs'. unfold range_bytes. rewrite !Z.geb_leb, (proj2 (Z.leb_le 0 s')), (proj2 (Z.leb_le 0 (zlen data - 1))) by lia.
    apply ztake_rest; lia. }
  destruct (s <? 0) eqn:E1; breflect.
  - rewrite (i64_id (zlen data - e)) by (unfold in_i64, i64_min, i64_max in *; lia).
    change (-1 <? 0) with true. rewrite orb_true_r. do 2 eexists. split; [done|]. split_and!; [lia|lia|lia|].
    rewrite Hto_end, zdrop_max by lia. unfold range_bytes.
    by rewrite !Z.geb_leb, (proj2 (Z.leb_gt 0 s)), (proj2 (Z.leb_le 0 e)) by lia.
  - destruct ((e >? zlen data) || (e <? 0)) eqn:E2; (do 2 eexists; split; [done|]).
    + split_and!; [lia|lia|lia|]. rewrite Hto_end by lia. unfold range_bytes.
      rewrite Z.geb_leb, (proj2 (Z.leb_le 0 s)) by lia. destruct (e >=? 0) eqn:E3; [|done].
      apply orb_true_iff in E2 as [E2|E2]; breflect; [|lia]. symmetry. apply ztake_rest; lia.
    + apply orb_false_iff in E2 as [E2 E3]. breflect. split_and!; [lia|lia|lia|done].
Qed.

Lemma select_step_nil o : select_step [] [] o = [].
Proof.
  destruct o as [s e|off| | | | |]; try done; [|apply drop_nil]. cbn [select_step]. unfold range_bytes.
  repeat case_if; unfold zdrop; rewrite ?drop_nil, ?ztake_nil; done.
Qed.

Lemma selected_nil options : selected options [] = [].
Proof. unfold selected. induction options as [|o l IH]; [done|]. cbn [foldl]. by rewrite select_step_nil. Qed.

Lemma fix_one_step data out o : good_option o -> 0 < zlen data <= i64_max ->
  select_step data out (fix_one (zlen data) o) = select_step data out o.
Proof.
  intros Ho Hlen. destruct o as [s e|off| | | | |]; try done.
  - destruct (fix_one_range s e data Ho) as (s' & e' & -> & _ & _ & H); [lia|]. done.
  - cbn [fix_one select_step]. destruct Ho as [_ Ho]. unfold range_bytes.
    rewrite !Z.geb_leb, (proj2 (Z.leb_le 0 off)), (proj2 (Z.leb_le 0 (zlen data - 1))) by lia.
    apply ztake_rest; lia.
Qed.

Lemma FixRangeOption_selected options data : Forall good_option options -> zlen data <= i64_max ->
  selected (FixRangeOption options (zlen data)) data = selected options data.
Proof.
  intros Hopts Hlen. unfold FixRangeOption. rewrite (proj2 (Z.ltb_ge _ 0)) by apply zlen_nonneg.
  destruct (zlen data =? 0) eqn:E0; breflect.
  - apply zlen_0 in E0 as ->. by rewrite !selected_nil.
  - pose proof (zlen_nonneg data). unfold selected.
    assert (forall out, foldl (select_step data) out (map (fix_one (zlen data)) options) =
                        foldl (select_step data) out options) as H1; [|done].
    induction Hopts as [|o opts Ho _ IH]; intros out; [done|]. cbn [map foldl].
    rewrite fix_one_step by (done || lia). apply IH.
Qed.

(** ** Properties *)

(** A range survives its header: what [Header] writes, [ParseRangeOption]
    reads, with every negative end as -1, for all ranges of 64 bit integers. *)
Theorem range_header_roundtrip s e : s <= i64_max -> e <= i64_max ->
  ParseRangeOption (snd (Header (RangeOption s e))) = inr (RangeOption (Z.max s (-1)) (Z.max e (-1))).
Proof.
  intros Hs He. cbn [Header snd]. unfold ParseRangeOption. rewrite cut_prefix_app.
  assert (forall c, digit_of c = None -> Ascii.eqb "-" c = false ->
    has_char c ((if s >=? 0 then FormatInt s else "") +:+ "-" +:+ (if e >=? 0 then FormatInt e else "")) = false) as Hc.
  { intros c Hc Hd. rewrite !has_char_string_app.
    rewrite !(digits_no_char c (if _ >=? 0 then _ else _)) by (done || apply number_digits).
    cbn [has_char]. by rewrite Hd. }
  rewrite Hc by done.
  change ("-" +:+ (if e >=? 0 then FormatInt e else "")) with (String "-" (if e >=? 0 then FormatInt e else "")).
  rewrite cut_at_app by (apply digits_no_char; [done|apply number_digits]).
  by rewrite !parse_end_number.
Qed.

Lemma range_header_roundtrip_witness :
  snd (Header (RangeOption 100 (-1))) = "bytes=100-" /\
  ParseRangeOption (snd (Header (RangeOption 100 (-1)))) = inr (RangeOption 100 (-1)).
Proof. split; [reflexivity|]. apply range_header_roundtrip; unfold i64_max; lia. Defined.

(** [FixRangeOption] and [Decode] keep what is asked for: the options that
    [FixRangeOption] leaves have no range from the end and no seek, and select
    the same bytes of an object of that size; reading [limit] bytes from
    [offset] on, as [Decode] says, gives exactly the bytes of the range. *)
Theorem ranges_select_the_same options data : Forall good_option options -> zlen data <= i64_max ->
  selected (FixRangeOption options (zlen data)) data = selected options data /\
  Forall (fun o => match o with
                   | RangeOption s e => 0 <= s /\ 0 <= e <= zlen data
                   | SeekOption _ => data = []
                   | _ => True
                   end) (FixRangeOption options (zlen data)) /\
  Forall (fun o => match o with
                   | RangeOption s e => let '(offset, limit) := Decode s e (zlen data) in
                       window offset limit data = range_bytes s e data
                   | _ => True
                   end) options.
Proof.
  intros Hopts Hlen. split_and!.
  - by apply FixRangeOption_selected.
  - unfold FixRangeOption. rewrite (proj2 (Z.ltb_ge _ 0)) by apply zlen_nonneg.
    destruct (zlen data =? 0) eqn:E0; breflect; apply Forall_map.
    + apply zlen_0 in E0. apply (Forall_impl _ _ _ Hopts). by intros [].
    + apply (Forall_impl _ _ _ Hopts). intros [s e|off| | | | |] Ho; try done; pose proof (zlen_nonneg data).
      * destruct (fix_one_range s e data Ho) as (s' & e' & Hf & H1 & H2 & _); [lia|].
        unfold compose. rewrite Hf. lia.
      * destruct Ho as [_ Ho]. unfold compose. cbn [fix_one]. lia.
  - apply (Forall_impl _ _ _ Hopts). intros [s e|off| | | | |] Ho; try done.
    pose proof (Decode_window s e data Ho Hlen) as H. by destruct (Decode s e (zlen data)).
Qed.

Lemma ranges_select_the_same_witness :
  let data := [10; 20; 30; 40; 50] in
  selected (FixRangeOption [RangeOption (-1) 2] (zlen data)) data = [40; 50].
Proof.
  intros data.
  rewrite (proj1 (ranges_select_the_same [RangeOption (-1) 2] data
    ltac:(repeat constructor; cbn; unfold in_i64, i64_min, i64_max; lia)
    ltac:(vm_compute; discriminate))). reflexivity.
Defined.

(** The end of a range may be one past the last byte: the comment says that the
    range does not exceed the size. *)
Example FixRangeOption_end : FixRangeOption [RangeOption 0 5] 5 = [RangeOption 0 5].
Proof. reflexivity. Qed.

(** A range with neither end, which [ParseRangeOption] accepts, asks for
    everything according to [Decode] and for nothing according to
    [FixRangeOption]. *)
Example FixRangeOption_empty :
  ParseRangeOption "bytes=-" = inr (RangeOption (-1) (-1)) /\
  Decode (-1) (-1) 5 = (0, -1) /\
  FixRangeOption [RangeOption (-1) (-1)] 5 = [RangeOption 6 4].
Proof. vm_compute. done. Qed.

End OpenOptions.
