(* ===== verification/ReOpen.v ===== *)
(** * A reader that reopens itself: fs/operations/reopen.go

    [ReOpen] wraps the stream of an object: when a read fails it closes the
    stream, opens the object again where it had got to and goes on, so many
    times at most.  It can seek, which takes effect at the next read.

    The object is modelled by its contents and by what its next [Open] calls
    will do: fail, or give a stream that breaks off somewhere.  The handle is
    shown to deliver the bytes that its options ask for and nothing else, in
    whatever way the streams break, and all of them if there are tries left. *)
From S2P Require Import Prelude GoPath Utf8 Streams OpenOptions.

Module ReOpen.
Import Utf8 Streams OpenOptions.

Inductive error : Type :=
  | EOF
  | errFileClosed
  | errTooManyTries
  | errInvalidWhence
  | errNegativeSeek
  | errSeekPastEnd
  | errBadEndSeek
  | ErrOther (code : Z) (noLowLevelRetry : bool).

#[export] Instance error_eq_dec : EqDecision error.
Proof. solve_decision. Defined.

(** [fserrors.IsNoLowLevelRetryError] *)
Definition IsNoLowLevelRetryError (e : error) : bool :=
  match e with ErrOther _ b => b | _ => false end.

Abbreviation stream := (Streams.stream error).

(** ** The object *)

(** What one call of [Open] does: it fails, or returns a stream that gives the
    first [cut] bytes of what was asked for and then the error, in reads cut up
    by [sched]; closing that stream may give an error. *)
Inductive answer : Type :=
  | AFail (e : error)
  | AStream (cut : nat) (e : error) (sched : list (nat * bool)) (closeErr : option error).

Record ReadCloser : Type := mkRC { rc_stream : stream; rc_closeErr : option error }.

Record Object : Type := mkObject { o_Size : Z; o_data : bytes }.

(** An object that has no more answers is gone. *)
Definition o_Open (o : Object) (answers : list answer) (options : list OpenOption)
    : list answer * (error + ReadCloser) :=
  match answers with
  | [] => ([], inl (ErrOther 404 false))
  | AFail e :: answers => (answers, inl e)
  | AStream cut e sched ce :: answers =>
      (answers, inr (mkRC (mkStream (take cut (selected options (o_data o))) e sched) ce))
  end.

(** ** The handle *)

(** What does not change after the handle was made.  [c_options] are the
    options for later opens without their last one, the range option. *)
Record config : Type := mkConfig {
  c_src : Object;
  c_baseOptions : list OpenOption;
  c_options : list OpenOption;
  c_start : Z;
  c_end : Z;
  c_rangeEnd : Z;                (* rangeOption.End *)
  c_maxTries : Z }.

Definition c_size (c : config) : Z := o_Size (c_src c).

(** [h_opens] and [h_closes] count the streams that were opened and closed. *)
Record ReOpen : Type := mkReOpen {
  h_rc : option ReadCloser;
  h_offset : Z;
  h_newOffset : Z;
  h_tries : Z;
  h_err : option error;
  h_opened : bool;
  h_account : option (Z -> option error);
  h_reads : Z;
  h_accountOn : Z;
  h_answers : list answer;
  h_opens : nat;
  h_closes : nat }.

Section handle.
Variable c : config.

(** [open]: the initial options at offset 0, otherwise the other options and
    the range from where the handle has got to. *)
Definition h_open (h : ReOpen) : ReOpen * option error :=
  let opts := if h_offset h =? 0 then c_baseOptions c
              else c_options c ++ [RangeOption (i64 (c_start c + h_offset h)) (c_rangeEnd c)] in
  let tries := h_tries h + 1 in
  let set rc err opened answers opens :=
    mkReOpen rc (h_offset h) (h_newOffset h) tries err opened (h_account h) (h_reads h)
      (h_accountOn h) answers opens (h_closes h) in
  if tries >? c_maxTries c then
    (set (h_rc h) (Some errTooManyTries) (h_opened h) (h_answers h) (h_opens h), Some errTooManyTries)
  else
    match o_Open (c_src c) (h_answers h) opts with
    | (answers, inl e) => (set None (Some e) (h_opened h) answers (h_opens h), Some e)
    | (answers, inr rc) => (set (Some rc) None true answers (S (h_opens h)), None)
    end.

(** [reopen]: close what is open first. *)
Definition h_reopen (h : ReOpen) : ReOpen * option error :=
  h_open (if h_opened h then
            mkReOpen (h_rc h) (h_offset h) (h_newOffset h) (h_tries h) (h_err h) false (h_account h)
              (h_reads h) (h_accountOn h) (h_answers h) (h_opens h) (S (h_closes h))
          else h).

Definition accountRead (h : ReOpen) (n : Z) : option error :=
  match h_account h with
  | None => None
  | Some account => if h_reads h >=? h_accountOn h then account n else None
  end.

Definition set_offset (h : ReOpen) (offset newOffset : Z) : ReOpen :=
  mkReOpen (h_rc h) offset newOffset (h_tries h) (h_err h) (h_opened h) (h_account h) (h_reads h)
    (h_accountOn h) (h_answers h) (h_opens h) (h_closes h).

Definition set_err (h : ReOpen) (err : option error) : ReOpen :=
  mkReOpen (h_rc h) (h_offset h) (h_newOffset h) (h_tries h) err (h_opened h) (h_account h) (h_reads h)
    (h_accountOn h) (h_answers h) (h_opens h) (h_closes h).

Definition set_reads (h : ReOpen) (reads : Z) : ReOpen :=
  mkReOpen (h_rc h) (h_offset h) (h_newOffset h) (h_tries h) (h_err h) (h_opened h) (h_account h) reads
    (h_accountOn h) (h_answers h) (h_opens h) (h_closes h).

(** After a read of [n] bytes from the stream. *)
Definition set_stream (h : ReOpen) (rc : ReadCloser) (s : stream) (n : Z) : ReOpen :=
  mkReOpen (Some (mkRC s (rc_closeErr rc))) (i64 (h_offset h + n)) (h_newOffset h) (h_tries h) (h_err h)
    (h_opened h) (h_account h) (h_reads h) (h_accountOn h) (h_answers h) (h_opens h) (h_closes h).

(** The loop of [Read] that fills a buffer of [k] bytes. *)
Fixpoint Read_loop (fuel : nat) (h : ReOpen) (k : nat) (acc : bytes)
    : outcome (ReOpen * bytes * option error) :=
  match fuel with
  | O => Ret (h, acc, None)
  | S fuel' =>
      if (length acc <? k)%nat then
        let! rc := deref (h_rc h) in
        let '(s, out, err) := s_Read (rc_stream rc) (k - length acc) in
        let h := set_stream h rc s (zlen out) in
        let acc := acc ++ out in
        match err with
        | None => Read_loop fuel' h k acc
        | Some EOF => Ret (h, acc, Some EOF)
        | Some e =>
            let h := set_err h (Some e) in
            if IsNoLowLevelRetryError e then Ret (h, acc, Some e)
            else match h_reopen h with
                 | (h, None) => Read_loop fuel' h k acc
                 | (h, Some _) => Ret (h, acc, Some e)
                 end
        end
      else Ret (h, acc, None)
  end.

(** The calls that the streams to come can take: one for each planned read, one
    for the rest and one to meet the error. *)
Definition answer_calls (a : answer) : nat :=
  match a with AFail _ => 0 | AStream _ _ sched _ => (2 + length sched)%nat end.

Definition loop_fuel (h : ReOpen) : nat :=
  (1 + match h_rc h with Some rc => 2 + length (s_sched (rc_stream rc)) | None => 0 end +
   sum_list_with answer_calls (h_answers h))%nat.

Definition Read (h : ReOpen) (k : Z) : outcome (ReOpen * bytes * option error) :=
  match h_err h with
  | Some e => Ret (h, [], Some e)
  | None =>
      let '(h, err) :=
        if h_newOffset h >=? 0 then
          let '(h, err) := if negb (h_offset h =? h_newOffset h)
                           then h_reopen (set_offset h (h_newOffset h) (h_newOffset h))
                           else (h, None) in
          match err with
          | Some e => (h, Some e)
          | None => (set_offset h (h_offset h) (-1), None)
          end
        else (h, None) in
      match err with
      | Some e => Ret (h, [], Some e)
      | None =>
          let startOffset := h_offset h in
          let! (h, out, err) := Read_loop (loop_fuel h) h (Z.to_nat k) [] in
          let h := if (startOffset =? 0) && negb (zlen out =? 0) then set_reads h (h_reads h + 1) else h in
          let accErr := accountRead h (zlen out) in
          Ret (h, out, match err with None => accErr | Some e => Some e end)
      end
  end.

(** The end of [Seek]: the position is applied by the next [Read]. *)
Definition Seek_to (h : ReOpen) (abs : Z) : ReOpen * Z * option error :=
  let size := i64 (c_end c - c_start c) in
  if abs <? 0 then (h, 0, Some errNegativeSeek)
  else if (c_size c >=? 0) && (abs >? size) then (h, size, Some errSeekPastEnd)
  else (mkReOpen (h_rc h) (h_offset h) abs 0 (h_err h) (h_opened h) (h_account h) (h_reads h)
          (h_accountOn h) (h_answers h) (h_opens h) (h_closes h), abs, None).

Definition Seek (h : ReOpen) (offset whence : Z) : ReOpen * Z * option error :=
  match h_err h with
  | Some e => (h, 0, Some e)
  | None =>
      if whence =? 0 then Seek_to h offset
      else if whence =? 1 then
        Seek_to h (i64 ((if h_newOffset h >=? 0 then h_newOffset h else h_offset h) + offset))
      else if whence =? 2 then
        if c_size c <? 0 then (h, 0, Some errBadEndSeek)
        else Seek_to h (i64 (i64 (c_end c - c_start c) + offset))
      else (h, 0, Some errInvalidWhence)
  end.

(** [ReadAt]: seek there, read, seek back. *)
Definition ReadAt (h : ReOpen) (k off : Z) : outcome (ReOpen * bytes * option error) :=
  match Seek h 0 1 with
  | (h, _, Some e) => Ret (h, [], Some e)
  | (h, cur, None) =>
      match Seek h off 0 with
      | (h, _, Some e) => Ret (h, [], Some e)
      | (h, _, None) =>
          let! (h, out, err) := Read h k in
          let '(h, _, seekErr) := Seek h cur 0 in
          Ret (h, out, match err with None => seekErr | Some e => Some e end)
      end
  end.

Definition Close (h : ReOpen) : outcome (ReOpen * option error) :=
  if negb (h_opened h) then Ret (h, Some errFileClosed)
  else
    let! rc := deref (h_rc h) in
    Ret (mkReOpen (h_rc h) (h_offset h) (h_newOffset h) (h_tries h) (Some errFileClosed) false
           (h_account h) (h_reads h) (h_accountOn h) (h_answers h) (h_opens h) (S (h_closes h)),
         rc_closeErr rc).

Definition SetAccounting (h : ReOpen) (account : Z -> option error) : ReOpen :=
  mkReOpen (h_rc h) (h_offset h) (h_newOffset h) (h_tries h) (h_err h) (h_opened h) (Some account)
    (h_reads h) (h_accountOn h) (h_answers h) (h_opens h) (h_closes h).

Definition DelayAccounting (h : ReOpen) (i : Z) : ReOpen :=
  mkReOpen (h_rc h) (h_offset h) (h_newOffset h) (h_tries h) (h_err h) (h_opened h) (h_account h)
    0 i (h_answers h) (h_opens h) (h_closes h).

End handle.

(** The loop over the options: start, limit and the options that are kept.
    The size that [Decode] is given is [h.end], which is still 0. *)
Definition filter_option (st : Z * Z * list OpenOption) (o : OpenOption) : Z * Z * list OpenOption :=
  let '(start, limit, opts) := st in
  match o with
  | HashesOption _ => st
  | RangeOption s e => (Decode s e 0, opts)
  | SeekOption off => (off, -1, opts)
  | _ => (start, limit, opts ++ [o])
  end.

Definition make_config (src : Object) (maxTries : Z) (options : list OpenOption) : config :=
  let '(start, limit, opts) := foldl filter_option (0, -1, []) options in
  let ranged := (limit >=? 0) && (o_Size src >=? 0) in
  let end_ := if ranged then i64 (start + limit) else o_Size src in
  mkConfig src options opts start end_ (if ranged then i64 (end_ - 1) else -1) maxTries.

Definition NewReOpen (src : Object) (answers : list answer) (maxTries : Z) (options : list OpenOption)
    : error + (config * ReOpen) :=
  let c := make_config src maxTries options in
  match h_open c (mkReOpen None 0 (-1) 0 None false None 0 0 answers 0 0) with
  | (_, Some e) => inl e
  | (h, None) => inr (c, h)
  end.

(** A first stream that breaks off, and a second one. *)
Example reopen_1 :
  match NewReOpen (mkObject 5 [1; 2; 3; 4; 5])
          [AStream 2 (ErrOther 1 false) [] None; AStream 9 EOF [(1%nat, true)] None] 3 [RangeOption 1 3] with
  | inr (c, h) => match Read c h 10 with Ret (_, out, e) => Some (out, e) | Panic => None end
  | inl _ => None
  end = Some ([2; 3; 4], Some EOF).
Proof. reflexivity. Qed.

(** ** What the handle relies on *)

(** A stream that ends with EOF gave all that was asked for, and a failure to
    open is not EOF. *)
Definition honest (data : bytes) (a : answer) : Prop :=
  match a with
  | AStream cut EOF _ _ => (length data <= cut)%nat
  | AFail e => e <> EOF
  | _ => True
  end.

(** The options of the first open select [R], and those of an open at an offset
    select the rest of [R]. *)
Record resumes (c : config) (R : bytes) : Prop := {
  res_base : selected (c_baseOptions c) (o_data (c_src c)) = R;
  res_later o : 0 < o -> c_start c + o <= i64_max ->
    selected (c_options c ++ [RangeOption (i64 (c_start c + o)) (c_rangeEnd c)]) (o_data (c_src c)) = zdrop o R;
  res_start : 0 <= c_start c;
  res_fits : c_start c + zlen R <= i64_max }.

Section correct.
Variables (c : config) (R : bytes).
Hypothesis (HR : resumes c R).

Let data := o_data (c_src c).

Definition at_most (o : Z) : Prop := 0 <= o /\ c_start c + o <= i64_max.

(** A stream for the rest of [R] from [o] on. *)
Definition live (o : Z) (rc : ReadCloser) : Prop :=
  (exists t, zdrop o R = s_data (rc_stream rc) ++ t) /\
  (s_err (rc_stream rc) = EOF -> s_data (rc_stream rc) = zdrop o R).

Definition balanced (h : ReOpen) : Prop :=
  h_opens h = (h_closes h + if h_opened h then 1 else 0)%nat /\ (h_opened h = true -> h_rc h <> None).

(** What holds between the calls. *)
Record inv (h : ReOpen) : Prop := {
  inv_honest : Forall (honest data) (h_answers h);
  inv_offset : at_most (h_offset h);
  inv_newOffset : h_newOffset h = -1 \/ at_most (h_newOffset h);
  inv_account account : h_account h = Some account -> forall n, account n <> Some EOF;
  inv_balanced : balanced h;
  inv_err : h_err h <> Some EOF;
  inv_live : h_err h = None -> h_opened h = true /\ exists rc, h_rc h = Some rc /\ live (h_offset h) rc }.

Definition future (h : ReOpen) : nat := sum_list_with answer_calls (h_answers h).

(** The calls that are left for the current stream and those to come. *)
Definition measure (h : ReOpen) (k : nat) : nat :=
  (match h_rc h with Some rc => calls (rc_stream rc) k | None => 0 end + future h)%nat.

Lemma selected_opts o : at_most o ->
  selected (if o =? 0 then c_baseOptions c
            else c_options c ++ [RangeOption (i64 (c_start c + o)) (c_rangeEnd c)]) data = zdrop o R.
Proof.
  intros [H0 Hmax]. destruct (o =? 0) eqn:E; breflect; unfold data; [by rewrite E, (res_base c R HR)|].
  apply (res_later c R HR); lia.
Qed.

Lemma range_shorter : (length R <= length data)%nat.
Proof.
  rewrite <- (res_base c R HR). unfold selected. fold data.
  assert (forall out o, (length out <= length data)%nat -> (length (select_step data out o) <= length data)%nat) as Hstep.
  { intros out [s e|off| | | | |] Ho; cbn [select_step]; try done; unfold range_bytes, ztake, zdrop;
      repeat case_if; rewrite ?length_take, ?length_drop; lia. }
  assert (length data <= length data)%nat as Hout by lia. revert Hout. generalize data at 1 4.
  induction (c_baseOptions c) as [|o l IH]; intros out Hout; cbn [foldl]; [done|]. apply IH. by apply Hstep.
Qed.

Lemma open_live o a answers opts : at_most o -> Forall (honest data) (a :: answers) ->
  selected opts data = zdrop o R ->
  match o_Open (c_src c) (a :: answers) opts with
  | (answers', inr rc) => answers' = answers /\ live o rc /\ (length (s_sched (rc_stream rc)) + 2 = answer_calls a)%nat
  | (answers', inl e) => answers' = answers /\ e <> EOF
  end.
Proof.
  intros Ho Hh Hsel. inversion Hh as [|?? Ha _]; subst. destruct a as [e|cut e sched ce]; cbn [o_Open]; [done|].
  fold data. rewrite Hsel. split; [done|]. cbn [rc_stream s_data s_err s_sched answer_calls]. split; [|lia]. split.
  - exists (drop cut (zdrop o R)). cbn. by rewrite take_drop.
  - cbn. intros ->. cbn [honest] in Ha. apply take_ge. unfold zdrop. rewrite length_drop.
    pose proof range_shorter. lia.
Qed.

(** The parts of a handle that opening leaves alone. *)
Definition same_place (h h' : ReOpen) : Prop :=
  h_offset h' = h_offset h /\ h_newOffset h' = h_newOffset h /\ h_account h' = h_account h /\
  h_reads h' = h_reads h /\ h_accountOn h' = h_accountOn h.

Lemma h_open_spec h : Forall (honest data) (h_answers h) -> at_most (h_offset h) ->
  h_opened h = false -> h_opens h = h_closes h ->
  let '(h', r) := h_open c h in
  same_place h h' /\ Forall (honest data) (h_answers h') /\ h_tries h' = h_tries h + 1 /\ balanced h' /\
  h_err h' = r /\
  match r with
  | None => h_opened h' = true /\ exists rc, h_rc h' = Some rc /\ live (h_offset h') rc /\
      (forall k, measure h' k <= future h)%nat
  | Some e => e <> EOF
  end.
Proof.
  intros Hh Ho Hop Hbal. unfold h_open. set (opts := if h_offset h =? 0 then _ else _).
  assert (selected opts data = zdrop (h_offset h) R) as Hsel by (by apply selected_opts).
  assert (forall h', h_opened h' = h_opened h -> h_opens h' = h_opens h -> h_closes h' = h_closes h -> balanced h') as Hshut.
  { intros h' H1 H2 H3. unfold balanced. rewrite H1, H2, H3, Hop. split; [lia|done]. }
  destruct (_ >? _).
  { split_and!; try done. by apply Hshut. }
  destruct (h_answers h) as [|a answers] eqn:Ea.
  { cbn [o_Open]. split_and!; try done. by apply Hshut. }
  pose proof (open_live (h_offset h) a answers opts Ho Hh Hsel) as Hopen. inversion Hh as [|?? _ Hh']; subst.
  destruct (o_Open (c_src c) (a :: answers) opts) as [answers' [e|rc]].
  - destruct Hopen as [-> He]. split_and!; try done. by apply Hshut.
  - destruct Hopen as (-> & Hlive & Hcalls). split_and!; try done; [split; [cbn; lia|done]|].
    exists rc. split_and!; [done|done|]. intros k. unfold measure, future, calls. cbn. rewrite Ea. cbn.
    rewrite <- Hcalls. repeat case_decide; lia.
Qed.

Lemma h_reopen_spec h : Forall (honest data) (h_answers h) -> at_most (h_offset h) -> balanced h ->
  let '(h', r) := h_reopen c h in
  same_place h h' /\ Forall (honest data) (h_answers h') /\ h_tries h' = h_tries h + 1 /\ balanced h' /\
  h_err h' = r /\
  match r with
  | None => h_opened h' = true /\ exists rc, h_rc h' = Some rc /\ live (h_offset h') rc /\
      (forall k, measure h' k <= future h)%nat
  | Some e => e <> EOF
  end.
Proof.
  intros Hh Ho [Hbal _]. unfold h_reopen. destruct (h_opened h) eqn:Eo.
  - match goal with |- context [h_open c ?h0] => pose proof (h_open_spec h0) as H end.
    cbn [h_answers h_offset h_opened h_opens h_closes] in H. specialize (H Hh Ho eq_refl ltac:(lia)).
    exact H.
  - apply h_open_spec; [done|done|done|lia].
Qed.

Lemma inv_reopened h h' : inv h -> same_place h h' -> Forall (honest data) (h_answers h') -> balanced h' ->
  h_err h' <> Some EOF ->
  (h_err h' = None -> h_opened h' = true /\ exists rc, h_rc h' = Some rc /\ live (h_offset h') rc) -> inv h'.
Proof.
  intros Hinv (So & Sn & Sa & _) Hh Hbal Herr Hlive. destruct Hinv as [_ Ho Hn Ha _ _ _].
  split; [done|by rewrite So|by rewrite Sn|intros account; rewrite Sa; apply Ha|done|done|done].
Qed.

(** *** Reading *)

Lemma zdrop_app_tail o out t : 0 <= o -> zdrop o R = out ++ t -> zdrop (o + zlen out) R = t.
Proof.
  intros Ho H. rewrite <- zdrop_zdrop by (done || apply zlen_nonneg). by rewrite H, zdrop_app_eq.
Qed.

Lemma at_most_add o out t : at_most o -> zdrop o R = out ++ t -> o <= zlen R \/ out = [] ->
  at_most (o + zlen out) /\ i64 (o + zlen out) = o + zlen out.
Proof.
  intros [H0 Hmax] Hsplit Hcase. pose proof (zlen_nonneg out). pose proof (res_fits c R HR). pose proof (res_start c R HR).
  assert (at_most (o + zlen out)) as Ha.
  { split; [lia|]. destruct Hcase as [Hle| ->]; [|change (zlen []) with 0; lia].
    assert (zlen out <= zlen R - o); [|lia].
    apply (f_equal zlen) in Hsplit. rewrite zlen_app, zlen_zdrop in Hsplit. pose proof (zlen_nonneg t). lia. }
  split; [done|]. apply i64_id. destruct Ha. unfold in_i64, i64_min, i64_max in *. lia.
Qed.

Lemma short_of_end o out t : 0 <= o -> zdrop o R = out ++ t -> o <= zlen R \/ out = [].
Proof.
  intros Ho H. destruct (decide (o <= zlen R)); [by left|]. right. rewrite zdrop_all in H by lia.
  by destruct out.
Qed.

(** What the loop adds to the buffer. *)
Definition loop_post (h h' : ReOpen) (k : nat) (acc out : bytes) (e : option error) : Prop :=
  inv h' /\ h_newOffset h' = h_newOffset h /\ h_account h' = h_account h /\
  h_offset h' = h_offset h + zlen out /\ (exists t, zdrop (h_offset h) R = out ++ t) /\
  (length (acc ++ out) <= k)%nat /\
  match e with
  | None => length (acc ++ out) = k /\ h_err h' = None
  | Some EOF => out = zdrop (h_offset h) R /\ h_err h' = None
  | Some _ => h_err h' <> None
  end.

Lemma loop_post_step h h1 h' k acc out out' e t :
  zdrop (h_offset h) R = out ++ t -> 0 <= h_offset h ->
  h_offset h1 = h_offset h + zlen out -> h_newOffset h1 = h_newOffset h -> h_account h1 = h_account h ->
  loop_post h1 h' k (acc ++ out) out' e -> loop_post h h' k acc (out ++ out') e.
Proof.
  intros Ht H0 Ho Hn Ha (Hinv & Hn' & Ha' & Ho' & [t' Ht'] & Hlen & He).
  rewrite Ho in Ht', He. rewrite (zdrop_app_tail _ _ _ H0 Ht) in Ht'. rewrite <- app_assoc in Hlen, He.
  split_and!; [done|congruence|congruence|rewrite Ho', Ho, zlen_app; lia| |done|].
  - exists t'. by rewrite Ht, Ht', app_assoc.
  - destruct e as [e|]; [|done]. destruct e; try done. destruct He as [He ?]. split; [|done].
    by rewrite He, (zdrop_app_tail _ _ _ H0 Ht), Ht.
Qed.

(** The handle after one read of the stream. *)
Lemma set_stream_spec h rc k : inv h -> h_err h = None -> h_rc h = Some rc -> (0 < k)%nat ->
  let '(s, out, e) := s_Read (rc_stream rc) k in
  let h1 := set_stream h rc s (zlen out) in
  (exists t, zdrop (h_offset h) R = out ++ t) /\ (length out <= k)%nat /\
  h_offset h1 = h_offset h + zlen out /\ at_most (h_offset h1) /\ balanced h1 /\
  match e with
  | None => inv h1 /\ (measure h1 (k - length out) < measure h k)%nat
  | Some EOF => inv h1 /\ out = zdrop (h_offset h) R
  | Some _ => True
  end.
Proof.
  intros Hinv Hnone Hrc Hk. destruct (inv_live h Hinv Hnone) as (Hop & rc' & Hrc' & Hlive).
  rewrite Hrc in Hrc'. injection Hrc' as <-. destruct Hlive as [[t Ht] Heof].
  pose proof (s_Read_spec (rc_stream rc) k Hk) as Hread. destruct (s_Read (rc_stream rc) k) as [[s out] e].
  destruct Hread as (Hdata & Herr & Hlen & He). destruct (inv_offset h Hinv) as [H0 Hmax].
  rewrite Hdata, <- app_assoc in Ht.
  destruct (at_most_add (h_offset h) out (s_data s ++ t)) as [Ham Hi];
    [by apply (inv_offset h)|done|by apply (short_of_end _ _ _ H0 Ht)|].
  assert (h_offset (set_stream h rc s (zlen out)) = h_offset h + zlen out) as Hoff by done.
  assert (balanced (set_stream h rc s (zlen out))) as Hbal.
  { destruct (inv_balanced h Hinv) as [Hb _]. split; [exact Hb|done]. }
  assert (s_err s = EOF -> s_data s = zdrop (h_offset h + zlen out) R) as Heof'.
  { intros E. rewrite (zdrop_app_tail _ _ _ H0 Ht). rewrite Herr in E. specialize (Heof E).
    rewrite Hdata, Ht, app_inv_head_iff in Heof. by rewrite Heof at 1. }
  assert (inv (set_stream h rc s (zlen out))) as Hinv1.
  { destruct Hinv. split; try done; [by rewrite Hoff|]. intros _. split; [done|]. eexists. split; [done|].
    rewrite Hoff. split; [|done]. exists t. by rewrite (zdrop_app_tail _ _ _ H0 Ht). }
  split_and!; [by eexists|done|done|by rewrite Hoff|done|].
  destruct e as [e|].
  - destruct He as [-> Hnil]. destruct (s_err (rc_stream rc)) eqn:E; try done. split; [done|].
    specialize (Heof eq_refl). rewrite <- Heof, Hdata, Hnil. by rewrite app_nil_r.
  - split; [done|]. unfold measure, future. cbn [h_rc set_stream h_answers rc_stream]. rewrite Hrc. lia.
Qed.

Lemma Read_loop_spec fuel h k acc : inv h -> h_err h = None -> (length acc <= k)%nat ->
  (measure h (k - length acc) < fuel)%nat ->
  exists h' out e, Read_loop c fuel h k acc = Ret (h', acc ++ out, e) /\ loop_post h h' k acc out e.
Proof.
  revert h acc. induction fuel as [|fuel IH]; intros h acc Hinv Hnone Hacc Hfuel; [lia|]. cbn [Read_loop].
  destruct (length acc <? k)%nat eqn:Elt; breflect.
  2:{ exists h, [], None. rewrite app_nil_r. split; [done|]. split_and!; try done; rewrite ?app_nil_r;
        [change (zlen []) with 0; lia|by eexists|lia|lia]. }
  destruct (inv_live h Hinv Hnone) as (Hop & rc & Hrc & _). rewrite Hrc. cbn [deref obind].
  pose proof (set_stream_spec h rc (k - length acc) Hinv Hnone Hrc ltac:(lia)) as Hstep.
  destruct (s_Read (rc_stream rc) (k - length acc)) as [[s out] e]. destruct Hstep as ([t Ht] & Hlen & Hoff & Ham & Hbal & He).
  set (h1 := set_stream h rc s (zlen out)) in *. destruct (inv_offset h Hinv) as [H0 _].
  assert (forall h2, (length (acc ++ out) <= k)%nat -> inv h2 -> h_err h2 = None ->
    same_place h1 h2 -> (measure h2 (k - length (acc ++ out)) < fuel)%nat ->
    exists h' out' e, Read_loop c fuel h2 k (acc ++ out) = Ret (h', acc ++ out', e) /\ loop_post h h' k acc out' e) as Hgo.
  { intros h2 Hl Hinv2 Hnone2 (So & Sn & Sa & _) Hm. destruct (IH h2 (acc ++ out)) as (h' & out' & e' & -> & Hpost); [done..|].
    exists h', (out ++ out'), e'. rewrite <- app_assoc. split; [done|].
    apply (loop_post_step h h2 h' k acc out out' e' t); try done; congruence. }
  destruct e as [e|].
  2:{ destruct He as [Hinv1 Hm]. apply Hgo; try done; [rewrite length_app; lia|].
      rewrite length_app. replace (k - (length acc + length out))%nat with (k - length acc - length out)%nat by lia. lia. }
  assert (forall h2 e2, inv h2 -> same_place h1 h2 -> h_err h2 <> None -> e2 <> EOF ->
    exists h' out' e, Ret (h2, acc ++ out, Some e2) = Ret (h', acc ++ out', e) /\ loop_post h h' k acc out' e) as Hstop.
  { intros h2 e2 Hinv2 (So & Sn & Sa & _) Herr2 Hne. exists h2, out, (Some e2). split; [done|].
    split_and!; try done; [congruence|by eexists|rewrite length_app; lia|by destruct e2]. }
  destruct (decide (e = EOF)) as [->|Hne].
  { destruct He as [Hinv1 Hout]. exists h1, out, (Some EOF). split; [done|].
    split_and!; try done; [by eexists|rewrite length_app; lia]. }
  (* the stream broke *)
  set (h2 := set_err h1 (Some e)).
  assert (Forall (honest data) (h_answers h2)) as Hh2 by apply (inv_honest h Hinv).
  assert (inv h2) as Hinv2 by (destruct Hinv; split; try done; by intros [= ->]).
  pose proof (h_reopen_spec h2 Hh2 Ham Hbal) as Hre.
  assert (exists h' out' e', (if IsNoLowLevelRetryError e then Ret (h2, acc ++ out, Some e)
    else match h_reopen c h2 with
         | (h, None) => Read_loop c fuel h k (acc ++ out)
         | (h, Some _) => Ret (h, acc ++ out, Some e)
         end) = Ret (h', acc ++ out', e') /\ loop_post h h' k acc out' e') as Hdone; [|by destruct e].
  destruct (IsNoLowLevelRetryError e); [by apply Hstop|].
  destruct (h_reopen c h2) as [h3 r]. destruct Hre as (Hsame & Hh3 & _ & Hbal3 & Herr3 & Hr).
  destruct r as [e3|].
  - apply Hstop; [|done|congruence|done]. apply (inv_reopened h2 h3); try done; congruence.
  - destruct Hr as (Hop3 & rc3 & Hrc3 & Hlive3 & Hm3). apply Hgo; [rewrite length_app; lia| |done|done|].
    + apply (inv_reopened h2 h3); try done; [congruence|]. intros _. split; [done|]. by exists rc3.
    + specialize (Hm3 (k - length (acc ++ out))%nat).
      unfold measure in Hfuel. rewrite Hrc in Hfuel. change (future h2) with (future h) in Hm3.
      assert (1 <= calls (rc_stream rc) (k - length acc))%nat; [|lia].
      unfold calls. repeat case_decide; lia.
Qed.

(** Where the next byte is read from. *)
Definition pos (h : ReOpen) : Z := if h_newOffset h >=? 0 then h_newOffset h else h_offset h.

(** What a read at [p] with a buffer of [k] bytes may give: the next bytes of
    [R], a full buffer unless there is an error, and EOF only behind the last
    byte. *)
Definition read_ok (p k : Z) (out : bytes) (e : option error) : Prop :=
  (exists t, zdrop p R = out ++ t) /\ zlen out <= k /\
  match e with
  | None => zlen out = k
  | Some EOF => out = zdrop p R
  | Some _ => True
  end.

Lemma read_ok_failed p k e : 0 <= k -> e <> EOF -> read_ok p k [] (Some e).
Proof. intros Hk He. split_and!; [by eexists|done|by destruct e]. Qed.

Lemma pos_settled h : h_newOffset h = -1 -> pos h = h_offset h.
Proof. unfold pos. by intros ->. Qed.

Lemma fuel_enough h k : (measure h k < loop_fuel h)%nat.
Proof.
  unfold measure, loop_fuel, future, calls. destruct (h_rc h); repeat case_decide; lia.
Qed.

(** The part of [Read] after the seek. *)
Lemma Read_rest h k : inv h -> h_err h = None -> h_newOffset h = -1 -> 0 <= k ->
  exists h' out e,
    (let! (h', out, err) := Read_loop c (loop_fuel h) h (Z.to_nat k) [] in
     let h' := if (h_offset h =? 0) && negb (zlen out =? 0) then set_reads h' (h_reads h' + 1) else h' in
     Ret (h', out, match err with None => accountRead h' (zlen out) | Some e => Some e end)) = Ret (h', out, e) /\
    inv h' /\ h_newOffset h' = -1 /\ h_offset h' = h_offset h + zlen out /\ read_ok (h_offset h) k out e.
Proof.
  intros Hinv Hnone Hnew Hk.
  destruct (Read_loop_spec (loop_fuel h) h (Z.to_nat k) [] Hinv Hnone) as (h' & out & e & -> & Hpost);
    [cbn; lia|apply fuel_enough|]. destruct Hpost as (Hinv' & Hn' & Ha' & Ho' & Ht & Hlen & He).
  cbn [obind app] in *. set (h2 := if _ && _ then _ else _).
  assert (inv h2 /\ h_newOffset h2 = -1 /\ h_offset h2 = h_offset h' /\ h_account h2 = h_account h') as (Hinv2 & Hn2 & Ho2 & Ha2).
  { unfold h2. destruct (_ && _); [|split_and!; congruence]. split_and!; [destruct Hinv'; by split|cbn; congruence|done|done]. }
  exists h2, out, (match e with None => accountRead h2 (zlen out) | Some e => Some e end).
  split; [reflexivity|]. split_and!; [done|done|congruence|]. split_and!; [done|unfold zlen; lia|].
  destruct e as [e|]; [destruct e; [by destruct He|done..]|]. destruct He as [He _].
  assert (zlen out = k) as Hout by (unfold zlen; lia). unfold accountRead.
  destruct (h_account h2) as [account|] eqn:Ea; [|done]. case_if; [|done].
  pose proof (inv_account h2 Hinv2 account Ea (zlen out)). destruct (account (zlen out)) as [[]|]; done.
Qed.

Lemma Read_spec h k : inv h -> 0 <= k -> exists h' out e,
  Read c h k = Ret (h', out, e) /\ inv h' /\ pos h' = pos h + zlen out /\ read_ok (pos h) k out e.
Proof.
  intros Hinv Hk. unfold Read. pose proof (inv_err h Hinv) as Hneof.
  assert (forall h' e, inv h' -> pos h' = pos h -> e <> EOF -> exists h1 out e1,
    Ret (h', [], Some e) = Ret (h1, out, e1) /\ inv h1 /\ pos h1 = pos h + zlen out /\ read_ok (pos h) k out e1) as Hfail.
  { intros h' e Hinv' Hp He. exists h', [], (Some e). split_and!; [done|done|change (zlen []) with 0; lia|].
    by apply read_ok_failed. }
  destruct (h_err h) as [e0|] eqn:Herr; [by apply Hfail; [done|done|congruence]|].
  (* nothing to seek, or where the handle is already *)
  assert (forall h1, inv h1 -> h_err h1 = None -> h_newOffset h1 = -1 -> h_offset h1 = pos h ->
    exists h' out e,
    (let! (h', out, err) := Read_loop c (loop_fuel h1) h1 (Z.to_nat k) [] in
     let h' := if (h_offset h1 =? 0) && negb (zlen out =? 0) then set_reads h' (h_reads h' + 1) else h' in
     Ret (h', out, match err with None => accountRead h' (zlen out) | Some e => Some e end)) = Ret (h', out, e) /\
    inv h' /\ pos h' = pos h + zlen out /\ read_ok (pos h) k out e) as Hgo.
  { intros h1 Hinv1 Hnone1 Hnew1 Hoff1. destruct (Read_rest h1 k) as (h' & out & e & -> & Hinv' & Hn' & Ho' & Hok); [done..|].
    exists h', out, e. rewrite <- Hoff1. split_and!; [done|done|rewrite pos_settled by done; done|done]. }
  destruct (h_newOffset h >=? 0) eqn:En; breflect.
  2:{ apply Hgo; try done; [|unfold pos; by rewrite Z.geb_leb, (proj2 (Z.leb_gt 0 _))].
      destruct (inv_newOffset h Hinv) as [?|[? _]]; lia. }
  assert (pos h = h_newOffset h) as Hp by (unfold pos; by rewrite Z.geb_leb, (proj2 (Z.leb_le 0 _))).
  destruct (inv_newOffset h Hinv) as [?|Hnew]; [lia|].
  destruct (h_offset h =? h_newOffset h) eqn:Eq; cbn [negb]; breflect.
  { apply Hgo; try done; [|by cbn; congruence]. destruct Hinv. split; try done. by left. }
  set (h1 := set_offset h (h_newOffset h) (h_newOffset h)).
  pose proof (h_reopen_spec h1 (inv_honest h Hinv) Hnew (inv_balanced h Hinv)) as Hre.
  destruct (h_reopen c h1) as [h2 r]. destruct Hre as ((So & Sn & Sa & _) & Hh2 & _ & Hbal2 & Herr2 & Hr).
  cbn [h1 set_offset h_offset h_newOffset h_account] in So, Sn, Sa.
  assert (forall account, h_account h2 = Some account -> forall n, account n <> Some EOF) as Ha2
    by (rewrite Sa; apply (inv_account h Hinv)).
  destruct r as [e|].
  - apply Hfail; [|rewrite Hp; unfold pos; rewrite Sn, So; by destruct (_ >=? _)|done].
    split; try done; [by rewrite So|rewrite Sn; by right|congruence|congruence].
  - destruct Hr as (Hop2 & rc2 & Hrc2 & Hlive2 & _). apply Hgo; try done; [|cbn; congruence].
    split; try done; [cbn; by rewrite So|by left|cbn; congruence|]. intros _. split; [done|]. by exists rc2.
Qed.

(** *** Seeking and closing *)

Lemma Seek_to_spec h abs : inv h -> 0 <= c_size c -> c_start c <= c_end c <= i64_max ->
  let '(h', a, e) := Seek_to c h abs in
  inv h' /\ match e with
            | None => pos h' = abs /\ a = abs /\ 0 <= abs <= c_end c - c_start c
            | Some _ => h' = h /\ (abs < 0 \/ c_end c - c_start c < abs)
            end.
Proof.
  intros Hinv Hsize [Hend Hmax]. unfold Seek_to. pose proof (res_start c R HR).
  rewrite i64_id by (unfold in_i64, i64_min, i64_max in *; lia).
  destruct (abs <? 0) eqn:E0; breflect; [by auto|].
  rewrite Z.geb_leb, (proj2 (Z.leb_le 0 (c_size c))) by done. cbn [andb].
  destruct (abs >? _) eqn:E1; breflect; [by auto|]. split.
  - destruct Hinv. split; try done. right. split; cbn; lia.
  - split; [|lia]. unfold pos. cbn. by rewrite Z.geb_leb, (proj2 (Z.leb_le 0 abs)).
Qed.

(** The position that a seek asks for. *)
Definition seek_target (p size offset whence : Z) : option Z :=
  if whence =? 0 then Some offset
  else if whence =? 1 then Some (p + offset)
  else if whence =? 2 then Some (size + offset) else None.

Lemma Seek_spec h offset whence : inv h -> 0 <= c_size c -> c_start c <= c_end c <= i64_max ->
  in_i64 offset -> in_i64 (pos h + offset) -> in_i64 (c_end c - c_start c + offset) ->
  let '(h', abs, e) := Seek c h offset whence in
  inv h' /\
  match e with
  | None => seek_target (pos h) (c_end c - c_start c) offset whence = Some abs /\ pos h' = abs /\
            0 <= abs <= c_end c - c_start c
  | Some _ => h' = h
  end.
Proof.
  intros Hinv Hsize Hend H0 H1 H2. unfold Seek, seek_target. fold (pos h). destruct (h_err h); [done|].
  pose proof (res_start c R HR).
  rewrite (i64_id (c_end c - c_start c)) by (unfold in_i64, i64_min, i64_max in *; lia).
  rewrite (i64_id (pos h + offset)), (i64_id (c_end c - c_start c + offset)) by done.
  assert (forall abs, let '(h', a, e) := Seek_to c h abs in inv h' /\
    match e with
    | None => Some abs = Some a /\ pos h' = a /\ 0 <= a <= c_end c - c_start c
    | Some _ => h' = h
    end) as Hto.
  { intros abs. pose proof (Seek_to_spec h abs Hinv Hsize Hend) as Hs. destruct (Seek_to c h abs) as [[h' a] e].
    destruct Hs as [Hi He]. split; [done|]. destruct e; [by destruct He|]. destruct He as (? & -> & ?). done. }
  destruct (whence =? 0); [apply Hto|]. destruct (whence =? 1); [apply Hto|]. destruct (whence =? 2); [|done].
  rewrite (proj2 (Z.ltb_ge _ 0)) by done. apply Hto.
Qed.

Lemma Close_spec h : inv h -> exists h' e, Close h = Ret (h', e) /\ inv h' /\ pos h' = pos h /\
  h_opens h' = h_closes h'.
Proof.
  intros Hinv. unfold Close. destruct (inv_balanced h Hinv) as [Hb Hrc].
  destruct (h_opened h) eqn:Eo; cbn [negb].
  - destruct (h_rc h) as [rc|]; [|by destruct Hrc]. do 2 eexists. split; [done|]. split_and!; [|done|cbn; lia].
    destruct Hinv. split; try done. cbn. split; [cbn; lia|done].
  - exists h, (Some errFileClosed). split_and!; [done|done|done|lia].
Qed.

End correct.

(** ** The options of a new handle *)

(** A range with an absolute start within the data, or a seek there. *)
Definition plain_option (data : bytes) (o : OpenOption) : Prop :=
  match o with
  | RangeOption s e => good_range s e /\ 0 <= s <= zlen data /\ e < i64_max
  | SeekOption off => 0 <= off <= zlen data
  | _ => True
  end.

Lemma zdrop_ztake o l b : 0 <= o -> zdrop o (ztake l b) = ztake (l - o) (zdrop o b).
Proof. intros Ho. unfold zdrop, ztake. rewrite skipn_firstn_comm. f_equal. lia. Qed.

(** Start and limit after the loop over the options. *)
Definition filtered (data : bytes) (options : list OpenOption) (st : Z * Z * list OpenOption) : Prop :=
  let '(start, limit, _) := st in
  window start limit data = foldl (select_step data) data options /\ 0 <= start <= zlen data /\
  (limit = -1 \/ 0 <= limit /\ 1 <= start + limit <= i64_max).

Lemma filter_options data options : zlen data <= i64_max -> Forall (plain_option data) options ->
  filtered data options (foldl filter_option (0, -1, []) options).
Proof.
  intros Hlen. induction options as [|o options IH] using rev_ind.
  { intros _. cbn. pose proof (zlen_nonneg data). split_and!; [done|done|done|by left]. }
  intros [Hopts Ho]%Forall_app. inversion Ho as [|?? Ho' _]; subst. specialize (IH Hopts).
  unfold filtered in *. rewrite !foldl_app. cbn [foldl].
  destruct (foldl filter_option (0, -1, []) options) as [[start limit] opts]. destruct IH as (Hw & Hstart & Hlimit).
  destruct o as [s e|off| | | | |]; cbn [filter_option select_step]; try done; cbn [plain_option] in Ho'.
  - destruct Ho' as (Hgood & Hs & He). pose proof (Decode_window s e data Hgood Hlen) as Hd.
    assert (Decode s e 0 = Decode s e (zlen data)) as ->.
    { unfold Decode. by rewrite Z.geb_leb, (proj2 (Z.leb_le 0 s)) by lia. }
    destruct (Decode s e (zlen data)) as [off lim] eqn:E. cbn [fst snd] in Hd. split; [done|].
    unfold Decode in E. rewrite !Z.geb_leb, (proj2 (Z.leb_le 0 s)) in E by lia. injection E as <- <-.
    split; [done|]. destruct Hgood as (_ & _ & _ & Hback).
    destruct (0 <=? e) eqn:Ee; breflect; [right|by left].
    rewrite (i64_id (e - s)) by (unfold in_i64, i64_min, i64_max in *; lia).
    rewrite i64_id by (unfold in_i64, i64_min, i64_max in *; lia). lia.
  - split_and!; [done|lia|lia|by left].
Qed.

Lemma selected_snoc opts s e data : selected (opts ++ [RangeOption s e]) data = range_bytes s e data.
Proof. unfold selected. by rewrite foldl_app. Qed.

Lemma make_config_spec src maxTries options : o_Size src = zlen (o_data src) -> zlen (o_data src) <= i64_max ->
  Forall (plain_option (o_data src)) options ->
  let c := make_config src maxTries options in let R := selected options (o_data src) in
  resumes c R /\ c_src c = src /\ c_maxTries c = maxTries /\
  c_start c <= c_end c <= i64_max /\ zlen R <= c_end c - c_start c.
Proof.
  intros Hsize Hlen Hopts. pose proof (filter_options (o_data src) options Hlen Hopts) as Hf. unfold make_config.
  set (data := o_data src) in *. unfold filtered in Hf. pose proof (zlen_nonneg data) as Hnn.
  destruct (foldl filter_option (0, -1, []) options) as [[start limit] opts].
  destruct Hf as (Hw & Hstart & Hlimit). fold (selected options data) in Hw. rewrite <- Hw. cbv zeta.
  rewrite Hsize, (Z.geb_leb (zlen data)), (proj2 (Z.leb_le 0 (zlen data))) by done. rewrite andb_true_r.
  assert (start + zlen (window start limit data) <= zlen data) as Hfit
    by (unfold window; case_if; zlen).
  destruct Hlimit as [-> | [Hlimit Hend]].
  - change (-1 >=? 0) with false in *. cbn iota. split_and!; [|done|done|cbn [c_start c_end]; lia..].
    split; cbn [c_src c_baseOptions c_options c_start c_rangeEnd]; fold data; [done| |lia|lia].
    intros o Ho Hmax. rewrite selected_snoc, i64_id by (unfold in_i64, i64_min, i64_max in *; lia).
    unfold range_bytes, window. rewrite Z.geb_leb, (proj2 (Z.leb_le 0 (start + o))) by lia. change (-1 >=? 0) with false.
    cbn iota. by rewrite zdrop_zdrop by lia.
  - rewrite Z.geb_leb, (proj2 (Z.leb_le 0 limit)) by done.
    rewrite (i64_id (start + limit)), (i64_id (start + limit - 1)) by (unfold in_i64, i64_min, i64_max in *; lia).
    assert (window start limit data = ztake limit (zdrop start data)) as HR
      by (unfold window; by rewrite Z.geb_leb, (proj2 (Z.leb_le 0 limit)) by done).
    split_and!; [|done|done|cbn [c_start c_end]; lia..|cbn [c_start c_end]; rewrite HR; zlen].
    split; cbn [c_src c_baseOptions c_options c_start c_rangeEnd]; fold data; [done| |lia|lia].
    intros o Ho Hmax. rewrite selected_snoc, i64_id by (unfold in_i64, i64_min, i64_max in *; lia).
    rewrite HR, zdrop_ztake, zdrop_zdrop by lia. unfold range_bytes.
    rewrite !Z.geb_leb, (proj2 (Z.leb_le 0 (start + o))), (proj2 (Z.leb_le 0 (start + limit - 1))) by lia.
    f_equal. lia.
Qed.

(** ** Sequences of calls *)

Inductive op : Type :=
  | OpRead (k : Z)
  | OpSeek (offset whence : Z)
  | OpClose.

Inductive result : Type :=
  | Got (out : bytes) (e : option error)
  | Sought (abs : Z) (e : option error)
  | Closed (e : option error).

Definition run_op (c : config) (h : ReOpen) (o : op) : outcome (ReOpen * result) :=
  match o with
  | OpRead k => let! (h, out, e) := Read c h k in Ret (h, Got out e)
  | OpSeek offset whence => let '(h, abs, e) := Seek c h offset whence in Ret (h, Sought abs e)
  | OpClose => let! (h, e) := Close h in Ret (h, Closed e)
  end.

Fixpoint run_ops (c : config) (h : ReOpen) (ops : list op) : outcome (ReOpen * list result) :=
  match ops with
  | [] => Ret (h, [])
  | o :: ops => let! (h, r) := run_op c h o in let! (h, rs) := run_ops c h ops in Ret (h, r :: rs)
  end.

(** The results of a reader of the bytes [R], at the position [p], that may
    fail: reads give the bytes at the position and move it on, seeks move it
    within [size]. *)
Fixpoint accepted (R : bytes) (size p : Z) (ops : list op) (rs : list result) : Prop :=
  match ops, rs with
  | [], [] => True
  | OpRead k :: ops, Got out e :: rs => read_ok R p k out e /\ accepted R size (p + zlen out) ops rs
  | OpSeek offset whence :: ops, Sought abs None :: rs =>
      seek_target p size offset whence = Some abs /\ 0 <= abs <= size /\ accepted R size abs ops rs
  | OpSeek _ _ :: ops, Sought _ (Some _) :: rs => accepted R size p ops rs
  | OpClose :: ops, Closed _ :: rs => accepted R size p ops rs
  | _, _ => False
  end.

Definition op_ok (o : op) : Prop :=
  match o with
  | OpRead k => 0 <= k
  | OpSeek offset _ => - 2 ^ 62 <= offset < 2 ^ 62
  | OpClose => True
  end.

Section runs.
Variables (c : config) (R : bytes).
Hypotheses (HR : resumes c R) (Hsize : 0 <= c_size c) (Hend : c_start c <= c_end c < 2 ^ 62)
  (Hlen : zlen R <= c_end c - c_start c).

Lemma run_ops_accepted ops h : inv c R h -> 0 <= pos h <= c_end c - c_start c -> Forall op_ok ops ->
  exists h' rs, run_ops c h ops = Ret (h', rs) /\ inv c R h' /\
    accepted R (c_end c - c_start c) (pos h) ops rs.
Proof.
  intros Hinv Hpos Hops. revert h Hinv Hpos. induction Hops as [|o ops Ho _ IH]; intros h Hinv Hpos.
  { by exists h, []. }
  pose proof (res_start c R HR). cbn [run_ops].
  destruct o as [k|offset whence|]; cbn [run_op op_ok] in *.
  - destruct (Read_spec c R HR h k Hinv Ho) as (h1 & out & e & -> & Hinv1 & Hp1 & Hok). cbn [obind].
    destruct (IH h1) as (h' & rs & -> & Hinv' & Hacc); [done| |].
    { rewrite Hp1. destruct Hok as [[t Ht] _]. apply (f_equal zlen) in Ht. rewrite zlen_app, zlen_zdrop in Ht.
      pose proof (zlen_nonneg out). pose proof (zlen_nonneg t). lia. }
    cbn [obind]. exists h', (Got out e :: rs). split_and!; [done|done|]. cbn [accepted]. split; [done|by rewrite <- Hp1].
  - pose proof (Seek_spec c R HR h offset whence Hinv Hsize) as Hs.
    destruct (Seek c h offset whence) as [[h1 abs] e].
    destruct Hs as [Hinv1 He]; [unfold i64_max; lia|unfold in_i64, i64_min, i64_max; lia..|]. cbn [obind].
    destruct e as [e|].
    + subst h1. destruct (IH h Hinv Hpos) as (h' & rs & -> & Hinv' & Hacc). cbn [obind].
      by exists h', (Sought abs (Some e) :: rs).
    + destruct He as (Ht & Hp1 & Habs). destruct (IH h1 Hinv1) as (h' & rs & -> & Hinv' & Hacc); [lia|]. cbn [obind].
      exists h', (Sought abs None :: rs). rewrite Hp1 in Hacc. split_and!; [done|done|]. cbn [accepted]. done.
  - destruct (Close_spec c R h Hinv) as (h1 & e & -> & Hinv1 & Hp1 & _). cbn [obind].
    destruct (IH h1 Hinv1) as (h' & rs & -> & Hinv' & Hacc); [by rewrite Hp1|]. cbn [obind].
    exists h', (Closed e :: rs). rewrite Hp1 in Hacc. done.
Qed.

End runs.

Lemma NewReOpen_spec src answers maxTries options c h : o_Size src = zlen (o_data src) ->
  zlen (o_data src) <= i64_max -> Forall (plain_option (o_data src)) options ->
  Forall (honest (o_data src)) answers -> NewReOpen src answers maxTries options = inr (c, h) ->
  c = make_config src maxTries options /\ inv c (selected options (o_data src)) h /\ pos h = 0 /\
  h_account h = None /\ h_newOffset h = -1 /\ h_err h = None /\ h_tries h = 1.
Proof.
  intros Hsize Hlen Hopts Hh. destruct (make_config_spec src maxTries options Hsize Hlen Hopts) as (HR & Hsrc & _ & Hend & _).
  unfold NewReOpen. set (c0 := make_config src maxTries options) in *. set (h0 := mkReOpen _ _ _ _ _ _ _ _ _ _ _ _).
  pose proof (res_start _ _ HR) as Hs.
  assert (at_most c0 0) as Ham by (split; [done|lia]).
  rewrite <- Hsrc in Hh. pose proof (h_open_spec c0 _ HR h0 Hh Ham eq_refl eq_refl) as Hopen.
  destruct (h_open c0 h0) as [h1 [e|]]; [done|].
  destruct Hopen as ((So & Sn & Sa & _) & Hh1 & Ht & Hbal & Herr & Hop & rc & Hrc & Hlive & _). intros [= <- <-].
  cbn in So, Sn, Sa, Ht. split_and!; try done; [|unfold pos; by rewrite Sn, So].
  split; try done; [by rewrite So|by left|by rewrite Sa|by rewrite Herr|]. intros _. split; [done|]. by exists rc.
Qed.

(** ** Enough tries *)

Definition retriable (e : error) : Prop := e <> EOF /\ IsNoLowLevelRetryError e = false.

(** The current stream, which ends with [e], or one of those that [left] more
    tries open ends with EOF, and the ones before it break in a way that may be
    retried. *)
Fixpoint will_finish (left : Z) (e : error) (answers : list answer) : Prop :=
  e = EOF \/
  (retriable e /\ 0 < left /\
   match answers with
   | AStream _ e' _ _ :: answers => will_finish (left - 1) e' answers
   | _ => False
   end).

Definition finishing (c : config) (h : ReOpen) : Prop :=
  exists rc, h_rc h = Some rc /\
    will_finish (c_maxTries c - h_tries h) (s_err (rc_stream rc)) (h_answers h).

Lemma will_finish_other left e answers : e <> EOF -> will_finish left e answers ->
  retriable e /\ 0 < left /\ exists cut e' sched ce answers',
    answers = AStream cut e' sched ce :: answers' /\ will_finish (left - 1) e' answers'.
Proof.
  intros He H. destruct answers as [|[|cut e' sched ce] answers'];
    (destruct H as [->|(Hr & Hl & H)]; [done|]); [done|done|]. split_and!; [done|done|]. by eexists _, _, _, _, _.
Qed.

Lemma finishing_reopen c h rc : h_rc h = Some rc -> s_err (rc_stream rc) <> EOF -> finishing c h ->
  forall h1, h_tries h1 = h_tries h -> h_answers h1 = h_answers h ->
  exists h2, h_reopen c h1 = (h2, None) /\ finishing c h2 /\ h_account h2 = h_account h1 /\ h_err h2 = None.
Proof.
  intros Hrc He (rc' & Hrc' & Hf) h1 Ht Ha. rewrite Hrc in Hrc'. injection Hrc' as <-.
  destruct (will_finish_other _ _ _ He Hf) as (_ & Hleft & cut & e' & sched & ce & answers & Ea & Hf').
  unfold h_reopen. set (h1' := if h_opened h1 then _ else _).
  assert (h_tries h1' = h_tries h /\ h_answers h1' = h_answers h /\ h_account h1' = h_account h1) as (Ht' & Ha' & Hacc)
    by (unfold h1'; by destruct (h_opened h1)).
  unfold h_open. rewrite Z.gtb_ltb, (proj2 (Z.ltb_ge _ _)) by lia. rewrite Ha', Ea. cbn [o_Open].
  eexists. split; [done|]. split_and!; [|done|done]. eexists. split; [done|]. cbn.
  replace (c_maxTries c - (h_tries h1' + 1)) with (c_maxTries c - h_tries h - 1) by lia. done.
Qed.

(** With a stream to come that ends, the loop meets no error but EOF. *)
Lemma Read_loop_finishes c fuel h k acc h' out e : h_err h = None -> finishing c h ->
  Read_loop c fuel h k acc = Ret (h', out, e) ->
  (e = None \/ e = Some EOF) /\ h_err h' = None /\ finishing c h' /\ h_account h' = h_account h.
Proof.
  revert h acc. induction fuel as [|fuel IH]; intros h acc Hnone Hf; cbn [Read_loop].
  { intros [= <- <- <-]. auto. }
  destruct (length acc <? k)%nat eqn:El; breflect; [|intros [= <- <- <-]; auto].
  destruct Hf as (rc & Hrc & Hf). rewrite Hrc. cbn [deref obind].
  pose proof (s_Read_spec (rc_stream rc) (k - length acc) ltac:(lia)) as Hread.
  destruct (s_Read (rc_stream rc) (k - length acc)) as [[s o] er]. destruct Hread as (_ & Herr & _ & He).
  set (h1 := set_stream h rc s (zlen o)).
  assert (finishing c h1) as Hf1 by (eexists; split; [done|]; cbn; by rewrite Herr).
  destruct er as [er|]; [|by intros H; apply IH in H].
  destruct He as [-> _]. destruct (decide (s_err (rc_stream rc) = EOF)) as [Ee|Ee].
  { rewrite Ee. intros [= <- <- <-]. auto. }
  destruct (will_finish_other _ _ _ Ee Hf) as ([_ Hretry] & _).
  destruct (finishing_reopen c h rc Hrc Ee (ex_intro _ rc (conj Hrc Hf)) (set_err h1 (Some (s_err (rc_stream rc)))) eq_refl eq_refl)
    as (h2 & Hre & Hf2 & Ha2 & He2).
  rewrite Hretry, Hre. intros H.
  assert (Read_loop c fuel h2 k (acc ++ o) = Ret (h', out, e)) as H' by (by destruct (s_err (rc_stream rc))).
  apply IH in H' as (? & ? & ? & Hacc); [|done|done].
  split_and!; [done|done|done|by rewrite Hacc, Ha2].
Qed.

(** A handle that is just reading and will finish. *)
Definition f_inv (c : config) (R : bytes) (h : ReOpen) : Prop :=
  inv c R h /\ h_err h = None /\ h_newOffset h = -1 /\ h_account h = None /\ finishing c h.

#[export] Instance finishing_Reads c R (HR : resumes c R) :
  Reads (Read c) (f_inv c R) (fun h => (zdrop (h_offset h) R, EOF)).
Proof.
  intros h k (Hinv & Hnone & Hnew & Hacc & Hf) Hk.
  destruct (Read_rest c R HR h k Hinv Hnone Hnew ltac:(lia)) as (h' & out & e & Hr & Hinv' & Hnew' & Ho' & Hok).
  exists h', out, e.
  assert (Read c h k = Ret (h', out, e)) as HRead by (unfold Read; rewrite Hnone, Hnew; exact Hr).
  destruct (Read_loop c (loop_fuel h) h (Z.to_nat k) []) as [[[h1 out1] e1]|] eqn:El; [|done].
  destruct (Read_loop_finishes c (loop_fuel h) h (Z.to_nat k) [] h1 out1 e1 Hnone Hf El) as (He1 & Hn1 & Hf1 & Ha1).
  cbn [obind] in Hr. set (h2 := if _ && _ then _ else h1) in Hr.
  assert (h_account h2 = None /\ h_err h2 = None /\ finishing c h2) as (Ha2 & Hn2 & Hf2).
  { unfold h2. destruct (_ && _); [|split_and!; congruence]. split_and!; [cbn; congruence|done|exact Hf1]. }
  injection Hr as <- <- He. unfold accountRead in He. rewrite Ha2 in He.
  split; [done|]. split; [done|]. destruct Hok as ([t Ht] & _ & Hend). destruct (inv_offset c R h Hinv) as [H0 _].
  assert (e = e1) as -> by (by destruct e1). destruct He1 as [-> | ->].
  - split; [intros Hout; rewrite Hout in Hend; change (zlen []) with 0 in Hend; lia|]. cbn [fst snd]. rewrite Ho', (zdrop_app_tail R _ _ _ H0 Ht). by rewrite Ht.
  - by rewrite Hend at 1.
Qed.

(** ** Properties *)



(** A reopening reader gets through: if one of the streams that its tries
    can open ends properly and those before it break in a way that may be
    retried, then opening succeeds and reading to the end, with buffers of any
    size, delivers all the bytes that the options ask for and then EOF. *)
Theorem reopen_completes src cut e sched ce answers maxTries options sizes :
  o_Size src = zlen (o_data src) -> zlen (o_data src) <= i64_max ->
  Forall (plain_option (o_data src)) options ->
  Forall (honest (o_data src)) (AStream cut e sched ce :: answers) ->
  1 <= maxTries -> will_finish (maxTries - 1) e answers ->
  Forall (fun k => 0 < k) sizes -> zlen (o_data src) < Z.of_nat (length sizes) ->
  exists c h h', NewReOpen src (AStream cut e sched ce :: answers) maxTries options = inr (c, h) /\
    drain (Read c) sizes h = Ret (h', selected options (o_data src), Some EOF).
Proof.
  intros Hsize Hmax Hopts Hh Htries Hf Hsizes Hlen.
  destruct (make_config_spec src maxTries options Hsize Hmax Hopts) as (HR & Hsrc & Hm & _ & HlenR).
  destruct (NewReOpen src (AStream cut e sched ce :: answers) maxTries options) as [e'|[c h]] eqn:Hnew.
  { exfalso. revert Hnew. unfold NewReOpen, h_open. cbn [h_offset h_tries h_answers h_opens].
    rewrite Hm, Z.gtb_ltb, (proj2 (Z.ltb_ge _ _)) by lia. done. }
  destruct (NewReOpen_spec _ _ _ _ c h Hsize Hmax Hopts Hh Hnew) as (-> & Hinv & Hpos & Hacc & Hnewo & Hnone & Ht).
  rewrite pos_settled in Hpos by done. set (c := make_config src maxTries options) in *.
  assert (finishing c h) as Hfin.
  { revert Hnew. unfold NewReOpen, h_open. fold c. cbn [h_offset h_tries h_answers h_opens].
    rewrite Hm, Z.gtb_ltb, (proj2 (Z.ltb_ge _ _)) by lia. cbn [o_Open]. intros [= <-].
    eexists. split; [done|]. cbn. rewrite Hm. done. }
  pose proof (finishing_Reads c _ HR) as Hreads.
  destruct (drain_spec (Read c) (f_inv c (selected options (o_data src)))
    (fun h => (zdrop (h_offset h) (selected options (o_data src)), EOF)) sizes h) as (h' & Hd & _); [done|done| |].
  - cbn [fst]. rewrite Hpos, zdrop_0. pose proof (range_shorter c _ HR) as Hs. rewrite Hsrc in Hs. unfold zlen in *. lia.
  - exists c, h, h'. split; [done|]. cbn [fst snd] in Hd. by rewrite Hpos, zdrop_0 in Hd.
Qed.

Lemma reopen_completes_witness :
  exists c h h', NewReOpen (mkObject 5 [1; 2; 3; 4; 5])
      [AStream 2 (ErrOther 1 false) [] None; AStream 0 (ErrOther 1 false) [] None; AStream 9 EOF [] None] 3
      [SeekOption 1] = inr (c, h) /\
    drain (Read c) [1; 2; 2; 1; 1; 1] h = Ret (h', [2; 3; 4; 5], Some EOF).
Proof.
  apply (reopen_completes (mkObject 5 [1; 2; 3; 4; 5]) 2 (ErrOther 1 false) [] None
    [AStream 0 (ErrOther 1 false) [] None; AStream 9 EOF [] None] 3 [SeekOption 1]).
  - reflexivity.
  - vm_compute. discriminate.
  - repeat constructor; vm_compute; discriminate.
  - repeat constructor; cbn; lia.
  - lia.
  - right. split; [by split|]. split; [lia|]. right. split; [by split|]. split; [lia|]. by left.
  - repeat constructor; lia.
  - vm_compute. reflexivity.
Defined.

(** Two kinds of handles that do corrupt.  A range that counts from the end
    is not resumed where it was: [NewReOpen] passes 0 as the size to [Decode],
    so after a failure the bytes come from the start of the object.  And on an
    object of unknown size the end of a range is forgotten when the object is
    opened again, so bytes behind the range are delivered. *)
Theorem reopen_corrupts :
  let data := [10; 11; 12; 13; 14; 15; 16; 17; 18; 19] in
  let answers := [AStream 1 (ErrOther 1 false) [] None; AStream 99 EOF [] None] in
  let read src options :=
    match NewReOpen src answers 10 options with
    | inr (c, h) => match drain (Read c) [20; 20] h with Ret (_, out, e) => Some (out, e) | Panic => None end
    | inl _ => None
    end in
  (selected [RangeOption (-1) 3] data = [17; 18; 19] /\
   read (mkObject 10 data) [RangeOption (-1) 3] = Some ([17; 11; 12; 13; 14; 15; 16; 17; 18; 19], Some EOF)) /\
  (selected [RangeOption 2 4] data = [12; 13; 14] /\
   read (mkObject (-1) data) [RangeOption 2 4] = Some ([12; 13; 14; 15; 16; 17; 18; 19], Some EOF)).
Proof. vm_compute. done. Qed.

End ReOpen.
