(* ===== verification/FsErrors.v ===== *)
(** * Errors and their classes: fs/fserrors/error.go, lib/errors/errors.go

    An error is a message, a message around other errors, or one of the
    wrappers of [fserrors] that mark an error as fatal, to be retried, not to be
    retried, or counted already.  The classes are found by walking down the
    chain of wrapped errors. *)
From S2P Require Import Prelude GoPath.

Module FsErrors.
Import GoPath.

(** The wrappers: [fmt.Errorf] with %w, and those of [fserrors] and [pacer].  A
    retrier says whether it is to be retried. *)
Inductive wrapper : Type :=
  | WMsg (msg : string)
  | WRetry (retry : bool)
  | WFatal (fatal : bool)
  | WNoRetry (noRetry : bool)
  | WNoLowLevelRetry (noRetry : bool)
  | WRetryAfter
  | WCounted.

(** [New]: [errors.New], also the variables that hold such an error.
    [Errorv]: [fmt.Errorf] with %v.  [Join]: several errors wrapped by one.
    [Foreign]: an error of a backend or of a library: its text, whether its
    methods [Timeout] or [Temporary] say yes, and which one it is. *)
Inductive error : Type :=
  | New (msg : string)
  | Errorv (msg : string) (e : error)
  | Wrap (w : wrapper) (e : error)
  | Join (es : list error)
  | Foreign (text : string) (timeout temporary : bool) (id : nat).

Definition RetryError (e : error) : error := Wrap (WRetry true) e.
Definition FatalError (e : error) : error := Wrap (WFatal true) e.
Definition NoRetryError (e : error) : error := Wrap (WNoRetry true) e.
Definition NoLowLevelRetryError (e : error) : error := Wrap (WNoLowLevelRetry true) e.
Definition FsError (e : error) : error := Wrap WCounted e.

(** Errors that fs and fs/hash keep in variables, by their texts. *)
Definition ErrorCantCopy : string := "can't copy object - incompatible remotes".
Definition ErrorCantMove : string := "can't move object - incompatible remotes".
Definition ErrorObjectNotFound : string := "object not found".
Definition ErrorCantSetModTime : string := "can't set modified time".
Definition ErrorCantSetModTimeWithoutDelete : string := "can't set modified time without deleting existing object".
Definition ErrorRangeIgnored : string := "server ignored requested range".
Definition ErrUnsupported : string := "hash type not supported".

(** The text of an error. *)
Fixpoint Error (e : error) : string :=
  match e with
  | New msg => msg
  | Errorv msg e => msg +:+ Error e
  | Wrap (WMsg msg) e => msg +:+ Error e
  | Wrap _ e => Error e
  | Join es => join_with (String "010" EmptyString) (map Error es)
  | Foreign text _ _ _ => text
  end.

(** ** Walking the chain: [Walk]

    The callback sees one error after the other, from the outside in, until it
    says to stop.  Where several errors are wrapped each of them is walked on
    its own, and stopping one of these walks does not stop the others. *)
Section walk.
Context {S : Type} (f : error -> S -> S * bool).

Fixpoint Walk (e : error) (s : S) : S :=
  let '(s, stop) := f e s in
  if stop then s
  else match e with
       | Wrap _ e => Walk e s
       | Join es => (fix each (es : list error) (s : S) : S :=
                       match es with [] => s | e :: es => each es (Walk e s) end) es s
       | New _ | Errorv _ _ | Foreign _ _ _ _ => s
       end.
End walk.

(** A callback that looks for the first wrapper of a kind and keeps what it says. *)
Definition first_of (says : wrapper -> option bool) (e : error) (s : bool) : bool * bool :=
  match e with
  | Wrap w _ => match says w with Some b => (b, true) | None => (s, false) end
  | _ => (s, false)
  end.

Definition class (says : wrapper -> option bool) (e : error) : bool := Walk (first_of says) e false.

Definition IsRetryError : error -> bool := class (fun w => match w with WRetry b => Some b | _ => None end).
Definition IsFatalError : error -> bool := class (fun w => match w with WFatal b => Some b | _ => None end).
Definition IsNoRetryError : error -> bool := class (fun w => match w with WNoRetry b => Some b | _ => None end).
Definition IsNoLowLevelRetryError : error -> bool :=
  class (fun w => match w with WNoLowLevelRetry b => Some b | _ => None end).
(** [pacer.IsRetryAfter], the time left out. *)
Definition IsRetryAfter : error -> bool := class (fun w => match w with WRetryAfter => Some true | _ => None end).

(** [Cause]: whether one of the chain is a timeout or temporary, and the last error visited. *)
Definition Cause (e : error) : bool * error :=
  Walk (fun c s => (match c with Foreign _ a b _ => (fst s || a || b, c) | _ => (fst s, c) end, false)) e (false, e).

(** [strings.Contains] *)
Fixpoint has_prefix (pre s : string) : bool :=
  match pre, s with
  | EmptyString, _ => true
  | String c pre, String d s => Ascii.eqb c d && has_prefix pre s
  | String _ _, EmptyString => false
  end.

Fixpoint contains (s sub : string) : bool :=
  has_prefix sub s || match s with EmptyString => false | String _ s => contains s sub end.

Definition retriableErrorStrings : list string :=
  [ "use of closed network connection"; "unexpected EOF reading trailer"; "transport connection broken";
    "http: ContentLength="; "server closed idle connection"; "bad record MAC"; "stream error:";
    "http2: server sent GOAWAY"; "tls: use of closed connection" ].

(** [retriableErrors], those of every system. *)
Definition retriableError (e : error) : bool :=
  match e with New msg => str_eqb msg "EOF" || str_eqb msg "unexpected EOF" | _ => false end.

Definition ShouldRetry (e : error) : bool :=
  if IsNoLowLevelRetryError e then false
  else let '(retriable, cause) := Cause e in
       retriable || retriableError cause || existsb (contains (Error cause)) retriableErrorStrings.

(** [errors.Is] for an error that is a variable: it is that error or wraps it. *)
Fixpoint Is (target : string) (e : error) : bool :=
  match e with
  | New msg => str_eqb msg target
  | Wrap _ e => Is target e
  | Join es => existsb (Is target) es
  | Errorv _ _ | Foreign _ _ _ _ => false
  end.

(** Comparison with [==]: no unwrapping. *)
Definition same (target : string) (e : error) : bool :=
  match e with New msg => str_eqb msg target | _ => false end.

(** [IsCounted]: of the outermost error only. *)
Definition IsCounted (e : error) : bool := match e with Wrap WCounted _ => true | _ => false end.

(** ** The classes under wrapping *)

Lemma class_msg says msg e : (forall m, says (WMsg m) = None) -> class says (Wrap (WMsg msg) e) = class says e.
Proof. intros H. unfold class. cbn [Walk first_of]. by rewrite H. Qed.

Lemma class_counted says e : says WCounted = None -> class says (FsError e) = class says e.
Proof. intros H. unfold class, FsError. cbn [Walk first_of]. by rewrite H. Qed.

(** The last error visited, and so [Cause], does not depend on where the walk began. *)
Lemma Cause_wrap w e : Cause (Wrap w e) = Cause e.
Proof. unfold Cause. cbn [Walk fst]. destruct e; reflexivity. Qed.

Lemma ShouldRetry_msg msg e : ShouldRetry (Wrap (WMsg msg) e) = ShouldRetry e.
Proof. unfold ShouldRetry, IsNoLowLevelRetryError. by rewrite class_msg, Cause_wrap. Qed.

Lemma ShouldRetry_counted e : ShouldRetry (FsError e) = ShouldRetry e.
Proof. unfold ShouldRetry, IsNoLowLevelRetryError. rewrite class_counted by done. unfold FsError. by rewrite Cause_wrap. Qed.

(** Adding context with %w or counting an error changes nothing of how it is treated. *)
Lemma classes_kept w e : (exists msg, w = WMsg msg) \/ w = WCounted ->
  IsRetryError (Wrap w e) = IsRetryError e /\ IsFatalError (Wrap w e) = IsFatalError e /\
  IsNoRetryError (Wrap w e) = IsNoRetryError e /\ IsRetryAfter (Wrap w e) = IsRetryAfter e /\
  ShouldRetry (Wrap w e) = ShouldRetry e.
Proof.
  intros [[msg ->] | ->].
  - unfold IsRetryError, IsFatalError, IsNoRetryError, IsRetryAfter. rewrite !class_msg by done. by rewrite ShouldRetry_msg.
  - fold (FsError e). unfold IsRetryError, IsFatalError, IsNoRetryError, IsRetryAfter.
    rewrite !class_counted by done. by rewrite ShouldRetry_counted.
Qed.

(** With %v the wrapping is lost: only the text is left to find out about a retry. *)
Example Errorv_loses :
  IsFatalError (Wrap (WMsg "a: ") (FatalError (New "b"))) = true /\
  IsFatalError (Errorv "a: " (FatalError (New "b"))) = false /\
  ShouldRetry (Errorv "read: " (Foreign "http2: server sent GOAWAY" false false 0)) = true /\
  ShouldRetry (Errorv "read: " (New "EOF")) = false.
Proof. vm_compute. done. Qed.

End FsErrors.
