(* ===== verification/Backend.v ===== *)
(** * File systems and the calls made to them

    What fs/operations works with: file systems with their features, objects,
    the configuration, and the calls to backends, to the user and to the stats.
    A program is a function on states that hold the trace of all calls made so
    far with their answers.  The answers are given by an arbitrary function of
    the trace and the call, so a theorem about a program holds whatever the
    backends do, and may speak about which calls are made, and in which order. *)
From S2P Require Import Prelude GoPath Hash FsErrors.

Module Backend.
Import GoPath FsErrors.

(** ** File systems and objects *)

(** [fs.Features]: optional functions are there or not. *)
Record Features : Type := mkFeatures {
  ft_Copy : bool;
  ft_Move : bool;
  ft_PutStream : bool;
  ft_OpenChunkWriter : bool;
  ft_OpenWriterAt : bool;
  ft_PartialUploads : bool;
  ft_ServerSideAcrossConfigs : bool;
  ft_CaseInsensitive : bool;
  ft_IsLocal : bool;
  ft_NoMultiThreading : bool;
  ft_SlowModTime : bool;
  ft_SlowHash : bool }.

(** [fs.Info]; [fs_type] is what %T prints. *)
Record Fs : Type := mkFs {
  fs_Name : string;
  fs_Root : string;
  fs_type : string;
  fs_Hashes : Z;
  fs_Precision : Z;
  fs_Features : Features }.

(** An [fs.Object]: [o_id] tells objects apart, the flags say whether it
    implements [fs.IDer] and [fs.SetMetadataer].  Its size and times may change
    with the calls made, and are asked for below. *)
Record object : Type := mkObject {
  o_Fs : Fs;
  o_Remote : string;
  o_id : nat;
  o_IDer : bool;
  o_SetMetadataer : bool }.

#[export] Instance Features_eq_dec : EqDecision Features.
Proof. solve_decision. Defined.
#[export] Instance Fs_eq_dec : EqDecision Fs.
Proof. solve_decision. Defined.
#[export] Instance object_eq_dec : EqDecision object.
Proof. solve_decision. Defined.

(** [ModTimeNotSupported]: a duration of 100 years. *)
Definition ModTimeNotSupported : Z := 100 * 365 * 24 * 3600 * 10 ^ 9.

Inductive CutoffMode : Type := CutoffModeHard | CutoffModeSoft | CutoffModeCautious.

(** The fields of [fs.ConfigInfo] that are used. *)
Record ConfigInfo : Type := mkConfig {
  DryRun : bool;
  Interactive : bool;
  IgnoreSize : bool;
  SizeOnly : bool;
  CheckSum : bool;
  IgnoreChecksum : bool;
  IgnoreTimes : bool;
  IgnoreExisting : bool;
  UpdateOlder : bool;
  NoUpdateModTime : bool;
  RefreshTimes : bool;
  Immutable : bool;
  NoCheckDest : bool;
  ModifyWindow : Z;
  Inplace : bool;
  PartialSuffix : string;
  MaxTransfer : Z;
  Cutoff : CutoffMode;
  ServerSideAcrossConfigs : bool;
  LowLevelRetries : nat;
  Metadata : bool;
  MultiThreadStreams : Z;
  MultiThreadCutoff : Z;
  MultiThreadSet : bool;
  BackupDir : string;
  Suffix : string;
  SuffixKeepExtension : bool;
  CompareDest : list string;
  CopyDest : list string;
  withEqualFn : bool }.   (* an EqualFn is in the context *)

(** The defaults: ten low level retries, a modify window of a nanosecond. *)
Definition default_config : ConfigInfo := {|
  DryRun := false; Interactive := false; IgnoreSize := false; SizeOnly := false; CheckSum := false; IgnoreChecksum := false;
  IgnoreTimes := false; IgnoreExisting := false; UpdateOlder := false; NoUpdateModTime := false; RefreshTimes := false;
  Immutable := false; NoCheckDest := false; ModifyWindow := 1; Inplace := false; PartialSuffix := ".partial";
  MaxTransfer := -1; Cutoff := CutoffModeHard; ServerSideAcrossConfigs := false; LowLevelRetries := 10; Metadata := false;
  MultiThreadStreams := 4; MultiThreadCutoff := 256 * 2 ^ 20; MultiThreadSet := false; BackupDir := ""; Suffix := "";
  SuffixKeepExtension := false; CompareDest := []; CopyDest := []; withEqualFn := false |}.

(** ** The calls

    A call is indexed by the type of its answer.  An object and an error are
    returned as a pair of pointers that may be nil, as in Go, where both may be
    there; [NewObject], [ServerCopy] and [ServerMove] give one of them. *)

Definition res : Type := option object * option error.

Inductive call : Type -> Type :=
  (* the user, the context, the stats and the scheduler *)
  | Ask (action : string) : call ascii
  | CtxErr : call (option error)
  | GetBytes (withPending : bool) : call Z
  | StatsDeleteFile (size : Z) : call (option error)
  | CountErr (e : error) : call unit
  | RandomString : call string
  | HashSrcFirst : call bool
  (* calls that look *)
  | NewObject (f : Fs) (remote : string) : call (error + object)
  | GetFs (path : string) : call (error + Fs)
  | HashOf (o : object) (ht : Z) : call (string * option error)
  | GetMetadata (o : object) : call (option error)
  | FilterIncludes (f : Fs) (dir : string) : call (bool * option error)
  | EqualFn (src : object) (dst : object) : call bool
  (* the stream that is copied *)
  | OpenSrc (o : object) : call (option error)
  | CloseSrc : call (option error)
  | ReadStart : call bool             (* io.ReadFull reached the end of the input *)
  | ReadAll : call (option error)     (* reads the rest, to nowhere *)
  | MakeSpool : call (option error)
  | FillSpool : call (option error)
  | Rewind : call (option error)
  | BytesRead : call Z
  | HasherSum (ht : Z) : call string
  (* calls that change the destination *)
  | ServerCopy (f : Fs) (src : object) (remote : string) : call (error + object)
  | Put (f : Fs) (remote : string) : call res
  | PutStream (f : Fs) (remote : string) : call res
  | Update (o : object) : call (option error)
  | OpenChunkWriter (f : Fs) (remote : string) : call (error + (Z * bool))  (* chunk size, LeavePartsOnError *)
  | OpenWriterAt (f : Fs) (remote : string) : call (option error)
  | WriteChunks (f : Fs) (remote : string) : call (option error)
  | CloseWriter (f : Fs) (remote : string) : call (option error)
  | AbortWriter (f : Fs) (remote : string) : call (option error)
  | SetMetadata (o : object) : call (option error)
  | SetModTime (o : object) (t : Z) : call (option error)
  | Remove (o : object) : call (option error)
  | ServerMove (f : Fs) (src : object) (remote : string) : call (error + object).

(** Which calls change something on a remote. *)
Definition mutates {A} (c : call A) : bool :=
  match c with
  | ServerCopy _ _ _ | Put _ _ | PutStream _ _ | Update _ | OpenChunkWriter _ _ | OpenWriterAt _ _
  | WriteChunks _ _ | CloseWriter _ _ | AbortWriter _ _ | SetMetadata _ | SetModTime _ _ | Remove _
  | ServerMove _ _ _ => true
  | _ => false
  end.

Inductive event : Type :=
  | Ev (A : Type) (c : call A) (a : A).
Arguments Ev {A} c a.

Definition trace : Type := list event.

(** The object that a call removes. *)
Definition ev_removed (e : event) : option object :=
  match e with Ev c _ => match c with Remove o => Some o | _ => None end end.

(** Everything that is not in fs/operations: what the calls answer, what the
    objects say, and the functions of the Unicode tables and of other packages. *)
Class Env := {
  answer : forall A, trace -> call A -> A;
  env_Size : trace -> object -> Z;
  env_ModTime : trace -> object -> Z;
  env_ID : trace -> object -> string;
  ToLower : string -> string;
  EqualFold : string -> string -> bool;
  NFC : string -> string;
  darwin : bool;
  TransformPath : string -> string;       (* transform.Path(ctx, remote, false) *)
  mimeKnown : string -> bool              (* mime.TypeByExtension(ext) != "" *)
}.

(** An environment for examples in which nothing fails and nothing is there;
    [sizes] and [times] are those of the objects. *)
Definition no_features : Features :=
  mkFeatures false false false false false false false false false false false false.

Definition default_answer {A} (c : call A) : A :=
  match c with
  | Ask _ => "y"%char
  | CtxErr => None
  | GetBytes _ => 0
  | StatsDeleteFile _ => None
  | CountErr _ => tt
  | RandomString => "aaaaaaaa"
  | HashSrcFirst => true
  | NewObject _ _ => inl (New ErrorObjectNotFound)
  | GetFs path => inr (mkFs path path path 1 1 no_features)
  | HashOf o _ => ("abc", None)
  | GetMetadata _ => None
  | FilterIncludes _ _ => (true, None)
  | EqualFn _ _ => false
  | OpenSrc _ => None
  | CloseSrc => None
  | ReadStart => true
  | ReadAll => None
  | MakeSpool => None
  | FillSpool => None
  | Rewind => None
  | BytesRead => 0
  | HasherSum _ => "abc"
  | ServerCopy f _ remote => inr (mkObject f remote 100 false false)
  | Put f remote => (Some (mkObject f remote 101 false false), None)
  | PutStream f remote => (Some (mkObject f remote 102 false false), None)
  | Update _ => None
  | OpenChunkWriter _ _ => inr (1, false)
  | OpenWriterAt _ _ => None
  | WriteChunks _ _ => None
  | CloseWriter _ _ => None
  | AbortWriter _ _ => None
  | SetMetadata _ => None
  | SetModTime _ _ => None
  | Remove _ => None
  | ServerMove f _ remote => inr (mkObject f remote 103 false false)
  end.

Definition example_env (size time : object -> Z) (ans : forall A, trace -> call A -> A) : Env := {|
  answer := ans;
  env_Size := fun _ => size;
  env_ModTime := fun _ => time;
  env_ID := fun _ o => "";
  ToLower := to_lower;
  EqualFold := fun a b => str_eqb (to_lower a) (to_lower b);
  NFC := fun s => s;
  darwin := false;
  TransformPath := fun s => s;
  mimeKnown := fun _ => false |}.

(** ** Programs *)

(** [skipped] of the package; [calls] is the trace. *)
Record st : Type := mkSt { calls : trace; skipped : gmap string bool }.

(** A call returns, panics, ends the process, or needs more fuel than given. *)
Inductive result (A : Type) : Type :=
  | Done (a : A)
  | Panicked
  | Exited
  | OutOfFuel.
Arguments Done {A} a.
Arguments Panicked {A}.
Arguments Exited {A}.
Arguments OutOfFuel {A}.

Definition M (A : Type) : Type := st -> st * result A.

#[export] Instance M_ret : MRet M := fun A a s => (s, Done a).

#[export] Instance M_bind : MBind M := fun A B k m s =>
  match m s with
  | (s, Done a) => k a s
  | (s, Panicked) => (s, Panicked)
  | (s, Exited) => (s, Exited)
  | (s, OutOfFuel) => (s, OutOfFuel)
  end.

Definition panic {A} : M A := fun s => (s, Panicked).
Definition exit {A} : M A := fun s => (s, Exited).
Definition out_of_fuel {A} : M A := fun s => (s, OutOfFuel).

(** Using a pointer that may be nil. *)
Definition ptr {A} (p : option A) : M A := match p with Some a => mret a | None => panic end.

Section programs.
Context {env : Env}.

Definition do_ {A} (c : call A) : M A := fun s =>
  let a := answer A (calls s) c in (mkSt (calls s ++ [Ev c a]) (skipped s), Done a).

Definition Size (o : object) : M Z := fun s => (s, Done (env_Size (calls s) o)).
Definition ModTime (o : object) : M Z := fun s => (s, Done (env_ModTime (calls s) o)).
Definition ID (o : object) : M string := fun s => (s, Done (env_ID (calls s) o)).

(** [fs.CountError], set by the accounting to [StatsInfo.Error]. *)
Definition CountError (e : error) : M error :=
  if IsCounted e then mret e
  else _ ← do_ (CountErr e); mret (FsError e).

(** [fserrors.ContextError]: whether the context is in error, and the error. *)
Definition ContextError (err : option error) : M (bool * option error) :=
  ctxErr ← do_ CtxErr;
  match ctxErr with
  | Some e => mret (true, match err with None => Some e | Some _ => err end)
  | None => mret (false, err)
  end.

Section config.
Context (ci : ConfigInfo).

(** ** Leave to destroy: [SkipDestructive] *)

Definition remember (action : string) (skip : bool) : M unit := fun s =>
  (mkSt (calls s) (<[action := skip]> (skipped s)), Done tt).

Definition skipDestructiveChoose (action : string) : M bool :=
  i ← do_ (Ask action);
  if Ascii.eqb i "y" then mret false
  else if Ascii.eqb i "n" then mret true
  else if Ascii.eqb i "s" then (_ ← remember action true; mret true)
  else if Ascii.eqb i "!" then (_ ← remember action false; mret false)
  else if Ascii.eqb i "q" then exit
  else mret true.

Definition known (action : string) : M (option bool) := fun s => (s, Done (skipped s !! action)).

Definition SkipDestructive (action : string) : M bool :=
  if DryRun ci then mret true
  else if Interactive ci then
    k ← known action;
    match k with Some skip => mret skip | None => skipDestructiveChoose action end
  else mret false.

(** [Retry]: up to [tries] times while the error is one to be retried. *)
Definition retriable (e : error) : bool := IsRetryError e || ShouldRetry e || IsRetryAfter e.

(** [fn] is called with what the closure captures and leaves it for the next call. *)
Fixpoint Retry {V} (tries : nat) (v : V) (fn : V -> M (V * option error)) : M (V * option error) :=
  match tries with
  | O => mret (v, None)
  | S tries' =>
      '(v, err) ← fn v;
      match err with
      | None => mret (v, None)
      | Some e =>
          '(stop, _) ← ContextError (Some e);
          if stop : bool then mret (v, Some e)
          else if retriable e then (if Nat.eqb tries' 0 then mret (v, Some e) else Retry tries' v fn)
          else mret (v, Some e)
      end
  end.
End config.

Lemma bind_ret {A B} (a : A) (k : A -> M B) : (mret a : M A) ≫= k = k a.
Proof. reflexivity. Qed.

Lemma SkipDestructive_dry ci action : DryRun ci = true -> SkipDestructive ci action = mret true.
Proof. intros H. unfold SkipDestructive. by rewrite H. Qed.

Lemma SkipDestructive_auto ci action : DryRun ci = false -> Interactive ci = false -> SkipDestructive ci action = mret false.
Proof. intros H H'. unfold SkipDestructive. by rewrite H, H'. Qed.

(** ** Which calls a program makes *)

(** The program ends, having enough fuel, and however it ends it has only added calls
    that satisfy [P] to the trace. *)
Definition emits (P : event -> Prop) {A} (m : M A) : Prop :=
  forall s, exists evs, calls (fst (m s)) = calls s ++ evs /\ Forall P evs /\ snd (m s) <> OutOfFuel.

Lemma emits_none P {A} (m : M A) : (forall s, calls (fst (m s)) = calls s /\ snd (m s) <> OutOfFuel) -> emits P m.
Proof. intros H s. exists []. destruct (H s). rewrite app_nil_r. done. Qed.

Lemma emits_ret P {A} (a : A) : emits P (mret a).
Proof. by apply emits_none. Qed.

Lemma emits_panic P {A} : emits P (@panic A).
Proof. by apply emits_none. Qed.

Lemma emits_exit P {A} : emits P (@exit A).
Proof. by apply emits_none. Qed.

Lemma emits_ptr P {A} (p : option A) : emits P (ptr p).
Proof. destruct p; [apply emits_ret|apply emits_panic]. Qed.

Lemma emits_Size P o : emits P (Size o).
Proof. by apply emits_none. Qed.

Lemma emits_ModTime P o : emits P (ModTime o).
Proof. by apply emits_none. Qed.

Lemma emits_ID P o : emits P (ID o).
Proof. by apply emits_none. Qed.

Lemma emits_remember P action skip : emits P (remember action skip).
Proof. by apply emits_none. Qed.

Lemma emits_known P action : emits P (known action).
Proof. by apply emits_none. Qed.

Lemma emits_do (P : event -> Prop) {A} (c : call A) : (forall a, P (Ev c a)) -> emits P (do_ c).
Proof. intros H s. eexists. split; [reflexivity|]. split; [by constructor|done]. Qed.

Lemma emits_bind P {A B} (m : M A) (k : A -> M B) : emits P m -> (forall a, emits P (k a)) -> emits P (m ≫= k).
Proof.
  intros Hm Hk s. unfold mbind, M_bind. destruct (Hm s) as (evs & He & HP & Hf).
  destruct (m s) as [s' [a| | |]]; cbn [fst snd] in *; [|by exists evs..].
  destruct (Hk a s') as (evs' & He' & HP' & Hf'). exists (evs ++ evs'). rewrite He', He, <- app_assoc.
  split_and!; [done|by apply Forall_app|done].
Qed.

Lemma emits_weaken (P Q : event -> Prop) {A} (m : M A) : (forall e, P e -> Q e) -> emits P m -> emits Q m.
Proof. intros HPQ Hm s. destruct (Hm s) as (evs & He & HP & Hf). exists evs. split_and!; [done|by eapply Forall_impl|done]. Qed.

(** Predicates that say nothing about calls that only look. *)
Class Looks (P : event -> Prop) : Prop := looks : forall A (c : call A) a, mutates c = false -> P (Ev c a).

Lemma emits_look P `{!Looks P} {A} (c : call A) : mutates c = false -> emits P (do_ c).
Proof. intros H. apply emits_do. intros a. by apply looks. Qed.

Lemma emits_SkipDestructive P `{!Looks P} ci action : emits P (SkipDestructive ci action).
Proof.
  unfold SkipDestructive. destruct (DryRun ci); [apply emits_ret|]. destruct (Interactive ci); [|apply emits_ret].
  apply emits_bind; [apply emits_known|]. intros [skip|]; [apply emits_ret|]. unfold skipDestructiveChoose.
  apply emits_bind; [by apply emits_look|]. intros i.
  repeat match goal with |- emits _ (if ?b then _ else _) => destruct b end;
    first [apply emits_ret | apply emits_exit | apply emits_bind; [apply emits_remember|intros ?; apply emits_ret]].
Qed.

Lemma emits_CountError P `{!Looks P} e : emits P (CountError e).
Proof.
  unfold CountError. destruct (IsCounted e); [apply emits_ret|].
  apply emits_bind; [by apply emits_look|]. intros ?. apply emits_ret.
Qed.

Lemma emits_ContextError P `{!Looks P} err : emits P (ContextError err).
Proof. unfold ContextError. apply emits_bind; [by apply emits_look|]. intros [e|]; apply emits_ret. Qed.

Lemma emits_Retry P `{!Looks P} {V} n (v : V) fn : (forall v, emits P (fn v)) -> emits P (Retry n v fn).
Proof.
  intros Hf. revert v. induction n as [|n IH]; intros v; cbn [Retry]; [apply emits_ret|].
  apply emits_bind; [done|]. intros [v' [e|]]; [|apply emits_ret].
  apply emits_bind; [by apply emits_ContextError|]. intros [stop _]. destruct stop; [apply emits_ret|].
  destruct (retriable e); [|apply emits_ret]. destruct (Nat.eqb n 0); [apply emits_ret|done].
Qed.

#[export] Instance Looks_True : Looks (fun _ => True).
Proof. by intros. Qed.

(** Of the calls that change something only those that satisfy [P]. *)
Definition only (P : forall A, call A -> Prop) (e : event) : Prop :=
  match e with Ev c _ => mutates c = true -> P _ c end.

#[export] Instance Looks_only P : Looks (only P).
Proof. intros A c a Hc Hm. congruence. Qed.

(** Removes nothing. *)
Definition not_removing (e : event) : Prop := ev_removed e = None.

#[export] Instance Looks_not_removing : Looks not_removing.
Proof. by intros A [] ?. Qed.

(** No call that changes something. *)
Definition unchanged : event -> Prop := only (fun _ _ => False).

(** ** What a program returns

    [spec P m Q]: all calls that [m] adds satisfy [P], and what it returns satisfies [Q]. *)
Definition spec {A} (P : event -> Prop) (m : M A) (Q : A -> Prop) : Prop :=
  forall s, exists evs, calls (fst (m s)) = calls s ++ evs /\ Forall P evs /\
    match snd (m s) with Done a => Q a | OutOfFuel => False | _ => True end.

Lemma spec_emits {A} P (m : M A) Q : emits P m -> (forall a, Q a) -> spec P m Q.
Proof. intros Hm HQ s. destruct (Hm s) as (evs & He & HP & Hf). exists evs. split_and!; [done..|]. by destruct (snd (m s)). Qed.

Lemma emits_spec {A} P (m : M A) Q : spec P m Q -> emits P m.
Proof. intros Hm s. destruct (Hm s) as (evs & He & HP & Hr). exists evs. split_and!; [done..|]. by destruct (snd (m s)). Qed.

Lemma spec_weaken {A} P (m : M A) (Q Q' : A -> Prop) : spec P m Q -> (forall a, Q a -> Q' a) -> spec P m Q'.
Proof.
  intros Hm HQ s. destruct (Hm s) as (evs & He & HP & Hr). exists evs. split_and!; [done..|]. destruct (snd (m s)); [by apply HQ|done..].
Qed.

Lemma spec_ret {A} P (a : A) (Q : A -> Prop) : Q a -> spec P (mret a) Q.
Proof. intros HQ s. exists []. by rewrite app_nil_r. Qed.

Lemma spec_panic {A} P (Q : A -> Prop) : spec P panic Q.
Proof. intros s. exists []. by rewrite app_nil_r. Qed.

Lemma spec_ptr {A} P (p : option A) (Q : A -> Prop) : (forall a, p = Some a -> Q a) -> spec P (ptr p) Q.
Proof. destruct p as [a|]; intros HQ; [by apply spec_ret, HQ|apply spec_panic]. Qed.

Lemma spec_bind {A B} P (m : M A) (k : A -> M B) Q R :
  spec P m Q -> (forall a, Q a -> spec P (k a) R) -> spec P (m ≫= k) R.
Proof.
  intros Hm Hk s. unfold mbind, M_bind. destruct (Hm s) as (evs & He & HP & HQ).
  destruct (m s) as [s' [a| | |]]; cbn [fst snd] in *; [|by exists evs..].
  destruct (Hk a HQ s') as (evs' & He' & HP' & HR). exists (evs ++ evs'). rewrite He', He, <- app_assoc.
  split_and!; [done|by apply Forall_app|done].
Qed.

(** A program of which nothing is needed but its calls, first. *)
Lemma spec_bind_emits {A B} P (m : M A) (k : A -> M B) R :
  emits P m -> (forall a, spec P (k a) R) -> spec P (m ≫= k) R.
Proof. intros Hm Hk. apply (spec_bind _ _ _ (fun _ => True)); [by apply spec_emits|]. intros a _. apply Hk. Qed.

Lemma spec_do {A} (P : event -> Prop) (c : call A) (Q : A -> Prop) :
  (forall t, P (Ev c (answer A t c))) -> (forall t, Q (answer A t c)) -> spec P (do_ c) Q.
Proof. intros HP HQ s. eexists. split_and!; [reflexivity| |apply HQ]. constructor; [apply HP|constructor]. Qed.

(** ** Runs that return *)

(** [m] started in [s] makes the calls [evs], returns [a] and leaves [s']. *)
Definition runs {A} (m : M A) (s : st) (evs : trace) (a : A) (s' : st) : Prop :=
  m s = (s', Done a) /\ calls s' = calls s ++ evs.

Lemma runs_emits P {A} (m : M A) s evs a s' : emits P m -> runs m s evs a s' -> Forall P evs.
Proof.
  intros He [Hm Hc]. destruct (He s) as (evs' & He' & HP & _). rewrite Hm in He'. cbn [fst] in He'. rewrite Hc in He'.
  by apply app_inv_head in He' as ->.
Qed.

(** A run that returns has only added to the trace. *)
Definition mono {A} (m : M A) : Prop := forall s a s', m s = (s', Done a) -> exists evs, calls s' = calls s ++ evs.

Lemma emits_mono P {A} (m : M A) : emits P m -> mono m.
Proof. intros He s a s' Hm. destruct (He s) as (evs & Hc & _). rewrite Hm in Hc. by exists evs. Qed.

Lemma mono_bind {A B} (m : M A) (k : A -> M B) : mono m -> (forall a, mono (k a)) -> mono (m ≫= k).
Proof.
  intros Hm Hk s b s'' Hr. unfold mbind, M_bind in Hr. destruct (m s) as [s' [a| | |]] eqn:E; try done.
  destruct (Hm _ _ _ E) as [evs He]. destruct (Hk a _ _ _ Hr) as [evs' He']. exists (evs ++ evs'). by rewrite He', He, app_assoc.
Qed.

Lemma mono_out_of_fuel {A} : mono (@out_of_fuel A).
Proof. by intros s a s' H. Qed.

Lemma runs_spec {A} P (m : M A) Q s evs a s' : spec P m Q -> runs m s evs a s' -> Forall P evs /\ Q a.
Proof.
  intros Hm Hr. split; [eapply runs_emits; [by eapply emits_spec|done]|]. destruct Hr as [Hr _].
  destruct (Hm s) as (evs' & _ & _ & HQ). by rewrite Hr in HQ.
Qed.

Lemma runs_intro {A} (m : M A) s a s' : mono m -> m s = (s', Done a) -> exists evs, runs m s evs a s'.
Proof. intros He Hm. destruct (He s a s' Hm) as (evs & Hc). exists evs. by split. Qed.

Lemma runs_bind {A B} (m : M A) (k : A -> M B) s evs b s'' : mono m ->
  runs (m ≫= k) s evs b s'' ->
  (forall a, mono (k a)) ->
  exists evs1 evs2 a s', evs = evs1 ++ evs2 /\ runs m s evs1 a s' /\ runs (k a) s' evs2 b s''.
Proof.
  intros Hmm [Hr Hc] Hmk. unfold mbind, M_bind in Hr. destruct (m s) as [s' [a| | |]] eqn:Hm; try done.
  destruct (runs_intro m s a s' Hmm Hm) as (evs1 & H1). destruct (runs_intro (k a) s' b s'' (Hmk a) Hr) as (evs2 & H2).
  exists evs1, evs2, a, s'. split_and!; [|done|done]. destruct H1 as [_ Hc1], H2 as [_ Hc2].
  rewrite Hc, Hc1, <- app_assoc in Hc2. by apply app_inv_head in Hc2.
Qed.

Lemma runs_ret {A} (a b : A) s evs s' : runs (mret a) s evs b s' -> evs = [] /\ b = a /\ s' = s.
Proof.
  intros [Hr Hc]. injection Hr as <- <-. split_and!; [|done|done]. by apply (app_inv_head (calls s)); rewrite app_nil_r.
Qed.

Lemma runs_do {A} (c : call A) s evs a s' : runs (do_ c) s evs a s' -> evs = [Ev c a] /\ calls s' = calls s ++ [Ev c a].
Proof.
  intros [Hr Hc]. unfold do_ in Hr. injection Hr as <- <-. cbn [calls] in *. split; [|done]. by apply app_inv_head in Hc.
Qed.

Lemma runs_Size o s evs a s' : runs (Size o) s evs a s' -> evs = [] /\ a = env_Size (calls s) o /\ s' = s.
Proof. intros [Hr Hc]. injection Hr as <- <-. split_and!; [|done|done]. by apply (app_inv_head (calls s)); rewrite app_nil_r. Qed.

Lemma runs_ModTime o s evs a s' : runs (ModTime o) s evs a s' -> evs = [] /\ a = env_ModTime (calls s) o /\ s' = s.
Proof. intros [Hr Hc]. injection Hr as <- <-. split_and!; [|done|done]. by apply (app_inv_head (calls s)); rewrite app_nil_r. Qed.

Lemma runs_ID o s evs a s' : runs (ID o) s evs a s' -> evs = [] /\ a = env_ID (calls s) o /\ s' = s.
Proof. intros [Hr Hc]. injection Hr as <- <-. split_and!; [|done|done]. by apply (app_inv_head (calls s)); rewrite app_nil_r. Qed.

Lemma runs_ptr {A} (p : option A) s evs a s' : runs (ptr p) s evs a s' -> evs = [] /\ p = Some a /\ s' = s.
Proof.
  destruct p as [b|]; [intros (-> & -> & ->)%runs_ret; done|]. intros [Hr _]. done.
Qed.

Lemma runs_panic {A} s evs a s' : ~ runs (@panic A) s evs a s'.
Proof. intros [Hr _]. done. Qed.

Lemma runs_exit {A} s evs a s' : ~ runs (@exit A) s evs a s'.
Proof. intros [Hr _]. done. Qed.

Lemma runs_out_of_fuel {A} s evs a s' : ~ runs (@out_of_fuel A) s evs a s'.
Proof. intros [Hr _]. done. Qed.

(** The trace of a state that a run leaves. *)
Lemma runs_calls {A} (m : M A) s evs a s' : runs m s evs a s' -> calls s' = calls s ++ evs.
Proof. by intros [_ Hc]. Qed.
End programs.

(** ** Honest backends: an object that is returned for a name has that name. *)
Definition named (f : Fs) (remote : string) (o : object) : Prop := o_Fs o = f /\ o_Remote o = remote.

Definition res_named (f : Fs) (remote : string) (r : res) : Prop := forall o, fst r = Some o -> named f remote o.

Class Honest (env : Env) : Prop := {
  honest_NewObject : forall t f remote o, answer _ t (NewObject f remote) = inr o -> named f remote o;
  honest_ServerCopy : forall t f src remote o, answer _ t (ServerCopy f src remote) = inr o -> named f remote o;
  honest_ServerMove : forall t f src remote o, answer _ t (ServerMove f src remote) = inr o -> named f remote o;
  honest_Put : forall t f remote, res_named f remote (answer _ t (Put f remote));
  honest_PutStream : forall t f remote, res_named f remote (answer _ t (PutStream f remote))
}.

#[export] Instance example_honest size time : Honest (example_env size time (fun A _ c => default_answer c)).
Proof. split; try done; try (intros; simplify_eq/=; done); intros t f remote o Ho; cbn in Ho; by simplify_eq. Qed.

Create HintDb emits.
#[export] Hint Resolve emits_ret emits_panic emits_exit emits_ptr emits_Size emits_ModTime emits_ID
  emits_remember emits_known emits_SkipDestructive emits_CountError emits_ContextError : emits.
#[export] Hint Extern 1 (Looks _) => typeclasses eauto : emits.
#[export] Hint Extern 3 (emits (fun _ => True) (do_ _)) => apply emits_do; intros; exact I : emits.
#[export] Hint Extern 4 (emits _ (do_ _)) => apply emits_look; [assumption || typeclasses eauto|reflexivity] : emits.

(** Boolean tests, also of strings, as propositions. *)
Ltac sreflect :=
  breflect;
  repeat match goal with
  | H : str_eqb _ _ = true |- _ => apply str_eqb_eq in H
  | H : str_eqb _ _ = false |- _ => apply str_eqb_neq in H
  end.

(** Takes a program apart into its calls. *)
Ltac emits_step :=
  match goal with
  | |- emits _ (mbind _ _) => apply emits_bind; [|intros ?]
  | |- emits _ (if ?b then _ else _) => destruct b eqn:?
  | |- emits _ (match ?x with _ => _ end) => destruct x eqn:?
  | |- emits _ (let _ := _ in _) => cbn zeta
  | |- emits _ _ => solve [auto with emits]
  end.

Ltac emits := repeat emits_step.

(** A program with parts of which only [mono] is known. *)
Ltac mono_step :=
  match goal with
  | |- mono out_of_fuel => apply mono_out_of_fuel
  | |- mono _ => solve [auto with emits]
  | |- mono _ => solve [apply (emits_mono (fun _ => True)); emits]
  | |- mono (mbind _ _) => apply mono_bind; [|intros ?]
  | |- mono (if ?b then _ else _) => destruct b eqn:?
  | |- mono (match ?x with _ => _ end) => destruct x eqn:?
  | |- mono (let _ := _ in _) => cbn zeta
  end.

Ltac mono := repeat mono_step.

(** Takes a run apart. *)
Ltac runs_step :=
  match goal with
  | H : runs (mret _) _ _ _ _ |- _ => apply runs_ret in H as (? & ? & ?); subst
  | H : runs (do_ _) _ _ _ _ |- _ => apply runs_do in H as (? & ?); subst
  | H : runs (Size _) _ _ _ _ |- _ => apply runs_Size in H as (? & ? & ?); subst
  | H : runs (ModTime _) _ _ _ _ |- _ => apply runs_ModTime in H as (? & ? & ?); subst
  | H : runs (ID _) _ _ _ _ |- _ => apply runs_ID in H as (? & ? & ?); subst
  | H : runs (ptr _) _ _ _ _ |- _ => apply runs_ptr in H as (? & ? & ?); subst
  | H : runs panic _ _ _ _ |- _ => by apply runs_panic in H
  | H : runs exit _ _ _ _ |- _ => by apply runs_exit in H
  | H : runs out_of_fuel _ _ _ _ |- _ => by apply runs_out_of_fuel in H
  | H : runs (mbind _ _) _ _ _ _ |- _ =>
      apply runs_bind in H as (? & ? & ? & ? & ? & ? & ?); [subst; cbn beta in *|solve [mono]|intros ?; solve [mono]]
  | H : runs (if ?b then _ else _) _ _ _ _ |- _ => destruct b eqn:?
  | H : runs (match ?x with _ => _ end) _ _ _ _ |- _ => destruct x eqn:?
  | H : runs (let _ := _ in _) _ _ _ _ |- _ => cbn zeta in H
  end.

End Backend.
