(* ===== verification/Equal.v ===== *)
(** * When files are equal: fs/operations/operations.go, fs/fs.go

    The comparison of hashes, the comparison of a source with a destination by
    size, time and hash that brings the time of the destination up to date on
    the way, and the decision whether a file needs to be transferred. *)
From S2P Require Import Prelude GoPath Hash FsErrors Backend.

Module Equal.
Import GoPath FsErrors Backend.

(** ** What is compared *)

(** An [fs.ObjectInfo]: an object of a remote, or one made by
    [object.NewStaticObjectInfo] from what is known of it. *)
Inductive info : Type :=
  | IObject (o : object)
  | IStatic (f : Fs) (modTime size : Z) (hashes : gmap Z string).

Definition i_Fs (i : info) : Fs := match i with IObject o => o_Fs o | IStatic f _ _ _ => f end.

(** Times are in nanoseconds since 1970; [Sub] has the range of a duration. *)
Definition zeroTime : Z := -62135596800 * 10 ^ 9.

Definition Sub (t u : Z) : Z := Z.min (Z.max (t - u) i64_min) i64_max.

(** [fs.GetModifyWindow] *)
Fixpoint modify_window (window : Z) (fss : list Fs) : Z :=
  match fss with
  | [] => window
  | f :: fss =>
      if fs_Precision f =? ModTimeNotSupported then ModTimeNotSupported
      else modify_window (if fs_Precision f >? window then fs_Precision f else window) fss
  end.

Section config.
Context {env : Env} (ci : ConfigInfo).

Definition i_Size (i : info) : M Z := match i with IObject o => Size o | IStatic _ _ size _ => mret size end.
Definition i_ModTime (i : info) : M Z := match i with IObject o => ModTime o | IStatic _ t _ _ => mret t end.

(** [StaticObjectInfo.Hash] fails for a type it has no hash of. *)
Definition i_Hash (i : info) (ht : Z) : M (string * option error) :=
  match i with
  | IObject o => do_ (HashOf o ht)
  | IStatic _ _ _ hashes =>
      mret (match hashes !! ht with Some h => (h, None) | None => ("", Some (New ErrUnsupported)) end)
  end.

Definition GetModifyWindow (fss : list Fs) : Z := modify_window (ModifyWindow ci) fss.

(** ** Hashes *)

(** What the goroutine of one side returns to the group: [Some None] is [errNoHash]. *)
Definition hash_result (h : string * option error) : option (option error) :=
  match h with
  | (_, Some e) => Some (Some e)
  | (h, None) => if str_eqb h "" then Some None else None
  end.

(** The two hashes are computed side by side: [HashSrcFirst] says which is ready
    first, and the error of the first that fails is the one of the group. *)
Definition both_hashes (src : info) (dst : object) (ht : Z)
    : M ((string * option error) * (string * option error) * option (option error)) :=
  srcFirst ← do_ HashSrcFirst;
  if srcFirst : bool then
    s ← i_Hash src ht; d ← do_ (HashOf dst ht);
    mret (s, d, match hash_result s with Some e => Some e | None => hash_result d end)
  else
    d ← do_ (HashOf dst ht); s ← i_Hash src ht;
    mret (s, d, match hash_result d with Some e => Some e | None => hash_result s end).

(** [checkHashes]: equal, the hash type used, the hashes and the error. *)
Definition checkHashes (src : info) (dst : object) (ht : Z) : M (bool * Z * (string * string) * option error) :=
  '(s, d, first) ← both_hashes src dst ht;
  match first with
  | Some None => mret (true, Hash.None_, (fst s, fst d), None)
  | _ =>
      err ← match snd s with Some e => e' ← CountError e; mret (Some e') | None => mret None end;
      err ← match snd d with Some e => e' ← CountError e; mret (Some e') | None => mret err end;
      match err with
      | Some e => mret (false, ht, (fst s, fst d), Some e)
      | None => mret (str_eqb (fst s) (fst d), ht, (fst s, fst d), None)
      end
  end.

Definition CheckHashes (src : info) (dst : object) : M (bool * Z * option error) :=
  let common := Hash.Overlap (fs_Hashes (i_Fs src)) (fs_Hashes (o_Fs dst)) in
  if Hash.Count common =? 0 then mret (true, Hash.None_, None)
  else
    '(equal, ht, _, err) ← checkHashes src dst (Hash.GetOne common);
    mret (equal, ht, err).

(** [CommonHash]: the type, and the set of the option. *)
Definition CommonHash (fa fb : Fs) : Z * Z :=
  if IgnoreChecksum ci then (Hash.None_, 0)
  else
    let common := Hash.Overlap (fs_Hashes fb) (fs_Hashes fa) in
    if Hash.Count common >? 0 then (Hash.GetOne common, Hash.GetOne common) else (Hash.None_, common).

(** ** Equality *)

Definition sizeDiffers (src dst : info) : M bool :=
  s ← i_Size src; d ← i_Size dst;
  mret (negb (IgnoreSize ci || (s <? 0) || (d <? 0)) && negb (s =? d)).

Record equalOpt : Type := mkOpt {
  sizeOnly : bool;
  checkSum : bool;
  updateModTime : bool;
  forceModTimeMatch : bool }.

Definition defaultEqualOpt : equalOpt := mkOpt (SizeOnly ci) (CheckSum ci) (negb (NoUpdateModTime ci)) false.

(** The tail of [equal]: the hashes agree and the times do not. *)
Definition update_time (srcModTime : Z) (dst : object) : M bool :=
  err ← do_ (SetModTime dst srcModTime);
  match err with
  | None => mret true
  | Some e =>
      if Is ErrorCantSetModTime e then mret false
      else if Is ErrorCantSetModTimeWithoutDelete e then
        _ ← (if str_eqb (BackupDir ci) "" then _ ← do_ (Remove dst); mret tt else mret tt);
        mret false
      else _ ← CountError e; mret true
  end.

Definition time_tail (opt : equalOpt) (srcModTime : Z) (dst : object) : M bool :=
  if updateModTime opt then
    skip ← SkipDestructive ci "update modification time";
    if skip : bool then mret true
    else if Immutable ci then mret false
    else update_time srcModTime dst
  else mret true.

Definition hash_tail (opt : equalOpt) (src : info) (srcModTime : Z) (dst : object) : M bool :=
  '(same, ht, _) ← CheckHashes src dst;
  if negb same then mret false
  else if (ht =? Hash.None_) && negb (RefreshTimes ci) then mret false
  else time_tail opt srcModTime dst.

Definition equal (src : info) (dst : object) (opt : equalOpt) : M bool :=
  differ ← sizeDiffers src (IObject dst);
  if differ : bool then mret false
  else if sizeOnly opt then mret true
  else if checkSum opt then
    '(same, _, _) ← CheckHashes src dst; mret same
  else
    srcModTime ← i_ModTime src;
    if forceModTimeMatch opt then hash_tail opt src srcModTime dst
    else
      let modifyWindow := GetModifyWindow [i_Fs src; o_Fs dst] in
      if modifyWindow =? ModTimeNotSupported then mret true
      else
        dstModTime ← ModTime dst;
        let dt := Sub dstModTime srcModTime in
        if (dt <? modifyWindow) && (dt >? i64 (- modifyWindow)) then mret true
        else hash_tail opt src srcModTime dst.

Definition Equal (src : info) (dst : object) : M bool := equal src dst defaultEqualOpt.

(** ** The same object *)

Definition SameConfig (fdst fsrc : Fs) : bool := str_eqb (fs_Name fdst) (fs_Name fsrc).

Definition SameRemoteType (fdst fsrc : Fs) : bool := str_eqb (fs_type fdst) (fs_type fsrc).

Definition SameObject (src dst : object) : M bool :=
  let srcFs := o_Fs src in
  let dstFs := o_Fs dst in
  if negb (SameConfig srcFs dstFs) then
    if o_IDer src && o_IDer dst && SameRemoteType srcFs dstFs then
      srcID ← ID src; dstID ← ID dst;
      mret (negb (str_eqb srcID "") && str_eqb srcID dstID)
    else mret false
  else
    let srcPath := path_Join [fs_Root srcFs; o_Remote src] in
    let dstPath := path_Join [fs_Root dstFs; o_Remote dst] in
    if ft_IsLocal (fs_Features srcFs) && ft_IsLocal (fs_Features dstFs) && darwin && str_eqb (NFC srcPath) (NFC dstPath)
    then mret true
    else if ft_CaseInsensitive (fs_Features dstFs) then mret (str_eqb (ToLower srcPath) (ToLower dstPath))
    else mret (str_eqb srcPath dstPath).

(** ** The need to transfer *)

Definition second : Z := 10 ^ 9.

Definition NeedTransfer (dst : option object) (src : object) : M bool :=
  match dst with
  | None => mret true
  | Some dst =>
      if IgnoreExisting ci then mret false
      else if IgnoreTimes ci then mret true
      else if UpdateOlder ci then
        srcModTime ← ModTime src; dstModTime ← ModTime dst;
        let dt := Sub dstModTime srcModTime in
        let modifyWindow := GetModifyWindow [o_Fs dst; o_Fs src] in
        let modifyWindow := if modifyWindow =? ModTimeNotSupported then second else modifyWindow in
        if dt >=? modifyWindow then mret false
        else if dt <=? i64 (- modifyWindow) then
          let opt := defaultEqualOpt in
          same ← equal (IObject src) dst (mkOpt (sizeOnly opt) (checkSum opt) (updateModTime opt) true);
          mret (negb same)
        else
          let opt := defaultEqualOpt in
          same ← equal (IObject src) dst (mkOpt (negb (CheckSum ci)) (checkSum opt) (updateModTime opt) (forceModTimeMatch opt));
          mret (negb same)
      else if withEqualFn ci then
        same ← do_ (EqualFn src dst); mret (negb same)
      else
        same ← Equal (IObject src) dst;
        if same : bool then same_object ← SameObject src dst; mret same_object
        else mret true
  end.

(** ** Directories *)

Record DirsEqualOpt : Type := mkDirsOpt {
  d_ModifyWindow : Z;
  d_SetDirModtime : bool;
  d_SetDirMetadata : bool }.

(** [DirsEqual], on the times of the two directories; [dst] may be nil. *)
Definition DirsEqual (srcModTime : Z) (dst : option Z) (opt : DirsEqualOpt) : bool :=
  match dst with
  | None => false
  | Some dstModTime =>
      if SizeOnly ci || Immutable ci || IgnoreExisting ci || (d_ModifyWindow opt =? ModTimeNotSupported) then true
      else if IgnoreTimes ci then false
      else if negb (d_SetDirModtime opt || d_SetDirMetadata opt) then true
      else if (srcModTime =? zeroTime) || (dstModTime =? zeroTime) then false
      else
        let dt := Sub dstModTime srcModTime in
        if (dt <? d_ModifyWindow opt) && (dt >? i64 (- d_ModifyWindow opt)) then true
        else if UpdateOlder ci && (dt >=? d_ModifyWindow opt) then true
        else false
  end.

(** ** The calls that are made *)

(** Only the time of the destination is changed, and it may be removed. *)
Definition touches (dst : object) : event -> Prop :=
  only (fun _ c => match c with SetModTime o _ | Remove o => o = dst | _ => False end).

Lemma emits_i_Size P i : emits P (i_Size i).
Proof. destruct i; cbn [i_Size]; emits. Qed.

Lemma emits_i_ModTime P i : emits P (i_ModTime i).
Proof. destruct i; cbn [i_ModTime]; emits. Qed.

Lemma emits_i_Hash P `{!Looks P} i ht : emits P (i_Hash i ht).
Proof. destruct i; cbn [i_Hash]; emits. Qed.

Hint Resolve emits_i_Size emits_i_ModTime emits_i_Hash : emits.

Lemma emits_both_hashes P `{!Looks P} src dst ht : emits P (both_hashes src dst ht).
Proof. unfold both_hashes. emits. Qed.
Hint Resolve emits_both_hashes : emits.

Lemma emits_checkHashes P `{!Looks P} src dst ht : emits P (checkHashes src dst ht).
Proof. unfold checkHashes. emits. Qed.
Hint Resolve emits_checkHashes : emits.

Lemma emits_CheckHashes P `{!Looks P} src dst : emits P (CheckHashes src dst).
Proof. unfold CheckHashes. emits. Qed.
Hint Resolve emits_CheckHashes : emits.

Lemma emits_sizeDiffers P src dst : emits P (sizeDiffers src dst).
Proof. unfold sizeDiffers. emits. Qed.
Hint Resolve emits_sizeDiffers : emits.

(** [P] lets a destination be changed as far as it may be: not at all in a dry run. *)
Definition may_change (P : event -> Prop) (dst : object) : Prop :=
  (forall t a, P (Ev (SetModTime dst t) a)) /\ forall a, P (Ev (Remove dst) a).

Definition may_touch (P : event -> Prop) (dst : object) : Prop := DryRun ci = true \/ may_change P dst.

Lemma emits_update_time P `{!Looks P} t dst : may_change P dst -> emits P (update_time t dst).
Proof.
  intros [H1 H2]. unfold update_time. emits_step; [by apply emits_do|].
  destruct a as [e|]; [|emits]. emits_step; [emits|]. emits_step; [|emits]. emits_step; [|emits].
  destruct (str_eqb (BackupDir ci) ""); [|emits]. emits_step; [by apply emits_do|emits].
Qed.
Hint Resolve emits_update_time : emits.

Lemma emits_time_tail P `{!Looks P} opt t dst : may_touch P dst -> emits P (time_tail opt t dst).
Proof.
  intros HP. unfold time_tail. destruct (updateModTime opt); [|emits]. destruct HP as [Hdry | H].
  - rewrite SkipDestructive_dry, bind_ret by done. emits.
  - emits.
Qed.
Hint Resolve emits_time_tail : emits.

Lemma emits_hash_tail P `{!Looks P} opt src t dst : may_touch P dst -> emits P (hash_tail opt src t dst).
Proof. intros HP. unfold hash_tail. emits. Qed.
Hint Resolve emits_hash_tail : emits.

Lemma emits_equal P `{!Looks P} src dst opt : may_touch P dst -> emits P (equal src dst opt).
Proof. intros HP. unfold equal. emits. Qed.
Hint Resolve emits_equal : emits.

Lemma emits_SameObject P src dst : emits P (SameObject src dst).
Proof. unfold SameObject. emits. Qed.
Hint Resolve emits_SameObject : emits.

Lemma emits_NeedTransfer P `{!Looks P} dst src : (forall d, dst = Some d -> may_touch P d) -> emits P (NeedTransfer dst src).
Proof. intros HP. unfold NeedTransfer, Equal. destruct dst as [d|]; [specialize (HP d eq_refl)|]; emits. Qed.

Lemma may_touch_touches dst : may_touch (touches dst) dst.
Proof. right. by split; intros. Qed.

Lemma may_change_True dst : may_change (fun _ => True) dst.
Proof. done. Qed.

Lemma may_touch_True dst : may_touch (fun _ => True) dst.
Proof. right. done. Qed.
Hint Resolve may_touch_touches may_change_True may_touch_True : emits.

(** ** What is found out *)

(** The hash of type [ht] of [i] was found to be [h], in the calls [evs]. *)
Definition hashed (evs : trace) (i : info) (ht : Z) (h : string) : Prop :=
  match i with
  | IObject o => Ev (HashOf o ht) (h, None) ∈ evs
  | IStatic _ _ _ hashes => hashes !! ht = Some h
  end.

(** Reading the hash failed. *)
Definition hash_failed (evs : trace) (i : info) (ht : Z) : Prop :=
  match i with
  | IObject o => exists h e, Ev (HashOf o ht) (h, Some e) ∈ evs
  | IStatic _ _ _ hashes => hashes !! ht = None
  end.

Definition found (evs : trace) (i : info) (ht : Z) (r : string * option error) : Prop :=
  match snd r with None => hashed evs i ht (fst r) | Some _ => hash_failed evs i ht end.

(** The contents are the same by a hash; no hash could be compared; they differ,
    or could not be read. *)
Definition same_hash (evs : trace) (src dst : info) : Prop :=
  exists ht h, h <> "" /\ hashed evs src ht h /\ hashed evs dst ht h.

Definition no_hash (evs : trace) (src dst : info) : Prop :=
  Hash.Count (Hash.Overlap (fs_Hashes (i_Fs src)) (fs_Hashes (i_Fs dst))) = 0 \/
  exists ht, hashed evs src ht "" \/ hashed evs dst ht "".

Definition differ_hash (evs : trace) (src dst : info) : Prop :=
  exists ht, (exists h h', h <> h' /\ hashed evs src ht h /\ hashed evs dst ht h') \/
    hash_failed evs src ht \/ hash_failed evs dst ht.

Lemma hashed_incl evs evs' i ht h : evs ⊆ evs' -> hashed evs i ht h -> hashed evs' i ht h.
Proof. intros Hi. destruct i; cbn [hashed]; [apply Hi|done]. Qed.

Lemma failed_incl evs evs' i ht : evs ⊆ evs' -> hash_failed evs i ht -> hash_failed evs' i ht.
Proof. intros Hi. destruct i; cbn [hash_failed]; [|done]. intros (h & e & H). exists h, e. by apply Hi. Qed.

Lemma found_incl evs evs' i ht r : evs ⊆ evs' -> found evs i ht r -> found evs' i ht r.
Proof. intros Hi. unfold found. destruct (snd r); [by apply failed_incl|by apply hashed_incl]. Qed.

Lemma same_hash_incl evs evs' src dst : evs ⊆ evs' -> same_hash evs src dst -> same_hash evs' src dst.
Proof. intros Hi (ht & h & Hn & Hs & Hd). exists ht, h. eauto using hashed_incl. Qed.

Lemma no_hash_incl evs evs' src dst : evs ⊆ evs' -> no_hash evs src dst -> no_hash evs' src dst.
Proof. intros Hi [H | (ht & H)]; [by left|right]. exists ht. destruct H; eauto using hashed_incl. Qed.

Lemma differ_hash_incl evs evs' src dst : evs ⊆ evs' -> differ_hash evs src dst -> differ_hash evs' src dst.
Proof.
  intros Hi (ht & H). exists ht. destruct H as [(h & h' & Hn & Hs & Hd) | [H | H]]; [left|right..].
  - exists h, h'. eauto using hashed_incl.
  - left. eauto using failed_incl.
  - right. eauto using failed_incl.
Qed.

Lemma runs_i_Hash i ht s evs r s' : runs (i_Hash i ht) s evs r s' -> found evs i ht r.
Proof.
  destruct i as [o|f t size hashes]; cbn [i_Hash]; unfold found; cbn [hashed hash_failed].
  - intros (-> & _)%runs_do. destruct r as [h [e|]]; cbn; [exists h, e|]; by apply list_elem_of_singleton.
  - intros (-> & -> & _)%runs_ret. by destruct (hashes !! ht).
Qed.

(** What the two goroutines found, and which error came first. *)
Lemma runs_both_hashes src dst ht s evs a d first s' : runs (both_hashes src dst ht) s evs (a, d, first) s' ->
  found evs src ht a /\ found evs (IObject dst) ht d /\
  (first = hash_result a \/ first = hash_result d) /\ (first = None -> hash_result a = None /\ hash_result d = None).
Proof.
  unfold both_hashes. change (do_ (HashOf dst ht)) with (i_Hash (IObject dst) ht). intros H.
  repeat (runs_step || match goal with H : runs (i_Hash _ _) _ _ _ _ |- _ => apply runs_i_Hash in H end).
  all: simplify_eq; split_and!; [eapply found_incl; [|done]; set_solver..|destruct (hash_result x4); auto|].
  all: destruct (hash_result x4); [done|auto].
Qed.

(** [checkHashes] on every branch: the hashes are equal; one of them is not
    known; they differ or there was an error. *)
Lemma runs_checkHashes src dst ht s evs same ht' hs err s' : runs (checkHashes src dst ht) s evs (same, ht', hs, err) s' ->
  (same = true /\ ht' = ht /\ err = None /\ same_hash evs src (IObject dst)) \/
  (same = true /\ ht' = Hash.None_ /\ err = None /\ no_hash evs src (IObject dst)) \/
  (same = false /\ ht' = ht /\ differ_hash evs src (IObject dst)).
Proof.
  unfold checkHashes. intros H. runs_step.
  match goal with H : runs (both_hashes _ _ _) _ _ ?r _ |- _ => destruct r as [[[ha ea] [hd ed]] first];
    apply runs_both_hashes in H as (Ha & Hd & Hfirst & Hnone) end.
  assert (forall evs evs' : trace, evs ⊆ evs ++ evs') as Hi by set_solver. unfold found in *. cbn [fst snd] in *.
  destruct first as [[e1|]|].
  - (* an error came first *)
    right; right. assert (ea <> None \/ ed <> None) as Hne.
    { destruct ea, ed; auto. destruct Hfirst as [Hf | Hf]; cbn in Hf; case_match; congruence. }
    assert (differ_hash x src (IObject dst)) as Hdiff.
    { exists ht. right. destruct ea; [by left|]. destruct ed; [by right|]. naive_solver. }
    repeat runs_step; simplify_eq; try naive_solver.
    all: split_and!; [done|done|]; eapply differ_hash_incl; [|done]; set_solver.
  - (* a hash is missing *)
    right; left. repeat runs_step. simplify_eq. split_and!; [done..|]. right. exists ht.
    destruct Hfirst as [Hf | Hf]; symmetry in Hf; [destruct ea|destruct ed]; cbn in Hf; simplify_eq; case_match; simplify_eq; sreflect.
    + subst ha. left. eapply hashed_incl; [|done]. set_solver.
    + subst hd. right. eapply hashed_incl; [|done]. set_solver.
  - destruct (Hnone eq_refl) as [Hra Hrd]. destruct ea; [done|]. destruct ed; [done|]. repeat runs_step; simplify_eq.
    destruct (str_eqb ha hd) eqn:E; sreflect; [left|right; right].
    + subst hd. split_and!; [done..|]. exists ht, ha. cbn in Hra. case_match; simplify_eq. sreflect.
      split_and!; [done|eapply hashed_incl; [|done]; set_solver..].
    + split_and!; [done..|]. exists ht. left. exists ha, hd. split_and!; [done|eapply hashed_incl; [|done]; set_solver..].
Qed.

Lemma runs_CheckHashes src dst s evs same ht err s' :
  Hash.is_set (fs_Hashes (i_Fs src)) -> Hash.is_set (fs_Hashes (o_Fs dst)) ->
  runs (CheckHashes src dst) s evs (same, ht, err) s' ->
  (same = true /\ ht <> Hash.None_ /\ same_hash evs src (IObject dst)) \/
  (same = true /\ ht = Hash.None_ /\ no_hash evs src (IObject dst)) \/
  (same = false /\ differ_hash evs src (IObject dst)).
Proof.
  intros Hs Hd. unfold CheckHashes. intros H. runs_step; sreflect.
  - runs_step. simplify_eq. right; left. split_and!; [done..|]. by left.
  - runs_step. match goal with H : runs (checkHashes _ _ _) _ _ ?r _ |- _ => destruct r as [[[same1 ht1] hs] err1] end.
    repeat runs_step. simplify_eq.
    match goal with H : runs (checkHashes _ _ _) _ _ _ _ |- _ => apply runs_checkHashes in H end.
    rewrite app_nil_r. pose proof (Hash.GetOne_nonzero _ (Hash.Overlap_set _ _ Hs Hd)). naive_solver.
Qed.

(** ** The decision *)

Definition info_size (s : st) (i : info) : Z := match i with IObject o => env_Size (calls s) o | IStatic _ _ size _ => size end.
Definition info_time (s : st) (i : info) : Z := match i with IObject o => env_ModTime (calls s) o | IStatic _ t _ _ => t end.

Lemma runs_i_Size i s evs a s' : runs (i_Size i) s evs a s' -> evs = [] /\ a = info_size s i /\ s' = s.
Proof. destruct i; cbn [i_Size info_size]; intros H; [by apply runs_Size in H|by apply runs_ret in H]. Qed.

Lemma runs_i_ModTime i s evs a s' : runs (i_ModTime i) s evs a s' -> evs = [] /\ a = info_time s i /\ s' = s.
Proof. destruct i; cbn [i_ModTime info_time]; intros H; [by apply runs_ModTime in H|by apply runs_ret in H]. Qed.

(** The sizes are the same, or not to be compared. *)
Definition sizes_agree (s : st) (src dst : info) : Prop :=
  IgnoreSize ci = true \/ info_size s src < 0 \/ info_size s dst < 0 \/ info_size s src = info_size s dst.

Lemma runs_sizeDiffers src dst s evs b s' : runs (sizeDiffers src dst) s evs b s' ->
  evs = [] /\ s' = s /\ (b = false <-> sizes_agree s src dst).
Proof.
  unfold sizeDiffers. intros H. do 2 runs_step. repeat match goal with H : runs (i_Size _) _ _ _ _ |- _ => apply runs_i_Size in H as (? & ? & ?); subst end.
  repeat runs_step. split_and!; [done..|]. unfold sizes_agree.
  destruct (IgnoreSize ci), (info_size s src <? 0) eqn:E1, (info_size s dst <? 0) eqn:E2, (info_size s src =? info_size s dst) eqn:E3;
    cbn; breflect; split; intros; try done; try lia; tauto.
Qed.

(** The times agree within the window, or one of the remotes has no times. *)
Definition times_agree (s : st) (src : info) (dst : object) : Prop :=
  let w := GetModifyWindow [i_Fs src; o_Fs dst] in
  w = ModTimeNotSupported \/ i64 (- w) < Sub (env_ModTime (calls s) dst) (info_time s src) < w.

(** An error that says that the time cannot be set. *)
Definition unsettable (e : error) : Prop :=
  Is ErrorCantSetModTime e = true \/ Is ErrorCantSetModTimeWithoutDelete e = true.

(** A call that removes at most the destination, and if it does, then for a new upload. *)
Definition removes_for (dst : object) (b : bool) (e : event) : Prop :=
  not_removing e \/ (ev_removed e = Some dst /\ b = false /\ BackupDir ci = "").

Lemma not_removing_for dst b evs : Forall not_removing evs -> Forall (removes_for dst b) evs.
Proof. intros H. eapply Forall_impl; [done|]. by left. Qed.

Lemma runs_update_time t dst s evs b s' : runs (update_time t dst) s evs b s' ->
  Forall (removes_for dst b) evs /\ (b = false -> exists e, unsettable e /\ Ev (SetModTime dst t) (Some e) ∈ evs).
Proof.
  unfold update_time. intros H. do 3 runs_step.
  2:{ runs_step. split; [|done]. constructor; [by left|constructor]. }
  assert (forall evs', Ev (SetModTime dst t) (Some e) ∈ [Ev (SetModTime dst t) (Some e)] ++ evs') as Hin by (intros; left).
  assert (removes_for dst b (Ev (SetModTime dst t) (Some e))) as He by (by left).
  cbn [app]. runs_step; [runs_step|runs_step; [runs_step|runs_step]].
  - split; [by repeat constructor|]. intros _. exists e. split; [by left|apply Hin].
  - repeat runs_step; sreflect.
    + split; [|intros _; exists e; split; [by right|apply Hin]]. constructor; [done|]. constructor; [by right|constructor].
    + split; [|intros _; exists e; split; [by right|apply Hin]]. by constructor.
  - repeat runs_step. split; [|done]. constructor; [done|]. rewrite app_nil_r. apply not_removing_for.
    eapply runs_emits; [|done]. emits.
Qed.

Lemma runs_time_tail opt t dst s evs b s' : runs (time_tail opt t dst) s evs b s' ->
  Forall (removes_for dst b) evs /\
  (b = false -> updateModTime opt = true /\
     (Immutable ci = true \/ exists e, unsettable e /\ Ev (SetModTime dst t) (Some e) ∈ evs)).
Proof.
  unfold time_tail. intros H. runs_step; [|runs_step; split; [constructor|done]].
  runs_step.
  assert (Forall not_removing x) as Hx by (eapply runs_emits; [|done]; emits).
  apply (not_removing_for dst b) in Hx.
  runs_step; [runs_step; by rewrite app_nil_r|]. runs_step; [runs_step; rewrite app_nil_r; auto|].
  match goal with H : runs (update_time _ _) _ _ _ _ |- _ => apply runs_update_time in H as [HF Hb] end.
  split; [by apply Forall_app|]. intros E. split; [done|]. right. destruct (Hb E) as (e & He & Hin). exists e.
  split; [done|]. apply elem_of_app. by right.
Qed.

(** Why two files whose times do not settle it are different. *)
Definition different (opt : equalOpt) (t : Z) (src : info) (dst : object) (evs : trace) : Prop :=
  differ_hash evs src (IObject dst) \/
  (no_hash evs src (IObject dst) /\ RefreshTimes ci = false) \/
  (updateModTime opt = true /\
     (Immutable ci = true \/ exists e, unsettable e /\ Ev (SetModTime dst t) (Some e) ∈ evs)).

Section hashes.
Context (src : info) (dst : object).
Context (Hsrc : Hash.is_set (fs_Hashes (i_Fs src))) (Hdst : Hash.is_set (fs_Hashes (o_Fs dst))).

Lemma runs_hash_tail opt t s evs b s' : runs (hash_tail opt src t dst) s evs b s' ->
  Forall (removes_for dst b) evs /\
  (if b then same_hash evs src (IObject dst) \/ (no_hash evs src (IObject dst) /\ RefreshTimes ci = true)
   else different opt t src dst evs).
Proof.
  unfold hash_tail. intros H. runs_step.
  match goal with H : runs (CheckHashes _ _) _ _ ?r _ |- _ => destruct r as [[same ht] err];
    assert (Forall (removes_for dst b) x) as Hx by (apply not_removing_for; eapply runs_emits; [apply emits_CheckHashes; apply _|exact H]);
    apply (runs_CheckHashes _ _ _ _ _ _ _ _ Hsrc Hdst) in H end.
  assert (forall evs' : trace, x ⊆ x ++ evs') as Hi by set_solver.
  runs_step; [runs_step; sreflect; rewrite app_nil_r; split; [done|]; left; naive_solver|].
  runs_step; sreflect.
  { runs_step. rewrite app_nil_r. split; [done|]. right; left. naive_solver. }
  match goal with H : runs (time_tail _ _ _) _ _ _ _ |- _ => apply runs_time_tail in H as [HF Hb] end.
  split; [by apply Forall_app|]. subst same. destruct b.
  - destruct H0 as [(_ & _ & Hh) | [(_ & -> & Hh) | [? _]]]; [left; eapply same_hash_incl; [apply Hi|done]| |done].
    right. split; [eapply no_hash_incl; [apply Hi|done]|]. cbn in Heqb1. by destruct (RefreshTimes ci).
  - right; right. destruct (Hb eq_refl) as [Hu [Him | (e & He & Hin)]]; [by auto|]. split; [done|]. right. exists e.
    split; [done|]. apply elem_of_app. by right.
Qed.
(** Why two files of the same size are taken to be equal. *)
Definition alike (opt : equalOpt) (s : st) (evs : trace) : Prop :=
  sizeOnly opt = true \/ same_hash evs src (IObject dst) \/
  (no_hash evs src (IObject dst) /\ (checkSum opt = true \/ RefreshTimes ci = true)) \/
  (checkSum opt = false /\ forceModTimeMatch opt = false /\ times_agree s src dst).

(** Why they are taken to be different. *)
Definition unlike (opt : equalOpt) (s : st) (evs : trace) : Prop :=
  sizeOnly opt = false /\
  (if checkSum opt then differ_hash evs src (IObject dst)
   else (forceModTimeMatch opt = true \/ ~ times_agree s src dst) /\ different opt (info_time s src) src dst evs).

Lemma runs_equal opt s evs b s' : runs (equal src dst opt) s evs b s' ->
  Forall (removes_for dst b) evs /\
  (if b then sizes_agree s src (IObject dst) /\ alike opt s evs
   else ~ sizes_agree s src (IObject dst) \/ unlike opt s evs).
Proof.
  unfold equal. intros H. runs_step.
  match goal with H : runs (sizeDiffers _ _) _ _ _ _ |- _ => apply runs_sizeDiffers in H as (-> & -> & Hsize) end.
  cbn [app] in *. runs_step.
  { runs_step. split; [constructor|]. left. intros Hs. by apply Hsize in Hs. }
  apply proj1 in Hsize. specialize (Hsize eq_refl). unfold alike, unlike.
  runs_step; [runs_step; split; [constructor|]; auto|]. runs_step.
  { runs_step. match goal with H : runs (CheckHashes _ _) _ _ ?r _ |- _ => destruct r as [[same ht] err];
      assert (Forall (removes_for dst b) x) as Hx
        by (apply not_removing_for; eapply runs_emits; [apply emits_CheckHashes; apply _|exact H]);
      apply (runs_CheckHashes _ _ _ _ _ _ _ _ Hsrc Hdst) in H end.
    repeat runs_step. rewrite app_nil_r. split; [done|]. destruct same; naive_solver. }
  runs_step. match goal with H : runs (i_ModTime _) _ _ _ _ |- _ => apply runs_i_ModTime in H as (-> & -> & ->) end.
  cbn [app]. runs_step.
  { match goal with H : runs (hash_tail _ _ _ _) _ _ _ _ |- _ => apply runs_hash_tail in H as [HF Hb] end.
    split; [done|]. destruct b; naive_solver. }
  cbn zeta in *. unfold times_agree. runs_step; [runs_step; sreflect; split; [constructor|]; auto 10|].
  runs_step. runs_step. cbn [app] in *. runs_step.
  { runs_step. sreflect. split; [constructor|]. split; [done|]. right; right; right. split_and!; [done..|]. right. lia. }
  match goal with H : runs (hash_tail _ _ _ _) _ _ _ _ |- _ => apply runs_hash_tail in H as [HF Hb] end.
  split; [done|]. destruct b; [naive_solver|]. right. split; [done|]. split; [|done]. right. intros [E | E]; sreflect; [done|].
  match goal with H : _ && _ = false |- _ => apply andb_false_iff in H as [E' | E'] end; breflect; lia.
Qed.

End hashes.

(** The options that [NeedTransfer] compares with under --update: by content
    when the source is newer, by size unless --checksum is given when neither is. *)
Definition newer_opt : equalOpt := mkOpt (SizeOnly ci) (CheckSum ci) (negb (NoUpdateModTime ci)) true.
Definition close_opt : equalOpt := mkOpt (negb (CheckSum ci)) (CheckSum ci) (negb (NoUpdateModTime ci)) false.

(** By how much the destination is newer, and how much counts. *)
Definition age (s : st) (dst src : object) : Z := Sub (env_ModTime (calls s) dst) (env_ModTime (calls s) src).
Definition update_window (dst src : object) : Z :=
  let w := GetModifyWindow [o_Fs dst; o_Fs src] in if w =? ModTimeNotSupported then second else w.

(** The reasons not to transfer a file that is there already. *)
Definition skip_reason (s : st) (evs : trace) (dst src : object) : Prop :=
  let same opt := sizes_agree s (IObject src) (IObject dst) /\ alike (IObject src) dst opt s evs in
  IgnoreExisting ci = true \/
  (IgnoreTimes ci = false /\
   if UpdateOlder ci then
     let w := update_window dst src in
     w <= age s dst src \/ (age s dst src <= i64 (- w) /\ same newer_opt) \/ same close_opt
   else withEqualFn ci = true \/ same defaultEqualOpt).


Lemma runs_SameObject src dst s evs b s' : runs (SameObject src dst) s evs b s' -> evs = [].
Proof. unfold SameObject. intros H. repeat (runs_step; try done). Qed.

(** A file that is there already is skipped only for a reason: --ignore-existing, a destination that is newer
    with --update, or a comparison that found them alike; and a destination that was removed on the way is
    transferred. *)
Theorem NeedTransfer_decides dst src s evs b s' :
  Hash.is_set (fs_Hashes (o_Fs src)) -> Hash.is_set (fs_Hashes (o_Fs dst)) ->
  runs (NeedTransfer (Some dst) src) s evs b s' ->
  (b = false -> skip_reason s evs dst src) /\ (Exists (fun e => ev_removed e <> None) evs -> b = true).
Proof.
  intros Hs Hd. unfold NeedTransfer, skip_reason, update_window, age, Equal. intros H.
  assert (forall opt s evs b' s', runs (equal (IObject src) dst opt) s evs b' s' ->
    (b' = true -> sizes_agree s (IObject src) (IObject dst) /\ alike (IObject src) dst opt s evs) /\
    (Exists (fun e => ev_removed e <> None) evs -> b' = false)) as Heq.
  { intros opt s1 evs1 b' s1' H1. apply (runs_equal (IObject src) dst Hs Hd) in H1 as [HF Hb]. split.
    - by intros ->.
    - intros (e & He & Hr)%Exists_exists. rewrite Forall_forall in HF. destruct (HF e He) as [? | [_ [? _]]]; [by destruct Hr|done]. }
  assert (~ Exists (fun e => ev_removed e <> None) ([] : trace)) as Hnil by (intros Hx; inversion Hx).
  runs_step; [runs_step; split; [auto|done]|]. runs_step; [runs_step; split; [done|done]|].
  runs_step.
  - do 4 runs_step. cbn [app] in *. cbn zeta in *. runs_step; [runs_step; sreflect; split; [auto|done]|].
    runs_step; repeat runs_step; rewrite ?app_nil_r.
    all: match goal with H : runs (equal _ _ _) _ _ ?r _ |- _ => apply Heq in H as [Ht Hf]; destruct r end; sreflect.
    all: split; [intros ?|intros Hx; try (specialize (Hf Hx))]; auto 10; done.
  - runs_step.
    + repeat runs_step. split; [auto|]. intros Hx. inversion Hx as [e l He|e l He]; [|inversion He]. by destruct He.
    + runs_step. match goal with H : runs (equal _ _ _) _ _ ?r _ |- _ => apply Heq in H as [Ht Hf]; destruct r end.
      * repeat runs_step. match goal with H : runs (SameObject _ _) _ _ _ _ |- _ => apply runs_SameObject in H as -> end.
        rewrite app_nil_r. split; [auto 10|]. intros Hx. by specialize (Hf Hx).
      * repeat runs_step. done.
Qed.

End config.

(** Two files of the same size with other times and the same hash: the time is set. *)
Definition example_src : object := mkObject (mkFs "a" "" "local" 3 1 no_features) "f" 1 false false.
Definition example_dst : object := mkObject (mkFs "b" "" "memory" 2 1 no_features) "f" 2 false false.
Definition example_world : Env := example_env (fun _ => 5) (fun o => Z.of_nat (o_id o) * 10 ^ 9) (fun A _ c => default_answer c).

#[local] Existing Instance example_world.


Lemma NeedTransfer_decides_witness :
  exists evs s', runs (NeedTransfer default_config (Some example_dst) example_src) (mkSt [] ∅) evs false s' /\
    skip_reason default_config (mkSt [] ∅) evs example_dst example_src.
Proof.
  eexists _, _. assert (runs (NeedTransfer default_config (Some example_dst) example_src)
    (mkSt [] ∅) [Ev HashSrcFirst true; Ev (HashOf example_src 2) ("abc", None); Ev (HashOf example_dst 2) ("abc", None);
                 Ev (SetModTime example_dst (10 ^ 9)) None] false
    (mkSt [Ev HashSrcFirst true; Ev (HashOf example_src 2) ("abc", None); Ev (HashOf example_dst 2) ("abc", None);
                 Ev (SetModTime example_dst (10 ^ 9)) None] ∅)) as H by (split; reflexivity).
  split; [exact H|]. apply (NeedTransfer_decides default_config example_dst example_src _ _ _ _
    ltac:(split; reflexivity || (cbn; lia)) ltac:(split; reflexivity || (cbn; lia)) H). reflexivity.
Defined.
End Equal.
