(* ===== verification/Partial.v ===== *)
(** * The names of partial uploads: fs/operations/copy.go, fs/fingerprint.go

    A copy is written to a name of its own first: the name of the destination
    with a checksum and the partial suffix added, cut where it would get too
    long.  The checksum is over the name and the fingerprint of the source. *)
From S2P Require Import Prelude GoPath Utf8 Streams OpenOptions Hash FsErrors Backend.

Module Partial.
Import GoPath Utf8 FsErrors Backend.

(** ** From the standard library *)

(** hash/crc32 with the IEEE polynomial, bit by bit. *)
Definition crc_bit (c : Z) : Z := if Z.odd c then Z.lxor (c / 2) 3988292384 else c / 2.
Definition crc_byte (c b : Z) : Z := Nat.iter 8 crc_bit (Z.lxor c b).
Definition crc32 (b : bytes) : Z := Z.lxor (foldl crc_byte 4294967295 b) 4294967295.

Example crc32_check : crc32 (to_bytes "123456789") = 3421780262.   (* 0xcbf43926 *)
Proof. vm_compute. reflexivity. Qed.

(** %08x of a 32 bit number. *)
Definition hex8 (n : Z) : bytes := map (fun k => Hash.hexDigit (n / 16 ^ k mod 16)) [7; 6; 5; 4; 3; 2; 1; 0].

(** A number in decimal with at least [w] digits. *)
Definition zeros (w : nat) (n : Z) : string :=
  let s := OpenOptions.FormatInt n in
  of_bytes (repeat 48 (w - String.length s)) +:+ s.

(** The date of a number of days since 1970. *)
Definition civil (days : Z) : Z * Z * Z :=
  let z := days + 719468 in
  let era := z / 146097 in
  let doe := z mod 146097 in
  let yoe := (doe - doe / 1460 + doe / 36524 - doe / 146096) / 365 in
  let doy := doe - (365 * yoe + yoe / 4 - yoe / 100) in
  let mp := (5 * doy + 2) / 153 in
  let m := if mp <? 10 then mp + 3 else mp - 9 in
  (yoe + era * 400 + (if m <=? 2 then 1 else 0), m, doy - (153 * mp + 2) / 5 + 1).

Fixpoint trim_zeros (b : list ascii) : list ascii :=
  match b with c :: b' => if Ascii.eqb c "0" then trim_zeros b' else b | [] => [] end.

(** The nanoseconds as ".999999999" prints them. *)
Definition fraction (ns : Z) : string :=
  let s := String.list_ascii_of_string (zeros 9 ns) in
  match trim_zeros (reverse s) with
  | [] => ""
  | ds => "." +:+ String.string_of_list_ascii (reverse ds)
  end.

(** [Time.UTC().String()] *)
Definition time_String (t : Z) : string :=
  let secs := t / 10 ^ 9 in
  let '(y, m, d) := civil (secs / 86400) in
  let tod := secs mod 86400 in
  zeros 4 y +:+ "-" +:+ zeros 2 m +:+ "-" +:+ zeros 2 d +:+ " " +:+ zeros 2 (tod / 3600) +:+ ":" +:+
  zeros 2 (tod / 60 mod 60) +:+ ":" +:+ zeros 2 (tod mod 60) +:+ fraction (t mod 10 ^ 9) +:+ " +0000 UTC".

Example time_String_1 : time_String 1709210096120000000 = "2024-02-29 12:34:56.12 +0000 UTC".
Proof. vm_compute. reflexivity. Qed.

Example time_String_2 : time_String (-1) = "1969-12-31 23:59:59.999999999 +0000 UTC".
Proof. vm_compute. reflexivity. Qed.

(** [strings.HasSuffix] *)
Definition has_suffix (s suffix : string) : bool :=
  bool_decide (drop (String.length s - String.length suffix) (to_bytes s) = to_bytes suffix).

(** ** Truncation *)

(** The loop of [TruncateString]: bytes are taken off the end until what is left is valid. *)
Fixpoint shrink (fuel : nat) (truncated : bytes) : bytes :=
  match fuel, truncated with
  | S fuel', _ :: _ =>
      if ValidString truncated then truncated else shrink fuel' (take (length truncated - 1) truncated)
  | _, _ => truncated
  end.

Definition TruncateString (s : bytes) (n : Z) : Streams.outcome bytes :=
  if (n <? 0) || (n >? Streams.zlen s) then Streams.Panic
  else
    let truncated := Streams.ztake n s in
    if negb (ValidString s) then Streams.Ret truncated
    else Streams.Ret (shrink (length truncated) truncated).

(** ** The name of the partial *)

Section config.
Context {env : Env} (ci : ConfigInfo).

(** [fs.Fingerprint] *)
Definition Fingerprint (o : object) (fast : bool) : M string :=
  let f := o_Fs o in
  let features := fs_Features f in
  size ← Size o;
  let out := OpenOptions.FormatInt size in
  out ← (if negb fast || negb (ft_SlowModTime features) then
           if negb (fs_Precision f =? ModTimeNotSupported) then
             t ← ModTime o; mret (out +:+ "," +:+ time_String t)
           else mret out
         else mret out);
  if negb fast || negb (ft_SlowHash features) then
    let hashType := Hash.GetOne (fs_Hashes f) in
    if negb (hashType =? Hash.None_) then
      '(h, err) ← do_ (HashOf o hashType);
      match err with None => mret (out +:+ "," +:+ h) | Some _ => mret out end
    else mret out
  else mret out.

(** The suffix that is added, and the name with it. *)
Definition partial_suffix (remote fingerprint : string) : bytes :=
  46 :: hex8 (crc32 (to_bytes remote ++ to_bytes fingerprint)) ++ to_bytes (PartialSuffix ci).

Definition partial_name (remote : string) (suffix : bytes) : Streams.outcome bytes :=
  if Z.of_nat (String.length (path_Base remote)) >? 100 then
    match TruncateString (to_bytes remote) (Streams.zlen (to_bytes remote) - Streams.zlen suffix) with
    | Streams.Ret t => Streams.Ret (t ++ suffix)
    | Streams.Panic => Streams.Panic
    end
  else Streams.Ret (to_bytes remote ++ suffix).

(** [copy.checkPartial]: the name for the copy, whether it is written in place, and the error. *)
Definition checkPartial (f : Fs) (remote : string) (src : object) : M (string * bool * option error) :=
  if Inplace ci || negb (ft_Move (fs_Features f)) || negb (ft_PartialUploads (fs_Features f)) || has_suffix remote ".zclonelink"
  then mret (remote, true, None)
  else if Z.of_nat (String.length (PartialSuffix ci)) >? 16
  then mret (remote, true, Some (New "expecting length of --partial-suffix to be not greater than 16"))
  else
    fingerprint ← Fingerprint src true;
    match partial_name remote (partial_suffix remote fingerprint) with
    | Streams.Ret name => mret (of_bytes name, false, None)
    | Streams.Panic => panic
    end.

Lemma emits_Fingerprint P `{!Looks P} o fast : emits P (Fingerprint o fast).
Proof. unfold Fingerprint. emits. Qed.
Hint Resolve emits_Fingerprint : emits.

Lemma emits_checkPartial P `{!Looks P} f remote src : emits P (checkPartial f remote src).
Proof. unfold checkPartial. emits. Qed.
End config.

(** ** Truncation keeps as much as it can *)

Lemma take_prefix_take (s : bytes) n m : (m <= n)%nat -> take m (take n s) = take m s.
Proof. intros H. rewrite take_take. f_equal. lia. Qed.

Lemma ValidString_nil : ValidString [] = true.
Proof. reflexivity. Qed.

(** [shrink] finds the longest valid prefix. *)
Lemma shrink_spec fuel t : (length t <= fuel)%nat ->
  exists k, (k <= length t)%nat /\ shrink fuel t = take k t /\ ValidString (take k t) = true /\
    forall m, (k < m <= length t)%nat -> ValidString (take m t) = false.
Proof.
  revert t. induction fuel as [|fuel IH]; intros t Hlen.
  - destruct t; [|cbn in Hlen; lia]. exists 0%nat. split_and!; [done..|]. cbn. lia.
  - destruct (decide (t = [])) as [-> | Hne]; [exists 0%nat; split_and!; [done..|cbn; lia]|].
    assert (shrink (S fuel) t = if ValidString t then t else shrink fuel (take (length t - 1) t)) as Hsh by (by destruct t).
    assert (0 < length t)%nat as Hpos by (destruct t; [done|cbn; lia]). rewrite Hsh. destruct (ValidString t) eqn:Hv.
    + exists (length t). rewrite firstn_all. split_and!; [lia|done|done|lia].
    + destruct (IH (take (length t - 1) t)) as (k & Hk & Hs & Hval & Hmax); [rewrite length_take; lia|].
      rewrite length_take in Hk, Hmax. exists k. rewrite Hs, take_prefix_take by lia. rewrite take_prefix_take in Hval by lia.
      split_and!; [lia|done|done|]. intros m Hm. destruct (decide (m = length t)) as [-> | Hm']; [by rewrite firstn_all|].
      rewrite <- (take_prefix_take t (length t - 1)) by lia. apply Hmax. lia.
Qed.

(** Near every position of a valid string there is the end of a rune. *)
Lemma boundary rs n : Forall (fun r => ValidRune r = true) rs -> (n <= length (flat (map Rune rs)))%nat ->
  exists k, (length (flat (map Rune (take k rs))) <= n <= length (flat (map Rune (take k rs))) + 3)%nat.
Proof.
  revert n. induction rs as [|r rs IH]; intros n Hall Hn; [exists 0%nat; cbn in *; lia|].
  apply Forall_cons in Hall as [Hr Hall]. cbn [map] in Hn. rewrite flat_cons, length_app in Hn. cbn [item_bytes] in Hn.
  pose proof (encode_rune_length r) as Hl. destruct (decide (n < length (encode_rune r))%nat) as [Hlt | Hge].
  - exists 0%nat. cbn. lia.
  - destruct (IH (n - length (encode_rune r))%nat Hall ltac:(lia)) as (k & Hk). exists (S k). cbn [firstn map].
    rewrite flat_cons, length_app. cbn [item_bytes]. lia.
Qed.

Lemma valid_prefix rs k : Forall (fun r => ValidRune r = true) rs ->
  let p := length (flat (map Rune (take k rs))) in
  take p (flat (map Rune rs)) = flat (map Rune (take k rs)) /\ ValidString (flat (map Rune (take k rs))) = true.
Proof.
  intros Hall p. split.
  - unfold p. rewrite <- (take_drop k rs) at 2. by rewrite map_app, flat_app, take_app_length.
  - unfold ValidString. rewrite items_flat by (apply canonical_runes, Forall_take, Hall).
    apply forallb_forall. intros it (r & <- & _)%in_map_iff. done.
Qed.

Lemma valid_runes s : Forall is_byte s -> ValidString s = true ->
  exists rs, Forall (fun r => ValidRune r = true) rs /\ s = flat (map Rune rs).
Proof.
  intros Hb Hv. destruct (ValidString_items s Hv) as [rs Hrs]. exists rs. rewrite <- Hrs, flat_items by done. split; [|done].
  pose proof (canonical_Forall _ (canonical_items s Hb)) as HF. rewrite Hrs in HF. by rewrite Forall_map in HF.
Qed.

(** What [TruncateString] returns. *)
Definition truncated_to (s : bytes) (n : Z) (t : bytes) : Prop :=
  t `prefix_of` s /\ Streams.zlen t <= n /\
    (if ValidString s then ValidString t = true /\ n - 3 <= Streams.zlen t /\
       forall t', t' `prefix_of` s -> Streams.zlen t' <= n -> ValidString t' = true -> Streams.zlen t' <= Streams.zlen t
     else Streams.zlen t = n).

Lemma TruncateString_spec (s : bytes) (n : Z) : Forall is_byte s -> 0 <= n <= Streams.zlen s ->
  exists t, TruncateString s n = Streams.Ret t /\ truncated_to s n t.
Proof.
  intros Hb Hn. unfold TruncateString, truncated_to. rewrite (proj2 (Z.ltb_ge n 0)), Z.gtb_ltb, (proj2 (Z.ltb_ge _ n)) by lia. cbn [orb].
  unfold Streams.zlen, Streams.ztake in *. destruct (ValidString s) eqn:Hv; cbn [negb].
  - destruct (shrink_spec (length (take (Z.to_nat n) s)) (take (Z.to_nat n) s) (Nat.le_refl _)) as (k & Hk & -> & Hval & Hmax).
    rewrite length_take in Hk, Hmax. rewrite take_prefix_take in * by lia. exists (take k s). rewrite length_take.
    split_and!; [done|by exists (drop k s); rewrite take_drop|lia|done| |].
    + destruct (valid_runes s Hb Hv) as (rs & Hrs & ->). destruct (boundary rs (Z.to_nat n) Hrs ltac:(lia)) as (j & Hj).
      destruct (valid_prefix rs j Hrs) as [Hp Hvp]. set (p := length (flat (map Rune (take j rs)))) in *.
      destruct (decide (k < p)%nat) as [Hlt | Hge]; [|lia]. specialize (Hmax p ltac:(lia)).
      rewrite take_prefix_take, Hp in Hmax by lia. congruence.
    + intros t' [rest ->] Hlen Hv'. rewrite length_app in *. destruct (decide (k < length t')%nat) as [Hlt | Hge]; [|lia].
      specialize (Hmax (length t') ltac:(lia)). rewrite take_prefix_take, take_app_length in Hmax by lia. congruence.
  - exists (take (Z.to_nat n) s). rewrite length_take. split_and!; [done|by exists (drop (Z.to_nat n) s); rewrite take_drop|lia|lia].
Qed.

(** [TruncateString] cuts a valid string to its longest valid prefix of at most [n] bytes, at most three bytes
    shorter than asked for, and any other string to exactly [n] bytes. *)
Theorem TruncateString_longest (s : bytes) (n : Z) : Forall is_byte s -> 0 <= n <= Streams.zlen s ->
  exists t, TruncateString s n = Streams.Ret t /\ truncated_to s n t.
Proof. apply TruncateString_spec. Qed.

Lemma TruncateString_longest_witness :
  exists t, TruncateString [97; 226; 130; 172; 98] 3 = Streams.Ret t /\ t `prefix_of` [97; 226; 130; 172; 98] /\ Streams.zlen t <= 3 /\
    ValidString t = true.
Proof.
  destruct (TruncateString_longest [97; 226; 130; 172; 98] 3) as (t & H1 & H2 & H3 & H4 & _).
  - repeat constructor; lia.
  - vm_compute. split; discriminate.
  - exists t. split; [exact H1|]. split; [exact H2|]. split; [exact H3|exact H4].
Defined.

(** ** The name stays in its directory *)

Lemma hexDigit_range v : 0 <= v < 16 -> is_byte (Hash.hexDigit v) /\ Hash.hexDigit v <> 47.
Proof. intros H. unfold Hash.hexDigit, is_byte. destruct (v <? 10) eqn:E; breflect; lia. Qed.

Lemma hex8_fine n : Forall is_byte (hex8 n) /\ (47 ∉ hex8 n) /\ length (hex8 n) = 8%nat.
Proof.
  assert (Forall (fun b => is_byte b /\ b <> 47) (hex8 n)) as H.
  { unfold hex8. apply Forall_map, Forall_forall. intros k _. apply hexDigit_range, Z.mod_pos_bound. lia. }
  split_and!; [|intros Hin|done].
  - eapply Forall_impl; [exact H|]. by intros b [? _].
  - rewrite Forall_forall in H. by apply H in Hin as [_ ?].
Qed.

Section names.
Context (ci : ConfigInfo) (parts : list string) (leaf : string).
Context (Hparts : Forall good parts) (Hleaf : good leaf).

(** The bytes of a name in the same directory. *)
Lemma name_bytes x : to_bytes (join_with "/" (parts ++ [x])) = to_bytes (join_with "/" (parts ++ [""])) ++ to_bytes x.
Proof. by rewrite join_snoc, to_bytes_app. Qed.

(** A partial upload has a name in the directory of its destination: the path of the directory is kept, the name
    has no slash, it is at most 25 bytes longer than that of the destination and is not the same, and where that
    has more than 100 bytes it is no longer at all; the code does not panic. *)
Theorem partial_name_stays (fingerprint : string) :
  has_char slash (PartialSuffix ci) = false -> (String.length (PartialSuffix ci) <= 16)%nat ->
  let remote := join_with "/" (parts ++ [leaf]) in
  exists leaf', partial_name remote (partial_suffix ci remote fingerprint) = Streams.Ret (to_bytes (join_with "/" (parts ++ [leaf']))) /\
    has_char slash leaf' = false /\ leaf' <> "" /\
    (if (100 <? String.length leaf)%nat then (String.length leaf' <= String.length leaf)%nat
     else leaf' <> leaf /\ (String.length leaf' <= String.length leaf + 25)%nat).
Proof.
  intros Hslash Hlen remote. set (suffix := partial_suffix ci remote fingerprint).
  destruct (hex8_fine (crc32 (to_bytes remote ++ to_bytes fingerprint))) as (Hhb & Hhs & Hhl).
  assert (Forall is_byte suffix) as Hsb.
  { constructor; [unfold is_byte; lia|]. apply Forall_app. split; [done|apply to_bytes_is_byte]. }
  assert (47 ∉ suffix) as Hss.
  { unfold suffix, partial_suffix. rewrite not_elem_of_cons, not_elem_of_app. split_and!; [lia|done|by apply has_slash]. }
  assert (length suffix = 9 + String.length (PartialSuffix ci))%nat as Hsl.
  { unfold suffix, partial_suffix. cbn [length]. rewrite length_app, Hhl, to_bytes_length. lia. }
  assert (47 ∉ to_bytes leaf) as Hls by (apply has_slash, Hleaf).
  assert (path_Base remote = leaf) as Hbase by (by apply path_Base_join).
  set (dir := to_bytes (join_with "/" (parts ++ [""]))).
  assert (to_bytes remote = dir ++ to_bytes leaf) as Hrem by apply name_bytes.
  pose proof (to_bytes_length leaf) as Hll.
  (* what remains of the leaf, with the suffix *)
  assert (forall k, exists leaf', dir ++ take k (to_bytes leaf) ++ suffix = to_bytes (join_with "/" (parts ++ [leaf'])) /\
    has_char slash leaf' = false /\ leaf' <> "" /\ String.length leaf' = (Nat.min k (length (to_bytes leaf)) + length suffix)%nat) as Hname.
  { intros k. exists (of_bytes (take k (to_bytes leaf) ++ suffix)).
    assert (to_bytes (of_bytes (take k (to_bytes leaf) ++ suffix)) = take k (to_bytes leaf) ++ suffix) as Hb.
    { apply to_bytes_of_bytes, Forall_app. split; [apply Forall_take, to_bytes_is_byte|done]. }
    rewrite name_bytes, Hb. fold dir. rewrite has_slash, Hb, <- to_bytes_length, Hb, length_app, length_take.
    split_and!; [done| |intros E; rewrite E in Hb; cbn in Hb; destruct (take k (to_bytes leaf)); done|done].
    rewrite not_elem_of_app. split; [|done]. intros Hin. apply Hls. by eapply subseteq_take. }
  unfold partial_name. rewrite Hbase. destruct (100 <? String.length leaf)%nat eqn:E; breflect.
  - rewrite Z.gtb_ltb, (proj2 (Z.ltb_lt 100 _)) by lia.
    assert (Streams.zlen (to_bytes remote) = Z.of_nat (length dir) + Z.of_nat (String.length leaf)) as Hzl.
    { unfold Streams.zlen. rewrite Hrem, length_app. lia. }
    destruct (TruncateString_spec (to_bytes remote) (Streams.zlen (to_bytes remote) - Streams.zlen suffix)) as (t & -> & [r Hr] & Hle & Hv).
    { apply to_bytes_is_byte. }
    { rewrite Hzl. unfold Streams.zlen. lia. }
    assert (Streams.zlen (to_bytes remote) - Streams.zlen suffix - 3 <= Streams.zlen t) as Hge by (destruct (ValidString (to_bytes remote)); lia).
    rewrite Hzl in *. unfold Streams.zlen in Hge, Hle.
    assert (t = dir ++ take (length t - length dir) (to_bytes leaf)) as Ht.
    { rewrite Hrem in Hr. apply (f_equal (take (length t))) in Hr. rewrite take_app_length, take_app_ge in Hr by lia. done. }
    destruct (Hname (length t - length dir)%nat) as (leaf' & Hl1 & Hl2 & Hl3 & Hl4). exists leaf'.
    split_and!; [|done|done|rewrite Hl4; lia]. f_equal. rewrite Ht, <- app_assoc. exact Hl1.
  - rewrite Z.gtb_ltb, (proj2 (Z.ltb_ge 100 _)) by lia.
    destruct (Hname (length (to_bytes leaf))) as (leaf' & Hl1 & Hl2 & Hl3 & Hl4). rewrite firstn_all in Hl1. exists leaf'.
    split_and!; [|done|done|intros ->; lia|lia]. f_equal. rewrite Hrem, <- app_assoc. exact Hl1.
Qed.
End names.

Lemma partial_name_stays_witness :
  exists leaf', partial_name "a/b/f.txt" (partial_suffix default_config "a/b/f.txt" "12") = Streams.Ret (to_bytes (join_with "/" (["a"; "b"] ++ [leaf']))) /\
    has_char slash leaf' = false /\ leaf' <> "".
Proof.
  destruct (partial_name_stays default_config ["a"; "b"] "f.txt" ltac:(repeat constructor; done) ltac:(repeat constructor; done) "12"
    ltac:(reflexivity) ltac:(cbn; lia)) as (leaf' & H1 & H2 & H3 & _).
  exists leaf'. split; [exact H1|]. split; [exact H2|exact H3].
Defined.

End Partial.
