(* ===== verification/Copy.v ===== *)
(** * Copying a file: fs/operations/copy.go, multithread.go and rcatSrc of operations.go

    A copy is made by the server, in several streams, from a stream of unknown
    length or in one stream, with retries; then it is verified and, if it was
    written to a partial name, moved to its real name.  The theorems are about
    the calls that are made, for all answers of the backends. *)
From S2P Require Import Prelude GoPath Utf8 Streams Hash FsErrors Backend Equal Partial.

Module Copy.
Import GoPath FsErrors Backend Equal Partial.

(** The state of a copy. *)
Record copy : Type := mkCopy {
  c_f : Fs;
  c_dst : option object;
  c_remote : string;
  c_src : object;
  c_maxTries : nat;
  c_hashType : Z;
  c_inplace : bool;
  c_remoteForCopy : string }.

Definition c_doUpdate (c : copy) : bool := match c_dst c with Some _ => true | None => false end.
Definition c_features (c : copy) : Features := fs_Features (c_f c).

Section config.
Context {env : Env} (ci : ConfigInfo).

(** ** Removing what failed *)

Definition removeFailedCopy (o : option object) : M unit :=
  match o with
  | None => mret tt
  | Some o => _ ← do_ (Remove o); mret tt
  end.

Definition removeFailedPartialCopy (f : Fs) (remote : string) : M unit :=
  r ← do_ (NewObject f remote);
  match r with
  | inl _ => mret tt
  | inr o => removeFailedCopy (Some o)
  end.

(** ** Limits *)

Definition ErrorMaxTransferLimitReached : error := New "max transfer limit reached as set by --max-transfer".

Definition checkLimits (c : copy) : M (option error) :=
  if MaxTransfer ci <? 0 then mret None
  else
    bytesSoFar ← match Cutoff ci with
                 | CutoffModeCautious => n ← do_ (GetBytes true); size ← Size (c_src c); mret (i64 (n + size))
                 | _ => do_ (GetBytes false)
                 end;
    if bytesSoFar >=? MaxTransfer ci then
      mret (Some (match Cutoff ci with
                  | CutoffModeHard => FatalError ErrorMaxTransferLimitReached
                  | _ => NoRetryError ErrorMaxTransferLimitReached
                  end))
    else mret None.

(** ** On the server *)

Definition serverSideCopyOK (c : copy) : bool :=
  if negb (ft_Copy (c_features c)) then false
  else if SameConfig (o_Fs (c_src c)) (c_f c) then true
  else if SameRemoteType (o_Fs (c_src c)) (c_f c)
  then ft_ServerSideAcrossConfigs (c_features c) || ServerSideAcrossConfigs ci
  else false.

Definition serverSideCopy (c : copy) : M res :=
  if negb (serverSideCopyOK c) then mret (None, Some (New ErrorCantCopy))
  else
    r ← do_ (ServerCopy (c_f c) (c_src c) (c_remoteForCopy c));
    mret (match r with inl e => (None, Some e) | inr o => (Some o, None) end).

(** ** In several streams *)

Definition doMultiThreadCopy (f : Fs) (src : object) : M bool :=
  size ← Size src;
  mret (negb (MultiThreadStreams ci <=? 1) && negb (ft_NoMultiThreading (fs_Features (o_Fs src))) &&
        negb (size <? MultiThreadCutoff ci) &&
        (ft_OpenChunkWriter (fs_Features f) || ft_OpenWriterAt (fs_Features f)) &&
        (MultiThreadSet ci || negb (ft_IsLocal (fs_Features f)) || negb (ft_IsLocal (fs_Features (o_Fs src))))).

(** [Abort] of the writer made from [OpenWriterAt], or of the backend. *)
Definition abort (usingOpenWriterAt : bool) (f : Fs) (remote : string) : M unit :=
  if usingOpenWriterAt then
    _ ← do_ (CloseWriter f remote);
    r ← do_ (NewObject f remote);
    match r with inl _ => mret tt | inr o => _ ← do_ (Remove o); mret tt end
  else _ ← do_ (AbortWriter f remote); mret tt.

(** The end of [multiThreadCopy]: [OpenWriterAt] does not set times and metadata. *)
Definition set_meta (obj src : object) : M (option error) :=
  err ← (if Metadata ci && o_SetMetadataer obj then
           e ← do_ (GetMetadata src);
           match e with
           | Some e => mret (inl (Some (Wrap (WMsg "multi-thread copy: failed to read metadata from source object: ") e)))
           | None =>
               e ← do_ (SetMetadata obj);
               match e with
               | Some e => mret (inl (Some (Wrap (WMsg "multi-thread copy: failed to set metadata: ") e)))
               | None => mret (inl None)
               end
           end
         else mret (inr tt));
  match err with
  | inl e => mret e
  | inr _ =>
      t ← ModTime src;
      e ← do_ (SetModTime obj t);
      match e with
      | None => mret None
      | Some e =>
          if same ErrorCantSetModTime e || same ErrorCantSetModTimeWithoutDelete e then mret None
          else mret (Some (Wrap (WMsg "multi-thread copy: failed to set modification time: ") e))
      end
  end.

(** After the chunks are written, whatever their order: close, find and finish the object. *)
Definition finish_chunks (usingOpenWriterAt : bool) (f : Fs) (remote : string) (src : object) : M (bool * res) :=
  e ← do_ (CloseWriter f remote);
  match e with
  | Some e => mret (false, (None, Some (Wrap (WMsg "multi-thread copy: failed to close object after copy: ") e)))
  | None =>
      r ← do_ (NewObject f remote);
      match r with
      | inl e => mret (true, (None, Some (Wrap (WMsg "multi-thread copy: failed to find object after copy: ") e)))
      | inr obj =>
          if usingOpenWriterAt : bool then
            e ← set_meta obj src;
            mret (true, (match e with Some e => (None, Some e) | None => (Some obj, None) end))
          else mret (true, (Some obj, None))
      end
  end.

(** The copying of the chunks by the group is the call [WriteChunks]; the writer is
    aborted on an error unless the file was uploaded or the parts are to be left. *)
Definition multiThreadCopy (f : Fs) (remote : string) (src : object) : M res :=
  let usingOpenWriterAt := negb (ft_OpenChunkWriter (fs_Features f)) in
  if usingOpenWriterAt && negb (ft_OpenWriterAt (fs_Features f)) then
    mret (None, Some (New "multi-thread copy: neither OpenChunkWriter nor OpenWriterAt supported"))
  else
    size ← Size src;
    if size <? 0 then mret (None, Some (New "multi-thread copy: can't copy unknown sized file"))
    else if size =? 0 then mret (None, Some (New "multi-thread copy: can't copy zero sized file"))
    else
      opened ← (if usingOpenWriterAt then
                  e ← do_ (OpenWriterAt f remote);
                  mret (match e with Some e => inl e | None => inr false end)
                else
                  r ← do_ (OpenChunkWriter f remote);
                  mret (match r with inl e => inl e | inr (_, leave) => inr leave end));
      match opened with
      | inl e => mret (None, Some (Wrap (WMsg "multi-thread copy: failed to open chunk writer: ") e))
      | inr leaveParts =>
          e ← do_ (WriteChunks f remote);
          '(uploadedOK, r) ← match e with
                             | Some e => mret (false, (None, Some e))
                             | None => finish_chunks usingOpenWriterAt f remote src
                             end;
          match r with
          | (_, Some _) =>
              if leaveParts || uploadedOK then mret r
              else _ ← abort usingOpenWriterAt f remote; mret r
          | _ => mret r
          end
      end.

(** ** From a stream *)

(** The upload of what is in memory or spooled: [Put] with retries; the object is the one of the last [Put]. *)
Definition put_retry (f : Fs) (remote : string) : M res :=
  Retry (LowLevelRetries ci) None (fun dst =>
    e ← do_ Rewind;
    match e with
    | Some e => mret (dst, Some (Errorv "failed to rewind temporary spool file: " e))
    | None => do_ (Put f remote)
    end).

Definition rcat_upload (f : Fs) (remote : string) : M res :=
  fileIsSmall ← do_ ReadStart;
  if fileIsSmall : bool then put_retry f remote
  else if negb (ft_PutStream (fs_Features f)) then
    e ← do_ MakeSpool;
    match e with
    | Some e => mret (None, Some (Errorv "failed to create temporary spool file: " e))
    | None =>
        e ← do_ FillSpool;
        match e with
        | Some e => mret (None, Some (Errorv "failed to copy to temporary spool file: " e))
        | None => put_retry f remote
        end
    end
  else do_ (PutStream f remote).

(** What is known of the input after it was read. *)
Definition rcat_info (f : Fs) (ht modTime : Z) : M info :=
  hashes ← (if IgnoreChecksum ci then mret (list_to_map (map (fun t => (t, "")) (Hash.Array (fs_Hashes f))))
            else if ht =? Hash.None_ then mret ∅
            else h ← do_ (HasherSum ht); mret {[ ht := h ]});
  size ← do_ BytesRead;
  mret (IStatic f modTime size hashes).

Definition rcatSrc (f : Fs) (remote : string) (modTime : Z) : M res :=
  skip ← SkipDestructive ci "upload from pipe";
  if skip : bool then e ← do_ ReadAll; mret (None, e)
  else
    let ht := Hash.GetOne (fs_Hashes f) in
    if negb (IgnoreChecksum ci) && negb (Hash.SubsetOf (Hash.NewHashSet [ht]) (Hash.Supported Hash.init))
    then mret (None, Some (New "requested set contains unknown hash types"))
    else
      r ← rcat_upload f remote;
      match r with
      | (dst, Some e) => mret (dst, Some e)
      | (dst, None) =>
          let opt := defaultEqualOpt ci in
          let opt := mkOpt (sizeOnly opt) (if IgnoreChecksum ci then checkSum opt else true) (updateModTime opt) (forceModTimeMatch opt) in
          src ← rcat_info f ht modTime;
          o ← ptr dst;
          same ← equal ci src o opt;
          if same : bool then mret (dst, None)
          else e ← CountError (New "corrupted on transfer"); mret (dst, Some e)
      end.

Definition rcat (c : copy) : M res :=
  _ ← (if Metadata ci then _ ← do_ (GetMetadata (c_src c)); mret tt else mret tt);
  t ← ModTime (c_src c);
  rcatSrc (c_f c) (c_remoteForCopy c) t.

(** ** In one stream *)

Definition updateOrPut (c : copy) : M res :=
  '(newDst, err) ← match c_dst c with
                   | Some dst =>
                       if c_inplace c then e ← do_ (Update dst); mret (match e with None => Some dst | Some _ => None end, e)
                       else do_ (Put (c_f c) (c_remoteForCopy c))
                   | None => do_ (Put (c_f c) (c_remoteForCopy c))
                   end;
  closeErr ← do_ CloseSrc;
  mret (newDst, match err with None => closeErr | Some _ => err end).

Definition is_err (target : string) (err : option error) : bool :=
  match err with Some e => Is target e | None => false end.

Definition manualCopy (c : copy) : M res :=
  multi ← doMultiThreadCopy (c_f c) (c_src c);
  r ← (if multi : bool then
         r ← multiThreadCopy (c_f c) (c_remoteForCopy c) (c_src c);
         mret (if is_err ErrorRangeIgnored (snd r) then None else Some r)
       else mret None);
  match r with
  | Some r => mret r
  | None =>
      e ← do_ (OpenSrc (c_src c));
      match e with
      | Some e => mret (None, Some (Wrap (WMsg "failed to open source object: ") e))
      | None =>
          size ← Size (c_src c);
          if size =? -1 then rcat c else updateOrPut c
      end
  end.

(** ** Verification *)

(** The new object may be a nil pointer; the size is then looked at only if it is compared. *)
Definition verify (c : copy) (newDst : option object) : M (option error) :=
  size ← Size (c_src c);
  differ ← (if IgnoreSize ci || (size <? 0) then mret false
            else o ← ptr newDst; sizeDiffers ci (IObject (c_src c)) (IObject o));
  if differ : bool then mret (Some (New "corrupted on transfer: sizes differ"))
  else if negb (c_hashType c =? Hash.None_) then
    o ← ptr newDst;
    '(same, _, _, _) ← checkHashes (IObject (c_src c)) o (c_hashType c);
    mret (if same : bool then None else Some (New "corrupted on transfer: hashes differ"))
  else mret None.

(** ** The whole *)

(** The loop: at most [n] more tries; [inl] is a limit that was reached. *)
Fixpoint try_copy (n : nat) (c : copy) (last : res) : M (error + res) :=
  match n with
  | O => mret (inr last)
  | S n' =>
      limit ← checkLimits c;
      match limit with
      | Some e => mret (inl e)
      | None =>
          r ← serverSideCopy c;
          r ← (if is_err ErrorCantCopy (snd r) then manualCopy c else mret r);
          '(stop, err) ← ContextError (snd r);
          if stop : bool then mret (inr (fst r, err))
          else match err with
               | Some e => if retriable e then try_copy n' c (fst r, Some e) else mret (inr (fst r, Some e))
               | None => mret (inr (fst r, None))
               end
      end
  end.

(** The move to the real name. *)
Definition move_into_place (c : copy) (newDst : option object) : M res :=
  if negb (c_inplace c) && negb (str_eqb (c_remoteForCopy c) (c_remote c)) then
    o ← ptr newDst;
    r ← do_ (ServerMove (c_f c) o (c_remote c));
    match r with
    | inl e => e ← CountError e; _ ← removeFailedCopy newDst; mret (None, Some e)
    | inr moved => mret (Some moved, None)
    end
  else mret (newDst, None).

Definition copy_ (c : copy) : M res :=
  r ← try_copy (c_maxTries c) c (None, None);
  match r with
  | inl e => mret (None, Some e)
  | inr (newDst, Some e) =>
      e ← CountError e;
      _ ← (if negb (c_inplace c) then removeFailedPartialCopy (c_f c) (c_remoteForCopy c) else mret tt);
      mret (newDst, Some e)
  | inr (newDst, None) =>
      v ← verify c newDst;
      match v with
      | Some e => e ← CountError e; _ ← removeFailedCopy newDst; mret (None, Some e)
      | None => move_into_place c newDst
      end
  end.

Definition Copy (f : Fs) (dst : option object) (remote : string) (src : object) : M res :=
  skip ← SkipDestructive ci "copy";
  if skip : bool then mret (None, None)
  else
    let remote := TransformPath (match dst with Some d => o_Remote d | None => remote end) in
    '(remoteForCopy, inplace, err) ← checkPartial ci f remote src;
    match err with
    | Some e => mret (None, Some e)
    | None =>
        copy_ (mkCopy f dst remote src (LowLevelRetries ci) (fst (CommonHash ci f (o_Fs src))) inplace remoteForCopy)
    end.
(** ** The calls of a copy

    [N] is what is known of the objects that the remote [f] returns for the name
    [r], [P] accepts the calls that write that name or change such objects. *)
Record gives (f : Fs) (r : string) (N : object -> Prop) : Prop := {
  gives_NewObject : forall t o, answer _ t (NewObject f r) = inr o -> N o;
  gives_ServerCopy : forall t src o, answer _ t (ServerCopy f src r) = inr o -> N o;
  gives_Put : forall t o, fst (answer _ t (Put f r)) = Some o -> N o;
  gives_PutStream : forall t o, fst (answer _ t (PutStream f r)) = Some o -> N o }.

Record accepts (P : event -> Prop) (f : Fs) (r : string) (N : object -> Prop) : Prop := {
  acc_ServerCopy : forall src a, P (Ev (ServerCopy f src r) a);
  acc_Put : forall a, P (Ev (Put f r) a);
  acc_PutStream : forall a, P (Ev (PutStream f r) a);
  acc_OpenChunkWriter : forall a, P (Ev (OpenChunkWriter f r) a);
  acc_OpenWriterAt : forall a, P (Ev (OpenWriterAt f r) a);
  acc_WriteChunks : forall a, P (Ev (WriteChunks f r) a);
  acc_CloseWriter : forall a, P (Ev (CloseWriter f r) a);
  acc_AbortWriter : forall a, P (Ev (AbortWriter f r) a);
  acc_Remove : forall o a, N o -> P (Ev (Remove o) a);
  acc_SetMetadata : forall o a, N o -> P (Ev (SetMetadata o) a);
  acc_SetModTime : forall o t a, N o -> P (Ev (SetModTime o t) a) }.

Section calls.
Context (P : event -> Prop) `{!Looks P} (f : Fs) (r : string) (N : object -> Prop).
Context (HN : gives f r N) (HP : accepts P f r N).

Definition all_N (x : res) : Prop := forall o, fst x = Some o -> N o.

Lemma emits_removeFailedCopy o : (forall x, o = Some x -> N x) -> emits P (removeFailedCopy o).
Proof.
  intros Ho. destruct o as [o|]; cbn [removeFailedCopy]; [|apply emits_ret]. apply emits_bind; [|intros; apply emits_ret].
  apply emits_do. intros a. apply (acc_Remove _ _ _ _ HP), Ho. done.
Qed.

Lemma spec_NewObject : spec P (do_ (NewObject f r)) (fun x => match x with inr o => N o | inl _ => True end).
Proof.
  apply spec_do; intros t; [by apply looks|]. destruct (answer _ t (NewObject f r)) eqn:E; [done|]. by apply (gives_NewObject _ _ _ HN t).
Qed.

Lemma emits_removeFailedPartialCopy : emits P (removeFailedPartialCopy f r).
Proof.
  apply (emits_spec _ _ (fun _ => True)). eapply spec_bind; [apply spec_NewObject|]. intros [e|o] Ho; [by apply spec_ret|].
  apply spec_emits; [|done]. apply emits_removeFailedCopy. by intros x [= <-].
Qed.

Lemma emits_abort b : emits P (abort b f r).
Proof.
  unfold abort. destruct b.
  - apply emits_bind; [by apply emits_do, (acc_CloseWriter _ _ _ _ HP)|]. intros _.
    apply (emits_spec _ _ (fun _ => True)). eapply spec_bind; [apply spec_NewObject|]. intros [e|o] Ho; [by apply spec_ret|].
    apply spec_emits; [|done]. apply emits_bind; [|intros; apply emits_ret]. apply emits_do. intros a. by apply (acc_Remove _ _ _ _ HP).
  - apply emits_bind; [by apply emits_do, (acc_AbortWriter _ _ _ _ HP)|]. intros. apply emits_ret.
Qed.

Lemma emits_set_meta obj src : N obj -> emits P (set_meta obj src).
Proof.
  intros Ho. unfold set_meta. apply emits_bind.
  - destruct (Metadata ci && o_SetMetadataer obj); [|apply emits_ret]. apply emits_bind; [by apply emits_look|].
    intros [e|]; [apply emits_ret|]. apply emits_bind; [by apply emits_do; intros; apply (acc_SetMetadata _ _ _ _ HP)|].
    intros [e|]; apply emits_ret.
  - intros [e|?]; [apply emits_ret|]. apply emits_bind; [apply emits_ModTime|]. intros t.
    apply emits_bind; [by apply emits_do; intros; apply (acc_SetModTime _ _ _ _ HP)|]. intros e. emits.
Qed.

Lemma spec_finish_chunks b src : spec P (finish_chunks b f r src) (fun x => all_N (snd x)).
Proof.
  unfold finish_chunks. apply spec_bind_emits; [by apply emits_do, (acc_CloseWriter _ _ _ _ HP)|]. intros [e|]; [by apply spec_ret|].
  eapply spec_bind; [apply spec_NewObject|]. intros [e|o] Ho; [by apply spec_ret|].
  destruct b; [|apply spec_ret; by intros x [= <-]]. apply spec_bind_emits; [by apply emits_set_meta|].
  intros [e|]; apply spec_ret; [done|by intros x [= <-]].
Qed.

Lemma spec_multiThreadCopy src : spec P (multiThreadCopy f r src) all_N.
Proof.
  unfold multiThreadCopy. destruct (_ && _); [by apply spec_ret|]. apply spec_bind_emits; [apply emits_Size|]. intros size.
  destruct (size <? 0); [by apply spec_ret|]. destruct (size =? 0); [by apply spec_ret|]. apply spec_bind_emits.
  { destruct (negb _); (apply emits_bind; [|intros; apply emits_ret]); apply emits_do, HP. }
  intros [e|leave]; [by apply spec_ret|]. apply spec_bind_emits; [by apply emits_do, (acc_WriteChunks _ _ _ _ HP)|]. intros e.
  apply (spec_bind _ _ _ (fun x => all_N (snd x))).
  { destruct e as [e|]; [by apply spec_ret|apply spec_finish_chunks]. }
  intros [ok [o [e'|]]] Ho; cbn [snd] in Ho; [|by apply spec_ret]. destruct (leave || ok); [by apply spec_ret|].
  apply spec_bind_emits; [apply emits_abort|]. intros _. by apply spec_ret.
Qed.

Lemma spec_put_retry : spec P (put_retry f r) all_N.
Proof.
  unfold put_retry.
  assert (forall n dst, (forall o, dst = Some o -> N o) -> spec P (Retry n dst (fun dst : option object =>
    e ← do_ Rewind; match e with Some e => mret (dst, Some (Errorv "failed to rewind temporary spool file: " e)) | None => do_ (Put f r) end)) all_N) as H;
    [|by apply H].
  induction n as [|n IH]; intros dst Hd; cbn [Retry]; [by apply spec_ret|].
  apply (spec_bind _ _ _ all_N).
  - apply spec_bind_emits; [by apply emits_look|]. intros [e|]; [by apply spec_ret|].
    apply spec_do; intros t; [apply HP|]. intros o. apply (gives_Put _ _ _ HN).
  - intros [v [e|]] Hv; [|by apply spec_ret]. apply spec_bind_emits; [by apply emits_ContextError|]. intros [[] _]; [by apply spec_ret|].
    destruct (retriable e); [|by apply spec_ret]. destruct (Nat.eqb n 0); [by apply spec_ret|]. by apply IH.
Qed.

Lemma spec_rcat_upload : spec P (rcat_upload f r) all_N.
Proof.
  unfold rcat_upload. apply spec_bind_emits; [by apply emits_look|]. intros []; [apply spec_put_retry|]. destruct (negb _).
  - apply spec_bind_emits; [by apply emits_look|]. intros [e|]; [by apply spec_ret|].
    apply spec_bind_emits; [by apply emits_look|]. intros [e|]; [by apply spec_ret|apply spec_put_retry].
  - apply spec_do; intros t; [apply HP|]. intros o. apply (gives_PutStream _ _ _ HN).
Qed.

Lemma emits_rcat_info ht t : emits P (rcat_info f ht t).
Proof. unfold rcat_info. emits. Qed.

Lemma spec_rcatSrc t : spec P (rcatSrc f r t) all_N.
Proof.
  unfold rcatSrc. apply spec_bind_emits; [by apply emits_SkipDestructive|]. intros [].
  { apply spec_bind_emits; [by apply emits_look|]. intros e. by apply spec_ret. }
  destruct (_ && _); [by apply spec_ret|]. eapply spec_bind; [apply spec_rcat_upload|]. intros [dst [e|]] Hd; [by apply spec_ret|].
  apply spec_bind_emits; [apply emits_rcat_info|]. intros i. apply (spec_bind _ _ _ N).
  { apply spec_ptr. apply Hd. }
  intros o Ho. apply spec_bind_emits.
  { apply emits_equal; [done|]. right. split; intros; by apply HP. }
  intros []; [by apply spec_ret|]. apply spec_bind_emits; [by apply emits_CountError|]. intros e. by apply spec_ret.
Qed.
End calls.


Section one_copy.
Context (P : event -> Prop) `{!Looks P} (c : copy) (N : object -> Prop).
Context (HN : gives (c_f c) (c_remoteForCopy c) N) (HP : accepts P (c_f c) (c_remoteForCopy c) N).
Context (Hupdate : forall d, c_inplace c = true -> c_dst c = Some d -> N d /\ forall a, P (Ev (Update d) a)).
Context (Hmove : forall o a, c_inplace c = false -> N o -> P (Ev (ServerMove (c_f c) o (c_remote c)) a)).

Lemma emits_checkLimits : emits P (checkLimits c).
Proof. unfold checkLimits. emits. Qed.

Lemma spec_serverSideCopy : spec P (serverSideCopy c) (all_N N).
Proof.
  unfold serverSideCopy. destruct (negb _); [by apply spec_ret|].
  apply (spec_bind _ _ _ (fun x => match x with inr o => N o | inl _ => True end)).
  - apply spec_do; intros t; [apply HP|]. destruct (answer _ t _) eqn:E; [done|]. by apply (gives_ServerCopy _ _ _ HN) in E.
  - intros [e|o] Ho; apply spec_ret; [done|by intros x [= <-]].
Qed.

Lemma spec_rcat : spec P (rcat c) (all_N N).
Proof.
  unfold rcat. apply spec_bind_emits; [emits|]. intros _. apply spec_bind_emits; [apply emits_ModTime|]. intros t. by apply spec_rcatSrc.
Qed.

Lemma spec_updateOrPut : spec P (updateOrPut c) (all_N N).
Proof.
  assert (spec P (do_ (Put (c_f c) (c_remoteForCopy c))) (all_N N)) as Hput.
  { apply spec_do; intros t; [apply HP|]. intros o. apply (gives_Put _ _ _ HN). }
  unfold updateOrPut. apply (spec_bind _ _ _ (all_N N)).
  - destruct (c_dst c) as [d|] eqn:Ed; [|done]. destruct (c_inplace c) eqn:Ei; [|done]. destruct (Hupdate d eq_refl eq_refl) as [Hd Hu].
    apply spec_bind_emits; [by apply emits_do|]. intros [e|]; apply spec_ret; [done|by intros x [= <-]].
  - intros [o e] Ho. apply spec_bind_emits; [by apply emits_look|]. intros e'. by apply spec_ret.
Qed.

Lemma spec_manualCopy : spec P (manualCopy c) (all_N N).
Proof.
  unfold manualCopy. apply spec_bind_emits; [unfold doMultiThreadCopy; emits|]. intros multi.
  apply (spec_bind _ _ _ (fun x => match x with Some r => all_N N r | None => True end)).
  { destruct multi; [|by apply spec_ret]. eapply spec_bind; [by apply spec_multiThreadCopy|]. intros x Hx. apply spec_ret. by destruct (is_err _ _). }
  intros [x|] Hx; [by apply spec_ret|]. apply spec_bind_emits; [by apply emits_look|]. intros [e|]; [by apply spec_ret|].
  apply spec_bind_emits; [apply emits_Size|]. intros size. destruct (size =? -1); [apply spec_rcat|apply spec_updateOrPut].
Qed.

Lemma spec_try_copy n last : all_N N last ->
  spec P (try_copy n c last) (fun x => match x with inr r => all_N N r | inl _ => True end).
Proof.
  revert last. induction n as [|n IH]; intros last Hl; cbn [try_copy]; [by apply spec_ret|].
  apply spec_bind_emits; [apply emits_checkLimits|]. intros [e|]; [by apply spec_ret|].
  eapply spec_bind; [apply spec_serverSideCopy|]. intros x Hx. apply (spec_bind _ _ _ (all_N N)).
  { destruct (is_err _ _); [apply spec_manualCopy|by apply spec_ret]. }
  intros y Hy. apply spec_bind_emits; [by apply emits_ContextError|]. intros [[] err]; [by apply spec_ret|].
  destruct err as [e|]; [|by apply spec_ret]. destruct (retriable e); [by apply IH|by apply spec_ret].
Qed.

Lemma emits_verify o : emits P (verify c o).
Proof.
  unfold verify. emits_step; [emits|]. emits_step.
  - destruct (_ || _); [emits|]. emits_step; [emits|]. apply emits_sizeDiffers.
  - destruct a0; [emits|]. destruct (negb _); [|emits]. emits_step; [emits|]. emits_step; [by apply emits_checkHashes|]. emits.
Qed.

Lemma emits_move_into_place o : (forall x, o = Some x -> N x) -> emits P (move_into_place c o).
Proof.
  intros Ho. unfold move_into_place. destruct (c_inplace c) eqn:Ei; cbn [negb andb]; [apply emits_ret|].
  destruct (negb _); [|apply emits_ret]. apply (emits_spec _ _ (fun _ => True)).
  apply (spec_bind _ _ _ N); [by apply spec_ptr|]. intros x Hx. apply spec_emits; [|done].
  apply emits_bind; [by apply emits_do; intros; apply Hmove|]. intros [e|m]; [|apply emits_ret].
  apply emits_bind; [by apply emits_CountError|]. intros e'. apply emits_bind; [by eapply emits_removeFailedCopy|]. intros _. apply emits_ret.
Qed.

Lemma emits_copy_ : emits P (copy_ c).
Proof.
  unfold copy_. apply (emits_spec _ _ (fun _ => True)). eapply spec_bind; [by apply spec_try_copy|].
  intros [e|[o [e|]]] Ho; [by apply spec_ret|..]; apply spec_emits; try done.
  - apply emits_bind; [by apply emits_CountError|]. intros e'. apply emits_bind; [|intros; apply emits_ret].
    destruct (negb _); [by eapply emits_removeFailedPartialCopy|apply emits_ret].
  - apply emits_bind; [apply emits_verify|]. intros [e|]; [|by apply emits_move_into_place].
    apply emits_bind; [by apply emits_CountError|]. intros e'.
    apply emits_bind; [by eapply emits_removeFailedCopy|]. intros _. apply emits_ret.
Qed.
End one_copy.

(** Nothing is assumed of the answers, and nothing asked of the calls. *)
Lemma gives_True f r : gives f r (fun _ => True).
Proof. by split. Qed.

Lemma accepts_True f r : accepts (fun _ => True) f r (fun _ => True).
Proof. by split. Qed.

Lemma monotone_try_copy n c last : emits (fun _ => True) (try_copy n c last).
Proof. eapply emits_spec, (spec_try_copy _ _ (fun _ => True)); auto using gives_True, accepts_True. by intros o. Qed.

Lemma monotone_copy_ c : emits (fun _ => True) (copy_ c).
Proof. apply (emits_copy_ _ _ (fun _ => True)); auto using gives_True, accepts_True. Qed.

Lemma monotone_move_into_place c o : emits (fun _ => True) (move_into_place c o).
Proof. apply (emits_move_into_place _ _ (fun _ => True)); auto using gives_True, accepts_True. Qed.

Lemma monotone_removeFailedCopy o : emits (fun _ => True) (removeFailedCopy o).
Proof. apply (emits_removeFailedCopy _ (mkFs "" "" "" 0 0 no_features) "" (fun _ => True)); auto using gives_True, accepts_True. Qed.

Lemma monotone_removeFailedPartialCopy f r : emits (fun _ => True) (removeFailedPartialCopy f r).
Proof. apply (emits_removeFailedPartialCopy _ _ _ (fun _ => True)); auto using gives_True, accepts_True. Qed.
Hint Resolve monotone_try_copy monotone_copy_ monotone_move_into_place monotone_removeFailedCopy
  monotone_removeFailedPartialCopy emits_verify emits_Fingerprint emits_checkPartial emits_sizeDiffers emits_checkHashes : emits.

(** ** A copy that succeeds was verified *)

(** In the state [s] and by the calls [vs] the object [o] is a good copy. *)
Definition verified (c : copy) (s : st) (vs : trace) (o : object) : Prop :=
  sizes_agree ci s (IObject (c_src c)) (IObject o) /\
  (c_hashType c <> Hash.None_ -> same_hash vs (IObject (c_src c)) (IObject o) \/ no_hash vs (IObject (c_src c)) (IObject o)).

Lemma runs_verify c o s vs s' : runs (verify c (Some o)) s vs None s' -> Forall unchanged vs /\ verified c s vs o.
Proof.
  intros H. split; [eapply runs_emits; [|exact H]; apply emits_verify; apply _|]. unfold verify in H. runs_step. runs_step.
  runs_step.
  assert (x = [] /\ x3 = s /\ (x2 = false -> sizes_agree ci s (IObject (c_src c)) (IObject o))) as (-> & -> & Hsize).
  { clear H1. runs_step; runs_step.
    - split_and!; [done..|]. intros _. apply orb_true_iff in Heqb as [? | ?]; breflect; [by left|right; left; done].
    - runs_step. match goal with H : runs (sizeDiffers _ _ _) _ _ _ _ |- _ => apply runs_sizeDiffers in H as (-> & -> & Hs) end.
      split_and!; [by rewrite ?app_nil_r|done|]. simplify_eq. apply Hs. }
  clear H0. cbn [app] in *. runs_step; [by runs_step|]. split; [by apply Hsize|]. intros Hht. runs_step; sreflect; [|done].
  runs_step. runs_step. cbn [app]. runs_step. repeat runs_step. rewrite app_nil_r. simplify_eq.
  match goal with H : runs (checkHashes _ _ _) _ _ _ _ |- _ => apply runs_checkHashes in H end. naive_solver.
Qed.

Definition needs_move (c : copy) : bool := negb (c_inplace c) && negb (str_eqb (c_remoteForCopy c) (c_remote c)).

Lemma runs_copy_ok c s evs o s' : runs (copy_ c) s evs (Some o, None) s' ->
  exists evs1 vs s1 s2 o1, runs (try_copy (c_maxTries c) c (None, None)) s evs1 (inr (Some o1, None)) s1 /\
    Forall unchanged vs /\ verified c s1 vs o1 /\ calls s2 = calls s1 ++ vs /\
    (if needs_move c then evs = evs1 ++ vs ++ [Ev (ServerMove (c_f c) o1 (c_remote c)) (inr o)]
     else evs = evs1 ++ vs /\ o = o1).
Proof.
  unfold copy_. intros H. runs_step.
  match goal with H : runs (try_copy _ _ _) _ _ ?r _ |- _ => destruct r as [e|[newDst [e|]]] end;
    [repeat runs_step; simplify_eq|repeat runs_step; simplify_eq|].
  runs_step. match goal with H : runs (verify _ _) _ _ ?r _ |- _ => destruct r as [e|] end; [repeat runs_step; simplify_eq|].
  assert (exists o1, newDst = Some o1) as [o1 ->].
  { destruct newDst as [o1|]; [by exists o1|]. exfalso. unfold move_into_place in *. repeat runs_step; simplify_eq. }
  match goal with H : runs (verify _ _) _ _ _ _ |- _ => pose proof (runs_calls _ _ _ _ _ H) as Hc; apply runs_verify in H as [Hu Hv] end.
  unfold move_into_place in *. fold (needs_move c) in *. destruct (needs_move c) eqn:Hm.
  - do 4 runs_step. 
    match goal with H : runs (match ?r with _ => _ end) _ _ _ _ |- _ => destruct r as [e|moved] end; [repeat runs_step; simplify_eq|].
    runs_step. simplify_eq. eexists _, _, _, _, _. split_and!; [done|done|done|done|]. cbn [app]. by rewrite ?app_nil_r.
  - runs_step. simplify_eq. eexists _, _, _, _, _. split_and!; [done|done|done|done|by rewrite ?app_nil_r|done].
Qed.

(** ** A copy that fails is removed *)

Definition is_limit (e : error) : Prop := Is "max transfer limit reached as set by --max-transfer" e = true.

Lemma spec_limits n c last : spec (fun _ => True) (try_copy n c last) (fun x => match x with inl e => is_limit e | inr _ => True end).
Proof.
  revert last. induction n as [|n IH]; intros last; cbn [try_copy]; [by apply spec_ret|].
  apply (spec_bind _ _ _ (fun x => match x with Some e => is_limit e | None => True end)).
  { unfold checkLimits. destruct (MaxTransfer ci <? 0); [by apply spec_ret|]. apply spec_bind_emits; [emits|]. intros b.
    destruct (b >=? MaxTransfer ci); apply spec_ret; [|done]. by destruct (Cutoff ci). }
  intros [e|] He; [by apply spec_ret|].
  apply spec_bind_emits; [eapply emits_spec, (spec_serverSideCopy _ _ (fun _ => True)); auto using gives_True, accepts_True|]. intros x.
  apply spec_bind_emits.
  { destruct (is_err _ _); [|apply emits_ret]. eapply emits_spec, (spec_manualCopy _ _ (fun _ => True)); auto using gives_True, accepts_True. }
  intros y. apply spec_bind_emits; [by apply emits_ContextError|]. intros [[] err]; [by apply spec_ret|].
  destruct err as [e|]; [|by apply spec_ret]. destruct (retriable e); [by apply IH|by apply spec_ret].
Qed.

(** The last call of a copy that failed: it removed its partial, or looked for it in vain. *)
Definition cleaned (c : copy) (evs : trace) : Prop :=
  (exists evs' o a, evs = evs' ++ [Ev (Remove o) a]) \/
  (exists evs' e, evs = evs' ++ [Ev (NewObject (c_f c) (c_remoteForCopy c)) (inl e)]).

Lemma cleaned_app c evs evs' : cleaned c evs -> cleaned c (evs' ++ evs).
Proof.
  intros [(evs1 & o & a & ->) | (evs1 & e & ->)]; [left; exists (evs' ++ evs1), o, a|right; exists (evs' ++ evs1), e]; by rewrite app_assoc.
Qed.

Lemma runs_removeFailedCopy c o s evs x s' : runs (removeFailedCopy (Some o)) s evs x s' -> cleaned c evs.
Proof. cbn [removeFailedCopy]. intros H. repeat runs_step. left. eexists [], _, _. reflexivity. Qed.

Lemma runs_removeFailedPartialCopy c s evs x s' :
  runs (removeFailedPartialCopy (c_f c) (c_remoteForCopy c)) s evs x s' -> cleaned c evs.
Proof.
  unfold removeFailedPartialCopy. intros H. do 2 runs_step.
  match goal with H : runs (match ?r with _ => _ end) _ _ _ _ |- _ => destruct r as [e|o] end.
  - runs_step. right. eexists [], _. reflexivity.
  - apply cleaned_app. by eapply runs_removeFailedCopy.
Qed.

Lemma runs_verify_failed c newDst s vs e s' : runs (verify c newDst) s vs (Some e) s' -> exists o, newDst = Some o.
Proof. destruct newDst as [o|]; [by exists o|]. unfold verify. intros H. exfalso. repeat runs_step; simplify_eq. Qed.

(** Without a new object the hashes cannot have been compared. *)
Lemma runs_verify_none c s vs x s' : runs (verify c None) s vs x s' -> c_hashType c = Hash.None_.
Proof.
  unfold verify. intros H. destruct (Z.eqb_spec (c_hashType c) Hash.None_) as [|Hne]; [done|exfalso]. cbn [negb] in H.
  repeat runs_step; simplify_eq.
Qed.

Lemma runs_copy_failed c s evs o e s' : c_inplace c = false -> runs (copy_ c) s evs (o, Some e) s' -> cleaned c evs \/ is_limit e.
Proof.
  intros Hi. unfold copy_. intros H. runs_step.
  match goal with H : runs (try_copy _ _ _) _ _ ?r _ |- _ =>
    apply (runs_spec _ _ _ _ _ _ _ (spec_limits _ _ _)) in H as [_ Hlim]; destruct r as [e'|[newDst [e'|]]] end.
  - runs_step. simplify_eq. by right.
  - left. apply cleaned_app. rewrite Hi in *. cbn [negb] in *. runs_step. apply cleaned_app. runs_step. runs_step. rewrite app_nil_r.
    by eapply runs_removeFailedPartialCopy.
  - left. apply cleaned_app. runs_step. apply cleaned_app.
    match goal with H : runs (verify _ _) _ _ ?r _ |- _ => destruct r as [e'|] eqn:? end.
    + match goal with H : runs (verify _ _) _ _ _ _ |- _ => apply runs_verify_failed in H as [o' ->] end.
      runs_step. apply cleaned_app. runs_step. runs_step. rewrite app_nil_r. by eapply runs_removeFailedCopy.
    + unfold move_into_place in *. runs_step; [|by runs_step]. do 4 runs_step. cbn [app]. apply (cleaned_app c _ [_]).
      match goal with H : runs (match ?r with _ => _ end) _ _ _ _ |- _ => destruct r as [e'|moved] end; [|by runs_step].
      runs_step. apply cleaned_app. runs_step. runs_step. rewrite app_nil_r. simplify_eq. by eapply runs_removeFailedCopy.
Qed.

(** ** The whole of [Copy] *)

(** Whether a partial name is used for a destination, and what it is. *)
Definition uses_partials (f : Fs) (real : string) : bool :=
  negb (Inplace ci || negb (ft_Move (fs_Features f)) || negb (ft_PartialUploads (fs_Features f)) || has_suffix real ".zclonelink").

Definition partial_of (real rfc : string) : Prop :=
  exists fp b, partial_name real (partial_suffix ci real fp) = Streams.Ret b /\ rfc = Utf8.of_bytes b.

Definition target (dst : option object) (remote : string) : string :=
  TransformPath (match dst with Some d => o_Remote d | None => remote end).

Definition the_copy (f : Fs) (dst : option object) (remote : string) (src : object) (rfc : string) : copy :=
  mkCopy f dst (target dst remote) src (LowLevelRetries ci) (fst (CommonHash ci f (o_Fs src)))
    (negb (uses_partials f (target dst remote))) rfc.

Lemma runs_checkPartial f real src s evs rfc inplace s' : runs (checkPartial ci f real src) s evs (rfc, inplace, None) s' ->
  inplace = negb (uses_partials f real) /\ (if uses_partials f real then partial_of real rfc else rfc = real).
Proof.
  unfold checkPartial, uses_partials. intros H. runs_step; cbn [negb].
  - runs_step. by simplify_eq.
  - runs_step; [runs_step; simplify_eq|]. runs_step.
    match goal with H : runs (match ?r with _ => _ end) _ _ _ _ |- _ => destruct r as [b|] eqn:Hb end; [|by runs_step].
    runs_step. simplify_eq. split; [done|]. by eexists _, _.
Qed.

Lemma runs_Copy f dst remote src s evs r s' : runs (Copy f dst remote src) s evs r s' ->
  (Forall unchanged evs /\ fst r = None) \/
  exists rfc evs1 evs2 s1, evs = evs1 ++ evs2 /\ Forall unchanged evs1 /\
    (if uses_partials f (target dst remote) then partial_of (target dst remote) rfc else rfc = target dst remote) /\
    runs (copy_ (the_copy f dst remote src rfc)) s1 evs2 r s'.
Proof.
  unfold Copy. fold (target dst remote). intros H. runs_step.
  match goal with H : runs (SkipDestructive _ _) _ _ _ _ |- _ => apply (runs_emits unchanged) in H; [|emits] end.
  runs_step; [runs_step; left; by rewrite app_nil_r|]. runs_step.
  match goal with H : runs (checkPartial _ _ _ _) _ _ ?r _ |- _ => destruct r as [[rfc inplace] [e|]];
    pose proof (runs_emits unchanged _ _ _ _ _ (emits_checkPartial _ _ _ _ _) H) end.
  - runs_step. left. rewrite app_nil_r. split; [by apply Forall_app|done].
  - right. match goal with H : runs (checkPartial _ _ _ _) _ _ _ _ |- _ => apply runs_checkPartial in H as [-> Hp] end.
    eexists rfc, (_ ++ _), _, _. rewrite <- app_assoc. split_and!; [done|by apply Forall_app|done|done].
Qed.

(** The calls that may change something while a copy is written to a partial name. *)
Definition partial_only (f : Fs) (rfc real : string) : event -> Prop :=
  only (fun _ c => match c with
    | ServerCopy f' _ r | Put f' r | PutStream f' r | OpenChunkWriter f' r | OpenWriterAt f' r | WriteChunks f' r
    | CloseWriter f' r | AbortWriter f' r => f' = f /\ r = rfc
    | SetMetadata o | SetModTime o _ | Remove o => named f rfc o
    | ServerMove f' o r => f' = f /\ r = real /\ named f rfc o
    | _ => False
    end).

Lemma honest_gives f r : Honest env -> gives f r (named f r).
Proof.
  intros H. split; [intros t; apply honest_NewObject|intros t src; apply honest_ServerCopy|intros t; apply honest_Put|intros t; apply honest_PutStream].
Qed.

Lemma partial_accepts f rfc real : accepts (partial_only f rfc real) f rfc (named f rfc).
Proof. split; intros; cbn; done. Qed.

Lemma unchanged_only P evs : Forall unchanged evs -> Forall (only P) evs.
Proof. intros H. eapply Forall_impl; [exact H|]. intros [A c a] Hu Hm. by destruct (Hu Hm). Qed.

(** C5: with partial uploads the destination is replaced in one step: whatever the backend answers, as long as the
    objects it returns have the names asked for, all that a copy writes or removes is a name of its own, except
    that at the end the object of that name is moved to the real one. *)
Theorem copy_atomic f dst remote src s evs r s' :
  Honest env -> uses_partials f (target dst remote) = true -> runs (Copy f dst remote src) s evs r s' ->
  Forall unchanged evs \/
  exists rfc, partial_of (target dst remote) rfc /\ Forall (partial_only f rfc (target dst remote)) evs.
Proof.
  intros Hh Hp H. destruct (runs_Copy _ _ _ _ _ _ _ _ H) as [[Hu _] | (rfc & evs1 & evs2 & s1 & -> & Hu & Hof & Hr)]; [by left|].
  right. rewrite Hp in Hof. exists rfc. split; [done|]. apply Forall_app. split; [by apply unchanged_only|].
  eapply runs_emits; [|exact Hr]. apply (emits_copy_ _ _ (named f rfc)).
  - by apply honest_gives.
  - apply partial_accepts.
  - intros d Hi. cbn in Hi. by rewrite Hp in Hi.
  - intros o a _ Ho _. cbn. done.
Qed.

(** C4: a copy that reports success is a good copy: after the last try the new object was compared with the source,
    by size and by the common hash if there is one, nothing was changed meanwhile, and only then it was moved to the real name. *)
Theorem copy_verified f dst remote src s evs o s' :
  runs (Copy f dst remote src) s evs (Some o, None) s' ->
  exists rfc evs1 vs s1 o1, let c := the_copy f dst remote src rfc in
    (if uses_partials f (target dst remote) then partial_of (target dst remote) rfc else rfc = target dst remote) /\
    Forall unchanged vs /\ verified c s1 vs o1 /\ calls s1 = calls s ++ evs1 /\
    (if needs_move c then evs = evs1 ++ vs ++ [Ev (ServerMove f o1 (target dst remote)) (inr o)] else evs = evs1 ++ vs /\ o = o1).
Proof.
  intros H. pose proof (runs_calls _ _ _ _ _ H) as Hc.
  destruct (runs_Copy _ _ _ _ _ _ _ _ H) as [[_ ?] | (rfc & evs1 & evs2 & s1 & -> & Hu & Hof & Hr)]; [done|].
  pose proof (runs_calls _ _ _ _ _ Hr) as Hc2. rewrite Hc2, app_assoc in Hc. apply app_inv_tail in Hc.
  destruct (runs_copy_ok _ _ _ _ _ Hr) as (evs3 & vs & s2 & s3 & o1 & Htry & Huv & Hv & _ & Hm). exists rfc, (evs1 ++ evs3), vs, s2, o1.
  cbn zeta. split_and!; [done..| |].
  - rewrite (runs_calls _ _ _ _ _ Htry), Hc. by rewrite app_assoc.
  - destruct (needs_move _); [rewrite Hm|destruct Hm as [-> ->]]; by rewrite <- ?app_assoc.
Qed.


End config.

#[export] Hint Resolve monotone_try_copy monotone_copy_ monotone_move_into_place monotone_removeFailedCopy
  monotone_removeFailedPartialCopy emits_verify : emits.

(** ** Examples *)

Definition partial_features : Features :=
  mkFeatures false true false false false true false false false false false false.
Definition example_from : object := mkObject (mkFs "a" "" "local" 1 1 no_features) "f" 1 false false.
Definition example_to : Fs := mkFs "b" "" "sftp" 1 1 partial_features.

Definition example_world : Env := example_env (fun _ => 5) (fun _ => 0) (fun A _ c => default_answer c).

(** The first try fails with an error that may be retried, then the limit is reached. *)
Definition limited_answer {A} (t : trace) (c : call A) : A :=
  match c with
  | Put _ _ => (None, Some (RetryError (New "try again")))
  | GetBytes _ => if decide (4 < length t)%nat then 100 else 0
  | c => default_answer c
  end.

Definition limited_world : Env := example_env (fun _ => 5) (fun _ => 0) (@limited_answer).
Definition limited_config : ConfigInfo :=
  {| DryRun := false; Interactive := false; IgnoreSize := false; SizeOnly := false; CheckSum := false; IgnoreChecksum := false;
     IgnoreTimes := false; IgnoreExisting := false; UpdateOlder := false; NoUpdateModTime := false; RefreshTimes := false;
     Immutable := false; NoCheckDest := false; ModifyWindow := 1; Inplace := false; PartialSuffix := ".partial";
     MaxTransfer := 50; Cutoff := CutoffModeHard; ServerSideAcrossConfigs := false; LowLevelRetries := 10; Metadata := false;
     MultiThreadStreams := 4; MultiThreadCutoff := 256 * 2 ^ 20; MultiThreadSet := false; BackupDir := ""; Suffix := "";
     SuffixKeepExtension := false; CompareDest := []; CopyDest := []; withEqualFn := false |}.

(** The name that a call writes. *)
Definition ev_put (e : event) : option string := match e with Ev c _ => match c with Put _ r => Some r | _ => None end end.

Lemma copy_atomic_witness :
  exists evs r s', runs (Copy (env := example_world) default_config example_to None "d/f" example_from) (mkSt [] ∅) evs r s' /\
    omap ev_put evs = ["d/f.a70303b5.partial"] /\
    (Forall unchanged evs \/
     exists rfc, partial_of default_config "d/f" rfc /\ Forall (partial_only example_to rfc "d/f") evs).
Proof.
  assert (exists evs r s', runs (Copy (env := example_world) default_config example_to None "d/f" example_from) (mkSt [] ∅) evs r s' /\
    omap ev_put evs = ["d/f.a70303b5.partial"]) as (evs & r & s' & H & Hp).
  { eexists _, _, _. split; [split; [vm_compute; reflexivity|reflexivity]|vm_compute; reflexivity]. }
  exists evs, r, s'. split; [exact H|]. split; [exact Hp|].
  exact (copy_atomic (env := example_world) default_config example_to None "d/f" example_from _ _ _ _ (example_honest _ _) eq_refl H).
Defined.

Lemma copy_verified_witness :
  exists evs s', runs (Copy (env := example_world) default_config example_to None "d/f" example_from) (mkSt [] ∅) evs
      (Some (mkObject example_to "d/f" 103 false false), None) s' /\
    exists rfc vs s1 o1, Forall unchanged vs /\
      verified (env := example_world) default_config (the_copy (env := example_world) default_config example_to None "d/f" example_from rfc) s1 vs o1.
Proof.
  assert (exists evs s', runs (Copy (env := example_world) default_config example_to None "d/f" example_from) (mkSt [] ∅) evs
    (Some (mkObject example_to "d/f" 103 false false), None) s') as (evs & s' & H).
  { eexists _, _. split; [vm_compute; reflexivity|reflexivity]. }
  exists evs, s'. split; [exact H|].
  destruct (copy_verified (env := example_world) default_config example_to None "d/f" example_from _ _ _ _ H)
    as (rfc & evs1 & vs & s1 & o1 & _ & Hu & Hv & _). exists rfc, vs, s1, o1. split; [exact Hu|exact Hv].
Defined.

(** The two hashes differ. *)
Definition corrupt_answer {A} (t : trace) (c : call A) : A :=
  match c with
  | HashOf o _ => (if Nat.eqb (o_id o) 1 then "abc" else "def", None)
  | c => default_answer c
  end.

Definition corrupt_world : Env := example_env (fun _ => 5) (fun _ => 0) (@corrupt_answer).


(** A copy stopped by --max-transfer between two tries is not cleaned up: the first try has written to the partial
    name and failed, and the limit found before the second one is returned at once. *)
Theorem copy_limit_leaves_partial :
  exists evs e s', runs (Copy (env := limited_world) limited_config example_to None "d/f" example_from) (mkSt [] ∅) evs (None, Some e) s' /\
    is_limit e /\ omap ev_put evs = ["d/f.a70303b5.partial"] /\ omap ev_removed evs = [].
Proof. eexists _, _, _. split; [split; [vm_compute; reflexivity|reflexivity]|split_and!; vm_compute; reflexivity]. Qed.
End Copy.
