(* ===== verification/MoveFile.v ===== *)
(** * Moving and deleting files: fs/operations/operations.go

    Deletion with and without a backup directory, moves by the server or by
    copy and delete, renames on remotes that ignore case, --compare-dest and
    --copy-dest, and the operation on single files that puts all of it together. *)
From S2P Require Import Prelude GoPath Utf8 Streams Hash FsErrors Backend Equal Partial Copy.

Module MoveFile.
Import GoPath FsErrors Backend Equal Partial Copy.

(** ** Names *)

(** [path.Ext]: from the last dot of the last element on. *)
Fixpoint ext_of (s : list ascii) (acc : list ascii) : list ascii :=
  match s with
  | [] => []
  | c :: s => if Ascii.eqb c "/" then [] else if Ascii.eqb c "." then c :: acc else ext_of s (c :: acc)
  end.

Definition path_Ext (s : string) : string :=
  String.string_of_list_ascii (ext_of (reverse (String.list_ascii_of_string s)) []).

Section config.
Context {env : Env} (ci : ConfigInfo).

(** [transform.splitExtension]: the base and the extensions; the second and further
    ones are kept only if their mime type is known.  Every turn shortens the base. *)
Fixpoint split_ext (fuel : nat) (first : bool) (base exts : string) : string * string :=
  match fuel with
  | O => (base, exts)
  | S fuel' =>
      let ext := path_Ext base in
      if str_eqb ext "" then (base, exts)
      else if negb first && negb (mimeKnown ext) then (base, exts)
      else split_ext fuel' false (String.substring 0 (String.length base - String.length ext) base) (ext +:+ exts)
  end.

Definition splitExtension (remote : string) : string * string := split_ext (S (String.length remote)) true remote "".

Definition SuffixKeep (remote suffix : string) : string :=
  let '(base, exts) := splitExtension remote in base +:+ suffix +:+ exts.

Definition SuffixName (remote : string) : string :=
  if str_eqb (Suffix ci) "" then remote
  else if SuffixKeepExtension ci then SuffixKeep remote (Suffix ci)
  else remote +:+ Suffix ci.

(** ** Deletion *)

Definition delete_with (action : string) (act : M (option error)) (dst : object) : M (option error) :=
  size ← Size dst;
  e ← do_ (StatsDeleteFile size);
  match e with
  | Some e => mret (Some e)
  | None =>
      skip ← SkipDestructive ci action;
      if skip : bool then mret None
      else
        err ← act;
        match err with
        | Some e => e ← CountError e; mret (Some e)
        | None => mret None
        end
  end.

Definition DeleteFile (dst : object) : M (option error) := delete_with "delete" (do_ (Remove dst)) dst.

(** ** Moves *)

Definition needsMoveCaseInsensitive (fdst fsrc : Fs) (dstFileName srcFileName : string) (cp : bool) : bool :=
  let dstFilePath := path_Join [fs_Root fdst; dstFileName] in
  let srcFilePath := path_Join [fs_Root fsrc; srcFileName] in
  negb cp && str_eqb (fs_Name fdst) (fs_Name fsrc) && negb (str_eqb dstFileName srcFileName) &&
  (str_eqb (NFC dstFilePath) (NFC srcFilePath) ||
   (ft_CaseInsensitive (fs_Features fdst) && EqualFold dstFilePath srcFilePath)).

Definition tmp_name (dstFileName random : string) : string := dstFileName +:+ "-zclone-move-" +:+ random.

(** [Op] is [MoveTransfer] or [Copy]. *)
Definition MoveCaseInsensitive (Op : Fs -> option object -> string -> object -> M res) (fdst : Fs)
    (dstFileName : string) (srcObj : object) : M res :=
  skip ← SkipDestructive ci ("rename to " +:+ dstFileName);
  if skip : bool then mret (None, None)
  else
    random ← do_ RandomString;
    let tmpObjName := tmp_name dstFileName random in
    r ← do_ (NewObject fdst tmpObjName);
    match r with
    | inr _ => mret (None, Some (New "found an already existing file with a randomly generated name. Try the operation again"))
    | inl e =>
        if negb (same ErrorObjectNotFound e)
        then mret (None, Some (Wrap (WMsg "error while attempting to move file to a temporary location: ") e))
        else
          '(tmpObj, err) ← Op fdst None tmpObjName srcObj;
          match err with
          | Some e => mret (None, Some (Wrap (WMsg "error while moving file to temporary location: ") e))
          | None => o ← ptr tmpObj; Op fdst None dstFileName o
          end
    end.

(** What is to be done before the server is asked to move: nothing more, or the move
    to a name, plainly or by way of a temporary name. *)
Inductive plan : Type :=
  | Return (r : res)
  | Plain (remote : string)
  | ByTemp (remote : string).

Definition plan_move (fdst : Fs) (dst : option object) (remote : string) (src : object) : M plan :=
  let by_case remote := if needsMoveCaseInsensitive fdst fdst remote (o_Remote src) false then ByTemp remote else Plain remote in
  match dst with
  | Some d =>
      let remote := TransformPath (o_Remote d) in
      so ← SameObject src d;
      if negb so then
        err ← DeleteFile d;
        mret (match err with Some e => Return (dst, Some e) | None => Plain remote end)
      else if str_eqb (o_Remote src) remote then mret (Return (dst, None))
      else mret (by_case remote)
  | None => mret (by_case remote)
  end.

Definition canServerMove (fdst : Fs) (src : object) : bool :=
  ft_Move (fs_Features fdst) &&
  (SameConfig (o_Fs src) fdst ||
   (SameRemoteType (o_Fs src) fdst && (ft_ServerSideAcrossConfigs (fs_Features fdst) || ServerSideAcrossConfigs ci))).

(** Copy and delete; [remote] is the name after the transformation or that of the destination. *)
Definition copy_delete (fdst : Fs) (dst : option object) (origRemote remote : string) (src : object) : M res :=
  let dst := if negb (str_eqb origRemote remote) then None else dst in
  '(newDst, err) ← Copy ci fdst dst origRemote src;
  match err with
  | Some e => mret (newDst, Some e)
  | None => err ← DeleteFile src; mret (newDst, err)
  end.

Definition unplanned (p : plan) (remote : string) : string :=
  match p with Return _ => remote | Plain r | ByTemp r => r end.

Definition move_body (self : Fs -> option object -> string -> object -> M res)
    (fdst : Fs) (dst : option object) (origRemote : string) (src : object) : M res :=
  let remote := TransformPath origRemote in
  noop ← (if DryRun ci then
            match dst with
            | Some d => so ← SameObject src d; mret (so && str_eqb (o_Remote src) (TransformPath (o_Remote d)))
            | None => mret false
            end
          else mret false);
  if noop : bool then mret (dst, None)
  else
    skip ← SkipDestructive ci (if negb (str_eqb remote (o_Remote src)) then "move to " +:+ remote else "move");
    if skip : bool then mret (dst, None)
    else if canServerMove fdst src then
      p ← plan_move fdst dst remote src;
      match p with
      | Return r => mret r
      | Plain _ | ByTemp _ =>
          let remote := unplanned p remote in
          '(newDst, err) ← match p with
                           | ByTemp _ => MoveCaseInsensitive self fdst remote src
                           | _ => r ← do_ (ServerMove fdst src remote);
                                  mret (match r with inl e => (None, Some e) | inr o => (Some o, None) end)
                           end;
          match err with
          | None => o ← ptr newDst; _ ← Size o; mret (newDst, None)
          | Some e =>
              if same ErrorCantMove e then copy_delete fdst dst origRemote remote src
              else e ← CountError e; mret (newDst, Some e)
          end
      end
    else copy_delete fdst dst origRemote remote src.

(** [move]: by way of a temporary name it calls itself. *)
Fixpoint move (fuel : nat) (fdst : Fs) (dst : option object) (remote : string) (src : object) : M res :=
  match fuel with
  | O => out_of_fuel
  | S fuel' => move_body (move fuel') fdst dst remote src
  end.

Definition Move : Fs -> option object -> string -> object -> M res := move 2.
Definition MoveTransfer : Fs -> option object -> string -> object -> M res := move 2.

(** ** Backups *)

Definition MoveBackupDir (backupDir : Fs) (dst : object) : M (option error) :=
  let remoteWithSuffix := SuffixName (o_Remote dst) in
  r ← do_ (NewObject backupDir remoteWithSuffix);
  '(_, err) ← Move backupDir (match r with inr o => Some o | inl _ => None end) remoteWithSuffix dst;
  mret err.

Definition DeleteFileWithBackupDir (dst : object) (backupDir : option Fs) : M (option error) :=
  match backupDir with
  | Some b => delete_with "move into backup dir" (MoveBackupDir b dst) dst
  | None => DeleteFile dst
  end.
(** ** Which remotes are the same *)

Definition Same (fdst fsrc : Fs) : bool := SameConfig fdst fsrc && str_eqb (trim_slashes (fs_Root fdst)) (trim_slashes (fs_Root fsrc)).

Definition SameConfigArr (fdst : Fs) (fsrcs : list Fs) : bool := existsb (fun f => str_eqb (fs_Name fdst) (fs_Name f)) fsrcs.

(** [fixRoot], where the separator is a slash. *)
Definition fixRoot (f : Fs) : string * string :=
  let s := trim_slashes (fs_Root f) in
  let s := if negb (str_eqb s "") then s +:+ "/" else s in
  (s, if ft_CaseInsensitive (fs_Features f) then ToLower s else s).

Definition SameDir (fdst fsrc : Fs) : bool := SameConfig fdst fsrc && str_eqb (snd (fixRoot fdst)) (snd (fixRoot fsrc)).

Definition filterCheck (f : Fs) (dir : string) : M bool :=
  '(include, err) ← do_ (FilterIncludes f dir);
  mret (match err with Some _ => true | None => include end).

(** [s[n:]] *)
Definition cut_front (n : nat) (s : string) : option string :=
  if (n <=? String.length s)%nat then Some (String.substring n (String.length s - n) s) else None.

Definition OverlappingFilterCheck (fdst fsrc : Fs) : M bool :=
  if negb (SameConfig fdst fsrc) then mret false
  else
    let '(fdstRoot, fdstRootFolded) := fixRoot fdst in
    let '(fsrcRoot, fsrcRootFolded) := fixRoot fsrc in
    if str_eqb fdstRootFolded fsrcRootFolded then mret true
    else if has_prefix fsrcRootFolded fdstRootFolded then
      rel ← ptr (cut_front (String.length fsrcRoot) fdstRoot); filterCheck fsrc rel
    else if has_prefix fdstRootFolded fsrcRootFolded then
      rel ← ptr (cut_front (String.length fdstRoot) fsrcRoot); filterCheck fdst rel
    else mret false.

Definition CanServerSideMove (fdst : Fs) : bool := ft_Move (fs_Features fdst) || ft_Copy (fs_Features fdst).

(** [BackupDir]: the remote for backups, or an error; [srcFileName] is empty when whole directories are worked on. *)
Definition fatal {A} (msg : string) : M (error + A) := mret (inl (FatalError (New msg))).

Definition check_backup (fdst fsrc backupDir : Fs) (srcFileName : string) : M (option error) :=
  if negb (SameConfig fdst backupDir) then mret (Some (FatalError (New "parameter to --backup-dir has to be on the same remote as destination")))
  else if str_eqb srcFileName "" then
    o ← OverlappingFilterCheck backupDir fdst;
    if o : bool then mret (Some (FatalError (New "destination and parameter to --backup-dir mustn't overlap")))
    else
      o ← OverlappingFilterCheck backupDir fsrc;
      if o : bool then mret (Some (FatalError (New "source and parameter to --backup-dir mustn't overlap"))) else mret None
  else if str_eqb (Suffix ci) "" then
    if SameDir fdst backupDir then mret (Some (FatalError (New "destination and parameter to --backup-dir mustn't be the same")))
    else if SameDir fsrc backupDir then mret (Some (FatalError (New "source and parameter to --backup-dir mustn't be the same")))
    else mret None
  else mret None.

Definition GetBackupDir (fdst fsrc : Fs) (srcFileName : string) : M (error + Fs) :=
  r ← (if negb (str_eqb (BackupDir ci) "") then
         r ← do_ (GetFs (BackupDir ci));
         match r with
         | inl e => mret (inl (FatalError (Wrap (WMsg "failed to make fs for --backup-dir: ") e)))
         | inr b => e ← check_backup fdst fsrc b srcFileName; mret (match e with Some e => inl e | None => inr b end)
         end
       else if negb (str_eqb (Suffix ci) "") then mret (inr fdst)
       else fatal "internal error: BackupDir called when --backup-dir and --suffix both empty");
  match r with
  | inl e => mret (inl e)
  | inr b =>
      if negb (CanServerSideMove b)
      then fatal "can't use --backup-dir on a remote which doesn't support server-side move or copy"
      else mret (inr b)
  end.

(** ** --compare-dest and --copy-dest *)

Fixpoint get_fss (paths : list string) : M (error + list Fs) :=
  match paths with
  | [] => mret (inr [])
  | p :: paths =>
      r ← do_ (GetFs p);
      match r with
      | inl e => mret (inl e)
      | inr f => r ← get_fss paths; mret (match r with inl e => inl e | inr fs => inr (f :: fs) end)
      end
  end.

Definition GetCompareDest : M (error + list Fs) :=
  r ← get_fss (CompareDest ci);
  mret (match r with inl e => inl (FatalError (Wrap (WMsg "failed to make fs for --compare-dest: ") e)) | inr fs => inr fs end).

Definition GetCopyDest (fdst : Fs) : M (error + list Fs) :=
  r ← get_fss (CopyDest ci);
  match r with
  | inl e => mret (inl (FatalError (Wrap (WMsg "failed to make fs for --copy-dest: ") e)))
  | inr fs =>
      if negb (SameConfigArr fdst fs) then fatal "parameter to --copy-dest has to be on the same remote as destination"
      else if existsb (fun f => negb (ft_Copy (fs_Features f))) fs
      then fatal "can't use --copy-dest on a remote which doesn't support server side copy"
      else mret (inr fs)
  end.

Definition other_remote (dst : option object) (src : object) : string :=
  match dst with None => o_Remote src | Some d => o_Remote d end.

Definition no_update_opt : equalOpt :=
  let opt := defaultEqualOpt ci in mkOpt (sizeOnly opt) (checkSum opt) false (forceModTimeMatch opt).

Definition compareDest (dst : option object) (src : object) (f : Fs) : M (bool * option error) :=
  r ← do_ (NewObject f (other_remote dst src));
  match r with
  | inl e => mret (false, if same ErrorObjectNotFound e then None else Some e)
  | inr o => eq ← equal ci (IObject src) o no_update_opt; mret (eq, None)
  end.

(** Copies the file that was found beside the destination. *)
Definition copy_from_dest (fdst : Fs) (dst : option object) (remote : string) (found : object) (backupDir : option Fs)
    : M (bool * option error) :=
  moved ← match dst, backupDir with
          | Some d, Some b => e ← MoveBackupDir b d; mret (match e with Some e => inl e | None => inr None end)
          | _, _ => mret (inr dst)
          end;
  match moved with
  | inl e => mret (false, Some (Wrap (WMsg "moving to --backup-dir failed: ") e))
  | inr dst => '(_, err) ← Copy ci fdst dst remote found; mret (match err with Some _ => false | None => true end, None)
  end.

Definition copyDest (fdst : Fs) (dst : option object) (src : object) (f : Fs) (backupDir : option Fs) : M (bool * option error) :=
  let remote := other_remote dst src in
  r ← do_ (NewObject f remote);
  match r with
  | inl e => mret (false, if same ErrorObjectNotFound e then None else Some e)
  | inr o =>
      eq ← equal ci (IObject src) o no_update_opt;
      if negb eq then mret (false, None)
      else
        unchanged ← match dst with None => mret false | Some d => Equal ci (IObject src) d end;
        if unchanged : bool then mret (true, None)
        else copy_from_dest fdst dst remote o backupDir
  end.

Fixpoint first_dest (find : Fs -> M (bool * option error)) (fs : list Fs) : M (bool * option error) :=
  match fs with
  | [] => mret (false, None)
  | f :: fs =>
      '(noNeed, err) ← find f;
      if (noNeed : bool) || match err with Some _ => true | None => false end then mret (noNeed, err) else first_dest find fs
  end.

Definition CompareOrCopyDest (fdst : Fs) (dst : option object) (src : object) (fs : list Fs) (backupDir : option Fs) : M (bool * option error) :=
  match CompareDest ci, CopyDest ci with
  | _ :: _, _ => first_dest (compareDest dst src) fs
  | [], _ :: _ => first_dest (fun f => copyDest fdst dst src f backupDir) fs
  | [], [] => mret (false, None)
  end.

(** ** Single files *)

(** The parts of [moveOrCopyFile] after the special case of a change of case: the
    remotes for backups and comparison, then the transfer or the deletion of the source. *)
Definition find_dirs (fdst fsrc : Fs) (srcFileName : string) : M (error + (option Fs * list Fs)) :=
  b ← (if negb (str_eqb (BackupDir ci) "") || negb (str_eqb (Suffix ci) "") then
         r ← GetBackupDir fdst fsrc srcFileName;
         mret (match r with inl e => inl (Wrap (WMsg "creating Fs for --backup-dir failed: ") e) | inr b => inr (Some b) end)
       else mret (inr None));
  match b with
  | inl e => mret (inl e)
  | inr backupDir =>
      d ← match CompareDest ci, CopyDest ci with
          | _ :: _, _ => GetCompareDest
          | [], _ :: _ => GetCopyDest fdst
          | [], [] => mret (inr [])
          end;
      mret (match d with inl e => inl e | inr fs => inr (backupDir, fs) end)
  end.

Definition transfer_file (Op : Fs -> option object -> string -> object -> M res) (fdst : Fs) (dstObj : option object)
    (dstFileName : string) (srcObj : object) (backupDir : option Fs) : M (option error) :=
  moved ← match dstObj, backupDir with
          | Some d, Some b => e ← MoveBackupDir b d; mret (match e with Some e => inl e | None => inr None end)
          | _, _ => mret (inr dstObj)
          end;
  match moved with
  | inl e => mret (Some (Wrap (WMsg "moving to --backup-dir failed: ") e))
  | inr dstObj => '(_, err) ← Op fdst dstObj dstFileName srcObj; mret err
  end.

Definition transfer_or_delete (Op : Fs -> option object -> string -> object -> M res) (fdst fsrc : Fs) (dstObj : option object)
    (dstFileName srcFileName : string) (srcObj : object) (cp : bool) : M (option error) :=
  r ← find_dirs fdst fsrc srcFileName;
  match r with
  | inl e => mret (Some e)
  | inr (backupDir, fs) =>
      needTransfer ← NeedTransfer ci dstObj srcObj;
      '(needTransfer, err) ← (if needTransfer : bool then
                                '(noNeed, err) ← CompareOrCopyDest fdst dstObj srcObj fs backupDir; mret (negb noNeed, err)
                              else mret (false, None));
      match err with
      | Some e => mret (Some e)
      | None =>
          if needTransfer : bool then transfer_file Op fdst dstObj dstFileName srcObj backupDir
          else if cp then mret None
          else if IgnoreExisting ci then mret None
          else
            d ← ptr dstObj;
            so ← SameObject srcObj d;
            if so : bool then mret None else DeleteFile srcObj
      end
  end.

Definition moveOrCopyFile (fdst fsrc : Fs) (dstFileName srcFileName : string) (cp allowOverlap : bool) : M (option error) :=
  let dstFilePath := path_Join [fs_Root fdst; dstFileName] in
  let srcFilePath := path_Join [fs_Root fsrc; srcFileName] in
  if str_eqb (fs_Name fdst) (fs_Name fsrc) && str_eqb dstFilePath srcFilePath && negb allowOverlap then mret None
  else
    let Op := if cp then Copy ci else MoveTransfer in
    r ← do_ (NewObject fsrc srcFileName);
    match r with
    | inl e => mret (Some e)
    | inr srcObj =>
        d ← (if NoCheckDest ci then mret (inr None)
             else
               r ← do_ (NewObject fdst dstFileName);
               mret (match r with
                     | inr o => inr (Some o)
                     | inl e => if Is ErrorObjectNotFound e then inr None else inl e
                     end));
        match d with
        | inl e => mret (Some e)
        | inr dstObj =>
            if needsMoveCaseInsensitive fdst fsrc dstFileName srcFileName cp
            then '(_, err) ← MoveCaseInsensitive Op fdst dstFileName srcObj; mret err
            else transfer_or_delete Op fdst fsrc dstObj dstFileName srcFileName srcObj cp
        end
    end.

Definition CopyFile (fdst fsrc : Fs) (dstFileName srcFileName : string) : M (option error) :=
  moveOrCopyFile fdst fsrc dstFileName srcFileName true false.
Definition MoveFile (fdst fsrc : Fs) (dstFileName srcFileName : string) : M (option error) :=
  moveOrCopyFile fdst fsrc dstFileName srcFileName false false.
Definition TransformFile (fdst : Fs) (srcFileName : string) : M (option error) :=
  moveOrCopyFile fdst fdst srcFileName srcFileName false true.

(** ** A dry run changes nothing *)

Section dry.
Context (Hdry : DryRun ci = true).

Lemma dry_touch P dst : may_touch ci P dst.
Proof. by left. Qed.

Lemma dry_delete_with action act dst : emits unchanged (delete_with action act dst).
Proof.
  unfold delete_with. rewrite SkipDestructive_dry by done. emits_step; [emits|]. emits_step; [emits|]. destruct a0; [emits|].
  rewrite bind_ret. emits.
Qed.

Lemma dry_Copy f dst remote src : emits unchanged (Copy ci f dst remote src).
Proof. unfold Copy. rewrite SkipDestructive_dry, bind_ret by done. emits. Qed.

Lemma dry_move_body self fdst dst remote src : emits unchanged (move_body self fdst dst remote src).
Proof.
  unfold move_body. rewrite Hdry. emits_step.
  - destruct dst as [d|]; [|emits]. emits_step; [apply emits_SameObject|]. emits.
  - destruct a; [emits|]. rewrite SkipDestructive_dry, bind_ret by done. emits.
Qed.

Lemma dry_Move fdst dst remote src : emits unchanged (Move fdst dst remote src).
Proof. apply dry_move_body. Qed.

Lemma dry_MoveCaseInsensitive Op fdst name src : emits unchanged (MoveCaseInsensitive Op fdst name src).
Proof. unfold MoveCaseInsensitive. rewrite SkipDestructive_dry, bind_ret by done. emits. Qed.

Lemma dry_MoveBackupDir b dst : emits unchanged (MoveBackupDir b dst).
Proof. unfold MoveBackupDir. emits_step; [emits|]. emits_step; [apply dry_Move|]. emits. Qed.

Lemma dry_equal src dst opt : emits unchanged (equal ci src dst opt).
Proof. apply emits_equal; [apply _|apply dry_touch]. Qed.

Hint Resolve dry_delete_with dry_Copy dry_Move dry_MoveCaseInsensitive dry_MoveBackupDir dry_equal emits_SameObject : emits.

Lemma emits_OverlappingFilterCheck P `{!Looks P} fdst fsrc : emits P (OverlappingFilterCheck fdst fsrc).
Proof. unfold OverlappingFilterCheck, filterCheck. emits. Qed.

Lemma emits_get_fss P `{!Looks P} paths : emits P (get_fss paths).
Proof. induction paths as [|p paths IH]; cbn [get_fss]; [emits|]. emits_step; [emits|]. destruct a; [emits|]. emits_step; [done|]. emits. Qed.
Hint Resolve emits_OverlappingFilterCheck emits_get_fss : emits.

Lemma emits_find_dirs P `{!Looks P} fdst fsrc name : emits P (find_dirs fdst fsrc name).
Proof. unfold find_dirs, GetBackupDir, check_backup, GetCompareDest, GetCopyDest, fatal. emits. Qed.
Hint Resolve emits_find_dirs : emits.

Lemma dry_first_dest find fs : (forall f, emits unchanged (find f)) -> emits unchanged (first_dest find fs).
Proof. intros Hf. induction fs as [|f fs IH]; cbn [first_dest]; [emits|]. emits_step; [apply Hf|]. destruct a. destruct (_ || _); emits. Qed.

Lemma dry_CompareOrCopyDest fdst dst src fs b : emits unchanged (CompareOrCopyDest fdst dst src fs b).
Proof.
  unfold CompareOrCopyDest. destruct (CompareDest ci); [destruct (CopyDest ci); [emits|]|]; apply dry_first_dest; intros f.
  - unfold copyDest, copy_from_dest, Equal. emits.
  - unfold compareDest. emits.
Qed.

Lemma dry_NeedTransfer dst src : emits unchanged (NeedTransfer ci dst src).
Proof. apply emits_NeedTransfer; [apply _|]. intros. apply dry_touch. Qed.
Hint Resolve dry_CompareOrCopyDest dry_NeedTransfer : emits.

(** C26: with --dry-run no operation on single files changes anything: copying, moving, transforming and deleting end
    without a single call that could change a remote, whatever is found there. *)
Theorem dry_run_changes_nothing fdst fsrc dstFileName srcFileName cp allowOverlap dst backupDir :
  emits unchanged (moveOrCopyFile fdst fsrc dstFileName srcFileName cp allowOverlap) /\
  emits unchanged (DeleteFileWithBackupDir dst backupDir).
Proof.
  split.
  - assert (forall a b c d, emits unchanged ((if cp then Copy ci else MoveTransfer) a b c d)) as HOp.
    { intros. destruct cp; [apply dry_Copy|apply dry_Move]. }
    unfold moveOrCopyFile, transfer_or_delete, transfer_file, DeleteFile. cbn zeta. emits.
  - unfold DeleteFileWithBackupDir, DeleteFile. emits.
Qed.
End dry.

(** ** The source goes last *)

Section source.
Context (src : object) (Hfresh : forall f r, gives f r (fun o => o <> src)).

(** A call that does not remove the source. *)
Definition not_src (e : event) : Prop := ev_removed e <> Some src.

#[local] Instance Looks_not_src : Looks not_src.
Proof. by intros A [] ?. Qed.

Lemma not_src_accepts f r : accepts not_src f r (fun o => o <> src).
Proof. split; try (by intros); unfold not_src; cbn; intros; congruence. Qed.

Lemma emits_Copy_not_src f dst remote x : dst <> Some src -> emits not_src (Copy ci f dst remote x).
Proof.
  intros Hd. unfold Copy. emits_step; [emits|]. destruct a; [emits|]. emits_step; [by apply emits_checkPartial; apply _|].
  destruct a as [[rfc inplace] [e|]]; [emits|]. apply (emits_copy_ _ _ _ (fun o => o <> src)); cbn.
  - apply Hfresh.
  - apply not_src_accepts.
  - intros d _ ->. split; [congruence|done].
  - done.
Qed.

Lemma emits_delete_with P `{!Looks P} action act dst : emits P act -> emits P (delete_with action act dst).
Proof. intros Ha. unfold delete_with. emits. Qed.

Lemma emits_DeleteFile_not_src x : x <> src -> emits not_src (DeleteFile x).
Proof. intros Hx. apply emits_delete_with; [apply _|]. apply emits_do. intros a. unfold not_src. cbn. congruence. Qed.

Lemma mono_Copy f dst remote x : mono (Copy ci f dst remote x).
Proof.
  apply (emits_mono (fun _ => True)). unfold Copy. emits_step; [emits|]. destruct a; [emits|]. emits_step; [by apply emits_checkPartial; apply _|].
  destruct a as [[rfc inplace] [e|]]; [emits|]. apply monotone_copy_.
Qed.

Lemma mono_DeleteFile x : mono (DeleteFile x).
Proof. apply (emits_mono (fun _ => True)). apply emits_delete_with; [apply _|]. emits. Qed.
Hint Resolve mono_Copy mono_DeleteFile emits_SameObject : emits.

Lemma mono_MoveCaseInsensitive Op f name x : (forall f d r x, mono (Op f d r x)) -> mono (MoveCaseInsensitive Op f name x).
Proof. intros HOp. unfold MoveCaseInsensitive. mono. Qed.
Hint Resolve mono_MoveCaseInsensitive : emits.

Lemma mono_plan_move f dst remote x : mono (plan_move f dst remote x).
Proof. unfold plan_move. mono. Qed.

Lemma mono_copy_delete f dst orig remote x : mono (copy_delete f dst orig remote x).
Proof. unfold copy_delete. mono. Qed.
Hint Resolve mono_plan_move mono_copy_delete : emits.

Lemma mono_move_body self f dst remote x : (forall f d r x, mono (self f d r x)) -> mono (move_body self f dst remote x).
Proof. intros Hs. unfold move_body. mono. Qed.

Lemma mono_move n f dst remote x : mono (move n f dst remote x).
Proof. revert f dst remote x. induction n as [|n IH]; intros f dst remote x; cbn [move]; [apply mono_out_of_fuel|]. by apply mono_move_body. Qed.
Hint Resolve mono_move mono_move_body : emits.

(** Before the source is removed a copy of it has succeeded. *)
Definition copied_first (evs : trace) : Prop :=
  Forall not_src evs \/
  exists evs0 evsc evsd f d r s1 s2 o, evs = evs0 ++ evsc ++ evsd /\ Forall not_src (evs0 ++ evsc) /\
    runs (Copy ci f d r src) s1 evsc (o, None) s2.

Lemma copied_first_after evs evs' : Forall not_src evs' -> copied_first evs -> copied_first (evs' ++ evs).
Proof.
  intros H' [H | (evs0 & evsc & evsd & f & d & r & s1 & s2 & o & -> & Hn & Hr)]; [left; by apply Forall_app|right].
  exists (evs' ++ evs0), evsc, evsd, f, d, r, s1, s2, o. rewrite <- !app_assoc. split_and!; [done| |done].
  by apply Forall_app.
Qed.

Lemma copied_first_app evs evs' : copied_first evs -> copied_first evs' -> copied_first (evs ++ evs').
Proof.
  intros [H | (evs0 & evsc & evsd & f & d & r & s1 & s2 & o & -> & Hn & Hr)] H'; [by apply copied_first_after|right].
  exists evs0, evsc, (evsd ++ evs'), f, d, r, s1, s2, o. rewrite <- !app_assoc. done.
Qed.

Lemma not_src_first evs : Forall not_src evs -> copied_first evs.
Proof. by left. Qed.

Lemma runs_copy_delete f dst orig remote x s evs r s' : dst <> Some src ->
  runs (copy_delete f dst orig remote x) s evs r s' -> copied_first evs.
Proof.
  intros Hd. unfold copy_delete. set (dst' := if _ : bool then None else dst).
  assert (dst' <> Some src) as Hd' by (unfold dst'; destruct (negb _); done). intros H. cbn zeta in H. runs_step.
  match goal with H : runs (Copy _ _ _ _ _) _ _ ?r _ |- _ => pose proof H as Hcopy;
    apply (runs_emits not_src) in H; [destruct r as [newDst [e|]]|by apply emits_Copy_not_src] end.
  - runs_step. rewrite app_nil_r. by left.
  - runs_step. runs_step. rewrite app_nil_r. destruct (decide (x = src)) as [-> | Hx].
    + right. eexists [], _, _, _, _, _, _, _, _. split_and!; [done|done|exact Hcopy].
    + apply copied_first_after; [done|]. left. eapply runs_emits; [by apply emits_DeleteFile_not_src|done].
Qed.

Lemma runs_plan_move f dst remote x s evs p s' : dst <> Some src -> runs (plan_move f dst remote x) s evs p s' -> Forall not_src evs.
Proof.
  intros Hd H. eapply runs_emits; [|exact H]. unfold plan_move. destruct dst as [d|]; [|emits]. emits_step; [apply emits_SameObject|].
  emits_step; [|emits]. emits_step; [apply emits_DeleteFile_not_src; congruence|]. emits.
Qed.

Lemma runs_MoveCaseInsensitive Op f name x s evs r s' :
  (forall f d r x, mono (Op f d r x)) ->
  (forall r x s evs a s', runs (Op f None r x) s evs a s' -> copied_first evs) ->
  runs (MoveCaseInsensitive Op f name x) s evs r s' -> copied_first evs.
Proof.
  intros Hm HOp H. unfold MoveCaseInsensitive in H. runs_step.
  match goal with H : runs (SkipDestructive _ _) _ _ _ _ |- _ => apply (runs_emits not_src) in H; [|emits] end.
  apply copied_first_after; [done|]. runs_step; [runs_step; by left|]. runs_step. runs_step. apply (copied_first_after _ [_]); [by repeat constructor|].
  cbn zeta in *. runs_step. runs_step. apply (copied_first_after _ [_]); [by repeat constructor|].
  match goal with H : runs (match ?r with _ => _ end) _ _ _ _ |- _ => destruct r as [e|o] end; [|runs_step; by left].
  runs_step; [runs_step; by left|]. runs_step.
  match goal with H : runs (Op _ _ _ _) _ _ _ _ |- _ => apply HOp in H end. apply copied_first_app; [done|].
  match goal with H : runs (match ?r with _ => _ end) _ _ _ _ |- _ => destruct r as [tmpObj [e'|]] end; [runs_step; by left|].
  runs_step. runs_step. cbn [app]. by eapply HOp.
Qed.

(** After the server was asked. *)
Lemma runs_move_tail f dst orig remote x newDst err s evs r s' : dst <> Some src ->
  runs (match err with
        | None => o ← ptr newDst; _ ← Size o; mret (newDst, None)
        | Some e => if same ErrorCantMove e then copy_delete f dst orig remote x else e ← CountError e; mret (newDst, Some e)
        end) s evs r s' -> copied_first evs.
Proof.
  intros Hd. destruct err as [e|]; [destruct (same ErrorCantMove e)|]; intros H.
  - by eapply runs_copy_delete.
  - left. eapply runs_emits; [|exact H]. emits.
  - left. eapply runs_emits; [|exact H]. emits.
Qed.

Lemma runs_move n f dst remote x s evs r s' : dst <> Some src -> runs (move n f dst remote x) s evs r s' -> copied_first evs.
Proof.
  revert f dst remote x s evs r s'. induction n as [|n IH]; intros f dst remote x s evs r s' Hd; cbn [move]; [by intros [? _]|].
  unfold move_body. cbn zeta. intros H. runs_step. apply copied_first_after.
  { eapply runs_emits; [|eassumption]. destruct (DryRun ci); [|emits]. destruct dst; [|emits]. emits_step; [apply emits_SameObject|emits]. }
  runs_step; [runs_step; by left|]. runs_step.
  match goal with H : runs (SkipDestructive _ _) _ _ _ _ |- _ => apply (runs_emits not_src) in H; [|emits] end.
  apply copied_first_after; [done|]. runs_step; [runs_step; by left|]. runs_step; [|by eapply runs_copy_delete].
  runs_step. apply copied_first_after; [by eapply runs_plan_move|].
  match goal with H : runs (match ?p with _ => _ end) _ _ _ _ |- _ => destruct p as [p|p|p] end; [runs_step; by left|..].
  all: runs_step; apply copied_first_app.
  - left. eapply runs_emits; [|eassumption]. emits_step; [by apply emits_do|emits].
  - match goal with H : runs (match ?p with _ => _ end) _ _ _ _ |- _ => destruct p as [newDst err] end. by eapply runs_move_tail.
  - eapply runs_MoveCaseInsensitive; [apply mono_move| |eassumption]. intros. eapply (IH f None); [done|eassumption].
  - match goal with H : runs (match ?p with _ => _ end) _ _ _ _ |- _ => destruct p as [newDst err] end. by eapply runs_move_tail.
Qed.

(** Without questions [Copy] does copy, and if there is something to compare it compares it. *)
Lemma runs_Copy_auto f dst remote x s evs o s' : DryRun ci = false -> Interactive ci = false ->
  runs (Copy ci f dst remote x) s evs (o, None) s' ->
  exists rfc evs1 evs2 s1, evs = evs1 ++ evs2 /\ runs (copy_ ci (the_copy ci f dst remote x rfc)) s1 evs2 (o, None) s'.
Proof.
  intros Hd Hi. unfold Copy. rewrite SkipDestructive_auto, bind_ret by done. fold (target dst remote). cbn zeta. intros H.
  apply runs_bind in H as (evs1 & evs2 & r & s1 & -> & Hp & H);
    [|by apply (emits_mono (fun _ => True)), emits_checkPartial; apply _|
      intros [[? ?] [?|]]; apply (emits_mono (fun _ => True)); [emits|apply monotone_copy_]].
  destruct r as [[rfc inplace] [e|]]; [by runs_step|]. apply runs_checkPartial in Hp as [-> _].
  by eexists rfc, _, _, _.
Qed.

Lemma runs_copy_checked c s evs o s' : runs (copy_ ci c) s evs (o, None) s' ->
  (exists evs1 vs evs2 s1 o1, evs = evs1 ++ vs ++ evs2 /\ Forall unchanged vs /\ verified ci c s1 vs o1) \/ c_hashType c = Hash.None_.
Proof.
  intros H. destruct o as [o|].
  - left. destruct (runs_copy_ok _ _ _ _ _ _ H) as (evs1 & vs & s1 & s2 & o1 & _ & Hu & Hv & _ & Hm).
    destruct (needs_move c); [rewrite Hm|destruct Hm as [-> _]];
      [eexists evs1, vs, _, s1, o1|exists evs1, vs, [], s1, o1; rewrite app_nil_r]; done.
  - right. destruct (decide (c_hashType c = Hash.None_)) as [|Hne]; [done|exfalso]. unfold copy_ in H. runs_step.
    match goal with H : runs (try_copy _ _ _ _) _ _ ?r _ |- _ => destruct r as [e|[[o1|] [e|]]] end;
      [repeat runs_step; simplify_eq..| |repeat runs_step; simplify_eq|].
    + runs_step. match goal with H : runs (match ?r with _ => _ end) _ _ _ _ |- _ => destruct r end; [repeat runs_step; simplify_eq|].
      unfold move_into_place in *. repeat runs_step; simplify_eq.
    + runs_step. match goal with H : runs (verify _ _ _) _ _ _ _ |- _ => by apply runs_verify_none in H end.
Qed.

End source.

End config.
(** ** Examples *)

Definition a_config (dry interactive : bool) (compare : list string) : ConfigInfo := {|
  DryRun := dry; Interactive := interactive; IgnoreSize := false; SizeOnly := false; CheckSum := false; IgnoreChecksum := false;
  IgnoreTimes := false; IgnoreExisting := false; UpdateOlder := false; NoUpdateModTime := false; RefreshTimes := false;
  Immutable := false; NoCheckDest := false; ModifyWindow := 1; Inplace := false; PartialSuffix := ".partial";
  MaxTransfer := -1; Cutoff := CutoffModeHard; ServerSideAcrossConfigs := false; LowLevelRetries := 10; Metadata := false;
  MultiThreadStreams := 4; MultiThreadCutoff := 256 * 2 ^ 20; MultiThreadSet := false; BackupDir := ""; Suffix := "";
  SuffixKeepExtension := false; CompareDest := compare; CopyDest := []; withEqualFn := false |}.

(** The source exists, its name ends the paths of its kind. *)
Definition found_answer {A} (t : trace) (c : call A) : A :=
  match c with
  | NewObject f r => if str_eqb (fs_Name f) (fs_Name example_to) then inl (New ErrorObjectNotFound) else inr (mkObject f r 7 false false)
  | c => default_answer c
  end.

Definition found_world : Env := example_env (fun _ => 5) (fun _ => 0) (@found_answer).

Lemma dry_run_changes_nothing_witness :
  exists evs r s', runs (MoveFile (env := found_world) (a_config true false []) example_to (o_Fs example_from) "d/f" "f") (mkSt [] ∅) evs r s' /\
    Forall unchanged evs.
Proof.
  assert (exists evs r s', runs (MoveFile (env := found_world) (a_config true false []) example_to (o_Fs example_from) "d/f" "f") (mkSt [] ∅) evs r s')
    as (evs & r & s' & H).
  { eexists _, _, _. split; [vm_compute; reflexivity|reflexivity]. }
  exists evs, r, s'. split; [exact H|]. eapply runs_emits; [|exact H].
  exact (proj1 (dry_run_changes_nothing (env := found_world) (a_config true false []) eq_refl example_to (o_Fs example_from) "d/f" "f"
    false false example_from None)).
Defined.

Lemma example_fresh f r : gives (env := example_world) f r (fun o => o <> example_from).
Proof. split; cbn; intros; simplify_eq; intros Hx; by inversion Hx. Qed.


(** ** What the questions of --interactive and --compare-dest can do *)

(** The move is wanted, the copy is not. *)
Definition refuse (no : string) {A} (t : trace) (c : call A) : A :=
  match c with
  | Ask a => if str_eqb a no then "n"%char else "y"%char
  | c => default_answer c
  end.

Definition refusing (no : string) : Env := example_env (fun _ => 5) (fun _ => 0) (@refuse no).

(** The calls of a run that change a remote. *)
Definition ev_mutates (e : event) : bool := match e with Ev c _ => mutates c end.

(** With --interactive a move can lose the file: who agrees to the move, refuses the copy and agrees to the deletion
    has the source removed by the only call that changes anything, and no error is reported. *)
Theorem interactive_move_deletes :
  exists evs s', runs (Move (env := refusing "copy") (a_config false true []) example_to None "d/f" example_from) (mkSt [] ∅) evs (None, None) s' /\
    filter (fun e => ev_mutates e = true) evs = [Ev (Remove example_from) None].
Proof. eexists _, _. split; [split; [vm_compute; reflexivity|reflexivity]|vm_compute; reflexivity]. Qed.

Definition folding_fs : Fs := mkFs "c" "" "local" 1 1 (mkFeatures false true false false false true false true false false false false).

(** With --interactive, on a remote that ignores case, a rename that is refused ends in a nil pointer: there is no
    error and no object, and the size of the object is asked for. *)
Theorem refused_rename_panics :
  exists s', Move (env := refusing "rename to F") (a_config false true []) folding_fs None "F" (mkObject folding_fs "f" 1 false false) (mkSt [] ∅)
    = (s', Panicked).
Proof. eexists. vm_compute. reflexivity. Qed.

(** Moving a single file that is found in --compare-dest but not at the destination ends in a nil pointer: the
    transfer is not needed, and the missing destination is then compared with the source. *)
Theorem compare_dest_panics :
  exists s', MoveFile (env := found_world) (a_config false false ["other"]) example_to (o_Fs example_from) "d/f" "f" (mkSt [] ∅)
    = (s', Panicked).
Proof. eexists. vm_compute. reflexivity. Qed.

End MoveFile.
