(* ===== verification/Regexp.v ===== *)
(** * Regular expressions as Go's package regexp reads and matches them

    The syntax that the sources build (literals, escaped punctuation, simple
    character classes, dots, groups, alternatives, repetition, anchors) has a
    parser, a semantics and a matcher.  A pattern outside this syntax, which a
    user may write between double braces, is compiled by a parameter. *)
From S2P Require Import Prelude.

Module Regexp.

(** ** Syntax *)

Inductive re : Type :=
  | Eps
  | Begin                                  (* ^ *)
  | End_                                   (* $ *)
  | Any                                    (* a dot: all but a newline *)
  | Class (neg : bool) (cs : list Z)       (* [abc] or [^abc] *)
  | Table (p : Z -> bool)                  (* a class with ranges and Unicode tables *)
  | Chr (c : Z)
  | Seq (a b : re)
  | Alt (a b : re)
  | Star (a : re).

Definition Plus (a : re) : re := Seq a (Star a).
Definition Opt (a : re) : re := Alt a Eps.

(** What is not modelled of the package: simple case folding of runes, and patterns in richer syntax. *)
Class GoRegexp : Type := {
  fold_case : Z -> Z;
  outside : list Z -> option (list Z -> bool) }.

(** ** Matching

    A match is between two positions of the text. *)

Section matching.
Context {go : GoRegexp} (ci : bool).

Definition same_char (c d : Z) : bool := if ci then fold_case c =? fold_case d else c =? d.
Definition in_class (neg : bool) (cs : list Z) (d : Z) : bool := xorb neg (existsb (fun c => same_char c d) cs).
Definition newline : Z := 10.

Inductive matches (s : list Z) : re -> nat -> nat -> Prop :=
  | m_eps i : matches s Eps i i
  | m_begin : matches s Begin 0 0
  | m_end : matches s End_ (length s) (length s)
  | m_any i d : s !! i = Some d -> d <> newline -> matches s Any i (S i)
  | m_class neg cs i d : s !! i = Some d -> in_class neg cs d = true -> matches s (Class neg cs) i (S i)
  | m_table p i d : s !! i = Some d -> p d = true -> matches s (Table p) i (S i)
  | m_chr c i d : s !! i = Some d -> same_char c d = true -> matches s (Chr c) i (S i)
  | m_seq a b i j k : matches s a i j -> matches s b j k -> matches s (Seq a b) i k
  | m_alt1 a b i j : matches s a i j -> matches s (Alt a b) i j
  | m_alt2 a b i j : matches s b i j -> matches s (Alt a b) i j
  | m_star0 a i : matches s (Star a) i i
  | m_star1 a i j k : matches s a i j -> matches s (Star a) j k -> matches s (Star a) i k.

(** The matcher: all the positions where a match that starts at [i] can end. *)
Definition one_char (s : list Z) (ok : Z -> bool) (i : nat) : list nat :=
  match s !! i with Some d => if ok d then [S i] else [] | None => [] end.

(** A turn of a repetition that does not advance is of no use. *)
Fixpoint star_ends (ends : nat -> list nat) (fuel i : nat) : list nat :=
  match fuel with
  | O => [i]
  | S fuel' => i :: list_bind _ _ (fun j => if (i <? j)%nat then star_ends ends fuel' j else []) (ends i)
  end.

Fixpoint ends (r : re) (s : list Z) (i : nat) : list nat :=
  match r with
  | Eps => [i]
  | Begin => if (i =? 0)%nat then [i] else []
  | End_ => if (i =? length s)%nat then [i] else []
  | Any => one_char s (fun d => negb (d =? newline)) i
  | Class neg cs => one_char s (in_class neg cs) i
  | Table p => one_char s p i
  | Chr c => one_char s (same_char c) i
  | Seq a b => ends a s i ≫= ends b s
  | Alt a b => ends a s i ++ ends b s i
  | Star a => star_ends (ends a s) (length s - i) i
  end.

(** [MatchString]: a match anywhere in the text. *)
Definition found (r : re) (s : list Z) : bool :=
  existsb (fun i => match ends r s i with [] => false | _ => true end) (seq 0 (S (length s))).

Lemma matches_bounds s r i j : matches s r i j -> (i <= length s)%nat -> (i <= j <= length s)%nat.
Proof.
  induction 1; intros Hi; try lia; repeat match goal with H : s !! _ = Some _ |- _ => apply lookup_lt_Some in H end; try lia.
Qed.

Lemma one_char_spec s ok i j : j ∈ one_char s ok i <-> exists d, s !! i = Some d /\ ok d = true /\ j = S i.
Proof.
  unfold one_char. destruct (s !! i) as [d|].
  - destruct (ok d) eqn:E; split.
    + intros ->%list_elem_of_singleton. by exists d.
    + intros (d' & [= <-] & _ & ->). by apply list_elem_of_singleton.
    + by intros ?%not_elem_of_nil.
    + intros (d' & [= <-] & ? & _). congruence.
  - split; [by intros ?%not_elem_of_nil|by intros (d & ? & _)].
Qed.

Lemma star_ends_spec s a fuel i j : (length s - i <= fuel)%nat -> (i <= length s)%nat ->
  (forall i j, (i <= length s)%nat -> j ∈ ends a s i <-> matches s a i j) ->
  j ∈ star_ends (ends a s) fuel i <-> matches s (Star a) i j.
Proof.
  intros Hf Hi Ha. split.
  - revert i Hf Hi. induction fuel as [|fuel IH]; intros i Hf Hi; cbn [star_ends].
    + intros ->%list_elem_of_singleton. constructor.
    + intros [->|Hj]%elem_of_cons; [constructor|]. apply list_elem_of_bind in Hj as (k & Hj & Hk).
      apply Ha in Hk as Hk'; [|done]. destruct (i <? k)%nat eqn:E; [|by apply not_elem_of_nil in Hj].
      apply Nat.ltb_lt in E. pose proof (matches_bounds _ _ _ _ Hk' Hi). eapply m_star1; [exact Hk'|]. apply IH; [lia|lia|done].
  - intros Hm. remember (Star a) as r eqn:Er. revert fuel Hf Hi. induction Hm; intros fuel Hf Hi; try done.
    + destruct fuel; cbn [star_ends]; [by apply list_elem_of_singleton|by left].
    + injection Er as ->. pose proof (matches_bounds _ _ _ _ Hm1 Hi). destruct (decide (i = j)) as [<-|Hne]; [by apply IHHm2|].
      destruct fuel as [|fuel]; [lia|]. cbn [star_ends]. right. apply list_elem_of_bind. exists j. split; [|by apply Ha].
      destruct (i <? j)%nat eqn:E; [|apply Nat.ltb_ge in E; lia]. apply IHHm2; [done|lia|lia].
Qed.

(** The matcher finds exactly the matches. *)
Lemma ends_spec r s i j : (i <= length s)%nat -> j ∈ ends r s i <-> matches s r i j.
Proof.
  revert i j. induction r as [| | | |neg cs|p|c|a IHa b IHb|a IHa b IHb|a IHa]; intros i j Hi; cbn [ends].
  - rewrite list_elem_of_singleton. split; [intros ->; constructor|by inversion 1].
  - destruct (i =? 0)%nat eqn:E; [apply Nat.eqb_eq in E; subst; rewrite list_elem_of_singleton; split; [intros ->; constructor|by inversion 1]|].
    split; [by intros ?%not_elem_of_nil|]. apply Nat.eqb_neq in E. by inversion 1.
  - destruct (i =? length s)%nat eqn:E; [apply Nat.eqb_eq in E; subst; rewrite list_elem_of_singleton; split; [intros ->; constructor|by inversion 1]|].
    split; [by intros ?%not_elem_of_nil|]. apply Nat.eqb_neq in E. by inversion 1.
  - rewrite one_char_spec. split.
    + intros (d & Hd & Hok & ->). econstructor; [exact Hd|]. by apply negb_true_iff, Z.eqb_neq in Hok.
    + inversion 1; subst. eexists. split_and!; [done| |done]. by apply negb_true_iff, Z.eqb_neq.
  - rewrite one_char_spec. split; [intros (d & Hd & Hok & ->); by econstructor|inversion 1; subst; by eexists].
  - rewrite one_char_spec. split; [intros (d & Hd & Hok & ->); by econstructor|inversion 1; subst; by eexists].
  - rewrite one_char_spec. split; [intros (d & Hd & Hok & ->); by econstructor|inversion 1; subst; by eexists].
  - rewrite list_elem_of_bind. split.
    + intros (k & Hk & Hj). apply IHa in Hj; [|done]. pose proof (matches_bounds _ _ _ _ Hj Hi). apply IHb in Hk; [|lia]. by econstructor.
    + inversion 1 as [| | | | | | |? ? ? k ? Ha Hb| | | |]; subst. pose proof (matches_bounds _ _ _ _ Ha Hi). exists k.
      split; [by apply IHb; [lia|]|by apply IHa].
  - rewrite elem_of_app, IHa, IHb by done. split; [intros [|]; [by apply m_alt1|by apply m_alt2]|inversion 1; subst; auto].
  - apply star_ends_spec; [lia|done|]. intros i' j' Hi'. by apply IHa.
Qed.

Lemma found_spec r s : found r s = true <-> exists i j, (i <= length s)%nat /\ matches s r i j.
Proof.
  unfold found. rewrite existsb_exists. split.
  - intros (i & Hi & He). apply in_seq in Hi. destruct (ends r s i) as [|j l] eqn:E; [done|]. exists i, j. split; [lia|].
    apply ends_spec; [lia|]. rewrite E. by left.
  - intros (i & j & Hi & Hm). exists i. split; [apply in_seq; lia|]. apply ends_spec in Hm; [|done].
    destruct (ends r s i); [by apply not_elem_of_nil in Hm|done].
Qed.
(** ** Words of a pattern

    A pattern without anchors matches a part of the text by what that part is,
    wherever it stands. *)

Inductive lang : re -> list Z -> Prop :=
  | l_eps : lang Eps []
  | l_any d : d <> newline -> lang Any [d]
  | l_class neg cs d : in_class neg cs d = true -> lang (Class neg cs) [d]
  | l_table p d : p d = true -> lang (Table p) [d]
  | l_chr c d : same_char c d = true -> lang (Chr c) [d]
  | l_seq a b u v : lang a u -> lang b v -> lang (Seq a b) (u ++ v)
  | l_alt1 a b u : lang a u -> lang (Alt a b) u
  | l_alt2 a b u : lang b u -> lang (Alt a b) u
  | l_star0 a : lang (Star a) []
  | l_star1 a u v : lang a u -> lang (Star a) v -> lang (Star a) (u ++ v).

Fixpoint anchor_free (r : re) : bool :=
  match r with
  | Begin | End_ => false
  | Seq a b | Alt a b => anchor_free a && anchor_free b
  | Star a => anchor_free a
  | _ => true
  end.

Lemma lang_matches r w : lang r w -> forall a b, matches (a ++ w ++ b) r (length a) (length a + length w).
Proof.
  assert (forall (a : list Z) d b, (a ++ [d] ++ b) !! length a = Some d) as Hd by (intros; by apply list_lookup_middle).
  induction 1 as [| | | | |x y u v Hu IHu Hv IHv|x y u Hu IHu|x y u Hu IHu|x|x u v Hu IHu Hv IHv]; intros a b; cbn [length];
    rewrite ?Nat.add_0_r, ?Nat.add_1_r; try (econstructor; done).
  - rewrite length_app, Nat.add_assoc. apply (m_seq _ _ _ _ (length a + length u)); [rewrite <- (assoc_L app); apply IHu|].
    specialize (IHv (a ++ u) b). by rewrite length_app, <- (assoc_L app), (assoc_L app u) in IHv.
  - rewrite length_app, Nat.add_assoc. apply (m_star1 _ _ _ (length a + length u)); [rewrite <- (assoc_L app); apply IHu|].
    specialize (IHv (a ++ u) b). by rewrite length_app, <- (assoc_L app), (assoc_L app u) in IHv.
Qed.

(** The part of a text between two positions. *)
Definition between (s : list Z) (i j : nat) : list Z := take (j - i) (drop i s).

Lemma between_app s i j k : (i <= j <= k)%nat -> between s i k = between s i j ++ between s j k.
Proof.
  intros H. unfold between. replace (k - i)%nat with ((j - i) + (k - j))%nat by lia. rewrite <- take_take_drop, drop_drop.
  by replace (i + (j - i))%nat with j by lia.
Qed.

Lemma between_one s i d : s !! i = Some d -> between s i (S i) = [d].
Proof. intros H. unfold between. rewrite (drop_S _ _ _ H). by replace (S i - i)%nat with 1%nat by lia. Qed.

Lemma between_nil s i : between s i i = [].
Proof. unfold between. by rewrite Nat.sub_diag. Qed.

Lemma matches_lang s r i j : matches s r i j -> anchor_free r = true -> (i <= length s)%nat -> lang r (between s i j).
Proof.
  induction 1 as [i| | | | | | |x y i j k Hx IHx Hy IHy|x y i j Hx IHx|x y i j Hx IHx|x i|x i j k Hx IHx Hy IHy]; cbn [anchor_free]; intros Hf Hi;
    try done; rewrite ?between_nil; try (erewrite between_one by done); try (by constructor).
  - apply andb_true_iff in Hf as [Hfx Hfy]. pose proof (matches_bounds _ _ _ _ Hx Hi) as Hj. pose proof (matches_bounds _ _ _ _ Hy (proj2 Hj)) as Hk.
    rewrite (between_app s i j k) by lia. constructor; [by apply IHx|apply IHy; [done|lia]].
  - apply andb_true_iff in Hf as [Hfx Hfy]. apply l_alt1. by apply IHx.
  - apply andb_true_iff in Hf as [Hfx Hfy]. apply l_alt2. by apply IHx.
  - pose proof (matches_bounds _ _ _ _ Hx Hi) as Hj. pose proof (matches_bounds _ _ _ _ Hy (proj2 Hj)) as Hk.
    rewrite (between_app s i j k) by lia. constructor; [by apply IHx|apply IHy; [done|lia]].
Qed.

(** Anchored at both ends, the whole text is a word. *)
Lemma found_whole r s : anchor_free r = true -> found (Seq Begin (Seq r End_)) s = true <-> lang r s.
Proof.
  intros Hf. rewrite found_spec. split.
  - intros (i & j & Hi & Hm). inversion Hm as [| | | | | | |? ? ? ? ? Hb Hm'| | | |]; subst. inversion Hb; subst.
    inversion Hm' as [| | | | | | |? ? ? ? ? Hr He| | | |]; subst. inversion He; subst. apply matches_lang in Hr; [|done|lia].
    unfold between in Hr. by rewrite Nat.sub_0_r, drop_0, take_ge in Hr by lia.
  - intros Hl. exists 0%nat, (length s). split; [lia|]. apply (m_seq _ _ _ _ 0); [constructor|].
    apply (m_seq _ _ _ _ (length s)); [|constructor]. pose proof (lang_matches _ _ Hl [] []) as H. by rewrite app_nil_r in H.
Qed.

Lemma lang_table p w : lang (Table p) w <-> exists d, w = [d] /\ p d = true.
Proof. split; [inversion 1; subst; by eexists|intros (d & -> & H); by constructor]. Qed.

Lemma lang_seq a b w : lang (Seq a b) w <-> exists u v, w = u ++ v /\ lang a u /\ lang b v.
Proof. split; [inversion 1; subst; by eexists _, _|intros (u & v & -> & Hu & Hv); by constructor]. Qed.

(** Repetitions of one character. *)
Lemma lang_star_one a (ok : Z -> bool) w : (forall u, lang a u <-> exists d, u = [d] /\ ok d = true) -> lang (Star a) w <-> forallb ok w = true.
Proof.
  intros Ha. split.
  - remember (Star a) as r eqn:Er. intros Hl. induction Hl; try done. injection Er as ->. apply Ha in Hl1 as (d & -> & Hd).
    cbn [app forallb]. rewrite Hd. by apply IHHl2.
  - induction w as [|d w IH]; cbn [forallb]; intros H; [constructor|]. apply andb_true_iff in H as [Hd Hw].
    apply (l_star1 a [d] w); [apply Ha; by exists d|by apply IH].
Qed.

Lemma lang_plus_one a (ok : Z -> bool) w : (forall u, lang a u <-> exists d, u = [d] /\ ok d = true) ->
  lang (Plus a) w <-> w <> [] /\ forallb ok w = true.
Proof.
  intros Ha. unfold Plus. rewrite lang_seq. split.
  - intros (u & v & -> & Hu & Hv). apply Ha in Hu as (d & -> & Hd). apply (lang_star_one a ok) in Hv; [|done]. cbn [app forallb].
    by rewrite Hd, Hv.
  - intros [Hne Hw]. destruct w as [|d w]; [done|]. cbn [forallb] in Hw. apply andb_true_iff in Hw as [Hd Hw].
    exists [d], w. split; [done|]. split; [apply Ha; by exists d|]. by apply (lang_star_one a ok).
Qed.
End matching.

(** ** Parsing *)

(** Characters with a meaning of their own: [\.+*?()|[]{}^$]. *)
Definition special : list Z := [92; 46; 43; 42; 63; 40; 41; 124; 91; 93; 123; 125; 94; 36].
Definition is_special (c : Z) : bool := existsb (Z.eqb c) special.

(** Punctuation, which a backslash makes literal. *)
Definition is_punct (c : Z) : bool :=
  ((33 <=? c) && (c <=? 47)) || ((58 <=? c) && (c <=? 64)) || ((91 <=? c) && (c <=? 96)) || ((123 <=? c) && (c <=? 126)).

(** The members of a class up to its bracket; ranges, escapes and nested brackets are outside. *)
Fixpoint p_class (s : list Z) : option (list Z * list Z) :=
  match s with
  | [] => None
  | c :: s =>
      if c =? 93 then Some ([], s)
      else if (c =? 91) || (c =? 92) || (c =? 45) || (c =? 94) then None
      else match p_class s with Some (cs, rest) => Some (c :: cs, rest) | None => None end
  end.

Definition p_set (neg : bool) (s : list Z) : option (re * list Z) :=
  match p_class s with
  | Some ([], _) | None => None
  | Some (cs, rest) => Some (Class neg cs, rest)
  end.

(** The repetition after an atom; a second one is an error. *)
Definition is_repeat (c : Z) : bool := (c =? 42) || (c =? 43) || (c =? 63).

Definition p_repeat (a : re) (s : list Z) : option (re * list Z) :=
  match s with
  | c :: rest =>
      if is_repeat c then
        match rest with
        | d :: _ => if is_repeat d || (d =? 123) then None else Some (if c =? 42 then Star a else if c =? 43 then Plus a else Opt a, rest)
        | [] => Some (if c =? 42 then Star a else if c =? 43 then Plus a else Opt a, rest)
        end
      else Some (a, s)
  | [] => Some (a, s)
  end.

Fixpoint p_alt (fuel : nat) (s : list Z) : option (re * list Z) :=
  match fuel with
  | O => None
  | S fuel' =>
      match p_seq fuel' s with
      | Some (r, c :: rest) =>
          if c =? 124 then match p_alt fuel' rest with Some (r', rest') => Some (Alt r r', rest') | None => None end
          else Some (r, c :: rest)
      | x => x
      end
  end
with p_seq (fuel : nat) (s : list Z) : option (re * list Z) :=
  match fuel with
  | O => None
  | S fuel' =>
      match s with
      | [] => Some (Eps, [])
      | c :: _ =>
          if (c =? 41) || (c =? 124) then Some (Eps, s)
          else
            match p_atom fuel' s with
            | Some (a, rest) =>
                match p_repeat a rest with
                | Some (a, rest) => match p_seq fuel' rest with Some (r, rest) => Some (Seq a r, rest) | None => None end
                | None => None
                end
            | None => None
            end
      end
  end
with p_atom (fuel : nat) (s : list Z) : option (re * list Z) :=
  match fuel, s with
  | S fuel', c :: rest =>
      if c =? 94 then Some (Begin, rest)
      else if c =? 36 then Some (End_, rest)
      else if c =? 46 then Some (Any, rest)
      else if c =? 40 then
        match rest with
        | d :: _ =>
            if d =? 63 then None
            else match p_alt fuel' rest with Some (r, e :: rest) => if e =? 41 then Some (r, rest) else None | _ => None end
        | [] => None
        end
      else if c =? 91 then
        match rest with
        | d :: rest' => if d =? 94 then p_set true rest' else p_set false rest
        | [] => None
        end
      else if c =? 92 then match rest with d :: rest => if is_punct d then Some (Chr d, rest) else None | [] => None end
      else if is_special c then None
      else Some (Chr c, rest)
  | _, _ => None
  end.

(** The flag (?i) at the start makes the pattern ignore case. *)
Definition parse (s : list Z) : option (bool * re) :=
  let '(ci, s) := match s with 40 :: 63 :: 105 :: 41 :: rest => (true, rest) | _ => (false, s) end in
  match p_alt (8 + 2 * length s) s with Some (r, []) => Some (ci, r) | _ => None end.

(** ** Compiled patterns *)

Record regexp : Type := mkRegexp {
  source : list Z;
  matcher : list Z -> bool }.

Section compile.
Context {go : GoRegexp}.

(** [regexp.Compile], without the text of its error. *)
Definition Compile (s : list Z) : option regexp :=
  match parse s with
  | Some (ci, r) => Some (mkRegexp s (found ci r))
  | None => option_map (mkRegexp s) (outside s)
  end.
End compile.
End Regexp.
