(* ===== verification/Glob.v ===== *)
(** * Globs: fs/filter/glob.go

    The translation of an rsync style glob into a regular expression and the
    directory globs that say in which directories its files can be. *)
From S2P Require Import Prelude GoPath Utf8 Regexp.

Module Glob.
Import GoPath Utf8 Regexp.

Inductive glob_error : Type :=
  | TooManyStars
  | MismatchedBracket         (* ']' alone *)
  | MismatchedBraces
  | MismatchedBrackets
  | MismatchedRegexp          (* '{{' and '}}' *)
  | BadPattern.

Definition str (s : string) : list Z := runes s.

(** ** [globToRegexp]

    The variables of the loop; [buf] is the text written so far, last rune first. *)
Record gstate : Type := mkG {
  buf : list Z;
  consecutiveStars : nat;
  braceDepth : Z;
  inBrackets : Z;
  slashed : bool;
  inRegexp : bool;
  inRegexpEnd : bool;
  next : Z }.

Section glob.
Context {go : GoRegexp} (pathMode addAnchors ignoreCase : bool).

Definition write (s : list Z) (g : gstate) : gstate :=
  mkG (rev_append s (buf g)) (consecutiveStars g) (braceDepth g) (inBrackets g) (slashed g) (inRegexp g) (inRegexpEnd g) (next g).

(** The last character is one of the ASCII characters "}" and ")". *)
Definition overwriteLastChar (c : Z) (g : gstate) : gstate :=
  mkG (c :: tail (buf g)) (consecutiveStars g) (braceDepth g) (inBrackets g) (slashed g) (inRegexp g) (inRegexpEnd g) (next g).

Definition insertStars (g : gstate) : glob_error + gstate :=
  let done g := mkG (buf g) 0 (braceDepth g) (inBrackets g) (slashed g) (inRegexp g) (inRegexpEnd g) (next g) in
  match consecutiveStars g with
  | O => inr (done g)
  | 1%nat => inr (done (write (if pathMode then str "[^/]*" else str ".*") g))
  | 2%nat => if pathMode then inr (done (write (str ".*") g)) else inl TooManyStars
  | _ => inl TooManyStars
  end.

Definition set_slashed (b : bool) (g : gstate) : gstate :=
  mkG (buf g) (consecutiveStars g) (braceDepth g) (inBrackets g) b (inRegexp g) (inRegexpEnd g) (next g).
Definition set_regexp (b e : bool) (g : gstate) : gstate :=
  mkG (buf g) (consecutiveStars g) (braceDepth g) (inBrackets g) (slashed g) b e (next g).
Definition add_star (g : gstate) : gstate :=
  mkG (buf g) (S (consecutiveStars g)) (braceDepth g) (inBrackets g) (slashed g) (inRegexp g) (inRegexpEnd g) (next g).
Definition add_depth (n : Z) (g : gstate) : gstate :=
  mkG (buf g) (consecutiveStars g) (braceDepth g + n) (inBrackets g) (slashed g) (inRegexp g) (inRegexpEnd g) (next g).
Definition add_brackets (n : Z) (g : gstate) : gstate :=
  mkG (buf g) (consecutiveStars g) (braceDepth g) (inBrackets g + n) (slashed g) (inRegexp g) (inRegexpEnd g) (next g).
Definition set_next (c : Z) (g : gstate) : gstate :=
  mkG (buf g) (consecutiveStars g) (braceDepth g) (inBrackets g) (slashed g) (inRegexp g) (inRegexpEnd g) c.

(** The characters [.+()|^$] that are not dealt with otherwise. *)
Definition meta : list Z := [46; 43; 40; 41; 124; 94; 36].
Definition is_meta (c : Z) : bool := existsb (Z.eqb c) meta.

(** The [switch] on a character outside of brackets and regexps. *)
Definition plain_char (c last : Z) (g : gstate) : glob_error + gstate :=
  if c =? 92 then inr (set_slashed true (write [c] g))
  else if c =? 42 then inr (add_star g)
  else if c =? 63 then inr (write (if pathMode then str "[^/]" else str ".") g)
  else if c =? 91 then inr (add_brackets 1 (write [c] g))
  else if c =? 93 then inl MismatchedBracket
  else if c =? 123 then
    if (braceDepth g >? 0) && (last =? 123) then inr (add_depth (-1) (set_regexp true (inRegexpEnd g) g))
    else inr (write [40] (add_depth 1 g))
  else if c =? 125 then
    if braceDepth g <=? 0 then inl MismatchedBraces else inr (add_depth (-1) (write [41] g))
  else if c =? 44 then inr (write (if braceDepth g >? 0 then [124] else [c]) g)
  else if is_meta c then inr (write [92; c] g)
  else inr (write [c] g).

(** One turn of the loop. *)
Definition glob_step (g : gstate) (c : Z) : glob_error + gstate :=
  let last := next g in
  let g := set_next c g in
  if slashed g then inr (set_slashed false (write [c] g))
  else if inRegexpEnd g && (c =? 125) then inr (write [41] (overwriteLastChar 125 g))
  else
    let g := set_regexp (inRegexp g) false g in
    if inRegexp g then
      if (c =? 125) && (last =? 125) then inr (overwriteLastChar 41 (set_regexp false true g))
      else inr (write [c] g)
    else
      match (if c =? 42 then inr g else insertStars g) with
      | inl e => inl e
      | inr g =>
          if inBrackets g >? 0 then
            let g := write [c] g in
            let g := if c =? 91 then add_brackets 1 g else g in
            inr (if c =? 93 then add_brackets (-1) g else g)
          else plain_char c last g
      end.

Fixpoint glob_loop (g : gstate) (glob : list Z) : glob_error + gstate :=
  match glob with
  | [] => inr g
  | c :: glob => match glob_step g c with inl e => inl e | inr g => glob_loop g glob end
  end.

(** The end of the function, without the compilation. *)
Definition glob_finish (g : gstate) : glob_error + list Z :=
  match insertStars g with
  | inl e => inl e
  | inr g =>
      if inBrackets g >? 0 then inl MismatchedBrackets
      else if negb (braceDepth g =? 0) then inl MismatchedBraces
      else if inRegexp g then inl MismatchedRegexp
      else inr (rev (if addAnchors then 36 :: buf g else buf g))
  end.

Definition glob_start (b : list Z) : gstate := mkG (rev b) 0 0 0 false false false 0.

Definition glob_text (glob : list Z) : glob_error + list Z :=
  let flag := if ignoreCase then str "(?i)" else [] in
  let '(head, glob) :=
    if addAnchors then
      if pathMode then
        match glob with
        | c :: rest => if c =? 47 then (str "^", rest) else (str "(^|/)", glob)
        | [] => (str "(^|/)", glob)
        end
      else (str "^", glob)
    else ([], glob) in
  match glob_loop (glob_start (flag ++ head)) glob with
  | inl e => inl e
  | inr g => glob_finish g
  end.

Definition globToRegexp (glob : string) : glob_error + regexp :=
  match glob_text (runes glob) with
  | inl e => inl e
  | inr s => match Compile s with Some r => inr r | None => inl BadPattern end
  end.
End glob.

Definition GlobPathToRegexp {go : GoRegexp} (glob : string) (ignoreCase : bool) : glob_error + regexp :=
  globToRegexp true true ignoreCase glob.

Definition GlobStringToRegexp {go : GoRegexp} (glob : string) (addAnchors ignoreCase : bool) : glob_error + regexp :=
  globToRegexp false addAnchors ignoreCase glob.

(** The table of the tests, as texts. *)
Definition text_of (g : string) : glob_error + string :=
  match glob_text true true false (runes g) with inl e => inl e | inr s => inr (of_bytes s) end.

Example glob_table : map text_of
    ["*.jpg"; "a{b,c,d}e"; "a{b,{c,d}}e"; "{a,b/{c,d}/**}"; "potato**sausage"; "*.p[lm]"; "[\[\]]"; "***"; "ab]c"; "ab[c"; "ab}c"; "ab{c";
     "a\*b"; "a{{.*}}b"; "a{{.*}"; "\{{{regexp}}"; "/{{\d{8}}}"; "/{{\}}}"; "/a?b"]
  = [inr "(^|/)[^/]*\.jpg$"; inr "(^|/)a(b|c|d)e$"; inr "(^|/)a(b|(c|d))e$"; inr "(^|/)(a|b/(c|d)/.*)$"; inr "(^|/)potato.*sausage$";
     inr "(^|/)[^/]*\.p[lm]$"; inr "(^|/)[\[\]]$"; inl TooManyStars; inl MismatchedBracket; inl MismatchedBrackets; inl MismatchedBraces;
     inl MismatchedBraces; inr "(^|/)a\*b$"; inr "(^|/)a(.*)b$"; inl MismatchedRegexp; inr "(^|/)\{(regexp)$"; inr "^(\d{8})$"; inr "^(\})$";
     inr "^a[^/]b$"].
Proof. vm_compute. reflexivity. Qed.
(** ** [globToDirGlobs] *)

(** [{[^{}]*], the start of a group and what is in it. *)
Definition not_braces : re := Star (Class true [123; 125]).

(** [tooHardRe]: [({[^{}]*(\*\*|/)[^{}]*})|\{\{|\}\}|\{[^{}]*\{] *)
Definition tooHardRe : re :=
  Alt (Seq (Chr 123) (Seq not_braces (Seq (Alt (Seq (Chr 42) (Chr 42)) (Chr 47)) (Seq not_braces (Chr 125)))))
    (Alt (Seq (Chr 123) (Chr 123)) (Alt (Seq (Chr 125) (Chr 125)) (Seq (Chr 123) (Seq not_braces (Chr 123))))).

(** [squashSlash.ReplaceAllString(glob, "/")], for [/{2,}]. *)
Fixpoint squash (after_slash : bool) (s : string) : string :=
  match s with
  | "" => ""
  | String c s' =>
      if Ascii.eqb c slash then if after_slash then squash true s' else String c (squash true s')
      else String c (squash false s')
  end.

(** [strings.LastIndex] for a text that is not empty. *)
Fixpoint LastIndex (s sub : string) : Z :=
  match s with
  | "" => -1
  | String _ s' =>
      let i := LastIndex s' sub in
      if i >=? 0 then i + 1 else if String.prefix sub s then 0 else -1
  end.

Definition Contains (s sub : string) : bool := LastIndex s sub >=? 0.

Fixpoint dir_globs (fuel : nat) (glob : string) (out : list string) : list string :=
  match fuel with
  | O => out
  | S fuel' =>
      let i := LastIndex glob "/" in
      let j := LastIndex glob "**" in
      let '(i, what) := if j >? i then (j, "**") else (i, "") in
      if i <? 0 then match out with [] => ["/**"] | _ => out end
      else
        let glob := String.substring 0 (Z.to_nat i) glob in
        let newGlob := glob +:+ what +:+ "/" in
        let out := match last out with
                   | Some l => if str_eqb l newGlob then out else out ++ [newGlob]
                   | None => out ++ [newGlob]
                   end in
        dir_globs fuel' glob out
  end.

(** Every turn shortens the glob. *)
Definition globToDirGlobs {go : GoRegexp} (glob : string) : list string :=
  if found false tooHardRe (runes glob) then ["/**"]
  else let glob := squash false glob in dir_globs (S (String.length glob)) glob [].

Definition no_folding : GoRegexp := {| fold_case := fun c => c; outside := fun _ => None |}.

Example dir_globs_table : map (globToDirGlobs (go := no_folding))
    ["*"; "/*"; "*.jpg"; "///*.jpg"; "/a//*.jpg"; "/a/b/*.jpg"; "a/*.jpg"; "a/b/"; "/a/{jpg,png}/*.{jpg,png}"; "a/{b,{c,d}}/*.jpg";
     "a/{a,a*b,a**c}/d/"; "/a/{{.*}}/d/"; "**"; "a**"; "a**b**c**d"; "a**b/c**d"; "/A/a**b/B/c**d/C/"; "/var/spool/**/ncw"; "/sausage3**"]
  = [["/**"]; ["/"]; ["/**"]; ["/"]; ["/a/"; "/"]; ["/a/b/"; "/a/"; "/"]; ["a/"]; ["a/b/"; "a/"]; ["/a/{jpg,png}/"; "/a/"; "/"]; ["/**"];
     ["/**"]; ["/**"]; ["**/"]; ["a**/"]; ["a**b**c**/"; "a**b**/"; "a**/"]; ["a**b/c**/"; "a**b/"; "a**/"];
     ["/A/a**b/B/c**d/C/"; "/A/a**b/B/c**d/"; "/A/a**b/B/c**/"; "/A/a**b/B/"; "/A/a**b/"; "/A/a**/"; "/A/"; "/"];
     ["/var/spool/**/"; "/var/spool/"; "/var/"; "/"]; ["/sausage3**/"; "/"]].
Proof. vm_compute. reflexivity. Qed.


(** ** What a glob means

    The globs without backslashes, brackets and braces, as tokens: a character, one
    character, any characters within a name, any characters. *)

Inductive token : Type := Lit (c : Z) | One | S1 | S2.

(** No backslash, bracket or brace. *)
Definition simple_char (c : Z) : Prop := c <> 92 /\ c <> 91 /\ c <> 93 /\ c <> 123 /\ c <> 125.
Definition simple (g : list Z) : Prop := Forall simple_char g.

Definition flush (n : nat) (ts : list token) : option (list token) :=
  match n with O => Some ts | 1%nat => Some (S1 :: ts) | 2%nat => Some (S2 :: ts) | _ => None end.

Definition tok (c : Z) : token := if c =? 63 then One else Lit c.

(** The tokens after [n] stars; none for three stars in a row. *)
Fixpoint toks (n : nat) (g : list Z) : option (list token) :=
  match g with
  | [] => flush n []
  | c :: g' => if c =? 42 then toks (S n) g' else match toks 0 g' with Some ts => flush n (tok c :: ts) | None => None end
  end.

(** The text of a token. *)
Definition emit (t : token) : list Z :=
  match t with
  | Lit c => if is_meta c then [92; c] else [c]
  | One => [91; 94; 47; 93]
  | S1 => [91; 94; 47; 93; 42]
  | S2 => [46; 42]
  end.

Lemma write_buf s g : buf (write s g) = rev_append s (buf g).
Proof. done. Qed.

Section tokens.
Context {go : GoRegexp}.

(** The rest of the translation, from any point of the loop. *)
Definition translate (g : gstate) (glob : list Z) : glob_error + list Z :=
  match glob_loop true g glob with inl e => inl e | inr g => glob_finish true true g end.

Definition pending (b : list Z) (n : nat) (nx : Z) : gstate := mkG b n 0 0 false false false nx.

Definition written (b : list Z) (ts : option (list token)) : glob_error + list Z :=
  match ts with Some ts => inr (rev b ++ (ts ≫= emit) ++ [36]) | None => inl TooManyStars end.

Lemma insert_pending b n nx :
  insertStars true (pending b n nx) = match flush n [] with Some ts => inr (pending (rev (ts ≫= emit) ++ b) 0 nx) | None => inl TooManyStars end.
Proof. by destruct n as [|[|[|n]]]. Qed.

Lemma translate_flush b n c g nx : c <> 42 -> simple_char c ->
  translate (pending b n nx) (c :: g) =
    match flush n [] with
    | Some ts => translate (pending (rev ((ts ++ [tok c]) ≫= emit) ++ b) 0 c) g
    | None => inl TooManyStars
    end.
Proof.
  intros Hs (H1 & H2 & H3 & H4 & H5). unfold translate. cbn [glob_loop]. unfold glob_step.
  assert ((c =? 42) = false) as E by lia. cbn [pending set_next set_regexp slashed inRegexpEnd inRegexp andb buf consecutiveStars braceDepth inBrackets next].
  rewrite E. change (set_regexp false false (set_next c (pending b n nx))) with (pending b n c). rewrite insert_pending. destruct (flush n []) as [ts|] eqn:Ef; [|done].
  cbn [inBrackets pending Z.gtb]. cbn. unfold plain_char. rewrite E.
  rewrite (proj2 (Z.eqb_neq c 92)), (proj2 (Z.eqb_neq c 91)), (proj2 (Z.eqb_neq c 93)), (proj2 (Z.eqb_neq c 123)), (proj2 (Z.eqb_neq c 125)) by done.
  assert (rev ((ts ++ [tok c]) ≫= emit) ++ b = rev (emit (tok c)) ++ rev (ts ≫= emit) ++ b) as ->.
  { rewrite bind_app, rev_app_distr, <- app_assoc. cbn. by rewrite app_nil_r. }
  unfold tok. destruct (c =? 63) eqn:E63; [done|]. cbn [emit].
  destruct (c =? 44) eqn:E44; [apply Z.eqb_eq in E44 as ->; done|]. by destruct (is_meta c).
Qed.

Lemma translate_simple b n nx g : simple g -> translate (pending b n nx) g = written b (toks n g).
Proof.
  intros Hg. revert b n nx. induction Hg as [|c g Hc Hg IH]; intros b n nx.
  - unfold translate. cbn [glob_loop toks]. unfold glob_finish. rewrite insert_pending.
    destruct n as [|[|[|n]]]; cbn; rewrite ?rev_app_distr; cbn; by rewrite <- ?app_assoc.
  - cbn [toks]. destruct (c =? 42) eqn:E.
    + apply Z.eqb_eq in E as ->. unfold translate. cbn [glob_loop]. unfold glob_step. cbn. apply IH.
    + rewrite translate_flush by (done || lia). destruct (toks 0 g) as [ts|] eqn:Et.
      * destruct n as [|[|[|n]]]; [..|done]; cbn [flush app]; rewrite IH, Et; cbn [written]; f_equal;
          rewrite rev_app_distr, rev_involutive, <- !app_assoc; f_equal; rewrite app_assoc; f_equal;
          cbn [mbind list_bind app]; cbn; by rewrite ?app_nil_r.
      * destruct (flush n []); [|done]. by rewrite IH, Et.
Qed.
(** *** The text parses to what it means *)

Definition tok_re (t : token) : re :=
  match t with Lit c => Chr c | One => Class true [47] | S1 => Star (Class true [47]) | S2 => Star Any end.

Fixpoint body_re (ts : list token) : re :=
  match ts with [] => Seq End_ Eps | t :: ts => Seq (tok_re t) (body_re ts) end.

Definition ok_tok (t : token) : Prop := match t with Lit c => c <> 42 /\ c <> 63 /\ simple_char c | _ => True end.

Lemma flush_ok n ts l : Forall ok_tok ts -> flush n ts = Some l -> Forall ok_tok l.
Proof. destruct n as [|[|[|n]]]; cbn; intros H; [intros [= <-]..|done]; [done|by constructor..]. Qed.

Lemma toks_ok n g ts : simple g -> toks n g = Some ts -> Forall ok_tok ts.
Proof.
  intros Hg. revert n ts. induction Hg as [|c g Hc _ IH]; intros n ts; cbn [toks].
  - by apply flush_ok.
  - destruct (c =? 42) eqn:E; [apply IH|]. destruct (toks 0 g) as [l|] eqn:Et; [|done]. apply flush_ok.
    constructor; [|by eapply IH]. unfold tok. destruct (c =? 63) eqn:E'; cbn; [done|]. breflect. by split_and!.
Qed.

Lemma text_head ts : Forall ok_tok ts -> exists d rest, (ts ≫= emit) ++ [36] = d :: rest /\ is_repeat d = false /\ d <> 123.
Proof.
  destruct 1 as [|t ts Ht _]; [by exists 36, []|]. destruct t as [c| | |]; cbn [mbind list_bind emit app]; [|by eexists _, _..].
  unfold is_meta, meta. cbn [existsb]. destruct Ht as (H42 & H63 & _ & _ & _ & H123 & _).
  destruct (_ || _) eqn:E; eexists _, _; (split; [reflexivity|]); [done|]. split; [|done]. unfold is_repeat. lia.
Qed.

Lemma no_repeat a ts : Forall ok_tok ts -> p_repeat a ((ts ≫= emit) ++ [36]) = Some (a, (ts ≫= emit) ++ [36]).
Proof. intros (d & rest & -> & Hr & _)%text_head. cbn [p_repeat]. by rewrite Hr. Qed.

Lemma star_repeat a ts : Forall ok_tok ts -> p_repeat a (42 :: (ts ≫= emit) ++ [36]) = Some (Star a, (ts ≫= emit) ++ [36]).
Proof.
  intros (d & rest & -> & Hr & H123)%text_head. cbn [p_repeat]. change (is_repeat 42) with true. cbn iota. rewrite Hr.
  by rewrite (proj2 (Z.eqb_neq d 123)).
Qed.

(** The atom of a token and the repetition after it. *)
Lemma p_atom_tok fuel t ts : ok_tok t -> Forall ok_tok ts ->
  exists c rest a rest', emit t ++ (ts ≫= emit) ++ [36] = c :: rest /\ (c =? 41) || (c =? 124) = false /\
    p_atom (S fuel) (c :: rest) = Some (a, rest') /\ p_repeat a rest' = Some (tok_re t, (ts ≫= emit) ++ [36]).
Proof.
  intros Ht Hts. destruct t as [c| | |].
  - destruct Ht as (H42 & H63 & H92 & H91 & H93 & H123 & H125). cbn [emit tok_re]. destruct (is_meta c) eqn:Em.
    + eexists 92, _, (Chr c), _. split_and!; [reflexivity|done| |by apply no_repeat]. cbn [p_atom app Z.eqb Pos.eqb].
      assert (is_punct c = true) as ->; [|done]. unfold is_meta, meta in Em. cbn [existsb] in Em. unfold is_punct. lia.
    + eexists c, _, (Chr c), _. unfold is_meta, meta in Em. cbn [existsb] in Em.
      split_and!; [reflexivity|lia| |by apply no_repeat]. cbn [p_atom].
      assert (is_special c = false) as Hsp by (unfold is_special, special; cbn [existsb]; lia).
      rewrite Hsp. rewrite (proj2 (Z.eqb_neq c 94)), (proj2 (Z.eqb_neq c 36)), (proj2 (Z.eqb_neq c 46)), (proj2 (Z.eqb_neq c 40)),
        (proj2 (Z.eqb_neq c 91)), (proj2 (Z.eqb_neq c 92)) by lia. done.
  - eexists 91, _, _, _. split_and!; [reflexivity|done|cbn; reflexivity|by apply no_repeat].
  - eexists 91, _, _, _. split_and!; [reflexivity|done|cbn; reflexivity|by apply star_repeat].
  - eexists 46, _, _, _. split_and!; [reflexivity|done|cbn; reflexivity|by apply star_repeat].
Qed.

Lemma p_seq_atom fuel c rest a r1 a' r2 r r3 : (c =? 41) || (c =? 124) = false ->
  p_atom fuel (c :: rest) = Some (a, r1) -> p_repeat a r1 = Some (a', r2) -> p_seq fuel r2 = Some (r, r3) ->
  p_seq (S fuel) (c :: rest) = Some (Seq a' r, r3).
Proof.
  intros Hc Ha Hr Hs.
  change (p_seq (S fuel) (c :: rest)) with
    (if (c =? 41) || (c =? 124) then Some (Eps, c :: rest)
     else match p_atom fuel (c :: rest) with
          | Some (a, rest) => match p_repeat a rest with
                              | Some (a, rest) => match p_seq fuel rest with Some (r, rest) => Some (Seq a r, rest) | None => None end
                              | None => None end
          | None => None end).
  by rewrite Hc, Ha, Hr, Hs.
Qed.

Lemma p_seq_text fuel ts : Forall ok_tok ts -> (length ts + 3 <= fuel)%nat -> p_seq fuel ((ts ≫= emit) ++ [36]) = Some (body_re ts, []).
Proof.
  intros Hts. revert fuel. induction Hts as [|t ts Ht Hts IH]; intros fuel Hf.
  - destruct fuel as [|[|[|fuel]]]; cbn in Hf; [lia..|done].
  - destruct fuel as [|[|fuel]]; cbn [length] in Hf; [lia..|].
    destruct (p_atom_tok fuel t ts Ht Hts) as (c & rest & a & rest' & He & Hc & Ha & Hr).
    assert (((t :: ts) ≫= emit) ++ [36] = c :: rest) as -> by (by rewrite <- He, bind_cons, <- app_assoc).
    eapply p_seq_atom; [done|exact Ha|exact Hr|]. apply IH. lia.
Qed.

(** The start of the text and its meaning: at the root, or after any slash. *)
Definition head_text (anchored : bool) : list Z := if anchored then [94] else [40; 94; 124; 47; 41].
Definition head_re (anchored : bool) : re := if anchored then Begin else Alt (Seq Begin Eps) (Seq (Chr 47) Eps).

Lemma p_alt_text fuel anchored ts : Forall ok_tok ts -> (length ts + 8 <= fuel)%nat ->
  p_alt fuel (head_text anchored ++ (ts ≫= emit) ++ [36]) = Some (Seq (head_re anchored) (body_re ts), []).
Proof.
  intros Hts Hf. destruct fuel as [|[|fuel]]; [lia..|].
  assert (p_seq (S fuel) (head_text anchored ++ (ts ≫= emit) ++ [36]) = Some (Seq (head_re anchored) (body_re ts), [])) as H.
  { destruct fuel as [|[|[|[|[|[|fuel]]]]]]; [lia..|]. destruct anchored; cbn [head_text app];
      (eapply p_seq_atom; [done|reflexivity|by apply no_repeat|by apply p_seq_text; [|lia]]). }
  change (p_alt (S (S fuel)) ?s) with
    (match p_seq (S fuel) s with
     | Some (r, c :: rest) =>
         if c =? 124 then match p_alt (S fuel) rest with Some (r', rest') => Some (Alt r r', rest') | None => None end
         else Some (r, c :: rest)
     | x => x end). by rewrite H.
Qed.


(** *** The reference: matching by tokens *)

Section reference.
Context (ci : bool).

(** Skips any characters that [ok] allows. *)
Fixpoint skip (ok : Z -> bool) (k : list Z -> bool) (s : list Z) : bool :=
  k s || match s with d :: s' => ok d && skip ok k s' | [] => false end.

Definition not_slash (d : Z) : bool := negb (same_char ci 47 d).
Definition not_newline (d : Z) : bool := negb (d =? newline).

Fixpoint gmatch (ts : list token) (s : list Z) : bool :=
  match ts with
  | [] => match s with [] => true | _ => false end
  | Lit c :: ts => match s with d :: s => same_char ci c d && gmatch ts s | [] => false end
  | One :: ts => match s with d :: s => not_slash d && gmatch ts s | [] => false end
  | S1 :: ts => skip not_slash (gmatch ts) s
  | S2 :: ts => skip not_newline (gmatch ts) s
  end.

(** At the start of the path, or of any name in it. *)
Fixpoint at_names (k : list Z -> bool) (s : list Z) : bool :=
  match s with
  | [] => false
  | d :: s => (same_char ci 47 d && k s) || at_names k s
  end.

Definition path_match (anchored : bool) (ts : list token) (s : list Z) : bool :=
  if anchored then gmatch ts s else gmatch ts s || at_names (gmatch ts) s.

Lemma skip_spec ok k s : skip ok k s = true <-> exists a b, s = a ++ b /\ Forall (fun d => ok d = true) a /\ k b = true.
Proof.
  induction s as [|d s IH]; cbn [skip].
  - rewrite orb_false_r. split; [by exists [], []|]. intros (a & b & E & _ & Hk). symmetry in E. by apply app_eq_nil in E as [-> ->].
  - rewrite orb_true_iff, andb_true_iff, IH. split.
    + intros [Hk | (Hd & a & b & -> & Ha & Hk)]; [by exists [], (d :: s)|]. exists (d :: a), b. split_and!; [done|by constructor|done].
    + intros ([|x a] & b & E & Ha & Hk); cbn in E; [subst b; by left|right]. injection E as -> ->.
      inversion Ha; subst. split; [done|]. by exists a, b.
Qed.

Lemma at_names_spec k s : at_names k s = true <-> exists a d b, s = a ++ d :: b /\ same_char ci 47 d = true /\ k b = true.
Proof.
  induction s as [|d s IH]; cbn [at_names].
  - split; [done|]. by intros ([|] & ? & ? & ? & _).
  - rewrite orb_true_iff, andb_true_iff, IH. split.
    + intros [[Hd Hk] | (a & e & b & -> & He & Hk)]; [by exists [], d, s|by exists (d :: a), e, b].
    + intros ([|x a] & e & b & E & He & Hk); injection E as -> ->; [by left|right]. by exists a, e, b.
Qed.

Lemma drop_lookup_cons (s : list Z) i d l : drop i s = d :: l -> s !! i = Some d /\ drop (S i) s = l.
Proof.
  intros H. split.
  - rewrite <- (Nat.add_0_r i), <- lookup_drop, H. done.
  - change (S i) with (1 + i)%nat. rewrite Nat.add_comm, <- drop_drop, H. done.
Qed.

(** Repetitions of one character. *)
Lemma star_char s a ok i k : (forall i j, matches ci s a i j <-> exists d, s !! i = Some d /\ ok d = true /\ j = S i) ->
  (i <= length s)%nat -> matches ci s (Star a) i k <-> (i <= k <= length s)%nat /\ Forall (fun d => ok d = true) (take (k - i) (drop i s)).
Proof.
  intros Ha Hi. split.
  - intros Hm. split; [by eapply matches_bounds|]. remember (Star a) as r eqn:Er. induction Hm; try done.
    + rewrite Nat.sub_diag. constructor.
    + injection Er as ->. apply Ha in Hm1 as (d & Hd & Hok & ->). pose proof (matches_bounds _ _ _ _ _ Hm2). apply lookup_lt_Some in Hd as Hlt.
      replace (k - i)%nat with (S (k - S i)) by lia. rewrite (drop_S _ _ _ Hd). cbn [take]. constructor; [done|]. apply IHHm2; [lia|done].
  - intros [Hk Hall]. remember (k - i)%nat as n eqn:En. revert i Hi Hk En Hall. induction n as [|n IH]; intros i Hi Hk En Hall.
    + replace k with i by lia. constructor.
    + destruct (s !! i) as [d|] eqn:Hd; [|apply lookup_ge_None in Hd; lia]. rewrite (drop_S _ _ _ Hd) in Hall. cbn [take] in Hall.
      inversion Hall; subst. eapply m_star1; [by apply Ha; exists d|]. apply lookup_lt_Some in Hd. apply IH; [lia|lia|lia|done].
Qed.

Lemma skip_drop ok k s i : (i <= length s)%nat ->
  skip ok k (drop i s) = true <->
  exists j, (i <= j <= length s)%nat /\ Forall (fun d => ok d = true) (take (j - i) (drop i s)) /\ k (drop j s) = true.
Proof.
  intros Hi. rewrite skip_spec. split.
  - intros (a & b & E & Ha & Hk). exists (i + length a)%nat. pose proof (f_equal length E) as El. rewrite length_drop, length_app in El.
    split_and!; [lia|lia| |].
    + replace (i + length a - i)%nat with (length a) by lia. by rewrite E, take_app_length.
    + by rewrite <- drop_drop, E, drop_app_length.
  - intros (j & Hj & Ha & Hk). exists (take (j - i) (drop i s)), (drop (j - i) (drop i s)). rewrite take_drop, drop_drop.
    split_and!; [done|done|]. by replace (i + (j - i))%nat with j by lia.
Qed.

Lemma matches_seq s a b i k : matches ci s (Seq a b) i k <-> exists j, matches ci s a i j /\ matches ci s b j k.
Proof. split; [inversion 1; subst; by eexists|intros (j & Ha & Hb); by econstructor]. Qed.

Lemma in_class_slash d : in_class ci true [47] d = not_slash d.
Proof. unfold in_class, not_slash. cbn [existsb]. rewrite orb_false_r. by destruct (same_char ci 47 d). Qed.

Lemma char_spec s r ok i j : r = Any /\ ok = not_newline \/ (exists neg cs, r = Class neg cs /\ ok = in_class ci neg cs) \/
    (exists c, r = Chr c /\ ok = same_char ci c) ->
  matches ci s r i j <-> exists d, s !! i = Some d /\ ok d = true /\ j = S i.
Proof.
  intros [[-> ->] | [(neg & cs & -> & ->) | (c & -> & ->)]]; (split; [inversion 1; subst|intros (d & Hd & Hok & ->)]).
  - eexists. split_and!; [done| |done]. by apply negb_true_iff, Z.eqb_neq.
  - econstructor; [exact Hd|]. by apply negb_true_iff, Z.eqb_neq in Hok.
  - by eexists.
  - by econstructor.
  - by eexists.
  - by econstructor.
Qed.

(** A text of tokens matches from a position on if the rest of the path does. *)
Lemma body_spec ts s i j : (i <= length s)%nat -> matches ci s (body_re ts) i j <-> j = length s /\ gmatch ts (drop i s) = true.
Proof.
  revert i. induction ts as [|t ts IH]; intros i Hi; cbn [body_re]; rewrite matches_seq.
  - split.
    + intros (k & He & Hp). inversion He; subst. inversion Hp; subst. split; [done|]. by rewrite drop_ge.
    + intros [-> Hg]. cbn [gmatch] in Hg. destruct (drop i s) eqn:E; [|done]. apply (f_equal length) in E. rewrite length_drop in E. cbn in E.
      assert (i = length s) as -> by lia. exists (length s). split; constructor.
  - assert (forall r ok, (forall j, matches ci s r i j <-> exists d, s !! i = Some d /\ ok d = true /\ j = S i) ->
      (exists k, matches ci s r i k /\ matches ci s (body_re ts) k j) <->
      j = length s /\ match drop i s with d :: l => ok d && gmatch ts l | [] => false end = true) as Hchar.
    { intros r ok Hr. split.
      - intros (k & Hm & Hb). apply Hr in Hm as (d & Hd & Hok & ->). apply lookup_lt_Some in Hd as Hlt. apply IH in Hb as [-> Hb]; [|lia].
        rewrite (drop_S _ _ _ Hd), Hok, Hb. done.
      - intros [-> Hg]. destruct (drop i s) as [|d l] eqn:E; [done|]. apply drop_lookup_cons in E as [Hd <-]. apply andb_true_iff in Hg as [Hok Hg].
        exists (S i). split; [by apply Hr; exists d|]. apply lookup_lt_Some in Hd. by apply IH; [lia|]. }
    assert (forall a ok, (forall i j, matches ci s a i j <-> exists d, s !! i = Some d /\ ok d = true /\ j = S i) ->
      (exists k, matches ci s (Star a) i k /\ matches ci s (body_re ts) k j) <-> j = length s /\ skip ok (gmatch ts) (drop i s) = true) as Hstar.
    { intros a ok Ha. rewrite skip_drop by done. split.
      - intros (k & Hm & Hb). pose proof (matches_bounds _ _ _ _ _ Hm Hi). apply (star_char s a ok) in Hm as [Hk Hall]; [|done|done].
        apply IH in Hb as [-> Hb]; [|lia]. split; [done|]. by exists k.
      - intros [-> (k & Hk & Hall & Hg)]. exists k. split; [|by apply IH; [lia|]]. by apply (star_char s a ok). }
    destruct t as [c| | |]; cbn [tok_re gmatch].
    + apply Hchar. intros j'. apply char_spec; eauto.
    + apply Hchar. intros j'. rewrite (char_spec s (Class true [47]) (in_class ci true [47])); eauto 10. by setoid_rewrite in_class_slash.
    + apply Hstar. intros i' j'. rewrite (char_spec s (Class true [47]) (in_class ci true [47])); eauto 10. by setoid_rewrite in_class_slash.
    + apply Hstar. intros i' j'. apply char_spec; auto.
Qed.

Lemma found_head anchored ts s : found ci (Seq (head_re anchored) (body_re ts)) s = path_match anchored ts s.
Proof.
  apply eq_true_iff_eq. rewrite found_spec. unfold path_match. destruct anchored; cbn [head_re].
  - split.
    + intros (i & j & Hi & Hm). apply matches_seq in Hm as (k & Hb & Hm). inversion Hb; subst. by apply body_spec in Hm as [_ Hm]; [|lia].
    + intros Hg. exists 0%nat, (length s). split; [lia|]. apply matches_seq. exists 0%nat. split; [constructor|]. by apply body_spec; [lia|].
  - rewrite orb_true_iff, at_names_spec. split.
    + intros (i & j & Hi & Hm). apply matches_seq in Hm as (k & Hb & Hm).
      pose proof (matches_bounds _ _ _ _ _ Hb Hi). apply body_spec in Hm as [_ Hm]; [|lia].
      inversion Hb as [| | | | | | | |? ? ? ? Ha|? ? ? ? Ha| |]; subst; apply matches_seq in Ha as (l & Hx & He); inversion He; subst.
      * inversion Hx; subst. by left.
      * inversion Hx as [| | | | | |c ? d Hd Hs| | | | |]; subst. right. exists (take i s), d, (drop (S i) s).
        split_and!; [|done|done]. by rewrite take_drop_middle.
    + intros [Hg | (a & d & b & -> & Hd & Hg)].
      * exists 0%nat, (length s). split; [lia|]. apply matches_seq. exists 0%nat. split; [|by apply body_spec; [lia|]].
        apply m_alt1, matches_seq. exists 0%nat. split; constructor.
      * exists (length a), (length (a ++ d :: b)). split; [len|]. apply matches_seq. exists (S (length a)). split.
        -- apply m_alt2, matches_seq. exists (S (length a)). split; [|constructor]. econstructor; [|exact Hd]. by rewrite list_lookup_middle.
        -- apply body_spec; [len|]. split; [done|]. replace (S (length a)) with (length (a ++ [d])) by len.
           replace (a ++ d :: b) with ((a ++ [d]) ++ b) by (by rewrite <- app_assoc). by rewrite drop_app_length.
Qed.

End reference.
(** *** Globs of paths *)

(** A slash at the start ties the glob to the root. *)
Definition path_tokens (g : list Z) : bool * option (list token) :=
  match g with
  | c :: rest => if c =? 47 then (true, toks 0 rest) else (false, toks 0 g)
  | [] => (false, toks 0 g)
  end.

Lemma emit_length ts : (length ts <= length (ts ≫= emit))%nat.
Proof.
  induction ts as [|t ts IH]; [done|]. rewrite bind_cons, length_app. cbn [length].
  assert (1 <= length (emit t))%nat; [|lia]. destruct t as [c| | |]; cbn [emit]; [destruct (is_meta c)|..]; cbn [length]; lia.
Qed.

Lemma compile_tokens (ignoreCase anchored : bool) ts : Forall ok_tok ts ->
  exists r, Compile ((if ignoreCase then str "(?i)" else []) ++ head_text anchored ++ (ts ≫= emit) ++ [36]) = Some r /\
    forall s, matcher r s = path_match ignoreCase anchored ts s.
Proof.
  intros Hts. set (text := head_text anchored ++ (ts ≫= emit) ++ [36]).
  assert (parse ((if ignoreCase then str "(?i)" else []) ++ text) = Some (ignoreCase, Seq (head_re anchored) (body_re ts))) as Hp.
  { unfold parse. pose proof (emit_length ts) as Hl.
    assert (p_alt (8 + 2 * length text) text = Some (Seq (head_re anchored) (body_re ts), [])) as Ha.
    { apply p_alt_text; [done|]. unfold text. rewrite !length_app. destruct anchored; cbn [head_text length]; lia. }
    destruct ignoreCase; [change (str "(?i)" ++ text) with (40 :: 63 :: 105 :: 41 :: text); cbv beta iota; by rewrite Ha|].
    cbn [app]. assert (exists c, text = c :: tail text /\ (c = 94 \/ c = 40 /\ head (tail text) = Some 94)) as (c & Et & Hc).
    { unfold text. destruct anchored; eexists; (split; [reflexivity|]); auto. }
    destruct Hc as [-> | [-> Hh]]; [rewrite Et at 1; cbv beta iota; by rewrite Ha|].
    destruct (tail text) as [|x l] eqn:El; [done|]. injection Hh as ->. rewrite Et at 1. cbv beta iota. by rewrite Ha. }
  unfold Compile. rewrite Hp. eexists. split; [reflexivity|]. intros s. cbn [matcher]. apply found_head.
Qed.

Lemma glob_text_simple (ignoreCase : bool) g : simple g ->
  glob_text true true ignoreCase g =
    match path_tokens g with
    | (anchored, Some ts) => inr ((if ignoreCase then str "(?i)" else []) ++ head_text anchored ++ (ts ≫= emit) ++ [36])
    | (_, None) => inl TooManyStars
    end.
Proof.
  intros Hg. unfold glob_text, path_tokens.
  assert (forall h g', simple g' -> (match glob_loop true (glob_start h) g' with inl e => inl e | inr g => glob_finish true true g end)
    = match toks 0 g' with Some ts => inr (h ++ (ts ≫= emit) ++ [36]) | None => inl TooManyStars end) as H.
  { intros h g' Hs. change (glob_start h) with (pending (rev h) 0 0). fold (translate (pending (rev h) 0 0) g'). rewrite translate_simple by done.
    unfold written. by rewrite rev_involutive. }
  destruct g as [|c g]; [rewrite H by constructor; cbn [toks flush]; by rewrite <- app_assoc|].
  destruct (c =? 47); rewrite H by (done || by inversion Hg); destruct (toks 0 _); by rewrite <- ?app_assoc.
Qed.

Lemma glob_compiles glob ignoreCase : simple (runes glob) ->
  match path_tokens (runes glob) with
  | (anchored, Some ts) => exists r, GlobPathToRegexp glob ignoreCase = inr r /\ forall s, matcher r s = path_match ignoreCase anchored ts s
  | (_, None) => GlobPathToRegexp glob ignoreCase = inl TooManyStars
  end.
Proof.
  intros Hg. unfold GlobPathToRegexp, globToRegexp. rewrite glob_text_simple by done.
  destruct (path_tokens (runes glob)) as [anchored [ts|]] eqn:Et; [|done].
  assert (Forall ok_tok ts) as Hts.
  { unfold path_tokens in Et. destruct (runes glob) as [|c g]; [injection Et as <- <-; constructor|].
    destruct (c =? 47); injection Et as <- Et; [eapply toks_ok; [|exact Et]; by inversion Hg|by apply (toks_ok 0 (c :: g))]. }
  destruct (compile_tokens ignoreCase anchored ts Hts) as (r & -> & Hr). by exists r.
Qed.


(** ** The directories of a glob *)

(** *** Splitting a match at a slash *)

Section slashes.
Context (ci : bool) (slash_alone : forall d, same_char ci 47 d = true <-> d = 47) (slash_alone' : forall c, same_char ci c 47 = true -> c = 47).

Lemma gmatch_slash ts d rest : gmatch ci ts (d ++ 47 :: rest) = true ->
  (exists T1 T2, ts = T1 ++ Lit 47 :: T2 /\ gmatch ci T1 d = true) \/
  (exists T1 T2, ts = T1 ++ S2 :: T2 /\ gmatch ci (T1 ++ [S2]) d = true).
Proof.
  revert d. induction ts as [|t ts IH]; intros d; [by destruct d|].
  assert (forall a b, d ++ 47 :: rest = a ++ b -> (47 ∉ a) -> exists d', d = a ++ d' /\ b = d' ++ 47 :: rest) as Hsplit.
  { intros a. clear IH. revert d. induction a as [|x a IHa]; intros d b E Ha; [by exists d|].
    apply not_elem_of_cons in Ha as [Hx Ha]. destruct d as [|y d]; injection E as E1 E; [done|]. subst.
    destruct (IHa d b E Ha) as (d' & -> & ->). by exists d'. }
  destruct t as [c| | |]; cbn [gmatch].
  - destruct d as [|x d]; cbn [app]; intros [Hc Hg]%andb_true_iff.
    + apply slash_alone' in Hc as ->. left. by exists [], ts.
    + destruct (IH d Hg) as [(T1 & T2 & -> & H) | (T1 & T2 & -> & H)]; [left|right]; exists (Lit c :: T1), T2; cbn [app gmatch]; by rewrite Hc, H.
  - destruct d as [|x d]; cbn [app]; intros [Hc Hg]%andb_true_iff.
    + unfold not_slash in Hc. by rewrite (proj2 (slash_alone 47)) in Hc.
    + destruct (IH d Hg) as [(T1 & T2 & -> & H) | (T1 & T2 & -> & H)]; [left|right]; exists (One :: T1), T2; cbn [app gmatch]; by rewrite Hc, H.
  - intros (a & b & E & Ha & Hg)%skip_spec.
    assert (47 ∉ a) as Hna. { intros Hin. rewrite Forall_forall in Ha. apply Ha in Hin. unfold not_slash in Hin. by rewrite (proj2 (slash_alone 47)) in Hin. }
    destruct (Hsplit a b E Hna) as (d' & -> & ->).
    destruct (IH d' Hg) as [(T1 & T2 & -> & H) | (T1 & T2 & -> & H)]; [left|right]; exists (S1 :: T1), T2; (split; [done|]);
      cbn [app gmatch]; apply skip_spec; by exists a, d'.
  - intros (a & b & E & Ha & Hg)%skip_spec.
    assert ((exists d', d = a ++ d' /\ b = d' ++ 47 :: rest) \/ Forall (fun x => not_newline x = true) d) as [(d' & -> & ->) | Hd].
    { clear Hsplit IH Hg. revert d E Ha. induction a as [|x a IHa]; intros d E Ha; [left; by exists d|]. inversion Ha; subst.
      destruct d as [|y d]; injection E as E1 E; [right; constructor|]. subst. destruct (IHa d E) as [(d' & -> & ->) | Hd]; [done|left; by exists d'|right; by constructor]. }
    + destruct (IH d' Hg) as [(T1 & T2 & -> & H) | (T1 & T2 & -> & H)]; [left|right]; exists (S2 :: T1), T2; (split; [done|]);
        cbn [app gmatch]; apply skip_spec; by exists a, d'.
    + right. exists [], ts. split; [done|]. cbn [app gmatch]. apply skip_spec. exists d, []. by rewrite app_nil_r.
Qed.

Lemma gmatch_app T1 T2 a b : gmatch ci T1 a = true -> gmatch ci T2 b = true -> gmatch ci (T1 ++ T2) (a ++ b) = true.
Proof.
  intros H1 H2. revert a H1. induction T1 as [|t T1 IH]; intros a H1; [by destruct a|].
  destruct t as [c| | |]; cbn [app gmatch] in *.
  - destruct a as [|x a]; [done|]. apply andb_true_iff in H1 as [Hx H1]; cbn [app]; rewrite Hx. by apply IH.
  - destruct a as [|x a]; [done|]. apply andb_true_iff in H1 as [Hx H1]; cbn [app]; rewrite Hx. by apply IH.
  - apply skip_spec in H1 as (a1 & a2 & -> & Ha & Hg). apply skip_spec. exists a1, (a2 ++ b). rewrite <- app_assoc. auto.
  - apply skip_spec in H1 as (a1 & a2 & -> & Ha & Hg). apply skip_spec. exists a1, (a2 ++ b). rewrite <- app_assoc. auto.
Qed.

(** Two slashes in a row match two slashes in a row. *)
Lemma gmatch_double T1 T2 s : gmatch ci (T1 ++ Lit 47 :: Lit 47 :: T2) s = true -> exists a b, s = a ++ 47 :: 47 :: b.
Proof.
  revert s. induction T1 as [|t T1 IH]; intros s; cbn [app].
  - cbn [gmatch]. destruct s as [|x [|y s]]; rewrite ?andb_false_r; try done. intros (-> %slash_alone & (-> %slash_alone & _)%andb_true_iff)%andb_true_iff.
    by exists [], s.
  - assert (forall s', gmatch ci (T1 ++ Lit 47 :: Lit 47 :: T2) s' = true -> forall p, exists a b, p ++ s' = a ++ 47 :: 47 :: b) as H.
    { intros s' (a & b & ->)%IH p. exists (p ++ a), b. by rewrite <- app_assoc. }
    destruct t as [c| | |]; cbn [gmatch].
    + destruct s as [|x s]; [done|]. intros [_ Hg]%andb_true_iff. apply (H s Hg [x]).
    + destruct s as [|x s]; [done|]. intros [_ Hg]%andb_true_iff. apply (H s Hg [x]).
    + intros (p & q & -> & _ & Hg)%skip_spec. by apply H.
    + intros (p & q & -> & _ & Hg)%skip_spec. by apply H.
Qed.
End slashes.

(** *** Splitting the tokens splits the glob *)

Lemma flush_split n t ts T1 x T2 : x = Lit 47 \/ x = S2 -> flush n (t :: ts) = Some (T1 ++ x :: T2) ->
  (n = 2%nat /\ x = S2 /\ T1 = []) \/ exists l T1', flush n [] = Some l /\ T1 = l ++ T1' /\ t :: ts = T1' ++ x :: T2.
Proof.
  intros Hx. destruct n as [|[|[|n]]]; cbn [flush]; intros [= E]; try done.
  - right. by exists [], T1.
  - right. destruct T1 as [|y T1]; injection E as <- E; [by destruct Hx|]. by exists [S1], T1.
  - destruct T1 as [|y T1]; injection E as E1 E; [left; subst; by destruct Hx|]. right. subst. by exists [S2], T1.
Qed.

Lemma toks_stars n g : toks 0 (replicate n 42 ++ g) = toks n g.
Proof.
  assert (forall k, toks k (replicate n 42 ++ g) = toks (n + k) g) as H.
  { induction n as [|n IH]; intros k; [done|]. cbn [replicate app toks]. change (42 =? 42) with true. cbn iota. rewrite IH. f_equal. lia. }
  by rewrite H, Nat.add_0_r.
Qed.

Lemma toks_flush n l : flush n [] = Some l -> toks 0 (replicate n 42) = Some l.
Proof. intros H. rewrite <- (app_nil_r (replicate n 42)), toks_stars. exact H. Qed.

Lemma toks_snoc n l c g ts : flush n [] = Some l -> c <> 42 -> toks 0 g = Some ts -> toks 0 (replicate n 42 ++ c :: g) = Some (l ++ tok c :: ts).
Proof.
  intros Hl Hc Hg. rewrite toks_stars. cbn [toks]. rewrite (proj2 (Z.eqb_neq c 42)), Hg by done. by destruct n as [|[|[|n]]]; cbn in *; simplify_eq.
Qed.

Definition sep (x : token) : list Z := match x with Lit c => [c] | _ => [42; 42] end.

Lemma toks_split n g T1 x T2 : x = Lit 47 \/ x = S2 -> toks n g = Some (T1 ++ x :: T2) ->
  exists A B, replicate n 42 ++ g = A ++ sep x ++ B /\ toks 0 A = Some T1 /\ toks 0 (A ++ sep x) = Some (T1 ++ [x]).
Proof.
  intros Hx. revert n T1. induction g as [|c g IH]; intros n T1; cbn [toks].
  - destruct n as [|[|[|n]]]; cbn [flush]; intros [= E]; [by destruct T1|..].
    + destruct T1 as [|? [|]]; simplify_eq/=. by destruct Hx.
    + destruct T1 as [|? [|]]; simplify_eq/=. by exists [], [].
  - destruct (c =? 42) eqn:Ec.
    + apply Z.eqb_eq in Ec as ->. intros H. destruct (IH (S n) T1 H) as (A & B & E & HA). exists A, B. split; [|exact HA].
      rewrite <- E, replicate_S_end, <- app_assoc. done.
    + apply Z.eqb_neq in Ec. destruct (toks 0 g) as [ts|] eqn:Et; [|done].
      intros [(-> & -> & ->) | (l & T1' & Hl & -> & E)]%flush_split; [by exists [], (c :: g)| |done].
      destruct T1' as [|y T1']; injection E as Ey Ets.
      * exists (replicate n 42), g. rewrite app_nil_r. unfold tok in Ey. destruct (c =? 63) eqn:E63; [by subst; destruct Hx|]. subst x. cbn [sep].
        split_and!; [done|by apply toks_flush|]. erewrite toks_snoc; [|done|done|reflexivity]. unfold tok. by rewrite E63.
      * subst. destruct (IH 0%nat T1' Et) as (A & B & E & HA & HAx). cbn [replicate app] in E. subst g. exists (replicate n 42 ++ c :: A), B.
        rewrite <- !app_assoc. split_and!; [done|by apply toks_snoc|]. change ((c :: A) ++ sep x) with (c :: (A ++ sep x)).
        by erewrite toks_snoc.
Qed.

Lemma toks_app A c B T1 T2 : c <> 42 -> toks 0 A = Some T1 -> toks 0 B = Some T2 -> toks 0 (A ++ c :: B) = Some (T1 ++ tok c :: T2).
Proof.
  intros Hc HA HB.
  assert (forall n, toks n A = Some T1 -> toks n (A ++ c :: B) = Some (T1 ++ tok c :: T2)) as H; [|by apply H].
  clear HA. revert T1. induction A as [|x A IH]; intros T1 n; cbn [app toks].
  - rewrite (proj2 (Z.eqb_neq c 42)), HB by done. by destruct n as [|[|[|n]]]; cbn; intros [= <-].
  - destruct (x =? 42); [apply IH|]. destruct (toks 0 A) as [ts|] eqn:E; [|done]. rewrite (IH ts 0%nat E).
    by destruct n as [|[|[|n]]]; cbn; intros [= <-].
Qed.


(** *** All the cuts are directory globs *)

Lemma prefix_app sub s : String.prefix sub s = true <-> exists b, s = sub +:+ b.
Proof.
  revert s. induction sub as [|c sub IH]; intros s.
  - split; [by exists s|]. by destruct s.
  - destruct s as [|d s]; cbn [String.prefix]; [split; [done|by intros (b & ?)]|]. destruct (ascii_dec c d) as [-> | Hne].
    + rewrite IH. split; [intros (b & ->); by exists b|intros (b & E)]. injection E as ->. by exists b.
    + split; [done|]. intros (b & E). injection E as E _. congruence.
Qed.

Lemma LastIndex_ge s sub : -1 <= LastIndex s sub < Z.of_nat (S (String.length s)).
Proof. induction s as [|c s IH]; cbn [LastIndex String.length]; [lia|]. destruct (_ >=? 0) eqn:E; [lia|]. destruct (String.prefix _ _); lia. Qed.

Lemma LastIndex_max a sub b : sub <> "" -> Z.of_nat (String.length a) <= LastIndex (a +:+ sub +:+ b) sub.
Proof.
  intros Hs. induction a as [|c a IH].
  - change ("" +:+ ?x) with x. destruct sub as [|d sub]; [done|].
    change (String d sub +:+ b) with (String d (sub +:+ b)). cbn [LastIndex].
    assert (String.prefix (String d sub) (String d (sub +:+ b)) = true) as -> by (apply prefix_app; by exists b).
    destruct (_ >=? 0) eqn:E; cbn; lia.
  - change (String c a +:+ ?x) with (String c (a +:+ x)). cbn [LastIndex String.length]. rewrite (proj2 (Z.geb_le _ 0)); lia.
Qed.

Lemma LastIndex_at s sub : sub <> "" -> 0 <= LastIndex s sub ->
  exists a b, s = a +:+ sub +:+ b /\ Z.of_nat (String.length a) = LastIndex s sub.
Proof.
  intros Hs. induction s as [|c s IH]; cbn [LastIndex]; [lia|]. destruct (LastIndex s sub >=? 0) eqn:E.
  - intros _. destruct IH as (a & b & -> & Hl); [lia|]. exists (String c a), b. split; [done|]. cbn [String.length]. lia.
  - destruct (String.prefix sub (String c s)) eqn:Ep; [|lia]. intros _. apply prefix_app in Ep as (b & ->). by exists "", b.
Qed.

Lemma substring_app a b : String.substring 0 (String.length a) (a +:+ b) = a.
Proof. induction a as [|c a IH]; [by destruct b|]. change (String c a +:+ b) with (String c (a +:+ b)). cbn [String.length String.substring]. by rewrite IH. Qed.

(** A prefix of a string that is no longer than another is a prefix of that one. *)
Lemma app_split (a b c d : string) : a +:+ b = c +:+ d -> (String.length a <= String.length c)%nat -> exists e, c = a +:+ e /\ b = e +:+ d.
Proof.
  revert c. induction a as [|x a IH]; intros c E Hl; [by exists c|]. destruct c as [|y c]; cbn [String.length] in Hl; [lia|].
  injection E as -> E. destruct (IH c E) as (e & -> & ->); [lia|]. by exists e.
Qed.

Definition three (g : string) : Prop := exists a b, g = a +:+ "***" +:+ b.

(** The name of a cut: up to and including a slash, or two stars and a slash. *)
Definition cut (w : string) : string := if str_eqb w "/" then "/" else w +:+ "/".

Lemma dir_globs_keeps fuel g out x : x ∈ out -> x ∈ dir_globs fuel g out.
Proof.
  revert g out. induction fuel as [|fuel IH]; intros g out Hx; [done|]. cbn [dir_globs].
  destruct (if LastIndex g "**" >? LastIndex g "/" then _ else _) as [i what]. destruct (i <? 0).
  - by destruct out; [by apply not_elem_of_nil in Hx|].
  - apply IH. destruct (last out) as [l|]; [destruct (str_eqb l _); [done|]|]; apply elem_of_app; by left.
Qed.

Lemma dir_globs_cut fuel g out a w b : (String.length g < fuel)%nat -> ~ three g -> w = "/" \/ w = "**" -> g = a +:+ w +:+ b ->
  (a +:+ cut w) ∈ dir_globs fuel g out.
Proof.
  revert g out b. induction fuel as [|fuel IH]; intros g out b Hf H3 Hw Hg; [lia|]. cbn [dir_globs].
  assert (w <> "") as Hwne by (by destruct Hw as [-> | ->]).
  pose proof (LastIndex_max a w b Hwne) as Hmax. rewrite <- Hg in Hmax.
  set (j := LastIndex g "**") in *. set (i0 := LastIndex g "/") in *.
  assert (exists w' a' b', (w' = "/" \/ w' = "**") /\ (if j >? i0 then (j, "**") else (i0, "")) = (Z.of_nat (String.length a'), if str_eqb w' "/" then "" else w') /\
    g = a' +:+ w' +:+ b' /\ (String.length a <= String.length a')%nat) as (w' & a' & b' & Hw' & E & Hg' & Hle).
  { destruct (j >? i0) eqn:Eji.
    - destruct (LastIndex_at g "**") as (a' & b' & -> & Hl); [done|fold j; destruct Hw as [-> | ->]; fold j i0 in Hmax; lia|].
      exists "**", a', b'. split_and!; [by right|by rewrite Hl|done|]. destruct Hw as [-> | ->]; fold j i0 in Hmax; lia.
    - destruct (LastIndex_at g "/") as (a' & b' & -> & Hl); [done|fold i0; destruct Hw as [-> | ->]; fold j i0 in Hmax; lia|].
      exists "/", a', b'. split_and!; [by left|by rewrite Hl|done|]. destruct Hw as [-> | ->]; fold j i0 in Hmax; lia. }
  rewrite E. destruct (Z.of_nat (String.length a') <? 0) eqn:E0; [lia|]. rewrite Nat2Z.id.
  assert (String.substring 0 (String.length a') g = a') as -> by (rewrite Hg'; apply substring_app).
  assert (a' +:+ (if str_eqb w' "/" then "" else w') +:+ "/" = a' +:+ cut w') as ->.
  { unfold cut. by destruct Hw' as [-> | ->]. }
  set (out' := match last out with Some _ => _ | None => _ end).
  assert ((a' +:+ cut w') ∈ out') as Hin.
  { unfold out'. destruct (last out) as [l|] eqn:El; [|apply elem_of_app; right; by apply list_elem_of_singleton].
    destruct (str_eqb l (a' +:+ cut w')) eqn:Eq; [|apply elem_of_app; right; by apply list_elem_of_singleton].
    apply str_eqb_eq in Eq as <-. by apply last_Some_elem_of. }
  rewrite Hg in Hg'. destruct (app_split a (w +:+ b) a' (w' +:+ b') Hg' Hle) as (e & Ha' & Hwb).
  destruct (decide (e = "")) as [-> | Hne].
  - assert (w' = w) as ->. { destruct Hw as [-> | ->], Hw' as [-> | ->]; try done. }
    assert (a' = a) as -> by (by rewrite Ha', str_app_nil_r).
    by apply dir_globs_keeps.
  - assert (exists b2, e = w +:+ b2) as (b2 & ->).
    { destruct Hw as [-> | ->].
      - destruct e as [|c e]; [done|]. injection Hwb as -> _. by exists e.
      - change ("**" +:+ b) with (String "*" (String "*" b)) in Hwb.
        destruct e as [|c [|c' e]]; [done| |injection Hwb as <- <- _; by exists e]. exfalso.
        change (String c "" +:+ ?x) with (String c x) in Hwb. injection Hwb as _ Hwb.
        destruct Hw' as [-> | ->]; [discriminate Hwb|]. apply H3. exists a, b'.
        change ("**" +:+ b') with (String "*" (String "*" b')) in Hwb. injection Hwb as ->. exact Hg. }
    apply (IH a' _ b2); [|intros (x & y & E3)|done|done].
    + rewrite Hg, Hg' in Hf. rewrite str_length_app in Hf. destruct Hw' as [-> | ->]; change ("/" +:+ b') with (String "/" b') in Hf || change ("**" +:+ b') with (String "*" (String "*" b')) in Hf; cbn [String.length] in Hf; lia.
    + apply H3. exists x, (y +:+ w' +:+ b'). rewrite Hg, Hg', E3. by rewrite !str_app_assoc.
Qed.


Lemma toks_many n g : (3 <= n)%nat -> toks n g = None.
Proof.
  revert n. induction g as [|c g IH]; intros n Hn; cbn [toks].
  - destruct n as [|[|[|n]]]; [lia..|done].
  - destruct (c =? 42); [apply IH; lia|]. destruct (toks 0 g); [|done]. destruct n as [|[|[|n]]]; [lia..|done].
Qed.

Lemma toks_three n A B : toks n (A ++ 42 :: 42 :: 42 :: B) = None.
Proof.
  revert n. induction A as [|c A IH]; intros n; cbn [app toks]; [by apply toks_many; lia|]. destruct (c =? 42); [apply IH|]. by rewrite IH.
Qed.

Lemma three_runes g : three g -> exists A B, runes g = A ++ 42 :: 42 :: 42 :: B.
Proof.
  intros (a & b & ->). exists (runes a), (runes b). change ("***" +:+ b) with (String "*" (String "*" (String "*" b))).
  rewrite runes_ascii, !runes_cons by (vm_compute; lia). done.
Qed.

(** *** An included file is in included directories *)

Lemma tooHard_simple g : simple g -> found false tooHardRe g = false.
Proof.
  intros Hg. apply not_true_iff_false. rewrite found_spec. intros (i & j & _ & Hm).
  assert (forall c r k, matches false g (Seq (Chr c) r) i k -> c = 123 \/ c = 125 -> False) as H.
  { intros c r k Hs Hc. inversion Hs as [| | | | | | |? ? ? l ? Hx _| | | |]; subst. inversion Hx as [| | | | | |? ? d Hd He| | | | |]; subst.
    unfold same_char in He. apply Z.eqb_eq in He as <-. apply list_elem_of_lookup_2 in Hd. unfold simple in Hg. rewrite Forall_forall in Hg.
    destruct (Hg _ Hd) as (_ & _ & _ & ? & ?). lia. }
  inversion Hm as [| | | | | | | |? ? ? ? H1|? ? ? ? H1| |]; subst; [by eapply H; [|left]|].
  inversion H1 as [| | | | | | | |? ? ? ? H2|? ? ? ? H2| |]; subst; [by eapply H; [|left]|].
  inversion H2 as [| | | | | | | |? ? ? ? H3|? ? ? ? H3| |]; subst; [by eapply H; [|right]|by eapply H; [|left]].
Qed.

Definition doubled (g : string) : Prop := exists a b, g = a +:+ "//" +:+ b.

Lemma squash_id g : ~ doubled g -> squash false g = g.
Proof.
  intros H.
  assert (forall p s, g = p +:+ s -> squash false s = s /\ (is_rooted s = false -> squash true s = s)) as Hs; [|by apply (Hs "")].
  intros p s. revert p. induction s as [|c s IH]; intros p E; [done|].
  destruct (IH (p +:+ String c "")) as [H1 H2]; [by rewrite str_app_assoc|].
  cbn [squash is_rooted]. destruct (Ascii.eqb c slash) eqn:Ec.
  - split; [|done]. rewrite H2; [done|]. destruct s as [|d s]; [done|]. cbn [is_rooted]. apply not_true_iff_false. intros Ed.
    apply Ascii.eqb_eq in Ec as ->, Ed as ->. apply H. by exists p, s.
  - by rewrite H1.
Qed.

(** A path without empty names and newlines. *)
Definition clean (s : list Z) : Prop := head s <> Some 47 /\ (newline ∉ s) /\ forall a b, s <> a ++ 47 :: 47 :: b.

Fixpoint no_double (s : list Z) : bool :=
  match s with
  | [] => true
  | c :: t => negb ((c =? 47) && match t with d :: _ => d =? 47 | [] => false end) && no_double t
  end.

Lemma clean_check s : bool_decide (head s <> Some 47) && bool_decide (newline ∉ s) && no_double s = true -> clean s.
Proof.
  rewrite !andb_true_iff, !bool_decide_eq_true. intros [[H1 H2] H3]. split_and!; [done|done|]. clear H1 H2. intros a b.
  revert s H3. induction a as [|x a IH]; intros s H ->; cbn [app no_double] in H; [done|]. apply andb_true_iff in H as [_ H]. by eapply IH.
Qed.

(** Include globs for which the directories can be found: tied to the root, starting with two stars, or for names only. *)
Definition findable (g : string) : Prop :=
  (exists g0, g = "/" +:+ g0) \/ (exists g0, g = "**" +:+ g0) \/ (LastIndex g "/" < 0 /\ LastIndex g "**" < 0).

Lemma toks_end_char n g c ts : c <> 42 -> toks n (g ++ [c]) = Some ts -> exists T, ts = T ++ [tok c].
Proof.
  intros Hc. revert n ts. induction g as [|x g IH]; intros n ts; cbn [app toks].
  - rewrite (proj2 (Z.eqb_neq c 42)) by done. destruct n as [|[|[|n]]]; cbn; intros [= <-]; [by exists []|by exists [S1]|by exists [S2]].
  - destruct (x =? 42); [apply IH|]. destruct (toks 0 (g ++ [c])) as [ts'|] eqn:E; [|done]. apply IH in E as (T & ->).
    destruct n as [|[|[|n]]]; cbn; intros [= <-]; [by exists (tok x :: T)|by exists (S1 :: tok x :: T)|by exists (S2 :: tok x :: T)].
Qed.

Lemma toks_end_two n g ts : toks n (g ++ [42; 42]) = Some ts -> exists T, ts = T ++ [S2].
Proof.
  revert n ts. induction g as [|x g IH]; intros n ts; cbn [app toks].
  - change (42 =? 42) with true. cbn iota. destruct n as [|[|[|n]]]; cbn; intros [= <-]. by exists [].
  - destruct (x =? 42); [apply IH|]. destruct (toks 0 (g ++ [42; 42])) as [ts'|] eqn:E; [|done]. apply IH in E as (T & ->).
    destruct n as [|[|[|n]]]; cbn; intros [= <-]; [by exists (tok x :: T)|by exists (S1 :: tok x :: T)|by exists (S2 :: tok x :: T)].
Qed.

(** The glob does not end with one star alone, and not with a slash. *)
Definition definite (g : string) : Prop :=
  (exists a, g = a +:+ "**") \/ (exists A c, runes g = A ++ [c] /\ c <> 42 /\ c <> 47).


Section cover.
Context (ci : bool) (slash_alone : forall d, same_char ci 47 d = true <-> d = 47) (slash_alone' : forall c, same_char ci c 47 = true -> c = 47).

Lemma glob_compiles_to g r : simple (runes g) -> GlobPathToRegexp g ci = inr r ->
  exists anchored ts, path_tokens (runes g) = (anchored, Some ts) /\ forall s, matcher r s = path_match ci anchored ts s.
Proof.
  intros Hg Hr. pose proof (glob_compiles g ci Hg) as H. destruct (path_tokens (runes g)) as [anchored [ts|]]; [|congruence].
  destruct H as (r' & Hr' & H). exists anchored, ts. split; [done|]. rewrite Hr in Hr'. by injection Hr' as ->.
Qed.

Lemma covered g' ts anchored s : simple (runes g') -> path_tokens (runes g') = (anchored, Some ts) -> path_match ci anchored ts s = true ->
  exists r', GlobPathToRegexp g' ci = inr r' /\ matcher r' s = true.
Proof.
  intros Hg Ht Hm. pose proof (glob_compiles g' ci Hg) as H. rewrite Ht in H. destruct H as (r' & Hr' & H). exists r'. by rewrite H.
Qed.

Lemma gmatch_all s : (newline ∉ s) -> gmatch ci [S2] s = true.
Proof.
  intros H. cbn [gmatch]. apply skip_spec. exists s, []. rewrite app_nil_r. split_and!; [done| |done].
  apply Forall_forall. intros d Hd. unfold not_newline. apply negb_true_iff, Z.eqb_neq. congruence.
Qed.

Lemma dirs_of_simple g : simple (runes g) -> ~ doubled g -> globToDirGlobs g = dir_globs (S (String.length g)) g [].
Proof. intros Hs Hd. unfold globToDirGlobs. by rewrite tooHard_simple, squash_id. Qed.

(** The glob of an anchored match. *)
Lemma cover_anchored g0 ts D R : simple (runes g0) -> ~ three ("/" +:+ g0) -> toks 0 (runes g0) = Some ts -> gmatch ci ts (D ++ 47 :: R) = true ->
  exists g', (g' ∈ dir_globs (S (String.length ("/" +:+ g0))) ("/" +:+ g0) []) /\ g' <> "/" /\
    exists r', GlobPathToRegexp g' ci = inr r' /\ matcher r' (D ++ [47]) = true.
Proof.
  intros Hs H3 Ht Hm.
  assert (exists T1 x T2 w, ts = T1 ++ x :: T2 /\ (x = Lit 47 /\ w = "/" \/ x = S2 /\ w = "**") /\
    gmatch ci (if str_eqb w "/" then T1 ++ [x] else T1 ++ [x; Lit 47]) (D ++ [47]) = true) as (T1 & x & T2 & w & -> & Hx & Hg).
  { assert (gmatch ci [Lit 47] [47] = true) as Hsl by (cbn [gmatch]; by rewrite (proj2 (slash_alone 47))).
    destruct (gmatch_slash ci slash_alone slash_alone' ts D R Hm) as [(T1 & T2 & -> & H) | (T1 & T2 & -> & H)].
    - exists T1, (Lit 47), T2, "/". split_and!; [done|by left|]. cbn. by apply gmatch_app.
    - exists T1, S2, T2, "**". split_and!; [done|by right|]. cbn. change [S2; Lit 47] with ([S2] ++ [Lit 47]). rewrite app_assoc. by apply gmatch_app. }
  destruct (toks_split 0 (runes g0) T1 x T2) as (A & B & E & HA & HAx); [naive_solver|done|]. cbn [replicate app] in E.
  assert (exists a b, g0 = a +:+ w +:+ b /\ runes a = A) as (a & b & -> & Ha).
  { destruct Hx as [[-> ->] | [-> ->]]; cbn [sep app] in E.
    - destruct (runes_split g0 A 47 B E) as (a & b & -> & Ha & _); [lia|]. by exists a, b.
    - destruct (runes_split g0 A 42 (42 :: B) E) as (a & b & -> & Ha & Hb); [lia|].
      destruct (runes_split b [] 42 B Hb) as (a' & b' & -> & Ha' & _); [lia|]. apply runes_nil in Ha' as ->. by exists a, b'. }
  assert (w = "/" \/ w = "**") as Hw by (destruct Hx as [[_ ->] | [_ ->]]; auto).
  assert (exists ts', runes (("/" +:+ a) +:+ cut w) = 47 :: A ++ (if str_eqb w "/" then [47] else [42; 42; 47]) /\
      toks 0 (A ++ (if str_eqb w "/" then [47] else [42; 42; 47])) = Some ts' /\ gmatch ci ts' (D ++ [47]) = true) as (ts' & Hr & Htok & Hg').
  { rewrite str_app_assoc. change ("/" +:+ ?x) with (String "/" x). rewrite runes_cons by (vm_compute; lia).
    destruct Hx as [[-> ->] | [-> ->]]; cbn [cut str_eqb String.eqb Ascii.eqb] in *; cbn in Hg.
    - exists (T1 ++ [Lit 47]). split_and!; [|done|done]. f_equal. change (cut "/") with (String "/" ""). rewrite runes_ascii by (vm_compute; lia). by rewrite Ha.
    - exists (T1 ++ [S2; Lit 47]). split_and!; [| |done].
      + f_equal. change (cut "**") with (String "*" (String "*" (String "/" ""))). rewrite runes_ascii, !runes_cons by (vm_compute; lia). by rewrite Ha.
      + replace (A ++ _) with ((A ++ sep S2) ++ [47]) by (by rewrite <- app_assoc).
        rewrite (toks_app _ 47 [] _ [] ltac:(lia) HAx eq_refl). by rewrite <- app_assoc. }
  exists (("/" +:+ a) +:+ cut w). split_and!.
  - apply (dir_globs_cut _ _ _ ("/" +:+ a) w b); [lia|done|done|by rewrite !str_app_assoc].
  - intros E'. apply (f_equal String.length) in E'. rewrite !str_length_app in E'. change (String.length "/") with 1%nat in E'.
    assert (1 <= String.length (cut w))%nat by (destruct Hw as [-> | ->]; vm_compute; lia). lia.
  - apply (covered _ ts' true); [| |exact Hg'].
    + rewrite Hr. constructor; [done|]. unfold simple in *. rewrite E in Hs. apply Forall_app in Hs as [HsA _]. apply Forall_app. split; [done|].
      destruct (str_eqb w "/"); repeat constructor; done.
    + rewrite Hr. unfold path_tokens. cbn iota beta. change (47 =? 47) with true. cbn iota. by rewrite Htok.
Qed.

(** A match of the whole of a clean path allows no two slashes in a row. *)
Lemma path_not_doubled g anchored ts s : simple (runes g) -> path_tokens (runes g) = (anchored, Some ts) -> clean s ->
  path_match ci anchored ts s = true -> ~ doubled g.
Proof.
  intros Hs Ht (Hh & _ & Hd) Hm (a & b & ->).
  assert (runes (a +:+ "//" +:+ b) = runes a ++ 47 :: 47 :: runes b) as E.
  { change ("//" +:+ b) with (String "/" (String "/" b)). by rewrite runes_ascii, runes_cons by (vm_compute; lia). }
  assert (forall A n T, toks n (A ++ 47 :: 47 :: runes b) = Some T -> exists T1 T2, T = T1 ++ Lit 47 :: Lit 47 :: T2) as Hdbl.
  { intros A. induction A as [|c A IH]; intros n T; cbn [app toks].
    - change (47 =? 42) with false. cbn iota. destruct (toks 0 (runes b)) as [T2|]; [|done].
      destruct n as [|[|[|n]]]; cbn; intros [= <-]; [by exists [], T2|by exists [S1], T2|by exists [S2], T2].
    - destruct (c =? 42); [apply IH|]. destruct (toks 0 (A ++ _)) as [T'|] eqn:E'; [|done]. apply IH in E' as (T1 & T2 & ->).
      destruct n as [|[|[|n]]]; cbn; intros [= <-];
        [by exists (tok c :: T1), T2|by exists (S1 :: tok c :: T1), T2|by exists (S2 :: tok c :: T1), T2]. }
  assert (forall T1 T2 s', gmatch ci (T1 ++ Lit 47 :: Lit 47 :: T2) s' = true -> forall p, s = p ++ s' -> False) as Hno.
  { intros T1 T2 s' (x & y & ->)%gmatch_double p ->; [|done]. apply (Hd (p ++ x) y). by rewrite <- app_assoc. }
  rewrite E in Ht. unfold path_tokens in Ht. destruct (runes a) as [|c A]; cbn [app] in Ht.
  - change (47 =? 47) with true in Ht. injection Ht as <- Ht. cbn [path_match] in Hm.
    cbn [toks] in Ht. change (47 =? 42) with false in Ht. cbn iota in Ht. destruct (toks 0 (runes b)) as [T|]; [|done]. injection Ht as <-.
    cbn [gmatch tok] in Hm. change (tok 47) with (Lit 47) in Hm. cbn [gmatch] in Hm. destruct s as [|x s]; [done|].
    apply andb_true_iff in Hm as [Hx _]. apply slash_alone in Hx as ->. by apply Hh.
  - destruct (c =? 47) eqn:Ec; injection Ht as <- Ht; cbn [path_match] in Hm.
    + apply Hdbl in Ht as (T1 & T2 & ->). by apply (Hno T1 T2 s Hm []).
    + destruct (Hdbl (c :: A) 0%nat ts Ht) as (T1 & T2 & ->). apply orb_true_iff in Hm as [Hm|Hm]; [by apply (Hno T1 T2 s Hm [])|].
      apply at_names_spec in Hm as (p & d & q & -> & _ & Hm). apply (Hno T1 T2 q Hm (p ++ [d])). by rewrite <- app_assoc.
Qed.

Lemma toks_not_three g anchored ts : path_tokens (runes g) = (anchored, Some ts) -> ~ three g.
Proof.
  intros Ht (A & B & E)%three_runes. rewrite E in Ht. unfold path_tokens in Ht. destruct A as [|c A]; cbn [app] in Ht.
  - change (42 =? 47) with false in Ht. injection Ht as _ Ht. pose proof (toks_three 0 [] B) as H0. discriminate (eq_trans (eq_sym H0) Ht).
  - destruct (c =? 47); injection Ht as _ Ht; [by rewrite toks_three in Ht|]. pose proof (toks_three 0 (c :: A) B) as H0. discriminate (eq_trans (eq_sym H0) Ht).
Qed.

(** Every directory above a matching file matches one of the directory globs. *)
Lemma dirs_cover g r D R : simple (runes g) -> findable g -> GlobPathToRegexp g ci = inr r -> clean (D ++ 47 :: R) ->
  matcher r (D ++ 47 :: R) = true ->
  exists g', (g' ∈ globToDirGlobs g) /\ g' <> "/" /\ exists r', GlobPathToRegexp g' ci = inr r' /\ matcher r' (D ++ [47]) = true.
Proof.
  intros Hs Hf Hr Hc Hm. destruct (glob_compiles_to g r Hs Hr) as (anchored & ts & Ht & Hr'). rewrite Hr' in Hm.
  pose proof (path_not_doubled _ _ _ _ Hs Ht Hc Hm) as Hd. pose proof (toks_not_three _ _ _ Ht) as H3.
  assert (newline ∉ D ++ [47]) as Hnl.
  { destruct Hc as (_ & Hn & _). rewrite elem_of_app in *. rewrite list_elem_of_singleton. intros [?|?]; [by apply Hn; left|done]. }
  rewrite dirs_of_simple by done. destruct Hf as [(g0 & ->) | [(g0 & ->) | [H1 H2]]].
  - assert (runes ("/" +:+ g0) = 47 :: runes g0) as E by (change ("/" +:+ g0) with (String "/" g0); by rewrite runes_cons by (vm_compute; lia)).
    rewrite E in Ht, Hs. cbn in Ht. injection Ht as <- Ht. eapply cover_anchored; [by inversion Hs|done|exact Ht|exact Hm].
  - exists "**/". split_and!; [|done|].
    + apply (dir_globs_cut _ _ _ "" "**" g0); [lia|done|by right|done].
    + apply (covered _ [S2; Lit 47] false); [by repeat constructor|reflexivity|]. cbn [path_match]. apply orb_true_iff. left.
      change [S2; Lit 47] with ([S2] ++ [Lit 47]). apply gmatch_app; [apply gmatch_all|cbn [gmatch]; by rewrite (proj2 (slash_alone 47))].
      intros Hin. apply Hnl, elem_of_app. by left.
  - exists "/**". split_and!; [|done|].
    + cbn [dir_globs]. destruct (LastIndex g "**" >? LastIndex g "/"); (rewrite (proj2 (Z.ltb_lt _ 0)) by lia); by left.
    + apply (covered _ [S2] true); [by repeat constructor|reflexivity|]. by apply gmatch_all.
Qed.


(** *** What is excluded with a directory *)

Lemma gmatch_app_inv T1 T2 s : gmatch ci (T1 ++ T2) s = true -> exists a b, s = a ++ b /\ gmatch ci T1 a = true /\ gmatch ci T2 b = true.
Proof.
  revert s. induction T1 as [|t T1 IH]; intros s; [by exists [], s|]. destruct t as [c| | |]; cbn [app gmatch].
  - destruct s as [|d s]; [done|]. intros [Hd (a & b & -> & H1 & H2)%IH]%andb_true_iff. exists (d :: a), b. by rewrite Hd, H1.
  - destruct s as [|d s]; [done|]. intros [Hd (a & b & -> & H1 & H2)%IH]%andb_true_iff. exists (d :: a), b. by rewrite Hd, H1.
  - intros (p & q & -> & Hp & (a & b & -> & H1 & H2)%IH)%skip_spec. exists (p ++ a), b. rewrite <- app_assoc. split_and!; [done| |done].
    apply skip_spec. by exists p, a.
  - intros (p & q & -> & Hp & (a & b & -> & H1 & H2)%IH)%skip_spec. exists (p ++ a), b. rewrite <- app_assoc. split_and!; [done| |done].
    apply skip_spec. by exists p, a.
Qed.

Lemma gmatch_extend T s R : (newline ∉ R) -> gmatch ci (T ++ [S2]) s = true -> gmatch ci (T ++ [S2]) (s ++ R) = true.
Proof.
  intros HR (a & b & -> & H1 & H2)%gmatch_app_inv. rewrite <- app_assoc. apply gmatch_app; [done|]. cbn [gmatch] in *.
  apply skip_spec in H2 as (b1 & b2 & -> & Hb & H2). destruct b2; [|done]. rewrite app_nil_r. apply skip_spec. exists (b1 ++ R), [].
  rewrite app_nil_r. split_and!; [done| |done]. apply Forall_app. split; [done|]. apply Forall_forall. intros d Hd. unfold not_newline.
  apply negb_true_iff, Z.eqb_neq. congruence.
Qed.

(** The last token of a match that ends with a slash. *)
Lemma gmatch_last T t s : gmatch ci (T ++ [t]) (s ++ [47]) = true -> t = Lit 47 \/ t = S1 \/ t = S2.
Proof.
  intros (a & b & E & _ & H2)%gmatch_app_inv. destruct t as [c| | |]; cbn [gmatch] in H2; auto.
  - destruct b as [|d [|]]; rewrite ?andb_false_r in H2; try done. apply app_inj_tail in E as [_ <-]. apply andb_true_iff in H2 as [H2 _].
    apply slash_alone' in H2 as ->. by left.
  - destruct b as [|d [|]]; rewrite ?andb_false_r in H2; try done. apply app_inj_tail in E as [_ <-]. apply andb_true_iff in H2 as [H2 _].
    unfold not_slash in H2. by rewrite (proj2 (slash_alone 47)) in H2.
Qed.

Lemma path_match_file anchored T t D R : t <> Lit 47 -> t <> S1 -> (newline ∉ R) ->
  path_match ci anchored (T ++ [t]) (D ++ [47]) = true -> path_match ci anchored (T ++ [t]) (D ++ 47 :: R) = true.
Proof.
  intros Ht1 Ht2 HR. replace (D ++ 47 :: R) with ((D ++ [47]) ++ R) by (by rewrite <- app_assoc).
  assert (gmatch ci (T ++ [t]) (D ++ [47]) = true -> gmatch ci (T ++ [t]) ((D ++ [47]) ++ R) = true) as Hall.
  { intros H. destruct (gmatch_last _ _ _ H) as [->|[->| ->]]; [done|done|by apply gmatch_extend]. }
  destruct anchored; cbn [path_match]; [done|]. rewrite !orb_true_iff, !at_names_spec. intros [H|(a & d & b & E & Hd & H)]; [left; auto|right].
  exists a, d, (b ++ R). split_and!; [by rewrite E, <- app_assoc|done|].
  destruct (decide (b = [])) as [-> | Hb].
  - (* the rest of the path is a name of its own *)
    assert (t = S2) as ->; [|by apply gmatch_extend]. apply gmatch_app_inv in H as (x & y & E' & _ & H). symmetry in E'.
    apply app_eq_nil in E' as [_ ->]. by destruct t.
  - destruct (exists_last Hb) as (b' & x & ->). change (d :: b' ++ [x]) with ((d :: b') ++ [x]) in E. rewrite app_assoc in E.
    apply app_inj_tail in E as [_ <-]. destruct (gmatch_last _ _ _ H) as [->|[->| ->]]; [done|done|by apply gmatch_extend].
Qed.

(** A single star matches the last name of any path. *)
Lemma star_matches_all s : path_match ci false [S1] s = true.
Proof.
  cbn [path_match]. induction s as [|d s IH]; [done|]. cbn [at_names]. apply orb_true_iff.
  destruct (same_char ci 47 d) eqn:Ed; cbn [andb orb].
  - right. destruct (gmatch ci [S1] s); [done|exact IH].
  - apply orb_true_iff in IH as [IH|IH]; [left|by right]. cbn [gmatch] in *. apply skip_spec in IH as (a & b & -> & Ha & Hb).
    apply skip_spec. exists (d :: a), b. split_and!; [done| |done]. constructor; [|done]. unfold not_slash. by rewrite Ed.
Qed.


Lemma dir_excludes_file g r D R : simple (runes g) -> definite g -> GlobPathToRegexp g ci = inr r -> (newline ∉ R) ->
  matcher r (D ++ [47]) = true -> matcher r (D ++ 47 :: R) = true.
Proof.
  intros Hs Hdef Hr HR. destruct (glob_compiles_to g r Hs Hr) as (anchored & ts & Ht & Hm). rewrite !Hm.
  assert (exists T t, ts = T ++ [t] /\ t <> Lit 47 /\ t <> S1) as (T & t & -> & H1 & H2); [|by apply path_match_file].
  assert (forall G n, toks n G = Some ts -> (exists A, G = A ++ [42; 42]) \/ (exists A c, G = A ++ [c] /\ c <> 42 /\ c <> 47) ->
    exists T t, ts = T ++ [t] /\ t <> Lit 47 /\ t <> S1) as H.
  { intros G n HG [(A & ->) | (A & c & -> & Hc & Hc')].
    - apply toks_end_two in HG as (T & ->). by exists T, S2.
    - apply toks_end_char in HG as (T & ->); [|done]. exists T, (tok c). split_and!; [done|unfold tok; destruct (c =? 63); congruence..]. }
  assert ((exists A, runes g = A ++ [42; 42]) \/ (exists A c, runes g = A ++ [c] /\ c <> 42 /\ c <> 47)) as Hend.
  { destruct Hdef as [(a & ->) | ?]; [left|by right]. exists (runes a). change "**" with (String "*" (String "*" "")).
    by rewrite runes_ascii, runes_cons by (vm_compute; lia). }
  unfold path_tokens in Ht. destruct (runes g) as [|c0 G] eqn:E.
  - exfalso. destruct Hend as [([|] & ?) | ([|] & ? & ? & _)]; done.
  - destruct (c0 =? 47) eqn:E0; injection Ht as <- Ht; [|by apply (H (c0 :: G) 0%nat)]. apply Z.eqb_eq in E0 as ->.
    apply (H G 0%nat Ht). destruct Hend as [([|x A] & EA) | ([|x A] & c & EA & Hc)]; [done| | |]; simplify_eq/=; [left; by exists A|by destruct Hc|].
    right. by exists A, c.
Qed.

End cover.


End tokens.

(** ** Examples *)

End Glob.
