(* ===== verification/Filter.v ===== *)
(** * Filters: fs/filter/rules.go and fs/filter/filter.go

    Lists of include and exclude rules for files, directories and metadata,
    --files-from, --hash-filter, sizes and ages, and the decisions that a
    sync and a listing ask for. *)
From S2P Require Import Prelude GoPath Entries Utf8 Regexp Glob.

Module Filter.
Import GoPath Entries Utf8 Regexp Glob.

Inductive filter_error : Type :=
  | EGlob (e : glob_error)
  | EMalformed (rule : string)
  | EScan                        (* a file of rules cannot be read *)
  | EHashFilter
  | EAges                        (* --min-age larger than --max-age *)
  | EFilesFrom                   (* --files-from with other filters *)
  | EBackend.

(** What a filter uses of the system: the lines of a file as a scanner with the
    delimiter NUL or newline returns them, the clock, random numbers, the MD5 of the
    lower case and composed name as a number, and whether a file exists. *)
Class FilterEnv : Type := {
  env_regexp :: GoRegexp;
  scan : string -> bool -> list string * bool;        (* the lines, and whether there was an error *)
  now1 : Z;
  now2 : Z;
  random_below : Z -> Z;
  hash64 : string -> Z;
  file_exists : string -> option bool }.              (* None: an error *)

(** ** Rules *)

Record rule : Type := mkRule {
  Include_ : bool;
  Regexp_ : regexp }.

Definition Match (r : rule) (path : string) : bool := matcher (Regexp_ r) (runes path).
Definition rule_String (r : rule) : bool * list Z := (Include_ r, source (Regexp_ r)).

Record rules : Type := mkRules {
  rs : list rule;
  existing : gset (bool * list Z) }.

Definition no_rules : rules := mkRules [] ∅.

Definition add (r : rules) (inc : bool) (re : regexp) : rules :=
  let newRule := mkRule inc re in
  if bool_decide (rule_String newRule ∈ existing r) then r
  else mkRules (rs r ++ [newRule]) ({[ rule_String newRule ]} ∪ existing r).

Definition len_rules (r : rules) : nat := length (rs r).

Fixpoint include_in (l : list rule) (m : rule -> bool) : bool :=
  match l with
  | [] => true
  | r :: l => if m r then Include_ r else include_in l m
  end.

Definition include (r : rules) (remote : string) : bool := include_in (rs r) (fun r => Match r remote).
Definition includeMany (r : rules) (remotes : list string) : bool := include_in (rs r) (fun r => existsb (Match r) remotes).

(** ** Reading rules *)

Section env.
Context {env : FilterEnv}.

(** [rules.Add], which is used for metadata. *)
Definition meta_Add (r : rules) (inc : bool) (glob : string) : filter_error + rules :=
  match GlobPathToRegexp glob false with
  | inl e => inl (EGlob e)
  | inr re => inr (add r inc re)
  end.

(** [scanNul]: how far to advance, and the token. *)
Fixpoint IndexByte (data : list Z) (c : Z) : Z :=
  match data with
  | [] => -1
  | d :: data => if d =? c then 0 else let i := IndexByte data c in if i >=? 0 then i + 1 else -1
  end.

Definition scanNul (data : list Z) (atEOF : bool) : Z * option (list Z) :=
  if atEOF && (Z.of_nat (length data) =? 0) then (0, None)
  else
    let i := IndexByte data 0 in
    if i >=? 0 then (i + 1, Some (take (Z.to_nat i) data))
    else if atEOF then (Z.of_nat (length data), Some data)
    else (0, None).

(** [unicode.IsSpace] *)
Definition is_space (r : Z) : bool :=
  ((9 <=? r) && (r <=? 13)) || (r =? 32) || (r =? 133) || (r =? 160) || (r =? 5760) || ((8192 <=? r) && (r <=? 8202)) ||
  (r =? 8232) || (r =? 8233) || (r =? 8239) || (r =? 8287) || (r =? 12288).

Fixpoint trim_left (its : list item) : list item :=
  match its with it :: its' => if is_space (item_rune it) then trim_left its' else its | [] => [] end.

Definition TrimSpace (s : string) : string := of_bytes (flat (reverse (trim_left (reverse (trim_left (items (to_bytes s))))))).

Definition comment (line : string) : bool :=
  match line with
  | "" => true
  | String c _ => Ascii.eqb c "#" || Ascii.eqb c ";"
  end.

Fixpoint each_line {A} (raw : bool) (fn : string -> A -> filter_error + A) (lines : list string) (a : A) : filter_error + A :=
  match lines with
  | [] => inr a
  | line :: lines =>
      let line := if raw then line else TrimSpace line in
      if negb raw && comment line then each_line raw fn lines a
      else match fn line a with inl e => inl e | inr a => each_line raw fn lines a end
  end.

Definition forEachLine {A} (path : string) (raw useNulDelimiter : bool) (fn : string -> A -> filter_error + A) (a : A) : filter_error + A :=
  let '(lines, err) := scan path useNulDelimiter in
  match each_line raw fn lines a with
  | inl e => inl e
  | inr a => if err then inl EScan else inr a
  end.

(** [addRule] with the functions that add and clear. *)
Definition addRule {A} (addFn : bool -> string -> A -> filter_error + A) (clearFn : A -> A) (rule : string) (a : A) : filter_error + A :=
  match rule with
  | "!" => inr (clearFn a)
  | String c (String d glob) =>
      if Ascii.eqb d " " then
        if Ascii.eqb c "-" then addFn false glob a
        else if Ascii.eqb c "+" then addFn true glob a
        else inl (EMalformed rule)
      else inl (EMalformed rule)
  | _ => inl (EMalformed rule)
  end.

Record RulesOpt : Type := mkRulesOpt {
  FilterRule : list string;
  FilterFrom : list string;
  ExcludeRule : list string;
  ExcludeFrom : list string;
  IncludeRule : list string;
  IncludeFrom : list string }.

(** A loop that stops at the first error. *)
Fixpoint each {A B} (fn : B -> A -> filter_error + A) (l : list B) (a : A) : filter_error + A :=
  match l with
  | [] => inr a
  | b :: l => match fn b a with inl e => inl e | inr a => each fn l a end
  end.

Definition andThen {A} (r : filter_error + A) (k : A -> filter_error + A) : filter_error + A :=
  match r with inl e => inl e | inr a => k a end.

Definition parseRules {A} (opt : RulesOpt) (addFn : bool -> string -> A -> filter_error + A) (clearFn : A -> A) (a : A) : filter_error + A :=
  let addImplicitExclude := bool_decide (IncludeRule opt <> [] \/ IncludeFrom opt <> []) in
  andThen (each (addFn true) (IncludeRule opt) a) (fun a =>
  andThen (each (fun f => forEachLine f false false (addFn true)) (IncludeFrom opt) a) (fun a =>
  andThen (each (addFn false) (ExcludeRule opt) a) (fun a =>
  andThen (each (fun f => forEachLine f false false (addFn false)) (ExcludeFrom opt) a) (fun a =>
  andThen (each (addRule addFn clearFn) (FilterRule opt) a) (fun a =>
  andThen (each (fun f => forEachLine f false false (addRule addFn clearFn)) (FilterFrom opt) a) (fun a =>
  if addImplicitExclude then addFn false "/**" a else inr a)))))).

(** ** The filter *)

Definition DurationOff : Z := i64_max.

Record Options : Type := mkOptions {
  opt_Rules : RulesOpt;
  ExcludeFile : list string;
  FilesFrom : list string;
  FilesFromRaw : list string;
  FilesFrom0 : list string;
  MetaRules : RulesOpt;
  MinAge : Z;
  MaxAge : Z;
  MinSize : Z;
  MaxSize : Z;
  IgnoreCase : bool;
  HashFilter : string }.

(** A time that is zero is [None]; [files] is [None] for a nil map. *)
Record Filter : Type := mkFilter {
  Opt : Options;
  ModTimeFrom : option Z;
  ModTimeTo : option Z;
  fileRules : rules;
  dirRules : rules;
  metaRules : rules;
  files : option (gset string);
  dirs : gset string;
  hashFilterN : Z;
  hashFilterK : Z }.

Definition set_rules (fr dr mr : rules) (f : Filter) : Filter :=
  mkFilter (Opt f) (ModTimeFrom f) (ModTimeTo f) fr dr mr (files f) (dirs f) (hashFilterN f) (hashFilterK f).

Definition add_file_rule (inc : bool) (re : regexp) (f : Filter) : Filter := set_rules (add (fileRules f) inc re) (dirRules f) (metaRules f) f.
Definition add_dir_rule (inc : bool) (re : regexp) (f : Filter) : Filter := set_rules (fileRules f) (add (dirRules f) inc re) (metaRules f) f.

Definition addDirGlob (inc : bool) (dirGlob : string) (f : Filter) : filter_error + Filter :=
  if str_eqb dirGlob "/" then inr f
  else match GlobPathToRegexp dirGlob (IgnoreCase (Opt f)) with
       | inl e => inl (EGlob e)
       | inr dirRe => inr (add_dir_rule inc dirRe f)
       end.

Definition addDirGlobs (inc : bool) (glob : string) (f : Filter) : filter_error + Filter :=
  each (addDirGlob inc) (globToDirGlobs glob) f.

(** [strings.HasSuffix(glob, "/")] *)
Definition ends_slash (glob : string) : bool :=
  match last (String.list_ascii_of_string glob) with Some c => Ascii.eqb c slash | None => false end.

Definition Add (inc : bool) (glob : string) (f : Filter) : filter_error + Filter :=
  let isDirRule := ends_slash glob in
  let isFileRule := negb isDirRule in
  let glob := if isDirRule && negb inc then glob +:+ "**" else glob in
  let '(isDirRule, isFileRule) := if Contains glob "**" then (true, true) else (isDirRule, isFileRule) in
  match GlobPathToRegexp glob (IgnoreCase (Opt f)) with
  | inl e => inl (EGlob e)
  | inr re =>
      andThen (if isFileRule then
                 let f := add_file_rule inc re f in
                 if inc || str_eqb glob "*" then addDirGlobs inc glob f else inr f
               else inr f)
        (fun f => inr (if isDirRule then add_dir_rule inc re f else f))
  end.

Definition Clear (f : Filter) : Filter := set_rules no_rules no_rules no_rules f.

Definition AddRule (rule : string) (f : Filter) : filter_error + Filter := addRule Add Clear rule f.

(** *** --files-from *)

Definition set_files (fs : option (gset string)) (ds : gset string) (f : Filter) : Filter :=
  mkFilter (Opt f) (ModTimeFrom f) (ModTimeTo f) (fileRules f) (dirRules f) (metaRules f) fs ds (hashFilterN f) (hashFilterK f).

Definition initAddFile (f : Filter) : Filter :=
  match files f with None => set_files (Some ∅) ∅ f | Some _ => f end.

(** The directories above a file; every turn shortens the path. *)
Fixpoint add_parents (fuel : nat) (file : string) (ds : gset string) : gset string :=
  match fuel with
  | O => ds
  | S fuel' =>
      let file := path_Dir file in
      if str_eqb file "." then ds
      else if bool_decide (file ∈ ds) then ds
      else add_parents fuel' file ({[ file ]} ∪ ds)
  end.

Definition AddFile (file : string) (f : Filter) : filter_error + Filter :=
  let f := initAddFile f in
  let file := trim_slashes file in
  inr (set_files (Some ({[ file ]} ∪ default ∅ (files f))) (add_parents (S (String.length file)) file (dirs f)) f).

(** *** --hash-filter *)

(** [strconv.ParseUint(s, 10, 64)] *)
Definition ParseUint (s : string) : option Z :=
  if str_eqb s "" then None
  else match digits_of 0 s with Some n => if n <? 2 ^ 64 then Some n else None | None => None end.

(** [strings.IndexRune(s, '/')] and the two parts. *)
Fixpoint cut_slash (s : string) : option (string * string) :=
  match s with
  | "" => None
  | String c s' =>
      if Ascii.eqb c slash then Some ("", s')
      else match cut_slash s' with Some (a, b) => Some (String c a, b) | None => None end
  end.

Definition parseHashFilter (hashFilter : string) : filter_error + Z * Z :=
  match cut_slash hashFilter with
  | None => inl EHashFilter
  | Some (kStr, nStr) =>
      match ParseUint nStr with
      | None => inl EHashFilter
      | Some n =>
          if n =? 0 then inl EHashFilter
          else if str_eqb kStr "@" then inr (random_below n, n)
          else match ParseUint kStr with None => inl EHashFilter | Some k => inr (k mod n, n) end
      end
  end.

(** *** Making a filter *)

Definition InActive (f : Filter) : bool :=
  bool_decide (files f = None) && bool_decide (ModTimeFrom f = None) && bool_decide (ModTimeTo f = None) &&
  (MinSize (Opt f) <? 0) && (MaxSize (Opt f) <? 0) &&
  (len_rules (fileRules f) =? 0)%nat && (len_rules (dirRules f) =? 0)%nat && (len_rules (metaRules f) =? 0)%nat &&
  bool_decide (ExcludeFile (Opt f) = []) && (hashFilterN f =? 0).

Definition add_meta (inc : bool) (glob : string) (f : Filter) : filter_error + Filter :=
  match meta_Add (metaRules f) inc glob with inl e => inl e | inr r => inr (set_rules (fileRules f) (dirRules f) r f) end.
Definition clear_meta (f : Filter) : Filter := set_rules (fileRules f) (dirRules f) no_rules f.

Definition files_from (inActive raw nul : bool) (file : string) (f : Filter) : filter_error + Filter :=
  if negb inActive then inl EFilesFrom else forEachLine file raw nul AddFile (initAddFile f).

Definition NewFilter (opt : Options) : filter_error + Filter :=
  let modTo := if MinAge opt =? DurationOff then None else Some (now1 - MinAge opt) in
  let modFrom := if MaxAge opt =? DurationOff then None else Some (now2 - MaxAge opt) in
  if match modFrom, modTo with Some a, Some b => b <? a | _, _ => false end then inl EAges
  else
    match (if str_eqb (HashFilter opt) "" then inr (0, 0) else parseHashFilter (HashFilter opt)) with
    | inl e => inl e
    | inr (k, n) =>
        let f := mkFilter opt modFrom modTo no_rules no_rules no_rules None ∅ n k in
        andThen (parseRules (opt_Rules opt) Add Clear f) (fun f =>
        andThen (parseRules (MetaRules opt) add_meta clear_meta f) (fun f =>
        let inActive := InActive f in
        andThen (each (files_from inActive false false) (FilesFrom opt) f) (fun f =>
        andThen (each (files_from inActive true false) (FilesFromRaw opt) f) (fun f =>
        each (files_from inActive true true) (FilesFrom0 opt) f))))
    end.

(** *** Decisions *)

Definition IncludeRemote (f : Filter) (remote : string) : bool :=
  match files f with
  | Some fs => bool_decide (remote ∈ fs)
  | None =>
      if negb (hashFilterN f =? 0) && negb (hash64 remote mod hashFilterN f =? hashFilterK f) then false
      else include (fileRules f) remote
  end.

Definition ListContainsExcludeFile (f : Filter) (entries : list DirEntry) : bool :=
  match ExcludeFile (Opt f) with
  | [] => false
  | _ => existsb (fun e => negb (is_dir e) && bool_decide (path_Base (Remote e) ∈ ExcludeFile (Opt f))) entries
  end.

Fixpoint any_exists (paths : list string) : filter_error + bool :=
  match paths with
  | [] => inr false
  | p :: paths => match file_exists p with None => inl EBackend | Some true => inr true | Some false => any_exists paths end
  end.

Definition DirContainsExcludeFile (f : Filter) (remote : string) : filter_error + bool :=
  any_exists (map (fun e => path_Join [remote; e]) (ExcludeFile (Opt f))).

Definition IncludeDirectory (f : Filter) (remote : string) : filter_error + bool :=
  let remote := trim_slashes remote in
  match DirContainsExcludeFile f remote with
  | inl e => inl e
  | inr true => inr false
  | inr false =>
      match files f with
      | Some _ => inr (bool_decide (remote ∈ dirs f))
      | None => inr (include (dirRules f) (remote +:+ "/"))
      end
  end.

(** The rules for metadata see all pairs at once. *)
Definition metadatas (metadata : gmap string string) : list string :=
  match map_to_list metadata with
  | [] => [String "000" (String "=" (String "000" ""))]
  | l => map (fun '(k, v) => k +:+ "=" +:+ v) l
  end.

Definition Include (f : Filter) (remote : string) (size : Z) (modTime : Z) (metadata : gmap string string) : bool :=
  match files f with
  | Some fs => bool_decide (remote ∈ fs)
  | None =>
      if match ModTimeFrom f with Some t => modTime <? t | None => false end then false
      else if match ModTimeTo f with Some t => modTime >? t | None => false end then false
      else if (MinSize (Opt f) >=? 0) && (size <? MinSize (Opt f)) then false
      else if (MaxSize (Opt f) >=? 0) && (size >? MaxSize (Opt f)) then false
      else if negb (len_rules (metaRules f) =? 0)%nat && negb (includeMany (metaRules f) (metadatas metadata)) then false
      else IncludeRemote f remote
  end.

(** [IncludeObject]: the time and the metadata of the object are asked for only where they are used; metadata that cannot be read is none. *)
Definition IncludeObject (f : Filter) (remote : string) (size : Z) (modTime : Z) (metadata : option (gmap string string)) : bool :=
  let modTime := if bool_decide (ModTimeFrom f <> None) || bool_decide (ModTimeTo f <> None) then modTime else 0 in
  let metadata := if negb (len_rules (metaRules f) =? 0)%nat then default ∅ metadata else ∅ in
  Include f remote size modTime metadata.

Definition HaveFilesFrom (f : Filter) : bool := bool_decide (files f <> None).

Definition UsesDirectoryFilters (f : Filter) : bool :=
  match rs (dirRules f) with
  | [] => false
  | r :: _ => negb (Include_ r && bool_decide (source (Regexp_ r) = str "^.*$"))
  end.
End env.

(** ** Rule lists *)

Fixpoint first (l : list rule) (m : rule -> bool) : option bool :=
  match l with
  | [] => None
  | r :: l => if m r then Some (Include_ r) else first l m
  end.

Lemma include_first l m : include_in l m = default true (first l m).
Proof. induction l as [|r l IH]; [done|]. cbn. by destruct (m r). Qed.

Lemma first_app l l' m : first (l ++ l') m = match first l m with Some b => Some b | None => first l' m end.
Proof. induction l as [|r l IH]; [done|]. cbn. by destruct (m r). Qed.

Lemma first_elem l m r : r ∈ l -> m r = true -> first l m <> None.
Proof. induction 1 as [r l|r s l _ IH]; cbn; intros Hm; [by rewrite Hm|]. destruct (m s); [done|auto]. Qed.

Section rule_lists.
Context {env : FilterEnv}.

(** The regexp is the one its source compiles to. *)
Definition compiled (re : regexp) : Prop := Compile (source re) = Some re.

Definition wf_rules (r : rules) : Prop :=
  Forall (fun r => compiled (Regexp_ r)) (rs r) /\ forall x, x ∈ existing r <-> x ∈ map rule_String (rs r).

Lemma wf_no_rules : wf_rules no_rules.
Proof. split; [constructor|]. intros x. set_solver. Qed.

Lemma GlobPathToRegexp_compiled g ic re : GlobPathToRegexp g ic = inr re -> compiled re.
Proof.
  unfold GlobPathToRegexp, globToRegexp, compiled. destruct (glob_text true true ic (runes g)) as [e|s]; [done|].
  destruct (Compile s) as [r|] eqn:E; [|done]. intros [= ->].
  assert (source re = s) as ->; [|done]. unfold Compile in E. destruct (parse s) as [[ci r]|]; [by injection E as <-|].
  destruct (outside s); [by injection E as <-|done].
Qed.

(** A rule that is there already makes no difference. *)
Lemma add_first r inc re p : wf_rules r -> compiled re ->
  wf_rules (add r inc re) /\
  first (rs (add r inc re)) (fun r => Match r p) =
    match first (rs r) (fun r => Match r p) with
    | Some b => Some b
    | None => if matcher re (runes p) then Some inc else None
    end.
Proof.
  intros [Hw He] Hre. unfold add. destruct (bool_decide _) eqn:E.
  - apply bool_decide_eq_true in E. split; [done|]. apply He in E. apply list_elem_of_fmap in E as (r' & E & Hr').
    unfold rule_String in E. cbn in E. injection E as -> Es. rewrite Forall_forall in Hw. pose proof (Hw _ Hr') as Hc. unfold compiled in Hc, Hre.
    rewrite <- Es, Hre in Hc. injection Hc as Hc. destruct (first (rs r) _) eqn:Ef; [done|].
    destruct (matcher re (runes p)) eqn:Em; [|done]. exfalso. eapply first_elem; [exact Hr'| |exact Ef]. unfold Match. by rewrite <- Hc.
  - apply bool_decide_eq_false in E. split.
    + split; [apply Forall_app; split; [done|by constructor]|]. intros x. cbn [rs existing]. rewrite elem_of_union, elem_of_singleton, He.
      rewrite map_app, elem_of_app. cbn [map]. rewrite list_elem_of_singleton. naive_solver.
    + cbn [rs]. rewrite first_app. destruct (first (rs r) _); [done|]. cbn [first]. unfold Match at 1. cbn. by destruct (matcher re (runes p)).
Qed.
End rule_lists.

(** ** All the ways to give rules *)

Section ways.
Context {env : FilterEnv}.

(** The rules of a file, as they are used. *)
Definition lines_of (path : string) : list string := filter (fun l => comment l = false) (map TrimSpace (fst (scan path false))).

(** The glob of a rule and whether it includes. *)
Definition ok_rule (ok : bool -> string -> Prop) (rule : string) : Prop :=
  match rule with
  | String c (String d glob) => if Ascii.eqb d " " then if Ascii.eqb c "-" then ok false glob else if Ascii.eqb c "+" then ok true glob else True else True
  | _ => True
  end.

Definition ok_rules (ok : bool -> string -> Prop) (opt : RulesOpt) : Prop :=
  Forall (ok true) (IncludeRule opt) /\ Forall (fun p => Forall (ok true) (lines_of p)) (IncludeFrom opt) /\
  Forall (ok false) (ExcludeRule opt) /\ Forall (fun p => Forall (ok false) (lines_of p)) (ExcludeFrom opt) /\
  Forall (ok_rule ok) (FilterRule opt) /\ Forall (fun p => Forall (ok_rule ok) (lines_of p)) (FilterFrom opt).

Section preserve.
Context {A : Type} (P : A -> Prop).

Definition keeps {B} (fn : B -> A -> filter_error + A) (b : B) : Prop := forall f f', P f -> fn b f = inr f' -> P f'.

Lemma each_keeps {B} (fn : B -> A -> filter_error + A) l f f' : Forall (keeps fn) l -> P f -> each fn l f = inr f' -> P f'.
Proof.
  intros Hl. revert f. induction Hl as [|b l Hb _ IH]; intros f Hf; cbn [each]; [by intros [= <-]|].
  destruct (fn b f) as [e|f1] eqn:E; [done|]. apply IH. by eapply Hb.
Qed.

Lemma forEachLine_keeps fn path : Forall (keeps fn) (lines_of path) -> keeps (fun p => forEachLine p false false fn) path.
Proof.
  intros Hl f f' Hf. unfold forEachLine. unfold lines_of in Hl. destruct (scan path false) as [lines err]. cbn [fst] in Hl.
  assert (forall f f', P f -> each_line false fn lines f = inr f' -> P f') as H.
  { clear f f' Hf. induction lines as [|l lines IH]; intros f f' Hf; cbn [each_line map]; [by intros [= <-]|].
    cbn [map filter negb andb] in *. destruct (comment (TrimSpace l)) eqn:Ec.
    - rewrite filter_cons_False in Hl by congruence. by apply IH.
    - rewrite filter_cons_True in Hl by done. inversion Hl as [|? ? Hh Ht]; subst. destruct (fn (TrimSpace l) f) as [e|f1] eqn:E; [done|].
      apply IH; [done|]. by eapply Hh. }
  destruct (each_line false fn lines f) as [e|f1] eqn:E; [done|]. destruct err; [done|]. intros [= <-]. by eapply H.
Qed.

Lemma andThen_keeps r k f' : (forall f, r = inr f -> P f) -> (forall f f', P f -> k f = inr f' -> P f') -> andThen r k = inr f' -> P f'.
Proof. intros Hr Hk. destruct r as [e|f]; cbn; [done|]. apply Hk. by apply Hr. Qed.

Context (ok : bool -> string -> Prop) (addFn : bool -> string -> A -> filter_error + A) (clearFn : A -> A).
Context (HAdd : forall inc g, ok inc g -> keeps (addFn inc) g) (HClear : forall f, P f -> P (clearFn f)) (Hall : ok false "/**").

Lemma addRule_keeps rule : ok_rule ok rule -> keeps (addRule addFn clearFn) rule.
Proof.
  intros Hok f f' Hf. unfold addRule. destruct rule as [|c [|d glob]]; [done|..].
  - destruct c as [[|] [|] [|] [|] [|] [|] [|] [|]]; try done. intros [= <-]. by apply HClear.
  - cbn [ok_rule] in Hok.
    assert ((if Ascii.eqb d " " then if Ascii.eqb c "-" then addFn false glob f else if Ascii.eqb c "+" then addFn true glob f
              else inl (EMalformed (String c (String d glob))) else inl (EMalformed (String c (String d glob)))) = inr f' -> P f') as H.
    { destruct (Ascii.eqb d " "); [|done]. destruct (Ascii.eqb c "-"); [by apply HAdd|]. destruct (Ascii.eqb c "+"); [by apply HAdd|done]. }
    destruct c as [[|] [|] [|] [|] [|] [|] [|] [|]]; exact H.
Qed.

Lemma parseRules_keeps opt f f' : ok_rules ok opt -> P f -> parseRules opt addFn clearFn f = inr f' -> P f'.
Proof.
  intros (H1 & H2 & H3 & H4 & H5 & H6) Hf. unfold parseRules.
  assert (forall inc gs, Forall (ok inc) gs -> Forall (keeps (addFn inc)) gs) as Hg.
  { intros inc gs H. eapply Forall_impl; [exact H|]. intros g. apply HAdd. }
  apply andThen_keeps; [intros f1; apply each_keeps; [by apply Hg|done]|]. clear f Hf. intros f f'' Hf.
  apply andThen_keeps; [intros f1; apply (each_keeps (fun p => forEachLine p false false (addFn true))); [|done];
    eapply Forall_impl; [exact H2|]; intros p Hp; apply forEachLine_keeps; by apply Hg|]. clear f f'' Hf. intros f f'' Hf.
  apply andThen_keeps; [intros f1; apply each_keeps; [by apply Hg|done]|]. clear f f'' Hf. intros f f'' Hf.
  apply andThen_keeps; [intros f1; apply (each_keeps (fun p => forEachLine p false false (addFn false))); [|done];
    eapply Forall_impl; [exact H4|]; intros p Hp; apply forEachLine_keeps; by apply Hg|]. clear f f'' Hf. intros f f'' Hf.
  apply andThen_keeps; [intros f1; apply each_keeps; [|done]; eapply Forall_impl; [exact H5|]; intros p; apply addRule_keeps|]. clear f f'' Hf. intros f f'' Hf.
  apply andThen_keeps; [intros f1; apply (each_keeps (fun p => forEachLine p false false (addRule addFn clearFn))); [|done];
    eapply Forall_impl; [exact H6|]; intros p Hp; apply forEachLine_keeps; eapply Forall_impl; [exact Hp|]; intros l; apply addRule_keeps|].
  clear f f'' Hf. intros f f'' Hf. destruct (bool_decide _); [|by intros [= <-]]. by apply HAdd.
Qed.
End preserve.

Lemma all_ok opt : ok_rules (fun _ _ => True) opt.
Proof.
  assert (forall rule, ok_rule (fun _ _ => True) rule) as Hr.
  { intros [|c [|d glob]]; [done|done|]. cbn. by repeat case_match. }
  split_and!; repeat (apply Forall_forall; intros); auto.
Qed.
End ways.

(** ** The directory rules never hide what the file rules include *)

Section hide.
Context {env : FilterEnv} (no_case_slash : forall d, fold_case d = fold_case 47 -> d = 47).

Lemma slash_alone ci d : same_char ci 47 d = true <-> d = 47.
Proof. unfold same_char. destruct ci; rewrite Z.eqb_eq; split; intros H; subst; auto. Qed.

Lemma slash_alone' ci c : same_char ci c 47 = true -> c = 47.
Proof. unfold same_char. destruct ci; rewrite Z.eqb_eq; auto. Qed.

(** A file, and one of the directories above it. *)
Context (dir rest : string) (Hclean : clean (runes (dir +:+ "/" +:+ rest))).

Abbreviation file := (dir +:+ "/" +:+ rest).
Abbreviation above := (dir +:+ "/").

Lemma file_runes : runes file = runes dir ++ 47 :: runes rest.
Proof. change ("/" +:+ rest) with (String "/" rest). by rewrite runes_ascii by (vm_compute; lia). Qed.

Lemma above_runes : runes above = runes dir ++ [47].
Proof. change (dir +:+ "/") with (dir +:+ String "/" ""). by rewrite runes_ascii by (vm_compute; lia). Qed.

Definition of_file (f : Filter) : option bool := first (rs (fileRules f)) (fun r => Match r file).
Definition of_dir (f : Filter) : option bool := first (rs (dirRules f)) (fun r => Match r above).

Definition Inv (f : Filter) : Prop :=
  wf_rules (fileRules f) /\ wf_rules (dirRules f) /\
  (of_file f = Some true -> of_dir f = Some true) /\ (of_dir f = Some false -> of_file f = Some false).

(** The globs of which the directories can be told. *)
Definition ok_glob (inc : bool) (glob : string) : Prop :=
  simple (runes glob) /\
  if inc then findable glob \/ (ends_slash glob = true /\ Contains glob "**" = false)
  else ends_slash glob = true \/ Contains glob "**" = false \/ definite glob.

Lemma addDirGlob_spec inc g f f' : wf_rules (dirRules f) -> addDirGlob inc g f = inr f' ->
  Opt f' = Opt f /\ fileRules f' = fileRules f /\ wf_rules (dirRules f') /\
  of_dir f' = match of_dir f with
              | Some b => Some b
              | None => match GlobPathToRegexp g (IgnoreCase (Opt f)) with
                        | inr re => if negb (str_eqb g "/") && matcher re (runes above) then Some inc else None
                        | inl _ => None
                        end
              end.
Proof.
  intros Hw. unfold addDirGlob. destruct (str_eqb g "/") eqn:E.
  - intros [= <-]. split_and!; [done|done|done|]. destruct (of_dir f); [done|]. by destruct (GlobPathToRegexp _ _).
  - destruct (GlobPathToRegexp g _) as [e|re] eqn:Eg; [done|]. intros [= <-].
    destruct (add_first (dirRules f) inc re above Hw) as [Hw' Hf]; [by eapply GlobPathToRegexp_compiled|].
    split_and!; [done|done|done|]. unfold of_dir. cbn [dirRules add_dir_rule set_rules]. rewrite Hf. done.
Qed.

Lemma addDirGlobs_spec inc gs f f' : wf_rules (dirRules f) -> each (addDirGlob inc) gs f = inr f' ->
  Opt f' = Opt f /\ fileRules f' = fileRules f /\ wf_rules (dirRules f') /\
  (forall b, of_dir f = Some b -> of_dir f' = Some b) /\
  (of_dir f = None -> of_dir f' = None \/ of_dir f' = Some inc) /\
  (forall g re, of_dir f = None -> g ∈ gs -> g <> "/" -> GlobPathToRegexp g (IgnoreCase (Opt f)) = inr re -> matcher re (runes above) = true -> of_dir f' = Some inc) /\
  (of_dir f' = Some inc -> of_dir f = None -> exists g re, (g ∈ gs) /\ GlobPathToRegexp g (IgnoreCase (Opt f)) = inr re /\ matcher re (runes above) = true).
Proof.
  revert f. induction gs as [|g gs IH]; intros f Hw; cbn [each].
  - intros [= <-]. split_and!; [done..|auto| |by intros ->]. intros g re _ Hin. by apply not_elem_of_nil in Hin.
  - destruct (addDirGlob inc g f) as [e|f1] eqn:E1; [done|]. intros E2.
    destruct (addDirGlob_spec inc g f f1 Hw E1) as (Ho & Hfr & Hw1 & Hd). destruct (IH f1 Hw1 E2) as (Ho2 & Hfr2 & Hw2 & Hkeep & Hnew & Hcov & Hwhy).
    rewrite Ho in *. split_and!; [done|by rewrite Hfr2|done| | | |].
    + intros b Hb. apply Hkeep. by rewrite Hd, Hb.
    + intros Hn. rewrite Hn in Hd. destruct (GlobPathToRegexp g _) as [e|re]; [auto|]. destruct (_ && _); [right; by apply Hkeep|auto].
    + intros g' re Hn [->|Hin]%elem_of_cons Hne Hre Hm.
      * apply Hkeep. rewrite Hd, Hn, Hre, Hm. apply str_eqb_neq in Hne. by rewrite Hne.
      * rewrite Hn in Hd. destruct (GlobPathToRegexp g _) as [e|re'] eqn:Eg; [by eapply Hcov|]. destruct (_ && _); [by apply Hkeep|by eapply Hcov].
    + intros Hi Hn. rewrite Hn in Hd. destruct (GlobPathToRegexp g _) as [e|re'] eqn:Eg.
      * destruct (Hwhy Hi Hd) as (g' & re & Hin & ? & ?). exists g', re. split_and!; [by right|done|done].
      * destruct (negb _ && matcher re' (runes above)) eqn:Eb; [|destruct (Hwhy Hi Hd) as (g' & re & Hin & ? & ?); exists g', re; by split_and!; [right|..]].
        apply andb_true_iff in Eb as [_ Em]. exists g, re'. split_and!; [by left|done|done].
Qed.
Definition then_new (old : option bool) (new : option bool) : option bool := match old with Some b => Some b | None => new end.

Lemma add_file_rule_spec inc re f : wf_rules (fileRules f) -> compiled re ->
  wf_rules (fileRules (add_file_rule inc re f)) /\
  of_file (add_file_rule inc re f) = then_new (of_file f) (if matcher re (runes file) then Some inc else None).
Proof. intros Hw Hre. destruct (add_first (fileRules f) inc re file Hw Hre) as [H1 H2]. by split. Qed.

Lemma add_dir_rule_spec inc re f : wf_rules (dirRules f) -> compiled re ->
  wf_rules (dirRules (add_dir_rule inc re f)) /\
  of_dir (add_dir_rule inc re f) = then_new (of_dir f) (if matcher re (runes above) then Some inc else None).
Proof. intros Hw Hre. destruct (add_first (dirRules f) inc re above Hw Hre) as [H1 H2]. by split. Qed.

Lemma of_file_ext f f' : fileRules f' = fileRules f -> of_file f' = of_file f.
Proof. unfold of_file. by intros ->. Qed.

Lemma Add_include glob f f' : ok_glob true glob -> Inv f -> Add true glob f = inr f' -> Inv f' /\ Opt f' = Opt f.
Proof.
  intros [Hs Hok] (Hwf & Hwd & HI1 & HI2). unfold Add. rewrite andb_false_r. cbn [negb orb].
  destruct (if Contains glob "**" then (true, true) else _) as [isDir isFile] eqn:Ek.
  destruct (GlobPathToRegexp glob _) as [e|re] eqn:Eg; [done|].
  pose proof (GlobPathToRegexp_compiled _ _ _ Eg) as Hre. intros HAdd.
  assert (exists f2, Opt f2 = Opt f /\ wf_rules (fileRules f2) /\ wf_rules (dirRules f2) /\
    of_file f2 = then_new (of_file f) (if isFile && matcher re (runes file) then Some true else None) /\
    (forall b, of_dir f = Some b -> of_dir f2 = Some b) /\ (of_dir f = None -> of_dir f2 <> Some false) /\
    (of_dir f = None -> isFile = true -> matcher re (runes file) = true -> of_dir f2 = Some true) /\
    f' = if isDir then add_dir_rule true re f2 else f2) as H.
  2: { destruct H as (f2 & Ho & Hw2 & Hd2 & Hfile & Hkeep & Hnew & Hcov & ->).
       assert (exists f3, f3 = (if isDir then add_dir_rule true re f2 else f2) /\ Opt f3 = Opt f /\ fileRules f3 = fileRules f2 /\ wf_rules (dirRules f3) /\
         (forall b, of_dir f2 = Some b -> of_dir f3 = Some b) /\ (of_dir f2 = None -> of_dir f3 <> Some false)) as (f3 & <- & Ho3 & Hf3 & Hd3 & Hk3 & Hn3).
       { destruct isDir; [|exists f2; split_and!; auto; congruence]. destruct (add_dir_rule_spec true re f2 Hd2 Hre) as [Hw3 Hd].
         eexists. split_and!; [done|done|done|done|intros b Hb; by rewrite Hd, Hb|]. intros Hn. rewrite Hd, Hn. unfold then_new. destruct (matcher re (runes above)); congruence. }
       split; [|done]. unfold Inv. rewrite (of_file_ext _ _ Hf3), Hf3, Hfile. split_and!; [done|done| |].
       - intros HF. apply Hk3. destruct (of_file f) as [b|] eqn:EF; cbn in HF.
         + injection HF as ->. apply Hkeep, HI1. done.
         + destruct isFile; [|done]. destruct (matcher re (runes file)) eqn:Em; [|done]. destruct (of_dir f) as [[|]|] eqn:ED; [by apply Hkeep|by specialize (HI2 eq_refl)|by apply Hcov].
       - intros HG. destruct (of_dir f) as [[|]|] eqn:ED.
         + by rewrite (Hk3 true (Hkeep true eq_refl)) in HG.
         + by rewrite (HI2 eq_refl).
         + exfalso. destruct (of_dir f2) as [[|]|] eqn:ED2; [by rewrite (Hk3 true eq_refl) in HG|by apply Hnew|by apply Hn3]. }
  destruct isFile.
  - destruct (add_file_rule_spec true re f Hwf Hre) as [Hw1 Hf1]. unfold addDirGlobs in HAdd.
    destruct (each (addDirGlob true) (globToDirGlobs glob) (add_file_rule true re f)) as [e|f2] eqn:Ee; [done|]. injection HAdd as <-.
    destruct (addDirGlobs_spec true _ _ _ (Hwd : wf_rules (dirRules (add_file_rule true re f))) Ee) as (Ho & Hfr & Hw2 & Hkeep & Hnew & Hcov & _).
    change (of_dir (add_file_rule true re f)) with (of_dir f) in *. change (Opt (add_file_rule true re f)) with (Opt f) in *.
    exists f2. split_and!; [done|by rewrite Hfr|done| |done| | |done].
    + rewrite (of_file_ext _ _ Hfr), Hf1. done.
    + intros Hn. destruct (Hnew Hn) as [-> | ->]; done.
    + intros Hn _ Hm. rewrite file_runes in Hm. pose proof Hclean as Hcl. rewrite file_runes in Hcl.
      assert (findable glob) as Hfind.
      { destruct Hok as [?|[Hes Hct]]; [done|]. rewrite Hct, Hes in Ek. by injection Ek. }
      destruct (dirs_cover (IgnoreCase (Opt f)) (slash_alone _) (slash_alone' _) glob re _ _ Hs Hfind Eg Hcl Hm) as (g' & Hin & Hne & r' & Hr' & Hm').
      eapply Hcov; [done|exact Hin|done|exact Hr'|]. by rewrite above_runes.
  - injection HAdd as <-. exists f. split_and!; [done|done|done| |done|congruence|done|done]. by destruct (of_file f).
Qed.

Lemma Add_exclude glob f f' : ok_glob false glob -> Inv f -> Add false glob f = inr f' -> Inv f' /\ Opt f' = Opt f.
Proof.
  intros [Hs Hok] (Hwf & Hwd & HI1 & HI2). unfold Add. rewrite andb_true_r. cbn [negb orb].
  set (g := if ends_slash glob then glob +:+ "**" else glob).
  assert (simple (runes g)) as Hsg.
  { unfold g. destruct (ends_slash glob); [|done]. change (glob +:+ "**") with (glob +:+ String "*" (String "*" "")).
    rewrite runes_ascii, runes_cons by (vm_compute; lia). apply Forall_app. split; [done|]. by repeat constructor. }
  assert ((if Contains g "**" then (true, true) else (ends_slash glob, negb (ends_slash glob))) = (Contains g "**", true) /\ (Contains g "**" = true -> definite g)) as [-> Hdef].
  { unfold g. destruct (ends_slash glob) eqn:Ee.
    - assert (Contains (glob +:+ "**") "**" = true) as ->.
      { unfold Contains. pose proof (LastIndex_max glob "**" "" ltac:(done)) as Hm. change ("**" +:+ "") with "**" in Hm. lia. }
      split; [done|]. intros _. left. by exists glob.
    - split; [by destruct (Contains glob "**")|]. intros Hc. destruct Hok as [?|[?|?]]; [congruence..|done]. }
  destruct (GlobPathToRegexp g _) as [e|re] eqn:Eg; [done|].
  pose proof (GlobPathToRegexp_compiled _ _ _ Eg) as Hre. intros HAdd.
  destruct (add_file_rule_spec false re f Hwf Hre) as [Hw1 Hf1].
  assert (exists f2, Opt f2 = Opt f /\ fileRules f2 = fileRules (add_file_rule false re f) /\ wf_rules (dirRules f2) /\
    (forall b, of_dir f = Some b -> of_dir f2 = Some b) /\ (of_dir f = None -> of_dir f2 = None \/ of_dir f2 = Some false /\ matcher re (runes file) = true) /\
    f' = if Contains g "**" then add_dir_rule false re f2 else f2) as (f2 & Ho2 & Hfr2 & Hd2 & Hk2 & Hn2 & ->).
  { destruct (str_eqb g "*") eqn:Estar.
    - apply str_eqb_eq in Estar. rewrite Estar in *. unfold addDirGlobs in HAdd.
      destruct (each (addDirGlob false) (globToDirGlobs "*") (add_file_rule false re f)) as [e|f2] eqn:Ee; [done|]. injection HAdd as <-.
      destruct (addDirGlobs_spec false _ _ _ (Hwd : wf_rules (dirRules (add_file_rule false re f))) Ee) as (Ho & Hfr & Hw2 & Hkeep & Hnew & _).
      exists f2. split_and!; [done|done|done|done| |done]. intros Hn. destruct (Hnew Hn) as [Hx|Hx]; [by left|right]. split; [done|].
      destruct (glob_compiles_to _ "*" re Hsg Eg) as (anchored & ts & Ht & Hm). vm_compute in Ht. injection Ht as <- <-. rewrite Hm. apply star_matches_all.
    - injection HAdd as <-. exists (add_file_rule false re f). split_and!; [done|done|done|done|by left|done]. }
  assert (of_file f2 = then_new (of_file f) (if matcher re (runes file) then Some false else None)) as HF2 by (by rewrite (of_file_ext _ _ Hfr2)).
  assert (exists f3, f3 = (if Contains g "**" then add_dir_rule false re f2 else f2) /\ Opt f3 = Opt f /\ fileRules f3 = fileRules f2 /\ wf_rules (dirRules f3) /\
    (forall b, of_dir f2 = Some b -> of_dir f3 = Some b) /\ (of_dir f2 = None -> of_dir f3 = None \/ of_dir f3 = Some false /\ matcher re (runes file) = true))
    as (f3 & <- & Ho3 & Hf3 & Hd3 & Hk3 & Hn3).
  { destruct (Contains g "**") eqn:Ec; [|exists f2; split_and!; auto; congruence]. destruct (add_dir_rule_spec false re f2 Hd2 Hre) as [Hw3 Hd].
    eexists. split_and!; [done|done|done|done|intros b Hb; by rewrite Hd, Hb|]. intros Hn. rewrite Hd, Hn. cbn.
    destruct (matcher re (runes above)) eqn:Em; [right|by left]. split; [done|]. rewrite above_runes in Em. rewrite file_runes.
    eapply dir_excludes_file; [apply slash_alone|apply slash_alone'|exact Hsg|by apply Hdef|exact Eg| |exact Em].
    destruct Hclean as (_ & Hnl & _). rewrite file_runes in Hnl. intros Hin. apply Hnl, elem_of_app. right. by right. }
  split; [|done]. unfold Inv. rewrite (of_file_ext _ _ Hf3), Hf3, HF2. split_and!; [by rewrite Hfr2|done| |].
  - intros HF. apply Hk3, Hk2, HI1. destruct (of_file f) as [b|]; cbn in HF; [done|]. by destruct (matcher re (runes file)).
  - intros HG. assert (of_file f <> Some true -> matcher re (runes file) = true -> then_new (of_file f) (if matcher re (runes file) then Some false else None) = Some false) as Hgoal.
    { intros Hne ->. by destruct (of_file f) as [[|]|]. }
    destruct (of_dir f) as [[|]|] eqn:ED.
    + by rewrite (Hk3 true (Hk2 true eq_refl)) in HG.
    + by rewrite (HI2 eq_refl).
    + assert (of_file f <> Some true) as Hne by (intros Ht; specialize (HI1 Ht); congruence).
      destruct (Hn2 eq_refl) as [Hx|[Hx Hm]]; [|by apply Hgoal]. destruct (Hn3 Hx) as [?|[_ Hm]]; [congruence|by apply Hgoal].
Qed.

Lemma Inv_Add inc g : ok_glob inc g -> keeps Inv (Add inc) g.
Proof. intros Hok f f' HI HA. destruct inc; [by eapply Add_include|by eapply Add_exclude]. Qed.

Lemma Inv_Clear f : Inv f -> Inv (Clear f).
Proof. intros _. split_and!; [apply wf_no_rules|apply wf_no_rules|done|done]. Qed.

Lemma Inv_included f : Inv f -> include (fileRules f) file = true -> include (dirRules f) above = true.
Proof.
  intros (_ & _ & H1 & H2). unfold include. rewrite !include_first. fold (of_file f) (of_dir f).
  destruct (of_file f) as [[|]|]; cbn; [by rewrite H1|done|]. intros _. destruct (of_dir f) as [[|]|]; [done|by specialize (H2 eq_refl)|done].
Qed.


Lemma meta_keeps opt f f' : parseRules opt add_meta clear_meta f = inr f' ->
  fileRules f' = fileRules f /\ dirRules f' = dirRules f /\ files f' = files f /\ Opt f' = Opt f.
Proof.
  apply (parseRules_keeps (fun f' => fileRules f' = fileRules f /\ dirRules f' = dirRules f /\ files f' = files f /\ Opt f' = Opt f) (fun _ _ => True));
    [|done|done|apply all_ok|done].
  intros inc g _ f1 f2 H. unfold add_meta. destruct (meta_Add _ _ _); [done|]. by intros [= <-].
Qed.

Lemma Add_parts inc g f f' : Add inc g f = inr f' -> Opt f' = Opt f /\ files f' = files f.
Proof.
  unfold Add. destruct (if Contains _ _ then _ else _) as [isDir isFile]. destruct (GlobPathToRegexp _ _) as [e|re]; [done|].
  assert (forall gs f f', each (addDirGlob inc) gs f = inr f' -> Opt f' = Opt f /\ files f' = files f) as H.
  { intros gs. induction gs as [|x gs IH]; intros f0 f1; cbn [each]; [by intros [= <-]|]. unfold addDirGlob at 1.
    destruct (str_eqb x "/"); [apply IH|]. destruct (GlobPathToRegexp x _); [done|]. intros Hx. apply IH in Hx. exact Hx. }
  destruct isFile; cbn [andThen].
  - destruct (inc || _).
    + unfold addDirGlobs. destruct (each _ _ _) as [e|f2] eqn:E; [done|]. cbn [andThen]. apply H in E as [Ho Hfl]. intros [= <-]. destruct isDir; by rewrite <- ?Ho, <- ?Hfl.
    + cbn [andThen]. intros [= <-]. by destruct isDir.
  - intros [= <-]. by destruct isDir.
Qed.

End hide.

(** ** --files-from *)

Lemma trim_front_id l : match l with c :: _ => Ascii.eqb c slash = false | [] => True end -> trim_front l = l.
Proof. destruct l as [|c l]; [done|]. cbn. by intros ->. Qed.

Lemma trim_slashes_id s : is_rooted s = false -> ends_slash s = false -> trim_slashes s = s.
Proof.
  intros Hr He. unfold trim_slashes. rewrite (trim_front_id (String.list_ascii_of_string s)) by (by destruct s).
  rewrite trim_front_id.
  - by rewrite reverse_involutive, String.string_of_list_ascii_of_string.
  - unfold ends_slash in He. destruct (reverse (String.list_ascii_of_string s)) as [|c l] eqn:E; [done|].
    apply (f_equal reverse) in E. rewrite reverse_involutive, reverse_cons in E. by rewrite E, last_snoc in He.
Qed.

Lemma ends_slash_app a b : b <> "" -> ends_slash (a +:+ b) = ends_slash b.
Proof.
  intros Hb. unfold ends_slash. rewrite list_ascii_app. destruct b as [|c b]; [done|]. cbn [String.list_ascii_of_string].
  destruct (exists_last (l := c :: String.list_ascii_of_string b) ltac:(done)) as (l & x & ->). by rewrite app_assoc, !last_snoc.
Qed.

Lemma good_not_slash p : good p -> ends_slash p = false.
Proof.
  intros (Hne & _ & _ & Hs). unfold ends_slash. clear Hne. induction p as [|c p IH]; [done|]. cbn [has_char] in Hs. apply orb_false_iff in Hs as [Hc Hs].
  cbn [String.list_ascii_of_string]. destruct (String.list_ascii_of_string p) as [|d l] eqn:E; [by cbn|]. by apply IH.
Qed.

Lemma trim_good parts : Forall good parts -> trim_slashes (join_with "/" parts) = join_with "/" parts.
Proof.
  intros Hg. apply trim_slashes_id; [by apply join_good_not_rooted|]. destruct parts as [|p ps] using rev_ind; [done|].
  apply Forall_app in Hg as [_ Hp]. inversion Hp as [|? ? Hp' _]; subst. rewrite join_snoc, ends_slash_app by apply Hp'. by apply good_not_slash.
Qed.

(** [path.Dir] of a clean path. *)
Lemma path_Dir_good ps p : Forall good (ps ++ [p]) ->
  path_Dir (join_with "/" (ps ++ [p])) = match ps with [] => "." | _ => join_with "/" ps end.
Proof.
  intros Hg. apply Forall_app in Hg as [Hps Hp]. inversion Hp; subst. pose proof (parentDir_join ps p) as H. unfold parentDir in H.
  destruct (str_eqb (path_Dir (join_with "/" (ps ++ [p]))) ".") eqn:E.
  - apply str_eqb_eq in E. destruct ps as [|q qs]; [done|]. exfalso. symmetry in H; [|done..]. by apply (join_good_nonempty (q :: qs)) in H.
  - destruct ps as [|q qs]; [|by apply H]. cbn [app join_with] in *. rewrite H in E by done. exfalso. revert E. unfold path_Dir in H.
    assert (path_Clean (fst (path_Split p)) <> "") as Hne by (unfold path_Clean; destruct (is_rooted _); [done|]; destruct (str_eqb _ "") eqn:E'; [done|by apply str_eqb_neq in E']).
    by rewrite H in Hne by done.
Qed.

(** A directory that is strictly above a path. *)
Definition strictly_above (ps parts : list string) : Prop := ps <> [] /\ exists qs, qs <> [] /\ parts = ps ++ qs.

Lemma strictly_above_snoc ps parts p : strictly_above ps (parts ++ [p]) <-> strictly_above ps parts \/ (ps = parts /\ parts <> []).
Proof.
  unfold strictly_above. split.
  - intros (Hne & qs & Hq & E). destruct qs as [|x qs] using rev_ind; [done|]. rewrite app_assoc in E. apply app_inj_tail in E as [E _].
    destruct qs as [|y qs]; [right; rewrite app_nil_r in E; by subst|left]. split; [done|]. by exists (y :: qs).
  - intros [(Hne & qs & Hq & ->) | [-> Hne]]; (split; [done|]); [exists (qs ++ [p])|exists [p]; done]. split; [by destruct qs|by rewrite app_assoc].
Qed.

(** The directories are those above a file, and all that are above one of them. *)
Definition closed (ds : gset string) : Prop :=
  forall ps qs, Forall good ps -> join_with "/" ps ∈ ds -> strictly_above qs ps -> join_with "/" qs ∈ ds.

Lemma add_parents_spec parts fuel ds : Forall good parts -> (length parts <= fuel)%nat ->
  (forall ps qs, strictly_above ps parts -> join_with "/" ps ∈ ds -> strictly_above qs ps -> join_with "/" qs ∈ ds) ->
  forall x, x ∈ add_parents fuel (join_with "/" parts) ds <-> x ∈ ds \/ exists ps, strictly_above ps parts /\ x = join_with "/" ps.
Proof.
  revert fuel ds. induction parts as [|p parts IH] using rev_ind; intros fuel ds Hg Hf Hcl x.
  - assert (path_Dir (join_with "/" []) = ".") as E by reflexivity. split; [|intros [H|(ps & (Hne & qs & _ & Hq) & _)]].
    + destruct fuel; cbn [add_parents]; [by left|]. rewrite E. by left.
    + destruct fuel; cbn [add_parents]; [done|]. by rewrite E.
    + symmetry in Hq. by apply app_eq_nil in Hq as [-> _].
  - rewrite length_app in Hf. cbn in Hf. destruct fuel as [|fuel]; [lia|]. cbn [add_parents]. rewrite path_Dir_good by done.
    setoid_rewrite strictly_above_snoc in Hcl. setoid_rewrite strictly_above_snoc. apply Forall_app in Hg as [Hg Hp].
    destruct parts as [|q qs].
    + change (str_eqb "." ".") with true. cbn iota. split; [by left|]. intros [H|(ps & [(Hne & l & _ & Hq) | [_ ?]] & _)]; [done| |done].
      symmetry in Hq. by apply app_eq_nil in Hq as [-> _].
    + set (parts := q :: qs) in *. assert (str_eqb (join_with "/" parts) "." = false) as ->.
      { apply str_eqb_neq. intros E. assert (Forall good ["."] -> parts = ["."]) as _ by (intros; by apply join_inj). clear -E Hg.
        destruct parts as [|a [|b l]]; [done|cbn in E; subst; inversion Hg as [|? ? (_ & ? & _) _]; done|].
        inversion Hg as [|? ? Ha Hl]; subst. inversion Hl as [|? ? Hb _]; subst. destruct Ha as (Ha & _). destruct a as [|c a]; [done|].
        change (join_with "/" (String c a :: b :: l)) with (String c (a +:+ "/" +:+ join_with "/" (b :: l))) in E. injection E as _ E. by destruct a. }
      destruct (bool_decide_reflect (join_with "/" parts ∈ ds)) as [Hin|Hnin].
      * split; [by left|]. intros [H|(ps & [Hab | [-> _]] & ->)]; [done| |done]. eapply Hcl; [|exact Hin|exact Hab]. by right.
      * rewrite IH; [|done|lia|].
        -- rewrite elem_of_union, elem_of_singleton. split.
           ++ intros [[-> | H]|(ps & Hab & ->)]; [right; exists parts; split; [by right|done]|by left|right; exists ps; split; [by left|done]].
           ++ intros [H|(ps & [Hab | [-> _]] & ->)]; [left; by right|right; by exists ps|left; by left].
        -- intros ps qs' Hab Hin Hab'. apply elem_of_union in Hin as [Hin|Hin]; [|apply elem_of_union; right; eapply Hcl; [by left|done|done]].
           exfalso. apply elem_of_singleton in Hin. destruct Hab as (_ & l & Hl & E).
           assert (ps = parts) as ->; [|rewrite <- (app_nil_r parts) in E at 1; apply app_inv_head in E; by subst].
           apply join_inj; [by rewrite E in Hg; apply Forall_app in Hg as [? _]|done|done].
Qed.

Section files_from.
Context {env : FilterEnv}.

(** The files that were given so far. *)
Definition lists (l : list (list string)) (f : Filter) : Prop :=
  Forall (fun parts => Forall good parts) l /\
  exists fs, files f = Some fs /\ (forall x, x ∈ fs <-> exists parts, (parts ∈ l) /\ x = join_with "/" parts) /\
    forall x, x ∈ dirs f <-> exists ps file, (file ∈ l) /\ strictly_above ps file /\ x = join_with "/" ps.

Lemma strictly_above_trans qs ps parts : strictly_above qs ps -> strictly_above ps parts -> strictly_above qs parts.
Proof.
  intros (Hne & l & Hl & ->) (_ & l' & Hl' & ->). split; [done|]. exists (l ++ l'). split; [by destruct l|by rewrite app_assoc].
Qed.

Lemma strictly_above_good ps parts : strictly_above ps parts -> Forall good parts -> Forall good ps.
Proof. intros (_ & l & _ & ->). rewrite Forall_app. naive_solver. Qed.

Lemma AddFile_lists l f f' parts : lists l f -> Forall good parts -> AddFile (join_with "/" parts) f = inr f' -> lists (l ++ [parts]) f' /\ Opt f' = Opt f.
Proof.
  intros (Hl & fs & Hfs & HF & HD) Hg. unfold AddFile, initAddFile. rewrite Hfs, trim_good by done.
  set (D := add_parents _ _ _). intros [= <-]. split; [|done].
  split; [apply Forall_app; split; [done|by constructor]|]. cbn [files set_files dirs]. eexists. rewrite Hfs. split; [reflexivity|]. split.
  - intros x. cbn [default id]. rewrite elem_of_union, elem_of_singleton, HF. setoid_rewrite elem_of_app. setoid_rewrite list_elem_of_singleton. naive_solver.
  - intros x. unfold D. rewrite add_parents_spec; [|done| |].
    + rewrite HD. setoid_rewrite elem_of_app. setoid_rewrite list_elem_of_singleton. naive_solver.
    + pose proof (join_length parts Hg). lia.
    + intros ps qs Hps Hin Hqs. apply HD in Hin as (ps' & file & Hfile & Hab & E). apply HD. exists qs, file. split_and!; [done| |done].
      assert (ps = ps') as <-; [|by eapply strictly_above_trans].
      rewrite Forall_forall in Hl. apply join_inj; [by eapply strictly_above_good|eapply strictly_above_good; [exact Hab|by apply Hl]|done].
Qed.

Lemma each_AddFile_lists ls l f f' : lists l f -> Forall (fun parts => Forall good parts) ls ->
  each AddFile (map (join_with "/") ls) f = inr f' -> lists (l ++ ls) f' /\ Opt f' = Opt f.
Proof.
  intros Hl Hg. revert l f Hl. induction Hg as [|parts ls Hp Hg IH]; intros l f Hl; cbn [map each]; [intros [= <-]; by rewrite app_nil_r|].
  destruct (AddFile (join_with "/" parts) f) as [e|f1] eqn:E; [done|]. apply (AddFile_lists l) in E as [E Ho]; [|done|done].
  intros H. apply (IH (l ++ [parts])) in H as [H Ho']; [|done]. rewrite <- app_assoc in H. split; [exact H|congruence].
Qed.

(** With --files-from a file is included exactly if it is listed, and a directory exactly if a listed file is below it. *)
Theorem files_from_correct ls f f' parts :
  files f = None -> ExcludeFile (Opt f) = [] -> Forall (fun parts => Forall good parts) ls -> Forall good parts ->
  each AddFile (map (join_with "/") ls) (initAddFile f) = inr f' ->
  (IncludeRemote f' (join_with "/" parts) = true <-> parts ∈ ls) /\
  (IncludeDirectory f' (join_with "/" parts) = inr true <-> exists file, (file ∈ ls) /\ strictly_above parts file).
Proof.
  intros Hn Hex Hls Hp H.
  apply (each_AddFile_lists ls []) in H as [(_ & fs & Hfs & HF & HD) Ho]; [|unfold initAddFile; rewrite Hn; split; [constructor|]; exists ∅; cbn; set_solver|done].
  cbn [app] in *. assert (Opt f' = Opt f) as Ho' by (rewrite Ho; unfold initAddFile; by rewrite Hn).
  unfold IncludeRemote, IncludeDirectory, DirContainsExcludeFile. rewrite Hfs, Ho', Hex, trim_good by done. cbn [map any_exists].
  rewrite Forall_forall in Hls. split.
  - rewrite bool_decide_eq_true, HF. split; [|by intros H; exists parts]. intros (parts' & Hin & E). apply join_inj in E as ->; auto.
  - split.
    + intros [= H]. apply bool_decide_eq_true, HD in H as (ps & file & Hin & Hab & E). exists file. split; [done|].
      apply join_inj in E as ->; [done|done|]. eapply strictly_above_good; [exact Hab|by apply Hls].
    + intros (file & Hin & Hab). f_equal. apply bool_decide_eq_true, HD. by exists parts, file.
Qed.

End files_from.

(** ** --hash-filter *)

Section partition.
Context {env : FilterEnv} (Hrandom : forall n, 0 < n -> 0 <= random_below n < n).

Lemma digits_nonneg s acc n : 0 <= acc -> digits_of acc s = Some n -> 0 <= n.
Proof.
  revert acc. induction s as [|c s IH]; intros acc Ha; cbn [digits_of]; [by intros [= <-]|].
  destruct (digit_of c) as [d|] eqn:Ed; [|done]. apply IH. unfold digit_of in Ed.
  destruct (_ && _) eqn:E; [|done]. injection Ed as <-. apply andb_true_iff in E as [E1 E2]. apply Nat.leb_le in E1. lia.
Qed.

Lemma parseHashFilter_bounds s k n : parseHashFilter s = inr (k, n) -> 0 <= k < n.
Proof.
  unfold parseHashFilter. destruct (cut_slash s) as [[kStr nStr]|]; [|done]. unfold ParseUint at 1.
  destruct (str_eqb nStr ""); [done|]. destruct (digits_of 0 nStr) as [n'|] eqn:En; [|done]. apply digits_nonneg in En; [|lia].
  destruct (n' <? 2 ^ 64); [|done]. destruct (n' =? 0) eqn:E0; [done|]. apply Z.eqb_neq in E0.
  destruct (str_eqb kStr "@"); [intros [= <- <-]; apply Hrandom; lia|]. destruct (ParseUint kStr); [|done]. intros [= <- <-].
  apply Z.mod_pos_bound. lia.
Qed.

Definition with_partition (k : Z) (f : Filter) : Filter :=
  mkFilter (Opt f) (ModTimeFrom f) (ModTimeTo f) (fileRules f) (dirRules f) (metaRules f) (files f) (dirs f) (hashFilterN f) k.

(** The partitions of --hash-filter split what the rules include: every file is in one of them, and in no other. *)
Lemma hash_partition f remote : files f = None -> 0 < hashFilterN f ->
  include (fileRules f) remote = true ->
  exists k, 0 <= k < hashFilterN f /\ forall k', IncludeRemote (with_partition k' f) remote = true <-> k' = k.
Proof.
  intros Hn HN Hi. exists (hash64 remote mod hashFilterN f). split; [by apply Z.mod_pos_bound|]. intros k'.
  unfold IncludeRemote. cbn [files hashFilterN hashFilterK fileRules with_partition]. rewrite Hn, Hi.
  rewrite (proj2 (Z.eqb_neq (hashFilterN f) 0)) by lia. cbn [negb andb]. destruct (_ =? k') eqn:E; cbn [negb]; breflect; split; congruence.
Qed.
End partition.

(** ** Doing without the directory rules *)

Section unused.
Context {env : FilterEnv}.

(** If the filter says that it needs no directory rules then these include every directory. *)
Lemma unused_directory_rules f remote : wf_rules (dirRules f) -> (newline ∉ runes (remote +:+ "/")) -> UsesDirectoryFilters f = false ->
  include (dirRules f) (remote +:+ "/") = true.
Proof.
  intros [Hw _] Hnl. unfold UsesDirectoryFilters, include. destruct (rs (dirRules f)) as [|r l]; [done|]. rewrite negb_false_iff, andb_true_iff.
  intros [Hi Hs]. apply bool_decide_eq_true in Hs. cbn [include_in]. rewrite Forall_cons in Hw. destruct Hw as [Hc _]. unfold compiled in Hc. rewrite Hs in Hc.
  destruct (compile_tokens false true [S2]) as (r' & Hr' & Hm); [by repeat constructor|]. cbn [app] in Hr'.
  assert (r' = Regexp_ r) as -> by (apply (inj Some); rewrite <- Hc; symmetry; exact Hr').
  unfold Match. rewrite Hm. cbn [path_match]. by rewrite gmatch_all.
Qed.
End unused.

(** ** Examples *)

Definition lower_rune (r : Z) : Z := if (65 <=? r) && (r <=? 90) then r + 32 else r.

Definition example_env : FilterEnv := {|
  env_regexp := {| fold_case := lower_rune; outside := fun _ => None |};
  scan := fun _ _ => ([], false); now1 := 0; now2 := 0; random_below := fun _ => 0; hash64 := fun s => Z.of_nat (String.length s);
  file_exists := fun _ => Some false |}.

Definition no_opt : RulesOpt := mkRulesOpt [] [] [] [] [] [].
Definition with_rules (r : RulesOpt) : Options := mkOptions r [] [] [] [] no_opt DurationOff DurationOff (-1) (-1) false "".
Definition including (g : list string) : Options := with_rules (mkRulesOpt [] [] [] [] g []).
Definition filtering (r : list string) : Options := with_rules (mkRulesOpt r [] [] [] [] []).

(** Whether a file and a directory are included. *)
Definition decides (opt : Options) (file dir : string) : option (bool * (filter_error + bool)) :=
  match NewFilter (env := example_env) opt with
  | inr f => Some (IncludeRemote (env := example_env) f file, IncludeDirectory (env := example_env) f dir)
  | inl _ => None
  end.

Example decides_1 : map (fun '(f, d) => decides (including ["/a/**.jpg"; "*.PNG"]) f d)
    [("a/b/c.jpg", "a/b"); ("b/c.jpg", "b"); ("x/y.png", "x"); ("x/y.PNG", "x")]
  = [Some (true, inr true); Some (false, inr true); Some (false, inr true); Some (true, inr true)].
Proof. vm_compute. reflexivity. Qed.

Lemma example_no_case_slash d : fold_case (GoRegexp := env_regexp (FilterEnv := example_env)) d = fold_case (GoRegexp := env_regexp (FilterEnv := example_env)) 47 -> d = 47.
Proof. cbn. unfold lower_rune. repeat case_if; lia. Qed.


(** A glob that is not tied to the root can include a file whose directories are not listed: with
    --include a/*.jpg the file x/a/b.jpg is included and the directory x is not. *)
Theorem unanchored_include_hides : decides (including ["a/*.jpg"]) "x/a/b.jpg" "x" = Some (true, inr false).
Proof. vm_compute. reflexivity. Qed.

(** A rule that excludes the files of a directory can exclude all that is below it: with --filter "- **/d/*" the file
    x/d/e/f is included, and the directory x/d is not, since the star of the rule matches the empty name. *)
Theorem star_exclude_hides : decides (filtering ["- **/d/*"]) "x/d/e/f" "x/d" = Some (true, inr false).
Proof. vm_compute. reflexivity. Qed.

Definition two_lines : string := String "a" (String "010" "b").

(** Two stars do not match a newline: a file with one in its name is included although the last rule excludes everything. *)
Theorem newline_is_included : decides (filtering ["+ *.jpg"; "- **"]) two_lines "x" = Some (true, inr true).
Proof. vm_compute. reflexivity. Qed.

Definition empty_filter : Filter := mkFilter (filtering []) None None no_rules no_rules no_rules None ∅ 0 0.
Definition listed : Filter := match each AddFile ["a/b/c"; "d"] (initAddFile empty_filter) with inr f => f | inl _ => empty_filter end.

Lemma files_from_correct_witness :
  NewFilter (env := example_env) (filtering []) = inr empty_filter /\ each AddFile ["a/b/c"; "d"] (initAddFile empty_filter) = inr listed /\
  (IncludeRemote (env := example_env) listed "a/b/c" = true <-> ["a"; "b"; "c"] ∈ [["a"; "b"; "c"]; ["d"]]) /\
  (IncludeDirectory (env := example_env) listed "a/b" = inr true <-> exists file, (file ∈ [["a"; "b"; "c"]; ["d"]]) /\ strictly_above ["a"; "b"] file).
Proof.
  split; [reflexivity|]. split; [reflexivity|]. split.
  - exact (proj1 (files_from_correct (env := example_env) [["a"; "b"; "c"]; ["d"]] empty_filter listed ["a"; "b"; "c"] eq_refl eq_refl
      ltac:(by repeat constructor) ltac:(by repeat constructor) eq_refl)).
  - exact (proj2 (files_from_correct (env := example_env) [["a"; "b"; "c"]; ["d"]] empty_filter listed ["a"; "b"] eq_refl eq_refl
      ltac:(by repeat constructor) ltac:(by repeat constructor) eq_refl)).
Defined.
End Filter.
