(* ===== verification/FsPath.v ===== *)
(** * Remote paths: fs/fspath/path.go and fs/config/configmap/configmap.go

    A path names a remote, its configuration and a path on it:
    remote,param=value,param2="x y":dir/file.  The parser is a state machine
    over the runes of the text; the map of parameters is printed so that it
    parses back.  The file separator is a slash, and there are no drive letters. *)
From S2P Require Import Prelude GoPath Utf8 Regexp.

Module FsPath.
Import GoPath Utf8 Regexp.

(** ** Names of remotes *)

(** The Unicode letters and numbers. *)
Class Tables : Type := {
  letter_or_number : Z -> bool }.

Section names.
Context {tables : Tables}.

Definition ascii_alnum (c : Z) : bool :=
  ((48 <=? c) && (c <=? 57)) || ((65 <=? c) && (c <=? 90)) || ((97 <=? c) && (c <=? 122)).

(** [[\w\p{L}\p{N}.+@]] *)
Definition is_word (c : Z) : bool :=
  ascii_alnum c || (c =? 95) || letter_or_number c || (c =? 46) || (c =? 43) || (c =? 64).

Definition configNameRe : re :=
  Seq (Plus (Table is_word)) (Star (Seq (Plus (Class false [32; 45])) (Plus (Table (fun c => is_word c || (c =? 45)))))).

Definition configNameMatcher : re := Seq Begin (Seq configNameRe End_).
Definition remoteNameMatcher : re := Seq Begin (Seq (Opt (Chr 58)) (Seq configNameRe (Alt (Seq (Chr 58) End_) (Chr 44)))).

(** The patterns do not fold case. *)
#[local] Instance no_fold : GoRegexp := {| fold_case := fun c => c; outside := fun _ => None |}.

Inductive path_error : Type :=
  | errInvalidCharacters
  | errCantBeEmpty
  | errBadConfigParam
  | errEmptyConfigParam
  | errConfigNameEmpty
  | errConfigName
  | errParam
  | errValue
  | errQuotedValue
  | errAfterQuote
  | errSyntax.

Definition CheckConfigName (configName : string) : option path_error :=
  if found false configNameMatcher (runes configName) then None else Some errInvalidCharacters.

(** [illegalPartOfConfigNameMatcher.ReplaceAllString(name, "_")], for
    [^[ -]+|[^\w\p{L}\p{N}.+@ -]+|[ ]+$]: at the start spaces and dashes, anywhere
    other characters, at the end spaces. *)
Definition is_sep (c : Z) : bool := (c =? 32) || (c =? 45).

Fixpoint drop_seps (its : list item) : list item :=
  match its with it :: its' => if is_sep (item_rune it) then drop_seps its' else its | [] => [] end.

Fixpoint replace_illegal (in_match : bool) (its : list item) : list item :=
  match its with
  | [] => []
  | it :: its' =>
      let c := item_rune it in
      if negb (is_word c || is_sep c) then if in_match then replace_illegal true its' else Rune 95 :: replace_illegal true its'
      else if forallb (fun it => item_rune it =? 32) its then [Rune 95]
      else it :: replace_illegal false its'
  end.

Definition ReplaceIllegal (its : list item) : list item :=
  match its with
  | it :: _ => if is_sep (item_rune it) then Rune 95 :: replace_illegal false (drop_seps its) else replace_illegal false its
  | [] => []
  end.

Definition MakeConfigName (name : string) : string :=
  if str_eqb name "" then "_"
  else if found false configNameMatcher (runes name) then name
  else of_bytes (flat (ReplaceIllegal (items (to_bytes name)))).

Definition checkRemoteName (remoteName : string) : option path_error :=
  if str_eqb remoteName ":" || str_eqb remoteName "::" then Some errConfigNameEmpty
  else if found false remoteNameMatcher (runes remoteName) then None
  else Some errInvalidCharacters.

(** ** Parsing *)

Definition isConfigParam (c : Z) : bool :=
  ((97 <=? c) && (c <=? 122)) || ((65 <=? c) && (c <=? 90)) || ((48 <=? c) && (c <=? 57)) || (c =? 95) || (c =? 46).

(** [configmap.Simple] *)
Definition Simple : Type := gmap string string.

Record Parsed : Type := mkParsed {
  Name : string;
  ConfigString : string;
  Path : string;
  Config : option Simple }.

Inductive pstate : Type := stateConfigName | stateParam | stateValue | stateQuotedValue | stateAfterQuote | stateDone.

(** The variables of the loop, with the fields of [parsed] that it sets. *)
Record vars : Type := mkVars {
  state : pstate;
  prev : nat;
  quote : Z;
  param : string;
  doubled : bool;
  v_name : string;
  v_config : option Simple }.

Inductive turn : Type :=
  | Continue (v : vars)
  | Break (v : vars)
  | Return (name : string) (config : option Simple) (e : option path_error).

(** [path[a:b]] *)
Definition sub (path : bytes) (a b : nat) : string := of_bytes (take (b - a) (drop a path)).

(** [strings.ReplaceAll(value, qq, q)] *)
Fixpoint undouble (q : Z) (b : bytes) : bytes :=
  match b with
  | c :: rest =>
      match rest with
      | d :: rest' => if (c =? q) && (d =? q) then c :: undouble q rest' else c :: undouble q rest
      | [] => [c]
      end
  | [] => []
  end.

(** [parsed.Config[param] = value]: on a nil map this would panic, but the map is made before any parameter. *)
Definition set_config (v : vars) (value : string) : option Simple := Some (<[param v := value]> (default ∅ (v_config v))).

(** The colon ends the loop, a comma goes on to the next parameter. *)
Definition end_value (v : vars) (i : nat) (c : Z) (value : string) : turn :=
  let v' := mkVars (if c =? 58 then stateDone else stateParam) (S i) (quote v) (param v) (doubled v) (v_name v) (set_config v value) in
  if c =? 58 then Break v' else Continue v'.

Definition step (path : bytes) (i : nat) (c : Z) (v : vars) : turn :=
  let fail e := Return (v_name v) (v_config v) (Some e) in
  match state v with
  | stateConfigName =>
      if (i =? 0)%nat && (c =? 58) then Continue v
      else if (c =? 47) || (c =? 92) then
        if match path with b :: _ => b =? 58 | [] => false end then fail errInvalidCharacters
        else Return (v_name v) (v_config v) None
      else if (c =? 58) || (c =? 44) then
        let name := sub path 0 i in
        match checkRemoteName (name +:+ ":") with
        | Some e => Return name (v_config v) (Some e)
        | None =>
            if c =? 58 then Break (mkVars stateDone (S i) (quote v) (param v) (doubled v) name (v_config v))
            else Continue (mkVars stateParam (S i) (quote v) (param v) (doubled v) name (Some ∅))
        end
      else Continue v
  | stateParam =>
      if (c =? 58) || (c =? 44) || (c =? 61) then
        let p := sub path (prev v) i in
        if str_eqb p "" then fail errEmptyConfigParam
        else
          let v := mkVars (state v) (S i) (quote v) p (doubled v) (v_name v) (v_config v) in
          if c =? 61 then Continue (mkVars stateValue (prev v) (quote v) p (doubled v) (v_name v) (v_config v))
          else end_value v i c "true"
      else if negb (isConfigParam c) then fail errBadConfigParam
      else Continue v
  | stateValue =>
      if (c =? 39) || (c =? 34) then
        if (i =? prev v)%nat then Continue (mkVars stateQuotedValue (S i) c (param v) false (v_name v) (v_config v)) else Continue v
      else if (c =? 58) || (c =? 44) then end_value v i c (sub path (prev v) i)
      else Continue v
  | stateQuotedValue =>
      if c =? quote v then Continue (mkVars stateAfterQuote (prev v) (quote v) (param v) (doubled v) (v_name v) (v_config v)) else Continue v
  | stateAfterQuote =>
      if (c =? 58) || (c =? 44) then
        let value := sub path (prev v) (i - 1) in
        end_value v i c (if doubled v then of_bytes (undouble (quote v) (to_bytes value)) else value)
      else if c =? quote v then Continue (mkVars stateQuotedValue (prev v) (quote v) (param v) true (v_name v) (v_config v))
      else fail errAfterQuote
  | stateDone => Break v
  end.

(** What a text that ends in a state is an error of. *)
Definition end_error (s : pstate) : option path_error :=
  match s with
  | stateConfigName => Some errConfigName
  | stateParam => Some errParam
  | stateValue => Some errValue
  | stateQuotedValue => Some errQuotedValue
  | stateAfterQuote => Some errAfterQuote
  | stateDone => None
  end.

Fixpoint loop (path : bytes) (its : list item) (i : nat) (v : vars) : Parsed * option path_error :=
  match its with
  | [] => (mkParsed (v_name v) "" (of_bytes path) (v_config v), end_error (state v))
  | it :: its' =>
      match step path i (item_rune it) v with
      | Continue v => loop path its' (i + length (item_bytes it)) v
      | Break v => (mkParsed (v_name v) (sub path 0 i) (sub path (S i) (length path)) (v_config v), None)
      | Return name config e => (mkParsed name "" (of_bytes path) config, e)
      end
  end.

Definition start : vars := mkVars stateConfigName 0 0 "" false "" None.

Definition Parse (path : string) : Parsed * option path_error :=
  if str_eqb path "" then (mkParsed "" "" path None, Some errCantBeEmpty)
  else if negb (existsb (fun c => c =? 58) (runes path)) then (mkParsed "" "" path None, None)
  else loop (to_bytes path) (items (to_bytes path)) 0 start.

Definition SplitFs (remote : string) : path_error + string * string :=
  match Parse remote with
  | (_, Some e) => inl e
  | (parsed, None) => inr (if str_eqb (ConfigString parsed) "" then "" else ConfigString parsed +:+ ":", Path parsed)
  end.

Definition Split (remote : string) : path_error + string * string :=
  match SplitFs remote with
  | inl e => inl e
  | inr (remoteName, remotePath) => let '(parent, leaf) := path_Split remotePath in inr (remoteName +:+ parent, leaf)
  end.

(** ** Joining *)

Definition makeAbsolute (filePath : string) : string :=
  let leadingSlash := is_rooted filePath in
  let filePath := path_Join ["/"; filePath] in
  if negb leadingSlash && is_rooted filePath then match filePath with String _ s => s | "" => "" end else filePath.

Definition JoinRootPath (remote filePath : string) : string :=
  if str_eqb filePath "" then remote
  else
    let filePath := makeAbsolute filePath in
    if match remote with String c (String d _) => Ascii.eqb c slash && Ascii.eqb d slash | _ => false end
    then "/" +:+ path_Join [remote; filePath]
    else
      let '(parsed, err) := Parse remote in
      let '(remoteName, remotePath) := match err with Some _ => ("", remote) | None => (ConfigString parsed, Path parsed) end in
      let remotePath := path_Join [remotePath; filePath] in
      if negb (str_eqb remoteName "") then (remoteName +:+ ":") +:+ (if str_eqb remotePath "." then "" else remotePath)
      else remoteName +:+ remotePath.
End names.

(** ** Printing: [Simple.string] *)

Definition write_quoted (v : string) : bytes :=
  39 :: (items (to_bytes v) ≫= fun it => encode_rune (item_rune it) ++ (if item_rune it =? 39 then [39] else [])) ++ [39].

(** [strings.ContainsAny]: a quote of either kind, a colon, an equals sign or a comma. *)
Definition has_special (v : string) : bool := existsb (fun c => existsb (Z.eqb c) [39; 34; 58; 61; 44]) (runes v).

Definition write_entry (human : bool) (k v : string) : bytes :=
  to_bytes k ++
  (if human && str_eqb v "true" then []
   else 61 :: (if negb human || has_special v then write_quoted v else to_bytes v)).

(** A comma goes before an entry when something was written. *)
Fixpoint write_entries (human : bool) (c : Simple) (out : bytes) (ks : list string) : bytes :=
  match ks with
  | [] => out
  | k :: ks =>
      write_entries human c (out ++ (match out with [] => [] | _ => [44] end) ++ write_entry human k (default "" (c !! k))) ks
  end.

Definition sorted_keys (c : Simple) : list string := sort_Stable str_ltb (map fst (map_to_list c)).

Definition Simple_string (human : bool) (c : Simple) : string := of_bytes (write_entries human c [] (sorted_keys c)).

Definition Human (c : Simple) : string := Simple_string true c.
Definition String_ (c : Simple) : string := Simple_string false c.

(** ** Theory: names *)

Section theory.
Context {tables : Tables}.
#[local] Existing Instance no_fold.

(** Of the ASCII characters, the letters and digits are letters and numbers. *)
Hypothesis tables_ascii : forall c, 0 <= c < 128 -> letter_or_number c = ascii_alnum c.

Lemma is_word_ascii c : 0 <= c < 128 -> is_word c = ascii_alnum c || (c =? 95) || (c =? 46) || (c =? 43) || (c =? 64).
Proof.
  intros Hc. unfold is_word. rewrite tables_ascii by done. by destruct (ascii_alnum c), (c =? 95).
Qed.

(** What the comment on the pattern and the error message promise of a name. *)
Definition documented_name (s : list Z) : bool :=
  match s with c :: _ => is_word c | [] => false end && forallb (fun c => is_word c || is_sep c) s &&
  match last s with Some c => negb (c =? 32) | None => false end.

(** Word characters and one dash at the end. *)
Definition lone_dash (s : list Z) : bool :=
  match last s with Some c => (c =? 45) && forallb is_word (removelast s) | None => false end.

Definition group : re := Seq (Plus (Class false [32; 45])) (Plus (Table (fun c => is_word c || (c =? 45)))).

Lemma lang_words w : lang false (Plus (Table is_word)) w <-> w <> [] /\ forallb is_word w = true.
Proof. apply lang_plus_one. intros u. apply lang_table. Qed.

Lemma is_sep_class c : in_class false false [32; 45] c = is_sep c.
Proof. unfold in_class, is_sep, same_char. cbn [existsb xorb]. rewrite orb_false_r, (Z.eqb_sym 32), (Z.eqb_sym 45). by destruct (_ || _). Qed.

Lemma lang_group w : lang false group w <-> exists p q, w = p ++ q /\ (p <> [] /\ forallb is_sep p = true) /\
  (q <> [] /\ forallb (fun c => is_word c || (c =? 45)) q = true).
Proof.
  unfold group. rewrite lang_seq. setoid_rewrite (lang_plus_one _ (Class false [32; 45]) is_sep).
  - setoid_rewrite (lang_plus_one _ (Table (fun c => is_word c || (c =? 45))) (fun c => is_word c || (c =? 45))); [done|apply lang_table].
  - split; [inversion 1; subst; eexists; split; [done|]; by rewrite <- is_sep_class|]. intros (d & -> & Hd). constructor. by rewrite is_sep_class.
Qed.

Lemma is_word_sep c : is_word c = true -> is_sep c = false.
Proof.
  unfold is_sep. intros Hw. destruct (c =? 32) eqn:E; [apply Z.eqb_eq in E as ->; by rewrite is_word_ascii in Hw|].
  destruct (c =? 45) eqn:E'; [apply Z.eqb_eq in E' as ->; by rewrite is_word_ascii in Hw|done].
Qed.

Lemma last_cons_ne {A} (x : A) l : l <> [] -> last (x :: l) = last l.
Proof. by destruct l. Qed.

Lemma last_app_ne {A} (k l : list A) : l <> [] -> last (k ++ l) = last l.
Proof. induction k as [|x k IH]; intros H; [done|]. cbn [app]. rewrite last_cons_ne; [by apply IH|]. by destruct k, l. Qed.

(** Groups that follow each other: what is gathered so far, and the rest. *)
Lemma groups_complete t : forall p q, p <> [] -> forallb is_sep p = true -> forallb (fun c => is_word c || (c =? 45)) q = true ->
  forallb (fun c => is_word c || is_sep c) t = true -> q ++ t <> [] -> last (q ++ t) <> Some 32 -> lang false (Star group) (p ++ q ++ t).
Proof.
  induction t as [|d t IH]; intros p q Hp Hps Hq Ht Hne Hl.
  - rewrite app_nil_r in *. rewrite <- (app_nil_r (p ++ q)). apply l_star1; [|constructor]. apply lang_group. by exists p, q.
  - cbn [forallb] in Ht. apply andb_true_iff in Ht as [Hd Ht]. destruct (decide (d = 32)) as [->|Hd32].
    + assert (t <> []) as Hnt. { intros ->. by rewrite last_app_ne in Hl. }
      assert (last t <> Some 32) as Hlt. { by rewrite last_app_ne, last_cons_ne in Hl by done. }
      destruct q as [|x q].
      * cbn [app]. replace (p ++ 32 :: t) with ((p ++ [32]) ++ [] ++ t) by (by rewrite <- (assoc_L app)).
        apply IH; [by destruct p|rewrite forallb_app, Hps; done|done..].
      * rewrite (assoc_L app). apply l_star1; [apply lang_group; by exists p, (x :: q)|]. by apply (IH [32] []).
    + replace (p ++ q ++ d :: t) with (p ++ (q ++ [d]) ++ t) by (by rewrite <- (assoc_L app)).
      apply IH; [done|done| |done|by destruct q|by rewrite <- (assoc_L app)]. rewrite forallb_app, Hq. cbn [forallb].
      unfold is_sep in Hd. destruct (is_word d), (d =? 45); [done..|]. rewrite orb_false_r in Hd. by apply Z.eqb_eq in Hd.
Qed.

Lemma groups_sound v : lang false (Star group) v -> v = [] \/
  forallb (fun c => is_word c || is_sep c) v = true /\ last v <> Some 32 /\ (exists c d v', v = c :: d :: v' /\ is_sep c = true).
Proof.
  remember (Star group) as r eqn:Er. intros Hl. induction Hl as [| | | | | | | | |a u v Hu _ Hv IH]; try done; [by left|]. injection Er as ->. right.
  apply lang_group in Hu as (p & q & -> & [Hp Hps] & [Hq Hqx]).
  assert (forallb (fun c => is_word c || is_sep c) (p ++ q) = true) as Hok.
  { rewrite forallb_app, andb_true_iff. rewrite !forallb_forall in *. split; intros c Hc.
    - rewrite (Hps c Hc). apply orb_true_r.
    - specialize (Hqx c Hc). unfold is_sep. destruct (is_word c), (c =? 45), (c =? 32); done. }
  assert (last q <> Some 32) as Hlq.
  { intros Hl. apply last_Some in Hl as [q' ->]. rewrite forallb_app in Hqx. apply andb_true_iff in Hqx as [_ Hx]. cbn [forallb] in Hx.
    by rewrite is_word_ascii in Hx. }
  assert (exists c d v', p ++ q = c :: d :: v' /\ is_sep c = true) as (c & d & v' & He & Hc).
  { destruct p as [|c p]; [done|]. cbn [forallb] in Hps. apply andb_true_iff in Hps as [Hc _]. destruct p, q; try done; by eexists _, _, _. }
  destruct (IH eq_refl) as [->|(Hv1 & Hv2 & (c' & d' & v'' & -> & _))].
  - rewrite app_nil_r. split_and!; [done|by rewrite last_app_ne|by eexists _, _, _].
  - split_and!; [by rewrite forallb_app, Hok, Hv1|by rewrite last_app_ne|]. rewrite He. by eexists _, _, _.
Qed.

Lemma split_words s : exists u v, s = u ++ v /\ forallb is_word u = true /\ match v with c :: _ => is_word c = false | [] => True end.
Proof.
  induction s as [|c s (u & v & -> & Hu & Hv)]; [by exists [], []|]. destruct (is_word c) eqn:E; [|by exists [], (c :: u ++ v)].
  exists (c :: u), v. cbn [forallb]. by rewrite E.
Qed.

Lemma last_word u : forallb is_word u = true -> last u <> Some 32 /\ last u <> Some 45.
Proof.
  intros Hu. split; intros (u' & ->)%last_Some; rewrite forallb_app in Hu; cbn [forallb] in Hu; apply andb_true_iff in Hu as [_ Hu];
    by rewrite is_word_ascii in Hu.
Qed.

Lemma removelast_app_ne {A} (k l : list A) : l <> [] -> removelast (k ++ l) = k ++ removelast l.
Proof. apply removelast_app. Qed.

(** The names that match are the documented ones, but for words with a single dash at their end. *)
Lemma name_lang s : lang false configNameRe s <-> documented_name s && negb (lone_dash s) = true.
Proof.
  unfold configNameRe. fold group. rewrite lang_seq. unfold documented_name, lone_dash. split.
  - intros (u & v & -> & [Hu Huw]%lang_words & Hv%groups_sound). destruct u as [|c u]; [done|]. set (w := c :: u) in *.
    assert (is_word c = true) as Hc by (cbn [w forallb] in Huw; by apply andb_true_iff in Huw as [? _]).
    assert (forallb (fun c => is_word c || is_sep c) w = true) as Hok.
    { rewrite forallb_forall in *. intros x Hx. by rewrite (Huw x Hx). }
    destruct (last_word w Huw) as [H32 H45]. replace (match w ++ v with x :: _ => is_word x | [] => false end) with true by done. cbn [andb].
    destruct Hv as [->|(Hv & Hl & (x & y & v' & -> & Hx))].
    + rewrite app_nil_r, Hok. cbn [andb]. destruct (last w) as [z|] eqn:E; [|by apply last_None in E].
      destruct (z =? 32) eqn:E1; [apply Z.eqb_eq in E1; congruence|]. destruct (z =? 45) eqn:E2; [apply Z.eqb_eq in E2; congruence|done].
    + rewrite forallb_app, Hok, Hv, last_app_ne by done. cbn [andb]. destruct (last (x :: y :: v')) as [z|] eqn:E; [|by apply last_None in E].
      destruct (z =? 32) eqn:E1; [apply Z.eqb_eq in E1; congruence|]. rewrite removelast_app_ne, forallb_app by done.
      change (removelast (x :: y :: v')) with (x :: removelast (y :: v')). cbn [forallb].
      destruct (is_word x) eqn:Ew; [apply is_word_sep in Ew; congruence|]. by rewrite andb_false_r, andb_false_r.
  - intros H. rewrite !andb_true_iff in H. destruct H as [[[Hc Hok] Hl] Hd]. destruct (split_words s) as (u & v & -> & Hu & Hv).
    exists u, v. split; [done|]. split.
    { apply lang_words. split; [|done]. intros ->. destruct v as [|c v]; cbn [app] in Hc; [done|congruence]. }
    destruct v as [|x v]; [constructor|]. rewrite last_app_ne in Hl, Hd by done. rewrite forallb_app in Hok. apply andb_true_iff in Hok as [_ Hok].
    cbn [forallb] in Hok. apply andb_true_iff in Hok as [Hx Hok]. rewrite Hv in Hx. cbn [orb] in Hx.
    destruct v as [|y v].
    + exfalso. cbn [last] in Hl, Hd. rewrite removelast_app_ne in Hd by done. cbn [removelast] in Hd. rewrite app_nil_r, Hu, andb_true_r in Hd.
      unfold is_sep in Hx. by destruct (x =? 32), (x =? 45).
    + apply (groups_complete (y :: v) [x] []); [done|cbn [forallb]; by rewrite Hx|done|done|done|]. cbn [app].
      change (last (x :: y :: v)) with (last (y :: v)) in Hl. intros E. by rewrite E in Hl.
Qed.

Lemma CheckConfigName_spec name :
  CheckConfigName name = None <-> documented_name (runes name) = true /\ lone_dash (runes name) = false.
Proof.
  unfold CheckConfigName, configNameMatcher. pose proof (found_whole false configNameRe (runes name) eq_refl) as Hf.
  rewrite name_lang, andb_true_iff, negb_true_iff in Hf. destruct (found _ _ _); [|naive_solver].
  split; [intros _; by apply Hf|done].
Qed.

(** *** Names that are made legal *)

Hypothesis tables_error : letter_or_number RuneError = false.

Definition legal (it : item) : Prop := exists r, it = Rune r /\ ValidRune r = true /\ is_word r || is_sep r = true.

Lemma replace_illegal_legal m its : Forall valid_item its -> Forall legal (replace_illegal m its).
Proof.
  assert (legal (Rune 95)) as H95 by (exists 95; split_and!; [done|done|]; by rewrite is_word_ascii).
  intros H. revert m. induction H as [|it its Hit H IH]; intros m; cbn [replace_illegal]; [constructor|].
  destruct (is_word (item_rune it) || is_sep (item_rune it)) eqn:E; cbn [negb].
  - destruct (forallb _ _); [by constructor|]. constructor; [|apply IH]. destruct it as [r|b]; [by exists r|].
    cbn [item_rune] in E. unfold is_word in E. by rewrite tables_error in E.
  - destruct m; [apply IH|]. constructor; [done|apply IH].
Qed.

Lemma replace_illegal_ne its : its <> [] -> replace_illegal false its <> [].
Proof. destruct its as [|it its]; [done|]. intros _. cbn [replace_illegal]. by repeat case_match. Qed.

Lemma replace_illegal_last m its it : last (replace_illegal m its) = Some it -> item_rune it <> 32.
Proof.
  revert m it. induction its as [|x its IH]; intros m it; cbn [replace_illegal]; [done|].
  assert (forall m, last (Rune 95 :: replace_illegal m its) = Some it -> item_rune it <> 32) as H95.
  { intros m'. destruct (replace_illegal m' its) as [|y l] eqn:E; [by intros [= <-]|]. rewrite last_cons_ne, <- E by done. apply IH. }
  destruct (negb _); [destruct m; [apply IH|apply H95]|]. cbn [forallb]. destruct (item_rune x =? 32) eqn:E; cbn [andb].
  - destruct (forallb _ its) eqn:Ef; [by intros [= <-]|]. rewrite last_cons_ne; [apply IH|]. apply replace_illegal_ne. by intros ->.
  - destruct its as [|y its]; [intros [= <-]; by apply Z.eqb_neq|]. rewrite last_cons_ne; [apply IH|]. by apply replace_illegal_ne.
Qed.

Lemma drop_seps_valid its : Forall valid_item its -> Forall valid_item (drop_seps its).
Proof. induction 1 as [|it its Hit H IH]; cbn [drop_seps]; [constructor|]. destruct (is_sep _); [done|by constructor]. Qed.

Lemma ReplaceIllegal_spec its : Forall valid_item its -> its <> [] ->
  Forall legal (ReplaceIllegal its) /\ documented_name (map item_rune (ReplaceIllegal its)) = true.
Proof.
  intros Hv Hne.
  assert (Forall legal (ReplaceIllegal its)) as Hleg.
  { destruct its as [|it its]; [done|]. cbn [ReplaceIllegal]. destruct (is_sep _) eqn:E; [|by apply replace_illegal_legal].
    constructor; [exists 95; split_and!; [done|done|by rewrite is_word_ascii]|]. by apply replace_illegal_legal, drop_seps_valid. }
  split; [done|].
  assert (exists it l, ReplaceIllegal its = it :: l /\ is_word (item_rune it) = true) as (h & l & He & Hh).
  { destruct its as [|it its]; [done|]. cbn [ReplaceIllegal]. destruct (is_sep _) eqn:E; [eexists _, _; split; [done|by rewrite is_word_ascii]|].
    cbn [replace_illegal]. rewrite E, orb_false_r. destruct (is_word _) eqn:Ew; cbn [negb].
    - unfold is_sep in E. apply orb_false_iff in E as [E _]. cbn [forallb]. rewrite E. by eexists _, _.
    - eexists _, _. split; [done|by rewrite is_word_ascii]. }
  unfold documented_name. rewrite He at 1. cbn [map]. rewrite Hh. cbn [andb]. rewrite andb_true_iff. split.
  - rewrite forallb_forall. intros c (it & <- & Hit)%in_map_iff. apply list_elem_of_In in Hit. rewrite Forall_forall in Hleg.
    by destruct (Hleg it Hit) as (r & -> & _ & Hr).
  - rewrite fmap_last. destruct (last (ReplaceIllegal its)) as [z|] eqn:El; [|apply last_None in El; by rewrite He in El]. cbn [fmap option_fmap option_map].
    apply negb_true_iff, Z.eqb_neq. destruct its as [|it its]; [done|]. cbn [ReplaceIllegal] in El. destruct (is_sep _) eqn:E; [|by apply replace_illegal_last in El].
    destruct (replace_illegal false (drop_seps (it :: its))) as [|y l'] eqn:E'; [by injection El as <-|]. rewrite last_cons_ne, <- E' in El by done.
    by apply replace_illegal_last in El.
Qed.

Lemma legal_canonical its : Forall legal its -> canonical its.
Proof. induction 1 as [|it its (r & -> & Hr & _) _ IH]; cbn [canonical]; done. Qed.

(** The names that [CheckConfigName] accepts are those its error message describes (letters, numbers, underscores,
    dashes, dots, plus and at signs and spaces, without a dash or space at the start or a space at the end), except that a word
    with a single dash at its end, such as a-, is refused although a-- is accepted; and [MakeConfigName] gives a name that [CheckConfigName] accepts, whatever the text, unless the result is a word with a
    single dash at its end, which it leaves as it is. *)
Theorem config_names name :
  (CheckConfigName name = None <-> documented_name (runes name) = true /\ lone_dash (runes name) = false) /\
  (CheckConfigName (MakeConfigName name) = None <-> lone_dash (runes (MakeConfigName name)) = false).
Proof.
  split; [apply CheckConfigName_spec|].
  enough (documented_name (runes (MakeConfigName name)) = true) as H by (rewrite CheckConfigName_spec; naive_solver).
  unfold MakeConfigName. destruct (str_eqb name "") eqn:E; [replace (runes "_") with [95] by (vm_compute; reflexivity); unfold documented_name; cbn [forallb last]; by rewrite is_word_ascii|].
  destruct (found _ _ _) eqn:Ef.
  - apply found_whole, name_lang, andb_true_iff in Ef; [by destruct Ef|done].
  - apply str_eqb_neq in E. pose proof (canonical_items _ (to_bytes_is_byte name)) as Hc.
    destruct (ReplaceIllegal_spec (items (to_bytes name))) as [Hl Hd]; [by apply canonical_Forall| |].
    { intros Hi. apply E, to_bytes_inj. rewrite <- (flat_items (to_bytes name)), Hi by apply to_bytes_is_byte. done. }
    apply legal_canonical in Hl. unfold runes. rewrite to_bytes_of_bytes by (by apply canonical_bytes). by rewrite items_flat.
Qed.
(** ** Theory: what is printed parses back *)

(** A turn of the loop and what follows it. *)
Definition after (path : bytes) (it : item) (its : list item) (i : nat) (t : turn) : Parsed * option path_error :=
  match t with
  | Continue v => loop path its (i + length (item_bytes it)) v
  | Break v => (mkParsed (v_name v) (sub path 0 i) (sub path (S i) (length path)) (v_config v), None)
  | Return name config e => (mkParsed name "" (of_bytes path) config, e)
  end.

Lemma loop_cons path it its i v : loop path (it :: its) i v = after path it its i (step path i (item_rune it) v).
Proof. done. Qed.

(** Characters that leave the variables alone. *)
Lemma loop_skip path its rest i v : Forall (fun it => forall j, step path j (item_rune it) v = Continue v) its ->
  loop path (its ++ rest) i v = loop path rest (i + length (flat its)) v.
Proof.
  intros H. revert i. induction H as [|it its Hit H IH]; intros i; [by rewrite Nat.add_0_r|]. cbn [app].
  rewrite loop_cons, Hit. cbn [after]. by rewrite IH, flat_cons, length_app, Nat.add_assoc.
Qed.

Lemma sub_middle A X Y : sub (A ++ X ++ Y) (length A) (length A + length X) = of_bytes X.
Proof. unfold sub. rewrite drop_app_length. replace (length A + length X - length A)%nat with (length X) by lia. by rewrite take_app_length. Qed.

(** Quotes are doubled within quotes. *)
Definition double (b : bytes) : bytes := b ≫= fun c => if c =? 39 then [39; 39] else [c].

Lemma undouble_double b : undouble 39 (double b) = b.
Proof.
  induction b as [|c b IH]; [done|]. change (double (c :: b)) with ((if c =? 39 then [39; 39] else [c]) ++ double b).
  destruct (c =? 39) eqn:E; cbn [app].
  - apply Z.eqb_eq in E as ->. cbn [undouble]. change (39 =? 39) with true. cbn [andb]. by rewrite IH.
  - cbn [undouble]. rewrite E. cbn [andb]. rewrite IH. destruct (double b) eqn:Ed; [|done]. destruct b as [|d b]; [done|].
    exfalso. change (double (d :: b)) with ((if d =? 39 then [39; 39] else [d]) ++ double b) in Ed. by destruct (d =? 39).
Qed.

Lemma double_none b : (39 ∉ b) -> double b = b.
Proof.
  induction b as [|c b IH]; [done|]. rewrite not_elem_of_cons. intros [Hc Hb].
  change (double (c :: b)) with ((if c =? 39 then [39; 39] else [c]) ++ double b). rewrite IH by done.
  by destruct (c =? 39) eqn:E; [apply Z.eqb_eq in E|].
Qed.

(** The runes of a text with its quotes doubled. *)
Definition double_runes (rs : list Z) : list item := rs ≫= fun r => Rune r :: (if r =? 39 then [Rune r] else []).

Lemma double_flat rs : Forall (fun r => ValidRune r = true) rs -> flat (double_runes rs) = double (flat (map Rune rs)).
Proof.
  induction 1 as [|r rs Hr _ IH]; [done|]. unfold double. cbn [map]. rewrite flat_cons, bind_app. fold (double (flat (map Rune rs))).
  change (double_runes (r :: rs)) with ((Rune r :: (if r =? 39 then [Rune r] else [])) ++ double_runes rs).
  rewrite flat_app, IH. f_equal. cbn [item_bytes]. destruct (r =? 39) eqn:E; [by apply Z.eqb_eq in E as ->|].
  rewrite flat_cons. change (flat []) with (@nil Z). rewrite app_nil_r. cbn [item_bytes]. symmetry. apply double_none. intros Hin.
  apply Z.eqb_neq in E. apply E. by apply (encode_rune_low r 39).
Qed.

Lemma write_quoted_double v rs : items (to_bytes v) = map Rune rs -> Forall (fun r => ValidRune r = true) rs ->
  write_quoted v = 39 :: double (to_bytes v) ++ [39].
Proof.
  intros Hi Hv. rewrite <- (flat_items (to_bytes v)) by apply to_bytes_is_byte. unfold write_quoted.
  rewrite Hi, <- double_flat by done. do 2 f_equal. clear Hi. induction Hv as [|r rs Hr _ IH]; [done|].
  change (double_runes (r :: rs)) with ((Rune r :: (if r =? 39 then [Rune r] else [])) ++ double_runes rs). rewrite flat_app, <- IH.
  cbn [map]. unfold mbind. cbn [list_bind item_rune]. f_equal. rewrite flat_cons. cbn [item_bytes]. f_equal.
  destruct (r =? 39) eqn:E; [apply Z.eqb_eq in E as ->|]; done.
Qed.

Lemma items_double v rs : items (to_bytes v) = map Rune rs -> Forall (fun r => ValidRune r = true) rs ->
  items (double (to_bytes v)) = double_runes rs.
Proof.
  intros Hi Hv. rewrite <- (flat_items (to_bytes v)) by apply to_bytes_is_byte. rewrite Hi, <- double_flat by done.
  apply items_flat. clear Hi. induction Hv as [|r rs Hr _ IH]; [done|].
  change (double_runes (r :: rs)) with (Rune r :: (if r =? 39 then [Rune r] else []) ++ double_runes rs).
  cbn [canonical]. split; [done|]. destruct (r =? 39); [|done]. cbn [app canonical]. done.
Qed.

Lemma loop_quoted path rs rest i p k d n cf :
  loop path (double_runes rs ++ rest) i (mkVars stateQuotedValue p 39 k d n cf) =
  loop path rest (i + length (flat (double_runes rs))) (mkVars stateQuotedValue p 39 k (d || existsb (fun r => r =? 39) rs) n cf).
Proof.
  revert i d. induction rs as [|r rs IH]; intros i d; [cbn [app existsb]; by rewrite Nat.add_0_r, orb_false_r|].
  change (double_runes (r :: rs)) with (Rune r :: (if r =? 39 then [Rune r] else []) ++ double_runes rs).
  cbn [app]. rewrite loop_cons. unfold step. cbn [state quote item_rune prev param doubled v_name v_config]. cbn [existsb].
  destruct (r =? 39) eqn:E.
  - apply Z.eqb_eq in E as ->. cbn [after app]. rewrite loop_cons. unfold step. cbn [state quote item_rune prev param doubled v_name v_config].
    change (39 =? 58) with false. change (39 =? 44) with false. change (39 =? 39) with true. cbn [orb after]. rewrite IH. f_equal; [|by destruct d]. cbn [app]. rewrite !flat_cons, !length_app. change (length (item_bytes (Rune 39))) with 1%nat. lia.
  - cbn [after]. rewrite IH. f_equal. rewrite flat_cons, length_app. cbn [app]. lia.
Qed.

Definition good_key (k : string) : bool := negb (str_eqb k "") && forallb isConfigParam (runes k).

Lemma good_key_skip path k p q k' d n cf : good_key k = true ->
  Forall (fun it => forall j, step path j (item_rune it) (mkVars stateParam p q k' d n cf) = Continue (mkVars stateParam p q k' d n cf)) (items (to_bytes k)).
Proof.
  intros [_ Hk]%andb_true_iff. unfold runes in Hk. rewrite forallb_forall in Hk. apply Forall_forall. intros it Hit j.
  specialize (Hk (item_rune it)). unfold step. cbn [state]. rewrite Hk by (by apply in_map, list_elem_of_In).
  assert (isConfigParam (item_rune it) = true) as Hc by (by apply Hk, in_map, list_elem_of_In). revert Hc. unfold isConfigParam.
  destruct (item_rune it =? 58) eqn:E1; [by apply Z.eqb_eq in E1 as ->|]. destruct (item_rune it =? 44) eqn:E2; [by apply Z.eqb_eq in E2 as ->|].
  destruct (item_rune it =? 61) eqn:E3; [by apply Z.eqb_eq in E3 as ->|]. done.
Qed.

Lemma unspecial_skip path v p q k d n cf : has_special v = false ->
  Forall (fun it => forall j, step path j (item_rune it) (mkVars stateValue p q k d n cf) = Continue (mkVars stateValue p q k d n cf)) (items (to_bytes v)).
Proof.
  unfold has_special, runes. intros Hs. apply Forall_forall. intros it Hit j. pose proof (in_map item_rune _ _ (proj1 (list_elem_of_In _ _) Hit)) as Hin.
  apply not_true_iff_false in Hs. rewrite existsb_exists in Hs. destruct (existsb (Z.eqb (item_rune it)) [39; 34; 58; 61; 44]) eqn:He; [exfalso; eauto|]. clear Hs. rename He into Hs.
  cbn [existsb] in Hs. rewrite !orb_false_iff in Hs. destruct Hs as (H1 & H2 & H3 & H4 & H5 & _). unfold step. cbn [state]. by rewrite H1, H2, H3, H5.
Qed.

Ltac bytes := repeat first [assumption | apply to_bytes_is_byte | apply Forall_nil_2 | apply Forall_cons_2 | apply Forall_app_2 | unfold is_byte; lia].
Ltac fields := cbn [state quote item_rune prev param doubled v_name v_config].

(** [t] is the turn that sets [k] to [v] at the end of an entry. *)
Definition sets (t : turn) (i : nat) (c : Z) (k v n : string) (cf : option Simple) : Prop :=
  exists s p q d, t = end_value (mkVars s p q k d n cf) i c v.

Lemma flat_to_bytes s : length (flat (items (to_bytes s))) = length (to_bytes s).
Proof. by rewrite flat_items by apply to_bytes_is_byte. Qed.

Lemma sep_cases c : c = 44 \/ c = 58 -> 0 <= c < 128 /\ (c =? 39) = false /\ (c =? 34) = false /\ (c =? 61) = false /\ (c =? 58) || (c =? 44) = true.
Proof. by intros [-> | ->]. Qed.

Lemma items_ascii_cons c b : Forall is_byte b -> 0 <= c < 128 -> items (c :: b) = Rune c :: items b.
Proof. intros Hb Hc. by apply (items_ascii [] c b). Qed.

Lemma loop_unquoted path A v c B q k d n cf : path = A ++ to_bytes v ++ c :: B -> has_special v = false -> c = 44 \/ c = 58 -> Forall is_byte B ->
  exists t, sets t (length A + length (to_bytes v)) c k v n cf /\
  loop path (items (to_bytes v ++ c :: B)) (length A) (mkVars stateValue (length A) q k d n cf) =
  after path (Rune c) (items B) (length A + length (to_bytes v)) t.
Proof.
  intros Hp Hs Hc HB. destruct (sep_cases c Hc) as (Hr & H39 & H34 & _ & Hsep).
  rewrite items_ascii by (done || apply to_bytes_is_byte). rewrite loop_skip by (by apply unspecial_skip). rewrite loop_cons, flat_to_bytes.
  eexists. split; [|reflexivity]. unfold step. fields. rewrite H39, H34, Hsep. cbn [orb]. rewrite Hp, sub_middle, of_bytes_to_bytes. by repeat eexists.
Qed.

Lemma loop_quotes path A v c B q k d n cf : path = A ++ write_quoted v ++ c :: B -> ValidString (to_bytes v) = true -> c = 44 \/ c = 58 ->
  Forall is_byte B -> exists t, sets t (length A + length (write_quoted v)) c k v n cf /\
  loop path (items (write_quoted v ++ c :: B)) (length A) (mkVars stateValue (length A) q k d n cf) =
  after path (Rune c) (items B) (length A + length (write_quoted v)) t.
Proof.
  intros Hp Hv Hc HB. destruct (sep_cases c Hc) as (Hr & _ & _ & _ & Hsep). destruct (ValidString_items _ Hv) as [rs Hi].
  assert (Forall (fun r => ValidRune r = true) rs) as Hvr.
  { pose proof (canonical_Forall _ (canonical_items _ (to_bytes_is_byte v))) as H. rewrite Hi in H. exact (proj1 (List.Forall_map _ _ _) H). }
  rewrite (write_quoted_double v rs) in * by done. set (D := double (to_bytes v)) in *.
  assert (Forall is_byte D) as HD.
  { apply Forall_bind. eapply Forall_impl; [apply to_bytes_is_byte|]. intros b Hb. cbv beta delta [compose]. destruct (b =? 39); bytes. }
  assert (items ((39 :: D ++ [39]) ++ c :: B) = Rune 39 :: double_runes rs ++ Rune 39 :: Rune c :: items B) as ->.
  { cbn [app]. rewrite <- (assoc_L app). cbn [app]. rewrite items_ascii_cons by bytes.
    rewrite (items_ascii D 39) by bytes. rewrite items_ascii_cons by bytes. unfold D. by rewrite (items_double v rs). }
  rewrite loop_cons. unfold step at 1. fields. change (39 =? 39) with true. cbn [orb]. rewrite Nat.eqb_refl. cbn [after item_bytes].
  change (length (encode_rune 39)) with 1%nat. rewrite loop_quoted. set (b := existsb _ rs). rewrite loop_cons. unfold step at 1. fields.
  change (39 =? 39) with true. cbn [after orb item_bytes]. change (length (encode_rune 39)) with 1%nat.
  assert (length (flat (double_runes rs)) = length D) as HlD.
  { rewrite <- (items_double v rs), flat_items by done. done. }
  replace (length A + 1 + length (flat (double_runes rs)) + 1)%nat with (length A + length (39%Z :: D ++ [39%Z]))%nat
    by (rewrite HlD; cbn [length]; rewrite length_app; cbn [length]; lia).
  rewrite loop_cons. eexists. split; [|reflexivity]. unfold step. fields. rewrite Hsep.
  assert (sub path (S (length A)) (length A + length (39 :: D ++ [39]) - 1) = of_bytes D) as ->.
  { rewrite Hp. replace (A ++ (39 :: D ++ [39]) ++ c :: B) with ((A ++ [39]) ++ D ++ 39 :: c :: B) by (by rewrite <- !(assoc_L app); cbn [app]; rewrite <- (assoc_L app)).
    rewrite <- (sub_middle (A ++ [39]) D (39 :: c :: B)). f_equal; rewrite length_app; cbn [length]; rewrite ?length_app; cbn [length]; lia. }
  rewrite to_bytes_of_bytes by done.
  assert ((if b then of_bytes (undouble 39 D) else of_bytes D) = v) as ->; [|by repeat eexists].
  unfold D. destruct b eqn:Eb; [by rewrite undouble_double, of_bytes_to_bytes|]. rewrite double_none, of_bytes_to_bytes; [done|].
  rewrite <- (flat_items (to_bytes v)), Hi by apply to_bytes_is_byte. unfold flat. intros (it & Hin & Hit)%list_elem_of_bind.
  apply list_elem_of_fmap in Hit as (r & -> & Hrs). cbn [item_bytes] in Hin. rewrite Forall_forall in Hvr.
  apply (encode_rune_low r 39) in Hin as ->; [|by apply Hvr|done]. apply not_true_iff_false in Eb. apply Eb, existsb_exists. exists 39.
  split; [by apply list_elem_of_In|done].
Qed.

Lemma loop_entry path human A k v c B q0 k0 d0 n cf : path = A ++ write_entry human k v ++ c :: B -> good_key k = true ->
  ValidString (to_bytes v) = true -> c = 44 \/ c = 58 -> Forall is_byte B ->
  exists t, sets t (length A + length (write_entry human k v)) c k v n cf /\
  loop path (items (write_entry human k v ++ c :: B)) (length A) (mkVars stateParam (length A) q0 k0 d0 n cf) =
  after path (Rune c) (items B) (length A + length (write_entry human k v)) t.
Proof.
  intros Hp Hk Hv Hc HB. destruct (sep_cases c Hc) as (Hr & _ & _ & H61 & Hsep). unfold write_entry in *.
  assert (str_eqb k "" = false) as Hne by (apply andb_true_iff in Hk as [Hk _]; by destruct (str_eqb k "")).
  destruct (human && str_eqb v "true") eqn:Et.
  - rewrite app_nil_r in *. rewrite items_ascii by bytes. rewrite loop_skip by (by apply good_key_skip). rewrite loop_cons, flat_to_bytes.
    apply andb_true_iff in Et as [_ ->%str_eqb_eq]. eexists. split; [|reflexivity]. unfold step. fields.
    rewrite Hsep, Hp, sub_middle, of_bytes_to_bytes, Hne, H61. cbn [orb]. by repeat eexists.
  - set (X := if negb human || has_special v then write_quoted v else to_bytes v) in *.
    assert (Forall is_byte X) as HX.
    { subst X. destruct (_ || _); [|bytes]. unfold write_quoted. bytes. apply Forall_bind, Forall_true. intros it. cbv beta delta [compose].
      apply Forall_app_2; [apply encode_rune_bytes|]. destruct (item_rune it =? 39); bytes. }
    rewrite <- (assoc_L app). cbn [app]. rewrite items_ascii by bytes. rewrite loop_skip by (by apply good_key_skip). rewrite loop_cons, flat_to_bytes.
    assert (path = A ++ to_bytes k ++ 61 :: X ++ c :: B) as Hp' by (by rewrite Hp, <- (assoc_L app)).
    replace (step path (length A + length (to_bytes k)) (item_rune (Rune 61)) (mkVars stateParam (length A) q0 k0 d0 n cf))
      with (Continue (mkVars stateValue (length (A ++ to_bytes k ++ [61%Z])) q0 k d0 n cf)).
    2:{ unfold step. fields. rewrite Hp', sub_middle, of_bytes_to_bytes, Hne. cbn. by rewrite !length_app, Nat.add_1_r, Nat.add_succ_r. }
    cbn [after item_bytes]. change (length (encode_rune 61)) with 1%nat.
    replace (length A + length (to_bytes k) + 1)%nat with (length (A ++ to_bytes k ++ [61%Z])) by (rewrite !length_app; cbn [length]; lia).
    replace (length A + length (to_bytes k ++ 61%Z :: X))%nat with (length (A ++ to_bytes k ++ [61%Z]) + length X)%nat
      by (rewrite !length_app; cbn [length]; lia).
    assert (path = (A ++ to_bytes k ++ [61%Z]) ++ X ++ c :: B) as Hp'' by (by rewrite Hp', <- !(assoc_L app)).
    subst X. destruct (negb human || has_special v) eqn:Eq; [by apply loop_quotes|]. apply loop_unquoted; [done| |done..].
    by apply orb_false_iff in Eq as [_ Eq].
Qed.

(** The entries of the keys, each after a comma. *)
Definition entries (human : bool) (c : Simple) (ks : list string) : bytes :=
  ks ≫= fun k => 44 :: write_entry human k (default "" (c !! k)).

Definition ins (c m : gmap string string) (k : string) : gmap string string := <[k := default "" (c !! k)]> m.

Lemma write_entry_ne human k v : good_key k = true -> write_entry human k v <> [].
Proof.
  intros [Hk _]%andb_true_iff. unfold write_entry. intros [H _]%app_eq_nil. apply negb_true_iff, str_eqb_neq in Hk. by apply Hk, to_bytes_inj.
Qed.

Lemma write_entries_more human c out ks : out <> [] -> write_entries human c out ks = out ++ entries human c ks.
Proof.
  revert out. induction ks as [|k ks IH]; intros out Hne; cbn [write_entries]; [by rewrite app_nil_r|].
  rewrite IH by (by destruct out). destruct out as [|b out]; [done|]. unfold entries. cbn [app]. by rewrite <- !(assoc_L app).
Qed.

(** The loop reads all the entries and stops at the colon. *)
Lemma loop_entries path human c B n ks : forall k A q0 k0 d0 m,
  path = A ++ write_entry human k (default "" (c !! k)) ++ entries human c ks ++ 58 :: B ->
  Forall (fun k => good_key k = true /\ ValidString (to_bytes (default "" (c !! k))) = true) (k :: ks) -> Forall is_byte B -> Forall is_byte (entries human c ks) ->
  loop path (items (write_entry human k (default "" (c !! k)) ++ entries human c ks ++ 58 :: B)) (length A) (mkVars stateParam (length A) q0 k0 d0 n (Some m)) =
  (mkParsed n (of_bytes (A ++ write_entry human k (default "" (c !! k)) ++ entries human c ks)) (of_bytes B) (Some (foldl (ins c) m (k :: ks))), None).
Proof.
  induction ks as [|k' ks IH]; intros k A q0 k0 d0 m Hp Hgood HB HE; inversion Hgood as [|? ? [Hk Hv] Hks]; subst x l.
  - set (w := write_entry _ _ _) in *. cbn [entries mbind list_bind app] in Hp |- *. rewrite app_nil_r.
    destruct (loop_entry path human A k (default "" (c !! k)) 58 B q0 k0 d0 n (Some m)) as (t & (s & p & q & d & ->) & Hl); [done..|by right|done|].
    fold w in Hl. rewrite Hl. clear Hl. unfold end_value. change (58 =? 58) with true. cbn [after]. fields. f_equal. f_equal.
    + rewrite Hp. unfold sub. rewrite Nat.sub_0_r, drop_0, (assoc_L app), <- length_app, take_app_length. done.
    + replace path with ((A ++ w ++ [58]) ++ B ++ []) by (by rewrite Hp, app_nil_r, <- !(assoc_L app)).
      rewrite <- (sub_middle (A ++ w ++ [58]) B []). f_equal; rewrite ?app_nil_r, !length_app; cbn [length]; lia.
  - set (w := write_entry human k _) in *. change (entries human c (k' :: ks)) with (44 :: write_entry human k' (default "" (c !! k')) ++ entries human c ks) in *.
    set (w' := write_entry human k' _) in *. inversion HE as [|? ? _ HE']; subst x l. apply Forall_app in HE' as [Hw' HE'].
    cbn [app] in Hp |- *. rewrite <- (assoc_L app) in Hp |- *.
    destruct (loop_entry path human A k (default "" (c !! k)) 44 (w' ++ entries human c ks ++ 58 :: B) q0 k0 d0 n (Some m)) as (t & (s & p & q & d & ->) & Hl);
      [done..|by left|bytes|]. fold w in Hl. rewrite Hl. clear Hl. unfold end_value. change (44 =? 58) with false. cbn [after]. fields.
    change (length (item_bytes (Rune 44))) with 1%nat.
    replace (length A + length w + 1)%nat with (length (A ++ w ++ [44%Z])) by (rewrite !length_app; cbn [length]; lia).
    replace (S (length A + length w)) with (length (A ++ w ++ [44%Z])) by (rewrite !length_app; cbn [length]; lia).
    unfold set_config. fields. change (default ∅ (Some m)) with m. subst w'. rewrite IH; [|by rewrite Hp, <- !(assoc_L app)|done..]. cbn [foldl]. do 3 f_equal. by rewrite <- !(assoc_L app).
Qed.

(** *** The name *)

Lemma name_chars n : documented_name (runes n) = true ->
  Forall (fun it => is_word (item_rune it) || is_sep (item_rune it) = true) (items (to_bytes n)).
Proof.
  intros H. unfold documented_name in H. rewrite !andb_true_iff in H. destruct H as [[_ H] _]. rewrite forallb_forall in H.
  apply Forall_forall. intros it Hit. apply H. unfold runes. by apply in_map, list_elem_of_In.
Qed.

Lemma name_char_cases c : is_word c || is_sep c = true -> (c =? 58) = false /\ (c =? 44) = false /\ (c =? 47) = false /\ (c =? 92) = false.
Proof. intros H. split_and!; apply Z.eqb_neq; intros ->; by rewrite is_word_ascii in H. Qed.

Lemma name_skip path n : documented_name (runes n) = true ->
  Forall (fun it => forall j, step path j (item_rune it) start = Continue start) (items (to_bytes n)).
Proof.
  intros H%name_chars. eapply Forall_impl; [exact H|]. intros it (H1 & H2 & H3 & H4)%name_char_cases j. unfold step. fields.
  rewrite H1, H2, H3, H4. by rewrite andb_false_r.
Qed.

Lemma CheckConfigName_lang n : CheckConfigName n = None <-> lang false configNameRe (runes n).
Proof. rewrite CheckConfigName_spec, name_lang, andb_true_iff, negb_true_iff. done. Qed.

Lemma documented_ne n : documented_name (runes n) = true -> n <> "".
Proof. by intros H ->. Qed.

(** A legal name, or a backend's name after a colon, is a legal name of a remote. *)
Lemma checkRemoteName_legal name n : CheckConfigName n = None -> name = n \/ name = ":" +:+ n -> checkRemoteName (name +:+ ":") = None.
Proof.
  intros Hn Hname. apply CheckConfigName_spec in Hn as Hd. destruct Hd as [Hd _]. apply documented_ne in Hd as Hne. unfold checkRemoteName.
  assert (forall s, s <> "" -> str_eqb (s +:+ ":") ":" = false) as Hcolon.
  { intros s Hs. apply str_eqb_neq. intros [= H]. destruct s as [|c s]; [done|]. injection H as _ H. by destruct s. }
  assert (str_eqb (name +:+ ":") ":" = false) as -> by (apply Hcolon; by destruct Hname as [-> | ->]).
  assert (str_eqb (name +:+ ":") "::" = false) as ->.
  { apply str_eqb_neq. intros H. destruct Hname as [-> | ->].
    - destruct n as [|c n]; [done|]. injection H as -> H. assert (58 ∈ runes (String ":" n)) as Hin by (rewrite runes_cons by (vm_compute; lia); left).
      apply list_elem_of_fmap in Hin as (it & Hit & Hin). apply name_chars in Hd. rewrite Forall_forall in Hd. apply Hd, name_char_cases in Hin as [Hin _]. by rewrite <- Hit in Hin.
    - apply (str_eqb_neq (n +:+ ":") ":"); [by apply Hcolon|]. by injection H. }
  cbn [orb]. apply CheckConfigName_lang in Hn.
  enough (found false remoteNameMatcher (runes (name +:+ ":")) = true) as -> by done.
  rewrite runes_ascii by (vm_compute; lia). change (Z.of_nat (nat_of_ascii ":")) with 58. change (runes "") with (@nil Z).
  apply found_spec. exists 0%nat, (S (length (runes name))). split; [lia|]. apply (m_seq _ _ _ _ _ 0); [constructor|].
  assert (exists pre, runes name = pre ++ runes n /\ lang false (Opt (Chr 58)) pre) as (pre & He & Hpre).
  { destruct Hname as [-> | ->]; [exists []; split; [done|apply l_alt2; constructor]|].
    exists [58]. split; [change (":" +:+ n) with (String ":" n); by rewrite runes_cons by (vm_compute; lia)|]. apply l_alt1. by constructor. }
  rewrite He. rewrite <- (assoc_L app). apply (m_seq _ _ _ _ _ (length pre)).
  - apply (lang_matches _ _ _ Hpre []).
  - apply (m_seq _ _ _ _ _ (length pre + length (runes n))); [by apply lang_matches|].
    apply m_alt1. apply (m_seq _ _ _ _ _ (S (length (pre ++ runes n)))).
    + rewrite <- length_app, (assoc_L app). eapply m_chr; [by apply list_lookup_middle|done].
    + replace (S (length (pre ++ runes n))) with (length (pre ++ runes n ++ [58])) by (rewrite !length_app; cbn [length]; lia). constructor.
Qed.

(** The loop up to the character after the name. *)
Lemma loop_name path name n c B : CheckConfigName n = None -> name = n \/ name = ":" +:+ n -> 0 <= c < 128 -> Forall is_byte B ->
  path = to_bytes name ++ c :: B -> loop path (items path) 0 start = after path (Rune c) (items B) (length (to_bytes name)) (step path (length (to_bytes name)) c start).
Proof.
  intros Hn Hname Hc HB Hp. apply CheckConfigName_spec in Hn as [Hd _]. destruct Hname as [-> | ->].
  - rewrite Hp at 2. rewrite items_ascii by bytes. rewrite loop_skip by (by apply name_skip). by rewrite loop_cons, flat_to_bytes.
  - rewrite Hp at 2. rewrite to_bytes_app. change (to_bytes ":") with [58]. cbn [app]. rewrite items_ascii_cons by bytes. rewrite items_ascii by bytes.
    rewrite loop_cons. change (step path 0 (item_rune (Rune 58)) start) with (Continue start). cbn [after item_bytes]. change (length (encode_rune 58)) with 1%nat.
    rewrite loop_skip by (by apply name_skip). rewrite loop_cons, flat_to_bytes. done.
Qed.

Lemma foldl_ins c ks : forall m j, foldl (ins c) m ks !! j = if decide (j ∈ ks) then Some (default "" (c !! j)) else m !! j.
Proof.
  induction ks as [|k ks IH]; intros m j; cbn [foldl]; [by rewrite decide_False by apply not_elem_of_nil|]. rewrite IH.
  destruct (decide (j ∈ ks)) as [Hj|Hj]; [by rewrite decide_True by (by right)|]. unfold ins. destruct (decide (j = k)) as [->|Hne].
  - rewrite lookup_insert_eq. by rewrite decide_True by left.
  - rewrite lookup_insert_ne by done. rewrite decide_False; [done|]. by intros [|]%elem_of_cons.
Qed.

Lemma sorted_keys_elem (c : gmap string string) k : k ∈ sorted_keys c <-> exists v, c !! k = Some v.
Proof.
  unfold sorted_keys. rewrite sort_Stable_perm. split.
  - intros ([k' v] & -> & Hin)%list_elem_of_fmap. apply elem_of_map_to_list in Hin. by exists v.
  - intros [v Hv]. apply list_elem_of_fmap. exists (k, v). split; [done|]. by apply elem_of_map_to_list.
Qed.

Lemma foldl_ins_all (c : gmap string string) : foldl (ins c) ∅ (sorted_keys c) = c.
Proof.
  apply map_eq. intros j. rewrite foldl_ins. destruct (decide _) as [[v Hv]%sorted_keys_elem|Hj]; [by rewrite Hv|].
  rewrite lookup_empty. destruct (c !! j) as [v|] eqn:E; [|done]. exfalso. apply Hj, sorted_keys_elem. by exists v.
Qed.

(** Maps that the syntax of a connection string can carry: the parser's names, and values in valid UTF-8. *)
Definition good_config (m : gmap string string) : Prop := forall k v, m !! k = Some v -> good_key k = true /\ ValidString (to_bytes v) = true.

Lemma write_entry_bytes human k v : Forall is_byte (write_entry human k v).
Proof.
  unfold write_entry. apply Forall_app_2; [bytes|]. destruct (_ && _); [bytes|]. constructor; [unfold is_byte; lia|]. destruct (_ || _); [|bytes].
  unfold write_quoted. bytes. apply Forall_bind, Forall_true. intros it. cbv beta delta [compose].
  apply Forall_app_2; [apply encode_rune_bytes|]. destruct (item_rune it =? 39); bytes.
Qed.

Lemma entries_bytes human c ks : Forall is_byte (entries human c ks).
Proof. apply Forall_bind, Forall_true. intros k. constructor; [unfold is_byte; lia|apply write_entry_bytes]. Qed.

Lemma Simple_string_bytes human (m : Simple) : good_config m -> m <> ∅ -> exists k ks, sorted_keys m = k :: ks /\
  to_bytes (Simple_string human m) = write_entry human k (default "" (m !! k)) ++ entries human m ks.
Proof.
  intros Hg Hne. unfold Simple_string. destruct (sorted_keys m) as [|k ks] eqn:E.
  - exfalso. apply Hne. by rewrite <- (foldl_ins_all m), E.
  - exists k, ks. split; [done|]. cbn [write_entries app].
    assert (good_key k = true) as Hk. { destruct (proj1 (sorted_keys_elem m k)) as [v Hv]; [rewrite E; by left|]. by apply (Hg k v). }
    rewrite write_entries_more by (by apply write_entry_ne). rewrite to_bytes_of_bytes; [done|].
    apply Forall_app_2; [apply write_entry_bytes|apply entries_bytes].
Qed.

Lemma Parse_loop s : (58 ∈ runes s) -> Parse s = loop (to_bytes s) (items (to_bytes s)) 0 start.
Proof.
  intros Hin. unfold Parse. destruct (str_eqb s "") eqn:E; [apply str_eqb_eq in E as ->; by apply not_elem_of_nil in Hin|].
  destruct (existsb _ _) eqn:Ex; [done|]. apply not_true_iff_false in Ex. exfalso. apply Ex, existsb_exists. exists 58.
  split; [by apply list_elem_of_In|done].
Qed.

Lemma has_colon a b : 58 ∈ runes (a +:+ ":" +:+ b).
Proof. change (":" +:+ b) with (String ":" b). rewrite runes_ascii by (vm_compute; lia). apply elem_of_app. right. by left. Qed.

Lemma Parse_plain name n p : CheckConfigName n = None -> name = n \/ name = ":" +:+ n ->
  Parse (name +:+ ":" +:+ p) = (mkParsed name name p None, None).
Proof.
  intros Hn Hname. pose proof (checkRemoteName_legal name n Hn Hname) as Hcheck.
  rewrite Parse_loop by apply has_colon. set (path := to_bytes _).
  assert (path = to_bytes name ++ 58 :: to_bytes p) as Hp by (unfold path; by rewrite !to_bytes_app).
  rewrite (loop_name path name n 58 (to_bytes p)) by (done || apply to_bytes_is_byte).
  assert (sub path 0 (length (to_bytes name)) = name) as Hs by (rewrite Hp; etransitivity; [apply (sub_middle [])|apply of_bytes_to_bytes]).
  unfold step. fields. change (state start) with stateConfigName. cbn [orb]. rewrite andb_comm.
  destruct (length (to_bytes name) =? 0)%nat eqn:E0.
  { exfalso. apply Nat.eqb_eq in E0. rewrite to_bytes_length in E0. destruct Hname as [-> | ->]; [|done]. destruct n; [|done]. done. }
  change (58 =? 58) with true. cbn [andb orb]. change (58 =? 47) with false. change (58 =? 92) with false. cbn [orb].
  rewrite Hs, Hcheck. cbn [after]. fields. rewrite Hs. f_equal. f_equal.
  rewrite Hp. replace (to_bytes name ++ 58 :: to_bytes p) with ((to_bytes name ++ [58]) ++ to_bytes p ++ []) by (by rewrite app_nil_r, <- (assoc_L app)).
  etransitivity; [|apply (of_bytes_to_bytes p)]. rewrite <- (sub_middle (to_bytes name ++ [58]) (to_bytes p) []).
  f_equal; rewrite ?app_nil_r, !length_app; cbn [length]; lia.
Qed.

Lemma Parse_params name n human (m : Simple) p : CheckConfigName n = None -> name = n \/ name = ":" +:+ n -> good_config m -> m <> ∅ ->
  let conf := name +:+ "," +:+ Simple_string human m in Parse (conf +:+ ":" +:+ p) = (mkParsed name conf p (Some m), None).
Proof.
  intros Hn Hname Hm. pose proof (checkRemoteName_legal name n Hn Hname) as Hcheck.
  intros Hne conf. rewrite Parse_loop by apply has_colon. set (path := to_bytes _).
  destruct (Simple_string_bytes human m Hm Hne) as (k & ks & Hks & Hss).
  assert (path = to_bytes name ++ 44 :: write_entry human k (default "" (m !! k)) ++ entries human m ks ++ 58 :: to_bytes p) as Hp.
  { unfold path, conf. rewrite !to_bytes_app, Hss. change (to_bytes ",") with [44]. change (to_bytes ":") with [58]. by rewrite <- !(assoc_L app). }
  rewrite (loop_name path name n 44 (write_entry human k (default "" (m !! k)) ++ entries human m ks ++ 58 :: to_bytes p));
    [|done|done|lia| |done].
  2:{ apply Forall_app_2; [apply write_entry_bytes|]. apply Forall_app_2; [apply entries_bytes|bytes]. }
  assert (sub path 0 (length (to_bytes name)) = name) as Hs by (rewrite Hp; etransitivity; [apply (sub_middle [])|apply of_bytes_to_bytes]).
  unfold step. fields. change (state start) with stateConfigName. change (44 =? 58) with false. rewrite andb_false_r.
  change (44 =? 47) with false. change (44 =? 92) with false. change (44 =? 44) with true. cbn [orb]. rewrite Hs, Hcheck. cbn [after].
  change (length (item_bytes (Rune 44))) with 1%nat. rewrite Nat.add_1_r.
  replace (S (length (to_bytes name))) with (length (to_bytes name ++ [44%Z])) by (rewrite length_app; cbn [length]; lia).
  rewrite loop_entries; [|by rewrite Hp, <- (assoc_L app)| |bytes|apply entries_bytes].
  + rewrite <- Hks, foldl_ins_all, of_bytes_to_bytes, <- Hss. unfold conf.
    change [44] with (to_bytes ","). by rewrite <- !to_bytes_app, of_bytes_to_bytes, str_app_assoc.
  + rewrite <- Hks. apply Forall_forall. intros j [v Hv]%sorted_keys_elem. pose proof (Hm j v Hv) as Hj. change ((m : gmap string string) !! j = Some v) in Hv. unfold Simple. rewrite Hv. exact Hj.
Qed.

(** C11: what is printed parses back.  A connection string made of a legal name (or a backend's name after a colon), the
    parameters of a map as [Simple.String] or [Simple.Human] print them, and any path is parsed without an error into that name,
    that map and that path; without parameters the map is nil. *)
Theorem Parse_roundtrip name n human (m : Simple) p : CheckConfigName n = None -> name = n \/ name = ":" +:+ n -> good_config m ->
  Parse (name +:+ ":" +:+ p) = (mkParsed name name p None, None) /\
  (m <> ∅ -> let conf := name +:+ "," +:+ Simple_string human m in Parse (conf +:+ ":" +:+ p) = (mkParsed name conf p (Some m), None)).
Proof. intros Hn Hname Hm. split; [by apply (Parse_plain name n)|]. intros Hne. by apply (Parse_params name n). Qed.

(** ** Theory: what is parsed *)

(** What the loop knows after the characters [text]; it ends when its state becomes [stateDone]. *)
Definition has_name (v : vars) (text : list item) : Prop :=
  (exists suffix, of_bytes (flat text) = v_name v +:+ suffix) /\ checkRemoteName (v_name v +:+ ":") = None /\
  (forall cf k x, v_config v = Some cf -> (cf : gmap string string) !! k = Some x -> good_key k = true).

Definition loop_inv (text : list item) (v : vars) : Prop :=
  match state v with
  | stateConfigName => v_name v = "" /\ v_config v = None
  | stateParam => has_name v text /\ exists a b, text = a ++ b /\ prev v = length (flat a) /\ Forall (fun it => isConfigParam (item_rune it) = true) b
  | stateDone => False
  | _ => has_name v text /\ good_key (param v) = true
  end.

Lemma of_bytes_app a b : of_bytes (a ++ b) = of_bytes a +:+ of_bytes b.
Proof. unfold of_bytes. rewrite map_app. induction (map _ a) as [|c l IH]; [done|]. cbn. by rewrite IH. Qed.

Lemma has_name_mono v v' text it : v_name v' = v_name v -> v_config v' = v_config v -> has_name v text -> has_name v' (text ++ [it]).
Proof.
  unfold has_name. intros -> -> ((s & Hs) & H2 & H3). split_and!; [|done|done]. rewrite flat_app, of_bytes_app, Hs, str_app_assoc. by eexists.
Qed.

Lemma has_name_set v v' text it value : v_name v' = v_name v -> v_config v' = set_config v value -> good_key (param v) = true ->
  has_name v text -> has_name v' (text ++ [it]).
Proof.
  unfold has_name, set_config. intros -> -> Hk ((s & Hs) & H2 & H3). split_and!; [|done|].
  - rewrite flat_app, of_bytes_app, Hs, str_app_assoc. by eexists.
  - intros cf k x [= <-] Hl. destruct (decide (k = param v)) as [->|Hne]; [done|]. unfold Simple in *. rewrite lookup_insert_ne in Hl by done.
    destruct (v_config v) as [cf|] eqn:E; cbn [default] in Hl; [by apply (H3 cf k x)|by rewrite lookup_empty in Hl].
Qed.

(** The parameter that ends here has legal characters. *)
Lemma param_good a b rest : Forall (fun it => isConfigParam (item_rune it) = true) b ->
  let p := sub (flat (a ++ b) ++ rest) (length (flat a)) (length (flat (a ++ b))) in str_eqb p "" = false -> good_key p = true.
Proof.
  intros Hb p Hne. assert (p = of_bytes (flat b)) as Hp.
  { unfold p. rewrite flat_app, <- (assoc_L app), length_app. apply sub_middle. }
  assert (canonical b) as Hc.
  { clear -Hb. induction Hb as [|it b Hit _ IH]; [done|]. destruct it as [r|x]; [|done]. cbn [canonical]. split; [|done].
    cbn [item_rune] in Hit. unfold isConfigParam in Hit. apply ValidRune_spec. lia. }
  unfold good_key. rewrite Hne. cbn [negb andb]. rewrite Hp. unfold runes. rewrite to_bytes_of_bytes by (by apply canonical_bytes). rewrite items_flat by done.
  apply forallb_forall. intros c (it & <- & Hin)%in_map_iff. rewrite Forall_forall in Hb. by apply Hb, list_elem_of_In.
Qed.

Definition turn_inv (text : list item) (it : item) (t : turn) : Prop :=
  match t with
  | Continue v => loop_inv (text ++ [it]) v
  | Break v => item_rune it = 58 /\ has_name v text
  | Return name config e => e = None -> name = "" /\ config = None
  end.

Lemma end_value_inv text it v value : item_rune it = 58 \/ item_rune it = 44 -> good_key (param v) = true -> has_name v text ->
  turn_inv text it (end_value v (length (flat text)) (item_rune it) value).
Proof.
  intros Hc Hk Hn. unfold end_value, turn_inv. destruct (item_rune it =? 58) eqn:E.
  - split; [by apply Z.eqb_eq|]. destruct Hn as (H1 & H2 & H3).
    pose proof (has_name_set v (mkVars stateDone 0 0 "" false (v_name v) (set_config v value)) text it value eq_refl eq_refl Hk (conj H1 (conj H2 H3))) as (_ & _ & H).
    split_and!; [done|done|]. exact H.
  - destruct Hc as [Hc|Hc]; [by rewrite Hc in E|]. cbn [loop_inv state]. split; [by apply (has_name_set v _ _ _ value)|].
    exists (text ++ [it]), []. rewrite app_nil_r. split_and!; [done| |constructor]. cbn [prev]. rewrite flat_app, flat_cons, length_app, length_app.
    destruct it as [r|x]; cbn [item_rune] in Hc; [subst r|done]. cbn. lia.
Qed.

Lemma step_inv text it its v : loop_inv text v ->
  turn_inv text it (step (flat (text ++ it :: its)) (length (flat text)) (item_rune it) v).
Proof.
  unfold step. set (c := item_rune it). intros Hinv. unfold loop_inv in Hinv.
  assert (forall v', state v' = state v -> v_name v' = v_name v -> v_config v' = v_config v -> param v' = param v -> state v <> stateParam ->
    turn_inv text it (Continue v')) as Hskip.
  { intros v' Hst Hn Hcf Hpa Hnp. unfold turn_inv, loop_inv. rewrite Hst. destruct (state v) eqn:Es; try (by rewrite Hn, Hcf); try done.
    1-3: split; [by apply (has_name_mono v); [done..|apply Hinv]|rewrite Hpa; apply Hinv]. }
  assert (sub (flat (text ++ it :: its)) 0 (length (flat text)) = of_bytes (flat text)) as Hsub by (rewrite flat_app; apply (sub_middle [])).
  destruct (state v) eqn:Es.
  - destruct Hinv as [Hn Hcf]. destruct ((_ =? 0)%nat && _); [by apply Hskip|]. destruct (_ || _); [destruct (match _ with [] => _ | _ => _ end); done|].
    destruct ((c =? 58) || (c =? 44)) eqn:Ec; [|by apply Hskip]. rewrite Hsub. destruct (checkRemoteName _) eqn:Ek; [done|].
    destruct (c =? 58) eqn:E58; cbn [turn_inv].
    + split; [by apply Z.eqb_eq|]. unfold has_name. fields. split_and!; [exists ""; by rewrite str_app_nil_r|done|by rewrite Hcf].
    + unfold loop_inv. fields. split.
      * unfold has_name. fields. split_and!; [rewrite flat_app, of_bytes_app; by eexists|done|]. intros cf k x [= <-]. unfold Simple. by rewrite lookup_empty.
      * exists (text ++ [it]), []. rewrite app_nil_r. split_and!; [done| |constructor]. rewrite flat_app, length_app, flat_cons, length_app.
        apply Z.eqb_eq in Ec. unfold c in *. destruct it as [r|x]; cbn [item_rune] in Ec; [subst r|done]. cbn. lia.
  - destruct Hinv as (Hn & a & b & -> & Hprev & Hb). destruct ((c =? 58) || (c =? 44) || (c =? 61)) eqn:Ec.
    + rewrite Hprev. destruct (str_eqb (sub _ _ _) "") eqn:Ep; [done|].
      pose proof Ep as Hg. rewrite flat_app in Hg. apply param_good in Hg; [|done]. rewrite <- flat_app in Hg.
      destruct (c =? 61) eqn:E61.
      * cbn [turn_inv]. unfold loop_inv. fields. split; [by apply (has_name_mono v)|done].
      * apply end_value_inv; [|done|done]. fold c. rewrite !orb_true_iff, !Z.eqb_eq in Ec. rewrite Z.eqb_neq in E61. naive_solver.
    + destruct (isConfigParam c) eqn:Ei; [|done]. cbn [negb turn_inv]. unfold loop_inv. rewrite Es. split; [by apply (has_name_mono v)|].
      exists a, (b ++ [it]). rewrite <- (assoc_L app). split_and!; [done|done|]. apply Forall_app_2; [done|by constructor].
  - destruct Hinv as [Hn Hk]. destruct ((c =? 39) || (c =? 34)).
    + destruct (_ =? _)%nat; [|by apply Hskip]. cbn [turn_inv]. unfold loop_inv. fields. split; [by apply (has_name_mono v)|done].
    + destruct ((c =? 58) || (c =? 44)) eqn:Ec; [|by apply Hskip]. apply end_value_inv; [|done|done]. fold c. rewrite orb_true_iff, !Z.eqb_eq in Ec. done.
  - destruct Hinv as [Hn Hk]. destruct (c =? quote v); [|by apply Hskip]. cbn [turn_inv]. unfold loop_inv. fields. split; [by apply (has_name_mono v)|done].
  - destruct Hinv as [Hn Hk]. destruct ((c =? 58) || (c =? 44)) eqn:Ec.
    + apply end_value_inv; [|done|done]. fold c. rewrite orb_true_iff, !Z.eqb_eq in Ec. done.
    + destruct (c =? quote v); [|done]. cbn [turn_inv]. unfold loop_inv. fields. split; [by apply (has_name_mono v)|done].
  - done.
Qed.

(** A local path, or a remote: the configuration, a colon and the path are the text; the name, which starts the configuration,
    is legal, and so are the parameters. *)
Definition parsed_ok (s : string) (p : Parsed) : Prop :=
  p = mkParsed "" "" s None \/
  (s = ConfigString p +:+ ":" +:+ Path p /\ (exists suffix, ConfigString p = Name p +:+ suffix) /\
   checkRemoteName (Name p +:+ ":") = None /\
   (forall cf k x, Config p = Some cf -> (cf : gmap string string) !! k = Some x -> good_key k = true)).

Lemma loop_sound its p : forall text v, loop_inv text v -> loop (flat (text ++ its)) its (length (flat text)) v = (p, None) ->
  parsed_ok (of_bytes (flat (text ++ its))) p.
Proof.
  induction its as [|it its IH]; intros text v Hinv; cbn [loop].
  - intros [= _ He]. unfold loop_inv in Hinv. by destruct (state v).
  - pose proof (step_inv text it its v Hinv) as Ht. destruct (step _ _ _ _) as [v'|v'|name config e]; cbn [turn_inv] in Ht.
    + replace (length (flat text) + length (item_bytes it))%nat with (length (flat (text ++ [it])))
        by (rewrite flat_app, length_app, flat_cons, length_app; cbn; lia).
      replace (text ++ it :: its) with ((text ++ [it]) ++ its) by (by rewrite <- (assoc_L app)). by apply IH.
    + destruct Ht as [H58 (Hs & Hn & Hk)]. intros [= <-]. right. cbn [ConfigString Path Name Config].
      assert (item_bytes it = [58]) as Hb by (destruct it as [r|x]; cbn [item_rune] in H58; [by subst r|done]).
      assert (flat (text ++ it :: its) = (flat text ++ [58]) ++ flat its ++ []) as Hflat by (by rewrite flat_app, flat_cons, Hb, app_nil_r, <- (assoc_L app)).
      assert (sub (flat (text ++ it :: its)) 0 (length (flat text)) = of_bytes (flat text)) as -> by (rewrite flat_app; apply (sub_middle [])).
      assert (sub (flat (text ++ it :: its)) (S (length (flat text))) (length (flat (text ++ it :: its))) = of_bytes (flat its)) as ->.
      { rewrite Hflat. rewrite <- (sub_middle (flat text ++ [58]) (flat its) []). f_equal; rewrite ?app_nil_r, !length_app; cbn [length]; lia. }
      split_and!; [|done..]. rewrite Hflat, app_nil_r, !of_bytes_app, str_app_assoc. done.
    + intros [= <- ->]. destruct (Ht eq_refl) as [-> ->]. by left.
Qed.

Lemma Parse_ok s p : Parse s = (p, None) -> parsed_ok s p.
Proof.
  unfold Parse. destruct (str_eqb s ""); [done|]. destruct (negb _); [intros [= <-]; by left|]. intros H.
  pose proof (loop_sound (items (to_bytes s)) p [] start) as Hs. cbn [app] in Hs.
  rewrite flat_items, of_bytes_to_bytes in Hs by apply to_bytes_is_byte. by apply Hs.
Qed.

Lemma path_Split_app s : fst (path_Split s) +:+ snd (path_Split s) = s.
Proof.
  unfold path_Split. destruct (last (split_on slash s)) as [f|] eqn:E; [|apply last_None in E; by apply split_on_nonempty in E].
  apply last_Some in E as [parts E]. cbn [fst snd]. rewrite E, length_app, Nat.add_sub, take_app_length, <- join_snoc, <- E.
  apply (join_split slash).
Qed.

Lemma SplitFs_app s p : Parse s = (p, None) -> exists a, SplitFs s = inr (a, Path p) /\ a +:+ Path p = s.
Proof.
  intros H. unfold SplitFs. rewrite H. eexists. split; [done|]. apply Parse_ok in H as [->|(Hs & (x & Hx) & Hn & _)]; [done|].
  destruct (str_eqb (ConfigString p) "") eqn:E; [|by rewrite str_app_assoc]. exfalso. apply str_eqb_eq in E. rewrite Hx in E.
  destruct (Name p); [by vm_compute in Hn|done].
Qed.

(** What is parsed without an error is a local path, returned as it is, or a remote: its configuration, a colon and its path
    are the text that was parsed, the configuration starts with a legal name and its parameters have legal names.  [SplitFs] and
    [Split] then cut the text in two parts that make it up again. *)
Theorem Parse_splits s p : Parse s = (p, None) ->
  parsed_ok s p /\ (exists a b, SplitFs s = inr (a, b) /\ a +:+ b = s) /\ (exists a b, Split s = inr (a, b) /\ a +:+ b = s).
Proof.
  intros H. split; [by apply Parse_ok|]. destruct (SplitFs_app s p H) as (a & Ha & Hs). split; [by eexists _, _|].
  unfold Split. rewrite Ha. pose proof (path_Split_app (Path p)) as Hp. destruct (path_Split (Path p)) as [x y]. cbn [fst snd] in Hp.
  exists (a +:+ x), y. split; [done|]. by rewrite str_app_assoc, Hp.
Qed.

(** ** Theory: joining *)

Lemma clean_parts_rooted stack parts : Forall good stack -> Forall (fun p => has_char slash p = false) parts ->
  Forall good (clean_parts true stack parts).
Proof.
  intros Hs Hp. revert stack Hs. induction Hp as [|p parts Hp _ IH]; intros stack Hs; cbn [clean_parts]; [by apply Forall_reverse|].
  destruct (str_eqb p "" || str_eqb p ".") eqn:E1; [by apply IH|]. apply orb_false_iff in E1 as [E0%str_eqb_neq E1%str_eqb_neq].
  destruct (str_eqb p "..") eqn:E2.
  - destruct Hs as [|top stack Ht Hs]; [by apply IH|]. destruct (str_eqb top "..") eqn:E3; [|by apply IH].
    apply str_eqb_eq in E3 as ->. by destruct Ht as (_ & _ & ? & _).
  - apply str_eqb_neq in E2. apply IH. by constructor.
Qed.

Lemma clean_parts_app rooted b : Forall (fun p => p = "" \/ good p) b ->
  forall a stack, clean_parts rooted stack (a ++ b) = clean_parts rooted stack a ++ filter (fun p => p <> "") b.
Proof.
  intros Hb a. induction a as [|p a IH]; intros stack; cbn [app clean_parts].
  - revert stack. induction Hb as [|p b [->|Hg] _ IH]; intros stack; [by rewrite app_nil_r|apply IH|].
    destruct Hg as (H0 & H1 & H2 & _). cbn [clean_parts]. rewrite filter_cons_True by done. apply str_eqb_neq in H0, H1, H2. rewrite H0, H1, H2. cbn [orb].
    rewrite IH, reverse_cons, <- (assoc_L app). done.
  - destruct (_ || _); [apply IH|]. destruct (str_eqb p ".."); [|apply IH]. destruct stack as [|top stack]; [destruct rooted; apply IH|].
    destruct (str_eqb top ".."); apply IH.
Qed.

Lemma split_no_char c s : Forall (fun p => has_char c p = false) (split_on c s).
Proof.
  induction s as [|x s IH]; cbn [split_on]; [by repeat constructor|]. destruct (Ascii.eqb x c) eqn:E; [by constructor|].
  destruct (split_on c s) as [|q qs]; [constructor; [|constructor]; cbn; by rewrite E|]. inversion IH; subst. constructor; [|done]. cbn. by rewrite E.
Qed.

(** The elements of a file path, as they are below the top. *)
Definition safe_parts (filePath : string) : list string := clean_parts true [] (split_on slash filePath).

Lemma safe_parts_good f : Forall good (safe_parts f).
Proof. apply clean_parts_rooted; [constructor|apply split_no_char]. Qed.

Lemma makeAbsolute_parts f : f <> "" -> makeAbsolute f = (if is_rooted f then "/" else "") +:+ join_with "/" (safe_parts f).
Proof.
  intros Hf. unfold makeAbsolute, path_Join. rewrite filter_cons_True, filter_cons_True by done. cbn [filter list_filter].
  assert (path_Clean (join_with "/" ["/"; f]) = "/" +:+ join_with "/" (safe_parts f)) as ->; [|by destruct (is_rooted f)].
  done.
Qed.

(** The root's own elements, then others. *)
Definition root_join (root : string) (ps : list string) : string :=
  let body := join_with "/" (clean_parts (is_rooted root) [] (split_on slash root) ++ ps) in
  if is_rooted root then "/" +:+ body else if str_eqb body "" then "." else body.

Lemma split_on_slash a b : split_on slash (a +:+ "/" +:+ b) = split_on slash a ++ split_on slash b.
Proof.
  induction a as [|x a IH]; [done|]. change ((String x a) +:+ "/" +:+ b) with (String x (a +:+ "/" +:+ b)). cbn [split_on]. rewrite IH.
  destruct (Ascii.eqb x slash); [done|]. pose proof (split_on_nonempty slash a). by destruct (split_on slash a).
Qed.

Lemma split_absolute f : let abs := makeAbsolute f in f <> "" -> abs <> "" ->
  Forall (fun p => p = "" \/ good p) (split_on slash abs) /\ filter (fun p => p <> "") (split_on slash abs) = safe_parts f.
Proof.
  intros abs Hf Habs. unfold abs in *. rewrite makeAbsolute_parts in * by done. pose proof (safe_parts_good f) as Hg.
  assert (forall l, Forall good l -> Forall (fun p => p = "" \/ good p) l /\ filter (fun p => p <> "") l = l) as Hall.
  { intros l Hl. split; [eapply Forall_impl; [exact Hl|]; by right|]. induction Hl as [|p l Hp _ IH]; [done|]. destruct Hp as (Hp & _).
    rewrite filter_cons_True by done. by rewrite IH. }
  assert (forall l, Forall good l -> l <> [] -> split_on slash (join_with "/" l) = l) as Hsplit.
  { intros l Hl Hne. apply (split_join slash); [done|by apply good_no_slash]. }
  destruct (is_rooted f).
  - change ("/" +:+ join_with "/" (safe_parts f)) with (String slash (join_with "/" (safe_parts f))). cbn [split_on]. rewrite Ascii.eqb_refl.
    destruct (safe_parts f) as [|q qs] eqn:E; [split; [by repeat constructor; left|done]|]. rewrite Hsplit by done.
    destruct (Hall (q :: qs) Hg) as [H1 H2]. split; [constructor; [by left|done]|]. by rewrite filter_cons_False by (by intros ?).
  - change ("" +:+ join_with "/" (safe_parts f)) with (join_with "/" (safe_parts f)) in *. rewrite Hsplit; [by apply Hall|done|]. by intros E; rewrite E in Habs.
Qed.

Lemma path_Clean_root r : path_Clean r = root_join r [].
Proof. unfold path_Clean, root_join. by rewrite app_nil_r. Qed.

Lemma Join_root r f : r <> "" -> f <> "" -> path_Join [r; makeAbsolute f] = root_join r (safe_parts f).
Proof.
  intros Hr Hf. unfold path_Join. rewrite filter_cons_True by done. destruct (decide (makeAbsolute f = "")) as [E|Hne].
  - rewrite filter_cons_False by (intros H; by apply H). cbn [filter list_filter]. change (join_with "/" [r]) with r. rewrite path_Clean_root.
    rewrite makeAbsolute_parts in E by done. destruct (is_rooted f); [done|]. destruct (safe_parts f) as [|q qs] eqn:Es; [done|].
    exfalso. apply (join_good_nonempty (q :: qs)); [rewrite <- Es; apply safe_parts_good|done|exact E].
  - rewrite filter_cons_True by done. cbn [filter list_filter]. destruct (split_absolute f Hf Hne) as [Hall Hfil].
    change (join_with "/" [r; makeAbsolute f]) with (r +:+ "/" +:+ makeAbsolute f).
    assert (is_rooted (r +:+ "/" +:+ makeAbsolute f) = is_rooted r) as Hroot by (by destruct r).
    unfold path_Clean, root_join. rewrite Hroot, split_on_slash, clean_parts_app, Hfil by done. done.
Qed.

Lemma Join_no_root f : f <> "" -> is_rooted f = false ->
  path_Join [""; makeAbsolute f] = (let r := root_join "" (safe_parts f) in if str_eqb r "." then "" else r).
Proof.
  intros Hf Hr. unfold path_Join. rewrite filter_cons_False by (intros H; by apply H). pose proof (safe_parts_good f) as Hg.
  rewrite makeAbsolute_parts, Hr by done. change ("" +:+ join_with "/" (safe_parts f)) with (join_with "/" (safe_parts f)).
  unfold root_join. cbn [is_rooted]. change (clean_parts false [] (split_on slash "")) with (@nil string). cbn [app].
  destruct (decide (safe_parts f = [])) as [->|Hs]; [done|]. pose proof (join_good_nonempty _ Hg Hs) as Hne.
  rewrite filter_cons_True by done. cbn [filter list_filter]. apply str_eqb_neq in Hne as Hne'. rewrite Hne'.
  unfold path_Clean. change (join_with "/" [join_with "/" (safe_parts f)]) with (join_with "/" (safe_parts f)).
  rewrite join_good_not_rooted, (split_join slash) by (done || by apply good_no_slash).
  rewrite clean_parts_good by done. cbn [app reverse]. change (reverse [] ++ safe_parts f) with (safe_parts f).
  rewrite Hne'. destruct (str_eqb (join_with "/" (safe_parts f)) ".") eqn:E1; [|done]. exfalso. apply str_eqb_eq in E1.
  destruct Hg as [|q qs (H1 & H2 & _) _]; [done|]. destruct qs as [|q' qs]; [done|]. destruct q as [|a q]; [done|]. injection E1 as -> E1. by destruct q.
Qed.

End theory.

(** ** Examples *)

Definition ascii_tables : Tables := {| letter_or_number := ascii_alnum |}.

Example Parse_examples : map (fun s => let '(p, e) := Parse (tables := ascii_tables) s in (Name p, ConfigString p, Path p, map_to_list (default ∅ (Config p)), e))
    ["remote:path/to"; "/local:x"; "a,b:x"; "r,p='it''s:',q=1:/x"; ":sftp,host=h:"; "::x"; "r,=1:"; "r,p='a:"; "no colon"; "a-:x"; "a b-:x"]
  = [("remote", "remote", "path/to", [], None); ("", "", "/local:x", [], None); ("a", "a,b", "x", [("b", "true")], None);
     ("r", "r,p='it''s:',q=1", "/x", [("q", "1"); ("p", "it's:")], None); (":sftp", ":sftp,host=h", "", [("host", "h")], None);
     (":", "", "::x", [], Some errConfigNameEmpty); ("r", "", "r,=1:", [], Some errEmptyConfigParam); ("r", "", "r,p='a:", [], Some errQuotedValue);
     ("", "", "no colon", [], None); ("a-", "", "a-:x", [], Some errInvalidCharacters); ("a b-", "a b-", "x", [], None)].
Proof. vm_compute. reflexivity. Qed.

Lemma ascii_tables_ascii c : 0 <= c < 128 -> letter_or_number (Tables := ascii_tables) c = ascii_alnum c.
Proof. done. Qed.

Lemma config_names_witness : CheckConfigName (tables := ascii_tables) "a--" = None /\ CheckConfigName (tables := ascii_tables) "a-" = Some errInvalidCharacters /\
  MakeConfigName (tables := ascii_tables) "a-" = "a-" /\
  (CheckConfigName (tables := ascii_tables) (MakeConfigName (tables := ascii_tables) " a?") = None <->
   lone_dash (tables := ascii_tables) (runes (MakeConfigName (tables := ascii_tables) " a?")) = false).
Proof.
  split_and!; [vm_compute; reflexivity..|]. apply (config_names (tables := ascii_tables) ascii_tables_ascii eq_refl " a?").
Defined.

Definition example_config : Simple := {[ "a" := "it's, x=1"; "b.c" := "true" ]}.

Lemma example_config_good : good_config example_config.
Proof.
  intros k v. unfold example_config, Simple. intros [[<- <-]|[_ [<- <-]%lookup_singleton_Some]]%lookup_insert_Some; vm_compute; done.
Qed.

Lemma Parse_roundtrip_witness : Simple_string true example_config = "a='it''s, x=1',b.c" /\
  Parse (tables := ascii_tables) ((":sftp" +:+ "," +:+ Simple_string true example_config) +:+ ":" +:+ "dir:/x")
  = (mkParsed ":sftp" (":sftp" +:+ "," +:+ Simple_string true example_config) "dir:/x" (Some example_config), None).
Proof.
  split; [vm_compute; reflexivity|].
  apply (Parse_roundtrip (tables := ascii_tables) ascii_tables_ascii ":sftp" "sftp" true example_config "dir:/x");
    [vm_compute; reflexivity|right; reflexivity|exact example_config_good|]. intros H. apply (f_equal (fun m : gmap string string => m !! "a")) in H. by vm_compute in H.
Defined.

Lemma Parse_splits_witness : exists a b, Split (tables := ascii_tables) "r,p='a:':x/y" = inr (a, b) /\ a +:+ b = "r,p='a:':x/y" /\ b = "y".
Proof.
  destruct (Parse_splits (tables := ascii_tables) "r,p='a:':x/y" (fst (Parse (tables := ascii_tables) "r,p='a:':x/y"))) as (_ & _ & a & b & Ha & Hb);
    [vm_compute; reflexivity|]. exists a, b. split; [exact Ha|]. split; [exact Hb|]. vm_compute in Ha. by injection Ha.
Defined.


(** The root that is the remote's default directory is left by a path with a slash at its start. *)
Example JoinRootPath_leaves : JoinRootPath (tables := ascii_tables) "sftp:" "/etc/passwd" = "sftp:/etc/passwd".
Proof. vm_compute. reflexivity. Qed.

(** A value that is not valid UTF-8 is printed with replacement characters, which is what parses back. *)
Definition bad_config : Simple := {[ "a" := of_bytes [255] ]}.

Example bad_utf8_changes : Parse (tables := ascii_tables) ("r," +:+ String_ bad_config +:+ ":") =
  (mkParsed "r" ("r," +:+ String_ bad_config) "" (Some {[ "a" := of_bytes [239; 191; 189] ]}), None).
Proof. vm_compute. reflexivity. Qed.
End FsPath.
