(* ===== verification/Listing.v ===== *)
(** * Listing one directory: fs/list

    [DirSorted] lists a directory, filters the entries and sorts them.
    [DirSortedFn] does the same for a listing that arrives in pages, with a
    sorter that goes over to sorting on disk when there are many entries: only
    keys are kept then, and the entries are made again from the keys.  The
    callbacks act on a state [S] and may return an error. *)
From S2P Require Import Prelude GoPath Entries FsErrors Filter.

Module Listing.
Import GoPath Entries.

(** What the listings ask of the filter that is in force. *)
Class Filtering (E : Type) : Type := {
  IncludeObject : Object -> bool;
  IncludeDirectory : string -> E + bool;
  ExcludeFile : list string;
  ListContainsExcludeFile : list DirEntry -> bool;
  InActive : bool;
  HaveFilesFrom : bool;
  UsesDirectoryFilters : bool }.

(** What they ask of the remote: a page is what one call of its callback gets, and an error may follow the pages. *)
Class Lister (E : Type) : Type := {
  List_ : string -> E + list DirEntry;
  ListP : option (string -> list (list DirEntry) * option E);
  NewObject : string -> E + Object }.

(** The sort on disk of github.com/lanrat/extsort: an error of its start, an error that shows after some keys were sent,
    and what it returns in the end: keys, and an error that may follow. *)
Class ExtSort (E : Type) : Type := {
  ext_start : option E;
  ext_error : list string -> option E;
  ext_output : list string -> list string * option E }.

Section listing.
Context {E : Type} {fi : Filtering E}.

(** ** Filtering *)

(** [bucket.IsAllSlashes] *)
Definition IsAllSlashes (s : string) : bool :=
  match s with "" => false | _ => forallb (Ascii.eqb slash) (String.list_ascii_of_string s) end.

(** [s[len(prefix):]] after [strings.HasPrefix(s, prefix)] *)
Fixpoint after_prefix (prefix s : string) : option string :=
  match prefix, s with
  | EmptyString, _ => Some s
  | String c prefix, String d s => if Ascii.eqb c d then after_prefix prefix s else None
  | _, _ => None
  end.

Definition dir_prefix (dir : string) : string :=
  if str_eqb dir "" then "" else if IsAllSlashes dir then dir else dir +:+ "/".

(** The name of the entry belongs in the directory. *)
Definition belongs (dir remote : string) : bool :=
  match after_prefix (dir_prefix dir) remote with
  | None => false
  | Some rest => if str_eqb remote dir then false else negb (has_char slash rest && negb (IsAllSlashes rest))
  end.

Definition included (includeAll : bool) (entry : DirEntry) : E + bool :=
  if includeAll then inr true
  else match entry with EObject o => inr (IncludeObject o) | EDir d => IncludeDirectory (dRemote d) end.

Fixpoint filterDir (includeAll : bool) (dir : string) (entries : list DirEntry) : E + list DirEntry :=
  match entries with
  | [] => inr []
  | entry :: entries =>
      match included includeAll entry with
      | inl e => inl e
      | inr ok =>
          match filterDir includeAll dir entries with
          | inl e => inl e
          | inr rest => inr (if ok && belongs dir (Remote entry) then entry :: rest else rest)
          end
      end
  end.

Definition filterAndSortDir (includeAll : bool) (dir : string) (entries : list DirEntry) : E + list DirEntry :=
  match filterDir includeAll dir entries with
  | inl e => inl e
  | inr entries => inr (sort_entries entries)
  end.

Definition DirSorted {l : Lister E} (includeAll : bool) (dir : string) : E + list DirEntry :=
  match List_ dir with
  | inl e => inl e
  | inr entries =>
      if negb includeAll && ListContainsExcludeFile entries then inr []
      else filterAndSortDir includeAll dir entries
  end.

(** ** Pages *)

Section pages.
Context {S : Type} (callback : list DirEntry -> S -> S * option E).

(** The pages of a listing, one after the other; an error of the callback ends it. *)
Fixpoint each_page (pages : list (list DirEntry)) (err : option E) (s : S) : S * option E :=
  match pages with
  | [] => (s, err)
  | page :: pages =>
      match callback page s with
      | (s, Some e) => (s, Some e)
      | (s, None) => each_page pages err s
      end
  end.

Definition listP {l : Lister E} (dir : string) (s : S) : S * option E :=
  match ListP with
  | Some doListP => let '(pages, err) := doListP dir in each_page pages err s
  | None => match List_ dir with inl e => (s, Some e) | inr entries => callback entries s end
  end.

(** *** [Helper]: entries are passed on in batches *)

Definition helper_send (max : nat) (entries : list DirEntry) (s : S) : (S * option E) * list DirEntry :=
  if (max <=? length entries)%nat then (callback entries s, []) else ((s, None), entries).

Definition helper_Add (entry : DirEntry) (entries : list DirEntry) (s : S) : (S * option E) * list DirEntry :=
  helper_send 100 (entries ++ [entry]) s.

Definition helper_Flush (entries : list DirEntry) (s : S) : S * option E := fst (helper_send 1 entries s).

(** Entries added one after the other, then flushed. *)
Fixpoint helper_all (todo entries : list DirEntry) (s : S) : S * option E :=
  match todo with
  | [] => helper_Flush entries s
  | entry :: todo =>
      match helper_Add entry entries s with
      | ((s, Some e), _) => (s, Some e)
      | ((s, None), entries) => helper_all todo entries s
      end
  end.
End pages.

(** [WithListP]: the pages put together. *)
Definition WithListP {l : Lister E} (dir : string) : list DirEntry * option E :=
  match ListP with
  | Some doListP => let '(pages, err) := doListP dir in each_page (fun page entries => (entries ++ page, None)) pages err []
  | None => ([], None)
  end.

(** ** The sorter *)

Record Sorter : Type := mkSorter {
  entries : list DirEntry;
  extSort : bool;
  input : list string }.           (* the keys that were sent to the sort on disk *)

Definition NewSorter : Sorter := mkSorter [] false [].

Definition nul : ascii := "000".

Definition TrimRight (s : string) : string :=
  String.string_of_list_ascii (reverse (trim_front (reverse (String.list_ascii_of_string s)))).

Section sorter.
Context {l : Lister E} {ext : ExtSort E} (keyFn : DirEntry -> string) (cutoff : Z).

Definition entryToKey (entry : DirEntry) : string :=
  keyFn entry +:+ String nul (TrimRight (Remote entry) +:+ (if is_dir entry then "/" else "")).

(** What is after the first NUL. *)
Fixpoint after_nul (key : string) : option string :=
  match key with
  | EmptyString => None
  | String c key => if Ascii.eqb c nul then Some key else after_nul key
  end.

Definition CutSuffix_slash (s : string) : option string :=
  match reverse (String.list_ascii_of_string s) with
  | c :: r => if Ascii.eqb c slash then Some (String.string_of_list_ascii (reverse r)) else None
  | [] => None
  end.

Inductive key_error : Type := MissingNull | NotFound (e : E).

(** [time.Time{}] of the directory is 0. *)
Definition keyToEntry (key : string) : key_error + DirEntry :=
  match after_nul key with
  | None => inl MissingNull
  | Some remote =>
      match CutSuffix_slash remote with
      | Some dir => inr (EDir (mkDirectory dir 0))
      | None => match NewObject remote with inl e => inl (NotFound e) | inr o => inr (EObject o) end
      end
  end.

Inductive sort_error : Type := Backend (e : E) | Keys (count : nat) (last : key_error).

Fixpoint sendEntriesToExtSort (todo : list DirEntry) (sent : list string) : list string * option E :=
  match todo with
  | [] => (sent, ext_error sent)
  | entry :: todo =>
      match ext_error sent with
      | Some e => (sent, Some e)
      | None => sendEntriesToExtSort todo (sent ++ [entryToKey entry])
      end
  end.

Definition startExtSort (ls : Sorter) : Sorter * option E :=
  match ext_start with
  | Some e => (ls, Some e)
  | None => let '(sent, err) := sendEntriesToExtSort (entries ls) [] in (mkSorter [] true sent, err)
  end.

Definition Sorter_Add (new : list DirEntry) (ls : Sorter) : Sorter * option E :=
  if extSort ls then let '(sent, err) := sendEntriesToExtSort new (input ls) in (mkSorter (entries ls) true sent, err)
  else
    let ls := mkSorter (entries ls ++ new) false (input ls) in
    if Z.of_nat (length (entries ls)) >=? cutoff then startExtSort ls else (ls, None).

Section send.
Context {S : Type} (callback : list DirEntry -> S -> S * option E).

(** The errors and the entries of a batch of keys. *)
Fixpoint make_entries (keys : list string) : list DirEntry * list key_error :=
  match keys with
  | [] => ([], [])
  | key :: keys =>
      let '(es, errs) := make_entries keys in
      match keyToEntry key with inl e => (es, e :: errs) | inr entry => (entry :: es, errs) end
  end.

Record batch_state : Type := mkBatch { keys : list string; errs : list key_error }.

Definition list_send (max : nat) (b : batch_state) (s : S) : (S * option E) * batch_state :=
  if (length (keys b) <? max)%nat then ((s, None), b)
  else
    let '(toSend, failed) := make_entries (keys b) in
    (callback toSend s, mkBatch [] (errs b ++ failed)).

Definition list_Add (key : string) (b : batch_state) (s : S) : (S * option E) * batch_state :=
  list_send 100 (mkBatch (keys b ++ [key]) (errs b)) s.

(** [errcount.Err] *)
Definition errs_Err (errs : list key_error) : option sort_error :=
  match last errs with None => None | Some e => Some (Keys (length errs) e) end.

Fixpoint send_keys (output : list string) (err : option E) (b : batch_state) (s : S) : S * option sort_error :=
  match output with
  | [] =>
      match err with
      | Some e => (s, Some (Backend e))
      | None =>
          match list_send 1 b s with
          | ((s, Some e), _) => (s, Some (Backend e))
          | ((s, None), b) => (s, errs_Err (errs b))
          end
      end
  | key :: output =>
      match list_Add key b s with
      | ((s, Some e), _) => (s, Some (Backend e))
      | ((s, None), b) => send_keys output err b s
      end
  end.

Definition key_less (a b : DirEntry) : bool := str_ltb (keyFn a) (keyFn b).

Definition Sorter_Send (ls : Sorter) (s : S) : S * option sort_error :=
  if extSort ls then let '(output, err) := ext_output (input ls) in send_keys output err (mkBatch [] []) s
  else let '(s, err) := callback (sort_Stable key_less (entries ls)) s in (s, option_map Backend err).
End send.

Definition CleanUp (ls : Sorter) : Sorter := mkSorter [] false (input ls).

(** A page is filtered and given to the sorter. *)
Definition sort_page (includeAll : bool) (dir : string) (page : list DirEntry) (ls : Sorter) : Sorter * option E :=
  if negb includeAll && ListContainsExcludeFile page then (ls, None)
  else
    match filterDir includeAll dir page with
    | inl e => (ls, Some e)
    | inr page => Sorter_Add page ls
    end.

Definition DirSortedFn {S} (callback : list DirEntry -> S -> S * option E) (includeAll : bool) (dir : string) (s : S) : S * option sort_error :=
  match listP (sort_page includeAll dir) dir NewSorter with
  | (_, Some e) => (s, Some (Backend e))
  | (ls, None) => Sorter_Send callback ls s
  end.
End sorter.
End listing.

(** ** Theory: filtering *)

Section theory.
Context {E : Type} {fi : Filtering E}.

(** Whether an entry passes, where the filter gives an answer. *)
Definition passes (includeAll : bool) (dir : string) (entry : DirEntry) : Prop :=
  included includeAll entry = inr true /\ belongs dir (Remote entry) = true.

#[export] Instance passes_dec includeAll dir entry : Decision (passes includeAll dir entry).
Proof.
  unfold passes. destruct (included includeAll entry) as [e|[|]]; [right; by intros [[=] _]| |right; by intros [[=] _]].
  destruct (belongs dir (Remote entry)); [by left|right; by intros [_ ?]].
Defined.

Lemma filterDir_spec includeAll dir es es' : filterDir includeAll dir es = inr es' -> es' = filter (passes includeAll dir) es.
Proof.
  revert es'. induction es as [|e es IH]; intros es'; cbn [filterDir]; [by intros [= <-]|].
  destruct (included includeAll e) as [x|ok] eqn:Ei; [done|]. destruct (filterDir includeAll dir es) as [x|rest]; [done|].
  rewrite (IH rest eq_refl). intros [= <-]. destruct ok; cbn [andb].
  - destruct (belongs dir (Remote e)) eqn:Eb; [by rewrite filter_cons_True by done|]. rewrite filter_cons_False; [done|]. intros [_ ?]; congruence.
  - rewrite filter_cons_False; [done|]. intros [? _]; congruence.
Qed.

Lemma after_prefix_app prefix rest : after_prefix prefix (prefix +:+ rest) = Some rest.
Proof. induction prefix as [|c p IH]; [done|]. change ((String c p) +:+ rest) with (String c (p +:+ rest)). cbn [after_prefix]. by rewrite Ascii.eqb_refl. Qed.

Lemma after_prefix_Some prefix s rest : after_prefix prefix s = Some rest -> s = prefix +:+ rest.
Proof.
  revert s. induction prefix as [|c p IH]; intros s; cbn [after_prefix]; [by intros [= <-]|]. destruct s as [|d s]; [done|].
  destruct (Ascii.eqb c d) eqn:E'; [|done]. intros H%IH. apply Ascii.eqb_eq in E' as ->. by rewrite H.
Qed.
End theory.

(** ** Theory: sorting in memory and on disk *)

(** A directory that is made again from its key has no time. *)
Definition minimal (e : DirEntry) : DirEntry := match e with EDir d => EDir (mkDirectory (dRemote d) 0) | EObject _ => e end.

(** A callback that collects the entries. *)
Definition collect {E} (es : list DirEntry) (acc : list DirEntry) : list DirEntry * option E := (acc ++ es, None).

Lemma str_lt_cons c a b : str_lt a b -> str_lt (String c a) (String c b).
Proof.
  unfold str_lt, str_ltb, String.ltb. cbn [String.compare].
  assert (Ascii.compare c c = Eq) as -> by (unfold Ascii.compare; apply N.compare_refl). done.
Qed.

Lemma str_lt_cons_inv c d a b : str_lt (String c a) (String d b) -> (c = d /\ str_lt a b) \/ forall a' b', str_lt (String c a') (String d b').
Proof.
  unfold str_lt, str_ltb, String.ltb. cbn [String.compare]. destruct (Ascii.compare c d) eqn:E; intros H.
  - left. split; [|done]. by apply Ascii.compare_eq_iff.
  - right. done.
  - done.
Qed.

(** Keys in order are in order with a NUL and any text after them. *)
Lemma key_order k1 k2 r1 r2 : has_char nul k2 = false -> str_lt k1 k2 -> str_lt (k1 +:+ String nul r1) (k2 +:+ String nul r2).
Proof.
  revert k2. induction k1 as [|c k1 IH]; intros [|d k2] Hn Hlt; try done.
  - cbn [has_char] in Hn. apply orb_false_iff in Hn as [Hd _]. change ("" +:+ String nul r1) with (String nul r1).
    change (String d k2 +:+ String nul r2) with (String d (k2 +:+ String nul r2)).
    unfold str_lt, str_ltb, String.ltb. cbn [String.compare]. destruct (Ascii.compare nul d) eqn:Ec; [|done|].
    + apply Ascii.compare_eq_iff in Ec. by rewrite <- Ec in Hd.
    + exfalso. unfold Ascii.compare in Ec. apply N.compare_gt_iff in Ec. change (N_of_ascii nul) with 0%N in Ec. lia.
  - cbn [has_char] in Hn. apply orb_false_iff in Hn as [_ Hn]. change (String c k1 +:+ ?r) with (String c (k1 +:+ r)).
    change (String d k2 +:+ ?r) with (String d (k2 +:+ r)). apply str_lt_cons_inv in Hlt as [[-> Hlt]|Hlt]; [|apply Hlt].
    apply str_lt_cons. by apply IH.
Qed.

Lemma after_nul_app k r : has_char nul k = false -> after_nul (k +:+ String nul r) = Some r.
Proof.
  induction k as [|c k IH]; [done|]. change (String c k +:+ String nul r) with (String c (k +:+ String nul r)). cbn [has_char after_nul].
  intros [Hc Hk]%orb_false_iff. destruct (Ascii.eqb c nul) eqn:E; [|by apply IH]. done.
Qed.

Section sorting.
Context {E : Type} {fi : Filtering E} {l : Lister E} {ext : ExtSort E} (keyFn : DirEntry -> string) (cutoff : Z).

(** The sort on disk works and sorts the strings. *)
Hypothesis ext_starts : ext_start = None.
Hypothesis ext_accepts : forall sent, ext_error sent = None.
Hypothesis ext_sorts : forall sent, ext_output sent = (sort_Stable str_ltb sent, None).


(** The entries can be made again: an object is found by its name, no name ends in a slash, and no key has a NUL. *)
Definition remakable (e : DirEntry) : Prop :=
  has_char nul (keyFn e) = false /\ TrimRight (Remote e) = Remote e /\ CutSuffix_slash (Remote e) = None /\
  match e with EObject o => NewObject (oRemote o) = inr o | EDir _ => True end.

Lemma list_ascii_string_app a b : String.list_ascii_of_string (a +:+ b) = String.list_ascii_of_string a ++ String.list_ascii_of_string b.
Proof. induction a as [|c a IH]; [done|]. exact (f_equal (cons c) IH). Qed.

Lemma keyToEntry_entryToKey e : remakable e -> keyToEntry (entryToKey keyFn e) = inr (minimal e).
Proof.
  intros (Hn & Ht & Hs & Ho). unfold keyToEntry, entryToKey. rewrite after_nul_app by done. rewrite Ht. destruct e as [o|d]; cbn [is_dir Remote minimal] in *.
  - by rewrite str_app_nil_r, Hs, Ho.
  - unfold CutSuffix_slash. rewrite list_ascii_string_app. change (String.list_ascii_of_string "/") with [slash]. rewrite reverse_snoc.
    rewrite Ascii.eqb_refl, reverse_involutive, String.string_of_list_ascii_of_string. done.
Qed.

Lemma make_entries_keys es : Forall remakable es -> make_entries (map (entryToKey keyFn) es) = (map minimal es, []).
Proof. induction 1 as [|e es He _ IH]; [done|]. cbn [map make_entries]. by rewrite IH, keyToEntry_entryToKey. Qed.

(** The keys come back as entries, in batches. *)
Lemma send_keys_collect es : forall p acc, Forall remakable (p ++ es) ->
  send_keys collect (map (entryToKey keyFn) es) None (mkBatch (map (entryToKey keyFn) p) []) acc = (acc ++ map minimal (p ++ es), None).
Proof.
  induction es as [|e es IH]; intros p acc H; cbn [map send_keys].
  - rewrite app_nil_r in *. unfold list_send. cbn [keys errs]. rewrite length_map. destruct (length p <? 1)%nat eqn:El.
    + apply Nat.ltb_lt in El. destruct p; [|cbn in El; lia]. cbn [map errs errs_Err last]. by rewrite app_nil_r.
    + by rewrite make_entries_keys.
  - unfold list_Add, list_send. cbn [keys errs]. change [entryToKey keyFn e] with (map (entryToKey keyFn) [e]). rewrite <- map_app, length_map.
    replace (p ++ e :: es) with ((p ++ [e]) ++ es) in * by (by rewrite <- (assoc_L app)).
    destruct (_ <? 100)%nat; [by apply IH|]. apply Forall_app in H as [Hp Hes]. rewrite make_entries_keys by done. unfold collect at 1. cbn [app].
    etransitivity; [apply (IH [] (acc ++ map minimal (p ++ [e]))); done|]. cbn [app]. by rewrite <- (assoc_L app), <- map_app.
Qed.

#[local] Instance key_less_weak : WeakOrder (key_less keyFn).
Proof.
  destruct str_ltb_weak as [H1 H2 H3]. unfold key_less. split; intros; eauto.
Qed.

#[local] Instance str_le_anti : AntiSymm (=) (fun a b => str_ltb b a = false).
Proof.
  intros a b Hba Hab. apply str_ltb_false in Hab as [->|Hab]; [done|]. apply str_ltb_false in Hba as [->|Hba]; [done|].
  destruct (irreflexivity str_lt a). by trans b.
Qed.

(** The keys of the sorted entries are the sorted keys. *)
Lemma sorted_keys_entries es : Forall remakable es -> NoDup (map keyFn es) ->
  sort_Stable str_ltb (map (entryToKey keyFn) es) = map (entryToKey keyFn) (sort_Stable (key_less keyFn) es).
Proof.
  intros Hr Hnd. apply (StronglySorted_unique (fun a b => str_ltb b a = false)).
  - exact (sort_Stable_sorted str_ltb _).
  - pose proof (sort_Stable_sorted (key_less keyFn) es) as Hs. pose proof (sort_Stable_perm (key_less keyFn) es) as Hp.
    assert (Forall remakable (sort_Stable (key_less keyFn) es)) as Hr' by (by rewrite Hp).
    assert (NoDup (map keyFn (sort_Stable (key_less keyFn) es))) as Hnd' by (by rewrite Hp).
    clear -Hs Hr' Hnd'. induction Hs as [|e l' Hs IH Hall]; [constructor|]. cbn [map] in *. apply NoDup_cons in Hnd' as [Hni Hnd'].
    inversion Hr' as [|? ? _ Hr'']; subst. constructor; [by apply IH|]. apply Forall_map. apply Forall_forall. intros x Hx.
    rewrite Forall_forall in Hall. specialize (Hall x Hx). cbn in Hall. unfold key_less in Hall. apply str_ltb_false in Hall as [Heq|Hlt].
    + exfalso. apply Hni. rewrite <- Heq. by apply list_elem_of_fmap_2.
    + apply str_ltb_false. right. rewrite Forall_forall in Hr''. apply key_order; [by apply Hr''|done].
  - etransitivity; [apply sort_Stable_perm|]. by rewrite sort_Stable_perm.
Qed.

Lemma sendEntriesToExtSort_all es sent : sendEntriesToExtSort keyFn es sent = (sent ++ map (entryToKey keyFn) es, None).
Proof.
  revert sent. induction es as [|e es IH]; intros sent; cbn [sendEntriesToExtSort map]; rewrite ext_accepts; [by rewrite app_nil_r|].
  rewrite IH. by rewrite <- (assoc_L app).
Qed.

(** What the sorter holds of the entries that it was given. *)
Definition holds (ls : Sorter) (es : list DirEntry) : Prop :=
  if extSort ls then entries ls = [] /\ input ls = map (entryToKey keyFn) es else entries ls = es /\ input ls = [].

Lemma Sorter_Add_holds new ls es : holds ls es -> exists ls', Sorter_Add keyFn cutoff new ls = (ls', None) /\ holds ls' (es ++ new).
Proof.
  unfold holds, Sorter_Add, startExtSort. destruct (extSort ls).
  - intros [He Hi]. rewrite sendEntriesToExtSort_all. eexists. split; [done|]. cbn [extSort entries input]. by rewrite He, Hi, map_app.
  - intros [He Hi]. cbn [entries input]. rewrite He, Hi. destruct (_ >=? cutoff); [|by eexists].
    rewrite ext_starts, sendEntriesToExtSort_all. eexists. split; [done|]. done.
Qed.

Lemma Sorter_Send_holds ls es : holds ls es -> Forall remakable es -> NoDup (map keyFn es) ->
  Sorter_Send keyFn collect ls [] = (if extSort ls then map minimal (sort_Stable (key_less keyFn) es) else sort_Stable (key_less keyFn) es, None).
Proof.
  intros Hh Hr Hn. unfold Sorter_Send, holds in *. destruct (extSort ls); destruct Hh as [He Hi].
  - rewrite Hi, ext_sorts, sorted_keys_entries by done. apply (send_keys_collect _ [] []). cbn [app]. by rewrite sort_Stable_perm.
  - by rewrite He.
Qed.

Lemma filterDir_app includeAll dir a b es : filterDir includeAll dir (a ++ b) = inr es ->
  exists ea eb, filterDir includeAll dir a = inr ea /\ filterDir includeAll dir b = inr eb /\ es = ea ++ eb.
Proof.
  revert es. induction a as [|e a IH]; intros es; cbn [app filterDir]; [intros H; by exists [], es|].
  destruct (included includeAll e) as [x|ok]; [done|]. destruct (filterDir includeAll dir (a ++ b)) as [x|rest]; [done|].
  destruct (IH rest eq_refl) as (ea & eb & -> & -> & ->). intros [= <-]. eexists _, eb. split; [done|]. split; [done|]. by destruct (ok && _).
Qed.

Lemma sort_pages includeAll dir pages : (includeAll = true \/ forall es, ListContainsExcludeFile es = false) ->
  forall ls es es', holds ls es -> filterDir includeAll dir (concat pages) = inr es' ->
  exists ls', each_page (sort_page keyFn cutoff includeAll dir) pages None ls = (ls', None) /\ holds ls' (es ++ es').
Proof.
  intros Hx. induction pages as [|page pages IH]; intros ls es es' Hh; cbn [concat each_page].
  - intros [= <-]. exists ls. split; [done|]. by rewrite app_nil_r.
  - intros (ea & eb & Ha & Hb & ->)%filterDir_app. unfold sort_page at 1.
    assert (negb includeAll && ListContainsExcludeFile page = false) as -> by (destruct Hx as [->|Hx]; [done|]; rewrite Hx; apply andb_false_r).
    rewrite Ha. destruct (Sorter_Add_holds ea ls es Hh) as (ls1 & -> & H1). destruct (IH ls1 _ eb H1 Hb) as (ls2 & H2 & H3).
    exists ls2. split; [exact H2|]. by rewrite (assoc_L app).
Qed.
End sorting.

(** *** Listing in pages *)

(** Entries with names of their own are sorted by their names. *)
Lemma sort_by_name es : NoDup (map Remote es) -> sort_Stable (key_less Remote) es = sort_entries es.
Proof.
  unfold sort_entries, sort_Stable. induction es as [|e es IH]; [done|]. cbn [map foldr]. intros [Hni Hnd]%NoDup_cons. rewrite IH by done.
  pose proof (sort_Stable_perm Less es) as Hp. unfold sort_Stable in Hp. set (l := foldr (stable_insert Less) [] es) in *.
  assert (Remote e ∉ map Remote l) as Hni' by (by rewrite Hp). clearbody l. clear -Hni'. induction l as [|x l IH]; [done|].
  cbn [map stable_insert] in *. apply not_elem_of_cons in Hni' as [Hne Hni']. rewrite IH by done.
  assert (key_less Remote x e = Less x e) as ->; [|done]. unfold key_less. destruct (str_ltb (Remote x) (Remote e)) eqn:E1.
  - symmetry. apply Less_spec. by left.
  - symmetry. apply Less_false. left. left. apply str_ltb_false in E1 as [E1|E1]; [congruence|done].
Qed.

(** C29: a listing in pages gives what a listing at once gives.  Where the pages of a directory make up its listing, and no file
    excludes the directory, [DirSortedFn] passes on the entries that [DirSorted] returns, in the same order, whatever the number
    of entries at which the sort moves to the disk; directories that went over the disk have lost their time. *)
Theorem DirSortedFn_correct {E} {fi : Filtering E} {l : Lister E} {ext : ExtSort E} cutoff includeAll dir doListP pages es :
  ext_start = None -> (forall sent, ext_error sent = None) -> (forall sent, ext_output sent = (sort_Stable str_ltb sent, None)) ->
  ListP = Some doListP -> doListP dir = (pages, None) -> List_ dir = inr (concat pages) ->
  (includeAll = true \/ forall es, ListContainsExcludeFile es = false) ->
  Forall (remakable Remote) (concat pages) -> NoDup (map Remote (concat pages)) -> DirSorted includeAll dir = inr es ->
  exists on_disk : bool,
    DirSortedFn Remote cutoff collect includeAll dir [] = (if on_disk then map minimal es else es, None).
Proof.
  intros H1 H2 H3 HP Hpages HL Hx Hr Hn. unfold DirSorted. rewrite HL.
  assert (negb includeAll && ListContainsExcludeFile (concat pages) = false) as -> by (destruct Hx as [->|Hx]; [done|]; rewrite Hx; apply andb_false_r).
  unfold filterAndSortDir. destruct (filterDir includeAll dir (concat pages)) as [x|es'] eqn:Ef; [done|]. intros [= <-].
  destruct (sort_pages Remote cutoff H1 H2 includeAll dir pages Hx NewSorter [] es') as (ls & Hls & Hh); [done|done|]. cbn [app] in Hh.
  unfold DirSortedFn, listP. rewrite HP, Hpages, Hls. apply filterDir_spec in Ef as Hes.
  assert (sublist es' (concat pages)) as Hsub by (rewrite Hes; apply sublist_filter).
  exists (extSort ls). rewrite (Sorter_Send_holds Remote H3 ls es' Hh).
  - rewrite sort_by_name; [done|]. eapply sublist_NoDup; [exact Hn|]. by apply (fmap_sublist Remote).
  - apply Forall_forall. intros x Hx'. rewrite Forall_forall in Hr. apply Hr. by eapply elem_of_sublist.
  - eapply sublist_NoDup; [exact Hn|]. by apply (fmap_sublist Remote).
Qed.

(** ** The filter of fs/filter *)

Section of_filter.
Context {env : Filter.FilterEnv} (f : Filter.Filter) (metadata : Object -> option (gmap string string)).

#[export] Instance filter_filtering : Filtering Filter.filter_error := {|
  IncludeObject o := Filter.IncludeObject f (oRemote o) (oSize o) (oModTime o) (metadata o);
  IncludeDirectory := Filter.IncludeDirectory f;
  ExcludeFile := Filter.ExcludeFile (Filter.Opt f);
  ListContainsExcludeFile := Filter.ListContainsExcludeFile f;
  InActive := Filter.InActive f;
  HaveFilesFrom := Filter.HaveFilesFrom f;
  UsesDirectoryFilters := Filter.UsesDirectoryFilters f |}.
End of_filter.

(** ** Examples *)

Definition example_object (r : string) : Object := mkObject r 1 0 None true 0.

#[local] Instance example_sort : ExtSort Filter.filter_error :=
  {| ext_start := None; ext_error _ := None; ext_output sent := (sort_Stable str_ltb sent, None) |}.

Definition example_pages : list (list DirEntry) := [[EObject (example_object "b"); EDir (mkDirectory "a" 7)]; [EObject (example_object "a.x")]].

#[local] Instance example_lister : Lister Filter.filter_error :=
  {| List_ _ := inr (concat example_pages); ListP := Some (fun _ => (example_pages, None)); NewObject r := inr (example_object r) |}.

Definition ignoring (names : list string) : Filter.Filter :=
  match Filter.NewFilter (env := Filter.example_env) (Filter.mkOptions Filter.no_opt names [] [] [] Filter.no_opt Filter.DurationOff Filter.DurationOff (-1) (-1) false "") with
  | inr f => f
  | inl _ => Filter.empty_filter
  end.

#[local] Instance example_filtering : Filtering Filter.filter_error := filter_filtering (env := Filter.example_env) (ignoring []) (fun _ => None).

Lemma DirSortedFn_correct_witness :
  DirSorted false "" = inr [EDir (mkDirectory "a" 7); EObject (example_object "a.x"); EObject (example_object "b")] /\
  exists on_disk : bool, DirSortedFn Remote 3 collect false "" [] =
    (if on_disk then map minimal [EDir (mkDirectory "a" 7); EObject (example_object "a.x"); EObject (example_object "b")]
     else [EDir (mkDirectory "a" 7); EObject (example_object "a.x"); EObject (example_object "b")], None) /\ on_disk = true.
Proof.
  split; [vm_compute; reflexivity|].
  destruct (DirSortedFn_correct 3 false "" (fun _ => (example_pages, None)) example_pages
    [EDir (mkDirectory "a" 7); EObject (example_object "a.x"); EObject (example_object "b")]) as [on_disk Hd];
    [reflexivity|reflexivity|reflexivity|reflexivity|reflexivity|reflexivity|right; reflexivity| | |vm_compute; reflexivity|].
  - repeat constructor; reflexivity.
  - apply (bool_decide_unpack _). vm_compute. exact I.
  - exists on_disk. split; [exact Hd|]. vm_compute in Hd. destruct on_disk; [reflexivity|discriminate Hd].
Defined.

(** A file that excludes its directory excludes only the page of the listing that it is in: with --exclude-if-present
    b, [DirSorted] finds nothing in the directory, while [DirSortedFn] passes on the entries of the other page. *)
Theorem exclude_file_page :
  let fi := filter_filtering (env := Filter.example_env) (ignoring ["b"]) (fun _ => None) in
  DirSorted (fi := fi) false "" = inr [] /\
  DirSortedFn (fi := fi) Remote 1000 collect false "" [] = ([EObject (example_object "a.x")], None).
Proof. vm_compute. split; reflexivity. Qed.
End Listing.
