(* ===== verification/Walk.v ===== *)
(** * Walking directories: fs/walk/walk.go

    [walk] lists directories with a pool of workers that take jobs from a
    channel and call a function, one at a time, for every directory; here a step
    relation, with any order of the jobs.  [walkRDirTree] builds the tree from a
    recursive listing instead, whose entries arrive in any order; the tree is that
    of fs/dirtree.  [ListR] passes on such a listing as it is, and makes up the
    directories that remotes without directories do not list. *)
From S2P Require Import Prelude GoPath Entries DirTree FsErrors Filter Listing.

Module Walk.
Import GoPath Entries DirTree Listing.

(** ** Types of listing *)

Definition ListObjects : Z := 1.
Definition ListDirs : Z := 2.
Definition ListAll : Z := Z.lor ListObjects ListDirs.

Definition Objects (l : Z) : bool := negb (Z.land l ListObjects =? 0).
Definition Dirs_ (l : Z) : bool := negb (Z.land l ListDirs =? 0).

Definition ListType_Filter (l : Z) (entries : list DirEntry) : list DirEntry :=
  if l =? ListAll then entries else filter (fun e => (if is_dir e then Dirs_ l else Objects l) = true) entries.

Section walk.
Context {E : Type} {fi : Filtering E}.

Inductive walk_error : Type := ErrorSkipDir | Failed (e : E) | Cancelled.

(** ** The pool of workers *)

Section pool.
Context {A : Type} (fn : string -> list DirEntry -> option E -> A -> A * option walk_error).
Context (listDir : string -> E + list DirEntry).

(** [listJob]: the directory, and the levels that may follow below 0 without end. *)
Definition listJob : Type := string * Z.

(** The jobs for the directories of a listing. *)
Definition children (job : listJob) : list listJob :=
  match listDir (fst job) with
  | inl _ => []
  | inr entries => if snd job =? 0 then [] else map (fun d => (d, snd job - 1)) (dir_names entries)
  end.

Definition call_fn (job : listJob) (s : A) : A * option walk_error :=
  match listDir (fst job) with
  | inl e => fn (fst job) [] (Some e) s
  | inr entries => fn (fst job) entries None s
  end.

Record wstate : Type := mkW {
  jobs : list listJob;            (* jobs in the channel, or waiting to be sent *)
  st : A;
  visited : list listJob;         (* the jobs that were done, for the theorems *)
  err : option walk_error;        (* [errs], a channel for one error *)
  quit : bool }.

Definition walk_init (path : string) (maxLevel : Z) (s : A) : wstate := mkW [(path, maxLevel - 1)] s [] None false.

Definition keep_first (a b : option walk_error) : option walk_error := match a with Some _ => a | None => b end.

(** One worker takes a job, lists the directory and calls [fn]; after [quit] is closed the jobs are drained, unless a worker is
    faster; and when the context is done a worker stops. *)
Inductive walk_step (cancelled : bool) : wstate -> wstate -> Prop :=
  | step_visit q1 job q2 s v e q s' r :
      call_fn job s = (s', r) ->
      walk_step cancelled (mkW (q1 ++ job :: q2) s v e q)
        match r with
        | None => mkW (q1 ++ q2 ++ children job) s' (v ++ [job]) e q
        | Some ErrorSkipDir => mkW (q1 ++ q2) s' (v ++ [job]) e q
        | Some x => mkW (q1 ++ q2) s' (v ++ [job]) (keep_first e (Some x)) true
        end
  | step_drain q1 job q2 s v e :
      walk_step cancelled (mkW (q1 ++ job :: q2) s v e true) (mkW (q1 ++ q2) s v e true)
  | step_cancel jobs s v e q :
      cancelled = true ->
      walk_step cancelled (mkW jobs s v e q) (mkW jobs s v (keep_first e (Some Cancelled)) true).

(** [walk] returns when no job is left. *)
Definition walk (cancelled : bool) (path : string) (maxLevel : Z) (s s' : A) (r : option walk_error) : Prop :=
  exists w, rtc (walk_step cancelled) (walk_init path maxLevel s) w /\ jobs w = [] /\ st w = s' /\ err w = r.

(** The jobs that a run does when no call of [fn] fails, parents first; [None] when there are more levels than [fuel]. *)
Fixpoint reach (fuel : nat) (job : listJob) : option (list listJob) :=
  match fuel with
  | O => None
  | S fuel => match mapM (reach fuel) (children job) with Some js => Some (job :: concat js) | None => None end
  end.
End pool.

(** [walkListDirSorted] *)
Definition walkListDirSorted {l : Lister E} {A} (fn : string -> list DirEntry -> option E -> A -> A * option walk_error)
    (cancelled includeAll : bool) (path : string) (maxLevel : Z) (s s' : A) (r : option walk_error) : Prop :=
  walk fn (DirSorted includeAll) cancelled path maxLevel s s' r.

Definition tree_fn (dirPath : string) (entries : list DirEntry) (err : option E) (dirs : DirTree) : DirTree * option walk_error :=
  match err with
  | None => (<[dirPath := entries]> dirs, None)
  | Some e => (dirs, Some (Failed e))
  end.

Definition walkNDirTree (listDir : string -> E + list DirEntry) (cancelled : bool) (path : string) (maxLevel : Z)
    (r : walk_error + DirTree) : Prop :=
  exists dirs err, walk tree_fn listDir cancelled path maxLevel ∅ dirs err /\
    r = match err with Some e => inl e | None => inr dirs end.

(** ** The tree of a recursive listing *)

Definition count_slashes (s : string) : Z := Z.of_nat (length (split_on slash s)) - 1.

Fixpoint up (n : nat) (dirPath : string) : string :=
  match n with O => dirPath | S n => up n (parentDir dirPath) end.

Section tree.
(** [time.Now()] when the directory is made up. *)
Variable now : string -> Z.

(** An object that is not added: its directory, or the one above it at the last level. *)
Definition add_parent (includeAll : bool) (maxLevel : Z) (remote : string) (dirs : DirTree) : E + DirTree :=
  let dirPath := parentDir remote in
  let slashes := count_slashes remote - 1 in
  let dirPath := if maxLevel >=? 0 then up (Z.to_nat (slashes - (maxLevel - 1))) dirPath else dirPath in
  match IncludeDirectory dirPath with
  | inl e => inl e
  | inr inc =>
      inr (if inc || includeAll then
             match snd (Find dirs dirPath) with
             | None => AddDir dirs (EDir (mkDirectory dirPath (now dirPath)))
             | Some _ => dirs
             end
           else dirs)
  end.

Definition mark_prune (includeAll : bool) (remote : string) (toPrune : gmap string bool) : gmap string bool :=
  if negb includeAll && bool_decide (path_Base remote ∈ ExcludeFile) then <[parentDir remote := true]> toPrune else toPrune.

Definition tree_entry (includeAll : bool) (maxLevel : Z) (entry : DirEntry) (acc : DirTree * gmap string bool)
  : E + DirTree * gmap string bool :=
  let '(dirs, toPrune) := acc in
  let slashes := count_slashes (Remote entry) in
  let inLevel := (maxLevel <? 0) || (slashes <=? maxLevel - 1) in
  match entry with
  | EObject o =>
      let added := (includeAll || IncludeObject o) && inLevel in
      match (if added then inr (Add dirs entry) else add_parent includeAll maxLevel (oRemote o) dirs) with
      | inl e => inl e
      | inr dirs => inr (dirs, mark_prune includeAll (oRemote o) toPrune)
      end
  | EDir d =>
      match IncludeDirectory (dRemote d) with
      | inl e => inl e
      | inr inc =>
          inr (if (includeAll || inc) && inLevel then
                 if slashes =? maxLevel - 1 then Add dirs entry else AddDir dirs entry
               else dirs, toPrune)
      end
  end.

Fixpoint tree_entries (includeAll : bool) (maxLevel : Z) (entries : list DirEntry) (acc : DirTree * gmap string bool)
  : E + DirTree * gmap string bool :=
  match entries with
  | [] => inr acc
  | entry :: entries =>
      match tree_entry includeAll maxLevel entry acc with
      | inl e => inl e
      | inr acc => tree_entries includeAll maxLevel entries acc
      end
  end.

(** The parts in which a recursive listing arrives, and the error that may follow. *)
Fixpoint tree_parts (includeAll : bool) (maxLevel : Z) (parts : list (list DirEntry)) (err : option E) (acc : DirTree * gmap string bool)
  : E + DirTree * gmap string bool :=
  match parts with
  | [] => match err with Some e => inl e | None => inr acc end
  | part :: parts =>
      match tree_entries includeAll maxLevel part acc with
      | inl e => inl e
      | inr acc => tree_parts includeAll maxLevel parts err acc
      end
  end.

(** The range of [CheckParents] visits keys that are in the map at that time. *)
Fixpoint present (root : string) (order : list string) (dirs : option (gset string)) (dt : DirTree) : Prop :=
  match order with
  | [] => True
  | dirPath :: order =>
      is_Some (dt !! dirPath) /\
      match checkParent now (check_fuel dirPath) root dirPath dirs dt with
      | Some (dt, dirs) => present root order dirs dt
      | None => True
      end
  end.

Inductive outcome : Type := Error (e : E) | Panicked | Tree (dirs : DirTree).

(** [walkRDirTree], for any order in which the maps are traversed. *)
Definition walkRDirTree (listR : string -> list (list DirEntry) * option E) (startPath : string) (includeAll : bool) (maxLevel : Z)
    (r : outcome) : Prop :=
  let '(parts, err) := listR startPath in
  match tree_parts includeAll maxLevel parts err (∅, ∅) with
  | inl e => r = Error e
  | inr (dirs, toPrune) =>
      exists order, (forall k, is_Some (dirs !! k) -> k ∈ order) /\ present startPath order (Some (all_dirs dirs)) dirs /\
      match CheckParents now startPath order dirs with
      | None => r = Panicked
      | Some dirs =>
          let dirs := if bool_decide (dirs = ∅) then {[startPath := []]} else dirs in
          exists order', (order' ≡ₚ map_to_list toPrune) /\
          match prune_parents order' dirs with
          | None => r = Panicked
          | Some dirs1 => exists dirs2, rtc prune_step (toPrune, dirs1) (∅, dirs2) /\ r = Tree (Sort dirs2)
          end
      end
  end.
End tree.

(** *** Walking the tree *)

Section walk_tree.
Context {A : Type} (fn : string -> list DirEntry -> option E -> A -> A * option walk_error).

(** [skip] is [skipPrefix] while [skipping]. *)
Fixpoint walk_dirs (dirs : DirTree) (paths : list string) (skip : option string) (s : A) : A * option walk_error :=
  match paths with
  | [] => (s, None)
  | dirPath :: paths =>
      let skipping := match skip with Some prefix => FsErrors.has_prefix prefix dirPath | None => false end in
      if skipping then walk_dirs dirs paths skip s
      else
        match fn dirPath (listing dirs dirPath) None s with
        | (s, Some ErrorSkipDir) => walk_dirs dirs paths (Some (if str_eqb dirPath "" then "" else dirPath +:+ "/")) s
        | (s, Some e) => (s, Some e)
        | (s, None) => walk_dirs dirs paths None s
        end
  end.

Definition walkR (dirs : DirTree) (s : A) : A * option walk_error := walk_dirs dirs (Dirs dirs) None s.
End walk_tree.

(** ** Directories that are made up *)

(** [dirMap]: true for a directory that was sent. *)
Fixpoint dm_add (fuel : nat) (root : string) (dir : string) (sent : bool) (m : gmap string bool) : gmap string bool :=
  match fuel with
  | O => m
  | S fuel =>
      if str_eqb dir root || str_eqb dir "" then m
      else
        match m !! dir with
        | Some true => m
        | Some false => if sent then dm_add fuel root (parentDir dir) false (<[dir := sent]> m) else m
        | None => dm_add fuel root (parentDir dir) false (<[dir := sent]> m)
        end
  end.

Definition dm_fuel (dir : string) : nat := S (length (split_on slash dir)).

Definition addEntries (root : string) (entries : list DirEntry) (m : gmap string bool) : gmap string bool :=
  foldl (fun m entry =>
    match entry with
    | EObject o => let dir := parentDir (oRemote o) in dm_add (dm_fuel dir) root dir false m
    | EDir d => dm_add (dm_fuel (dRemote d)) root (dRemote d) true m
    end) m entries.

(** The directories that were not sent, sorted. *)
Definition unsent (m : gmap string bool) : list string :=
  sort_Stable str_ltb (map fst (filter (fun p => snd p = false) (map_to_list m))).

Section listr.
Context {A : Type} (fn : list DirEntry -> A -> A * option E) (now : Z).

Definition sendEntries (m : gmap string bool) (s : A) : A * option E :=
  match unsent m with
  | [] => (s, None)
  | dirs => helper_all fn (map (fun dir => EDir (mkDirectory dir now)) dirs) [] s
  end.

(** The entries of a part that pass the filter. *)
Fixpoint filter_part (entries : list DirEntry) : E + list DirEntry :=
  match entries with
  | [] => inr []
  | entry :: entries =>
      match included false entry with
      | inl e => inl e
      | inr include =>
          match filter_part entries with
          | inl e => inl e
          | inr rest => inr (if include then entry :: rest else rest)
          end
      end
  end.

Definition listR_part (listType : Z) (root : string) (includeAll synthesizeDirs : bool) (entries : list DirEntry) (acc : A * gmap string bool)
  : (A * gmap string bool) * option E :=
  let '(s, m) := acc in
  let m := if synthesizeDirs then addEntries root entries m else m in
  let entries := ListType_Filter listType entries in
  match (if includeAll then inr entries else filter_part entries) with
  | inl e => ((s, m), Some e)
  | inr entries => let '(s, err) := fn entries s in ((s, m), err)
  end.

Definition listR (doListR : string -> list (list DirEntry) * option E) (path : string) (includeAll : bool) (listType : Z) (synthesizeDirs : bool) (s : A)
  : A * option E :=
  let includeAll := includeAll || InActive in
  let '(parts, err) := doListR path in
  match each_page (listR_part listType path includeAll synthesizeDirs) parts err (s, ∅) with
  | ((s, _), Some e) => (s, Some e)
  | ((s, m), None) => if synthesizeDirs then sendEntries m s else (s, None)
  end.

(** The function that [listRwalk] gives to [Walk]: the last error of a listing is kept. *)
Definition listRwalk_fn (listType : Z) (path : string) (entries : list DirEntry) (err : option E) (acc : A * option E)
  : (A * option E) * option walk_error :=
  let '(s, listErr) := acc in
  match err with
  | Some e => ((s, Some e), None)
  | None => let '(s, e) := fn (ListType_Filter listType entries) s in ((s, listErr), option_map Failed e)
  end.

Definition listRwalk_result (listErr : option E) (walkErr : option walk_error) : option walk_error :=
  match listErr with Some e => Some (Failed e) | None => walkErr end.
End listr.

(** ** Which way to walk *)

Inductive way : Type := ByFilesFrom | ByListR | ByList.

Definition Walk_way (noTraverse useListR hasListR : bool) (maxLevel : Z) : way :=
  if noTraverse && HaveFilesFrom then ByFilesFrom
  else if ((maxLevel <? 0) || (maxLevel >? 1)) && useListR && hasListR then ByListR
  else ByList.

Definition NewDirTree_way (noTraverse hasListR : bool) (maxLevel : Z) : way :=
  if noTraverse && HaveFilesFrom then ByFilesFrom
  else if ((maxLevel <? 0) || (maxLevel >? 1)) && hasListR && negb HaveFilesFrom then ByListR
  else ByList.

(** Whether [ListR] uses the recursive listing of the remote. *)
Definition ListR_direct (hasListR : bool) (maxLevel : Z) : bool :=
  negb (negb hasListR || HaveFilesFrom || (maxLevel >=? 0) || negb (length ExcludeFile =? 0)%nat || UsesDirectoryFilters).

(** [GetAll]: the callback that sorts the entries into objects and directories. *)
Definition get_all (entries : list DirEntry) (acc : list Object * list Directory) : (list Object * list Directory) * option E :=
  (foldl (fun '(objs, dirs) e => match e with EObject o => (objs ++ [o], dirs) | EDir d => (objs, dirs ++ [d]) end) acc entries, None).
End walk.

(** ** Theory: the pool visits every directory once *)

Section visits.
Context {E : Type} {A : Type} (fn : string -> list DirEntry -> option E -> A -> A * option (walk_error (E := E))).
Context (listDir : string -> E + list DirEntry).

(** A job is there because it is the first, or because its directory is in the listing of a directory that was visited. *)
Definition found_in (first : listJob) (v : list listJob) (job : listJob) : Prop := job = first \/ exists parent, parent ∈ v /\ job ∈ children listDir parent.

Definition parents_first (first : listJob) (v : list listJob) : Prop :=
  forall a job b, v = a ++ job :: b -> found_in first a job.

(** What is left to do. *)
Definition remaining (js : list listJob) (ls : list (list listJob)) : Prop :=
  Forall2 (fun job l => exists n, reach listDir n job = Some l) js ls.

Context (s0 : A) (all : list listJob).

Definition run_fn (js : list listJob) : A := foldl (fun s job => fst (call_fn fn listDir job s)) s0 js.

Definition pool_inv (first : listJob) (w : wstate (E := E) (A := A)) : Prop :=
  st w = run_fn (visited w) /\ (exists ls, remaining (jobs w) ls /\ visited w ++ concat ls ≡ₚ all) /\ err w = None /\ quit w = false /\
  parents_first first (visited w) /\ (forall job, job ∈ jobs w -> found_in first (visited w) job).

Lemma found_in_mono first v v' job : (forall j, j ∈ v -> j ∈ v') -> found_in first v job -> found_in first v' job.
Proof. intros Hv [->|(p & Hp & Hj)]; [by left|]. right. exists p. split; [by apply Hv|done]. Qed.

Lemma parents_first_snoc first v job : parents_first first v -> found_in first v job -> parents_first first (v ++ [job]).
Proof.
  intros Hp Hj a x b Heq. destruct b as [|y b _] using rev_ind.
  - apply app_inj_tail in Heq as [-> ->]. done.
  - rewrite app_comm_cons, (assoc_L app) in Heq. apply app_inj_tail in Heq as [-> _]. by apply (Hp a x b).
Qed.

Lemma remaining_children n job l : reach listDir n job = Some l -> exists ls, remaining (children listDir job) ls /\ l = job :: concat ls.
Proof.
  destruct n as [|n]; [done|]. cbn [reach]. destruct (mapM (reach listDir n) (children listDir job)) as [ls|] eqn:Em; [|done].
  intros [= <-]. exists ls. split; [|done]. apply mapM_Some in Em. eapply Forall2_impl; [exact Em|]. intros x y Hxy. by exists n.
Qed.

(** [fn] does not fail on the directories that are reached. *)
Hypothesis fn_ok : forall job s, job ∈ all -> snd (call_fn fn listDir job s) = None.

Lemma pool_step first w w' : pool_inv first w -> walk_step fn listDir false w w' ->
  pool_inv first w' /\ (length (visited w') = S (length (visited w)))%nat.
Proof.
  intros (Hst & (ls & Hrem & Hperm) & He & Hq & Hpf & Hfound) Hstep. destruct Hstep as [q1 job q2 s v e q s' r Hcall|q1 job q2 s v e|]; cbn [jobs visited err quit st] in *; [|done|done].
  apply Forall2_app_inv_l in Hrem as (l1 & l2 & H1 & H2 & ->). apply Forall2_cons_inv_l in H2 as (l & l3 & [n Hn] & H3 & ->).
  destruct (remaining_children n job l Hn) as (lc & Hc & ->).
  assert (job ∈ all) as Hin by (rewrite <- Hperm, concat_app; cbn [concat]; set_solver).
  assert (r = None) as -> by (pose proof (fn_ok job s Hin) as H; by rewrite Hcall in H).
  cbn [visited]. split; [|rewrite length_app; cbn; lia]. split_and!.
  - cbn [st visited]. unfold run_fn. rewrite foldl_snoc. fold (run_fn v). rewrite <- Hst, Hcall. done.
  - exists (l1 ++ l3 ++ lc). split; [by repeat apply Forall2_app|]. etransitivity; [|exact Hperm]. cbn [visited jobs]. rewrite !concat_app. cbn [concat].
    rewrite <- !(assoc_L app). apply Permutation_app_head. cbn [app]. rewrite <- Permutation_middle. constructor.
    apply Permutation_app_head, Permutation_app_comm.
  - done.
  - done.
  - apply parents_first_snoc; [done|]. apply Hfound. set_solver.
  - cbn [jobs visited]. intros j Hj. rewrite !elem_of_app in Hj. destruct Hj as [Hj|[Hj|Hj]].
    + eapply found_in_mono; [|apply Hfound; set_solver]. set_solver.
    + eapply found_in_mono; [|apply Hfound; set_solver]. set_solver.
    + right. exists job. split; [set_solver|done].
Qed.

Lemma pool_start n path maxLevel : reach listDir n (path, maxLevel - 1) = Some all ->
  pool_inv (path, maxLevel - 1) (walk_init path maxLevel s0).
Proof.
  intros Hr. split_and!; [done| |done|done| |].
  - exists [all]. split; [constructor; [by exists n|constructor]|]. cbn [visited walk_init concat app]. by rewrite app_nil_r.
  - intros a job b Heq. by destruct a.
  - intros job Hj. left. by apply list_elem_of_singleton in Hj.
Qed.

Lemma pool_run n k path maxLevel w : reach listDir n (path, maxLevel - 1) = Some all ->
  nsteps (walk_step fn listDir false) k (walk_init path maxLevel s0) w ->
  pool_inv (path, maxLevel - 1) w /\ length (visited w) = k.
Proof.
  intros Hr Hs. pose proof (pool_start n path maxLevel Hr) as Hinv.
  assert (forall w0, pool_inv (path, maxLevel - 1) w0 -> nsteps (walk_step fn listDir false) k w0 w ->
    pool_inv (path, maxLevel - 1) w /\ (length (visited w) = length (visited w0) + k)%nat) as H.
  { clear Hs Hinv. induction k as [|k IH]; intros w0 H0 Hs; inversion Hs as [|? ? x ? H1 H2]; subst; [split; [done|lia]|].
    destruct (pool_step _ _ _ H0 H1) as [Hx Hl]. destruct (IH x Hx H2) as [Hw Hl']. split; [done|lia]. }
  destruct (H _ Hinv Hs) as [H1 H2]. split; [done|]. by rewrite H2.
Qed.

Lemma pool_progress w : jobs w <> [] -> exists w', walk_step fn listDir false w w'.
Proof.
  destruct w as [js s v e q]. cbn [jobs]. destruct js as [|job js]; [done|]. intros _. destruct (call_fn fn listDir job s) as [s' r] eqn:Ec.
  eexists. by apply (step_visit fn listDir false [] job js).
Qed.

Lemma pool_length first w : pool_inv first w -> (length (visited w) <= length all)%nat /\ (jobs w = [] -> visited w ≡ₚ all).
Proof.
  intros (_ & (ls & Hrem & Hperm) & _). split; [rewrite <- Hperm, length_app; lia|]. intros Hj. rewrite Hj in Hrem. inversion Hrem; subst.
  cbn [concat] in Hperm. by rewrite app_nil_r in Hperm.
Qed.

Lemma pool_ends first w : pool_inv first w -> exists w', rtc (walk_step fn listDir false) w w' /\ jobs w' = [] /\ pool_inv first w'.
Proof.
  remember (length all - length (visited w))%nat as m eqn:Em. revert w Em. induction m as [|m IH]; intros w Em Hinv.
  - destruct (decide (jobs w = [])) as [Hj|Hj]; [by exists w|]. destruct (pool_progress w Hj) as [w' Hs].
    destruct (pool_step _ _ _ Hinv Hs) as [Hinv' Hl]. apply pool_length in Hinv' as [Hle _]. lia.
  - destruct (decide (jobs w = [])) as [Hj|Hj]; [by exists w|]. destruct (pool_progress w Hj) as [w' Hs].
    destruct (pool_step _ _ _ Hinv Hs) as [Hinv' Hl]. destruct (IH w') as (w2 & Hr & Hj2 & H2); [lia|done|].
    exists w2. split; [by eapply rtc_l|done].
Qed.
End visits.

(** ** Theory: the tree of a recursive listing is the tree of the directories *)

Section trees.
Context {E : Type}.

(** The tree with the listings of some directories. *)
Definition full_tree (L : string -> list DirEntry) (ds : list string) : DirTree := foldr (fun d m => <[d := L d]> m) ∅ ds.

Lemma full_tree_lookup L ds k : full_tree L ds !! k = if decide (k ∈ ds) then Some (L k) else None.
Proof.
  induction ds as [|d ds IH]; cbn [full_tree foldr]; [by rewrite decide_False by apply not_elem_of_nil|]. fold (full_tree L ds).
  destruct (decide (k = d)) as [->|Hne]; [rewrite lookup_insert_eq; by rewrite decide_True by left|]. rewrite lookup_insert_ne by done. rewrite IH.
  destruct (decide (k ∈ ds)) as [Hin|Hni]; [by rewrite decide_True by (by right)|]. rewrite decide_False; [done|]. by intros [|]%elem_of_cons.
Qed.

Lemma run_tree (listDir : string -> E + list DirEntry) L js : (forall job, job ∈ js -> listDir (fst job) = inr (L (fst job))) ->
  run_fn tree_fn listDir ∅ js = full_tree L (map fst js).
Proof.
  intros HL. apply map_eq. intros k. rewrite full_tree_lookup. revert HL. unfold run_fn. induction js as [|job js IH] using rev_ind; intros HL; [done|].
  rewrite foldl_snoc, map_app. unfold call_fn at 1. rewrite (HL job) by set_solver. cbn [tree_fn fst map].
  destruct (decide (k = fst job)) as [->|Hne]; [rewrite lookup_insert_eq; by rewrite decide_True by set_solver|]. rewrite lookup_insert_ne by done.
  rewrite IH by (intros; apply HL; set_solver). apply decide_ext. set_solver.
Qed.

(** One entry of a recursive listing, with no filter and no limit. *)
Definition put (dt : DirTree) (e : DirEntry) : DirTree := match e with EObject _ => Add dt e | EDir _ => AddDir dt e end.

Lemma put_listing dt e k : Remote e <> "" ->
  listing (put dt e) k = listing dt k ++ (if decide (parentDir (Remote e) = k) then [e] else []).
Proof.
  intros Hne. assert (listing (Add dt e) k = listing dt k ++ (if decide (parentDir (Remote e) = k) then [e] else [])) as HA.
  { unfold Add. rewrite listing_append. repeat case_decide; try congruence. by rewrite app_nil_r. }
  destruct e as [o|d]; cbn [put]; [done|]. unfold AddDir. apply str_eqb_neq in Hne. rewrite Hne.
  destruct (Add dt (EDir d) !! Remote (EDir d)) as [es|] eqn:El; [done|]. rewrite <- HA. unfold listing.
  destruct (decide (Remote (EDir d) = k)) as [<-|Hk]; [by rewrite lookup_insert_eq, El|by rewrite lookup_insert_ne].
Qed.

Lemma put_keys dt e k : Remote e <> "" ->
  is_Some (put dt e !! k) <-> is_Some (dt !! k) \/ parentDir (Remote e) = k \/ (is_dir e = true /\ Remote e = k).
Proof.
  intros Hne. assert (is_Some (Add dt e !! k) <-> is_Some (dt !! k) \/ parentDir (Remote e) = k) as HA.
  { unfold Add, append_entry. destruct (decide (parentDir (Remote e) = k)) as [<-|Hk]; [rewrite lookup_insert_eq; naive_solver|]. rewrite lookup_insert_ne by done. naive_solver. }
  destruct e as [o|d]; cbn [put is_dir]; [rewrite HA; naive_solver|]. unfold AddDir. apply str_eqb_neq in Hne. rewrite Hne.
  destruct (Add dt (EDir d) !! Remote (EDir d)) as [es|] eqn:El.
  - rewrite HA. split; [naive_solver|]. intros [H|[H|[_ <-]]]; [by left|by right|]. apply HA. by rewrite El.
  - destruct (decide (Remote (EDir d) = k)) as [<-|Hk]; [rewrite lookup_insert_eq; naive_solver|]. rewrite lookup_insert_ne by done. rewrite HA. naive_solver.
Qed.

Lemma puts_listing es : Forall (fun e => Remote e <> "") es -> forall dt k,
  listing (foldl put dt es) k = listing dt k ++ filter (fun e => parentDir (Remote e) = k) es.
Proof.
  induction 1 as [|e es He _ IH]; intros dt k; cbn [foldl]; [by rewrite app_nil_r|]. rewrite IH, put_listing, <- (assoc_L app) by done. f_equal.
  destruct (decide (parentDir (Remote e) = k)); [by rewrite filter_cons_True|by rewrite filter_cons_False].
Qed.

Lemma puts_keys es : Forall (fun e => Remote e <> "") es -> forall dt k,
  is_Some (foldl put dt es !! k) <-> is_Some (dt !! k) \/ exists e, e ∈ es /\ (parentDir (Remote e) = k \/ (is_dir e = true /\ Remote e = k)).
Proof.
  induction 1 as [|e es He _ IH]; intros dt k; cbn [foldl].
  - split; [by left|]. intros [H|(e & He & _)]; [done|by apply not_elem_of_nil in He].
  - rewrite IH, put_keys by done. split.
    + intros [[H|H]|(x & Hx & H)]; [by left|right; exists e; split; [by left|done]|right; exists x; split; [by right|done]].
    + intros [H|(x & [->|Hx]%elem_of_cons & H)]; [by left; left|by left; right|right; by exists x].
Qed.

Lemma check_all_same now root order ds dt : (forall k, is_Some (dt !! k) -> k = root \/ k ∈ ds) ->
  (forall k, k ∈ order -> is_Some (dt !! k)) -> check_all now root order (Some ds) dt = Some dt.
Proof.
  intros Hk Ho. induction order as [|k order IH]; [done|]. cbn [check_all check_fuel checkParent].
  destruct (str_eqb k root) eqn:E1; [apply IH; set_solver|].
  rewrite bool_decide_true; [apply IH; set_solver|]. destruct (Hk k) as [->|H]; [apply Ho; by left| |done].
  rewrite (proj2 (str_eqb_eq root root) eq_refl) in E1. done.
Qed.

Lemma present_same now root order ds dt : (forall k, is_Some (dt !! k) -> k = root \/ k ∈ ds) ->
  present now root order (Some ds) dt -> forall k, k ∈ order -> is_Some (dt !! k).
Proof.
  intros Hk. induction order as [|x order IH]; intros Hp k Hin; [by apply not_elem_of_nil in Hin|]. cbn [present check_fuel checkParent] in Hp.
  destruct Hp as [Hx Hp]. assert (present now root order (Some ds) dt) as Hp'.
  { destruct (str_eqb x root) eqn:E1; [done|]. rewrite bool_decide_true in Hp; [done|]. destruct (Hk x Hx) as [->|H]; [|done].
    rewrite (proj2 (str_eqb_eq root root) eq_refl) in E1. done. }
  apply elem_of_cons in Hin as [->|Hin]; [done|by apply IH].
Qed.

Lemma prune_nothing dt dt' : rtc prune_step (∅, dt) (∅, dt') -> dt' = dt.
Proof. intros H. inversion H as [|? y ? Hs]; subst; [done|]. inversion Hs; subst; by rewrite lookup_empty in *. Qed.

(** Two listings with the same entries and names of their own sort to the same list. *)
Lemma sort_entries_names es es' : es ≡ₚ es' -> NoDup (map Remote es') -> sort_entries es = sort_entries es'.
Proof.
  intros Hp Hn. unfold sort_entries. apply (StronglySorted_unique_strong (fun a b => Less b a = false)).
  - intros a b Ha Hb Hba Hab. rewrite sort_Stable_perm, Hp in Ha. rewrite sort_Stable_perm in Hb.
    apply Less_false in Hab as [Hab|[Hr _]]; [apply Less_spec in Hab; congruence|].
    apply list_elem_of_lookup in Ha as [i Hi], Hb as [j Hj].
    assert (i = j) as ->; [|congruence]. eapply NoDup_lookup; [exact Hn| |]; rewrite list_lookup_fmap; [by rewrite Hi|]. rewrite Hj. cbn. by rewrite Hr.
  - exact (sort_Stable_sorted Less es).
  - exact (sort_Stable_sorted Less es').
  - by rewrite !sort_Stable_perm.
Qed.
End trees.

Section fast_list.
Context {E : Type} {fi : Filtering E}.

Lemma tree_entries_put now maxLevel es : maxLevel < 0 -> (forall d, exists b, IncludeDirectory (E := E) d = inr b) -> forall dt pr,
  tree_entries now true maxLevel es (dt, pr) = inr (foldl put dt es, pr).
Proof.
  intros Hl Hd. induction es as [|e es IH]; intros dt pr; [done|]. cbn [tree_entries tree_entry foldl].
  assert ((maxLevel <? 0) = true) as -> by lia. destruct e as [o|d]; cbn [orb andb put Remote].
  - unfold mark_prune. cbn [negb andb]. apply IH.
  - destruct (Hd (dRemote d)) as [b ->]. unfold count_slashes. pose proof (split_on_nonempty slash (dRemote d)) as Hne.
    assert ((Z.of_nat (length (split_on slash (dRemote d))) - 1 =? maxLevel - 1) = false) as ->; [|apply IH].
    destruct (split_on slash (dRemote d)); [done|]. cbn [length]. apply Z.eqb_neq. lia.
Qed.

Lemma tree_parts_put now maxLevel parts : maxLevel < 0 -> (forall d, exists b, IncludeDirectory (E := E) d = inr b) -> forall dt pr,
  tree_parts now true maxLevel parts None (dt, pr) = inr (foldl put dt (concat parts), pr).
Proof.
  intros Hl Hd. induction parts as [|part parts IH]; intros dt pr; [done|]. cbn [tree_parts concat]. rewrite tree_entries_put by done.
  by rewrite IH, foldl_app.
Qed.

Context (L : string -> list DirEntry) (ds : list string) (start : string).

(** The directories [ds] below [start] have the listings [L], sorted and with names of their own. *)
Definition listed_tree : Prop :=
  NoDup ds /\ (start ∈ ds) /\
  (forall d, d ∈ ds -> sort_entries (L d) = L d /\ NoDup (map Remote (L d)) /\
     Forall (fun e => parentDir (Remote e) = d /\ Remote e <> "") (L d)) /\
  (forall d, d ∈ ds -> d = start \/ exists p, p ∈ ds /\ d ∈ dir_names (L p)) /\
  (forall p d, p ∈ ds -> d ∈ dir_names (L p) -> d ∈ ds) /\
  (L start = [] -> ds = [start]).

Lemma filter_children k ds' : NoDup ds' -> (forall d, d ∈ ds' -> Forall (fun e => parentDir (Remote e) = d) (L d)) ->
  filter (fun e => parentDir (Remote e) = k) (ds' ≫= L) = if decide (k ∈ ds') then L k else [].
Proof.
  intros Hn. induction Hn as [|d ds' Hni Hn IH]; intros HL; [by rewrite decide_False by apply not_elem_of_nil|].
  rewrite bind_cons, filter_app, IH by (intros; apply HL; by right). assert (Forall (fun e => parentDir (Remote e) = d) (L d)) as Hd by (apply HL; by left).
  destruct (decide (k = d)) as [->|Hne].
  - rewrite filter_id by done. rewrite decide_False by done. rewrite decide_True by left. by rewrite app_nil_r.
  - assert (filter (fun e => parentDir (Remote e) = k) (L d) = []) as ->.
    { clear -Hd Hne. induction Hd as [|e es He _ IH]; [done|]. rewrite filter_cons_False by congruence. done. }
    cbn [app]. apply decide_ext. rewrite elem_of_cons. naive_solver.
Qed.

(** The tree that the entries make, in whatever order they arrive. *)
Section arrived.
Context (es : list DirEntry) (tree_ok : listed_tree) (es_all : es ≡ₚ ds ≫= L).

Lemma arrived_in e : e ∈ es <-> exists d, d ∈ ds /\ e ∈ L d.
Proof. rewrite es_all, list_elem_of_bind. naive_solver. Qed.

Lemma arrived_parent d e : d ∈ ds -> e ∈ L d -> parentDir (Remote e) = d /\ Remote e <> "".
Proof. destruct tree_ok as (_ & _ & HL & _). intros Hd He. destruct (HL d Hd) as (_ & _ & Hf). rewrite Forall_forall in Hf. by apply Hf. Qed.

Lemma arrived_names : Forall (fun e => Remote e <> "") es.
Proof. apply Forall_forall. intros e (d & Hd & He)%arrived_in. by apply (arrived_parent d e). Qed.

Lemma arrived_listing k : listing (foldl put ∅ es) k ≡ₚ if decide (k ∈ ds) then L k else [].
Proof.
  rewrite puts_listing by apply arrived_names. cbn [app]. rewrite es_all, filter_children; [done|apply tree_ok|].
  intros d Hd. apply Forall_forall. intros e He. by apply (arrived_parent d e).
Qed.

(** The start itself has no entry. *)
Lemma arrived_keys k : is_Some (foldl put ∅ es !! k) <-> (k ∈ ds) /\ (L k <> [] \/ k <> start).
Proof.
  pose proof tree_ok as (_ & Hs & HL & Hup & Hdown & Hempty). rewrite puts_keys by apply arrived_names. rewrite lookup_empty. split.
  - intros [[x Hx]|(e & (d & Hd & He)%arrived_in & Hk)]; [done|]. destruct (arrived_parent d e Hd He) as [Hp _]. destruct Hk as [<-|[Hdir <-]].
    + rewrite Hp. split; [done|]. left. intros E0. rewrite E0 in He. by apply not_elem_of_nil in He.
    + destruct e as [o|d']; [done|]. cbn [Remote] in *. split; [apply (Hdown d); [done|]; apply elem_of_dir_names; by exists d'|].
      destruct (decide (dRemote d' = start)) as [E1|]; [|by right]. left. intros E0. rewrite E1 in E0. rewrite (Hempty E0) in Hd.
      apply list_elem_of_singleton in Hd as ->. rewrite E0 in He. by apply not_elem_of_nil in He.
  - intros [Hk Hor]. right. destruct (decide (L k = [])) as [E0|E0].
    + destruct Hor as [?|Hor]; [done|]. destruct (Hup k Hk) as [?|(p & Hp & Hd)]; [done|]. apply elem_of_dir_names in Hd as (d & Hd & <-).
      exists (EDir d). split; [apply arrived_in; by exists p|]. by right.
    + destruct (L k) as [|e l] eqn:El; [done|]. assert (e ∈ L k) as He by (rewrite El; by left). exists e.
      split; [apply arrived_in; by exists k|]. left. by apply (arrived_parent k e).
Qed.

Lemma arrived_dirs k : is_Some (foldl put ∅ es !! k) -> k = start \/ k ∈ all_dirs (foldl put ∅ es).
Proof.
  pose proof tree_ok as (_ & _ & _ & Hup & _). intros [Hk _]%arrived_keys. destruct (Hup k Hk) as [->|(p & Hp & Hd)]; [by left|]. right.
  apply elem_of_all_dirs. exists p. apply elem_of_dir_names in Hd as (d & Hd & <-). apply elem_of_dir_names. exists d. split; [|done].
  rewrite arrived_listing, decide_True by done. done.
Qed.

Lemma arrived_empty : foldl put ∅ es = ∅ <-> L start = [].
Proof.
  pose proof tree_ok as (_ & Hs & _ & _ & _ & Hempty). split.
  - intros Edt. pose proof (arrived_listing start) as H. rewrite decide_True in H by done. rewrite Edt in H. unfold listing in H.
    rewrite lookup_empty in H. by apply Permutation_nil_l in H.
  - intros E0. apply map_eq. intros j. rewrite lookup_empty. destruct (foldl put ∅ es !! j) as [x|] eqn:Ej; [|done]. exfalso.
    assert (is_Some (foldl put ∅ es !! j)) as [Hj Hor]%arrived_keys by (by eexists). rewrite (Hempty E0) in Hj.
    apply list_elem_of_singleton in Hj as ->. naive_solver.
Qed.

Lemma arrived_full : Sort (if bool_decide (foldl put ∅ es = ∅) then {[start := []]} else foldl put ∅ es) = full_tree L ds.
Proof.
  pose proof tree_ok as (_ & Hs & HL & _ & _ & Hempty). apply map_eq. intros k. rewrite full_tree_lookup. unfold Sort.
  destruct (bool_decide _) eqn:Edt; [apply bool_decide_eq_true in Edt|apply bool_decide_eq_false in Edt]; rewrite arrived_empty in Edt.
  - rename Edt into E0. rewrite (Hempty E0). destruct (decide (k ∈ [start])) as [->%list_elem_of_singleton|Hk]; [rewrite lookup_fmap, lookup_singleton_eq, E0; done|].
    rewrite lookup_fmap, lookup_singleton_ne; [done|]. intros ->. apply Hk. by left.
  - rewrite lookup_fmap. destruct (decide (k ∈ ds)) as [Hk|Hk].
    + assert (is_Some (foldl put ∅ es !! k)) as [es' Hes'].
      { apply arrived_keys. split; [done|]. destruct (decide (k = start)) as [->|]; [by left|by right]. }
      rewrite Hes'. cbn [fmap option_fmap option_map]. f_equal. pose proof (arrived_listing k) as Hp. unfold listing in Hp.
      rewrite Hes', decide_True in Hp by done. cbn [default] in Hp. destruct (HL k Hk) as (Hsort & Hnd & _). rewrite <- Hsort. by apply sort_entries_names.
    + destruct (foldl put ∅ es !! k) as [x|] eqn:Ej; [|done]. exfalso. assert (is_Some (foldl put ∅ es !! k)) as [Hk' _]%arrived_keys by (by eexists). done.
Qed.
End arrived.

(** The outcome does not depend on the order of the entries and of the maps. *)
Lemma walkRDirTree_full now listR maxLevel parts : listed_tree -> maxLevel < 0 -> (forall d, exists b, IncludeDirectory (E := E) d = inr b) ->
  listR start = (parts, None) -> concat parts ≡ₚ ds ≫= L ->
  forall r, walkRDirTree now listR start true maxLevel r <-> r = Tree (full_tree L ds).
Proof.
  intros Hok Hl Hd HR Hall r. unfold walkRDirTree. rewrite HR, tree_parts_put by done. set (dt := foldl put ∅ (concat parts)).
  pose proof (arrived_dirs _ Hok Hall) as Hdirs. pose proof (arrived_full _ Hok Hall) as Hfull. fold dt in Hdirs, Hfull. split.
  - intros (order & Hkeys & Hpres & H). unfold CheckParents in H. rewrite check_all_same in H; [|done|by eapply present_same].
    destruct H as (order' & Hperm & H). rewrite map_to_list_empty in Hperm. apply Permutation_nil_r in Hperm as ->. cbn [prune_parents] in H.
    destruct H as (dirs2 & Hr & ->). apply prune_nothing in Hr as ->. by rewrite Hfull.
  - intros ->. assert (forall k, k ∈ map fst (map_to_list dt) <-> is_Some (dt !! k)) as Hin.
    { intros k. rewrite list_elem_of_fmap. split; [intros ([k' x] & -> & H%elem_of_map_to_list); by eexists|].
      intros [x Hx]. exists (k, x). split; [done|]. by apply elem_of_map_to_list. }
    exists (map fst (map_to_list dt)). split_and!; [intros k; apply Hin| |].
    + assert (forall order, (forall k, k ∈ order -> is_Some (dt !! k)) -> present now start order (Some (all_dirs dt)) dt) as H; [|apply H; intros k; apply Hin].
      induction order as [|k order IH]; intros Ho; [done|]. split; [apply Ho; by left|]. cbn [check_fuel checkParent].
      destruct (str_eqb k start) eqn:E1; [apply IH; set_solver|]. rewrite bool_decide_true; [apply IH; set_solver|].
      destruct (Hdirs k) as [->|H]; [apply Ho; by left| |done]. rewrite (proj2 (str_eqb_eq start start) eq_refl) in E1. done.
    + unfold CheckParents. rewrite check_all_same; [|done|intros k; apply Hin]. exists []. split; [by rewrite map_to_list_empty|]. cbn [prune_parents].
      eexists. split; [apply rtc_refl|]. by rewrite Hfull.
Qed.
End fast_list.

Section reach.
Context {E : Type} (listDir : string -> E + list DirEntry).

Lemma elem_of_concat {B} (x : B) ls : x ∈ concat ls <-> exists l, x ∈ l /\ l ∈ ls.
Proof. rewrite list_elem_of_In, in_concat. setoid_rewrite <- list_elem_of_In. naive_solver. Qed.

(** Without a limit, what is reached is closed under listing. *)
Lemma reach_closed n : forall job js, reach listDir n job = Some js ->
  (job ∈ js) /\ (forall j, j ∈ js -> (j = job \/ exists p, p ∈ js /\ j ∈ children listDir p) /\ forall c, c ∈ children listDir j -> c ∈ js).
Proof.
  induction n as [|n IH]; intros job js; [done|]. cbn [reach]. destruct (mapM (reach listDir n) (children listDir job)) as [ls|] eqn:Em; [|done].
  intros [= <-]. split; [by left|]. apply mapM_Some in Em. intros j [->|Hj]%elem_of_cons.
  - split; [by left|]. intros c Hc. right. apply list_elem_of_lookup in Hc as [i Hi]. destruct (Forall2_lookup_l _ _ _ _ _ Em Hi) as (l & Hl & Hr).
    destruct (IH c l Hr) as [Hin _]. apply elem_of_concat. exists l. split; [done|]. by eapply list_elem_of_lookup_2.
  - apply elem_of_concat in Hj as (l & Hj & Hl). apply list_elem_of_lookup in Hl as [i Hi]. destruct (Forall2_lookup_r _ _ _ _ _ Em Hi) as (c & Hc & Hr).
    destruct (IH c l Hr) as [Hin Hall]. destruct (Hall j Hj) as [Hup Hdown].
    assert (forall x, x ∈ l -> x ∈ concat ls) as Hsub by (intros x Hx; apply elem_of_concat; exists l; split; [done|by eapply list_elem_of_lookup_2]).
    split; [|intros x Hx; right; by apply Hsub, Hdown]. right. destruct Hup as [->|(p & Hp & Hjp)].
    + exists job. split; [by left|]. by eapply list_elem_of_lookup_2.
    + exists p. split; [right; by apply Hsub|done].
Qed.

Lemma reach_depth n : forall job js j, reach listDir n job = Some js -> j ∈ js -> snd job < 0 -> snd j < 0.
Proof.
  induction n as [|n IH]; intros job js j; [done|]. cbn [reach]. destruct (mapM (reach listDir n) (children listDir job)) as [ls|] eqn:Em; [|done].
  intros [= <-] [->|Hj]%elem_of_cons Hd; [done|]. apply mapM_Some in Em. apply elem_of_concat in Hj as (l & Hj & Hl).
  apply list_elem_of_lookup in Hl as [i Hi]. destruct (Forall2_lookup_r _ _ _ _ _ Em Hi) as (c & Hc & Hr). apply (IH c l j Hr Hj).
  apply list_elem_of_lookup_2 in Hc. unfold children in Hc. destruct (listDir (fst job)); [by apply not_elem_of_nil in Hc|].
  destruct (snd job =? 0); [by apply not_elem_of_nil in Hc|]. apply list_elem_of_fmap in Hc as (d & -> & _). cbn [snd]. lia.
Qed.

Lemma children_names job c es : listDir (fst job) = inr es -> c ∈ children listDir job -> fst c ∈ dir_names es.
Proof.
  unfold children. intros ->. destruct (snd job =? 0); [by intros ?%not_elem_of_nil|]. intros (d & -> & Hd)%list_elem_of_fmap. done.
Qed.

Lemma names_children job d es : listDir (fst job) = inr es -> snd job < 0 -> d ∈ dir_names es -> (d, snd job - 1) ∈ children listDir job.
Proof.
  unfold children. intros -> Hd Hin. destruct (snd job =? 0) eqn:E0; [lia|]. apply list_elem_of_fmap. by exists d.
Qed.

Lemma reach_listed n start depth js L : depth < 0 -> reach listDir n (start, depth) = Some js -> NoDup (map fst js) ->
  (forall d, d ∈ map fst js -> listDir d = inr (L d) /\ sort_entries (L d) = L d /\ NoDup (map Remote (L d)) /\
     Forall (fun e => parentDir (Remote e) = d /\ Remote e <> "") (L d)) ->
  listed_tree L (map fst js) start.
Proof.
  intros Hd Hr Hn HL. destruct (reach_closed _ _ _ Hr) as [Hin Hall]. split_and!; [done|by apply list_elem_of_fmap; exists (start, depth)| | | |].
  - intros d Hd'. by apply HL.
  - intros d (j & -> & Hj)%list_elem_of_fmap. destruct (Hall j Hj) as [[->|(p & Hp & Hc)] _]; [by left|]. right. exists (fst p).
    assert (fst p ∈ map fst js) as Hp' by (by apply list_elem_of_fmap; exists p). split; [done|]. eapply children_names; [by apply HL|done].
  - intros p d (j & -> & Hj)%list_elem_of_fmap Hdn. destruct (Hall j Hj) as [_ Hdown]. apply list_elem_of_fmap. exists (d, snd j - 1). split; [done|].
    apply Hdown. eapply names_children; [apply HL; by apply list_elem_of_fmap; exists j| |done]. by eapply reach_depth.
  - intros E0. destruct n as [|n]; [done|]. cbn [reach] in Hr. unfold children in Hr. cbn [fst snd] in Hr.
    destruct (HL start) as [Hs _]; [by apply list_elem_of_fmap; exists (start, depth)|]. rewrite Hs, E0 in Hr. cbn [dir_names omap list_omap map] in Hr.
    destruct (depth =? 0); cbn in Hr; by injection Hr as <-.
Qed.
End reach.

(** The tree of [walkNDirTree]. *)
Lemma walkNDirTree_full {E} (listDir : string -> E + list DirEntry) n path maxLevel js L :
  reach listDir n (path, maxLevel - 1) = Some js -> (forall d, d ∈ map fst js -> listDir d = inr (L d)) ->
  forall r, walkNDirTree listDir false path maxLevel r <-> r = inr (full_tree L (map fst js)).
Proof.
  intros Hr HL. assert (forall job (s : DirTree), job ∈ js -> snd (call_fn (E := E) tree_fn listDir job s) = None) as Hfn.
  { intros job s Hj. unfold call_fn. by rewrite (HL (fst job)) by (by apply list_elem_of_fmap; exists job). }
  assert (forall w, rtc (walk_step tree_fn listDir false) (walk_init path maxLevel ∅) w -> jobs w = [] -> err w = None /\ st w = full_tree L (map fst js)) as Hfin.
  { intros w [k Hk]%rtc_nsteps Hj. destruct (pool_run tree_fn listDir ∅ js Hfn n k path maxLevel w Hr Hk) as [Hinv _].
    destruct (pool_length _ _ _ _ _ _ Hinv) as [_ Hv]. specialize (Hv Hj). destruct Hinv as (Hst & _ & He & _). split; [done|]. rewrite Hst.
    rewrite (run_tree listDir L); [|intros job Hin; apply HL; rewrite <- Hv; by apply list_elem_of_fmap; exists job].
    apply map_eq. intros k'. rewrite !full_tree_lookup. apply decide_ext. by rewrite Hv. }
  intros r. split.
  - intros (dirs & er & (w & Hw & Hj & <- & <-) & ->). by destruct (Hfin w Hw Hj) as [-> ->].
  - intros ->. destruct (pool_ends tree_fn listDir ∅ js Hfn (path, maxLevel - 1) (walk_init path maxLevel ∅)) as (w & Hw & Hj & _); [by eapply pool_start|].
    destruct (Hfin w Hw Hj) as [He Hst]. exists (full_tree L (map fst js)), None. split; [|done]. by exists w.
Qed.


(** ** Theory: directories that are made up *)

Lemma inside_trans a b c : inside a b -> inside b c -> inside a c.
Proof.
  intros (ps & qs & Hps & Hqs & Hne & -> & ->) (ps' & qs' & Hps' & Hqs' & Hne' & E & ->).
  apply join_inj in E; [|by apply Forall_app|done]. subst ps'. exists ps, (qs ++ qs'). rewrite (assoc_L app). split_and!; [done|by apply Forall_app|by destruct qs|done|done].
Qed.

Section dir_map.
Context (root : string).

Abbreviation dmap := (gmap string bool).

(** A path, and the directories above it, up to the root. *)
Definition chain (dir k : string) : Prop := inside root k /\ (k = dir \/ inside k dir).

Definition closed_at (m : dmap) (k : string) : Prop := is_Some (m !! k) -> forall a, inside root a -> inside a k -> is_Some (m !! a).

Lemma chain_snoc parts p k : Forall good parts -> good p ->
  chain (join_with "/" (parts ++ [p])) k <-> inside root k /\ k = join_with "/" (parts ++ [p]) \/ chain (join_with "/" parts) k.
Proof. intros Hg Hp. unfold chain. rewrite inside_snoc by done. naive_solver. Qed.

Lemma dm_add_spec parts : forall fuel sent m, Forall good parts -> (length parts < fuel)%nat ->
  join_with "/" parts = root \/ inside root (join_with "/" parts) -> (forall k, chain (join_with "/" parts) k -> closed_at m k) ->
  let dir := join_with "/" parts in let m' := dm_add fuel root dir sent m in
  (forall k, is_Some (m' !! k) <-> is_Some (m !! k) \/ chain dir k) /\
  (forall k, m' !! k = Some true <-> m !! k = Some true \/ (k = dir /\ sent = true /\ inside root dir)).
Proof.
  induction parts as [|p parts IH] using rev_ind; intros fuel sent m Hg Hf Hr Hc dir m'.
  - assert (m' = m) as ->.
    { unfold m'. destruct fuel; [done|]. cbn [dm_add]. change (str_eqb dir "") with true. by rewrite orb_true_r. }
    split; intros k; (split; [by left|]); (intros [?|Hk]; [done|]).
    + destruct Hk as [Hk [->|Hk']]; by apply inside_root in Hk || by apply inside_root in Hk'.
    + destruct Hk as (_ & _ & Hk). by apply inside_root in Hk.
  - apply Forall_app in Hg as [Hg [Hp _]%Forall_cons]. rewrite length_app in Hf. cbn [length] in Hf. destruct fuel as [|fuel]; [lia|].
    set (parent := join_with "/" parts) in *. assert (parentDir dir = parent) as Hparent by (by apply parentDir_join).
    assert (forall k, chain dir k <-> inside root k /\ k = dir \/ chain parent k) as Hchain by (intros k; by apply chain_snoc).
    unfold m'. cbn [dm_add]. destruct (str_eqb dir root) eqn:Eroot.
    { apply str_eqb_eq in Eroot. cbn [orb]. split; intros k; (split; [by left|]); (intros [?|Hk]; [done|]).
      - exfalso. destruct Hk as [Hk [->|Hk']]; [rewrite Eroot in Hk; by apply inside_irrefl in Hk|]. rewrite Eroot in Hk'. eapply inside_irrefl, inside_trans; [exact Hk|exact Hk'].
      - destruct Hk as (_ & _ & Hk). rewrite Eroot in Hk. by apply inside_irrefl in Hk. }
    apply str_eqb_neq in Eroot. assert (inside root dir) as Hin by (by destruct Hr).
    assert (str_eqb dir "" = false) as -> by (apply str_eqb_neq; intros E0; unfold dir in E0; apply join_good_nonempty in E0; [done|apply Forall_app; split; [done|by constructor]|by destruct parts]).
    cbn [orb]. rewrite Hparent. assert (parent = root \/ inside root parent) as Hrp by (apply inside_snoc in Hin as [->|Hin]; [by left|by right|done|done]).
    assert (closed_at m dir) as Hcd by (apply Hc, Hchain; by left).
    assert (inside parent dir) as Hpd by (by apply inside_parent).
    assert (is_Some (m !! dir) -> forall k, chain dir k -> is_Some (m !! k)) as Hpresent.
    { intros Hs k [Hk [->|Hk']]; [done|]. by apply (Hcd Hs). }
    assert (forall b : bool, (m !! dir = None \/ b = true) ->
      let m2 := dm_add fuel root parent false (<[dir := b]> m) in
      (forall k, is_Some (m2 !! k) <-> is_Some (m !! k) \/ chain dir k) /\
      (forall k, m2 !! k = Some true <-> (k <> dir /\ m !! k = Some true) \/ (k = dir /\ b = true))) as Hrec.
    { intros b Hb m2. destruct (IH fuel false (<[dir := b]> m)) as [H1 H2]; [done|lia|done| |].
      - intros k Hk Hs a Ha Hak. assert (k <> dir) as Hne.
        { intros ->. destruct Hk as [_ [Hk|Hk]]; [rewrite Hk in Hpd; by apply inside_irrefl in Hpd|]. eapply inside_irrefl, inside_trans; [exact Hk|exact Hpd]. }
        rewrite lookup_insert_ne in Hs by done. assert (chain dir k) as Hk' by (apply Hchain; by right).
        pose proof (Hc k Hk' Hs a Ha Hak) as Hsa. destruct (decide (a = dir)) as [->|]; [rewrite lookup_insert_eq; by eexists|by rewrite lookup_insert_ne].
      - fold m2 in H1, H2. split; intros k; [rewrite H1, Hchain|rewrite H2].
        + destruct (decide (k = dir)) as [->|Hne]; [rewrite lookup_insert_eq; naive_solver|]. rewrite lookup_insert_ne by done. naive_solver.
        + destruct (decide (k = dir)) as [->|Hne]; [rewrite lookup_insert_eq; naive_solver|]. rewrite lookup_insert_ne by done. naive_solver. }
    destruct (m !! dir) as [[|]|] eqn:Em.
    + split; intros k; (split; [by left|]); (intros [?|Hk]; [done|]); [by apply Hpresent; [eexists|]|]. by destruct Hk as (-> & _ & _).
    + destruct sent.
      * destruct (Hrec true (or_intror eq_refl)) as [H1 H2]. split; [exact H1|]. intros k. rewrite H2. destruct (decide (k = dir)) as [->|]; naive_solver.
      * split; intros k; (split; [by left|]); (intros [?|Hk]; [done|]); [by apply Hpresent; [eexists|]|naive_solver].
    + destruct (Hrec sent (or_introl eq_refl)) as [H1 H2]. split; [exact H1|]. intros k. rewrite H2. destruct (decide (k = dir)) as [->|]; naive_solver.
Qed.

Lemma inside_last r k : inside k r -> exists parts p, Forall good parts /\ good p /\ r = join_with "/" (parts ++ [p]).
Proof.
  intros (ps & qs & Hps & Hqs & Hne & -> & ->). destruct qs as [|q qs _] using rev_ind; [done|]. apply Forall_app in Hqs as [Hqs [Hq _]%Forall_cons].
  exists (ps ++ qs), q. rewrite (assoc_L app). split_and!; [by apply Forall_app|done|done].
Qed.

Lemma dm_fuel_enough parts : Forall good parts -> (length parts < dm_fuel (join_with "/" parts))%nat.
Proof.
  intros Hg. unfold dm_fuel. destruct parts as [|p parts]; [cbn; lia|]. rewrite (split_join slash); [lia|done|by apply good_no_slash].
Qed.

(** The directories that an entry is in, and the entry itself if it is one. *)
Definition implied (e : DirEntry) (k : string) : Prop := inside root k /\ ((is_dir e = true /\ k = Remote e) \/ inside k (Remote e)).

Definition dm_wf (m : dmap) : Prop := forall k, is_Some (m !! k) -> inside root k /\ closed_at m k.

Lemma addEntries_spec es : Forall (fun e => inside root (Remote e)) es -> forall m, dm_wf m ->
  let m' := addEntries root es m in
  (forall k, is_Some (m' !! k) <-> is_Some (m !! k) \/ exists e, e ∈ es /\ implied e k) /\
  (forall k, m' !! k = Some true <-> m !! k = Some true \/ exists e, e ∈ es /\ is_dir e = true /\ Remote e = k).
Proof.
  induction 1 as [|e es He Hes IH]; intros m Hwf m'.
  - unfold m', addEntries. cbn [foldl]. split; intros k; (split; [by left|]); (intros [?|(e & He & _)]; [done|by apply not_elem_of_nil in He]).
  - destruct (inside_last _ _ He) as (parts & p & Hg & Hp & Hrem).
    assert (exists m1, m' = addEntries root es m1 /\ (forall k, is_Some (m1 !! k) <-> is_Some (m !! k) \/ implied e k) /\
      (forall k, m1 !! k = Some true <-> m !! k = Some true \/ (is_dir e = true /\ Remote e = k))) as (m1 & -> & H1 & H2).
    { assert (forall k, closed_at m k) as Hc by (intros k Hk; by apply Hwf). destruct e as [o|d]; cbn [Remote is_dir] in *; (eexists; split; [reflexivity|]).
      - assert (parentDir (oRemote o) = join_with "/" parts) as Hpar by (rewrite Hrem; by apply parentDir_join). rewrite Hpar.
        destruct (dm_add_spec parts (dm_fuel (join_with "/" parts)) false m) as [Ha Hb]; [done|by apply dm_fuel_enough| |done|].
        { rewrite Hrem in He. apply inside_snoc in He as [->|He]; [by left|by right|done|done]. }
        split; intros k; [rewrite Ha|rewrite Hb; naive_solver]. unfold implied, chain. cbn [is_dir Remote]. rewrite Hrem, inside_snoc by done. naive_solver.
      - assert (Forall good (parts ++ [p])) as Hg' by (apply Forall_app; split; [done|by constructor]). rewrite Hrem.
        destruct (dm_add_spec (parts ++ [p]) (dm_fuel (join_with "/" (parts ++ [p]))) true m) as [Ha Hb]; [done|by apply dm_fuel_enough|rewrite <- Hrem; by right|done|].
        rewrite <- Hrem in *. split; intros k; [rewrite Ha|rewrite Hb; naive_solver]. unfold implied, chain. cbn [is_dir Remote]. naive_solver. }
    destruct (IH m1) as [H3 H4].
    { intros k [Hk|Hk]%H1.
      - split; [by apply Hwf|]. intros _ a Ha Hak. apply H1. left. by apply (proj2 (Hwf k Hk) Hk).
      - split; [apply Hk|]. intros _ a Ha Hak. apply H1. right. split; [done|]. right. destruct Hk as [_ [[_ ->]|Hk]]; [done|by eapply inside_trans]. }
    split; intros k.
    + rewrite H3, H1. split; [intros [[?|?]|(x & Hx & Hk)]; [by left|right; exists e; split; [by left|done]|right; exists x; split; [by right|done]]|].
      intros [?|(x & [->|Hx]%elem_of_cons & Hk)]; [by left; left|by left; right|right; by exists x].
    + rewrite H4, H2. split; [intros [[?|?]|(x & Hx & Hk)]; [by left|right; exists e; split; [by left|done]|right; exists x; split; [by right|done]]|].
      intros [?|(x & [->|Hx]%elem_of_cons & Hk)]; [by left; left|by left; right|right; by exists x].
Qed.

Lemma unsent_elem m k : k ∈ unsent m <-> m !! k = Some false.
Proof.
  unfold unsent. rewrite sort_Stable_perm, list_elem_of_fmap. split.
  - intros ([k' b] & -> & [Hb Hin]%list_elem_of_filter). cbn [snd fst] in *. subst b. by apply elem_of_map_to_list in Hin.
  - intros Hk. exists (k, false). split; [done|]. apply list_elem_of_filter. split; [done|]. by apply elem_of_map_to_list.
Qed.

Lemma unsent_NoDup m : NoDup (unsent m).
Proof.
  unfold unsent. rewrite sort_Stable_perm. eapply sublist_NoDup; [apply (NoDup_fst_map_to_list m)|]. apply fmap_sublist, sublist_filter.
Qed.
End dir_map.

Lemma helper_all_collect {E} todo : forall es acc, helper_all (E := E) collect todo es acc = (acc ++ es ++ todo, None).
Proof.
  induction todo as [|e todo IH]; intros es acc; cbn [helper_all].
  - unfold helper_Flush, helper_send. rewrite app_nil_r. destruct (1 <=? length es)%nat eqn:El; [done|]. apply Nat.leb_gt in El. destruct es; [|cbn in El; lia]. by rewrite app_nil_r.
  - unfold helper_Add, helper_send. destruct (100 <=? _)%nat.
    + unfold collect at 1. rewrite IH. cbn [app]. by rewrite <- !(assoc_L app).
    + rewrite IH. by rewrite <- !(assoc_L app).
Qed.

Lemma each_part_collect {E} {fi : Filtering E} root parts : forall acc m,
  each_page (listR_part (E := E) collect ListAll root true true) parts None (acc, m) = ((acc ++ concat parts, addEntries root (concat parts) m), None).
Proof.
  induction parts as [|part parts IH]; intros acc m; cbn [each_page concat]; [by rewrite app_nil_r|]. unfold listR_part at 1, ListType_Filter.
  change (ListAll =? ListAll) with true. unfold collect at 1. rewrite IH. unfold addEntries. by rewrite foldl_app, <- (assoc_L app).
Qed.

(** C28: a recursive listing of a remote without directories is completed.  What [listR] passes on is what the remote lists and then,
    once each and in order, exactly the directories below the root of which something is listed inside and which the remote
    itself has not listed. *)
Theorem listR_completes {E} {fi : Filtering E} doListR root parts now : doListR root = (parts, None) ->
  Forall (fun e => inside root (Remote e)) (concat parts) ->
  exists made, listR (E := E) collect now doListR root true ListAll true [] = (concat parts ++ map (fun d => EDir (mkDirectory d now)) made, None) /\
    NoDup made /\ StronglySorted (fun a b => str_ltb b a = false) made /\
    forall k, k ∈ made <-> inside root k /\ (exists e, e ∈ concat parts /\ inside k (Remote e)) /\ k ∉ dir_names (concat parts).
Proof.
  intros HR Hin. exists (unsent (addEntries root (concat parts) ∅)). destruct (addEntries_spec root (concat parts) Hin ∅) as [H1 H2].
  { intros k [x Hx]. by rewrite lookup_empty in Hx. }
  set (m := addEntries root (concat parts) ∅) in *. split_and!; [|apply unsent_NoDup|exact (sort_Stable_sorted str_ltb _)|].
  - unfold listR. cbn [orb]. rewrite HR, each_part_collect. fold m. unfold sendEntries. cbn [app]. destruct (unsent m) as [|d ds] eqn:Eu; [by rewrite app_nil_r|].
    rewrite helper_all_collect. done.
  - intros k. rewrite unsent_elem. assert (k ∈ dir_names (concat parts) <-> m !! k = Some true) as Hdir.
    { rewrite H2, lookup_empty, elem_of_dir_names. split; [intros (d & Hd & <-); right; by exists (EDir d)|].
      intros [?|(e & He & Hd & <-)]; [done|]. destruct e as [o|d]; [done|]. by exists d. }
    rewrite Hdir. split.
    + intros Hk. assert (is_Some (m !! k)) as [[x Hx]|(e & He & Hr & Hor)]%H1 by (by eexists); [by rewrite lookup_empty in Hx|]. split_and!; [done| |congruence].
      destruct Hor as [[Hd ->]|Hor]; [|by exists e]. exfalso. assert (m !! Remote e = Some true) by (apply H2; right; by exists e). congruence.
    + intros (Hr & (e & He & Hk) & Hnd). assert (is_Some (m !! k)) as [[|] Hb]; [apply H1; right; exists e; split; [done|]; split; [done|by right]|done|done].
Qed.

(** C14: [walk] visits every directory.  When [fn] does not fail on the directories that are reached within [maxLevel] levels,
    every run of the workers, in any order, ends after one step for each of them, is never stuck before, calls [fn] exactly
    once for each, a directory always after the one in whose listing it is, and returns no error. *)
Theorem walk_visits_all {E A} (fn : string -> list DirEntry -> option E -> A -> A * option walk_error) listDir n path maxLevel s all :
  reach listDir n (path, maxLevel - 1) = Some all -> (forall job s, job ∈ all -> snd (call_fn fn listDir job s) = None) ->
  (forall k w, nsteps (walk_step fn listDir false) k (walk_init path maxLevel s) w ->
     (k <= length all)%nat /\ (jobs w <> [] -> exists w', walk_step fn listDir false w w') /\
     parents_first listDir (path, maxLevel - 1) (visited w) /\
     (jobs w = [] -> visited w ≡ₚ all /\ err w = None /\ st w = run_fn fn listDir s (visited w))) /\
  (exists w, rtc (walk_step fn listDir false) (walk_init path maxLevel s) w /\ jobs w = []).
Proof.
  intros Hr Hfn. split.
  - intros k w Hs. destruct (pool_run fn listDir s all Hfn n k path maxLevel w Hr Hs) as [Hinv Hk].
    destruct (pool_length _ _ _ _ _ _ Hinv) as [Hle Hfin]. destruct Hinv as (Hst & _ & He & _ & Hpf & _).
    split_and!; [lia|apply pool_progress|done|]. intros Hj. split_and!; [by apply Hfin|done|done].
  - destruct (pool_ends fn listDir s all Hfn (path, maxLevel - 1) (walk_init path maxLevel s)) as (w & Hw & Hj & _); [by eapply pool_start|]. by exists w.
Qed.

(** ** Examples *)

Definition obj (r : string) : DirEntry := EObject (example_object r).
Definition dir (r : string) : DirEntry := EDir (mkDirectory r 7).

Definition example_list (d : string) : list DirEntry :=
  if str_eqb d "" then [obj "f"; dir "a"] else if str_eqb d "a" then [dir "a/b"; obj "a/c"] else if str_eqb d "a/b" then [obj "a/b/c"] else [].

#[local] Instance tree_lister : Lister Filter.filter_error :=
  {| List_ d := inr (example_list d); ListP := None; NewObject r := inr (example_object r) |}.

#[local] Instance no_filter : Filtering Filter.filter_error := filter_filtering (env := Filter.example_env) (ignoring []) (fun _ => None).

Definition example_jobs : list listJob := [("", -2); ("a", -3); ("a/b", -4)].

Definition note (path : string) (entries : list DirEntry) (err : option Filter.filter_error) (seen : list string)
  : list string * option (walk_error (E := Filter.filter_error)) := (seen ++ [path], None).

Lemma walk_visits_all_witness : exists w, rtc (walk_step note (DirSorted true) false) (walk_init "" (-1) []) w /\ jobs w = [].
Proof.
  destruct (walk_visits_all note (DirSorted true) 4 "" (-1) [] example_jobs) as [_ Hw]; [vm_compute; reflexivity| |exact Hw].
  intros [d n] s _. unfold call_fn, note. destruct (DirSorted true _); reflexivity.
Defined.


Lemma listR_completes_witness : exists made,
  listR (E := Filter.filter_error) collect 5 (fun _ => ([[obj "a/b/c/f"]; [dir "a/b"; obj "a/x"]], None)) "" true ListAll true [] =
    ([obj "a/b/c/f"; dir "a/b"; obj "a/x"] ++ map (fun d => EDir (mkDirectory d 5)) made, None) /\ made = ["a"; "a/b/c"].
Proof.
  destruct (listR_completes (fun _ => ([[obj "a/b/c/f"]; [dir "a/b"; obj "a/x"]], None)) "" [[obj "a/b/c/f"]; [dir "a/b"; obj "a/x"]] 5) as (made & Hm & _).
  - reflexivity.
  - repeat constructor; exists [].
    + exists ["a"; "b"; "c"; "f"]. split_and!; try done; repeat constructor; done.
    + exists ["a"; "b"]. split_and!; try done; repeat constructor; done.
    + exists ["a"; "x"]. split_and!; try done; repeat constructor; done.
  - exists made. split; [exact Hm|]. vm_compute in Hm. destruct made as [|x [|y [|z made]]]; try discriminate Hm. by injection Hm as <- <-.
Defined.

(** *** Differences between the ways to walk *)

Definition below_a (listR : list DirEntry) : string -> list (list DirEntry) * option Filter.filter_error := fun _ => ([listR], None).

(** The start a/b with one file in it, two levels. *)
Definition deep_tree : DirTree := {[ "a/b" := [obj "a/b/c"] ]}.
Definition deep_tree_fast : DirTree := {[ "" := [EDir (mkDirectory "" 0); EDir (mkDirectory "a" 0)]; "a" := [EDir (mkDirectory "a/b" 0)]; "a/b" := [] ]}.

(** With --fast-list the levels are counted from the root of the remote and not from the start of the walk.  A walk of two levels
    from a/b finds the file a/b/c in the listing of a/b; the recursive listing, which has that file too, gives a tree
    without it, but with the directories above the start, one of which lists itself. *)
Theorem fast_list_levels :
  walkNDirTree (DirSorted true) false "a/b" 2 (inr deep_tree) /\
  walkRDirTree (fun _ => 0) (below_a [obj "a/b/c"]) "a/b" true 2 (Tree deep_tree_fast).
Proof.
  split.
  - exists deep_tree, None. split; [|reflexivity]. exists (mkW (children (DirSorted true) ("a/b", 1)) deep_tree [("a/b", 1)] None false).
    split; [|split; [vm_compute; reflexivity|by split]].
    apply rtc_once. apply (step_visit tree_fn (DirSorted true) false [] ("a/b", 1) [] ∅ [] None false deep_tree None). reflexivity.
  - unfold walkRDirTree, below_a. set (t := tree_parts _ _ _ _ _ _). assert (t = inr ({[ "a" := [EDir (mkDirectory "a/b" 0)]; "a/b" := [] ]}, ∅)) as -> by (vm_compute; reflexivity).
    exists ["a"; "a/b"]. split.
    { intros k [x Hx]. apply lookup_insert_Some in Hx as [[<- _]|[_ Hx]]; [by left|]. apply lookup_singleton_Some in Hx as [<- _]. right. by left. }
    split; [vm_compute; repeat split; eexists; reflexivity|]. set (c := CheckParents _ _ _ _).
    assert (c = Some {[ "" := [EDir (mkDirectory "a" 0); EDir (mkDirectory "" 0)]; "a" := [EDir (mkDirectory "a/b" 0)]; "a/b" := [] ]}) as -> by (vm_compute; reflexivity).
    exists []. split; [by rewrite map_to_list_empty|]. cbn [prune_parents]. eexists. split; [apply rtc_refl|]. reflexivity.
Qed.

(** An object that the filter excludes makes its directory up when it arrives before it, and then the directory is listed twice. *)
Definition no_tmp : Filter.Filter := match Filter.NewFilter (env := Filter.example_env) (Filter.filtering ["- *.tmp"]) with inr f => f | inl _ => Filter.empty_filter end.

Example fast_list_twice :
  match tree_parts (fi := filter_filtering (env := Filter.example_env) no_tmp (fun _ => None)) (fun _ => 0) false (-1) [[obj "d/x.tmp"; dir "d"]] None (∅, ∅) with
  | inr (dirs, _) => listing dirs ""
  | inl _ => []
  end = [EDir (mkDirectory "d" 0); dir "d"].
Proof. vm_compute. reflexivity. Qed.

(** A directory that is skipped: what is in it is visited all the same when a directory between them sorts before the slash. *)
Definition skip_a (path : string) (entries : list DirEntry) (err : option Filter.filter_error) (seen : list string)
  : list string * option (walk_error (E := Filter.filter_error)) := (seen ++ [path], if str_eqb path "a" then Some ErrorSkipDir else None).

Definition sibling_tree : DirTree := {[ "" := [dir "a"; dir "a-b"]; "a" := [dir "a/x"]; "a-b" := []; "a/x" := [] ]}.

Example skip_leaks : walkR skip_a sibling_tree [] = ([""; "a"; "a-b"; "a/x"], None).
Proof. vm_compute. reflexivity. Qed.
End Walk.
