(* ===== verification/PoolRW.v ===== *)
(** * A buffer of pages to write to and read from: lib/pool/reader_writer.go

    [RW] keeps what is written to it in pages of one size that it gets from a
    pool, and can be read from any place in it.  It is shown to be a flat array
    of bytes with a place to read from: nothing of what the pages held before
    is seen, and the last page is never read past what was written to it. *)
From S2P Require Import Prelude GoPath Utf8 Streams OpenOptions.

Module PoolRW.
Import Utf8 Streams OpenOptions.

Inductive error : Type :=
  | EOF
  | ErrClosed
  | errInvalidWhence
  | errNegativeSeek
  | errSeekPastEnd
  | ErrOther (code : Z).

#[export] Instance error_eq_dec : EqDecision error.
Proof. solve_decision. Defined.

Abbreviation stream := (Streams.stream error).

(** [rw_got] counts the pages that were taken from the pool, [rw_put] those that
    were given back. *)
Record RW : Type := mkRW {
  rw_account : option (Z -> option error);
  rw_accountOn : Z;
  rw_pages : list bytes;
  rw_size : Z;
  rw_lastOffset : Z;
  rw_closed : bool;
  rw_out : Z;
  rw_reads : Z;
  rw_reserved : list bytes;
  rw_got : nat;
  rw_put : nat }.

(** The pool: the size of its pages, and what the n-th page that it gives holds. *)
Record Pool : Type := mkPool { p_bufferSize : Z; p_page : nat -> bytes }.

Definition NewRW : RW := mkRW None 0 [] 0 0 false 0 0 [] 0 0.

Definition SetAccounting (rw : RW) (account : Z -> option error) : RW :=
  mkRW (Some account) (rw_accountOn rw) (rw_pages rw) (rw_size rw) (rw_lastOffset rw) (rw_closed rw)
    (rw_out rw) (rw_reads rw) (rw_reserved rw) (rw_got rw) (rw_put rw).

Definition DelayAccounting (rw : RW) (i : Z) : RW :=
  mkRW (rw_account rw) i (rw_pages rw) (rw_size rw) (rw_lastOffset rw) (rw_closed rw)
    (rw_out rw) 0 (rw_reserved rw) (rw_got rw) (rw_put rw).

Definition set_out (rw : RW) (out : Z) : RW :=
  mkRW (rw_account rw) (rw_accountOn rw) (rw_pages rw) (rw_size rw) (rw_lastOffset rw) (rw_closed rw)
    out (rw_reads rw) (rw_reserved rw) (rw_got rw) (rw_put rw).

Definition count_read (rw : RW) : RW :=
  mkRW (rw_account rw) (rw_accountOn rw) (rw_pages rw) (rw_size rw) (rw_lastOffset rw) (rw_closed rw)
    (rw_out rw) (rw_reads rw + 1) (rw_reserved rw) (rw_got rw) (rw_put rw).

Definition accountRead (rw : RW) (n : Z) : option error :=
  match rw_account rw with
  | None => None
  | Some account => if rw_reads rw >=? rw_accountOn rw then account n else None
  end.

Section pool.
Variable pool : Pool.

Abbreviation bufferSize := (p_bufferSize pool).

(** [pool.GetN(n)] *)
Definition GetN (from n : nat) : list bytes := map (p_page pool) (seq from n).

(** [Reserve], for a number that is not negative. *)
Definition Reserve (rw : RW) (n : Z) : RW :=
  let buffers := Z.to_nat (Z.quot (i64 (i64 (n + bufferSize) - 1)) bufferSize) in
  mkRW (rw_account rw) (rw_accountOn rw) (rw_pages rw) (rw_size rw) (rw_lastOffset rw) (rw_closed rw)
    (rw_out rw) (rw_reads rw) (GetN (rw_got rw) buffers) (rw_got rw + buffers) (rw_put rw).

(** [readPage]: what the page of the i-th byte holds from there on. *)
Definition readPage (rw : RW) (i : Z) : outcome (RW * (error + bytes)) :=
  if rw_closed rw then Ret (rw, inl ErrClosed)
  else if i >=? rw_size rw then Ret (rw, inl EOF)
  else
    let rw := if i =? 0 then count_read rw else rw in
    let pageNumber := i / bufferSize in
    let offset := i mod bufferSize in
    let! page := deref (rw_pages rw !! Z.to_nat pageNumber) in
    let! page := if pageNumber =? Z.of_nat (length (rw_pages rw)) - 1
                 then slice page 0 (rw_lastOffset rw) else Ret page in
    let! page := slice page offset (zlen page) in
    Ret (rw, inr page).

(** [Read] for a buffer of [k] bytes.  Every page that is read from gives a byte
    at least. *)
Fixpoint Read_loop (fuel : nat) (rw : RW) (k : Z) (acc : bytes) : outcome (RW * bytes * option error) :=
  match fuel with
  | O => Ret (rw, acc, None)
  | S fuel' =>
      if k >? 0 then
        let! (rw, page) := readPage rw (rw_out rw) in
        match page with
        | inl e => Ret (rw, acc, Some e)
        | inr page =>
            let part := ztake k page in
            let nn := zlen part in
            let rw := set_out rw (rw_out rw + nn) in
            match accountRead rw nn with
            | Some e => Ret (rw, acc ++ part, Some e)
            | None => Read_loop fuel' rw (k - nn) (acc ++ part)
            end
        end
      else Ret (rw, acc, None)
  end.

Definition Read (rw : RW) (k : Z) : outcome (RW * bytes * option error) :=
  Read_loop (S (Z.to_nat k)) rw k [].

(** [WriteTo] a writer that takes what it is given or fails: [w at n] says for
    [n] bytes from [at] on how many it takes before its error, if it has one. *)
Fixpoint WriteTo_loop (fuel : nat) (rw : RW) (w : Z -> Z -> option (Z * error)) (acc : bytes)
    : outcome (RW * bytes * option error) :=
  match fuel with
  | O => Ret (rw, acc, None)
  | S fuel' =>
      let! (rw, page) := readPage rw (rw_out rw) in
      match page with
      | inl EOF => Ret (rw, acc, None)
      | inl e => Ret (rw, acc, Some e)
      | inr page =>
          match w (rw_out rw) (zlen page) with
          | Some (nn, e) => Ret (set_out rw (rw_out rw + nn), acc ++ ztake nn page, Some e)
          | None =>
              let rw := set_out rw (rw_out rw + zlen page) in
              match accountRead rw (zlen page) with
              | Some e => Ret (rw, acc ++ page, Some e)
              | None => WriteTo_loop fuel' rw w (acc ++ page)
              end
          end
      end
  end.

Definition WriteTo (rw : RW) (w : Z -> Z -> option (Z * error)) : outcome (RW * bytes * option error) :=
  WriteTo_loop (S (Z.to_nat (rw_size rw))) rw w [].

(** [writePage]: the last page, or one more; the room in it. *)
Definition writePage (rw : RW) : RW * (error + Z) :=
  if rw_closed rw then (rw, inl ErrClosed)
  else if negb (length (rw_pages rw) =? 0)%nat && (rw_lastOffset rw <? bufferSize)
  then (rw, inr (bufferSize - rw_lastOffset rw))
  else
    let '(page, reserved, got) := match last (rw_reserved rw) with
                                  | Some page => (page, removelast (rw_reserved rw), rw_got rw)
                                  | None => (p_page pool (rw_got rw), [], S (rw_got rw))
                                  end in
    (mkRW (rw_account rw) (rw_accountOn rw) (rw_pages rw ++ [page]) (rw_size rw) 0 false
       (rw_out rw) (rw_reads rw) reserved got (rw_put rw), inr (zlen page)).

(** Bytes put into the room that [writePage] gave. *)
Definition put_at (off : Z) (b page : bytes) : bytes :=
  ztake off page ++ b ++ zdrop (off + zlen b) page.

Definition fill (rw : RW) (b : bytes) : RW :=
  mkRW (rw_account rw) (rw_accountOn rw)
    (alter (put_at (rw_lastOffset rw) b) (length (rw_pages rw) - 1)%nat (rw_pages rw))
    (rw_size rw + zlen b) (rw_lastOffset rw + zlen b) (rw_closed rw)
    (rw_out rw) (rw_reads rw) (rw_reserved rw) (rw_got rw) (rw_put rw).

Fixpoint Write_loop (fuel : nat) (rw : RW) (p : bytes) (n : Z) : RW * Z * option error :=
  match fuel with
  | O => (rw, n, None)
  | S fuel' =>
      if zlen p >? 0 then
        match writePage rw with
        | (rw, inl e) => (rw, n, Some e)
        | (rw, inr room) =>
            let part := ztake room p in
            Write_loop fuel' (fill rw part) (zdrop (zlen part) p) (n + zlen part)
        end
      else (rw, n, None)
  end.

Definition Write (rw : RW) (p : bytes) : RW * Z * option error :=
  Write_loop (S (length p)) rw p 0.

(** [ReadFrom] a stream until it ends. *)
Fixpoint ReadFrom_loop (fuel : nat) (rw : RW) (r : stream) (n : Z) : RW * stream * Z * option error :=
  match fuel with
  | O => (rw, r, n, None)
  | S fuel' =>
      match writePage rw with
      | (rw, inl e) => (rw, r, n, Some e)
      | (rw, inr room) =>
          let '(r, out, err) := s_Read r (Z.to_nat room) in
          let rw := fill rw out in
          match err with
          | Some EOF => (rw, r, n + zlen out, None)
          | Some e => (rw, r, n + zlen out, Some e)
          | None => ReadFrom_loop fuel' rw r (n + zlen out)
          end
      end
  end.

Definition ReadFrom (rw : RW) (r : stream) : RW * stream * Z * option error :=
  ReadFrom_loop (2 + length (s_sched r) + length (s_data r)) rw r 0.

Definition Seek (rw : RW) (offset whence : Z) : RW * Z * option error :=
  if rw_closed rw then (rw, 0, Some ErrClosed)
  else
    let go abs :=
      if abs <? 0 then (rw, 0, Some errNegativeSeek)
      else if abs >? rw_size rw then (rw, i64 (offset - i64 (abs - rw_size rw)), Some errSeekPastEnd)
      else (set_out rw abs, abs, None) in
    if whence =? 0 then go offset
    else if whence =? 1 then go (i64 (rw_out rw + offset))
    else if whence =? 2 then go (i64 (rw_size rw + offset))
    else (rw, 0, Some errInvalidWhence).

(** [Close] gives all the pages back. *)
Definition Close (rw : RW) : RW :=
  mkRW (rw_account rw) (rw_accountOn rw) [] (rw_size rw) (rw_lastOffset rw) true
    (rw_out rw) (rw_reads rw) [] (rw_got rw) (rw_put rw + length (rw_pages rw) + length (rw_reserved rw)).

Definition Size (rw : RW) : Z := rw_size rw.

End pool.

Definition small : Pool := mkPool 3 (fun n => [90 + Z.of_nat n; 91; 92]).

Example rw_1 :
  let '(rw, n, _) := Write small (Reserve small NewRW 4) [1; 2; 3; 4; 5] in
  match Read small rw 4 with
  | Ret (rw, out, e) => match Read small rw 4 with
                        | Ret (rw, out', e') => Some (n, out, e, out', e', rw_pages rw, rw_got (Close rw), rw_put (Close rw))
                        | Panic => None end
  | Panic => None
  end = Some (5, [1; 2; 3; 4], None, [5], Some EOF, [[1; 2; 3]; [4; 5; 92]], 2%nat, 2%nat).
Proof. vm_compute. reflexivity. Qed.

(** ** The buffer as a flat array *)

Record flat : Type := mkFlat { fl_data : bytes; fl_pos : Z; fl_closed : bool }.

Inductive op : Type :=
  | ORead (k : Z)
  | OWrite (b : bytes)
  | OReadFrom (r : stream)
  | OWriteTo
  | OSeek (offset whence : Z)
  | OClose.

Inductive result : Type :=
  | RBytes (out : bytes) (e : option error)
  | RNum (n : Z) (e : option error).

Definition flat_seek (f : flat) (offset abs : Z) : flat * result :=
  if abs <? 0 then (f, RNum 0 (Some errNegativeSeek))
  else if abs >? zlen (fl_data f) then (f, RNum (i64 (offset - i64 (abs - zlen (fl_data f)))) (Some errSeekPastEnd))
  else (mkFlat (fl_data f) abs (fl_closed f), RNum abs None).

(** What each operation does to the array. *)
Definition flat_step (f : flat) (o : op) : flat * result :=
  let rest := zdrop (fl_pos f) (fl_data f) in
  if fl_closed f then
    (f, match o with
        | ORead k => RBytes [] (if k >? 0 then Some ErrClosed else None)
        | OWrite b => RNum 0 (if zlen b >? 0 then Some ErrClosed else None)
        | OReadFrom _ => RNum 0 (Some ErrClosed)
        | OWriteTo => RBytes [] (Some ErrClosed)
        | OSeek _ _ => RNum 0 (Some ErrClosed)
        | OClose => RNum 0 None
        end)
  else
    match o with
    | ORead k =>
        let out := ztake k rest in
        (mkFlat (fl_data f) (fl_pos f + zlen out) false, RBytes out (if zlen out <? k then Some EOF else None))
    | OWrite b => (mkFlat (fl_data f ++ b) (fl_pos f) false, RNum (zlen b) None)
    | OReadFrom r =>
        (mkFlat (fl_data f ++ s_data r) (fl_pos f) false,
         RNum (zlen (s_data r)) (if decide (s_err r = EOF) then None else Some (s_err r)))
    | OWriteTo => (mkFlat (fl_data f) (zlen (fl_data f)) false, RBytes rest None)
    | OSeek offset whence =>
        if whence =? 0 then flat_seek f offset offset
        else if whence =? 1 then flat_seek f offset (i64 (fl_pos f + offset))
        else if whence =? 2 then flat_seek f offset (i64 (zlen (fl_data f) + offset))
        else (f, RNum 0 (Some errInvalidWhence))
    | OClose => (mkFlat (fl_data f) (fl_pos f) true, RNum 0 None)
    end.

Definition step (pool : Pool) (rw : RW) (o : op) : outcome (RW * result) :=
  match o with
  | ORead k => let! (rw, out, e) := Read pool rw k in Ret (rw, RBytes out e)
  | OWrite b => let '(rw, n, e) := Write pool rw b in Ret (rw, RNum n e)
  | OReadFrom r => let '(rw, _, n, e) := ReadFrom pool rw r in Ret (rw, RNum n e)
  | OWriteTo => let! (rw, out, e) := WriteTo pool rw (fun _ _ => None) in Ret (rw, RBytes out e)
  | OSeek offset whence => let '(rw, n, e) := Seek rw offset whence in Ret (rw, RNum n e)
  | OClose => Ret (Close rw, RNum 0 None)
  end.

Fixpoint run (pool : Pool) (rw : RW) (os : list op) : outcome (RW * list result) :=
  match os with
  | [] => Ret (rw, [])
  | o :: os => let! (rw, r) := step pool rw o in let! (rw, rs) := run pool rw os in Ret (rw, r :: rs)
  end.

Fixpoint flat_run (f : flat) (os : list op) : flat * list result :=
  match os with
  | [] => (f, [])
  | o :: os => let '(f, r) := flat_step f o in let '(f, rs) := flat_run f os in (f, r :: rs)
  end.

Record pool_ok (pool : Pool) : Prop := {
  po_size : 0 < p_bufferSize pool;
  po_page n : zlen (p_page pool n) = p_bufferSize pool }.

Section correct.
Variable pool : Pool.
Hypothesis (Hpool : pool_ok pool).

Abbreviation bs := (p_bufferSize pool).

Definition sized (pages : list bytes) : Prop := Forall (fun page => zlen page = bs) pages.

(** What was written. *)
Definition contents (rw : RW) : bytes := ztake (rw_size rw) (concat (rw_pages rw)).

(** What holds of a buffer that is open. *)
Record inv (rw : RW) : Prop := {
  in_pages : sized (rw_pages rw);
  in_reserved : sized (rw_reserved rw);
  in_last : 0 <= rw_lastOffset rw <= bs;
  in_size : rw_size rw = Z.of_nat (length (rw_pages rw) - 1) * bs + rw_lastOffset rw;
  in_none : rw_pages rw = [] -> rw_lastOffset rw = 0;
  in_out : 0 <= rw_out rw <= rw_size rw;
  in_open : rw_closed rw = false }.

(** The pages are accounted for, and the accounting has no errors. *)
Definition balanced (rw : RW) : Prop :=
  rw_got rw = (rw_put rw + length (rw_pages rw) + length (rw_reserved rw))%nat.

Definition quiet (rw : RW) : Prop := forall account n, rw_account rw = Some account -> account n = None.

Lemma quiet_accountRead rw n : quiet rw -> accountRead rw n = None.
Proof. intros Hq. unfold accountRead. destruct (rw_account rw) eqn:E; [|done]. case_if; [by apply Hq|done]. Qed.

Lemma zlen_concat pages : sized pages -> zlen (concat pages) = Z.of_nat (length pages) * bs.
Proof.
  induction 1 as [|page pages Hp _ IH]; [done|]. cbn [concat length]. rewrite zlen_app, Hp, IH. lia.
Qed.

(** The pages but the last are full. *)
Lemma contents_snoc rw init page : inv rw -> rw_pages rw = init ++ [page] ->
  contents rw = concat init ++ ztake (rw_lastOffset rw) page.
Proof using Hpool.
  intros [Hp _ Hl Hs _ _ _] E. unfold contents. rewrite E in *. apply Forall_app in Hp as [Hi Hp].
  inversion Hp as [|?? Hpage]; subst. rewrite length_app in Hs. cbn [length] in Hs.
  replace (length init + 1 - 1)%nat with (length init) in Hs by lia.
  pose proof (zlen_concat init Hi) as Hc. rewrite concat_app. cbn [concat]. rewrite app_nil_r.
  rewrite ztake_ge_app by lia. do 2 f_equal. lia.
Qed.

Lemma pages_cases rw : inv rw -> (rw_pages rw = [] /\ contents rw = [] /\ rw_size rw = 0) \/
  exists init page, rw_pages rw = init ++ [page].
Proof.
  intros [Hp _ Hl Hs Hn _ _]. destruct (rw_pages rw) as [|x l] using rev_ind; [left|right; by exists l, x].
  specialize (Hn eq_refl). cbn in Hs. split_and!; [done| |lia]. unfold contents. rewrite Hs, Hn. done.
Qed.

Lemma zlen_contents rw : inv rw -> zlen (contents rw) = rw_size rw.
Proof using Hpool.
  intros Hinv. destruct (pages_cases rw Hinv) as [(_ & -> & ->)|(init & page & E)]; [done|].
  rewrite (contents_snoc rw init page Hinv E). destruct Hinv as [Hp _ Hl Hs _ _ _].
  rewrite E in *. apply Forall_app in Hp as [Hi Hp]. inversion Hp as [|?? Hpage]; subst.
  rewrite zlen_app, zlen_concat, zlen_ztake by done. rewrite length_app in Hs. cbn [length] in Hs.
  replace (length init + 1 - 1)%nat with (length init) in Hs by lia. lia.
Qed.

(** Reading one page does not change what the buffer holds. *)
Definition same (rw rw' : RW) : Prop :=
  rw_account rw' = rw_account rw /\ rw_pages rw' = rw_pages rw /\ rw_size rw' = rw_size rw /\
  rw_lastOffset rw' = rw_lastOffset rw /\ rw_closed rw' = rw_closed rw /\
  rw_reserved rw' = rw_reserved rw /\ rw_got rw' = rw_got rw /\ rw_put rw' = rw_put rw.

Lemma same_inv rw rw' : same rw rw' -> inv rw -> 0 <= rw_out rw' <= rw_size rw' -> inv rw'.
Proof.
  intros (_ & Ep & Es & El & Ec & Er & _) [] Ho. split; rewrite ?Ep, ?Er, ?El, ?Es, ?Ec in *; auto.
Qed.

Lemma same_contents rw rw' : same rw rw' -> contents rw' = contents rw.
Proof. intros (_ & Ep & Es & _). unfold contents. by rewrite Ep, Es. Qed.

Lemma same_other rw rw' : same rw rw' -> (quiet rw -> quiet rw') /\ (balanced rw -> balanced rw').
Proof.
  intros (Ea & Ep & _ & _ & _ & Er & Eg & Eu). unfold quiet, balanced. by rewrite Ea, Ep, Er, Eg, Eu.
Qed.

Lemma same_trans a b c : same a b -> same b c -> same a c.
Proof. unfold same. intros (->&->&->&->&->&->&->&->) (->&->&->&->&->&->&->&->). done. Qed.

Lemma readPage_spec rw i : inv rw -> 0 <= i < rw_size rw ->
  exists rw' page t, readPage pool rw i = Ret (rw', inr page) /\ same rw rw' /\ rw_out rw' = rw_out rw /\
    page <> [] /\ zdrop i (contents rw) = page ++ t.
Proof using Hpool.
  intros Hinv Hi. pose proof (po_size pool Hpool) as Hbs. pose proof Hinv as [Hp _ Hl Hs Hn _ Ho].
  unfold readPage. rewrite Ho. rewrite Z.geb_leb, (proj2 (Z.leb_gt _ i)) by lia.
  set (rw' := if i =? 0 then count_read rw else rw).
  assert (same rw rw' /\ rw_out rw' = rw_out rw) as [Hsame Hout] by (unfold rw'; by case_if).
  pose proof Hsame as (_ & -> & _ & -> & _). pose proof (Z.div_mod i bs ltac:(lia)) as Hdm.
  pose proof (Z.mod_pos_bound i bs Hbs) as Hm. set (pn := i / bs) in *. set (off := i mod bs) in *.
  assert (0 <= pn) as Hpn by (apply Z.div_pos; lia).
  assert (Z.to_nat pn < length (rw_pages rw))%nat as Hin.
  { destruct (rw_pages rw) as [|x l] eqn:E; [specialize (Hn eq_refl); cbn in Hs; lia|]. cbn [length] in *.
    replace (S (length l) - 1)%nat with (length l) in Hs by lia.
    assert (pn < Z.of_nat (length l) + 1); [|lia]. nia. }
  destruct (lookup_lt_is_Some_2 _ _ Hin) as [page Hpage]. rewrite Hpage. cbn [deref obind].
  assert (zlen page = bs) as Hlen by (eapply (Forall_lookup_1 _ _ _ _ Hp); exact Hpage).
  pose proof (take_drop_middle _ _ _ Hpage) as Hsplit.
  set (before := take (Z.to_nat pn) (rw_pages rw)) in *. set (after := drop (S (Z.to_nat pn)) (rw_pages rw)) in *.
  assert (zlen (concat before) = pn * bs) as Hbefore.
  { rewrite zlen_concat by (by apply Forall_take). unfold before. rewrite length_take. f_equal. lia. }
  case_if; breflect.
  - assert (after = []) as Hafter by (apply drop_ge; lia).
    rewrite Hafter in Hsplit. rewrite (contents_snoc rw before page Hinv (eq_sym Hsplit)).
    rewrite slice_ok by lia. cbn [obind]. rewrite Z.sub_0_r, zdrop_0.
    assert (off < rw_lastOffset rw) as Hlt.
    { replace (Z.of_nat (length (rw_pages rw) - 1)) with pn in Hs by lia. lia. }
    rewrite slice_ok by zlen. cbn [obind]. set (b := ztake (rw_lastOffset rw) page).
    exists rw', (ztake (zlen b - off) (zdrop off b)), []. split_and!; [done|done|done|apply zlen_pos; unfold b; zlen|].
    rewrite app_nil_r, ztake_rest by lia. rewrite zdrop_ge_app by lia. f_equal. lia.
  - cbn [obind]. rewrite slice_ok by lia. cbn [obind]. rewrite ztake_rest by lia.
    assert (contents rw = ztake (rw_size rw) (concat before ++ page ++ concat after)) as ->.
    { unfold contents. by rewrite <- Hsplit, concat_app. }
    assert (pn * bs + bs <= rw_size rw) as Hfull.
    { assert (pn < Z.of_nat (length (rw_pages rw) - 1)) by lia. nia. }
    rewrite ztake_ge_app, zdrop_ge_app by lia. rewrite ztake_ge_app, zdrop_le_app by lia.
    replace (i - zlen (concat before)) with off by lia.
    do 3 eexists. split_and!; [done|done|done|apply zlen_pos; zlen|done].
Qed.

Lemma rw_Read_loop_spec fuel rw k acc : inv rw -> quiet rw -> 0 <= k -> (Z.to_nat k < fuel)%nat ->
  let out := ztake k (zdrop (rw_out rw) (contents rw)) in
  exists rw', Read_loop pool fuel rw k acc =
      Ret (rw', acc ++ out, if zlen out <? k then Some EOF else None) /\
    same rw rw' /\ rw_out rw' = rw_out rw + zlen out.
Proof using Hpool.
  revert rw k acc. induction fuel as [|fuel IH]; intros rw k acc Hinv Hq Hk Hfuel out; [lia|].
  pose proof (zlen_contents rw Hinv) as Hlen. pose proof (in_out rw Hinv) as Ho.
  cbn [Read_loop]. rewrite Z.gtb_ltb. case_if; breflect.
  2:{ exists rw. assert (k = 0) as -> by lia. change out with (@nil Z).
      rewrite app_nil_r. change (zlen []) with 0. split_and!; [done|done|lia]. }
  destruct (decide (rw_out rw < rw_size rw)) as [Hlt|Hge].
  - destruct (readPage_spec rw (rw_out rw) Hinv) as (rw1 & page & t & -> & Hsame & Hout & Hne & Hz); [lia|].
    cbn [obind]. set (part := ztake k page). apply zlen_pos in Hne.
    assert (0 < zlen part <= k) as Hpart by (unfold part; zlen).
    assert (zlen part <= rw_size rw - rw_out rw) as Hfit.
    { assert (zlen (zdrop (rw_out rw) (contents rw)) = zlen page + zlen t) as Hx by (rewrite Hz; zlen).
      rewrite zlen_zdrop, Hlen in Hx. unfold part. zlen. }
    set (rw2 := set_out rw1 (rw_out rw1 + zlen part)).
    assert (same rw rw2) as Hsame2 by (by destruct Hsame as (?&?&?&?&?&?&?&?)).
    destruct (same_other _ _ Hsame2) as [Hq2 _]. rewrite quiet_accountRead by auto.
    assert (inv rw2) as Hinv2.
    { apply (same_inv _ _ Hsame2 Hinv). destruct Hsame2 as (_ & _ & -> & _). cbn. rewrite Hout. lia. }
    destruct (IH rw2 (k - zlen part) (acc ++ part) Hinv2 (Hq2 Hq)) as (rw' & -> & Hs' & Ho'); [lia|lia|].
    rewrite (same_contents _ _ Hsame2) in *.
    assert (rw_out rw2 = rw_out rw + zlen part) as E2 by (cbn; by rewrite Hout). rewrite E2 in *.
    assert (out = part ++ ztake (k - zlen part) (zdrop (rw_out rw + zlen part) (contents rw))) as Hsplit.
    { unfold out. rewrite <- zdrop_zdrop by lia. rewrite Hz.
      destruct (decide (zlen page <= k)) as [Hle|Hgt].
      - assert (part = page) as -> by (apply ztake_all; lia).
        by rewrite ztake_ge_app, zdrop_app_eq by lia.
      - assert (k - zlen part = 0) as -> by (unfold part in *; zlen).
        rewrite ztake_app_le by lia. change (ztake 0 ?x) with (@nil Z). by rewrite app_nil_r. }
    exists rw'. rewrite Hsplit, zlen_app, <- app_assoc. split_and!; [|by eapply same_trans|lia].
    f_equal. f_equal. repeat case_if; breflect; done || lia.
  - assert (out = []) as ->.
    { unfold out. rewrite zdrop_all by lia. apply ztake_nil. }
    unfold readPage. rewrite (in_open rw Hinv), Z.geb_leb, (proj2 (Z.leb_le _ _)) by lia. cbn [obind].
    rewrite app_nil_r. change (zlen []) with 0. rewrite (proj2 (Z.ltb_lt _ _)) by lia.
    exists rw. split_and!; [done|done|lia].
Qed.

Lemma WriteTo_loop_spec fuel rw acc : inv rw -> quiet rw -> (Z.to_nat (rw_size rw - rw_out rw) < fuel)%nat ->
  exists rw', WriteTo_loop pool fuel rw (fun _ _ => None) acc =
      Ret (rw', acc ++ zdrop (rw_out rw) (contents rw), None) /\
    same rw rw' /\ rw_out rw' = rw_size rw.
Proof using Hpool.
  revert rw acc. induction fuel as [|fuel IH]; intros rw acc Hinv Hq Hfuel; [lia|].
  pose proof (zlen_contents rw Hinv) as Hlen. pose proof (in_out rw Hinv) as Ho. cbn [WriteTo_loop].
  destruct (decide (rw_out rw < rw_size rw)) as [Hlt|Hge].
  - destruct (readPage_spec rw (rw_out rw) Hinv) as (rw1 & page & t & -> & Hsame & Hout & Hne & Hz); [lia|].
    cbn [obind]. apply zlen_pos in Hne.
    assert (zlen page <= rw_size rw - rw_out rw) as Hfit.
    { assert (zlen (zdrop (rw_out rw) (contents rw)) = zlen page + zlen t) as Hx by (rewrite Hz; zlen).
      rewrite zlen_zdrop, Hlen in Hx. zlen. }
    set (rw2 := set_out rw1 (rw_out rw1 + zlen page)).
    assert (same rw rw2) as Hsame2 by (by destruct Hsame as (?&?&?&?&?&?&?&?)).
    destruct (same_other _ _ Hsame2) as [Hq2 _]. rewrite quiet_accountRead by auto.
    assert (rw_out rw2 = rw_out rw + zlen page) as E2 by (cbn; by rewrite Hout).
    assert (rw_size rw2 = rw_size rw) as E3 by (by destruct Hsame2 as (_ & _ & -> & _)).
    assert (inv rw2) as Hinv2 by (apply (same_inv _ _ Hsame2 Hinv); lia).
    destruct (IH rw2 (acc ++ page) Hinv2 (Hq2 Hq)) as (rw' & -> & Hs' & Ho'); [lia|].
    rewrite (same_contents _ _ Hsame2), E2, Hz, <- zdrop_zdrop, Hz, zdrop_app_eq, <- app_assoc by lia.
    exists rw'. split_and!; [done|by eapply same_trans|lia].
  - unfold readPage. rewrite (in_open rw Hinv), Z.geb_leb, (proj2 (Z.leb_le _ _)) by lia. cbn [obind].
    rewrite zdrop_all, app_nil_r by lia. exists rw. split_and!; [done|done|lia].
Qed.

(** A buffer that was given more: what else is in it stays. *)
Definition grown (rw rw' : RW) (b : bytes) : Prop :=
  inv rw' /\ contents rw' = contents rw ++ b /\ rw_out rw' = rw_out rw /\
  (balanced rw -> balanced rw') /\ (quiet rw -> quiet rw').

Lemma grown_trans rw rw1 rw2 a b : grown rw rw1 a -> grown rw1 rw2 b -> grown rw rw2 (a ++ b).
Proof. intros (_ & E1 & O1 & ?) (? & E2 & O2 & ?). unfold grown. rewrite E2, E1, O2, O1, app_assoc. tauto. Qed.

Lemma sized_last (l : list bytes) page : sized l -> last l = Some page ->
  zlen page = bs /\ sized (removelast l) /\ length l = S (length (removelast l)).
Proof.
  intros Hl Hlast. destruct l as [|y l _] using rev_ind; [done|]. rewrite last_snoc in Hlast.
  injection Hlast as ->. rewrite removelast_last, length_app. cbn.
  apply Forall_app in Hl as [? Hp]. inversion Hp; subst. split_and!; [done|done|lia].
Qed.

Lemma writePage_spec rw : inv rw -> exists rw' room,
  writePage pool rw = (rw', inr room) /\ 0 < room /\ room = bs - rw_lastOffset rw' /\
  rw_pages rw' <> [] /\ grown rw rw' [].
Proof using Hpool.
  intros Hinv. pose proof (po_size pool Hpool) as Hbs. pose proof Hinv as [Hp Hr Hl Hs Hn Ho Hop].
  unfold writePage. rewrite Hop. destruct (negb _ && _) eqn:Eroom; breflect.
  - apply Nat.eqb_neq in H. exists rw. eexists. split; [done|]. split_and!; [lia|done| |].
    + intros E. by rewrite E in H.
    + split_and!; auto. by rewrite app_nil_r.
  - assert (rw_pages rw = [] \/ rw_lastOffset rw = bs) as Hfull.
    { apply andb_false_iff in Eroom as [E|E]; breflect; [left|right; lia].
      apply Nat.eqb_eq in E. by destruct (rw_pages rw). }
    destruct (match last (rw_reserved rw) with Some _ => _ | None => _ end) as [[page reserved] got] eqn:Eget.
    assert (zlen page = bs /\ sized reserved /\ (balanced rw ->
      got = rw_put rw + S (length (rw_pages rw)) + length reserved)%nat) as (Hpage & Hres & Hbal).
    { destruct (last (rw_reserved rw)) as [x|] eqn:Elast; simplify_eq.
      - destruct (sized_last _ _ Hr Elast) as (? & ? & Hlen). split_and!; auto. intros Hb. red in Hb. lia.
      - apply last_None in Elast. split_and!; [apply (po_page pool Hpool)|constructor|].
        intros Hb. red in Hb. rewrite Elast in Hb. cbn in *. lia. }
    set (rw' := mkRW _ _ _ _ _ _ _ _ _ _ _).
    assert (rw_size rw = Z.of_nat (length (rw_pages rw)) * bs) as Hsz.
    { destruct Hfull as [E|E]; [specialize (Hn E); rewrite E in *; cbn in *; lia|].
      destruct (rw_pages rw) as [|x l] eqn:Ep; [specialize (Hn eq_refl); lia|]. cbn [length] in *.
      replace (S (length l) - 1)%nat with (length l) in Hs by lia. lia. }
    assert (inv rw') as Hinv'.
    { split; cbn; auto; try lia.
      - apply Forall_app. split; [done|]. by constructor.
      - rewrite length_app. cbn. replace (length (rw_pages rw) + 1 - 1)%nat with (length (rw_pages rw)) by lia. lia. }
    exists rw', (zlen page). split_and!; [done|lia|cbn; lia|cbn; by destruct (rw_pages rw)|].
    split_and!; [done| |done| |done].
    + rewrite (contents_snoc rw' (rw_pages rw) page Hinv' eq_refl). cbn [rw_lastOffset rw'].
      change (ztake 0 page) with (@nil Z). rewrite !app_nil_r. unfold contents.
      symmetry. apply ztake_all. rewrite zlen_concat by done. lia.
    + intros Hb. unfold balanced. cbn. rewrite length_app. cbn. rewrite (Hbal Hb). lia.
Qed.

Lemma fill_spec rw b : inv rw -> rw_pages rw <> [] -> zlen b <= bs - rw_lastOffset rw -> grown rw (fill rw b) b.
Proof using Hpool.
  intros Hinv Hne Hb. destruct (pages_cases rw Hinv) as [(? & _)|(init & page & E)]; [done|].
  pose proof Hinv as [Hp Hr Hl Hs Hn Ho Hop]. pose proof (zlen_nonneg b) as Hb0.
  rewrite E in Hp. apply Forall_app in Hp as [Hi Hp]. inversion Hp as [|?? Hpage]; subst.
  assert (rw_pages (fill rw b) = init ++ [put_at (rw_lastOffset rw) b page]) as E'.
  { unfold fill. cbn [rw_pages]. rewrite E, length_app. cbn [length].
    replace (length init + 1 - 1)%nat with (length init + 0)%nat by lia. by rewrite alter_app_r. }
  assert (inv (fill rw b)) as Hinv'.
  { split; cbn [fill rw_reserved rw_lastOffset rw_size rw_out rw_closed]; auto; try lia.
    - rewrite E'. apply Forall_app. split; [done|]. constructor; [|done]. unfold put_at. zlen.
    - rewrite E', Hs, E, !length_app. cbn. lia.
    - rewrite E'. by destruct init. }
  split_and!; [done| |done| |done].
  - rewrite (contents_snoc _ _ _ Hinv' E'), (contents_snoc _ _ _ Hinv E), <- app_assoc. f_equal.
    cbn [fill rw_lastOffset]. unfold put_at. rewrite ztake_ge_app by zlen. f_equal.
    rewrite zlen_ztake, ztake_app_le by zlen. apply ztake_all. zlen.
  - unfold balanced. rewrite E'. cbn [fill rw_put rw_got rw_reserved]. by rewrite E, !length_app.
Qed.

Lemma Write_loop_spec fuel rw p n : inv rw -> (length p < fuel)%nat ->
  exists rw', Write_loop pool fuel rw p n = (rw', n + zlen p, None) /\ grown rw rw' p.
Proof using Hpool.
  revert rw p n. induction fuel as [|fuel IH]; intros rw p n Hinv Hfuel; [lia|].
  cbn [Write_loop]. rewrite Z.gtb_ltb. case_if; breflect.
  2:{ assert (p = []) as -> by (apply zlen_0; zlen). exists rw. change (zlen []) with 0. rewrite Z.add_0_r.
      split; [done|]. unfold grown. by rewrite app_nil_r. }
  destruct (writePage_spec rw Hinv) as (rw1 & room & -> & Hroom & Eroom & Hne & Hg1).
  set (part := ztake room p). pose proof Hg1 as [Hinv1 _].
  assert (grown rw1 (fill rw1 part) part) as Hg2 by (apply fill_spec; [done|done|unfold part; zlen]).
  assert (zdrop (zlen part) p = zdrop room p) as Hdrop.
  { unfold part, zdrop, ztake, zlen. rewrite length_take, Nat2Z.id.
    destruct (decide (Z.to_nat room <= length p)%nat); [by rewrite Nat.min_l|].
    rewrite Nat.min_r by lia. by rewrite !drop_ge by lia. }
  assert (p = part ++ zdrop room p) as Hp by (symmetry; apply ztake_zdrop).
  destruct (IH (fill rw1 part) (zdrop (zlen part) p) (n + zlen part)) as (rw' & -> & Hg3).
  { by destruct Hg2. }
  { assert (0 < zlen part) by (unfold part; zlen). unfold zdrop. rewrite length_drop. unfold zlen in *. lia. }
  exists rw'. rewrite Hdrop in *. split.
  - assert (zlen p = zlen part + zlen (zdrop room p)) as -> by (rewrite <- zlen_app, <- Hp; done).
    by rewrite Z.add_assoc.
  - rewrite Hp. change part with ([] ++ part). eapply grown_trans; [eapply grown_trans; eassumption|done].
Qed.

Lemma ReadFrom_loop_spec fuel rw r n : inv rw -> (length (s_sched r) + length (s_data r) < fuel)%nat ->
  exists rw' r', ReadFrom_loop pool fuel rw r n =
      (rw', r', n + zlen (s_data r), if decide (s_err r = EOF) then None else Some (s_err r)) /\
    grown rw rw' (s_data r).
Proof using Hpool.
  revert rw r n. induction fuel as [|fuel IH]; intros rw r n Hinv Hfuel; [lia|]. cbn [ReadFrom_loop].
  destruct (writePage_spec rw Hinv) as (rw1 & room & -> & Hroom & Eroom & Hne & Hg1). pose proof Hg1 as [Hinv1 _].
  pose proof (s_Read_spec r (Z.to_nat room) ltac:(lia)) as Hread.
  assert (let '(r', out, e) := s_Read r (Z.to_nat room) in e = None ->
    length (s_sched r') + length (s_data r') < length (s_sched r) + length (s_data r))%nat as Hless.
  { clear Hread. unfold s_Read. destruct r as [d er sched]. cbn [s_sched s_data s_err].
    destruct sched as [|[j lst] sched]; cbn [fst snd s_sched s_data].
    - rewrite Nat.min_id. destruct (decide (d = [])) as [->|Hd]; [by rewrite drop_nil, take_nil|].
      intros _. rewrite length_drop. destruct d; [done|]. cbn [length]. lia.
    - intros _. rewrite length_drop. cbn. lia. }
  destruct (s_Read r (Z.to_nat room)) as [[r' out] err]. destruct Hread as (Hd & He & Hl & Hcase).
  assert (grown rw1 (fill rw1 out) out) as Hg2 by (apply fill_spec; [done|done|unfold zlen; lia]).
  assert (grown rw (fill rw1 out) out) as Hg by (change out with ([] ++ out); by eapply grown_trans).
  destruct err as [e|].
  - destruct Hcase as [-> Hend]. rewrite Hend, app_nil_r in Hd. rewrite Hd.
    exists (fill rw1 out), r'. split; [|done]. by destruct (s_err r).
  - destruct (IH (fill rw1 out) r' (n + zlen out)) as (rw' & r'' & -> & Hg'); [by destruct Hg2|specialize (Hless eq_refl); lia|].
    exists rw', r''. rewrite He, Hd, zlen_app, Z.add_assoc. split; [done|]. by eapply grown_trans.
Qed.

(** ** The simulation *)

Definition sim (rw : RW) (f : flat) : Prop :=
  balanced rw /\ quiet rw /\ rw_closed rw = fl_closed f /\
  (fl_closed f = false -> inv rw /\ fl_data f = contents rw /\ fl_pos f = rw_out rw).

Lemma sim_same rw rw' f : sim rw f -> fl_closed f = false -> same rw rw' -> 0 <= rw_out rw' <= rw_size rw ->
  sim rw' (mkFlat (fl_data f) (rw_out rw') false).
Proof.
  intros (Hb & Hq & Hcl & Hopen) Hf Hsame Ho. destruct (Hopen Hf) as (Hinv & Hd & _).
  destruct (same_other _ _ Hsame) as [Hq' Hb']. pose proof Hsame as (_ & _ & Es & _ & Ec & _).
  split_and!; auto; [by rewrite Ec, Hcl|]. intros _. split_and!; cbn.
  - apply (same_inv _ _ Hsame Hinv). by rewrite Es.
  - by rewrite (same_contents _ _ Hsame).
  - done.
Qed.

Lemma sim_grown rw rw' f b : sim rw f -> fl_closed f = false -> grown rw rw' b ->
  sim rw' (mkFlat (fl_data f ++ b) (fl_pos f) false).
Proof.
  intros (Hb & Hq & Hcl & Hopen) Hf (Hinv' & Hc & Ho & Hb' & Hq'). destruct (Hopen Hf) as (Hinv & Hd & Hp).
  split_and!; auto; [by destruct Hinv'|]. intros _. cbn. by rewrite Hc, Hd, Ho.
Qed.

Lemma sim_Seek rw f offset abs : sim rw f -> fl_closed f = false ->
  exists rw', (if abs <? 0 then (rw, 0, Some errNegativeSeek)
      else if abs >? rw_size rw then (rw, i64 (offset - i64 (abs - rw_size rw)), Some errSeekPastEnd)
      else (set_out rw abs, abs, None)) =
    (rw', match (flat_seek f offset abs).2 with RNum n _ => n | _ => 0 end,
          match (flat_seek f offset abs).2 with RNum _ e => e | _ => None end) /\
    sim rw' (flat_seek f offset abs).1 /\ (exists n e, (flat_seek f offset abs).2 = RNum n e).
Proof using Hpool.
  intros Hsim Hf. pose proof Hsim as (_ & _ & _ & Hopen). destruct (Hopen Hf) as (Hinv & Hd & _).
  pose proof (zlen_contents rw Hinv) as Hlen. unfold flat_seek. rewrite Hd, Hlen.
  destruct (abs <? 0) eqn:E1; [exists rw; split; [done|]; split; [exact Hsim|by do 2 eexists]|].
  destruct (abs >? rw_size rw) eqn:E2; [exists rw; split; [done|]; split; [exact Hsim|by do 2 eexists]|]. breflect.
  exists (set_out rw abs). split; [done|]. split; [|by do 2 eexists]. cbn [fst]. rewrite Hf, <- Hd.
  apply (sim_same rw (set_out rw abs) f); [done|done|done|cbn; lia].
Qed.

Lemma step_sim rw f o : sim rw f -> (forall k, o = ORead k -> 0 <= k) ->
  exists rw', step pool rw o = Ret (rw', (flat_step f o).2) /\ sim rw' (flat_step f o).1.
Proof using Hpool.
  intros Hsim Hok. pose proof Hsim as (Hb & Hq & Hcl & Hopen). unfold flat_step.
  destruct (fl_closed f) eqn:Hf.
  { destruct o as [k|b|r| |off wh|]; cbn [fst snd step].
    - unfold Read. cbn [Read_loop]. destruct (k >? 0); unfold readPage; rewrite ?Hcl; by exists rw.
    - unfold Write. cbn [Write_loop]. destruct (zlen b >? 0); unfold writePage; rewrite ?Hcl; by exists rw.
    - unfold ReadFrom. cbn [ReadFrom_loop Nat.add]. unfold writePage. rewrite Hcl. by exists rw.
    - unfold WriteTo. cbn [WriteTo_loop]. unfold readPage. rewrite Hcl. by exists rw.
    - unfold Seek. rewrite Hcl. by exists rw.
    - exists (Close rw). split; [done|]. split_and!; [|done|done|by rewrite Hf].
      unfold balanced in *. cbn. lia. }
  destruct (Hopen eq_refl) as (Hinv & Hd & Hp). pose proof (zlen_contents rw Hinv) as Hlen.
  pose proof (in_out rw Hinv) as Hout. rewrite Hp, Hd. destruct o as [k|b|r| |off wh|]; cbn [fst snd step].
  - destruct (rw_Read_loop_spec (S (Z.to_nat k)) rw k [] Hinv Hq (Hok k eq_refl)) as (rw' & Heq & Hs & Ho); [lia|].
    unfold Read. rewrite Heq. cbn [obind app]. exists rw'. split; [done|]. rewrite <- Ho, <- Hd.
    apply (sim_same rw); auto. rewrite Ho. zlen.
  - destruct (Write_loop_spec (S (length b)) rw b 0 Hinv) as (rw' & Heq & Hg); [lia|].
    unfold Write. rewrite Heq. exists rw'. split; [done|]. rewrite <- Hd, <- Hp. by apply (sim_grown rw).
  - destruct (ReadFrom_loop_spec (2 + length (s_sched r) + length (s_data r)) rw r 0 Hinv) as (rw' & r' & Heq & Hg); [lia|].
    unfold ReadFrom. rewrite Heq. exists rw'. split; [done|]. rewrite <- Hd, <- Hp. by apply (sim_grown rw).
  - destruct (WriteTo_loop_spec (S (Z.to_nat (rw_size rw))) rw [] Hinv Hq) as (rw' & Heq & Hs & Ho); [lia|].
    unfold WriteTo. rewrite Heq. cbn [obind app]. exists rw'. split; [done|]. rewrite <- Hd, Hd, Hlen, <- Ho, <- Hd.
    apply (sim_same rw); auto. lia.
  - unfold Seek. rewrite Hcl, Hlen.
    destruct (wh =? 0) eqn:E0; [|destruct (wh =? 1) eqn:E1; [|destruct (wh =? 2) eqn:E2]].
    4: by exists rw.
    all: match goal with Hsim : sim ?rw ?f, Hf : fl_closed ?f = false |- context [flat_seek ?f ?o ?a] =>
      destruct (sim_Seek rw f o a Hsim Hf) as (rw' & -> & Hs & n & e & ->) end; by exists rw'.
  - exists (Close rw). split; [done|]. split_and!; [|done|done|done]. unfold balanced in *. cbn. lia.
Qed.

Lemma run_sim os rw f : sim rw f -> Forall (fun o => forall k, o = ORead k -> 0 <= k) os ->
  exists rw', run pool rw os = Ret (rw', (flat_run f os).2) /\ sim rw' (flat_run f os).1.
Proof using Hpool.
  revert rw f. induction os as [|o os IH]; intros rw f Hsim Hos; [by exists rw|].
  inversion Hos as [|?? Ho Hos']; subst. cbn [run flat_run].
  destruct (step_sim rw f o Hsim Ho) as (rw1 & -> & Hsim1). cbn [obind].
  destruct (flat_step f o) as [f1 r]. destruct (IH rw1 f1 Hsim1 Hos') as (rw' & -> & Hsim').
  cbn [obind fst snd] in *. destruct (flat_run f1 os) as [f2 rs]. by exists rw'.
Qed.

End correct.

(** C31: a buffer of pages is a flat array.  Whatever pages the pool gives and
    whatever they held, with pages reserved or not and any sequence of reads,
    writes, copies from and to streams, seeks and closes, every call returns
    and gives what it gives on the bytes that were written in one piece; and
    once the buffer is closed every page it took went back to the pool. *)
Theorem rw_is_flat (pool : Pool) (reserve : Z) (os : list op)
  (Hpool : pool_ok pool)
  (Hreads : Forall (fun o => forall k, o = ORead k -> 0 <= k) os) :
  exists rw, run pool (Reserve pool NewRW reserve) os = Ret (rw, snd (flat_run (mkFlat [] 0 false) os)) /\
    rw_got (Close rw) = rw_put (Close rw).
Proof.
  assert (forall n m, sized pool (GetN pool n m)) as Hsized.
  { intros n m. apply Forall_forall. intros x (j & -> & _)%list_elem_of_fmap. apply (po_page pool Hpool). }
  destruct (run_sim pool Hpool os (Reserve pool NewRW reserve) (mkFlat [] 0 false)) as (rw & -> & Hb & _); [|done|].
  - split_and!; [|done|done|].
    + unfold balanced, Reserve, GetN. cbn. rewrite length_map, length_seq. done.
    + intros _. split_and!; [|done|done]. pose proof (po_size pool Hpool).
      split; cbn; auto; try lia. by constructor.
  - exists rw. split; [done|]. unfold balanced in Hb. cbn. lia.
Qed.

Lemma rw_is_flat_witness : exists rw,
  run small (Reserve small NewRW 4) [OWrite [1; 2; 3; 4]; OSeek 1 0; ORead 2; OReadFrom (mkStream [5; 6] EOF [(1%nat, false)]); OWriteTo; OClose; ORead 1] =
    Ret (rw, [RNum 4 None; RNum 1 None; RBytes [2; 3] None; RNum 2 None; RBytes [4; 5; 6] None; RNum 0 None; RBytes [] (Some ErrClosed)]) /\
  rw_got (Close rw) = rw_put (Close rw).
Proof.
  apply (rw_is_flat small 4 [OWrite [1; 2; 3; 4]; OSeek 1 0; ORead 2; OReadFrom (mkStream [5; 6] EOF [(1%nat, false)]); OWriteTo; OClose; ORead 1]).
  - split; [done|]. intros n. reflexivity.
  - repeat constructor; intros k E; inversion E; lia.
Defined.

End PoolRW.
