(* ===== verification/ChunkedReader.v ===== *)
(** * Reading an object in chunks: fs/chunkedreader/chunkedreader.go, sequential.go

    [sequential] opens an object range by range: a chunk when the one before it
    was read to its end, each twice as long as the last up to a limit.  It can
    seek, which takes effect when the next byte is read.

    The object is given by its bytes and by what its [Open] calls will do, as in
    ReOpen.  The reader is shown to refine a file with a position, whatever
    those calls do, and to deliver all the bytes if they succeed. *)
From S2P Require Import Prelude GoPath Utf8 Streams OpenOptions.

Module ChunkedReader.
Import Utf8 Streams OpenOptions.

Inductive error : Type :=
  | EOF
  | ErrUnexpectedEOF
  | ErrorFileClosed
  | ErrorInvalidSeek
  | ErrUnknownSize
  | Canceled
  | ErrorStreamAbandoned
  | ErrWrapped (e : error)
  | ErrOther (code : Z).

#[export] Instance error_eq_dec : EqDecision error.
Proof. solve_decision. Defined.

Abbreviation stream := (Streams.stream error).

(** [io.ReadFull]: fill a buffer of [k] bytes; fewer bytes come with an error. *)
Definition ReadFull (s : stream) (k : Z) : stream * bytes * option error :=
  let '(s, out, err) := ReadFill s k in
  (s, out,
   if zlen out >=? k then None
   else match err with
        | Some EOF => if zlen out >? 0 then Some ErrUnexpectedEOF else Some EOF
        | err => err
        end).

(** ** The object *)

(** What one call of [RangeSeek] on an open stream does, for a stream that has
    it: it fails and leaves nothing to read, goes somewhere else, or goes where
    it should and reads on with the given short reads. *)
Inductive seekAnswer : Type :=
  | SFail (e : error)
  | SWrong (n : Z)
  | SOk (sched : list (nat * bool)).

(** What one call of [Open] does: it fails, or returns a stream that gives the
    first [cut] bytes of what was asked for and then the error.  [seeks] is
    [None] for a stream without [RangeSeek]; one that has more calls than
    answers succeeds. *)
Inductive answer : Type :=
  | AFail (e : error)
  | AStream (cut : nat) (e : error) (sched : list (nat * bool)) (seeks : option (list seekAnswer))
      (closeErr : option error).

Record ReadCloser : Type := mkRC {
  rc_stream : stream;
  rc_seeks : option (list seekAnswer);
  rc_closeErr : option error }.

(** The answer to the n-th call of [Open] is [o_answers n]. *)
Record Object : Type := mkObject {
  o_Size : Z;
  o_data : bytes;
  o_answers : nat -> answer }.

Definition o_Open (o : Object) (n : nat) (options : list OpenOption) : error + ReadCloser :=
  match o_answers o n with
  | AFail e => inl e
  | AStream cut e sched seeks ce =>
      inr (mkRC (mkStream (take cut (selected options (o_data o))) e sched) seeks ce)
  end.

(** [rs.RangeSeek(ctx, offset, io.SeekStart, length)]: the position and the
    error.  At most [length] bytes are read on if that is not negative. *)
Definition rc_RangeSeek (o : Object) (rc : ReadCloser) (seeks : list seekAnswer) (offset length : Z)
    : ReadCloser * Z * option error :=
  let at_ n sched := mkStream (window n length (o_data o)) EOF sched in
  let '(ans, seeks) := match seeks with [] => (SOk [], []) | a :: seeks => (a, seeks) end in
  match ans with
  | SFail e => (mkRC (mkStream [] e []) (Some seeks) (rc_closeErr rc), 0, Some e)
  | SWrong n => (mkRC (at_ n []) (Some seeks) (rc_closeErr rc), n, None)
  | SOk sched => (mkRC (at_ offset sched) (Some seeks) (rc_closeErr rc), offset, None)
  end.

(** ** The reader *)

(** What does not change: the object and the chunk sizes. *)
Record config : Type := mkConfig {
  c_o : Object;
  c_initialChunkSize : Z;
  c_maxChunkSize : Z }.

(** [cr_requests] are the options of the [Open] calls so far, the last first;
    [cr_made] and [cr_closes] count the streams that were made and the calls of
    their [Close]. *)
Record sequential : Type := mkSequential {
  cr_rc : option ReadCloser;
  cr_offset : Z;
  cr_chunkOffset : Z;
  cr_chunkSize : Z;
  cr_customChunkSize : bool;
  cr_closed : bool;
  cr_requests : list (list OpenOption);
  cr_made : nat;
  cr_closes : nat }.

Definition newSequential (o : Object) (initialChunkSize maxChunkSize : Z) : config * sequential :=
  (mkConfig o initialChunkSize maxChunkSize,
   mkSequential None (-1) 0 initialChunkSize false false [] 0 0).

Section reader.
Variable c : config.

Definition set_rc (h : sequential) (rc : option ReadCloser) (offset : Z) : sequential :=
  mkSequential rc offset (cr_chunkOffset h) (cr_chunkSize h) (cr_customChunkSize h) (cr_closed h)
    (cr_requests h) (cr_made h) (cr_closes h).

Definition set_chunk (h : sequential) (offset chunkOffset chunkSize : Z) (custom : bool) : sequential :=
  mkSequential (cr_rc h) offset chunkOffset chunkSize custom (cr_closed h)
    (cr_requests h) (cr_made h) (cr_closes h).

Definition count_close (h : sequential) : sequential :=
  mkSequential (cr_rc h) (cr_offset h) (cr_chunkOffset h) (cr_chunkSize h) (cr_customChunkSize h)
    (cr_closed h) (cr_requests h) (cr_made h) (S (cr_closes h)).

Definition asked (h : sequential) (opts : list OpenOption) (made : nat) : sequential :=
  mkSequential (cr_rc h) (cr_offset h) (cr_chunkOffset h) (cr_chunkSize h) (cr_customChunkSize h)
    (cr_closed h) (opts :: cr_requests h) (cr_made h + made) (cr_closes h).

(** [resetReader] *)
Definition resetReader (h : sequential) (rc : option ReadCloser) (offset : Z) : sequential * option error :=
  match cr_rc h with
  | None => (set_rc h rc offset, None)
  | Some old =>
      match rc_closeErr old with
      | Some e => (count_close h, Some e)
      | None => (set_rc (count_close h) rc offset, None)
      end
  end.

(** The options that [openRange] asks for. *)
Definition range_options (offset length : Z) : list OpenOption :=
  if length <=? 0 then
    if offset =? 0 then [HashesOption 0] else [HashesOption 0; RangeOption offset (-1)]
  else [HashesOption 0; RangeOption offset (i64 (i64 (offset + length) - 1))].

(** The first half of [openRange]: seek the open stream if it can. *)
Definition seek_open (h : sequential) : sequential * bool :=
  match cr_rc h with
  | None => (h, false)
  | Some rc =>
      match rc_seeks rc with
      | None => (h, false)
      | Some seeks =>
          let '(rc, n, err) := rc_RangeSeek (c_o c) rc seeks (cr_chunkOffset h) (cr_chunkSize h) in
          match err with
          | None => if n =? cr_chunkOffset h then (set_rc h (Some rc) (cr_chunkOffset h), true)
                    else (set_rc h (Some rc) (cr_offset h), false)
          | Some _ => (set_rc h (Some rc) (cr_offset h), false)
          end
      end
  end.

Definition openRange (h : sequential) : sequential * option error :=
  if cr_closed h then (h, Some ErrorFileClosed)
  else
    let '(h, sought) := seek_open h in
    if sought then (h, None)
    else
      let opts := range_options (cr_chunkOffset h) (cr_chunkSize h) in
      match o_Open (c_o c) (length (cr_requests h)) opts with
      | inl e => (asked h opts 0, Some e)
      | inr rc => resetReader (asked h opts 1) (Some rc) (cr_chunkOffset h)
      end.

(** The next chunk, when the last one was read completely. *)
Definition next_chunk (h : sequential) : sequential :=
  if cr_customChunkSize h then
    set_chunk h (cr_offset h) (cr_offset h) (c_initialChunkSize c) false
  else
    let chunkSize := i64 (cr_chunkSize h * 2) in
    set_chunk h (cr_offset h) (cr_offset h)
      (if (chunkSize >? c_maxChunkSize c) && negb (c_maxChunkSize c =? -1) then c_maxChunkSize c
       else chunkSize) false.

Definition chunkEnd (h : sequential) : Z := i64 (cr_chunkOffset h + cr_chunkSize h).

(** The switch of [Read]: open what has to be opened. *)
Definition prepare (h : sequential) : sequential * option error :=
  if (cr_chunkSize h >? 0) && (cr_offset h =? chunkEnd h) then openRange (next_chunk h)
  else if cr_offset h =? -1 then openRange h
  else (h, None).

(** After [n] bytes were taken from the stream. *)
Definition took (h : sequential) (rc : ReadCloser) (s : stream) (n : Z) : sequential :=
  set_rc h (Some (mkRC s (rc_seeks rc) (rc_closeErr rc))) (i64 (cr_offset h + n)).

(** The loop of [Read] for a buffer of [k] bytes.  Each turn but the last fills
    a part of the buffer that is not empty. *)
Fixpoint Read_loop (fuel : nat) (h : sequential) (k : Z) (acc : bytes)
    : outcome (sequential * bytes * option error) :=
  match fuel with
  | O => Ret (h, acc, None)
  | S fuel' =>
      if k >? 0 then
        match prepare h with
        | (h, Some e) => Ret (h, acc, Some e)
        | (h, None) =>
            let chunkRest := i64 (chunkEnd h - cr_offset h) in
            let! (buf, p) := if (k >? chunkRest) && (cr_chunkSize h >? 0)
                             then if chunkRest <? 0 then Panic else Ret (chunkRest, k - chunkRest)
                             else Ret (k, 0) in
            let! rc := deref (cr_rc h) in
            let '(s, out, err) := ReadFull (rc_stream rc) buf in
            let h := took h rc s (zlen out) in
            match err with
            | Some ErrUnexpectedEOF => Ret (h, acc ++ out, Some EOF)
            | Some e => Ret (h, acc ++ out, Some e)
            | None => Read_loop fuel' h p (acc ++ out)
            end
        end
      else Ret (h, acc, None)
  end.

Definition Read (h : sequential) (k : Z) : outcome (sequential * bytes * option error) :=
  if cr_closed h then Ret (h, [], Some ErrorFileClosed)
  else Read_loop (S (Z.to_nat k)) h k [].

Definition Close (h : sequential) : sequential * option error :=
  if cr_closed h then (h, Some ErrorFileClosed)
  else resetReader (mkSequential (cr_rc h) (cr_offset h) (cr_chunkOffset h) (cr_chunkSize h)
                      (cr_customChunkSize h) true (cr_requests h) (cr_made h) (cr_closes h)) None 0.

(** [RangeSeek]; the whence is 0 from the start, 1 from here, 2 from the end. *)
Definition RangeSeek (h : sequential) (offset whence length : Z) : sequential * Z * option error :=
  if cr_closed h then (h, 0, Some ErrorFileClosed)
  else
    let size := o_Size (c_o c) in
    if (whence =? 2) && (size <? 0) then (h, 0, Some ErrorInvalidSeek)
    else
      let base := if whence =? 0 then 0 else if whence =? 2 then size else cr_offset h in
      let chunkOffset := i64 (base + offset) in
      let custom := if length >? 0 then true else cr_customChunkSize h in
      let chunkSize := if length >? 0 then length else c_initialChunkSize c in
      if (chunkOffset <? 0) || (chunkOffset >=? size)
      then (set_chunk h (-1) 0 chunkSize custom, 0, Some ErrorInvalidSeek)
      else (set_chunk h (-1) chunkOffset chunkSize custom, chunkOffset, None).

Definition Seek (h : sequential) (offset whence : Z) : sequential * Z * option error :=
  RangeSeek h offset whence (-1).

(** [Open] *)
Definition Open (h : sequential) : sequential * option error :=
  match cr_rc h with
  | Some _ => if negb (cr_offset h =? -1) then (h, None) else openRange h
  | None => openRange h
  end.

End reader.

(** The sizes as [New] corrects them. *)
Definition initial_size (initialChunkSize : Z) : Z :=
  if initialChunkSize <=? 0 then -1 else initialChunkSize.

Definition max_size (initialChunkSize maxChunkSize : Z) : Z :=
  if negb (maxChunkSize =? -1) && (maxChunkSize <? initial_size initialChunkSize)
  then initial_size initialChunkSize else maxChunkSize.

(** Whether [New] reads with one stream. *)
Definition one_stream (o : Object) (streams : Z) : bool := (streams <=? 1) || (o_Size o <? 0).

(** Two chunks of 2 and 4 bytes. *)
Definition whole (n : nat) : answer := AStream 100 EOF [] None None.

Example chunks_1 :
  let '(c, h) := newSequential (mkObject 5 [1; 2; 3; 4; 5] whole) 2 4 in
  match Read c h 4 with
  | Ret (h, out, e) => match Read c h 4 with
                       | Ret (h', out', e') => Some (out, e, out', e', rev (cr_requests h'))
                       | Panic => None end
  | Panic => None
  end = Some ([1; 2; 3; 4], None, [5], Some EOF, [range_options 0 2; range_options 2 4]).
Proof. vm_compute. reflexivity. Qed.

(** ** A file with a position

    What a chunked reader promises: the calls, their results, and what they may
    do to a file of the given bytes. *)
Inductive op : Type :=
  | ORead (k : Z)
  | ORangeSeek (offset whence length : Z)
  | OOpen
  | OClose.

Inductive result : Type :=
  | RRead (out : bytes) (e : option error)
  | RSeek (n : Z) (e : option error)
  | RErr (e : option error).

Record file : Type := mkFile { f_pos : Z; f_closed : bool }.

(** A read gives the bytes at the position and moves it behind them; a seek
    moves it where it says or fails, and then leaves it or goes to the start;
    a closed file gives nothing more. *)
Inductive file_step (size : Z) (data : bytes) : file -> op -> result -> file -> Prop :=
  | step_read pos k out e :
      zdrop pos data = out ++ zdrop (pos + zlen out) data -> zlen out <= k ->
      (e = None -> 0 < k -> out <> []) ->
      file_step size data (mkFile pos false) (ORead k) (RRead out e) (mkFile (pos + zlen out) false)
  | step_seek pos offset whence length n :
      0 <= n < size -> (whence = 0 -> n = offset) -> (whence = 2 -> n = size + offset) ->
      file_step size data (mkFile pos false) (ORangeSeek offset whence length) (RSeek n None) (mkFile n false)
  | step_bad_seek pos pos' offset whence length :
      pos' = 0 \/ pos' = pos ->
      (whence = 0 -> ~ (0 <= offset < size)) -> (whence = 2 -> ~ (0 <= size + offset < size)) ->
      file_step size data (mkFile pos false) (ORangeSeek offset whence length)
        (RSeek 0 (Some ErrorInvalidSeek)) (mkFile pos' false)
  | step_open f e : file_step size data f OOpen (RErr e) f
  | step_close pos pos' e : file_step size data (mkFile pos false) OClose (RErr e) (mkFile pos' true)
  | step_read_closed pos k :
      file_step size data (mkFile pos true) (ORead k) (RRead [] (Some ErrorFileClosed)) (mkFile pos true)
  | step_seek_closed pos offset whence length :
      file_step size data (mkFile pos true) (ORangeSeek offset whence length)
        (RSeek 0 (Some ErrorFileClosed)) (mkFile pos true)
  | step_close_closed pos :
      file_step size data (mkFile pos true) OClose (RErr (Some ErrorFileClosed)) (mkFile pos true).

Inductive file_run (size : Z) (data : bytes) : file -> list op -> list result -> file -> Prop :=
  | run_nil f : file_run size data f [] [] f
  | run_cons f o r f' os rs f'' :
      file_step size data f o r f' -> file_run size data f' os rs f'' ->
      file_run size data f (o :: os) (r :: rs) f''.

(** The numbers are Go's. *)
Definition op_ok (o : op) : Prop :=
  match o with
  | ORead k => 0 <= k
  | ORangeSeek offset _ length => in_i64 offset /\ in_i64 length
  | _ => True
  end.

(** An implementation: its calls, the states it can be in, and the file that a
    state stands for. *)
Class Implements {H} (call : H -> op -> outcome (H * result)) (inv : H -> Prop) (abs : H -> file)
    (size : Z) (data : bytes) : Prop :=
  call_spec h o : inv h -> op_ok o ->
    exists h' r, call h o = Ret (h', r) /\ inv h' /\ file_step size data (abs h) o r (abs h').

Fixpoint run {H} (call : H -> op -> outcome (H * result)) (h : H) (os : list op)
    : outcome (H * list result) :=
  match os with
  | [] => Ret (h, [])
  | o :: os => let! (h, r) := call h o in let! (h, rs) := run call h os in Ret (h, r :: rs)
  end.

Lemma run_spec {H} (call : H -> op -> outcome (H * result)) inv abs size data
    `{HI : !Implements call inv abs size data} os h :
  inv h -> Forall op_ok os ->
  exists h' rs, run call h os = Ret (h', rs) /\ inv h' /\ file_run size data (abs h) os rs (abs h').
Proof.
  revert h. induction os as [|o os IH]; intros h Hinv Hos; [by exists h, []; repeat constructor|].
  inversion Hos as [|?? Ho Hos']; subst. cbn [run].
  destruct (call_spec h o Hinv Ho) as (h1 & r & -> & Hinv1 & Hstep). cbn [obind].
  destruct (IH h1 Hinv1 Hos') as (h' & rs & -> & Hinv' & Hrun).
  exists h', (r :: rs). split; [done|]. split; [done|]. by econstructor.
Qed.

Definition call (c : config) (h : sequential) (o : op) : outcome (sequential * result) :=
  match o with
  | ORead k => let! (h, out, e) := Read c h k in Ret (h, RRead out e)
  | ORangeSeek offset whence length =>
      let '(h, n, e) := RangeSeek c h offset whence length in Ret (h, RSeek n e)
  | OOpen => let '(h, e) := Open c h in Ret (h, RErr e)
  | OClose => let '(h, e) := Close h in Ret (h, RErr e)
  end.

(** ** The sequential reader is such a file *)

Lemma i64_sub_idemp a b : i64 (i64 a - b) = i64 (a - b).
Proof.
  unfold i64. f_equal.
  replace ((a + 2 ^ 63) mod 2 ^ 64 - 2 ^ 63 - b + 2 ^ 63) with ((a + 2 ^ 63) mod 2 ^ 64 - b) by lia.
  rewrite Zminus_mod_idemp_l. f_equal. lia.
Qed.

(** A sum of two sizes that does not fit is negative. *)
Lemma i64_over z : i64_max < z -> z < 2 ^ 64 -> i64 z = z - 2 ^ 64.
Proof.
  unfold i64, i64_max. intros ??. replace (z + 2 ^ 63) with (z - 2 ^ 63 + 1 * 2 ^ 64) by lia.
  rewrite Z.mod_add, Z.mod_small; lia.
Qed.

Lemma ReadFull_spec (s : stream) k : 0 <= k -> exists s' err,
  ReadFull s k = (s', ztake k (s_data s), err) /\
  s_data s' = zdrop k (s_data s) /\ s_err s' = s_err s /\
  match err with
  | None => k <= zlen (s_data s)
  | Some e => zlen (s_data s) < k /\ (s_err s = EOF -> e = EOF \/ e = ErrUnexpectedEOF)
  end.
Proof.
  intros Hk. unfold ReadFull.
  destruct (ReadFill_spec s k Hk) as (s' & e & -> & Hd & He & Hor & Hlt & Hgt).
  do 2 eexists. split; [done|]. split; [done|]. split; [done|].
  case_if; breflect; [zlen|]. assert (zlen (s_data s) < k) as Hl by zlen.
  rewrite Hlt by (unfold zlen in Hl; lia).
  destruct (s_err s) eqn:Eerr; cbn; try (split; [done|]; by auto).
  case_if; split; auto.
Qed.

(** [full]: every call of [Open] succeeds with a stream that gives all that was
    asked for and that can be closed.  Otherwise anything may happen, save that
    a seek on a stream goes somewhere else without an error. *)
Definition no_wrong (seeks : option (list seekAnswer)) : Prop :=
  match seeks with
  | Some l => Forall (fun a => match a with SWrong _ => False | _ => True end) l
  | None => True
  end.

Definition answers_ok (full : bool) (data : bytes) (a : answer) : Prop :=
  match a with
  | AFail _ => full = false
  | AStream cut e _ seeks ce =>
      if full then (length data <= cut)%nat /\ e = EOF /\ ce = None else no_wrong seeks
  end.

Section correct.
Variables (c : config) (full : bool).

Abbreviation data := (o_data (c_o c)).

Record config_ok : Prop := {
  ok_initial : c_initialChunkSize c = -1 \/ 0 < c_initialChunkSize c <= i64_max;
  ok_max : c_maxChunkSize c = -1 \/ c_initialChunkSize c <= c_maxChunkSize c <= i64_max;
  ok_data : zlen data <= i64_max;
  ok_size : o_Size (c_o c) <= i64_max;
  ok_answers n : answers_ok full data (o_answers (c_o c) n) }.

Hypothesis (Hc : config_ok).

(** The bytes of a chunk from an offset in it on. *)
Definition piece (offset chunkOffset chunkSize : Z) : bytes :=
  if chunkSize >? 0 then ztake (chunkOffset + chunkSize - offset) (zdrop offset data)
  else zdrop offset data.

Definition live (h : sequential) (rc : ReadCloser) : Prop :=
  if full then s_data (rc_stream rc) = piece (cr_offset h) (cr_chunkOffset h) (cr_chunkSize h) /\
               s_err (rc_stream rc) = EOF
  else exists t, piece (cr_offset h) (cr_chunkOffset h) (cr_chunkSize h) = s_data (rc_stream rc) ++ t.

Definition reading (h : sequential) : Prop :=
  cr_offset h = -1 \/
  exists rc, cr_rc h = Some rc /\ cr_chunkOffset h <= cr_offset h <= i64_max /\
    (0 < cr_chunkSize h -> cr_offset h <= cr_chunkOffset h + cr_chunkSize h) /\ live h rc.

(** What holds of the chunk and of the stream, in the middle of a call too. *)
Record sound (h : sequential) : Prop := {
  so_offset : 0 <= cr_chunkOffset h <= i64_max;
  so_size : in_i64 (cr_chunkSize h) /\ cr_chunkSize h <> 0;
  so_custom : 0 < cr_chunkSize h -> cr_customChunkSize h = false -> 0 < c_initialChunkSize c;
  so_rc rc : cr_rc h = Some rc -> if full then rc_closeErr rc = None else no_wrong (rc_seeks rc) }.

Definition inv (h : sequential) : Prop := sound h /\ (cr_closed h = false -> reading h).

Definition pos (h : sequential) : Z := if cr_offset h =? -1 then cr_chunkOffset h else cr_offset h.

Definition abs (h : sequential) : file := mkFile (if cr_closed h then 0 else pos h) (cr_closed h).

Lemma range_options_selected offset length : 0 <= offset <= i64_max -> in_i64 length -> length <> 0 ->
  selected (range_options offset length) data = piece offset offset length.
Proof.
  intros Ho [Hl Hl'] Hnz. pose proof (ok_data Hc). unfold range_options, piece.
  rewrite Z.gtb_ltb. case_if; breflect.
  - rewrite (proj2 (Z.ltb_ge 0 length)) by lia. case_if; breflect; [by subst|].
    cbn. unfold range_bytes. rewrite !Z.geb_leb, (proj2 (Z.leb_le 0 offset)) by lia. done.
  - rewrite (proj2 (Z.ltb_lt 0 length)) by lia. cbn [selected foldl select_step].
    rewrite i64_sub_idemp. unfold range_bytes. rewrite !Z.geb_leb, (proj2 (Z.leb_le 0 offset)) by lia.
    replace (offset + length - offset) with length by lia.
    destruct (decide (offset + length - 1 <= i64_max)) as [Hfit|Hover].
    + rewrite i64_id by (unfold in_i64, i64_min, i64_max in *; lia).
      rewrite (proj2 (Z.leb_le 0 _)) by lia. f_equal. lia.
    + rewrite i64_over by (unfold i64_max in *; lia).
      rewrite (proj2 (Z.leb_gt 0 _)) by (unfold i64_max in *; lia).
      symmetry. apply ztake_rest; lia.
Qed.

Lemma window_piece offset length : length <> 0 -> window offset length data = piece offset offset length.
Proof.
  intros ?. unfold window, piece. rewrite Z.geb_leb, Z.gtb_ltb.
  replace (offset + length - offset) with length by lia. repeat case_if; breflect; done || lia.
Qed.

(** A stream that gives the piece, or a part of it, is one to read from. *)
Lemma live_piece h rc : cr_offset h = cr_chunkOffset h ->
  (exists cut, s_data (rc_stream rc) = take cut (piece (cr_offset h) (cr_offset h) (cr_chunkSize h)) /\
    (full = true -> (length data <= cut)%nat /\ s_err (rc_stream rc) = EOF)) ->
  live h rc.
Proof.
  intros Ho (cut & Hd & Hf). unfold live. rewrite <- Ho. destruct full.
  - destruct (Hf eq_refl) as [Hcut ?]. split; [|done]. rewrite Hd. apply take_ge.
    unfold piece, ztake, zdrop. case_if; rewrite ?length_take, length_drop; lia.
  - rewrite Hd. eexists. symmetry. apply take_drop.
Qed.

(** What the stream of a reader can give is in the chunk, and so in the object. *)
Lemma live_piece_prefix h rc : live h rc ->
  exists t, piece (cr_offset h) (cr_chunkOffset h) (cr_chunkSize h) = s_data (rc_stream rc) ++ t.
Proof. unfold live. destruct full; [|done]. intros [<- _]. exists []. by rewrite app_nil_r. Qed.

Lemma live_prefix h rc : live h rc -> exists t, zdrop (cr_offset h) data = s_data (rc_stream rc) ++ t.
Proof.
  intros [t Ht]%live_piece_prefix. unfold piece in Ht. destruct (_ >? _); [|by exists t].
  rewrite <- (ztake_zdrop (cr_chunkOffset h + cr_chunkSize h - cr_offset h) (zdrop (cr_offset h) data)), Ht.
  eexists. by rewrite <- app_assoc.
Qed.

(** At the end of its chunk it gives nothing more. *)
Lemma live_drained h rc : live h rc -> 0 < cr_chunkSize h -> cr_offset h = cr_chunkOffset h + cr_chunkSize h ->
  s_data (rc_stream rc) = [].
Proof.
  intros [t Ht]%live_piece_prefix Hpos Ho. unfold piece in Ht.
  rewrite Z.gtb_ltb, (proj2 (Z.ltb_lt _ _)), <- Ho, Z.sub_diag in Ht by done.
  symmetry in Ht. by apply app_nil in Ht as [? _].
Qed.

(** Before a chunk is opened: at its start, and not closed. *)
Definition ready (h : sequential) : Prop :=
  sound h /\ cr_closed h = false /\ (cr_offset h = -1 \/ cr_offset h = cr_chunkOffset h) /\
  (full = false -> reading h).

(** A failed seek leaves nothing to read; the rest stays. *)
Lemma ready_seek h rc rc' : ready h -> cr_rc h = Some rc ->
  (full = false -> s_data (rc_stream rc') = []) -> rc_closeErr rc' = rc_closeErr rc ->
  (no_wrong (rc_seeks rc) -> no_wrong (rc_seeks rc')) ->
  ready (set_rc h (Some rc') (cr_offset h)).
Proof using Hc.
  intros ([??? Hrc] & ? & ? & Hr) Hh Hd Hce Hnw. specialize (Hrc rc Hh). split_and!; cbn; auto.
  - split; cbn; auto. intros rc1 [= <-]. destruct full; [by rewrite Hce|auto].
  - intros Hf. destruct (Hr Hf) as [?|(rc1 & ? & ? & ? & ?)]; [by left|right].
    exists rc'. split_and!; cbn; auto; try lia. unfold live in *. rewrite Hf. cbn.
    rewrite (Hd Hf). by eexists.
Qed.

(** A stream that was just made or moved for the chunk. *)
Lemma reading_start h rc : sound h ->
  (if full then rc_closeErr rc = None else no_wrong (rc_seeks rc)) ->
  (exists cut, s_data (rc_stream rc) = take cut (piece (cr_chunkOffset h) (cr_chunkOffset h) (cr_chunkSize h)) /\
    (full = true -> (length data <= cut)%nat /\ s_err (rc_stream rc) = EOF)) ->
  inv (set_rc h (Some rc) (cr_chunkOffset h)).
Proof using Hc.
  intros [??? Hrc] Hok Hd. split.
  - split; cbn; auto. by intros rc1 [= <-].
  - intros _. right. exists rc. split_and!; cbn; [done|lia|lia|lia|].
    apply live_piece; [done|]. done.
Qed.

Lemma seek_open_spec h : ready h ->
  let '(h', sought) := seek_open c h in
  cr_chunkOffset h' = cr_chunkOffset h /\ cr_chunkSize h' = cr_chunkSize h /\ cr_closed h' = false /\
  if sought then inv h' /\ cr_offset h' = cr_chunkOffset h else ready h'.
Proof using Hc.
  intros Hready. pose proof Hready as (Hs & Hcl & _). unfold seek_open.
  destruct (cr_rc h) as [rc|] eqn:Hh; [|done].
  destruct (rc_seeks rc) as [seeks|] eqn:Hseeks; [|done].
  pose proof (so_rc _ Hs rc Hh) as Hrc. destruct (so_size _ Hs) as [_ Hnz].
  assert (forall rc' , rc_closeErr rc' = rc_closeErr rc -> (no_wrong (rc_seeks rc) -> no_wrong (rc_seeks rc')) ->
    if full then rc_closeErr rc' = None else no_wrong (rc_seeks rc')) as Hkeep.
  { intros rc' Hce Hnw. destruct full; [by rewrite Hce|auto]. }
  unfold rc_RangeSeek. rewrite window_piece by done.
  assert (forall sk, (match seeks with [] => (SOk [], []) | a :: l => (a, l) end).2 = sk ->
    no_wrong (rc_seeks rc) -> no_wrong (Some sk)) as Htail.
  { rewrite Hseeks. intros sk <-. destruct seeks; [done|]. cbn. by inversion 1. }
  destruct (match seeks with [] => _ | _ => _ end) as [ans seeks'] eqn:Hans.
  specialize (Htail seeks' eq_refl).
  assert (exists cut, piece (cr_chunkOffset h) (cr_chunkOffset h) (cr_chunkSize h) =
    take cut (piece (cr_chunkOffset h) (cr_chunkOffset h) (cr_chunkSize h)) /\ (length data <= cut)%nat) as [cut [Hcut Hlen]].
  { exists (length data). split; [|done]. symmetry. apply take_ge.
    unfold piece, ztake, zdrop. case_if; rewrite ?length_take, length_drop; lia. }
  destruct ans as [e|n|sched].
  - split_and!; try done. apply (ready_seek _ rc); auto.
  - assert (full = true) as Hfull.
    { destruct full eqn:Ef; [done|]. exfalso. rewrite Hseeks in Hrc. destruct seeks; simplify_eq.
      by inversion Hrc. }
    case_if; breflect; subst.
    + split_and!; try done. apply reading_start; [done|by apply Hkeep|].
      exists cut. cbn. by rewrite window_piece.
    + split_and!; try done. apply (ready_seek _ rc); auto. by rewrite Hfull.
  - rewrite Z.eqb_refl. split_and!; try done. apply reading_start; [done|by apply Hkeep|].
    by exists cut.
Qed.

Lemma openRange_spec h : ready h ->
  let '(h', err) := openRange c h in
  inv h' /\ cr_closed h' = false /\ cr_chunkOffset h' = cr_chunkOffset h /\ cr_chunkSize h' = cr_chunkSize h /\
  pos h' = cr_chunkOffset h /\
  match err with None => cr_offset h' = cr_chunkOffset h | Some _ => full = false end.
Proof using Hc.
  intros Hready. pose proof Hready as (_ & Hcl & _). unfold openRange. rewrite Hcl.
  pose proof (seek_open_spec h Hready) as Hso. destruct (seek_open c h) as [h1 sought].
  destruct Hso as (Hco & Hcs & Hcl1 & Hso). destruct sought.
  { destruct Hso as [? Ho]. split_and!; auto. unfold pos. rewrite Ho, Hco. by case_if. }
  destruct Hso as (Hs & _ & Ho & Hr). rewrite Hco, Hcs in *.
  pose proof (so_offset _ Hs) as Hoff. destruct (so_size _ Hs) as [Hin Hnz].
  assert (forall h', cr_offset h' = cr_offset h1 -> cr_chunkOffset h' = cr_chunkOffset h1 ->
     pos h' = cr_chunkOffset h) as Hpos.
  { intros h' E1 E2. unfold pos. rewrite E1, E2, Hco. case_if; breflect; lia. }
  assert (forall o m, full = false -> inv (asked h1 o m)) as Hasked.
  { intros ?? Hf. destruct Hs. split; [by split|]. intros _. by apply Hr. }
  pose proof (ok_answers Hc (length (cr_requests h1))) as Hans. unfold o_Open.
  destruct (o_answers _ _) as [e|cut e sched seeks ce].
  { split_and!; auto. }
  assert (sound (asked h1 (range_options (cr_chunkOffset h) (cr_chunkSize h)) 1)) as Hs1 by (by destruct Hs).
  set (rc := mkRC _ _ _). assert (if full then rc_closeErr rc = None else no_wrong (rc_seeks rc)) as Hrc.
  { destruct full; [by destruct Hans as (?&?&?)|done]. }
  assert (exists cut, s_data (rc_stream rc) = take cut (piece (cr_chunkOffset h1) (cr_chunkOffset h1) (cr_chunkSize h1)) /\
    (full = true -> (length data <= cut)%nat /\ s_err (rc_stream rc) = EOF)) as Hlive.
  { exists cut. rewrite <- range_options_selected by auto. rewrite Hco, Hcs.
    split; [done|]. intros Hf. rewrite Hf in Hans. by destruct Hans as (?&?&?). }
  pose proof (fun hx Hx => reading_start hx rc Hx Hrc) as Hstart.
  assert (forall h2, cr_offset h2 = cr_chunkOffset h -> pos h2 = cr_chunkOffset h) as Hpos2.
  { intros h2 E. unfold pos. rewrite E. case_if; breflect; lia. }
  unfold resetReader. cbn [asked cr_rc].
  destruct (cr_rc h1) as [old|] eqn:Hold; [destruct (rc_closeErr old) as [ce'|] eqn:Hce|].
  - assert (full = false) as Hf.
    { pose proof (so_rc _ Hs old Hold) as Hx. by destruct full; [rewrite Hce in Hx|]. }
    destruct (Hasked (range_options (cr_chunkOffset h) (cr_chunkSize h)) 1%nat Hf) as [[] Hrd].
    split_and!; auto. split; [by split|]. intros _. by apply Hrd.
  - split_and!; auto. rewrite <- Hco. apply (Hstart (count_close (asked h1 _ 1))); [by destruct Hs1|done].
  - split_and!; auto. rewrite <- Hco. apply (Hstart (asked h1 _ 1)); [by destruct Hs1|done].
Qed.

(** The next chunk has a size that makes sense, also when doubling overflows. *)
Lemma next_chunk_ready h : inv h -> cr_closed h = false -> 0 < cr_chunkSize h ->
  cr_offset h = cr_chunkOffset h + cr_chunkSize h -> ready (next_chunk c h).
Proof using Hc.
  intros [[Hoff [Hin Hnz] Hcu Hrc] Hr] Hcl Hpos Ho. specialize (Hr Hcl).
  destruct (ok_initial Hc) as [Hi|Hi]; destruct (ok_max Hc) as [Hm|Hm].
  all: destruct Hr as [?|(rc & Hh & Hle & _ & Hlive)]; [lia|].
  all: assert (forall size, in_i64 size -> size <> 0 -> (0 < size -> 0 < c_initialChunkSize c) ->
    ready (set_chunk h (cr_offset h) (cr_offset h) size false)) as Hset.
  all: try (intros size ???; split_and!; cbn; auto;
    [split; cbn; auto; lia|]; intros Hf; right; exists rc; split_and!; cbn; auto; try lia;
    unfold live; rewrite Hf, (live_drained h rc Hlive Hpos Ho); by eexists).
  all: unfold next_chunk; destruct (cr_customChunkSize h) eqn:Ecu.
  all: try (apply Hset; unfold in_i64, i64_min, i64_max in *; lia).
  all: specialize (Hcu Hpos eq_refl); try lia.
  all: assert (i64 (cr_chunkSize h * 2) <> 0) as Hnz2 by
    (destruct (decide (cr_chunkSize h * 2 <= i64_max));
      [rewrite i64_id by (unfold in_i64, i64_min in *; lia)|rewrite i64_over by (unfold in_i64, i64_max in *; lia)];
      unfold in_i64, i64_max in *; lia).
  all: pose proof (i64_in (cr_chunkSize h * 2)).
  all: case_if; apply Hset; auto; unfold in_i64, i64_min, i64_max in *; lia.
Qed.

Lemma chunkEnd_eq h : sound h -> cr_chunkOffset h + cr_chunkSize h <= i64_max ->
  chunkEnd h = cr_chunkOffset h + cr_chunkSize h.
Proof using Hc. intros [? [[? ?] ?] ? ?] ?. apply i64_id. unfold in_i64, i64_min in *. lia. Qed.

(** The end of the chunk is reached where it says, although it may overflow. *)
Lemma chunkEnd_reached h o : sound h -> 0 < cr_chunkSize h ->
  cr_chunkOffset h <= o <= i64_max -> o <= cr_chunkOffset h + cr_chunkSize h ->
  (o = chunkEnd h <-> o = cr_chunkOffset h + cr_chunkSize h) /\
  i64 (chunkEnd h - o) = cr_chunkOffset h + cr_chunkSize h - o /\ chunkEnd h <> -1.
Proof using Hc.
  intros Hs Hpos Ho Hle. destruct Hs as [? [[? ?] ?] ? ?]. unfold chunkEnd. rewrite i64_sub_idemp.
  rewrite (i64_id (_ - o)) by (unfold in_i64, i64_min, i64_max in *; lia).
  destruct (decide (cr_chunkOffset h + cr_chunkSize h <= i64_max)).
  - rewrite i64_id by (unfold in_i64, i64_min, i64_max in *; lia). split_and!; lia.
  - rewrite i64_over by (unfold i64_max in *; lia). unfold i64_max in *. split_and!; lia.
Qed.

Lemma prepare_spec h : inv h -> cr_closed h = false ->
  let '(h', err) := prepare c h in
  inv h' /\ cr_closed h' = false /\ pos h' = pos h /\
  match err with
  | None => cr_offset h' <> -1 /\ (0 < cr_chunkSize h' -> cr_offset h' < cr_chunkOffset h' + cr_chunkSize h')
  | Some _ => full = false
  end.
Proof using Hc.
  intros Hinv Hcl. pose proof Hinv as [Hs Hr]. specialize (Hr Hcl). unfold prepare. rewrite Z.gtb_ltb.
  assert (forall h1, ready h1 -> pos h = cr_chunkOffset h1 ->
    let '(h', err) := openRange c h1 in
    inv h' /\ cr_closed h' = false /\ pos h' = pos h /\
    match err with
    | None => cr_offset h' <> -1 /\ (0 < cr_chunkSize h' -> cr_offset h' < cr_chunkOffset h' + cr_chunkSize h')
    | Some _ => full = false
    end) as Hopen.
  { intros h1 H1 Hp. pose proof (openRange_spec h1 H1) as Hx. destruct (openRange c h1) as [h' err].
    destruct Hx as (? & ? & Hco & Hcs & -> & He). split_and!; auto. destruct err; [done|].
    rewrite Hco, Hcs, He. destruct H1 as [[]]. lia. }
  assert (cr_offset h = -1 -> pos h = cr_chunkOffset h) as Hp1.
  { intros E. unfold pos. by rewrite E. }
  destruct (0 <? cr_chunkSize h) eqn:Epos; cbn [andb]; breflect.
  - destruct Hr as [Hm|(rc & Hh & Hle & Hend & Hlive)].
    + pose proof (chunkEnd_reached h (cr_chunkOffset h) Hs Epos) as (_ & _ & Hne);
        [destruct Hs; lia|lia|]. rewrite Hm.
      rewrite (proj2 (Z.eqb_neq (-1) _)) by congruence. rewrite Z.eqb_refl.
      apply Hopen; [|auto]. split_and!; auto. intros _. by left.
    + destruct (chunkEnd_reached h (cr_offset h) Hs Epos Hle (Hend Epos)) as (Hiff & _ & _).
      case_if; breflect.
      * apply Hopen; [apply next_chunk_ready; tauto|]. unfold pos. destruct Hs.
        rewrite (proj2 (Z.eqb_neq _ (-1))) by lia. unfold next_chunk. by case_if.
      * destruct Hs. rewrite (proj2 (Z.eqb_neq _ (-1))) by lia. split_and!; auto; [lia|].
        intros _. specialize (Hend Epos). assert (cr_offset h <> cr_chunkOffset h + cr_chunkSize h) by tauto. lia.
  - case_if; breflect.
    + apply Hopen; [|auto]. split_and!; auto.
    + split_and!; auto. lia.
Qed.

Lemma piece_drop n o co cs : 0 <= o -> 0 <= n -> piece (o + n) co cs = zdrop n (piece o co cs).
Proof.
  intros ??. unfold piece. rewrite <- !zdrop_zdrop by lia. case_if; [|done].
  unfold ztake, zdrop. rewrite skipn_firstn_comm. f_equal. lia.
Qed.

Lemma zdrop_min k b : zdrop (zlen (ztake k b)) b = zdrop k b.
Proof.
  unfold zdrop, ztake, zlen. rewrite length_take, Nat2Z.id.
  destruct (decide (Z.to_nat k <= length b)%nat); [by rewrite Nat.min_l|].
  rewrite Nat.min_r by lia. by rewrite !drop_ge by lia.
Qed.

(** One turn of the loop: a part of the buffer, within the chunk. *)
Lemma took_spec h rc buf : inv h -> cr_closed h = false -> cr_offset h <> -1 -> cr_rc h = Some rc ->
  0 <= buf -> (0 < cr_chunkSize h -> buf <= cr_chunkOffset h + cr_chunkSize h - cr_offset h) ->
  let '(s, out, err) := ReadFull (rc_stream rc) buf in
  let h' := took h rc s (zlen out) in
  inv h' /\ cr_closed h' = false /\ pos h' = pos h + zlen out /\
  (0 <= pos h /\ cr_offset h' = pos h + zlen out) /\
  zdrop (pos h) data = out ++ zdrop (pos h') data /\ zlen out <= buf /\
  match err with
  | None => zlen out = buf
  | Some e => full = true -> (e = EOF \/ e = ErrUnexpectedEOF) /\ zdrop (pos h') data = []
  end.
Proof using Hc.
  intros [Hs Hr] Hcl Ho Hh Hbuf Hchunk. destruct (Hr Hcl) as [?|(rc' & Hh' & Hle & Hend & Hlive)]; [done|].
  assert (rc' = rc) as -> by congruence. pose proof (live_prefix h rc Hlive) as [t Ht].
  destruct (ReadFull_spec (rc_stream rc) buf Hbuf) as (s' & err & -> & Hd & Herr & Hcase).
  set (out := ztake buf (s_data (rc_stream rc))). pose proof (so_offset _ Hs) as Hoff.
  assert (zlen out <= buf) as Hout by (unfold out; zlen).
  assert (out = [] \/ cr_offset h + zlen out <= zlen data) as Hfit.
  { destruct (decide (out = [])) as [|Hne]; [by left|right]. apply zlen_pos in Hne.
    assert (zlen out <= zlen (zdrop (cr_offset h) data)) as Hl by (rewrite Ht; unfold out in *; zlen).
    rewrite zlen_zdrop in Hl. lia. }
  assert (cr_offset h + zlen out <= i64_max) as Hmax.
  { pose proof (ok_data Hc). destruct Hfit as [->|]; [change (zlen []) with 0; lia|lia]. }
  pose proof (zlen_nonneg out) as Hn.
  assert (cr_offset (took h rc s' (zlen out)) = cr_offset h + zlen out) as Ho'.
  { cbn. apply i64_id. unfold in_i64, i64_min in *. lia. }
  assert (pos h = cr_offset h) as Hp by (unfold pos; by rewrite (proj2 (Z.eqb_neq _ _))).
  assert (pos (took h rc s' (zlen out)) = cr_offset h + zlen out) as Hp'.
  { unfold pos. rewrite Ho'. by rewrite (proj2 (Z.eqb_neq _ _)) by lia. }
  assert (s_data s' = zdrop (zlen out) (s_data (rc_stream rc))) as Hd' by (rewrite Hd; symmetry; apply zdrop_min).
  assert (s_data (rc_stream rc) = out ++ s_data s') as Hsplit by (rewrite Hd; symmetry; apply ztake_zdrop).
  assert (zdrop (cr_offset h + zlen out) data = s_data s' ++ t) as Hrest.
  { rewrite <- zdrop_zdrop by lia. rewrite Ht, Hsplit, <- app_assoc. apply zdrop_app_eq. }
  cbv zeta. fold out. rewrite Hp, Hp'. split_and!; auto; [|lia|by rewrite Hrest, app_assoc, <- Hsplit|].
  - split.
    + destruct Hs as [??? Hrc]. split; cbn; auto. intros rc1 [= <-]. exact (Hrc rc Hh).
    + intros _. right. eexists. split; [done|]. rewrite Ho'. cbn [took set_rc cr_chunkOffset cr_chunkSize].
      split_and!; [lia|lia|intros Hpos; specialize (Hchunk Hpos); lia|].
      unfold live in *. rewrite Ho'. cbn [took set_rc cr_chunkOffset cr_chunkSize rc_stream].
      rewrite piece_drop by lia. destruct full; [destruct Hlive as [<- He]; by rewrite Herr|].
      destruct Hlive as [t' Hp1]. exists t'. rewrite Hp1, Hd'. apply zdrop_le_app. unfold out. zlen.
  - destruct err as [e|]; [|unfold out; zlen]. intros Hf. unfold live in Hlive. rewrite Hf in Hlive.
    destruct Hlive as [Hpiece He]. destruct Hcase as [Hlt He']. split; [auto|].
    assert (zlen out = zlen (s_data (rc_stream rc))) as Hall by (unfold out; zlen).
    rewrite Hrest, Hd', Hall, zdrop_all by done. cbn. rewrite Hpiece in Ht. rewrite Hpiece in Hlt.
    unfold piece in Ht, Hlt. destruct (cr_chunkSize h >? 0) eqn:Ecs; breflect.
    + specialize (Hchunk ltac:(lia)). rewrite ztake_all in Ht by zlen.
      apply app_inv_head with (l := zdrop (cr_offset h) data). by rewrite app_nil_r.
    + apply app_inv_head with (l := zdrop (cr_offset h) data). by rewrite app_nil_r.
Qed.

Lemma seq_Read_loop_spec fuel h k acc : inv h -> cr_closed h = false -> 0 <= k -> (Z.to_nat k < fuel)%nat ->
  exists h' out e, Read_loop c fuel h k acc = Ret (h', acc ++ out, e) /\ inv h' /\ cr_closed h' = false /\
    pos h' = pos h + zlen out /\ zdrop (pos h) data = out ++ zdrop (pos h') data /\
    zlen out <= k /\ (e = None -> zlen out = k) /\
    (full = true -> e = None \/ e = Some EOF /\ zdrop (pos h') data = []).
Proof using Hc.
  revert h k acc. induction fuel as [|fuel IH]; intros h k acc Hinv Hcl Hk Hfuel; [lia|].
  cbn [Read_loop]. rewrite Z.gtb_ltb. case_if; breflect.
  2:{ exists h, [], None. rewrite app_nil_r. change (zlen []) with 0. split_and!; auto; lia. }
  pose proof (prepare_spec h Hinv Hcl) as Hpre. destruct (prepare c h) as [h1 [e|]].
  { destruct Hpre as (? & ? & Hp & Hf). exists h1, [], (Some e). rewrite app_nil_r, Hp. change (zlen []) with 0.
    split_and!; auto; [lia|done|]. by rewrite Hf. }
  destruct Hpre as (Hinv1 & Hcl1 & Hp1 & Ho1 & Hlt). rewrite <- Hp1.
  pose proof Hinv1 as [Hs1 Hr1]. destruct (Hr1 Hcl1) as [?|(rc & Hh & Hle & _ & _)]; [done|].
  set (rest := i64 (chunkEnd h1 - cr_offset h1)).
  assert (0 < cr_chunkSize h1 -> rest = cr_chunkOffset h1 + cr_chunkSize h1 - cr_offset h1 /\ 0 < rest) as Hrest.
  { intros Hpos. specialize (Hlt Hpos).
    destruct (chunkEnd_reached h1 (cr_offset h1) Hs1 Hpos) as (_ & Hx & _); [lia|lia|]. unfold rest. lia. }
  assert (exists buf p, (if (k >? rest) && (cr_chunkSize h1 >? 0)
      then if rest <? 0 then Panic else Ret (rest, k - rest) else Ret (k, 0)) = Ret (buf, p) /\
    0 < buf /\ 0 <= p /\ buf + p = k /\
    (0 < cr_chunkSize h1 -> buf <= cr_chunkOffset h1 + cr_chunkSize h1 - cr_offset h1)) as (buf & p & -> & Hb & Hp & Hsum & Hch).
  { rewrite !Z.gtb_ltb. destruct (rest <? k) eqn:E1; cbn [andb]; breflect; [destruct (0 <? cr_chunkSize h1) eqn:E2; breflect|].
    - destruct (Hrest E2) as [Hr' ?]. rewrite (proj2 (Z.ltb_ge rest 0)) by lia.
      exists rest, (k - rest). split_and!; [done|lia|lia|lia|lia].
    - exists k, 0. split_and!; [done|lia|lia|lia|lia].
    - exists k, 0. split_and!; [done|lia|lia|lia|]. intros Hpos. destruct (Hrest Hpos). lia. }
  rewrite Hh. cbn [obind deref].
  pose proof (took_spec h1 rc buf Hinv1 Hcl1 Ho1 Hh ltac:(lia) Hch) as Ht.
  destruct (ReadFull (rc_stream rc) buf) as [[s out] err]. cbn zeta in Ht.
  set (h2 := took h1 rc s (zlen out)) in *. destruct Ht as (Hinv2 & Hcl2 & Hp2 & _ & Hz2 & Hlen & Herr).
  destruct err as [e|].
  - exists h2, out, (Some (match e with ErrUnexpectedEOF => EOF | e => e end)).
    split; [by destruct e|]. split_and!; auto; [lia|done|]. intros Hf. right.
    destruct (Herr Hf) as [[->| ->] ?]; done.
  - destruct (IH h2 p (acc ++ out)) as (h' & out' & e & -> & Hinv' & Hcl' & Hp' & Hz' & Hlen' & Hn' & Hf'); [done|done|lia|lia|].
    exists h', (out ++ out'), e. rewrite app_assoc. split_and!; auto.
    + rewrite zlen_app. lia.
    + rewrite Hz2, Hz'. by rewrite app_assoc.
    + rewrite zlen_app. lia.
    + intros He. rewrite zlen_app, Hn' by done. lia.
Qed.

(** ** After an error

    A reader whose stream has nothing more to give within its chunk: reads give
    errors until the next seek. *)
Definition drained (h : sequential) : Prop := exists rc, cr_rc h = Some rc /\ s_data (rc_stream rc) = [].

Definition stopped (h : sequential) : Prop :=
  cr_closed h = false /\ cr_offset h <> -1 /\
  (0 < cr_chunkSize h -> cr_offset h < cr_chunkOffset h + cr_chunkSize h) /\ drained h.

Lemma openRange_error h h' e : full = false -> ready h -> openRange c h = (h', Some e) ->
  cr_closed h' = false /\ cr_offset h' = cr_offset h /\ cr_chunkOffset h' = cr_chunkOffset h /\
  cr_chunkSize h' = cr_chunkSize h /\ (drained h -> drained h').
Proof using Hc.
  intros Hf (Hs & Hcl & _ & _) Hopen. unfold openRange in Hopen. rewrite Hcl in Hopen.
  assert (let '(h1, sought) := seek_open c h in sought = false ->
    cr_closed h1 = false /\ cr_offset h1 = cr_offset h /\ cr_chunkOffset h1 = cr_chunkOffset h /\
    cr_chunkSize h1 = cr_chunkSize h /\ (drained h -> drained h1)) as Hso.
  { unfold seek_open. destruct (cr_rc h) as [rc|] eqn:Hh; [|done]. destruct (rc_seeks rc) as [seeks|] eqn:Hseeks; [|done].
    pose proof (so_rc _ Hs rc Hh) as Hrc. rewrite Hf, Hseeks in Hrc. unfold rc_RangeSeek.
    destruct seeks as [|[e1|n|sched] seeks]; cbn; rewrite ?Z.eqb_refl; try done.
    - intros _. split_and!; auto. intros _. by eexists.
    - by inversion Hrc. }
  destruct (seek_open c h) as [h1 sought]. destruct sought; [done|].
  destruct (Hso eq_refl) as (Hcl1 & Ho1 & Hco1 & Hcs1 & Hd1).
  destruct (o_Open _ _ _) as [e1|rc]; [by injection Hopen as <- _|].
  unfold resetReader in Hopen. cbn [asked cr_rc] in Hopen.
  destruct (cr_rc h1) as [old|] eqn:Hold; [destruct (rc_closeErr old); [|done]|done].
  injection Hopen as <- _. cbn. split_and!; auto.
Qed.

Lemma prepare_error h h' e : full = false -> inv h -> cr_closed h = false -> prepare c h = (h', Some e) ->
  stopped h' \/ (cr_offset h = -1 /\ cr_offset h' = -1 /\ cr_chunkOffset h' = cr_chunkOffset h).
Proof using Hc.
  intros Hf Hinv Hcl Hprep. pose proof Hinv as [Hs Hr]. specialize (Hr Hcl). unfold prepare in Hprep.
  rewrite Z.gtb_ltb in Hprep. destruct (0 <? cr_chunkSize h) eqn:Epos; cbn [andb] in Hprep; breflect.
  - destruct (cr_offset h =? chunkEnd h) eqn:Eend; breflect.
    + destruct Hr as [Hm|(rc & Hh & Hle & Hend & Hlive)].
      { exfalso. pose proof (chunkEnd_reached h (cr_chunkOffset h) Hs Epos) as (_ & _ & Hne);
          [destruct Hs; lia|lia|congruence]. }
      destruct (chunkEnd_reached h (cr_offset h) Hs Epos Hle (Hend Epos)) as (Hiff & _ & _). apply Hiff in Eend.
      pose proof (next_chunk_ready h Hinv Hcl Epos Eend) as Hready.
      destruct (openRange_error _ _ _ Hf Hready Hprep) as (? & Ho & Hco & Hcs & Hd). left.
      assert (cr_offset (next_chunk c h) = cr_offset h /\ cr_chunkOffset (next_chunk c h) = cr_offset h /\
        cr_rc (next_chunk c h) = cr_rc h) as (E1 & E2 & E3) by (unfold next_chunk; by case_if).
      destruct Hs. split_and!; [done|lia|lia|]. apply Hd. exists rc. split; [by rewrite E3|]. by eapply live_drained.
    + destruct (cr_offset h =? -1) eqn:Em; breflect; [|done]. assert (ready h) as Hready by (split_and!; auto).
      destruct (openRange_error _ _ _ Hf Hready Hprep) as (? & Ho & Hco & _). right. split_and!; congruence.
  - destruct (cr_offset h =? -1) eqn:Em; breflect; [|done]. assert (ready h) as Hready by (split_and!; auto).
    destruct (openRange_error _ _ _ Hf Hready Hprep) as (? & Ho & Hco & _). right. split_and!; congruence.
Qed.

(** After an error a reader is stopped, unless it could not even be opened. *)
Lemma Read_loop_error fuel h k acc h' out e : full = false -> inv h -> cr_closed h = false ->
  Read_loop c fuel h k acc = Ret (h', out, Some e) ->
  stopped h' \/ (cr_offset h = -1 /\ cr_offset h' = -1 /\ cr_chunkOffset h' = cr_chunkOffset h /\ out = acc).
Proof using Hc.
  intros Hf. revert h k acc. induction fuel as [|fuel IH]; intros h k acc Hinv Hcl Hread; [done|].
  cbn [Read_loop] in Hread. destruct (k >? 0) eqn:Ek; [|done].
  pose proof (prepare_spec h Hinv Hcl) as Hpre. destruct (prepare c h) as [h1 [e1|]] eqn:Hprep.
  { injection Hread as <- <- <-. destruct (prepare_error h h1 e1 Hf Hinv Hcl Hprep) as [?|(? & ? & ?)]; [by left|by right]. }
  destruct Hpre as (Hinv1 & Hcl1 & _ & Ho1 & Hlt). pose proof Hinv1 as [Hs1 Hr1].
  destruct (Hr1 Hcl1) as [?|(rc & Hh & Hle & _ & _)]; [done|]. rewrite !Z.gtb_ltb in *. breflect.
  set (rest := i64 (chunkEnd h1 - cr_offset h1)) in *.
  assert (0 < cr_chunkSize h1 -> rest = cr_chunkOffset h1 + cr_chunkSize h1 - cr_offset h1 /\ 0 < rest) as Hrest.
  { intros Hpos. specialize (Hlt Hpos).
    destruct (chunkEnd_reached h1 (cr_offset h1) Hs1 Hpos) as (_ & Hx & _); [lia|lia|]. unfold rest. lia. }
  destruct (if _ && _ then _ else _) as [[buf p]|] eqn:Ebuf; [|done]. cbn [obind] in Hread.
  assert (0 < buf /\ (0 < cr_chunkSize h1 -> buf <= cr_chunkOffset h1 + cr_chunkSize h1 - cr_offset h1)) as [Hb Hch].
  { destruct (rest <? k) eqn:E1; cbn [andb] in Ebuf; breflect.
    - destruct (0 <? cr_chunkSize h1) eqn:E2; breflect.
      + destruct (Hrest E2). destruct (rest <? 0); [done|]. injection Ebuf as <- <-. lia.
      + injection Ebuf as <- <-. lia.
    - injection Ebuf as <- <-. split; [lia|]. intros Hpos. destruct (Hrest Hpos). lia. }
  rewrite Hh in Hread. cbn [deref obind] in Hread.
  pose proof (took_spec h1 rc buf Hinv1 Hcl1 Ho1 Hh ltac:(lia) Hch) as Ht.
  destruct (ReadFull_spec (rc_stream rc) buf ltac:(lia)) as (s' & err & Hfull & Hd & _ & Hcase).
  rewrite Hfull in Ht, Hread. cbv zeta in Ht. set (b := ztake buf (s_data (rc_stream rc))) in *.
  destruct Ht as (Hinv2 & Hcl2 & Hp2 & [H0 E2] & _). left.
  destruct err as [e1|].
  - assert (stopped (took h1 rc s' (zlen b))) as Hst.
    { assert (pos h1 = cr_offset h1) as E1 by (unfold pos; by rewrite (proj2 (Z.eqb_neq _ _))).
      rewrite E1 in E2.
      split_and!; [done|rewrite E2; pose proof (zlen_nonneg b); lia| |].
      - cbn [took set_rc cr_chunkSize cr_chunkOffset] in *. rewrite E2. intros Hpos. specialize (Hch Hpos).
        assert (zlen b < buf) by (unfold b; zlen). lia.
      - eexists. split; [done|]. cbn. rewrite Hd. apply zdrop_all. lia. }
    by destruct e1; injection Hread as <- <- <-.
  - destruct (IH _ _ _ Hinv2 Hcl2 Hread) as [?|(E & _)]; [done|].
    pose proof (zlen_nonneg b). lia.
Qed.

Lemma Open_spec h : inv h -> let '(h', err) := Open c h in
  inv h' /\ abs h' = abs h /\ (full = true -> cr_closed h = false -> err = None).
Proof using Hc.
  intros Hinv. unfold Open.
  assert (cr_closed h = true \/ cr_offset h = -1 -> let '(h', err) := openRange c h in
    inv h' /\ abs h' = abs h /\ (full = true -> cr_closed h = false -> err = None)) as Hopen.
  { intros Hor. destruct (cr_closed h) eqn:Hcl.
    { unfold openRange. by rewrite Hcl. }
    destruct Hor as [?|Ho]; [done|]. pose proof Hinv as [Hs Hr].
    assert (ready h) as Hready by (split_and!; auto).
    pose proof (openRange_spec h Hready) as Hx. destruct (openRange c h) as [h' err].
    destruct Hx as (? & Hcl' & _ & _ & Hp & He). split_and!; auto.
    - unfold abs. rewrite Hcl, Hcl', Hp. unfold pos. by rewrite Ho.
    - destruct err; [by rewrite He|done]. }
  destruct (cr_rc h) as [rc|] eqn:Hh; [case_if; breflect; [by split_and!|apply Hopen; by right]|].
  apply Hopen. destruct (cr_closed h) eqn:Hcl; [by left|right].
  destruct Hinv as [_ Hr]. destruct (Hr Hcl) as [?|(rc & ? & _)]; [done|congruence].
Qed.

Lemma RangeSeek_spec h offset whence length : inv h -> in_i64 offset -> in_i64 length ->
  let '(h', n, err) := RangeSeek c h offset whence length in
  inv h' /\ file_step (o_Size (c_o c)) data (abs h) (ORangeSeek offset whence length) (RSeek n err) (abs h').
Proof using Hc.
  intros [Hs Hr] Ho Hl. unfold RangeSeek. unfold abs at 1. destruct (cr_closed h) eqn:Hcl.
  { split; [split; [done|by rewrite Hcl]|]. unfold abs. rewrite Hcl. constructor. }
  destruct ((whence =? 2) && _) eqn:Eend.
  { breflect. split; [split; [done|auto]|]. unfold abs. rewrite Hcl. apply step_bad_seek; [auto|lia|lia]. }
  set (base := if whence =? 0 then _ else _). set (off := i64 (base + offset)).
  set (custom := if length >? 0 then true else _). set (size := if length >? 0 then _ else _).
  assert (forall co, 0 <= co <= i64_max -> inv (set_chunk h (-1) co size custom)) as Hset.
  { intros co Hco. split; [|intros _; by left]. destruct Hs as [? [? ?] Hcu Hrc].
    pose proof (ok_initial Hc) as Hi. unfold size, custom. split; cbn; auto.
    - case_if; breflect; unfold in_i64, i64_min, i64_max in *; lia.
    - case_if; [done|]. intros ??. lia. }
  pose proof (ok_size Hc) as Hsz. pose proof (i64_in (base + offset)) as Hin. fold off in Hin.
  assert (whence = 0 -> off = offset) as H0.
  { intros ->. unfold off, base. cbn. by apply i64_id. }
  assert (whence = 2 -> 0 <= o_Size (c_o c) ->
    (0 <= off < o_Size (c_o c) <-> 0 <= o_Size (c_o c) + offset < o_Size (c_o c)) /\
    (0 <= off < o_Size (c_o c) -> off = o_Size (c_o c) + offset)) as H2.
  { intros -> Hsz'. unfold off, base. cbn [Z.eqb Pos.eqb]. set (z := o_Size (c_o c) + offset).
    destruct (decide (z <= i64_max)).
    - rewrite i64_id by (unfold in_i64, i64_min in *; lia). lia.
    - rewrite i64_over by (unfold in_i64, i64_max, i64_min in *; lia). unfold in_i64, i64_max, i64_min in *. lia. }
  assert (whence = 2 -> 0 <= o_Size (c_o c)) as H2'.
  { intros ->. cbn in Eend. by apply Z.ltb_ge. }
  destruct ((off <? 0) || _) eqn:Ebad; breflect; unfold abs; cbn [set_chunk cr_closed]; rewrite Hcl.
  - split; [apply Hset; unfold i64_max; lia|]. apply orb_true_iff in Ebad as H1. apply step_bad_seek; [by left| |].
    + intros E. specialize (H0 E). destruct H1; breflect; lia.
    + intros E. destruct (H2 E (H2' E)) as [Hx _]. rewrite <- Hx. destruct H1; breflect; lia.
  - unfold in_i64 in Hin. split; [apply Hset; lia|]. apply (step_seek _ _ _ _ _ _ off); [lia|auto|].
    intros E. apply (H2 E (H2' E)). lia.
Qed.

Lemma seq_Close_spec h : inv h -> let '(h', err) := Close h in
  inv h' /\ file_step (o_Size (c_o c)) data (abs h) OClose (RErr err) (abs h').
Proof using Hc.
  intros [Hs Hr]. unfold Close. destruct (cr_closed h) eqn:Hcl.
  { split; [by split; [|rewrite Hcl]|]. unfold abs. rewrite Hcl. constructor. }
  unfold abs at 1. rewrite Hcl. destruct Hs. unfold resetReader. cbn [cr_rc].
  destruct (cr_rc h) as [rc|] eqn:Hh; [destruct (rc_closeErr rc)|].
  all: split; [split; [split; cbn; auto; try done; by rewrite Hh|done]|apply step_close].
Qed.

Lemma seq_Read_spec h k : inv h -> cr_closed h = false -> 0 <= k ->
  exists h' out e, Read c h k = Ret (h', out, e) /\ inv h' /\ cr_closed h' = false /\
    pos h' = pos h + zlen out /\ zdrop (pos h) data = out ++ zdrop (pos h') data /\
    zlen out <= k /\ (e = None -> zlen out = k) /\
    (full = true -> e = None \/ e = Some EOF /\ zdrop (pos h') data = []).
Proof using Hc.
  intros Hinv Hcl Hk. unfold Read. rewrite Hcl.
  destruct (seq_Read_loop_spec (S (Z.to_nat k)) h k [] Hinv Hcl Hk) as (h' & out & e & -> & H); [lia|].
  by exists h', out, e.
Qed.

(** A stopped reader gives nothing but errors. *)
Lemma stopped_Read h k : full = false -> inv h -> stopped h -> 0 < k ->
  exists h' e, Read c h k = Ret (h', [], Some e) /\ inv h' /\ stopped h'.
Proof using Hc.
  intros Hf Hinv (Hcl & Ho & Hlt & rc & Hh & Hd) Hk.
  destruct (seq_Read_spec h k Hinv Hcl ltac:(lia)) as (h' & out & e & Hread & Hinv' & _).
  assert (out = [] /\ exists e', e = Some e') as [-> [e' ->]].
  { unfold Read in Hread. rewrite Hcl in Hread. cbn [Read_loop] in Hread.
    rewrite !Z.gtb_ltb, (proj2 (Z.ltb_lt 0 k)) in Hread by done.
    pose proof Hinv as [Hs Hr]. destruct (Hr Hcl) as [?|(rc' & Hh' & Hle & Hend & _)]; [done|].
    assert (prepare c h = (h, None)) as Hprep.
    { unfold prepare. rewrite Z.gtb_ltb, (proj2 (Z.eqb_neq _ (-1))) by done.
      destruct (0 <? cr_chunkSize h) eqn:Epos; cbn [andb]; breflect; [|done].
      destruct (chunkEnd_reached h (cr_offset h) Hs Epos Hle (Hend Epos)) as (Hiff & _). specialize (Hlt Epos).
      rewrite (proj2 (Z.eqb_neq _ (chunkEnd h))); [done|]. rewrite Hiff. lia. }
    rewrite Hprep in Hread. set (rest := i64 (chunkEnd h - cr_offset h)) in *.
    assert (0 < cr_chunkSize h -> 0 < rest) as Hrest.
    { intros Hpos. destruct (chunkEnd_reached h (cr_offset h) Hs Hpos Hle (Hend Hpos)) as (_ & Hx & _).
      specialize (Hlt Hpos). unfold rest. lia. }
    destruct (if _ && _ then _ else _) as [[buf p]|] eqn:Ebuf; [|done]. cbn [obind] in Hread.
    assert (0 < buf) as Hb.
    { rewrite !Z.gtb_ltb in Ebuf. destruct (rest <? k); cbn [andb] in Ebuf; [destruct (0 <? cr_chunkSize h) eqn:E2; breflect|].
      - destruct (rest <? 0); [done|]. injection Ebuf as <- _. auto.
      - by injection Ebuf as <- _.
      - by injection Ebuf as <- _. }
    rewrite Hh in Hread. cbn [deref obind] in Hread.
    destruct (ReadFull_spec (rc_stream rc) buf ltac:(lia)) as (s' & err & Hfull & _ & _ & Hcase).
    rewrite Hfull, Hd, ztake_nil in *. change (zlen []) with 0 in Hcase. destruct err as [e1|]; [|lia].
    destruct e1; injection Hread as _ <- <-; by eauto. }
  exists h', e'. split; [done|]. split; [done|]. unfold Read in Hread. rewrite Hcl in Hread.
  by destruct (Read_loop_error _ _ _ _ _ _ _ Hf Hinv Hcl Hread) as [?|(? & _)].
Qed.

#[export] Instance sequential_implements : Implements (call c) inv abs (o_Size (c_o c)) data.
Proof using Hc.
  intros h o Hinv Hok. destruct o as [k|offset whence length| |]; cbn [call].
  - destruct (cr_closed h) eqn:Hcl.
    { unfold Read. rewrite Hcl. exists h. eexists. split; [done|]. split; [done|].
      unfold abs. rewrite Hcl. constructor. }
    destruct (seq_Read_spec h k Hinv Hcl Hok) as (h' & out & e & -> & Hinv' & Hcl' & Hp & Hz & Hl & Hn & _).
    exists h'. eexists. split; [done|]. split; [done|]. unfold abs. rewrite Hcl, Hcl', Hp in *.
    constructor; [done|done|]. intros He ?. apply zlen_pos. rewrite Hn by done. lia.
  - destruct Hok as [Ho Hl]. pose proof (RangeSeek_spec h offset whence length Hinv Ho Hl) as Hx.
    destruct (RangeSeek c h offset whence length) as [[h' n] e]. by exists h', (RSeek n e).
  - pose proof (Open_spec h Hinv) as Hx. destruct (Open c h) as [h' e]. destruct Hx as (? & Habs & _).
    exists h', (RErr e). split; [done|]. split; [done|]. rewrite Habs. constructor.
  - pose proof (seq_Close_spec h Hinv) as Hx. destruct (Close h) as [h' e]. by exists h', (RErr e).
Qed.

(** With objects that can be read, the reader gives all the bytes from where it
    is, and then EOF. *)
Lemma sequential_reads : full = true ->
  Reads (Read c) (fun h => inv h /\ cr_closed h = false) (fun h => (zdrop (pos h) data, EOF)).
Proof using Hc.
  intros Hf h k [Hinv Hcl] Hk.
  destruct (seq_Read_spec h k Hinv Hcl ltac:(lia)) as (h' & out & e & -> & Hinv' & Hcl' & Hp & Hz & Hl & Hn & He).
  exists h', out, e. split; [done|]. split; [done|]. destruct (He Hf) as [->|[-> Hrest]].
  - split; [apply zlen_pos; rewrite Hn by done; lia|]. cbn. by rewrite Hz.
  - rewrite Hz, Hrest. by rewrite app_nil_r.
Qed.

End correct.

(** A reader that was just made. *)
Lemma newSequential_inv full o initialChunkSize maxChunkSize c h :
  newSequential o (initial_size initialChunkSize) (max_size initialChunkSize maxChunkSize) = (c, h) ->
  in_i64 initialChunkSize -> in_i64 maxChunkSize -> zlen (o_data o) <= i64_max -> o_Size o <= i64_max ->
  (forall n, answers_ok full (o_data o) (o_answers o n)) ->
  config_ok c full /\ inv c full h /\ cr_closed h = false /\ pos h = 0.
Proof.
  intros [= <- <-] Hi Hm Hd Hs Ha. unfold initial_size, max_size.
  split_and!; [| |done|done].
  - split; cbn; auto; unfold initial_size, in_i64 in *; repeat case_if; breflect; lia || (cbn in *; lia) || idtac.
    all: rewrite ?andb_false_iff in *; breflect; try lia.
    all: destruct (decide (maxChunkSize = -1)); [by left|right].
    all: match goal with H : _ \/ _ |- _ => destruct H as [Hx|Hx]; breflect; lia end.
  - split; [|intros _; by left]. split; cbn; [unfold i64_max; lia| |done|done].
    unfold initial_size, in_i64, i64_min, i64_max in *. case_if; breflect; lia.
Qed.


(** A second chunk that cannot be opened, a seek, and a stream that cannot be
    closed. *)
Definition flaky (n : nat) : answer :=
  match n with
  | 1%nat => AFail (ErrOther 5)
  | 2%nat => AStream 100 EOF [(1%nat, false)] (Some [SFail (ErrOther 6)]) (Some (ErrOther 7))
  | _ => AStream 100 EOF [] None None
  end.


(** ** Where it is not the file one would expect *)

Definition five (answers : nat -> answer) : config * sequential :=
  newSequential (mkObject 5 [1; 2; 3; 4; 5] answers) 2 2.

(** When the next chunk cannot be opened, the read fails, but a second try
    reports the end of the file: the chunk has been moved on and the stream that
    is read is still the one of the chunk before, which is at its end.  The rest
    of the object is lost without an error. *)
Theorem failed_open_then_eof :
  let '(c, h) := five (fun n => if (n =? 1)%nat then AFail (ErrOther 5) else AStream 100 EOF [] None None) in
  exists h', run (call c) h [ORead 4; ORead 2; ORead 2] =
    Ret (h', [RRead [1; 2] (Some (ErrOther 5)); RRead [] (Some EOF); RRead [] (Some EOF)]).
Proof. eexists. vm_compute. reflexivity. Qed.

(** A seek from the current position starts from -1 if there was no read since
    the last seek. *)
Example seek_current_pending :
  let '(c, h) := five whole in
  exists h', run (call c) h [ORangeSeek 0 1 (-1); ORangeSeek 3 0 (-1); ORangeSeek 1 1 (-1); ORead 1] =
    Ret (h', [RSeek 0 (Some ErrorInvalidSeek); RSeek 3 None; RSeek 0 None; RRead [1] None]).
Proof. eexists. vm_compute. reflexivity. Qed.

(** A seek that fails goes to the start. *)
Example bad_seek_rewinds :
  let '(c, h) := five whole in
  exists h', run (call c) h [ORead 2; ORangeSeek 5 0 (-1); ORead 1] =
    Ret (h', [RRead [1; 2] None; RSeek 0 (Some ErrorInvalidSeek); RRead [1] None]).
Proof. eexists. vm_compute. reflexivity. Qed.

(** If the stream of the last chunk cannot be closed, the stream that was opened
    for the next one is never closed. *)
Example close_error_leaks :
  let '(c, h) := five (fun n => AStream 100 EOF [] None (if (n =? 0)%nat then Some (ErrOther 9) else None)) in
  match run (call c) h [ORead 4; OClose] with
  | Ret (h', rs) => rs = [RRead [1; 2] (Some (ErrOther 9)); RErr (Some (ErrOther 9))] /\
                    cr_made h' = 2%nat /\ option_map rc_closeErr (cr_rc h') = Some (Some (ErrOther 9))
  | Panic => False
  end.
Proof. vm_compute. done. Qed.

(** The length of a [RangeSeek] that was followed by another seek before any
    read still counts as set: the chunk after the first has the initial size
    and is not doubled. *)
Example stale_custom :
  let '(c, h) := newSequential (mkObject 9 [1; 2; 3; 4; 5; 6; 7; 8; 9] whole) 2 8 in
  match run (call c) h [ORangeSeek 0 0 3; ORangeSeek 0 0 (-1); ORead 5] with
  | Ret (h', _) => rev (cr_requests h') = [range_options 0 2; range_options 2 2; range_options 4 4]
  | Panic => False
  end.
Proof. vm_compute. done. Qed.

(** At the end of an object that ends with a chunk, a range that begins at the
    end is asked for. *)
Example asks_past_the_end :
  let '(c, h) := newSequential (mkObject 4 [1; 2; 3; 4] whole) 4 4 in
  match run (call c) h [ORead 4; ORead 1] with
  | Ret (h', rs) => rs = [RRead [1; 2; 3; 4] None; RRead [] (Some EOF)] /\
                    cr_requests h' = [range_options 4 4; range_options 0 4]
  | Panic => False
  end.
Proof. vm_compute. done. Qed.

End ChunkedReader.
