(* ===== verification/ParallelReader.v ===== *)
(** * Reading an object with several streams: fs/chunkedreader/parallel.go

    [parallel] downloads the next chunks of an object at the same time, each
    into a buffer of its own, and reads the buffers one after the other.  A
    buffer is the flat array that PoolRW shows it to be.

    A download goes on while the buffer is read: [d_arrive] says how many bytes
    come in between two looks at the buffer.  A call that waits for bytes that
    never come has no result.  With downloads that complete, the reader is shown
    to refine the same file as the sequential one, however the bytes arrive. *)
From S2P Require Import Prelude GoPath Utf8 Streams OpenOptions ChunkedReader PoolRW.

Module ParallelReader.
Import Utf8 Streams OpenOptions ChunkedReader.

Abbreviation flat := PoolRW.flat.

(** What a download does: it cannot be opened, or gives the first [d_cut] bytes
    of its range and then [d_err].  [d_canceled] says that the cancellation by
    [close] comes before its end. *)
Record download : Type := mkDownload {
  d_open : option error;
  d_cut : nat;
  d_err : error;
  d_arrive : list Z;
  d_canceled : bool;
  d_closeErr : option error }.

(** The object: the n-th download that is started is [o_downloads n]. *)
Record Object : Type := mkObject {
  o_Size : Z;
  o_data : bytes;
  o_downloads : nat -> download }.

Record stream : Type := mkStream {
  st_offset : Z;
  st_size : Z;
  st_readBytes : Z;
  st_rw : flat;
  st_coming : bytes;           (* what the download has still to write *)
  st_arrive : list Z;
  st_err : option error;       (* what readFrom sends at its end *)
  st_rc : option (option error) (* the open reader, by the error of its Close *) }.

Record parallel : Type := mkParallel {
  cr_endStream : Z;
  cr_offset : Z;
  cr_chunkSize : Z;
  cr_nstreams : Z;
  cr_streams : list stream;
  cr_closed : bool;
  cr_started : nat }.

(** [newStream] with [readFrom], which runs by itself. *)
Definition newStream (o : Object) (n : nat) (offset size : Z) : stream :=
  let d := o_downloads o n in
  let rw := PoolRW.mkFlat [] 0 false in
  match d_open d with
  | Some e => mkStream offset size 0 rw [] [] (Some (ErrWrapped e)) None
  | None =>
      mkStream offset size 0 rw
        (take (d_cut d) (selected [HashesOption 0; RangeOption offset (i64 (i64 (offset + size) - 1))] (o_data o)))
        (d_arrive d)
        (if d_canceled d then Some Canceled
         else match d_err d with EOF => None | e => Some e end)
        (Some (d_closeErr d))
  end.

(** Time passes: bytes are written to the buffer. *)
Definition arrive (s : stream) : stream :=
  let '(b, rest, later) := match st_arrive s with
                           | [] => (st_coming s, [], [])
                           | a :: later => (ztake a (st_coming s), zdrop a (st_coming s), later)
                           end in
  mkStream (st_offset s) (st_size s) (st_readBytes s)
    (fst (PoolRW.flat_step (st_rw s) (PoolRW.OWrite b))) rest later (st_err s) (st_rc s).

(** [eof] *)
Definition eof (s : stream) : bool := st_readBytes s >=? st_size s.

(** [s.rw.Read(p)] and [s.readBytes += nn] *)
Definition read_rw (s : stream) (k : Z) : stream * bytes * option PoolRW.error :=
  match PoolRW.flat_step (st_rw s) (PoolRW.ORead k) with
  | (rw, PoolRW.RBytes out e) =>
      (mkStream (st_offset s) (st_size s) (st_readBytes s + zlen out) rw (st_coming s) (st_arrive s)
         (st_err s) (st_rc s), out, e)
  | (_, PoolRW.RNum _ _) => (s, [], None)
  end.

(** The loop of [read]: [None] if it waits for ever.  Once everything that is
    to come has come a further turn is like the one before. *)
Fixpoint read_loop (fuel : nat) (s : stream) (k : Z) (acc : bytes) : option (stream * bytes * option error) :=
  match fuel with
  | O => None
  | S fuel' =>
      let '(s, out, err) := read_rw (arrive s) (k - zlen acc) in
      let acc := acc ++ out in
      match err with
      | Some PoolRW.EOF | None =>
          if eof s then Some (s, acc, Some EOF)
          else if zlen acc >=? k then Some (s, acc, None)
          else read_loop fuel' s k acc
      | Some _ => Some (s, acc, Some (ErrOther 1)) (* of a closed buffer *)
      end
  end.

Definition read (s : stream) (k : Z) : option (stream * bytes * option error) :=
  if k =? 0 then Some (s, [], None) else read_loop (2 + length (st_arrive s)) s k [].

(** [errors.Is(err, context.Canceled)] *)
Fixpoint is_canceled (e : error) : bool :=
  match e with Canceled => true | ErrWrapped e => is_canceled e | _ => false end.

(** [close]: wait for the download, close its buffer and its reader. *)
Definition close (s : stream) : option error :=
  let err := match st_err s with
             | Some e => Some e
             | None => match st_rc s with Some ce => ce | None => None end
             end in
  match err with
  | None => None
  | Some e => if is_canceled e then Some ErrorStreamAbandoned
              else if decide (e = EOF) then None else Some (ErrWrapped e)
  end.

Definition BufferSize : Z := 1024 * 1024.

(** [newParallel]: chunks of whole pages. *)
Definition newParallel (chunkSize streams : Z) : parallel :=
  let chunkSize := if chunkSize <? 0 then BufferSize else chunkSize in
  let newChunkSize := i64 (BufferSize * Z.quot chunkSize BufferSize) in
  let newChunkSize := if newChunkSize <? chunkSize then i64 (newChunkSize + BufferSize) else newChunkSize in
  mkParallel 0 0 newChunkSize streams [] false 0.

Definition set_streams (h : parallel) (endStream offset : Z) (streams : list stream) (started : nat) : parallel :=
  mkParallel endStream offset (cr_chunkSize h) (cr_nstreams h) streams (cr_closed h) started.

Section reader.
Variable o : Object.

(** The loop of [_open]: [n] streams more at most. *)
Fixpoint open_loop (n : nat) (h : parallel) : parallel :=
  match n with
  | O => h
  | S n' =>
      let newEndStream := i64 (cr_endStream h + cr_chunkSize h) in
      let '(chunkSize, newEndStream) :=
        if newEndStream >? o_Size o
        then (i64 (o_Size o - cr_endStream h), i64 (cr_endStream h + i64 (o_Size o - cr_endStream h)))
        else (cr_chunkSize h, newEndStream) in
      let s := newStream o (cr_started h) (cr_endStream h) chunkSize in
      let h := set_streams h newEndStream (cr_offset h) (cr_streams h ++ [s]) (S (cr_started h)) in
      if newEndStream >=? o_Size o then h else open_loop n' h
  end.

Definition _open (h : parallel) : parallel * option error :=
  if o_Size o <? 0 then (h, Some ErrUnknownSize)
  else if cr_endStream h >=? o_Size o then (h, None)
  else (open_loop (Z.to_nat (cr_nstreams h - Z.of_nat (length (cr_streams h)))) h, None).

(** [_popStream] *)
Definition _popStream (h : parallel) : parallel * option error :=
  match cr_streams h with
  | [] => (h, None)
  | s :: streams => (set_streams h (cr_endStream h) (cr_offset h) streams (cr_started h), close s)
  end.

(** [_popStreams]: the first error. *)
Definition _popStreams (h : parallel) : parallel * option error :=
  (set_streams h (cr_endStream h) (cr_offset h) [] (cr_started h),
   foldl (fun err s => match err with None => close s | Some e => Some e end) None (cr_streams h)).

(** The loop of [Read].  The error of [stream.read] and of [_popStream] is a
    variable of the loop's body, so a [break] returns the error of [_open],
    which is nil there. *)
Fixpoint Read_loop (fuel : nat) (h : parallel) (k : Z) (acc : bytes)
    : option (parallel * bytes * option error) :=
  match fuel with
  | O => Some (h, acc, None)
  | S fuel' =>
      if zlen acc <? k then
        match _open h with
        | (h, Some e) => Some (h, acc, Some e)
        | (h, None) =>
            match cr_streams h with
            | [] => Some (h, acc, Some EOF)
            | s :: streams =>
                match read s (k - zlen acc) with
                | None => None
                | Some (s, out, err) =>
                    let h := set_streams h (cr_endStream h) (i64 (cr_offset h + zlen out)) (s :: streams)
                               (cr_started h) in
                    let acc := acc ++ out in
                    match err with
                    | Some EOF =>
                        match _popStream h with
                        | (h, None) => Read_loop fuel' h k acc
                        | (h, Some _) => Some (h, acc, None)
                        end
                    | Some _ => Some (h, acc, None)
                    | None => Read_loop fuel' h k acc
                    end
                end
            end
        end
      else Some (h, acc, None)
  end.

Definition Read (h : parallel) (k : Z) : option (parallel * bytes * option error) :=
  if cr_closed h then Some (h, [], Some ErrorFileClosed)
  else Read_loop (S (Z.to_nat k)) h k [].

Definition Close (h : parallel) : parallel * option error :=
  if cr_closed h then (h, Some ErrorFileClosed)
  else _popStreams (mkParallel (cr_endStream h) (cr_offset h) (cr_chunkSize h) (cr_nstreams h)
                      (cr_streams h) true (cr_started h)).

(** The streams that end before the new offset are dropped. *)
Fixpoint ditch (newOffset : Z) (streams : list stream) : list stream :=
  match streams with
  | [] => []
  | s :: rest => if newOffset >=? i64 (st_offset s + st_size s) then ditch newOffset rest else streams
  end.

(** The wait for the bytes before the new offset: [None] if they never come. *)
Fixpoint wait_size (fuel : nat) (s : stream) (n : Z) : option stream :=
  if zlen (PoolRW.fl_data (st_rw s)) <? n
  then match fuel with O => None | S fuel' => wait_size fuel' (arrive s) n end
  else Some s.

(** The seek of the first stream. *)
Definition seek_stream (s : stream) (streamOffset : Z) : option (stream * option PoolRW.error) :=
  let s := mkStream (st_offset s) (st_size s) streamOffset (st_rw s) (st_coming s) (st_arrive s)
             (st_err s) (st_rc s) in
  match wait_size (S (length (st_arrive s))) s streamOffset with
  | None => None
  | Some s =>
      match PoolRW.flat_step (st_rw s) (PoolRW.OSeek streamOffset 0) with
      | (rw, PoolRW.RNum _ e) =>
          Some (mkStream (st_offset s) (st_size s) (st_readBytes s) rw (st_coming s) (st_arrive s)
                  (st_err s) (st_rc s), e)
      | (_, PoolRW.RBytes _ _) => None
      end
  end.

Definition Seek (h : parallel) (offset whence : Z) : option (parallel * Z * option error) :=
  if cr_closed h then Some (h, 0, Some ErrorFileClosed)
  else
    let currentOffset := if whence =? 0 then 0 else if whence =? 2 then o_Size o else cr_offset h in
    let newOffset := i64 (currentOffset + offset) in
    if (newOffset <? 0) || (newOffset >=? o_Size o) then Some (h, 0, Some ErrorInvalidSeek)
    else if newOffset =? cr_offset h then Some (h, cr_offset h, None)
    else
      match ditch newOffset (cr_streams h) with
      | [] => Some (set_streams h newOffset newOffset [] (cr_started h), newOffset, None)
      | s :: streams =>
          if newOffset <? st_offset s
          then Some (set_streams h newOffset newOffset [] (cr_started h), newOffset, None)
          else
            match seek_stream s (i64 (newOffset - st_offset s)) with
            | None => None
            | Some (s, e) =>
                Some (set_streams h (cr_endStream h) newOffset (s :: streams) (cr_started h), newOffset,
                      match e with None => None | Some _ => Some (ErrWrapped (ErrOther 2)) end)
            end
      end.

(** [RangeSeek] *)
Definition RangeSeek (h : parallel) (offset whence length : Z) : option (parallel * Z * option error) :=
  Seek h offset whence.

(** [Open] *)
Definition Open (h : parallel) : parallel * option error := _open h.

End reader.

(** Chunks of 2 bytes with two streams, read in one piece, whose bytes arrive
    in an odd way; a seek into the second stream. *)
Definition slow (n : nat) : download := mkDownload None 100 EOF [1; 0; 0] false None.

Definition two_streams : parallel := mkParallel 0 0 2 2 [] false 0.

Example parallel_1 :
  let o := mkObject 5 [1; 2; 3; 4; 5] slow in
  match Read o two_streams 1 with
  | Some (h, out, e) =>
      match Seek o h 3 0 with
      | Some (h, n, e') =>
          match Read o h 9 with
          | Some (h, out', e'') => Some (out, e, n, e', out', e'', cr_started h)
          | None => None end
      | None => None end
  | None => None
  end = Some ([1], None, 3, None, [4; 5], Some EOF, 3%nat).
Proof. vm_compute. reflexivity. Qed.

(** ** The parallel reader is such a file *)

(** A call that does not return is counted with those that panic. *)
Definition returned {A} (m : option A) : outcome A := match m with Some a => Ret a | None => Panic end.

Definition call (o : Object) (h : parallel) (x : op) : outcome (parallel * result) :=
  match x with
  | ORead k => let! (h, out, e) := returned (Read o h k) in Ret (h, RRead out e)
  | ORangeSeek offset whence length =>
      let! (h, n, e) := returned (RangeSeek o h offset whence length) in Ret (h, RSeek n e)
  | OOpen => let '(h, e) := Open o h in Ret (h, RErr e)
  | OClose => let '(h, e) := Close h in Ret (h, RErr e)
  end.

(** Every download can be opened and gives all of its range; when its bytes
    arrive, how it ends and whether it can be closed does not matter. *)
Definition complete (data : bytes) (d : download) : Prop := d_open d = None /\ (length data <= d_cut d)%nat.

Record object_ok (o : Object) : Prop := {
  ob_size : o_Size o = zlen (o_data o);
  ob_complete n : complete (o_data o) (o_downloads o n) }.

Section correct.
Variable o : Object.
Hypothesis (Ho : object_ok o).

Abbreviation data := (o_data o).
Abbreviation size := (zlen (o_data o)).

(** The bytes of a stream, and those that are still to be read from it. *)
Definition range (s : stream) : bytes := ztake (st_size s) (zdrop (st_offset s) data).
Definition left (s : stream) : bytes := zdrop (st_readBytes s) (range s).

Record good (s : stream) : Prop := {
  go_offset : 0 <= st_offset s;
  go_size : 0 < st_size s;
  go_end : st_offset s + st_size s <= size;
  go_read : 0 <= st_readBytes s <= st_size s;
  go_have : st_readBytes s <= zlen (PoolRW.fl_data (st_rw s));
  go_data : PoolRW.fl_data (st_rw s) ++ st_coming s = range s;
  go_pos : PoolRW.fl_pos (st_rw s) = st_readBytes s;
  go_open : PoolRW.fl_closed (st_rw s) = false }.

Lemma zlen_range s : good s -> zlen (range s) = st_size s.
Proof. intros []. unfold range. zlen. Qed.

Lemma zlen_left s : good s -> zlen (left s) = st_size s - st_readBytes s.
Proof. intros Hg. unfold left. rewrite zlen_zdrop, zlen_range by done. destruct Hg. lia. Qed.

Lemma left_data s : good s -> exists t, zdrop (st_offset s + st_readBytes s) data = left s ++ t /\
  t = zdrop (st_offset s + st_size s) data.
Proof.
  intros Hg. destruct Hg. eexists. split; [|done]. unfold left, range.
  rewrite <- !zdrop_zdrop by lia. rewrite <- (ztake_zdrop (st_size s) (zdrop (st_offset s) data)) at 1.
  rewrite zdrop_le_app; [done|zlen].
Qed.

Lemma newStream_good n offset sz : 0 <= offset -> 0 < sz -> offset + sz <= size -> size <= i64_max ->
  let s := newStream o n offset sz in
  good s /\ st_offset s = offset /\ st_size s = sz /\ st_readBytes s = 0.
Proof using Ho.
  intros H0 H1 H2 H3. destruct (ob_complete o Ho n) as [Hopen Hcut]. unfold newStream. rewrite Hopen.
  split_and!; [|done|done|done]. split; cbn [st_offset st_size st_readBytes st_rw st_coming PoolRW.fl_data PoolRW.fl_pos PoolRW.fl_closed]; try (done || lia).
  unfold range. cbn [app st_offset st_size selected foldl select_step].
  rewrite (i64_id (offset + sz)) by (unfold in_i64, i64_min in *; lia).
  rewrite i64_id by (unfold in_i64, i64_min, i64_max in *; lia). unfold range_bytes.
  rewrite !Z.geb_leb, (proj2 (Z.leb_le 0 offset)), (proj2 (Z.leb_le 0 _)) by lia.
  replace (offset + sz - 1 + 1 - offset) with sz by lia. apply take_ge.
  unfold ztake, zdrop. rewrite length_take, length_drop. lia.
Qed.

(** What stays the same while a stream is used. *)
Definition same_range (s s' : stream) : Prop := st_offset s' = st_offset s /\ st_size s' = st_size s.

Lemma arrive_good s : good s ->
  good (arrive s) /\ same_range s (arrive s) /\ st_readBytes (arrive s) = st_readBytes s /\
  length (st_arrive (arrive s)) = pred (length (st_arrive s)) /\ (st_arrive s = [] -> st_coming (arrive s) = []).
Proof.
  intros [? ? ? ? ? Hd Hp Hcl]. unfold arrive.
  destruct (match st_arrive s with [] => _ | _ => _ end) as [[b rest] later] eqn:E.
  assert (b ++ rest = st_coming s /\ length later = pred (length (st_arrive s)) /\
    (st_arrive s = [] -> rest = [])) as (Hb & Hl & He).
  { destruct (st_arrive s); injection E as <- <- <-; [by rewrite app_nil_r|]. split_and!; [apply ztake_zdrop|done|done]. }
  unfold PoolRW.flat_step. rewrite Hcl.
  split_and!; [|done|done|done|done]. split; cbn; auto; [zlen|]. by rewrite <- app_assoc, Hb.
Qed.

Lemma read_rw_good s k : good s -> 0 <= k ->
  let avail := zdrop (st_readBytes s) (PoolRW.fl_data (st_rw s)) in
  exists s' e, read_rw s k = (s', ztake k avail, e) /\ (e = None \/ e = Some PoolRW.EOF) /\ good s' /\
    same_range s s' /\ st_readBytes s' = st_readBytes s + zlen (ztake k avail) /\
    st_arrive s' = st_arrive s /\ st_coming s' = st_coming s /\
    left s = avail ++ st_coming s /\ left s' = zdrop (zlen (ztake k avail)) (left s).
Proof.
  intros Hg Hk avail. pose proof (zlen_range s Hg) as Hr. destruct Hg as [? ? ? ? ? Hd Hp Hcl].
  assert (zlen (PoolRW.fl_data (st_rw s)) <= st_size s) as Hle by (rewrite <- Hr, <- Hd; zlen).
  unfold read_rw, PoolRW.flat_step. rewrite Hcl, Hp. fold avail. set (out := ztake k avail).
  do 2 eexists. split; [done|]. split; [case_if; auto|].
  assert (st_readBytes s + zlen out <= st_size s) as Hfit by (unfold out, avail; zlen).
  pose proof (zlen_nonneg out). split_and!; try done.
  - split; cbn; auto; [lia|unfold out, avail; zlen].
  - unfold left, avail. rewrite <- Hd. by apply zdrop_le_app.
  - unfold left. cbn. unfold range. cbn. symmetry. apply zdrop_zdrop; lia.
Qed.

(** However the bytes arrive, a read gets all that it asks for or the rest. *)
Lemma read_loop_spec fuel s k acc : good s -> zlen acc < k -> (length (st_arrive s) < fuel)%nat ->
  let out := ztake (k - zlen acc) (left s) in
  exists s', read_loop fuel s k acc = Some (s', acc ++ out, if eof s' then Some EOF else None) /\
    good s' /\ same_range s s' /\ st_readBytes s' = st_readBytes s + zlen out /\
    (eof s' = false -> zlen acc + zlen out = k).
Proof.
  revert s acc. induction fuel as [|fuel IH]; intros s acc Hg Hacc Hfuel out; [lia|]. cbn [read_loop].
  destruct (arrive_good s Hg) as (Hg1 & [Ho1 Hs1] & Hr1 & Hl1 & Hend1). set (s1 := arrive s) in *.
  destruct (read_rw_good s1 (k - zlen acc) Hg1) as (s2 & e & -> & He & Hg2 & [Ho2 Hs2] & Hr2 & Ha2 & Hc2 & Hleft & Hleft2); [lia|].
  set (avail := zdrop (st_readBytes s1) (PoolRW.fl_data (st_rw s1))) in *.
  set (out1 := ztake (k - zlen acc) avail) in *.
  assert (left s1 = left s) as El by (unfold left, range; by rewrite Ho1, Hs1, Hr1). rewrite El in *.
  assert (zlen out1 <= k - zlen acc) as Hout1 by (unfold out1; zlen). pose proof (zlen_nonneg out1).
  pose proof (zlen_left s Hg) as Hlen. pose proof (zlen_nonneg avail). pose proof (zlen_nonneg (st_coming s1)).
  assert (zlen avail + zlen (st_coming s1) = st_size s - st_readBytes s) as Hsum by (rewrite <- Hlen, Hleft; zlen).
  assert (zlen out1 = Z.min (k - zlen acc) (zlen avail)) as Eout1 by (unfold out1; zlen).
  assert (zlen avail = zlen (left s) \/ zlen out1 = k - zlen acc -> out1 = out) as Hsame.
  { intros Hor. unfold out, out1. rewrite Hleft. destruct Hor as [Hall|Hk].
    - assert (st_coming s1 = []) as -> by (apply zlen_0; lia). by rewrite app_nil_r.
    - rewrite ztake_app_le by lia. done. }
  assert (exists s', (if eof s2 then Some (s2, acc ++ out1, Some EOF)
      else if zlen (acc ++ out1) >=? k then Some (s2, acc ++ out1, None) else read_loop fuel s2 k (acc ++ out1)) =
        Some (s', acc ++ out, if eof s' then Some EOF else None) /\
    good s' /\ same_range s s' /\ st_readBytes s' = st_readBytes s + zlen out /\
    (eof s' = false -> zlen acc + zlen out = k)) as Hgoal; [|by destruct He as [->| ->]].
  destruct (eof s2) eqn:Eeof; [|destruct (zlen (acc ++ out1) >=? k) eqn:Ek].
  - unfold eof in Eeof. breflect. assert (out1 = out) as <- by (apply Hsame; lia).
    exists s2. unfold eof. rewrite Z.geb_leb, (proj2 (Z.leb_le _ _)) by lia.
    split_and!; [done|done|split; congruence|lia|done].
  - rewrite Z.geb_leb, zlen_app in Ek. breflect. assert (out1 = out) as <- by (apply Hsame; lia).
    exists s2. rewrite Eeof. split_and!; [done|done|split; congruence|lia|lia].
  - rewrite Z.geb_leb, zlen_app in Ek. breflect. unfold eof in Eeof. breflect.
    assert (st_arrive s <> []) as Hne.
    { intros E. specialize (Hend1 E). rewrite Hend1 in *. change (zlen []) with 0 in *. lia. }
    destruct (IH s2 (acc ++ out1)) as (s' & -> & Hg' & [Ho' Hs'] & Hr' & Hk');
      [done|zlen|rewrite Ha2, Hl1; destruct (st_arrive s); [done|cbn in *; lia]|].
    rewrite zlen_app, Hleft2 in *. exists s'.
    assert (out = out1 ++ ztake (k - (zlen acc + zlen out1)) (zdrop (zlen out1) (left s))) as ->.
    { assert (out1 = avail) as Ea by (apply ztake_all; lia). unfold out. rewrite Hleft, Ea, zdrop_app_eq.
      rewrite ztake_ge_app by lia. do 2 f_equal. lia. }
    rewrite zlen_app, app_assoc. split_and!; [done|done|split; congruence|lia|intros E; specialize (Hk' E); lia].
Qed.

Lemma read_spec s k : good s -> 0 < k -> st_readBytes s < st_size s ->
  exists s' out, read s k = Some (s', out, if eof s' then Some EOF else None) /\
    good s' /\ same_range s s' /\ st_readBytes s' = st_readBytes s + zlen out /\
    0 < zlen out <= k /\ left s = out ++ left s'.
Proof.
  intros Hg Hk Hlt. unfold read. rewrite (proj2 (Z.eqb_neq k 0)) by lia.
  destruct (read_loop_spec (2 + length (st_arrive s)) s k [] Hg) as (s' & -> & Hg' & [Hos Hss] & Hr & Hfull);
    [change (zlen []) with 0; lia|lia|].
  change (zlen []) with 0 in *. rewrite Z.sub_0_r in *. cbn [app].
  exists s', (ztake k (left s)). pose proof (zlen_left s Hg).
  split_and!; [done|done|done|done|zlen|zlen|].
  assert (left s' = zdrop (zlen (ztake k (left s))) (left s)) as ->.
  { unfold left at 1 3. unfold range. rewrite Hos, Hss, Hr. symmetry. apply zdrop_zdrop; [zlen|destruct Hg; lia]. }
  rewrite zdrop_min. symmetry. apply ztake_zdrop.
Qed.

(** ** The streams follow each other *)

Fixpoint chain (from : Z) (l : list stream) (to : Z) : Prop :=
  match l with
  | [] => from = to
  | s :: l => good s /\ st_offset s = from /\ st_readBytes s = 0 /\ chain (from + st_size s) l to
  end.

Lemma par_chain_snoc from l to s : chain from l to -> good s -> st_offset s = to -> st_readBytes s = 0 ->
  chain from (l ++ [s]) (to + st_size s).
Proof.
  revert from. induction l as [|x l IH]; intros from Hc Hg Hs Hr; cbn in *; [subst; split_and!; auto; by rewrite Hs|].
  destruct Hc as (? & ? & ? & ?). auto.
Qed.

Record inv_open (h : parallel) : Prop := {
  io_offset : 0 <= cr_offset h <= size;
  io_end : 0 <= cr_endStream h <= size;
  io_streams : match cr_streams h with
               | [] => cr_endStream h = cr_offset h
               | s :: l => good s /\ st_offset s + st_readBytes s = cr_offset h /\
                           st_readBytes s < st_size s /\ chain (st_offset s + st_size s) l (cr_endStream h)
               end }.

Definition inv (h : parallel) : Prop :=
  0 < cr_chunkSize h /\ size + cr_chunkSize h <= i64_max /\ 0 < cr_nstreams h /\
  (cr_closed h = false -> inv_open h).

(** A stream more at the end. *)
Lemma add_stream h s n : inv_open h -> good s -> st_offset s = cr_endStream h -> st_readBytes s = 0 ->
  inv_open (set_streams h (cr_endStream h + st_size s) (cr_offset h) (cr_streams h ++ [s]) n).
Proof.
  intros [H1 H2 H3] Hg Hs Hr. pose proof Hg as []. split; cbn; [done|lia|].
  destruct (cr_streams h) as [|x l]; cbn.
  - split_and!; auto; [lia|lia|by rewrite Hs].
  - destruct H3 as (? & ? & ? & ?). split_and!; auto. by apply par_chain_snoc.
Qed.

Definition same_open (h h' : parallel) : Prop :=
  cr_offset h' = cr_offset h /\ cr_chunkSize h' = cr_chunkSize h /\ cr_nstreams h' = cr_nstreams h /\
  cr_closed h' = cr_closed h.

Lemma open_loop_spec n h : inv h -> cr_closed h = false -> cr_endStream h < size ->
  inv (open_loop o n h) /\ same_open h (open_loop o n h) /\
  ((0 < n)%nat \/ cr_streams h <> [] -> cr_streams (open_loop o n h) <> []).
Proof using Ho.
  revert h. induction n as [|n IH]; intros h Hinv Hcl Hlt; cbn [open_loop].
  { split_and!; try done. intros [?|?]; [lia|done]. }
  pose proof Hinv as (Hcs & Hfit & Hn & Hopen). specialize (Hopen Hcl). pose proof Hopen as [H1 H2 _].
  rewrite (ob_size o Ho). set (new := i64 (cr_endStream h + cr_chunkSize h)).
  assert (new = cr_endStream h + cr_chunkSize h) as Enew by (apply i64_id; unfold in_i64, i64_min in *; lia).
  assert (forall sz, sz = Z.min (cr_chunkSize h) (size - cr_endStream h) ->
    (if new >? size then (i64 (size - cr_endStream h), i64 (cr_endStream h + i64 (size - cr_endStream h)))
     else (cr_chunkSize h, new)) = (sz, cr_endStream h + sz)) as Eq.
  { intros sz ->. rewrite (i64_id (size - cr_endStream h)) by (unfold in_i64, i64_min in *; lia).
    rewrite i64_id by (unfold in_i64, i64_min in *; lia). rewrite Z.gtb_ltb. case_if; breflect; f_equal; lia. }
  rewrite (Eq _ eq_refl). clear Eq. set (sz := Z.min (cr_chunkSize h) (size - cr_endStream h)).
  destruct (newStream_good (cr_started h) (cr_endStream h) sz) as (Hg & Hso & Hss & Hsr); [lia|lia|lia|lia|].
  set (s := newStream o (cr_started h) (cr_endStream h) sz) in *.
  pose proof (add_stream h s (S (cr_started h)) Hopen Hg Hso Hsr) as Hopen'. rewrite Hss in Hopen'.
  set (h' := set_streams h (cr_endStream h + sz) _ _ _) in *.
  assert (inv h') as Hinv' by (split_and!; done).
  assert (cr_streams h' <> []) as Hne by (cbn; by destruct (cr_streams h)).
  case_if; breflect; [by split_and!|].
  destruct (IH h' Hinv' Hcl) as (? & (? & ? & ? & ?) & Hx); [cbn; lia|]. split_and!; try done. intros _. auto.
Qed.

Lemma _open_spec h : inv h -> cr_closed h = false ->
  let '(h', err) := _open o h in
  err = None /\ inv h' /\ same_open h h' /\ (cr_streams h' = [] -> cr_offset h' = size).
Proof using Ho.
  intros Hinv Hcl. unfold _open. rewrite (ob_size o Ho), (proj2 (Z.ltb_ge _ 0)) by apply zlen_nonneg.
  pose proof Hinv as (_ & _ & Hn & Hopen). destruct (Hopen Hcl) as [H1 H2 H3].
  case_if; breflect.
  - split_and!; try done. intros Enil. rewrite Enil in H3. lia.
  - destruct (open_loop_spec (Z.to_nat (cr_nstreams h - Z.of_nat (length (cr_streams h)))) h Hinv Hcl) as (? & ? & Hne); [done|].
    split_and!; try done. intros Enil. exfalso. apply Hne; [|done].
    destruct (cr_streams h); [left; cbn; lia|by right].
Qed.

Lemma par_Read_loop_spec fuel h k acc : inv h -> cr_closed h = false -> zlen acc <= k ->
  (Z.to_nat (k - zlen acc) < fuel)%nat ->
  exists h' out e, Read_loop o fuel h k acc = Some (h', acc ++ out, e) /\ inv h' /\ cr_closed h' = false /\
    cr_offset h' = cr_offset h + zlen out /\ zdrop (cr_offset h) data = out ++ zdrop (cr_offset h') data /\
    zlen acc + zlen out <= k /\ (e = None -> zlen acc < k -> out <> []) /\
    (e = None \/ e = Some EOF /\ zdrop (cr_offset h') data = []).
Proof using Ho.
  revert h acc. induction fuel as [|fuel IH]; intros h acc Hinv Hcl Hacc Hfuel; [lia|]. cbn [Read_loop].
  case_if; breflect.
  2:{ exists h, [], None. rewrite app_nil_r. change (zlen []) with 0. split_and!; auto; lia. }
  pose proof (_open_spec h Hinv Hcl) as Hop. destruct (_open o h) as [h1 err].
  destruct Hop as (-> & Hinv1 & (Eo & Ecs & En & Ecl) & Hnil). rewrite <- Eo. rewrite Hcl in Ecl.
  pose proof Hinv1 as (Hcs & Hfit & Hn & Hopen). specialize (Hopen Ecl). pose proof Hopen as [H1 H2 H3].
  destruct (cr_streams h1) as [|s l] eqn:Est.
  { exists h1, [], (Some EOF). rewrite app_nil_r. change (zlen []) with 0.
    split_and!; auto; try lia; try done. right. split; [done|]. apply zdrop_all. rewrite (Hnil eq_refl). lia. }
  destruct H3 as (Hg & Hoff & Hlt & Hchain).
  destruct (read_spec s (k - zlen acc) Hg ltac:(lia) Hlt) as (s' & out & -> & Hg' & [Eso Ess] & Hr & Hout & Hleft).
  destruct (left_data s Hg) as (t & Ht & Et). destruct (left_data s' Hg') as (t' & Ht' & Et').
  assert (zdrop (cr_offset h1) data = out ++ zdrop (cr_offset h1 + zlen out) data) as Hdata.
  { rewrite <- Hoff, Ht, Hleft, <- app_assoc. f_equal.
    replace (st_offset s + st_readBytes s + zlen out) with (st_offset s' + st_readBytes s') by lia.
    rewrite Ht'. f_equal. by rewrite Et, Et', Eso, Ess. }
  assert (i64 (cr_offset h1 + zlen out) = cr_offset h1 + zlen out) as Ei.
  { apply i64_id. pose proof Hg' as []. unfold in_i64, i64_min in *. lia. }
  rewrite Ei. set (h2 := set_streams h1 _ _ _ _).
  assert (forall h3, inv h3 -> cr_closed h3 = false -> cr_offset h3 = cr_offset h1 + zlen out ->
    exists h' out' e, Read_loop o fuel h3 k (acc ++ out) = Some (h', acc ++ out', e) /\ inv h' /\ cr_closed h' = false /\
    cr_offset h' = cr_offset h1 + zlen out' /\ zdrop (cr_offset h1) data = out' ++ zdrop (cr_offset h') data /\
    zlen acc + zlen out' <= k /\ (e = None -> zlen acc < k -> out' <> []) /\
    (e = None \/ e = Some EOF /\ zdrop (cr_offset h') data = [])) as Hnext.
  { intros h3 Hinv3 Hcl3 Ho3.
    destruct (IH h3 (acc ++ out) Hinv3 Hcl3) as (h' & out' & e & -> & ? & ? & Ho' & Hz' & Hl' & _ & He'); [zlen|zlen|].
    exists h', (out ++ out'), e. rewrite !zlen_app, app_assoc in *. split_and!; auto.
    - lia.
    - rewrite Hdata, <- Ho3, Hz'. by rewrite app_assoc.
    - lia.
    - intros _ _ Enil. apply app_nil in Enil as [-> _]. change (zlen []) with 0 in Hout. lia. }
  destruct (eof s') eqn:Eeof; unfold eof in Eeof; rewrite Z.geb_leb in Eeof; breflect.
  - pose proof Hg' as []. assert (inv_open (set_streams h2 (cr_endStream h2) (cr_offset h2) l (cr_started h2))) as Hpop.
    { split; cbn; [lia|done|]. destruct l as [|x l]; cbn in Hchain; [lia|]. destruct Hchain as (Hgx & Hox & Hrx & Hcx).
      pose proof Hgx as []. split_and!; auto; [lia|lia|]. by rewrite Hox. }
    cbn [_popStream h2 set_streams cr_streams]. destruct (close s') as [e|].
    + do 3 eexists. split; [done|]. split_and!; auto; [split_and!; auto|lia|]. intros _ _ ->. change (zlen []) with 0 in Hout. lia.
    + apply Hnext; [split_and!; auto|done|done].
  - apply Hnext; [|done|done]. split_and!; auto. intros _. pose proof Hg' as []. split; cbn; [lia|done|].
    split_and!; auto; [lia|]. by rewrite Eso, Ess.
Qed.

Lemma ditch_spec from l to new : chain from l to -> size <= i64_max ->
  match ditch new l with
  | [] => True
  | s :: l' => good s /\ st_readBytes s = 0 /\ new < st_offset s + st_size s /\
               chain (st_offset s + st_size s) l' to
  end.
Proof.
  intros Hc Hsz. revert from Hc. induction l as [|s l IH]; intros from; cbn; [done|].
  intros (Hg & Hs & Hr & Hc). pose proof Hg as [].
  rewrite i64_id by (unfold in_i64, i64_min in *; lia). rewrite Z.geb_leb. case_if; breflect; [by eapply IH|].
  rewrite Hs in *. by split_and!.
Qed.

(** A seek within a stream waits for the bytes and goes there. *)
Lemma wait_size_spec fuel s n : (length (st_arrive s) < fuel)%nat ->
  PoolRW.fl_data (st_rw s) ++ st_coming s = range s -> n <= zlen (range s) -> PoolRW.fl_closed (st_rw s) = false ->
  exists s', wait_size fuel s n = Some s' /\ same_range s s' /\ st_readBytes s' = st_readBytes s /\
    n <= zlen (PoolRW.fl_data (st_rw s')) /\ PoolRW.fl_data (st_rw s') ++ st_coming s' = range s' /\
    PoolRW.fl_closed (st_rw s') = false.
Proof.
  revert s. induction fuel as [|fuel IH]; intros s Hf Hd Hn Hcl; [lia|]. cbn [wait_size].
  destruct (zlen (PoolRW.fl_data (st_rw s)) <? n) eqn:E; breflect.
  2:{ exists s. by split_and!. }
  assert (PoolRW.fl_data (st_rw (arrive s)) ++ st_coming (arrive s) = range (arrive s) /\
    same_range s (arrive s) /\ st_readBytes (arrive s) = st_readBytes s /\ PoolRW.fl_closed (st_rw (arrive s)) = false /\
    length (st_arrive (arrive s)) = pred (length (st_arrive s)) /\ (st_arrive s = [] -> st_coming (arrive s) = []))
    as (Hd' & [Ho' Hs'] & Hr' & Hcl' & Hl' & Hend).
  { unfold arrive. destruct (match st_arrive s with [] => _ | _ => _ end) as [[b rest] later] eqn:E'.
    assert (b ++ rest = st_coming s /\ length later = pred (length (st_arrive s)) /\
      (st_arrive s = [] -> rest = [])) as (Hb & Hl & He).
    { destruct (st_arrive s); injection E' as <- <- <-; [by rewrite app_nil_r|]. split_and!; [apply ztake_zdrop|done|done]. }
    unfold PoolRW.flat_step. rewrite Hcl. split_and!; try done. cbn. by rewrite <- app_assoc, Hb. }
  assert (range (arrive s) = range s) as Er by (unfold range; by rewrite Ho', Hs').
  destruct fuel as [|fuel'].
  - assert (st_arrive s = []) as Ea by (destruct (st_arrive s); [done|cbn in Hf; lia]).
    specialize (Hend Ea). rewrite Hend, app_nil_r in Hd'. cbn [wait_size].
    rewrite Hd', Er, (proj2 (Z.ltb_ge _ _)) by lia. exists (arrive s).
    split_and!; [done|done|done|by rewrite Hd', Er|by rewrite Hend, app_nil_r|done].
  - destruct (decide (st_arrive s = [])) as [Ea|Ea].
    + specialize (Hend Ea). rewrite Hend, app_nil_r in Hd'. cbn [wait_size].
      rewrite Hd', Er, (proj2 (Z.ltb_ge _ _)) by lia. exists (arrive s).
      split_and!; [done|done|done|by rewrite Hd', Er|by rewrite Hend, app_nil_r|done].
    + destruct (IH (arrive s)) as (s' & -> & [? ?] & ? & ? & ? & ?); [|done|by rewrite Er|done|].
      { rewrite Hl'. destruct (st_arrive s); [done|cbn in *; lia]. }
      exists s'. split_and!; auto; [split; congruence|congruence].
Qed.

Lemma seek_stream_spec s n : good s -> 0 <= n < st_size s ->
  exists s', seek_stream s n = Some (s', None) /\ good s' /\ same_range s s' /\ st_readBytes s' = n.
Proof.
  intros Hg Hn. pose proof (zlen_range s Hg) as Hr. destruct Hg as [? ? ? ? ? Hd Hp Hcl]. unfold seek_stream.
  set (s1 := mkStream _ _ n _ _ _ _ _).
  destruct (wait_size_spec (S (length (st_arrive s1))) s1 n) as (s' & -> & [Eo Es] & Er & Hle & Hd' & Hcl');
    [lia|done|change (range s1) with (range s); lia|done|].
  unfold PoolRW.flat_step, PoolRW.flat_seek. rewrite Hcl', (proj2 (Z.ltb_ge n 0)), Z.gtb_ltb, (proj2 (Z.ltb_ge _ n)) by lia.
  cbn [Z.eqb]. eexists. split; [done|]. cbn [st_offset st_size st_readBytes].
  split_and!; [|by split|done]. split; cbn; auto; cbn in *; rewrite ?Eo, ?Es, ?Er; lia.
Qed.

Definition abs (h : parallel) : file := mkFile (if cr_closed h then 0 else cr_offset h) (cr_closed h).

Lemma Seek_moves h new : inv h -> cr_closed h = false -> 0 <= new < size ->
  exists h', match ditch new (cr_streams h) with
      | [] => Some (set_streams h new new [] (cr_started h), new, None)
      | s :: streams =>
          if new <? st_offset s
          then Some (set_streams h new new [] (cr_started h), new, None)
          else
            match seek_stream s (i64 (new - st_offset s)) with
            | None => None
            | Some (s, e) =>
                Some (set_streams h (cr_endStream h) new (s :: streams) (cr_started h), new,
                      match e with None => None | Some _ => Some (ErrWrapped (ErrOther 2)) end)
            end
      end = Some (h', new, None) /\ inv h' /\ cr_closed h' = false /\ cr_offset h' = new.
Proof using Ho.
  intros Hinv Hcl Hnew. pose proof Hinv as (Hcs & Hfit & Hn & Hopen). destruct (Hopen Hcl) as [H1 H2 H3].
  assert (match ditch new (cr_streams h) with
    | [] => True
    | s :: l' => good s /\ new < st_offset s + st_size s /\ chain (st_offset s + st_size s) l' (cr_endStream h)
    end) as Hd.
  { destruct (cr_streams h) as [|s l]; [done|]. destruct H3 as (Hg & _ & _ & Hc). cbn [ditch].
    pose proof Hg as []. rewrite i64_id by (unfold in_i64, i64_min in *; lia).
    rewrite Z.geb_leb. case_if; breflect; [|by split_and!].
    pose proof (ditch_spec _ l _ new Hc ltac:(lia)) as Hx. destruct (ditch new l) as [|s' l']; [done|].
    destruct Hx as (? & _ & ? & ?). by split_and!. }
  assert (inv (set_streams h new new [] (cr_started h))) as Hreset.
  { split_and!; auto. intros _. split; cbn; lia. }
  destruct (ditch new (cr_streams h)) as [|s l]; [by eexists|]. destruct Hd as (Hg & Hlt & Hc).
  case_if; breflect; [by eexists|]. pose proof Hg as [].
  rewrite i64_id by (unfold in_i64, i64_min in *; lia).
  destruct (seek_stream_spec s (new - st_offset s) Hg ltac:(lia)) as (s' & -> & Hg' & [Eo Es] & Er).
  eexists. split; [done|]. split; [|done]. split_and!; auto. intros _. split; cbn; [lia|lia|].
  rewrite Eo, Es, Er. split_and!; auto; lia.
Qed.

Lemma par_Seek_spec h offset whence length : inv h -> in_i64 offset ->
  exists h' n e, Seek o h offset whence = Some (h', n, e) /\ inv h' /\
    file_step size data (abs h) (ORangeSeek offset whence length) (RSeek n e) (abs h').
Proof using Ho.
  intros Hinv Hoff. unfold Seek. destruct (cr_closed h) eqn:Hcl.
  { do 3 eexists. split; [done|]. split; [done|]. unfold abs. rewrite Hcl. constructor. }
  rewrite (ob_size o Ho). pose proof Hinv as (Hcs & Hfit & _ & _). pose proof (zlen_nonneg data) as Hsz.
  set (base := if whence =? 0 then 0 else _). set (new := i64 (base + offset)).
  assert (whence = 0 -> new = offset) as H0.
  { intros ->. unfold new, base. cbn. by apply i64_id. }
  assert (whence = 2 -> (0 <= new < size <-> 0 <= size + offset < size) /\ (0 <= new < size -> new = size + offset)) as H2.
  { intros ->. unfold new, base. cbn [Z.eqb Pos.eqb]. set (z := size + offset).
    destruct (decide (z <= i64_max)).
    - rewrite i64_id by (unfold in_i64, i64_min in *; lia). lia.
    - rewrite i64_over by (unfold in_i64, i64_max, i64_min in *; lia). unfold in_i64, i64_max, i64_min in *. lia. }
  destruct ((new <? 0) || (new >=? size)) eqn:Ebad.
  { exists h, 0, (Some ErrorInvalidSeek). split; [done|]. split; [done|]. unfold abs. rewrite Hcl.
    apply orb_true_iff in Ebad. apply step_bad_seek; [by right| |].
    - intros E. specialize (H0 E). destruct Ebad; breflect; lia.
    - intros E. destruct (H2 E) as [Hx _]. rewrite <- Hx. destruct Ebad; breflect; lia. }
  breflect. assert (forall h', cr_closed h' = false -> cr_offset h' = new ->
    file_step size data (abs h) (ORangeSeek offset whence length) (RSeek new None) (abs h')) as Hok.
  { intros h' Hcl' Eo. unfold abs. rewrite Hcl, Hcl', Eo. apply step_seek; [lia|auto|].
    intros E. apply (H2 E). lia. }
  case_if; breflect.
  { exists h, new, None. split; [congruence|]. auto. }
  destruct (Seek_moves h new Hinv Hcl ltac:(lia)) as (h' & -> & ? & ? & ?). exists h', new, None. auto.
Qed.

Lemma par_Read_spec h k : inv h -> cr_closed h = false -> 0 <= k ->
  exists h' out e, Read o h k = Some (h', out, e) /\ inv h' /\ cr_closed h' = false /\
    cr_offset h' = cr_offset h + zlen out /\ zdrop (cr_offset h) data = out ++ zdrop (cr_offset h') data /\
    zlen out <= k /\ (e = None -> 0 < k -> out <> []) /\
    (e = None \/ e = Some EOF /\ zdrop (cr_offset h') data = []).
Proof using Ho.
  intros Hinv Hcl Hk. unfold Read. rewrite Hcl.
  destruct (par_Read_loop_spec (S (Z.to_nat k)) h k [] Hinv Hcl) as (h' & out & e & -> & H);
    [change (zlen []) with 0; lia|change (zlen []) with 0; lia|]. by exists h', out, e.
Qed.

(** [Open] on a closed reader starts downloads again, but it stays closed. *)
Lemma open_loop_closed n h : inv h -> cr_closed h = true ->
  cr_closed (open_loop o n h) = true /\ inv (open_loop o n h).
Proof using Ho.
  revert h. induction n as [|n IH]; intros h Hinv Hcl; cbn [open_loop]; [done|].
  destruct (if _ >? _ then _ else _) as [sz new]. set (h' := set_streams h _ _ _ _).
  assert (inv h') by (destruct Hinv as (? & ? & ? & _); split_and!; auto; cbn; by rewrite Hcl).
  case_if; [done|]. by apply IH.
Qed.

Lemma _open_closed h : inv h -> cr_closed h = true ->
  cr_closed (_open o h).1 = true /\ inv (_open o h).1.
Proof using Ho. intros Hinv Hcl. unfold _open. repeat case_if; try done. by apply open_loop_closed. Qed.

#[export] Instance parallel_implements : Implements (call o) inv abs size data.
Proof using Ho.
  intros h x Hinv Hok. destruct x as [k|offset whence length| |]; cbn [call].
  - destruct (cr_closed h) eqn:Hcl.
    { unfold Read. rewrite Hcl. do 2 eexists. split; [done|]. split; [done|]. unfold abs. rewrite Hcl. constructor. }
    destruct (par_Read_spec h k Hinv Hcl Hok) as (h' & out & e & -> & Hinv' & Hcl' & Eo & Hz & Hl & Hn & _).
    do 2 eexists. split; [done|]. split; [done|]. unfold abs. rewrite Hcl, Hcl', Eo in *. by constructor.
  - destruct Hok as [Hoff _]. unfold RangeSeek.
    destruct (par_Seek_spec h offset whence length Hinv Hoff) as (h' & n & e & -> & ? & ?). by do 2 eexists.
  - unfold Open. destruct (cr_closed h) eqn:Hcl.
    + destruct (_open_closed h Hinv Hcl) as [Hcl' Hinv']. destruct (_open o h) as [h' e]. cbn in Hcl', Hinv'.
      do 2 eexists. split; [done|]. split; [done|]. unfold abs. rewrite Hcl, Hcl'. constructor.
    + pose proof (_open_spec h Hinv Hcl) as Hx. destruct (_open o h) as [h' e].
      destruct Hx as (_ & Hinv' & (Eo & _ & _ & Ecl) & _). do 2 eexists. split; [done|]. split; [done|].
      unfold abs. rewrite Ecl, Eo. constructor.
  - unfold Close. destruct (cr_closed h) eqn:Hcl.
    { do 2 eexists. split; [done|]. split; [done|]. unfold abs. rewrite Hcl. constructor. }
    destruct Hinv as (? & ? & ? & _). do 2 eexists. split; [done|]. split; [by split_and!|].
    unfold abs. cbn. rewrite Hcl. constructor.
Qed.

Lemma parallel_reads :
  Reads (fun h k => returned (Read o h k)) (fun h => inv h /\ cr_closed h = false)
    (fun h => (zdrop (cr_offset h) data, EOF)).
Proof using Ho.
  intros h k [Hinv Hcl] Hk.
  destruct (par_Read_spec h k Hinv Hcl ltac:(lia)) as (h' & out & e & -> & Hinv' & Hcl' & Hp & Hz & Hl & Hn & He).
  exists h', out, e. split; [done|]. split; [done|]. destruct He as [->|[-> Hrest]].
  - split; [by apply Hn|]. cbn. by rewrite Hz.
  - rewrite Hz, Hrest. by rewrite app_nil_r.
Qed.

End correct.

(** The chunks are whole pages, at least as long as asked for. *)
Lemma newParallel_size chunkSize streams : in_i64 chunkSize -> chunkSize <> 0 ->
  chunkSize + BufferSize <= i64_max ->
  let cs := cr_chunkSize (newParallel chunkSize streams) in
  0 < cs /\ cs mod BufferSize = 0 /\ chunkSize <= cs < Z.max chunkSize 1 + BufferSize.
Proof.
  intros Hin Hnz Hfit. unfold newParallel. cbn [cr_chunkSize].
  set (c1 := if chunkSize <? 0 then BufferSize else chunkSize).
  assert (0 < c1 /\ chunkSize <= c1 /\ c1 + BufferSize <= Z.max chunkSize BufferSize + BufferSize /\ (chunkSize < 0 -> c1 = BufferSize) /\ (0 < chunkSize -> c1 = chunkSize))
    as (Hpos & Hle & Hub & Hneg & Hsame) by (unfold c1, BufferSize; case_if; breflect; lia).
  assert (BufferSize = 1048576) as Eb by reflexivity. rewrite Z.quot_div_nonneg by lia.
  pose proof (Z.div_mod c1 BufferSize ltac:(lia)) as Hdm. pose proof (Z.mod_pos_bound c1 BufferSize ltac:(lia)) as Hm.
  pose proof (Z.div_pos c1 BufferSize ltac:(lia) ltac:(lia)) as Hq.
  set (q := c1 / BufferSize) in *. set (r := c1 mod BufferSize) in *.
  assert (c1 <= i64_max - BufferSize) as Hc1 by (unfold i64_max in *; lia).
  rewrite (i64_id (BufferSize * q)) by (unfold in_i64, i64_min, i64_max in *; lia).
  case_if; breflect.
  - rewrite i64_id by (unfold in_i64, i64_min, i64_max in *; lia).
    split_and!; [lia| |lia|lia]. replace (BufferSize * q + BufferSize) with ((q + 1) * BufferSize) by lia.
    apply Z.mod_mul. lia.
  - split_and!; [lia| |lia|lia]. rewrite Z.mul_comm. apply Z.mod_mul. lia.
Qed.

(** C32: the parallel chunked reader is a file with a position.  If the
    downloads give their ranges, then for any chunk size, any number of streams
    and however the bytes of the downloads arrive, any sequence of reads, seeks,
    opens and closes returns, every read gives the bytes of the object at the
    position, and a seek goes where it says or fails and leaves the position. *)
Theorem parallel_refines (o : Object) (chunkSize streams : Z) (ops : list op)
  (Hobj : object_ok o) (Hin : in_i64 chunkSize) (Hnz : chunkSize <> 0) (Hstreams : 0 < streams)
  (Hfit : zlen (o_data o) + Z.max chunkSize 1 + BufferSize <= i64_max) (Hops : Forall op_ok ops) :
  exists h' rs f, run (call o) (newParallel chunkSize streams) ops = Ret (h', rs) /\
    file_run (o_Size o) (o_data o) (mkFile 0 false) ops rs f.
Proof.
  pose proof (zlen_nonneg (o_data o)) as Hd.
  destruct (newParallel_size chunkSize streams Hin Hnz) as (Hpos & _ & Hle); [lia|].
  assert (inv o (newParallel chunkSize streams)) as Hinv.
  { split_and!; [done|lia|done|]. intros _. split; cbn; lia. }
  pose proof (parallel_implements o Hobj) as HI.
  destruct (run_spec (call o) (inv o) abs _ _ ops _ Hinv Hops) as (h' & rs & Hrun & _ & Hf).
  exists h', rs, (abs h'). split; [done|]. by rewrite (ob_size o Hobj).
Qed.

Lemma parallel_refines_witness : exists h' rs f,
  run (call (mkObject 5 [1; 2; 3; 4; 5] slow)) (newParallel 7 3) [ORead 2; ORangeSeek 1 1 (-1); ORead 9; OClose; ORead 1] = Ret (h', rs) /\
  file_run 5 [1; 2; 3; 4; 5] (mkFile 0 false) [ORead 2; ORangeSeek 1 1 (-1); ORead 9; OClose; ORead 1] rs f.
Proof.
  apply (parallel_refines (mkObject 5 [1; 2; 3; 4; 5] slow) 7 3).
  - split; [reflexivity|]. intros n. split; [reflexivity|]. cbn. lia.
  - vm_compute. done.
  - done.
  - done.
  - vm_compute. done.
  - repeat constructor; vm_compute; done.
Defined.

(** ** [New] *)

Inductive reader : Type :=
  | Sequential (c : config) (h : sequential)
  | Parallel (h : parallel).

Definition New (o : ChunkedReader.Object) (initialChunkSize maxChunkSize streams : Z) : reader :=
  if one_stream o streams
  then let '(c, h) := newSequential o (initial_size initialChunkSize) (max_size initialChunkSize maxChunkSize) in
       Sequential c h
  else Parallel (newParallel (initial_size initialChunkSize) streams).

(** A caller that goes to an offset and reads with buffers of the given sizes
    until there is an error. *)
Definition read_from (r : reader) (o : Object) (offset length : Z) (sizes : list Z) : outcome (bytes * option error) :=
  match r with
  | Sequential c h =>
      match ChunkedReader.RangeSeek c h offset 0 length with
      | (_, _, Some e) => Ret ([], Some e)
      | (h, _, None) => let! (_, out, e) := drain (ChunkedReader.Read c) sizes h in Ret (out, e)
      end
  | Parallel h =>
      let! (h, _, e) := returned (RangeSeek o h offset 0 length) in
      match e with
      | Some e => Ret ([], Some e)
      | None => let! (_, out, e) := drain (fun h k => returned (Read o h k)) sizes h in Ret (out, e)
      end
  end.

Lemma seek_step_start size data pos offset length n e pos' : 0 <= offset < size ->
  file_step size data (mkFile pos false) (ORangeSeek offset 0 length) (RSeek n e) (mkFile pos' false) ->
  pos' = offset /\ e = None.
Proof. intros Ho Hs. inversion Hs; subst; naive_solver. Qed.

(** C23: whichever reader [New] chooses, and for all chunk sizes and numbers of
    streams, one that seeks to an offset in the object and reads to the end gets
    the bytes from that offset on, each once and in order, and then EOF. *)
Theorem chunked_readers_agree (so : ChunkedReader.Object) (o : Object)
    (initialChunkSize maxChunkSize streams offset length : Z) (sizes : list Z)
  (Hdata : ChunkedReader.o_data so = o_data o) (Hsize : ChunkedReader.o_Size so = zlen (o_data o))
  (Hanswers : forall n, answers_ok true (o_data o) (ChunkedReader.o_answers so n)) (Hobj : object_ok o)
  (Hinit : in_i64 initialChunkSize) (Hmax : in_i64 maxChunkSize) (Hlength : in_i64 length)
  (Hfit : zlen (o_data o) + Z.max initialChunkSize 1 + BufferSize <= i64_max)
  (Hoffset : 0 <= offset < zlen (o_data o))
  (Hsizes : Forall (fun k => 0 < k) sizes)
  (Henough : zlen (o_data o) - offset < Z.of_nat (List.length sizes)) :
  read_from (New so initialChunkSize maxChunkSize streams) o offset length sizes =
    Ret (zdrop offset (o_data o), Some EOF).
Proof.
  assert (in_i64 offset) as Hin by (unfold in_i64, i64_min, BufferSize in *; lia).
  unfold New, one_stream. destruct ((streams <=? 1) || _) eqn:Eone.
  - destruct (newSequential _ _ _) as [c h] eqn:Enew. cbn [read_from].
    destruct (newSequential_inv true so _ _ c h Enew Hinit Hmax) as (Hc & Hinv & Hcl & _);
      [rewrite Hdata; unfold BufferSize in *; lia|unfold BufferSize in *; lia|by rewrite Hdata|].
    assert (c_o c = so) as Eo by (by injection Enew as <- <-).
    pose proof (RangeSeek_spec c true Hc h offset 0 length Hinv Hin Hlength) as Hseek.
    destruct (ChunkedReader.RangeSeek c h offset 0 length) as [[h1 n] e]. destruct Hseek as [Hinv1 Hstep].
    unfold ChunkedReader.abs in Hstep. rewrite Hcl in Hstep. rewrite Eo, Hsize in Hstep.
    destruct (ChunkedReader.cr_closed h1) eqn:Hcl1; [by inversion Hstep|].
    destruct (seek_step_start _ _ _ _ _ _ _ _ Hoffset Hstep) as [Hp ->].
    pose proof (sequential_reads c true Hc eq_refl) as HR.
    destruct (drain_spec (ChunkedReader.Read c) _ _ sizes h1 (conj Hinv1 Hcl1) Hsizes) as (h2 & -> & _);
      cbn [fst snd]; rewrite Hp, Eo, Hdata; [zlen|done].
  - apply orb_false_iff in Eone as [Estreams _]. breflect. cbn [read_from]. pose proof (zlen_nonneg (o_data o)).
    assert (in_i64 (initial_size initialChunkSize) /\ initial_size initialChunkSize <> 0 /\
      initial_size initialChunkSize <= Z.max initialChunkSize 1) as (Hi1 & Hi2 & Hi3).
    { unfold initial_size, in_i64, i64_min, i64_max in *. case_if; breflect; lia. }
    destruct (newParallel_size (initial_size initialChunkSize) streams Hi1 Hi2) as (Hpos & _ & Hle); [lia|].
    assert (inv o (newParallel (initial_size initialChunkSize) streams)) as Hinv.
    { split_and!; [done|lia|cbn; lia|]. intros _. split; cbn; lia. }
    unfold RangeSeek. destruct (par_Seek_spec o Hobj _ offset 0 length Hinv Hin) as (h1 & n & e & -> & Hinv1 & Hstep).
    cbn [returned obind]. unfold abs in Hstep. cbn [newParallel cr_closed] in Hstep.
    destruct (cr_closed h1) eqn:Hcl1; [by inversion Hstep|].
    destruct (seek_step_start _ _ _ _ _ _ _ _ Hoffset Hstep) as [Hp ->].
    pose proof (parallel_reads o Hobj) as HR.
    destruct (drain_spec (fun h k => returned (Read o h k)) _ _ sizes h1 (conj Hinv1 Hcl1) Hsizes) as (h2 & -> & _);
      cbn [fst snd]; rewrite Hp; [zlen|done].
Qed.

Definition some_bytes : bytes := [1; 2; 3; 4; 5].

Lemma chunked_readers_agree_witness :
  read_from (New (ChunkedReader.mkObject 5 some_bytes whole) 2 4 1) (mkObject 5 some_bytes slow) 2 3 [2; 1; 1; 1] =
    Ret ([3; 4; 5], Some EOF) /\
  read_from (New (ChunkedReader.mkObject 5 some_bytes whole) 2 4 3) (mkObject 5 some_bytes slow) 2 3 [2; 1; 1; 1] =
    Ret ([3; 4; 5], Some EOF).
Proof.
  split; apply (chunked_readers_agree (ChunkedReader.mkObject 5 some_bytes whole) (mkObject 5 some_bytes slow)).
  1,12: reflexivity.
  1,11: reflexivity.
  1,10: intros n; vm_compute; split; [lia|done].
  1,9: split; [reflexivity|]; intros n; split; [reflexivity|]; vm_compute; lia.
  all: try (vm_compute; done).
  all: repeat constructor.
Defined.

(** ** What becomes of errors *)

Definition broken (n : nat) : download := mkDownload None 1 (ErrOther 5) [] false None.

(** A download that fails before it has given all its bytes: the read waits for
    them and does not return, because nothing looks at the error of the download
    before the stream is closed. *)
Example failed_download_waits : Read (mkObject 5 some_bytes broken) two_streams 2 = None.
Proof. vm_compute. reflexivity. Qed.

(** An error at the end of a stream is lost: the read is short and has none. *)
Example close_error_is_lost :
  option_map (fun '(_, out, e) => (out, e))
    (Read (mkObject 5 some_bytes (fun _ => mkDownload None 100 (ErrOther 5) [] false (Some (ErrOther 6)))) two_streams 4) =
  Some ([1; 2], None).
Proof. vm_compute. reflexivity. Qed.

(** [Open] on a closed reader starts downloads that nothing will close. *)
Example open_after_close :
  let o := mkObject 5 some_bytes slow in
  let h := fst (Open o (fst (Close two_streams))) in
  cr_closed h = true /\ snd (Open o (fst (Close two_streams))) = None /\ length (cr_streams h) = 2%nat /\
  snd (Close h) = Some ErrorFileClosed.
Proof. vm_compute. done. Qed.

End ParallelReader.
