(* ===== verification/Pacer.v ===== *)
(** * Pacing and retrying calls: lib/pacer, fs/pacer.go

    A pacer spaces out the calls to a service: a token has to be taken before
    each try and comes back after a pause, and a calculator sets the pause after
    each try.  The number of connections can be limited by tokens too.

    The calculators are functions on int64 durations with Go's shifts.  The
    tries of any number of concurrent calls are a step relation on the tokens,
    the timers and the calls. *)
From S2P Require Import Prelude.

Module Pacer.

(** ** Errors *)

Inductive error : Type :=
  | Plain (code : Z)
  | TooManyRequests
  | NeedsRetry
  | RetryAfterErr (e : error) (retryAfter : Z)
  | RetryErr (e : error)          (* fserrors.RetryError *)
  | Wrapped (e : error)
  | Joined (es : list error).

(** [RetryAfterError] *)
Definition RetryAfterError (err : option error) (retryAfter : Z) : error :=
  RetryAfterErr (default TooManyRequests err) retryAfter.

(** [liberrors.Walk] with the function of [IsRetryAfter], which stops at the
    first such error of a chain; the errors of a join are all walked. *)
Fixpoint walk (e : error) (acc : option Z) : option Z :=
  match e with
  | RetryAfterErr _ d => Some d
  | RetryErr e | Wrapped e => walk e acc
  | Joined es => (fix each es acc := match es with [] => acc | e :: es => each es (walk e acc) end) es acc
  | _ => acc
  end.

Definition IsRetryAfter (err : option error) : option Z :=
  match err with None => None | Some e => walk e None end.

(** ** Calculators *)

Record State : Type := mkState {
  SleepTime : Z;
  ConsecutiveRetries : Z;
  LastError : option error }.

Class Calculator (C : Type) : Type := Calculate : C -> State -> Z.

Definition Millisecond : Z := 1000000.
Definition Second : Z := 1000 * Millisecond.

(** Go's shifts of an int64 by a uint. *)
Definition shl (x n : Z) : Z := i64 (x * 2 ^ n).
Definition shr (x n : Z) : Z := Z.shiftr x n.

(** The options: [MinSleep], [MaxSleep], [DecayConstant], [AttackConstant] and
    [Burst]. *)
Inductive opt : Type :=
  | MinSleep (d : Z)
  | MaxSleep (d : Z)
  | DecayConstant (n : Z)
  | AttackConstant (n : Z)
  | Burst (n : Z).

(** The fields that [Default] and [S3] share. *)
Record limits : Type := mkLimits {
  minSleep : Z;
  maxSleep : Z;
  decayConstant : Z;
  attackConstant : Z }.

(** [ApplyDefault], [ApplyS3]; neither has a [Burst]. *)
Definition apply_opt (c : limits) (o : opt) : limits :=
  match o with
  | MinSleep d => mkLimits d (maxSleep c) (decayConstant c) (attackConstant c)
  | MaxSleep d => mkLimits (minSleep c) d (decayConstant c) (attackConstant c)
  | DecayConstant n => mkLimits (minSleep c) (maxSleep c) n (attackConstant c)
  | AttackConstant n => mkLimits (minSleep c) (maxSleep c) (decayConstant c) n
  | Burst _ => c
  end.

Definition Update (c : limits) (opts : list opt) : limits := foldl apply_opt c opts.

Record Default : Type := mkDefault { default_limits : limits }.

Definition NewDefault (opts : list opt) : Default :=
  mkDefault (Update (mkLimits (10 * Millisecond) (2 * Second) 2 1) opts).

(** What a server that names a time gets. *)
Definition after (c : limits) (t : Z) : Z := if t <? minSleep c then minSleep c else t.

(** [(state.SleepTime << attackConstant) / ((1 << attackConstant) - 1)] *)
Definition attack (c : limits) (sleep : Z) : Z :=
  i64 (Z.quot (shl sleep (attackConstant c)) (i64 (shl 1 (attackConstant c) - 1))).

(** [(state.SleepTime << decayConstant - state.SleepTime) >> decayConstant] *)
Definition decay (c : limits) (sleep : Z) : Z :=
  shr (i64 (shl sleep (decayConstant c) - sleep)) (decayConstant c).

#[export] Instance Default_Calculate : Calculator Default := fun d state =>
  let c := default_limits d in
  match IsRetryAfter (LastError state) with
  | Some t => after c t
  | None =>
      if ConsecutiveRetries state >? 0 then
        let sleepTime := if negb (attackConstant c =? 0) then attack c (SleepTime state) else maxSleep c in
        if sleepTime >? maxSleep c then maxSleep c else sleepTime
      else Z.max (decay c (SleepTime state)) (minSleep c)
  end.

Record S3 : Type := mkS3 { s3_limits : limits }.

Definition NewS3 (opts : list opt) : S3 :=
  mkS3 (Update (mkLimits 0 (2 * Second) 2 1) opts).

#[export] Instance S3_Calculate : Calculator S3 := fun d state =>
  let c := s3_limits d in
  match IsRetryAfter (LastError state) with
  | Some t => after c t
  | None =>
      if ConsecutiveRetries state >? 0 then
        if attackConstant c =? 0 then maxSleep c
        else if SleepTime state =? 0 then minSleep c
        else Z.min (attack c (SleepTime state)) (maxSleep c)
      else
        let sleepTime := decay c (SleepTime state) in
        if sleepTime <? minSleep c then 0 else sleepTime
  end.

Inductive ZeroDelayCalculator : Type := mkZeroDelay.

#[export] Instance ZeroDelay_Calculate : Calculator ZeroDelayCalculator := fun _ _ => 0.

Inductive AzureIMDS : Type := NewAzureIMDS.

#[export] Instance AzureIMDS_Calculate : Calculator AzureIMDS := fun _ state =>
  if ConsecutiveRetries state =? 0 then 0
  else
    let addBackoff := if ConsecutiveRetries state >? 4 then 0
                      else i64 (shl 2 (ConsecutiveRetries state - 1) * Second) in
    i64 (addBackoff + SleepTime state).

(** [GoogleDrive]: the delay that the rate limiter asks for and the random
    number below a second are given with it. *)
Record GoogleDrive : Type := mkGoogleDrive {
  g_minSleep : Z;
  g_burst : Z;
  g_limiter : Z;               (* c.limiter.Reserve().Delay() *)
  g_random : Z                 (* rand.Int63n(int64(time.Second)) *) }.

(** [Update], [ApplyGoogleDrive] *)
Definition apply_drive (c : GoogleDrive) (o : opt) : GoogleDrive :=
  match o with
  | MinSleep d => mkGoogleDrive d (g_burst c) (g_limiter c) (g_random c)
  | Burst n => mkGoogleDrive (g_minSleep c) n (g_limiter c) (g_random c)
  | _ => c
  end.

Definition NewGoogleDrive (opts : list opt) (limiter random : Z) : GoogleDrive :=
  let c := foldl apply_drive (mkGoogleDrive (10 * Millisecond) 100 limiter random) opts in
  mkGoogleDrive (g_minSleep c) (if g_burst c <=? 0 then 1 else g_burst c) limiter random.

#[export] Instance GoogleDrive_Calculate : Calculator GoogleDrive := fun c state =>
  match IsRetryAfter (LastError state) with
  | Some t => if t <? g_minSleep c then g_minSleep c else t
  | None =>
      if ConsecutiveRetries state =? 0 then g_limiter c
      else
        let n := if ConsecutiveRetries state >? 5 then 5 else ConsecutiveRetries state in
        i64 (shl Second (n - 1) + g_random c)
  end.

(** ** The end of a try: [endCall] *)
Definition endCall `{Calculator C} (calc : C) (st : State) (retry : bool) (err : option error) : State :=
  let st := mkState (SleepTime st) (if retry then ConsecutiveRetries st + 1 else 0) err in
  mkState (Calculate calc st) (ConsecutiveRetries st) (LastError st).

(** The state of a pacer that was just made by [New]. *)
Definition initial `{Calculator C} (calc : C) : State :=
  mkState (Calculate calc (mkState 0 0 None)) 0 None.

(** A paced function: what the n-th call of it returns. *)
Definition Paced : Type := nat -> bool * option error.

(** [invoke], and [pacerInvoker] of fs/pacer.go. *)
Definition invoke (f : Paced) (n : nat) : bool * option error := f n.

Definition pacerInvoker (f : Paced) (n : nat) : bool * option error :=
  let '(retry, err) := f n in
  (retry, if retry then Some (RetryErr (default NeedsRetry err)) else err).

(** [call]: tries [i], [i+1], ... up to [retries], for a caller alone.  The
    state, the number of tries and the error. *)
Fixpoint call_loop `{Calculator C} (calc : C) (invoker : Paced -> nat -> bool * option error) (f : Paced)
    (left i : nat) (st : State) (err : option error) : State * nat * option error :=
  match left with
  | O => (st, i, err)
  | S left' =>
      let '(retry, err) := invoker f i in
      let st := endCall calc st retry err in
      if negb retry then (st, S i, err) else call_loop calc invoker f left' (S i) st err
  end.

Definition call `{Calculator C} (calc : C) invoker (f : Paced) (retries : Z) (st : State)
    : State * nat * option error :=
  call_loop calc invoker f (Z.to_nat retries) 0 st None.

Definition CallNoRetry `{Calculator C} (calc : C) invoker (f : Paced) (st : State) :=
  call calc invoker f 1 st.

(** [fs.NewPacer] *)
Definition NewPacer_retries (lowLevelRetries : Z) : Z := Z.max lowLevelRetries 1.
Definition NewPacer_maxConnections (maxConnections : Z) : Z := Z.max maxConnections 0.

Example default_1 :
  let f n := if (n <? 3)%nat then (true, Some (Plain 1)) else (false, None) in
  call (NewDefault []) invoke f 10 (initial (NewDefault [])) =
    (mkState (60 * Millisecond) 0 None, 4%nat, None).
Proof. vm_compute. reflexivity. Qed.

(** ** Concurrent calls *)

(** A call that is made: whether it has to take a connection token, which a call
    from within another one does not, the tries it has left, where it is, and
    the error of its last try. *)
Inductive phase : Type :=
  | Start                      (* at the head of the loop of call *)
  | WantToken                  (* beginCall waits for the pacer token *)
  | WantConn                   (* beginCall waits for a connection token *)
  | Running                    (* the function is called *)
  | Done.

#[export] Instance phase_eq_dec : EqDecision phase.
Proof. solve_decision. Defined.

Record thread : Type := mkThread {
  th_limit : bool;
  th_left : nat;
  th_phase : phase;
  th_err : option error }.

(** The tokens in the two channels and the timers of the goroutines that will
    put the pacer token back. *)
Record sys : Type := mkSys {
  sy_tokens : nat;
  sy_timers : list Z;
  sy_conn : nat;
  sy_state : State;
  sy_threads : list thread }.

Inductive event : Type :=
  | EBegin (i : nat)
  | EToken (i : nat)
  | EConn (i : nat)
  | EEnd (i : nat) (retry : bool) (err : option error)
  | ETimer (j : nat).

Definition set_phase (t : thread) (p : phase) : thread := mkThread (th_limit t) (th_left t) p (th_err t).

(** After the pacer token: the connection token or the call. *)
Definition after_token (t : thread) : thread := set_phase t (if th_limit t then WantConn else Running).

Definition step `{Calculator C} (calc : C) (s : sys) (ev : event) : option sys :=
  let put i t := <[i := t]> (sy_threads s) in
  match ev with
  | EBegin i =>
      t ← sy_threads s !! i;
      match th_phase t with
      | Start =>
          Some (mkSys (sy_tokens s) (sy_timers s) (sy_conn s) (sy_state s)
                  (put i (if (th_left t =? 0)%nat then set_phase t Done
                          else if SleepTime (sy_state s) >? 0 then set_phase t WantToken
                          else after_token t)))
      | _ => None
      end
  | EToken i =>
      t ← sy_threads s !! i;
      match th_phase t, sy_tokens s with
      | WantToken, S tokens =>
          Some (mkSys tokens (sy_timers s ++ [SleepTime (sy_state s)]) (sy_conn s) (sy_state s)
                  (put i (after_token t)))
      | _, _ => None
      end
  | EConn i =>
      t ← sy_threads s !! i;
      match th_phase t, sy_conn s with
      | WantConn, S conn =>
          Some (mkSys (sy_tokens s) (sy_timers s) conn (sy_state s) (put i (set_phase t Running)))
      | _, _ => None
      end
  | EEnd i retry err =>
      t ← sy_threads s !! i;
      match th_phase t with
      | Running =>
          Some (mkSys (sy_tokens s) (sy_timers s) (sy_conn s + if th_limit t then 1 else 0)%nat
                  (endCall calc (sy_state s) retry err)
                  (put i (mkThread (th_limit t) (pred (th_left t)) (if retry then Start else Done) err)))
      | _ => None
      end
  | ETimer j =>
      _ ← sy_timers s !! j;
      match sy_tokens s with
      | O => Some (mkSys 1 (delete j (sy_timers s)) (sy_conn s) (sy_state s) (sy_threads s))
      | S _ => None            (* the channel is full *)
      end
  end.

Fixpoint steps `{Calculator C} (calc : C) (s : sys) (evs : list event) : option sys :=
  match evs with
  | [] => Some s
  | ev :: evs => s' ← step calc s ev; steps calc s' evs
  end.

(** A pacer from [New] with the calls that will be made on it: for each the
    tries it may take and whether it is made from within another call. *)
Definition start_sys `{Calculator C} (calc : C) (maxConnections : Z) (calls : list (nat * bool)) : sys :=
  mkSys 1 [] (Z.to_nat maxConnections) (initial calc)
    (map (fun '(retries, reentrant) =>
            mkThread ((maxConnections >? 0) && negb reentrant) retries Start None) calls).

(** The calls that hold a connection token. *)
Definition holds (t : thread) : bool := th_limit t && match th_phase t with Running => true | _ => false end.

Definition connections (s : sys) : nat := length (filter (fun t => holds t = true) (sy_threads s)).

(** The steps that are left at most. *)
Definition phase_weight (p : phase) : nat :=
  match p with Start => 5 | WantToken => 4 | WantConn => 2 | Running => 1 | Done => 0 end.

Definition weight (t : thread) : nat :=
  match th_phase t with
  | Done => 0
  | Start => 5 * th_left t + 1
  | p => 5 * pred (th_left t) + 1 + phase_weight p
  end.

Definition work (s : sys) : nat := (sum_list_with weight (sy_threads s) + length (sy_timers s))%nat.

Section tokens.
Context `{Calculator C} (calc : C) (maxConnections : Z).

(** A call that waits or runs has a try left, one that waits for a connection
    token has to take one, and there are such tokens then. *)
Definition ok (t : thread) : Prop :=
  (th_limit t = true -> 0 < maxConnections) /\
  (th_phase t <> Start -> th_phase t <> Done -> (0 < th_left t)%nat) /\
  (th_phase t = WantConn -> th_limit t = true).

Record inv (s : sys) : Prop := {
  inv_token : (sy_tokens s + length (sy_timers s) = 1)%nat;
  inv_conn : (sy_conn s + connections s = Z.to_nat maxConnections)%nat;
  inv_ok : Forall ok (sy_threads s) }.

Definition held (t : thread) : nat := if holds t then 1 else 0.

Lemma connections_insert (l : list thread) i t t' : l !! i = Some t ->
  (length (filter (fun t => holds t = true) (<[i := t']> l)) + held t =
   length (filter (fun t => holds t = true) l) + held t')%nat.
Proof.
  intros Hi. pose proof (take_drop_middle _ _ _ Hi) as E. pose proof (lookup_lt_Some _ _ _ Hi) as Hlt.
  rewrite insert_take_drop by done. rewrite <- E at 3. rewrite !filter_app, !filter_cons, !length_app. unfold held.
  destruct (holds t), (holds t'); repeat case_decide; try done; cbn [length]; lia.
Qed.

Lemma weight_insert (l : list thread) i t t' : l !! i = Some t ->
  (sum_list_with weight (<[i := t']> l) + weight t = sum_list_with weight l + weight t')%nat.
Proof.
  intros Hi. pose proof (take_drop_middle _ _ _ Hi) as E. pose proof (lookup_lt_Some _ _ _ Hi) as Hlt.
  rewrite insert_take_drop by done. rewrite <- E at 3. rewrite !sum_list_with_app. cbn. lia.
Qed.

(** A step of one call. *)
Lemma put_inv s i t t' tokens timers conn st : inv s -> sy_threads s !! i = Some t -> ok t' ->
  (tokens + length timers = 1)%nat -> (conn + held t' = sy_conn s + held t)%nat ->
  (weight t' + length timers < weight t + length (sy_timers s))%nat ->
  let s' := mkSys tokens timers conn st (<[i := t']> (sy_threads s)) in inv s' /\ (work s' < work s)%nat.
Proof.
  intros [Ht Hc Hok] Hi Hok' Ht' Hc' Hw. pose proof (connections_insert _ i t t' Hi) as Hci.
  pose proof (weight_insert _ i t t' Hi) as Hwi. unfold work, connections in *.
  cbn [sy_tokens sy_timers sy_conn sy_threads]. split; [|lia].
  split; unfold connections; cbn [sy_tokens sy_timers sy_conn sy_threads]; [done|lia|]. by apply Forall_insert.
Qed.

Lemma pacer_step_inv s ev s' : inv s -> step calc s ev = Some s' -> inv s' /\ (work s' < work s)%nat.
Proof.
  intros Hinv Hstep. pose proof Hinv as [Ht Hc Hok].
  destruct ev as [i|i|i|i retry err|j]; cbn [step] in Hstep.
  1-4: destruct (sy_threads s !! i) as [t|] eqn:Hi; [|done]; cbn [mbind option_bind] in Hstep;
    pose proof (Forall_lookup_1 _ _ _ _ Hok Hi) as (Hlim & Hleft & Hwant);
    destruct t as [lim left ph e]; cbn [th_phase th_limit th_left] in *; destruct ph; try done.
  - injection Hstep as <-. apply (put_inv s i _ _ _ _ _ _ Hinv Hi); unfold ok, held, holds, weight, after_token, set_phase.
    all: destruct left as [|left]; [|destruct (SleepTime (sy_state s) >? 0); [|destruct lim]].
    all: cbn -[Nat.mul]; auto; try lia. all: split_and!; auto; (done || lia).
  - destruct (sy_tokens s) as [|tokens] eqn:Etok; [done|]. injection Hstep as <-.
    apply (put_inv s i _ _ _ _ _ _ Hinv Hi); unfold ok, held, holds, weight, after_token, set_phase; rewrite ?length_app.
    all: destruct lim; cbn -[Nat.mul]; auto; try lia. all: split_and!; auto; (done || lia).
  - destruct (sy_conn s) as [|conn] eqn:Ec; [done|]. injection Hstep as <-. specialize (Hwant eq_refl). subst lim.
    apply (put_inv s i _ _ _ _ _ _ Hinv Hi); unfold ok, held, holds, weight, set_phase.
    all: cbn -[Nat.mul]; auto; try lia. all: split_and!; auto; (done || lia).
  - injection Hstep as <-. specialize (Hleft ltac:(done) ltac:(done)).
    apply (put_inv s i _ _ _ _ _ _ Hinv Hi); unfold ok, held, holds, weight.
    all: destruct lim, retry; cbn -[Nat.mul]; auto; try lia. all: split_and!; auto; (done || lia).
  - destruct (sy_timers s !! j) as [d|] eqn:Hj; [|done]. cbn [mbind option_bind] in Hstep.
    destruct (sy_tokens s) eqn:Etok; [|done]. injection Hstep as <-.
    pose proof (lookup_lt_Some _ _ _ Hj) as Hlt.
    assert (length (delete j (sy_timers s)) = pred (length (sy_timers s))) as Hdel.
    { rewrite length_delete; [lia|]. by rewrite Hj. }
    unfold work. cbn [sy_threads sy_timers]. split; [|lia]. split; cbn [sy_tokens sy_timers sy_conn]; [lia|done|done].
Qed.

Lemma steps_inv evs s s' : inv s -> steps calc s evs = Some s' -> inv s' /\ (length evs + work s' <= work s)%nat.
Proof.
  revert s. induction evs as [|ev evs IH]; intros s Hinv; cbn [steps]; [intros [= <-]; split; [done|cbn; lia]|].
  destruct (step calc s ev) as [s1|] eqn:Hs; [|done]. cbn. intros Hrun.
  destruct (pacer_step_inv s ev s1 Hinv Hs) as [Hinv1 Hw]. destruct (IH s1 Hinv1 Hrun). split; [done|lia].
Qed.

(** Some step is possible until all the calls are done. *)
Lemma not_stuck s : inv s -> Exists (fun t => th_phase t <> Done) (sy_threads s) -> exists ev s', step calc s ev = Some s'.
Proof.
  intros [Ht Hc Hok] (t & Hin & Hnd)%Exists_exists. apply list_elem_of_lookup in Hin as [i Hi].
  destruct (th_phase t) eqn:Hp; [| | | |done].
  - exists (EBegin i). eexists. cbn. by rewrite Hi; cbn; rewrite Hp.
  - destruct (sy_tokens s) as [|n] eqn:Et.
    + destruct (sy_timers s) as [|d l] eqn:El; [cbn in Ht; lia|]. exists (ETimer 0). eexists. cbn. by rewrite El, Et.
    + exists (EToken i). eexists. cbn. by rewrite Hi; cbn; rewrite Hp, Et.
  - destruct (sy_conn s) as [|n] eqn:Ec.
    + pose proof (Forall_lookup_1 _ _ _ _ Hok Hi) as (Hlim & _ & Hwant).
      specialize (Hlim (Hwant Hp)). unfold connections in Hc.
      destruct (filter (fun t => holds t = true) (sy_threads s)) as [|u l] eqn:Ef; [cbn in Hc; lia|].
      assert (u ∈ filter (fun t => holds t = true) (sy_threads s)) as Hu by (rewrite Ef; left).
      apply list_elem_of_filter in Hu as [Hh Hu]. apply list_elem_of_lookup in Hu as [k Hk].
      unfold holds in Hh. apply andb_true_iff in Hh as [_ Hh]. destruct (th_phase u) eqn:Hpu; try done.
      exists (EEnd k false None). eexists. cbn. by rewrite Hk; cbn; rewrite Hpu.
    + exists (EConn i). eexists. cbn. by rewrite Hi; cbn; rewrite Hp, Ec.
  - exists (EEnd i false None). eexists. cbn. by rewrite Hi; cbn; rewrite Hp.
Qed.

Lemma start_inv calls : inv (start_sys calc maxConnections calls).
Proof.
  assert (Forall (fun t => th_phase t = Start /\ (th_limit t = true -> 0 < maxConnections))
    (sy_threads (start_sys calc maxConnections calls))) as Hall.
  { apply Forall_forall. intros t ([r b] & -> & _)%list_elem_of_fmap. cbn. split; [done|].
    intros Hlim. breflect. lia. }
  split; [done| |].
  - unfold connections. assert (filter (fun t => holds t = true) (sy_threads (start_sys calc maxConnections calls)) = []) as ->.
    { induction Hall as [|t l [Hp _] _ IH]; [done|]. rewrite filter_cons_False; [done|].
      unfold holds. rewrite Hp. by destruct (th_limit t). }
    cbn. lia.
  - eapply Forall_impl; [exact Hall|]. intros t [Hp Hl]. unfold ok. rewrite Hp. by split_and!.
Qed.

End tokens.

(** C30: concurrent calls share a pacer safely and all come to an end.  In
    whatever order the calls, their tries, the timers and the results come, no
    more than the maximum of calls hold a connection token, the timer that puts
    the pacer token back never has to wait, the number of steps is bounded by
    the tries that the calls may take, and when nothing more can happen every
    call has returned. *)
Theorem pacer_completes `{Calculator C} (calc : C) (maxConnections : Z) (calls : list (nat * bool))
    (evs : list event) (s : sys)
  (Hrun : steps calc (start_sys calc maxConnections calls) evs = Some s) :
  (connections s <= Z.to_nat maxConnections)%nat /\
  (sy_timers s <> [] -> sy_tokens s = 0%nat) /\
  (length evs <= sum_list_with (fun '(retries, _) => 5 * retries + 1) calls)%nat /\
  ((forall ev, step calc s ev = None) -> Forall (fun t => th_phase t = Done) (sy_threads s)).
Proof.
  destruct (steps_inv calc maxConnections evs _ s (start_inv calc maxConnections calls) Hrun) as [Hinv Hwork].
  pose proof Hinv as [Ht Hc _]. split_and!; [lia| | |].
  - destruct (sy_timers s); [done|]. cbn in Ht. intros _. lia.
  - assert (work (start_sys calc maxConnections calls) = sum_list_with (fun '(retries, _) => 5 * retries + 1)%nat calls) as E.
    { unfold work, start_sys. cbn [sy_threads sy_timers length]. rewrite Nat.add_0_r. clear.
      induction calls as [|[r b] calls IH]; [done|]. cbn [map sum_list_with]. by rewrite IH. }
    lia.
  - intros Hstuck. apply Forall_forall. intros t Hin. destruct (decide (th_phase t = Done)) as [|Hnd]; [done|].
    destruct (not_stuck calc maxConnections s Hinv) as (ev & s' & Hs); [by apply Exists_exists; exists t|].
    by rewrite Hstuck in Hs.
Qed.

(** Two calls, one of which tries twice, with one connection. *)
Lemma pacer_completes_witness :
  exists s, steps (NewDefault []) (start_sys (NewDefault []) 1 [(2%nat, false); (1%nat, false)])
      [EBegin 0; EToken 0; EConn 0; ETimer 0; EBegin 1; EToken 1; EEnd 0 true None; ETimer 0; EConn 1; EBegin 0;
       EToken 0; EEnd 1 false None; EConn 0; EEnd 0 true None; EBegin 0] = Some s /\
    (connections s <= 1)%nat /\ Forall (fun t => th_phase t = Done) (sy_threads s).
Proof.
  eexists. split; [vm_compute; reflexivity|].
  split.
  - eapply (pacer_completes (NewDefault []) 1 [(2%nat, false); (1%nat, false)]
      [EBegin 0; EToken 0; EConn 0; ETimer 0; EBegin 1; EToken 1; EEnd 0 true None; ETimer 0; EConn 1; EBegin 0;
       EToken 0; EEnd 1 false None; EConn 0; EEnd 0 true None; EBegin 0]). vm_compute. reflexivity.
  - vm_compute. repeat constructor.
Defined.

(** ** The pauses *)

(** Limits that make sense: the pauses do not overflow when they are shifted. *)
Record sane (c : limits) : Prop := {
  sane_min : 0 <= minSleep c <= maxSleep c;
  sane_attack : 0 <= attackConstant c <= 62 /\ maxSleep c * 2 ^ attackConstant c <= i64_max;
  sane_decay : 0 <= decayConstant c <= 62 /\ maxSleep c * 2 ^ decayConstant c <= i64_max }.

Lemma pow2_range n : 0 <= n <= 62 -> 1 <= 2 ^ n <= 2 ^ 62.
Proof. intros ?. pose proof (Z.pow_pos_nonneg 2 n). split; [lia|apply Z.pow_le_mono_r; lia]. Qed.

Lemma shl_eq s n : 0 <= s -> 0 <= n -> s * 2 ^ n <= i64_max -> shl s n = s * 2 ^ n.
Proof.
  intros ???. apply i64_id. assert (0 <= s * 2 ^ n) by (apply Z.mul_nonneg_nonneg; [done|apply Z.pow_nonneg; lia]).
  unfold in_i64, i64_min. lia.
Qed.

Lemma attack_eq c s : sane c -> 0 <= s <= maxSleep c -> 0 < attackConstant c ->
  attack c s = s + s / (2 ^ attackConstant c - 1).
Proof.
  intros [Hm [Ha Hfit] _] Hs Hpos. pose proof (pow2_range _ Ha) as Hp.
  assert (2 <= 2 ^ attackConstant c) as H2.
  { change 2 with (2 ^ 1) at 1. apply Z.pow_le_mono_r; lia. }
  unfold attack. set (p := 2 ^ attackConstant c) in *.
  assert (s * p <= i64_max) by nia. rewrite (shl_eq s) by (fold p; lia). fold p.
  rewrite (shl_eq 1) by (fold p; unfold i64_max; lia). fold p. rewrite Z.mul_1_l.
  rewrite (i64_id (p - 1)) by (unfold in_i64, i64_min, i64_max; lia).
  rewrite Z.quot_div_nonneg by nia.
  assert (s * p / (p - 1) = s + s / (p - 1)) as E.
  { replace (s * p) with (s + s * (p - 1)) by lia. rewrite Z.div_add by lia. lia. }
  rewrite E. apply i64_id. pose proof (Z.div_pos s (p - 1) ltac:(lia) ltac:(lia)).
  pose proof (Z.div_le_upper_bound s (p - 1) s ltac:(lia) ltac:(nia)). unfold in_i64, i64_min. nia.
Qed.

Lemma decay_eq c s : sane c -> 0 <= s <= maxSleep c ->
  decay c s = (s * 2 ^ decayConstant c - s) / 2 ^ decayConstant c.
Proof.
  intros [Hm _ [Hd Hfit]] Hs. pose proof (pow2_range _ Hd) as Hp. unfold decay, shr.
  set (p := 2 ^ decayConstant c) in *. assert (s * p <= i64_max) by nia.
  rewrite shl_eq by (fold p; lia). fold p. rewrite i64_id by (unfold in_i64, i64_min; nia).
  by rewrite Z.shiftr_div_pow2 by lia.
Qed.

(** A success shortens the pause, by one at least if there is a decay. *)
Lemma decay_less c s : sane c -> 0 <= s <= maxSleep c -> 0 <= decay c s <= s /\ (0 < s -> decay c s < s).
Proof.
  intros Hc Hs. rewrite (decay_eq c s Hc Hs). destruct Hc as [_ _ [Hd _]]. pose proof (pow2_range _ Hd) as Hp.
  set (p := 2 ^ decayConstant c) in *. split_and!.
  - apply Z.div_pos; nia.
  - apply Z.div_le_upper_bound; nia.
  - intros ?. apply Z.div_lt_upper_bound; nia.
Qed.

Definition no_time (err : option error) : Prop := IsRetryAfter err = None.

Lemma Default_success c st err : sane c -> no_time err -> minSleep c <= SleepTime st <= maxSleep c ->
  SleepTime (endCall (mkDefault c) st false err) = Z.max (decay c (SleepTime st)) (minSleep c).
Proof. intros Hc Hn Hs. unfold endCall, Calculate, Default_Calculate. cbn [SleepTime LastError ConsecutiveRetries default_limits]. by rewrite Hn. Qed.

Lemma Default_retry c st err : sane c -> no_time err -> minSleep c <= SleepTime st <= maxSleep c ->
  0 <= ConsecutiveRetries st ->
  SleepTime (endCall (mkDefault c) st true err) =
    if attackConstant c =? 0 then maxSleep c
    else Z.min (SleepTime st + SleepTime st / (2 ^ attackConstant c - 1)) (maxSleep c).
Proof.
  intros Hc Hn Hs Hr. unfold endCall, Calculate, Default_Calculate.
  cbn [SleepTime LastError ConsecutiveRetries default_limits]. rewrite Hn, Z.gtb_ltb, (proj2 (Z.ltb_lt _ _)) by lia.
  destruct (attackConstant c =? 0) eqn:Ea; breflect; cbn [negb].
  - rewrite Z.gtb_ltb. by case_if.
  - pose proof (sane_attack c Hc) as [? _]. pose proof (sane_min c Hc).
    rewrite (attack_eq c _ Hc) by lia. rewrite Z.gtb_ltb. case_if; breflect; lia.
Qed.

Definition tries (c : limits) (st : State) (l : list (bool * option error)) : State :=
  foldl (fun st '(retry, err) => endCall (mkDefault c) st retry err) st l.

Definition paced (c : limits) (st : State) : Prop :=
  minSleep c <= SleepTime st <= maxSleep c /\ 0 <= ConsecutiveRetries st.

Lemma endCall_paced c st retry err : sane c -> paced c st -> no_time err -> paced c (endCall (mkDefault c) st retry err).
Proof.
  intros Hc [Hs Hr] Hn. pose proof (sane_min c Hc) as Hm. split.
  2:{ unfold endCall. cbn. destruct retry; lia. }
  destruct retry.
  - rewrite Default_retry by done. case_if; breflect; [lia|].
    assert (0 <= SleepTime st / (2 ^ attackConstant c - 1)); [|lia].
    apply Z.div_pos; [lia|]. pose proof (sane_attack c Hc) as [Ha _].
    assert (2 ^ 1 <= 2 ^ attackConstant c) by (apply Z.pow_le_mono_r; lia). lia.
  - rewrite Default_success by done. destruct (decay_less c (SleepTime st) Hc) as [? _]; lia.
Qed.

Lemma tries_paced c st l : sane c -> paced c st -> Forall (fun x => no_time x.2) l -> paced c (tries c st l).
Proof.
  intros Hc. revert st. induction l as [|[retry err] l IH]; intros st Hp Hl; [done|].
  inversion Hl; subst. cbn. apply IH; [by apply endCall_paced|done].
Qed.

(** C39: the default pacer paces as it says.  With limits that make sense and as
    long as no server names a time, the pause stays between the minimum and the
    maximum; each retry doubles it until the maximum is reached, with the
    attack constant that is the default; and after enough successes it is the
    minimum again. *)
Theorem default_backoff (c : limits) (st : State) (l : list (bool * option error))
  (Hc : sane c) (Hp : paced c st) (Hl : Forall (fun x => no_time x.2) l) :
  minSleep c <= SleepTime (tries c st l) <= maxSleep c /\
  (attackConstant c = 1 -> Forall (fun x => x.1 = true) l ->
     SleepTime (tries c st l) = Z.min (SleepTime st * 2 ^ Z.of_nat (length l)) (maxSleep c)) /\
  (Forall (fun x => x.1 = false) l -> SleepTime st - minSleep c <= Z.of_nat (length l) ->
     SleepTime (tries c st l) = minSleep c).
Proof.
  pose proof (sane_min c Hc) as Hm. split; [by apply tries_paced|]. split.
  - intros Ha. revert st Hp Hl. induction l as [|[retry err] l IH]; intros st Hp Hl Hall.
    { cbn. destruct Hp. lia. }
    inversion Hl; inversion Hall; subst. cbn [tries foldl fst snd] in *. subst retry.
    pose proof (endCall_paced c st true err Hc Hp H1) as Hp'. unfold tries in IH. rewrite IH by done.
    destruct Hp as [Hs Hr]. rewrite Default_retry by done. rewrite Ha. cbn [Z.eqb].
    change (2 ^ 1 - 1) with 1. rewrite Z.div_1_r.
    cbn [length]. rewrite Nat2Z.inj_succ, Z.pow_succ_r by lia.
    pose proof (Z.pow_pos_nonneg 2 (Z.of_nat (length l)) ltac:(lia) ltac:(lia)).
    nia.
  - revert st Hp Hl. induction l as [|[retry err] l IH]; intros st Hp Hl Hall Hlen.
    { cbn in *. destruct Hp. lia. }
    inversion Hl; inversion Hall; subst. cbn [tries foldl fst snd] in *. subst retry.
    pose proof (endCall_paced c st false err Hc Hp H1) as Hp'. unfold tries in IH. apply IH; [done|done|done|].
    destruct Hp as [Hs Hr]. rewrite Default_success by done. cbn [length] in Hlen.
    destruct (decay_less c (SleepTime st) Hc) as [? Hlt]; [lia|]. destruct (decide (SleepTime st = 0)); lia.
Qed.

Lemma default_backoff_witness :
  let c := default_limits (NewDefault []) in
  let st := initial (NewDefault []) in
  SleepTime (tries c st (repeat (true, Some (Plain 1)) 3)) = 80 * Millisecond /\
  minSleep c <= SleepTime (tries c st [(true, None); (false, Some (Joined [Plain 2]))]) <= maxSleep c.
Proof.
  cbv zeta. assert (sane (default_limits (NewDefault []))) as Hc by (split; vm_compute; repeat split; discriminate).
  assert (paced (default_limits (NewDefault [])) (initial (NewDefault []))) as Hp by (vm_compute; repeat split; discriminate).
  split.
  - assert (Forall (fun x : bool * option error => no_time x.2) (repeat (true, Some (Plain 1)) 3)) as Hl by (repeat constructor).
    rewrite (proj1 (proj2 (default_backoff _ _ _ Hc Hp Hl)) eq_refl) by (repeat constructor). vm_compute. reflexivity.
  - apply (default_backoff _ _ _ Hc Hp). repeat constructor.
Defined.

(** ** The other calculators *)

Definition azure_tries (n : nat) (err : option error) : State :=
  Nat.iter n (fun st => endCall NewAzureIMDS st true err) (initial NewAzureIMDS).

(** The k-th retry of [AzureIMDS] waits 2, 6, 14, 30 seconds, and no longer. *)
Theorem azure_backoff (n : nat) (err : option error) :
  azure_tries n err = mkState ((2 ^ (Z.min (Z.of_nat n) 4 + 1) - 2) * Second) (Z.of_nat n)
                        (match n with O => None | S _ => err end).
Proof.
  unfold azure_tries. destruct n as [|[|[|[|[|n]]]]]; try reflexivity.
  induction n as [|n IH]; [reflexivity|].
  change (Nat.iter (S (S (S (S (S (S n)))))) (fun st => endCall NewAzureIMDS st true err) (initial NewAzureIMDS))
    with (endCall NewAzureIMDS (Nat.iter (S (S (S (S (S n))))) (fun st => endCall NewAzureIMDS st true err) (initial NewAzureIMDS)) true err).
  rewrite IH. rewrite !Z.min_r by lia. unfold endCall, Calculate, AzureIMDS_Calculate.
  cbn [SleepTime LastError ConsecutiveRetries].
  rewrite (proj2 (Z.eqb_neq _ 0)), Z.gtb_ltb, (proj2 (Z.ltb_lt 4 _)) by lia.
  f_equal. lia.
Qed.

(** [GoogleDrive] waits between 1 and 17 seconds after a failure. *)
Theorem drive_backoff (c : GoogleDrive) (st : State) (Hr : 0 < ConsecutiveRetries st)
  (Hn : no_time (LastError st)) (Hrand : 0 <= g_random c < Second) :
  Second <= Calculate c st < 17 * Second.
Proof.
  unfold Calculate, GoogleDrive_Calculate. rewrite Hn, (proj2 (Z.eqb_neq _ 0)) by lia.
  set (n := if ConsecutiveRetries st >? 5 then 5 else _).
  assert (n = 1 \/ n = 2 \/ n = 3 \/ n = 4 \/ n = 5) as Hcases by (unfold n; case_if; breflect; lia).
  unfold shl. unfold Second, Millisecond in *.
  destruct Hcases as [->|[->|[->|[->| ->]]]].
  all: match goal with |- context [2 ^ ?e] => let v := eval vm_compute in (2 ^ e) in change (2 ^ e) with v end.
  all: rewrite (i64_id (1000 * 1000000 * _)) by (unfold in_i64, i64_min, i64_max; lia).
  all: rewrite i64_id; unfold in_i64, i64_min, i64_max; lia.
Qed.

(** ** Calls *)

Lemma call_loop_spec `{Calculator C} (calc : C) invoker f left i st err :
  (0 < left)%nat ->
  let '(st', n, err') := call_loop calc invoker f left i st err in
  (i < n <= i + left)%nat /\ (forall k, (i <= k)%nat -> (S k < n)%nat -> (invoker f k).1 = true) /\
  ((invoker f (pred n)).1 = false \/ n = (i + left)%nat) /\ err' = (invoker f (pred n)).2 /\
  LastError st' = err' /\ ((invoker f (pred n)).1 = false -> ConsecutiveRetries st' = 0).
Proof.
  revert i st err. induction left as [|left IH]; intros i st err Hl; [lia|]. cbn [call_loop].
  destruct (invoker f i) as [retry e] eqn:Hi. destruct retry; cbn [negb].
  2:{ cbn. rewrite Hi. split_and!; auto; try lia; intros; lia. }
  destruct left as [|left].
  { cbn. rewrite Hi. split_and!; auto; try lia; intros; (done || lia). }
  specialize (IH (S i) (endCall calc st true e) e ltac:(lia)).
  destruct (call_loop calc invoker f (S left) (S i) (endCall calc st true e) e) as [[st' n] err'].
  destruct IH as ((Hlo & Hhi) & Hall & Hor & He & Hlast & Hcons). split_and!; auto; try lia.
  - intros k Hk1 Hk2. destruct (decide (k = i)) as [->|]; [by rewrite Hi|]. apply Hall; lia.
  - destruct Hor as [?|?]; [by left|right; lia].
Qed.

(** [Call] retries as often as it should.  With at least one try allowed, the
    function is called until it does not want to be retried or the tries are used
    up, and the error of the last try is returned, whatever the calculator. *)
Theorem call_retries `{Calculator C} (calc : C) invoker (f : Paced) (retries : Z) (st : State) (Hr : 1 <= retries) :
  let '(st', n, err) := call calc invoker f retries st in
  1 <= Z.of_nat n <= retries /\
  (forall k, (S k < n)%nat -> (invoker f k).1 = true) /\
  ((invoker f (pred n)).1 = false \/ Z.of_nat n = retries) /\
  err = (invoker f (pred n)).2 /\ LastError st' = err.
Proof.
  pose proof (call_loop_spec calc invoker f (Z.to_nat retries) 0 st None ltac:(lia)) as Hx. unfold call.
  destruct (call_loop calc invoker f (Z.to_nat retries) 0 st None) as [[st' n] err].
  destruct Hx as (? & Hall & Hor & ? & ? & _). split_and!; auto; try lia; [intros k; apply Hall; lia|].
  destruct Hor; [by left|right; lia].
Qed.

Lemma call_retries_witness :
  let '(st', n, err) := call (NewS3 [MinSleep (10 * Millisecond)]) pacerInvoker
      (fun n => (true, Some (Plain (Z.of_nat n)))) 2 (mkState 0 0 None) in
  1 <= Z.of_nat n <= 2 /\ err = Some (RetryErr (Plain 1)) /\ SleepTime st' = 20 * Millisecond.
Proof.
  pose proof (call_retries (NewS3 [MinSleep (10 * Millisecond)]) pacerInvoker
      (fun n => (true, Some (Plain (Z.of_nat n)))) 2 (mkState 0 0 None) ltac:(lia)) as Hx.
  vm_compute in Hx |- *. split; [apply Hx|]. done.
Defined.

(** With no tries allowed the function is not called, and there is no error. *)
Example no_tries : call (NewDefault []) invoke (fun _ => (false, Some (Plain 1))) 0 (initial (NewDefault [])) =
  (initial (NewDefault []), 0%nat, None).
Proof. reflexivity. Qed.

(** A time that a server names is not limited by the maximum. *)
Example after_exceeds_max :
  SleepTime (endCall (NewDefault []) (initial (NewDefault [])) true (Some (RetryAfterError None (3600 * Second)))) = 3600 * Second /\
  maxSleep (default_limits (NewDefault [])) = 2 * Second.
Proof. split; reflexivity. Qed.

(** After a time that is very long, the next retry makes the pause negative:
    calls are not paced at all then. *)
Example after_overflows :
  let st := endCall (NewDefault []) (initial (NewDefault [])) true (Some (RetryAfterError None (2 ^ 62))) in
  SleepTime (endCall (NewDefault []) st true (Some (Plain 1))) = - 2 ^ 63 /\
  steps (NewDefault []) (mkSys 0 [2 ^ 62] 0 (endCall (NewDefault []) st true (Some (Plain 1))) [mkThread false 1 Start None])
    [EBegin 0] = Some (mkSys 0 [2 ^ 62] 0 (endCall (NewDefault []) st true (Some (Plain 1))) [mkThread false 1 Running None]).
Proof. split; vm_compute; reflexivity. Qed.

End Pacer.
