(* ===== verification/VfsRead.v ===== *)
(** * Read only handles of the virtual file system: vfs/read.go

    A handle reads its object through a chunked reader that is opened with the
    first read, seeks it when it is read elsewhere, opens it again after errors,
    so many times at most, and checks the hash of what was read in order when it
    is closed.

    The chunked reader is the sequential one of ChunkedReader, read directly: the
    buffer that reads ahead, which files of less than a megabyte do not have, is
    left out, as is the wait for reads out of order, during which other calls
    may come in. *)
From S2P Require Import Prelude GoPath Utf8 Streams OpenOptions Hash ChunkedReader.

Module VfsRead.
Import Utf8 Streams OpenOptions ChunkedReader.

(** [RErr EOF] is io.EOF. *)
Inductive verror : Type :=
  | RErr (e : error)
  | ESPIPE
  | ECLOSED
  | HashErr (code : Z)
  | ErrCorrupted.

#[export] Instance verror_eq_dec : EqDecision verror.
Proof. solve_decision. Defined.

(** What [o.Hash] answers; [HashGone] is an error that is os.ErrNotExist. *)
Inductive hashAnswer : Type :=
  | HashSum (sum : string)
  | HashGone
  | HashFails (code : Z).

(** The file: its object, the options of the file system and the hash that is
    picked, as a function, with what the object says its own is. *)
Record File : Type := mkFile {
  f_o : Object;
  f_ChunkSize : Z;
  f_ChunkSizeLimit : Z;
  f_NoSeek : bool;
  f_NoChecksum : bool;
  f_LowLevelRetries : Z;
  f_sum : bytes -> string;
  f_Hash : hashAnswer }.

(** [fh_hash] holds what was written to the hasher; [fh_requests] are the ranges
    that were asked for so far. *)
Record ReadFileHandle : Type := mkFH {
  fh_r : option sequential;
  fh_size : Z;
  fh_offset : Z;
  fh_roffset : Z;
  fh_hash : option bytes;
  fh_closed : bool;
  fh_readCalled : bool;
  fh_sizeUnknown : bool;
  fh_opened : bool;
  fh_requests : list (list OpenOption) }.

Definition nonNegative (i : Z) : Z := if i >=? 0 then i else 0.

Definition newReadFileHandle (f : File) : ReadFileHandle :=
  mkFH None (nonNegative (o_Size (f_o f))) 0 0 (if f_NoChecksum f then None else Some []) false false
    (o_Size (f_o f) <? 0) false [].

Section handle.
Variable f : File.

(** [chunkedreader.New], with the ranges asked for so far. *)
Definition cfg : config :=
  mkConfig (f_o f) (initial_size (f_ChunkSize f)) (max_size (f_ChunkSize f) (f_ChunkSizeLimit f)).

Definition new_reader (requests : list (list OpenOption)) : sequential :=
  mkSequential None (-1) 0 (initial_size (f_ChunkSize f)) false false requests 0 0.

Definition set_r (fh : ReadFileHandle) (r : option sequential) (offset : Z) (hash : option bytes) (opened : bool)
    (requests : list (list OpenOption)) : ReadFileHandle :=
  mkFH r (fh_size fh) offset (fh_roffset fh) hash (fh_closed fh) (fh_readCalled fh) (fh_sizeUnknown fh)
    opened requests.

Definition openPending (fh : ReadFileHandle) : ReadFileHandle * option error :=
  if fh_opened fh then (fh, None)
  else
    match Open cfg (new_reader (fh_requests fh)) with
    | (r, Some e) => (set_r fh (fh_r fh) (fh_offset fh) (fh_hash fh) false (cr_requests r), Some e)
    | (r, None) => (set_r fh (Some r) (fh_offset fh) (fh_hash fh) true (cr_requests r), None)
    end.

(** [seek]: move the reader, or close it and open another one there. *)
Definition seek (fh : ReadFileHandle) (offset : Z) (reopen : bool) : outcome (ReadFileHandle * option verror) :=
  if f_NoSeek f then Ret (fh, Some ESPIPE)
  else
    let! r := deref (fh_r fh) in
    if negb reopen then
      match RangeSeek cfg r offset 0 (-1) with
      | (r, _, Some e) => Ret (set_r fh (Some r) (fh_offset fh) None (fh_opened fh) (cr_requests r), Some (RErr e))
      | (r, _, None) => Ret (set_r fh (Some r) offset None (fh_opened fh) (cr_requests r), None)
      end
    else
      let '(r, _) := Close r in
      let fail r requests e := Ret (set_r fh (Some r) (fh_offset fh) None (fh_opened fh) requests, Some (RErr e)) in
      match Seek cfg (new_reader (cr_requests r)) offset 0 with
      | (r', _, Some e) => fail r (cr_requests r') e
      | (r', _, None) =>
          match Open cfg r' with
          | (r', Some e) => fail r (cr_requests r') e
          | (r', None) => Ret (set_r fh (Some r') offset None (fh_opened fh) (cr_requests r'), None)
          end
      end.

(** [io.ReadFull(fh.r, p)]: a read of the reader is short only with an error. *)
Definition ReadFull_r (r : sequential) (k : Z) : outcome (sequential * bytes * option error) :=
  if k <=? 0 then Ret (r, [], None)
  else
    let! (r, out, e) := Read cfg r k in
    Ret (r, out, if zlen out >=? k then None
                 else match e with
                      | Some EOF => if zlen out >? 0 then Some ErrUnexpectedEOF else Some EOF
                      | e => e
                      end).

Definition is_eof (e : error) : bool := match e with EOF | ErrUnexpectedEOF => true | _ => false end.

(** After a read that was good: the end of [readAt]. *)
Definition finish (fh : ReadFileHandle) (newOffset : Z) (out : bytes) (k : Z)
    : ReadFileHandle * bytes * option verror :=
  (set_r fh (fh_r fh) newOffset (match fh_hash fh with Some b => Some (b ++ out) | None => None end)
     (fh_opened fh) (fh_requests fh),
   out, if negb (zlen out =? k) then Some (RErr EOF) else None).

Definition set_size (fh : ReadFileHandle) (size : Z) : ReadFileHandle :=
  mkFH (fh_r fh) size (fh_offset fh) (fh_roffset fh) (fh_hash fh) (fh_closed fh) (fh_readCalled fh) false
    (fh_opened fh) (fh_requests fh).

Definition set_read (fh : ReadFileHandle) (r : sequential) (called : bool) : ReadFileHandle :=
  mkFH (Some r) (fh_size fh) (fh_offset fh) (fh_roffset fh) (fh_hash fh) (fh_closed fh) called
    (fh_sizeUnknown fh) (fh_opened fh) (cr_requests r).

(** One turn of the loop of [readAt]: it ends the call, or there was an error and
    [out] is what was read last. *)
Inductive turn : Type :=
  | Finished (fh : ReadFileHandle) (out : bytes) (err : option verror)
  | Failed (fh : ReadFileHandle) (out : bytes) (e : verror).

Definition attempt (fh : ReadFileHandle) (k off : Z) (out : bytes) (doSeek doReopen : bool) : outcome turn :=
  if doSeek && (off >=? fh_size fh) then Ret (Finished fh [] (Some (RErr EOF)))
  else
    let! (fh, err) := if doSeek then seek fh off doReopen else Ret (fh, None) in
    match err with
    | Some e => Ret (Failed fh out e)
    | None =>
        let! r := deref (fh_r fh) in
        let! (r, out, err) := ReadFull_r r k in
        let fh := set_read fh r (if k >? 0 then true else fh_readCalled fh) in
        let newOffset := i64 (fh_offset fh + zlen out) in
        let finished fh := let '(fh, out, err) := finish fh newOffset out k in Ret (Finished fh out err) in
        match err with
        | None => finished fh
        | Some e =>
            if is_eof e && ((newOffset =? fh_size fh) || fh_sizeUnknown fh)
            then finished (if fh_sizeUnknown fh then set_size fh newOffset else fh)
            else Ret (Failed fh out (RErr e))
        end
    end.

(** The loop, with [left] retries left. *)
Fixpoint attempts (left : nat) (fh : ReadFileHandle) (k off : Z) (out : bytes) (doSeek doReopen : bool)
    : outcome (ReadFileHandle * bytes * option verror) :=
  let! t := attempt fh k off out doSeek doReopen in
  match t with
  | Finished fh out err => Ret (fh, out, err)
  | Failed fh out e =>
      match left with
      | O => Ret (fh, out, Some e)
      | S left' => attempts left' fh k off out true true
      end
  end.

Definition readAt (fh : ReadFileHandle) (k off : Z) : outcome (ReadFileHandle * bytes * option verror) :=
  match openPending fh with
  | (fh, Some e) => Ret (fh, [], Some (RErr e))
  | (fh, None) =>
      if fh_closed fh then Ret (fh, [], Some ECLOSED)
      else
        let doSeek := negb (off =? fh_offset fh) in
        if doSeek && f_NoSeek f then Ret (fh, [], Some ESPIPE)
        else attempts (Z.to_nat (f_LowLevelRetries f)) fh k off [] doSeek false
  end.

Definition set_roffset (fh : ReadFileHandle) (roffset : Z) : ReadFileHandle :=
  mkFH (fh_r fh) (fh_size fh) (fh_offset fh) roffset (fh_hash fh) (fh_closed fh) (fh_readCalled fh)
    (fh_sizeUnknown fh) (fh_opened fh) (fh_requests fh).

(** [Read] from where the last one stopped. *)
Definition fh_Read (fh : ReadFileHandle) (k : Z) : outcome (ReadFileHandle * bytes * option verror) :=
  if (fh_roffset fh >=? fh_size fh) && negb (fh_sizeUnknown fh) then Ret (fh, [], Some (RErr EOF))
  else
    let! (fh, out, err) := readAt fh k (fh_roffset fh) in
    Ret (set_roffset fh (i64 (fh_roffset fh + zlen out)), out, err).

Definition fh_Seek (fh : ReadFileHandle) (offset whence : Z) : ReadFileHandle * Z * option verror :=
  if f_NoSeek f then (fh, 0, Some ESPIPE)
  else
    let base := if whence =? 0 then 0 else if whence =? 2 then fh_size fh else fh_roffset fh in
    (set_roffset fh (i64 (base + offset)), i64 (base + offset), None).

Definition checkHash (fh : ReadFileHandle) : option verror :=
  match fh_hash fh with
  | None => None
  | Some b =>
      if negb (fh_readCalled fh) || (fh_offset fh <? fh_size fh) then None
      else match f_Hash f with
           | HashGone => None
           | HashFails e => Some (HashErr e)
           | HashSum sum => if Hash.Equals (f_sum f b) sum then None else Some ErrCorrupted
           end
  end.

Definition fh_close (fh : ReadFileHandle) : outcome (ReadFileHandle * option verror) :=
  if fh_closed fh then Ret (fh, Some ECLOSED)
  else
    let closed r := mkFH r (fh_size fh) (fh_offset fh) (fh_roffset fh) (fh_hash fh) true (fh_readCalled fh)
                      (fh_sizeUnknown fh) (fh_opened fh) (fh_requests fh) in
    if fh_opened fh then
      let! r := deref (fh_r fh) in
      match Close r with
      | (r, Some e) => Ret (closed (Some r), Some (RErr e))
      | (r, None) => Ret (closed (Some r), checkHash fh)
      end
    else Ret (closed (fh_r fh), None).

Definition Flush (fh : ReadFileHandle) : option verror :=
  if negb (fh_opened fh) then None else checkHash fh.

Definition Release (fh : ReadFileHandle) : outcome (ReadFileHandle * option verror) :=
  if negb (fh_opened fh) then Ret (fh, None)
  else if fh_closed fh then Ret (fh, None)
  else fh_close fh.

End handle.

(** ** What a handle reads *)

(** The file is what it says it is; [full] as in ChunkedReader: nothing fails, or
    anything may. *)
Record file_ok (full : bool) (f : File) : Prop := {
  fo_size : o_Size (f_o f) = zlen (o_data (f_o f));
  fo_fits : zlen (o_data (f_o f)) <= i64_max;
  fo_chunks : in_i64 (f_ChunkSize f) /\ in_i64 (f_ChunkSizeLimit f);
  fo_answers n : answers_ok full (o_data (f_o f)) (o_answers (f_o f) n) }.

Section correct.
Variables (full : bool) (f : File).
Hypothesis (Hf : file_ok full f).

Abbreviation data := (o_data (f_o f)).
Abbreviation size := (zlen (o_data (f_o f))).

Lemma new_reader_inv requests : config_ok (cfg f) full /\ ChunkedReader.inv (cfg f) full (new_reader f requests).
Proof using Hf.
  destruct Hf as [Hs Hfit [Hc1 Hc2] Ha].
  destruct (newSequential_inv full (f_o f) (f_ChunkSize f) (f_ChunkSizeLimit f) _ _ eq_refl Hc1 Hc2 Hfit ltac:(lia) Ha)
    as (Hok & [[] Hr] & _). split; [done|]. split; [by split|]. intros _. by left.
Qed.

Lemma cfg_ok : config_ok (cfg f) full.
Proof using Hf. apply (new_reader_inv []). Qed.

(** Where the reader of a handle is: at the offset of the handle, or in a state
    in which it gives nothing but errors. *)
Definition aligned (r : sequential) (offset : Z) : Prop :=
  if full then cr_closed r = false /\ pos r = offset
  else cr_closed r = true \/ stopped r \/ (cr_closed r = false /\ pos r = offset).

Lemma aligned_at r offset : cr_closed r = false -> pos r = offset -> aligned r offset.
Proof. intros ??. unfold aligned. destruct full; auto. Qed.

(** One read of the reader. *)
Lemma ReadFull_r_spec r offset k : ChunkedReader.inv (cfg f) full r -> aligned r offset -> 0 <= offset -> 0 <= k ->
  exists r' out err, ReadFull_r f r k = Ret (r', out, err) /\ ChunkedReader.inv (cfg f) full r' /\ zlen out <= k /\
    zdrop offset data = out ++ zdrop (offset + zlen out) data /\
    match err with
    | None => zlen out = k /\ aligned r' (offset + zlen out)
    | Some e => (full = false /\ aligned r' offset /\ aligned r' (offset + zlen out)) \/
                (full = true /\ is_eof e = true /\ zdrop (offset + zlen out) data = [] /\ aligned r' (offset + zlen out))
    end.
Proof using Hf.
  intros Hinv Hal Ho Hk. pose proof cfg_ok as Hok. unfold ReadFull_r. case_if; breflect.
  { exists r, [], None. change (zlen []) with 0. rewrite Z.add_0_r. split_and!; auto; lia. }
  assert (full = false -> cr_closed r = true \/ stopped r -> exists r' e, Read (cfg f) r k = Ret (r', [], Some e) /\
    ChunkedReader.inv (cfg f) full r' /\ aligned r' offset) as Hdead.
  { intros Efull [Hcl|Hst].
    - exists r, ErrorFileClosed. unfold Read. rewrite Hcl. split_and!; auto.
    - destruct (stopped_Read (cfg f) full Hok r k Efull Hinv Hst) as (r' & e & -> & Hinv' & Hst'); [lia|].
      exists r', e. split_and!; auto. unfold aligned. rewrite Efull. auto. }
  assert (cr_closed r = false /\ pos r = offset \/ full = false /\ (cr_closed r = true \/ stopped r)) as [[Hcl Hpos]|[Efull Hst]].
  { unfold aligned in Hal. destruct full; [by left|]. destruct Hal as [?|[?|?]]; auto. }
  2:{ destruct (Hdead Efull Hst) as (r' & e & -> & Hinv' & Hal'). cbn [obind].
      exists r', []. eexists. split; [done|]. change (zlen []) with 0. rewrite Z.add_0_r.
      split; [done|]. split; [done|]. split; [done|].
      rewrite Z.geb_leb, (proj2 (Z.leb_gt k 0)) by lia. cbn. destruct e; auto. }
  destruct (seq_Read_spec (cfg f) full Hok r k Hinv Hcl Hk) as (r' & out & e & Hread & Hinv' & Hcl' & Hp' & Hz & Hl & Hn & He).
  rewrite Hread. cbn [obind]. rewrite Hpos in *. exists r', out. eexists. split; [done|]. rewrite Hp' in Hz.
  split_and!; auto. rewrite Z.geb_leb. case_if; breflect.
  { split; [lia|]. apply aligned_at; [done|lia]. }
  destruct e as [e|]; [|specialize (Hn eq_refl); lia].
  assert (aligned r' (offset + zlen out)) as Hal' by (apply aligned_at; [done|lia]).
  assert (full = true \/ full = false) as [Efull|Efull] by (destruct full; auto).
  - destruct (He Efull) as [?|[Ee Hend]]; [done|]. injection Ee as ->. rewrite Hp' in Hend.
    rewrite Z.gtb_ltb. case_if; right; done.
  - assert (aligned r' offset) as Hal0.
    { unfold Read in Hread. rewrite Hcl in Hread.
      destruct (Read_loop_error (cfg f) full Hok _ _ _ _ _ _ _ Efull Hinv Hcl Hread) as [Hst|(Eo & Eo' & Eco & Eout)].
      - unfold aligned. rewrite Efull. auto.
      - apply aligned_at; [done|]. subst out. change (zlen []) with 0 in Hp'. lia. }
    destruct e; [case_if|..]; by left.
Qed.

(** A handle that is open: its reader, and what its hasher has seen. *)
Record inv (fh : ReadFileHandle) : Prop := {
  fi_size : fh_size fh = size /\ fh_sizeUnknown fh = false;
  fi_offset : 0 <= fh_offset fh <= size;
  fi_hash b : fh_hash fh = Some b -> b = ztake (fh_offset fh) data;
  fi_pending : fh_opened fh = false -> fh_offset fh = 0;
  fi_reader : fh_opened fh = true -> fh_closed fh = false ->
    exists r, fh_r fh = Some r /\ ChunkedReader.inv (cfg f) full r /\ aligned r (fh_offset fh) }.

(** What a part of a call keeps. *)
Definition kept (fh fh' : ReadFileHandle) : Prop :=
  fh_opened fh' = true /\ fh_closed fh' = false /\ fh_roffset fh' = fh_roffset fh.

Lemma RangeSeek_ok r offset : ChunkedReader.inv (cfg f) full r -> cr_closed r = false -> 0 <= offset < size ->
  exists r' n, RangeSeek (cfg f) r offset 0 (-1) = (r', n, None) /\ ChunkedReader.inv (cfg f) full r' /\
    cr_closed r' = false /\ pos r' = offset.
Proof using Hf.
  intros Hinv Hcl Ho. pose proof (fo_size full f Hf) as Hs. pose proof (fo_fits full f Hf).
  assert (in_i64 offset) as Hin by (unfold in_i64, i64_min in *; lia).
  pose proof (RangeSeek_spec (cfg f) full cfg_ok r offset 0 (-1) Hinv Hin ltac:(by vm_compute)) as Hx.
  unfold RangeSeek in *. rewrite Hcl in *. cbn [Z.eqb andb] in *. rewrite Z.add_0_l, i64_id in * by done.
  change (c_o (cfg f)) with (f_o f) in *. rewrite Hs in *.
  rewrite (proj2 (Z.ltb_ge offset 0)), Z.geb_leb, (proj2 (Z.leb_gt size offset)) in * by lia. cbn [orb] in *.
  do 2 eexists. split; [done|]. split_and!; [by destruct Hx|done|done].
Qed.

Lemma seek_spec fh offset reopen : inv fh -> fh_opened fh = true -> fh_closed fh = false -> 0 <= offset < size ->
  exists fh' err, seek f fh offset reopen = Ret (fh', err) /\ inv fh' /\ kept fh fh' /\
    match err with
    | None => fh_offset fh' = offset
    | Some _ => full = true -> f_NoSeek f = true
    end.
Proof using Hf.
  intros Hinv Hop Hcl Ho. pose proof Hinv as [Hs Hoff Hh Hp Hr].
  destruct (Hr Hop Hcl) as (r & Er & Hri & Hal). unfold seek. destruct (f_NoSeek f) eqn:Ens.
  { exists fh, (Some ESPIPE). by split_and!. }
  rewrite Er. cbn [deref obind].
  assert (forall r' off reqs, ChunkedReader.inv (cfg f) full r' -> aligned r' off -> 0 <= off <= size ->
    inv (set_r fh (Some r') off None (fh_opened fh) reqs) /\ kept fh (set_r fh (Some r') off None (fh_opened fh) reqs)) as Hset.
  { intros r' off reqs Hi' Ha' Hoff'. split; [|by split_and!]. split; cbn; auto; [done|congruence|].
    intros _ _. by exists r'. }
  destruct reopen; cbn [negb].
  - pose proof (seq_Close_spec (cfg f) full cfg_ok r Hri) as Hc.
    assert (cr_closed (Close r).1 = true) as Hclosed.
    { unfold Close. destruct (cr_closed r) eqn:E; [done|]. unfold resetReader. cbn.
      destruct (cr_rc r) as [rc|]; [by destruct (rc_closeErr rc)|done]. }
    destruct (Close r) as [r1 e1]. destruct Hc as [Hr1 _]. cbn in Hclosed.
    destruct (new_reader_inv (cr_requests r1)) as [_ Hnew].
    destruct (RangeSeek_ok (new_reader f (cr_requests r1)) offset Hnew eq_refl Ho) as (r2 & n & Hseek & Hr2 & Hcl2 & Hp2).
    unfold Seek. rewrite Hseek. pose proof (Open_spec (cfg f) full cfg_ok r2 Hr2) as Hopen.
    destruct (Open (cfg f) r2) as [r3 [e|]]; destruct Hopen as (Hr3 & Habs & Hfull).
    + do 2 eexists. split; [done|].
      assert (full = false) as Efull.
      { destruct full; [|done]. by specialize (Hfull eq_refl Hcl2). }
      destruct (Hset r1 (fh_offset fh) (cr_requests r3) Hr1) as [? ?]; [unfold aligned; rewrite Efull; auto|lia|].
      split_and!; auto. by rewrite Efull.
    + unfold abs in Habs. rewrite Hcl2 in Habs. injection Habs as Hp3 Hcl3. rewrite Hcl3 in Hp3.
      destruct (Hset r3 offset (cr_requests r3) Hr3) as [? ?]; [apply aligned_at; [done|congruence]|lia|].
      do 2 eexists. split; [done|]. by split_and!.
  - destruct (cr_closed r) eqn:Ecl.
    + unfold RangeSeek. rewrite Ecl. assert (full = false) as Efull.
      { unfold aligned in Hal. destruct full; [|done]. destruct Hal. congruence. }
      do 2 eexists. split; [done|]. destruct (Hset r (fh_offset fh) (cr_requests r) Hri Hal Hoff) as [? ?].
      split_and!; auto. by rewrite Efull.
    + destruct (RangeSeek_ok r offset Hri Ecl Ho) as (r2 & n & -> & Hr2 & Hcl2 & Hp2).
      destruct (Hset r2 offset (cr_requests r2) Hr2) as [? ?]; [by apply aligned_at|lia|].
      do 2 eexists. split; [done|]. by split_and!.
Qed.

(** What was hashed before and what was just read. *)
Lemma hash_more off out : 0 <= off -> off + zlen out <= size ->
  zdrop off data = out ++ zdrop (off + zlen out) data -> ztake off data ++ out = ztake (off + zlen out) data.
Proof using Hf.
  intros Ho Hle Hz. pose proof (zlen_nonneg out).
  rewrite <- (ztake_zdrop off data) at 2. rewrite Hz, ztake_ge_app by zlen.
  rewrite zlen_ztake, Z.max_r, Z.min_l by lia.
  replace (off + zlen out - off) with (zlen out) by lia. by rewrite ztake_app_eq.
Qed.

Definition prefix_at (off : Z) (out : bytes) : Prop := exists t, zdrop off data = out ++ t.

(** One turn: right bytes in any case, all of them if nothing fails. *)
Lemma attempt_spec fh k off out doSeek doReopen : inv fh -> fh_opened fh = true -> fh_closed fh = false ->
  (doSeek = false -> off = fh_offset fh) -> 0 <= off -> 0 <= k -> prefix_at off out ->
  exists t, attempt f fh k off out doSeek doReopen = Ret t /\
    match t with
    | Finished fh' out' err =>
        inv fh' /\ kept fh fh' /\ prefix_at off out' /\ (err = None -> zlen out' = k) /\
        (err = None \/ err = Some (RErr EOF) /\ zdrop off data = out') /\ zlen out' <= k
    | Failed fh' out' e =>
        inv fh' /\ kept fh fh' /\ prefix_at off out' /\ (full = true -> doSeek = true /\ f_NoSeek f = true)
    end.
Proof using Hf.
  intros Hinv Hop Hcl Hns Ho Hk Hpre. pose proof Hinv as [[Hs Hu] Hoff _ _ _]. unfold attempt. rewrite Hs.
  destruct (doSeek && (off >=? size)) eqn:Eend.
  { eexists. split; [done|]. breflect. split_and!; auto; [by split_and!|by exists (zdrop off data)|done|].
    right. split; [done|]. apply zdrop_all. lia. }
  assert (exists fh1 err, (if doSeek then seek f fh off doReopen else Ret (fh, None)) = Ret (fh1, err) /\
    inv fh1 /\ kept fh fh1 /\ match err with None => fh_offset fh1 = off | Some _ => full = true -> doSeek = true /\ f_NoSeek f = true end)
    as (fh1 & err & -> & Hinv1 & (Hop1 & Hcl1 & Hro1) & Herr).
  { destruct doSeek.
    - cbn in Eend. breflect. destruct (seek_spec fh off doReopen Hinv Hop Hcl ltac:(lia)) as (fh1 & err & -> & ? & ? & ?).
      exists fh1, err. split_and!; auto. destruct err; auto.
    - exists fh, None. split_and!; auto; [by split_and!|symmetry; auto]. }
  cbn [obind]. destruct err as [e|].
  { eexists. split; [done|]. split_and!; auto. by split_and!. }
  pose proof Hinv1 as [[Hs1 Hu1] Hoff1 Hh1 Hp1 Hr1]. destruct (Hr1 Hop1 Hcl1) as (r & Er & Hri & Hal).
  rewrite Er. cbn [deref obind]. subst off.
  destruct (ReadFull_r_spec r (fh_offset fh1) k Hri Hal Ho Hk) as (r' & out' & err & -> & Hri' & Hl & Hz & Hcase).
  cbn [obind]. set (fh2 := set_read fh1 r' (if k >? 0 then true else fh_readCalled fh1)).
  assert (fh_offset fh2 = fh_offset fh1) as E2 by done. rewrite E2.
  pose proof (zlen_nonneg out') as Hn. pose proof (fo_fits full f Hf) as Hfit.
  assert (zlen (zdrop (fh_offset fh1) data) = zlen out' + zlen (zdrop (fh_offset fh1 + zlen out') data)) as Hlen
    by (rewrite Hz at 1; zlen).
  assert (fh_offset fh1 + zlen out' <= size) as Hle by (autorewrite with zlen in Hlen; lia).
  rewrite i64_id by (unfold in_i64, i64_min in *; lia).
  assert (aligned r' (fh_offset fh1) -> inv fh2) as Hinv2.
  { intros Ha. split; cbn; auto. intros _ _. by exists r'. }
  assert (prefix_at (fh_offset fh1) out') as Hpre' by (by eexists).
  assert (aligned r' (fh_offset fh1 + zlen out') -> inv (finish fh2 (fh_offset fh1 + zlen out') out' k).1.1 /\
    kept fh (finish fh2 (fh_offset fh1 + zlen out') out' k).1.1) as Hfin.
  { intros Ha. split; [|by split_and!]. split; cbn; auto; [lia| |congruence|].
    - intros b Hb. destruct (fh_hash fh1) as [b0|] eqn:Eb; [|done]. injection Hb as <-. rewrite (Hh1 b0 eq_refl).
      by apply hash_more.
    - intros _ _. by exists r'. }
  destruct err as [e|].
  2:{ destruct Hcase as [Hall Ha]. destruct (Hfin Ha) as [? ?]. eexists. split; [done|]. split_and!; auto.
      left. by rewrite (proj2 (Z.eqb_eq _ _) Hall). }
  change (fh_size fh2) with (fh_size fh1). change (fh_sizeUnknown fh2) with (fh_sizeUnknown fh1).
  rewrite Hs1, Hu1, orb_false_r. destruct (is_eof e && _) eqn:Eeof.
  - breflect. assert (aligned r' (fh_offset fh1 + zlen out')) as Ha by (destruct Hcase as [(_ & _ & ?)|(_ & _ & _ & ?)]; done).
    destruct (Hfin Ha) as [? ?]. eexists. split; [done|]. split_and!; auto.
    + unfold finish. destruct (zlen out' =? k) eqn:Ek; cbn; [|done]. breflect. done.
    + unfold finish. destruct (zlen out' =? k) eqn:Ek; cbn; [by left|right]. split; [done|].
      rewrite Hz, (zdrop_all (fh_offset fh1 + zlen out')) by lia. by rewrite app_nil_r.
  - destruct Hcase as [(Efull & Ha & _)|(Efull & Ee & Hend & _)].
    + eexists. split; [done|]. split_and!; auto; [by split_and!|]. by rewrite Efull.
    + exfalso. rewrite Ee in Eeof. cbn in Eeof. breflect. apply Eeof.
      assert (zlen (zdrop (fh_offset fh1 + zlen out') data) = 0) as E0 by (by rewrite Hend).
      rewrite zlen_zdrop in E0. lia.
Qed.

(** The loop. *)
Lemma attempts_spec left fh k off out doSeek doReopen : inv fh -> fh_opened fh = true -> fh_closed fh = false ->
  (doSeek = false -> off = fh_offset fh) -> 0 <= off -> 0 <= k -> prefix_at off out ->
  exists fh' out' err, attempts f left fh k off out doSeek doReopen = Ret (fh', out', err) /\
    inv fh' /\ kept fh fh' /\ prefix_at off out' /\ (err = None -> zlen out' = k) /\
    (full = true -> (doSeek = true -> f_NoSeek f = false) ->
       out' = ztake k (zdrop off data) /\ (err = None \/ err = Some (RErr EOF))).
Proof using Hf.
  revert fh out doSeek doReopen. induction left as [|left IH]; intros fh out doSeek doReopen Hinv Hop Hcl Hns Ho Hk Hpre.
  all: cbn [attempts]; destruct (attempt_spec fh k off out doSeek doReopen Hinv Hop Hcl Hns Ho Hk Hpre) as (t & -> & Ht).
  all: cbn [obind]; destruct t as [fh1 out1 err|fh1 out1 e].
  all: try (destruct Ht as (? & ? & [t Hpre'] & Hall & Hor & Hle); exists fh1, out1, err; split_and!; auto; [by exists t|];
    intros _ _; split; [|destruct Hor as [?|[? _]]; auto]; destruct Hor as [E|[_ Hz]];
    [rewrite Hpre', ztake_app_le, ztake_all by (rewrite Hall by done; lia); done|by rewrite Hz, ztake_all]).
  - destruct Ht as (? & ? & ? & Hno). exists fh1, out1, (Some e). split_and!; auto; [done|].
    intros Efull Hx. destruct (Hno Efull) as [Ed En]. by rewrite Hx in En.
  - destruct Ht as (Hinv1 & (Hop1 & Hcl1 & Hro1) & Hpre1 & Hno).
    destruct (IH fh1 out1 true true Hinv1 Hop1 Hcl1 ltac:(done) Ho Hk Hpre1) as (fh' & out' & err & -> & ? & (? & ? & ?) & ? & ? & ?).
    exists fh', out', err. split_and!; auto; [split_and!; congruence|].
    intros Efull Hx. destruct (Hno Efull) as [Ed En]. by rewrite Hx in En.
Qed.

Lemma openPending_spec fh : inv fh -> fh_closed fh = false ->
  let '(fh', err) := openPending f fh in
  inv fh' /\ fh_closed fh' = false /\
  match err with None => fh_opened fh' = true /\ fh_offset fh' = fh_offset fh | Some _ => full = false end.
Proof using Hf.
  intros Hinv Hcl. unfold openPending. destruct (fh_opened fh) eqn:Hop; [done|].
  destruct (new_reader_inv (fh_requests fh)) as [_ Hnew].
  pose proof (Open_spec (cfg f) full cfg_ok _ Hnew) as Hopen. pose proof Hinv as [Hs Hoff Hh Hp _].
  destruct (Open (cfg f) (new_reader f (fh_requests fh))) as [r [e|]]; destruct Hopen as (Hr & Habs & Hfull).
  - split; [split; cbn; auto; done|]. split; [done|]. destruct full; [|done]. by specialize (Hfull eq_refl eq_refl).
  - unfold abs in Habs. cbn in Habs. injection Habs as Hpr Hclr. rewrite Hclr in Hpr. cbn in Hpr.
    split; [|by split_and!]. split; cbn; auto. intros _ _. exists r. split_and!; [done|done|].
    apply aligned_at; [done|]. rewrite (Hp Hop). done.
Qed.

(** What a call may answer. *)
Definition answer_ok (call : Z * Z) (res : bytes * option verror) : Prop :=
  prefix_at call.2 res.1 /\ (res.2 = None -> zlen res.1 = call.1) /\
  (full = true -> f_NoSeek f = false -> res.1 = ztake call.1 (zdrop call.2 data) /\ (res.2 = None \/ res.2 = Some (RErr EOF))).

Lemma readAt_spec fh k off : inv fh -> fh_closed fh = false -> 0 <= k -> 0 <= off ->
  exists fh' out err, readAt f fh k off = Ret (fh', out, err) /\ inv fh' /\ fh_closed fh' = false /\
    answer_ok (k, off) (out, err).
Proof using Hf.
  intros Hinv Hcl Hk Ho. unfold readAt. pose proof (openPending_spec fh Hinv Hcl) as Hopen.
  assert (prefix_at off []) as Hnil by (by exists (zdrop off data)).
  destruct (openPending f fh) as [fh1 [e|]]; destruct Hopen as (Hinv1 & Hcl1 & Hx).
  { exists fh1, []. eexists. split; [done|]. split; [done|]. split; [done|]. split; [done|]. split; [done|]. by rewrite Hx. }
  destruct Hx as [Hop1 Hoff1]. rewrite Hcl1. destruct (negb (off =? fh_offset fh1) && f_NoSeek f) eqn:Ens.
  { exists fh1, []. eexists. split; [done|]. split; [done|]. split; [done|]. split; [done|]. split; [done|].
    intros _ E. breflect. congruence. }
  destruct (attempts_spec (Z.to_nat (f_LowLevelRetries f)) fh1 k off [] (negb (off =? fh_offset fh1)) false Hinv1 Hop1 Hcl1)
    as (fh' & out & err & -> & Hinv' & (_ & Hcl' & _) & Hpre & Hall & Hfull); [|done|done|done|].
  { intros E. by breflect. }
  exists fh', out, err. split; [done|]. split; [done|]. split; [done|]. split; [done|]. split; [done|].
  intros Efull En. by apply Hfull.
Qed.

Lemma newReadFileHandle_inv : inv (newReadFileHandle f).
Proof using Hf.
  pose proof (fo_size full f Hf) as Hs. pose proof (zlen_nonneg data) as Hn.
  split; cbn; auto; [|lia|..]; try done.
  - unfold nonNegative. rewrite Hs, Z.geb_leb, (proj2 (Z.leb_le 0 _)), (proj2 (Z.ltb_ge _ 0)) by done. done.
  - intros b. destruct (f_NoChecksum f); [done|]. by intros [= <-].
Qed.

(** An object whose hash is that of its bytes is never found to be corrupted. *)
Lemma checkHash_spec fh : inv fh -> f_Hash f = HashSum (f_sum f data) -> checkHash f fh = None.
Proof using Hf.
  intros [[Hs _] Hoff Hh _ _] Hsum. unfold checkHash. destruct (fh_hash fh) as [b|]; [|done].
  rewrite Hsum, Hs. destruct (negb _ || _) eqn:E; [done|]. apply orb_false_iff in E as [_ E]. breflect.
  rewrite (Hh b eq_refl), ztake_all by lia. unfold Hash.Equals.
  rewrite (proj2 (GoPath.str_eqb_eq _ _) eq_refl). by destruct (_ || _).
Qed.

End correct.

(** A sequence of reads with the given lengths and offsets. *)
Fixpoint readAts (f : File) (fh : ReadFileHandle) (calls : list (Z * Z))
    : outcome (ReadFileHandle * list (bytes * option verror)) :=
  match calls with
  | [] => Ret (fh, [])
  | (k, off) :: calls =>
      let! (fh, out, err) := readAt f fh k off in
      let! (fh, rs) := readAts f fh calls in
      Ret (fh, (out, err) :: rs)
  end.

Lemma readAts_spec full f fh calls : file_ok full f -> inv full f fh -> fh_closed fh = false ->
  Forall (fun c => 0 <= c.1 /\ 0 <= c.2) calls ->
  exists fh' rs, readAts f fh calls = Ret (fh', rs) /\ inv full f fh' /\ Forall2 (answer_ok full f) calls rs.
Proof.
  intros Hf. revert fh. induction calls as [|[k off] calls IH]; intros fh Hinv Hcl Hcalls.
  { by exists fh, []. }
  inversion Hcalls as [|?? [Hk Ho] Hcalls']; subst. cbn [readAts fst snd] in *.
  destruct (readAt_spec full f Hf fh k off Hinv Hcl Hk Ho) as (fh1 & out & err & -> & Hinv1 & Hcl1 & Hans). cbn [obind].
  destruct (IH fh1 Hinv1 Hcl1 Hcalls') as (fh' & rs & -> & Hinv' & Hall). cbn [obind].
  exists fh', ((out, err) :: rs). split_and!; [done|done|by constructor].
Qed.


Definition demo_file (size : Z) (answers : nat -> answer) : File :=
  mkFile (mkObject size [1; 2; 3; 4; 5] answers) 2 4 false false 2 (fun b => FormatInt (zlen b)) (HashSum "5").





(** With the same error in a file of known size the read is tried again. *)
Example known_size_retries :
  let f := demo_file 5 (fun n => if (n =? 0)%nat then AStream 1 (ErrOther 5) [] None None else whole n) in
  exists fh, readAts f (newReadFileHandle f) [(4, 0); (1, 4)] = Ret (fh, [([1; 2; 3; 4], None); ([5], None)]) /\
    checkHash f fh = None.
Proof. eexists. vm_compute. done. Qed.

(** When the retries are used up on streams that end early, the read ends with
    the EOF of the stream, which looks like the end of the file. *)
Example retries_end_in_eof :
  let f := demo_file 5 (fun n => AStream 0 EOF [] None None) in
  exists fh, readAts f (newReadFileHandle f) [(4, 0)] = Ret (fh, [([], Some (RErr EOF))]).
Proof. eexists. vm_compute. reflexivity. Qed.

End VfsRead.
